(* ===== verification/_CoqProject ===== *)
-Q . S2P
Prelude.v
BigInt.v
CommonMath.v
Hexutil.v
Keccak.v
Sha3.v
Rlp.v
RlpStream.v
RlpProofs.v
RlpRoundTrip.v
RlpEnds.v
RlpTyping.v
StdCrypto.v
FieldPoly.v
Curve.v
Secp256k1.v
Ecies.v
Signature.v
Rlpx.v
Handshake.v
Peer.v
PeerLoop.v
Setup.v
Schnorr.v
Protocol.v
Generators.v
Instances.v
BaseStep.v
Steps.v
Context.v
Signing.v
Keystore.v
Validator.v
Distributor.v
Storeman.v
Wire.v
KeyGen.v
Netutil.v
Node.v
Table.v
Lookup.v
DialHistory.v
Dial.v
Server.v
Group.v
Session.v
SignSession.v
KeySession.v
Packets.v
Replies.v
NodeDB.v
Discovery.v
TableLoop.v
