(* ===== verification/Prelude.v ===== *)
(** * Schnorr threshold signatures of the storeman group: verification

    ** The program

    A node of the storeman group (Go, [src/storeman]) takes part in two
    protocols with the other nodes of its group.  In the first the group creates a
    key: every node deals the values of a random polynomial, adds the values it
    receives to a share, publishes the point of its share, interpolates the group
    key in the exponent, stores its account and compares the key with the
    others.  In the second the group signs: a nonce is dealt in the same way, every
    node publishes a signature share, and the shares are interpolated, echoed and
    verified.  The parts, from the bottom:

    - the curve and the polynomials: [src/crypto/secp256k1/curve.go],
      [src/storeman/shcnorrmpc/basicfunc.go];
    - the steps of the protocols, which exchange messages through channels:
      [src/storeman/storemanmpc/step];
    - contexts, which run the steps of one protocol on a shared result store:
      [mpc_context.go], [mpc_create_gpk.go], [mpc_sign_data.go], [mpc_ctx_factory.go];
    - the distributor of a node, which creates contexts, routes messages and keeps
      accounts: [mpc_distributor.go], with the key store [src/accounts/keystore];
    - the approval of the data to sign: [src/storeman/validator];
    - the service, its connections and its remote interface: [src/storeman/storeman.go],
      [peer.go];
    - the network below it: RLP ([src/rlp]), SHA-3 ([src/crypto/sha3]), encryption to a key
      ([src/crypto/ecies]), signatures ([src/crypto/signature_cgo.go]), and the encrypted connections of
      [src/p2p], on which the storeman protocol is one of several;
    - the server that makes and accepts these connections, its dialer and the discovery of nodes with its
      packets, its table of known nodes and its database: [src/p2p/server.go], [dial.go],
      [src/p2p/discover/udp.go], [table.go], [node.go], [database.go], [src/p2p/netutil].

    ** The files

    - [Prelude.v]: results of Go calls ([outcome]: value, error or panic), bytes,
      big-endian integers, slices, loops; tactics [go_cases], [go_bind] and the
      database [gomodel].
    - [BigInt.v]: what is used of [math/big].  [CommonMath.v]: [src/common/math/big.go].
      [Hexutil.v]: [src/common/hexutil].
    - [Keccak.v]: the permutation of [keccakf.go] as written, and its specification in lanes.
      [Sha3.v]: the sponge with its buffer that aliases the storage, all hash functions.
    - [Rlp.v]: types and values of Go, the encoder.  [RlpStream.v]: the decoder, as a monad over the
      [Stream].  [RlpProofs.v]: what the operations of a stream consume.  [RlpRoundTrip.v]: decoding and
      encoding are inverse.  [RlpEnds.v]: decoding ends.  [RlpTyping.v]: decoded values have their type.
    - [StdCrypto.v]: AES, counter mode, SHA-256 and HMAC of the Go library, computed and tested on the
      vectors of their standards.  [Ecies.v]: [src/crypto/ecies].  [Signature.v]: signing and recovery over
      the C library (class [SecpC]).
    - [Rlpx.v]: the frames of [src/p2p/rlpx.go], and two queues of messages as their specification.
      [Handshake.v]: the encryption handshake.  [Peer.v]: protocols and codes of a connection
      ([peer.go], [protocol.go], [peer_error.go]).  [PeerLoop.v]: the goroutines of [Peer.run].  [Setup.v]: the
      protocol handshake.
    - [FieldPoly.v]: polynomials and Lagrange interpolation over a prime field.
      [Curve.v]: the interface of the curve ([EllipticCurve]), what the
      protocol relies on ([CurveGroup]), and the encoding of points.
      [Secp256k1.v]: the arithmetic of [BitCurve], and a small curve run by the same
      code, on which the properties are instantiated.
    - [Schnorr.v]: [basicfunc.go].  [Protocol.v]: constants, messages, the order of
      the group and the result store.  [Generators.v]: the generators the steps
      embed.  [Instances.v]: concrete parameters for the witnesses.
    - [BaseStep.v]: the skeleton of a step with its channels, its message loop
      goroutine and their interleavings.  [Steps.v]: every concrete step.
      [Context.v]: contexts and [mainMPCProcess].
    - [Signing.v]: the rounds of a signature.  [KeyGen.v]: the rounds of a group key,
      and their composition with storage and signing.
    - [Group.v]: the nodes of a group with messages on their way, over any context.  [Session.v]: how such a
      group runs the steps of its contexts, with nodes that are down and steps that time out.  [SignSession.v],
      [KeySession.v]: the two protocols in it, from the first step to the result of [mainMPCProcess].
    - [Keystore.v]: addresses and key files.  [Validator.v]: approval.
      [Distributor.v]: the distributor.  [Storeman.v]: the service.  [Wire.v]: the messages of
      the service in RLP, and their way from one node to the distributor of another.
    - [Netutil.v]: networks of addresses ([net.go]).  [Node.v]: nodes and the distances between them.
      [Table.v]: the table with its buckets, and its operations as steps of one relation.  [Lookup.v]: the
      search for the nodes nearest to a target.
    - [Packets.v]: the packets of discovery, their RLP forms and signed envelope.  [Replies.v]: the queue of
      pending replies with its timer.  [NodeDB.v]: the database of nodes and its expiration.
      [Discovery.v]: requests, handlers, the loop over datagrams, and bonding of two nodes.
      [TableLoop.v]: the goroutines of the table: refreshes, [Close], and the processes of [bond].
    - [DialHistory.v]: the heap of recent dials.  [Dial.v]: the dialer ([dialstate]); tasks are pointers into a
      store, because static tasks are shared with the goroutines that run them.  [Server.v]: the loop [run], the
      listener, the set-up of connections, the goroutines of tasks and peers and [Stop], as one step relation.

    Definitions have the names of the code; methods are prefixed with their type
    where names clash, and lower-case names with underscores are loops or blocks
    of the function named in their comment.

    ** What is proved

    - Arithmetic: addition and doubling are the chord and tangent constructions and
      stay on the curve ([Secp256k1]); interpolation of scalars and of points
      gives the value of the polynomial at zero; [Exp] is exponentiation modulo
      [2^256]; encodings have fixed width and are read back.
    - Protocol: for any order of arrival and any large enough set of senders the
      rounds of [Signing.v] end with [R = r G] and [s = gsk m + r]; [verifyRS]
      accepts exactly that equation; a group that creates a key, stores it and
      signs later gets such a signature under that key ([KeyGen.keygen_then_sign]).
    - Groups: over all executions of a group, with nodes that are down and steps that time out, the nodes that
      run end with the same signature, valid under the group key, as long as enough of them run
      ([SignSession]); when all run they create the same key, with shares that sign under it
      ([KeySession]).  Executions have at most [n * 13 * (2 n + 7)] and [n * 11 * (2 n + 6)] steps.  It is assumed that
      the contexts exist when the protocol starts, that messages between running nodes
      are not lost, and that a step times out only when nothing more is to come for it.
    - Steps: over all interleavings the finish channel never overflows, and a step
      that finishes has accepted all it waited for ([BaseStep]).
    - Node: a request is accepted by every node with the same group; peers survive the
      wire form; accounts are found again; only approved data is signed; messages
      touch only the step they name; only nodes of the group are connected.
    - Encodings: the permutation is Keccak-f[1600], every use of a hash is the sponge construction
      (with the offset that a sum after a read has in the code), the three outputs of the RLP encoder agree, decoding is its
      inverse, accepts only canonical encodings, respects types, ends on every input and does not panic on input
      with a limit ([Rlp*.v]).
    - Network: what is encrypted to a key is decrypted with it; a handshake between two nodes succeeds and its
      connection behaves as two queues; an accepted frame carries the MACs of the connection; both
      nodes give a protocol the same codes; the goroutines of a connection never block on a
      channel and end when it is closed ([Ecies], [Handshake], [Rlpx], [Peer], [PeerLoop]).
    - Server: over all interleavings of its goroutines the limits on peers hold, no node is connected or dialled twice,
      tasks are bounded and never block, and the spin-down completes ([Server]); a node is not
      redialled within thirty seconds, and the nodes to keep connected are dialled and not forgotten ([Dial]); the table of
      nodes keeps its shape and the limits of its counters of networks, finds the nearest nodes, and lookups end ([Table], [Lookup]).
    - Discovery: packets survive their envelope; no datagram panics a node, and with the bonding it starts it makes a node
      write two small packets at most without a bond, and only to its sender; every
      request is answered at most once and ends in time; two nodes that ping each other are bonded, and a
      query then gets the nearest nodes; the expiration deletes exactly what is known of nodes with an old record; callers of [refresh] and
      [Close] are served, and processes of [bond] share sixteen slots without blocking
      ([Packets], [Replies], [Discovery], [NodeDB], [TableLoop]).
    - The whole: messages of a storeman reach the distributor of another one over all these layers
      ([Wire.storeman_delivery]); of all that can arrive only lists of peers that are too short panic the service, and only
      an address that does not resolve leaves its mutex locked ([Wire.any_packet_handled]).
    - Limits and defects of the code, proved as theorems: seed zero, short messages,
      strangers' shares, the size of the address field, indices beyond one byte,
      locks and channels that block for ever, a decoder that never ends, packets that
      crash a node, codes of two protocols that collide, a server that cannot be stopped, address limits
      that are bypassed, a storeman node that is no longer dialled after it has moved, requests of discovery
      that get no answer, entries of the database that never expire, and a goroutine that never ends.

    ** Choices

    - Integers of [math/big] are [Z]; machine integers are [Z] with their wrap-around
      written where it can happen ([byte(i)], [Uint64], [Int64], three-byte seeds).
      Byte strings are lists of [byte].  Nil pointers are [None] where the code
      can meet one; a nil and an empty slice are not distinguished unless the code does.
    - Functions outside [src] are parameters with their documented behaviour: the iteration order of
      maps ([MapRange]), the C library ([SecpC], [BitCurve]), [scrypt], the encryption of key files and UUIDs
      ([KeyCrypto]), [encoding/json] on the stored types ([JSON]), compression ([Snappy]), the database ([LevelDB]).  The Schnorr
      protocol uses its hash functions through the class [Hashes] (only their output length); [Sha3.v]
      provides an instance.  Every property with such a parameter has a witness with a concrete one.
    - The properties of the protocol are stated for a cyclic group of prime
      order ([CurveGroup]).  That secp256k1 is one is not proved; the small curve of
      [Secp256k1.v] is an instance of the same code.  Hypotheses named [generic]
      exclude the sums on which the addition of the code is wrong.
    - Loops that draw random values until one is new take the draws as an
      argument; the termination theorems give enough draws.  The loops of the sponge take the length of
      their input as fuel, and the decoder one more than the bytes it can read; [RlpEnds] proves
      that this is enough for canonical types.  The loops of the heap and of the binary search take the length of
      their slice.  A lookup takes the list of answers it will get; [Lookup] proves how many are enough.
      All other recursion is structural.
    - Memory suffices, except that [make] panics for a length that no slice can have, which [Stream.Bytes] and [Stream.Raw] take from
      the input: [maxAlloc] is [2^48] bytes, the limit of the runtime on 64-bit machines.  Theorems about decoding therefore bound
      the encodings, the datagrams and the values of the database by it.
    - Logging is left out, except where its arguments can panic.  Time-outs are
      events of the model.  Goroutines are steps of a relation in [BaseStep.v], [PeerLoop.v],
      [Storeman.v], [Table.v], [Server.v], [Group.v], [Session.v], [Replies.v] and [TableLoop.v], and explicit
      scripts of arrivals in [Context.v].
    - The RLP decoder works on a universe of types ([Rlp.typ]) without types that have their own
      [EncodeRLP] or [DecodeRLP]; none of the messages modelled has one.

    ** Not modelled

    Sockets and the clock behind timers, the parsing of node addresses, the query of the database for seed
    nodes (nothing calls it), the experimental discovery protocol, the C library, the key management service,
    the account manager around the key store, and the node, console and command line code inherited from
    go-ethereum.  That secp256k1 has prime order is not proved. *)

From Stdlib Require Export ZArith Lia Strings.Byte Permutation.
From stdpp Require Export base gmap strings list sorting.
From stdpp Require Import numbers.

#[global] Open Scope Z_scope.

(** ** Go results

    A Go call either returns a value, returns a non-nil [error], or panics
    (index out of range, nil dereference, explicit panic).  [error] is the
    text of the error: sentinels of the code are distinct texts. *)

Definition error := string.

Inductive outcome (A : Type) : Type :=
| Ret (a : A)
| Err (e : error)
| Panic.

Arguments Ret {A} a.
Arguments Err {A} e.
Arguments Panic {A}.

#[global] Instance outcome_ret : MRet outcome := @Ret.
#[global] Instance outcome_bind : MBind outcome := fun A B f m =>
  match m with
  | Ret a => f a
  | Err e => Err e
  | Panic => Panic
  end.

#[global] Instance outcome_eq_dec {A} `{EqDecision A} : EqDecision (outcome A).
Proof. solve_decision. Defined.

(** [s[i]] on a slice: panics out of range. *)
Definition idx {A} (l : list A) (i : nat) : outcome A :=
  match l !! i with
  | Some x => Ret x
  | None => Panic
  end.

Definition of_option {A} (o : option A) : outcome A :=
  match o with
  | Some x => Ret x
  | None => Panic
  end.

Fixpoint mapM_out {A B} (f : A -> outcome B) (l : list A) : outcome (list B) :=
  match l with
  | [] => Ret []
  | x :: l' => match f x with
               | Ret y => match mapM_out f l' with
                          | Ret ys => Ret (y :: ys)
                          | Err e => Err e
                          | Panic => Panic
                          end
               | Err e => Err e
               | Panic => Panic
               end
  end.

Create HintDb gomodel.
Create Rewrite HintDb gomodel.

Lemma idx_Ret {A} (l : list A) i x : idx l i = Ret x <-> l !! i = Some x.
Proof. unfold idx. destruct (l !! i); naive_solver. Qed.

Lemma idx_Some {A} (l : list A) i x : l !! i = Some x -> idx l i = Ret x.
Proof. apply idx_Ret. Qed.

Lemma idx_Panic {A} (l : list A) i : (length l <= i)%nat -> idx l i = Panic.
Proof. intros H. unfold idx. by rewrite lookup_ge_None_2. Qed.

Lemma mapM_out_map {A B} (f : A -> outcome B) (g : A -> B) l :
  (forall x, x ∈ l -> f x = Ret (g x)) -> mapM_out f l = Ret (map g l).
Proof.
  induction l as [|x l IH]; intros H; [done|]. cbn.
  rewrite H by set_solver. rewrite IH; [done|]. set_solver.
Qed.

#[export] Hint Resolve idx_Some : gomodel.
#[export] Hint Rewrite @list_lookup_fmap @length_fmap : gomodel.

Lemma Ret_bind {A B} (a : A) (f : A -> outcome B) : (Ret a ≫= f) = f a.
Proof. done. Qed.

Lemma bind_Ret {A B} (m : outcome A) (f : A -> outcome B) b :
  m ≫= f = Ret b -> exists a, m = Ret a /\ f a = Ret b.
Proof. destruct m; cbn; try done. by exists a. Qed.

(** Inverts a hypothesis [E : m ≫= f = Ret b], naming what [m] returned. *)
Tactic Notation "go_bind" hyp(E) "as" simple_intropattern(p) ident(E1) :=
  apply bind_Ret in E as (p & E1 & E).

(** Case analysis on every match of the goal or of a hypothesis that is
    stuck, clearing the impossible branches. *)
Ltac go_cases :=
  repeat (case_match; simplify_eq/=; try done).

(** ** Bytes

    [byte] is Go's [byte]; [ub] and [u8] are the conversions [int(b)] and
    [byte(z)] (which keeps the low eight bits). *)

Abbreviation bytes := (list byte).

Definition ub (b : byte) : Z := Z.of_N (Byte.to_N b).

Definition u8 (z : Z) : byte :=
  match Byte.of_N (Z.to_N (z mod 256)) with
  | Some b => b
  | None => Byte.x00
  end.

Lemma ub_range b : 0 <= ub b < 256.
Proof. unfold ub. pose proof (Byte.to_N_bounded b). lia. Qed.

Lemma ub_u8 z : ub (u8 z) = z mod 256.
Proof.
  unfold u8, ub. pose proof (Z.mod_pos_bound z 256 ltac:(lia)).
  destruct (Byte.of_N _) as [b|] eqn:E.
  - apply Byte.to_of_N in E. lia.
  - apply Byte.of_N_None_iff in E. lia.
Qed.

Lemma u8_ub b : u8 (ub b) = b.
Proof.
  unfold u8, ub. pose proof (Byte.to_N_bounded b).
  rewrite Z.mod_small by lia. by rewrite N2Z.id, Byte.of_to_N.
Qed.

Lemma ub_inj a b : ub a = ub b -> a = b.
Proof. intros H. by rewrite <- (u8_ub a), H, u8_ub. Qed.

#[global] Instance byte_eq_decision : EqDecision byte := Byte.byte_eq_dec.

#[global] Instance byte_inhabited : Inhabited byte := populate Byte.x00.

#[global] Program Instance byte_countable : Countable byte :=
  inj_countable' (fun b => Byte.to_N b)
    (fun n => match Byte.of_N n with Some b => b | None => Byte.x00 end) _.
Next Obligation. intros b. cbn. by rewrite Byte.of_to_N. Qed.

(** ** Big-endian integers

    [be_val] is [big.Int.SetBytes] / [binary.BigEndian.Uint64]; [be_fix n z]
    are the [n] low bytes of [z], most significant first
    ([binary.BigEndian.PutUint64] for [n = 8]). *)

Fixpoint be_val_acc (acc : Z) (bs : bytes) : Z :=
  match bs with
  | [] => acc
  | b :: bs' => be_val_acc (acc * 256 + ub b) bs'
  end.

Definition be_val (bs : bytes) : Z := be_val_acc 0 bs.

Fixpoint be_fix (n : nat) (z : Z) : bytes :=
  match n with
  | O => []
  | S n' => u8 (Z.shiftr z (8 * Z.of_nat n')) :: be_fix n' z
  end.

Lemma be_val_acc_eq bs acc :
  be_val_acc acc bs = acc * 256 ^ Z.of_nat (length bs) + be_val bs.
Proof.
  unfold be_val. revert acc. induction bs as [|b bs IH]; intros acc; cbn -[Z.pow Z.of_nat Z.mul].
  - change (Z.of_nat 0) with 0. rewrite Z.pow_0_r. lia.
  - rewrite IH, (IH (0 * 256 + ub b)), Nat2Z.inj_succ, Z.pow_succ_r by lia. ring.
Qed.

Lemma be_val_cons b bs :
  be_val (b :: bs) = ub b * 256 ^ Z.of_nat (length bs) + be_val bs.
Proof. unfold be_val at 1. cbn [be_val_acc]. rewrite be_val_acc_eq. f_equal. Qed.

Lemma be_val_nil : be_val [] = 0.
Proof. done. Qed.

Lemma be_val_app xs ys :
  be_val (xs ++ ys) = be_val xs * 256 ^ Z.of_nat (length ys) + be_val ys.
Proof.
  induction xs as [|x xs IH]; [done|]. cbn [app].
  rewrite !be_val_cons, IH, length_app, Nat2Z.inj_add, Z.pow_add_r by lia. ring.
Qed.

Lemma be_val_bound bs : 0 <= be_val bs < 256 ^ Z.of_nat (length bs).
Proof.
  induction bs as [|b bs IH]; [done|].
  rewrite be_val_cons. cbn [length]. rewrite Nat2Z.inj_succ, Z.pow_succ_r by lia.
  pose proof (ub_range b). nia.
Qed.

Lemma length_be_fix n z : length (be_fix n z) = n.
Proof. induction n; cbn; auto. Qed.

Lemma pow256_pow2 n : 256 ^ Z.of_nat n = 2 ^ (8 * Z.of_nat n).
Proof. rewrite Z.pow_mul_r by lia. done. Qed.

Lemma pow256_pos n : 0 < 256 ^ Z.of_nat n.
Proof. apply Z.pow_pos_nonneg; lia. Qed.

Lemma be_val_fix n z : be_val (be_fix n z) = z mod 256 ^ Z.of_nat n.
Proof.
  induction n as [|n IH]; [by rewrite Z.mod_1_r|]. cbn [be_fix].
  rewrite be_val_cons, IH, length_be_fix, ub_u8, Z.shiftr_div_pow2, <- pow256_pow2 by lia.
  rewrite Nat2Z.inj_succ, Z.pow_succ_r by lia.
  pose proof (pow256_pos n).
  rewrite (Z.mul_comm 256), Z.rem_mul_r by lia. ring.
Qed.

Lemma be_val_fix_small n z : 0 <= z < 256 ^ Z.of_nat n -> be_val (be_fix n z) = z.
Proof. intros H. by rewrite be_val_fix, Z.mod_small. Qed.

Lemma be_val_inj xs ys : length xs = length ys -> be_val xs = be_val ys -> xs = ys.
Proof.
  revert ys. induction xs as [|x xs IH]; intros [|y ys]; try done.
  intros [= Hl] Hv. rewrite !be_val_cons, <- Hl in Hv.
  pose proof (be_val_bound xs). pose proof (be_val_bound ys). rewrite <- Hl in *.
  pose proof (ub_range x). pose proof (ub_range y). pose proof (pow256_pos (length xs)).
  assert (ub x = ub y) as Hb by nia.
  f_equal; [by apply ub_inj|]. apply IH; [done|]. rewrite Hb in Hv. lia.
Qed.

Lemma be_fix_val bs : be_fix (length bs) (be_val bs) = bs.
Proof.
  apply be_val_inj; [apply length_be_fix|].
  apply be_val_fix_small, be_val_bound.
Qed.

Lemma be_val_zeros n : be_val (replicate n Byte.x00) = 0.
Proof.
  induction n as [|n IH]; [done|]. cbn [replicate].
  by rewrite be_val_cons, IH.
Qed.

#[export] Hint Rewrite length_be_fix be_val_app be_val_cons be_val_fix ub_u8 u8_ub : gomodel.

(** ** Slices

    [copy(dst[off:], src)] overwrites as many bytes as fit. *)

Definition copy_at (dst : bytes) (off : nat) (src : bytes) : bytes :=
  let n := Nat.min (length dst - off) (length src) in
  take off dst ++ take n src ++ drop (off + n) dst.

Lemma length_copy_at dst off src :
  (off <= length dst)%nat -> length (copy_at dst off src) = length dst.
Proof.
  intros H. unfold copy_at. rewrite !length_app, !length_take, length_drop. lia.
Qed.

(** [s[a:b]]: panics unless [a <= b <= cap]; every slice of the code has
    [len = cap] where this is used. *)
Definition slice {A} (l : list A) (a b : nat) : outcome (list A) :=
  if decide (a <= b /\ b <= length l)%nat then Ret (take (b - a) (drop a l)) else Panic.

(** ** Lists *)

Lemma filter_all {A} (P : A -> Prop) `{!forall x, Decision (P x)} (l : list A) :
  (forall x, x ∈ l -> P x) -> filter P l = l.
Proof.
  induction l as [|x l IH]; intros Hl; [done|].
  rewrite filter_cons_True by (apply Hl; set_solver). f_equal. apply IH. set_solver.
Qed.

Lemma filter_none {A} (P : A -> Prop) `{!forall x, Decision (P x)} (l : list A) :
  (forall x, x ∈ l -> ~ P x) -> filter P l = [].
Proof.
  induction l as [|x l IH]; intros Hl; [done|].
  rewrite filter_cons_False by (apply Hl; set_solver). apply IH. set_solver.
Qed.

Lemma mapM_fmap_inv {A B} (f : A -> B) (g : B -> option A) l :
  (forall a, g (f a) = Some a) -> mapM g (f <$> l) = Some l.
Proof. intros H. induction l as [|a l IH]; cbn; [done|]. by rewrite H; cbn; rewrite IH. Qed.

(** Writing exactly the middle part of a slice. *)
Lemma copy_at_mid a b c src :
  length b = length src -> copy_at (a ++ b ++ c) (length a) src = a ++ src ++ c.
Proof.
  intros H. unfold copy_at. rewrite !length_app.
  replace (Nat.min _ _) with (length src) by lia.
  rewrite take_app_length, (take_ge src) by lia.
  rewrite <- H, drop_app_add. by rewrite drop_app_length.
Qed.

(** [l[i], l[j] = l[j], l[i]] *)
Definition swap {A} (l : list A) (i j : nat) : list A :=
  match l !! i, l !! j with
  | Some x, Some y => <[i := y]> (<[j := x]> l)
  | _, _ => l
  end.

Lemma swap_perm {A} (l : list A) i j : swap l i j ≡ₚ l.
Proof.
  unfold swap. destruct (l !! i) as [x|] eqn:Ei; [|done]. destruct (l !! j) as [y|] eqn:Ej; [|done].
  apply Permutation_inj. split; [by rewrite !length_insert|].
  exists (fun k => if decide (k = i) then j else if decide (k = j) then i else k). split.
  - intros a b. repeat case_decide; congruence.
  - intros k. apply lookup_lt_Some in Ei as Li, Ej as Lj.
    destruct (decide (k = i)) as [->|Hi]; [by rewrite list_lookup_insert_eq by by rewrite length_insert|].
    rewrite list_lookup_insert_ne by done. destruct (decide (k = j)) as [->|Hj].
    + by rewrite list_lookup_insert_eq.
    + by rewrite list_lookup_insert_ne.
Qed.

(** ** Loops

    [for_range l body s] runs the body of a [for] loop over the values [l] of
    its index, threading the variables the body assigns. *)

Fixpoint for_range {S} (l : list nat) (body : nat -> S -> outcome S) (s : S) : outcome S :=
  match l with
  | [] => Ret s
  | i :: l' => match body i s with
               | Ret s' => for_range l' body s'
               | Err e => Err e
               | Panic => Panic
               end
  end.

(** A loop whose body always returns is a fold. *)
Lemma for_range_Ret {S} (l : list nat) (body : nat -> S -> outcome S) (g : S -> nat -> S) s :
  (forall i s, i ∈ l -> body i s = Ret (g s i)) ->
  for_range l body s = Ret (foldl g s l).
Proof.
  revert s. induction l as [|i l IH]; intros s H; [done|]. cbn.
  rewrite H by set_solver. apply IH. set_solver.
Qed.

(** Rule for a loop invariant indexed by the iterations done so far. *)
Lemma for_range_inv {S} (I : list nat -> S -> Prop) (l : list nat) body s :
  I [] s ->
  (forall pre i suf s, l = pre ++ i :: suf -> I pre s ->
     exists s', body i s = Ret s' /\ I (pre ++ [i]) s') ->
  exists s', for_range l body s = Ret s' /\ I l s'.
Proof.
  intros H0 Hstep.
  enough (forall suf pre s, l = pre ++ suf -> I pre s ->
    exists s', for_range suf body s = Ret s' /\ I l s') as H by (by apply (H l [])).
  induction suf as [|i suf IH]; intros pre s1 -> Hs.
  - exists s1. by rewrite app_nil_r.
  - destruct (Hstep pre i suf s1 eq_refl Hs) as (s2 & E & H2). cbn. rewrite E.
    apply (IH (pre ++ [i])); [by rewrite <- app_assoc|done].
Qed.

(** Go's [i < n] loops have a signed bound: no iteration when it is negative. *)
Definition upto (n : Z) : list nat := seq 0 (Z.to_nat n).

Lemma elem_of_upto n i : i ∈ upto n <-> Z.of_nat i < n.
Proof. unfold upto. rewrite elem_of_seq. lia. Qed.
