(* ===== verification/BigInt.v ===== *)
(** * Arbitrary-precision integers

    What the program uses of Go's [math/big] (a [big.Int] is a [Z]; every
    operation of the code allocates or overwrites its receiver, so values are
    passed explicitly), and [src/common/math/big.go] on top of it. *)

From S2P Require Import Prelude.
From Stdlib Require Export Zcong Zdivisibility.
From Stdlib Require Zmod.Zmod.
Import Zmod.Zmod.

(** ** math/big *)

(** [x.BitLen()]: bits of the absolute value, 0 for 0. *)
Definition BitLen (z : Z) : Z := if Z.eqb z 0 then 0 else Z.log2 (Z.abs z) + 1.

(** Number of bytes of [x.Bytes()]. *)
Definition byte_len (z : Z) : nat := Z.to_nat ((BitLen z + 7) / 8).

(** [x.Bytes()]: absolute value, big-endian, no leading zero. *)
Definition Bytes (z : Z) : bytes := be_fix (byte_len z) (Z.abs z).

(** [x.SetBytes(buf)]. *)
Definition SetBytes (bs : bytes) : Z := be_val bs.

(** [x.Sign()]. *)
Definition Sign (z : Z) : Z := Z.sgn z.

(** [z.Mod(x, y)]: the Euclidean modulus, for [y > 0]. *)
Definition Mod (x y : Z) : Z := x mod y.

(** [z.ModInverse(g, n)] for [n > 1].  The result is only documented when [g]
    and [n] are coprime; for a multiple of [n] the extended Euclidean algorithm
    of the Go release the project builds with (1.9) leaves 0, as here. *)
Definition ModInverse (g n : Z) : Z := Z.invmod g n.

(** [z.Exp(x, y, m)] for [y >= 0] and [m > 0], by repeated squaring. *)
Fixpoint exp_pos (x : Z) (y : positive) (m : Z) : Z :=
  match y with
  | xH => x mod m
  | xO y' => exp_pos (x * x mod m) y' m
  | xI y' => x * exp_pos (x * x mod m) y' m mod m
  end.

Definition Exp (x y m : Z) : Z :=
  match y with
  | Zpos p => exp_pos x p m
  | _ => 1 mod m
  end.

(** [x.Bits()]: little-endian 64-bit words of the absolute value. *)
Definition Bits (z : Z) : list Z :=
  map (fun i => Z.shiftr (Z.abs z) (64 * Z.of_nat i) mod 2 ^ 64)
      (seq 0 (Z.to_nat ((BitLen z + 63) / 64))).

Lemma BitLen_nonneg z : 0 <= BitLen z.
Proof.
  unfold BitLen. destruct (Z.eqb_spec z 0); [lia|].
  pose proof (Z.log2_nonneg (Z.abs z)). lia.
Qed.

Lemma BitLen_bound z : Z.abs z < 2 ^ BitLen z.
Proof.
  unfold BitLen. destruct (Z.eqb_spec z 0) as [->|]; [done|].
  pose proof (Z.log2_spec (Z.abs z) ltac:(lia)) as [_ H].
  by rewrite <- Z.add_1_r in H.
Qed.

Lemma BitLen_le z n : 0 <= n -> Z.abs z < 2 ^ n -> BitLen z <= n.
Proof.
  intros Hn H. unfold BitLen. destruct (Z.eqb_spec z 0) as [->|]; [lia|].
  assert (Z.log2 (Z.abs z) < n); [|lia].
  apply Z.log2_lt_pow2; lia.
Qed.

Lemma byte_len_bound z : Z.abs z < 256 ^ Z.of_nat (byte_len z).
Proof.
  rewrite pow256_pow2. unfold byte_len. pose proof (BitLen_nonneg z).
  eapply Z.lt_le_trans; [apply BitLen_bound|].
  apply Z.pow_le_mono_r; [lia|]. rewrite Z2Nat.id by (apply Z.div_pos; lia).
  pose proof (Z_div_mod_eq_full (BitLen z + 7) 8).
  pose proof (Z.mod_pos_bound (BitLen z + 7) 8). lia.
Qed.

(** The encoding is minimal: it fits wherever the value fits. *)
Lemma byte_len_le z n : Z.abs z < 256 ^ Z.of_nat n -> (byte_len z <= n)%nat.
Proof.
  rewrite pow256_pow2. intros H. apply BitLen_le in H; [|lia].
  unfold byte_len. enough ((BitLen z + 7) / 8 <= Z.of_nat n) by lia.
  apply Z.lt_succ_r, Z.div_lt_upper_bound; lia.
Qed.

Lemma length_Bytes z : length (Bytes z) = byte_len z.
Proof. apply length_be_fix. Qed.

Lemma SetBytes_Bytes_abs z : SetBytes (Bytes z) = Z.abs z.
Proof.
  unfold SetBytes, Bytes. apply be_val_fix_small.
  split; [lia|]. apply byte_len_bound.
Qed.

Lemma SetBytes_Bytes z : 0 <= z -> SetBytes (Bytes z) = z.
Proof. intros H. rewrite SetBytes_Bytes_abs. lia. Qed.

Lemma Bytes_nil z : Bytes z = [] <-> z = 0.
Proof.
  split; [|by intros ->]. intros H. apply (f_equal SetBytes) in H.
  rewrite SetBytes_Bytes_abs in H. unfold SetBytes in H. rewrite be_val_nil in H. lia.
Qed.

Lemma Mod_range x n : 0 < n -> 0 <= Mod x n < n.
Proof. apply Z.mod_pos_bound. Qed.

Lemma ModInverse_range g n : 0 < n -> 0 <= ModInverse g n < n.
Proof. apply Z.mod_pos_bound. Qed.

Lemma ModInverse_prime g n :
  Z.prime n -> g mod n <> 0 -> ModInverse g n * g mod n = 1.
Proof. apply Z.invmod_prime. Qed.

Lemma ModInverse_mod g n : ModInverse (g mod n) n = ModInverse g n.
Proof. apply Z.invmod_mod_l. Qed.

Lemma ModInverse_multiple g n : g mod n = 0 -> ModInverse g n = 0.
Proof. intros H. by rewrite <- ModInverse_mod, H. Qed.

(** The inverse in the ring of integers modulo [n]. *)
Lemma of_Z_ModInverse g n : Zmod.of_Z n (ModInverse g n) = Zmod.inv (Zmod.of_Z n g).
Proof.
  unfold Zmod.inv. rewrite Zmod.unsigned_of_Z, Z.invmod_mod_l.
  unfold ModInverse. apply Zmod.to_Z_inj.
  rewrite Zmod.of_small_Z_ok by (rewrite Z.mod_invmod; done). done.
Qed.

Lemma exp_pos_spec y : forall x m, 0 < m -> exp_pos x y m = x ^ Zpos y mod m.
Proof.
  induction y as [y IH|y IH|]; intros x m Hm; cbn [exp_pos].
  - rewrite IH by done. rewrite Pos2Z.inj_xI, Z.pow_add_r, Z.pow_1_r, Z.pow_mul_r by lia.
    rewrite Z.pow_2_r, Z.mod_pow_l, Z.mul_comm, Z.mul_mod_idemp_l by lia. done.
  - rewrite IH by done. rewrite Pos2Z.inj_xO, Z.pow_mul_r, Z.pow_2_r by lia.
    by rewrite Z.mod_pow_l.
  - by rewrite Z.pow_1_r.
Qed.

Lemma Exp_spec x y m : 0 <= y -> 0 < m -> Exp x y m = x ^ y mod m.
Proof.
  intros Hy Hm. destruct y as [|y|]; [done| |lia]. by apply exp_pos_spec.
Qed.

#[export] Hint Rewrite length_Bytes SetBytes_Bytes_abs : gomodel.

(** Left padding with zeros gives the fixed-width encoding. *)
Lemma Bytes_pad n z :
  0 <= z < 256 ^ Z.of_nat n ->
  replicate (n - length (Bytes z)) Byte.x00 ++ Bytes z = be_fix n z.
Proof.
  intros Hz. pose proof (byte_len_le z n ltac:(lia)) as Hl.
  apply be_val_inj.
  - rewrite length_app, length_replicate, length_Bytes, length_be_fix. lia.
  - rewrite be_val_app, be_val_zeros, be_val_fix_small by done.
    rewrite Z.mul_0_l, Z.add_0_l. apply SetBytes_Bytes. lia.
Qed.

(** Right-aligned copy of [z] into a window of [n] zero bytes. *)
Lemma copy_at_pad pre n post z :
  0 <= z < 256 ^ Z.of_nat n ->
  copy_at (pre ++ replicate n Byte.x00 ++ post) (length pre + n - length (Bytes z)) (Bytes z)
  = pre ++ be_fix n z ++ post.
Proof.
  intros Hz. pose proof (byte_len_le z n ltac:(lia)) as Hl.
  rewrite <- length_Bytes in Hl.
  replace n with ((n - length (Bytes z)) + length (Bytes z))%nat at 1 by lia.
  rewrite replicate_add, <- app_assoc, app_assoc.
  replace (length pre + n - length (Bytes z))%nat
    with (length (pre ++ replicate (n - length (Bytes z)) Byte.x00))
    by (rewrite length_app, length_replicate; lia).
  rewrite copy_at_mid by apply length_replicate.
  rewrite <- app_assoc, (app_assoc (replicate _ _)). by rewrite Bytes_pad.
Qed.
