(* ===== verification/CommonMath.v ===== *)
(** * Integer helpers

    [src/common/math/big.go]: conversions between big integers and byte
    buffers, two's complement, exponentiation on 256-bit words. *)

From S2P Require Import Prelude BigInt.

Definition wordBytes : nat := 8.
Definition wordBits : nat := 64.

Definition tt255 : Z := 2 ^ 255.
Definition tt256 : Z := 2 ^ 256.
Definition tt256m1 : Z := tt256 - 1.
Definition MaxBig256 : Z := tt256m1.

(** ** ReadBits and padded encodings *)

(** Inner loop: writes up to [cnt] bytes of the word [d] before position [i]. *)
Fixpoint ReadBits_word (cnt : nat) (d : Z) (i : nat) (buf : bytes) : nat * bytes :=
  match cnt, i with
  | S cnt', S i' => ReadBits_word cnt' (Z.shiftr d 8) i' (<[i' := u8 d]> buf)
  | _, _ => (i, buf)
  end.

Fixpoint ReadBits_words (ws : list Z) (i : nat) (buf : bytes) : bytes :=
  match ws with
  | [] => buf
  | d :: ws' => let '(i', buf') := ReadBits_word wordBytes d i buf in ReadBits_words ws' i' buf'
  end.

Definition ReadBits (bigint : Z) (buf : bytes) : bytes :=
  ReadBits_words (Bits bigint) (length buf) buf.

Definition PaddedBigBytes (bigint : Z) (n : nat) : bytes :=
  if decide (Z.of_nat n <= BitLen bigint / 8) then Bytes bigint
  else ReadBits bigint (replicate n Byte.x00).

(** [byte(word >> shift)] of the word holding byte [n], counting from the least
    significant byte. *)
Definition bigEndianByteAt (bigint : Z) (n : nat) : byte :=
  let words := Bits bigint in
  let i := (n / wordBytes)%nat in
  match words !! i with
  | None => Byte.x00
  | Some word => u8 (Z.shiftr word (8 * Z.of_nat (n mod wordBytes)))
  end.

(** [Byte(bigint, padlength, n)]: byte [n] from the most significant end of the
    value padded to [padlength] bytes. *)
Definition Byte_ (bigint : Z) (padlength n : nat) : byte :=
  if decide (padlength <= n)%nat then Byte.x00
  else bigEndianByteAt bigint (padlength - 1 - n).

(** ** Arithmetic *)

Definition BigPow (a b : Z) : Z := a ^ b.
Definition BigMax (x y : Z) : Z := if x <? y then y else x.
Definition BigMin (x y : Z) : Z := if y <? x then y else x.

Fixpoint FirstBitSet_loop (cnt : nat) (i : Z) (v : Z) : Z :=
  match cnt with
  | O => BitLen v
  | S cnt' => if Z.testbit v i then i else FirstBitSet_loop cnt' (i + 1) v
  end.

Definition FirstBitSet (v : Z) : Z := FirstBitSet_loop (Z.to_nat (BitLen v)) 0 v.

Definition U256 (x : Z) : Z := Z.land x tt256m1.

(** [S256]: two's complement reading of a 256-bit value. *)
Definition S256_signed (x : Z) : Z := if x <? tt255 then x else x - tt256.

(** [Exp]: the loop over the bits of one word, least significant first. *)
Fixpoint Exp256_word (cnt : nat) (word base result : Z) : Z * Z :=
  match cnt with
  | O => (base, result)
  | S cnt' =>
      let result := if Z.land word 1 =? 1 then U256 (result * base) else result in
      let base := U256 (base * base) in
      Exp256_word cnt' (Z.shiftr word 1) base result
  end.

Fixpoint Exp256_words (ws : list Z) (base result : Z) : Z :=
  match ws with
  | [] => result
  | w :: ws' => let '(base, result) := Exp256_word wordBits w base result in
                Exp256_words ws' base result
  end.

Definition Exp256 (base exponent : Z) : Z := Exp256_words (Bits exponent) base 1.

(** ** Properties *)

Lemma be_fix_snoc n z : be_fix (S n) z = be_fix n (Z.shiftr z 8) ++ [u8 z].
Proof.
  apply be_val_inj.
  - rewrite length_app, !length_be_fix. cbn. lia.
  - rewrite be_val_app, !be_val_fix, be_val_cons, be_val_nil, ub_u8. cbn [length].
    rewrite Z.shiftr_div_pow2, Nat2Z.inj_succ, Z.pow_succ_r by lia.
    change (2 ^ 8) with 256. change (256 ^ Z.of_nat 1) with 256.
    change (256 ^ Z.of_nat 0) with 1. pose proof (pow256_pos n).
    rewrite Z.rem_mul_r by lia. ring.
Qed.

Lemma be_fix_add n m z : be_fix (n + m) z = be_fix n (Z.shiftr z (8 * Z.of_nat m)) ++ be_fix m z.
Proof.
  revert z. induction m as [|m IH]; intros z.
  - by rewrite Nat.add_0_r, Z.shiftr_0_r, app_nil_r.
  - rewrite Nat.add_succ_r, !be_fix_snoc, IH, Z.shiftr_shiftr by lia.
    replace (8 + 8 * Z.of_nat m) with (8 * Z.of_nat (S m)) by lia.
    by rewrite app_assoc.
Qed.

Lemma be_fix_mod n z : be_fix n (z mod 256 ^ Z.of_nat n) = be_fix n z.
Proof.
  apply be_val_inj; [by rewrite !length_be_fix|].
  rewrite !be_val_fix. apply Z.mod_mod. pose proof (pow256_pos n). lia.
Qed.

Lemma ReadBits_word_eq cnt : forall d i buf,
  (i <= length buf)%nat ->
  let k := Nat.min cnt i in
  ReadBits_word cnt d i buf
  = ((i - k)%nat, take (i - k) buf ++ be_fix k d ++ drop i buf).
Proof.
  induction cnt as [|cnt IH]; intros d i buf Hi k.
  - subst k. cbn. by rewrite Nat.sub_0_r, take_drop.
  - destruct i as [|i]; [done|]. cbn [ReadBits_word].
    rewrite IH by (rewrite length_insert; lia).
    subst k. change (Nat.min (S cnt) (S i)) with (S (Nat.min cnt i)). cbn [Nat.sub].
    f_equal. rewrite take_insert_ge by lia. f_equal.
    rewrite be_fix_snoc, <- app_assoc. f_equal.
    rewrite (drop_S _ (u8 d)).
    + by rewrite drop_insert_lt by lia.
    + apply list_lookup_insert_eq. lia.
Qed.

(** Little-endian value of a list of words. *)
Fixpoint words_val (ws : list Z) : Z :=
  match ws with
  | [] => 0
  | w :: ws' => w + 2 ^ 64 * words_val ws'
  end.

Definition words_ok (ws : list Z) : Prop := Forall (fun w => 0 <= w < 2 ^ 64) ws.

Lemma ReadBits_words_eq ws : forall i buf,
  words_ok ws -> (i <= length buf)%nat ->
  let k := Nat.min (8 * length ws) i in
  ReadBits_words ws i buf = take (i - k) buf ++ be_fix k (words_val ws) ++ drop i buf.
Proof.
  induction ws as [|w ws IH]; intros i buf Hok Hi k.
  - subst k. cbn. by rewrite Nat.sub_0_r, take_drop.
  - apply Forall_cons in Hok as [Hw Hok]. cbn [ReadBits_words].
    rewrite ReadBits_word_eq by done. set (k1 := Nat.min wordBytes i).
    assert (Hk1 : k1 = Nat.min 8 i) by done.
    rewrite IH; [|done|rewrite !length_app, length_take, length_drop, length_be_fix; lia].
    set (k2 := Nat.min (8 * length ws) (i - k1)).
    replace k with (k2 + k1)%nat by (subst k k2; cbn [length]; lia).
    replace (i - (k2 + k1))%nat with (i - k1 - k2)%nat by lia.
    rewrite take_app_le, take_take by (rewrite length_take; lia).
    replace (Nat.min (i - k1 - k2) (i - k1)) with (i - k1 - k2)%nat by lia. f_equal.
    rewrite drop_app_length' by (rewrite length_take; lia).
    rewrite be_fix_add, <- app_assoc. cbn [words_val].
    destruct (decide (8 <= i)%nat) as [H8|H8].
    + replace k1 with 8%nat by lia. change (8 * Z.of_nat 8) with 64.
      rewrite Z.shiftr_div_pow2 by lia.
      rewrite (Z.add_comm w), (Z.mul_comm (2 ^ 64)), Z.div_add_l, (Z.div_small w), Z.add_0_r by lia.
      f_equal. f_equal.
      rewrite <- (be_fix_mod 8 (_ + w)). change (256 ^ Z.of_nat 8) with (2 ^ 64).
      rewrite Z.add_comm, Z.mod_add, Z.mod_small by lia. done.
    + assert (k2 = 0%nat) as -> by lia. cbn [be_fix app]. f_equal.
      rewrite <- (be_fix_mod k1 w), <- (be_fix_mod k1 (w + _)). f_equal.
      assert (2 ^ 64 = 256 ^ Z.of_nat (8 - k1) * 256 ^ Z.of_nat k1) as ->
        by (rewrite <- Z.pow_add_r by lia; replace (Z.of_nat (8 - k1) + Z.of_nat k1) with 8 by lia; done).
      pose proof (pow256_pos k1).
      rewrite <- Z.mul_assoc, (Z.mul_comm (256 ^ Z.of_nat k1)), Z.mul_assoc, Z.mod_add by lia. done.
Qed.

Lemma words_val_shift a w : forall s,
  0 <= a ->
  words_val (map (fun i => Z.shiftr a (64 * Z.of_nat i) mod 2 ^ 64) (seq s w))
  = Z.shiftr a (64 * Z.of_nat s) mod 2 ^ (64 * Z.of_nat w).
Proof.
  induction w as [|w IH]; intros s Ha; [by rewrite Z.mod_1_r|].
  cbn [seq map words_val]. rewrite IH by done.
  replace (64 * Z.of_nat (S s)) with (64 * Z.of_nat s + 64) by lia.
  rewrite <- Z.shiftr_shiftr by lia. set (b := Z.shiftr a (64 * Z.of_nat s)).
  replace (64 * Z.of_nat (S w)) with (64 + 64 * Z.of_nat w) by lia.
  rewrite Z.pow_add_r, Z.shiftr_div_pow2, (Z.rem_mul_r b) by lia. done.
Qed.

Lemma Bits_val z : words_val (Bits z) = Z.abs z.
Proof.
  unfold Bits. rewrite words_val_shift by lia. rewrite Z.shiftr_0_r.
  apply Z.mod_small. split; [lia|]. eapply Z.lt_le_trans; [apply BitLen_bound|].
  pose proof (BitLen_nonneg z). apply Z.pow_le_mono_r; [lia|].
  rewrite Z2Nat.id by (apply Z.div_pos; lia).
  pose proof (Z_div_mod_eq_full (BitLen z + 63) 64).
  pose proof (Z.mod_pos_bound (BitLen z + 63) 64). lia.
Qed.

Lemma Bits_ok z : words_ok (Bits z).
Proof.
  apply Forall_forall. intros w (i & -> & _)%list_elem_of_fmap.
  apply Z.mod_pos_bound. lia.
Qed.

Lemma words_val_bound ws : words_ok ws -> 0 <= words_val ws < 256 ^ Z.of_nat (8 * length ws).
Proof.
  induction 1 as [|w ws Hw _ IH]; [done|]. cbn [words_val length].
  replace (8 * S (length ws))%nat with (8 + 8 * length ws)%nat by lia.
  rewrite Nat2Z.inj_add, Z.pow_add_r by lia. change (256 ^ Z.of_nat 8) with (2 ^ 64). nia.
Qed.

(** [ReadBits] fills a zeroed buffer with the low bytes of the value, as many
    as fit. *)
Lemma ReadBits_zeroed z n : ReadBits z (replicate n Byte.x00) = be_fix n (Z.abs z).
Proof.
  unfold ReadBits. rewrite ReadBits_words_eq; [|apply Bits_ok|done].
  rewrite length_replicate, drop_replicate, Nat.sub_diag, take_replicate. cbn [replicate].
  rewrite app_nil_r, Bits_val. set (k := Nat.min (8 * length (Bits z)) n).
  apply be_val_inj; [rewrite length_app, length_replicate, !length_be_fix; lia|].
  rewrite be_val_app, be_val_zeros, !be_val_fix. cbn [Z.mul Z.add].
  destruct (decide (8 * length (Bits z) < n)%nat) as [Hlt|Hge].
  - pose proof (words_val_bound _ (Bits_ok z)) as Hb. rewrite Bits_val in Hb.
    assert (256 ^ Z.of_nat (8 * length (Bits z)) <= 256 ^ Z.of_nat n)
      by (apply Z.pow_le_mono_r; lia).
    replace k with (8 * length (Bits z))%nat by lia.
    by rewrite !Z.mod_small by lia.
  - by replace k with n by lia.
Qed.

Lemma PaddedBigBytes_eq z n :
  Z.abs z < 256 ^ Z.of_nat n -> PaddedBigBytes z n = be_fix n (Z.abs z).
Proof.
  intros Hz. unfold PaddedBigBytes. case_decide as Hb; [|apply ReadBits_zeroed].
  assert (byte_len z = n) as Hl.
  { apply Nat.le_antisymm; [by apply byte_len_le|]. unfold byte_len.
    pose proof (BitLen_nonneg z).
    assert (BitLen z / 8 <= (BitLen z + 7) / 8) by (apply Z.div_le_mono; lia). lia. }
  unfold Bytes. by rewrite Hl.
Qed.

(** A padded encoding has at least [n] bytes and always decodes to the value. *)
Lemma PaddedBigBytes_val z n : be_val (PaddedBigBytes z n) = Z.abs z.
Proof.
  unfold PaddedBigBytes. case_decide as Hb; [apply SetBytes_Bytes_abs|].
  rewrite ReadBits_zeroed, be_val_fix_small; [done|]. split; [lia|].
  eapply Z.lt_le_trans; [apply BitLen_bound|]. rewrite pow256_pow2.
  apply Z.pow_le_mono_r; [lia|]. pose proof (Z.div_lt_upper_bound (BitLen z) 8).
  pose proof (Z_div_mod_eq_full (BitLen z) 8). pose proof (Z.mod_pos_bound (BitLen z) 8). lia.
Qed.

Lemma U256_mod x : U256 x = x mod 2 ^ 256.
Proof.
  unfold U256, tt256m1, tt256. replace (2 ^ 256 - 1) with (Z.ones 256) by done.
  by rewrite Z.land_ones by lia.
Qed.

(** Square and multiply: after [cnt] bits the base has been squared [cnt] times
    and the result multiplied by the power those bits denote. *)
Lemma Exp256_word_spec cnt : forall w base result,
  0 <= w ->
  let br := Exp256_word cnt w base result in
  br.1 mod 2 ^ 256 = base ^ (2 ^ Z.of_nat cnt) mod 2 ^ 256 /\
  br.2 mod 2 ^ 256 = (result * base ^ (w mod 2 ^ Z.of_nat cnt)) mod 2 ^ 256.
Proof.
  induction cnt as [|cnt IH]; intros w base result Hw br.
  { subst br. cbn [Exp256_word fst snd]. change (2 ^ Z.of_nat 0) with 1.
    by rewrite Z.pow_1_r, Z.mod_1_r, Z.pow_0_r, Z.mul_1_r. }
  subst br. cbn [Exp256_word]. rewrite Nat2Z.inj_succ, Z.pow_succ_r by lia.
  assert (0 < 2 ^ Z.of_nat cnt) by (apply Z.pow_pos_nonneg; lia).
  destruct (IH (Z.shiftr w 1) (U256 (base * base))
    (if Z.land w 1 =? 1 then U256 (result * base) else result)) as [Hb Hr];
    [by apply Z.shiftr_nonneg|].
  rewrite Hb, Hr, U256_mod, Z.mod_pow_l, <- Z.pow_2_r, <- Z.pow_mul_r by lia. split; [done|].
  rewrite Z.rem_mul_r, Z.shiftr_div_pow2, (Z.pow_1_r 2) by lia.
  set (e := (w / 2) mod 2 ^ Z.of_nat cnt).
  assert (0 <= e) by (apply Z.mod_pos_bound; lia).
  pose proof (Z.mod_pos_bound w 2 ltac:(lia)).
  rewrite (Z.pow_add_r base (w mod 2) (2 * e)) by lia.
  rewrite (Z.mul_mod _ ((_ mod _) ^ e)), Z.mod_pow_l, <- Z.pow_mul_r, <- Z.mul_mod by lia.
  change 1 with (Z.ones 1) at 1. rewrite Z.land_ones, Z.pow_1_r by lia.
  rewrite Z.mul_assoc.
  destruct (Z.eqb_spec (w mod 2) 1) as [->|Hne].
  - rewrite U256_mod, Z.pow_1_r. by rewrite Z.mul_mod_idemp_l by lia.
  - replace (w mod 2) with 0 by lia. by rewrite Z.pow_0_r, Z.mul_1_r.
Qed.

Lemma Exp256_words_spec ws : forall base result,
  words_ok ws ->
  Exp256_words ws base result mod 2 ^ 256 = (result * base ^ words_val ws) mod 2 ^ 256.
Proof.
  induction ws as [|w ws IH]; intros base result Hok; cbn [Exp256_words words_val].
  { by rewrite Z.pow_0_r, Z.mul_1_r. }
  apply Forall_cons in Hok as [Hw Hok]. pose proof (words_val_bound ws Hok).
  pose proof (Exp256_word_spec wordBits w base result ltac:(lia)) as [Hb Hr].
  destruct (Exp256_word wordBits w base result) as [b r]. cbn [fst snd] in Hb, Hr.
  rewrite IH by done. replace (Z.of_nat wordBits) with 64 in Hb, Hr by done.
  remember (2 ^ 64) as q eqn:Eq. assert (0 < q) by (rewrite Eq; lia). clear Eq.
  rewrite (Z.mod_small w) in Hr by lia.
  rewrite Z.mul_mod, Hr, <- (Z.mod_pow_l b), Hb, Z.mod_pow_l, <- Z.mul_mod by lia.
  by rewrite <- Z.mul_assoc, <- Z.pow_mul_r, <- Z.pow_add_r by lia.
Qed.

Lemma Exp256_word_range cnt : forall w base result,
  0 <= result < 2 ^ 256 -> 0 <= (Exp256_word cnt w base result).2 < 2 ^ 256.
Proof.
  induction cnt as [|cnt IH]; intros w base result Hr; [done|]. cbn [Exp256_word].
  apply IH. case_match; [|done]. rewrite U256_mod. apply Z.mod_pos_bound. lia.
Qed.

Lemma Exp256_words_range ws : forall base result,
  0 <= result < 2 ^ 256 -> 0 <= Exp256_words ws base result < 2 ^ 256.
Proof.
  induction ws as [|w ws IH]; intros base result Hr; [done|]. cbn [Exp256_words].
  pose proof (Exp256_word_range wordBits w base result Hr).
  destruct (Exp256_word wordBits w base result). by apply IH.
Qed.

Lemma Exp256_eq base e : 0 <= e -> Exp256 base e = base ^ e mod 2 ^ 256.
Proof.
  intros He. unfold Exp256. pose proof (Exp256_words_range (Bits e) base 1 ltac:(lia)).
  rewrite <- (Z.mod_small (Exp256_words _ _ _) (2 ^ 256)) by done.
  rewrite Exp256_words_spec, Bits_val, Z.abs_eq, Z.mul_1_l by (done || apply Bits_ok). done.
Qed.

(** ** Properties of the manifest *)

(** [ReadBits] and [PaddedBigBytes] of a value that fits in [n] bytes give
    its fixed-width big-endian encoding, whatever the number of 64-bit words. *)
Theorem PaddedBigBytes_fixed_width (z : Z) (n : nat) :
  0 <= z < 256 ^ Z.of_nat n ->
  length (PaddedBigBytes z n) = n /\ SetBytes (PaddedBigBytes z n) = z /\
  ReadBits z (replicate n Byte.x00) = PaddedBigBytes z n.
Proof.
  intros Hz. rewrite ReadBits_zeroed, PaddedBigBytes_eq, Z.abs_eq by lia.
  unfold SetBytes. rewrite length_be_fix, be_val_fix_small by lia. done.
Qed.

Lemma PaddedBigBytes_fixed_width_witness :
  length (PaddedBigBytes 300 4) = 4%nat /\ SetBytes (PaddedBigBytes 300 4) = 300 /\
  ReadBits 300 (replicate 4 Byte.x00) = PaddedBigBytes 300 4.
Proof. apply (PaddedBigBytes_fixed_width 300 4). cbn. lia. Defined.

(** Exponentiation by squaring over the words of the exponent is the power
    truncated to 256 bits, also for exponents of several words. *)
Theorem Exp256_correct (base e : Z) : 0 <= e -> Exp256 base e = base ^ e mod tt256.
Proof. apply Exp256_eq. Qed.

Lemma Exp256_correct_witness : Exp256 3 (2 ^ 70 + 5) = 3 ^ (2 ^ 70 + 5) mod tt256.
Proof. apply (Exp256_correct 3 (2 ^ 70 + 5)). lia. Defined.
