(* ===== verification/Hexutil.v ===== *)
(** * Hexadecimal text

    [encoding/hex] and [src/common/hexutil] ([hexutil.go], [json.go]): byte
    strings, 64-bit and 256-bit quantities with a [0x] prefix.  Go strings are
    byte sequences. *)

From S2P Require Import Prelude BigInt CommonMath.

(** ** Nibbles *)

Definition hexdigit (n : Z) : byte := if n <? 10 then u8 (48 + n) else u8 (97 + (n - 10)).

(** [badNibble] is [None]. *)
Definition decodeNibble (in_ : byte) : option Z :=
  let c := ub in_ in
  if (48 <=? c) && (c <=? 57) then Some (c - 48)
  else if (65 <=? c) && (c <=? 70) then Some (c - 65 + 10)
  else if (97 <=? c) && (c <=? 102) then Some (c - 97 + 10)
  else None.

(** The [n] low nibbles of [z], most significant first. *)
Fixpoint nib_fix (n : nat) (z : Z) : bytes :=
  match n with
  | O => []
  | S n' => hexdigit (Z.shiftr z (4 * Z.of_nat n') mod 16) :: nib_fix n' z
  end.

(** Digits of a positive number without leading zeros, ["0"] for zero
    ([strconv.AppendUint] in base 16, [%x] of a non-negative integer). *)
Definition hex_number (z : Z) : bytes :=
  if decide (z = 0) then [hexdigit 0] else nib_fix (Z.to_nat ((BitLen z + 3) / 4)) z.

(** ** encoding/hex *)

Definition ErrLength : error := "encoding/hex: odd length hex string".
Definition InvalidByteError : error := "encoding/hex: invalid byte".

Fixpoint hex_EncodeToString (b : bytes) : bytes :=
  match b with
  | [] => []
  | c :: b' => hexdigit (ub c / 16) :: hexdigit (ub c mod 16) :: hex_EncodeToString b'
  end.

Fixpoint hex_pairs (s : bytes) : outcome bytes :=
  match s with
  | a :: b :: s' =>
      match decodeNibble a, decodeNibble b with
      | Some x, Some y => r ← hex_pairs s'; Ret (u8 (16 * x + y) :: r)
      | _, _ => Err InvalidByteError
      end
  | _ => Ret []
  end.

(** The length is checked first. *)
Definition hex_DecodeString (s : bytes) : outcome bytes :=
  if decide (length s mod 2 = 1)%nat then Err ErrLength else hex_pairs s.

(** ** hexutil *)

Definition ErrEmptyString : error := "empty hex string".
Definition ErrSyntax : error := "invalid hex string".
Definition ErrMissingPrefix : error := "hex string without 0x prefix".
Definition ErrOddLength : error := "hex string of odd length".
Definition ErrEmptyNumber : error := "hex string 0x".
Definition ErrLeadingZero : error := "hex number with leading zero digits".
Definition ErrUint64Range : error := "hex number > 64 bits".
Definition ErrBig256Range : error := "hex number > 256 bits".

Definition mapError (e : error) : error :=
  if decide (e = InvalidByteError) then ErrSyntax
  else if decide (e = ErrLength) then ErrOddLength else e.

Definition x0 : bytes := [Byte.x30; Byte.x78].

Definition Has0xPrefix (input : bytes) : bool :=
  match input with
  | a :: b :: _ => bool_decide (a = Byte.x30) &&
                   (bool_decide (b = Byte.x78) || bool_decide (b = Byte.x58))
  | _ => false
  end.

Definition Decode (input : bytes) : outcome bytes :=
  if decide (input = []) then Err ErrEmptyString else
  if negb (Has0xPrefix input) then Err ErrMissingPrefix else
  match hex_DecodeString (drop 2 input) with
  | Err e => Err (mapError e)
  | o => o
  end.

Definition MustDecode (input : bytes) : outcome bytes :=
  match Decode input with
  | Ret b => Ret b
  | _ => Panic
  end.

Definition Encode (b : bytes) : bytes := x0 ++ hex_EncodeToString b.

Definition checkNumber (input : bytes) : outcome bytes :=
  if decide (input = []) then Err ErrEmptyString else
  if negb (Has0xPrefix input) then Err ErrMissingPrefix else
  match drop 2 input with
  | [] => Err ErrEmptyNumber
  | (a :: _ :: _) as raw => if decide (a = Byte.x30) then Err ErrLeadingZero else Ret raw
  | raw => Ret raw
  end.

(** [strconv.ParseUint(raw, 16, 64)], with the errors [mapError] gives. *)
Fixpoint ParseUint16 (n : Z) (s : bytes) : outcome Z :=
  match s with
  | [] => Ret n
  | c :: s' =>
      match decodeNibble c with
      | None => Err ErrSyntax
      | Some v => if decide (2 ^ 60 <= n) then Err ErrUint64Range else ParseUint16 (n * 16 + v) s'
      end
  end.

Definition DecodeUint64 (input : bytes) : outcome Z :=
  raw ← checkNumber input; ParseUint16 0 raw.

Definition EncodeUint64 (i : Z) : bytes := x0 ++ hex_number i.

(** One word of [DecodeBig]: 64-bit accumulation. *)
Fixpoint nibbles_word (w : Z) (s : bytes) : outcome Z :=
  match s with
  | [] => Ret w
  | c :: s' => match decodeNibble c with
               | None => Err ErrSyntax
               | Some nib => nibbles_word ((w * 16 + nib) mod 2 ^ 64) s'
               end
  end.

Definition bigWordNibbles : nat := 16.

(** The loop over the words, least significant first; [start] stops at zero. *)
Fixpoint decode_words (cnt : nat) (raw : bytes) (end_ : nat) : outcome (list Z) :=
  match cnt with
  | O => Ret []
  | S cnt' =>
      let start := (end_ - bigWordNibbles)%nat in
      w ← nibbles_word 0 (take (end_ - start) (drop start raw));
      ws ← decode_words cnt' raw start;
      Ret (w :: ws)
  end.

Definition DecodeBig (input : bytes) : outcome Z :=
  raw ← checkNumber input;
  if decide (64 < length raw)%nat then Err ErrBig256Range else
  words ← decode_words (length raw / bigWordNibbles + 1) raw (length raw);
  Ret (words_val words).

(** [fmt.Sprintf] with a hash flag prints the sign of a negative integer. *)
Definition EncodeBig (bigint : Z) : bytes :=
  if decide (BitLen bigint = 0) then x0 ++ [Byte.x30] else
  (if bigint <? 0 then [Byte.x2d] else []) ++ x0 ++ hex_number (Z.abs bigint).

(** ** Text of JSON values *)

Definition checkText (input : bytes) (wantPrefix : bool) : outcome bytes :=
  if decide (input = []) then Ret [] else
  if Has0xPrefix input then
    if decide (length (drop 2 input) mod 2 <> 0)%nat then Err ErrOddLength else Ret (drop 2 input)
  else if wantPrefix then Err ErrMissingPrefix else
  if decide (length input mod 2 <> 0)%nat then Err ErrOddLength else Ret input.

Definition Bytes_MarshalText (b : bytes) : bytes := x0 ++ hex_EncodeToString b.

Definition Bytes_UnmarshalText (input : bytes) : outcome bytes :=
  raw ← checkText input true;
  match hex_pairs raw with
  | Err e => Err (mapError e)
  | o => o
  end.

Definition checkNumberText (input : bytes) : outcome bytes :=
  if decide (input = []) then Ret [] else checkNumber input.

(** [Uint64.UnmarshalText]: 64-bit accumulation over at most 16 digits. *)
Definition Uint64_UnmarshalText (input : bytes) : outcome Z :=
  raw ← checkNumberText input;
  if decide (16 < length raw)%nat then Err ErrUint64Range else nibbles_word 0 raw.

Definition Big_UnmarshalText (input : bytes) : outcome Z :=
  raw ← checkNumberText input;
  if decide (64 < length raw)%nat then Err ErrBig256Range else
  words ← decode_words (length raw / bigWordNibbles + 1) raw (length raw);
  Ret (words_val words).

(** ** Lemmas *)

Lemma decodeNibble_hexdigit n : 0 <= n < 16 -> decodeNibble (hexdigit n) = Some n.
Proof.
  intros Hn.
  assert (forallb (fun i => bool_decide (decodeNibble (hexdigit (Z.of_nat i)) = Some (Z.of_nat i)))
            (seq 0 16) = true) as Hc by (vm_compute; reflexivity).
  rewrite forallb_forall in Hc. specialize (Hc (Z.to_nat n) ltac:(apply in_seq; lia)).
  apply bool_decide_eq_true in Hc. by rewrite Z2Nat.id in Hc by lia.
Qed.

Lemma decodeNibble_range c v : decodeNibble c = Some v -> 0 <= v < 16.
Proof.
  unfold decodeNibble. repeat case_match; intros; simplify_eq;
    rewrite ?andb_true_iff, ?Z.leb_le in *; lia.
Qed.

Lemma hexdigit_nonzero n : 0 < n < 16 -> hexdigit n <> Byte.x30.
Proof.
  intros Hn E. apply (f_equal decodeNibble) in E. rewrite decodeNibble_hexdigit in E by lia.
  cbn in E. simplify_eq. lia.
Qed.

Lemma hex_pairs_Encode b : hex_pairs (hex_EncodeToString b) = Ret b.
Proof.
  induction b as [|c b IH]; [done|]. cbn [hex_EncodeToString hex_pairs].
  pose proof (ub_range c).
  rewrite !decodeNibble_hexdigit, IH.
  - cbn. do 2 f_equal. rewrite <- (u8_ub c) at 3. f_equal. rewrite <- Z.div_mod; lia.
  - apply Z.mod_pos_bound. lia.
  - split; [apply Z.div_pos; lia|]. apply Z.div_lt_upper_bound; lia.
Qed.

Lemma length_hex_Encode b : length (hex_EncodeToString b) = (2 * length b)%nat.
Proof. induction b as [|c b IH]; cbn; lia. Qed.

Lemma hex_DecodeString_Encode b : hex_DecodeString (hex_EncodeToString b) = Ret b.
Proof.
  unfold hex_DecodeString. rewrite decide_False, hex_pairs_Encode; [done|].
  rewrite length_hex_Encode, Nat.mul_comm, Nat.Div0.mod_mul. lia.
Qed.

(** Value of a string of digits. *)
Fixpoint nib_val (acc : Z) (s : bytes) : option Z :=
  match s with
  | [] => Some acc
  | c :: s' => v ← decodeNibble c; nib_val (acc * 16 + v) s'
  end.

Lemma nib_val_fix n : forall z acc,
  nib_val acc (nib_fix n z) = Some (acc * 16 ^ Z.of_nat n + z mod 16 ^ Z.of_nat n).
Proof.
  induction n as [|n IH]; intros z acc; cbn [nib_fix nib_val].
  - change (Z.of_nat 0) with 0. rewrite Z.pow_0_r, Z.mod_1_r. f_equal. lia.
  - rewrite decodeNibble_hexdigit by (apply Z.mod_pos_bound; lia).
    cbn [mbind option_bind]. rewrite IH. f_equal.
    rewrite Nat2Z.inj_succ, Z.pow_succ_r, Z.shiftr_div_pow2 by lia.
    replace (2 ^ (4 * Z.of_nat n)) with (16 ^ Z.of_nat n) by (rewrite Z.pow_mul_r by lia; done).
    assert (0 < 16 ^ Z.of_nat n) by (apply Z.pow_pos_nonneg; lia).
    rewrite (Z.mul_comm 16), (Z.rem_mul_r z) by lia. ring.
Qed.

Lemma nib_val_app a : forall acc b, nib_val acc (a ++ b) = (v ← nib_val acc a; nib_val v b).
Proof.
  induction a as [|c a IH]; intros acc b; cbn [app nib_val]; [done|].
  destruct (decodeNibble c); cbn [mbind option_bind]; [apply IH|done].
Qed.

Lemma nib_val_shift s : forall acc v,
  nib_val 0 s = Some v -> nib_val acc s = Some (acc * 16 ^ Z.of_nat (length s) + v).
Proof.
  induction s as [|c s IH] using rev_ind; intros acc v E.
  - cbn in *. simplify_eq. f_equal. lia.
  - rewrite nib_val_app in E |- *. apply bind_Some in E as (u & E1 & E2). cbn in E2.
    apply bind_Some in E2 as (n & E2 & E3). simplify_eq.
    rewrite (IH acc u E1). cbn. rewrite E2. cbn. f_equal.
    rewrite length_app, Nat2Z.inj_add, Z.pow_add_r by lia. cbn [length].
    change (16 ^ Z.of_nat 1) with 16. lia.
Qed.

Lemma nib_val_bound s : forall v, nib_val 0 s = Some v -> 0 <= v < 16 ^ Z.of_nat (length s).
Proof.
  induction s as [|c s IH] using rev_ind; intros v E.
  - cbn in E. simplify_eq. by cbn.
  - rewrite nib_val_app in E. apply bind_Some in E as (u & E1 & E2). cbn in E2.
    apply bind_Some in E2 as (n & E2 & E3). simplify_eq. apply IH in E1.
    apply decodeNibble_range in E2.
    rewrite length_app, Nat2Z.inj_add, Z.pow_add_r by lia. cbn [length].
    change (16 ^ Z.of_nat 1) with 16. lia.
Qed.

Lemma length_nib_fix n z : length (nib_fix n z) = n.
Proof. induction n; cbn; auto. Qed.

Lemma hex_number_bound z :
  0 < z -> 16 ^ ((BitLen z + 3) / 4 - 1) <= z < 16 ^ ((BitLen z + 3) / 4) /\ 1 <= (BitLen z + 3) / 4.
Proof.
  intros Hz. unfold BitLen. rewrite (proj2 (Z.eqb_neq _ _)), Z.abs_eq by lia.
  pose proof (Z.log2_spec z Hz) as [L1 L2]. pose proof (Z.log2_nonneg z).
  replace (Z.log2 z + 1 + 3) with (Z.log2 z + 1 * 4) by lia.
  rewrite Z.div_add by lia. set (q := Z.log2 z / 4).
  pose proof (Z.div_mod (Z.log2 z) 4 ltac:(lia)) as Hdm. fold q in Hdm.
  pose proof (Z.mod_pos_bound (Z.log2 z) 4 ltac:(lia)).
  assert (0 <= q) by (apply Z.div_pos; lia).
  replace (q + 1 - 1) with q by lia.
  assert (forall k, 0 <= k -> 16 ^ k = 2 ^ (4 * k)) as H16 by (intros k Hk; rewrite Z.pow_mul_r by lia; done).
  rewrite !H16 by lia. split; [split|lia].
  - etransitivity; [|exact L1]. apply Z.pow_le_mono_r; lia.
  - eapply Z.lt_le_trans; [exact L2|]. apply Z.pow_le_mono_r; lia.
Qed.

Lemma nib_val_number z : 0 <= z -> nib_val 0 (hex_number z) = Some z.
Proof.
  intros Hz. unfold hex_number. case_decide as E; [by subst|].
  destruct (hex_number_bound z ltac:(lia)) as [[_ Hb] Hk]. rewrite nib_val_fix.
  rewrite Z2Nat.id by lia. f_equal. rewrite Z.mod_small by lia. lia.
Qed.

(** The first digit of a positive number is not zero. *)
Lemma hex_number_head z : 0 < z -> exists c s, hex_number z = c :: s /\ c <> Byte.x30.
Proof.
  intros Hz. unfold hex_number. rewrite decide_False by lia.
  destruct (hex_number_bound z Hz) as [[Hl Hb] Hk].
  set (k := (BitLen z + 3) / 4) in *.
  destruct (Z.to_nat k) as [|n] eqn:En; [lia|]. cbn [nib_fix].
  do 2 eexists. split; [done|]. apply hexdigit_nonzero.
  replace (4 * Z.of_nat n) with (4 * (k - 1)) by lia.
  rewrite Z.shiftr_div_pow2, Z.pow_mul_r by lia. change (2 ^ 4) with 16.
  assert (0 < 16 ^ (k - 1)) by (apply Z.pow_pos_nonneg; lia).
  assert (1 <= z / 16 ^ (k - 1) < 16) as Hq.
  { split; [apply Z.div_le_lower_bound; lia|]. apply Z.div_lt_upper_bound; [lia|].
    rewrite (Z.mul_comm (16 ^ _)), <- Z.pow_succ_r by lia. by replace (Z.succ (k - 1)) with k by lia. }
  rewrite Z.mod_small; lia.
Qed.

Lemma Has0xPrefix_x0 l : Has0xPrefix (x0 ++ l) = true.
Proof. done. Qed.

Lemma drop_x0 l : drop 2 (x0 ++ l) = l.
Proof. done. Qed.

Lemma x0_not_nil l : x0 ++ l <> [].
Proof. done. Qed.

Lemma checkNumber_number z : 0 <= z -> checkNumber (x0 ++ hex_number z) = Ret (hex_number z).
Proof.
  intros Hz. unfold checkNumber. rewrite decide_False, Has0xPrefix_x0, drop_x0 by apply x0_not_nil.
  cbn [negb].
  destruct (decide (z = 0)) as [->|Hn]; [done|].
  destruct (hex_number_head z ltac:(lia)) as (c & s & -> & Hc).
  destruct s; [done|]. by rewrite (decide_False (P := c = _)).
Qed.

Lemma length_hex_number z k :
  0 < k -> 0 <= z < 16 ^ k -> (1 <= length (hex_number z) <= Z.to_nat k)%nat.
Proof.
  intros Hk Hz. unfold hex_number. case_decide as E; [cbn; lia|].
  destruct (hex_number_bound z ltac:(lia)) as [[Hl _] H1]. rewrite length_nib_fix.
  enough ((BitLen z + 3) / 4 - 1 < k) by lia.
  apply (Z.pow_lt_mono_r_iff 16); lia.
Qed.

Lemma nib_val_ge s : forall n v, 0 <= n -> nib_val n s = Some v -> n * 16 ^ Z.of_nat (length s) <= v.
Proof.
  induction s as [|c s IH]; intros n v Hn E; cbn [nib_val length] in *.
  - simplify_eq. change (Z.of_nat 0) with 0. lia.
  - apply bind_Some in E as (d & Ed & E). apply decodeNibble_range in Ed.
    apply IH in E; [|lia]. rewrite Nat2Z.inj_succ, Z.pow_succ_r by lia. nia.
Qed.

Lemma nib_val_acc_le s n v : 0 <= n -> nib_val n s = Some v -> n <= v.
Proof.
  intros Hn E. pose proof (nib_val_ge _ _ _ Hn E) as Hge.
  assert (0 < 16 ^ Z.of_nat (length s)) by (apply Z.pow_pos_nonneg; lia). nia.
Qed.

Lemma ParseUint16_val s : forall n v,
  0 <= n -> nib_val n s = Some v -> v < 2 ^ 64 -> ParseUint16 n s = Ret v.
Proof.
  induction s as [|c s IH]; intros n v Hn E Hv; cbn [nib_val ParseUint16] in *; [by simplify_eq|].
  apply bind_Some in E as (d & Ed & E). rewrite Ed. pose proof (decodeNibble_range _ _ Ed).
  pose proof (nib_val_acc_le s (n * 16 + d) v ltac:(lia) E) as Hge.
  rewrite decide_False by lia. apply IH; [lia|done|done].
Qed.

Lemma nibbles_word_val s : forall n v,
  0 <= n -> nib_val n s = Some v -> v < 2 ^ 64 -> nibbles_word n s = Ret v.
Proof.
  induction s as [|c s IH]; intros n v Hn E Hv; cbn [nib_val nibbles_word] in *; [by simplify_eq|].
  apply bind_Some in E as (d & Ed & E). rewrite Ed. pose proof (decodeNibble_range _ _ Ed).
  pose proof (nib_val_acc_le s (n * 16 + d) v ltac:(lia) E) as Hge.
  rewrite Z.mod_small by lia. apply IH; [lia|done|done].
Qed.

Lemma pow16_64 : 16 ^ 16 = 2 ^ 64.
Proof. done. Qed.

(** Being a string of digits does not depend on the accumulator. *)
Lemma nib_val_digits s : forall u z, is_Some (nib_val u s) -> is_Some (nib_val z s).
Proof.
  induction s as [|c s IH]; intros u z Hs; cbn [nib_val] in *; [by eexists|].
  destruct (decodeNibble c); cbn [mbind option_bind] in *; [|by destruct Hs].
  by eapply IH.
Qed.

(** The words of the first [e] digits have the value of those digits. *)
Lemma decode_words_val cnt : forall raw e v,
  (e <= length raw)%nat -> (e <= 16 * cnt)%nat -> nib_val 0 (take e raw) = Some v ->
  exists ws, decode_words cnt raw e = Ret ws /\ words_val ws = v.
Proof.
  induction cnt as [|cnt IH]; intros raw e v Hl Hc E; cbn [decode_words].
  { replace e with 0%nat in E by lia. rewrite take_0 in E. exists []. by simplify_eq/=. }
  unfold bigWordNibbles. set (start := (e - 16)%nat).
  assert (take e raw = take start raw ++ take (e - start) (drop start raw)) as Hsplit.
  { replace e with (start + (e - start))%nat at 1 by lia. symmetry. apply take_take_drop. }
  rewrite Hsplit, nib_val_app in E. apply bind_Some in E as (u & E1 & E2).
  set (chunk := take (e - start) (drop start raw)) in *.
  assert (length chunk = (e - start)%nat) as Hlc
    by (unfold chunk; rewrite length_take, length_drop; lia).
  destruct (nib_val 0 chunk) as [w|] eqn:Ew.
  2: { destruct (nib_val_digits chunk u 0) as [? ?]; [by eexists|congruence]. }
  rewrite (nib_val_shift _ u w Ew) in E2. simplify_eq.
  pose proof (nib_val_bound _ _ Ew) as Hw. rewrite Hlc in Hw.
  rewrite (nibbles_word_val chunk 0 w); [|lia|done|].
  - cbn [mbind outcome_bind]. destruct (IH raw start u) as (ws & -> & Hws); [lia|lia|done|].
    exists (w :: ws). split; [done|]. cbn [words_val]. rewrite Hws, Hlc.
    destruct (decide (16 <= e)%nat).
    + replace (e - start)%nat with 16%nat by lia. change (Z.of_nat 16) with 16. rewrite pow16_64. lia.
    + replace start with 0%nat in E1 by lia. rewrite take_0 in E1. injection E1 as <-. lia.
  - eapply Z.lt_le_trans; [apply Hw|]. rewrite <- pow16_64. apply Z.pow_le_mono_r; lia.
Qed.

Lemma decode_words_all raw v :
  nib_val 0 raw = Some v ->
  (ws ← decode_words (length raw / bigWordNibbles + 1) raw (length raw); Ret (words_val ws)) = Ret v.
Proof.
  intros E. destruct (decode_words_val (length raw / bigWordNibbles + 1) raw (length raw) v)
    as (ws & -> & Hws); [done| |by rewrite take_ge|by rewrite <- Hws].
  unfold bigWordNibbles. pose proof (Nat.div_mod_eq (length raw) 16).
  pose proof (Nat.mod_upper_bound (length raw) 16). lia.
Qed.

(** ** Properties of the manifest *)

(** round trip of byte strings: [Decode] inverts [Encode], and so does the
    text of a JSON value. *)
Theorem Decode_Encode (b : bytes) :
  Decode (Encode b) = Ret b /\ MustDecode (Encode b) = Ret b /\
  Bytes_UnmarshalText (Bytes_MarshalText b) = Ret b.
Proof.
  assert (Decode (Encode b) = Ret b) as E.
  { unfold Decode, Encode. rewrite decide_False, Has0xPrefix_x0, drop_x0 by apply x0_not_nil.
    cbn [negb]. by rewrite hex_DecodeString_Encode. }
  split; [done|]. split; [unfold MustDecode; by rewrite E|].
  unfold Bytes_UnmarshalText, checkText, Bytes_MarshalText.
  rewrite decide_False, Has0xPrefix_x0, drop_x0 by apply x0_not_nil.
  rewrite length_hex_Encode, Nat.mul_comm, Nat.Div0.mod_mul, decide_False by lia.
  cbn [mbind outcome_bind]. by rewrite hex_pairs_Encode.
Qed.

(** Round trip of quantities: a 64-bit number is read back by [DecodeUint64]
    and by the JSON text, and a non-negative number below [2^256] by [DecodeBig]
    and by the JSON text; a larger one is refused. *)
Theorem quantities_roundtrip (z : Z) :
  0 <= z ->
  (z < 2 ^ 64 -> DecodeUint64 (EncodeUint64 z) = Ret z /\ Uint64_UnmarshalText (EncodeUint64 z) = Ret z) /\
  (z < 2 ^ 256 -> DecodeBig (EncodeBig z) = Ret z /\ Big_UnmarshalText (EncodeBig z) = Ret z) /\
  (2 ^ 256 <= z -> DecodeBig (EncodeBig z) = Err ErrBig256Range).
Proof.
  intros Hz. pose proof (nib_val_number z Hz) as Ev. pose proof (checkNumber_number z Hz) as Ec.
  assert (checkNumberText (x0 ++ hex_number z) = Ret (hex_number z)) as Et
    by (unfold checkNumberText; by rewrite decide_False by apply x0_not_nil).
  assert (EncodeBig z = x0 ++ hex_number z) as Eb.
  { unfold EncodeBig. unfold BitLen. destruct (Z.eqb_spec z 0) as [->|Hn]; [done|].
    pose proof (Z.log2_nonneg (Z.abs z)). rewrite decide_False by lia.
    rewrite (proj2 (Z.ltb_ge _ _)), Z.abs_eq by lia. done. }
  split_and!; intros Hb.
  - unfold DecodeUint64, Uint64_UnmarshalText, EncodeUint64. rewrite Ec, Et. cbn [mbind outcome_bind].
    rewrite <- pow16_64 in Hb. pose proof (length_hex_number z 16 ltac:(lia) ltac:(lia)).
    split; [by apply ParseUint16_val|]. rewrite decide_False by lia. by apply nibbles_word_val.
  - unfold DecodeBig, Big_UnmarshalText. rewrite Eb, Ec, Et. cbn [mbind outcome_bind].
    pose proof (length_hex_number z 64 ltac:(lia) ltac:(done)).
    rewrite !decide_False by lia. by rewrite !decode_words_all with (v := z).
  - unfold DecodeBig. rewrite Eb, Ec. cbn [mbind outcome_bind]. rewrite decide_True; [done|].
    pose proof (nib_val_bound _ _ Ev) as Hv.
    destruct (decide (64 < length (hex_number z))%nat) as [|Hl]; [done|]. exfalso.
    assert (16 ^ Z.of_nat (length (hex_number z)) <= 16 ^ 64) by (apply Z.pow_le_mono_r; lia).
    change (16 ^ 64) with (2 ^ 256) in *. lia.
Qed.

Lemma quantities_roundtrip_witness :
  DecodeBig (EncodeBig (2 ^ 200 + 77)) = Ret (2 ^ 200 + 77) /\
  Big_UnmarshalText (EncodeBig (2 ^ 200 + 77)) = Ret (2 ^ 200 + 77).
Proof. apply (quantities_roundtrip (2 ^ 200 + 77)); by vm_compute. Defined.
