(* ===== verification/Keccak.v ===== *)
(** * The Keccak permutation

    [src/crypto/sha3/keccakf.go]: [keccakF1600], written in place with four rounds
    unrolled, and its equivalence with the step mappings of FIPS 202 on bits.
    (On amd64 the build replaces this function by an assembly routine.) *)

From S2P Require Import Prelude.

Declare Scope word_scope.
Delimit Scope word_scope with word.

(** ** Words and arrays

    A [uint64] is a [Z] between [0] and [2^64]; a left shift drops the high
    bits.  An array has constant indices in the code, within its length. *)

Definition word_ok (w : Z) : Prop := 0 <= w < 2 ^ 64.

Definition shl64 (w n : Z) : Z := Z.shiftl w n mod 2 ^ 64.

Notation "x ⊕ y" := (Z.lxor x y) (at level 50, left associativity) : word_scope.
Notation "x .| y" := (Z.lor x y) (at level 50, left associativity) : word_scope.
Notation "x &^ y" := (Z.ldiff x y) (at level 40, left associativity) : word_scope.
Notation "x << n" := (shl64 x n) (at level 34, left associativity) : word_scope.
Notation "x >> n" := (Z.shiftr x n) (at level 34, left associativity) : word_scope.
Notation "a .[ i ]" := (@lookup_total nat Z (list Z) _ i%nat a)
  (at level 1, left associativity, format "a .[ i ]") : word_scope.
Notation "a .[ i := v ]" := (@insert nat Z (list Z) _ i%nat v a)
  (at level 1, left associativity, v at level 200) : word_scope.

Abbreviation array := (list Z).

Open Scope word_scope.

(** ** The code *)

Definition rc : list Z :=
  [0x0000000000000001; 0x0000000000008082; 0x800000000000808A; 0x8000000080008000;
   0x000000000000808B; 0x0000000080000001; 0x8000000080008081; 0x8000000000008009;
   0x000000000000008A; 0x0000000000000088; 0x0000000080008009; 0x000000008000000A;
   0x000000008000808B; 0x800000000000008B; 0x8000000000008089; 0x8000000000008003;
   0x8000000000008002; 0x8000000000000080; 0x000000000000800A; 0x800000008000000A;
   0x8000000080008081; 0x8000000000008080; 0x0000000080000001; 0x8000000080008008].

(** Round 1 of the unrolled body. *)
Definition round1 (i : nat) (a : array) : array :=
  let bc0 := a.[0] ⊕ a.[5] ⊕ a.[10] ⊕ a.[15] ⊕ a.[20] in
  let bc1 := a.[1] ⊕ a.[6] ⊕ a.[11] ⊕ a.[16] ⊕ a.[21] in
  let bc2 := a.[2] ⊕ a.[7] ⊕ a.[12] ⊕ a.[17] ⊕ a.[22] in
  let bc3 := a.[3] ⊕ a.[8] ⊕ a.[13] ⊕ a.[18] ⊕ a.[23] in
  let bc4 := a.[4] ⊕ a.[9] ⊕ a.[14] ⊕ a.[19] ⊕ a.[24] in
  let d0 := bc4 ⊕ ((bc1 << 1) .| (bc1 >> 63)) in
  let d1 := bc0 ⊕ ((bc2 << 1) .| (bc2 >> 63)) in
  let d2 := bc1 ⊕ ((bc3 << 1) .| (bc3 >> 63)) in
  let d3 := bc2 ⊕ ((bc4 << 1) .| (bc4 >> 63)) in
  let d4 := bc3 ⊕ ((bc0 << 1) .| (bc0 >> 63)) in
  let bc0 := a.[0] ⊕ d0 in
  let t := a.[6] ⊕ d1 in
  let bc1 := (t << 44) .| (t >> (64 - 44)) in
  let t := a.[12] ⊕ d2 in
  let bc2 := (t << 43) .| (t >> (64 - 43)) in
  let t := a.[18] ⊕ d3 in
  let bc3 := (t << 21) .| (t >> (64 - 21)) in
  let t := a.[24] ⊕ d4 in
  let bc4 := (t << 14) .| (t >> (64 - 14)) in
  let a := a.[0 := bc0 ⊕ (bc2 &^ bc1) ⊕ rc.[i]] in
  let a := a.[6 := bc1 ⊕ (bc3 &^ bc2)] in
  let a := a.[12 := bc2 ⊕ (bc4 &^ bc3)] in
  let a := a.[18 := bc3 ⊕ (bc0 &^ bc4)] in
  let a := a.[24 := bc4 ⊕ (bc1 &^ bc0)] in
  let t := a.[10] ⊕ d0 in
  let bc2 := (t << 3) .| (t >> (64 - 3)) in
  let t := a.[16] ⊕ d1 in
  let bc3 := (t << 45) .| (t >> (64 - 45)) in
  let t := a.[22] ⊕ d2 in
  let bc4 := (t << 61) .| (t >> (64 - 61)) in
  let t := a.[3] ⊕ d3 in
  let bc0 := (t << 28) .| (t >> (64 - 28)) in
  let t := a.[9] ⊕ d4 in
  let bc1 := (t << 20) .| (t >> (64 - 20)) in
  let a := a.[10 := bc0 ⊕ (bc2 &^ bc1)] in
  let a := a.[16 := bc1 ⊕ (bc3 &^ bc2)] in
  let a := a.[22 := bc2 ⊕ (bc4 &^ bc3)] in
  let a := a.[3 := bc3 ⊕ (bc0 &^ bc4)] in
  let a := a.[9 := bc4 ⊕ (bc1 &^ bc0)] in
  let t := a.[20] ⊕ d0 in
  let bc4 := (t << 18) .| (t >> (64 - 18)) in
  let t := a.[1] ⊕ d1 in
  let bc0 := (t << 1) .| (t >> (64 - 1)) in
  let t := a.[7] ⊕ d2 in
  let bc1 := (t << 6) .| (t >> (64 - 6)) in
  let t := a.[13] ⊕ d3 in
  let bc2 := (t << 25) .| (t >> (64 - 25)) in
  let t := a.[19] ⊕ d4 in
  let bc3 := (t << 8) .| (t >> (64 - 8)) in
  let a := a.[20 := bc0 ⊕ (bc2 &^ bc1)] in
  let a := a.[1 := bc1 ⊕ (bc3 &^ bc2)] in
  let a := a.[7 := bc2 ⊕ (bc4 &^ bc3)] in
  let a := a.[13 := bc3 ⊕ (bc0 &^ bc4)] in
  let a := a.[19 := bc4 ⊕ (bc1 &^ bc0)] in
  let t := a.[5] ⊕ d0 in
  let bc1 := (t << 36) .| (t >> (64 - 36)) in
  let t := a.[11] ⊕ d1 in
  let bc2 := (t << 10) .| (t >> (64 - 10)) in
  let t := a.[17] ⊕ d2 in
  let bc3 := (t << 15) .| (t >> (64 - 15)) in
  let t := a.[23] ⊕ d3 in
  let bc4 := (t << 56) .| (t >> (64 - 56)) in
  let t := a.[4] ⊕ d4 in
  let bc0 := (t << 27) .| (t >> (64 - 27)) in
  let a := a.[5 := bc0 ⊕ (bc2 &^ bc1)] in
  let a := a.[11 := bc1 ⊕ (bc3 &^ bc2)] in
  let a := a.[17 := bc2 ⊕ (bc4 &^ bc3)] in
  let a := a.[23 := bc3 ⊕ (bc0 &^ bc4)] in
  let a := a.[4 := bc4 ⊕ (bc1 &^ bc0)] in
  let t := a.[15] ⊕ d0 in
  let bc3 := (t << 41) .| (t >> (64 - 41)) in
  let t := a.[21] ⊕ d1 in
  let bc4 := (t << 2) .| (t >> (64 - 2)) in
  let t := a.[2] ⊕ d2 in
  let bc0 := (t << 62) .| (t >> (64 - 62)) in
  let t := a.[8] ⊕ d3 in
  let bc1 := (t << 55) .| (t >> (64 - 55)) in
  let t := a.[14] ⊕ d4 in
  let bc2 := (t << 39) .| (t >> (64 - 39)) in
  let a := a.[15 := bc0 ⊕ (bc2 &^ bc1)] in
  let a := a.[21 := bc1 ⊕ (bc3 &^ bc2)] in
  let a := a.[2 := bc2 ⊕ (bc4 &^ bc3)] in
  let a := a.[8 := bc3 ⊕ (bc0 &^ bc4)] in
  let a := a.[14 := bc4 ⊕ (bc1 &^ bc0)] in
  a.

(** Round 2 of the unrolled body. *)
Definition round2 (i : nat) (a : array) : array :=
  let bc0 := a.[0] ⊕ a.[5] ⊕ a.[10] ⊕ a.[15] ⊕ a.[20] in
  let bc1 := a.[1] ⊕ a.[6] ⊕ a.[11] ⊕ a.[16] ⊕ a.[21] in
  let bc2 := a.[2] ⊕ a.[7] ⊕ a.[12] ⊕ a.[17] ⊕ a.[22] in
  let bc3 := a.[3] ⊕ a.[8] ⊕ a.[13] ⊕ a.[18] ⊕ a.[23] in
  let bc4 := a.[4] ⊕ a.[9] ⊕ a.[14] ⊕ a.[19] ⊕ a.[24] in
  let d0 := bc4 ⊕ ((bc1 << 1) .| (bc1 >> 63)) in
  let d1 := bc0 ⊕ ((bc2 << 1) .| (bc2 >> 63)) in
  let d2 := bc1 ⊕ ((bc3 << 1) .| (bc3 >> 63)) in
  let d3 := bc2 ⊕ ((bc4 << 1) .| (bc4 >> 63)) in
  let d4 := bc3 ⊕ ((bc0 << 1) .| (bc0 >> 63)) in
  let bc0 := a.[0] ⊕ d0 in
  let t := a.[16] ⊕ d1 in
  let bc1 := (t << 44) .| (t >> (64 - 44)) in
  let t := a.[7] ⊕ d2 in
  let bc2 := (t << 43) .| (t >> (64 - 43)) in
  let t := a.[23] ⊕ d3 in
  let bc3 := (t << 21) .| (t >> (64 - 21)) in
  let t := a.[14] ⊕ d4 in
  let bc4 := (t << 14) .| (t >> (64 - 14)) in
  let a := a.[0 := bc0 ⊕ (bc2 &^ bc1) ⊕ rc.[i + 1]] in
  let a := a.[16 := bc1 ⊕ (bc3 &^ bc2)] in
  let a := a.[7 := bc2 ⊕ (bc4 &^ bc3)] in
  let a := a.[23 := bc3 ⊕ (bc0 &^ bc4)] in
  let a := a.[14 := bc4 ⊕ (bc1 &^ bc0)] in
  let t := a.[20] ⊕ d0 in
  let bc2 := (t << 3) .| (t >> (64 - 3)) in
  let t := a.[11] ⊕ d1 in
  let bc3 := (t << 45) .| (t >> (64 - 45)) in
  let t := a.[2] ⊕ d2 in
  let bc4 := (t << 61) .| (t >> (64 - 61)) in
  let t := a.[18] ⊕ d3 in
  let bc0 := (t << 28) .| (t >> (64 - 28)) in
  let t := a.[9] ⊕ d4 in
  let bc1 := (t << 20) .| (t >> (64 - 20)) in
  let a := a.[20 := bc0 ⊕ (bc2 &^ bc1)] in
  let a := a.[11 := bc1 ⊕ (bc3 &^ bc2)] in
  let a := a.[2 := bc2 ⊕ (bc4 &^ bc3)] in
  let a := a.[18 := bc3 ⊕ (bc0 &^ bc4)] in
  let a := a.[9 := bc4 ⊕ (bc1 &^ bc0)] in
  let t := a.[15] ⊕ d0 in
  let bc4 := (t << 18) .| (t >> (64 - 18)) in
  let t := a.[6] ⊕ d1 in
  let bc0 := (t << 1) .| (t >> (64 - 1)) in
  let t := a.[22] ⊕ d2 in
  let bc1 := (t << 6) .| (t >> (64 - 6)) in
  let t := a.[13] ⊕ d3 in
  let bc2 := (t << 25) .| (t >> (64 - 25)) in
  let t := a.[4] ⊕ d4 in
  let bc3 := (t << 8) .| (t >> (64 - 8)) in
  let a := a.[15 := bc0 ⊕ (bc2 &^ bc1)] in
  let a := a.[6 := bc1 ⊕ (bc3 &^ bc2)] in
  let a := a.[22 := bc2 ⊕ (bc4 &^ bc3)] in
  let a := a.[13 := bc3 ⊕ (bc0 &^ bc4)] in
  let a := a.[4 := bc4 ⊕ (bc1 &^ bc0)] in
  let t := a.[10] ⊕ d0 in
  let bc1 := (t << 36) .| (t >> (64 - 36)) in
  let t := a.[1] ⊕ d1 in
  let bc2 := (t << 10) .| (t >> (64 - 10)) in
  let t := a.[17] ⊕ d2 in
  let bc3 := (t << 15) .| (t >> (64 - 15)) in
  let t := a.[8] ⊕ d3 in
  let bc4 := (t << 56) .| (t >> (64 - 56)) in
  let t := a.[24] ⊕ d4 in
  let bc0 := (t << 27) .| (t >> (64 - 27)) in
  let a := a.[10 := bc0 ⊕ (bc2 &^ bc1)] in
  let a := a.[1 := bc1 ⊕ (bc3 &^ bc2)] in
  let a := a.[17 := bc2 ⊕ (bc4 &^ bc3)] in
  let a := a.[8 := bc3 ⊕ (bc0 &^ bc4)] in
  let a := a.[24 := bc4 ⊕ (bc1 &^ bc0)] in
  let t := a.[5] ⊕ d0 in
  let bc3 := (t << 41) .| (t >> (64 - 41)) in
  let t := a.[21] ⊕ d1 in
  let bc4 := (t << 2) .| (t >> (64 - 2)) in
  let t := a.[12] ⊕ d2 in
  let bc0 := (t << 62) .| (t >> (64 - 62)) in
  let t := a.[3] ⊕ d3 in
  let bc1 := (t << 55) .| (t >> (64 - 55)) in
  let t := a.[19] ⊕ d4 in
  let bc2 := (t << 39) .| (t >> (64 - 39)) in
  let a := a.[5 := bc0 ⊕ (bc2 &^ bc1)] in
  let a := a.[21 := bc1 ⊕ (bc3 &^ bc2)] in
  let a := a.[12 := bc2 ⊕ (bc4 &^ bc3)] in
  let a := a.[3 := bc3 ⊕ (bc0 &^ bc4)] in
  let a := a.[19 := bc4 ⊕ (bc1 &^ bc0)] in
  a.

(** Round 3 of the unrolled body. *)
Definition round3 (i : nat) (a : array) : array :=
  let bc0 := a.[0] ⊕ a.[5] ⊕ a.[10] ⊕ a.[15] ⊕ a.[20] in
  let bc1 := a.[1] ⊕ a.[6] ⊕ a.[11] ⊕ a.[16] ⊕ a.[21] in
  let bc2 := a.[2] ⊕ a.[7] ⊕ a.[12] ⊕ a.[17] ⊕ a.[22] in
  let bc3 := a.[3] ⊕ a.[8] ⊕ a.[13] ⊕ a.[18] ⊕ a.[23] in
  let bc4 := a.[4] ⊕ a.[9] ⊕ a.[14] ⊕ a.[19] ⊕ a.[24] in
  let d0 := bc4 ⊕ ((bc1 << 1) .| (bc1 >> 63)) in
  let d1 := bc0 ⊕ ((bc2 << 1) .| (bc2 >> 63)) in
  let d2 := bc1 ⊕ ((bc3 << 1) .| (bc3 >> 63)) in
  let d3 := bc2 ⊕ ((bc4 << 1) .| (bc4 >> 63)) in
  let d4 := bc3 ⊕ ((bc0 << 1) .| (bc0 >> 63)) in
  let bc0 := a.[0] ⊕ d0 in
  let t := a.[11] ⊕ d1 in
  let bc1 := (t << 44) .| (t >> (64 - 44)) in
  let t := a.[22] ⊕ d2 in
  let bc2 := (t << 43) .| (t >> (64 - 43)) in
  let t := a.[8] ⊕ d3 in
  let bc3 := (t << 21) .| (t >> (64 - 21)) in
  let t := a.[19] ⊕ d4 in
  let bc4 := (t << 14) .| (t >> (64 - 14)) in
  let a := a.[0 := bc0 ⊕ (bc2 &^ bc1) ⊕ rc.[i + 2]] in
  let a := a.[11 := bc1 ⊕ (bc3 &^ bc2)] in
  let a := a.[22 := bc2 ⊕ (bc4 &^ bc3)] in
  let a := a.[8 := bc3 ⊕ (bc0 &^ bc4)] in
  let a := a.[19 := bc4 ⊕ (bc1 &^ bc0)] in
  let t := a.[15] ⊕ d0 in
  let bc2 := (t << 3) .| (t >> (64 - 3)) in
  let t := a.[1] ⊕ d1 in
  let bc3 := (t << 45) .| (t >> (64 - 45)) in
  let t := a.[12] ⊕ d2 in
  let bc4 := (t << 61) .| (t >> (64 - 61)) in
  let t := a.[23] ⊕ d3 in
  let bc0 := (t << 28) .| (t >> (64 - 28)) in
  let t := a.[9] ⊕ d4 in
  let bc1 := (t << 20) .| (t >> (64 - 20)) in
  let a := a.[15 := bc0 ⊕ (bc2 &^ bc1)] in
  let a := a.[1 := bc1 ⊕ (bc3 &^ bc2)] in
  let a := a.[12 := bc2 ⊕ (bc4 &^ bc3)] in
  let a := a.[23 := bc3 ⊕ (bc0 &^ bc4)] in
  let a := a.[9 := bc4 ⊕ (bc1 &^ bc0)] in
  let t := a.[5] ⊕ d0 in
  let bc4 := (t << 18) .| (t >> (64 - 18)) in
  let t := a.[16] ⊕ d1 in
  let bc0 := (t << 1) .| (t >> (64 - 1)) in
  let t := a.[2] ⊕ d2 in
  let bc1 := (t << 6) .| (t >> (64 - 6)) in
  let t := a.[13] ⊕ d3 in
  let bc2 := (t << 25) .| (t >> (64 - 25)) in
  let t := a.[24] ⊕ d4 in
  let bc3 := (t << 8) .| (t >> (64 - 8)) in
  let a := a.[5 := bc0 ⊕ (bc2 &^ bc1)] in
  let a := a.[16 := bc1 ⊕ (bc3 &^ bc2)] in
  let a := a.[2 := bc2 ⊕ (bc4 &^ bc3)] in
  let a := a.[13 := bc3 ⊕ (bc0 &^ bc4)] in
  let a := a.[24 := bc4 ⊕ (bc1 &^ bc0)] in
  let t := a.[20] ⊕ d0 in
  let bc1 := (t << 36) .| (t >> (64 - 36)) in
  let t := a.[6] ⊕ d1 in
  let bc2 := (t << 10) .| (t >> (64 - 10)) in
  let t := a.[17] ⊕ d2 in
  let bc3 := (t << 15) .| (t >> (64 - 15)) in
  let t := a.[3] ⊕ d3 in
  let bc4 := (t << 56) .| (t >> (64 - 56)) in
  let t := a.[14] ⊕ d4 in
  let bc0 := (t << 27) .| (t >> (64 - 27)) in
  let a := a.[20 := bc0 ⊕ (bc2 &^ bc1)] in
  let a := a.[6 := bc1 ⊕ (bc3 &^ bc2)] in
  let a := a.[17 := bc2 ⊕ (bc4 &^ bc3)] in
  let a := a.[3 := bc3 ⊕ (bc0 &^ bc4)] in
  let a := a.[14 := bc4 ⊕ (bc1 &^ bc0)] in
  let t := a.[10] ⊕ d0 in
  let bc3 := (t << 41) .| (t >> (64 - 41)) in
  let t := a.[21] ⊕ d1 in
  let bc4 := (t << 2) .| (t >> (64 - 2)) in
  let t := a.[7] ⊕ d2 in
  let bc0 := (t << 62) .| (t >> (64 - 62)) in
  let t := a.[18] ⊕ d3 in
  let bc1 := (t << 55) .| (t >> (64 - 55)) in
  let t := a.[4] ⊕ d4 in
  let bc2 := (t << 39) .| (t >> (64 - 39)) in
  let a := a.[10 := bc0 ⊕ (bc2 &^ bc1)] in
  let a := a.[21 := bc1 ⊕ (bc3 &^ bc2)] in
  let a := a.[7 := bc2 ⊕ (bc4 &^ bc3)] in
  let a := a.[18 := bc3 ⊕ (bc0 &^ bc4)] in
  let a := a.[4 := bc4 ⊕ (bc1 &^ bc0)] in
  a.

(** Round 4 of the unrolled body. *)
Definition round4 (i : nat) (a : array) : array :=
  let bc0 := a.[0] ⊕ a.[5] ⊕ a.[10] ⊕ a.[15] ⊕ a.[20] in
  let bc1 := a.[1] ⊕ a.[6] ⊕ a.[11] ⊕ a.[16] ⊕ a.[21] in
  let bc2 := a.[2] ⊕ a.[7] ⊕ a.[12] ⊕ a.[17] ⊕ a.[22] in
  let bc3 := a.[3] ⊕ a.[8] ⊕ a.[13] ⊕ a.[18] ⊕ a.[23] in
  let bc4 := a.[4] ⊕ a.[9] ⊕ a.[14] ⊕ a.[19] ⊕ a.[24] in
  let d0 := bc4 ⊕ ((bc1 << 1) .| (bc1 >> 63)) in
  let d1 := bc0 ⊕ ((bc2 << 1) .| (bc2 >> 63)) in
  let d2 := bc1 ⊕ ((bc3 << 1) .| (bc3 >> 63)) in
  let d3 := bc2 ⊕ ((bc4 << 1) .| (bc4 >> 63)) in
  let d4 := bc3 ⊕ ((bc0 << 1) .| (bc0 >> 63)) in
  let bc0 := a.[0] ⊕ d0 in
  let t := a.[1] ⊕ d1 in
  let bc1 := (t << 44) .| (t >> (64 - 44)) in
  let t := a.[2] ⊕ d2 in
  let bc2 := (t << 43) .| (t >> (64 - 43)) in
  let t := a.[3] ⊕ d3 in
  let bc3 := (t << 21) .| (t >> (64 - 21)) in
  let t := a.[4] ⊕ d4 in
  let bc4 := (t << 14) .| (t >> (64 - 14)) in
  let a := a.[0 := bc0 ⊕ (bc2 &^ bc1) ⊕ rc.[i + 3]] in
  let a := a.[1 := bc1 ⊕ (bc3 &^ bc2)] in
  let a := a.[2 := bc2 ⊕ (bc4 &^ bc3)] in
  let a := a.[3 := bc3 ⊕ (bc0 &^ bc4)] in
  let a := a.[4 := bc4 ⊕ (bc1 &^ bc0)] in
  let t := a.[5] ⊕ d0 in
  let bc2 := (t << 3) .| (t >> (64 - 3)) in
  let t := a.[6] ⊕ d1 in
  let bc3 := (t << 45) .| (t >> (64 - 45)) in
  let t := a.[7] ⊕ d2 in
  let bc4 := (t << 61) .| (t >> (64 - 61)) in
  let t := a.[8] ⊕ d3 in
  let bc0 := (t << 28) .| (t >> (64 - 28)) in
  let t := a.[9] ⊕ d4 in
  let bc1 := (t << 20) .| (t >> (64 - 20)) in
  let a := a.[5 := bc0 ⊕ (bc2 &^ bc1)] in
  let a := a.[6 := bc1 ⊕ (bc3 &^ bc2)] in
  let a := a.[7 := bc2 ⊕ (bc4 &^ bc3)] in
  let a := a.[8 := bc3 ⊕ (bc0 &^ bc4)] in
  let a := a.[9 := bc4 ⊕ (bc1 &^ bc0)] in
  let t := a.[10] ⊕ d0 in
  let bc4 := (t << 18) .| (t >> (64 - 18)) in
  let t := a.[11] ⊕ d1 in
  let bc0 := (t << 1) .| (t >> (64 - 1)) in
  let t := a.[12] ⊕ d2 in
  let bc1 := (t << 6) .| (t >> (64 - 6)) in
  let t := a.[13] ⊕ d3 in
  let bc2 := (t << 25) .| (t >> (64 - 25)) in
  let t := a.[14] ⊕ d4 in
  let bc3 := (t << 8) .| (t >> (64 - 8)) in
  let a := a.[10 := bc0 ⊕ (bc2 &^ bc1)] in
  let a := a.[11 := bc1 ⊕ (bc3 &^ bc2)] in
  let a := a.[12 := bc2 ⊕ (bc4 &^ bc3)] in
  let a := a.[13 := bc3 ⊕ (bc0 &^ bc4)] in
  let a := a.[14 := bc4 ⊕ (bc1 &^ bc0)] in
  let t := a.[15] ⊕ d0 in
  let bc1 := (t << 36) .| (t >> (64 - 36)) in
  let t := a.[16] ⊕ d1 in
  let bc2 := (t << 10) .| (t >> (64 - 10)) in
  let t := a.[17] ⊕ d2 in
  let bc3 := (t << 15) .| (t >> (64 - 15)) in
  let t := a.[18] ⊕ d3 in
  let bc4 := (t << 56) .| (t >> (64 - 56)) in
  let t := a.[19] ⊕ d4 in
  let bc0 := (t << 27) .| (t >> (64 - 27)) in
  let a := a.[15 := bc0 ⊕ (bc2 &^ bc1)] in
  let a := a.[16 := bc1 ⊕ (bc3 &^ bc2)] in
  let a := a.[17 := bc2 ⊕ (bc4 &^ bc3)] in
  let a := a.[18 := bc3 ⊕ (bc0 &^ bc4)] in
  let a := a.[19 := bc4 ⊕ (bc1 &^ bc0)] in
  let t := a.[20] ⊕ d0 in
  let bc3 := (t << 41) .| (t >> (64 - 41)) in
  let t := a.[21] ⊕ d1 in
  let bc4 := (t << 2) .| (t >> (64 - 2)) in
  let t := a.[22] ⊕ d2 in
  let bc0 := (t << 62) .| (t >> (64 - 62)) in
  let t := a.[23] ⊕ d3 in
  let bc1 := (t << 55) .| (t >> (64 - 55)) in
  let t := a.[24] ⊕ d4 in
  let bc2 := (t << 39) .| (t >> (64 - 39)) in
  let a := a.[20 := bc0 ⊕ (bc2 &^ bc1)] in
  let a := a.[21 := bc1 ⊕ (bc3 &^ bc2)] in
  let a := a.[22 := bc2 ⊕ (bc4 &^ bc3)] in
  let a := a.[23 := bc3 ⊕ (bc0 &^ bc4)] in
  let a := a.[24 := bc4 ⊕ (bc1 &^ bc0)] in
  a.

(** The loop [for i := 0; i < 24; i += 4]. *)
Definition keccakF1600 (a : array) : array :=
  foldl (fun a i => round4 i (round3 i (round2 i (round1 i a)))) a [0; 4; 8; 12; 16; 20]%nat.

(** ** The reference: FIPS 202, section 3.2

    A state is a function from the coordinates [x], [y], [z] to bits. *)

Module Fips202.

Definition bits := nat -> nat -> nat -> bool.

Definition parity (A : bits) (x z : nat) : bool :=
  (xorb (xorb (xorb (xorb (A x 0 z) (A x 1 z)) (A x 2 z)) (A x 3 z)) (A x 4 z))%nat.

Definition theta (A : bits) : bits := fun x y z =>
  xorb (A x y z) (xorb (parity A ((x + 4) mod 5) z) (parity A ((x + 1) mod 5) ((z + 63) mod 64)))%nat.

(** The offsets of [rho] are the triangular numbers along the walk
    [(x, y) -> (y, 2x + 3y)] that starts at [(1, 0)]. *)
Fixpoint rho_walk (n t x y X Y : nat) : nat :=
  match n with
  | O => O
  | S n' => if ((x =? X) && (y =? Y))%nat then ((t + 1) * (t + 2) / 2)%nat
            else rho_walk n' (t + 1) y ((2 * x + 3 * y) mod 5) X Y
  end.

Definition rho_offset (x y : nat) : nat := (rho_walk 24 0 1 0 x y mod 64)%nat.

Definition rho (A : bits) : bits := fun x y z => A x y ((z + (64 - rho_offset x y)) mod 64)%nat.

Definition pi (A : bits) : bits := fun x y z => A ((x + 3 * y) mod 5)%nat x z.

Definition chi (A : bits) : bits := fun x y z =>
  xorb (A x y z) (negb (A ((x + 1) mod 5) y z) && A ((x + 2) mod 5) y z)%nat.

(** The bit [rc(t)] of the linear feedback shift register. *)
Definition lfsr_step (R : list bool) : list bool :=
  match false :: R with
  | [r0; r1; r2; r3; r4; r5; r6; r7; r8] =>
      [xorb r0 r8; r1; r2; r3; xorb r4 r8; xorb r5 r8; xorb r6 r8; r7]
  | _ => R
  end.

Definition rc_bit (t : nat) : bool :=
  match Nat.iter (t mod 255) lfsr_step [true; false; false; false; false; false; false; false] with
  | b :: _ => b
  | [] => false
  end.

(** Bit [2^j - 1] of the round constant is [rc(j + 7 ir)]. *)
Definition round_constant (ir z : nat) : bool :=
  existsb (fun j => (z =? 2 ^ j - 1)%nat && rc_bit (j + 7 * ir)) (seq 0 7).

Definition iota (ir : nat) (A : bits) : bits := fun x y z =>
  if ((x =? 0) && (y =? 0))%nat then xorb (A x y z) (round_constant ir z) else A x y z.

Definition rnd (ir : nat) (A : bits) : bits := iota ir (chi (pi (rho (theta A)))).

Definition keccak_f (A : bits) : bits := foldl (fun A ir => rnd ir A) A (seq 0 24).

(** Two states are the same when they agree on the coordinates. *)
Definition agree (A B : bits) : Prop :=
  forall x y z, (x < 5 -> y < 5 -> z < 64 -> A x y z = B x y z)%nat.

End Fips202.

Import Fips202.

#[export] Instance agree_equiv : Equivalence agree.
Proof.
  split; [intros A; done | intros A B H x y z ? ? ?; by rewrite H |].
  intros A B C H1 H2 x y z ? ? ?. by rewrite H1, H2.
Qed.

(** The coordinates a step mapping reads are in range. *)
Ltac in_range := first [ apply Nat.mod_upper_bound; lia | lia | assumption ].

#[export] Instance theta_proper : Proper (agree ==> agree) theta.
Proof.
  intros A B H x y z ? ? ?. unfold theta, parity. by rewrite !H by in_range.
Qed.

#[export] Instance rho_proper : Proper (agree ==> agree) rho.
Proof. intros A B H x y z ? ? ?. unfold rho. apply H; in_range. Qed.

#[export] Instance pi_proper : Proper (agree ==> agree) pi.
Proof. intros A B H x y z ? ? ?. unfold pi. apply H; in_range. Qed.

#[export] Instance chi_proper : Proper (agree ==> agree) chi.
Proof. intros A B H x y z ? ? ?. unfold chi. by rewrite !H by in_range. Qed.

#[export] Instance iota_proper ir : Proper (agree ==> agree) (iota ir).
Proof. intros A B H x y z ? ? ?. unfold iota. by rewrite !H by in_range. Qed.

#[export] Instance rnd_proper ir : Proper (agree ==> agree) (rnd ir).
Proof. intros A B H. unfold rnd. by rewrite H. Qed.

(** ** The same step mappings on words *)

Definition lanes (f : nat -> nat -> Z) : array :=
  map (fun i => f (i mod 5) (i / 5))%nat (seq 0 25).

Definition rol (w : Z) (n : nat) : Z :=
  (w << Z.of_nat n) .| (w >> (64 - Z.of_nat n)).

Definition lane (a : array) (x y : nat) : Z := a.[x + 5 * y].

Definition column (a : array) (x : nat) : Z :=
  lane a x 0 ⊕ lane a x 1 ⊕ lane a x 2 ⊕ lane a x 3 ⊕ lane a x 4.

Definition columns (a : array) : array := map (column a) (seq 0 5).

(** [theta] with given columns. *)
Definition theta_cols (cs a : array) : array := lanes (fun x y =>
  lane a x y ⊕ (cs.[(x + 4) mod 5] ⊕ rol cs.[(x + 1) mod 5] 1)).

Definition theta_w (a : array) : array := theta_cols (columns a) a.

Definition rho_w (a : array) : array := lanes (fun x y =>
  match rho_offset x y with O => lane a x y | S n => rol (lane a x y) (S n) end).

Definition pi_w (a : array) : array := lanes (fun x y => lane a ((x + 3 * y) mod 5)%nat x).

Definition chi_w (a : array) : array := lanes (fun x y =>
  lane a x y ⊕ (lane a ((x + 2) mod 5) y &^ lane a ((x + 1) mod 5) y))%nat.

Definition iota_w (c : Z) (a : array) : array := lanes (fun x y =>
  if ((x =? 0) && (y =? 0))%nat then lane a x y ⊕ c else lane a x y).

Definition rnd_w (c : Z) (a : array) : array := iota_w c (chi_w (pi_w (rho_w (theta_w a)))).

(** The code leaves every lane in its column; in the round [k] of the body the
    lane [(x, y)] is in row [row k x y]. *)
Fixpoint row (k x y : nat) : nat :=
  match k with
  | O => y
  | S k' => ((x + 2 * row k' x y) mod 5)%nat
  end.

Definition view (k : nat) (a : array) : array := lanes (fun x y => lane a x (row k x y)).

Ltac word_cbv :=
  cbv -[Z.lxor Z.lor Z.ldiff Z.shiftr shl64 rc].

(** Equality of sums of the same words in another order, bit by bit. *)
Ltac word_xor :=
  cbn -[Z.testbit lane];
  repeat match goal with |- context [Z.testbit ?w ?n] => destruct (Z.testbit w n) end; reflexivity.

(** ** The unrolled rounds are rounds of the reference *)

Lemma array_25 (a : array) : length a = 25%nat -> exists x0 x1 x2 x3 x4 x5 x6 x7 x8 x9 x10 x11 x12
  x13 x14 x15 x16 x17 x18 x19 x20 x21 x22 x23 x24,
  a = [x0; x1; x2; x3; x4; x5; x6; x7; x8; x9; x10; x11; x12; x13; x14; x15; x16; x17; x18;
       x19; x20; x21; x22; x23; x24].
Proof.
  intros H. do 25 (destruct a as [|? a]; [discriminate H|]).
  destruct a; [|discriminate H]. by repeat eexists.
Qed.

(** Decides a statement about an array of 25 words by evaluating both sides on
    25 variables, the word operations kept. *)
Ltac by_lanes a Ha :=
  destruct (array_25 a Ha) as (x0 & x1 & x2 & x3 & x4 & x5 & x6 & x7 & x8 & x9 & x10 &
    x11 & x12 & x13 & x14 & x15 & x16 & x17 & x18 & x19 & x20 & x21 & x22 & x23 & x24 & ->);
  word_cbv; reflexivity.

Lemma lane_lanes f x y : (x < 5)%nat -> (y < 5)%nat -> lane (lanes f) x y = f x y.
Proof. intros. do 5 (destruct x as [|x]; [by do 5 (destruct y as [|y]; [done|]); lia|]). lia. Qed.

(** Moving lanes within their columns does not change the columns. *)
Lemma columns_view k a : (k < 4)%nat -> columns (view k a) = columns a.
Proof.
  intros Hk. apply map_ext_in. intros x Hx%in_seq. apply Z.bits_inj. intros n.
  unfold column, view. rewrite !lane_lanes, !Z.lxor_spec by lia.
  do 5 (destruct x as [|x]; [do 4 (destruct k as [|k]; [word_xor|]); lia|]). lia.
Qed.

Lemma round1_view i a : length a = 25%nat -> view 1 (round1 i a) = rnd_w rc.[i] (view 0 a).
Proof. intros Ha. unfold rnd_w, theta_w. rewrite columns_view by lia. by_lanes a Ha. Qed.

Lemma round2_view i a : length a = 25%nat -> view 2 (round2 i a) = rnd_w rc.[i + 1] (view 1 a).
Proof. intros Ha. unfold rnd_w, theta_w. rewrite columns_view by lia. by_lanes a Ha. Qed.

Lemma round3_view i a : length a = 25%nat -> view 3 (round3 i a) = rnd_w rc.[i + 2] (view 2 a).
Proof. intros Ha. unfold rnd_w, theta_w. rewrite columns_view by lia. by_lanes a Ha. Qed.

Lemma round4_view i a : length a = 25%nat -> view 4 (round4 i a) = rnd_w rc.[i + 3] (view 3 a).
Proof. intros Ha. unfold rnd_w, theta_w. rewrite columns_view by lia. by_lanes a Ha. Qed.

Lemma rounds_length i a : length a = 25%nat ->
  length (round1 i a) = 25%nat /\ length (round2 i a) = 25%nat /\
  length (round3 i a) = 25%nat /\ length (round4 i a) = 25%nat.
Proof. intros Ha. repeat split; by_lanes a Ha. Qed.

(** After four rounds every lane is back in its place. *)
Lemma view_0 a : length a = 25%nat -> view 0 a = a.
Proof. intros Ha. by_lanes a Ha. Qed.

Lemma view_4 a : length a = 25%nat -> view 4 a = a.
Proof. intros Ha. by_lanes a Ha. Qed.

Lemma body_rnd i a : length a = 25%nat ->
  round4 i (round3 i (round2 i (round1 i a))) =
  rnd_w rc.[i + 3] (rnd_w rc.[i + 2] (rnd_w rc.[i + 1] (rnd_w rc.[i] a))).
Proof.
  intros Ha. pose proof (rounds_length i a Ha) as (L1 & _).
  pose proof (rounds_length i _ L1) as (_ & L2 & _).
  pose proof (rounds_length i _ L2) as (_ & _ & L3 & _).
  pose proof (rounds_length i _ L3) as (_ & _ & _ & L4).
  by rewrite <- (view_4 _ L4), round4_view, round3_view, round2_view, round1_view, view_0.
Qed.

Lemma length_rnd_w c a : length (rnd_w c a) = 25%nat.
Proof. reflexivity. Qed.

Lemma bodies_rnds l a : length a = 25%nat ->
  foldl (fun a i => round4 i (round3 i (round2 i (round1 i a)))) a l =
  foldl (fun a ir => rnd_w rc.[ir] a) a (l ≫= fun i => [i; i + 1; i + 2; i + 3]%nat).
Proof.
  revert a. induction l as [|i l IH]; intros a Ha; [done|]. cbn [foldl mbind list_bind].
  rewrite body_rnd by done. rewrite foldl_app. apply IH, length_rnd_w.
Qed.

Lemma keccakF1600_rnds a : length a = 25%nat ->
  keccakF1600 a = foldl (fun a ir => rnd_w rc.[ir] a) a (seq 0 24).
Proof. apply bodies_rnds. Qed.

Lemma length_keccakF1600 a : length a = 25%nat -> length (keccakF1600 a) = 25%nat.
Proof.
  intros Ha. rewrite keccakF1600_rnds by done. rewrite (seq_app 23 1), foldl_app.
  apply length_rnd_w.
Qed.

(** ** From words to bits *)

Definition words_ok (a : array) : Prop := length a = 25%nat /\ Forall word_ok a.

Definition bits_of (a : array) : bits := fun x y z => Z.testbit (lane a x y) (Z.of_nat z).

Lemma words_ok_lanes f :
  (forall x y, (x < 5)%nat -> (y < 5)%nat -> word_ok (f x y)) -> words_ok (lanes f).
Proof.
  intros H. split; [done|]. apply Forall_map, Forall_forall. intros i Hi%elem_of_seq.
  apply H; [apply Nat.mod_upper_bound; lia|]. apply Nat.Div0.div_lt_upper_bound. lia.
Qed.

Lemma word_ok_lane a x y : words_ok a -> word_ok (lane a x y).
Proof.
  intros [_ H]. unfold lane. destruct (decide (x + 5 * y < length a)%nat).
  - rewrite Forall_lookup_total in H. by apply H.
  - rewrite list_lookup_total_alt, lookup_ge_None_2 by lia. by split.
Qed.

(** A word is in range when its high bits are zero. *)
Lemma word_ok_bits w : word_ok w <-> forall n, n < 0 \/ 64 <= n -> Z.testbit w n = false.
Proof.
  split.
  - intros [H0 H1] n [Hn|Hn]; [by apply Z.testbit_neg_r|].
    destruct (decide (w = 0)) as [->|]; [apply Z.bits_0|].
    apply Z.bits_above_log2; [done|]. assert (Z.log2 w < 64) by (apply Z.log2_lt_pow2; lia). lia.
  - intros H. assert (w = w mod 2 ^ 64) as E.
    { apply Z.bits_inj'. intros n Hn. destruct (decide (n < 64)).
      - by rewrite Z.mod_pow2_bits_low.
      - rewrite Z.mod_pow2_bits_high, H by lia. done. }
    rewrite E. apply Z.mod_pos_bound. done.
Qed.

Lemma word_ok_lxor u v : word_ok u -> word_ok v -> word_ok (u ⊕ v).
Proof. rewrite !word_ok_bits. intros Hu Hv n Hn. by rewrite Z.lxor_spec, Hu, Hv. Qed.

Lemma word_ok_lor u v : word_ok u -> word_ok v -> word_ok (u .| v).
Proof. rewrite !word_ok_bits. intros Hu Hv n Hn. by rewrite Z.lor_spec, Hu, Hv. Qed.

Lemma word_ok_ldiff u v : word_ok u -> word_ok (u &^ v).
Proof. rewrite !word_ok_bits. intros Hu n Hn. by rewrite Z.ldiff_spec, Hu. Qed.

Lemma word_ok_shr w n : 0 <= n -> word_ok w -> word_ok (w >> n).
Proof.
  rewrite !word_ok_bits. intros Hn Hw k Hk. destruct (decide (k < 0)).
  - by apply Z.testbit_neg_r.
  - rewrite Z.shiftr_spec, Hw by lia. done.
Qed.

Lemma word_ok_shl w n : word_ok (w << n).
Proof. apply Z.mod_pos_bound. done. Qed.

#[export] Hint Resolve word_ok_lxor word_ok_lor word_ok_ldiff word_ok_shl word_ok_lane : gomodel.

Lemma word_ok_rol w n : (n <= 64)%nat -> word_ok w -> word_ok (rol w n).
Proof. intros Hn Hw. apply word_ok_lor; [apply word_ok_shl|]. apply word_ok_shr; [lia|done]. Qed.

(** A rotation moves bit [z - n] to bit [z]. *)
Lemma rol_bit w n z : word_ok w -> (n <= 64)%nat -> (z < 64)%nat ->
  Z.testbit (rol w n) (Z.of_nat z) = Z.testbit w (Z.of_nat ((z + (64 - n)) mod 64)).
Proof.
  intros Hw Hn Hz. unfold rol, shl64.
  rewrite Z.lor_spec, Z.mod_pow2_bits_low, Z.shiftl_spec, Z.shiftr_spec by lia.
  rewrite word_ok_bits in Hw. destruct (decide (z < n)%nat).
  - rewrite Z.testbit_neg_r, Nat.mod_small by lia. cbn. f_equal. lia.
  - rewrite (Hw (Z.of_nat z + _)) by lia. rewrite orb_false_r.
    replace (z + (64 - n))%nat with (z - n + 1 * 64)%nat by lia.
    rewrite Nat.Div0.mod_add, Nat.mod_small by lia. f_equal. lia.
Qed.

Lemma column_bit a x z :
  Z.testbit (column a x) (Z.of_nat z) = parity (bits_of a) x z.
Proof. unfold column. by rewrite !Z.lxor_spec. Qed.

Lemma word_ok_column a x : words_ok a -> word_ok (column a x).
Proof. intros H. unfold column. auto 8 with gomodel. Qed.

Lemma columns_lookup a x : (x < 5)%nat -> (columns a).[x] = column a x.
Proof. intros. by do 5 (destruct x as [|x]; [done|]); lia. Qed.

Lemma theta_w_bits a : words_ok a -> agree (bits_of (theta_w a)) (theta (bits_of a)).
Proof.
  intros H x y z Hx Hy Hz. unfold bits_of at 1, theta_w, theta_cols. rewrite lane_lanes by done.
  rewrite !columns_lookup by in_range.
  rewrite !Z.lxor_spec, rol_bit by (lia || by apply word_ok_column). by rewrite !column_bit.
Qed.

Lemma theta_w_ok a : words_ok a -> words_ok (theta_w a).
Proof.
  intros H. apply words_ok_lanes. intros. rewrite !columns_lookup by in_range.
  apply word_ok_lxor; [by apply word_ok_lane|]. apply word_ok_lxor; [by apply word_ok_column|].
  apply word_ok_rol; [lia|]. by apply word_ok_column.
Qed.

Lemma rho_offset_bound x y : (rho_offset x y < 64)%nat.
Proof. apply Nat.mod_upper_bound. done. Qed.

Lemma rho_w_bits a : words_ok a -> agree (bits_of (rho_w a)) (rho (bits_of a)).
Proof.
  intros H x y z Hx Hy Hz. unfold bits_of at 1, rho_w, rho. rewrite lane_lanes by done.
  pose proof (rho_offset_bound x y). destruct (rho_offset x y) as [|n].
  - unfold bits_of. do 2 f_equal. rewrite <- (Nat.mod_small z 64) at 1 by lia.
    by rewrite <- (Nat.Div0.mod_add z 1 64).
  - rewrite rol_bit by (lia || by apply word_ok_lane). done.
Qed.

Lemma rho_w_ok a : words_ok a -> words_ok (rho_w a).
Proof.
  intros H. apply words_ok_lanes. intros x y _ _. pose proof (rho_offset_bound x y).
  destruct (rho_offset x y); [by apply word_ok_lane|]. apply word_ok_rol; [lia|by apply word_ok_lane].
Qed.

Lemma pi_w_bits a : agree (bits_of (pi_w a)) (pi (bits_of a)).
Proof. intros x y z Hx Hy Hz. unfold bits_of, pi_w, pi. by rewrite lane_lanes. Qed.

Lemma pi_w_ok a : words_ok a -> words_ok (pi_w a).
Proof. intros H. apply words_ok_lanes. intros. by apply word_ok_lane. Qed.

Lemma chi_w_bits a : agree (bits_of (chi_w a)) (chi (bits_of a)).
Proof.
  intros x y z Hx Hy Hz. unfold bits_of, chi_w, chi. rewrite lane_lanes by done.
  rewrite Z.lxor_spec, Z.ldiff_spec. by rewrite andb_comm.
Qed.

Lemma chi_w_ok a : words_ok a -> words_ok (chi_w a).
Proof. intros H. apply words_ok_lanes. intros. auto with gomodel. Qed.

(** The table of the code has the round constants of the register. *)
Lemma rc_correct ir z : (ir < 24)%nat -> (z < 64)%nat ->
  Z.testbit rc.[ir] (Z.of_nat z) = round_constant ir z.
Proof.
  intros Hir Hz.
  assert (forallb (fun ir => forallb (fun z =>
    eqb (Z.testbit rc.[ir] (Z.of_nat z)) (round_constant ir z)) (seq 0 64)) (seq 0 24) = true) as E
    by (vm_compute; reflexivity).
  rewrite forallb_forall in E. specialize (E ir). rewrite forallb_forall in E.
  apply eqb_prop, E; apply in_seq; lia.
Qed.

Lemma rc_ok ir : word_ok rc.[ir].
Proof.
  destruct (decide (ir < 24)%nat).
  - assert (Forall word_ok rc) as H by (repeat constructor; done).
    rewrite Forall_lookup_total in H. by apply H.
  - rewrite list_lookup_total_alt, lookup_ge_None_2 by (cbn; lia). by split.
Qed.

Lemma iota_w_bits ir a : (ir < 24)%nat ->
  agree (bits_of (iota_w rc.[ir] a)) (iota ir (bits_of a)).
Proof.
  intros Hir x y z Hx Hy Hz. unfold bits_of, iota_w, iota. rewrite lane_lanes by done.
  destruct (_ && _); [|done]. by rewrite Z.lxor_spec, rc_correct.
Qed.

Lemma rnd_w_ok ir a : words_ok a -> words_ok (rnd_w rc.[ir] a).
Proof.
  intros H. assert (words_ok (chi_w (pi_w (rho_w (theta_w a))))) as H'
    by (by apply chi_w_ok, pi_w_ok, rho_w_ok, theta_w_ok).
  apply words_ok_lanes. intros x y _ _. destruct (_ && _); [|by apply word_ok_lane].
  apply word_ok_lxor; [by apply word_ok_lane|apply rc_ok].
Qed.

Lemma rnd_w_bits ir a : (ir < 24)%nat -> words_ok a ->
  agree (bits_of (rnd_w rc.[ir] a)) (rnd ir (bits_of a)).
Proof.
  intros Hir H. unfold rnd_w, rnd.
  rewrite iota_w_bits, chi_w_bits, pi_w_bits, rho_w_bits, theta_w_bits by auto using theta_w_ok. reflexivity.
Qed.

Lemma rnds_bits l a : Forall (fun ir => ir < 24)%nat l -> words_ok a ->
  words_ok (foldl (fun a ir => rnd_w rc.[ir] a) a l) /\
  agree (bits_of (foldl (fun a ir => rnd_w rc.[ir] a) a l))
        (foldl (fun A ir => rnd ir A) (bits_of a) l).
Proof.
  intros Hl. revert a. induction Hl as [|ir l Hir Hl IH]; intros a Ha; [by split; [exact Ha|intros x y z _ _ _]|].
  cbn [foldl].
  destruct (IH _ (rnd_w_ok ir a Ha)) as [Hok Hb]. split; [exact Hok|].
  etransitivity; [exact Hb|]. clear - Hir Ha. pose proof (rnd_w_bits ir a Hir Ha) as E.
  revert E. generalize (bits_of (rnd_w rc.[ir] a)) (rnd ir (bits_of a)).
  induction l as [|j l IH]; intros A B E; [exact E|]. cbn [foldl]. apply IH. by apply rnd_proper.
Qed.

Lemma keccakF1600_ok a : words_ok a -> words_ok (keccakF1600 a).
Proof.
  intros H. rewrite keccakF1600_rnds by apply H. apply rnds_bits; [|done].
  apply Forall_seq. lia.
Qed.

(** C12: the unrolled in-place [keccakF1600] computes the permutation Keccak-f[1600] of FIPS 202: on
    every array of 25 words the bits of the result are those the 24 rounds of [theta], [rho],
    [pi], [chi] and [iota] give, with the rotation offsets and the round constants computed by
    their defining walk and shift register, and the result is again an array of 25 words of 64 bits. *)
Theorem keccakF1600_correct (a : array) : words_ok a ->
  words_ok (keccakF1600 a) /\ agree (bits_of (keccakF1600 a)) (keccak_f (bits_of a)).
Proof.
  intros H. rewrite keccakF1600_rnds by apply H. apply rnds_bits; [|done].
  apply Forall_seq. lia.
Qed.

Lemma keccakF1600_correct_witness :
  words_ok (map Z.of_nat (seq 0 25)) /\
  agree (bits_of (keccakF1600 (map Z.of_nat (seq 0 25))))
        (keccak_f (bits_of (map Z.of_nat (seq 0 25)))).
Proof.
  assert (words_ok (map Z.of_nat (seq 0 25))) as H
    by (split; [reflexivity|cbn; repeat constructor; done]).
  split; [exact H|]. exact (proj2 (keccakF1600_correct (map Z.of_nat (seq 0 25)) H)).
Defined.
