(* ===== verification/Sha3.v ===== *)
(** * The sponge

    [src/crypto/sha3]: the hash state and its operations ([sha3.go], [hashes.go],
    [shake.go]), the two ways of exchanging bytes with the permutation
    ([xor_generic.go], [xor_unaligned.go]), and [Keccak256] of [src/crypto/crypto.go].
    The operations refine an abstract hash object that remembers the message. *)

From S2P Require Import Prelude Keccak.
Open Scope word_scope.

(** ** Words in memory *)

(** [binary.LittleEndian.Uint64] and [PutUint64]. *)
Definition le64 (b : bytes) : Z := be_val (rev (take 8 b)).
Definition le_bytes (v : Z) : bytes := rev (be_fix 8 v).

(** The memory of the array, as a little-endian machine has it. *)
Definition state_bytes (a : array) : bytes := a ≫= le_bytes.

(** ** Exchanging bytes with the state *)

Definition xorInGeneric (a : array) (buf : bytes) : outcome array :=
  '(a, _) ← for_range (seq 0 (length buf / 8)) (fun i '(a, buf) =>
      w ← idx a i; Ret (<[i := w ⊕ le64 buf]> a, drop 8 buf)) (a, buf);
  Ret a.

Definition copyOutGeneric (a : array) (b : bytes) : outcome bytes :=
  '(out, rest) ← for_range (seq 0 (length b / 8)) (fun i '(out, rest) =>
      w ← idx a i; Ret (out ++ le_bytes w, drop 8 rest)) ([], b);
  Ret (out ++ rest).

(** [d.a[i] ^= bw[i]], with [bw] the words at [&buf[0]]. *)
Definition xor_word (buf : bytes) (a : array) (i : nat) : array :=
  <[i := a.[i] ⊕ le64 (drop (8 * i) buf)]> a.

Definition xorInUnaligned (a : array) (buf : bytes) : outcome array :=
  _ ← idx buf 0;
  let n := length buf in
  let a := if (72 <=? n)%nat then foldl (xor_word buf) a (seq 0 9) else a in
  let a := if (104 <=? n)%nat then foldl (xor_word buf) a (seq 9 4) else a in
  let a := if (136 <=? n)%nat then foldl (xor_word buf) a (seq 13 4) else a in
  let a := if (144 <=? n)%nat then foldl (xor_word buf) a (seq 17 1) else a in
  let a := if (168 <=? n)%nat then foldl (xor_word buf) a (seq 18 3) else a in
  Ret a.

Definition maxRate : nat := 168.

Definition copyOutUnaligned (a : array) (buf : bytes) : outcome bytes :=
  Ret (copy_at buf 0 (take maxRate (state_bytes a))).

(** ** What the sponge needs of the exchange

    The build chooses one of the two implementations; the sponge is proved for any
    that XORs the words of a block into the first lanes and copies the first
    bytes out, for the rates of the package. *)

Definition rate_ok (r : nat) : Prop := r ∈ [72; 104; 136; 144; 168]%nat.

Definition xor_block (a : array) (b : bytes) : array :=
  foldl (xor_word b) a (seq 0 (length b / 8)).

Class Xor := {
  xorIn : array -> bytes -> outcome array;
  copyOut : array -> bytes -> outcome bytes;
  xorIn_block a b : length a = 25%nat -> rate_ok (length b) -> xorIn a b = Ret (xor_block a b);
  copyOut_bytes a b : length a = 25%nat -> rate_ok (length b) ->
    copyOut a b = Ret (take (length b) (state_bytes a))
}.

Lemma rate_ok_cases r : rate_ok r -> (r = 72 \/ r = 104 \/ r = 136 \/ r = 144 \/ r = 168)%nat.
Proof. unfold rate_ok. rewrite !elem_of_cons, elem_of_nil. tauto. Qed.

Lemma length_le_bytes v : length (le_bytes v) = 8%nat.
Proof. unfold le_bytes. by rewrite length_rev, length_be_fix. Qed.

Lemma state_bytes_app a b : state_bytes (a ++ b) = state_bytes a ++ state_bytes b.
Proof. apply bind_app. Qed.

Lemma length_state_bytes a : length (state_bytes a) = (8 * length a)%nat.
Proof.
  induction a as [|w a IH]; [done|]. unfold state_bytes in *. cbn [mbind list_bind length].
  rewrite length_app, IH, length_le_bytes. lia.
Qed.

Lemma state_bytes_take a n : state_bytes (take n a) = take (8 * n) (state_bytes a).
Proof.
  destruct (decide (n <= length a)%nat).
  - rewrite <- (take_drop n a) at 2. rewrite state_bytes_app, take_app_length'; [done|].
    rewrite length_state_bytes, length_take. lia.
  - rewrite (take_ge a), take_ge; [done| |lia]. rewrite length_state_bytes. lia.
Qed.

Lemma length_xor_words b a l : length (foldl (xor_word b) a l) = length a.
Proof.
  revert a. induction l as [|i l IH]; intros a; [done|]. cbn. rewrite IH. apply length_insert.
Qed.

Lemma xorInGeneric_block a b :
  (length b / 8 <= length a)%nat -> xorInGeneric a b = Ret (xor_block a b).
Proof.
  intros H. unfold xorInGeneric, xor_block.
  assert (forall m k a0, (k + m <= length a0)%nat ->
    for_range (seq k m) (fun i '(a, buf) =>
      w ← idx a i; Ret (<[i := w ⊕ le64 buf]> a, drop 8 buf)) (a0, drop (8 * k) b) =
    Ret (foldl (xor_word b) a0 (seq k m), drop (8 * (k + m)) b)) as L.
  { induction m as [|m IH]; intros k a0 Hk; cbn [seq for_range foldl]; [by rewrite Nat.add_0_r|].
    destruct (lookup_lt_is_Some_2 a0 k ltac:(lia)) as [w Hw]. rewrite (idx_Some _ _ _ Hw).
    cbn [mbind outcome_bind]. rewrite drop_drop. replace (8 * k + 8)%nat with (8 * S k)%nat by lia.
    rewrite <- (list_lookup_total_correct _ _ _ Hw) at 1.
    change (<[k := _]> a0) with (xor_word b a0 k). rewrite IH.
    - by replace (S k + m)%nat with (k + S m)%nat by lia.
    - unfold xor_word. rewrite length_insert. lia. }
  specialize (L (length b / 8)%nat O a). rewrite Nat.mul_0_r, drop_0 in L. by rewrite L.
Qed.

Lemma copyOutGeneric_bytes a b : (length b / 8 <= length a)%nat ->
  copyOutGeneric a b =
  Ret (take (8 * (length b / 8)) (state_bytes a) ++ drop (8 * (length b / 8)) b).
Proof.
  intros H. unfold copyOutGeneric.
  assert (forall m k, (k + m <= length a)%nat ->
    for_range (seq k m) (fun i '(out, rest) =>
      w ← idx a i; Ret (out ++ le_bytes w, drop 8 rest)) (state_bytes (take k a), drop (8 * k) b) =
    Ret (state_bytes (take (k + m) a), drop (8 * (k + m)) b)) as L.
  { induction m as [|m IH]; intros k Hk; cbn [seq for_range]; [by rewrite Nat.add_0_r|].
    destruct (lookup_lt_is_Some_2 a k ltac:(lia)) as [w Hw]. rewrite (idx_Some _ _ _ Hw).
    cbn [mbind outcome_bind]. rewrite drop_drop. replace (8 * k + 8)%nat with (8 * S k)%nat by lia.
    replace (state_bytes (take k a) ++ le_bytes w) with (state_bytes (take (S k) a)).
    - rewrite IH by lia. by replace (S k + m)%nat with (k + S m)%nat by lia.
    - rewrite (take_S_r _ _ _ Hw), state_bytes_app. done. }
  specialize (L (length b / 8)%nat O H). rewrite Nat.mul_0_r, drop_0 in L.
  change (state_bytes (take 0 a)) with (@nil byte) in L. rewrite L.
  cbn. by rewrite state_bytes_take.
Qed.

(** A rate is a whole number of words that fit in the array. *)
Lemma rate_words r : rate_ok r -> (8 * (r / 8) = r /\ r / 8 <= 21 /\ 0 < r <= 168)%nat.
Proof. intros [->|[->|[->|[->| ->]]]]%rate_ok_cases; cbn; lia. Qed.

#[export] Program Instance generic_xor : Xor :=
  {| xorIn := xorInGeneric; copyOut := copyOutGeneric |}.
Next Obligation. intros a b Ha Hr%rate_words. apply xorInGeneric_block. lia. Qed.
Next Obligation.
  intros a b Ha Hr%rate_words. rewrite copyOutGeneric_bytes by lia.
  destruct Hr as [-> _]. by rewrite drop_all, app_nil_r.
Qed.

Lemma xorInUnaligned_block a b : rate_ok (length b) -> xorInUnaligned a b = Ret (xor_block a b).
Proof.
  intros Hr. unfold xorInUnaligned, xor_block.
  destruct (lookup_lt_is_Some_2 b 0) as [x Hx]; [apply rate_words in Hr; lia|].
  rewrite (idx_Some _ _ _ Hx). cbn [mbind outcome_bind].
  destruct (rate_ok_cases _ Hr) as [->|[->|[->|[->| ->]]]]; cbn -[xor_word seq];
    rewrite <- ?foldl_app; done.
Qed.

#[export] Program Instance unaligned_xor : Xor :=
  {| xorIn := xorInUnaligned; copyOut := copyOutUnaligned |}.
Next Obligation. intros a b _ Hr. by apply xorInUnaligned_block. Qed.
Next Obligation.
  intros a b Ha Hr%rate_words. unfold copyOutUnaligned, copy_at, maxRate. f_equal.
  rewrite Nat.sub_0_r, take_0, length_take, length_state_bytes, Ha.
  rewrite take_take, drop_ge, app_nil_r by lia. cbn [app]. f_equal. lia.
Qed.

(** ** The hash state

    [buf] is a slice of [storage]: [None] is a nil slice and [Some (lo, hi)] is
    [storage[lo:hi]], whose capacity reaches the end of the storage. *)

Inductive spongeDirection := spongeAbsorbing | spongeSqueezing.

Record state := mk_state {
  st_a : array;
  st_buf : option (nat * nat);
  st_rate : nat;
  st_dsbyte : byte;
  st_storage : bytes;
  st_outputLen : nat;
  st_state : spongeDirection
}.

Definition set_a d a := mk_state a (st_buf d) (st_rate d) (st_dsbyte d) (st_storage d)
  (st_outputLen d) (st_state d).
Definition set_buf d b := mk_state (st_a d) b (st_rate d) (st_dsbyte d) (st_storage d)
  (st_outputLen d) (st_state d).
Definition set_storage d s := mk_state (st_a d) (st_buf d) (st_rate d) (st_dsbyte d) s
  (st_outputLen d) (st_state d).
Definition set_state d s := mk_state (st_a d) (st_buf d) (st_rate d) (st_dsbyte d) (st_storage d)
  (st_outputLen d) s.

(** [len(d.buf)], [cap(d.buf)] and the bytes of [d.buf]. *)
Definition buf_len (d : state) : nat :=
  match st_buf d with Some (lo, hi) => (hi - lo)%nat | None => O end.
Definition buf_cap (d : state) : nat :=
  match st_buf d with Some (lo, _) => (maxRate - lo)%nat | None => O end.
Definition buf_bytes (d : state) : bytes :=
  match st_buf d with Some (lo, hi) => take (hi - lo) (drop lo (st_storage d)) | None => [] end.

(** [d.buf = append(d.buf, bs...)] within the capacity writes to the storage.  An append
    beyond the capacity, which would move the buffer elsewhere, is not part of the model: it
    is a panic here, and the theorems below show that it does not happen. *)
Definition append_buf (d : state) (bs : bytes) : outcome state :=
  match st_buf d with
  | Some (lo, hi) =>
      if (hi + length bs <=? maxRate)%nat
      then Ret (set_buf (set_storage d (copy_at (st_storage d) hi bs)) (Some (lo, hi + length bs)%nat))
      else Panic
  | None => match bs with [] => Ret d | _ => Panic end
  end.

Section sponge.
Context `{Xor}.

Definition BlockSize (d : state) : nat := st_rate d.
Definition Size (d : state) : nat := st_outputLen d.

Definition Reset (d : state) : state :=
  let d := set_a d (replicate 25 0) in
  let d := set_state d spongeAbsorbing in
  set_buf d (Some (0, 0)%nat).

Definition clone (d : state) : outcome state :=
  match st_state d with
  | spongeAbsorbing => Ret (set_buf d (Some (0, buf_len d)%nat))
  | spongeSqueezing =>
      let lo := Z.of_nat (st_rate d) - Z.of_nat (buf_cap d) in
      if (lo <? 0) || (Z.of_nat (st_rate d) <? lo) then Panic
      else Ret (set_buf d (Some (Z.to_nat lo, st_rate d)))
  end.

(** [copyOut(d, d.buf)] with [d.buf = d.storage[:d.rate]]. *)
Definition fill_buf (d : state) : outcome state :=
  let d := set_buf d (Some (0%nat, st_rate d)) in
  out ← copyOut (st_a d) (buf_bytes d);
  Ret (set_storage d (copy_at (st_storage d) 0 out)).

Definition permute (d : state) : outcome state :=
  match st_state d with
  | spongeAbsorbing =>
      a ← xorIn (st_a d) (buf_bytes d);
      let d := set_buf (set_a d a) (Some (0, 0)%nat) in
      Ret (set_a d (keccakF1600 (st_a d)))
  | spongeSqueezing => fill_buf (set_a d (keccakF1600 (st_a d)))
  end.

(** [if d.buf == nil { d.buf = d.storage[:0] }] *)
Definition init_buf (d : state) : state :=
  match st_buf d with None => set_buf d (Some (0, 0)%nat) | Some _ => d end.

Definition padAndPermute (d : state) (dsbyte : byte) : outcome state :=
  let d := init_buf d in
  d ← append_buf d [dsbyte];
  let zerosStart := buf_len d in
  let d := set_buf d (Some (0%nat, st_rate d)) in
  let s := foldl (fun s i => <[i := Byte.x00]> s) (st_storage d)
                 (seq zerosStart (st_rate d - zerosStart)) in
  last ← idx s (st_rate d - 1);
  let d := set_storage d (<[(st_rate d - 1)%nat := u8 (ub last ⊕ 0x80)]> s) in
  d ← permute d;
  fill_buf (set_state d spongeSqueezing).

(** The loop of [Write]; every iteration takes at least one byte of [p], so its length is
    enough fuel. *)
Fixpoint Write_loop (fuel : nat) (d : state) (p : bytes) : outcome state :=
  match p, fuel with
  | [], _ => Ret d
  | _, O => Panic
  | _, S fuel =>
      if (buf_len d =? 0)%nat && (st_rate d <=? length p)%nat
      then
        a ← xorIn (st_a d) (take (st_rate d) p);
        let p := drop (st_rate d) p in
        Write_loop fuel (set_a d (keccakF1600 a)) p
      else
        let todo := Nat.min (st_rate d - buf_len d) (length p) in
        d ← append_buf d (take todo p);
        let p := drop todo p in
        if (buf_len d =? st_rate d)%nat
        then d ← permute d; Write_loop fuel d p
        else Write_loop fuel d p
  end.

Definition Write (d : state) (p : bytes) : outcome (nat * state) :=
  match st_state d with
  | spongeSqueezing => Panic
  | spongeAbsorbing => d ← Write_loop (length p) (init_buf d) p; Ret (length p, d)
  end.

(** The loop of [Read] with [n] bytes of [out] left; returns the bytes it writes. *)
Fixpoint Read_loop (fuel : nat) (d : state) (n : nat) : outcome (bytes * state) :=
  match n, fuel with
  | O, _ => Ret ([], d)
  | _, O => Panic
  | _, S fuel =>
      let m := Nat.min n (buf_len d) in
      let got := take m (buf_bytes d) in
      let d := match st_buf d with
               | Some (lo, hi) => set_buf d (Some (lo + m, hi)%nat)
               | None => d
               end in
      d ← (if (buf_len d =? 0)%nat then permute d else Ret d);
      '(rest, d) ← Read_loop fuel d (n - m);
      Ret (got ++ rest, d)
  end.

(** [Read(out)] with [n = len(out)]: the bytes written to [out]. *)
Definition Read (d : state) (n : nat) : outcome (bytes * state) :=
  d ← match st_state d with
      | spongeAbsorbing => padAndPermute d (st_dsbyte d)
      | spongeSqueezing => Ret d
      end;
  Read_loop n d n.

Definition Sum (d : state) (in_ : bytes) : outcome bytes :=
  dup ← clone d;
  '(hash, _) ← Read dup (st_outputLen dup);
  Ret (in_ ++ hash).

(** ** The hash functions *)

Definition new_state (rate outputLen : nat) (dsbyte : byte) : state :=
  mk_state (replicate 25 0) None rate dsbyte (replicate maxRate Byte.x00) outputLen spongeAbsorbing.

Definition NewKeccak256 := new_state 136 32 Byte.x01.
Definition NewKeccak512 := new_state 72 64 Byte.x01.
Definition New224 := new_state 144 28 Byte.x06.
Definition New256 := new_state 136 32 Byte.x06.
Definition New384 := new_state 104 48 Byte.x06.
Definition New512 := new_state 72 64 Byte.x06.
Definition NewShake128 := new_state 168 0 Byte.x1f.
Definition NewShake256 := new_state 136 0 Byte.x1f.

Definition sum_of (h : state) (data : bytes) : outcome bytes :=
  '(_, h) ← Write h data; Sum h [].

Definition Sum224 := sum_of New224.
Definition Sum256 := sum_of New256.
Definition Sum384 := sum_of New384.
Definition Sum512 := sum_of New512.

(** The result is what is written to [hash], of length [n]. *)
Definition ShakeSum128 (n : nat) (data : bytes) : outcome bytes :=
  '(_, h) ← Write NewShake128 data; '(out, _) ← Read h n; Ret out.
Definition ShakeSum256 (n : nat) (data : bytes) : outcome bytes :=
  '(_, h) ← Write NewShake256 data; '(out, _) ← Read h n; Ret out.

(** [Keccak256(data ...)] of [crypto.go]. *)
Fixpoint write_all (d : state) (data : list bytes) : outcome state :=
  match data with
  | [] => Ret d
  | b :: data => '(_, d) ← Write d b; write_all d data
  end.

Definition Keccak256 (data : list bytes) : outcome bytes :=
  d ← write_all NewKeccak256 data; Sum d [].
Definition Keccak256Hash (data : list bytes) : outcome bytes :=
  d ← write_all NewKeccak256 data; Sum d [].
Definition Keccak512 (data : list bytes) : outcome bytes :=
  d ← write_all NewKeccak512 data; Sum d [].

End sponge.

Example Keccak256_empty :
  Keccak256 (H := generic_xor) [] = Ret (be_fix 32
    0xc5d2460186f7233c927e7db2dcc703c0e500b653ca82273b7bfad8045d85a470).
Proof. vm_compute. reflexivity. Qed.

Example Sum256_abc :
  Sum256 (H := unaligned_xor) [Byte.x61; Byte.x62; Byte.x63] = Ret (be_fix 32
    0x3a985da74fe225b2045c172d6bd390bd855f086e3e9d525b46bfe24511431532).
Proof. vm_compute. reflexivity. Qed.

(** ** The abstract hash

    The sponge construction: a message is padded to whole blocks, each block is XORed into
    the first lanes and permuted, and the output is read off the state, permuting
    after every [rate] bytes. *)

Module Sponge.

Definition blocks (r : nat) (msg : bytes) : list bytes :=
  map (fun i => take r (drop (i * r) msg)) (seq 0 (length msg / r)).

Definition absorb (r : nat) (msg : bytes) : array :=
  foldl (fun a b => keccakF1600 (xor_block a b)) (replicate 25 0) (blocks r msg).

(** The bytes after the last whole block. *)
Definition tail (r : nat) (msg : bytes) : bytes := drop (length msg / r * r) msg.

(** The domain bits, a one, zeros and a final one, to the end of the block. *)
Definition suffix (ds : byte) (n : nat) : bytes :=
  match n with
  | O => []
  | 1%nat => [u8 (ub ds ⊕ 0x80)]
  | S (S n) => ds :: replicate n Byte.x00 ++ [u8 0x80]
  end.

Definition pad (r : nat) (ds : byte) (msg : bytes) : bytes :=
  msg ++ suffix ds (r - length msg mod r).

Definition out_byte (r : nat) (a : array) (i : nat) : byte :=
  state_bytes (Nat.iter (i / r) keccakF1600 a) !!! (i mod r)%nat.

(** [n] bytes of the output after the first [k]. *)
Definition output (r : nat) (ds : byte) (msg : bytes) (k n : nat) : bytes :=
  map (out_byte r (absorb r (pad r ds msg))) (seq k n).

(** A hash object is absorbing a message, or has given [k] bytes of its output. *)
Inductive phase := Absorbing (msg : bytes) | Squeezing (msg : bytes) (k : nat).

Inductive op := OWrite (p : bytes) | ORead (n : nat) | OSum (in_ : bytes) | OReset.

Inductive result := Wrote (n : nat) | Got (b : bytes) | Done.

(** The answer to an operation.  A [Sum] after a [Read] should go on with the output; the code takes
    up the output [168 - r] bytes too early, and panics where the current block has none before. *)
Definition step (r : nat) (ds : byte) (outLen : nat) (o : op) (s : phase) : outcome (result * phase) :=
  match o, s with
  | OWrite p, Absorbing msg => Ret (Wrote (length p), Absorbing (msg ++ p))
  | OWrite p, Squeezing _ _ => Panic
  | ORead n, Absorbing msg => Ret (Got (output r ds msg 0 n), Squeezing msg n)
  | ORead n, Squeezing msg k => Ret (Got (output r ds msg k n), Squeezing msg (k + n))
  | OSum in_, Absorbing msg => Ret (Got (in_ ++ output r ds msg 0 outLen), Absorbing msg)
  | OSum in_, Squeezing msg k =>
      if (k mod r <? 168 - r)%nat then Panic
      else Ret (Got (in_ ++ output r ds msg (k - (168 - r)) outLen), Squeezing msg k)
  | OReset, _ => Ret (Done, Absorbing [])
  end.

(** The results of a sequence of operations, up to the first panic. *)
Fixpoint run (r : nat) (ds : byte) (outLen : nat) (ops : list op) (s : phase) : outcome (list result) :=
  match ops with
  | [] => Ret []
  | o :: ops => '(x, s) ← step r ds outLen o s; xs ← run r ds outLen ops s; Ret (x :: xs)
  end.

End Sponge.

Import Sponge.

(** The code, operation by operation. *)
Definition do_op `{Xor} (o : op) (d : state) : outcome (result * state) :=
  match o with
  | OWrite p => '(n, d) ← Write d p; Ret (Wrote n, d)
  | ORead n => '(b, d) ← Read d n; Ret (Got b, d)
  | OSum in_ => b ← Sum d in_; Ret (Got b, d)
  | OReset => Ret (Done, Reset d)
  end.

Fixpoint run_ops `{Xor} (ops : list op) (d : state) : outcome (list result) :=
  match ops with
  | [] => Ret []
  | o :: ops => '(x, d) ← do_op o d; xs ← run_ops ops d; Ret (x :: xs)
  end.

#[local] Opaque keccakF1600.

(** ** Absorbing *)

Section absorbing.
Variable r : nat.
Hypothesis Hr : rate_ok r.

Lemma r_pos : (0 < r <= 168)%nat.
Proof. pose proof (rate_words _ Hr). lia. Qed.

Lemma length_tail msg : length (tail r msg) = (length msg mod r)%nat.
Proof.
  pose proof r_pos. unfold tail. rewrite length_drop.
  pose proof (Nat.div_mod_eq (length msg) r). lia.
Qed.

Lemma block_app (msg p : bytes) i : (i < length msg / r)%nat ->
  take r (drop (i * r) (msg ++ p)) = take r (drop (i * r) msg).
Proof.
  intros Hi. pose proof r_pos. pose proof (Nat.div_mod_eq (length msg) r).
  rewrite drop_app_le, take_app_le; [done| |nia]. rewrite length_drop. nia.
Qed.

(** A part of a block leaves the state alone and is appended to the buffer. *)
Lemma absorb_partial msg p : (length msg mod r + length p < r)%nat ->
  absorb r (msg ++ p) = absorb r msg /\ tail r (msg ++ p) = tail r msg ++ p /\
  (length (msg ++ p) mod r = length msg mod r + length p)%nat.
Proof.
  intros Hp. pose proof r_pos. pose proof (Nat.div_mod_eq (length msg) r).
  assert (length (msg ++ p) / r = length msg / r /\
          length (msg ++ p) mod r = length msg mod r + length p)%nat as [Hq Hm].
  { rewrite length_app. split; symmetry;
      [eapply (Nat.div_unique _ _ _ (length msg mod r + length p))
      |eapply (Nat.mod_unique _ _ (length msg / r))]; lia. }
  split_and!; [| |done].
  - unfold absorb. f_equal. unfold blocks. rewrite Hq. apply map_ext_in.
    intros i Hi%in_seq. apply block_app. lia.
  - unfold tail. rewrite Hq, drop_app_le by nia. done.
Qed.

(** A full block is absorbed. *)
Lemma absorb_full msg p : (length msg mod r + length p = r)%nat ->
  absorb r (msg ++ p) = keccakF1600 (xor_block (absorb r msg) (tail r msg ++ p)) /\
  tail r (msg ++ p) = [] /\ (length (msg ++ p) mod r = 0)%nat.
Proof.
  intros Hp. pose proof r_pos. pose proof (Nat.div_mod_eq (length msg) r).
  assert (length (msg ++ p) / r = S (length msg / r) /\ length (msg ++ p) mod r = 0)%nat as [Hq Hm].
  { rewrite length_app. split; symmetry;
      [eapply (Nat.div_unique _ _ _ 0) | eapply (Nat.mod_unique _ _ (S (length msg / r)))]; nia. }
  split_and!; [| |done].
  - unfold absorb, blocks. rewrite Hq, seq_S, map_app, foldl_app. cbn [foldl map Nat.add].
    f_equal. f_equal.
    + f_equal. apply map_ext_in. intros i Hi%in_seq. apply block_app. lia.
    + unfold tail. rewrite drop_app_le by nia. apply take_ge.
      rewrite length_app, length_drop. nia.
  - unfold tail. rewrite Hq. apply drop_ge. rewrite length_app. nia.
Qed.

Lemma length_absorb msg : length (absorb r msg) = 25%nat.
Proof.
  unfold absorb. assert (length (replicate 25 0) = 25%nat) as Ha by done. revert Ha.
  generalize (replicate 25 0) (blocks r msg). intros a l. revert a.
  induction l as [|b l IH]; intros a Ha; [exact Ha|]. cbn [foldl]. apply IH.
  apply length_keccakF1600. unfold xor_block. by rewrite length_xor_words.
Qed.

End absorbing.

(** ** Squeezing *)

Lemma length_iter_keccak n a : length a = 25%nat -> length (Nat.iter n keccakF1600 a) = 25%nat.
Proof. intros Ha. induction n as [|n IH]; [exact Ha|]. by apply length_keccakF1600. Qed.

(** What is left of a block of output. *)
Lemma output_block r a k m : (0 < r <= 200)%nat -> length a = 25%nat ->
  (k mod r + m <= r)%nat ->
  take m (drop (k mod r) (take r (state_bytes (Nat.iter (k / r) keccakF1600 a)))) =
  map (out_byte r a) (seq k m).
Proof.
  intros Hr Ha Hm. pose proof (Nat.div_mod_eq k r).
  assert (length (state_bytes (Nat.iter (k / r) keccakF1600 a)) = 200%nat) as Hl
    by (rewrite length_state_bytes, length_iter_keccak; done).
  apply list_eq. intros j. rewrite list_lookup_fmap. destruct (decide (j < m)%nat).
  - rewrite lookup_take_lt, lookup_drop, lookup_take_lt by lia.
    rewrite lookup_seq_lt by done. cbn [fmap option_fmap option_map]. unfold out_byte.
    replace ((k + j) / r)%nat with (k / r)%nat
      by (eapply (Nat.div_unique _ _ _ (k mod r + j)); lia).
    replace ((k + j) mod r)%nat with (k mod r + j)%nat by (eapply (Nat.mod_unique _ _ (k / r)); lia).
    apply list_lookup_lookup_total_lt. lia.
  - rewrite lookup_take_ge, lookup_seq_ge by lia. done.
Qed.

Lemma map_seq_app {A} (f : nat -> A) k m n :
  map f (seq k (m + n)) = map f (seq k m) ++ map f (seq (k + m) n).
Proof. by rewrite seq_app, map_app. Qed.

(** ** The code refines the abstract hash *)

Section refinement.
Context `{HX : Xor}.
Variables (r outLen : nat) (ds : byte).
Hypothesis Hr : rate_ok r.

(** The parts of the state that do not change. *)
Definition state_wf (d : state) : Prop :=
  st_rate d = r /\ st_dsbyte d = ds /\ st_outputLen d = outLen /\
  length (st_storage d) = maxRate.

(** What the state stores for a phase of the abstract hash. *)
Definition represents (s : phase) (d : state) : Prop :=
  state_wf d /\
  match s with
  | Absorbing msg =>
      st_state d = spongeAbsorbing /\ st_a d = absorb r msg /\ buf_bytes d = tail r msg /\
      (st_buf d = Some (0, length msg mod r)%nat \/ st_buf d = None /\ length msg mod r = 0)%nat
  | Squeezing msg k =>
      st_state d = spongeSqueezing /\
      st_a d = Nat.iter (k / r) keccakF1600 (absorb r (pad r ds msg)) /\
      st_buf d = Some (k mod r, r)%nat /\
      take r (st_storage d) = take r (state_bytes (st_a d))
  end.

Lemma r_bounds : (0 < r <= 168)%nat.
Proof. pose proof (rate_words _ Hr). lia. Qed.

Lemma init_buf_represents msg d : represents (Absorbing msg) d ->
  represents (Absorbing msg) (init_buf d) /\
  st_buf (init_buf d) = Some (0, length msg mod r)%nat.
Proof.
  intros (Hw & Hs & Ha & Hb & [Hbuf|[Hbuf Hl]]); unfold init_buf; rewrite Hbuf;
    [by split; [split_and!; auto|]|].
  rewrite Hl. split; [|done]. split; [done|]. split_and!; try done; [|left; by rewrite Hl].
  rewrite <- Hb. unfold buf_bytes. by rewrite Hbuf.
Qed.

(** Appending to the buffer within the rate. *)
Lemma append_buf_fits msg d bs : represents (Absorbing msg) d ->
  st_buf d = Some (0, length msg mod r)%nat -> (length msg mod r + length bs <= r)%nat ->
  exists s, append_buf d bs =
    Ret (set_buf (set_storage d s) (Some (0, length msg mod r + length bs)%nat)) /\
    length s = maxRate /\ take (length msg mod r + length bs) s = tail r msg ++ bs.
Proof.
  intros (Hw & Hs & Ha & Hb & _) Hbuf Hl. pose proof r_bounds.
  destruct Hw as (_ & _ & _ & Hst).
  unfold append_buf. rewrite Hbuf. unfold maxRate in *.
  destruct (Nat.leb_spec (length msg mod r + length bs) 168); [|lia].
  eexists. split; [done|]. split; [by rewrite length_copy_at by lia|].
  unfold buf_bytes in Hb. rewrite Hbuf, drop_0, Nat.sub_0_r in Hb.
  unfold copy_at. rewrite Hst, app_assoc, Nat.min_r by lia. rewrite (take_ge bs) by lia.
  rewrite take_app_length'; [by rewrite Hb|]. rewrite length_app, length_take. lia.
Qed.

(** [permute] on a full buffer absorbs it. *)
Lemma permute_absorbs msg bs d :
  state_wf d -> st_state d = spongeAbsorbing -> st_a d = absorb r msg ->
  st_buf d = Some (0%nat, r) -> take r (st_storage d) = tail r msg ++ bs ->
  (length msg mod r + length bs = r)%nat ->
  permute d = Ret (set_a (set_buf d (Some (0, 0)%nat)) (absorb r (msg ++ bs))).
Proof.
  intros Hw Hs Ha Hbuf Hst Hl. destruct (absorb_full r Hr msg bs Hl) as [-> _].
  unfold permute, buf_bytes. rewrite Hs, Hbuf, drop_0, Nat.sub_0_r, Hst, Ha.
  rewrite xorIn_block; [done|by apply length_absorb|].
  rewrite length_app, length_tail by done. by rewrite Hl.
Qed.

(** One pass through the slow path. *)
Lemma append_represents msg d bs : represents (Absorbing msg) d ->
  st_buf d = Some (0, length msg mod r)%nat -> (length msg mod r + length bs <= r)%nat ->
  exists d1 d2, append_buf d bs = Ret d1 /\
    (if (buf_len d1 =? st_rate d1)%nat then permute d1 else Ret d1) = Ret d2 /\
    represents (Absorbing (msg ++ bs)) d2 /\ st_buf d2 = Some (0, length (msg ++ bs) mod r)%nat.
Proof.
  intros Hd Hbuf Hl. pose proof r_bounds.
  destruct (append_buf_fits msg d bs Hd Hbuf Hl) as (s & -> & Hs & Htk).
  destruct Hd as ((Hrt & Hds & Hol & Hst) & Hdir & Ha & Hb & _).
  set (d1 := set_buf _ _). exists d1.
  assert (buf_len d1 = length msg mod r + length bs)%nat as -> by (cbn -[Nat.modulo]; lia).
  change (st_rate d1) with (st_rate d). rewrite Hrt.
  assert (state_wf d1) as Hw by done.
  destruct (Nat.eqb_spec (length msg mod r + length bs) r) as [Hfull|Hpart].
  - destruct (absorb_full r Hr msg bs Hfull) as (_ & Etl & Emod).
    eexists. split; [done|]. rewrite (permute_absorbs msg bs); try done.
    + split; [done|]. rewrite Emod. split; [|done]. split; [done|].
      split_and!; [done|done|by rewrite Etl|left; by rewrite Emod].
    + cbn. by rewrite Hfull.
    + cbn. by rewrite <- Hfull at 1.
  - destruct (absorb_partial r Hr msg bs ltac:(lia)) as (Eab & Etl & Emod).
    eexists. split; [done|]. split; [done|]. rewrite Emod. split; [|done]. split; [done|].
    split_and!; try done; [by rewrite Eab| |left; by rewrite Emod].
    rewrite Etl, <- Htk. unfold buf_bytes. cbn -[Nat.modulo take]. by rewrite drop_0, Nat.sub_0_r.
Qed.

Lemma Write_loop_represents fuel p msg d : (length p <= fuel)%nat ->
  represents (Absorbing msg) d -> st_buf d = Some (0, length msg mod r)%nat ->
  exists d', Write_loop fuel d p = Ret d' /\ represents (Absorbing (msg ++ p)) d'.
Proof.
  revert p msg d. induction fuel as [|fuel IH]; intros p msg d Hf Hd Hbuf.
  { destruct p; [|cbn in Hf; lia]. exists d. by rewrite app_nil_r. }
  destruct p as [|x p]; [exists d; by rewrite app_nil_r|].
  cbn [Write_loop]. remember (x :: p) as q eqn:Eq.
  assert (0 < length q)%nat as Hq by (subst q; cbn; lia). clear Eq x p.
  pose proof r_bounds as Hrb. pose proof (Nat.mod_upper_bound (length msg) r ltac:(lia)) as Hm.
  pose proof Hd as ((Hrt & Hds & Hol & Hst) & Hs & Ha & Hb & _).
  assert (buf_len d = length msg mod r)%nat as Hbl by (unfold buf_len; rewrite Hbuf; lia).
  rewrite Hbl, Hrt.
  destruct ((length msg mod r =? 0) && (r <=? length q))%nat eqn:E.
  - apply andb_prop in E as [H0%Nat.eqb_eq Hrq%Nat.leb_le].
    assert (length (take r q) = r) as Hlt by (rewrite length_take; lia).
    assert (length msg mod r + length (take r q) = r)%nat as Hfull by lia.
    destruct (absorb_full r Hr msg _ Hfull) as (Eab & Etl & Emod).
    rewrite Ha, xorIn_block by (rewrite ?Hlt; auto using length_absorb).
    cbn [mbind outcome_bind].
    assert (tail r msg = []) as Ht0 by (apply length_zero_iff_nil; by rewrite length_tail).
    rewrite Ht0 in Eab, Hb. cbn [app] in Eab. rewrite <- Eab.
    destruct (IH (drop r q) (msg ++ take r q) (set_a d (absorb r (msg ++ take r q))))
      as (d' & Ed' & Hd'); [rewrite length_drop; lia| |by rewrite Emod; cbn; rewrite Hbuf, H0|].
    + split; [repeat split; assumption|]. split_and!; [exact Hs|reflexivity|by rewrite Etl|].
      left. rewrite Emod. cbn. by rewrite Hbuf, H0.
    + exists d'. split; [done|]. by rewrite <- app_assoc, take_drop in Hd'.
  - clear E. set (todo := Nat.min (r - length msg mod r) (length q)).
    assert (length (take todo q) = todo) as Hlt by (rewrite length_take; lia).
    destruct (append_represents msg d (take todo q) Hd Hbuf ltac:(lia)) as (d1 & d2 & E1 & E2 & Hd2 & Hb2).
    rewrite E1. cbn [mbind outcome_bind].
    destruct (IH (drop todo q) (msg ++ take todo q) d2) as (d' & Ed' & Hd');
      [rewrite length_drop; lia|done|done|].
    exists d'. rewrite <- app_assoc, take_drop in Hd'. split; [|done].
    assert (st_rate d1 = r) as Hr1.
    { unfold append_buf in E1. rewrite Hbuf in E1.
      destruct (_ <=? _)%nat; [|done]. injection E1 as <-. exact Hrt. }
    rewrite Hr1 in E2 |- *. destruct (buf_len d1 =? r)%nat; [rewrite E2; exact Ed'|].
    injection E2 as ->. exact Ed'.
Qed.

Lemma Write_represents msg d p : represents (Absorbing msg) d ->
  exists d', Write d p = Ret (length p, d') /\ represents (Absorbing (msg ++ p)) d'.
Proof.
  intros Hd. destruct (init_buf_represents msg d Hd) as [Hi Hbuf].
  destruct (Write_loop_represents (length p) p msg _ ltac:(lia) Hi Hbuf) as (d' & E & Hd').
  exists d'. split; [|done]. unfold Write. destruct Hd as (_ & -> & _). by rewrite E.
Qed.

(** ** Padding and reading *)

(** Zeroing a range of the storage. *)
Lemma zero_fill (s : bytes) k n : (k + n <= length s)%nat ->
  foldl (fun s i => <[i := Byte.x00]> s) s (seq k n) =
  take k s ++ replicate n Byte.x00 ++ drop (k + n) s.
Proof.
  revert k s. induction n as [|n IH]; intros k s Hk.
  - cbn. by rewrite Nat.add_0_r, take_drop.
  - cbn [seq foldl]. rewrite IH by (rewrite length_insert; lia).
    rewrite (take_S_r _ k Byte.x00) by (apply list_lookup_insert_eq; lia).
    rewrite take_insert_ge, drop_insert_lt by lia. cbn [replicate].
    rewrite <- app_assoc. by replace (S k + n)%nat with (k + S n)%nat by lia.
Qed.

(** The block [padAndPermute] prepares ends with the suffix of the padding. *)
Lemma pad_block (t : bytes) (s : bytes) n : (0 < n)%nat ->
  let s1 := t ++ ds :: replicate (n - 1) Byte.x00 ++ s in
  exists last, s1 !! (length t + n - 1)%nat = Some last /\
    <[(length t + n - 1)%nat := u8 (ub last ⊕ 0x80)]> s1 = t ++ suffix ds n ++ s.
Proof.
  intros Hn. cbn zeta.
  assert (forall p x, length p = (length t + n - 1)%nat ->
    (p ++ x :: s) !! (length t + n - 1)%nat = Some x /\
    forall y, <[(length t + n - 1)%nat := y]> (p ++ x :: s) = p ++ y :: s) as L.
  { intros p x <-. split; [by apply list_lookup_middle|].
    intros y. rewrite <- (Nat.add_0_r (length p)). by rewrite insert_app_r. }
  destruct n as [|[|n]]; [lia| |].
  - exists ds. destruct (L t ds ltac:(lia)) as [E1 E2]. split; [exact E1|]. apply E2.
  - exists Byte.x00. destruct (L (t ++ ds :: replicate n Byte.x00) Byte.x00) as [E1 E2].
    { rewrite length_app. cbn. rewrite length_replicate. lia. }
    assert (t ++ ds :: replicate (S (S n) - 1) Byte.x00 ++ s =
            (t ++ ds :: replicate n Byte.x00) ++ Byte.x00 :: s) as ->.
    { rewrite <- app_assoc. cbn -[replicate]. do 2 f_equal.
      replace (S n)%nat with (n + 1)%nat by lia. by rewrite replicate_add, <- app_assoc. }
    split; [exact E1|]. rewrite E2, <- app_assoc. f_equal. cbn [suffix app]. f_equal.
    by rewrite <- app_assoc.
Qed.

Lemma length_suffix n : length (suffix ds n) = n.
Proof.
  destruct n as [|[|n]]; [done|done|]. cbn. rewrite length_app, length_replicate. cbn. lia.
Qed.

(** Copying the state to the buffer. *)
Lemma fill_buf_represents msg k d : state_wf d -> st_state d = spongeSqueezing ->
  st_a d = Nat.iter (k / r) keccakF1600 (absorb r (pad r ds msg)) -> (k mod r = 0)%nat ->
  exists d', fill_buf d = Ret d' /\ represents (Squeezing msg k) d'.
Proof.
  intros (Hrt & Hds & Hol & Hst) Hs Ha Hk. pose proof r_bounds. unfold fill_buf, buf_bytes.
  cbn [set_buf st_buf st_storage st_a]. rewrite Nat.sub_0_r, drop_0, Hrt.
  assert (length (take r (st_storage d)) = r) as Hl by (rewrite length_take; unfold maxRate in *; lia).
  assert (length (st_a d) = 25%nat) as Hla.
  { rewrite Ha. apply length_iter_keccak. by apply length_absorb. }
  rewrite copyOut_bytes by (by rewrite ?Hl). cbn [mbind outcome_bind]. rewrite Hl.
  assert (length (take r (state_bytes (st_a d))) = r) as Hlo.
  { rewrite length_take, length_state_bytes, Hla. lia. }
  eexists. split; [reflexivity|]. split.
  - repeat split; try assumption. cbn [set_storage st_storage set_buf].
    rewrite length_copy_at by lia. exact Hst.
  - split_and!; [exact Hs|exact Ha|by rewrite Hk|].
    cbn [set_storage st_storage set_buf st_a]. unfold copy_at. rewrite take_0, Hlo, Hst.
    unfold maxRate. rewrite Nat.min_r by lia. rewrite (take_ge (take r _)) by lia.
    cbn [app]. by rewrite take_app_length'.
Qed.

Lemma padAndPermute_represents msg d : represents (Absorbing msg) d ->
  exists d', padAndPermute d ds = Ret d' /\ represents (Squeezing msg 0) d'.
Proof.
  intros Hd. destruct (init_buf_represents msg d Hd) as [Hi Hbuf]. pose proof r_bounds.
  pose proof (Nat.mod_upper_bound (length msg) r ltac:(lia)) as Hm.
  destruct (append_buf_fits msg _ [ds] Hi Hbuf ltac:(cbn; lia)) as (s & E & Hls & Htk).
  unfold padAndPermute. rewrite E. cbn [mbind outcome_bind].
  destruct Hi as ((Hrt & Hds & Hol & Hst) & Hs & Ha & Hb & _). revert Hrt Hds Hol Hs Ha.
  generalize (init_buf d). clear - Hr Hls Htk Hm. intros d Hrt Hds Hol Hs Ha.
  pose proof r_bounds. cbn [length] in *.
  set (t := (length msg mod r)%nat) in *.
  cbn [buf_len st_buf set_buf set_storage st_rate st_storage]. rewrite Hrt, Nat.sub_0_r.
  rewrite zero_fill by (unfold maxRate in *; lia). rewrite Htk, <- app_assoc. cbn [app].
  replace (t + 1 + (r - (t + 1)))%nat with r by lia.
  assert (length (tail r msg) = t) as Htl by (by apply length_tail).
  destruct (pad_block (tail r msg) (drop r s) (r - t) ltac:(lia)) as (last & E1 & E2).
  replace (length (tail r msg) + (r - t) - 1)%nat with (r - 1)%nat in E1, E2 by lia.
  replace (r - t - 1)%nat with (r - (t + 1))%nat in E1, E2 by lia.
  rewrite (idx_Some _ _ _ E1). cbn [mbind outcome_bind]. rewrite E2.
  assert (length (suffix ds (r - t)) = (r - t)%nat) as Hsl by apply length_suffix.
  rewrite (permute_absorbs msg (suffix ds (r - t))); [|split_and!| | | | |]; try done; try lia.
  - cbn [mbind outcome_bind]. apply fill_buf_represents; try done.
    + split_and!; try done. cbn. rewrite !length_app, length_drop, Hsl, Htl.
      unfold maxRate in *. lia.
    + by rewrite Nat.Div0.div_0_l.
    + by rewrite Nat.Div0.mod_0_l.
  - cbn. rewrite !length_app, length_drop, Hsl, Htl. unfold maxRate in *. lia.
  - cbn. rewrite app_assoc, take_app_length'; [done|]. rewrite length_app, Hsl, Htl. lia.
Qed.

Lemma Read_loop_represents fuel n msg k d : (n <= fuel)%nat -> represents (Squeezing msg k) d ->
  exists d', Read_loop fuel d n = Ret (output r ds msg k n, d') /\
    represents (Squeezing msg (k + n)) d'.
Proof.
  revert n k d. induction fuel as [|fuel IH]; intros n k d Hf Hd.
  { destruct n; [|lia]. exists d. by rewrite Nat.add_0_r. }
  destruct n as [|n0]; [exists d; by rewrite Nat.add_0_r|].
  cbn [Read_loop]. remember (S n0) as n eqn:En. assert (0 < n)%nat as Hn by lia. clear En n0.
  pose proof r_bounds as Hrb. pose proof (Nat.mod_upper_bound k r ltac:(lia)) as Hm.
  pose proof Hd as ((Hrt & Hds & Hol & Hst) & Hs & Ha & Hbuf & Htk).
  assert (buf_len d = r - k mod r)%nat as Hbl by (unfold buf_len; by rewrite Hbuf).
  rewrite Hbl, Hbuf. set (m := Nat.min n (r - k mod r)).
  assert (take m (buf_bytes d) = output r ds msg k m) as Hgot.
  { unfold buf_bytes, output. rewrite Hbuf, take_take, Nat.min_l by lia.
    rewrite <- output_block; [|lia|by apply length_absorb|lia].
    rewrite <- Ha, <- Htk, skipn_firstn_comm, take_take. f_equal. lia. }
  rewrite Hgot. clear Hgot. set (d1 := set_buf d (Some (k mod r + m, r)%nat)).
  assert (exists d2, (if (buf_len d1 =? 0)%nat then permute d1 else Ret d1) = Ret d2 /\
            represents (Squeezing msg (k + m)) d2) as (d2 & E2 & Hd2).
  { unfold d1, buf_len. cbn [set_buf st_buf]. pose proof (Nat.div_mod_eq k r).
    destruct (Nat.eqb_spec (r - (k mod r + m)) 0).
    - assert ((k + m) / r = S (k / r) /\ (k + m) mod r = 0)%nat as [Eq Em].
      { split; symmetry; [eapply (Nat.div_unique _ _ _ 0)
                         |eapply (Nat.mod_unique _ _ (S (k / r)))]; nia. }
      unfold permute. cbn [set_buf st_state st_a]. rewrite Hs.
      apply fill_buf_represents; [repeat split; assumption|exact Hs| |exact Em].
      rewrite Eq. cbn. by rewrite Ha.
    - assert ((k + m) / r = k / r /\ (k + m) mod r = k mod r + m)%nat as [Eq Em].
      { split; symmetry; [eapply (Nat.div_unique _ _ _ (k mod r + m))
                         |eapply (Nat.mod_unique _ _ (k / r))]; lia. }
      eexists. split; [reflexivity|]. split; [repeat split; assumption|].
      rewrite Eq, Em. by split_and!. }
  rewrite E2. cbn [mbind outcome_bind].
  destruct (IH (n - m)%nat (k + m)%nat d2) as (d' & E' & Hd'); [lia|done|].
  rewrite E'. cbn [mbind outcome_bind]. exists d'. split.
  - do 2 f_equal. unfold output. rewrite <- map_seq_app. do 2 f_equal. lia.
  - by replace (k + m + (n - m))%nat with (k + n)%nat in Hd' by lia.
Qed.

Lemma Read_represents s msg k d n : represents s d ->
  s = Squeezing msg k \/ s = Absorbing msg /\ k = 0%nat ->
  exists d', Read d n = Ret (output r ds msg k n, d') /\ represents (Squeezing msg (k + n)) d'.
Proof.
  intros Hd Hs. unfold Read.
  assert (exists d1, match st_state d with
      | spongeAbsorbing => padAndPermute d (st_dsbyte d)
      | spongeSqueezing => Ret d
      end = Ret d1 /\ represents (Squeezing msg k) d1) as (d1 & -> & Hd1).
  { destruct Hs as [->|[-> ->]].
    - exists d. pose proof Hd as (_ & -> & _). done.
    - pose proof Hd as ((_ & -> & _) & -> & _). by apply padAndPermute_represents. }
  by apply Read_loop_represents.
Qed.

Lemma clone_represents msg d : represents (Absorbing msg) d ->
  exists d', clone d = Ret d' /\ represents (Absorbing msg) d'.
Proof.
  intros Hd. pose proof Hd as (Hw & Hs & Ha & Hb & Hbuf). unfold clone. rewrite Hs.
  assert (buf_len d = length msg mod r)%nat as ->.
  { unfold buf_len. destruct Hbuf as [->|[-> ->]]; [apply Nat.sub_0_r|done]. }
  eexists. split; [done|]. split; [exact Hw|]. split_and!; [done|done| |by left].
  rewrite <- Hb. unfold buf_bytes. by destruct Hbuf as [->|[-> ->]].
Qed.

Lemma Sum_represents msg d in_ : represents (Absorbing msg) d ->
  Sum d in_ = Ret (in_ ++ output r ds msg 0 outLen).
Proof.
  intros Hd. unfold Sum. destruct (clone_represents msg d Hd) as (d' & -> & Hd').
  cbn [mbind outcome_bind].
  destruct (Read_represents (Absorbing msg) msg 0 d' (st_outputLen d') Hd') as (d'' & -> & _);
    [auto|]. cbn [mbind outcome_bind]. by destruct Hd' as ((_ & _ & -> & _) & _).
Qed.

(** The copy of a hash that is being read stands [168 - r] bytes before it. *)
Lemma clone_squeezing msg k d : represents (Squeezing msg k) d ->
  if (k mod r <? 168 - r)%nat then clone d = Panic
  else exists d', clone d = Ret d' /\ represents (Squeezing msg (k - (168 - r))) d'.
Proof.
  intros (Hw & Hs & Ha & Hbuf & Htk). pose proof r_bounds as Hrb. pose proof (Nat.mod_upper_bound k r ltac:(lia)) as Hm.
  pose proof Hw as (Hrt & _). unfold clone, buf_cap, maxRate. rewrite Hs, Hbuf, Hrt.
  destruct (Nat.ltb_spec (k mod r) (168 - r)); destruct (Z.ltb_spec (Z.of_nat r - Z.of_nat (168 - k mod r)) 0); try lia; [done|].
  destruct (Z.ltb_spec (Z.of_nat r) (Z.of_nat r - Z.of_nat (168 - k mod r))); [lia|]. cbn [orb].
  pose proof (Nat.div_mod_eq k r) as Hk.
  assert ((k - (168 - r)) / r = k / r /\ (k - (168 - r)) mod r = k mod r - (168 - r))%nat as [Eq Em].
  { split; symmetry; [eapply (Nat.div_unique _ _ _ (k mod r - (168 - r)))|eapply (Nat.mod_unique _ _ (k / r))]; lia. }
  eexists. split; [done|]. split; [exact Hw|]. rewrite Eq, Em. split_and!; [done|done| |done].
  cbn. do 2 f_equal. lia.
Qed.

Lemma Sum_squeezing msg k d in_ : represents (Squeezing msg k) d ->
  Sum d in_ = if (k mod r <? 168 - r)%nat then Panic else Ret (in_ ++ output r ds msg (k - (168 - r)) outLen).
Proof.
  intros Hd. unfold Sum. pose proof (clone_squeezing msg k d Hd) as Hc. destruct (k mod r <? 168 - r)%nat; [by rewrite Hc|].
  destruct Hc as (d' & -> & Hd'). cbn [mbind outcome_bind].
  destruct (Read_represents _ msg (k - (168 - r)) d' (st_outputLen d') Hd') as (d'' & -> & _); [auto|].
  cbn [mbind outcome_bind]. by destruct Hd' as ((_ & _ & -> & _) & _).
Qed.

Lemma Reset_represents s d : represents s d -> represents (Absorbing []) (Reset d).
Proof.
  intros [Hw _]. pose proof r_bounds. split; [exact Hw|].
  assert (length (@nil byte) mod r = 0)%nat as E by (cbn [length]; by rewrite Nat.Div0.mod_0_l).
  split_and!; [done| | |].
  - unfold absorb, blocks. cbn [length]. by rewrite Nat.Div0.div_0_l.
  - unfold tail. by rewrite drop_nil.
  - left. by rewrite E.
Qed.

(** A step of the code answers as the abstract hash does. *)
Lemma step_refines o s d : represents s d ->
  match step r ds outLen o s with
  | Ret (x, s') => exists d', do_op o d = Ret (x, d') /\ represents s' d'
  | Panic => do_op o d = Panic
  | Err _ => False
  end.
Proof.
  intros Hd. destruct o as [p|n|in_|], s as [msg|msg k]; cbn [step do_op].
  - destruct (Write_represents msg d p Hd) as (d' & -> & Hd'). by exists d'.
  - unfold Write. destruct Hd as (_ & -> & _). done.
  - destruct (Read_represents _ msg 0 d n Hd) as (d' & -> & Hd'); [auto|]. by exists d'.
  - destruct (Read_represents _ msg k d n Hd) as (d' & -> & Hd'); [auto|]. by exists d'.
  - rewrite (Sum_represents msg d in_ Hd). by exists d.
  - rewrite (Sum_squeezing msg k d in_ Hd). destruct (k mod r <? 168 - r)%nat; [done|]. by exists d.
  - exists (Reset d). split; [done|]. by eapply Reset_represents.
  - exists (Reset d). split; [done|]. by eapply Reset_represents.
Qed.

Lemma run_refines ops s d : represents s d -> run_ops ops d = run r ds outLen ops s.
Proof.
  revert s d. induction ops as [|o ops IH]; intros s d Hd; [done|].
  cbn [run run_ops]. pose proof (step_refines o s d Hd) as Hstep.
  destruct (step r ds outLen o s) as [[x s']|e|]; [|done|by rewrite Hstep].
  destruct Hstep as (d' & -> & Hd'). cbn [mbind outcome_bind]. by rewrite (IH _ _ Hd').
Qed.

Lemma new_state_represents : represents (Absorbing []) (new_state r outLen ds).
Proof.
  pose proof r_bounds. split; [by split_and!|].
  assert (length (@nil byte) mod r = 0)%nat as E by (cbn [length]; by rewrite Nat.Div0.mod_0_l).
  split_and!; [done| | |by right].
  - unfold absorb, blocks. cbn [length]. by rewrite Nat.Div0.div_0_l.
  - unfold tail. by rewrite drop_nil.
Qed.

Lemma write_all_represents data msg d : represents (Absorbing msg) d ->
  exists d', write_all d data = Ret d' /\ represents (Absorbing (msg ++ concat data)) d'.
Proof.
  revert msg d. induction data as [|b data IH]; intros msg d Hd.
  - exists d. cbn. by rewrite app_nil_r.
  - cbn [write_all concat]. destruct (Write_represents msg d b Hd) as (d1 & -> & H1).
    cbn [mbind outcome_bind]. rewrite app_assoc. by apply IH.
Qed.

End refinement.

(** ** What callers see *)

(** C11: for every rate of the package and either way of exchanging bytes with the permutation, a hash
    object answers every sequence of writes, sums, reads and resets as [Sponge.run] says:
    a write returns its length however the message is cut, a sum is its input followed by the first
    [outLen] bytes of the sponge of all that was written since the last reset and leaves the object
    as it was, and successive reads give successive parts of one output.  After a read a write panics, where
    the comment promises an error, and a sum gives output from [168 - rate] bytes before the position of the
    reads, or panics when the block has not that many: right only for the rate 168.
    In particular the buffer never leaves its storage and the loops end. *)
Theorem hash_refines_sponge `{Xor} (r outLen : nat) (ds : byte) (ops : list op) :
  rate_ok r -> run_ops ops (new_state r outLen ds) = run r ds outLen ops (Absorbing []).
Proof.
  intros Hr. apply run_refines; [done|]. by apply new_state_represents.
Qed.

Lemma hash_refines_sponge_witness :
  run_ops (H := generic_xor)
    [OWrite (replicate 200 Byte.x61); OSum []; OWrite []; ORead 2; ORead 1; OReset; OSum [Byte.x07]]
    NewKeccak256 =
  Ret [Wrote 200; Got (be_fix 32
         0x96ea54061def936c4be90b518992fdc6f12f535068a256229aca54267b4d084d);
       Wrote 0; Got [Byte.x96; Byte.xea]; Got [Byte.x54]; Done;
       Got (Byte.x07 :: be_fix 32
         0xc5d2460186f7233c927e7db2dcc703c0e500b653ca82273b7bfad8045d85a470)].
Proof.
  unfold NewKeccak256. rewrite (@hash_refines_sponge generic_xor 136 32 Byte.x01);
    [vm_compute; reflexivity|unfold rate_ok; set_solver].
Defined.

Lemma Keccak256_sponge `{Xor} (data : list bytes) :
  Keccak256 data = Ret (output 136 Byte.x01 (concat data) 0 32) /\
  length (output 136 Byte.x01 (concat data) 0 32) = 32%nat.
Proof.
  split; [|by unfold output; rewrite length_map, length_seq].
  assert (rate_ok 136) as Hr by (unfold rate_ok; set_solver). unfold Keccak256.
  destruct (write_all_represents 136 32 Byte.x01 Hr data [] NewKeccak256) as (d & -> & Hd);
    [by apply new_state_represents|].
  cbn [mbind outcome_bind]. by rewrite (Sum_represents _ _ _ Hr _ _ [] Hd).
Qed.

(** [Clone] of a hash that is being read, and [Sum] of one, slice the storage from
    [rate - cap(buf)]; the capacity of the buffer reaches the end of the storage and not of the
    rate, so that for a rate below 168 (SHAKE-256, for instance) the slice starts below zero and
    the call panics whenever the position in the current block of output is below [168 - rate]. *)
Theorem clone_after_read_panics `{Xor} (r outLen : nat) (ds : byte) (p in_ : bytes) (n : nat) :
  rate_ok r -> (n mod r < 168 - r)%nat ->
  exists d1 out d2, Write (new_state r outLen ds) p = Ret (length p, d1) /\
    Read d1 n = Ret (out, d2) /\ clone d2 = Panic /\ Sum d2 in_ = Panic.
Proof.
  intros Hr Hn.
  destruct (Write_represents r outLen ds Hr [] _ p (new_state_represents r outLen ds Hr)) as (d1 & E1 & H1).
  destruct (Read_represents r outLen ds Hr _ p 0 d1 n H1) as (d2 & E2 & H2); [auto|].
  exists d1, (output r ds p 0 n), d2. split; [done|]. split; [done|].
  assert ((((0 + n) mod r) <? (168 - r))%nat = true) as El by (by apply Nat.ltb_lt).
  pose proof (clone_squeezing r outLen ds Hr p (0 + n) d2 H2) as Hc. pose proof (Sum_squeezing r outLen ds Hr p (0 + n) d2 in_ H2) as Hs.
  rewrite El in Hc, Hs. done.
Qed.

Lemma clone_after_read_panics_witness : exists d1 out d2,
  Write (H := generic_xor) NewShake256 [Byte.x61] = Ret (1%nat, d1) /\
  Read (H := generic_xor) d1 16 = Ret (out, d2) /\ clone d2 = Panic /\
  Sum (H := generic_xor) d2 [] = Panic.
Proof.
  apply (@clone_after_read_panics generic_xor 136 0 Byte.x1f [Byte.x61] [] 16);
    [unfold rate_ok; set_solver|cbn; lia].
Defined.
