(* ===== verification/Rlp.v ===== *)
(** * RLP encoding

    [src/rlp/encode.go] and [typecache.go]: the buffer that collects strings and list
    headers apart, the writers chosen by the type of a value, and the ways of getting the
    encoding out ([EncodeToBytes], [Encode], [EncodeToReader]).  They are proved to produce the
    recursive encoding of the value. *)

From Stdlib Require Import Ascii.
From S2P Require Import Prelude BigInt.

(** ** Go types and values

    The types the package serializes, and [TOther] for the rest (signed integers, maps,
    channels...).  Types with methods of their own ([Encoder], [Decoder]) and recursive types
    are not in this universe. *)

Record field (T : Type) := mk_field { f_exported : bool; f_tag : string; f_typ : T }.
Arguments mk_field {T}.
Arguments f_exported {T}.
Arguments f_tag {T}.
Arguments f_typ {T}.

#[local] Unset Elimination Schemes.

Inductive typ :=
| TRaw                                  (* RawValue *)
| TBigPtr | TBig                        (* *big.Int, big.Int *)
| TUint (bits : Z)
| TBool
| TString
| TSlice (e : typ)
| TArray (n : nat) (e : typ)
| TStruct (fs : list (field typ))
| TPtr (e : typ)
| TInterface                            (* interface{} *)
| TOther.

(** A value of a type; [VBytes] are byte slices and byte arrays, [VSeq] other slices and
    arrays, [VNil] a nil pointer or interface. *)
Inductive val :=
| VRaw (b : bytes)
| VBig (z : Z)
| VUint (z : Z)
| VBool (b : bool)
| VString (b : bytes)
| VBytes (b : bytes)
| VSeq (vs : list val)
| VStruct (vs : list val)
| VNil
| VPtr (v : val)
| VIface (t : typ) (v : val).

#[local] Set Elimination Schemes.

(** Induction with the hypothesis for every field, and for every element. *)
Section typ_ind.
Variable P : typ -> Prop.
Hypotheses (HRaw : P TRaw) (HBigPtr : P TBigPtr) (HBig : P TBig) (HUint : forall n, P (TUint n))
  (HBool : P TBool) (HString : P TString) (HSlice : forall e, P e -> P (TSlice e))
  (HArray : forall n e, P e -> P (TArray n e))
  (HStruct : forall fs, Forall (fun f => P (f_typ f)) fs -> P (TStruct fs))
  (HPtr : forall e, P e -> P (TPtr e)) (HInterface : P TInterface) (HOther : P TOther).

Fixpoint typ_ind (t : typ) : P t :=
  match t with
  | TRaw => HRaw
  | TBigPtr => HBigPtr
  | TBig => HBig
  | TUint n => HUint n
  | TBool => HBool
  | TString => HString
  | TSlice e => HSlice e (typ_ind e)
  | TArray n e => HArray n e (typ_ind e)
  | TStruct fs => HStruct fs
      ((fix go (fs : list (field typ)) : Forall (fun f => P (f_typ f)) fs :=
          match fs with
          | [] => Forall_nil_2 _
          | f :: fs => Forall_cons_2 _ f fs (typ_ind (f_typ f)) (go fs)
          end) fs)
  | TPtr e => HPtr e (typ_ind e)
  | TInterface => HInterface
  | TOther => HOther
  end.
End typ_ind.

Section val_ind.
Variable P : val -> Prop.
Hypotheses (HRaw : forall b, P (VRaw b)) (HBig : forall z, P (VBig z)) (HUint : forall z, P (VUint z))
  (HBool : forall b, P (VBool b)) (HString : forall b, P (VString b)) (HBytes : forall b, P (VBytes b))
  (HSeq : forall vs, Forall P vs -> P (VSeq vs)) (HStruct : forall vs, Forall P vs -> P (VStruct vs))
  (HNil : P VNil) (HPtr : forall v, P v -> P (VPtr v)) (HIface : forall t v, P v -> P (VIface t v)).

Fixpoint val_ind (v : val) : P v :=
  let all := fix all (vs : list val) : Forall P vs :=
    match vs with
    | [] => Forall_nil_2 _
    | v :: vs => Forall_cons_2 _ v vs (val_ind v) (all vs)
    end in
  match v with
  | VRaw b => HRaw b
  | VBig z => HBig z
  | VUint z => HUint z
  | VBool b => HBool b
  | VString b => HString b
  | VBytes b => HBytes b
  | VSeq vs => HSeq vs (all vs)
  | VStruct vs => HStruct vs (all vs)
  | VNil => HNil
  | VPtr v => HPtr v (val_ind v)
  | VIface t v => HIface t v (val_ind v)
  end.
End val_ind.

(** ** Struct tags ([typecache.go]) *)

Record tags := mk_tags { nilOK : bool; tail : bool; ignored : bool }.

Definition no_tags : tags := mk_tags false false false.

Definition errNotSerializable : error := "rlp: type is not RLP-serializable".
Definition errTailLast : error := "rlp: invalid struct tag (must be on last field)".
Definition errTailSlice : error := "rlp: invalid struct tag (field type is not slice)".
Definition errUnknownTag : error := "rlp: unknown struct tag".

(** [strings.Split(s, ",")] and [strings.TrimSpace] on ASCII text. *)
Fixpoint split_comma (s : string) : list string :=
  match s with
  | EmptyString => [""%string]
  | String c s' =>
      if decide (c = ","%char) then ""%string :: split_comma s'
      else match split_comma s' with
           | x :: xs => String c x :: xs
           | [] => [String c ""%string]
           end
  end.

Definition is_space (c : Ascii.ascii) : bool :=
  let n := Ascii.nat_of_ascii c in (n =? 32)%nat || ((9 <=? n)%nat && (n <=? 13)%nat).

Fixpoint trim_left (s : string) : string :=
  match s with
  | String c s' => if is_space c then trim_left s' else s
  | EmptyString => s
  end.

Fixpoint string_rev (acc s : string) : string :=
  match s with
  | EmptyString => acc
  | String c s' => string_rev (String c acc) s'
  end.

Definition TrimSpace (s : string) : string :=
  string_rev "" (trim_left (string_rev "" (trim_left s))).

(** The loop over the words of a tag; [last]: the field is the last of its struct. *)
Fixpoint parse_words (last is_slice : bool) (ws : list string) (ts : tags) : outcome tags :=
  match ws with
  | [] => Ret ts
  | w :: ws =>
      let t := TrimSpace w in
      if decide (t = "") then parse_words last is_slice ws ts
      else if decide (t = "-") then
        parse_words last is_slice ws (mk_tags (nilOK ts) (tail ts) true)
      else if decide (t = "nil") then
        parse_words last is_slice ws (mk_tags true (tail ts) (ignored ts))
      else if decide (t = "tail") then
        if negb last then Err errTailLast
        else if negb is_slice then Err errTailSlice
        else parse_words last is_slice ws (mk_tags (nilOK ts) true (ignored ts))
      else Err errUnknownTag
  end.

Definition kind_is_slice (t : typ) : bool :=
  match t with TSlice _ | TRaw => true | _ => false end.

Definition parseStructTag (f : field typ) (last : bool) : outcome tags :=
  parse_words last (kind_is_slice (f_typ f)) (split_comma (f_tag f)) no_tags.

(** [isByte] *)
Definition isByte (t : typ) : bool :=
  match t with TUint bits => bits =? 8 | _ => false end.

(** Whether a decoder and a writer can be made for a type ([genTypeInfo], [makeDecoder],
    [makeWriter] and, for structs, [structFields]).  The cache of the results is not seen. *)
Fixpoint genTypeInfo (t : typ) : outcome unit :=
  match t with
  | TSlice e | TArray _ e => if isByte e then Ret tt else genTypeInfo e
  | TStruct fs =>
      (fix structFields (fs : list (field typ)) : outcome unit :=
         match fs with
         | [] => Ret tt
         | f :: fs' =>
             if f_exported f then
               match parseStructTag f (match fs' with [] => true | _ => false end) with
               | Ret ts =>
                   if ignored ts then structFields fs'
                   else match genTypeInfo (f_typ f) with
                        | Ret _ => structFields fs'
                        | e => e
                        end
               | Err e => Err e
               | Panic => Panic
               end
             else structFields fs'
         end) fs
  | TPtr e => genTypeInfo e
  | TOther => Err errNotSerializable
  | _ => Ret tt
  end.

(** ** Headers *)

(** [putint(b, i)]: the bytes written. *)
Definition putint (i : Z) : bytes :=
  let byte_ k := u8 (Z.shiftr i k) in
  if i <? 2 ^ 8 then [u8 i]
  else if i <? 2 ^ 16 then [byte_ 8; u8 i]
  else if i <? 2 ^ 24 then [byte_ 16; byte_ 8; u8 i]
  else if i <? 2 ^ 32 then [byte_ 24; byte_ 16; byte_ 8; u8 i]
  else if i <? 2 ^ 40 then [byte_ 32; byte_ 24; byte_ 16; byte_ 8; u8 i]
  else if i <? 2 ^ 48 then [byte_ 40; byte_ 32; byte_ 24; byte_ 16; byte_ 8; u8 i]
  else if i <? 2 ^ 56 then [byte_ 48; byte_ 40; byte_ 32; byte_ 24; byte_ 16; byte_ 8; u8 i]
  else [byte_ 56; byte_ 48; byte_ 40; byte_ 32; byte_ 24; byte_ 16; byte_ 8; u8 i].

(** [intsize(i)]: a [uint64] is zero after eight shifts. *)
Fixpoint intsize_loop (fuel : nat) (i : Z) (size : nat) : nat :=
  let i := Z.shiftr i 8 in
  match fuel with
  | O => size
  | S fuel => if i =? 0 then size else intsize_loop fuel i (S size)
  end.

Definition intsize (i : Z) : nat := intsize_loop 8 i 1.

Definition headsize (size : Z) : nat := if size <? 56 then 1 else 1 + intsize size.

(** [puthead(buf, smalltag, largetag, size)]: the bytes written. *)
Definition puthead (smalltag largetag size : Z) : bytes :=
  if size <? 56 then [u8 (smalltag + size)]
  else let n := putint size in u8 (largetag + Z.of_nat (length n)) :: n.

(** ** The encoding buffer *)

Record listhead := mk_head { lh_offset : nat; lh_size : nat }.

Record encbuf := mk_encbuf { eb_str : bytes; eb_lheads : list listhead; eb_lhsize : nat }.

Definition encbuf_reset : encbuf := mk_encbuf [] [] 0.

Definition eb_append (w : encbuf) (b : bytes) : encbuf :=
  mk_encbuf (eb_str w ++ b) (eb_lheads w) (eb_lhsize w).

Definition listhead_encode (h : listhead) : bytes := puthead 0xC0 0xF7 (Z.of_nat (lh_size h)).

Definition encodeStringHeader (w : encbuf) (size : nat) : encbuf :=
  if (size <? 56)%nat then eb_append w [u8 (0x80 + Z.of_nat size)]
  else let n := putint (Z.of_nat size) in
       eb_append w (u8 (0xB7 + Z.of_nat (length n)) :: n).

Definition encodeString (w : encbuf) (b : bytes) : encbuf :=
  match b with
  | [x] => if ub x <=? 0x7F then eb_append w [x] else eb_append (encodeStringHeader w 1) b
  | _ => eb_append (encodeStringHeader w (length b)) b
  end.

Definition eb_size (w : encbuf) : nat := length (eb_str w) + eb_lhsize w.

(** [list] returns the new header, here its position in [lheads]. *)
Definition eb_list (w : encbuf) : nat * encbuf :=
  (length (eb_lheads w),
   mk_encbuf (eb_str w) (eb_lheads w ++ [mk_head (length (eb_str w)) (eb_lhsize w)]) (eb_lhsize w)).

Definition eb_listEnd (w : encbuf) (lh : nat) : outcome encbuf :=
  h ← idx (eb_lheads w) lh;
  let size := (eb_size w - lh_offset h - lh_size h)%nat in
  let heads := <[lh := mk_head (lh_offset h) size]> (eb_lheads w) in
  Ret (mk_encbuf (eb_str w) heads
         (if (size <? 56)%nat then (eb_lhsize w + 1)%nat
          else (eb_lhsize w + (1 + intsize (Z.of_nat size)))%nat)).

(** ** Writers *)

Definition errNegative : error := "rlp: cannot encode negative *big.Int".

Definition writeUint (i : Z) (w : encbuf) : encbuf :=
  if i =? 0 then eb_append w [u8 0x80]
  else if i <? 128 then eb_append w [u8 i]
  else let n := putint i in eb_append w (u8 (0x80 + Z.of_nat (length n)) :: n).

Definition writeBool (b : bool) (w : encbuf) : encbuf :=
  if b then eb_append w [u8 0x01] else eb_append w [u8 0x80].

Definition writeBigInt (i : Z) (w : encbuf) : outcome encbuf :=
  if i <? 0 then Err errNegative
  else if i =? 0 then Ret (eb_append w [u8 0x80])
  else Ret (encodeString w (Bytes i)).

(** [writer(reflect.Zero(typ))] for the types a nil pointer is written by. *)
Fixpoint nilfunc (e : typ) (w : encbuf) : outcome encbuf :=
  match e with
  | TArray _ e' => if isByte e' then Ret (eb_append w [u8 0x80])
                   else let '(lh, w) := eb_list w in eb_listEnd w lh
  | TStruct _ | TBig => let '(lh, w) := eb_list w in eb_listEnd w lh
  | TRaw => Ret w
  | TBigPtr => Ret (eb_append w [u8 0x80])
  | TUint _ => Ret (writeUint 0 w)
  | TBool => Ret (writeBool false w)
  | TString => Ret (encodeStringHeader w 0)
  | TSlice e' => if isByte e' then Ret (encodeString w [])
                 else let '(lh, w) := eb_list w in eb_listEnd w lh
  | TInterface => Ret (eb_append w [u8 0xC0])
  | TPtr e' => nilfunc e' w
  | TOther => Panic
  end.

(** The loops of the writers that [makeSliceWriter] and [makeStructWriter] make, given the
    writer of a value. *)
Definition write_elems (wr : val -> typ -> tags -> encbuf -> outcome encbuf) (e : typ) :=
  fix go (vs : list val) (w : encbuf) {struct vs} : outcome encbuf :=
    match vs with
    | [] => Ret w
    | v :: vs => match wr v e no_tags w with
                 | Ret w => go vs w
                 | Err e => Err e
                 | Panic => Panic
                 end
    end.

Definition write_fields (wr : val -> typ -> tags -> encbuf -> outcome encbuf) :=
  fix go (vs : list val) (fs : list (field typ)) (w : encbuf) {struct vs} : outcome encbuf :=
    match vs, fs with
    | [], [] => Ret w
    | v :: vs, f :: fs' =>
        if f_exported f then
          match parseStructTag f (match fs' with [] => true | _ => false end) with
          | Ret ts =>
              if ignored ts then go vs fs' w
              else match wr v (f_typ f) ts w with
                   | Ret w => go vs fs' w
                   | Err e => Err e
                   | Panic => Panic
                   end
          | Err e => Err e
          | Panic => Panic
          end
        else go vs fs' w
    | _, _ => Panic
    end.

(** [listEnd(list())] around a write. *)
Definition in_list (w : encbuf) (k : encbuf -> outcome encbuf) : outcome encbuf :=
  let '(lh, w) := eb_list w in
  match k w with
  | Ret w => eb_listEnd w lh
  | Err e => Err e
  | Panic => Panic
  end.

(** The writer of a type; [Panic] where the value is not one of the type. *)
Fixpoint write (v : val) (t : typ) (ts : tags) (w : encbuf) {struct v} : outcome encbuf :=
  match t, v with
  | TRaw, VRaw b => Ret (eb_append w b)
  | TInterface, VNil => Ret (eb_append w [u8 0xC0])
  | TInterface, VIface t' v' =>
      match genTypeInfo t' with
      | Ret _ => write v' t' no_tags w
      | Err e => Err e
      | Panic => Panic
      end
  | TBigPtr, VNil => Ret (eb_append w [u8 0x80])
  | TBigPtr, VBig z | TBig, VBig z => writeBigInt z w
  | TUint _, VUint i => Ret (writeUint i w)
  | TBool, VBool b => Ret (writeBool b w)
  | TString, VString b => Ret (encodeString w b)
  | TSlice e, VBytes b => if isByte e then Ret (encodeString w b) else Panic
  | TArray _ e, VBytes b => if isByte e then Ret (encodeString w b) else Panic
  | TSlice e, VSeq vs | TArray _ e, VSeq vs =>
      if isByte e then Panic
      else if tail ts then write_elems write e vs w
      else in_list w (write_elems write e vs)
  | TStruct fs, VStruct vs => in_list w (write_fields write vs fs)
  | TPtr e, VNil => nilfunc e w
  | TPtr e, VPtr v => write v e no_tags w
  | _, _ => Panic
  end.

(** [encode(val)] with the dynamic type of [val]. *)
Definition eb_encode (w : encbuf) (t : typ) (v : val) : outcome encbuf :=
  _ ← genTypeInfo t; write v t no_tags w.

(** ** Getting the encoding out *)

(** The loop of [toBytes] over the headers, on [out], [pos] and [strpos]. *)
Fixpoint toBytes_loop (str : bytes) (heads : list listhead) (out : bytes) (pos strpos : nat) :
    outcome (bytes * nat * nat) :=
  match heads with
  | [] => Ret (out, pos, strpos)
  | head :: heads =>
      piece ← slice str strpos (lh_offset head);
      let n := Nat.min (length out - pos) (length piece) in
      let out := copy_at out pos piece in
      let pos := (pos + n)%nat in
      let strpos := (strpos + n)%nat in
      let enc := listhead_encode head in
      if (pos + length enc <=? length out)%nat
      then toBytes_loop str heads (copy_at out pos enc) (pos + length enc) strpos
      else Panic
  end.

Definition toBytes (w : encbuf) : outcome bytes :=
  let out := replicate (eb_size w) Byte.x00 in
  '(out, pos, strpos) ← toBytes_loop (eb_str w) (eb_lheads w) out 0 0;
  Ret (copy_at out pos (drop strpos (eb_str w))).

Definition EncodeToBytes (t : typ) (v : val) : outcome bytes :=
  eb ← eb_encode encbuf_reset t v; toBytes eb.

(** [toWriter]: the successive writes to a writer that takes them. *)
Fixpoint toWriter_loop (str : bytes) (heads : list listhead) (strpos : nat) :
    outcome (list bytes * nat) :=
  match heads with
  | [] => Ret ([], strpos)
  | head :: heads =>
      '(before, strpos) ←
        (if (strpos <? lh_offset head)%nat
         then piece ← slice str strpos (lh_offset head); Ret ([piece], lh_offset head)
         else Ret ([], strpos));
      '(rest, strpos) ← toWriter_loop str heads strpos;
      Ret (before ++ listhead_encode head :: rest, strpos)
  end.

Definition toWriter (w : encbuf) : outcome (list bytes) :=
  '(ws, strpos) ← toWriter_loop (eb_str w) (eb_lheads w) 0;
  Ret (if (strpos <? length (eb_str w))%nat then ws ++ [drop strpos (eb_str w)] else ws).

Definition Encode (t : typ) (v : val) : outcome (list bytes) :=
  eb ← eb_encode encbuf_reset t v; toWriter eb.

(** [encReader]; [None] for a nil buffer or piece. *)
Record encReader := mk_reader {
  er_buf : option encbuf;
  er_lhpos : nat;
  er_strpos : nat;
  er_piece : option bytes
}.

Definition encReader_next (r : encReader) : outcome (option bytes * encReader) :=
  match er_buf r with
  | None => Ret (None, r)
  | Some buf =>
      match er_piece r with
      | Some p => Ret (Some p, r)
      | None =>
          match eb_lheads buf !! er_lhpos r with
          | Some head =>
              if (er_strpos r <? lh_offset head)%nat
              then p ← slice (eb_str buf) (er_strpos r) (lh_offset head);
                   Ret (Some p, mk_reader (er_buf r) (er_lhpos r) (lh_offset head) None)
              else Ret (Some (listhead_encode head),
                        mk_reader (er_buf r) (S (er_lhpos r)) (er_strpos r) None)
          | None =>
              if (er_strpos r <? length (eb_str buf))%nat
              then Ret (Some (drop (er_strpos r) (eb_str buf)),
                        mk_reader (er_buf r) (er_lhpos r) (length (eb_str buf)) None)
              else Ret (None, r)
          end
      end
  end.

(** The loop of [Read(b)] with [n] bytes left in [b]: the bytes copied, and whether the end was met.
    Every iteration but the last takes a header or a part of the strings: [fuel] bounds their
    number. *)
Fixpoint Read_loop (fuel : nat) (r : encReader) (n : nat) : outcome (bytes * bool * encReader) :=
  match fuel with
  | O => Panic
  | S fuel =>
      '(piece, r) ← encReader_next r;
      match piece with
      | None => Ret ([], true, mk_reader None (er_lhpos r) (er_strpos r) None)
      | Some p =>
          let got := take n p in
          if (length got <? length p)%nat
          then Ret (got, false, mk_reader (er_buf r) (er_lhpos r) (er_strpos r) (Some (drop n p)))
          else '(rest, eof, r) ← Read_loop fuel
                  (mk_reader (er_buf r) (er_lhpos r) (er_strpos r) None) (n - length got);
               Ret (got ++ rest, eof, r)
      end
  end.

Definition encReader_Read (r : encReader) (n : nat) : outcome (bytes * bool * encReader) :=
  let fuel := match er_buf r with
              | Some buf => (2 * length (eb_lheads buf) + 3)%nat
              | None => 1%nat
              end in
  Read_loop fuel r n.

Definition EncodeToReader (t : typ) (v : val) : outcome (nat * encReader) :=
  eb ← eb_encode encbuf_reset t v;
  Ret (eb_size eb, mk_reader (Some eb) 0 0 None).

(** ** The reference encoding

    A string of one byte below 128 is its own encoding; otherwise the content follows a header
    with its length; a list is the concatenation of its elements after a header. *)

Definition rlp_string (b : bytes) : bytes :=
  match b with
  | [x] => if ub x <=? 0x7F then [x] else puthead 0x80 0xB7 1 ++ b
  | _ => puthead 0x80 0xB7 (Z.of_nat (length b)) ++ b
  end.

Definition rlp_list (p : bytes) : bytes := puthead 0xC0 0xF7 (Z.of_nat (length p)) ++ p.

Fixpoint rlp_nil (e : typ) : outcome bytes :=
  match e with
  | TArray _ e' | TSlice e' => Ret (if isByte e' then rlp_string [] else rlp_list [])
  | TStruct _ | TBig | TInterface => Ret (rlp_list [])
  | TRaw => Ret []
  | TPtr e' => rlp_nil e'
  | TOther => Panic
  | _ => Ret (rlp_string [])
  end.

Definition rlp_elems (enc : val -> typ -> tags -> outcome bytes) (e : typ) :=
  fix go (vs : list val) : outcome bytes :=
    match vs with
    | [] => Ret []
    | v :: vs => b ← enc v e no_tags; p ← go vs; Ret (b ++ p)
    end.

Definition rlp_fields (enc : val -> typ -> tags -> outcome bytes) :=
  fix go (vs : list val) (fs : list (field typ)) {struct vs} : outcome bytes :=
    match vs, fs with
    | [], [] => Ret []
    | v :: vs, f :: fs' =>
        if f_exported f then
          ts ← parseStructTag f (match fs' with [] => true | _ => false end);
          if ignored ts then go vs fs'
          else b ← enc v (f_typ f) ts; p ← go vs fs'; Ret (b ++ p)
        else go vs fs'
    | _, _ => Panic
    end.

Fixpoint rlp_encode (v : val) (t : typ) (ts : tags) {struct v} : outcome bytes :=
  match t, v with
  | TRaw, VRaw b => Ret b
  | TInterface, VNil => Ret (rlp_list [])
  | TInterface, VIface t' v' => _ ← genTypeInfo t'; rlp_encode v' t' no_tags
  | TBigPtr, VNil => Ret (rlp_string [])
  | TBigPtr, VBig z | TBig, VBig z => if z <? 0 then Err errNegative else Ret (rlp_string (Bytes z))
  | TUint _, VUint i => Ret (rlp_string (Bytes i))
  | TBool, VBool b => Ret (rlp_string (Bytes (if b then 1 else 0)))
  | TString, VString b => Ret (rlp_string b)
  | TSlice e, VBytes b | TArray _ e, VBytes b => if isByte e then Ret (rlp_string b) else Panic
  | TSlice e, VSeq vs | TArray _ e, VSeq vs =>
      if isByte e then Panic
      else if tail ts then rlp_elems rlp_encode e vs
      else p ← rlp_elems rlp_encode e vs; Ret (rlp_list p)
  | TStruct fs, VStruct vs => p ← rlp_fields rlp_encode vs fs; Ret (rlp_list p)
  | TPtr e, VNil => rlp_nil e
  | TPtr e, VPtr v => rlp_encode v e no_tags
  | _, _ => Panic
  end.

(** ** Headers are minimal *)

Lemma putint_be_fix i : exists n, putint i = be_fix (S n) i /\ (n < 8)%nat /\
  (i < 2 ^ 64 -> i < 256 ^ Z.of_nat (S n)) /\ (n = 0%nat \/ 256 ^ Z.of_nat n <= i).
Proof.
  unfold putint.
  repeat (match goal with |- context [if ?a <? ?b then _ else _] => destruct (Z.ltb_spec a b) end;
    [match goal with
     | |- context [[_; _; _; _; _; _; _] = _] => exists 6%nat
     | |- context [[_; _; _; _; _; _] = _] => exists 5%nat
     | |- context [[_; _; _; _; _] = _] => exists 4%nat
     | |- context [[_; _; _; _] = _] => exists 3%nat
     | |- context [[_; _; _] = _] => exists 2%nat
     | |- context [[_; _] = _] => exists 1%nat
     | |- context [[_] = _] => exists 0%nat
     end; cbn -[Z.shiftr Z.pow]; rewrite Z.shiftr_0_r; split_and!; [done|lia|lia|auto with lia] |]).
  exists 7%nat. cbn -[Z.shiftr Z.pow]. rewrite Z.shiftr_0_r. split_and!; [done|lia|lia|auto with lia].
Qed.

Lemma byte_len_unique z n : 256 ^ Z.of_nat n <= z < 256 ^ Z.of_nat (S n) -> byte_len z = S n.
Proof.
  intros [Hl Hu]. pose proof (pow256_pos n). pose proof (byte_len_bound z) as Hb.
  rewrite Z.abs_eq in Hb by lia.
  assert (byte_len z <= S n)%nat by (apply byte_len_le; lia).
  destruct (decide (byte_len z <= n)%nat) as [Hle|]; [|lia].
  assert (256 ^ Z.of_nat (byte_len z) <= 256 ^ Z.of_nat n) by (apply Z.pow_le_mono_r; lia). lia.
Qed.

Lemma byte_len_0 : byte_len 0 = 0%nat.
Proof. done. Qed.

Lemma byte_len_pos z : 0 < z ->
  exists n, byte_len z = S n /\ 256 ^ Z.of_nat n <= z < 256 ^ Z.of_nat (S n).
Proof.
  intros Hz. destruct (byte_len z) as [|n] eqn:E.
  - pose proof (byte_len_bound z) as Hb. rewrite E, Z.abs_eq in Hb by lia. cbn in Hb. lia.
  - exists n. pose proof (byte_len_bound z) as Hb. rewrite E, Z.abs_eq in Hb by lia.
    split; [done|]. split; [|done]. apply Z.nlt_ge. intros Hlt.
    assert (byte_len z <= n)%nat by (apply byte_len_le; lia). lia.
Qed.

Lemma byte_len_shiftr z : 0 < z -> byte_len z = S (byte_len (Z.shiftr z 8)).
Proof.
  intros Hz. rewrite Z.shiftr_div_pow2 by lia. change (2 ^ 8) with 256.
  destruct (byte_len_pos z Hz) as (n & E & Hl & Hu). rewrite E. f_equal.
  rewrite Nat2Z.inj_succ, Z.pow_succ_r in Hu by lia. destruct n as [|n].
  - rewrite Z.div_small by (cbn in Hu; lia). done.
  - symmetry. apply byte_len_unique. rewrite !Nat2Z.inj_succ, !Z.pow_succ_r in * by lia.
    split; [apply Z.div_le_lower_bound|apply Z.div_lt_upper_bound]; lia.
Qed.

Lemma putint_Bytes i : 0 < i < 2 ^ 64 -> putint i = Bytes i.
Proof.
  intros Hi. destruct (putint_be_fix i) as (n & -> & Hn & Hu & Hl). unfold Bytes.
  rewrite Z.abs_eq by lia. f_equal. symmetry. apply byte_len_unique.
  split; [|apply Hu; lia]. destruct Hl as [->|]; [change (256 ^ Z.of_nat 0) with 1|]; lia.
Qed.

Lemma intsize_loop_byte_len fuel i size : 0 <= i < 256 ^ Z.of_nat (S fuel) ->
  intsize_loop fuel i size = (size + byte_len (Z.shiftr i 8))%nat.
Proof.
  revert i size. induction fuel as [|fuel IH]; intros i size Hi; cbn [intsize_loop].
  - rewrite Z.shiftr_div_pow2, Z.div_small by (cbn in *; lia). rewrite byte_len_0. lia.
  - assert (0 <= Z.shiftr i 8) by (apply Z.shiftr_nonneg; lia).
    destruct (Z.eqb_spec (Z.shiftr i 8) 0) as [->|]; [rewrite byte_len_0; lia|].
    rewrite (byte_len_shiftr (Z.shiftr i 8)) by lia. rewrite IH; [lia|]. split; [done|].
    rewrite Z.shiftr_div_pow2 by lia. apply Z.div_lt_upper_bound; [lia|].
    rewrite Nat2Z.inj_succ, Z.pow_succ_r in Hi by lia. lia.
Qed.

Lemma intsize_byte_len i : 0 < i < 2 ^ 64 -> intsize i = byte_len i.
Proof.
  intros Hi. unfold intsize. rewrite intsize_loop_byte_len by (cbn; lia).
  rewrite (byte_len_shiftr i) by lia. done.
Qed.

Lemma length_puthead small large size : 0 <= size < 2 ^ 64 ->
  length (puthead small large size) = headsize size.
Proof.
  intros H. unfold puthead, headsize. destruct (Z.ltb_spec size 56); [done|].
  rewrite putint_Bytes, intsize_byte_len by lia. cbn. by rewrite length_Bytes.
Qed.

(** ** The buffer holds the encoding

    [renders d b]: the strings and the headers of [d] make up [b].  A buffer is built from
    plain strings by concatenation and by putting a header in front. *)

Definition shift_head (n : nat) (h : listhead) : listhead := mk_head (n + lh_offset h) (lh_size h).

Definition eb_concat (w d : encbuf) : encbuf :=
  mk_encbuf (eb_str w ++ eb_str d)
            (eb_lheads w ++ map (shift_head (length (eb_str w))) (eb_lheads d))
            (eb_lhsize w + eb_lhsize d).

Definition eb_plain (b : bytes) : encbuf := mk_encbuf b [] 0.

Definition eb_wrap (d : encbuf) (size : nat) : encbuf :=
  mk_encbuf (eb_str d) (mk_head 0 size :: eb_lheads d) (eb_lhsize d + headsize (Z.of_nat size)).

Inductive renders : encbuf -> bytes -> Prop :=
| renders_plain b : renders (eb_plain b) b
| renders_concat d1 d2 b1 b2 :
    renders d1 b1 -> renders d2 b2 -> renders (eb_concat d1 d2) (b1 ++ b2)
| renders_wrap d b : renders d b -> renders (eb_wrap d (length b)) (rlp_list b).

Lemma shift_head_add m n h : shift_head m (shift_head n h) = shift_head (m + n) h.
Proof. unfold shift_head. cbn. f_equal. lia. Qed.

Lemma eb_concat_assoc a b c : eb_concat (eb_concat a b) c = eb_concat a (eb_concat b c).
Proof.
  unfold eb_concat. cbn. rewrite map_app, map_map, length_app, <- !app_assoc. f_equal; [|lia].
  do 2 f_equal. apply map_ext. intros h. symmetry. apply shift_head_add.
Qed.

Lemma eb_concat_nil w : eb_concat w (eb_plain []) = w.
Proof. destruct w. unfold eb_concat. cbn. by rewrite !app_nil_r, Nat.add_0_r. Qed.

Lemma eb_append_concat w b : eb_append w b = eb_concat w (eb_plain b).
Proof. unfold eb_append, eb_concat. cbn. by rewrite app_nil_r, Nat.add_0_r. Qed.

(** All parts of [b] are small enough for headers. *)
Lemma renders_size d b : renders d b -> Z.of_nat (length b) < 2 ^ 64 -> eb_size d = length b.
Proof.
  unfold eb_size. induction 1 as [b|d1 d2 b1 b2 _ IH1 _ IH2|d b _ IH]; cbn; intros Hb.
  - lia.
  - rewrite !length_app in *. specialize (IH1 ltac:(lia)). specialize (IH2 ltac:(lia)). lia.
  - unfold rlp_list in *. rewrite length_app in *. specialize (IH ltac:(lia)).
    rewrite length_puthead in * by lia. lia.
Qed.

(** [list] and [listEnd] around what was written put a header in front of it. *)
Lemma list_listEnd w d :
  let '(lh, w') := eb_list w in
  eb_listEnd (eb_concat w' d) lh = Ret (eb_concat w (eb_wrap d (eb_size d))).
Proof.
  cbn [eb_list]. unfold eb_listEnd. cbn [eb_concat eb_lheads].
  rewrite <- app_assoc. cbn [app]. unfold idx.
  rewrite list_lookup_middle by done. cbn [mbind outcome_bind lh_offset lh_size].
  replace (eb_size _ - _ - _)%nat with (eb_size d)
    by (unfold eb_size; cbn [eb_str eb_lhsize eb_concat]; rewrite length_app; lia).
  rewrite <- (Nat.add_0_r (length (eb_lheads w))), insert_app_r. cbn [insert list_insert].
  unfold eb_concat, eb_wrap. cbn [eb_str eb_lheads eb_lhsize map]. unfold shift_head at 2.
  cbn [lh_offset lh_size]. rewrite Nat.add_0_r. do 2 f_equal. unfold headsize.
  destruct (Nat.ltb_spec (eb_size d) 56), (Z.ltb_spec (Z.of_nat (eb_size d)) 56); lia.
Qed.

Lemma renders_wrap_size d b : (Z.of_nat (length b) < 2 ^ 64 -> renders d b) ->
  Z.of_nat (length (rlp_list b)) < 2 ^ 64 -> renders (eb_wrap d (eb_size d)) (rlp_list b).
Proof.
  intros Hd Hb. assert (Z.of_nat (length b) < 2 ^ 64) as Hb'.
  { unfold rlp_list in Hb. rewrite length_app in Hb. lia. }
  rewrite (renders_size d b) by auto. apply renders_wrap. auto.
Qed.

Lemma encodeString_concat w b : encodeString w b = eb_concat w (eb_plain (rlp_string b)).
Proof.
  assert (forall n, encodeStringHeader w n = eb_append w (puthead 0x80 0xB7 (Z.of_nat n))) as Hh.
  { intros n. unfold encodeStringHeader, puthead.
    by destruct (Nat.ltb_spec n 56), (Z.ltb_spec (Z.of_nat n) 56); try lia. }
  assert (forall n, eb_append (encodeStringHeader w n) b =
            eb_append w (puthead 0x80 0xB7 (Z.of_nat n) ++ b)) as Ha.
  { intros n. rewrite Hh. unfold eb_append. cbn [eb_str eb_lheads eb_lhsize]. by rewrite app_assoc. }
  unfold encodeString, rlp_string. destruct b as [|x [|y b]]; [|destruct (ub x <=? 0x7F)|];
    rewrite ?Ha; apply eb_append_concat.
Qed.

(** A one-byte integer. *)
Lemma Bytes_small i : 0 < i < 256 -> Bytes i = [u8 i].
Proof.
  intros Hi. rewrite <- putint_Bytes by lia. unfold putint.
  destruct (Z.ltb_spec i (2 ^ 8)); [done|lia].
Qed.

Lemma ub_u8_small z : 0 <= z < 256 -> ub (u8 z) = z.
Proof. intros. rewrite ub_u8. by apply Z.mod_small. Qed.

Lemma writeUint_concat i w : 0 <= i < 2 ^ 64 ->
  writeUint i w = eb_concat w (eb_plain (rlp_string (Bytes i))).
Proof.
  intros Hi. unfold writeUint. destruct (Z.eqb_spec i 0) as [->|Hi0]; [apply eb_append_concat|].
  destruct (Z.ltb_spec i 128).
  - rewrite Bytes_small by lia. unfold rlp_string.
    rewrite ub_u8_small by lia. destruct (Z.leb_spec i 0x7F); [apply eb_append_concat|lia].
  - rewrite eb_append_concat. do 2 f_equal. rewrite putint_Bytes by lia.
    destruct (byte_len_pos i ltac:(lia)) as (n & E & Hl & Hu).
    assert (n < 8)%nat as Hn.
    { apply Nat.nle_gt. intros Hn8. assert (256 ^ 8 <= 256 ^ Z.of_nat n) by (apply Z.pow_le_mono_r; lia).
      lia. }
    assert (length (Bytes i) = S n) as Hln by (by rewrite length_Bytes).
    unfold rlp_string. destruct (Bytes i) as [|x [|y l]] eqn:EB; [done| |].
    + assert (ub x = i) as Hx.
      { pose proof (SetBytes_Bytes i ltac:(lia)) as H1. rewrite EB in H1. exact H1. }
      destruct (Z.leb_spec (ub x) 0x7F); [lia|]. done.
    + unfold puthead. rewrite Hln. destruct (Z.ltb_spec (Z.of_nat (S n)) 56); [done|lia].
Qed.

(** The unsigned integers of a value are [uint64]s. *)
Fixpoint uints_ok (v : val) : bool :=
  match v with
  | VUint i => (0 <=? i) && (i <? 2 ^ 64)
  | VSeq vs | VStruct vs => forallb uints_ok vs
  | VPtr v | VIface _ v => uints_ok v
  | _ => true
  end.

(** What a writer does, given the reference encoding. *)
Definition writes (r : outcome bytes) (w : encbuf) (res : outcome encbuf) : Prop :=
  match r with
  | Ret b => exists d, res = Ret (eb_concat w d) /\ (Z.of_nat (length b) < 2 ^ 64 -> renders d b)
  | Err e => res = Err e
  | Panic => res = Panic
  end.

Lemma writes_plain b w : writes (Ret b) w (Ret (eb_append w b)).
Proof. exists (eb_plain b). split; [by rewrite eb_append_concat|]. constructor. Qed.

Lemma writes_string b w : writes (Ret (rlp_string b)) w (Ret (encodeString w b)).
Proof. exists (eb_plain (rlp_string b)). split; [by rewrite encodeString_concat|]. constructor. Qed.

(** Closing a list. *)
Lemma writes_list r w (k : encbuf -> outcome encbuf) :
  (forall w, writes r w (k w)) ->
  writes (p ← r; Ret (rlp_list p)) w (in_list w k).
Proof.
  intros Hk. unfold in_list. destruct (eb_list w) as [lh w'] eqn:El. specialize (Hk w'). destruct r as [b|e|]; cbn in *.
  - destruct Hk as (d & -> & Hd). exists (eb_wrap d (eb_size d)).
    pose proof (list_listEnd w d) as L. rewrite El in L. split; [done|].
    by apply renders_wrap_size.
  - by rewrite Hk.
  - by rewrite Hk.
Qed.

(** One write after another. *)
Lemma writes_app r1 r2 w res1 (k : encbuf -> outcome encbuf) :
  writes r1 w res1 -> (forall w, writes r2 w (k w)) ->
  writes (b ← r1; p ← r2; Ret (b ++ p)) w
    (match res1 with Ret w => k w | Err e => Err e | Panic => Panic end).
Proof.
  intros H1 H2. destruct r1 as [b1|e|]; cbn in *; [|by rewrite H1..].
  destruct H1 as (d1 & -> & Hd1). specialize (H2 (eb_concat w d1)).
  destruct r2 as [b2|e|]; cbn in *; [|done..].
  destruct H2 as (d2 & -> & Hd2). exists (eb_concat d1 d2). rewrite eb_concat_assoc.
  split; [done|]. rewrite length_app. intros. apply renders_concat; [apply Hd1|apply Hd2]; lia.
Qed.

Lemma writes_nil e w : writes (rlp_nil e) w (nilfunc e w).
Proof.
  assert (forall w, writes (Ret (rlp_list [])) w (let '(lh, w) := eb_list w in eb_listEnd w lh)) as HL.
  { intros w0. exact (writes_list (Ret []) w0 (fun w => Ret w)
      (fun w => ex_intro _ (eb_plain []) (conj (f_equal Ret (eq_sym (eb_concat_nil w)))
                                               (fun _ => renders_plain [])))). }
  revert w. induction e using typ_ind; intros w; cbn [rlp_nil nilfunc]; try apply writes_plain; try done.
  - rewrite <- (eb_concat_nil w) at 2. exists (eb_plain []). split; [done|constructor].
  - destruct (isByte e); [apply writes_string|apply HL].
  - destruct (isByte e); [apply writes_plain|apply HL].
Qed.

Lemma writes_elems wr enc e vs w :
  Forall (fun v => forall t ts w, writes (enc v t ts) w (wr v t ts w)) vs ->
  writes (rlp_elems enc e vs) w (write_elems wr e vs w).
Proof.
  intros H. revert w. induction H as [|v vs Hv _ IH]; intros w.
  - exists (eb_plain []). split; [by rewrite eb_concat_nil|constructor].
  - cbn [rlp_elems write_elems]. apply writes_app; [apply Hv|apply IH].
Qed.

Lemma writes_fields wr enc vs fs w :
  Forall (fun v => forall t ts w, writes (enc v t ts) w (wr v t ts w)) vs ->
  writes (rlp_fields enc vs fs) w (write_fields wr vs fs w).
Proof.
  intros H. revert fs w. induction H as [|v vs Hv _ IH]; intros fs w; destruct fs as [|f fs]; try done.
  - exists (eb_plain []). split; [by rewrite eb_concat_nil|constructor].
  - cbn [rlp_fields write_fields]. destruct (f_exported f); [|apply IH].
    destruct (parseStructTag _ _) as [ts|e|]; [|done..]. cbn [mbind outcome_bind].
    destruct (ignored ts); [apply IH|]. apply writes_app; [apply Hv|apply IH].
Qed.

Lemma Forall_forallb {A} (f : A -> bool) (Q : A -> Prop) l :
  Forall (fun x => f x = true -> Q x) l -> forallb f l = true -> Forall Q l.
Proof.
  induction 1 as [|x l Hx _ IH]; cbn; [done|]. intros [H1 H2]%andb_prop. constructor; auto.
Qed.

(** Every writer writes the reference encoding. *)
Lemma write_encodes v : uints_ok v = true ->
  forall t ts w, writes (rlp_encode v t ts) w (write v t ts w).
Proof.
  induction v using val_ind; intros Hu t0 ts w; destruct t0; cbn [rlp_encode write]; try done;
    try apply writes_plain; try apply writes_string; try apply writes_nil.
  all: cbn [uints_ok] in Hu.
  all: try (match goal with H : Forall _ _ |- _ => pose proof (Forall_forallb _ _ _ H Hu) as Hvs end).
  - unfold writeBigInt. destruct (z <? 0); [done|]. destruct (Z.eqb_spec z 0) as [->|];
      [apply writes_plain|apply writes_string].
  - unfold writeBigInt. destruct (z <? 0); [done|]. destruct (Z.eqb_spec z 0) as [->|];
      [apply writes_plain|apply writes_string].
  - apply andb_prop in Hu as [H1%Z.leb_le H2%Z.ltb_lt]. rewrite writeUint_concat by lia.
    eexists. split; [done|constructor].
  - unfold writeBool. destruct b; apply writes_plain.
  - destruct (isByte t0); [apply writes_string|done].
  - destruct (isByte t0); [apply writes_string|done].
  - destruct (isByte t0); [done|]. destruct (tail ts); [by apply writes_elems|].
    apply writes_list. intros. by apply writes_elems.
  - destruct (isByte t0); [done|]. destruct (tail ts); [by apply writes_elems|].
    apply writes_list. intros. by apply writes_elems.
  - apply writes_list. intros. by apply writes_fields.
  - by apply IHv.
  - destruct (genTypeInfo t); [|done..]. cbn [mbind outcome_bind]. by apply IHv.
Qed.

(** ** Merging headers and strings *)

Fixpoint merge (str : bytes) (heads : list listhead) (strpos : nat) : bytes :=
  match heads with
  | [] => drop strpos str
  | h :: heads => take (lh_offset h - strpos) (drop strpos str) ++
                  listhead_encode h ++ merge str heads (lh_offset h)
  end.

(** The offsets are in order, from [p] to [n]. *)
Fixpoint ordered (p : nat) (heads : list listhead) (n : nat) : Prop :=
  match heads with
  | [] => (p <= n)%nat
  | h :: heads => (p <= lh_offset h)%nat /\ ordered (lh_offset h) heads n
  end.

Lemma ordered_le p heads n : ordered p heads n -> (p <= n)%nat.
Proof. revert p. induction heads as [|h hs IH]; cbn; [done|]. intros p [? H%IH]. lia. Qed.

Lemma ordered_app p h1 h2 m n : ordered p h1 m -> ordered 0 h2 n ->
  ordered p (h1 ++ map (shift_head m) h2) (m + n).
Proof.
  revert p. induction h1 as [|h h1 IH]; cbn; intros p H1 H2.
  - assert (forall k p, (p <= m + k)%nat -> ordered k h2 n ->
              ordered p (map (shift_head m) h2) (m + n)) as L.
    { clear. induction h2 as [|h h2 IH]; cbn; intros k p Hp; [lia|].
      intros [Hk H2]. split; [lia|]. eapply IH; [|exact H2]. lia. }
    apply (L 0%nat); [lia|done].
  - destruct H1 as [? H1]. auto.
Qed.

Lemma merge_app s1 h1 s2 h2 p : ordered p h1 (length s1) ->
  merge (s1 ++ s2) (h1 ++ map (shift_head (length s1)) h2) p = merge s1 h1 p ++ merge s2 h2 0.
Proof.
  revert p. induction h1 as [|h h1 IH]; cbn [ordered app merge]; intros p H.
  - assert (forall h2 k, merge (s1 ++ s2) (map (shift_head (length s1)) h2) (length s1 + k) =
                         merge s2 h2 k) as Hshift.
    { clear. induction h2 as [|h h2 IH]; intros k; cbn [map merge].
      - by rewrite drop_app_add.
      - rewrite drop_app_add. cbn [shift_head lh_offset]. rewrite IH. do 2 f_equal. lia. }
    destruct h2 as [|h h2]; cbn [map merge]; [by rewrite drop_app_le|].
    cbn [shift_head lh_offset]. rewrite Hshift, drop_app_le, drop_0, Nat.sub_0_r by done.
    rewrite take_app_ge by (rewrite length_drop; lia). rewrite length_drop, <- app_assoc.
    do 3 f_equal. lia.
  - destruct H as [Hp H]. rewrite IH by done. rewrite <- !app_assoc. f_equal.
    pose proof (ordered_le _ _ _ H). rewrite drop_app_le by lia. apply take_app_le.
    rewrite length_drop. lia.
Qed.

Lemma renders_merge d b : renders d b ->
  ordered 0 (eb_lheads d) (length (eb_str d)) /\ merge (eb_str d) (eb_lheads d) 0 = b.
Proof.
  induction 1 as [b|d1 d2 b1 b2 _ [O1 M1] _ [O2 M2]|d b _ [O M]]; cbn.
  - split; [lia|by rewrite drop_0].
  - rewrite length_app. split; [by apply ordered_app|]. by rewrite merge_app, M1, M2.
  - split; [split; [lia|done]|]. by rewrite M.
Qed.

Lemma toBytes_loop_merge str heads p acc z : ordered p heads (length str) ->
  (length z = length (merge str heads p))%nat ->
  exists acc' z' p', toBytes_loop str heads (acc ++ z) (length acc) p =
      Ret (acc' ++ z', length acc', p') /\
    acc' ++ drop p' str = acc ++ merge str heads p /\ length z' = length (drop p' str).
Proof.
  revert p acc z. induction heads as [|h heads IH]; cbn [ordered merge toBytes_loop]; intros p acc z Ho Hz.
  - by exists acc, z, p.
  - destruct Ho as [Hp Ho]. pose proof (ordered_le _ _ _ Ho) as Hle.
    set (piece := take (lh_offset h - p) (drop p str)) in *.
    assert (length piece = lh_offset h - p)%nat as Hpl.
    { unfold piece. rewrite length_take, length_drop. lia. }
    unfold slice. destruct (decide _) as [_|[]]; [|lia]. cbn [mbind outcome_bind]. fold piece.
    rewrite !length_app in *. rewrite Nat.min_r by lia.
    set (enc := listhead_encode h) in *.
    assert (exists z1 z2 z3, z = z1 ++ z2 ++ z3 /\ length z1 = length piece /\ length z2 = length enc)
      as (z1 & z2 & z3 & -> & H1 & H2).
    { exists (take (length piece) z), (take (length enc) (drop (length piece) z)),
             (drop (length enc) (drop (length piece) z)).
      rewrite !take_drop, !length_take, length_drop. split; [done|]. lia. }
    rewrite !length_app in *. rewrite copy_at_mid by done. rewrite !length_app.
    destruct (Nat.leb_spec (length acc + length piece + length enc)
                (length acc + (length piece + (length z2 + length z3)))); [|lia].
    rewrite app_assoc, <- length_app, copy_at_mid by done. rewrite app_assoc, <- length_app.
    replace (p + length piece)%nat with (lh_offset h) by lia.
    destruct (IH (lh_offset h) ((acc ++ piece) ++ enc) z3) as (acc' & z' & p' & -> & E & El);
      [done|lia|]. exists acc', z', p'. split; [done|]. split; [|done].
    by rewrite E, <- !app_assoc.
Qed.

Lemma toBytes_renders d b : renders d b -> Z.of_nat (length b) < 2 ^ 64 -> toBytes d = Ret b.
Proof.
  intros Hd Hb. destruct (renders_merge d b Hd) as [Ho Hm]. unfold toBytes.
  rewrite (renders_size d b) by done.
  destruct (toBytes_loop_merge (eb_str d) (eb_lheads d) 0 [] (replicate (length b) Byte.x00) Ho)
    as (acc & z & p & E & E2 & El); [by rewrite length_replicate, Hm|].
  cbn [app length] in *. rewrite E. cbn [mbind outcome_bind]. f_equal.
  rewrite <- (app_nil_r z), copy_at_mid by done. rewrite app_nil_r, E2. exact Hm.
Qed.

(** ** Pieces

    What is left to write after [strpos] bytes of the strings: the pieces [toWriter] writes and
    the reader hands out. *)

Definition nonempty (b : bytes) : list bytes := match b with [] => [] | _ => [b] end.

Fixpoint pieces (str : bytes) (heads : list listhead) (strpos : nat) : list bytes :=
  match heads with
  | [] => nonempty (drop strpos str)
  | h :: heads => nonempty (take (lh_offset h - strpos) (drop strpos str)) ++
                  listhead_encode h :: pieces str heads (lh_offset h)
  end.

Lemma concat_nonempty b : concat (nonempty b) = b.
Proof. destruct b; cbn; [done|]. by rewrite app_nil_r. Qed.

Lemma pieces_merge str heads p : concat (pieces str heads p) = merge str heads p.
Proof.
  revert p. induction heads as [|h hs IH]; intros p; cbn [pieces merge]; [apply concat_nonempty|].
  rewrite concat_app, concat_nonempty. cbn [concat]. by rewrite IH.
Qed.

Lemma nonempty_piece str p o : (o <= length str)%nat ->
  (if (p <? o)%nat then [take (o - p) (drop p str)] else []) = nonempty (take (o - p) (drop p str)).
Proof.
  intros Ho. destruct (Nat.ltb_spec p o).
  - destruct (take _ _) eqn:E; [|done]. apply (f_equal length) in E.
    rewrite length_take, length_drop in E. cbn in E. lia.
  - by replace (o - p)%nat with 0%nat by lia.
Qed.

Lemma toWriter_loop_pieces str heads p : ordered p heads (length str) ->
  exists ws p', toWriter_loop str heads p = Ret (ws, p') /\
    pieces str heads p = ws ++ nonempty (drop p' str).
Proof.
  revert p. induction heads as [|h heads IH]; cbn [ordered pieces toWriter_loop]; intros p Ho.
  - by exists [], p.
  - destruct Ho as [Hp Ho]. pose proof (ordered_le _ _ _ Ho) as Hle.
    destruct (IH _ Ho) as (ws & p' & E & E').
    rewrite <- nonempty_piece by done. destruct (Nat.ltb_spec p (lh_offset h)).
    + unfold slice. destruct (decide _) as [_|[]]; [|lia]. cbn [mbind outcome_bind]. rewrite E.
      cbn [mbind outcome_bind]. eexists _, p'. split; [done|]. rewrite E'. by rewrite <- app_assoc.
    + cbn [mbind outcome_bind]. assert (p = lh_offset h) as -> by lia. rewrite E.
      cbn [mbind outcome_bind]. eexists _, p'. split; [done|]. rewrite E'. done.
Qed.

Lemma toWriter_renders d b : renders d b ->
  exists ws, toWriter d = Ret ws /\ concat ws = b.
Proof.
  intros Hd. destruct (renders_merge d b Hd) as [Ho Hm].
  destruct (toWriter_loop_pieces _ _ _ Ho) as (ws & p & E & E2). unfold toWriter. rewrite E.
  cbn [mbind outcome_bind]. eexists. split; [done|]. rewrite <- Hm, <- pieces_merge, E2.
  destruct (Nat.ltb_spec p (length (eb_str d))).
  - rewrite !concat_app, concat_nonempty. cbn. by rewrite app_nil_r.
  - rewrite (drop_ge (eb_str d)) by done. by rewrite app_nil_r.
Qed.

Definition rest_of (r : encReader) : list bytes :=
  match er_buf r with
  | Some d => match er_piece r with Some p => [p] | None => [] end ++
              pieces (eb_str d) (drop (er_lhpos r) (eb_lheads d)) (er_strpos r)
  | None => []
  end.

Definition reader_ok (r : encReader) : Prop :=
  match er_buf r with
  | Some d => ordered (er_strpos r) (drop (er_lhpos r) (eb_lheads d)) (length (eb_str d))
  | None => True
  end.

Definition no_piece (r : encReader) : encReader :=
  mk_reader (er_buf r) (er_lhpos r) (er_strpos r) None.

Lemma next_pieces r : reader_ok r ->
  match rest_of r with
  | p :: ps => exists r', encReader_next r = Ret (Some p, r') /\ er_buf r' = er_buf r /\
                 reader_ok (no_piece r') /\ rest_of (no_piece r') = ps
  | [] => exists r', encReader_next r = Ret (None, r')
  end.
Proof.
  destruct r as [[d|] lhpos strpos piece]; unfold rest_of, encReader_next, reader_ok;
    cbn [er_buf er_lhpos er_strpos er_piece no_piece]; [|by eexists].
  intros Ho. destruct piece as [p|]; [by exists (mk_reader (Some d) lhpos strpos (Some p))|]. cbn [app].
  destruct (eb_lheads d !! lhpos) as [h|] eqn:Eh.
  - rewrite (drop_S _ _ _ Eh) in *. destruct Ho as [Hp Ho]. cbn [pieces].
    pose proof (ordered_le _ _ _ Ho) as Hle. rewrite <- nonempty_piece by done.
    destruct (Nat.ltb_spec strpos (lh_offset h)) as [Hlt|Hge]; cbn [app].
    + unfold slice. destruct (decide _) as [_|[]]; [|lia]. cbn [mbind outcome_bind].
      eexists. split_and!; [done|done| |].
      * cbn. rewrite (drop_S _ _ _ Eh). by split.
      * cbn. rewrite (drop_S _ _ _ Eh). cbn [pieces]. by rewrite Nat.sub_diag.
    + assert (strpos = lh_offset h) as -> by lia. eexists. split_and!; [done|done|done|done].
  - apply lookup_ge_None in Eh. rewrite drop_ge in * by done. cbn [pieces ordered] in *.
    destruct (Nat.ltb_spec strpos (length (eb_str d))).
    + destruct (drop strpos (eb_str d)) as [|x l] eqn:E.
      { apply (f_equal length) in E. rewrite length_drop in E. cbn in E. lia. }
      cbn [nonempty]. rewrite <- E. eexists. split_and!; [done|done| |].
      * cbn. rewrite (drop_ge (eb_lheads d)) by done. cbn. lia.
      * cbn. rewrite (drop_ge (eb_lheads d)) by done. cbn. by rewrite drop_all.
    + rewrite drop_ge by done. by eexists.
Qed.

Lemma Read_loop_pieces fuel r n : reader_ok r -> (length (rest_of r) < fuel)%nat ->
  exists r', Read_loop fuel r n =
      Ret (take n (concat (rest_of r)), (length (concat (rest_of r)) <=? n)%nat, r') /\
    reader_ok r' /\ concat (rest_of r') = drop n (concat (rest_of r)).
Proof.
  revert r n. induction fuel as [|fuel IH]; intros r n Hr Hf; [lia|]. cbn [Read_loop].
  pose proof (next_pieces r Hr) as Hnext. destruct (rest_of r) as [|p ps] eqn:Er.
  - destruct Hnext as (r' & ->). cbn [mbind outcome_bind concat length Nat.leb].
    eexists. split_and!; [by rewrite take_nil|done|by rewrite drop_nil].
  - destruct Hnext as (r' & -> & Hb & Hok & Hps). cbn [mbind outcome_bind concat length] in *.
    rewrite length_take. destruct (Nat.ltb_spec (Nat.min n (length p)) (length p)).
    + eexists. split_and!.
      * rewrite length_app, take_app_le by lia.
        destruct (Nat.leb_spec (length p + length (concat ps)) n); [lia|done].
      * exact Hok.
      * rewrite drop_app_le by lia. unfold rest_of. cbn. rewrite Hb.
        unfold rest_of, no_piece in Hps. cbn in Hps. rewrite Hb in Hps.
        destruct (er_buf r) as [d|] eqn:Eb; [|unfold rest_of in Er; by rewrite Eb in Er].
        cbn in *. by rewrite Hps.
    + replace (Nat.min n (length p)) with (length p) by lia.
      destruct (IH (no_piece r') (n - length p)%nat Hok) as (r2 & E2 & H2 & Hrest);
        [rewrite Hps; lia|].
      unfold no_piece in E2. rewrite E2. cbn [mbind outcome_bind]. fold (no_piece r') in *.
      rewrite Hps in *. exists r2. split_and!; [|done|].
      * rewrite length_app, (take_app_ge p), (take_ge p n) by lia.
        destruct (Nat.leb_spec (length (concat ps)) (n - length p)),
          (Nat.leb_spec (length p + length (concat ps)) n); (done || lia).
      * by rewrite Hrest, drop_app_ge by lia.
Qed.

Lemma length_pieces str heads p : (length (pieces str heads p) <= 2 * length heads + 1)%nat.
Proof.
  assert (forall b, (length (nonempty b) <= 1)%nat) as Hn by (intros []; cbn; lia).
  revert p. induction heads as [|h hs IH]; intros p; cbn [pieces length].
  - pose proof (Hn (drop p str)). lia.
  - rewrite length_app. cbn [length]. pose proof (Hn (take (lh_offset h - p) (drop p str))).
    specialize (IH (lh_offset h)). lia.
Qed.

Lemma Read_pieces r n : reader_ok r ->
  exists r', encReader_Read r n =
      Ret (take n (concat (rest_of r)), (length (concat (rest_of r)) <=? n)%nat, r') /\
    reader_ok r' /\ concat (rest_of r') = drop n (concat (rest_of r)).
Proof.
  intros Hr. apply Read_loop_pieces; [done|]. unfold rest_of.
  destruct (er_buf r) as [d|]; [|cbn; lia]. rewrite length_app.
  pose proof (length_pieces (eb_str d) (drop (er_lhpos r) (eb_lheads d)) (er_strpos r)) as Hl.
  rewrite length_drop in Hl. destruct (er_piece r); cbn [length] in *; lia.
Qed.

(** Successive reads into buffers of the given lengths. *)
Fixpoint reads (r : encReader) (ns : list nat) : outcome bytes :=
  match ns with
  | [] => Ret []
  | n :: ns => '(b, _, r) ← encReader_Read r n; rest ← reads r ns; Ret (b ++ rest)
  end.

Lemma reads_pieces ns r : reader_ok r ->
  reads r ns = Ret (take (sum_list ns) (concat (rest_of r))).
Proof.
  revert r. induction ns as [|n ns IH]; intros r Hr; [done|]. cbn [reads].
  destruct (Read_pieces r n Hr) as (r' & -> & Hr' & Hrest). cbn [mbind outcome_bind].
  rewrite (IH r' Hr'), Hrest. cbn [mbind outcome_bind]. f_equal.
  change (sum_list (n :: ns)) with (n + sum_list ns)%nat. by rewrite take_take_drop.
Qed.

Lemma eb_encode_renders t v b : uints_ok v = true -> genTypeInfo t = Ret tt ->
  rlp_encode v t no_tags = Ret b -> Z.of_nat (length b) < 2 ^ 64 ->
  exists d, eb_encode encbuf_reset t v = Ret d /\ renders d b.
Proof.
  intros Hu Ht Hv Hb. pose proof (write_encodes v Hu t no_tags encbuf_reset) as Hw.
  rewrite Hv in Hw. destruct Hw as (d & E & Hd). exists d. split; [|auto].
  unfold eb_encode. rewrite Ht. cbn [mbind outcome_bind]. rewrite E. f_equal.
  unfold eb_concat. cbn. destruct d as [s h l]. cbn. f_equal.
  rewrite <- (map_id h) at 2. apply map_ext. by intros [].
Qed.

Lemma EncodeToBytes_encodes t v b : uints_ok v = true -> genTypeInfo t = Ret tt ->
  rlp_encode v t no_tags = Ret b -> Z.of_nat (length b) < 2 ^ 64 -> EncodeToBytes t v = Ret b.
Proof.
  intros Hu Ht Hv Hb. destruct (eb_encode_renders t v b Hu Ht Hv Hb) as (d & E & Hd).
  unfold EncodeToBytes. rewrite E. cbn [mbind outcome_bind]. by apply toBytes_renders.
Qed.

Lemma EncodeToReader_reads t v b : uints_ok v = true -> genTypeInfo t = Ret tt ->
  rlp_encode v t no_tags = Ret b -> Z.of_nat (length b) < 2 ^ 64 ->
  exists r, EncodeToReader t v = Ret (length b, r) /\
    forall ns, reads r ns = Ret (take (sum_list ns) b).
Proof.
  intros Hu Ht Hv Hb. destruct (eb_encode_renders t v b Hu Ht Hv Hb) as (d & E & Hd).
  unfold EncodeToReader. rewrite E. cbn [mbind outcome_bind]. rewrite (renders_size d b) by done.
  eexists. split; [done|]. intros ns. destruct (renders_merge d b Hd) as [Ho Hm].
  rewrite reads_pieces by (unfold reader_ok; cbn; by rewrite drop_0). do 2 f_equal.
  unfold rest_of. cbn. by rewrite drop_0, pieces_merge.
Qed.

Lemma Encode_writes t v b : uints_ok v = true -> genTypeInfo t = Ret tt ->
  rlp_encode v t no_tags = Ret b -> Z.of_nat (length b) < 2 ^ 64 ->
  exists ws, Encode t v = Ret ws /\ concat ws = b.
Proof.
  intros Hu Ht Hv Hb. destruct (eb_encode_renders t v b Hu Ht Hv Hb) as (d & E & Hd).
  unfold Encode. rewrite E. cbn [mbind outcome_bind]. by apply toWriter_renders.
Qed.

(** Whichever way it is asked for, the encoding of a value is the reference encoding, where the
    header of a list comes before its elements although the buffer only knows the size of the list
    after writing them: [EncodeToBytes] fills its output exactly, the writes of [Encode] concatenate
    to it, and the reader of [EncodeToReader] announces its length and hands it out over any
    sequence of reads. *)
Theorem encoders_agree (t : typ) (v : val) (b : bytes) :
  uints_ok v = true -> genTypeInfo t = Ret tt -> rlp_encode v t no_tags = Ret b ->
  Z.of_nat (length b) < 2 ^ 64 ->
  EncodeToBytes t v = Ret b /\
  (exists ws, Encode t v = Ret ws /\ concat ws = b) /\
  (exists r, EncodeToReader t v = Ret (length b, r) /\
     forall ns, reads r ns = Ret (take (sum_list ns) b)).
Proof.
  intros Hu Ht Hv Hb. split; [by apply EncodeToBytes_encodes|].
  split; [by apply Encode_writes|by apply EncodeToReader_reads].
Qed.

Definition pair_typ : typ :=
  TStruct [mk_field true "" (TUint 64); mk_field false "" TOther; mk_field true "tail" (TSlice TString)].

Definition pair_val : val :=
  VStruct [VUint 1024; VNil; VSeq [VString [Byte.x41]; VString (replicate 60 Byte.x42)]].

Lemma encoders_agree_witness :
  exists b, EncodeToBytes pair_typ pair_val = Ret b /\ length b = 68%nat /\
    exists r, EncodeToReader pair_typ pair_val = Ret (68%nat, r) /\
      reads r [1; 5; 100]%nat = Ret (take 106 b).
Proof.
  eexists (rlp_list _). destruct (encoders_agree pair_typ pair_val
    (rlp_list ([Byte.x82; Byte.x04; Byte.x00] ++ [Byte.x41] ++ rlp_string (replicate 60 Byte.x42))))
    as (H1 & _ & r & H2 & H3); [reflexivity|reflexivity|vm_compute; reflexivity|vm_compute; reflexivity|].
  split; [exact H1|]. split; [vm_compute; reflexivity|]. exists r. split; [exact H2|].
  apply (H3 [1; 5; 100]%nat).
Defined.
