(* ===== verification/RlpStream.v ===== *)
(** * RLP decoding

    [src/rlp/decode.go]: the stream with its limits and its stack of lists, the canonical-form
    checks, and the decoders chosen by the type of the target; [src/rlp/raw.go]: splitting
    encoded values without decoding them.

    A decoder returns the value it stores, decoding into a zero value.  Errors carry the
    message of the code without the type and the path that decorate it.  [make] panics for a
    length above [maxAlloc]; below it memory is taken to suffice. *)

From S2P Require Import Prelude BigInt Rlp.

(** ** Errors *)

Definition io_EOF : error := "EOF".
Definition ErrUnexpectedEOF : error := "unexpected EOF".
Definition EOL : error := "rlp: end of list".
Definition ErrExpectedString : error := "rlp: expected String or Byte".
Definition ErrExpectedList : error := "rlp: expected List".
Definition ErrCanonInt : error := "rlp: non-canonical integer format".
Definition ErrCanonSize : error := "rlp: non-canonical size information".
Definition ErrElemTooLarge : error := "rlp: element is larger than containing list".
Definition ErrValueTooLarge : error := "rlp: value size exceeds available input length".
Definition ErrMoreThanOneValue : error := "rlp: input contains more than one value".
Definition errNotInList : error := "rlp: call of ListEnd outside of any list".
Definition errNotAtEOL : error := "rlp: call of ListEnd not positioned at EOL".
Definition errUintOverflow : error := "rlp: uint overflow".
Definition errInvalidBool : error := "rlp: invalid boolean value".

(** A [decodeError] is told apart from the sentinels. *)
Definition decodeError (msg : string) : error := String.append "decode: " msg.
Definition tooLong : error := decodeError "input string too long".
Definition tooShort : error := decodeError "input string too short".
Definition tooFewInput : error := decodeError "input list has too few elements".
Definition tooFew : error := decodeError "too few elements".

(** No result within the fuel; not an error of the code. *)
Definition no_fuel : error := "(no result)".

Definition wrapStreamError (e : error) : error :=
  if decide (e = ErrCanonInt) then decodeError "non-canonical integer (leading zero bytes)"
  else if decide (e = ErrCanonSize) then decodeError "non-canonical size information"
  else if decide (e = ErrExpectedList) then decodeError "expected input list"
  else if decide (e = ErrExpectedString) then decodeError "expected input string or byte"
  else if decide (e = errUintOverflow) then tooLong
  else if decide (e = errNotAtEOL) then decodeError "input list has too many elements"
  else e.

(** ** The stream *)

Inductive Kind := KByte | KString | KList.

#[global] Instance Kind_eq_dec : EqDecision Kind.
Proof. solve_decision. Defined.

(** [s_kind = None] for [kind = -1]; the innermost list is the head of [s_stack], with the position
    in it and its size. *)
Record Stream := mk_stream {
  s_r : bytes;
  s_remaining : Z;
  s_limited : bool;
  s_kind : option Kind;
  s_size : Z;
  s_byteval : byte;
  s_kinderr : option error;
  s_stack : list (Z * Z)
}.

Definition set_kind (s : Stream) (k : option Kind) : Stream :=
  mk_stream (s_r s) (s_remaining s) (s_limited s) k (s_size s) (s_byteval s) (s_kinderr s) (s_stack s).
Definition set_kinderr (s : Stream) (e : option error) : Stream :=
  mk_stream (s_r s) (s_remaining s) (s_limited s) (s_kind s) (s_size s) (s_byteval s) e (s_stack s).
Definition set_byteval (s : Stream) (b : byte) : Stream :=
  mk_stream (s_r s) (s_remaining s) (s_limited s) (s_kind s) (s_size s) b (s_kinderr s) (s_stack s).
Definition set_ahead (s : Stream) (k : Kind) (size : Z) (e : option error) : Stream :=
  mk_stream (s_r s) (s_remaining s) (s_limited s) (Some k) size (s_byteval s) e (s_stack s).
(** [s.stack = st; s.kind = -1; s.size = 0] *)
Definition set_stack (s : Stream) (st : list (Z * Z)) : Stream :=
  mk_stream (s_r s) (s_remaining s) (s_limited s) None 0 (s_byteval s) (s_kinderr s) st.

(** Operations update the stream also when they fail. *)
Definition dec (A : Type) : Type := Stream -> outcome A * Stream.

#[global] Instance dec_ret : MRet dec := fun A a s => (Ret a, s).
#[global] Instance dec_bind : MBind dec := fun A B f m s =>
  match m s with
  | (Ret a, s) => f a s
  | (Err e, s) => (Err e, s)
  | (Panic, s) => (Panic, s)
  end.

Definition fail {A} (e : error) : dec A := fun s => (Err e, s).

(** [if err != nil { return f(err) }] *)
Definition map_err {A} (f : error -> error) (m : dec A) : dec A := fun s =>
  match m s with
  | (Err e, s) => (Err (f e), s)
  | other => other
  end.

Definition rearm : dec unit := fun s => (Ret tt, set_kind s None).

Definition u64 (z : Z) : Z := z mod 2 ^ 64.

(** [Reset(r, inputLimit)]; [slice]: the reader is a [bytes.Reader] or a [strings.Reader]. *)
Definition NewStream (r : bytes) (slice : bool) (inputLimit : Z) : Stream :=
  let limited := (0 <? inputLimit) || slice in
  let remaining := if 0 <? inputLimit then inputLimit
                   else if slice then Z.of_nat (length r) else 0 in
  mk_stream r remaining limited None 0 Byte.x00 None [].

Definition NewListStream (r : bytes) (slice : bool) (len : Z) : Stream :=
  set_ahead (NewStream r slice len) KList len None.

(** ** Reading *)

Definition willRead (n : Z) : dec unit := fun s =>
  let s := set_kind s None in
  match s_stack s with
  | (pos, size) :: st =>
      if u64 (size - pos) <? n then (Err ErrElemTooLarge, s)
      else
        let s := mk_stream (s_r s) (s_remaining s) (s_limited s) (s_kind s) (s_size s) (s_byteval s)
                   (s_kinderr s) ((u64 (pos + n), size) :: st) in
        if s_limited s then
          if s_remaining s <? n then (Err ErrValueTooLarge, s)
          else (Ret tt, mk_stream (s_r s) (s_remaining s - n) (s_limited s) (s_kind s) (s_size s)
                          (s_byteval s) (s_kinderr s) (s_stack s))
        else (Ret tt, s)
  | [] =>
      if s_limited s then
        if s_remaining s <? n then (Err ErrValueTooLarge, s)
        else (Ret tt, mk_stream (s_r s) (s_remaining s - n) (s_limited s) (s_kind s) (s_size s)
                        (s_byteval s) (s_kinderr s) (s_stack s))
      else (Ret tt, s)
  end.

(** [r.Read] until [n] bytes are there: what there is of the input is consumed. *)
Definition take_input (n : nat) : dec bytes := fun s =>
  let s' := mk_stream (drop n (s_r s)) (s_remaining s) (s_limited s) (s_kind s) (s_size s)
              (s_byteval s) (s_kinderr s) (s_stack s) in
  if (n <=? length (s_r s))%nat then (Ret (take n (s_r s)), s') else (Err ErrUnexpectedEOF, s').

Definition readFull (n : Z) : dec bytes := _ ← willRead n; take_input (Z.to_nat n).

Definition readByte : dec byte :=
  _ ← willRead 1;
  b ← take_input 1;
  match b with x :: _ => mret x | [] => fail ErrUnexpectedEOF end.

(** [readUint(size)] for [size <= 8]. *)
Definition readUint (size : Z) : dec Z :=
  if size =? 0 then _ ← rearm; mret 0
  else if size =? 1 then b ← readByte; mret (ub b)
  else
    b ← readFull size;
    match b with
    | x :: _ => if ub x =? 0 then fail ErrCanonSize else mret (be_val b)
    | [] => fail ErrCanonSize
    end.

(** [readKind] gives a kind and a size also when it fails. *)
Definition readSizeOf (k : Kind) (n : Z) (s : Stream) : Kind * Z * option error * Stream :=
  match readUint n s with
  | (Ret size, s) => (k, size, if size <? 56 then Some ErrCanonSize else None, s)
  | (Err e, s) => (k, 0, Some e, s)
  | (Panic, s) => (k, 0, None, s)
  end.

Definition readKind (s : Stream) : Kind * Z * option error * Stream :=
  match readByte s with
  | (Ret b, s) =>
      let b := ub b in
      let s := set_byteval s Byte.x00 in
      if b <? 0x80 then (KByte, 0, None, set_byteval s (u8 b))
      else if b <? 0xB8 then (KString, b - 0x80, None, s)
      else if b <? 0xC0 then readSizeOf KString (b - 0xB7) s
      else if b <? 0xF8 then (KList, b - 0xC0, None, s)
      else readSizeOf KList (b - 0xF7) s
  | (Err e, s) =>
      let e := match s_stack s with
               | [] => if decide (e = ErrUnexpectedEOF) then io_EOF
                       else if decide (e = ErrValueTooLarge) then io_EOF else e
               | _ => e
               end in
      (KByte, 0, Some e, s)
  | (Panic, s) => (KByte, 0, None, s)
  end.

Definition Stream_Kind : dec (Kind * Z) := fun s =>
  let answer s := match s_kinderr s with
                  | Some e => (Err e, s)
                  | None => match s_kind s with
                            | Some k => (Ret (k, s_size s), s)
                            | None => (Panic, s)
                            end
                  end in
  match s_kind s with
  | Some _ => answer s
  | None =>
      let s := set_kinderr s None in
      let at_end := match s_stack s with (pos, size) :: _ => pos =? size | [] => false end in
      if at_end then (Err EOL, s)
      else
        let '(k, size, e, s) := readKind s in
        let e := match e with
                 | Some e => Some e
                 | None =>
                     match s_stack s with
                     | [] => if s_limited s && (s_remaining s <? size)
                             then Some ErrValueTooLarge else None
                     | (pos, tsize) :: _ => if u64 (tsize - pos) <? size
                                            then Some ErrElemTooLarge else None
                     end
                 end in
        answer (set_ahead s k size e)
  end.

(** ** Typed reads *)

(** The longest slice of bytes the runtime makes, on 64-bit machines with addresses of 48 bits. *)
Abbreviation maxAlloc := (2 ^ 48).

(** [make([]byte, n)] *)
Definition make_bytes (n : Z) : dec unit := fun s => if maxAlloc <? n then (Panic, s) else (Ret tt, s).

(** [make([]byte, uint64(start)+size)] and the slice of it from [start]; the sum can wrap around. *)
Definition make_raw (start size : Z) : dec unit := fun s =>
  let n := u64 (start + size) in
  if (maxAlloc <? n) || (n <? start) then (Panic, s) else (Ret tt, s).

Definition get_byteval : dec byte := fun s => (Ret (s_byteval s), s).

Definition Stream_Bytes : dec bytes :=
  '(kind, size) ← Stream_Kind;
  match kind with
  | KByte => _ ← rearm; b ← get_byteval; mret [b]
  | KString =>
      _ ← make_bytes size;
      b ← readFull size;
      match b with
      | [x] => if ub x <? 128 then fail ErrCanonSize else mret b
      | _ => mret b
      end
  | KList => fail ErrExpectedString
  end.

Definition Stream_Raw : dec bytes :=
  '(kind, size) ← Stream_Kind;
  match kind with
  | KByte => _ ← rearm; b ← get_byteval; mret [b]
  | KString =>
      _ ← make_raw (Z.of_nat (headsize size)) size; b ← readFull size; mret (puthead 0x80 0xB7 size ++ b)
  | KList =>
      _ ← make_raw (Z.of_nat (headsize size)) size; b ← readFull size; mret (puthead 0xC0 0xF7 size ++ b)
  end.

Definition Stream_uint (maxbits : Z) : dec Z :=
  '(kind, size) ← Stream_Kind;
  match kind with
  | KByte =>
      b ← get_byteval;
      if ub b =? 0 then fail ErrCanonInt else _ ← rearm; mret (ub b)
  | KString =>
      if maxbits / 8 <? size then fail errUintOverflow
      else
        v ← map_err (fun e => if decide (e = ErrCanonSize) then ErrCanonInt else e) (readUint size);
        if (0 <? size) && (v <? 128) then fail ErrCanonSize else mret v
  | KList => fail ErrExpectedString
  end.

Definition Stream_Uint : dec Z := Stream_uint 64.

Definition Stream_Bool : dec bool :=
  num ← Stream_uint 8;
  if num =? 0 then mret false else if num =? 1 then mret true else fail errInvalidBool.

Definition Stream_List : dec Z :=
  '(kind, size) ← Stream_Kind;
  match kind with
  | KList => fun s => (Ret size, set_stack s ((0, size) :: s_stack s))
  | _ => fail ErrExpectedList
  end.

Definition Stream_ListEnd : dec unit := fun s =>
  match s_stack s with
  | [] => (Err errNotInList, s)
  | (pos, size) :: st =>
      if negb (pos =? size) then (Err errNotAtEOL, s)
      else (Ret tt, set_stack s (match st with
                                 | (pos', size') :: st' => (u64 (pos' + size), size') :: st'
                                 | [] => []
                                 end))
  end.

(** ** Decoders *)

(** The loop of [decodeSliceElems]: an element that reports the end of the list ends it. *)
Fixpoint decodeSliceElems (fuel : nat) (elemdec : dec val) : dec (list val) := fun s =>
  match fuel with
  | O => (Err no_fuel, s)
  | S fuel =>
      match elemdec s with
      | (Ret v, s) => (vs ← decodeSliceElems fuel elemdec; mret (v :: vs)) s
      | (Err e, s) => if decide (e = EOL) then (Ret [], s) else (Err e, s)
      | (Panic, s) => (Panic, s)
      end
  end.

Definition decodeListSlice (fuel : nat) (elemdec : dec val) : dec val :=
  size ← map_err wrapStreamError Stream_List;
  if size =? 0 then _ ← Stream_ListEnd; mret (VSeq [])
  else vs ← decodeSliceElems fuel elemdec; _ ← Stream_ListEnd; mret (VSeq vs).

Fixpoint decode_array_elems (n : nat) (elemdec : dec val) : dec (list val) := fun s =>
  match n with
  | O => (Ret [], s)
  | S n =>
      match elemdec s with
      | (Ret v, s) => (vs ← decode_array_elems n elemdec; mret (v :: vs)) s
      | (Err e, s) => (Err (if decide (e = EOL) then tooFewInput else e), s)
      | (Panic, s) => (Panic, s)
      end
  end.

Definition decodeListArray (n : nat) (elemdec : dec val) : dec val :=
  _ ← map_err wrapStreamError Stream_List;
  vs ← decode_array_elems n elemdec;
  _ ← map_err wrapStreamError Stream_ListEnd;
  mret (VSeq vs).

Definition decodeByteArray (vlen : nat) : dec val :=
  '(kind, size) ← Stream_Kind;
  match kind with
  | KByte =>
      if (vlen =? 0)%nat then fail tooLong
      else if (1 <? vlen)%nat then fail tooShort
      else fun s => match Stream_Uint s with
                    | (Ret bv, s) => (Ret (VBytes [u8 bv]), s)
                    | (_, s) => (Ret (VBytes [u8 0]), s)
                    end
  | KString =>
      if Z.of_nat vlen <? size then fail tooLong
      else if size <? Z.of_nat vlen then fail tooShort
      else
        b ← readFull (Z.of_nat vlen);
        match b with
        | [x] => if ub x <? 128 then fail (wrapStreamError ErrCanonSize) else mret (VBytes b)
        | _ => mret (VBytes b)
        end
  | KList => fail (wrapStreamError ErrExpectedString)
  end.

Definition decodeBigInt : dec val :=
  b ← map_err wrapStreamError Stream_Bytes;
  match b with
  | x :: _ => if ub x =? 0 then fail (wrapStreamError ErrCanonInt) else mret (VBig (SetBytes b))
  | [] => mret (VBig (SetBytes b))
  end.

Fixpoint decodeInterface (fuel : nat) : dec val :=
  match fuel with
  | O => fail no_fuel
  | S fuel =>
      '(kind, _) ← Stream_Kind;
      match kind with
      | KList => v ← decodeListSlice (S fuel) (decodeInterface fuel); mret (VIface (TSlice TInterface) v)
      | _ => b ← Stream_Bytes; mret (VIface (TSlice (TUint 8)) (VBytes b))
      end
  end.

(** [reflect.Zero] *)
Fixpoint zero (t : typ) : val :=
  match t with
  | TRaw => VRaw []
  | TBig => VBig 0
  | TUint _ => VUint 0
  | TBool => VBool false
  | TString => VString []
  | TSlice e => if isByte e then VBytes [] else VSeq []
  | TArray n e => if isByte e then VBytes (replicate n Byte.x00) else VSeq (replicate n (zero e))
  | TStruct fs => VStruct (map (fun f => zero (f_typ f)) fs)
  | TBigPtr | TPtr _ | TInterface | TOther => VNil
  end.

(** The loop of the decoder that [makeStructDecoder] makes, given the decoder of a field. *)
Definition decode_fields (decode : typ -> tags -> dec val) :=
  fix go (fs : list (field typ)) : dec (list val) :=
    match fs with
    | [] => mret []
    | f :: fs' =>
        if f_exported f then
          match parseStructTag f (match fs' with [] => true | _ => false end) with
          | Ret ts =>
              if ignored ts then vs ← go fs'; mret (zero (f_typ f) :: vs)
              else
                v ← map_err (fun e => if decide (e = EOL) then tooFew else e) (decode (f_typ f) ts);
                vs ← go fs'; mret (v :: vs)
          | Err e => fail e
          | Panic => fun s => (Panic, s)
          end
        else vs ← go fs'; mret (zero (f_typ f) :: vs)
    end.

(** The decoder of a type ([makeDecoder]).  [fuel] bounds the elements of a slice and the nesting
    of an interface value; the length of the input is enough. *)
Fixpoint decode (fuel : nat) (t : typ) (ts : tags) {struct t} : dec val :=
  match t with
  | TRaw => b ← Stream_Raw; mret (VRaw b)
  | TBigPtr | TBig => decodeBigInt
  | TUint bits => v ← map_err wrapStreamError (Stream_uint bits); mret (VUint v)
  | TBool => b ← map_err wrapStreamError Stream_Bool; mret (VBool b)
  | TString => b ← map_err wrapStreamError Stream_Bytes; mret (VString b)
  | TSlice e =>
      if isByte e then b ← map_err wrapStreamError Stream_Bytes; mret (VBytes b)
      else if tail ts then vs ← decodeSliceElems fuel (decode fuel e no_tags); mret (VSeq vs)
      else decodeListSlice fuel (decode fuel e no_tags)
  | TArray n e =>
      if isByte e then decodeByteArray n else decodeListArray n (decode fuel e no_tags)
  | TStruct fs =>
      _ ← map_err wrapStreamError Stream_List;
      vs ← decode_fields (decode fuel) fs;
      _ ← map_err wrapStreamError Stream_ListEnd;
      mret (VStruct vs)
  | TPtr e =>
      if nilOK ts then
        fun s =>
          match Stream_Kind s with
          | (Ret (kind, size), s) =>
              if (size =? 0) && bool_decide (kind <> KByte) then (Ret VNil, set_kind s None)
              else (v ← decode fuel e no_tags; mret (VPtr v)) s
          | (Err err, s) => (Err err, set_kind s None)
          | (Panic, s) => (Panic, s)
          end
      else v ← decode fuel e no_tags; mret (VPtr v)
  | TInterface => decodeInterface fuel
  | TOther => fail errNotSerializable
  end.

(** [Stream.Decode] into a pointer to a zero value of type [t]. *)
Definition Stream_Decode (t : typ) : dec val := fun s =>
  match genTypeInfo t with
  | Ret _ => decode (S (length (s_r s))) t no_tags s
  | Err e => (Err e, s)
  | Panic => (Panic, s)
  end.

Definition DecodeBytes (t : typ) (b : bytes) : outcome val :=
  match Stream_Decode t (NewStream b true (Z.of_nat (length b))) with
  | (Ret v, s) => if (0 <? length (s_r s))%nat then Err ErrMoreThanOneValue else Ret v
  | (Err e, _) => Err e
  | (Panic, _) => Panic
  end.

(** [Decode(r, val)] on a reader that is not a slice reader: the value and the rest of the input. *)
Definition Decode (t : typ) (r : bytes) : outcome (val * bytes) :=
  match Stream_Decode t (NewStream r false 0) with
  | (Ret v, s) => Ret (v, s_r s)
  | (Err e, _) => Err e
  | (Panic, _) => Panic
  end.

(** ** Splitting encoded values ([raw.go]) *)

Definition ListSize (contentSize : Z) : Z := u64 (Z.of_nat (headsize contentSize) + contentSize).

(** [readSize(b, slen)]: the eight cases of the code are big-endian sums of [slen] bytes. *)
Definition readSize (b : bytes) (slen : Z) : outcome Z :=
  if Z.of_nat (length b) <? slen then Err ErrUnexpectedEOF
  else
    let s := be_val (take (Z.to_nat slen) b) in
    x ← idx b 0;
    if (s <? 56) || (ub x =? 0) then Err ErrCanonSize else Ret s.

(** [readKind(buf)]: kind, size of the tag, size of the content. *)
Definition raw_readKind (buf : bytes) : outcome (Kind * Z * Z) :=
  match buf with
  | [] => Err ErrUnexpectedEOF
  | x :: rest =>
      let b := ub x in
      '(k, tagsize, contentsize) ←
        (if b <? 0x80 then Ret (KByte, 0, 1)
         else if b <? 0xB8 then
           let contentsize := b - 0x80 in
           if contentsize =? 1 then
             y ← idx buf 1;
             if ub y <? 128 then Err ErrCanonSize else Ret (KString, 1, contentsize)
           else Ret (KString, 1, contentsize)
         else if b <? 0xC0 then size ← readSize rest (b - 0xB7); Ret (KString, b - 0xB7 + 1, size)
         else if b <? 0xF8 then Ret (KList, 1, b - 0xC0)
         else size ← readSize rest (b - 0xF7); Ret (KList, b - 0xF7 + 1, size));
      if u64 (Z.of_nat (length buf) - tagsize) <? contentsize then Err ErrValueTooLarge
      else Ret (k, tagsize, contentsize)
  end.

Definition Split (b : bytes) : outcome (Kind * bytes * bytes) :=
  '(k, ts, cs) ← raw_readKind b;
  content ← slice b (Z.to_nat ts) (Z.to_nat (u64 (ts + cs)));
  rest ← slice b (Z.to_nat (u64 (ts + cs))) (length b);
  Ret (k, content, rest).

Definition SplitString (b : bytes) : outcome (bytes * bytes) :=
  '(k, content, rest) ← Split b;
  if decide (k = KList) then Err ErrExpectedString else Ret (content, rest).

Definition SplitList (b : bytes) : outcome (bytes * bytes) :=
  '(k, content, rest) ← Split b;
  if decide (k <> KList) then Err ErrExpectedList else Ret (content, rest).

(** The loop of [CountValues]; every iteration takes at least one byte. *)
Fixpoint count_loop (fuel : nat) (b : bytes) (i : nat) : outcome nat :=
  match b, fuel with
  | [], _ => Ret i
  | _, O => Panic
  | _, S fuel =>
      '(_, ts, cs) ← raw_readKind b;
      b ← slice b (Z.to_nat (u64 (ts + cs))) (length b);
      count_loop fuel b (S i)
  end.

Definition CountValues (b : bytes) : outcome nat := count_loop (length b) b 0.
