(* ===== verification/RlpProofs.v ===== *)
(** * RLP: decoding inverts encoding

    Reading a header back, the stream while it moves over the input, and the two directions:
    what the encoder writes is decoded to the same value, and what the decoder accepts is the
    encoding of its result. *)

From S2P Require Import Prelude BigInt Rlp RlpStream.

(** ** Headers *)

(** The header at the front of the input: kind, size, value of a single byte, length. *)
Definition parse_size (k : Kind) (n : Z) (r : bytes) : option (Kind * Z * byte * nat) :=
  let b := take (Z.to_nat n) r in
  let size := be_val b in
  match b with
  | x :: _ => if (length r <? Z.to_nat n)%nat || (ub x =? 0) || (size <? 56) then None
              else Some (k, size, Byte.x00, S (Z.to_nat n))
  | [] => None
  end.

Definition parse_head (r : bytes) : option (Kind * Z * byte * nat) :=
  match r with
  | [] => None
  | x :: r =>
      let b := ub x in
      if b <? 0x80 then Some (KByte, 0, x, 1%nat)
      else if b <? 0xB8 then Some (KString, b - 0x80, Byte.x00, 1%nat)
      else if b <? 0xC0 then parse_size KString (b - 0xB7) r
      else if b <? 0xF8 then Some (KList, b - 0xC0, Byte.x00, 1%nat)
      else parse_size KList (b - 0xF7) r
  end.

(** The header the encoder writes for a kind and a size. *)
Definition head_bytes (k : Kind) (size : Z) (bv : byte) : bytes :=
  match k with
  | KByte => [bv]
  | KString => puthead 0x80 0xB7 size
  | KList => puthead 0xC0 0xF7 size
  end.

Definition head_ok (k : Kind) (size : Z) (bv : byte) : Prop :=
  match k with
  | KByte => size = 0 /\ ub bv < 0x80
  | _ => 0 <= size < 2 ^ 64 /\ bv = Byte.x00
  end.

Lemma u64_small z : 0 <= z < 2 ^ 64 -> u64 z = z.
Proof. apply Z.mod_small. Qed.

Lemma Bytes_of_canonical b x l : b = x :: l -> ub x <> 0 -> Bytes (be_val b) = b.
Proof.
  intros -> Hx. apply be_val_inj.
  - rewrite length_Bytes. cbn [length]. apply byte_len_unique.
    pose proof (be_val_bound (x :: l)) as [_ Hu]. split; [|exact Hu].
    rewrite be_val_cons. pose proof (be_val_bound l). pose proof (ub_range x).
    pose proof (pow256_pos (length l)). nia.
  - unfold Bytes. rewrite be_val_fix_small; [apply Z.abs_eq, be_val_bound|].
    split; [lia|apply byte_len_bound].
Qed.

Lemma Bytes_head z : 0 < z -> exists x l, Bytes z = x :: l /\ ub x <> 0.
Proof.
  intros Hz. destruct (byte_len_pos z Hz) as (n & E & Hl & Hu).
  assert (length (Bytes z) = S n) as Hn by (by rewrite length_Bytes).
  pose proof (SetBytes_Bytes z ltac:(lia)) as Hs. unfold SetBytes in Hs.
  destruct (Bytes z) as [|x l]; [done|]. exists x, l. split; [done|]. intros H0.
  rewrite be_val_cons, H0 in Hs. pose proof (be_val_bound l) as [_ Hb].
  cbn in Hn. injection Hn as Hn. rewrite Hn in Hb. lia.
Qed.

Lemma byte_len_64 z : 0 < z < 2 ^ 64 -> (1 <= byte_len z <= 8)%nat.
Proof.
  intros Hz. destruct (byte_len_pos z ltac:(lia)) as (n & -> & Hl & _).
  split; [lia|]. apply Nat.nlt_ge. intros Hn.
  assert (256 ^ 8 <= 256 ^ Z.of_nat n) by (apply Z.pow_le_mono_r; lia). lia.
Qed.

(** A long header. *)
Lemma parse_size_spec k n r size bv h : 1 <= n <= 8 ->
  parse_size k n r = Some (k, size, bv, h) <->
  56 <= size < 2 ^ 64 /\ bv = Byte.x00 /\ h = S (Z.to_nat n) /\
  Z.of_nat (byte_len size) = n /\ exists rest, r = Bytes size ++ rest.
Proof.
  intros Hn. unfold parse_size. split.
  - destruct (take (Z.to_nat n) r) as [|x l] eqn:E; [done|].
    destruct (Nat.ltb_spec (length r) (Z.to_nat n)); [done|].
    destruct (Z.eqb_spec (ub x) 0); [done|].
    destruct (Z.ltb_spec (be_val (x :: l)) 56); [done|]. cbn [orb]. intros [= <- <- <-].
    assert (length (x :: l) = Z.to_nat n) as Hl by (rewrite <- E, length_take; lia).
    pose proof (Bytes_of_canonical (x :: l) x l eq_refl ltac:(done)) as HB.
    pose proof (be_val_bound (x :: l)) as [_ Hu].
    split_and!; [done| |done|done| |].
    + rewrite Hl in Hu. assert (256 ^ Z.of_nat (Z.to_nat n) <= 256 ^ 8) by (apply Z.pow_le_mono_r; lia). lia.
    + rewrite <- length_Bytes, HB, Hl. lia.
    + exists (drop (Z.to_nat n) r). by rewrite HB, <- E, take_drop.
  - intros (Hs & -> & -> & Hb & rest & ->).
    assert (length (Bytes size) = Z.to_nat n) as Hl by (rewrite length_Bytes; lia).
    destruct (Bytes_head size ltac:(lia)) as (x & l & E & Hx).
    rewrite take_app_length' by done.
    pose proof (SetBytes_Bytes size ltac:(lia)) as HS. unfold SetBytes in HS. rewrite HS.
    rewrite length_app, Hl. rewrite E.
    destruct (Nat.ltb_spec (Z.to_nat n + length rest) (Z.to_nat n)); [lia|].
    destruct (Z.eqb_spec (ub x) 0); [done|]. destruct (Z.ltb_spec size 56); [lia|]. done.
Qed.

Lemma puthead_long small large size : 56 <= size < 2 ^ 64 ->
  puthead small large size = u8 (large + Z.of_nat (byte_len size)) :: Bytes size.
Proof.
  intros Hs. unfold puthead. destruct (Z.ltb_spec size 56); [lia|].
  by rewrite putint_Bytes, length_Bytes by lia.
Qed.

Lemma puthead_short small large size : 0 <= size < 56 ->
  puthead small large size = [u8 (small + size)].
Proof. intros Hs. unfold puthead. destruct (Z.ltb_spec size 56); [done|lia]. Qed.

(** Decides the comparisons of the goal. *)
Ltac z_cases :=
  repeat match goal with
  | |- context [?a <? ?b] => destruct (Z.ltb_spec a b); try lia
  end.

Lemma parse_head_sound r k size bv h : parse_head r = Some (k, size, bv, h) ->
  head_ok k size bv /\ h = length (head_bytes k size bv) /\ exists rest, r = head_bytes k size bv ++ rest.
Proof.
  assert (forall k' n, 1 <= n <= 8 -> forall x r large, ub x = large + n ->
    parse_size k' n r = Some (k, size, bv, h) ->
    (56 <= size < 2 ^ 64 /\ bv = Byte.x00) /\ k = k' /\ forall small,
    h = length (puthead small large size) /\ exists rest, x :: r = puthead small large size ++ rest) as L.
  { clear. intros k' n Hn x r large Hx E. assert (k = k') as -> by (unfold parse_size in E; go_cases).
    apply parse_size_spec in E as (Hs & -> & -> & Hb & rest & ->); [|lia].
    split_and!; [lia|lia|done|done|]. intros small. rewrite puthead_long by lia.
    cbn [length]. rewrite length_Bytes. split; [lia|]. exists rest.
    replace (large + Z.of_nat (byte_len size)) with (ub x) by lia. by rewrite u8_ub. }
  destruct r as [|x r]; [done|]. cbn [parse_head]. pose proof (ub_range x) as Hx. z_cases.
  - intros [= <- <- <- <-]. split_and!; [done|done|by exists r].
  - intros [= <- <- <- <-]. cbn [head_ok head_bytes]. rewrite puthead_short by lia.
    split_and!; [lia|lia|done|done|]. exists r.
    replace (0x80 + (ub x - 0x80)) with (ub x) by lia. by rewrite u8_ub.
  - intros E. destruct (L KString (ub x - 0xB7) ltac:(lia) x _ 0xB7 ltac:(lia) E) as ((Hs & ->) & -> & HL).
    destruct (HL 0x80). cbn [head_ok head_bytes]. split_and!; try done; lia.
  - intros [= <- <- <- <-]. cbn [head_ok head_bytes]. rewrite puthead_short by lia.
    split_and!; [lia|lia|done|done|]. exists r.
    replace (0xC0 + (ub x - 0xC0)) with (ub x) by lia. by rewrite u8_ub.
  - intros E. destruct (L KList (ub x - 0xF7) ltac:(lia) x _ 0xF7 ltac:(lia) E) as ((Hs & ->) & -> & HL).
    destruct (HL 0xC0). cbn [head_ok head_bytes]. split_and!; try done; lia.
Qed.

Lemma parse_head_complete k size bv rest : head_ok k size bv ->
  parse_head (head_bytes k size bv ++ rest) = Some (k, size, bv, length (head_bytes k size bv)).
Proof.
  intros Hok. destruct k; cbn [head_ok head_bytes] in *.
  - destruct Hok as [-> Hb]. cbn [parse_head app]. by z_cases.
  - destruct Hok as [Hs ->]. destruct (Z.ltb_spec size 56).
    + rewrite puthead_short by lia. cbn [app parse_head length]. rewrite ub_u8_small by lia.
      z_cases. do 4 f_equal. lia.
    + pose proof (byte_len_64 size ltac:(lia)). rewrite puthead_long by lia.
      cbn [app parse_head length]. rewrite ub_u8_small by lia. z_cases.
      apply parse_size_spec; [lia|]. rewrite length_Bytes.
      split_and!; [lia|lia|done|lia|lia|by exists rest].
  - destruct Hok as [Hs ->]. destruct (Z.ltb_spec size 56).
    + rewrite puthead_short by lia. cbn [app parse_head length]. rewrite ub_u8_small by lia.
      z_cases. do 4 f_equal. lia.
    + pose proof (byte_len_64 size ltac:(lia)). rewrite puthead_long by lia.
      cbn [app parse_head length]. rewrite ub_u8_small by lia. z_cases.
      apply parse_size_spec; [lia|]. rewrite length_Bytes.
      split_and!; [lia|lia|done|lia|lia|by exists rest].
Qed.

(** ** Moving over the input *)

Definition ready (s : Stream) : Prop := s_kind s = None.

(** Positions are within their lists; the limit is not negative. *)
Definition stream_ok (s : Stream) : Prop :=
  Forall (fun '(pos, size) => 0 <= pos <= size /\ size < 2 ^ 64) (s_stack s) /\
  (s_limited s = true -> 0 <= s_remaining s).

(** The innermost list, the limit and the input allow [n] more bytes. *)
Definition room (s : Stream) (n : Z) : Prop :=
  match s_stack s with (pos, size) :: _ => n <= size - pos | [] => True end /\
  (s_limited s = true -> n <= s_remaining s) /\ n <= Z.of_nat (length (s_r s)).

Definition advance (n : Z) (s : Stream) : Stream :=
  mk_stream (drop (Z.to_nat n) (s_r s))
    (if s_limited s then s_remaining s - n else s_remaining s) (s_limited s) None
    (s_size s) (s_byteval s) (s_kinderr s)
    (match s_stack s with (pos, size) :: st => (pos + n, size) :: st | [] => [] end).

Lemma advance_ok s n : stream_ok s -> 0 <= n -> room s n -> stream_ok (advance n s).
Proof.
  intros [Hst Hl] Hn (H1 & H2 & _). split; cbn.
  - destruct (s_stack s) as [|[pos size] st]; [done|]. inversion Hst as [|? ? Hp Hst']; subst.
    constructor; [lia|done].
  - intros Hlim. rewrite Hlim. specialize (H2 Hlim). lia.
Qed.

Lemma advance_advance s m n : 0 <= m -> 0 <= n -> advance n (advance m s) = advance (m + n) s.
Proof.
  intros Hm Hn. unfold advance. cbn. rewrite drop_drop. f_equal.
  - f_equal. lia.
  - destruct (s_limited s); lia.
  - destruct (s_stack s) as [|[pos size] st]; [done|]. do 2 f_equal. lia.
Qed.

Lemma room_advance s m n : 0 <= m -> 0 <= n ->
  room s m -> room (advance m s) n <-> room s (m + n).
Proof.
  intros Hm Hn (H1 & H2 & H3). unfold room. cbn. rewrite length_drop.
  destruct (s_stack s) as [|[pos size] st], (s_limited s); intuition lia.
Qed.

(** Ends a case of [readFull]: the read succeeds and there is room, or neither. *)
Ltac read_case :=
  split;
  [ intros E; first [discriminate E
                    |injection E as <- <-; split_and!; first [done | intros; first [congruence | lia]]]
  | intros ([? [? ?]] & -> & ->);
    repeat match goal with H : true = true -> _ |- _ => specialize (H eq_refl) end;
    first [reflexivity | exfalso; lia] ].

Lemma readFull_iff s n b s' : stream_ok s -> 0 <= n ->
  readFull n s = (Ret b, s') <->
  room s n /\ b = take (Z.to_nat n) (s_r s) /\ s' = advance n s.
Proof.
  destruct s as [r rem lim kind size0 bv err stack].
  intros [Hst Hl] Hn. unfold readFull, room, willRead, take_input, advance, mbind, dec_bind. cbn in *.
  destruct stack as [|[pos size] st]; cbn.
  - destruct lim; cbn; [destruct (Z.ltb_spec rem n); [read_case|]; cbn|];
      (destruct (Nat.leb_spec (Z.to_nat n) (length r)); read_case).
  - inversion Hst as [|? ? Hp _]; subst. unfold u64. rewrite (Z.mod_small (size - pos)) by lia.
    destruct (Z.ltb_spec (size - pos) n); [read_case|]. rewrite Z.mod_small by lia.
    destruct lim; cbn; [destruct (Z.ltb_spec rem n); [read_case|]; cbn|];
      (destruct (Nat.leb_spec (Z.to_nat n) (length r)); read_case).
Qed.

Lemma readByte_iff s x s' : stream_ok s ->
  readByte s = (Ret x, s') <-> room s 1 /\ (exists r, s_r s = x :: r) /\ s' = advance 1 s.
Proof.
  intros Hs. assert (readByte s = (b ← readFull 1;
    match b with x :: _ => mret x | [] => fail ErrUnexpectedEOF end) s) as ->.
  { unfold readByte, readFull, mbind, dec_bind. by destruct (willRead 1 s) as [[]]. }
  unfold mbind, dec_bind. destruct (readFull 1 s) as [[b|e|] s1] eqn:E.
  - apply readFull_iff in E as (Hr & -> & ->); [|done|lia].
    destruct (s_r s) as [|y r] eqn:Er; [by destruct Hr as (_ & _ & H3); rewrite Er in H3; cbn in H3; lia|].
    cbn. split; [intros [= <- <-]; eauto|]. intros (_ & (? & [= -> _]) & ->). done.
  - split; [done|]. intros (Hr & (r & Er) & ->).
    assert (readFull 1 s = (Ret (take 1 (s_r s)), advance 1 s)) as E' by (by apply readFull_iff).
    congruence.
  - split; [done|]. intros (Hr & (r & Er) & ->).
    assert (readFull 1 s = (Ret (take 1 (s_r s)), advance 1 s)) as E' by (by apply readFull_iff).
    congruence.
Qed.

(** Reading never panics. *)
Lemma readFull_no_panic n s : fst (readFull n s) <> Panic.
Proof.
  unfold readFull, willRead, take_input, mbind, dec_bind. destruct s as [r rem lim ? ? ? ? stack]. cbn.
  destruct stack as [|[pos size] st], lim; cbn; repeat (case_match; cbn in *; simplify_eq/=); done.
Qed.

Lemma readByte_no_panic s : fst (readByte s) <> Panic.
Proof.
  pose proof (readFull_no_panic 1 s) as H. unfold readByte, readFull, mbind, dec_bind in *.
  destruct (willRead 1 s) as [[]]; [|done..]. cbn in *.
  change (Z.to_nat 1) with 1%nat in H. by destruct (take_input 1 s0) as [[[|x l]|e|]].
Qed.

Lemma readUint_iff n s v s' : stream_ok s -> 1 <= n <= 8 ->
  readUint n s = (Ret v, s') <->
  room s n /\ s' = advance n s /\ exists x l, take (Z.to_nat n) (s_r s) = x :: l /\
    v = be_val (x :: l) /\ (n = 1 \/ ub x <> 0).
Proof.
  intros Hs Hn. unfold readUint. destruct (Z.eqb_spec n 0); [lia|].
  destruct (Z.eqb_spec n 1) as [->|Hn1].
  - unfold mbind, dec_bind. destruct (readByte s) as [[x|e|] s1] eqn:E.
    + apply readByte_iff in E as (Hr & (r & Er) & ->); [|done]. rewrite Er. cbn. split.
      * intros [= <- <-]. split_and!; [done|done|]. exists x, []. split_and!; auto.
      * intros (_ & -> & y & l & [= <- <-] & -> & _). done.
    + split; [done|]. intros (Hr & -> & x & l & Ht & _).
      assert (readByte s = (Ret x, advance 1 s)); [|congruence]. apply readByte_iff; [done|].
      split_and!; [done| |done]. destruct (s_r s); [done|]. cbn in Ht. injection Ht as -> _. eauto.
    + by pose proof (readByte_no_panic s) as Hp; rewrite E in Hp.
  - unfold mbind, dec_bind. destruct (readFull n s) as [[b|e|] s1] eqn:E.
    + apply readFull_iff in E as (Hr & -> & ->); [|done|lia].
      destruct (take (Z.to_nat n) (s_r s)) as [|x l] eqn:Et.
      { exfalso. apply (f_equal length) in Et. destruct Hr as (_ & _ & H3).
        rewrite length_take in Et. cbn in Et. lia. }
      destruct (Z.eqb_spec (ub x) 0).
      * split; [done|]. intros (_ & _ & y & l' & [= <- <-] & _ & [?|?]); [lia|done].
      * split; [intros [= <- <-]; split_and!; eauto 8|].
        intros (_ & -> & y & l' & [= <- <-] & -> & _). done.
    + split; [done|]. intros (Hr & -> & x & l & Ht & _).
      assert (readFull n s = (Ret (x :: l), advance n s)); [|congruence].
      apply readFull_iff; [done|lia|]. by rewrite Ht.
    + by pose proof (readFull_no_panic n s) as Hp; rewrite E in Hp.
Qed.

Lemma readUint_no_panic n s : fst (readUint n s) <> Panic.
Proof.
  unfold readUint. repeat (case_match; [done|]).
  unfold mbind, dec_bind. case_match.
  - pose proof (readByte_no_panic s). destruct (readByte s) as [[]]; naive_solver.
  - pose proof (readFull_no_panic n s). destruct (readFull n s) as [[[|x l]|e|]]; try naive_solver.
    by destruct (ub x =? 0).
Qed.

Lemma readSizeOf_iff k n s k' size s' : stream_ok s -> 1 <= n <= 8 ->
  readSizeOf k n s = (k', size, None, s') <->
  k' = k /\ parse_size k n (s_r s) = Some (k, size, Byte.x00, S (Z.to_nat n)) /\
  room s n /\ s' = advance n s.
Proof.
  intros Hs Hn. unfold readSizeOf, parse_size. split.
  - destruct (readUint n s) as [[v|e|] s1] eqn:E; [|done|].
    + apply readUint_iff in E as (Hr & -> & x & l & Ht & -> & Hx); [|done..]. rewrite Ht.
      destruct (Z.ltb_spec (be_val (x :: l)) 56) as [|H56]; [done|]. intros [= <- <- <-].
      destruct (Nat.ltb_spec (length (s_r s)) (Z.to_nat n)); [destruct Hr as (_ & _ & ?); lia|].
      destruct (Z.eqb_spec (ub x) 0) as [Hx0|]; [|done]. exfalso. destruct Hx as [->|]; [|done].
      destruct (s_r s) as [|y r]; [done|]. change (Z.to_nat 1) with 1%nat in Ht.
      cbn [take] in Ht. rewrite firstn_O in Ht. injection Ht as -> <-.
      rewrite be_val_cons, Hx0, be_val_nil in H56. lia.
    + by pose proof (readUint_no_panic n s) as Hp; rewrite E in Hp.
  - intros (-> & Hp & Hr & ->). destruct (take (Z.to_nat n) (s_r s)) as [|x l] eqn:Et; [done|].
    destruct (_ || _ || _) eqn:Eb; [done|]. injection Hp as <-.
    apply orb_false_elim in Eb as [[_ Hx]%orb_false_elim H56].
    assert (readUint n s = (Ret (be_val (x :: l)), advance n s)) as ->.
    { apply readUint_iff; [done..|]. split_and!; [done|done|]. exists x, l.
      split_and!; [done|done|]. right. by apply Z.eqb_neq. }
    by rewrite H56.
Qed.

Lemma room_mono s m n : room s m -> n <= m -> room s n.
Proof.
  intros (R1 & R2 & R3) Hn. split_and!; [|intros Hl; specialize (R2 Hl); lia|lia].
  destruct (s_stack s) as [|[]]; [done|lia].
Qed.

Lemma head_bytes_cons k size bv : exists x l, head_bytes k size bv = x :: l.
Proof.
  unfold head_bytes, puthead. destruct k; [eauto|destruct (size <? 56); eauto..].
Qed.

(** The size of a long header, after its first byte. *)
Lemma readSizeOf_head s k0 n k size s' : stream_ok s -> 1 <= n <= 8 -> room s 1 ->
  readSizeOf k0 n (set_byteval (advance 1 s) Byte.x00) = (k, size, None, s') <->
  exists bv h, parse_size k0 n (drop 1 (s_r s)) = Some (k, size, bv, h) /\ room s (Z.of_nat h) /\
    s' = set_byteval (advance (Z.of_nat h) s) bv.
Proof.
  intros Hs Hn H1.
  assert (stream_ok (set_byteval (advance 1 s) Byte.x00)) as Hs1 by (by apply advance_ok).
  rewrite readSizeOf_iff by done. change (s_r (set_byteval _ _)) with (drop 1 (s_r s)).
  change (room (set_byteval (advance 1 s) Byte.x00) n) with (room (advance 1 s) n).
  rewrite room_advance by (done || lia).
  change (advance n (set_byteval (advance 1 s) Byte.x00)) with
    (set_byteval (advance n (advance 1 s)) Byte.x00). rewrite advance_advance by lia.
  assert (Z.of_nat (S (Z.to_nat n)) = 1 + n) as Eh by lia. split.
  - intros (-> & Hp & Hr & ->). eexists _, _. split; [exact Hp|]. by rewrite Eh.
  - intros (bv & h & Hp & Hr & ->).
    assert (k = k0) as -> by (unfold parse_size in Hp; go_cases).
    pose proof Hp as (_ & -> & -> & _)%parse_size_spec; [|lia]. by rewrite Eh in *.
Qed.

Lemma readKind_iff s k size s' : stream_ok s ->
  readKind s = (k, size, None, s') <->
  exists bv h, parse_head (s_r s) = Some (k, size, bv, h) /\ room s (Z.of_nat h) /\
    s' = set_byteval (advance (Z.of_nat h) s) bv.
Proof.
  intros Hs. unfold readKind. destruct (readByte s) as [[x|e|] s1] eqn:E.
  - apply readByte_iff in E as (Hr & (r & Er) & ->); [|done].
    pose proof (fun k0 n Hn => readSizeOf_head s k0 n k size s' Hs Hn Hr) as Hlong.
    rewrite Er in Hlong |- *. cbn [parse_head]. pose proof (ub_range x).
    assert (forall k0 sz bv0,
      (k0, sz, @None error, set_byteval (advance 1 s) bv0) = (k, size, None, s') <->
      exists bv h, Some (k0, sz, bv0, 1%nat) = Some (k, size, bv, h) /\ room s (Z.of_nat h) /\
        s' = set_byteval (advance (Z.of_nat h) s) bv) as Hshort.
    { intros. split; [intros [= <- <- <-]; eauto 8|]. intros (bv & h & [= <- <- <- <-] & _ & ->). done. }
    z_cases; [|apply Hshort| |apply Hshort|].
    + rewrite u8_ub. apply (Hshort KByte 0 x).
    + apply Hlong. lia.
    + apply Hlong. lia.
  - split; [done|]. intros (bv & h & Hp & Hr & _). exfalso.
    apply parse_head_sound in Hp as (Hok & -> & rest & Er).
    destruct (head_bytes_cons k size bv) as (x & l & Eh). rewrite Eh in Hr, Er.
    assert (readByte s = (Ret x, advance 1 s)); [|congruence]. apply readByte_iff; [done|].
    split_and!; [|by eexists|done]. eapply room_mono; [exact Hr|]. cbn. lia.
  - by pose proof (readByte_no_panic s) as Hp; rewrite E in Hp.
Qed.

(** ** What is ahead *)

Definition peek (k : Kind) (size : Z) (bv : byte) (s : Stream) : Stream :=
  mk_stream (s_r s) (s_remaining s) (s_limited s) (Some k) size bv None (s_stack s).

(** The check of the announced size in [Kind]. *)
Definition size_fits (s : Stream) (size : Z) : Prop :=
  match s_stack s with
  | (pos, tsize) :: _ => size <= tsize - pos
  | [] => s_limited s = true -> size <= s_remaining s
  end.

Lemma size_check s size : stream_ok s ->
  match s_stack s with
  | [] => if s_limited s && (s_remaining s <? size) then Some ErrValueTooLarge else None
  | (pos, tsize) :: _ => if u64 (tsize - pos) <? size then Some ErrElemTooLarge else None
  end = None <-> size_fits s size.
Proof.
  intros [Hst _]. unfold size_fits. destruct (s_stack s) as [|[pos tsize] st].
  - destruct (s_limited s); cbn [andb]; [|split; [intros _ [=]|done]].
    destruct (Z.ltb_spec (s_remaining s) size).
    + split; [done|]. intros H'. specialize (H' eq_refl). lia.
    + split; [intros _ _; lia|done].
  - inversion Hst as [|? ? Hpos _]; subst. unfold u64. rewrite Z.mod_small by lia.
    destruct (Z.ltb_spec (tsize - pos) size); split; (done || lia).
Qed.

(** There is no room for a header at the end of a list. *)
Lemma room_not_end s n : room s n -> 1 <= n ->
  match s_stack s with (pos, tsize) :: _ => pos =? tsize | [] => false end = false.
Proof.
  intros (R1 & _) Hn. destruct (s_stack s) as [|[pos tsize] st]; [done|]. apply Z.eqb_neq. lia.
Qed.

Lemma parse_head_pos r k size bv h : parse_head r = Some (k, size, bv, h) -> 1 <= Z.of_nat h.
Proof.
  intros (_ & -> & _)%parse_head_sound. destruct (head_bytes_cons k size bv) as (x & l & ->). cbn. lia.
Qed.

Lemma Kind_iff s k size s' : stream_ok s -> ready s ->
  Stream_Kind s = (Ret (k, size), s') <->
  exists bv h, parse_head (s_r s) = Some (k, size, bv, h) /\ room s (Z.of_nat h) /\
    size_fits (advance (Z.of_nat h) s) size /\ s' = peek k size bv (advance (Z.of_nat h) s).
Proof.
  intros Hs Hk. unfold Stream_Kind. rewrite Hk. set (s0 := set_kinderr s None).
  assert (stream_ok s0) as Hs0 by done.
  destruct (match s_stack s0 with (pos, tsize) :: _ => pos =? tsize | [] => false end) eqn:Ee.
  { split; [done|]. intros (bv & h & Hp & Hr & _).
    pose proof (room_not_end s _ Hr (parse_head_pos _ _ _ _ _ Hp)) as Hn. unfold s0 in Ee.
    cbn in Ee. congruence. }
  clear Ee. destruct (readKind s0) as [[[k1 size1] e] s1] eqn:Er. destruct e as [e|].
  { cbn. split; [done|]. intros (bv & h & Hp & Hr & _).
    pose proof (readKind_iff s0 k size (set_byteval (advance (Z.of_nat h) s0) bv) Hs0) as [_ H2].
    rewrite Er in H2. discriminate H2. by exists bv, h. }
  apply readKind_iff in Er as (bv & h & Hp & Hr & ->); [|done].
  change (s_r s0) with (s_r s) in Hp. change (room s0) with (room s) in Hr.
  pose proof (size_check (advance (Z.of_nat h) s) size1
                (advance_ok s (Z.of_nat h) Hs ltac:(lia) Hr)) as Hfit. cbn in Hfit |- *.
  match goal with |- context [set_ahead _ _ _ ?e] => destruct e eqn:Ec end; cbn.
  - split; [done|]. intros (bv' & h' & Hp' & Hr' & Hf & _). exfalso.
    rewrite Hp in Hp'. injection Hp' as <- <- <- <-. apply Hfit in Hf. congruence.
  - split.
    + intros [= <- <- <-]. exists bv, h. split_and!; [done|done|by apply Hfit|done].
    + intros (bv' & h' & Hp' & _ & _ & ->). rewrite Hp in Hp'. by injection Hp' as <- <- <- <-.
Qed.

(** ** Consuming bytes

    [consumed s b s']: [b] is the next input of [s], it fits, and [s'] is [s] after it, up to what
    the stream remembers of the last header. *)

Definition norm (s : Stream) : Stream :=
  mk_stream (s_r s) (s_remaining s) (s_limited s) (s_kind s) 0 Byte.x00 None (s_stack s).

Definition can_read (s : Stream) (b : bytes) : Prop :=
  (exists rest, s_r s = b ++ rest) /\ room s (Z.of_nat (length b)).

Definition consumed (s : Stream) (b : bytes) (s' : Stream) : Prop :=
  can_read s b /\ norm s' = norm (advance (Z.of_nat (length b)) s).

Lemma norm_eq s1 s2 : norm s1 = norm s2 ->
  s_r s1 = s_r s2 /\ s_remaining s1 = s_remaining s2 /\ s_limited s1 = s_limited s2 /\
  s_kind s1 = s_kind s2 /\ s_stack s1 = s_stack s2.
Proof. by intros [= -> -> -> -> ->]. Qed.

Lemma norm_advance n s1 s2 : norm s1 = norm s2 -> norm (advance n s1) = norm (advance n s2).
Proof.
  intros (H1 & H2 & H3 & _ & H5)%norm_eq. unfold norm, advance. cbn. by rewrite H1, H2, H3, H5.
Qed.

Lemma norm_ok s1 s2 : norm s1 = norm s2 -> stream_ok s2 -> stream_ok s1.
Proof. intros (_ & H2 & H3 & _ & H5)%norm_eq. unfold stream_ok. by rewrite H2, H3, H5. Qed.

Lemma norm_room s1 s2 n : norm s1 = norm s2 -> room s1 n <-> room s2 n.
Proof. intros (H1 & H2 & H3 & _ & H5)%norm_eq. unfold room. by rewrite H1, H2, H3, H5. Qed.

Lemma consumed_ready s b s' : consumed s b s' -> ready s'.
Proof. by intros [_ (_ & _ & _ & Hk & _)%norm_eq]. Qed.

Lemma consumed_ok s b s' : stream_ok s -> consumed s b s' -> stream_ok s'.
Proof.
  intros Hs [[_ Hr] Hn]. eapply norm_ok; [exact Hn|]. apply advance_ok; [done|lia|done].
Qed.

Lemma consumed_input s b s' : consumed s b s' -> s_r s = b ++ s_r s'.
Proof.
  intros [[[rest Hr] _] (Hr' & _)%norm_eq]. rewrite Hr', Hr. cbn.
  rewrite Hr, Nat2Z.id. by rewrite drop_app_length.
Qed.

Lemma consumed_nil s : ready s -> stream_ok s -> consumed s [] s.
Proof.
  intros Hk [Hst Hl]. split; [split; [by exists (s_r s)|]|].
  - unfold room. cbn. split_and!; [|done|lia].
    destruct (s_stack s) as [|[pos size] st]; [done|]. inversion Hst; subst. lia.
  - unfold norm, advance. cbn. rewrite Hk, drop_0. f_equal; [by destruct (s_limited s); lia|].
    destruct (s_stack s) as [|[pos size] st]; [done|]. by rewrite Z.add_0_r.
Qed.

Lemma consumed_app s a s1 b s2 : consumed s a s1 -> consumed s1 b s2 -> consumed s (a ++ b) s2.
Proof.
  intros H1 H2. pose proof (consumed_input _ _ _ H1) as E1. pose proof (consumed_input _ _ _ H2) as E2.
  destruct H1 as [[_ R1] N1], H2 as [[_ R2] N2].
  assert (Z.of_nat (length (a ++ b)) = Z.of_nat (length a) + Z.of_nat (length b)) as El
    by (rewrite length_app; lia). split; [split|].
  - exists (s_r s2). by rewrite E1, E2, app_assoc.
  - rewrite El. apply room_advance; [lia|lia|done|]. by rewrite <- (norm_room _ _ _ N1).
  - rewrite N2, El, <- advance_advance by lia. by apply norm_advance.
Qed.

Lemma can_read_app s a b : can_read s (a ++ b) ->
  can_read s a /\ forall s1, consumed s a s1 -> can_read s1 b.
Proof.
  intros [[rest Hr] Hroom]. assert (room s (Z.of_nat (length a))) as Ra.
  { eapply room_mono; [exact Hroom|]. rewrite length_app. lia. }
  rewrite <- app_assoc in Hr. split; [split; [by eexists|done]|].
  intros s1 H1. pose proof (consumed_input _ _ _ H1) as E. split.
  - exists rest. rewrite Hr in E. by apply app_inv_head in E.
  - destruct H1 as [_ N]. rewrite (norm_room _ _ _ N). apply room_advance; [lia|lia|done|].
    by rewrite length_app, Nat2Z.inj_add in Hroom.
Qed.

Lemma head_can_read s k size bv h : stream_ok s ->
  parse_head (s_r s) = Some (k, size, bv, h) -> room s (Z.of_nat h) ->
  head_ok k size bv /\ h = length (head_bytes k size bv) /\
  consumed s (head_bytes k size bv) (advance (Z.of_nat h) s).
Proof.
  intros Hs (Hok & -> & rest & Hr)%parse_head_sound Hroom. split; [done|]. split; [done|].
  split; [|done]. split; [by exists rest|done].
Qed.

(** A value of one byte. *)
Lemma byte_sound s size s1 : stream_ok s -> ready s -> Stream_Kind s = (Ret (KByte, size), s1) ->
  size = 0 /\ ub (s_byteval s1) < 0x80 /\ consumed s [s_byteval s1] (set_kind s1 None).
Proof.
  intros Hs Hk E. apply Kind_iff in E as (bv & h & Hp & Hr & _ & ->); [|done..].
  destruct (head_can_read s _ _ _ _ Hs Hp Hr) as ([-> Hb] & _ & Hc). split_and!; [done|done|exact Hc].
Qed.

Lemma byte_complete s x : stream_ok s -> ready s -> ub x < 0x80 -> can_read s [x] ->
  exists s1, Stream_Kind s = (Ret (KByte, 0), s1) /\ s_byteval s1 = x /\
    consumed s [x] (set_kind s1 None).
Proof.
  intros Hs Hk Hx [[rest Hr] Hroom].
  assert (parse_head (s_r s) = Some (KByte, 0, x, 1%nat)) as Hp.
  { rewrite Hr. by apply (parse_head_complete KByte 0 x). }
  eexists. split; [apply Kind_iff; [done..|]|].
  - exists x, 1%nat. split_and!; [done|done| |done].
    pose proof (advance_ok s 1 Hs ltac:(lia) Hroom) as [Hst Hl]. unfold size_fits.
    change (Z.of_nat 1) with 1. destruct (s_stack (advance 1 s)) as [|[pos size] st]; [done|].
    inversion Hst; subst. lia.
  - split; [done|]. split; [split; [by exists rest|done]|done].
Qed.

(** A value with a header and a content. *)
Lemma content_sound s k size s1 b s' : stream_ok s -> ready s -> k <> KByte ->
  Stream_Kind s = (Ret (k, size), s1) -> readFull size s1 = (Ret b, s') ->
  Z.of_nat (length b) = size /\ size < 2 ^ 64 /\ consumed s (head_bytes k size Byte.x00 ++ b) s'.
Proof.
  intros Hs Hk Hkk E E'. apply Kind_iff in E as (bv & h & Hp & Hr & Hf & ->); [|done..].
  destruct (head_can_read s _ _ _ _ Hs Hp Hr) as (Hok & Hh & Hc).
  assert (0 <= size < 2 ^ 64 /\ bv = Byte.x00) as [Hsize ->] by (by destruct k).
  pose proof (advance_ok s (Z.of_nat h) Hs ltac:(lia) Hr) as Hs1.
  apply readFull_iff in E' as (Hr' & -> & ->); [|done|lia].
  assert (Z.of_nat (length (take (Z.to_nat size) (s_r (advance (Z.of_nat h) s)))) = size) as Hl.
  { rewrite length_take. destruct Hr' as (_ & _ & H3). cbn in H3 |- *. lia. }
  split_and!; [done|lia|]. eapply consumed_app; [exact Hc|]. split; [split|].
  - eexists. symmetry. apply take_drop.
  - cbn [s_r peek]. by rewrite Hl.
  - cbn [s_r peek]. by rewrite Hl.
Qed.

Lemma content_complete s k b : stream_ok s -> ready s -> k <> KByte ->
  Z.of_nat (length b) < 2 ^ 64 ->
  can_read s (head_bytes k (Z.of_nat (length b)) Byte.x00 ++ b) ->
  exists s1 s', Stream_Kind s = (Ret (k, Z.of_nat (length b)), s1) /\
    readFull (Z.of_nat (length b)) s1 = (Ret b, s') /\
    consumed s (head_bytes k (Z.of_nat (length b)) Byte.x00 ++ b) s'.
Proof.
  intros Hs Hk Hkk Hb Hc. set (size := Z.of_nat (length b)) in *.
  assert (0 <= size) by (unfold size; lia).
  set (hd := head_bytes k size Byte.x00) in *. destruct (can_read_app _ _ _ Hc) as [Hc1 Hc2].
  assert (head_ok k size Byte.x00) as Hok by (destruct k; [done|split; [lia|done]..]).
  destruct Hc1 as [[rest Hr] Hroom].
  assert (parse_head (s_r s) = Some (k, size, Byte.x00, length hd)) as Hp.
  { rewrite Hr. by apply parse_head_complete. }
  assert (consumed s hd (advance (Z.of_nat (length hd)) s)) as Hcs by (split; [split; [by eexists|done]|done]).
  destruct (Hc2 _ Hcs) as [[rest' Hr'] Hroom'].
  pose proof (consumed_ok _ _ _ Hs Hcs) as Hs1.
  assert (Stream_Kind s = (Ret (k, size), peek k size Byte.x00 (advance (Z.of_nat (length hd)) s))) as EK.
  { apply Kind_iff; [done..|]. exists Byte.x00, (length hd). split_and!; [done|done| |done].
    destruct Hroom' as (R1 & R2 & _). unfold size_fits.
    destruct (s_stack (advance (Z.of_nat (length hd)) s)) as [|[]]; done. }
  eexists _, _. split; [exact EK|].
  assert (readFull size (peek k size Byte.x00 (advance (Z.of_nat (length hd)) s)) =
          (Ret b, advance size (peek k size Byte.x00 (advance (Z.of_nat (length hd)) s)))) as EF.
  { apply readFull_iff; [done|lia|]. split_and!; [done| |done]. cbn [s_r peek]. rewrite Hr'.
    unfold size. by rewrite Nat2Z.id, take_app_length. }
  split; [exact EF|]. by apply (content_sound s k size _ b _ Hs Hk Hkk EK EF).
Qed.

(** [make] gives the buffer, or panics. *)
Lemma make_bytes_cases n s : n <= maxAlloc /\ make_bytes n s = (Ret tt, s) \/ maxAlloc < n /\ make_bytes n s = (Panic, s).
Proof. unfold make_bytes. destruct (Z.ltb_spec maxAlloc n); auto. Qed.

Lemma make_raw_cases start size s : 0 <= start <= 9 -> 0 <= size < 2 ^ 64 ->
  start + size <= maxAlloc /\ make_raw start size s = (Ret tt, s) \/ maxAlloc < start + size /\ make_raw start size s = (Panic, s).
Proof.
  intros Hst Hsz. unfold make_raw. destruct (Z.lt_ge_cases (start + size) (2 ^ 64)) as [Hlt|Hge].
  - rewrite u64_small by lia. destruct (Z.ltb_spec maxAlloc (start + size)); [by right|].
    destruct (Z.ltb_spec (start + size) start); [lia|]. by left.
  - right. split; [lia|]. unfold u64. rewrite <- (Z.mod_add _ (-1)) by lia. rewrite Z.mod_small by lia.
    destruct (Z.ltb_spec (start + size + -1 * 2 ^ 64) start); [|lia]. by rewrite orb_true_r.
Qed.

Lemma headsize_head k size : k <> KByte -> 0 <= size < 2 ^ 64 -> headsize size = length (head_bytes k size Byte.x00).
Proof. intros Hk Hs. by destruct k; [|cbn [head_bytes]; rewrite length_puthead..]. Qed.

Lemma headsize_range size : 0 <= size < 2 ^ 64 -> (1 <= headsize size <= 9)%nat.
Proof.
  intros Hs. rewrite (headsize_head KString size) by (done || lia). cbn [head_bytes]. destruct (Z.ltb_spec size 56).
  - rewrite puthead_short by lia. cbn. lia.
  - rewrite puthead_long by lia. cbn [length]. rewrite length_Bytes. pose proof (byte_len_64 size ltac:(lia)). lia.
Qed.

(** ** Strings and integers *)

(** The strings that are their own encoding. *)
Definition single (b : bytes) : Prop := exists x, b = [x] /\ ub x < 128.

Lemma rlp_string_single x : ub x < 128 -> rlp_string [x] = [x].
Proof. intros H. cbn. destruct (Z.leb_spec (ub x) 0x7F); [done|lia]. Qed.

Lemma rlp_string_long b : ~ single b ->
  rlp_string b = head_bytes KString (Z.of_nat (length b)) Byte.x00 ++ b.
Proof.
  intros H. unfold rlp_string. destruct b as [|x [|y b]]; [done| |done].
  destruct (Z.leb_spec (ub x) 0x7F); [|done]. destruct H. exists x. split; [done|lia].
Qed.

Lemma single_dec (b : bytes) : single b \/ ~ single b.
Proof.
  destruct b as [|x [|y b]]; [right; by intros (? & [=] & _)| |right; by intros (? & [=] & _)].
  destruct (decide (ub x < 128)); [left; by exists x|]. right. by intros (? & [= <-] & ?).
Qed.

(** An empty string or list is only a header. *)
Lemma empty_sound s k s1 : stream_ok s -> ready s -> k <> KByte ->
  Stream_Kind s = (Ret (k, 0), s1) -> consumed s (head_bytes k 0 Byte.x00) (set_kind s1 None).
Proof.
  intros Hs Hk Hkk E. apply Kind_iff in E as (bv & h & Hp & Hr & Hf & ->); [|done..].
  destruct (head_can_read s _ _ _ _ Hs Hp Hr) as (Hok & Hh & Hc).
  assert (bv = Byte.x00) as -> by (by destruct k; [|destruct Hok..]). exact Hc.
Qed.

Lemma Bytes_sound s b s' : stream_ok s -> ready s -> Stream_Bytes s = (Ret b, s') ->
  consumed s (rlp_string b) s' /\ Z.of_nat (length b) < 2 ^ 64.
Proof.
  intros Hs Hk. unfold Stream_Bytes, mbind, dec_bind.
  destruct (Stream_Kind s) as [[[k size]|e|] s1] eqn:E; [|done..]. destruct k; [| |done].
  - destruct (byte_sound s size s1 Hs Hk E) as (-> & Hb & Hc). cbn. intros [= <- <-].
    cbn [s_byteval set_kind]. change (ub (s_byteval s1) <=? 127) with (ub (s_byteval s1) <=? 0x7F).
    fold (rlp_string [s_byteval s1]). rewrite rlp_string_single by lia. split; [done|cbn; lia].
  - destruct (make_bytes_cases size s1) as [[_ ->]|[_ ->]]; [|done].
    destruct (readFull size s1) as [[b'|e|] s2] eqn:E2; [|done..].
    destruct (content_sound s KString size s1 b' s2 Hs Hk ltac:(done) E E2) as (<- & Hsz & Hc).
    intros Eb. assert (~ single b' /\ b = b' /\ s' = s2) as (Hn & -> & ->).
    { destruct b' as [|x [|y b']]; [|destruct (Z.ltb_spec (ub x) 128); [done|]|]; injection Eb as <- <-;
        (split; [|done]); intros (z & [=] & Hz). subst. lia. }
    by rewrite rlp_string_long.
Qed.

Lemma Bytes_complete s b : stream_ok s -> ready s -> Z.of_nat (length b) <= maxAlloc ->
  can_read s (rlp_string b) ->
  exists s', Stream_Bytes s = (Ret b, s') /\ consumed s (rlp_string b) s'.
Proof.
  intros Hs Hk Hb Hc. unfold Stream_Bytes, mbind, dec_bind.
  destruct (single_dec b) as [(x & -> & Hx)|Hn].
  - rewrite rlp_string_single in * by done.
    destruct (byte_complete s x Hs Hk Hx Hc) as (s1 & -> & <- & Hc1). eexists. split; [done|]. done.
  - rewrite rlp_string_long in * by done.
    destruct (content_complete s KString b Hs Hk ltac:(done) ltac:(lia) Hc) as (s1 & s' & -> & Er & Hc').
    destruct (make_bytes_cases (Z.of_nat (length b)) s1) as [[_ ->]|[? _]]; [|lia]. rewrite Er.
    exists s'. split; [|done]. destruct b as [|x [|y b]]; [done| |done].
    destruct (Z.ltb_spec (ub x) 128); [|done]. destruct Hn. by exists x.
Qed.

(** The content of an integer of more than one byte, or of one above 127. *)
Lemma be_val_canonical x l : (l = [] -> 128 <= ub x) -> ub x <> 0 ->
  Bytes (be_val (x :: l)) = x :: l /\ ~ single (x :: l) /\ 128 <= be_val (x :: l).
Proof.
  intros Hl Hx. split; [by eapply Bytes_of_canonical|]. pose proof (ub_range x).
  rewrite be_val_cons. destruct l as [|y l].
  - specialize (Hl eq_refl). split; [intros (z & [= ->] & ?); lia|]. cbn. lia.
  - split; [by intros (z & [=] & _)|]. pose proof (be_val_bound (y :: l)).
    assert (256 <= 256 ^ Z.of_nat (length (y :: l))).
    { change 256 with (256 ^ 1) at 1. apply Z.pow_le_mono_r; cbn; lia. }
    nia.
Qed.

Lemma uint_sound bits s v s' : stream_ok s -> ready s -> 0 <= bits <= 64 ->
  Stream_uint bits s = (Ret v, s') -> consumed s (rlp_string (Bytes v)) s' /\ 0 <= v < 2 ^ 64.
Proof.
  intros Hs Hk Hbits. unfold Stream_uint, map_err, mbind, dec_bind.
  destruct (Stream_Kind s) as [[[k size]|e|] s1] eqn:E; [|done..]. destruct k; [| |done].
  - destruct (byte_sound s size s1 Hs Hk E) as (-> & Hb & Hc). cbn.
    pose proof (ub_range (s_byteval s1)). destruct (Z.eqb_spec (ub (s_byteval s1)) 0); [done|].
    intros [= <- <-]. rewrite Bytes_small, u8_ub, rlp_string_single by lia. split; [done|lia].
  - destruct (Z.ltb_spec (bits / 8) size); [done|].
    assert (bits / 8 <= 8) by (apply Z.div_le_upper_bound; lia).
    pose proof E as (bv & h & Hp & Hr & Hf & Es1)%Kind_iff; [|done..].
    destruct (head_can_read s _ _ _ _ Hs Hp Hr) as ([Hsz _] & _ & Hc).
    assert (stream_ok s1) as Hs1 by (subst s1; by apply (consumed_ok _ _ _ Hs Hc)).
    destruct (decide (size = 0)) as [->|Hsize].
    { cbn. intros [= <- <-]. split; [|lia]. by apply (empty_sound s KString s1). }
    destruct (readUint size s1) as [[v'|e|] s2] eqn:E2; [|done..].
    destruct ((0 <? size) && (v' <? 128)) eqn:Ec; [done|]. intros [= <- <-].
    apply readUint_iff in E2 as (Hr2 & -> & x & l & Ht & -> & Hx); [|done|lia].
    destruct (Z.ltb_spec 0 size); [|lia]. cbn [andb] in Ec. apply Z.ltb_ge in Ec.
    assert (Z.of_nat (length (x :: l)) = size) as Hl.
    { rewrite <- Ht, length_take. destruct Hr2 as (_ & _ & ?). lia. }
    assert (l = [] -> 128 <= ub x) as Hl0 by (intros ->; cbn in Ec; lia).
    assert (ub x <> 0) as Hx0.
    { destruct Hx as [->|]; [|done]. destruct l; [|cbn in Hl; lia]. specialize (Hl0 eq_refl). lia. }
    destruct (be_val_canonical x l Hl0 Hx0) as (-> & Hns & _).
    rewrite rlp_string_long, Hl by done.
    assert (readFull size s1 = (Ret (x :: l), advance size s1)) as EF
      by (apply readFull_iff; [done|lia|]; by rewrite Ht).
    destruct (content_sound s KString size s1 _ _ Hs Hk ltac:(done) E EF) as (_ & _ & Hcc).
    split; [done|]. pose proof (be_val_bound (x :: l)) as [? Hu]. rewrite Hl in Hu.
    assert (256 ^ size <= 256 ^ 8) by (apply Z.pow_le_mono_r; lia). lia.
Qed.

Lemma uint_complete bits s v : stream_ok s -> ready s -> 0 <= bits <= 64 ->
  0 <= v < 256 ^ (bits / 8) -> can_read s (rlp_string (Bytes v)) ->
  exists s', Stream_uint bits s = (Ret v, s') /\ consumed s (rlp_string (Bytes v)) s'.
Proof.
  intros Hs Hk Hbits Hv Hc. unfold Stream_uint, map_err, mbind, dec_bind.
  assert (0 <= bits / 8 <= 8) as Hb8
    by (split; [apply Z.div_pos|apply Z.div_le_upper_bound]; lia).
  destruct (decide (v = 0)) as [->|Hv0].
  { change (rlp_string (Bytes 0)) with (head_bytes KString 0 Byte.x00 ++ []) in *.
    destruct (content_complete s KString [] Hs Hk ltac:(done) ltac:(done) Hc) as (s1 & s2 & E & _ & _).
    rewrite E. destruct (Z.ltb_spec (bits / 8) (Z.of_nat (length (@nil byte)))); [cbn in *; lia|]. cbn.
    eexists. split; [done|]. by apply (empty_sound s KString s1). }
  destruct (Z.ltb_spec v 128) as [H128|H128].
  { rewrite Bytes_small, rlp_string_single in * by (rewrite ?ub_u8_small; lia).
    destruct (byte_complete s (u8 v) Hs Hk ltac:(rewrite ub_u8_small; lia) Hc) as (s1 & -> & Eb & Hc1).
    cbn. rewrite Eb, ub_u8_small by lia. destruct (Z.eqb_spec v 0); [done|]. by eexists. }
  destruct (Bytes_head v ltac:(lia)) as (x & l & EB & Hx).
  pose proof (SetBytes_Bytes v ltac:(lia)) as HS. unfold SetBytes in HS. rewrite EB in HS, Hc |- *.
  assert (l = [] -> 128 <= ub x) as Hl0 by (intros ->; cbn in HS; lia).
  destruct (be_val_canonical x l Hl0 Hx) as (_ & Hns & _). rewrite rlp_string_long in * by done.
  assert (length (x :: l) <= Z.to_nat (bits / 8))%nat as Hl.
  { rewrite <- EB, length_Bytes. apply byte_len_le. rewrite Z2Nat.id by lia. lia. }
  set (size := Z.of_nat (length (x :: l))) in *.
  assert (1 <= size <= 8) as Hsz by (unfold size; cbn in *; lia).
  destruct (content_complete s KString (x :: l) Hs Hk ltac:(done) ltac:(fold size; lia) Hc)
    as (s1 & s2 & E1 & E2 & Hc2). fold size in E1, E2, Hc2. rewrite E1.
  destruct (Z.ltb_spec (bits / 8) size); [unfold size in *; lia|].
  assert (stream_ok s1) as Hs1.
  { apply Kind_iff in E1 as (bv & h & Hp & Hr & _ & ->); [|done..].
    apply (advance_ok s (Z.of_nat h) Hs); [lia|done]. }
  assert (readUint size s1 = (Ret v, s2)) as ->.
  { apply readFull_iff in E2 as (Hr2 & Ht & ->); [|done|lia]. apply readUint_iff; [done..|].
    split_and!; [done|done|]. exists x, l. split_and!; [done|done|by right]. }
  destruct (Z.ltb_spec v 128); [lia|]. rewrite andb_false_r. by eexists.
Qed.

Lemma Bool_sound s b s' : stream_ok s -> ready s -> Stream_Bool s = (Ret b, s') ->
  consumed s (rlp_string (Bytes (if b then 1 else 0))) s'.
Proof.
  intros Hs Hk. unfold Stream_Bool, mbind, dec_bind.
  destruct (Stream_uint 8 s) as [[v|e|] s1] eqn:E; [|done..].
  apply uint_sound in E as [Hc _]; [|done|done|lia].
  destruct (Z.eqb_spec v 0) as [->|]; [by intros [= <- <-]|].
  destruct (Z.eqb_spec v 1) as [->|]; [by intros [= <- <-]|done].
Qed.

Lemma Bool_complete s (b : bool) : stream_ok s -> ready s ->
  can_read s (rlp_string (Bytes (if b then 1 else 0))) ->
  exists s', Stream_Bool s = (Ret b, s') /\ consumed s (rlp_string (Bytes (if b then 1 else 0))) s'.
Proof.
  intros Hs Hk Hc. unfold Stream_Bool, mbind, dec_bind.
  destruct (uint_complete 8 s (if b then 1 else 0) Hs Hk ltac:(lia) ltac:(by destruct b) Hc)
    as (s' & -> & Hc'). exists s'. split; [by destruct b|done].
Qed.

(** ** Encoded values as they are *)

(** One header with its content, or one byte. *)
Definition encoded_value (b : bytes) : Prop :=
  (exists x, b = [x] /\ ub x < 128) \/
  exists k p, k <> KByte /\ Z.of_nat (length p) < 2 ^ 64 /\
    b = head_bytes k (Z.of_nat (length p)) Byte.x00 ++ p.

Lemma Raw_sound s b s' : stream_ok s -> ready s -> Stream_Raw s = (Ret b, s') ->
  consumed s b s' /\ encoded_value b.
Proof.
  intros Hs Hk. unfold Stream_Raw, mbind, dec_bind.
  destruct (Stream_Kind s) as [[[k size]|e|] s1] eqn:E; [|done..].
  assert (forall k0 b' s2, k0 <> KByte -> k = k0 -> readFull size s1 = (Ret b', s2) ->
    consumed s (head_bytes k0 size Byte.x00 ++ b') s2 /\
    encoded_value (head_bytes k0 size Byte.x00 ++ b')) as L.
  { intros k0 b' s2 Hk0 -> E2.
    destruct (content_sound s k0 size s1 b' s2 Hs Hk Hk0 E E2) as (<- & Hsz & Hc).
    split; [done|]. right. by exists k0, b'. }
  destruct k.
  - destruct (byte_sound s size s1 Hs Hk E) as (-> & Hb & Hc). cbn. intros [= <- <-].
    split; [exact Hc|]. left. eexists. split; [done|]. cbn. lia.
  - unfold make_raw. destruct (_ || _); [done|].
    destruct (readFull size s1) as [[b'|e|] s2] eqn:E2; [|done..]. cbn. intros [= <- <-]. by apply (L KString).
  - unfold make_raw. destruct (_ || _); [done|].
    destruct (readFull size s1) as [[b'|e|] s2] eqn:E2; [|done..]. cbn. intros [= <- <-]. by apply (L KList).
Qed.

Lemma Raw_complete s b : stream_ok s -> ready s -> encoded_value b -> Z.of_nat (length b) <= maxAlloc -> can_read s b ->
  exists s', Stream_Raw s = (Ret b, s') /\ consumed s b s'.
Proof.
  intros Hs Hk Hv Hmax Hc. unfold Stream_Raw, mbind, dec_bind.
  destruct Hv as [(x & -> & Hx)|(k & p & Hkk & Hp & ->)].
  - destruct (byte_complete s x Hs Hk Hx Hc) as (s1 & -> & <- & Hc1). by eexists.
  - destruct (content_complete s k p Hs Hk Hkk Hp Hc) as (s1 & s2 & -> & E2 & Hc2).
    exists s2. split; [|done]. rewrite length_app, <- headsize_head in Hmax by (done || lia).
    pose proof (headsize_range (Z.of_nat (length p)) ltac:(lia)).
    destruct (make_raw_cases (Z.of_nat (headsize (Z.of_nat (length p)))) (Z.of_nat (length p)) s1) as [[_ Em]|[? _]]; [lia..| |lia].
    destruct k; [done| |]; by rewrite Em, E2.
Qed.

(** ** Lists

    [opened s size s1]: [s1] is inside a list of [size] bytes that starts at [s]. *)

Definition opened (s : Stream) (size : Z) (s1 : Stream) : Prop :=
  exists s0, consumed s (head_bytes KList size Byte.x00) s0 /\ size_fits s0 size /\
    norm s1 = norm (set_stack s0 ((0, size) :: s_stack s0)).

Lemma List_sound s size s1 : stream_ok s -> ready s -> Stream_List s = (Ret size, s1) ->
  opened s size s1 /\ 0 <= size < 2 ^ 64.
Proof.
  intros Hs Hk. unfold Stream_List, mbind, dec_bind.
  destruct (Stream_Kind s) as [[[k size']|e|] s0] eqn:E; [|done..].
  destruct k; [done..|]. intros [= -> <-].
  apply Kind_iff in E as (bv & h & Hp & Hr & Hf & ->); [|done..].
  destruct (head_can_read s _ _ _ _ Hs Hp Hr) as ([Hsz ->] & Hh & Hc). split; [|done].
  by exists (advance (Z.of_nat h) s).
Qed.

Lemma opened_ok s size s1 : stream_ok s -> 0 <= size < 2 ^ 64 -> opened s size s1 ->
  stream_ok s1 /\ ready s1.
Proof.
  intros Hs Hsz (s0 & Hc & Hf & Hn). pose proof (consumed_ok _ _ _ Hs Hc) as [Hst Hl].
  split.
  - eapply norm_ok; [exact Hn|]. split; [|exact Hl]. cbn. constructor; [lia|done].
  - by apply norm_eq in Hn as (_ & _ & _ & Hk & _).
Qed.

(** Consuming [p] inside the list. *)
Lemma opened_consumed s size s1 p s2 : opened s size s1 -> consumed s1 p s2 ->
  exists st, s_stack s2 = (Z.of_nat (length p), size) :: st /\ Z.of_nat (length p) <= size /\
    (size = Z.of_nat (length p) -> stream_ok s ->
     exists s3, Stream_ListEnd s2 = (Ret tt, s3) /\ consumed s (rlp_list p) s3).
Proof.
  intros (s0 & Hc & Hf & Hn) Hp. pose proof Hp as [[_ Hroom] Hn2].
  apply norm_eq in Hn as (N1 & N2 & N3 & _ & N5). cbn in N1, N2, N3, N5.
  pose proof Hn2 as (M1 & M2 & M3 & _ & M5)%norm_eq. cbn in M1, M2, M3, M5. rewrite N5 in M5.
  exists (s_stack s0). split_and!; [by rewrite M5|destruct Hroom as (R1 & _); rewrite N5 in R1; lia|].
  intros -> Hs. unfold Stream_ListEnd. rewrite M5. cbn. rewrite Z.add_0_l, Z.eqb_refl. cbn.
  eexists. split; [done|]. unfold rlp_list.
  change (puthead 0xC0 0xF7 (Z.of_nat (length p))) with (head_bytes KList (Z.of_nat (length p)) Byte.x00).
  eapply consumed_app; [exact Hc|]. pose proof (consumed_ok _ _ _ Hs Hc) as [Hst _].
  destruct Hroom as (R1 & R2 & R3). rewrite N1 in R3. rewrite N3, N2 in R2. split; [split|].
  - exists (s_r s2). rewrite <- N1. by apply consumed_input.
  - unfold room. split_and!; [|done|done]. unfold size_fits in Hf.
    destruct (s_stack s0) as [|[pos' size'] st]; [done|lia].
  - unfold norm, set_stack, advance. cbn. rewrite M1, M2, M3, N1, N2, N3. f_equal.
    unfold size_fits in Hf. destruct (s_stack s0) as [|[pos' size'] st]; [done|].
    inversion Hst; subst. unfold u64. rewrite Z.mod_small by lia. done.
Qed.

Lemma List_complete s p : stream_ok s -> ready s -> Z.of_nat (length p) < 2 ^ 64 ->
  can_read s (rlp_list p) ->
  exists s1, Stream_List s = (Ret (Z.of_nat (length p)), s1) /\
    opened s (Z.of_nat (length p)) s1 /\ can_read s1 p.
Proof.
  intros Hs Hk Hp Hc. unfold rlp_list in Hc.
  change (puthead 0xC0 0xF7 (Z.of_nat (length p))) with
    (head_bytes KList (Z.of_nat (length p)) Byte.x00) in Hc.
  destruct (content_complete s KList p Hs Hk ltac:(done) Hp Hc) as (s0 & s2 & E & E2 & _).
  assert (Stream_List s = (Ret (Z.of_nat (length p)), set_stack s0 ((0, Z.of_nat (length p)) :: s_stack s0)))
    as EL by (unfold Stream_List, mbind, dec_bind; by rewrite E).
  eexists. split; [exact EL|]. destruct (List_sound _ _ _ Hs Hk EL) as [Ho _]. split; [exact Ho|].
  apply Kind_iff in E as (bv & h & Hph & Hr & Hf & ->); [|done..].
  pose proof (advance_ok s (Z.of_nat h) Hs ltac:(lia) Hr) as Hs0.
  apply readFull_iff in E2 as ((R1 & R2 & R3) & Ep & _); [|done|lia].
  rewrite Nat2Z.id in Ep. split.
  - exists (drop (length p) (s_r (advance (Z.of_nat h) s))).
    change (s_r (set_stack _ _)) with (s_r (advance (Z.of_nat h) s)).
    change (s_r (peek _ _ _ _)) with (s_r (advance (Z.of_nat h) s)) in Ep.
    rewrite Ep at 1. by rewrite take_drop.
  - unfold room. cbn in R2, R3 |- *. split_and!; [lia|done|done].
Qed.

(** ** The end of a list

    Only the header of the next value reports the end of the list, and then the stream has
    not moved. *)

Definition never_eol {A} (m : dec A) : Prop := forall s s', m s <> (Err EOL, s').

Definition eol_still {A} (m : dec A) : Prop :=
  forall s s', ready s -> m s = (Err EOL, s') -> norm s' = norm s.

Lemma never_eol_still {A} (m : dec A) : never_eol m -> eol_still m.
Proof. intros H s s' _ E. by destruct (H s s'). Qed.

Lemma never_eol_ret {A} (a : A) : never_eol (mret a : dec A).
Proof. by intros s s'. Qed.

Lemma never_eol_fail {A} e : e <> EOL -> never_eol (fail e : dec A).
Proof. intros H s s' [= E _]. done. Qed.

Lemma never_eol_bind {A B} (m : dec A) (f : A -> dec B) :
  never_eol m -> (forall a, never_eol (f a)) -> never_eol (m ≫= f).
Proof.
  intros Hm Hf s s' E. unfold mbind, dec_bind in E. destruct (m s) as [[a|e|] s1] eqn:Em; [|..|done].
  - by apply (Hf a s1 s').
  - injection E as -> ->. by apply (Hm s s').
Qed.

Lemma eol_still_bind {A B} (m : dec A) (f : A -> dec B) :
  eol_still m -> (forall a, never_eol (f a)) -> eol_still (m ≫= f).
Proof.
  intros Hm Hf s s' Hk E. unfold mbind, dec_bind in E. destruct (m s) as [[a|e|] s1] eqn:Em; [|..|done].
  - by destruct (Hf a s1 s').
  - injection E as -> ->. by apply (Hm s s').
Qed.

Lemma wrapStreamError_EOL e : wrapStreamError e = EOL -> e = EOL.
Proof. unfold wrapStreamError. repeat (case_decide; [done|]). done. Qed.

Lemma eol_still_wrap {A} (m : dec A) : eol_still m -> eol_still (map_err wrapStreamError m).
Proof.
  intros Hm s s' Hk E. unfold map_err in E. destruct (m s) as [[a|e|] s1] eqn:Em; [done| |done].
  injection E as ->%wrapStreamError_EOL ->. by apply (Hm s s').
Qed.

Lemma never_eol_wrap {A} (m : dec A) : never_eol m -> never_eol (map_err wrapStreamError m).
Proof.
  intros Hm s s' E. unfold map_err in E. destruct (m s) as [[a|e|] s1] eqn:Em; [done| |done].
  injection E as ->%wrapStreamError_EOL ->. by apply (Hm s s').
Qed.

Lemma never_eol_readFull n : never_eol (readFull n).
Proof.
  intros s s'. unfold readFull, willRead, take_input, mbind, dec_bind.
  destruct s as [r rem lim ? ? ? ? stack]. cbn.
  destruct stack as [|[pos size] st], lim; cbn; repeat (case_match; cbn in *; simplify_eq/=); done.
Qed.

Lemma never_eol_readByte : never_eol readByte.
Proof.
  intros s s' E. unfold readByte, mbind, dec_bind in E. pose proof (never_eol_readFull 1 s s') as H.
  unfold readFull, mbind, dec_bind in H.
  destruct (willRead 1 s) as [[]]; [|by injection E as -> ->|discriminate E].
  change (Z.to_nat 1) with 1%nat in H. destruct (take_input 1 s0) as [[[|x l]|e|]];
    first [discriminate E | by injection E as -> ->].
Qed.

Lemma never_eol_readUint n : never_eol (readUint n).
Proof.
  unfold readUint. destruct (n =? 0); [|destruct (n =? 1)].
  - by intros s s'.
  - apply never_eol_bind; [apply never_eol_readByte|]. intros. apply never_eol_ret.
  - apply never_eol_bind; [apply never_eol_readFull|]. intros [|x l]; [by apply never_eol_fail|].
    destruct (ub x =? 0); [by apply never_eol_fail|apply never_eol_ret].
Qed.

Lemma never_eol_make_bytes n : never_eol (make_bytes n).
Proof. intros s s'. unfold make_bytes. by destruct (_ <? _). Qed.

Lemma never_eol_make_raw start size : never_eol (make_raw start size).
Proof. intros s s'. unfold make_raw. by destruct (_ || _). Qed.

Create HintDb eol.
#[export] Hint Resolve never_eol_make_bytes never_eol_make_raw : eol.
#[export] Hint Resolve never_eol_ret never_eol_readFull never_eol_readUint never_eol_wrap
  never_eol_bind : eol.
#[export] Hint Extern 1 (never_eol (fail _)) => apply never_eol_fail; discriminate : eol.
#[export] Hint Extern 1 (never_eol rearm) => intros ? ? ?; discriminate : eol.
#[export] Hint Extern 1 (never_eol get_byteval) => intros ? ? ?; discriminate : eol.
#[export] Hint Extern 2 (never_eol (match ?x with _ => _ end)) => destruct x : eol.

Lemma never_eol_readKind s k size e s' : readKind s = (k, size, Some e, s') -> e <> EOL.
Proof.
  assert (forall k0 n s, readSizeOf k0 n s = (k, size, Some e, s') -> e <> EOL) as L.
  { intros k0 n s0 E. unfold readSizeOf in E. pose proof (never_eol_readUint n s0) as H.
    destruct (readUint n s0) as [[v|e'|] s1]; [|naive_solver..].
    destruct (v <? 56); by simplify_eq. }
  unfold readKind. pose proof (never_eol_readByte s) as H.
  destruct (readByte s) as [[x|e'|] s1]; [| |done].
  - repeat (case_match; [try done; by apply L|]). apply L.
  - intros [= <- <- <- <-]. destruct (s_stack s1); [|naive_solver].
    repeat (case_decide; [done|]). naive_solver.
Qed.

Lemma eol_still_Kind : eol_still Stream_Kind.
Proof.
  intros s s' Hk. unfold Stream_Kind. rewrite Hk.
  destruct (match s_stack (set_kinderr s None) with (pos, size) :: _ => pos =? size | [] => false end).
  { by intros [= <-]. }
  destruct (readKind (set_kinderr s None)) as [[[k size] e] s1] eqn:E. cbn zeta.
  destruct e as [e|].
  - intros [= -> _]. by apply never_eol_readKind in E.
  - cbn. destruct (s_stack s1) as [|[pos tsize] st].
    + destruct (_ && _); done.
    + destruct (_ <? _); done.
Qed.

Lemma eol_still_Bytes : eol_still Stream_Bytes.
Proof. apply eol_still_bind; [apply eol_still_Kind|]. intros [[] size]; auto 10 with eol. Qed.

Lemma eol_still_Raw : eol_still Stream_Raw.
Proof. apply eol_still_bind; [apply eol_still_Kind|]. intros [[] size]; auto 10 with eol. Qed.

Lemma never_eol_map_canon {A} (m : dec A) : never_eol m ->
  never_eol (map_err (fun e => if decide (e = ErrCanonSize) then ErrCanonInt else e) m).
Proof.
  intros Hm s s' E. unfold map_err in E. destruct (m s) as [[a|e|] s1] eqn:Em; [done| |done].
  case_decide; [done|]. injection E as -> ->. by apply (Hm s s').
Qed.

#[export] Hint Resolve never_eol_map_canon : eol.

Lemma eol_still_uint bits : eol_still (Stream_uint bits).
Proof. apply eol_still_bind; [apply eol_still_Kind|]. intros [[] size]; auto 10 with eol. Qed.

Lemma eol_still_Bool : eol_still Stream_Bool.
Proof.
  apply eol_still_bind; [apply eol_still_uint|]. intros v. auto 10 with eol.
Qed.

Lemma never_eol_push size : never_eol (fun s => (Ret size, set_stack s ((0, size) :: s_stack s))).
Proof. by intros s s'. Qed.

#[export] Hint Resolve never_eol_push : eol.

Lemma eol_still_List : eol_still Stream_List.
Proof. apply eol_still_bind; [apply eol_still_Kind|]. intros [[] size]; auto 10 with eol. Qed.

Lemma never_eol_ListEnd : never_eol Stream_ListEnd.
Proof.
  intros s s'. unfold Stream_ListEnd. destruct (s_stack s) as [|[pos size] st]; [done|].
  destruct (negb _); done.
Qed.

Lemma never_eol_SliceElems fuel m : never_eol (decodeSliceElems fuel m).
Proof.
  induction fuel as [|fuel IH]; intros s s'; [done|]. cbn [decodeSliceElems].
  destruct (m s) as [[v|e|] s1]; [|case_decide; [done|by intros [= -> _]]|done].
  apply never_eol_bind; [done|]. intros. apply never_eol_ret.
Qed.

Lemma never_eol_array_elems n m : never_eol (decode_array_elems n m).
Proof.
  induction n as [|n IH]; intros s s'; [done|]. cbn [decode_array_elems].
  destruct (m s) as [[v|e|] s1]; [|case_decide; [done|by intros [= -> _]]|done].
  apply never_eol_bind; [done|]. intros. apply never_eol_ret.
Qed.

#[export] Hint Resolve never_eol_ListEnd never_eol_SliceElems never_eol_array_elems : eol.

Lemma eol_still_ListSlice fuel m : eol_still (decodeListSlice fuel m).
Proof.
  apply eol_still_bind; [apply eol_still_wrap, eol_still_List|]. intros size. auto 10 with eol.
Qed.

Lemma eol_still_ByteArray n : eol_still (decodeByteArray n).
Proof.
  apply eol_still_bind; [apply eol_still_Kind|]. intros [[] size]; [|auto 10 with eol..].
  destruct (n =? 0)%nat; [auto with eol|]. destruct (1 <? n)%nat; [auto with eol|].
  intros s s'. by destruct (Stream_Uint s) as [[]].
Qed.

(** The header is remembered until the value is read. *)
Lemma Kind_cached s a s1 : Stream_Kind s = (Ret a, s1) -> Stream_Kind s1 = (Ret a, s1).
Proof.
  unfold Stream_Kind. destruct (s_kind s) as [k|] eqn:Ek.
  - destruct (s_kinderr s) eqn:Ee; [done|]. intros [= <- <-]. by rewrite Ek, Ee.
  - destruct (match s_stack (set_kinderr s None) with (pos, size) :: _ => pos =? size | [] => false end);
      [done|].
    destruct (readKind (set_kinderr s None)) as [[[k size] e] s2]. cbn zeta.
    match goal with |- context [set_ahead s2 k size ?e] => destruct e end; [done|].
    cbn. by intros [= <- <-].
Qed.

(** [m] does not report the end of the list from [s]. *)
Definition not_eol_at {A} (s : Stream) (m : dec A) : Prop := forall s', m s <> (Err EOL, s').

Lemma not_eol_at_bind {A B} s (m : dec A) (f : A -> dec B) :
  not_eol_at s m -> (forall a, never_eol (f a)) -> not_eol_at s (m ≫= f).
Proof.
  intros Hm Hf s' E. unfold mbind, dec_bind in E. destruct (m s) as [[a|e|] s1] eqn:Em; [|..|done].
  - by apply (Hf a s1 s').
  - injection E as -> ->. by apply (Hm s').
Qed.

Lemma not_eol_at_wrap {A} s (m : dec A) : not_eol_at s m -> not_eol_at s (map_err wrapStreamError m).
Proof.
  intros Hm s' E. unfold map_err in E. destruct (m s) as [[a|e|] s1] eqn:Em; [done| |done].
  injection E as ->%wrapStreamError_EOL ->. by apply (Hm s').
Qed.

Lemma eol_still_Interface fuel : eol_still (decodeInterface fuel).
Proof.
  destruct fuel as [|fuel]; [by intros s s' _|]. intros s s' Hk. cbn [decodeInterface].
  unfold mbind at 1, dec_bind at 1.
  destruct (Stream_Kind s) as [[a|e|] s1] eqn:E; [| |done].
  - assert (not_eol_at s1 Stream_Kind) as HK by (intros s2; by rewrite (Kind_cached _ _ _ E)).
    assert (not_eol_at s1 Stream_Bytes) as HB
      by (apply not_eol_at_bind; [done|]; intros [[] size]; auto 10 with eol).
    assert (not_eol_at s1 Stream_List) as HL
      by (apply not_eol_at_bind; [done|]; intros [[] size]; auto 10 with eol).
    intros E'. exfalso. revert E'. destruct a as [[] size].
    + apply not_eol_at_bind; [done|]. auto with eol.
    + apply not_eol_at_bind; [done|]. auto with eol.
    + apply not_eol_at_bind; [|auto with eol]. apply not_eol_at_bind; [by apply not_eol_at_wrap|].
      intros sz. auto 10 with eol.
  - intros [= -> <-]. by apply (eol_still_Kind s s1).
Qed.

Lemma parse_words_not_eol last sl ws ts e : parse_words last sl ws ts = Err e -> e <> EOL.
Proof.
  revert ts. induction ws as [|w ws IH]; intros ts; cbn; [done|].
  do 3 (case_decide; [apply IH|]). case_decide; [|intros E; injection E as E; rewrite <- E; discriminate].
  destruct (negb last); [intros E; by simplify_eq|]. destruct (negb sl); [intros E; by simplify_eq|].
  apply IH.
Qed.

Lemma never_eol_fields decode fs : never_eol (decode_fields decode fs).
Proof.
  induction fs as [|f fs IH]; [apply never_eol_ret|]. cbn [decode_fields].
  destruct (f_exported f); [|auto with eol]. destruct (parseStructTag _ _) as [ts|e|] eqn:Et.
  - destruct (ignored ts); [auto with eol|]. apply never_eol_bind; [|auto with eol].
    intros s s' E. unfold map_err in E. destruct (decode (f_typ f) ts s) as [[v|e|] s1]; [done| |done].
    case_decide; [done|]. by injection E as -> _.
  - apply never_eol_fail. by apply parse_words_not_eol in Et.
  - by intros s s'.
Qed.

Lemma eol_still_decode fuel t ts : nilOK ts = false -> eol_still (decode fuel t ts).
Proof.
  revert ts. induction t using typ_ind; intros ts Hts; cbn [decode].
  - apply eol_still_bind; [apply eol_still_Raw|auto with eol].
  - apply eol_still_bind; [apply eol_still_wrap, eol_still_Bytes|]. intros [|x l]; auto with eol.
  - apply eol_still_bind; [apply eol_still_wrap, eol_still_Bytes|]. intros [|x l]; auto with eol.
  - apply eol_still_bind; [apply eol_still_wrap, eol_still_uint|auto with eol].
  - apply eol_still_bind; [apply eol_still_wrap, eol_still_Bool|auto with eol].
  - apply eol_still_bind; [apply eol_still_wrap, eol_still_Bytes|auto with eol].
  - destruct (isByte t).
    { apply eol_still_bind; [apply eol_still_wrap, eol_still_Bytes|auto with eol]. }
    destruct (tail ts); [|apply eol_still_ListSlice]. apply never_eol_still. auto 10 with eol.
  - destruct (isByte t); [apply eol_still_ByteArray|].
    apply eol_still_bind; [apply eol_still_wrap, eol_still_List|]. auto 10 with eol.
  - apply eol_still_bind; [apply eol_still_wrap, eol_still_List|]. intros _.
    apply never_eol_bind; [apply never_eol_fields|]. auto 10 with eol.
  - rewrite Hts. apply eol_still_bind; [by apply IHt|auto with eol].
  - apply eol_still_Interface.
  - apply never_eol_still. auto with eol.
Qed.
