(* ===== verification/RlpRoundTrip.v ===== *)
(** * RLP: decoded values and their encodings

    The decoder accepts exactly what the encoder writes: a value that is decoded has been read
    from its own encoding, and the encoding of a value is decoded to it.  Decoding always ends,
    except for one-byte arrays, which the code does not step over. *)

From S2P Require Import Prelude BigInt Rlp RlpStream RlpProofs.

(** ** Running decoders *)

Lemma dec_bind_Ret {A B} (m : dec A) (f : A -> dec B) s b s' : (m ≫= f) s = (Ret b, s') ->
  exists a s1, m s = (Ret a, s1) /\ f a s1 = (Ret b, s').
Proof.
  unfold mbind, dec_bind. destruct (m s) as [[a|e|] s1]; [|done..]. by exists a, s1.
Qed.

Lemma dec_bind_eq {A B} (m : dec A) (f : A -> dec B) s a s1 :
  m s = (Ret a, s1) -> (m ≫= f) s = f a s1.
Proof. intros E. unfold mbind, dec_bind. by rewrite E. Qed.

Lemma map_err_Ret {A} f (m : dec A) s a s' : map_err f m s = (Ret a, s') <-> m s = (Ret a, s').
Proof. unfold map_err. by destruct (m s) as [[a'|e|] s1]. Qed.

(** Inverts a successful bind. *)
Ltac dec_inv E a s1 E1 := apply dec_bind_Ret in E as (a & s1 & E1 & E).

Lemma consumed_norm s b s1 s2 : consumed s b s1 -> norm s2 = norm s1 -> consumed s b s2.
Proof. intros [Hc Hn] H. split; [done|]. by rewrite H. Qed.

(** Closing a list ends exactly at its size. *)
Lemma list_closed s size s1 p s2 s3 : stream_ok s -> opened s size s1 -> consumed s1 p s2 ->
  Stream_ListEnd s2 = (Ret tt, s3) -> consumed s (rlp_list p) s3.
Proof.
  intros Hs Ho Hc E. destruct (opened_consumed _ _ _ _ _ Ho Hc) as (st & Est & _ & Hend).
  pose proof E as E'. unfold Stream_ListEnd in E'. rewrite Est in E'.
  destruct (Z.eqb_spec (Z.of_nat (length p)) size) as [Hsz|]; [|done]. clear E'.
  destruct (Hend (eq_sym Hsz) Hs) as (s3' & E3 & Hc3). rewrite E in E3. by injection E3 as <-.
Qed.

Lemma rlp_string_nonempty b : rlp_string b <> [].
Proof.
  destruct (single_dec b) as [(x & -> & Hx)|Hn].
  - by rewrite rlp_string_single.
  - rewrite rlp_string_long by done. destruct (head_bytes_cons KString (Z.of_nat (length b)) Byte.x00)
      as (x & l & ->). done.
Qed.

Lemma rlp_list_nonempty p : rlp_list p <> [].
Proof.
  unfold rlp_list. destruct (head_bytes_cons KList (Z.of_nat (length p)) Byte.x00) as (x & l & E).
  cbn in E. by rewrite E.
Qed.

(** ** Types with one encoding per value

    Pointers with the tag [nil] are left out (both empty values decode to nil), and arrays of one
    byte (see [byte_array_endless]). *)

Definition is_ptr (t : typ) : bool := match t with TPtr _ => true | _ => false end.

Fixpoint canonical_typ (t : typ) : bool :=
  match t with
  | TUint bits => (0 <=? bits) && (bits <=? 64)
  | TSlice e => isByte e || canonical_typ e
  | TArray n e => if isByte e then negb (n =? 1)%nat else canonical_typ e
  | TStruct fs =>
      (fix go (fs : list (field typ)) : bool :=
         match fs with
         | [] => true
         | f :: fs' =>
             (negb (f_exported f) ||
              match parseStructTag f (match fs' with [] => true | _ => false end) with
              | Ret ts => ignored ts || canonical_typ (f_typ f) && negb (nilOK ts && is_ptr (f_typ f))
              | _ => true
              end) && go fs'
         end) fs
  | TPtr e => canonical_typ e
  | TOther => false
  | _ => true
  end.

(** [v] was read from its encoding. *)
Definition decoded (t : typ) (ts : tags) (s : Stream) (v : val) (s' : Stream) : Prop :=
  exists b, consumed s b s' /\ rlp_encode v t ts = Ret b /\ uints_ok v = true /\
    (tail ts = false -> b <> []).

Definition dec_sound (t : typ) (ts : tags) (m : dec val) : Prop :=
  forall s v s', stream_ok s -> ready s -> m s = (Ret v, s') -> decoded t ts s v s'.

Lemma rlp_elems_cons enc e v vs :
  rlp_elems enc e (v :: vs) = (b ← enc v e no_tags; p ← rlp_elems enc e vs; Ret (b ++ p)).
Proof. done. Qed.

Lemma SliceElems_sound fuel e m s vs s' : dec_sound e no_tags m -> eol_still m ->
  stream_ok s -> ready s -> decodeSliceElems fuel m s = (Ret vs, s') ->
  exists p, consumed s p s' /\ rlp_elems rlp_encode e vs = Ret p /\ forallb uints_ok vs = true.
Proof.
  intros Hm He. revert s vs s'. induction fuel as [|fuel IH]; intros s vs s' Hs Hk; [done|].
  cbn [decodeSliceElems]. destruct (m s) as [[v|err|] s1] eqn:E; [| |done].
  - intros E2. dec_inv E2 vs' s2 E3. injection E2 as <- <-.
    destruct (Hm _ _ _ Hs Hk E) as (b & Hc & Hb & Hu & _).
    destruct (IH _ _ _ (consumed_ok _ _ _ Hs Hc) (consumed_ready _ _ _ Hc) E3) as (p & Hc2 & Hp & Hus).
    exists (b ++ p). split; [by eapply consumed_app|]. split.
    + rewrite rlp_elems_cons, Hb. cbn [mbind outcome_bind]. by rewrite Hp.
    + cbn. by rewrite Hu.
  - case_decide as Heq; [|done]. intros [= <- <-]. subst err. exists [].
    split; [|done]. eapply consumed_norm; [by apply consumed_nil|]. by apply He.
Qed.

Lemma array_elems_sound n e m s vs s' : dec_sound e no_tags m ->
  stream_ok s -> ready s -> decode_array_elems n m s = (Ret vs, s') ->
  exists p, consumed s p s' /\ rlp_elems rlp_encode e vs = Ret p /\ forallb uints_ok vs = true.
Proof.
  intros Hm. revert s vs s'. induction n as [|n IH]; intros s vs s' Hs Hk; cbn [decode_array_elems].
  - intros [= <- <-]. exists []. split; [by apply consumed_nil|done].
  - destruct (m s) as [[v|err|] s1] eqn:E; [|done..].
    intros E2. dec_inv E2 vs' s2 E3. injection E2 as <- <-.
    destruct (Hm _ _ _ Hs Hk E) as (b & Hc & Hb & Hu & _).
    destruct (IH _ _ _ (consumed_ok _ _ _ Hs Hc) (consumed_ready _ _ _ Hc) E3) as (p & Hc2 & Hp & Hus).
    exists (b ++ p). split; [by eapply consumed_app|]. split.
    + rewrite rlp_elems_cons, Hb. cbn [mbind outcome_bind]. by rewrite Hp.
    + cbn. by rewrite Hu.
Qed.

Lemma ListSlice_sound fuel e ts m s v s' : isByte e = false -> tail ts = false ->
  dec_sound e no_tags m -> eol_still m ->
  stream_ok s -> ready s -> decodeListSlice fuel m s = (Ret v, s') -> decoded (TSlice e) ts s v s'.
Proof.
  intros Hb Ht Hm He Hs Hk E. unfold decodeListSlice in E. dec_inv E sz s1 E1.
  apply map_err_Ret in E1. destruct (List_sound _ _ _ Hs Hk E1) as [Ho Hsz].
  destruct (opened_ok _ _ _ Hs Hsz Ho) as [Hs1 Hk1].
  assert (exists vs p s2, v = VSeq vs /\ consumed s1 p s2 /\ Stream_ListEnd s2 = (Ret tt, s') /\
    rlp_elems rlp_encode e vs = Ret p /\ forallb uints_ok vs = true) as (vs & p & s2 & -> & Hc & EE & Hp & Hu).
  { destruct (sz =? 0).
    - dec_inv E u s2 E2. destruct u. injection E as <- <-. exists [], [], s1.
      split_and!; try done. by apply consumed_nil.
    - dec_inv E vs s2 E2. dec_inv E u s3 E3. destruct u. injection E as <- <-.
      destruct (SliceElems_sound _ _ _ _ _ _ Hm He Hs1 Hk1 E2) as (p & Hc & Hp & Hu).
      by exists vs, p, s2. }
  exists (rlp_list p). split; [by eapply list_closed|]. cbn [rlp_encode]. rewrite Hb, Ht, Hp.
  split; [done|]. split; [done|]. intros _. apply rlp_list_nonempty.
Qed.

Lemma ListArray_sound n e ts m s v s' : isByte e = false -> tail ts = false -> dec_sound e no_tags m ->
  stream_ok s -> ready s -> decodeListArray n m s = (Ret v, s') -> decoded (TArray n e) ts s v s'.
Proof.
  intros Hb Ht Hm Hs Hk E. unfold decodeListArray in E. dec_inv E sz s1 E1.
  apply map_err_Ret in E1. destruct (List_sound _ _ _ Hs Hk E1) as [Ho Hsz].
  destruct (opened_ok _ _ _ Hs Hsz Ho) as [Hs1 Hk1].
  dec_inv E vs s2 E2. dec_inv E u s3 E3. apply map_err_Ret in E3. destruct u. injection E as <- <-.
  destruct (array_elems_sound _ _ _ _ _ _ Hm Hs1 Hk1 E2) as (p & Hc & Hp & Hu).
  exists (rlp_list p). split; [by eapply list_closed|]. cbn [rlp_encode]. rewrite Hb, Ht, Hp.
  split; [done|]. split; [done|]. intros _. apply rlp_list_nonempty.
Qed.

Lemma ByteArray_sound n e ts s v s' : isByte e = true -> n <> 1%nat ->
  stream_ok s -> ready s -> decodeByteArray n s = (Ret v, s') -> decoded (TArray n e) ts s v s'.
Proof.
  intros Hb Hn Hs Hk E. unfold decodeByteArray in E. dec_inv E a s1 E1. destruct a as [k sz]. destruct k.
  - destruct (Nat.eqb_spec n 0); [done|]. destruct (Nat.ltb_spec 1 n); [done|]. lia.
  - destruct (Z.ltb_spec (Z.of_nat n) sz); [done|]. destruct (Z.ltb_spec sz (Z.of_nat n)); [done|].
    assert (sz = Z.of_nat n) as -> by lia. dec_inv E b s2 E2.
    destruct (content_sound s KString _ s1 b s2 Hs Hk ltac:(done) E1 E2) as (Hl & _ & Hc).
    assert (~ single b) as Hns by (intros (x & -> & _); cbn in Hl; lia).
    assert (v = VBytes b /\ s' = s2) as [-> ->].
    { destruct b as [|x [|y b]]; [by injection E as <- <-|cbn in Hl; lia|by injection E as <- <-]. }
    exists (rlp_string b). rewrite rlp_string_long by done. rewrite Hl. split; [done|].
    cbn [rlp_encode]. rewrite Hb, rlp_string_long, Hl by done. split; [done|]. split; [done|].
    intros _. destruct (head_bytes_cons KString (Z.of_nat n) Byte.x00) as (x & l & E'). by rewrite E'.
  - done.
Qed.

Lemma BigInt_sound ts s v s' : stream_ok s -> ready s -> decodeBigInt s = (Ret v, s') ->
  decoded TBigPtr ts s v s' /\ decoded TBig ts s v s'.
Proof.
  intros Hs Hk E. unfold decodeBigInt in E. dec_inv E b s1 E1. apply map_err_Ret in E1.
  destruct (Bytes_sound _ _ _ Hs Hk E1) as [Hc _].
  assert (v = VBig (SetBytes b) /\ s' = s1 /\ Bytes (SetBytes b) = b) as (-> & -> & Hb).
  { destruct b as [|x l]; [by injection E as <- <-|].
    destruct (Z.eqb_spec (ub x) 0); [done|]. injection E as <- <-.
    split_and!; [done|done|]. by eapply Bytes_of_canonical. }
  assert ((SetBytes b <? 0) = false) as Hneg by (apply Z.ltb_ge; apply be_val_bound).
  assert (forall t, t = TBigPtr \/ t = TBig -> decoded t ts s (VBig (SetBytes b)) s1) as L; [|split; auto].
  intros t Ht. exists (rlp_string b). split; [done|]. split.
  - destruct Ht as [-> | ->]; cbn [rlp_encode]; by rewrite Hneg, Hb.
  - split; [done|]. intros _. apply rlp_string_nonempty.
Qed.

(** A value without tag effects read as a string. *)
Lemma string_sound t ts s (b : bytes) v s1 : consumed s (rlp_string b) s1 ->
  rlp_encode v t ts = Ret (rlp_string b) -> uints_ok v = true -> decoded t ts s v s1.
Proof.
  intros Hc He Hu. exists (rlp_string b). split_and!; [done..|]. intros _. apply rlp_string_nonempty.
Qed.

Lemma decoded_again (s : Stream) {A} (m : dec A) a s1 : stream_ok s -> ready s ->
  Stream_Kind s = (Ret a, s1) -> forall f, m = (Stream_Kind ≫= f) -> m s1 = m s.
Proof.
  intros Hs Hk E f ->. rewrite (dec_bind_eq _ _ _ _ _ E).
  by rewrite (dec_bind_eq _ _ _ _ _ (Kind_cached _ _ _ E)).
Qed.

Lemma Interface_sound fuel ts : dec_sound TInterface ts (decodeInterface fuel).
Proof.
  revert ts. induction fuel as [|fuel IH]; intros ts s v s' Hs Hk E; [done|]. cbn [decodeInterface] in E.
  dec_inv E a s1 E1. destruct a as [k sz].
  assert (Stream_Bytes s1 = Stream_Bytes s) as EB by (by eapply decoded_again).
  assert (Stream_List s1 = Stream_List s) as EL by (by eapply decoded_again).
  assert (forall v0 s0, decoded (TSlice TInterface) no_tags s v0 s0 ->
            decoded TInterface ts s (VIface (TSlice TInterface) v0) s0) as Hl.
  { intros v0 s0 (b & Hc & He & Hu & Hn). exists b. split_and!; [done|done|done|]. intros _. by apply Hn. }
  destruct k.
  - dec_inv E b s2 E2. injection E as <- <-. rewrite EB in E2.
    destruct (Bytes_sound _ _ _ Hs Hk E2) as [Hc _]. by eapply string_sound.
  - dec_inv E b s2 E2. injection E as <- <-. rewrite EB in E2.
    destruct (Bytes_sound _ _ _ Hs Hk E2) as [Hc _]. by eapply string_sound.
  - dec_inv E v' s2 E2. injection E as <- <-. apply Hl.
    apply (ListSlice_sound (S fuel) TInterface no_tags (decodeInterface fuel));
      [done|done|apply IH|apply eol_still_Interface|done|done|].
    unfold decodeListSlice in E2 |- *. unfold mbind, dec_bind, map_err in E2 |- *. by rewrite <- EL.
Qed.

(** Tags that [parseStructTag] gives to a field of the type, without [nil] on a pointer. *)
Definition tags_fit (t : typ) (ts : tags) : Prop :=
  (is_ptr t = true -> nilOK ts = false) /\ (tail ts = true -> kind_is_slice t = true).

Lemma no_tags_fit t : tags_fit t no_tags.
Proof. done. Qed.

Lemma parse_words_tail last sl ws ts ts' : parse_words last sl ws ts = Ret ts' ->
  (tail ts = true -> sl = true) -> tail ts' = true -> sl = true.
Proof.
  revert ts. induction ws as [|w ws IH]; intros ts; cbn; [by intros [= ->]|].
  do 3 (case_decide; [intros E; exact (IH _ E)|]). case_decide; [|done].
  destruct (negb last); [done|]. destruct (negb sl) eqn:E; [done|]. intros E1 _. apply (IH _ E1).
  intros _. by destruct sl.
Qed.

Lemma parseStructTag_tail f last ts : parseStructTag f last = Ret ts ->
  tail ts = true -> kind_is_slice (f_typ f) = true.
Proof. intros E. eapply parse_words_tail; [exact E|done]. Qed.

Lemma rlp_fields_cons enc v vs f fs : rlp_fields enc (v :: vs) (f :: fs) =
  (if f_exported f then
    ts ← parseStructTag f (match fs with [] => true | _ => false end);
    if ignored ts then rlp_fields enc vs fs
    else b ← enc v (f_typ f) ts; p ← rlp_fields enc vs fs; Ret (b ++ p)
  else rlp_fields enc vs fs).
Proof. done. Qed.

Lemma uints_ok_zero t : uints_ok (zero t) = true.
Proof.
  induction t using typ_ind; cbn; try done.
  - by destruct (isByte t).
  - destruct (isByte t); [done|]. cbn. induction n; [done|]. cbn. by rewrite IHt.
  - induction H as [|f fs Hf _ IH]; [done|]. cbn. by rewrite Hf.
Qed.

Lemma fields_sound dec0 fs s vs s' :
  Forall (fun f => canonical_typ (f_typ f) = true -> forall ts, tags_fit (f_typ f) ts ->
            dec_sound (f_typ f) ts (dec0 (f_typ f) ts)) fs ->
  canonical_typ (TStruct fs) = true ->
  stream_ok s -> ready s -> decode_fields dec0 fs s = (Ret vs, s') ->
  exists p, consumed s p s' /\ rlp_fields rlp_encode vs fs = Ret p /\ forallb uints_ok vs = true.
Proof.
  intros Hfs. revert s vs s'. induction Hfs as [|f fs Hf _ IH]; intros s vs s' Hcan Hs Hk E.
  { injection E as <- <-. exists []. split; [by apply consumed_nil|done]. }
  cbn [canonical_typ] in Hcan. apply andb_prop in Hcan as [Hcf Hcan].
  cbn [decode_fields] in E.
  assert (forall s0 v0, uints_ok v0 = true ->
    (vs ← decode_fields dec0 fs; mret (v0 :: vs)) s0 = (Ret vs, s') -> stream_ok s0 -> ready s0 ->
    exists vs' p, vs = v0 :: vs' /\ consumed s0 p s' /\ rlp_fields rlp_encode vs' fs = Ret p /\
      forallb uints_ok vs = true) as Hrest.
  { intros s0 v0 Hv0 E0 Hs0 Hk0. dec_inv E0 vs1 s1 E1. injection E0 as <- <-.
    destruct (IH _ _ _ Hcan Hs0 Hk0 E1) as (p & Hc & Hp & Hu). exists vs1, p. split_and!; try done.
    cbn. by rewrite Hv0. }
  destruct (f_exported f) eqn:Ef.
  - destruct (parseStructTag f _) as [ts|err|] eqn:Et; [|done..]. cbn in Hcf.
    destruct (ignored ts) eqn:Ei.
    + destruct (Hrest s _ (uints_ok_zero (f_typ f)) E Hs Hk) as (vs' & p & -> & Hc & Hp & Hu).
      exists p. rewrite rlp_fields_cons, Ef, Et. cbn [mbind outcome_bind]. by rewrite Ei.
    + dec_inv E v s1 E1. apply map_err_Ret in E1. cbn in Hcf. apply andb_prop in Hcf as [Hcf Htag].
      assert (tags_fit (f_typ f) ts) as Hfit.
      { split; [|by eapply parseStructTag_tail]. intros Hp. rewrite Hp, andb_true_r in Htag.
        by destruct (nilOK ts). }
      destruct (Hf Hcf ts Hfit _ _ _ Hs Hk E1) as (b & Hc & Hb & Hu & _).
      destruct (Hrest s1 v Hu E (consumed_ok _ _ _ Hs Hc) (consumed_ready _ _ _ Hc))
        as (vs' & p & -> & Hc2 & Hp & Hus).
      exists (b ++ p). split; [by eapply consumed_app|]. split; [|done].
      rewrite rlp_fields_cons, Ef, Et. cbn [mbind outcome_bind]. rewrite Ei, Hb. cbn [mbind outcome_bind].
      by rewrite Hp.
  - destruct (Hrest s _ (uints_ok_zero (f_typ f)) E Hs Hk) as (vs' & p & -> & Hc & Hp & Hu).
    exists p. by rewrite rlp_fields_cons, Ef.
Qed.

Lemma decode_sound t : canonical_typ t = true ->
  forall fuel ts, tags_fit t ts -> dec_sound t ts (decode fuel t ts).
Proof.
  induction t using typ_ind; intros Hcan fuel ts [Hnil Htail] s v s' Hs Hk E; cbn [decode] in E.
  - dec_inv E b s1 E1. injection E as <- <-. destruct (Raw_sound _ _ _ Hs Hk E1) as [Hc Hv].
    exists b. split_and!; [done|done|done|]. intros _ ->. destruct Hv as [(x & [=] & _)|(k & p & _ & _ & E0)].
    destruct (head_bytes_cons k (Z.of_nat (length p)) Byte.x00) as (x & l & E'). by rewrite E' in E0.
  - by apply (BigInt_sound ts) in E as [? _].
  - by apply (BigInt_sound ts) in E as [_ ?].
  - cbn in Hcan. apply andb_prop in Hcan as [H1%Z.leb_le H2%Z.leb_le].
    dec_inv E v' s1 E1. injection E as <- <-. apply map_err_Ret in E1.
    destruct (uint_sound n s v' s1 Hs Hk ltac:(lia) E1) as [Hc Hv]. eapply string_sound; [done|done|].
    cbn. apply andb_true_intro. split; [apply Z.leb_le|apply Z.ltb_lt]; lia.
  - dec_inv E b s1 E1. injection E as <- <-. apply map_err_Ret in E1.
    eapply string_sound; [by apply Bool_sound|done|done].
  - dec_inv E b s1 E1. injection E as <- <-. apply map_err_Ret in E1.
    eapply string_sound; [by apply Bytes_sound|done|done].
  - cbn in Hcan. destruct (isByte t) eqn:Eb.
    { dec_inv E b s1 E1. injection E as <- <-. apply map_err_Ret in E1.
      eapply string_sound; [by apply Bytes_sound| |done]. cbn [rlp_encode]. by rewrite Eb. }
    assert (dec_sound t no_tags (decode fuel t no_tags)) as Hm by (by apply IHt).
    assert (eol_still (decode fuel t no_tags)) as He by (by apply eol_still_decode).
    destruct (tail ts) eqn:Et; [|by eapply ListSlice_sound].
    dec_inv E vs s1 E1. injection E as <- <-.
    destruct (SliceElems_sound _ _ _ _ _ _ Hm He Hs Hk E1) as (p & Hc & Hp & Hu).
    exists p. cbn [rlp_encode]. rewrite Eb, Et, Hp. by split_and!.
  - cbn in Hcan. destruct (isByte t) eqn:Eb.
    { eapply ByteArray_sound; try done. intros ->. done. }
    destruct (tail ts) eqn:Et; [by specialize (Htail eq_refl)|].
    eapply ListArray_sound; try done. by apply IHt.
  - dec_inv E sz s1 E1. apply map_err_Ret in E1. destruct (List_sound _ _ _ Hs Hk E1) as [Ho Hsz].
    destruct (opened_ok _ _ _ Hs Hsz Ho) as [Hs1 Hk1].
    dec_inv E vs s2 E2. dec_inv E u s3 E3. apply map_err_Ret in E3. destruct u. injection E as <- <-.
    destruct (fields_sound (decode fuel) fs s1 vs s2) as (p & Hc & Hp & Hu); try done.
    { eapply Forall_impl; [exact H|]. cbn. intros f Hf Hcf ts' Hts'. by apply Hf. }
    exists (rlp_list p). split; [by eapply list_closed|]. cbn [rlp_encode]. rewrite Hp.
    split; [done|]. split; [done|]. intros _. apply rlp_list_nonempty.
  - rewrite (Hnil eq_refl) in E. dec_inv E v' s1 E1. injection E as <- <-.
    destruct (IHt Hcan fuel no_tags (no_tags_fit t) _ _ _ Hs Hk E1) as (b & Hc & Hb & Hu & Hn).
    exists b. split_and!; [done|done|done|]. intros _. by apply Hn.
  - by eapply Interface_sound.
  - done.
Qed.

(** ** Values that are decoded from their encoding

    No nil pointers or interfaces, interfaces hold what the decoder puts there, unsigned integers
    fit their type, fields that are not encoded are zero. *)

Inductive encodable : typ -> tags -> val -> Prop :=
| enc_raw ts b : encoded_value b -> encodable TRaw ts (VRaw b)
| enc_bigptr ts z : 0 <= z -> encodable TBigPtr ts (VBig z)
| enc_big ts z : 0 <= z -> encodable TBig ts (VBig z)
| enc_uint ts bits z : 0 <= bits <= 64 -> 0 <= z < 256 ^ (bits / 8) -> encodable (TUint bits) ts (VUint z)
| enc_bool ts b : encodable TBool ts (VBool b)
| enc_string ts b : encodable TString ts (VString b)
| enc_bytes ts e b : isByte e = true -> encodable (TSlice e) ts (VBytes b)
| enc_bytearray ts e b : isByte e = true -> b <> [Byte.x00] ->
    encodable (TArray (length b) e) ts (VBytes b)
| enc_slice ts e vs : isByte e = false -> genTypeInfo e = Ret tt -> encodable_all e vs ->
    encodable (TSlice e) ts (VSeq vs)
| enc_array ts e vs : isByte e = false -> tail ts = false -> encodable_all e vs ->
    encodable (TArray (length vs) e) ts (VSeq vs)
| enc_struct ts fs vs : encodable_fields fs vs -> encodable (TStruct fs) ts (VStruct vs)
| enc_ptr ts e v : nilOK ts = false -> encodable e no_tags v -> encodable (TPtr e) ts (VPtr v)
| enc_iface_bytes ts b : encodable TInterface ts (VIface (TSlice (TUint 8)) (VBytes b))
| enc_iface_list ts vs : encodable_all TInterface vs ->
    encodable TInterface ts (VIface (TSlice TInterface) (VSeq vs))
with encodable_all : typ -> list val -> Prop :=
| enc_nil e : encodable_all e []
| enc_cons e v vs : encodable e no_tags v -> encodable_all e vs -> encodable_all e (v :: vs)
with encodable_fields : list (field typ) -> list val -> Prop :=
| enc_fields_nil : encodable_fields [] []
| enc_fields_hidden f fs vs : f_exported f = false -> encodable_fields fs vs ->
    encodable_fields (f :: fs) (zero (f_typ f) :: vs)
| enc_fields_ignored f fs ts vs : f_exported f = true ->
    parseStructTag f (match fs with [] => true | _ => false end) = Ret ts -> ignored ts = true ->
    encodable_fields fs vs -> encodable_fields (f :: fs) (zero (f_typ f) :: vs)
| enc_fields_cons f fs ts v vs : f_exported f = true ->
    parseStructTag f (match fs with [] => true | _ => false end) = Ret ts -> ignored ts = false ->
    encodable (f_typ f) ts v -> encodable_fields fs vs -> encodable_fields (f :: fs) (v :: vs).

Scheme encodable_mind := Minimality for encodable Sort Prop
  with encodable_all_mind := Minimality for encodable_all Sort Prop
  with encodable_fields_mind := Minimality for encodable_fields Sort Prop.
Combined Scheme encodable_mutind from encodable_mind, encodable_all_mind, encodable_fields_mind.

Lemma encodable_nonempty t ts v b : encodable t ts v -> tail ts = false ->
  rlp_encode v t ts = Ret b -> b <> [].
Proof.
  intros H. revert b. induction H; intros b' Ht E; cbn [rlp_encode] in E.
  - injection E as <-. destruct H as [(x & -> & _)|(k & p & _ & _ & ->)]; [done|].
    destruct (head_bytes_cons k (Z.of_nat (length p)) Byte.x00) as (x & l & ->). done.
  - destruct (z <? 0); [done|]. injection E as <-. apply rlp_string_nonempty.
  - destruct (z <? 0); [done|]. injection E as <-. apply rlp_string_nonempty.
  - injection E as <-. apply rlp_string_nonempty.
  - injection E as <-. apply rlp_string_nonempty.
  - injection E as <-. apply rlp_string_nonempty.
  - rewrite H in E. injection E as <-. apply rlp_string_nonempty.
  - rewrite H in E. injection E as <-. apply rlp_string_nonempty.
  - rewrite H, Ht in E. go_bind E as p E1. injection E as <-. apply rlp_list_nonempty.
  - rewrite H, Ht in E. go_bind E as p E1. injection E as <-. apply rlp_list_nonempty.
  - go_bind E as p E1. injection E as <-. apply rlp_list_nonempty.
  - by apply IHencodable.
  - injection E as <-. apply rlp_string_nonempty.
  - cbn in E. go_bind E as p E1. injection E as <-. apply rlp_list_nonempty.
Qed.

(** ** At the end of a list *)

Definition at_end (s : Stream) : Prop :=
  match s_stack s with (pos, size) :: _ => pos = size | [] => False end.

Lemma Kind_at_end s : ready s -> at_end s -> Stream_Kind s = (Err EOL, set_kinderr s None).
Proof.
  intros Hk He. unfold Stream_Kind. rewrite Hk. unfold at_end in He. cbn.
  destruct (s_stack s) as [|[pos size] st]; [done|]. subst. by rewrite Z.eqb_refl.
Qed.

Lemma decode_at_end t fuel s : genTypeInfo t = Ret tt -> (0 < fuel)%nat -> ready s -> at_end s ->
  exists s', decode fuel t no_tags s = (Err EOL, s').
Proof.
  intros Ht Hf Hk He. pose proof (Kind_at_end s Hk He) as EK.
  assert (forall {A B} (g : Kind * Z -> dec A) (f : A -> dec B),
    ((Stream_Kind ≫= g) ≫= f) s = (Err EOL, set_kinderr s None)) as L.
  { intros A B g f. unfold mbind, dec_bind. by rewrite EK. }
  assert (forall {A B} (g : Kind * Z -> dec A) (f : A -> dec B),
    (map_err wrapStreamError (Stream_Kind ≫= g) ≫= f) s = (Err EOL, set_kinderr s None)) as Lw.
  { intros A B g f. unfold map_err, mbind, dec_bind. by rewrite EK. }
  revert Ht. induction t using typ_ind; intros Ht; cbn [genTypeInfo] in Ht;
    try (eexists; first [apply L | apply Lw]; done); cbn [decode].
  - eexists. unfold Stream_Bool, map_err, Stream_uint, mbind, dec_bind. by rewrite EK.
  - destruct (isByte t); eexists; [apply Lw|]. cbn [tail no_tags]. apply Lw.
  - destruct (isByte t); eexists; [|apply Lw]. unfold decodeByteArray, mbind, dec_bind. by rewrite EK.
  - destruct (IHt Ht) as [s' E]. exists s'. cbn [nilOK no_tags]. unfold mbind, dec_bind. by rewrite E.
  - destruct fuel as [|fuel]; [lia|]. eexists. cbn [decodeInterface]. unfold mbind, dec_bind. by rewrite EK.
  - done.
Qed.

(** What is left of the innermost list is [b]. *)
Definition ends (s : Stream) (b : bytes) : Prop :=
  match s_stack s with (pos, size) :: _ => pos + Z.of_nat (length b) = size | [] => False end.

Lemma ends_nil s : ends s [] -> at_end s.
Proof. unfold ends, at_end. destruct (s_stack s) as [|[pos size] st]; [done|]. cbn. lia. Qed.

Lemma ends_app s a b s1 : ends s (a ++ b) -> consumed s a s1 -> ends s1 b.
Proof.
  intros He [_ (_ & _ & _ & _ & Hst)%norm_eq]. unfold ends in *. rewrite Hst. cbn.
  destruct (s_stack s) as [|[pos size] st]; [done|]. rewrite length_app in He. lia.
Qed.

Lemma opened_ends s p s1 : opened s (Z.of_nat (length p)) s1 -> ends s1 p.
Proof.
  intros (s0 & _ & _ & (_ & _ & _ & _ & Hst)%norm_eq). unfold ends. by rewrite Hst.
Qed.

Lemma opened_shorter s size s1 : opened s size s1 -> (length (s_r s1) < length (s_r s))%nat.
Proof.
  intros (s0 & Hc & _ & (Hr & _)%norm_eq). rewrite Hr, (consumed_input _ _ _ Hc), length_app. cbn.
  destruct (head_bytes_cons KList size Byte.x00) as (x & l & E). cbn in E. rewrite E. cbn. lia.
Qed.

Lemma consumed_shorter s b s1 : consumed s b s1 -> (length (s_r s1) <= length (s_r s))%nat.
Proof. intros Hc. rewrite (consumed_input _ _ _ Hc), length_app. lia. Qed.

(** ** Encodings are decoded *)

Definition fits (s : Stream) (b : bytes) (fuel : nat) : Prop :=
  stream_ok s /\ ready s /\ can_read s b /\ Z.of_nat (length b) <= maxAlloc /\ (length (s_r s) < fuel)%nat.

Lemma fits_app s a b fuel : fits s (a ++ b) fuel ->
  fits s a fuel /\ forall s1, consumed s a s1 -> fits s1 b fuel.
Proof.
  intros (Hs & Hk & Hc & Hl & Hf). rewrite length_app in Hl. destruct (can_read_app _ _ _ Hc) as [Ha Hb].
  split; [repeat split; try apply Hs; try apply Ha; try done; lia|]. intros s1 H1.
  pose proof (consumed_shorter _ _ _ H1). split_and!; [by eapply consumed_ok|by eapply consumed_ready|by apply Hb|lia|lia].
Qed.

Lemma fits_mono s b fuel fuel' : fits s b fuel -> (fuel <= fuel')%nat -> fits s b fuel'.
Proof. intros (? & ? & ? & ? & ?) ?. split_and!; [done..|lia]. Qed.

(** The list at the head of the input, opened. *)
Lemma fits_list s p fuel : fits s (rlp_list p) fuel ->
  exists s1, Stream_List s = (Ret (Z.of_nat (length p)), s1) /\ opened s (Z.of_nat (length p)) s1 /\
    fits s1 p (pred fuel) /\ ends s1 p.
Proof.
  intros (Hs & Hk & Hc & Hl & Hf).
  assert (Z.of_nat (length p) <= maxAlloc) as Hp by (unfold rlp_list in Hl; rewrite length_app in Hl; lia).
  destruct (List_complete s p Hs Hk ltac:(lia) Hc) as (s1 & E & Ho & Hc1). exists s1.
  destruct (opened_ok s (Z.of_nat (length p)) s1 Hs ltac:(lia) Ho) as [Hs1 Hk1].
  pose proof (opened_shorter _ _ _ Ho).
  split_and!; [done|done| |by eapply opened_ends]. split_and!; [done..|lia].
Qed.

Lemma list_close s p s1 s2 : stream_ok s -> opened s (Z.of_nat (length p)) s1 -> consumed s1 p s2 ->
  exists s3, Stream_ListEnd s2 = (Ret tt, s3) /\ consumed s (rlp_list p) s3.
Proof.
  intros Hs Ho Hc. destruct (opened_consumed _ _ _ _ _ Ho Hc) as (st & _ & _ & Hend). by apply Hend.
Qed.

Definition dec_complete (t : typ) (ts : tags) (v : val) : Prop := forall fuel s b,
  rlp_encode v t ts = Ret b -> fits s b fuel -> (tail ts = true -> ends s b) ->
  exists s', decode fuel t ts s = (Ret v, s') /\ consumed s b s'.

Definition all_complete (e : typ) (vs : list val) : Prop := forall fuel s p,
  rlp_elems rlp_encode e vs = Ret p -> fits s p fuel ->
  (exists s', decode_array_elems (length vs) (decode fuel e no_tags) s = (Ret vs, s') /\ consumed s p s') /\
  (genTypeInfo e = Ret tt -> ends s p -> forall fuel', (length (s_r s) < fuel')%nat ->
   exists s', decodeSliceElems fuel' (decode fuel e no_tags) s = (Ret vs, s') /\ consumed s p s').

Definition fields_complete (fs : list (field typ)) (vs : list val) : Prop := forall fuel s p,
  rlp_fields rlp_encode vs fs = Ret p -> fits s p fuel -> ends s p ->
  exists s', decode_fields (decode fuel) fs s = (Ret vs, s') /\ consumed s p s'.

Lemma string_complete {A} (m : dec A) g a s b :
  (exists s', m s = (Ret a, s') /\ consumed s b s') ->
  exists s', (map_err wrapStreamError m ≫= (fun x => mret (g x) : dec val)) s = (Ret (g a), s') /\ consumed s b s'.
Proof.
  intros (s' & E & Hc). exists s'. split; [|done]. unfold map_err, mbind, dec_bind. by rewrite E.
Qed.

Lemma Bytes_complete' s b fuel : fits s (rlp_string b) fuel ->
  exists s', Stream_Bytes s = (Ret b, s') /\ consumed s (rlp_string b) s'.
Proof.
  intros (Hs & Hk & Hc & Hl & _). apply Bytes_complete; try done.
  destruct (single_dec b) as [(x & -> & _)|Hn]; [cbn; lia|].
  rewrite rlp_string_long, length_app in Hl by done. lia.
Qed.

Lemma BigInt_complete s z fuel : 0 <= z -> fits s (rlp_string (Bytes z)) fuel ->
  exists s', decodeBigInt s = (Ret (VBig z), s') /\ consumed s (rlp_string (Bytes z)) s'.
Proof.
  intros Hz Hf. destruct (Bytes_complete' _ _ _ Hf) as (s' & E & Hc). exists s'. split; [|done].
  unfold decodeBigInt, map_err, mbind, dec_bind. rewrite E.
  destruct (decide (z = 0)) as [->|]; [done|].
  destruct (Bytes_head z ltac:(lia)) as (x & l & Eb & Hx). pose proof (SetBytes_Bytes z Hz) as Hsb.
  rewrite Eb in Hsb |- *. destruct (Z.eqb_spec (ub x) 0); [done|]. cbn [mret dec_ret]. by rewrite Hsb.
Qed.

Lemma ByteArray_complete s b fuel : b <> [Byte.x00] -> fits s (rlp_string b) fuel ->
  exists s', decodeByteArray (length b) s = (Ret (VBytes b), s') /\ consumed s (rlp_string b) s'.
Proof.
  intros Hz Hf. pose proof Hf as (Hs & Hk & Hc & Hl & _). unfold decodeByteArray.
  destruct (single_dec b) as [(x & -> & Hx)|Hn].
  - rewrite rlp_string_single in * by done. destruct (byte_complete s x Hs Hk Hx Hc) as (s1 & E & Hb & Hc1).
    exists (set_kind s1 None). split; [|done]. rewrite (dec_bind_eq _ _ _ _ _ E). cbn [length Nat.eqb Nat.ltb Nat.leb].
    unfold Stream_Uint, Stream_uint. rewrite (dec_bind_eq _ _ _ _ _ (Kind_cached _ _ _ E)).
    unfold get_byteval, rearm, mbind, dec_bind. rewrite Hb.
    destruct (Z.eqb_spec (ub x) 0) as [H0|]; [|cbn; by rewrite u8_ub].
    destruct Hz. f_equal. rewrite <- (u8_ub x), H0. done.
  - rewrite rlp_string_long in * by done. rewrite length_app in Hl.
    destruct (content_complete s KString b Hs Hk ltac:(done) ltac:(lia) Hc) as (s1 & s2 & E & E2 & Hc2).
    exists s2. split; [|done]. rewrite (dec_bind_eq _ _ _ _ _ E). rewrite Z.ltb_irrefl.
    rewrite (dec_bind_eq _ _ _ _ _ E2). destruct b as [|x [|y b]]; [done| |done].
    destruct (Z.ltb_spec (ub x) 128); [|done]. destruct Hn. by exists x.
Qed.

Lemma all_complete_nil e : all_complete e [].
Proof.
  intros fuel s p E Hf. injection E as <-. destruct Hf as (Hs & Hk & _ & _ & Hfuel). split.
  - exists s. split; [done|]. by apply consumed_nil.
  - intros Ht He [|fuel'] Hf'; [lia|].
    destruct (decode_at_end e fuel s Ht ltac:(lia) Hk (ends_nil _ He)) as [s' E].
    exists s'. cbn [decodeSliceElems]. rewrite E. split; [done|].
    eapply consumed_norm; [by apply consumed_nil|]. exact (eol_still_decode fuel e no_tags eq_refl s s' Hk E).
Qed.

Lemma all_complete_cons e v vs : encodable e no_tags v -> dec_complete e no_tags v ->
  all_complete e vs -> all_complete e (v :: vs).
Proof.
  intros Hv Hd IH fuel s p E Hf. rewrite rlp_elems_cons in E. go_bind E as b E1. go_bind E as q E2.
  injection E as <-. destruct (fits_app _ _ _ _ Hf) as [Hfb Hfq].
  destruct (Hd fuel s b E1 Hfb ltac:(done)) as (s1 & Es1 & Hc1).
  destruct (IH fuel s1 q E2 (Hfq _ Hc1)) as [(s2 & Es2 & Hc2) Hslice]. split.
  - exists s2. split; [|by eapply consumed_app]. cbn [length decode_array_elems].
    rewrite Es1. unfold mbind, dec_bind. by rewrite Es2.
  - intros Ht He [|fuel'] Hf'; [lia|].
    pose proof (encodable_nonempty _ _ _ _ Hv eq_refl E1) as Hne.
    destruct (Hslice Ht (ends_app _ _ _ _ He Hc1) fuel') as (s3 & Es3 & Hc3).
    { rewrite (consumed_input _ _ _ Hc1), length_app in Hf'. destruct b; [done|cbn in Hf'; lia]. }
    exists s3. split; [|by eapply consumed_app]. cbn [decodeSliceElems].
    rewrite Es1. unfold mbind, dec_bind. by rewrite Es3.
Qed.

Lemma ListSlice_complete e vs fuel fuel' s p : genTypeInfo e = Ret tt -> all_complete e vs ->
  rlp_elems rlp_encode e vs = Ret p -> fits s (rlp_list p) (S fuel) -> (vs <> [] -> p <> []) ->
  (length (s_r s) < fuel')%nat ->
  exists s', decodeListSlice fuel' (decode fuel e no_tags) s = (Ret (VSeq vs), s') /\
    consumed s (rlp_list p) s'.
Proof.
  intros Ht Hall Ep Hf Hne Hf'. destruct (fits_list _ _ _ Hf) as (s1 & E & Ho & Hf1 & He). cbn [pred] in Hf1.
  destruct (Hall fuel s1 p Ep Hf1) as [_ Hs].
  destruct (Hs Ht He fuel') as (s2 & E2 & Hc2); [pose proof (opened_shorter _ _ _ Ho); lia|].
  assert (stream_ok s) as Hok by apply Hf. unfold decodeListSlice.
  assert (forall f : Z -> dec val, (map_err wrapStreamError Stream_List ≫= f) s = f (Z.of_nat (length p)) s1) as ->.
  { intros f. unfold map_err, mbind, dec_bind. by rewrite E. }
  destruct (Z.eqb_spec (Z.of_nat (length p)) 0) as [H0|].
  - destruct p; [|done]. destruct vs; [|by destruct Hne].
    assert (consumed s1 [] s1) as Hc1 by (apply consumed_nil; apply Hf1).
    destruct (list_close _ _ _ _ Hok Ho Hc1) as (s3 & E3 & Hc3). exists s3. split; [|done].
    by rewrite (dec_bind_eq _ _ _ _ _ E3).
  - destruct (list_close _ _ _ _ Hok Ho Hc2) as (s3 & E3 & Hc3). exists s3. split; [|done].
    rewrite (dec_bind_eq _ _ _ _ _ E2). by rewrite (dec_bind_eq _ _ _ _ _ E3).
Qed.

Lemma elems_nonempty e vs p : encodable_all e vs -> rlp_elems rlp_encode e vs = Ret p -> vs <> [] -> p <> [].
Proof.
  intros Ha E Hne. destruct Ha as [|e v vs Hv _]; [done|]. rewrite rlp_elems_cons in E.
  go_bind E as b E1. go_bind E as q E2. injection E as <-.
  pose proof (encodable_nonempty _ _ _ _ Hv eq_refl E1). by destruct b.
Qed.

Lemma parse_words_last last sl ws ts ts' : parse_words last sl ws ts = Ret ts' ->
  (tail ts = true -> last = true) -> tail ts' = true -> last = true.
Proof.
  revert ts. induction ws as [|w ws IH]; intros ts; cbn; [by intros [= ->]|].
  do 3 (case_decide; [intros E; exact (IH _ E)|]). case_decide; [|done].
  destruct (negb last) eqn:E; [done|]. destruct (negb sl); [done|]. intros E1 _. apply (IH _ E1).
  intros _. by destruct last.
Qed.

Lemma parseStructTag_last f last ts : parseStructTag f last = Ret ts -> tail ts = true -> last = true.
Proof. intros E. eapply parse_words_last; [exact E|done]. Qed.

Lemma fields_complete_skip f fs vs : f_exported f = false \/
  (exists ts, f_exported f = true /\ ignored ts = true /\
    parseStructTag f (match fs with [] => true | _ => false end) = Ret ts) ->
  fields_complete fs vs -> fields_complete (f :: fs) (zero (f_typ f) :: vs).
Proof.
  intros Hskip IH fuel s p E Hf He. rewrite rlp_fields_cons in E. cbn [decode_fields].
  destruct Hskip as [Ef|(ts & Ef & Ei & Et)]; rewrite Ef in E |- *; [|rewrite Et, Ei;
    rewrite Et in E; cbn [mbind outcome_bind] in E; rewrite Ei in E].
  all: destruct (IH fuel s p E Hf He) as (s' & E' & Hc); exists s'; split; [|done].
  all: unfold mbind, dec_bind; by rewrite E'.
Qed.

Lemma fields_complete_cons f fs ts v vs : f_exported f = true ->
  parseStructTag f (match fs with [] => true | _ => false end) = Ret ts -> ignored ts = false ->
  dec_complete (f_typ f) ts v -> fields_complete fs vs -> fields_complete (f :: fs) (v :: vs).
Proof.
  intros Ef Et Ei Hv IH fuel s p E Hf He. rewrite rlp_fields_cons, Ef, Et in E.
  cbn [mbind outcome_bind] in E. rewrite Ei in E. go_bind E as b E1. go_bind E as q E2. injection E as <-.
  destruct (fits_app _ _ _ _ Hf) as [Hfb Hfq].
  destruct (Hv fuel s b E1 Hfb) as (s1 & Es1 & Hc1).
  { intros Htail. pose proof (parseStructTag_last _ _ _ Et Htail) as Hlast. destruct fs; [|done].
    destruct vs; [|done]. injection E2 as <-. by rewrite app_nil_r in He. }
  destruct (IH fuel s1 q E2 (Hfq _ Hc1) (ends_app _ _ _ _ He Hc1)) as (s2 & Es2 & Hc2).
  exists s2. split; [|by eapply consumed_app]. cbn [decode_fields]. rewrite Ef, Et, Ei.
  unfold map_err, mbind, dec_bind. by rewrite Es1, Es2.
Qed.

(** An interface is decoded by the kind of its value. *)
Lemma Interface_complete_bytes fuel s b : fits s (rlp_string b) fuel ->
  exists s', decodeInterface fuel s = (Ret (VIface (TSlice (TUint 8)) (VBytes b)), s') /\
    consumed s (rlp_string b) s'.
Proof.
  intros Hf. destruct (Bytes_complete' _ _ _ Hf) as (s' & E & Hc). exists s'. split; [|done].
  destruct fuel as [|fuel]; [destruct Hf as (_ & _ & _ & _ & ?); lia|]. cbn [decodeInterface].
  pose proof E as E0. unfold Stream_Bytes in E0. dec_inv E0 a s1 E1. destruct a as [k sz].
  rewrite (dec_bind_eq _ _ _ _ _ E1).
  assert (Stream_Bytes s1 = Stream_Bytes s) as EB by (eapply decoded_again; [apply Hf|apply Hf|done|done]).
  destruct k; [| |done]; unfold mbind, dec_bind; by rewrite EB, E.
Qed.

Lemma Interface_complete_list fuel s vs b : encodable_all TInterface vs -> all_complete TInterface vs ->
  rlp_encode (VIface (TSlice TInterface) (VSeq vs)) TInterface no_tags = Ret b -> fits s b fuel ->
  exists s', decodeInterface fuel s = (Ret (VIface (TSlice TInterface) (VSeq vs)), s') /\ consumed s b s'.
Proof.
  intros Hne Hall E Hf. cbn in E. go_bind E as p Ep. injection E as <-.
  destruct fuel as [|fuel]; [destruct Hf as (_ & _ & _ & _ & ?); lia|].
  destruct (ListSlice_complete TInterface vs fuel (S fuel) s p) as (s' & E & Hc); try done.
  { by eapply elems_nonempty. }
  { apply Hf. }
  exists s'. split; [|done]. cbn [decodeInterface]. pose proof E as E0. unfold decodeListSlice in E0.
  dec_inv E0 sz s1 E1. apply map_err_Ret in E1. unfold Stream_List in E1. dec_inv E1 a s2 E2.
  destruct a as [k sz']. rewrite (dec_bind_eq _ _ _ _ _ E2). destruct k; [done..|].
  assert (Stream_List s2 = Stream_List s) as EL by (eapply decoded_again; [apply Hf|apply Hf|done|done]).
  unfold mbind, dec_bind. change (decode fuel TInterface no_tags) with (decodeInterface fuel) in E.
  unfold decodeListSlice, mbind, dec_bind, map_err in E |- *. rewrite EL. by rewrite E.
Qed.

(** The decoder of a type returns what its encoder was given. *)
Lemma decode_complete :
  (forall t ts v, encodable t ts v -> dec_complete t ts v) /\
  (forall e vs, encodable_all e vs -> encodable_all e vs /\ all_complete e vs) /\
  (forall fs vs, encodable_fields fs vs -> fields_complete fs vs).
Proof.
  apply (encodable_mutind dec_complete (fun e vs => encodable_all e vs /\ all_complete e vs)).
  - intros ts b Hv fuel s b' E Hf _. injection E as <-.
    destruct (Raw_complete s b) as (s' & E & Hc); [apply Hf..|done|apply Hf|apply Hf|].
    exists s'. cbn [decode]. by rewrite (dec_bind_eq _ _ _ _ _ E).
  - intros ts z Hz fuel s b E Hf _. cbn in E. destruct (Z.ltb_spec z 0); [lia|]. injection E as <-.
    by eapply BigInt_complete.
  - intros ts z Hz fuel s b E Hf _. cbn in E. destruct (Z.ltb_spec z 0); [lia|]. injection E as <-.
    by eapply BigInt_complete.
  - intros ts bits z Hb Hz fuel s b E Hf _. injection E as <-. cbn [decode]. apply string_complete.
    by apply uint_complete; try apply Hf.
  - intros ts x fuel s b E Hf _. injection E as <-. cbn [decode]. apply string_complete.
    by apply Bool_complete; try apply Hf.
  - intros ts x fuel s b E Hf _. injection E as <-. cbn [decode]. apply string_complete.
    by eapply Bytes_complete'.
  - intros ts e x He fuel s b E Hf _. cbn in E. rewrite He in E. injection E as <-. cbn [decode]. rewrite He.
    apply string_complete. by eapply Bytes_complete'.
  - intros ts e x He Hx fuel s b E Hf _. cbn in E. rewrite He in E. injection E as <-. cbn [decode]. rewrite He.
    by eapply ByteArray_complete.
  - intros ts e vs He Ht _ [Hne Hall] fuel s b E Hf Htail. cbn [rlp_encode decode] in *. rewrite He in *.
    destruct (tail ts).
    + destruct (Hall fuel s b E Hf) as [_ Hs].
      destruct (Hs Ht (Htail eq_refl) fuel) as (s' & Es & Hc); [apply Hf|].
      exists s'. by rewrite (dec_bind_eq _ _ _ _ _ Es).
    + go_bind E as p Ep. injection E as <-.
      eapply ListSlice_complete; try done; [|by eapply elems_nonempty|apply Hf].
      eapply fits_mono; [done|lia].
  - intros ts e vs He Ht _ [_ Hall] fuel s b E Hf _. cbn [rlp_encode decode] in *. rewrite He, Ht in *.
    go_bind E as p Ep. injection E as <-. destruct (fits_list _ _ _ Hf) as (s1 & E1 & Ho & Hf1 & _).
    destruct (Hall fuel s1 p Ep) as [(s2 & E2 & Hc2) _]; [eapply fits_mono; [done|lia]|].
    destruct (list_close s p s1 s2) as (s3 & E3 & Hc3); [apply Hf|done|done|].
    exists s3. split; [|done]. unfold decodeListArray, map_err, mbind, dec_bind. by rewrite E1, E2, E3.
  - intros ts fs vs _ Hfs fuel s b E Hf _. cbn [rlp_encode decode] in *. go_bind E as p Ep. injection E as <-.
    destruct (fits_list _ _ _ Hf) as (s1 & E1 & Ho & Hf1 & He).
    destruct (Hfs fuel s1 p Ep) as (s2 & E2 & Hc2); [eapply fits_mono; [done|lia]|done|].
    destruct (list_close s p s1 s2) as (s3 & E3 & Hc3); [apply Hf|done|done|].
    exists s3. split; [|done]. unfold map_err, mbind, dec_bind. by rewrite E1, E2, E3.
  - intros ts e v Hn _ IH fuel s b E Hf _. cbn [rlp_encode decode] in *. rewrite Hn.
    destruct (IH fuel s b E Hf ltac:(done)) as (s' & E' & Hc). exists s'.
    by rewrite (dec_bind_eq _ _ _ _ _ E').
  - intros ts x fuel s b E Hf _. injection E as <-. by apply Interface_complete_bytes.
  - intros ts vs _ [Hne Hall] fuel s b E Hf _. by apply Interface_complete_list.
  - intros e. split; [constructor|apply all_complete_nil].
  - intros e v vs Hv IHv Hvs [_ IH]. split; [by constructor|by apply all_complete_cons].
  - intros fuel s p E Hf _. injection E as <-. exists s. split; [done|]. apply consumed_nil; apply Hf.
  - intros f fs vs Hx _ IH. apply fields_complete_skip; auto.
  - intros f fs ts vs Hx Ht Hi _ IH. apply fields_complete_skip; [|done]. right. by exists ts.
  - intros f fs ts v vs Hx Ht Hi _ Hv _ IH. by eapply fields_complete_cons.
Qed.

(** ** Values that can be encoded *)

Lemma uints_ok_Uint bits z : 0 <= bits <= 64 -> 0 <= z < 256 ^ (bits / 8) -> uints_ok (VUint z) = true.
Proof.
  intros Hb Hz. cbn. apply andb_true_intro. split; [apply Z.leb_le; lia|]. apply Z.ltb_lt.
  assert (256 ^ (bits / 8) <= 256 ^ 8); [|lia]. apply Z.pow_le_mono_r; [lia|].
  apply Z.div_le_upper_bound; lia.
Qed.

Lemma encodable_encodes :
  (forall t ts v, encodable t ts v -> uints_ok v = true /\ exists b, rlp_encode v t ts = Ret b) /\
  (forall e vs, encodable_all e vs ->
     forallb uints_ok vs = true /\ exists p, rlp_elems rlp_encode e vs = Ret p) /\
  (forall fs vs, encodable_fields fs vs ->
     forallb uints_ok vs = true /\ exists p, rlp_fields rlp_encode vs fs = Ret p).
Proof.
  apply encodable_mutind; try (by eauto).
  - intros ts z Hz. split; [done|]. cbn. destruct (Z.ltb_spec z 0); [lia|by eexists].
  - intros ts z Hz. split; [done|]. cbn. destruct (Z.ltb_spec z 0); [lia|by eexists].
  - intros ts bits z Hb Hz. split; [by eapply uints_ok_Uint|by eexists].
  - intros ts e b He. split; [done|]. cbn. rewrite He. by eexists.
  - intros ts e b He _. split; [done|]. cbn. rewrite He. by eexists.
  - intros ts e vs He _ _ [Hu [p Hp]]. split; [done|]. cbn. rewrite He, Hp. by destruct (tail ts); eexists.
  - intros ts e vs He Ht _ [Hu [p Hp]]. split; [done|]. cbn. rewrite He, Ht, Hp. by eexists.
  - intros ts fs vs _ [Hu [p Hp]]. split; [done|]. cbn. rewrite Hp. by eexists.
  - intros ts vs _ [Hu [p Hp]]. split; [done|]. cbn in *. rewrite Hp. by eexists.
  - intros e v vs _ [Hu [b Hb]] _ [Hus [p Hp]]. split; [cbn; by rewrite Hu|].
    rewrite rlp_elems_cons, Hb. cbn [mbind outcome_bind]. rewrite Hp. by eexists.
  - intros f fs vs Hf _ [Hu [p Hp]]. split; [cbn; by rewrite uints_ok_zero|].
    rewrite rlp_fields_cons, Hf. by exists p.
  - intros f fs ts vs Hf Ht Hi _ [Hu [p Hp]]. split; [cbn; by rewrite uints_ok_zero|].
    rewrite rlp_fields_cons, Hf, Ht. cbn [mbind outcome_bind]. rewrite Hi. by exists p.
  - intros f fs ts v vs Hf Ht Hi _ [Hu [b Hb]] _ [Hus [p Hp]]. split; [cbn; by rewrite Hu|].
    rewrite rlp_fields_cons, Hf, Ht. cbn [mbind outcome_bind]. rewrite Hi, Hb. cbn [mbind outcome_bind].
    rewrite Hp. by eexists.
Qed.

(** ** Whole inputs *)

Lemma NewStream_fits b rest slice limit fuel : Z.of_nat (length b) <= maxAlloc ->
  (0 < limit -> Z.of_nat (length b) <= limit) -> (length (b ++ rest) < fuel)%nat ->
  fits (NewStream (b ++ rest) slice limit) b fuel.
Proof.
  intros Hb Hl Hf. rewrite length_app in Hf. unfold NewStream. split_and!; try done.
  - split; [constructor|]. cbn. intros _. destruct (Z.ltb_spec 0 limit); [lia|].
    destruct slice; lia.
  - split; [by exists rest|]. split; [done|]. cbn. rewrite length_app. split; [|lia].
    destruct (Z.ltb_spec 0 limit); [intros _; lia|]. destruct slice; [lia|done].
  - cbn. rewrite length_app. lia.
Qed.

Lemma Stream_Decode_complete t v b rest slice limit : encodable t no_tags v -> genTypeInfo t = Ret tt ->
  rlp_encode v t no_tags = Ret b -> Z.of_nat (length b) <= maxAlloc ->
  (0 < limit -> Z.of_nat (length b) <= limit) ->
  exists s', Stream_Decode t (NewStream (b ++ rest) slice limit) = (Ret v, s') /\ s_r s' = rest.
Proof.
  intros Hv Ht He Hb Hl. unfold Stream_Decode. rewrite Ht. cbn [s_r NewStream].
  destruct (proj1 decode_complete t no_tags v Hv (S (length (b ++ rest)))
    (NewStream (b ++ rest) slice limit) b He) as (s' & E & Hc).
  { apply NewStream_fits; [done|done|lia]. }
  { done. }
  exists s'. split; [exact E|]. pose proof (consumed_input _ _ _ Hc) as Hi. cbn in Hi.
  by apply app_inv_head in Hi.
Qed.

(** C9: decoding an encoding gives the value back, from a slice and from a stream, which is left
    after the encoding: for every type, nested and tagged as it may be, and every value of it without nil
    pointers and with the fields that are not encoded at zero, as long as its encoding is not longer than a
    slice can be.  The types include booleans, which the comments of [Encode] and [Decode] say
    are not supported: the code encodes them as the integers 0 and 1. *)
Theorem decode_encode (t : typ) (v : val) : encodable t no_tags v -> genTypeInfo t = Ret tt ->
  exists b, rlp_encode v t no_tags = Ret b /\
    (Z.of_nat (length b) <= maxAlloc ->
     EncodeToBytes t v = Ret b /\ DecodeBytes t b = Ret v /\
     forall rest, Decode t (b ++ rest) = Ret (v, rest)).
Proof.
  intros Hv Ht. destruct (proj1 encodable_encodes _ _ _ Hv) as [Hu [b Hb]]. exists b. split; [done|].
  intros Hl. split; [apply EncodeToBytes_encodes; try done; lia|]. split.
  - destruct (Stream_Decode_complete t v b [] true (Z.of_nat (length b)) Hv Ht Hb Hl) as (s' & E & Hr); [lia|].
    rewrite app_nil_r in E. unfold DecodeBytes. by rewrite E, Hr.
  - intros rest. destruct (Stream_Decode_complete t v b rest false 0 Hv Ht Hb Hl) as (s' & E & Hr); [lia|].
    unfold Decode. by rewrite E, Hr.
Qed.

(** A record with a hidden field, a list in the tail, and a nested pointer and interface. *)
Definition entry_typ : typ :=
  TStruct [mk_field true "" (TUint 16); mk_field false "" TOther;
           mk_field true "" (TPtr (TArray 2 TBool)); mk_field true "" TInterface;
           mk_field true "tail" (TSlice TBigPtr)].
Definition entry_val : val :=
  VStruct [VUint 1024; VNil; VPtr (VSeq [VBool true; VBool false]);
           VIface (TSlice TInterface) (VSeq [VIface (TSlice (TUint 8)) (VBytes [Byte.x00])]);
           VSeq [VBig 0; VBig (2 ^ 70)]].

Lemma decode_encode_witness : exists b, rlp_encode entry_val entry_typ no_tags = Ret b /\
  DecodeBytes entry_typ b = Ret entry_val.
Proof.
  destruct (decode_encode entry_typ entry_val) as (b & Eb & H).
  - unfold entry_typ, entry_val. apply enc_struct.
    apply enc_fields_cons with no_tags; [reflexivity..|apply enc_uint; [lia|split; [lia|reflexivity]]|].
    apply (enc_fields_hidden (mk_field false "" TOther)); [reflexivity|].
    apply enc_fields_cons with no_tags; [reflexivity..| |].
    { apply enc_ptr; [reflexivity|]. apply (enc_array no_tags TBool [VBool true; VBool false]); [reflexivity..|].
      repeat constructor. }
    apply enc_fields_cons with no_tags; [reflexivity..|apply enc_iface_list; repeat constructor|].
    eapply enc_fields_cons; [reflexivity..| |apply enc_fields_nil].
    apply enc_slice; [reflexivity..|]. repeat constructor; lia.
  - reflexivity.
  - exists b. split; [exact Eb|]. vm_compute in Eb. injection Eb as <-.
    destruct (H ltac:(vm_compute; congruence)) as (_ & H2 & _). exact H2.
Defined.

Lemma NewStream_ok r slice limit : stream_ok (NewStream r slice limit) /\ ready (NewStream r slice limit).
Proof.
  split; [|done]. split; [constructor|]. cbn. intros _. destruct (Z.ltb_spec 0 limit); [lia|].
  destruct slice; lia.
Qed.

(** C10: nothing but encodings is decoded: for the types that leave no choice, an input that is decoded
    is the encoding of the value it gave, so no two inputs decode to the same value. *)
Theorem decode_canonical (t : typ) (b : bytes) (v : val) : canonical_typ t = true ->
  Z.of_nat (length b) < 2 ^ 64 -> DecodeBytes t b = Ret v -> EncodeToBytes t v = Ret b.
Proof.
  intros Hc Hb E. unfold DecodeBytes, Stream_Decode in E.
  destruct (genTypeInfo t) as [[]|e|] eqn:Et; [|done..].
  destruct (NewStream_ok b true (Z.of_nat (length b))) as [Hs Hk].
  destruct (decode _ t no_tags _) as [[v'|e|] s'] eqn:Ed; [|done..].
  destruct (decode_sound t Hc _ no_tags (no_tags_fit t) _ _ _ Hs Hk Ed) as (b' & Hcs & He & Hu & _).
  pose proof (consumed_input _ _ _ Hcs) as Hi. cbn in Hi.
  destruct (Nat.ltb_spec 0 (length (s_r s'))); [done|]. injection E as <-.
  assert (b' = b) as -> by (rewrite Hi; destruct (s_r s'); [by rewrite app_nil_r|cbn in *; lia]).
  by apply EncodeToBytes_encodes.
Qed.

Lemma decode_canonical_witness :
  EncodeToBytes entry_typ entry_val =
    Ret (u8 0xD3 :: map u8 [0x82; 4; 0; 0xC2; 1; 0x80; 0xC1; 0; 0x80; 0x89; 0x40; 0; 0; 0; 0; 0; 0; 0; 0]).
Proof. apply decode_canonical; vm_compute; reflexivity. Defined.
