(* ===== verification/RlpEnds.v ===== *)
(** * RLP: decoding ends

    For the types with one encoding per value, the fuel of the decoder (the length of the input)
    is enough, and no step panics when the input is limited.  An array of one byte is not stepped over when the byte is
    zero, so that a list of them is decoded for ever. *)

From S2P Require Import Prelude BigInt Rlp RlpStream RlpProofs RlpRoundTrip.

(** ** Results of the code *)

Section Ends.

(** What excludes a panic: the stream announces no size that [make] refuses. *)
Context (P : Prop).

(** Not the end of the fuel, and no panic under [P]. *)
Definition good {A} (r : outcome A * Stream) : Prop := r.1 <> Err no_fuel /\ (P -> r.1 <> Panic).

Definition calm {A} (m : dec A) : Prop := forall s, good (m s).

Lemma calm_ret {A} (a : A) : calm (mret a : dec A).
Proof. done. Qed.

Lemma calm_fail {A} e : e <> no_fuel -> calm (fail e : dec A).
Proof. intros He s. split; [|done]. cbn. congruence. Qed.

Lemma calm_at {A} (m : dec A) s : calm m -> good (m s).
Proof. intros H. apply H. Qed.

Lemma good_bind {A B} (m : dec A) (f : A -> dec B) s : good (m s) ->
  (forall a s1, m s = (Ret a, s1) -> good (f a s1)) -> good ((m ≫= f) s).
Proof.
  intros [H1 H2] Hf. unfold mbind, dec_bind. destruct (m s) as [[a|e|] s1].
  - by apply Hf.
  - split; [|done]. cbn in *. congruence.
  - split; [done|]. intros HP. by destruct (H2 HP).
Qed.

Lemma good_bind_calm {A B} (m : dec A) (f : A -> dec B) s :
  good (m s) -> (forall a, calm (f a)) -> good ((m ≫= f) s).
Proof. intros Hm Hf. apply good_bind; [done|]. intros a s1 _. apply Hf. Qed.

Lemma calm_bind {A B} (m : dec A) (f : A -> dec B) : calm m -> (forall a, calm (f a)) -> calm (m ≫= f).
Proof. intros Hm Hf s. by apply good_bind_calm. Qed.

Lemma good_map_err {A} f (m : dec A) s : (forall e, f e = no_fuel -> e = no_fuel) ->
  good (m s) -> good (map_err f m s).
Proof.
  intros Hf [H1 H2]. unfold map_err. destruct (m s) as [[a|e|] s1]; [done| |by split].
  split; [|done]. cbn in *. intros [= E]. by apply Hf in E as ->.
Qed.

Lemma good_wrap {A} (m : dec A) s : good (m s) -> good (map_err wrapStreamError m s).
Proof. apply good_map_err. intros e. unfold wrapStreamError. repeat case_decide; done. Qed.

Lemma calm_map_canon {A} (m : dec A) : calm m ->
  calm (map_err (fun e => if decide (e = ErrCanonSize) then ErrCanonInt else e) m).
Proof. intros Hm s. apply good_map_err; [|done]. intros e. by case_decide. Qed.

Lemma calm_readFull n : calm (readFull n).
Proof.
  intros s. split; [|intros _; apply readFull_no_panic].
  unfold readFull, willRead, take_input, mbind, dec_bind. destruct s as [r rem lim ? ? ? ? stack]. cbn.
  destruct stack as [|[pos size] st], lim; cbn; repeat (case_match; cbn in *; simplify_eq/=); done.
Qed.

Lemma calm_readByte : calm readByte.
Proof.
  intros s. split; [|intros _; apply readByte_no_panic]. destruct (calm_readFull 1 s) as [H _].
  unfold readByte, readFull, mbind, dec_bind in *. destruct (willRead 1 s) as [[]]; [|cbn in *; congruence..].
  change (Z.to_nat 1) with 1%nat in H. destruct (take_input 1 s0) as [[[|x l]|e|]]; cbn in *; first [done | congruence].
Qed.

Lemma calm_readUint n : calm (readUint n).
Proof.
  unfold readUint. destruct (n =? 0); [done|]. destruct (n =? 1).
  - apply calm_bind; [apply calm_readByte|]. intros. apply calm_ret.
  - apply calm_bind; [apply calm_readFull|]. intros [|x l]; [by apply calm_fail|].
    destruct (ub x =? 0); [by apply calm_fail|apply calm_ret].
Qed.

Create HintDb calm.
#[local] Hint Resolve calm_ret calm_readFull calm_readUint calm_map_canon calm_bind : calm.
#[local] Hint Extern 1 (calm (fail _)) => apply calm_fail; discriminate : calm.
#[local] Hint Extern 1 (calm rearm) => done : calm.
#[local] Hint Extern 1 (calm get_byteval) => done : calm.
#[local] Hint Extern 2 (calm (match ?x with _ => _ end)) => destruct x : calm.

Lemma readKind_no_fuel s k size e s' : readKind s = (k, size, Some e, s') -> e <> no_fuel.
Proof.
  assert (forall k0 n s, readSizeOf k0 n s = (k, size, Some e, s') -> e <> no_fuel) as L.
  { intros k0 n s0 E. unfold readSizeOf in E. destruct (calm_readUint n s0) as [H _].
    destruct (readUint n s0) as [[v|e'|] s1]; [|naive_solver..].
    destruct (v <? 56); by simplify_eq. }
  unfold readKind. destruct (calm_readByte s) as [H _].
  destruct (readByte s) as [[x|e'|] s1]; [| |done].
  - repeat (case_match; [try done; by apply L|]). apply L.
  - cbn in H. intros [= <- <- <- <-]. destruct (s_stack s1); [|naive_solver].
    repeat (case_decide; [done|]). naive_solver.
Qed.

Lemma good_Kind s : ready s -> good (Stream_Kind s).
Proof.
  intros Hk. unfold Stream_Kind. rewrite Hk.
  destruct (match s_stack (set_kinderr s None) with (pos, size) :: _ => pos =? size | [] => false end); [done|].
  destruct (readKind (set_kinderr s None)) as [[[k size] e] s1] eqn:E. cbn zeta.
  destruct e as [e|].
  - apply readKind_no_fuel in E. split; [|done]. cbn. congruence.
  - cbn. destruct (s_stack s1) as [|[pos tsize] st]; [by destruct (_ && _)|by destruct (_ <? _)].
Qed.

Lemma good_Kind_again s a s1 : Stream_Kind s = (Ret a, s1) -> good (Stream_Kind s1).
Proof. intros E. by rewrite (Kind_cached _ _ _ E). Qed.

(** ** Typed reads *)

(** What the stream announces can be made. *)
Definition kind_small (s : Stream) : Prop := forall k size s1, Stream_Kind s = (Ret (k, size), s1) -> k <> KByte ->
  0 <= size < 2 ^ 64 /\ Z.of_nat (headsize size) + size <= maxAlloc.

Lemma kind_small_again s a s1 : Stream_Kind s = (Ret a, s1) -> kind_small s -> kind_small s1.
Proof. intros E H k size s2 E2 Hk. rewrite (Kind_cached _ _ _ E) in E2. injection E2 as -> ->. by apply (H k size s2). Qed.

Lemma good_make_bytes n s : (P -> n <= maxAlloc) -> good (make_bytes n s).
Proof.
  intros H. destruct (make_bytes_cases n s) as [[_ ->]|[? ->]]; [done|]. split; [done|]. intros HP. specialize (H HP). lia.
Qed.

Lemma good_make_raw size s : (P -> 0 <= size < 2 ^ 64 /\ Z.of_nat (headsize size) + size <= maxAlloc) ->
  good (make_raw (Z.of_nat (headsize size)) size s).
Proof.
  intros H. split; [unfold make_raw; by destruct (_ || _)|]. intros [Hs Hm]%H. pose proof (headsize_range size Hs).
  by destruct (make_raw_cases (Z.of_nat (headsize size)) size s) as [[_ ->]|[? _]]; [lia..| |lia].
Qed.

Lemma good_Bytes s : good (Stream_Kind s) -> (P -> kind_small s) -> good (Stream_Bytes s).
Proof.
  intros H Hsm. apply good_bind; [done|]. intros [k size] s1 E. destruct k; [apply calm_at; auto 10 with calm| |apply calm_at; auto 10 with calm].
  apply good_bind_calm; [|intros _; auto 10 with calm].
  apply good_make_bytes. intros HP. destruct (Hsm HP _ _ _ E) as [? ?]; [done|lia].
Qed.

Lemma good_Raw s : good (Stream_Kind s) -> (P -> kind_small s) -> good (Stream_Raw s).
Proof.
  intros H Hsm. apply good_bind; [done|]. intros [k size] s1 E. destruct k; [apply calm_at; auto 10 with calm|..].
  all: apply good_bind_calm; [apply good_make_raw; intros HP; by apply (Hsm HP _ _ _ E)|intros _; auto 10 with calm].
Qed.

Lemma good_uint bits s : good (Stream_Kind s) -> good (Stream_uint bits s).
Proof. intros H. apply good_bind_calm; [done|]. intros [[] size]; auto 10 with calm. Qed.

Lemma good_Bool s : good (Stream_Kind s) -> good (Stream_Bool s).
Proof. intros H. apply good_bind_calm; [by apply good_uint|]. intros v. auto 10 with calm. Qed.

Lemma good_List s : good (Stream_Kind s) -> good (Stream_List s).
Proof. intros H. apply good_bind_calm; [done|]. intros [[] size]; [auto with calm..|]. done. Qed.

Lemma calm_ListEnd : calm Stream_ListEnd.
Proof.
  intros s. unfold Stream_ListEnd. destruct (s_stack s) as [|[pos size] st]; [done|].
  by destruct (negb _).
Qed.

Lemma calm_ListEnd_wrap : calm (map_err wrapStreamError Stream_ListEnd).
Proof. intros s. apply good_wrap, calm_ListEnd. Qed.

#[local] Hint Resolve calm_ListEnd calm_ListEnd_wrap : calm.

Lemma good_ByteArray n s : ready s -> good (decodeByteArray n s).
Proof.
  intros Hk. apply good_bind_calm; [by apply good_Kind|]. intros [[] size]; [|auto 10 with calm..].
  destruct (n =? 0)%nat; [auto with calm|]. destruct (1 <? n)%nat; [auto with calm|].
  intros s1. by destruct (Stream_Uint s1) as [[]].
Qed.

(** The limit and the lists are not larger than what [make] gives. *)
Definition small (s : Stream) : Prop :=
  s_limited s = true /\ s_remaining s <= maxAlloc /\ Forall (fun l => l.2 <= maxAlloc) (s_stack s).

Lemma small_Kind s : stream_ok s -> ready s -> small s -> kind_small s.
Proof.
  intros Hs Hr (Hl & Hm & HF) k size s1 E Hk. apply Kind_iff in E as (bv & h & Hp & Hroom & Hfit & _); [|done..].
  destruct (head_can_read s _ _ _ _ Hs Hp Hroom) as (Hok & Hh & _).
  assert (0 <= size < 2 ^ 64 /\ bv = Byte.x00) as [Hsz ->] by (by destruct k). split; [done|].
  rewrite (headsize_head k), <- Hh by done. destruct Hroom as (R1 & R2 & _). specialize (R2 Hl).
  unfold size_fits, advance in Hfit. cbn in Hfit. destruct Hs as [Hst _]. destruct (s_stack s) as [|[pos tsize] st]; cbn in Hfit.
  - rewrite Hl in Hfit. specialize (Hfit eq_refl). lia.
  - apply Forall_cons in HF as [Ht _]. cbn in Ht. apply Forall_cons in Hst as [Hpos _]. lia.
Qed.

Lemma norm_small s1 s2 : norm s1 = norm s2 -> small s2 -> small s1.
Proof. intros (_ & H2 & H3 & _ & H5)%norm_eq. unfold small. by rewrite H2, H3, H5. Qed.

Lemma consumed_small s b s' : consumed s b s' -> small s -> small s'.
Proof.
  intros [_ Hn] (Hl & Hm & HF). eapply norm_small; [exact Hn|]. split_and!; [done| |].
  - cbn. rewrite Hl. lia.
  - cbn. destruct (s_stack s) as [|[pos size] st]; [done|]. apply Forall_cons in HF as [? ?]. by constructor.
Qed.

Lemma opened_small s size s1 : stream_ok s -> opened s size s1 -> small s -> small s1.
Proof.
  intros Hs (s0 & Hc & Hf & Hn) Hsm. apply (consumed_ok _ _ _ Hs) in Hc as Hs0. apply (consumed_small _ _ _ Hc) in Hsm as (Hl & Hm & HF).
  eapply norm_small; [exact Hn|]. split_and!; [done|done|]. cbn. constructor; [|done]. cbn. unfold size_fits in Hf.
  destruct Hs0 as [Hst _]. destruct (s_stack s0) as [|[pos tsize] st]; [specialize (Hf Hl); lia|].
  apply Forall_cons in HF as [Ht _], Hst as [Hpos _]. cbn in Ht. lia.
Qed.

(** ** Decoders *)

(** From every stream with less input than [fuel]. *)
Definition dec_ends (fuel : nat) (m : dec val) : Prop :=
  forall s, stream_ok s -> ready s -> (P -> small s) -> (length (s_r s) < fuel)%nat -> good (m s).

Lemma SliceElems_ends e fuel fuel' m s : dec_sound e no_tags m -> dec_ends fuel m ->
  stream_ok s -> ready s -> (P -> small s) -> (length (s_r s) < fuel)%nat -> (length (s_r s) < fuel')%nat ->
  good (decodeSliceElems fuel' m s).
Proof.
  intros Hm He. revert s. induction fuel' as [|fuel' IH]; intros s Hs Hk Hsm Hf Hf'; [lia|].
  cbn [decodeSliceElems]. destruct (He s Hs Hk Hsm Hf) as [H1 H2]. destruct (m s) as [[v|err|] s1] eqn:E.
  - destruct (Hm _ _ _ Hs Hk E) as (b & Hc & _ & _ & Hne).
    pose proof (consumed_input _ _ _ Hc) as Hi. rewrite Hi, length_app in Hf, Hf'.
    specialize (Hne eq_refl). apply good_bind_calm; [|auto with calm].
    apply IH; [by eapply consumed_ok|by eapply consumed_ready|eauto using consumed_small|lia|]. destruct b; [done|cbn in Hf'; lia].
  - cbn in H1. case_decide; [done|]. split; [|done]. cbn. congruence.
  - split; [done|]. intros HP. by destruct (H2 HP).
Qed.

Lemma array_elems_ends e fuel n m s : dec_sound e no_tags m -> dec_ends fuel m ->
  stream_ok s -> ready s -> (P -> small s) -> (length (s_r s) < fuel)%nat -> good (decode_array_elems n m s).
Proof.
  intros Hm He. revert s. induction n as [|n IH]; intros s Hs Hk Hsm Hf; [done|].
  cbn [decode_array_elems]. destruct (He s Hs Hk Hsm Hf) as [H1 H2]. destruct (m s) as [[v|err|] s1] eqn:E.
  - destruct (Hm _ _ _ Hs Hk E) as (b & Hc & _). pose proof (consumed_shorter _ _ _ Hc).
    apply good_bind_calm; [|auto with calm]. apply IH; [by eapply consumed_ok|by eapply consumed_ready|eauto using consumed_small|lia].
  - cbn in H1. split; [|done]. cbn. case_decide; [done|congruence].
  - split; [done|]. intros HP. by destruct (H2 HP).
Qed.

(** A list is opened and what is in it is read. *)
Lemma good_list {A B} (f : Z -> dec A) (g : A -> dec B) s :
  stream_ok s -> ready s -> (P -> small s) -> (forall a, calm (g a)) ->
  (forall size s1, stream_ok s1 -> ready s1 -> (P -> small s1) -> (length (s_r s1) < length (s_r s))%nat -> good (f size s1)) ->
  good ((size ← map_err wrapStreamError Stream_List; a ← f size; g a) s).
Proof.
  intros Hs Hk Hsm Hg Hf. apply good_bind; [by apply good_wrap, good_List, good_Kind|].
  intros size s1 E%map_err_Ret. destruct (List_sound _ _ _ Hs Hk E) as [Ho Hsz].
  destruct (opened_ok _ _ _ Hs Hsz Ho) as [Hs1 Hk1]. apply good_bind_calm; [|done].
  apply Hf; [done|done|eauto using opened_small|by eapply opened_shorter].
Qed.

Lemma ListSlice_ends e fuel fuel' m s : dec_sound e no_tags m -> dec_ends fuel m ->
  stream_ok s -> ready s -> (P -> small s) -> (length (s_r s) <= fuel)%nat -> (length (s_r s) < fuel')%nat ->
  good (decodeListSlice fuel' m s).
Proof.
  intros Hm He Hs Hk Hsm Hf Hf'. unfold decodeListSlice.
  apply good_bind; [by apply good_wrap, good_List, good_Kind|].
  intros size s1 E%map_err_Ret. destruct (List_sound _ _ _ Hs Hk E) as [Ho Hsz].
  destruct (opened_ok _ _ _ Hs Hsz Ho) as [Hs1 Hk1]. pose proof (opened_shorter _ _ _ Ho).
  destruct (size =? 0); [apply good_bind_calm; auto with calm|].
  apply good_bind_calm; [|auto with calm]. eapply SliceElems_ends; [done..|eauto using opened_small|lia|lia].
Qed.

Lemma Interface_ends fuel : dec_ends fuel (decodeInterface fuel).
Proof.
  induction fuel as [|fuel IH]; intros s Hs Hk Hsm Hf; [lia|]. cbn [decodeInterface].
  apply good_bind; [by apply good_Kind|]. intros [k size] s1 E.
  assert (good (Stream_Bytes s1)) as HB by (eapply good_Bytes; [by eapply good_Kind_again|]; intros HP; by eapply kind_small_again, small_Kind; auto).
  assert (Stream_List s1 = Stream_List s) as EL by (by eapply decoded_again).
  destruct k; [apply good_bind_calm; auto with calm..|].
  apply good_bind_calm; [|auto with calm].
  assert (decodeListSlice (S fuel) (decodeInterface fuel) s1 =
          decodeListSlice (S fuel) (decodeInterface fuel) s) as ->.
  { unfold decodeListSlice, mbind, dec_bind, map_err. by rewrite EL. }
  eapply (ListSlice_ends TInterface fuel); [apply Interface_sound|done..|lia|lia].
Qed.

Lemma genTypeInfo_fields f fs : genTypeInfo (TStruct (f :: fs)) = Ret tt ->
  genTypeInfo (TStruct fs) = Ret tt /\
  (f_exported f = true -> exists ts, parseStructTag f (match fs with [] => true | _ => false end) = Ret ts /\
     (ignored ts = false -> genTypeInfo (f_typ f) = Ret tt)).
Proof.
  cbn [genTypeInfo]. destruct (f_exported f); [|done].
  destruct (parseStructTag f _) as [ts|e|]; [|done..]. destruct (ignored ts) eqn:Ei.
  - intros H. split; [done|]. intros _. exists ts. split; [done|]. by rewrite Ei.
  - destruct (genTypeInfo (f_typ f)) as [[]|e|]; [|done..]. intros H. split; [done|]. intros _. by exists ts.
Qed.

Lemma fields_ends fuel dec0 fs s :
  Forall (fun f => canonical_typ (f_typ f) = true -> forall ts, tags_fit (f_typ f) ts ->
            dec_sound (f_typ f) ts (dec0 (f_typ f) ts)) fs ->
  Forall (fun f => canonical_typ (f_typ f) = true -> genTypeInfo (f_typ f) = Ret tt ->
            forall ts, tags_fit (f_typ f) ts -> dec_ends fuel (dec0 (f_typ f) ts)) fs ->
  canonical_typ (TStruct fs) = true -> genTypeInfo (TStruct fs) = Ret tt ->
  stream_ok s -> ready s -> (P -> small s) -> (length (s_r s) < fuel)%nat -> good (decode_fields dec0 fs s).
Proof.
  intros Hsound Hends. revert s. induction fs as [|f fs IH]; intros s Hcan Ht Hs Hk Hsm Hf; [done|].
  apply Forall_cons in Hsound as [Hsf Hsound], Hends as [Hef Hends].
  apply genTypeInfo_fields in Ht as [Ht Htf].
  cbn [canonical_typ] in Hcan. apply andb_prop in Hcan as [Hcf Hcan].
  cbn [decode_fields]. destruct (f_exported f) eqn:Ex; [|apply good_bind_calm; auto with calm].
  destruct (Htf eq_refl) as (ts & Et & Hgen). rewrite Et in Hcf |- *. cbn in Hcf.
  destruct (ignored ts) eqn:Ei; [apply good_bind_calm; auto with calm|]. cbn in Hcf.
  apply andb_prop in Hcf as [Hcf Htag].
  assert (tags_fit (f_typ f) ts) as Hfit.
  { split; [|by eapply parseStructTag_tail]. intros Hp. rewrite Hp, andb_true_r in Htag.
    by destruct (nilOK ts). }
  apply good_bind; [apply good_map_err; [intros e; by case_decide|by apply Hef; auto]|].
  intros v s1 E%map_err_Ret. destruct (Hsf Hcf ts Hfit _ _ _ Hs Hk E) as (b & Hc & _).
  pose proof (consumed_shorter _ _ _ Hc). apply good_bind_calm; [|auto with calm].
  apply IH; try done; [by eapply consumed_ok|by eapply consumed_ready|eauto using consumed_small|lia].
Qed.

Lemma decode_ends_typ t : canonical_typ t = true -> genTypeInfo t = Ret tt ->
  forall fuel ts, tags_fit t ts -> dec_ends fuel (decode fuel t ts).
Proof.
  induction t using typ_ind; intros Hcan Ht fuel ts [Hnil Htail] s Hs Hk Hsm Hf; cbn [decode];
    pose proof (good_Kind s Hk) as HK; assert (P -> kind_small s) as HKs by (intros HP; by apply small_Kind; auto).
  - apply good_bind_calm; [by apply good_Raw|auto with calm].
  - apply good_bind_calm; [by apply good_wrap, good_Bytes|]. intros [|x l]; auto with calm.
  - apply good_bind_calm; [by apply good_wrap, good_Bytes|]. intros [|x l]; auto with calm.
  - apply good_bind_calm; [by apply good_wrap, good_uint|auto with calm].
  - apply good_bind_calm; [by apply good_wrap, good_Bool|auto with calm].
  - apply good_bind_calm; [by apply good_wrap, good_Bytes|auto with calm].
  - cbn in Hcan, Ht. destruct (isByte t); [apply good_bind_calm; [by apply good_wrap, good_Bytes|auto with calm]|].
    assert (dec_sound t no_tags (decode fuel t no_tags)) as Hm by (by apply decode_sound).
    assert (dec_ends fuel (decode fuel t no_tags)) as He by (by apply IHt).
    destruct (tail ts); [|by eapply ListSlice_ends; try done; lia].
    apply good_bind_calm; [by eapply SliceElems_ends|auto with calm].
  - cbn in Hcan, Ht. destruct (isByte t); [by apply good_ByteArray|].
    apply good_list; [done|done|done|auto with calm|]. intros size s1 Hs1 Hk1 Hsm1 Hl.
    eapply array_elems_ends; [by apply decode_sound|by apply IHt|done..|lia].
  - apply good_list; [done|done|done|auto with calm|]. intros size s1 Hs1 Hk1 Hsm1 Hl.
    apply (fields_ends fuel (decode fuel)); try done; [| |lia].
    + apply Forall_forall. intros f _ Hcf ts' Hts'. by apply decode_sound.
    + eapply Forall_impl; [exact H|]. cbn. intros f Hff Hcf Htf ts' Hts'. by apply Hff.
  - rewrite (Hnil eq_refl). apply good_bind_calm; [by apply IHt|auto with calm].
  - by apply Interface_ends.
  - done.
Qed.

End Ends.

Lemma Stream_Decode_ends t r slice limit : canonical_typ t = true -> genTypeInfo t = Ret tt ->
  good (s_limited (NewStream r slice limit) = true /\ s_remaining (NewStream r slice limit) <= maxAlloc)
    (Stream_Decode t (NewStream r slice limit)).
Proof.
  intros Hc Ht. unfold Stream_Decode. rewrite Ht. destruct (NewStream_ok r slice limit) as [Hs Hk].
  apply decode_ends_typ; [done..|apply no_tags_fit|done|done| |].
  - intros [H1 H2]. split_and!; [done|done|constructor].
  - cbn. lia.
Qed.

(** The readers of slices, which are all that the packets of this program come from. *)
Lemma slice_Decode_ends t r limit : canonical_typ t = true -> genTypeInfo t = Ret tt ->
  limit = 0 \/ limit = Z.of_nat (length r) -> Z.of_nat (length r) <= maxAlloc ->
  (Stream_Decode t (NewStream r true limit)).1 <> Err no_fuel /\ (Stream_Decode t (NewStream r true limit)).1 <> Panic.
Proof.
  intros Hc Ht Hl Hr. destruct (Stream_Decode_ends t r true limit Hc Ht) as [H1 H2]. split; [done|]. apply H2.
  cbn. rewrite orb_true_r. split; [done|]. destruct (Z.ltb_spec 0 limit); lia.
Qed.

(** C22: decoding any input ends, with a value or an error of the code or in a panic of [make], within as many
    elements and levels as the input has bytes.  A decoder whose input is limited, as it is for slices and
    their readers, never panics; [Decode] of any other reader has no limit and can, as its comment says
    ([huge_size_panics]). *)
Theorem decode_ends (t : typ) (r : bytes) : canonical_typ t = true -> genTypeInfo t = Ret tt ->
  DecodeBytes t r <> Err no_fuel /\ Decode t r <> Err no_fuel /\
  (Z.of_nat (length r) <= maxAlloc -> DecodeBytes t r <> Panic) /\
  forall slice limit, s_limited (NewStream r slice limit) = true -> s_remaining (NewStream r slice limit) <= maxAlloc ->
    (Stream_Decode t (NewStream r slice limit)).1 <> Panic.
Proof.
  intros Hc Ht. unfold DecodeBytes, Decode.
  destruct (Stream_Decode_ends t r true (Z.of_nat (length r)) Hc Ht) as [H1 _].
  destruct (Stream_Decode_ends t r false 0 Hc Ht) as [H2 _]. split_and!.
  - destruct (Stream_Decode t (NewStream r true _)) as [[v|e|] s1]; [by destruct (_ <? _)%nat|cbn in *; congruence|done].
  - destruct (Stream_Decode t (NewStream r false 0)) as [[v|e|] s1]; cbn in *; congruence.
  - intros Hr. destruct (slice_Decode_ends t r (Z.of_nat (length r)) Hc Ht) as [_ H]; [by right|done|].
    destruct (Stream_Decode t (NewStream r true _)) as [[v|e|] s1]; [by destruct (_ <? _)%nat|done..].
  - intros slice limit Hl Hm. by apply (Stream_Decode_ends t r slice limit Hc Ht).
Qed.

(** A string that announces more than [make] gives, on a reader without a limit. *)
Theorem huge_size_panics size rest : maxAlloc < size < 2 ^ 64 ->
  Decode TString (head_bytes KString size Byte.x00 ++ rest) = Panic /\
  Decode TRaw (head_bytes KString size Byte.x00 ++ rest) = Panic.
Proof.
  intros Hsz. set (r := head_bytes KString size Byte.x00 ++ rest). destruct (NewStream_ok r false 0) as [Hs Hk].
  assert (exists s1, Stream_Kind (NewStream r false 0) = (Ret (KString, size), s1)) as [s1 E].
  { eexists. apply Kind_iff; [done..|]. exists Byte.x00, (length (head_bytes KString size Byte.x00)).
    split_and!; [apply parse_head_complete; by split; [lia|]| |done|done].
    split_and!; [done|done|]. cbn [s_r NewStream]. unfold r. rewrite length_app. lia. }
  pose proof (headsize_range size ltac:(lia)) as Hh.
  unfold Decode, Stream_Decode. cbn [genTypeInfo decode]. split.
  - unfold map_err, mbind, dec_bind, Stream_Bytes, mbind, dec_bind. rewrite E.
    by destruct (make_bytes_cases size s1) as [[? _]|[_ ->]]; [lia|].
  - unfold mbind, dec_bind, Stream_Raw, mbind, dec_bind. rewrite E.
    by destruct (make_raw_cases (Z.of_nat (headsize size)) size s1) as [[? _]|[_ ->]]; [lia..|].
Qed.

(** A list in a list in an interface that is cut short. *)
Lemma decode_ends_witness :
  DecodeBytes TInterface [Byte.xc5; Byte.xc4; Byte.x83; Byte.x00] <> Err no_fuel /\
  DecodeBytes TInterface [Byte.xc5; Byte.xc4; Byte.x83; Byte.x00] <> Panic.
Proof.
  destruct (decode_ends TInterface [Byte.xc5; Byte.xc4; Byte.x83; Byte.x00]) as (H1 & _ & H2 & _);
    [reflexivity..|]. split; [exact H1|apply H2; vm_compute; congruence].
Defined.

(** ** Arrays of one byte *)

Definition byte_arrays : typ := TSlice (TArray 1 (TUint 8)).
Definition byte_and_uint : typ :=
  TStruct [mk_field true "" (TArray 1 (TUint 8)); mk_field true "" (TUint 64)].

(** The zero byte is peeked at and stays: [Uint] refuses it and its error is dropped. *)
Lemma zero_byte_stays s : s_kind s = Some KByte -> s_kinderr s = None -> s_byteval s = Byte.x00 ->
  decodeByteArray 1 s = (Ret (VBytes [Byte.x00]), s).
Proof.
  destruct s as [r rem lim k size bv err st]. cbn. intros -> -> ->. reflexivity.
Qed.

Lemma zero_bytes_endless fuel s : s_kind s = Some KByte -> s_kinderr s = None -> s_byteval s = Byte.x00 ->
  decodeSliceElems fuel (decodeByteArray 1) s = (Err no_fuel, s).
Proof.
  intros H1 H2 H3. induction fuel as [|fuel IH]; [done|]. cbn [decodeSliceElems].
  rewrite zero_byte_stays by done. unfold mbind, dec_bind. by rewrite IH.
Qed.

(** the encoding of a list with one one-byte array, a zero, is not decoded with any number of
    rounds: [decodeByteArray] drops the error of [Uint] on the zero byte, which leaves the byte in the
    stream, and the loop over the list reads it for ever.  In a struct, the next field meets the same byte and
    fails on an encoding that is right. *)
Theorem byte_array_endless :
  EncodeToBytes byte_arrays (VSeq [VBytes [Byte.x00]]) = Ret [Byte.xc1; Byte.x00] /\
  (forall fuel, exists s,
    decode fuel byte_arrays no_tags (NewStream [Byte.xc1; Byte.x00] true 2) = (Err no_fuel, s)) /\
  EncodeToBytes byte_and_uint (VStruct [VBytes [Byte.x00]; VUint 5]) =
    Ret [Byte.xc2; Byte.x00; Byte.x05] /\
  DecodeBytes byte_and_uint [Byte.xc2; Byte.x00; Byte.x05] = Err (wrapStreamError ErrCanonInt).
Proof.
  split; [vm_compute; reflexivity|]. split; [|split; vm_compute; reflexivity].
  intros fuel. set (s0 := NewStream [Byte.xc1; Byte.x00] true 2).
  pose (s1 := (Stream_List s0).2). pose (s2 := (decodeByteArray 1 s1).2).
  assert (Stream_List s0 = (Ret 1, s1)) as E1 by (vm_compute; reflexivity).
  assert (decodeByteArray 1 s1 = (Ret (VBytes [Byte.x00]), s2)) as E2 by (vm_compute; reflexivity).
  assert (decode fuel byte_arrays no_tags s0 = decodeListSlice fuel (decodeByteArray 1) s0) as -> by done.
  destruct fuel as [|fuel]; [exists s1|exists s2].
  all: unfold decodeListSlice, map_err, mbind at 1, dec_bind at 1; rewrite E1; cbn [Z.eqb decodeSliceElems].
  - done.
  - unfold mbind at 1, dec_bind at 1. rewrite E2. unfold mbind, dec_bind. by rewrite zero_bytes_endless.
Qed.
