(* ===== verification/RlpTyping.v ===== *)
(** * RLP: values and their types

    The decoder of a type makes values of that type; encoding a value of a type never panics. *)

From S2P Require Import Prelude BigInt Rlp RlpStream RlpProofs RlpRoundTrip RlpEnds.

(** ** Typing *)

(** The integer types of Go. *)
Definition uint_width (bits : Z) : bool := existsb (Z.eqb bits) [8; 16; 32; 64].

Fixpoint widths_ok (t : typ) : bool :=
  match t with
  | TUint bits => uint_width bits
  | TSlice e | TArray _ e | TPtr e => widths_ok e
  | TStruct fs => forallb (fun f => widths_ok (f_typ f)) fs
  | _ => true
  end.

(** The values of a struct's fields, in order. *)
Definition fields_have_type (has_type : val -> typ -> bool) :=
  fix go (vs : list val) (fs : list (field typ)) : bool :=
    match vs, fs with
    | [], [] => true
    | v :: vs, f :: fs => has_type v (f_typ f) && go vs fs
    | _, _ => false
    end.

(** [v] is a value of the Go type [t].  A value of a type outside the model is written [VNil]. *)
Fixpoint has_type (v : val) (t : typ) {struct v} : bool :=
  match t, v with
  | TRaw, VRaw _ | TBigPtr, (VNil | VBig _) | TBig, VBig _ | TBool, VBool _ | TString, VString _ => true
  | TUint bits, VUint i => uint_width bits && (0 <=? i) && (i <? 2 ^ bits)
  | TSlice e, VBytes _ => isByte e
  | TArray n e, VBytes b => isByte e && (length b =? n)%nat
  | TSlice e, VSeq vs => negb (isByte e) && forallb (fun v => has_type v e) vs
  | TArray n e, VSeq vs => negb (isByte e) && (length vs =? n)%nat && forallb (fun v => has_type v e) vs
  | TStruct fs, VStruct vs => fields_have_type has_type vs fs
  | TPtr _, VNil | TInterface, VNil | TOther, VNil => true
  | TPtr e, VPtr v => has_type v e
  | TInterface, VIface t' v => has_type v t'
  | _, _ => false
  end.

Lemma uint_width_range bits : uint_width bits = true -> 8 <= bits <= 64 /\ bits = 8 * (bits / 8).
Proof.
  unfold uint_width. intros (x & Hx & ->%Z.eqb_eq)%existsb_exists.
  repeat destruct Hx as [<-|Hx]; done.
Qed.

Lemma forallb_Forall_2 {A} (f g : A -> bool) l :
  Forall (fun x => f x = true -> g x = true) l -> forallb f l = true -> forallb g l = true.
Proof.
  induction 1 as [|x l Hx _ IH]; cbn; [done|]. intros [H1 H2]%andb_prop.
  apply andb_true_intro. auto.
Qed.

(** ** Encoding *)

Lemma typed_uints_ok v t : has_type v t = true -> uints_ok v = true.
Proof.
  revert t. induction v using val_ind; intros t0 Hv; destruct t0; try done; cbn in Hv |- *.
  - apply andb_prop in Hv as [[Hb%uint_width_range H1%Z.leb_le]%andb_prop H2%Z.ltb_lt].
    assert (2 ^ bits <= 2 ^ 64) by (apply Z.pow_le_mono_r; lia).
    apply andb_true_intro. split; [by apply Z.leb_le|apply Z.ltb_lt; lia].
  - apply andb_prop in Hv as [_ Hv]. eapply forallb_Forall_2; [|exact Hv].
    eapply Forall_impl; [exact H|]. cbn. eauto.
  - apply andb_prop in Hv as [_ Hv]. eapply forallb_Forall_2; [|exact Hv].
    eapply Forall_impl; [exact H|]. cbn. eauto.
  - revert fs Hv. induction H as [|v vs Hv0 _ IH]; intros [|f fs] Hv; cbn in Hv |- *; try done.
    apply andb_prop in Hv as [H1 H2]. apply andb_true_intro. split; [by eapply Hv0|by eapply IH].
  - eauto.
  - eauto.
Qed.

Lemma bind_no_panic {A B} (m : outcome A) (f : A -> outcome B) :
  m <> Panic -> (forall a, f a <> Panic) -> (m ≫= f) <> Panic.
Proof. intros Hm Hf. by destruct m; [apply Hf|..]. Qed.

Lemma rlp_nil_no_panic e : genTypeInfo e = Ret tt -> rlp_nil e <> Panic.
Proof. induction e using typ_ind; cbn; try done. Qed.

Lemma parse_words_no_panic last sl ws ts : parse_words last sl ws ts <> Panic.
Proof. revert ts. induction ws as [|w ws IH]; intros ts; cbn; repeat case_match; done. Qed.

Lemma genTypeInfo_no_panic t : genTypeInfo t <> Panic.
Proof.
  induction t using typ_ind; cbn; try done.
  - by destruct (isByte t).
  - by destruct (isByte t).
  - induction H as [|f fs Hf _ IH]; [done|]. destruct (f_exported f); [|done].
    pose proof (parse_words_no_panic (match fs with [] => true | _ => false end) (kind_is_slice (f_typ f))
      (split_comma (f_tag f)) no_tags) as Hp.
    destruct (parseStructTag f _) as [ts|e|] eqn:E; [|done|by destruct Hp].
    destruct (ignored ts); [done|]. by destruct (genTypeInfo (f_typ f)).
Qed.

Lemma rlp_elems_no_panic e vs :
  Forall (fun v => forall t ts, has_type v t = true -> genTypeInfo t = Ret tt -> rlp_encode v t ts <> Panic) vs ->
  genTypeInfo e = Ret tt -> forallb (fun v => has_type v e) vs = true -> rlp_elems rlp_encode e vs <> Panic.
Proof.
  intros H Ht. induction H as [|v vs Hv0 _ IH]; [done|]. cbn. intros [H1 H2]%andb_prop.
  apply bind_no_panic; [by apply Hv0|]. intros b. apply bind_no_panic; [by apply IH|done].
Qed.

Lemma rlp_encode_no_panic v t ts : has_type v t = true -> genTypeInfo t = Ret tt ->
  rlp_encode v t ts <> Panic.
Proof.
  revert t ts. induction v using val_ind; intros t0 ts Hv Ht; destruct t0; try done; cbn [rlp_encode].
  all: try (destruct (z <? 0); done).
  all: cbn [has_type] in Hv; cbn [genTypeInfo] in Ht.
  - by rewrite Hv.
  - apply andb_prop in Hv as [Hv _]. by rewrite Hv.
  - apply andb_prop in Hv as [Hb Hv]. destruct (isByte t0); [done|].
    pose proof (rlp_elems_no_panic _ _ H Ht Hv) as He.
    destruct (tail ts); [done|]. by apply bind_no_panic.
  - apply andb_prop in Hv as [[Hb _]%andb_prop Hv]. destruct (isByte t0); [done|].
    pose proof (rlp_elems_no_panic _ _ H Ht Hv) as He.
    destruct (tail ts); [done|]. by apply bind_no_panic.
  - apply bind_no_panic; [|done]. change (genTypeInfo (TStruct fs) = Ret tt) in Ht.
    revert fs Hv Ht. induction H as [|v vs Hv0 _ IH]; intros [|f fs] Hv Ht; try done.
    cbn in Hv. apply andb_prop in Hv as [H1 H2]. apply genTypeInfo_fields in Ht as [Ht Hf].
    rewrite rlp_fields_cons. destruct (f_exported f); [|by apply IH].
    destruct (Hf eq_refl) as (ts' & Et & Hg). rewrite Et. cbn [mbind outcome_bind].
    destruct (ignored ts'); [by apply IH|]. apply bind_no_panic; [by apply Hv0; auto|].
    intros b. apply bind_no_panic; [by apply IH|done].
  - by apply rlp_nil_no_panic.
  - by apply IHv.
  - destruct (genTypeInfo t) as [[]|e|] eqn:Et; [by apply IHv|done|].
    exfalso. revert Et. apply genTypeInfo_no_panic.
Qed.

(** ** Decoding *)

Lemma readFull_length n s b s' : readFull n s = (Ret b, s') -> length b = Z.to_nat n.
Proof.
  unfold readFull. intros E. apply dec_bind_Ret in E as (u & s1 & _ & E). unfold take_input in E.
  destruct (Nat.leb_spec (Z.to_nat n) (length (s_r s1))); [|done]. injection E as <- _.
  rewrite length_take. lia.
Qed.

Lemma readUint_bound n s v s' : readUint n s = (Ret v, s') -> 0 <= n /\ 0 <= v < 256 ^ n.
Proof.
  unfold readUint. destruct (Z.eqb_spec n 0) as [->|Hn0]; [by intros [= <- _]|].
  destruct (Z.eqb_spec n 1) as [->|Hn1].
  - intros E. dec_inv E b s1 E1. injection E as <- _. pose proof (ub_range b). lia.
  - intros E. dec_inv E b s1 E1. apply readFull_length in E1. destruct b as [|x l]; [done|].
    destruct (ub x =? 0); [done|]. injection E as <- _. pose proof (be_val_bound (x :: l)) as Hb.
    rewrite E1 in Hb. assert (0 <= n) by (cbn in E1; lia). by rewrite Z2Nat.id in Hb.
Qed.

Lemma uint_bound bits s v s' : 8 <= bits -> Stream_uint bits s = (Ret v, s') ->
  0 <= v < 256 ^ (bits / 8).
Proof.
  intros Hb E. assert (1 <= bits / 8) as H8 by (apply Z.div_le_lower_bound; lia).
  unfold Stream_uint in E. dec_inv E a s1 E1. destruct a as [[] size].
  - dec_inv E b s2 E2. destruct (ub b =? 0); [done|]. injection E as <- _. pose proof (ub_range b).
    assert (256 ^ 1 <= 256 ^ (bits / 8)) by (apply Z.pow_le_mono_r; lia). lia.
  - destruct (Z.ltb_spec (bits / 8) size); [done|]. dec_inv E x s2 E2. apply map_err_Ret in E2.
    apply readUint_bound in E2 as [Hs Hx]. destruct (_ && _); [done|]. injection E as <- _.
    assert (256 ^ size <= 256 ^ (bits / 8)) by (apply Z.pow_le_mono_r; lia). lia.
  - done.
Qed.

(** A decoder that makes values of [t]. *)
Definition dec_typed (t : typ) (m : dec val) : Prop :=
  forall s v s', m s = (Ret v, s') -> has_type v t = true.

Lemma SliceElems_typed e fuel m s vs s' : dec_typed e m -> decodeSliceElems fuel m s = (Ret vs, s') ->
  forallb (fun v => has_type v e) vs = true.
Proof.
  intros Hm. revert s vs s'. induction fuel as [|fuel IH]; intros s vs s'; [done|]. cbn [decodeSliceElems].
  destruct (m s) as [[v|err|] s1] eqn:E; [| |done].
  - intros E2. dec_inv E2 vs' s2 E3. injection E2 as <- _. cbn. by rewrite (Hm _ _ _ E), (IH _ _ _ E3).
  - case_decide; [|done]. by intros [= <- _].
Qed.

Lemma array_elems_typed e n m s vs s' : dec_typed e m -> decode_array_elems n m s = (Ret vs, s') ->
  length vs = n /\ forallb (fun v => has_type v e) vs = true.
Proof.
  intros Hm. revert s vs s'. induction n as [|n IH]; intros s vs s'; cbn [decode_array_elems].
  - by intros [= <- _].
  - destruct (m s) as [[v|err|] s1] eqn:E; [|done..]. intros E2. dec_inv E2 vs' s2 E3. injection E2 as <- _.
    destruct (IH _ _ _ E3) as [Hl Hv]. cbn. rewrite Hl, (Hm _ _ _ E). by rewrite Hv.
Qed.

Lemma ListSlice_typed e fuel m : isByte e = false -> dec_typed e m ->
  dec_typed (TSlice e) (decodeListSlice fuel m).
Proof.
  intros Hb Hm s v s' E. unfold decodeListSlice in E. dec_inv E sz s1 E1. destruct (sz =? 0).
  - dec_inv E u s2 E2. injection E as <- _. cbn. by rewrite Hb.
  - dec_inv E vs s2 E2. dec_inv E u s3 E3. injection E as <- _. cbn. rewrite Hb.
    by apply (SliceElems_typed e) in E2.
Qed.

Lemma ByteArray_typed n e : isByte e = true -> dec_typed (TArray n e) (decodeByteArray n).
Proof.
  intros Hb s v s' E. unfold decodeByteArray in E. dec_inv E a s1 E1. destruct a as [[] size].
  - destruct (Nat.eqb_spec n 0); [done|]. destruct (Nat.ltb_spec 1 n); [done|].
    assert (exists x, v = VBytes [x]) as [x ->].
    { destruct (Stream_Uint s1) as [[bv|e'|] s2]; injection E as <- _; by eexists. }
    assert (n = 1%nat) as -> by lia. cbn. by rewrite Hb.
  - destruct (_ <? _); [done|]. destruct (_ <? _); [done|]. dec_inv E b s2 E2.
    apply readFull_length in E2. rewrite Nat2Z.id in E2.
    assert (v = VBytes b) as ->.
    { destruct b as [|x [|y b]]; [by injection E as <- _| |by injection E as <- _].
      destruct (_ <? _); [done|]. by injection E as <- _. }
    cbn. rewrite Hb, E2. apply Nat.eqb_refl.
  - done.
Qed.

Lemma BigInt_typed : dec_typed TBig decodeBigInt /\ dec_typed TBigPtr decodeBigInt.
Proof.
  assert (forall s v s', decodeBigInt s = (Ret v, s') -> exists z, v = VBig z) as L.
  { intros s v s' E. unfold decodeBigInt in E. dec_inv E b s1 E1. destruct b as [|x l].
    - injection E as <- _. by eexists.
    - destruct (_ =? _); [done|]. injection E as <- _. by eexists. }
  split; intros s v s' E; by apply L in E as [z ->].
Qed.

Lemma Interface_typed fuel : dec_typed TInterface (decodeInterface fuel).
Proof.
  induction fuel as [|fuel IH]; intros s v s' E; [done|]. cbn [decodeInterface] in E.
  dec_inv E a s1 E1. destruct a as [[] size].
  - dec_inv E b s2 E2. by injection E as <- _.
  - dec_inv E b s2 E2. by injection E as <- _.
  - dec_inv E v' s2 E2. injection E as <- _. cbn [has_type].
    by apply (ListSlice_typed TInterface (S fuel) (decodeInterface fuel) eq_refl IH) in E2.
Qed.

Lemma forallb_replicate {A} (f : A -> bool) n x : f x = true -> forallb f (replicate n x) = true.
Proof. intros Hx. induction n; cbn; [done|]. by rewrite Hx. Qed.

Lemma zero_typed t : widths_ok t = true -> has_type (zero t) t = true.
Proof.
  induction t using typ_ind; intros Hw; cbn in *; try done.
  - rewrite Hw. apply uint_width_range in Hw as [Hw _]. cbn. apply Z.ltb_lt. apply Z.pow_pos_nonneg; lia.
  - by destruct (isByte t) eqn:E; cbn; rewrite E.
  - destruct (isByte t) eqn:E; cbn; rewrite E, length_replicate, Nat.eqb_refl; [done|].
    cbn. apply forallb_replicate. by apply IHt.
  - induction H as [|f fs Hf _ IH]; [done|]. cbn in *. apply andb_prop in Hw as [H1 H2].
    apply andb_true_intro. split; [by apply Hf|by apply IH].
Qed.

Lemma fields_typed dec0 fs s vs s' : forallb (fun f => widths_ok (f_typ f)) fs = true ->
  Forall (fun f => widths_ok (f_typ f) = true -> forall ts, dec_typed (f_typ f) (dec0 (f_typ f) ts)) fs ->
  decode_fields dec0 fs s = (Ret vs, s') -> fields_have_type has_type vs fs = true.
Proof.
  intros Hw Hfs. revert s vs s' Hw. induction Hfs as [|f fs Hf _ IH]; intros s vs s' Hw E.
  { by injection E as <- _. }
  cbn in Hw. apply andb_prop in Hw as [Hwf Hw]. cbn [decode_fields] in E.
  assert (forall v0 s0, has_type v0 (f_typ f) = true ->
    (vs ← decode_fields dec0 fs; mret (v0 :: vs)) s0 = (Ret vs, s') ->
    fields_have_type has_type vs (f :: fs) = true) as Hrest.
  { intros v0 s0 Hv0 E0. dec_inv E0 vs1 s1 E1. injection E0 as <- _. cbn. rewrite Hv0. by eapply IH. }
  pose proof (zero_typed _ Hwf) as Hz. destruct (f_exported f); [|by eapply Hrest].
  destruct (parseStructTag f _) as [ts|err|]; [|done..]. destruct (ignored ts); [by eapply Hrest|].
  dec_inv E v s1 E1. apply map_err_Ret in E1. eapply Hrest; [|exact E]. by eapply Hf.
Qed.

Lemma decode_typed t : widths_ok t = true -> forall fuel ts, dec_typed t (decode fuel t ts).
Proof.
  induction t using typ_ind; intros Hw fuel ts s v s' E; cbn [decode] in E.
  - dec_inv E b s1 E1. by injection E as <- _.
  - exact (proj2 BigInt_typed _ _ _ E).
  - exact (proj1 BigInt_typed _ _ _ E).
  - dec_inv E x s1 E1. injection E as <- _. apply map_err_Ret in E1. cbn in Hw |- *.
    pose proof (uint_width_range _ Hw) as [Hb H8]. apply uint_bound in E1; [|lia].
    rewrite Hw. apply andb_true_intro. split; [apply Z.leb_le; lia|]. apply Z.ltb_lt.
    rewrite H8. change 256 with (2 ^ 8) in E1. rewrite <- Z.pow_mul_r in E1 by lia. lia.
  - dec_inv E b s1 E1. by injection E as <- _.
  - dec_inv E b s1 E1. by injection E as <- _.
  - cbn in Hw. destruct (isByte t) eqn:Eb; [dec_inv E b s1 E1; by injection E as <- _|].
    destruct (tail ts); [|eapply ListSlice_typed; [done| |exact E]; by apply IHt].
    dec_inv E vs s1 E1. injection E as <- _. cbn. rewrite Eb. eapply SliceElems_typed; [|exact E1].
    by apply IHt.
  - cbn in Hw. destruct (isByte t) eqn:Eb; [by eapply ByteArray_typed|].
    unfold decodeListArray in E. dec_inv E sz s1 E1. dec_inv E vs s2 E2. dec_inv E u s3 E3.
    injection E as <- _. destruct (array_elems_typed t n _ _ _ _ (IHt Hw fuel no_tags) E2) as [<- Hv].
    cbn. by rewrite Eb, Nat.eqb_refl, Hv.
  - dec_inv E sz s1 E1. dec_inv E vs s2 E2. dec_inv E u s3 E3. injection E as <- _. cbn.
    eapply (fields_typed (decode fuel)); [exact Hw| |exact E2].
    eapply Forall_impl; [exact H|]. cbn. intros f Hf Hwf ts'. by apply Hf.
  - cbn in Hw. assert (forall s0, (v ← decode fuel t no_tags; mret (VPtr v)) s0 = (Ret v, s') ->
      has_type v (TPtr t) = true) as L.
    { intros s0 E0. dec_inv E0 v' s1 E1. injection E0 as <- _. by apply (IHt Hw fuel no_tags) in E1. }
    destruct (nilOK ts); [|by eapply L]. destruct (Stream_Kind s) as [[[k size]|e|] s1]; [|done..].
    destruct (_ && _); [by injection E as <- _|by eapply L].
  - by apply Interface_typed in E.
  - done.
Qed.

(** C21: encoding and decoding respect the types of Go: what is decoded into a type is a value of the type,
    whatever the input and the tags, and encoding a value of a type never panics: it gives
    the encoding or an error. *)
Theorem rlp_type_safety (t : typ) : widths_ok t = true -> genTypeInfo t = Ret tt ->
  (forall b v, DecodeBytes t b = Ret v -> has_type v t = true) /\
  (forall r v rest, Decode t r = Ret (v, rest) -> has_type v t = true) /\
  (forall v, has_type v t = true ->
     (exists b, rlp_encode v t no_tags = Ret b /\
        (Z.of_nat (length b) < 2 ^ 64 -> EncodeToBytes t v = Ret b)) \/
     (exists e, EncodeToBytes t v = Err e)).
Proof.
  intros Hw Ht. split_and!.
  - intros b v E. unfold DecodeBytes, Stream_Decode in E. rewrite Ht in E.
    destruct (decode _ t no_tags _) as [[v'|e|] s'] eqn:Ed; [|done..].
    destruct (_ <? _)%nat; [done|]. injection E as <-. by eapply decode_typed.
  - intros r v rest E. unfold Decode, Stream_Decode in E. rewrite Ht in E.
    destruct (decode _ t no_tags _) as [[v'|e|] s'] eqn:Ed; [|done..].
    injection E as <- _. by eapply decode_typed.
  - intros v Hv. pose proof (rlp_encode_no_panic v t no_tags Hv Ht) as Hp.
    pose proof (typed_uints_ok v t Hv) as Hu.
    destruct (rlp_encode v t no_tags) as [b|e|] eqn:E; [left|right|done].
    + exists b. split; [done|]. intros Hl. by apply EncodeToBytes_encodes.
    + exists e. pose proof (write_encodes v Hu t no_tags encbuf_reset) as Hwr. rewrite E in Hwr.
      unfold EncodeToBytes, eb_encode. rewrite Ht. cbn [mbind outcome_bind]. by rewrite Hwr.
Qed.

Lemma rlp_type_safety_witness :
  has_type (VStruct [VUint 1024; VNil; VPtr (VSeq [VBool true; VBool false]);
              VIface (TSlice (TUint 8)) (VBytes []); VSeq []]) entry_typ = true /\
  ~ has_type (VStruct [VUint 70000]) (TStruct [mk_field true "" (TUint 16)]) = true.
Proof.
  split; [|done].
  destruct (rlp_type_safety entry_typ) as [H _]; [reflexivity..|].
  apply (H (map u8 [0xC7; 0x82; 4; 0; 0xC2; 1; 0x80; 0x80])). vm_compute. reflexivity.
Defined.
