(* ===== verification/StdCrypto.v ===== *)
(** * The cryptography of Go's library that the code uses

    AES ([crypto/aes]) and its counter mode ([crypto/cipher]), SHA-256 ([crypto/sha256]) and HMAC
    ([crypto/hmac]), as executable functions on bytes, checked on the vectors of the
    standards. *)

From S2P Require Import Prelude.

Definition xorb_bytes (a b : bytes) : bytes := zip_with (fun x y => u8 (Z.lxor (ub x) (ub y))) a b.

Lemma length_xorb_bytes a b : length (xorb_bytes a b) = Nat.min (length a) (length b).
Proof. apply length_zip_with. Qed.

Lemma ub_xor_range (x y : byte) : 0 <= Z.lxor (ub x) (ub y) < 256.
Proof.
  pose proof (ub_range x). pose proof (ub_range y).
  assert (0 <= Z.lxor (ub x) (ub y)) by (apply Z.lxor_nonneg; lia). split; [done|].
  apply Z.nle_gt. intros Hge.
  assert (8 <= Z.log2 (Z.lxor (ub x) (ub y))) by (apply (Z.log2_le_pow2 (Z.lxor (ub x) (ub y)) 8); lia).
  pose proof (Z.log2_lxor (ub x) (ub y) ltac:(lia) ltac:(lia)).
  assert (forall b, Z.log2 (ub b) < 8) as L.
  { intros b. pose proof (ub_range b). destruct (decide (ub b = 0)) as [->|]; [done|].
    apply Z.log2_lt_pow2; lia. }
  pose proof (L x). pose proof (L y). lia.
Qed.

Lemma xorb_bytes_twice a b : (length a <= length b)%nat -> xorb_bytes (xorb_bytes a b) b = a.
Proof.
  revert b. induction a as [|x a IH]; intros [|y b] Hl; cbn in *; try done; [lia|].
  rewrite IH by lia. f_equal. rewrite ub_u8, Z.mod_small by apply ub_xor_range.
  rewrite Z.lxor_assoc, Z.lxor_nilpotent, Z.lxor_0_r. apply u8_ub.
Qed.

Lemma xorb_bytes_app a1 a2 b : (length (a1 ++ a2) <= length b)%nat ->
  xorb_bytes (a1 ++ a2) b = xorb_bytes a1 (take (length a1) b) ++ xorb_bytes a2 (drop (length a1) b).
Proof.
  intros Hl. unfold xorb_bytes. rewrite <- (take_drop (length a1) b) at 1.
  rewrite length_app in Hl. rewrite zip_with_app; [done|]. rewrite length_take. lia.
Qed.

(** ** AES *)

Module Aes.

Definition xtime (b : Z) : Z := Z.lxor (2 * b) (if b <? 128 then 0 else 0x11b).

(** The product in GF(2^8), by the bits of [a]. *)
Definition gmul (a b : Z) : Z :=
  fst (foldl (fun '(acc, b) i => (if Z.testbit a i then Z.lxor acc b else acc, xtime b)) (0, b)
         [0; 1; 2; 3; 4; 5; 6; 7]).

(** [x^254], the inverse. *)
Definition ginv (x : Z) : Z :=
  let x2 := gmul x x in let x4 := gmul x2 x2 in let x8 := gmul x4 x4 in let x16 := gmul x8 x8 in
  let x32 := gmul x16 x16 in let x64 := gmul x32 x32 in let x128 := gmul x64 x64 in
  gmul x2 (gmul x4 (gmul x8 (gmul x16 (gmul x32 (gmul x64 x128))))).

Definition rotl8 (b n : Z) : Z := Z.lor (Z.shiftl b n mod 256) (Z.shiftr b (8 - n)).

Definition sbox_of (x : Z) : Z :=
  let b := ginv x in
  Z.lxor (Z.lxor (Z.lxor (Z.lxor (Z.lxor b (rotl8 b 1)) (rotl8 b 2)) (rotl8 b 3)) (rotl8 b 4)) 0x63.

Definition sbox_table : list Z := Eval vm_compute in map (fun i => sbox_of (Z.of_nat i)) (seq 0 256).

Definition at_ (l : list Z) (i : nat) : Z := nth i l 0.
Definition sbox (x : Z) : Z := at_ sbox_table (Z.to_nat x).
Definition xor_words (a b : list Z) : list Z := map (fun i => Z.lxor (at_ a i) (at_ b i)) (seq 0 4).

(** [expandKeyGo]: the words of the key schedule, four bytes each. *)
Definition key_word (nk : nat) (ws : list (list Z)) (i : nat) : list Z :=
  let temp := nth (i - 1) ws [] in
  let temp :=
    if (i mod nk =? 0)%nat then
      let rot := map sbox [at_ temp 1; at_ temp 2; at_ temp 3; at_ temp 0] in
      xor_words rot [Nat.iter (i / nk - 1) xtime 1; 0; 0; 0]
    else if (6 <? nk)%nat && (i mod nk =? 4)%nat then map sbox temp
    else temp in
  xor_words (nth (i - nk) ws []) temp.

Definition expand (key : bytes) : list (list Z) :=
  let nk := (length key / 4)%nat in
  let first := map (fun i => map ub (take 4 (drop (4 * i) key))) (seq 0 nk) in
  foldl (fun ws i => ws ++ [key_word nk ws i]) first (seq nk (4 * (nk + 7) - nk)).

Definition round_key (ws : list (list Z)) (r : nat) : list Z :=
  concat (take 4 (drop (4 * r) ws)).

(** The state is the input in order, a column per four bytes. *)
Definition add_round_key (st k : list Z) : list Z :=
  map (fun i => Z.lxor (at_ st i) (at_ k i)) (seq 0 16).

Definition sub_shift (st : list Z) : list Z :=
  map (fun i => sbox (at_ st (4 * ((i / 4 + i mod 4) mod 4) + i mod 4)%nat)) (seq 0 16).

Definition mix_columns (st : list Z) : list Z :=
  map (fun i =>
    let c := (i / 4 * 4)%nat in let r := (i mod 4)%nat in
    let s k := at_ st (c + (r + k) mod 4)%nat in
    Z.lxor (Z.lxor (gmul 2 (s 0%nat)) (gmul 3 (s 1%nat))) (Z.lxor (s 2%nat) (s 3%nat))) (seq 0 16).

(** [Encrypt] of the block cipher with [key], on the first sixteen bytes. *)
Definition encrypt_block (key block : bytes) : bytes :=
  let ws := expand key in
  let nr := (length key / 4 + 6)%nat in
  let st := add_round_key (map ub block) (round_key ws 0) in
  let st := foldl (fun st r => add_round_key (mix_columns (sub_shift st)) (round_key ws r)) st
              (seq 1 (nr - 1)) in
  map u8 (add_round_key (sub_shift st) (round_key ws nr)).

Lemma length_encrypt_block key block : length (encrypt_block key block) = 16%nat.
Proof. unfold encrypt_block. cbv zeta. by rewrite length_map. Qed.

(** FIPS 197, appendix C. *)
Definition vector_block : bytes := map (fun i => u8 (17 * Z.of_nat i)) (seq 0 16).
Definition vector_key (n : nat) : bytes := map (fun i => u8 (Z.of_nat i)) (seq 0 n).

Example aes128_vector : be_val (encrypt_block (vector_key 16) vector_block) =
  0x69c4e0d86a7b0430d8cdb78070b4c55a.
Proof. vm_compute. reflexivity. Qed.

Example aes256_vector : be_val (encrypt_block (vector_key 32) vector_block) =
  0x8ea2b7ca516745bfeafc49904b496089.
Proof. vm_compute. reflexivity. Qed.

End Aes.

(** ** Counter mode *)

(** [cipher.Block]: only its encryption is used. *)
Definition Block : Type := bytes -> bytes.

Definition errKeySize : error := "crypto/aes: invalid key size".

(** [aes.NewCipher] *)
Definition NewCipher (key : bytes) : outcome Block :=
  if decide (length key ∈ [16; 24; 32]%nat) then Ret (Aes.encrypt_block key) else Err errKeySize.

(** [block.Encrypt(dst, src)] panics on less than a block. *)
Definition Block_Encrypt (b : Block) (src : bytes) : outcome bytes :=
  if (length src <? 16)%nat then Panic else Ret (b (take 16 src)).

Definition block_ok (b : Block) : Prop := forall x, length (b x) = 16%nat.

Lemma NewCipher_ok key b : NewCipher key = Ret b -> block_ok b.
Proof. unfold NewCipher. case_decide; [|done]. intros [= <-] x. apply Aes.length_encrypt_block. Qed.

(** A [cipher.Stream] in counter mode: the key stream is that of the counter from [iv], of which
    [ctr_pos] bytes are used. *)
Record CTR := mk_ctr { ctr_block : Block; ctr_iv : Z; ctr_pos : nat }.

Definition NewCTR (b : Block) (iv : bytes) : outcome CTR :=
  if decide (length iv = 16%nat) then Ret (mk_ctr b (be_val iv) 0) else Panic.

Definition keystream (c : CTR) (n : nat) : bytes :=
  map (fun j => nth (j mod 16) (ctr_block c (be_fix 16 (ctr_iv c + Z.of_nat (j / 16)))) Byte.x00)
    (seq (ctr_pos c) n).

Definition ctr_advance (c : CTR) (n : nat) : CTR := mk_ctr (ctr_block c) (ctr_iv c) (ctr_pos c + n).

(** [XORKeyStream(dst, src)] into a [dst] that is long enough. *)
Definition XORKeyStream (c : CTR) (src : bytes) : bytes * CTR :=
  (xorb_bytes src (keystream c (length src)), ctr_advance c (length src)).

#[global] Arguments keystream : simpl never.
#[global] Arguments xorb_bytes : simpl never.

Lemma length_keystream c n : length (keystream c n) = n.
Proof. unfold keystream. by rewrite length_map, length_seq. Qed.

Lemma length_XORKeyStream c src : length (XORKeyStream c src).1 = length src.
Proof. cbn. rewrite length_xorb_bytes, length_keystream. lia. Qed.

Lemma keystream_app c m n : keystream c (m + n) = keystream c m ++ keystream (ctr_advance c m) n.
Proof. unfold keystream. by rewrite seq_app, map_app. Qed.

Lemma XORKeyStream_nil c : XORKeyStream c [] = ([], c).
Proof. destruct c. unfold XORKeyStream, ctr_advance. cbn. by rewrite Nat.add_0_r. Qed.

(** The same stream deciphers what it ciphered. *)
Lemma XORKeyStream_twice c src : XORKeyStream c (XORKeyStream c src).1 = (src, (XORKeyStream c src).2).
Proof.
  pose proof (length_XORKeyStream c src) as Hl. unfold XORKeyStream in *. cbn [fst snd] in *. rewrite Hl.
  rewrite xorb_bytes_twice; [done|]. rewrite length_keystream. lia.
Qed.

Lemma XORKeyStream_app c a b :
  XORKeyStream c (a ++ b) =
  let '(x, c1) := XORKeyStream c a in let '(y, c2) := XORKeyStream c1 b in (x ++ y, c2).
Proof.
  unfold XORKeyStream. rewrite length_app, keystream_app. f_equal.
  - rewrite xorb_bytes_app by (rewrite !length_app, !length_keystream; lia).
    rewrite take_app_length', drop_app_length' by (by rewrite length_keystream). done.
  - unfold ctr_advance. cbn. f_equal. lia.
Qed.

(** ** SHA-256 and HMAC *)

Module Sha256.

Definition add32 (a b : Z) : Z := (a + b) mod 2 ^ 32.
Definition rotr (n x : Z) : Z := Z.lor (Z.shiftr x n) (Z.shiftl x (32 - n) mod 2 ^ 32).
Definition not32 (x : Z) : Z := 2 ^ 32 - 1 - x.
Definition ch (x y z : Z) : Z := Z.lxor (Z.land x y) (Z.land (not32 x) z).
Definition maj (x y z : Z) : Z := Z.lxor (Z.lxor (Z.land x y) (Z.land x z)) (Z.land y z).
Definition bsig0 (x : Z) : Z := Z.lxor (Z.lxor (rotr 2 x) (rotr 13 x)) (rotr 22 x).
Definition bsig1 (x : Z) : Z := Z.lxor (Z.lxor (rotr 6 x) (rotr 11 x)) (rotr 25 x).
Definition ssig0 (x : Z) : Z := Z.lxor (Z.lxor (rotr 7 x) (rotr 18 x)) (Z.shiftr x 3).
Definition ssig1 (x : Z) : Z := Z.lxor (Z.lxor (rotr 17 x) (rotr 19 x)) (Z.shiftr x 10).

(** The constants: the first 32 bits of the fractional parts of the cube roots of the first 64 primes, and of
    the square roots of the first 8. *)
Definition is_prime (n : nat) : bool := forallb (fun d => negb (n mod d =? 0)%nat) (seq 2 (n - 2)).
Definition primes (bound : nat) : list Z := Z.of_nat <$> List.filter is_prime (seq 2 (bound - 1)).

Fixpoint cube_root (bits : nat) (r n : Z) : Z :=
  match bits with
  | O => r
  | S bits => let r' := r + 2 ^ Z.of_nat bits in cube_root bits (if r' ^ 3 <=? n then r' else r) n
  end.

Definition K : list Z := Eval vm_compute in (fun p => cube_root 40 0 (p * 2 ^ 96) mod 2 ^ 32) <$> primes 311.
Definition H0 : list Z := Eval vm_compute in (fun p => Z.sqrt (p * 2 ^ 64) mod 2 ^ 32) <$> primes 19.

(** The message schedule, latest word first. *)
Fixpoint schedule (n : nat) (ws : list Z) : list Z :=
  match n with
  | O => ws
  | S n =>
      let w k := nth (k - 1) ws 0 in
      schedule n (add32 (add32 (ssig1 (w 2%nat)) (w 7%nat)) (add32 (ssig0 (w 15%nat)) (w 16%nat)) :: ws)
  end.

Definition round (h : list Z) (kw : Z * Z) : list Z :=
  match h with
  | [a; b; c; d; e; f; g; hh] =>
      let t1 := add32 (add32 (add32 hh (bsig1 e)) (add32 (ch e f g) (fst kw))) (snd kw) in
      let t2 := add32 (bsig0 a) (maj a b c) in
      [add32 t1 t2; a; b; c; add32 d t1; e; f; g]
  | _ => h
  end.

Definition compress (h : list Z) (block : bytes) : list Z :=
  let ws := rev (schedule 48 (rev (map (fun i => be_val (take 4 (drop (4 * i) block))) (seq 0 16)))) in
  zip_with add32 h (foldl round h (zip K ws)).

Definition pad (msg : bytes) : bytes :=
  msg ++ [Byte.x80] ++ replicate ((64 - (length msg + 9) mod 64) mod 64) Byte.x00 ++
  be_fix 8 (8 * Z.of_nat (length msg)).

Definition sum (msg : bytes) : bytes :=
  let p := pad msg in
  let h := foldl (fun h i => compress h (take 64 (drop (64 * i) p))) H0 (seq 0 (length p / 64)) in
  concat (map (fun i => be_fix 4 (nth i h 0)) (seq 0 8)).

Lemma length_sum msg : length (sum msg) = 32%nat.
Proof. unfold sum. cbn [seq map concat]. by rewrite !length_app, !length_be_fix. Qed.

(** The vectors of FIPS 180. *)
Example sha256_abc : be_val (sum [Byte.x61; Byte.x62; Byte.x63]) =
  0xba7816bf8f01cfea414140de5dae2223b00361a396177a9cb410ff61f20015ad.
Proof. vm_compute. reflexivity. Qed.

Example sha256_empty : be_val (sum []) =
  0xe3b0c44298fc1c149afbf4c8996fb92427ae41e4649b934ca495991b7852b855.
Proof. vm_compute. reflexivity. Qed.

End Sha256.

(** A [hash.Hash]: what is written is hashed by [Sum]; the sizes it reports. *)
Record Hash := mk_hash { h_sum : bytes -> bytes; h_size : nat; h_block : nat }.

Definition sha256_hash : Hash := mk_hash Sha256.sum 32 64.

(** [hmac.New(h, key)], then writes of [msg], then [Sum]. *)
Definition hmac_sum (h : Hash) (key msg : bytes) : bytes :=
  let key := if (h_block h <? length key)%nat then h_sum h key else key in
  let padded := key ++ replicate (h_block h - length key) Byte.x00 in
  let xor_with c := map (fun b => u8 (Z.lxor (ub b) c)) padded in
  h_sum h (xor_with 0x5c ++ h_sum h (xor_with 0x36 ++ msg)).

(** RFC 4231, test case 2. *)
Example hmac_vector : be_val (hmac_sum sha256_hash [Byte.x4a; Byte.x65; Byte.x66; Byte.x65]
    (map u8 [0x77; 0x68; 0x61; 0x74; 0x20; 0x64; 0x6f; 0x20; 0x79; 0x61; 0x20; 0x77; 0x61; 0x6e; 0x74;
             0x20; 0x66; 0x6f; 0x72; 0x20; 0x6e; 0x6f; 0x74; 0x68; 0x69; 0x6e; 0x67; 0x3f])) =
  0x5bdcc146bf60754e6a042426089575c75a003f089d2739839dec58b964ec3843.
Proof. vm_compute. reflexivity. Qed.
