(* ===== verification/FieldPoly.v ===== *)
(** * Polynomials over a prime field

    Interpolation at zero: the algebra behind secret sharing.  The field is
    the Standard Library's [Zmod N]; polynomials are coefficient lists, lowest
    degree first, as in the code ([Polynomial []big.Int]). *)

From S2P Require Import Prelude.
From Stdlib Require Import Field Zmod.

Section PrimeField.
Context (N : Z) (HN : Z.prime N).

#[local] Abbreviation F := (Zmod N).
#[local] Abbreviation f0 := (@Zmod.zero N).
#[local] Abbreviation f1 := (@Zmod.one N).
#[local] Infix "+f" := (@Zmod.add N) (at level 50, left associativity).
#[local] Infix "*f" := (@Zmod.mul N) (at level 40, left associativity).
#[local] Infix "-f" := (@Zmod.sub N) (at level 50, left associativity).
#[local] Infix "/f" := (@Zmod.mdiv N) (at level 40, left associativity).

Add Field FF : (Zmod.field_theory N HN).

(** ** Evaluation and division by a linear factor *)

Fixpoint peval (p : list F) (t : F) : F :=
  match p with
  | [] => f0
  | c :: p' => c +f t *f peval p' t
  end.

Fixpoint pquot (p : list F) (a : F) : list F :=
  match p with
  | [] => []
  | _ :: p' => match p' with
               | [] => []
               | _ :: _ => peval p' a :: pquot p' a
               end
  end.

Lemma length_pquot p a : length (pquot p a) = pred (length p).
Proof.
  induction p as [|c p IH]; [done|]. destruct p as [|c' p]; [done|].
  change (S (length (pquot (c' :: p) a)) = S (length p)). by rewrite IH.
Qed.

Lemma peval_pquot p a t : peval p t = peval p a +f (t -f a) *f peval (pquot p a) t.
Proof.
  induction p as [|c p IH]; [cbn; ring|].
  destruct p as [|c' p]; [cbn; ring|].
  change (peval (c :: c' :: p) t) with (c +f t *f peval (c' :: p) t).
  change (peval (c :: c' :: p) a) with (c +f a *f peval (c' :: p) a).
  change (peval (pquot (c :: c' :: p) a) t)
    with (peval (c' :: p) a +f t *f peval (pquot (c' :: p) a) t).
  rewrite IH. ring.
Qed.

(** A polynomial with more roots than its degree is zero everywhere. *)
Lemma root_bound (roots : list F) : forall p,
  (length p <= length roots)%nat -> NoDup roots ->
  (forall r, r ∈ roots -> peval p r = f0) -> forall t, peval p t = f0.
Proof.
  induction roots as [|a roots IH]; intros p Hl Hnd Hr t.
  { destruct p; [done|]. cbn in Hl. lia. }
  apply NoDup_cons in Hnd as [Ha Hnd].
  rewrite (peval_pquot p a), Hr by set_solver.
  rewrite (IH (pquot p a)); [ring| |done|].
  - rewrite length_pquot. cbn in Hl. lia.
  - intros r Hin. assert (Hp := peval_pquot p a r).
    rewrite !Hr in Hp by set_solver.
    assert (r -f a <> f0) as Hne.
    { intros E. apply Ha. replace a with r; [done|].
      replace r with (r -f a +f a) by ring. rewrite E. ring. }
    assert ((r -f a) *f peval (pquot p a) r = f0) as H0 by (rewrite Hp; ring).
    apply Zmod.mul_0_iff_prime in H0; [|done]. by destruct H0.
Qed.

(** ** Sums and products over index lists *)

Definition fsum (f : nat -> F) (l : list nat) : F := foldr (fun i s => f i +f s) f0 l.
Definition fprod (f : nat -> F) (l : list nat) : F := foldr (fun i s => f i *f s) f1 l.

Lemma fsum_cons f i l : fsum f (i :: l) = f i +f fsum f l.
Proof. done. Qed.

Lemma fprod_cons f i l : fprod f (i :: l) = f i *f fprod f l.
Proof. done. Qed.

Lemma fsum_ext f g l : (forall i, i ∈ l -> f i = g i) -> fsum f l = fsum g l.
Proof using Type.
  induction l as [|i l IH]; intros H; [done|]. rewrite !fsum_cons.
  rewrite (H i) by apply elem_of_cons, or_introl, eq_refl. f_equal. apply IH.
  intros j Hj. by apply H, elem_of_cons, or_intror.
Qed.

Lemma fprod_ext f g l : (forall i, i ∈ l -> f i = g i) -> fprod f l = fprod g l.
Proof using Type.
  induction l as [|i l IH]; intros H; [done|]. rewrite !fprod_cons.
  rewrite (H i) by apply elem_of_cons, or_introl, eq_refl. f_equal. apply IH.
  intros j Hj. by apply H, elem_of_cons, or_intror.
Qed.

Lemma fprod_mul f g l : fprod (fun i => f i *f g i) l = fprod f l *f fprod g l.
Proof.
  induction l as [|i l IH]; [cbn; ring|]. rewrite !fprod_cons, IH. ring.
Qed.

Lemma fprod_zero f l i : i ∈ l -> f i = f0 -> fprod f l = f0.
Proof.
  induction l as [|j l IH]; intros Hin Hz; [set_solver|]. rewrite fprod_cons.
  apply elem_of_cons in Hin as [->|Hin]; [rewrite Hz; ring|].
  rewrite IH by done. ring.
Qed.

Lemma fsum_zero f l : (forall i, i ∈ l -> f i = f0) -> fsum f l = f0.
Proof.
  induction l as [|i l IH]; intros H; [done|]. rewrite fsum_cons.
  rewrite H, IH by set_solver. ring.
Qed.

Lemma fsum_single f l k :
  NoDup l -> k ∈ l -> (forall i, i ∈ l -> i <> k -> f i = f0) -> fsum f l = f k.
Proof.
  induction l as [|j l IH]; intros Hnd Hin Hz; [set_solver|].
  apply NoDup_cons in Hnd as [Hj Hnd]. rewrite fsum_cons.
  apply elem_of_cons in Hin as [->|Hin].
  - rewrite fsum_zero by set_solver. ring.
  - rewrite (Hz j), IH by set_solver. ring.
Qed.

Lemma fprod_one l : fprod (fun _ => f1) l = f1.
Proof. induction l as [|i l IH]; [done|]. rewrite fprod_cons, IH. ring. Qed.

(** ** The interpolation polynomial of distinct points *)

Definition pscale (c : F) (p : list F) : list F := map (fun d => c *f d) p.

Fixpoint padd (p q : list F) : list F :=
  match p, q with
  | [], _ => q
  | _, [] => p
  | c :: p', d :: q' => (c +f d) :: padd p' q'
  end.

(** Coefficients of the product of [X - x j] over [l]. *)
Fixpoint proots (x : nat -> F) (l : list nat) : list F :=
  match l with
  | [] => [f1]
  | j :: l' => padd (pscale (f0 -f x j) (proots x l')) (f0 :: proots x l')
  end.

Lemma peval_pscale c p t : peval (pscale c p) t = c *f peval p t.
Proof. induction p as [|d p IH]; cbn; [ring|]. fold (pscale c p). rewrite IH. ring. Qed.

Lemma peval_padd p : forall q t, peval (padd p q) t = peval p t +f peval q t.
Proof.
  induction p as [|c p IH]; intros [|d q] t; cbn; try ring. rewrite IH. ring.
Qed.

Lemma length_padd p : forall q, length (padd p q) = Nat.max (length p) (length q).
Proof. induction p as [|c p IH]; intros [|d q]; cbn; try done. by rewrite IH. Qed.

Lemma length_pscale c p : length (pscale c p) = length p.
Proof. apply length_map. Qed.

Lemma length_proots x l : length (proots x l) = S (length l).
Proof.
  induction l as [|j l IH]; [done|]. cbn [proots].
  rewrite length_padd, length_pscale. cbn [length]. rewrite IH. lia.
Qed.

Lemma peval_proots x l t : peval (proots x l) t = fprod (fun j => t -f x j) l.
Proof.
  induction l as [|j l IH]; [cbn; ring|]. cbn [proots].
  rewrite peval_padd, peval_pscale. cbn [peval]. rewrite IH, fprod_cons. ring.
Qed.

Definition others (n i : nat) : list nat := filter (fun j => j <> i) (seq 0 n).

Lemma elem_of_others n i j : j ∈ others n i <-> j <> i /\ (j < n)%nat.
Proof. unfold others. rewrite list_elem_of_filter, elem_of_seq. lia. Qed.

Lemma length_others n i : (i < n)%nat -> length (others n i) = pred n.
Proof.
  intros Hi. unfold others.
  replace n with (i + S (n - S i))%nat at 1 by lia.
  rewrite seq_app, filter_app. cbn [seq]. rewrite filter_cons_False by auto.
  rewrite !filter_all by (intros j Hj%elem_of_seq; lia).
  rewrite length_app, !length_seq. lia.
Qed.

Section Interpolation.
Context (n : nat) (x : nat -> F).
Context (x_inj : forall i j, (i < n)%nat -> (j < n)%nat -> x i = x j -> i = j).

Definition lag_denom (i : nat) : F := fprod (fun j => f1 /f (x i -f x j)) (others n i).

Definition lag_poly (y : nat -> F) : list F :=
  foldr padd [] (map (fun i => pscale (y i *f lag_denom i) (proots x (others n i))) (seq 0 n)).

Lemma diff_nz i j : (i < n)%nat -> j ∈ others n i -> x i -f x j <> f0.
Proof.
  intros Hi [Hji Hj]%elem_of_others E. apply Hji, x_inj; [done..|].
  replace (x i) with (x i -f x j +f x j) by ring. rewrite E. ring.
Qed.

Lemma peval_lag_poly y t :
  peval (lag_poly y) t
  = fsum (fun i => y i *f lag_denom i *f fprod (fun j => t -f x j) (others n i)) (seq 0 n).
Proof.
  unfold lag_poly. induction (seq 0 n) as [|i l IH]; [done|]. cbn [map foldr].
  rewrite peval_padd, peval_pscale, peval_proots, IH. done.
Qed.

Lemma length_lag_poly y : (length (lag_poly y) <= n)%nat.
Proof.
  unfold lag_poly. assert (Forall (fun i => i < n)%nat (seq 0 n)) as H.
  { apply Forall_forall. intros i Hi. apply elem_of_seq in Hi. lia. }
  revert H. generalize (seq 0 n) as l. intros l H.
  induction H as [|i l Hi H IH]; cbn [map foldr length]; [lia|].
  rewrite length_padd, length_pscale, length_proots, length_others by done. lia.
Qed.

Lemma lag_denom_cancel i :
  (i < n)%nat -> lag_denom i *f fprod (fun j => x i -f x j) (others n i) = f1.
Proof.
  intros Hi. unfold lag_denom. rewrite <- fprod_mul.
  rewrite (fprod_ext _ (fun _ => f1)); [apply fprod_one|].
  intros j Hj. pose proof (diff_nz i j Hi Hj). field. done.
Qed.

Lemma lag_poly_node y k : (k < n)%nat -> peval (lag_poly y) (x k) = y k.
Proof.
  intros Hk. rewrite peval_lag_poly, (fsum_single _ _ k).
  - replace (y k) with (y k *f f1) at 2 by ring.
    rewrite <- (lag_denom_cancel k Hk). ring.
  - apply NoDup_seq.
  - apply elem_of_seq. lia.
  - intros i Hi Hik. rewrite (fprod_zero _ _ k); [ring| |ring].
    apply elem_of_others. lia.
Qed.

(** The weights the code computes: [prod_{j <> i} x_j / (x_j - x_i)]. *)
Definition lag_weight (i : nat) : F := fprod (fun j => x j *f (f1 /f (x j -f x i))) (others n i).

Lemma lag_weight_eq i :
  (i < n)%nat -> lag_weight i = lag_denom i *f fprod (fun j => f0 -f x j) (others n i).
Proof.
  intros Hi. unfold lag_weight, lag_denom. rewrite <- fprod_mul.
  apply fprod_ext. intros j Hj. pose proof (diff_nz i j Hi Hj) as Hd.
  assert (x j -f x i <> f0).
  { intros E. apply Hd. replace (x i -f x j) with (f0 -f (x j -f x i)) by ring.
    rewrite E. ring. }
  field. done.
Qed.

(** Interpolation at zero recovers the constant term of any polynomial with
    at most [n] coefficients from its values at [n] distinct points. *)
Theorem interpolate_zero (f : list F) :
  (length f <= n)%nat ->
  fsum (fun i => peval f (x i) *f lag_weight i) (seq 0 n) = peval f f0.
Proof.
  intros Hf.
  set (L := lag_poly (fun i => peval f (x i))).
  assert (forall t, peval (padd f (pscale (f0 -f f1) L)) t = f0) as Hz.
  { apply (root_bound (map x (seq 0 n))).
    - rewrite length_map, length_seq, length_padd, length_pscale.
      pose proof (length_lag_poly (fun i => peval f (x i))). unfold L. lia.
    - apply NoDup_fmap_2_strong; [|apply NoDup_seq].
      intros i j Hi%elem_of_seq Hj%elem_of_seq. apply x_inj; lia.
    - intros r (i & -> & Hi%elem_of_seq)%list_elem_of_fmap.
      rewrite peval_padd, peval_pscale. unfold L. rewrite lag_poly_node by lia. ring. }
  specialize (Hz f0). rewrite peval_padd, peval_pscale in Hz.
  assert (peval f f0 = peval L f0) as ->.
  { replace (peval f f0) with (peval f f0 +f (f0 -f f1) *f peval L f0 +f peval L f0) by ring.
    rewrite Hz. ring. }
  unfold L. rewrite peval_lag_poly. apply fsum_ext. intros i Hi%elem_of_seq.
  rewrite lag_weight_eq by lia. ring.
Qed.

End Interpolation.
End PrimeField.
