(* ===== verification/Curve.v ===== *)
(** * The curve interface

    [crypto.S256()] has the Go type [elliptic.Curve]: the protocol code sees
    the curve only through that interface.  [EllipticCurve] is the interface,
    [CurveGroup] states what the protocol relies on, and the encoding
    functions of [crypto/elliptic] and [src/crypto/crypto.go] are built on it.
    [Secp256k1.v] models the implementation. *)

From S2P Require Import Prelude BigInt.

(** The coordinates of an [ecdsa.PublicKey]: [None] when [X] and [Y] are nil. *)
Abbreviation point := (option (Z * Z)).

(** Methods take and return coordinates; nil coordinates make them panic. *)
Class EllipticCurve := {
  Params_P : Z;
  Params_N : Z;
  Params_BitSize : Z;
  IsOnCurve : Z -> Z -> bool;
  Add : point -> point -> outcome point;
  ScalarMult : point -> bytes -> outcome point;
  ScalarBaseMult : bytes -> outcome point
}.

(** What the protocol relies on: a cyclic group of prime order [N] whose
    non-zero elements have affine coordinates.  [mulG k] are the coordinates of
    [k * G] for [k] not a multiple of [N].  Addition is only promised on
    distinct points with a non-zero sum, and multiplication refuses a zero or
    too large scalar: this is what the implementation does. *)
Class CurveGroup (C : EllipticCurve) := {
  mulG : Z -> Z * Z;
  N_prime : Z.prime Params_N;
  N_bound : Params_N <= 256 ^ 32;
  mulG_mod k : mulG (k mod Params_N) = mulG k;
  mulG_inj j k : j mod Params_N <> 0 -> k mod Params_N <> 0 ->
    mulG j = mulG k -> j mod Params_N = k mod Params_N;
  mulG_coords k : k mod Params_N <> 0 ->
    0 <= (mulG k).1 < Params_P /\ 0 <= (mulG k).2 < Params_P /\
    IsOnCurve (mulG k).1 (mulG k).2 = true;
  Add_mulG j k :
    j mod Params_N <> 0 -> k mod Params_N <> 0 ->
    (j + k) mod Params_N <> 0 -> (j - k) mod Params_N <> 0 ->
    Add (Some (mulG j)) (Some (mulG k)) = Ret (Some (mulG (j + k)));
  ScalarMult_mulG k bs :
    (length bs <= 32)%nat -> k mod Params_N <> 0 -> 0 < be_val bs < Params_N ->
    ScalarMult (Some (mulG k)) bs = Ret (Some (mulG (k * be_val bs)));
  ScalarMult_refused k bs :
    (length bs <= 32)%nat -> k mod Params_N <> 0 ->
    be_val bs = 0 \/ Params_N <= be_val bs ->
    ScalarMult (Some (mulG k)) bs = Ret None;
  ScalarBaseMult_mulG bs : ScalarBaseMult bs = ScalarMult (Some (mulG 1)) bs;
  P_bytes : 0 < Params_P <= 256 ^ ((Params_BitSize + 7) / 8);
  BitSize_nonneg : 0 <= Params_BitSize
}.

(** ** crypto/elliptic: uncompressed points *)

Section Encoding.
Context {C : EllipticCurve}.

Definition byteLen : nat := Z.to_nat (Z.shiftr (Params_BitSize + 7) 3).

(** [elliptic.Marshal] (the same code as [BitCurve.Marshal]): a coordinate
    longer than the field would be copied at a negative offset. *)
Definition elliptic_Marshal (x y : Z) : outcome bytes :=
  let ret := Byte.x04 :: replicate (2 * byteLen) Byte.x00 in
  let xBytes := Bytes x in
  if decide (1 + byteLen < length xBytes)%nat then Panic else
  let ret := copy_at ret (1 + byteLen - length xBytes) xBytes in
  let yBytes := Bytes y in
  if decide (1 + 2 * byteLen < length yBytes)%nat then Panic else
  Ret (copy_at ret (1 + 2 * byteLen - length yBytes) yBytes).

(** [elliptic.Unmarshal]: nil coordinates for a malformed encoding or a point
    off the curve. *)
Definition elliptic_Unmarshal (data : bytes) : point :=
  if decide (length data <> 1 + 2 * byteLen)%nat then None else
  match data with
  | [] => None
  | b0 :: _ =>
      if decide (b0 <> Byte.x04) then None else
      let x := SetBytes (take byteLen (drop 1 data)) in
      let y := SetBytes (drop (1 + byteLen) data) in
      if decide (Params_P <= x \/ Params_P <= y) then None else
      if IsOnCurve x y then Some (x, y) else None
  end.

(** [crypto.FromECDSAPub]; the pointer itself may be nil.  A nil slice and an
    empty one are not distinguished by its callers. *)
Definition FromECDSAPub (pub : option point) : outcome bytes :=
  match pub with
  | None | Some None => Ret []
  | Some (Some (x, y)) => elliptic_Marshal x y
  end.

(** [crypto.ToECDSAPub]: a nil pointer for an encoding it rejects. *)
Definition ToECDSAPub (pub : bytes) : option point :=
  if decide (length pub <> 65)%nat then None else
  match elliptic_Unmarshal pub with
  | None => None
  | Some xy => Some (Some xy)
  end.

Lemma elliptic_Marshal_eq x y :
  0 <= x < 256 ^ Z.of_nat byteLen -> 0 <= y < 256 ^ Z.of_nat byteLen ->
  elliptic_Marshal x y = Ret (Byte.x04 :: be_fix byteLen x ++ be_fix byteLen y).
Proof.
  intros Hx Hy. unfold elliptic_Marshal.
  pose proof (byte_len_le x byteLen ltac:(lia)).
  pose proof (byte_len_le y byteLen ltac:(lia)).
  rewrite !decide_False by (rewrite length_Bytes; lia). f_equal.
  replace (2 * byteLen)%nat with (byteLen + byteLen)%nat by lia.
  rewrite replicate_add.
  pose proof (copy_at_pad [Byte.x04] byteLen (replicate byteLen Byte.x00) x Hx) as Ex.
  pose proof (copy_at_pad (Byte.x04 :: be_fix byteLen x) byteLen [] y Hy) as Ey.
  cbn [length app Nat.add] in Ex, Ey |- *. rewrite length_be_fix, !app_nil_r in Ey.
  by rewrite Ex, Ey.
Qed.

Lemma byteLen_eq : 0 <= Params_BitSize -> Z.of_nat byteLen = (Params_BitSize + 7) / 8.
Proof.
  intros H. unfold byteLen. rewrite Z.shiftr_div_pow2 by lia.
  rewrite Z2Nat.id; [done|]. apply Z.div_pos; lia.
Qed.

Lemma elliptic_Unmarshal_Marshal x y :
  0 <= Params_BitSize -> Params_P <= 256 ^ ((Params_BitSize + 7) / 8) ->
  0 <= x < Params_P -> 0 <= y < Params_P -> IsOnCurve x y = true ->
  (bs ← elliptic_Marshal x y; Ret (elliptic_Unmarshal bs)) = Ret (Some (x, y)).
Proof.
  intros HB HP Hx Hy Hon. rewrite <- byteLen_eq in HP by done.
  rewrite elliptic_Marshal_eq by lia. cbn [mbind outcome_bind]. f_equal.
  unfold elliptic_Unmarshal.
  rewrite decide_False by (cbn; rewrite length_app, !length_be_fix; lia).
  rewrite decide_False by auto.
  change (drop (1 + byteLen) (Byte.x04 :: ?l)) with (drop byteLen l).
  change (drop 1 (Byte.x04 :: ?l)) with l.
  rewrite take_app_length', drop_app_length' by (by rewrite length_be_fix).
  unfold SetBytes. rewrite !be_val_fix_small by lia.
  rewrite decide_False by lia. by rewrite Hon.
Qed.

End Encoding.

Section EncodedPoints.
Context {C : EllipticCurve} {G : CurveGroup C}.

(** Encoding of [k * G]. *)
Definition point_bytes (k : Z) : bytes :=
  Byte.x04 :: be_fix byteLen (mulG k).1 ++ be_fix byteLen (mulG k).2.

Lemma FromECDSAPub_mulG k :
  k mod Params_N <> 0 -> FromECDSAPub (Some (Some (mulG k))) = Ret (point_bytes k).
Proof.
  intros Hk. destruct (mulG_coords k Hk) as (Hx & Hy & _).
  pose proof P_bytes as HP. pose proof BitSize_nonneg as HB. rewrite <- byteLen_eq in HP by done.
  unfold point_bytes. destruct (mulG k) as [x y]. cbn [fst snd] in Hx, Hy.
  cbn [FromECDSAPub fst snd]. apply elliptic_Marshal_eq; lia.
Qed.

Lemma ToECDSAPub_point_bytes k :
  Params_BitSize = 256 -> k mod Params_N <> 0 -> ToECDSAPub (point_bytes k) = Some (Some (mulG k)).
Proof.
  intros HB Hk. destruct (mulG_coords k Hk) as (Hx & Hy & Hon).
  pose proof P_bytes as HP. pose proof (byteLen_eq BitSize_nonneg) as Hl. rewrite HB in Hl.
  change ((256 + 7) / 8) with 32 in Hl. unfold ToECDSAPub.
  rewrite decide_False by (unfold point_bytes; cbn; rewrite length_app, !length_be_fix; lia).
  pose proof (elliptic_Unmarshal_Marshal (mulG k).1 (mulG k).2 BitSize_nonneg (proj2 HP) Hx Hy Hon) as E.
  pose proof (FromECDSAPub_mulG k Hk) as Em. rewrite (surjective_pairing (mulG k)) in Em.
  cbn [FromECDSAPub] in Em. rewrite Em in E. cbn [mbind outcome_bind] in E. injection E as ->.
  by destruct (mulG k).
Qed.

End EncodedPoints.
