(* ===== verification/Secp256k1.v ===== *)
(** * The curve implementation

    [src/crypto/secp256k1/curve.go]: the affine interface over Jacobian
    formulas, scalar multiplication delegated to the C library, point encoding,
    and the parameters of secp256k1. *)

From S2P Require Import Prelude BigInt CommonMath Curve.
From Stdlib Require Import Field Zmod.

Record BitCurve := {
  P : Z;
  N : Z;
  B : Z;
  Gx : Z;
  Gy : Z;
  BitSize : Z
}.

(** [S256()], SEC 2 section 2.7.1. *)
Definition S256 : BitCurve := {|
  P := 0xFFFFFFFFFFFFFFFFFFFFFFFFFFFFFFFFFFFFFFFFFFFFFFFFFFFFFFFEFFFFFC2F;
  N := 0xFFFFFFFFFFFFFFFFFFFFFFFFFFFFFFFEBAAEDCE6AF48A03BBFD25E8CD0364141;
  B := 7;
  Gx := 0x79BE667EF9DCBBAC55A06295CE870B07029BFCDB2DCE28D959F2815B16F81798;
  Gy := 0x483ADA7726A3C4655DA4FBFC0E1108A8FD17B448A68554199C47D08FFB10D4B8;
  BitSize := 256
|}.

Definition IsOnBitCurve (c : BitCurve) (x y : Z) : bool :=
  let y2 := y * y in
  let y2 := Mod y2 (P c) in
  let x3 := x * x in
  let x3 := x3 * x in
  let x3 := x3 + B c in
  let x3 := Mod x3 (P c) in
  x3 =? y2.

Definition affineFromJacobian (c : BitCurve) (x y z : Z) : Z * Z :=
  let zinv := ModInverse z (P c) in
  let zinvsq := zinv * zinv in
  let xOut := Mod (x * zinvsq) (P c) in
  let zinvsq := zinvsq * zinv in
  let yOut := Mod (y * zinvsq) (P c) in
  (xOut, yOut).

(** A difference made non-negative by one addition of [P]. *)
Definition addP_if_neg (c : BitCurve) (v : Z) : Z :=
  if Sign v =? -1 then v + P c else v.

Definition addJacobian (c : BitCurve) (x1 y1 z1 x2 y2 z2 : Z) : Z * Z * Z :=
  let z1z1 := Mod (z1 * z1) (P c) in
  let z2z2 := Mod (z2 * z2) (P c) in
  let u1 := Mod (x1 * z2z2) (P c) in
  let u2 := Mod (x2 * z1z1) (P c) in
  let h := addP_if_neg c (u2 - u1) in
  let i := Z.shiftl h 1 in
  let i := i * i in
  let j := h * i in
  let s1 := Mod (y1 * z2 * z2z2) (P c) in
  let s2 := Mod (y2 * z1 * z1z1) (P c) in
  let r := addP_if_neg c (s2 - s1) in
  let r := Z.shiftl r 1 in
  let v := u1 * i in
  let x3 := Mod (r * r - j - v - v) (P c) in
  let v := v - x3 in
  let y3 := r * v in
  let s1 := Z.shiftl (s1 * j) 1 in
  let y3 := Mod (y3 - s1) (P c) in
  let z3 := z1 + z2 in
  let z3 := z3 * z3 in
  let z3 := addP_if_neg c (z3 - z1z1) in
  let z3 := addP_if_neg c (z3 - z2z2) in
  let z3 := Mod (z3 * h) (P c) in
  (x3, y3, z3).

Definition BitCurve_Add (c : BitCurve) (p1 p2 : Z * Z) : Z * Z :=
  let z := 1 in
  let '(x3, y3, z3) := addJacobian c p1.1 p1.2 z p2.1 p2.2 z in
  affineFromJacobian c x3 y3 z3.

Definition doubleJacobian (c : BitCurve) (x y z : Z) : Z * Z * Z :=
  let a := x * x in
  let b := y * y in
  let cc := b * b in
  let d := x + b in
  let d := d * d in
  let d := d - a in
  let d := d - cc in
  let d := d * 2 in
  let e := 3 * a in
  let f := e * e in
  let x3 := 2 * d in
  let x3 := Mod (f - x3) (P c) in
  let y3 := d - x3 in
  let y3 := e * y3 in
  let y3 := Mod (y3 - 8 * cc) (P c) in
  let z3 := y * z in
  let z3 := 2 * z3 in
  let z3 := Mod z3 (P c) in
  (x3, y3, z3).

Definition BitCurve_Double (c : BitCurve) (p1 : Z * Z) : Z * Z :=
  let z1 := 1 in
  let '(x3, y3, z3) := doubleJacobian c p1.1 p1.2 z1 in
  affineFromJacobian c x3 y3 z3.

Section ScalarMult.
(** [secp256k1_pubkey_scalar_mul(ctx, point, scalar)] of the C library: the
    64-byte point is overwritten, the result is 1 on success. *)
Variable secp256k1_pubkey_scalar_mul : bytes -> bytes -> Z * bytes.

Definition BitCurve_ScalarMult (c : BitCurve) (Bp : Z * Z) (scalar : bytes) : outcome point :=
  if decide (32 < length scalar)%nat then Panic else
  let padded := copy_at (replicate 32 Byte.x00) (32 - length scalar) scalar in
  let pt := ReadBits Bp.1 (replicate 32 Byte.x00) ++ ReadBits Bp.2 (replicate 32 Byte.x00) in
  let '(res, pt) := secp256k1_pubkey_scalar_mul pt padded in
  let x := SetBytes (take 32 pt) in
  let y := SetBytes (drop 32 pt) in
  if negb (res =? 1) then Ret None else Ret (Some (x, y)).

Definition BitCurve_ScalarBaseMult (c : BitCurve) (k : bytes) : outcome point :=
  BitCurve_ScalarMult c (Gx c, Gy c) k.

(** [*BitCurve] implements [elliptic.Curve]. *)
#[refine] Instance BitCurve_Curve (c : BitCurve) : EllipticCurve := {|
  Params_P := P c;
  Params_N := N c;
  Params_BitSize := BitSize c;
  IsOnCurve := IsOnBitCurve c
|}.
Proof.
  - intros [p1|] [p2|]; [exact (Ret (Some (BitCurve_Add c p1 p2)))|exact Panic..].
  - intros [p|] s; [exact (BitCurve_ScalarMult c p s)|exact Panic].
  - exact (BitCurve_ScalarBaseMult c).
Defined.

End ScalarMult.

(** ** The chord and tangent law *)

(** Dividing the Jacobian formulas by powers of [z], over any field. *)
Section AbstractField.
Context {F : Type} (O I : F) (add mul sub : F -> F -> F) (opp : F -> F)
  (div : F -> F -> F) (inv : F -> F).
Context (Fth : field_theory O I add mul sub opp div inv (@eq F)).
#[local] Infix "+" := add.
#[local] Infix "*" := mul.
#[local] Infix "-" := sub.
#[local] Infix "/" := div.

Add Field FA : Fth.

Lemma chord_x x1 x2 r two :
  two = I + I -> two <> O -> x2 - x1 <> O ->
  let d := x2 - x1 in
  two * two * (r * r - d * d * d - two * x1 * d * d) * (inv (two * d) * inv (two * d))
  = r / d * (r / d) - x1 - x2.
Proof. intros -> H2 Hd d. subst d. field. auto. Qed.

Lemma chord_y x1 x2 y1 r xj two :
  two = I + I -> two <> O -> x2 - x1 <> O ->
  let d := x2 - x1 in
  (two * r * (two * two * x1 * d * d - xj) - two * two * two * y1 * d * d * d)
    * (inv (two * d) * inv (two * d) * inv (two * d))
  = r / d * (x1 - xj * (inv (two * d) * inv (two * d))) - y1.
Proof. intros -> H2 Hd d. subst d. field. auto. Qed.

Lemma tangent_x x y two three :
  two = I + I -> three = two + I -> two <> O -> y <> O ->
  (three * three * x * x * x * x - two * (two * two * x * y * y))
    * (inv (two * y) * inv (two * y))
  = three * x * x / (two * y) * (three * x * x / (two * y)) - x - x.
Proof. intros -> -> H2 Hy. field. auto. Qed.

Lemma tangent_y x y xj two three :
  two = I + I -> three = two + I -> two <> O -> y <> O ->
  (three * x * x * (two * two * x * y * y - xj) - two * two * two * y * y * y * y)
    * (inv (two * y) * inv (two * y) * inv (two * y))
  = three * x * x / (two * y) * (x - xj * (inv (two * y) * inv (two * y))) - y.
Proof. intros -> -> H2 Hy. field. auto. Qed.

Lemma chord_second y1 y2 d : d <> O -> y1 + (y2 - y1) / d * d = y2.
Proof. intros Hd. field. auto. Qed.

End AbstractField.

Section Chord.
Context (p b : Z) (Hp : Z.prime p).
#[local] Infix "+" := (@Zmod.add p).
#[local] Infix "*" := (@Zmod.mul p).
#[local] Infix "-" := (@Zmod.sub p).
#[local] Infix "/" := (@Zmod.mdiv p).

Add Field FP : (Zmod.field_theory p Hp).

(** The third point of a line of slope [l] through [(x1,y1)] and a second
    point at horizontal distance [d] is on the curve. *)
Lemma chord_on_curve (x1 y1 d l bb : Zmod p) :
  d <> Zmod.zero ->
  y1 * y1 = x1 * x1 * x1 + bb ->
  (y1 + l * d) * (y1 + l * d) = (x1 + d) * (x1 + d) * (x1 + d) + bb ->
  let x3 := l * l - x1 - (x1 + d) in
  let y3 := l * (x1 - x3) - y1 in
  y3 * y3 = x3 * x3 * x3 + bb.
Proof.
  intros Hd H1 H2 x3 y3.
  assert (d * (y1 * l + y1 * l + l * l * d - (x1 * x1 + x1 * x1 + x1 * x1
            + (x1 + x1 + x1) * d + d * d)) = Zmod.zero) as H3.
  { transitivity ((y1 + l * d) * (y1 + l * d) - y1 * y1
      - ((x1 + d) * (x1 + d) * (x1 + d) - x1 * x1 * x1)); [ring|].
    rewrite H1, H2. ring. }
  apply (Zmod.mul_0_iff_prime Hp) in H3 as [H3|H3]; [done|].
  assert (y3 * y3 - x3 * x3 * x3 - bb
    = (y1 * y1 - x1 * x1 * x1 - bb)
      + (x3 - x1) * (y1 * l + y1 * l + l * l * d - (x1 * x1 + x1 * x1 + x1 * x1
            + (x1 + x1 + x1) * d + d * d))) as H4 by (unfold y3, x3; ring).
  rewrite H3, H1 in H4.
  replace (y3 * y3) with (y3 * y3 - x3 * x3 * x3 - bb + x3 * x3 * x3 + bb) by ring.
  rewrite H4. ring.
Qed.

(** The same for the tangent at [(x,y)]. *)
Lemma tangent_on_curve (x y l bb : Zmod p) :
  y * y = x * x * x + bb -> l * (y + y) = (x + x + x) * x ->
  let x3 := l * l - x - x in
  let y3 := l * (x - x3) - y in
  y3 * y3 = x3 * x3 * x3 + bb.
Proof.
  intros H1 Hl x3 y3.
  assert (y3 * y3 - x3 * x3 * x3 - bb
    = (y * y - x * x * x - bb) + (x3 - x) * (l * (y + y) - (x + x + x) * x)) as H4 by (unfold y3, x3; ring).
  rewrite Hl, H1 in H4.
  replace (y3 * y3) with (y3 * y3 - x3 * x3 * x3 - bb + x3 * x3 * x3 + bb) by ring.
  rewrite H4. ring.
Qed.

End Chord.

(** ** Addition and doubling *)

Section Law.
Context (c : BitCurve) (Hp : Z.prime (P c)) (Hodd : 2 < P c).
#[local] Abbreviation h := (Zmod.of_Z (P c)).
#[local] Abbreviation F := (Zmod (P c)).
#[local] Infix "+f" := (@Zmod.add (P c)) (at level 50, left associativity).
#[local] Infix "*f" := (@Zmod.mul (P c)) (at level 40, left associativity).
#[local] Infix "-f" := (@Zmod.sub (P c)) (at level 50, left associativity).
#[local] Infix "/f" := (@Zmod.mdiv (P c)) (at level 40, left associativity).

Add Field FC : (Zmod.field_theory (P c) Hp).

Lemma h_P : h (P c) = Zmod.zero.
Proof. rewrite <- Zmod.of_Z_mod, Z_mod_same_full. apply Zmod.of_Z_0. Qed.

Lemma h_addP v : h (addP_if_neg c v) = h v.
Proof.
  unfold addP_if_neg. case_match; [|done]. rewrite Zmod.of_Z_add, h_P. ring.
Qed.

Lemma h_shl1 v : h (Z.shiftl v 1) = h v +f h v.
Proof.
  rewrite Z.shiftl_mul_pow2 by lia. replace (v * 2 ^ 1) with (v + v) by lia.
  apply Zmod.of_Z_add.
Qed.

Lemma h_2_nz : Zmod.one +f Zmod.one <> (Zmod.zero : F).
Proof.
  rewrite <- Zmod.of_Z_1, <- Zmod.of_Z_add. apply Zmod.of_Z_nz.
  rewrite Z.mod_small; lia.
Qed.

Lemma h_inv g : h (ModInverse g (P c)) = Zmod.inv (h g).
Proof. apply of_Z_ModInverse. Qed.

Lemma h_affine x y z :
  let '(xo, yo) := affineFromJacobian c x y z in
  h xo = h x *f (Zmod.inv (h z) *f Zmod.inv (h z)) /\
  h yo = h y *f (Zmod.inv (h z) *f Zmod.inv (h z) *f Zmod.inv (h z)) /\
  0 <= xo < P c /\ 0 <= yo < P c.
Proof.
  unfold affineFromJacobian, Mod. rewrite !Zmod.of_Z_mod, !Zmod.of_Z_mul, !h_inv.
  repeat split; try apply Z.mod_pos_bound; lia.
Qed.

(** The Jacobian sum of two affine points. *)
Lemma h_addJacobian x1 y1 x2 y2 :
  let '(x3, y3, z3) := addJacobian c x1 y1 1 x2 y2 1 in
  let d := h x2 -f h x1 in
  let r := h y2 -f h y1 in
  let two := Zmod.one +f Zmod.one in
  h x3 = two *f two *f (r *f r -f d *f d *f d -f two *f h x1 *f d *f d) /\
  h y3 = two *f r *f (two *f two *f h x1 *f d *f d -f h x3)
         -f two *f two *f two *f h y1 *f d *f d *f d /\
  h z3 = two *f d.
Proof.
  unfold addJacobian, Mod. cbv zeta.
  repeat (rewrite ?Zmod.of_Z_mod, ?Zmod.of_Z_mul, ?Zmod.of_Z_sub, ?Zmod.of_Z_add,
            ?h_addP, ?h_shl1, ?Zmod.of_Z_1).
  repeat split; ring.
Qed.

(** Slope of the chord through two points. *)
Definition slope (p1 p2 : Z * Z) : F := (h p2.2 -f h p1.2) /f (h p2.1 -f h p1.1).

Lemma sub_nz (a b : Z) : a mod P c <> b mod P c -> h b -f h a <> Zmod.zero.
Proof.
  intros Hne E. apply Hne. apply Zmod.of_Z_inj.
  replace (h a) with (h b -f (h b -f h a)) by ring. rewrite E. ring.
Qed.

Lemma two_d_nz (d : F) : d <> Zmod.zero -> (Zmod.one +f Zmod.one) *f d <> Zmod.zero.
Proof. intros Hd [E|E]%(Zmod.mul_0_iff_prime Hp); [by apply h_2_nz|done]. Qed.

Lemma BitCurve_Add_coords p1 p2 :
  p1.1 mod P c <> p2.1 mod P c ->
  let '(x3, y3) := BitCurve_Add c p1 p2 in
  let l := slope p1 p2 in
  h x3 = l *f l -f h p1.1 -f h p2.1 /\
  h y3 = l *f (h p1.1 -f h x3) -f h p1.2 /\
  0 <= x3 < P c /\ 0 <= y3 < P c.
Proof.
  intros Hne. unfold BitCurve_Add. cbv zeta.
  pose proof (h_addJacobian p1.1 p1.2 p2.1 p2.2) as HJ.
  destruct (addJacobian c p1.1 p1.2 1 p2.1 p2.2 1) as [[xj yj] zj].
  destruct HJ as (Hx & Hy & Hz). pose proof (h_affine xj yj zj) as HA.
  destruct (affineFromJacobian c xj yj zj) as [x3 y3]. destruct HA as (Ex & Ey & Rx & Ry).
  pose proof (sub_nz _ _ Hne) as Hd. pose proof (two_d_nz _ Hd) as H2d. pose proof h_2_nz as H2.
  split; [|split; [|done]].
  - rewrite Ex, Hx, Hz. by apply (chord_x _ _ _ _ _ _ _ _ (Zmod.field_theory (P c) Hp)).
  - rewrite Ey, Hy, Ex, Hz. by apply (chord_y _ _ _ _ _ _ _ _ (Zmod.field_theory (P c) Hp)).
Qed.

Lemma IsOnBitCurve_spec x y :
  IsOnBitCurve c x y = true <-> h y *f h y = h x *f h x *f h x +f h (B c).
Proof.
  unfold IsOnBitCurve. cbv zeta. rewrite Z.eqb_eq. unfold Mod.
  rewrite <- !Zmod.of_Z_mul, <- Zmod.of_Z_add, Zmod.of_Z_inj. split; congruence.
Qed.

Lemma BitCurve_Add_on_curve p1 p2 :
  p1.1 mod P c <> p2.1 mod P c ->
  IsOnBitCurve c p1.1 p1.2 = true -> IsOnBitCurve c p2.1 p2.2 = true ->
  let p3 := BitCurve_Add c p1 p2 in
  IsOnBitCurve c p3.1 p3.2 = true /\ 0 <= p3.1 < P c /\ 0 <= p3.2 < P c.
Proof.
  intros Hne H1 H2 p3. pose proof (BitCurve_Add_coords p1 p2 Hne) as H.
  subst p3. destruct (BitCurve_Add c p1 p2) as [x3 y3]. cbn [fst snd].
  destruct H as (Ex & Ey & Rx & Ry). split; [|done].
  rewrite IsOnBitCurve_spec in *. pose proof (sub_nz _ _ Hne) as Hd.
  pose proof (chord_on_curve (P c) Hp (h p1.1) (h p1.2) (h p2.1 -f h p1.1) (slope p1 p2)
    (h (B c)) Hd H1) as Hc.
  cbv zeta in Hc. rewrite Ey, Ex.
  replace (h p1.1 +f (h p2.1 -f h p1.1)) with (h p2.1) in Hc by ring.
  apply Hc. rewrite <- H2. unfold slope.
  by rewrite (chord_second _ _ _ _ _ _ _ _ (Zmod.field_theory (P c) Hp)).
Qed.

(** Adding a point to itself, or to its opposite, meets [z3 = 0]. *)
Lemma BitCurve_Add_same_x p1 p2 :
  p1.1 mod P c = p2.1 mod P c -> BitCurve_Add c p1 p2 = (0, 0).
Proof.
  intros He. unfold BitCurve_Add. cbv zeta.
  destruct (addJacobian c p1.1 p1.2 1 p2.1 p2.2 1) as [[xj yj] zj] eqn:EJ.
  assert (zj = 0) as ->.
  { unfold addJacobian in EJ. cbv zeta in EJ. injection EJ as _ _ <-.
    rewrite Z.mul_1_l. unfold Mod. rewrite (Z.mod_small 1), !Z.mul_1_r by lia.
    rewrite He, Z.sub_diag. cbn. by rewrite Z.mul_0_r. }
  unfold affineFromJacobian, ModInverse. rewrite Z.invmod_0_l.
  unfold Mod. by rewrite !Z.mul_0_r, Z.mod_0_l by lia.
Qed.

(** Doubling is the tangent construction. *)
Lemma h_doubleJacobian x y :
  let '(x3, y3, z3) := doubleJacobian c x y 1 in
  let two := Zmod.one +f Zmod.one in
  let three := two +f Zmod.one in
  let s := two *f two *f h x *f h y *f h y in
  h x3 = three *f three *f h x *f h x *f h x *f h x -f two *f s /\
  h y3 = three *f h x *f h x *f (s -f h x3)
         -f two *f two *f two *f h y *f h y *f h y *f h y /\
  h z3 = two *f h y.
Proof.
  unfold doubleJacobian, Mod. cbv zeta.
  change 8 with ((1 + 1) * (1 + 1) * (1 + 1)). change 3 with (1 + 1 + 1). change 2 with (1 + 1).
  repeat (rewrite ?Zmod.of_Z_mod, ?Zmod.of_Z_mul, ?Zmod.of_Z_sub, ?Zmod.of_Z_add, ?Zmod.of_Z_1).
  repeat split; ring.
Qed.

Definition tangent (p1 : Z * Z) : F :=
  ((Zmod.one +f Zmod.one +f Zmod.one) *f h p1.1 *f h p1.1) /f ((Zmod.one +f Zmod.one) *f h p1.2).

Lemma BitCurve_Double_coords p1 :
  p1.2 mod P c <> 0 ->
  let '(x3, y3) := BitCurve_Double c p1 in
  let l := tangent p1 in
  h x3 = l *f l -f h p1.1 -f h p1.1 /\
  h y3 = l *f (h p1.1 -f h x3) -f h p1.2 /\
  0 <= x3 < P c /\ 0 <= y3 < P c.
Proof.
  intros Hne. unfold BitCurve_Double. cbv zeta.
  pose proof (h_doubleJacobian p1.1 p1.2) as HJ.
  destruct (doubleJacobian c p1.1 p1.2 1) as [[xj yj] zj].
  destruct HJ as (Hx & Hy & Hz). pose proof (h_affine xj yj zj) as HA.
  destruct (affineFromJacobian c xj yj zj) as [x3 y3]. destruct HA as (Ex & Ey & Rx & Ry).
  pose proof (Zmod.of_Z_nz _ Hne) as Hd. pose proof (two_d_nz _ Hd) as H2d. pose proof h_2_nz as H2.
  split; [|split; [|done]].
  - rewrite Ex, Hx, Hz. by apply (tangent_x _ _ _ _ _ _ _ _ (Zmod.field_theory (P c) Hp)).
  - rewrite Ey, Hy, Ex, Hz. by apply (tangent_y _ _ _ _ _ _ _ _ (Zmod.field_theory (P c) Hp)).
Qed.

Lemma tangent_slope p1 :
  p1.2 mod P c <> 0 ->
  tangent p1 *f (h p1.2 +f h p1.2) = (h p1.1 +f h p1.1 +f h p1.1) *f h p1.1.
Proof.
  intros Hne. unfold tangent. pose proof (Zmod.of_Z_nz _ Hne) as Hy. pose proof h_2_nz as H2.
  field. auto.
Qed.

(** Affine addition.  On points with different abscissas [Add] is the chord
    construction, in the field of [P] elements, with reduced coordinates, and it stays
    on the curve; on points with the same abscissa (a point and itself, or its
    opposite) it returns (0, 0), whatever their sum. *)
Theorem BitCurve_Add_correct (p1 p2 : Z * Z) :
  (p1.1 mod P c <> p2.1 mod P c ->
   let p3 := BitCurve_Add c p1 p2 in
   let l := slope p1 p2 in
   h p3.1 = l *f l -f h p1.1 -f h p2.1 /\ h p3.2 = l *f (h p1.1 -f h p3.1) -f h p1.2 /\
   0 <= p3.1 < P c /\ 0 <= p3.2 < P c /\
   (IsOnBitCurve c p1.1 p1.2 = true -> IsOnBitCurve c p2.1 p2.2 = true ->
    IsOnBitCurve c p3.1 p3.2 = true)) /\
  (p1.1 mod P c = p2.1 mod P c -> BitCurve_Add c p1 p2 = (0, 0)).
Proof.
  split; [|apply BitCurve_Add_same_x]. intros Hne p3 l.
  pose proof (BitCurve_Add_coords p1 p2 Hne) as Hc. fold p3 in Hc. fold l in Hc.
  pose proof (BitCurve_Add_on_curve p1 p2 Hne) as Ho. fold p3 in Ho.
  destruct p3 as [x3 y3]. cbn [fst snd] in *.
  destruct Hc as (Ex & Ey & Rx & Ry). do 2 (split; [done|]). split; [exact Rx|]. split; [exact Ry|].
  intros H1 H2. by apply Ho.
Qed.

(** doubling is the tangent construction on a point with a non-zero ordinate, with
    reduced coordinates, and stays on the curve. *)
Theorem BitCurve_Double_correct (p1 : Z * Z) :
  p1.2 mod P c <> 0 ->
  let p3 := BitCurve_Double c p1 in
  let l := tangent p1 in
  h p3.1 = l *f l -f h p1.1 -f h p1.1 /\ h p3.2 = l *f (h p1.1 -f h p3.1) -f h p1.2 /\
  0 <= p3.1 < P c /\ 0 <= p3.2 < P c /\
  (IsOnBitCurve c p1.1 p1.2 = true -> IsOnBitCurve c p3.1 p3.2 = true).
Proof.
  intros Hne p3 l. pose proof (BitCurve_Double_coords p1 Hne) as Hc. fold p3 in Hc. fold l in Hc.
  destruct p3 as [x3 y3]. destruct Hc as (Ex & Ey & Rx & Ry). cbn [fst snd].
  do 2 (split; [done|]). split; [exact Rx|]. split; [exact Ry|].
  intros H1%IsOnBitCurve_spec. apply IsOnBitCurve_spec. rewrite Ey, Ex.
  apply (tangent_on_curve (P c) Hp); [done|]. by apply tangent_slope.
Qed.

End Law.

(** ** A small instance

    The same code on a curve small enough to check the group laws by
    enumeration: [y^2 = x^3 + 7] over the field of 43 elements, of prime order
    31, with the C function replaced by double-and-add. *)

Definition smallCurve : BitCurve :=
  {| P := 43; N := 31; B := 7; Gx := 2; Gy := 12; BitSize := 256 |}.

Definition small_add (a b : option (Z * Z)) : option (Z * Z) :=
  match a, b with
  | None, _ => b
  | _, None => a
  | Some p, Some q =>
      if p.1 =? q.1
      then if p.2 =? q.2 then Some (BitCurve_Double smallCurve p) else None
      else Some (BitCurve_Add smallCurve p q)
  end.

Fixpoint small_mul (n : positive) (p : option (Z * Z)) : option (Z * Z) :=
  match n with
  | xH => p
  | xO n' => small_mul n' (small_add p p)
  | xI n' => small_add p (small_mul n' (small_add p p))
  end.

(** Documented behaviour of [secp256k1_pubkey_scalar_mul], on the small curve. *)
Definition small_scalar_mul (pt scalar : bytes) : Z * bytes :=
  let s := be_val scalar in
  if (s =? 0) || (N smallCurve <=? s) then (0, pt)
  else match small_mul (Z.to_pos s) (Some (be_val (take 32 pt), be_val (drop 32 pt))) with
       | Some (x, y) => (1, be_fix 32 x ++ be_fix 32 y)
       | None => (0, pt)
       end.

#[local] Instance smallC : EllipticCurve := BitCurve_Curve small_scalar_mul smallCurve.

Definition small_mulG (k : Z) : Z * Z :=
  default (0, 0) (small_mul (Z.to_pos (k mod 31)) (Some (2, 12))).

Definition residues : list Z := map Z.of_nat (seq 0 31).

Lemma residues_all k : k mod 31 ∈ residues.
Proof.
  apply list_elem_of_fmap. exists (Z.to_nat (k mod 31)).
  pose proof (Z.mod_pos_bound k 31). rewrite elem_of_seq. lia.
Qed.

Definition for_residues (f : Z -> bool) : bool := forallb f residues.

Lemma for_residues_spec f k : for_residues f = true -> f (k mod 31) = true.
Proof.
  unfold for_residues. rewrite forallb_forall. intros H.
  apply H, list_elem_of_In, residues_all.
Qed.

Definition pair_eqb (p q : Z * Z) : bool := (p.1 =? q.1) && (p.2 =? q.2).

Lemma pair_eqb_eq p q : pair_eqb p q = true <-> p = q.
Proof.
  unfold pair_eqb. destruct p, q. cbn. rewrite andb_true_iff, !Z.eqb_eq. intuition congruence.
Qed.

Lemma small_mulG_mod k : small_mulG (k mod 31) = small_mulG k.
Proof. unfold small_mulG. by rewrite Z.mod_mod by lia. Qed.

Lemma small_coords_check :
  for_residues (fun k => (k =? 0) ||
    let p := small_mulG k in
    (0 <=? p.1) && (p.1 <? 43) && (0 <=? p.2) && (p.2 <? 43) && IsOnBitCurve smallCurve p.1 p.2) = true.
Proof. vm_compute. reflexivity. Qed.

Lemma small_inj_check :
  for_residues (fun j => for_residues (fun k =>
    (j =? 0) || (k =? 0) || (j =? k) || negb (pair_eqb (small_mulG j) (small_mulG k)))) = true.
Proof. vm_compute. reflexivity. Qed.

Lemma small_add_check :
  for_residues (fun j => for_residues (fun k =>
    (j =? 0) || (k =? 0) || ((j + k) mod 31 =? 0) || (j =? k) ||
    pair_eqb (BitCurve_Add smallCurve (small_mulG j) (small_mulG k)) (small_mulG (j + k)))) = true.
Proof. vm_compute. reflexivity. Qed.

Lemma small_mul_check :
  for_residues (fun k => for_residues (fun s =>
    (k =? 0) || (s =? 0) ||
    match small_mul (Z.to_pos s) (Some (small_mulG k)) with
    | Some p => pair_eqb p (small_mulG (k * s))
    | None => false
    end)) = true.
Proof. vm_compute. reflexivity. Qed.

Lemma prime_check p :
  2 <= p -> forallb (fun i => negb (p mod Z.of_nat i =? 0)) (seq 2 (Z.to_nat p - 2)) = true -> Z.prime p.
Proof.
  intros Hp Hf. split; [lia|]. intros n Hn Hd. rewrite forallb_forall in Hf.
  specialize (Hf (Z.to_nat n) ltac:(apply in_seq; lia)).
  rewrite Z2Nat.id in Hf by lia. rewrite negb_true_iff, Z.eqb_neq in Hf.
  apply Hf. by apply Z.mod0_divide.
Qed.

Lemma prime_31 : Z.prime 31.
Proof. apply prime_check; [lia|by vm_compute]. Qed.

Lemma prime_43 : Z.prime 43.
Proof. apply prime_check; [lia|by vm_compute]. Qed.

Lemma padded_val scalar :
  (length scalar <= 32)%nat ->
  be_val (copy_at (replicate 32 Byte.x00) (32 - length scalar) scalar) = be_val scalar.
Proof.
  intros Hl. pose proof (copy_at_mid (replicate (32 - length scalar) Byte.x00)
    (replicate (length scalar) Byte.x00) [] scalar) as E.
  rewrite !app_nil_r, !length_replicate, <- replicate_add in E.
  replace (32 - length scalar + length scalar)%nat with 32%nat in E by lia.
  rewrite E by done.
  by rewrite be_val_app, be_val_zeros.
Qed.

Lemma small_coords k :
  k mod 31 <> 0 ->
  0 <= (small_mulG k).1 < 43 /\ 0 <= (small_mulG k).2 < 43 /\
  IsOnBitCurve smallCurve (small_mulG k).1 (small_mulG k).2 = true.
Proof.
  intros Hk. pose proof (for_residues_spec _ k small_coords_check) as H. cbv beta zeta in H.
  rewrite (proj2 (Z.eqb_neq _ _) Hk), small_mulG_mod in H. cbn [orb] in H.
  rewrite !andb_true_iff, !Z.leb_le, !Z.ltb_lt in H. tauto.
Qed.

Lemma small_inj j k :
  j mod 31 <> 0 -> k mod 31 <> 0 -> small_mulG j = small_mulG k -> j mod 31 = k mod 31.
Proof.
  intros Hj Hk E. pose proof (for_residues_spec _ j small_inj_check) as H. cbv beta in H.
  apply (for_residues_spec _ k) in H. cbv beta in H.
  rewrite (proj2 (Z.eqb_neq _ _) Hj), (proj2 (Z.eqb_neq _ _) Hk) in H. cbn [orb] in H.
  rewrite !small_mulG_mod, (proj2 (pair_eqb_eq _ _) E), orb_false_r in H. by apply Z.eqb_eq.
Qed.

Lemma small_Add j k :
  j mod 31 <> 0 -> k mod 31 <> 0 -> (j + k) mod 31 <> 0 -> (j - k) mod 31 <> 0 ->
  BitCurve_Add smallCurve (small_mulG j) (small_mulG k) = small_mulG (j + k).
Proof.
  intros Hj Hk Hs Hd. pose proof (for_residues_spec _ j small_add_check) as H. cbv beta in H.
  apply (for_residues_spec _ k) in H. cbv beta in H.
  rewrite <- Z.add_mod, (proj2 (Z.eqb_neq _ _) Hj), (proj2 (Z.eqb_neq _ _) Hk),
    (proj2 (Z.eqb_neq _ _) Hs) in H by lia.
  rewrite (proj2 (Z.eqb_neq (j mod 31) (k mod 31))) in H.
  - cbn [orb] in H. apply pair_eqb_eq in H. rewrite !small_mulG_mod in H.
    by rewrite H, <- small_mulG_mod, <- Z.add_mod, small_mulG_mod by lia.
  - intros E. apply Hd. by rewrite Zminus_mod, E, Z.sub_diag.
Qed.

Lemma small_mul_mulG k s :
  k mod 31 <> 0 -> 0 < s < 31 ->
  small_mul (Z.to_pos s) (Some (small_mulG k)) = Some (small_mulG (k * s)).
Proof.
  intros Hk Hs. pose proof (for_residues_spec _ k small_mul_check) as H. cbv beta in H.
  apply (for_residues_spec _ s) in H. cbv beta in H.
  rewrite (Z.mod_small s), (proj2 (Z.eqb_neq _ _) Hk), (proj2 (Z.eqb_neq s 0)) in H by lia.
  cbn [orb] in H. rewrite small_mulG_mod in H.
  destruct (small_mul _ _) as [p|]; [|done]. apply pair_eqb_eq in H. subst p.
  by rewrite <- small_mulG_mod, Z.mul_mod_idemp_l, small_mulG_mod by lia.
Qed.

Lemma small_ScalarMult k bs :
  (length bs <= 32)%nat -> k mod 31 <> 0 ->
  BitCurve_ScalarMult small_scalar_mul smallCurve (small_mulG k) bs
  = Ret (if (be_val bs =? 0) || (31 <=? be_val bs) then None
         else Some (small_mulG (k * be_val bs))).
Proof.
  intros Hl Hk. unfold BitCurve_ScalarMult. rewrite decide_False by lia.
  destruct (small_coords k Hk) as (Hx & Hy & _).
  unfold small_scalar_mul. rewrite padded_val by done. cbn [N smallCurve].
  rewrite !ReadBits_zeroed, !Z.abs_eq by lia.
  rewrite take_app_length', drop_app_length' by (by rewrite length_be_fix).
  rewrite !be_val_fix_small by lia. rewrite <- surjective_pairing.
  pose proof (be_val_bound bs).
  destruct (Z.eqb_spec (be_val bs) 0) as [E|E]; [done|]. cbn [orb].
  destruct (Z.leb_spec 31 (be_val bs)); [done|].
  rewrite small_mul_mulG by lia.
  assert (Hks : (k * be_val bs) mod 31 <> 0).
  { intros H1. apply Z.mod_divide in H1; [|lia].
    apply (Z.divide_prime_mul _ _ _ prime_31) in H1 as [H1|H1].
    - by apply Hk, Z.mod0_divide.
    - apply Z.divide_pos_le in H1; lia. }
  destruct (small_coords _ Hks) as (Hx' & Hy' & _).
  destruct (small_mulG (k * be_val bs)) as [x y]. cbn [fst snd] in Hx', Hy'.
  cbn [negb Z.eqb Pos.eqb]. unfold SetBytes.
  rewrite take_app_length', drop_app_length' by (by rewrite length_be_fix).
  by rewrite !be_val_fix_small by lia.
Qed.

#[local] Program Instance small_group : CurveGroup smallC := {| mulG := small_mulG |}.
Next Obligation. apply prime_31. Qed.
Next Obligation. cbn. lia. Qed.
Next Obligation. apply small_mulG_mod. Qed.
Next Obligation. by apply small_inj. Qed.
Next Obligation. by apply small_coords. Qed.
Next Obligation. intros. cbn. do 2 f_equal. by apply small_Add. Qed.
Next Obligation.
  intros k bs Hl Hk Hs. cbn in *. rewrite small_ScalarMult by done.
  rewrite (proj2 (Z.eqb_neq _ _)), (proj2 (Z.leb_gt _ _)) by lia. done.
Qed.
Next Obligation.
  intros k bs Hl Hk Hs. cbn in *. rewrite small_ScalarMult by done.
  destruct Hs as [->|Hs]; [done|]. by rewrite (proj2 (Z.leb_le _ _) Hs), orb_true_r.
Qed.
Next Obligation. done. Qed.
Next Obligation. split; by vm_compute. Qed.
Next Obligation. cbn. lia. Qed.

(** *** Witnesses *)

Lemma BitCurve_Add_correct_witness :
  BitCurve_Add smallCurve (2, 12) (2, 12) = (0, 0) /\
  (let p3 := BitCurve_Add smallCurve (2, 12) (small_mulG 2) in IsOnBitCurve smallCurve p3.1 p3.2 = true).
Proof.
  split.
  - apply (BitCurve_Add_correct smallCurve prime_43); [cbn; lia|reflexivity].
  - apply (BitCurve_Add_correct smallCurve prime_43); [cbn; lia|by vm_compute..].
Defined.

Lemma BitCurve_Double_correct_witness :
  let p3 := BitCurve_Double smallCurve (2, 12) in IsOnBitCurve smallCurve p3.1 p3.2 = true.
Proof. apply (BitCurve_Double_correct smallCurve prime_43); [cbn; lia|by vm_compute..]. Defined.
