(* ===== verification/Ecies.v ===== *)
(** * Integrated encryption on elliptic curves

    [src/crypto/ecies/ecies.go] and [params.go]: the shared secret of two key pairs, the key
    derivation, and encryption with a tag.  The handshake of the peer-to-peer transport
    is sealed with it.

    All keys are on one curve.  The random reader is an argument: the private value that
    [elliptic.GenerateKey] draws and the initialisation vector. *)

From S2P Require Import Prelude BigInt Curve Secp256k1 StdCrypto.

(** ** Parameters *)

Record ECIESParams := mk_params {
  p_Hash : Hash;
  p_Cipher : bytes -> outcome Block;
  p_BlockSize : nat;
  p_KeyLen : nat
}.

Definition ECIES_AES128_SHA256 : ECIESParams := mk_params sha256_hash NewCipher 16 16.
Definition ECIES_AES256_SHA256 : ECIESParams := mk_params sha256_hash NewCipher 16 32.

Definition ErrInvalidParams : error := "ecies: invalid ECIES parameters".
Definition ErrInvalidCurve : error := "ecies: invalid elliptic curve".
Definition ErrInvalidPublicKey : error := "ecies: invalid public key".
Definition ErrSharedKeyIsPointAtInfinity : error := "ecies: shared key is point at infinity".
Definition ErrSharedKeyTooBig : error := "ecies: shared key params are too big".
Definition ErrKeyDataTooLong : error := "ecies: can't supply requested key data".
Definition ErrInvalidMessage : error := "ecies: invalid message".

(** ** Keys *)

Record PrivateKey := mk_prv { prv_pub : point; prv_D : Z }.

Section Keys.
Context {C : EllipticCurve}.

(** [ParamsFromCurve] of the curve of the nodes. *)
Definition ParamsFromCurve : ECIESParams := ECIES_AES128_SHA256.

Definition GenerateKey (pb : bytes) : outcome PrivateKey :=
  xy ← ScalarBaseMult pb;
  Ret (mk_prv xy (SetBytes pb)).

Definition MaxSharedKeyLength : nat := Z.to_nat ((Params_BitSize + 7) / 8).

Definition GenerateShared (prv : PrivateKey) (pub : point) (skLen macLen : nat) : outcome bytes :=
  if (MaxSharedKeyLength <? skLen + macLen)%nat then Err ErrSharedKeyTooBig else
  xy ← ScalarMult pub (Bytes (prv_D prv));
  match xy with
  | None => Err ErrSharedKeyIsPointAtInfinity
  | Some (x, _) =>
      let sk := replicate (skLen + macLen) Byte.x00 in
      let skBytes := Bytes x in
      if (length sk <? length skBytes)%nat then Panic
      else Ret (copy_at sk (length sk - length skBytes) skBytes)
  end.

(** ** Key derivation *)

(** The counter of four bytes, least significant last. *)
Definition incCounter (ctr : bytes) : outcome bytes :=
  match ctr with
  | c0 :: c1 :: c2 :: c3 :: rest =>
      let inc b := u8 (ub b + 1) in
      Ret (if decide (inc c3 <> Byte.x00) then c0 :: c1 :: c2 :: inc c3 :: rest
           else if decide (inc c2 <> Byte.x00) then c0 :: c1 :: inc c2 :: inc c3 :: rest
           else if decide (inc c1 <> Byte.x00) then c0 :: inc c1 :: inc c2 :: inc c3 :: rest
           else inc c0 :: inc c1 :: inc c2 :: inc c3 :: rest)
  | _ => Panic
  end.

(** [n] rounds of the loop of [concatKDF]: the counter and the key data so far. *)
Fixpoint kdf_loop (hash : Hash) (z s1 : bytes) (n : nat) (counter k : bytes) : outcome bytes :=
  match n with
  | O => Ret k
  | S n =>
      let k := k ++ h_sum hash (counter ++ z ++ s1) in
      counter ← incCounter counter;
      kdf_loop hash z s1 n counter k
  end.

(** A result shorter than [kdLen] is resliced beyond its length. *)
Definition concatKDF (hash : Hash) (z s1 : bytes) (kdLen : nat) : outcome bytes :=
  let reps := ((kdLen + 7) * 8 / (h_block hash * 8))%nat in
  if 2 ^ 32 - 1 <? Z.of_nat reps then Err ErrKeyDataTooLong else
  k ← kdf_loop hash z s1 (S reps) [Byte.x00; Byte.x00; Byte.x00; Byte.x01] [];
  slice k 0 kdLen.

Definition messageTag (hash : Hash) (km msg shared : bytes) : bytes := hmac_sum hash km (msg ++ shared).

(** ** Encryption *)

Definition symEncrypt (params : ECIESParams) (iv key m : bytes) : outcome bytes :=
  c ← p_Cipher params key;
  ctr ← NewCTR c iv;
  Ret (iv ++ (XORKeyStream ctr m).1).

(** The allocation of a negative size panics. *)
Definition symDecrypt (params : ECIESParams) (key ct : bytes) : outcome bytes :=
  c ← p_Cipher params key;
  if (length ct <? p_BlockSize params)%nat then Panic else
  ctr ← NewCTR c (take (p_BlockSize params) ct);
  Ret (XORKeyStream ctr (drop (p_BlockSize params) ct)).1.

(** The keys of encryption and of the tag. *)
Definition split_keys (params : ECIESParams) (K : bytes) : bytes * bytes :=
  (take (p_KeyLen params) K, h_sum (p_Hash params) (drop (p_KeyLen params) K)).

Definition Encrypt (pb iv : bytes) (pub : point) (m s1 s2 : bytes) : outcome bytes :=
  let params := ParamsFromCurve in
  R ← GenerateKey pb;
  z ← GenerateShared R pub (p_KeyLen params) (p_KeyLen params);
  K ← concatKDF (p_Hash params) z s1 (p_KeyLen params + p_KeyLen params);
  let '(Ke, Km) := split_keys params K in
  em ← symEncrypt params iv Ke m;
  if (length em <=? p_BlockSize params)%nat then Ret [] else
  let d := messageTag (p_Hash params) Km em s2 in
  match prv_pub R with
  | Some (x, y) => Rb ← elliptic_Marshal x y; Ret (Rb ++ em ++ d)
  | None => Panic
  end.

Definition Decrypt (prv : PrivateKey) (c s1 s2 : bytes) : outcome bytes :=
  match c with
  | [] => Err ErrInvalidMessage
  | c0 :: _ =>
      let params := ParamsFromCurve in
      let hash := p_Hash params in
      let hLen := h_size hash in
      let rLen := Z.to_nat ((Params_BitSize + 7) / 4) in
      if decide (c0 ∈ [Byte.x02; Byte.x03; Byte.x04]) then
        if (length c <? rLen + hLen + 1)%nat then Err ErrInvalidMessage else
        let mStart := rLen in
        let mEnd := (length c - hLen)%nat in
        match elliptic_Unmarshal (take rLen c) with
        | None => Err ErrInvalidPublicKey
        | Some (x, y) =>
            if negb (IsOnCurve x y) then Err ErrInvalidCurve else
            z ← GenerateShared prv (Some (x, y)) (p_KeyLen params) (p_KeyLen params);
            K ← concatKDF hash z s1 (p_KeyLen params + p_KeyLen params);
            let '(Ke, Km) := split_keys params K in
            body ← slice c mStart mEnd;
            let d := messageTag hash Km body s2 in
            if decide (drop mEnd c <> d) then Err ErrInvalidMessage
            else symDecrypt params Ke body
        end
      else Err ErrInvalidPublicKey
  end.

End Keys.

(** ** Key agreement *)

Lemma length_hmac_sum key msg : length (hmac_sum sha256_hash key msg) = 32%nat.
Proof. apply Sha256.length_sum. Qed.

Lemma concatKDF_32 z s1 : concatKDF sha256_hash z s1 32 =
  Ret (Sha256.sum ([Byte.x00; Byte.x00; Byte.x00; Byte.x01] ++ z ++ s1)).
Proof.
  unfold concatKDF. change ((32 + 7) * 8 / (h_block sha256_hash * 8))%nat with 0%nat.
  change (2 ^ 32 - 1 <? Z.of_nat 0) with false. cbn [kdf_loop incCounter mbind outcome_bind app h_sum sha256_hash].
  unfold slice. rewrite Sha256.length_sum, decide_True by lia.
  by rewrite drop_0, take_ge by (rewrite Sha256.length_sum; lia).
Qed.

Section Agreement.
Context {C : EllipticCurve} {G : CurveGroup C}.
Hypothesis HB : Params_BitSize = 256.

(** A private value. *)
Definition key_ok (d : Z) : Prop := 0 < d < Params_N.

Lemma key_ok_mod d : key_ok d -> d mod Params_N <> 0.
Proof. intros [H1 H2]. rewrite Z.mod_small; lia. Qed.

Lemma key_ok_mul a b : key_ok a -> key_ok b -> (a * b) mod Params_N <> 0.
Proof.
  intros [Ha1 Ha2] [Hb1 Hb2] H. pose proof N_prime as Hp. apply Z.mod_divide in H; [|lia].
  apply (Z.divide_prime_mul _ _ _ Hp) in H as [H|H]; apply Z.divide_pos_le in H; lia.
Qed.

Lemma byteLen_32 : byteLen = 32%nat.
Proof. pose proof (byteLen_eq BitSize_nonneg) as Hl. rewrite HB in Hl. change ((256 + 7) / 8) with 32 in Hl. lia. Qed.

Lemma coords_32 k : k mod Params_N <> 0 ->
  0 <= (mulG k).1 < 256 ^ Z.of_nat 32 /\ 0 <= (mulG k).2 < 256 ^ Z.of_nat 32.
Proof.
  intros Hk. destruct (mulG_coords k Hk) as (Hx & Hy & _). pose proof P_bytes as HP. rewrite HB in HP.
  change ((256 + 7) / 8) with 32 in HP. change (Z.of_nat 32) with 32. lia.
Qed.

Lemma Bytes_key d : key_ok d -> (length (Bytes d) <= 32)%nat /\ be_val (Bytes d) = d.
Proof.
  intros [H1 H2]. pose proof N_bound. split; [|apply SetBytes_Bytes; lia].
  rewrite length_Bytes. apply byte_len_le. change (Z.of_nat 32) with 32. lia.
Qed.

(** The secret is the abscissa of the product, on 32 bytes. *)
Lemma GenerateShared_mulG p a b : key_ok a -> key_ok b ->
  GenerateShared (mk_prv p a) (Some (mulG b)) 16 16 = Ret (be_fix 32 (mulG (a * b)).1).
Proof.
  intros Ha Hb. unfold GenerateShared, MaxSharedKeyLength. rewrite HB. change (16 + 16)%nat with 32%nat.
  change (Z.to_nat ((256 + 7) / 8) <? 32)%nat with false.
  destruct (Bytes_key a Ha) as [Hl Hv]. cbn [prv_D].
  rewrite ScalarMult_mulG; [|done|by apply key_ok_mod|rewrite Hv; apply Ha]. cbn [mbind outcome_bind].
  rewrite Hv, (Z.mul_comm b a). destruct (coords_32 (a * b) (key_ok_mul a b Ha Hb)) as [Hx _].
  destruct (mulG (a * b)) as [x y]. cbn [fst] in *.
  assert (length (Bytes x) <= 32)%nat as Hlx by (rewrite length_Bytes; apply byte_len_le; lia).
  rewrite length_replicate. destruct (Nat.ltb_spec 32 (length (Bytes x))); [lia|].
  pose proof (copy_at_pad [] 32 [] x Hx) as E. cbn [app length Nat.add] in E. rewrite !app_nil_r in E.
  by rewrite E.
Qed.

Lemma GenerateKey_mulG pb : (length pb <= 32)%nat -> key_ok (be_val pb) ->
  GenerateKey pb = Ret (mk_prv (Some (mulG (be_val pb))) (be_val pb)).
Proof.
  intros Hl Hk. unfold GenerateKey. rewrite ScalarBaseMult_mulG, ScalarMult_mulG; [|done| |apply Hk].
  - cbn [mbind outcome_bind]. by rewrite Z.mul_1_l.
  - rewrite Z.mod_small; [lia|]. destruct Hk. lia.
Qed.

(** What both sides derive from a shared secret. *)
Definition keys_of (x : Z) (s1 : bytes) : bytes * bytes :=
  split_keys ECIES_AES128_SHA256
    (Sha256.sum ([Byte.x00; Byte.x00; Byte.x00; Byte.x01] ++ be_fix 32 x ++ s1)).

Lemma length_Ke x s1 : length (keys_of x s1).1 = 16%nat.
Proof. cbn -[Sha256.sum take]. rewrite length_take, Sha256.length_sum. done. Qed.

Lemma point_bytes_split k : k mod Params_N <> 0 ->
  length (point_bytes k) = 65%nat /\ take 1 (point_bytes k) = [Byte.x04] /\
  elliptic_Unmarshal (point_bytes k) = Some (mulG k) /\ IsOnCurve (mulG k).1 (mulG k).2 = true.
Proof.
  intros Hk. destruct (mulG_coords k Hk) as (_ & _ & Hon).
  pose proof (ToECDSAPub_point_bytes k HB Hk) as E. unfold ToECDSAPub in E.
  case_decide as Hl; [done|].
  destruct (elliptic_Unmarshal (point_bytes k)) as [xy|]; [|done]. injection E as ->. done.
Qed.

(** A ciphertext: the point, the body and its tag. *)
Lemma Decrypt_parts p d r body tag s1 s2 : key_ok d -> key_ok r -> body <> [] -> length tag = 32%nat ->
  Decrypt (mk_prv p d) (point_bytes r ++ body ++ tag) s1 s2 =
  let '(Ke, Km) := keys_of (mulG (d * r)).1 s1 in
  if decide (tag <> messageTag sha256_hash Km body s2) then Err ErrInvalidMessage
  else symDecrypt ECIES_AES128_SHA256 Ke body.
Proof.
  intros Hd Hr Hbody Ht. destruct (point_bytes_split r (key_ok_mod r Hr)) as (Hl & _ & Hu & Hon).
  assert (1 <= length body)%nat by (destruct body; cbn; [done|lia]).
  assert (length (point_bytes r ++ body ++ tag) = 65 + length body + 32)%nat as Hlen
    by (rewrite !length_app; lia).
  unfold Decrypt. destruct (point_bytes r ++ body ++ tag) as [|c0 cs] eqn:Ec; [done|].
  assert (c0 = Byte.x04) as -> by (by injection Ec as ->).
  rewrite decide_True by (repeat constructor). rewrite <- Ec in *.
  replace (Z.to_nat ((Params_BitSize + 7) / 4)) with 65%nat by (by rewrite HB).
  change (h_size (p_Hash ParamsFromCurve)) with 32%nat.
  rewrite Hlen. destruct (Nat.ltb_spec (65 + length body + 32) (65 + 32 + 1)); [lia|].
  rewrite take_app_length' by lia. rewrite Hu. destruct (mulG r) as [x y] eqn:Er.
  cbn [fst snd] in Hon. rewrite Hon. cbn [negb]. rewrite <- Er.
  change (p_KeyLen ParamsFromCurve) with 16%nat. rewrite GenerateShared_mulG by done.
  cbn [mbind outcome_bind]. change (16 + 16)%nat with 32%nat. change (p_Hash ParamsFromCurve) with sha256_hash.
  rewrite concatKDF_32. cbn [mbind outcome_bind]. change ParamsFromCurve with ECIES_AES128_SHA256.
  fold (keys_of (mulG (d * r)).1 s1). destruct (keys_of (mulG (d * r)).1 s1) as [Ke Km].
  unfold slice. rewrite Hlen. rewrite decide_True by lia. cbn [mbind outcome_bind].
  replace (65 + length body + 32 - 32)%nat with (65 + length body)%nat by lia.
  replace (65 + length body - 65)%nat with (length body) by lia.
  rewrite (drop_app_length' _ _ 65) by lia. rewrite take_app_length.
  rewrite app_assoc, drop_app_length' by (rewrite length_app; lia). done.
Qed.

Lemma symDecrypt_symEncrypt iv key m : length iv = 16%nat -> length key = 16%nat ->
  exists em, symEncrypt ECIES_AES128_SHA256 iv key m = Ret em /\ length em = (16 + length m)%nat /\
    symDecrypt ECIES_AES128_SHA256 key em = Ret m.
Proof.
  intros Hiv Hkey. unfold symEncrypt, symDecrypt. cbn [p_Cipher p_BlockSize ECIES_AES128_SHA256].
  assert (NewCipher key = Ret (Aes.encrypt_block key)) as ->
    by (unfold NewCipher; rewrite Hkey, decide_True by (repeat constructor); done).
  cbn [mbind outcome_bind]. unfold NewCTR. rewrite decide_True by done. cbn [mbind outcome_bind].
  eexists. split; [done|]. set (ctr := mk_ctr _ _ _).
  assert (length (XORKeyStream ctr m).1 = length m) as Hl by apply length_XORKeyStream.
  split; [rewrite length_app; lia|]. rewrite length_app, Hl, Hiv.
  destruct (Nat.ltb_spec (16 + length m) 16); [lia|].
  rewrite take_app_length', drop_app_length' by lia. rewrite decide_True by done. cbn [mbind outcome_bind].
  fold ctr. by rewrite XORKeyStream_twice.
Qed.

(** Encryption gives the three parts, and the body decrypts. *)
Lemma Encrypt_parts pb iv m s1 s2 d : key_ok d -> (length pb <= 32)%nat -> key_ok (be_val pb) ->
  length iv = 16%nat -> m <> [] ->
  exists em, let '(Ke, Km) := keys_of (mulG (d * be_val pb)).1 s1 in
    Encrypt pb iv (Some (mulG d)) m s1 s2 =
      Ret (point_bytes (be_val pb) ++ em ++ messageTag sha256_hash Km em s2) /\
    length em = (16 + length m)%nat /\ symDecrypt ECIES_AES128_SHA256 Ke em = Ret m.
Proof.
  intros Hd Hpb Hr Hiv Hm. set (r := be_val pb) in *.
  destruct (keys_of (mulG (d * r)).1 s1) as [Ke Km] eqn:EK.
  assert (length Ke = 16%nat) as HKe by (pose proof (length_Ke (mulG (d * r)).1 s1) as E; by rewrite EK in E).
  destruct (symDecrypt_symEncrypt iv Ke m Hiv HKe) as (em & Eem & Hlem & Edec).
  assert (length m <> 0)%nat by (by destruct m).
  exists em. split; [|done]. unfold Encrypt. rewrite GenerateKey_mulG by done. cbn [mbind outcome_bind].
  change (p_KeyLen ParamsFromCurve) with 16%nat. fold r. rewrite GenerateShared_mulG by done.
  cbn [mbind outcome_bind]. change (16 + 16)%nat with 32%nat. change (p_Hash ParamsFromCurve) with sha256_hash.
  rewrite concatKDF_32. cbn [mbind outcome_bind]. change ParamsFromCurve with ECIES_AES128_SHA256.
  rewrite (Z.mul_comm r d). fold (keys_of (mulG (d * r)).1 s1). rewrite EK, Eem. cbn [mbind outcome_bind].
  rewrite Hlem. change (p_BlockSize ECIES_AES128_SHA256) with 16%nat.
  destruct (Nat.leb_spec (16 + length m) 16); [lia|]. cbn [prv_pub].
  pose proof (FromECDSAPub_mulG r (key_ok_mod r Hr)) as Em. destruct (mulG r) as [x y].
  cbn [FromECDSAPub] in Em. by rewrite Em.
Qed.

(** A ciphertext decrypts to the message, and with another tag is refused. *)
Lemma Encrypt_Decrypt pb iv m s1 s2 d p : key_ok d -> (length pb <= 32)%nat -> key_ok (be_val pb) ->
  length iv = 16%nat -> m <> [] ->
  exists body tag, Encrypt pb iv (Some (mulG d)) m s1 s2 = Ret (body ++ tag) /\
    length (body ++ tag) = (length m + 65 + 16 + 32)%nat /\
    Decrypt (mk_prv p d) (body ++ tag) s1 s2 = Ret m /\
    forall tag', length tag' = length tag -> tag' <> tag ->
      Decrypt (mk_prv p d) (body ++ tag') s1 s2 = Err ErrInvalidMessage.
Proof.
  intros Hd Hpb Hr Hiv Hm. destruct (Encrypt_parts pb iv m s1 s2 d Hd Hpb Hr Hiv Hm) as (em & H).
  set (r := be_val pb) in *. destruct (keys_of (mulG (d * r)).1 s1) as [Ke Km] eqn:EK.
  destruct H as (Eenc & Hlem & Edec).
  destruct (point_bytes_split r (key_ok_mod r Hr)) as (Hl & _ & _ & _).
  assert (length (messageTag sha256_hash Km em s2) = 32%nat) as Htag by apply length_hmac_sum.
  assert (em <> []) as Hne by (intros ->; cbn in Hlem; lia).
  exists (point_bytes r ++ em), (messageTag sha256_hash Km em s2). split_and!.
  - by rewrite <- app_assoc.
  - rewrite !length_app. lia.
  - rewrite <- app_assoc, Decrypt_parts by done. rewrite EK. by rewrite decide_False by auto.
  - intros tag' Ht' Hneq. rewrite <- app_assoc, Decrypt_parts by (done || lia). rewrite EK.
    by rewrite decide_True.
Qed.

(** C23: who has the private key reads what was encrypted for the public key, and only unchanged: a ciphertext
    is 113 bytes longer than the message, decrypts to it with the same shared information, and with
    any other tag is refused. *)
Theorem ecies_roundtrip (pb iv m s1 s2 : bytes) (d : Z) (p : point) :
  key_ok d -> (length pb <= 32)%nat -> key_ok (be_val pb) -> length iv = 16%nat -> m <> [] ->
  exists body tag,
    Encrypt pb iv (Some (mulG d)) m s1 s2 = Ret (body ++ tag) /\
    length (body ++ tag) = (length m + 65 + 16 + 32)%nat /\
    Decrypt (mk_prv p d) (body ++ tag) s1 s2 = Ret m /\
    forall tag', length tag' = length tag -> tag' <> tag ->
      Decrypt (mk_prv p d) (body ++ tag') s1 s2 = Err ErrInvalidMessage.
Proof. by apply Encrypt_Decrypt. Qed.

(** A ciphertext with a body shorter than a block and the right tag, which anyone can make
    from the public key, panics the receiver: the plaintext is allocated with a negative size. *)
Theorem short_body_panics (d r : Z) (p : point) (body s1 s2 : bytes) : key_ok d -> key_ok r ->
  (0 < length body < 16)%nat ->
  let Km := (keys_of (mulG (r * d)).1 s1).2 in
  Decrypt (mk_prv p d) (point_bytes r ++ body ++ messageTag sha256_hash Km body s2) s1 s2 = Panic.
Proof.
  intros Hd Hr Hb Km. subst Km. rewrite (Z.mul_comm r d).
  rewrite Decrypt_parts; [|done|done|by intros ->; cbn in Hb; lia|apply length_hmac_sum].
  destruct (keys_of (mulG (d * r)).1 s1) as [Ke Km] eqn:EK. cbn [snd].
  rewrite decide_False by auto. unfold symDecrypt. cbn [p_Cipher p_BlockSize ECIES_AES128_SHA256].
  assert (length Ke = 16%nat) as HKe by (pose proof (length_Ke (mulG (d * r)).1 s1) as E; by rewrite EK in E).
  unfold NewCipher. rewrite HKe, decide_True by (repeat constructor). cbn [mbind outcome_bind].
  destruct (Nat.ltb_spec (length body) 16); [done|lia].
Qed.

End Agreement.

(** ** Witnesses on the small curve *)

Lemma ecies_roundtrip_witness : exists ct,
  @Encrypt smallC [Byte.x07] (replicate 16 Byte.x09) (Some (small_mulG 5)) [Byte.x41] [] [] = Ret ct /\
  length ct = 114%nat /\
  @Decrypt smallC (mk_prv None 5) ct [] [] = Ret [Byte.x41].
Proof.
  destruct (@ecies_roundtrip smallC small_group eq_refl [Byte.x07] (replicate 16 Byte.x09) [Byte.x41] [] [] 5 None)
    as (body & tag & H1 & H2 & H3 & _);
    [split; reflexivity|cbn; lia|split; reflexivity|reflexivity|discriminate|].
  exists (body ++ tag). split; [exact H1|]. split; [exact H2|exact H3].
Defined.

Lemma short_body_panics_witness : exists c, length c = 98%nat /\
  @Decrypt smallC (mk_prv None 5) c [] [] = Panic.
Proof.
  exists (@point_bytes smallC small_group 7 ++ [Byte.x00] ++
    messageTag sha256_hash (keys_of (small_mulG (7 * 5)).1 []).2 [Byte.x00] []).
  split; [vm_compute; reflexivity|].
  apply (@short_body_panics smallC small_group eq_refl 5 7 None [Byte.x00] [] []);
    [split; reflexivity|split; reflexivity|cbn; lia].
Defined.
