(* ===== verification/Signature.v ===== *)
(** * Recoverable signatures

    [src/crypto/secp256k1/secp256.go] and [src/crypto/signature_cgo.go]: the checks around the C library that
    signs and recovers the signer's key, and the conversions of [src/crypto/crypto.go].  The C
    functions are parameters with what their documentation promises. *)

From S2P Require Import Prelude BigInt CommonMath Curve Secp256k1 Ecies.

Definition ErrInvalidMsgLen : error := "invalid message length, need 32 bytes".
Definition ErrInvalidSignatureLen : error := "invalid signature length".
Definition ErrInvalidRecoveryID : error := "invalid signature recovery id".
Definition ErrInvalidKey : error := "invalid private key".
Definition ErrSignFailed : error := "signing failed".
Definition ErrRecoverFailed : error := "recovery failed".
Definition errHashLength : error := "hash is required to be exactly 32 bytes".

(** The C functions.  [ecdsa_sign_recoverable] also serialises: 64 bytes and the recovery
    identifier; [ecdsa_recover_pubkey] takes the signature and the message. *)
Class SecpC := {
  ec_seckey_verify : bytes -> bool;
  ecdsa_sign_recoverable : bytes -> bytes -> option (bytes * Z);
  ecdsa_recover_pubkey : bytes -> bytes -> option bytes
}.

Section Signatures.
Context {C : EllipticCurve} {S : SecpC}.

Definition secp256k1_Sign (msg seckey : bytes) : outcome bytes :=
  if decide (length msg <> 32%nat) then Err ErrInvalidMsgLen else
  if decide (length seckey <> 32%nat) then Err ErrInvalidKey else
  if negb (ec_seckey_verify seckey) then Err ErrInvalidKey else
  match ecdsa_sign_recoverable msg seckey with
  | None => Err ErrSignFailed
  | Some (sig, recid) => Ret (sig ++ [u8 recid])
  end.

Definition checkSignature (sig : bytes) : outcome unit :=
  if decide (length sig <> 65%nat) then Err ErrInvalidSignatureLen else
  v ← idx sig 64;
  if 4 <=? ub v then Err ErrInvalidRecoveryID else Ret tt.

Definition RecoverPubkey (msg sig : bytes) : outcome bytes :=
  if decide (length msg <> 32%nat) then Err ErrInvalidMsgLen else
  _ ← checkSignature sig;
  match ecdsa_recover_pubkey sig msg with
  | None => Err ErrRecoverFailed
  | Some pubkey => Ret pubkey
  end.

Definition Ecrecover (hash sig : bytes) : outcome bytes := RecoverPubkey hash sig.

(** The coordinates may be nil. *)
Definition SigToPub (hash sig : bytes) : outcome point :=
  s ← Ecrecover hash sig;
  Ret (elliptic_Unmarshal s).

Definition crypto_Sign (hash : bytes) (prv : PrivateKey) : outcome bytes :=
  if decide (length hash <> 32%nat) then Err errHashLength else
  let seckey := PaddedBigBytes (prv_D prv) (Z.to_nat (Params_BitSize / 8)) in
  secp256k1_Sign hash seckey.

End Signatures.

(** What the C library documents: private keys are the numbers below the order, signing with one succeeds,
    and its public key, uncompressed, is recovered from the signature. *)
Class SecpLaws (C : EllipticCurve) (G : CurveGroup C) (S : SecpC) := {
  seckey_verify_spec k : length k = 32%nat -> ec_seckey_verify k = true <-> 0 < be_val k < Params_N;
  sign_spec msg k : length msg = 32%nat -> length k = 32%nat -> 0 < be_val k < Params_N ->
    exists sig recid, ecdsa_sign_recoverable msg k = Some (sig, recid) /\ length sig = 64%nat /\
      0 <= recid < 4 /\ ecdsa_recover_pubkey (sig ++ [u8 recid]) msg = Some (point_bytes (be_val k))
}.

Section Recovery.
Context {C : EllipticCurve} {G : CurveGroup C} {S : SecpC} {L : SecpLaws C G S}.
Hypothesis HB : Params_BitSize = 256.

(** A signature of 65 bytes gives back the signer's key. *)
Lemma Ecrecover_Sign hash p d : length hash = 32%nat -> key_ok d ->
  exists sig, crypto_Sign hash (mk_prv p d) = Ret sig /\ length sig = 65%nat /\
    Ecrecover hash sig = Ret (point_bytes d) /\ SigToPub hash sig = Ret (Some (mulG d)).
Proof.
  intros Hh Hd. pose proof N_bound as HN. unfold crypto_Sign. rewrite decide_False by auto. rewrite HB.
  change (Z.to_nat (256 / 8)) with 32%nat. cbn [prv_D]. destruct Hd as [H1 H2].
  rewrite PaddedBigBytes_eq by (change (Z.of_nat 32) with 32; lia). rewrite Z.abs_eq by lia.
  assert (be_val (be_fix 32 d) = d) as Ed by (apply be_val_fix_small; change (Z.of_nat 32) with 32; lia).
  assert (length (be_fix 32 d) = 32%nat) as Hl by apply length_be_fix.
  unfold secp256k1_Sign. rewrite !decide_False by auto.
  rewrite (proj2 (seckey_verify_spec _ Hl)) by (rewrite Ed; lia). cbn [negb].
  destruct (sign_spec hash (be_fix 32 d) Hh Hl ltac:(rewrite Ed; lia)) as (sig & recid & -> & Hs & Hr & Erec).
  rewrite Ed in Erec. exists (sig ++ [u8 recid]).
  assert (length (sig ++ [u8 recid]) = 65%nat) as Hl65 by (rewrite length_app; cbn; lia).
  assert (Ecrecover hash (sig ++ [u8 recid]) = Ret (point_bytes d)) as Ee.
  { unfold Ecrecover, RecoverPubkey, checkSignature. rewrite !decide_False by auto.
    rewrite (idx_Some _ 64 (u8 recid)) by (rewrite lookup_app_r, Hs by lia; done).
    cbn [mbind outcome_bind]. rewrite ub_u8, Z.mod_small by lia.
    destruct (Z.leb_spec 4 recid); [lia|]. cbn [mbind outcome_bind]. by rewrite Erec. }
  split_and!; [done|done|done|]. unfold SigToPub. rewrite Ee. cbn [mbind outcome_bind].
  destruct (point_bytes_split HB d (key_ok_mod d (conj H1 H2))) as (_ & _ & -> & _). done.
Qed.

End Recovery.
