(* ===== verification/Rlpx.v ===== *)
(** * Frames of the peer-to-peer transport

    [src/p2p/rlpx.go] (the frame encoder) and [src/p2p/message.go] ([Send], [Msg.Decode]): messages are
    RLP-encoded, optionally compressed, encrypted with a key stream and chained by two MACs.

    The connection is the bytes written and the bytes still to be read.  After an error the connection
    is closed, so the state is only kept on success.  The compression of the vendored library
    is a parameter. *)

From S2P Require Import Prelude BigInt Keccak Sha3 Rlp RlpStream RlpProofs RlpRoundTrip StdCrypto.

(** ** Messages *)

(** [Payload] is what its reader will give. *)
Record Msg := mk_msg { Code : Z; MsgSize : Z; Payload : bytes }.

Definition u32 (z : Z) : Z := z mod 2 ^ 32.
Definition maxUint24 : Z := 2 ^ 24 - 1.

Definition errPlainMessageTooLarge : error := "message length >= 16MB".
Definition errSizeOverflow : error := "message size overflows uint24".
Definition errHeaderMAC : error := "bad header MAC".
Definition errFrameMAC : error := "bad frame MAC".

Definition readInt24 (b : bytes) : outcome Z :=
  b2 ← idx b 2; b1 ← idx b 1; b0 ← idx b 0;
  Ret (Z.lor (Z.lor (ub b2) (Z.shiftl (ub b1) 8)) (Z.shiftl (ub b0) 16)).

Definition putInt24 (v : Z) (b : bytes) : outcome bytes :=
  if (length b <? 3)%nat then Panic
  else Ret (copy_at b 0 [u8 (Z.shiftr v 16); u8 (Z.shiftr v 8); u8 v]).

(** [io.ReadFull] of [n] bytes from the connection. *)
Definition ReadFull (conn : bytes) (n : nat) : outcome (bytes * bytes) :=
  if (n <=? length conn)%nat then Ret (take n conn, drop n conn)
  else if (length conn =? 0)%nat then Err io_EOF else Err ErrUnexpectedEOF.

(** The vendored snappy library. *)
Class Snappy := {
  snappy_Encode : bytes -> bytes;
  snappy_DecodedLen : bytes -> outcome Z;
  snappy_Decode : bytes -> outcome bytes
}.

(** What its documentation says. *)
Class SnappyLaws `{Snappy} := {
  snappy_len b : snappy_DecodedLen (snappy_Encode b) = Ret (Z.of_nat (length b));
  snappy_roundtrip b : snappy_Decode (snappy_Encode b) = Ret b;
  snappy_max b : (length (snappy_Encode b) <= 32 + length b + length b / 6)%nat
}.

(** ** The frame encoder *)

Record rlpxFrameRW := mk_rw {
  rw_enc : CTR;
  rw_dec : CTR;
  rw_macCipher : Block;
  rw_egressMAC : state;
  rw_ingressMAC : state;
  rw_snappy : bool
}.

Definition set_egress (rw : rlpxFrameRW) (enc : CTR) (mac : state) : rlpxFrameRW :=
  mk_rw enc (rw_dec rw) (rw_macCipher rw) mac (rw_ingressMAC rw) (rw_snappy rw).
Definition set_ingress (rw : rlpxFrameRW) (dec : CTR) (mac : state) : rlpxFrameRW :=
  mk_rw (rw_enc rw) dec (rw_macCipher rw) (rw_egressMAC rw) mac (rw_snappy rw).

Definition zeroHeader : bytes := [Byte.xc2; Byte.x80; Byte.x80].

Section Frames.
Context `{HX : Xor} `{HS : Snappy}.

(** [xor(one, other)] panics when the second is shorter. *)
Definition xor (one other : bytes) : outcome bytes :=
  if (length other <? length one)%nat then Panic else Ret (xorb_bytes one other).

Definition updateMAC (mac : state) (block : Block) (seed : bytes) : outcome (bytes * state) :=
  sum ← Sum mac [];
  aesbuf ← Block_Encrypt block sum;
  aesbuf ← xor aesbuf seed;
  '(_, mac) ← Write mac aesbuf;
  sum ← Sum mac [];
  out ← slice sum 0 16;
  Ret (out, mac).

(** A write to [tee]: encrypted to the connection, and what is sent into the MAC. *)
Definition tee_Write (s : CTR * state) (src : bytes) : outcome (bytes * (CTR * state)) :=
  let '(c, enc) := XORKeyStream s.1 src in
  '(_, mac) ← Write s.2 c;
  Ret (c, (enc, mac)).

(** [io.Copy] in pieces of 32 kB. *)
Definition copy_size : nat := Z.to_nat (32 * 1024).

Fixpoint tee_Copy (fuel : nat) (s : CTR * state) (src : bytes) : outcome (bytes * (CTR * state)) :=
  match src, fuel with
  | [], _ | _, O => Ret ([], s)
  | _, S fuel =>
      '(c, s) ← tee_Write s (take copy_size src);
      '(cs, s) ← tee_Copy fuel s (drop copy_size src);
      Ret (c ++ cs, s)
  end.

(** The header, the encrypted content with its padding, and the two MACs. *)
Definition write_frame (rw : rlpxFrameRW) (fsize : Z) (ptype payload : bytes) : outcome (bytes * rlpxFrameRW) :=
  let headbuf := replicate 32 Byte.x00 in
  headbuf ← putInt24 fsize headbuf;
  let headbuf := copy_at headbuf 3 zeroHeader in
  let '(head, enc) := XORKeyStream (rw_enc rw) (take 16 headbuf) in
  '(mac, egress) ← updateMAC (rw_egressMAC rw) (rw_macCipher rw) head;
  let headbuf := copy_at (head ++ drop 16 headbuf) 16 mac in
  '(c1, s) ← tee_Write (enc, egress) ptype;
  '(c2, s) ← tee_Copy (length payload) s payload;
  let padding := fsize mod 16 in
  '(c3, s) ← (if 0 <? padding then tee_Write s (replicate (Z.to_nat (16 - padding)) Byte.x00)
              else Ret ([], s));
  fmacseed ← Sum s.2 [];
  '(mac, egress) ← updateMAC s.2 (rw_macCipher rw) fmacseed;
  Ret (headbuf ++ c1 ++ c2 ++ c3 ++ mac, set_egress rw s.1 egress).

Definition WriteMsg (rw : rlpxFrameRW) (msg : Msg) : outcome (bytes * rlpxFrameRW) :=
  ptype ← EncodeToBytes (TUint 64) (VUint (Code msg));
  '(size, payload) ←
    (if rw_snappy rw then
       if maxUint24 <? MsgSize msg then Err errPlainMessageTooLarge
       else let payload := snappy_Encode (Payload msg) in Ret (u32 (Z.of_nat (length payload)), payload)
     else Ret (MsgSize msg, Payload msg));
  let fsize := u32 (Z.of_nat (length ptype) + size) in
  if maxUint24 <? fsize then Err errSizeOverflow
  else write_frame rw fsize ptype payload.

(** [rlp.Decode(content, &msg.Code)] on a slice reader: the code and what is left. *)
Definition DecodeCode (content : bytes) : outcome (Z * bytes) :=
  match Stream_Decode (TUint 64) (NewStream content true 0) with
  | (Ret (VUint code), s) => Ret (code, s_r s)
  | (Ret _, _) => Panic
  | (Err e, _) => Err e
  | (Panic, _) => Panic
  end.

(** The decrypted content of the next frame, once both MACs are verified. *)
Definition read_frame (rw : rlpxFrameRW) (conn : bytes) : outcome (bytes * bytes * rlpxFrameRW) :=
  '(headbuf, conn) ← ReadFull conn 32;
  '(shouldMAC, ingress) ← updateMAC (rw_ingressMAC rw) (rw_macCipher rw) (take 16 headbuf);
  if decide (shouldMAC <> drop 16 headbuf) then Err errHeaderMAC else
  let '(head, dec) := XORKeyStream (rw_dec rw) (take 16 headbuf) in
  fsize ← readInt24 (head ++ drop 16 headbuf);
  let padding := fsize mod 16 in
  let rsize := if 0 <? padding then fsize + (16 - padding) else fsize in
  '(framebuf, conn) ← ReadFull conn (Z.to_nat rsize);
  '(_, ingress) ← Write ingress framebuf;
  fmacseed ← Sum ingress [];
  '(mac, conn) ← ReadFull conn 16;
  '(shouldMAC, ingress) ← updateMAC ingress (rw_macCipher rw) fmacseed;
  if decide (shouldMAC <> mac) then Err errFrameMAC else
  let '(frame, dec) := XORKeyStream dec framebuf in
  content ← slice frame 0 (Z.to_nat fsize);
  Ret (content, conn, set_ingress rw dec ingress).

Definition ReadMsg (rw : rlpxFrameRW) (conn : bytes) : outcome (Msg * bytes * rlpxFrameRW) :=
  '(content, conn, rw) ← read_frame rw conn;
  '(code, payload) ← DecodeCode content;
  if rw_snappy rw then
    size ← snappy_DecodedLen payload;
    if maxUint24 <? size then Err errPlainMessageTooLarge else
    payload ← snappy_Decode payload;
    Ret (mk_msg code (u32 size) payload, conn, rw)
  else Ret (mk_msg code (u32 (Z.of_nat (length payload))) payload, conn, rw).

(** [Send(w, msgcode, data)] and [Msg.Decode]; the payload of a received frame is a slice reader. *)
Definition Send (rw : rlpxFrameRW) (msgcode : Z) (t : typ) (data : val) : outcome (bytes * rlpxFrameRW) :=
  '(size, r) ← EncodeToReader t data;
  payload ← reads r [size];
  WriteMsg rw (mk_msg msgcode (u32 (Z.of_nat size)) payload).

Definition errInvalidMsg : error := "invalid message".

Definition Msg_Decode (msg : Msg) (t : typ) : outcome val :=
  match Stream_Decode t (NewStream (Payload msg) true (MsgSize msg)) with
  | (Ret v, _) => Ret v
  | (Err _, _) => Err errInvalidMsg
  | (Panic, _) => Panic
  end.

End Frames.

(** What the [rlp] part of [Send] gives. *)
Lemma encoded_payload t v b : uints_ok v = true -> genTypeInfo t = Ret tt -> rlp_encode v t no_tags = Ret b ->
  Z.of_nat (length b) < 2 ^ 32 ->
  exists r, EncodeToReader t v = Ret (length b, r) /\ reads r [length b] = Ret b /\
    u32 (Z.of_nat (length b)) = Z.of_nat (length b).
Proof.
  intros Hu Ht Hv Hl. destruct (EncodeToReader_reads t v b) as (r & E & Hr); try done; [lia|].
  exists r. split; [done|]. split; [|unfold u32; by rewrite Z.mod_small by lia]. rewrite Hr.
  assert (Hs : sum_list [length b] = length b) by (cbn; lia). by rewrite Hs, firstn_all.
Qed.

(** ** Frame sizes *)

Lemma lor_shiftl_add a b n : 0 <= n -> 0 <= a < 2 ^ n -> Z.lor a (Z.shiftl b n) = a + b * 2 ^ n.
Proof.
  intros Hn Ha. rewrite <- Z.shiftl_mul_pow2, <- Z.add_lor_land by lia.
  assert (Z.land a (Z.shiftl b n) = 0) as ->; [|lia]. apply Z.bits_inj'. intros i Hi.
  rewrite Z.land_spec, Z.bits_0. destruct (decide (i < n)).
  - by rewrite Z.shiftl_spec_low, andb_false_r by lia.
  - rewrite <- (Z.mod_small a (2 ^ n)) by lia. by rewrite Z.mod_pow2_bits_high by lia.
Qed.

(** The first sixteen bytes of a header. *)
Definition header (fsize : Z) : bytes :=
  [u8 (Z.shiftr fsize 16); u8 (Z.shiftr fsize 8); u8 fsize] ++ zeroHeader ++ replicate 10 Byte.x00.

Lemma putInt24_header fsize : exists hb, putInt24 fsize (replicate 32 Byte.x00) = Ret hb /\
  copy_at hb 3 zeroHeader = header fsize ++ replicate 16 Byte.x00.
Proof. eexists. split; reflexivity. Qed.

Lemma readInt24_header fsize rest : 0 <= fsize < 2 ^ 24 -> readInt24 (header fsize ++ rest) = Ret fsize.
Proof.
  intros Hf. unfold readInt24, header. cbn [app idx lookup list_lookup mbind outcome_bind]. f_equal.
  rewrite !ub_u8, !Z.shiftr_div_pow2 by lia. change (2 ^ 16) with (256 * 256). change (2 ^ 8) with 256.
  rewrite <- Z.div_div by lia.
  pose proof (Z.div_mod fsize 256 ltac:(lia)) as E1.
  pose proof (Z.div_mod (fsize / 256) 256 ltac:(lia)) as E2.
  pose proof (Z.mod_pos_bound fsize 256 ltac:(lia)).
  pose proof (Z.mod_pos_bound (fsize / 256) 256 ltac:(lia)).
  assert (0 <= fsize / 256 / 256 < 256).
  { split; [apply Z.div_pos; [apply Z.div_pos|]; lia|]. rewrite Z.div_div by lia.
    apply Z.div_lt_upper_bound; lia. }
  rewrite (Z.mod_small (fsize / 256 / 256)) by lia.
  rewrite (lor_shiftl_add _ _ 8) by lia. rewrite (lor_shiftl_add _ _ 16) by lia. lia.
Qed.

(** ** The MACs *)

Abbreviation kec msg := (Sponge.output 136 Byte.x01 msg 0 32).
Abbreviation absorbed msg d := (represents 136 32 Byte.x01 (Sponge.Absorbing msg) d).

Lemma length_kec msg : length (kec msg) = 32%nat.
Proof. unfold Sponge.output. by rewrite length_map, length_seq. Qed.

Lemma rate_136 : rate_ok 136.
Proof. unfold rate_ok. set_solver. Qed.

(** What [updateMAC] absorbs. *)
Definition reseed (block : Block) (msg seed : bytes) : bytes :=
  msg ++ xorb_bytes (block (take 16 (kec msg))) seed.

(** The MAC that is sent. *)
Definition tag_of (msg : bytes) : bytes := take 16 (kec msg).

Lemma length_tag_of msg : length (tag_of msg) = 16%nat.
Proof. unfold tag_of. rewrite length_take, length_kec. done. Qed.

#[global] Arguments header : simpl never.
#[global] Arguments tag_of : simpl never.
#[global] Arguments reseed : simpl never.
#[global] Arguments Sponge.output : simpl never.

(** ** What a connection promises

    Messages arrive complete, unchanged and in order. *)

(** [true] is the side that dialled. *)
Inductive channel_op := SendFrom (side : bool) (m : Msg) | ReceiveAt (side : bool).

Module Queues.

(** The messages on the way from the first side, and from the second. *)
Definition t : Type := list Msg * list Msg.

(** What an action gives: a received message, or nothing (the receiver waits). *)
Definition step (a : channel_op) (s : t) : option Msg * t :=
  match a with
  | SendFrom true m => (None, (s.1 ++ [m], s.2))
  | SendFrom false m => (None, (s.1, s.2 ++ [m]))
  | ReceiveAt true => match s.2 with [] => (None, s) | m :: q => (Some m, (s.1, q)) end
  | ReceiveAt false => match s.1 with [] => (None, s) | m :: q => (Some m, (q, s.2)) end
  end.

Fixpoint run (acts : list channel_op) (s : t) : list (option Msg) :=
  match acts with
  | [] => []
  | a :: acts => let '(x, s) := step a s in x :: run acts s
  end.

End Queues.

Section Channel.
Context `{HX : Xor} `{HS : Snappy} `{HL : !SnappyLaws}.

Lemma updateMAC_absorbed mac block seed msg : absorbed msg mac -> block_ok block ->
  (16 <= length seed)%nat ->
  exists mac', updateMAC mac block seed = Ret (tag_of (reseed block msg seed), mac') /\
    absorbed (reseed block msg seed) mac'.
Proof.
  intros Hm Hb Hs. unfold updateMAC. rewrite (Sum_represents _ _ _ rate_136 _ _ [] Hm).
  cbn [mbind outcome_bind app]. unfold Block_Encrypt. rewrite length_kec. cbn [Nat.ltb Nat.leb mbind outcome_bind].
  unfold xor. rewrite Hb. destruct (Nat.ltb_spec (length seed) 16); [lia|]. cbn [mbind outcome_bind].
  destruct (Write_represents _ _ _ rate_136 _ _ (xorb_bytes (block (take 16 (kec msg))) seed) Hm)
    as (mac' & -> & Hm'). cbn [mbind outcome_bind]. exists mac'. split; [|exact Hm'].
  rewrite (Sum_represents _ _ _ rate_136 _ _ [] Hm'). cbn [mbind outcome_bind app].
  unfold slice. rewrite length_kec, decide_True by lia. done.
Qed.

Lemma tee_Write_absorbed enc mac src msg : absorbed msg mac ->
  exists mac', tee_Write (enc, mac) src = Ret ((XORKeyStream enc src).1, ((XORKeyStream enc src).2, mac')) /\
    absorbed (msg ++ (XORKeyStream enc src).1) mac'.
Proof.
  intros Hm. unfold tee_Write. cbn [fst snd]. destruct (XORKeyStream enc src) as [c enc'].
  destruct (Write_represents _ _ _ rate_136 _ _ c Hm) as (mac' & -> & Hm'). by exists mac'.
Qed.

Lemma copy_size_pos : (0 < copy_size)%nat.
Proof. unfold copy_size. lia. Qed.

#[local] Opaque copy_size.

Lemma tee_Copy_absorbed fuel enc mac src msg : (length src <= fuel)%nat -> absorbed msg mac ->
  exists mac', tee_Copy fuel (enc, mac) src = Ret ((XORKeyStream enc src).1, ((XORKeyStream enc src).2, mac')) /\
    absorbed (msg ++ (XORKeyStream enc src).1) mac'.
Proof.
  revert enc mac src msg. induction fuel as [|fuel IH]; intros enc mac src msg Hl Hm.
  { destruct src; [|cbn in Hl; lia]. cbn [tee_Copy]. rewrite XORKeyStream_nil.
    exists mac. cbn [fst snd]. by rewrite app_nil_r. }
  destruct src as [|x src].
  { cbn [tee_Copy]. rewrite XORKeyStream_nil. exists mac. cbn [fst snd]. by rewrite app_nil_r. }
  cbn [tee_Copy]. set (src0 := x :: src) in *.
  destruct (tee_Write_absorbed enc mac (take copy_size src0) msg Hm) as (mac1 & -> & Hm1).
  cbn [mbind outcome_bind].
  destruct (IH (XORKeyStream enc (take copy_size src0)).2 mac1 (drop copy_size src0)
    (msg ++ (XORKeyStream enc (take copy_size src0)).1)) as (mac2 & -> & Hm2); [|exact Hm1|].
  { rewrite length_drop. pose proof copy_size_pos. subst src0. cbn [length] in *. lia. }
  cbn [mbind outcome_bind]. exists mac2.
  pose proof (XORKeyStream_app enc (take copy_size src0) (drop copy_size src0)) as Ea.
  rewrite take_drop in Ea. rewrite Ea. destruct (XORKeyStream enc (take copy_size src0)) as [c1 e1].
  cbn [fst snd] in *. destruct (XORKeyStream e1 (drop copy_size src0)) as [c2 e2]. cbn [fst snd] in *.
  split; [done|]. by rewrite app_assoc.
Qed.

(** ** Frames *)

(** What is encrypted after the header: the code, the payload, and zeros to a whole block. *)
Definition padding_of (fsize : Z) : bytes :=
  if 0 <? fsize mod 16 then replicate (Z.to_nat (16 - fsize mod 16)) Byte.x00 else [].

(** A frame from the states of the key stream and of the MAC, and the states after it. *)
Definition frame (block : Block) (enc : CTR) (msg : bytes) (fsize : Z) (body : bytes) : bytes * CTR * bytes :=
  let '(h, enc1) := XORKeyStream enc (header fsize) in
  let m1 := reseed block msg h in
  let '(b, enc2) := XORKeyStream enc1 (body ++ padding_of fsize) in
  let m2 := m1 ++ b in
  let m3 := reseed block m2 (kec m2) in
  (h ++ tag_of m1 ++ b ++ tag_of m3, enc2, m3).

Lemma length_header fsize : length (header fsize) = 16%nat.
Proof. done. Qed.

(** What the writer sends. *)
Lemma write_frame_eq rw fsize ptype payload msg :
  absorbed msg (rw_egressMAC rw) -> block_ok (rw_macCipher rw) ->
  let '(out, enc, m) := frame (rw_macCipher rw) (rw_enc rw) msg fsize (ptype ++ payload) in
  exists egress, absorbed m egress /\ write_frame rw fsize ptype payload = Ret (out, set_egress rw enc egress).
Proof.
  intros Hm Hb. unfold frame, write_frame. destruct (putInt24_header fsize) as (hb & -> & Ehb).
  cbn [mbind outcome_bind]. rewrite Ehb, take_app_length', drop_app_length' by done.
  pose proof (length_XORKeyStream (rw_enc rw) (header fsize)) as Hlh.
  destruct (XORKeyStream (rw_enc rw) (header fsize)) as [h enc1]. cbn [fst] in Hlh. rewrite length_header in Hlh.
  destruct (updateMAC_absorbed _ _ h _ Hm Hb ltac:(lia)) as (mac1 & -> & Hm1). cbn [mbind outcome_bind].
  set (m1 := reseed (rw_macCipher rw) msg h) in *.
  assert (copy_at (h ++ replicate 16 Byte.x00) 16 (tag_of m1) = h ++ tag_of m1) as Ecp.
  { pose proof (copy_at_mid h (replicate 16 Byte.x00) [] (tag_of m1)) as E.
    rewrite !app_nil_r, Hlh in E. apply E. by rewrite length_tag_of. }
  rewrite Ecp.
  destruct (tee_Write_absorbed enc1 mac1 ptype _ Hm1) as (mac2 & -> & Hm2). cbn [mbind outcome_bind].
  destruct (tee_Copy_absorbed (length payload) (XORKeyStream enc1 ptype).2 mac2 payload _ ltac:(lia) Hm2)
    as (mac3 & -> & Hm3). cbn [mbind outcome_bind].
  set (pad := padding_of fsize). rewrite !XORKeyStream_app.
  destruct (XORKeyStream enc1 ptype) as [c1 e1]. cbn [fst snd] in *.
  destruct (XORKeyStream e1 payload) as [c2 e2]. cbn [fst snd] in *.
  assert (exists mac4, (if 0 <? fsize mod 16 then tee_Write (e2, mac3)
      (replicate (Z.to_nat (16 - fsize mod 16)) Byte.x00) else Ret ([], (e2, mac3))) =
      Ret ((XORKeyStream e2 pad).1, ((XORKeyStream e2 pad).2, mac4)) /\
      absorbed (((m1 ++ c1) ++ c2) ++ (XORKeyStream e2 pad).1) mac4) as (mac4 & -> & Hm4).
  { subst pad. unfold padding_of. destruct (0 <? fsize mod 16).
    - by apply tee_Write_absorbed.
    - rewrite XORKeyStream_nil. exists mac3. split; [done|]. cbn [fst]. by rewrite app_nil_r. }
  cbn [mbind outcome_bind snd fst]. destruct (XORKeyStream e2 pad) as [c3 e3]. cbn [fst snd] in *.
  rewrite (Sum_represents _ _ _ rate_136 _ _ [] Hm4). cbn [mbind outcome_bind app].
  replace (((m1 ++ c1) ++ c2) ++ c3) with (m1 ++ (c1 ++ c2) ++ c3) in * by (by rewrite !app_assoc).
  destruct (updateMAC_absorbed _ _ (kec (m1 ++ (c1 ++ c2) ++ c3)) _ Hm4 Hb) as (mac5 & -> & Hm5).
  { rewrite length_kec. lia. }
  cbn [mbind outcome_bind]. exists mac5. split; [done|]. by rewrite <- !app_assoc.
Qed.

(** What the reader makes of it. *)
Lemma read_frame_eq block dec ing fsize body msg : absorbed msg ing -> block_ok block ->
  fsize = Z.of_nat (length body) -> 0 <= fsize < 2 ^ 24 ->
  let '(out, dec', m) := frame block dec msg fsize body in
  exists ing', absorbed m ing' /\ forall rw rest,
    rw_macCipher rw = block -> rw_dec rw = dec -> rw_ingressMAC rw = ing ->
    read_frame rw (out ++ rest) = Ret (body, rest, set_ingress rw dec' ing').
Proof.
  intros Hm Hb Hlen Hf. unfold frame.
  pose proof (length_XORKeyStream dec (header fsize)) as Hlh.
  pose proof (XORKeyStream_twice dec (header fsize)) as Eh.
  destruct (XORKeyStream dec (header fsize)) as [h enc1]. cbn [fst snd] in Hlh, Eh. rewrite length_header in Hlh.
  set (plain := body ++ padding_of fsize).
  pose proof (length_XORKeyStream enc1 plain) as Hlb. pose proof (XORKeyStream_twice enc1 plain) as Eb.
  destruct (XORKeyStream enc1 plain) as [b enc2]. cbn [fst snd] in Hlb, Eb.
  set (m1 := reseed block msg h). set (m3 := reseed _ _ _).
  destruct (updateMAC_absorbed _ _ h _ Hm Hb ltac:(lia)) as (mac1 & Eu1 & Hm1). fold m1 in Eu1, Hm1.
  destruct (Write_represents _ _ _ rate_136 _ _ b Hm1) as (mac2 & Ew & Hm2).
  destruct (updateMAC_absorbed _ _ (kec (m1 ++ b)) _ Hm2 Hb) as (mac3 & Eu3 & Hm3); [rewrite length_kec; lia|].
  fold m3 in Eu3, Hm3. exists mac3. split; [done|]. intros rw rest Hrb Hrd Hri.
  unfold read_frame, ReadFull. rewrite Hrb, Hrd, Hri.
  replace ((h ++ tag_of m1 ++ b ++ tag_of m3) ++ rest) with ((h ++ tag_of m1) ++ b ++ tag_of m3 ++ rest)
    by (by rewrite <- !app_assoc).
  assert (length (h ++ tag_of m1) = 32%nat) as Hl32 by (rewrite length_app, length_tag_of; lia).
  rewrite (length_app (h ++ tag_of m1)), Hl32. destruct (Nat.leb_spec 32 (32 + length (b ++ tag_of m3 ++ rest))); [|lia].
  cbn [mbind outcome_bind]. rewrite (take_app_length' (h ++ tag_of m1)), (drop_app_length' (h ++ tag_of m1)) by lia.
  rewrite (take_app_length' h), (drop_app_length' h) by lia. rewrite Eu1.
  cbn [mbind outcome_bind]. rewrite decide_False by auto. rewrite Eh, readInt24_header by done.
  cbn [mbind outcome_bind].
  assert (Z.to_nat (if 0 <? fsize mod 16 then fsize + (16 - fsize mod 16) else fsize) = length b) as ->.
  { rewrite Hlb. subst plain. rewrite length_app. unfold padding_of.
    pose proof (Z.mod_pos_bound fsize 16 ltac:(lia)).
    destruct (Z.ltb_spec 0 (fsize mod 16)); [rewrite length_replicate|cbn [length]]; lia. }
  rewrite length_app. destruct (Nat.leb_spec (length b) (length b + length (tag_of m3 ++ rest))); [|lia].
  cbn [mbind outcome_bind]. rewrite take_app_length, drop_app_length, Ew. cbn [mbind outcome_bind].
  rewrite (Sum_represents _ _ _ rate_136 _ _ [] Hm2). cbn [mbind outcome_bind app].
  rewrite length_app, length_tag_of. destruct (Nat.leb_spec 16 (16 + length rest)); [|lia].
  cbn [mbind outcome_bind]. rewrite take_app_length', drop_app_length' by (by rewrite length_tag_of).
  rewrite Eu3. cbn [mbind outcome_bind]. rewrite decide_False by auto. rewrite Eb.
  unfold slice. rewrite Hlen, Nat2Z.id. subst plain. rewrite length_app, decide_True by lia.
  cbn [mbind outcome_bind]. by rewrite Nat.sub_0_r, drop_0, take_app_length.
Qed.

(** ** Messages *)

Definition wire_payload (snappy : bool) (m : Msg) : bytes :=
  if snappy then snappy_Encode (Payload m) else Payload m.

Definition wire_code (m : Msg) : bytes := rlp_string (Bytes (Code m)).

(** A message that fits a frame. *)
Definition sendable (snappy : bool) (m : Msg) : Prop :=
  0 <= Code m < 2 ^ 64 /\ MsgSize m = Z.of_nat (length (Payload m)) /\ MsgSize m <= maxUint24 /\
  Z.of_nat (length (wire_code m ++ wire_payload snappy m)) <= maxUint24.

Lemma code_encodable m : 0 <= Code m < 2 ^ 64 -> encodable (TUint 64) no_tags (VUint (Code m)).
Proof. intros H. apply enc_uint; [lia|]. change (256 ^ (64 / 8)) with (2 ^ 64). done. Qed.

Lemma u32_small z : 0 <= z <= maxUint24 -> u32 z = z.
Proof. unfold maxUint24, u32. intros H. apply Z.mod_small. lia. Qed.

Lemma WriteMsg_frame rw m : sendable (rw_snappy rw) m ->
  WriteMsg rw m = write_frame rw (Z.of_nat (length (wire_code m ++ wire_payload (rw_snappy rw) m)))
                    (wire_code m) (wire_payload (rw_snappy rw) m).
Proof.
  intros (Hc & Hs & Hsz & Hl). unfold WriteMsg. rewrite length_app in Hl |- *.
  rewrite (EncodeToBytes_encodes _ _ (wire_code m)); [|by apply (uints_ok_Uint 64); [lia|exact Hc]|done|done|].
  2: { unfold maxUint24 in Hl. lia. }
  cbn [mbind outcome_bind]. rewrite Nat2Z.inj_add.
  unfold wire_payload in *. destruct (rw_snappy rw).
  - destruct (Z.ltb_spec maxUint24 (MsgSize m)); [lia|]. cbn [mbind outcome_bind].
    rewrite (u32_small (Z.of_nat _)), u32_small by lia.
    match goal with |- (if ?x then _ else _) = _ => destruct x eqn:E; [apply Z.ltb_lt in E; lia|done] end.
  - cbn [mbind outcome_bind]. rewrite Hs, u32_small by lia.
    match goal with |- (if ?x then _ else _) = _ => destruct x eqn:E; [apply Z.ltb_lt in E; lia|done] end.
Qed.

Lemma DecodeCode_wire m payload : 0 <= Code m < 2 ^ 64 -> Z.of_nat (length (wire_code m)) <= maxAlloc ->
  DecodeCode (wire_code m ++ payload) = Ret (Code m, payload).
Proof.
  intros Hc Hl. destruct (Stream_Decode_complete (TUint 64) (VUint (Code m)) (wire_code m) payload true 0)
    as (s & E & Hr); [by apply code_encodable|done|done|done|lia|].
  unfold DecodeCode. by rewrite E, Hr.
Qed.

Lemma ReadMsg_content rw conn conn' rw' m : rw_snappy rw' = rw_snappy rw -> sendable (rw_snappy rw) m ->
  read_frame rw conn = Ret (wire_code m ++ wire_payload (rw_snappy rw) m, conn', rw') ->
  ReadMsg rw conn = Ret (m, conn', rw').
Proof.
  intros Hsn (Hc & Hs & Hsz & Hl) E. unfold ReadMsg. rewrite E. cbn [mbind outcome_bind]. rewrite length_app in Hl.
  rewrite DecodeCode_wire by (done || (unfold maxUint24 in Hl; lia)). cbn [mbind outcome_bind].
  rewrite Hsn. unfold wire_payload in *. destruct m as [code size payload]. cbn [Code MsgSize Payload] in *.
  destruct (rw_snappy rw).
  - rewrite snappy_len. cbn [mbind outcome_bind]. rewrite <- Hs. destruct (Z.ltb_spec maxUint24 size); [lia|].
    rewrite snappy_roundtrip. cbn [mbind outcome_bind]. by rewrite u32_small by lia.
  - by rewrite u32_small, <- Hs by lia.
Qed.

(** ** Delivery

    The bytes in flight are the frames of the messages that were sent and not yet read.  The
    two halves of an endpoint do not touch each other. *)

Definition half : Type := CTR * state.
Definition egress_of (rw : rlpxFrameRW) : half := (rw_enc rw, rw_egressMAC rw).
Definition ingress_of (rw : rlpxFrameRW) : half := (rw_dec rw, rw_ingressMAC rw).

Definition reader_at (rw : rlpxFrameRW) (block : Block) (snappy : bool) (r : half) : Prop :=
  ingress_of rw = r /\ rw_macCipher rw = block /\ rw_snappy rw = snappy.

Fixpoint pending (block : Block) (snappy : bool) (r : half) (stream : bytes) (w : half) (q : list Msg) : Prop :=
  match q with
  | [] => stream = [] /\ r.1 = w.1 /\ exists m, absorbed m r.2 /\ absorbed m w.2
  | m :: q => exists out stream' r', stream = out ++ stream' /\ out <> [] /\
      (forall rw rest, reader_at rw block snappy r ->
         ReadMsg rw (out ++ rest) = Ret (m, rest, set_ingress rw r'.1 r'.2)) /\
      pending block snappy r' stream' w q
  end.

Lemma frame_nonempty block enc msg fsize body : (frame block enc msg fsize body).1.1 <> [].
Proof.
  unfold frame. pose proof (length_XORKeyStream enc (header fsize)) as Hl. rewrite length_header in Hl.
  destruct (XORKeyStream enc (header fsize)) as [h e]. cbn [fst] in Hl. destruct (XORKeyStream e _). cbn.
  by destruct h.
Qed.

(** A frame is written and, by the reader in the same state, read. *)
Lemma send_one block snappy w m rw msg : block_ok block -> sendable snappy m ->
  egress_of rw = w -> rw_macCipher rw = block -> rw_snappy rw = snappy -> absorbed msg w.2 ->
  exists out w', WriteMsg rw m = Ret (out, set_egress rw w'.1 w'.2) /\ out <> [] /\
    forall r, r.1 = w.1 -> absorbed msg r.2 -> pending block snappy r out w' [m].
Proof.
  intros Hb Hm <- <- <- Hw. set (body := wire_code m ++ wire_payload (rw_snappy rw) m).
  pose proof (write_frame_eq rw (Z.of_nat (length body)) (wire_code m) (wire_payload (rw_snappy rw) m) msg Hw Hb) as Ewr.
  pose proof (frame_nonempty (rw_macCipher rw) (rw_enc rw) msg (Z.of_nat (length body)) body) as Hne.
  fold body in Ewr.
  destruct (frame (rw_macCipher rw) (rw_enc rw) msg (Z.of_nat (length body)) body) as [[out enc'] m'] eqn:Ef.
  destruct Ewr as (egress & Hm' & Ewr). exists out, (enc', egress).
  split; [by rewrite WriteMsg_frame|]. split; [done|]. intros [dec ing] Hr Hmr. cbn [fst snd egress_of] in *. subst dec.
  assert (0 <= Z.of_nat (length body) < 2 ^ 24) as Hlb
    by (destruct Hm as (_ & _ & _ & Hl); unfold maxUint24 in Hl; fold body in Hl; lia).
  pose proof (read_frame_eq (rw_macCipher rw) (rw_enc rw) ing (Z.of_nat (length body)) body msg Hmr Hb eq_refl Hlb) as E0.
  rewrite Ef in E0. destruct E0 as (ing' & Hing & E0).
  exists out, [], (enc', ing'). split; [by rewrite app_nil_r|]. split; [done|]. split.
  - intros rw' rest (Hin & Hbl & Hsn). injection Hin as Hd Hi. apply ReadMsg_content; [done|by rewrite Hsn|].
    rewrite Hsn. fold body. by apply E0.
  - split; [done|]. split; [done|]. by exists m'.
Qed.

Lemma send_pending block snappy r stream w q m rw : block_ok block -> sendable snappy m ->
  egress_of rw = w -> rw_macCipher rw = block -> rw_snappy rw = snappy ->
  pending block snappy r stream w q ->
  exists out w', WriteMsg rw m = Ret (out, set_egress rw w'.1 w'.2) /\
    pending block snappy r (stream ++ out) w' (q ++ [m]).
Proof.
  intros Hb Hm Hw Hbl Hsn. revert r stream. induction q as [|m0 q IH]; intros r stream Hp.
  - destruct Hp as (-> & Hr & msg & Hmr & Hmw).
    destruct (send_one block snappy w m rw msg Hb Hm Hw Hbl Hsn Hmw) as (out & w' & E & _ & Hpend).
    exists out, w'. split; [done|]. by apply Hpend.
  - destruct Hp as (out0 & stream' & r' & -> & Hne & Hread & Hp).
    destruct (IH r' stream' Hp) as (out & w' & E & Hp'). exists out, w'. split; [done|].
    exists out0, (stream' ++ out), r'. by rewrite app_assoc.
Qed.

(** ** Two endpoints *)

(** The connection: both endpoints and the bytes in flight in each direction. *)
Record connection := mk_conn { c_one : rlpxFrameRW; c_two : rlpxFrameRW; c_there : bytes; c_back : bytes }.

Definition conn_step (a : channel_op) (c : connection) : outcome (option Msg * connection) :=
  match a with
  | SendFrom true m =>
      '(out, rw) ← WriteMsg (c_one c) m; Ret (None, mk_conn rw (c_two c) (c_there c ++ out) (c_back c))
  | SendFrom false m =>
      '(out, rw) ← WriteMsg (c_two c) m; Ret (None, mk_conn (c_one c) rw (c_there c) (c_back c ++ out))
  | ReceiveAt true =>
      match c_back c with
      | [] => Ret (None, c)
      | _ => '(m, rest, rw) ← ReadMsg (c_one c) (c_back c); Ret (Some m, mk_conn rw (c_two c) (c_there c) rest)
      end
  | ReceiveAt false =>
      match c_there c with
      | [] => Ret (None, c)
      | _ => '(m, rest, rw) ← ReadMsg (c_two c) (c_there c); Ret (Some m, mk_conn (c_one c) rw rest (c_back c))
      end
  end.

Fixpoint conn_run (acts : list channel_op) (c : connection) : outcome (list (option Msg)) :=
  match acts with
  | [] => Ret []
  | a :: acts => '(x, c) ← conn_step a c; xs ← conn_run acts c; Ret (x :: xs)
  end.

(** The connection carries these queues. *)
Definition carries (block : Block) (snappy : bool) (c : connection) (s : Queues.t) : Prop :=
  (rw_macCipher (c_one c) = block /\ rw_snappy (c_one c) = snappy) /\
  (rw_macCipher (c_two c) = block /\ rw_snappy (c_two c) = snappy) /\
  pending block snappy (ingress_of (c_two c)) (c_there c) (egress_of (c_one c)) s.1 /\
  pending block snappy (ingress_of (c_one c)) (c_back c) (egress_of (c_two c)) s.2.

Definition action_ok (snappy : bool) (a : channel_op) : Prop :=
  match a with SendFrom _ m => sendable snappy m | ReceiveAt _ => True end.

Lemma receive_pending block snappy rw stream w q : rw_macCipher rw = block -> rw_snappy rw = snappy ->
  pending block snappy (ingress_of rw) stream w q ->
  match q with
  | [] => stream = []
  | m :: q => exists rest rw', stream <> [] /\ ReadMsg rw stream = Ret (m, rest, rw') /\
      rw_macCipher rw' = block /\ rw_snappy rw' = snappy /\ egress_of rw' = egress_of rw /\
      pending block snappy (ingress_of rw') rest w q
  end.
Proof.
  intros Hb Hs. destruct q as [|m q]; [by intros [-> _]|]. intros (out & stream' & r' & -> & Hne & Hread & Hp).
  exists stream', (set_ingress rw r'.1 r'.2). split; [by destruct out|]. split; [by apply Hread|].
  split_and!; try done. by destruct r'.
Qed.

Lemma conn_step_refines block snappy a c s : block_ok block -> action_ok snappy a ->
  carries block snappy c s ->
  exists c', conn_step a c = Ret ((Queues.step a s).1, c') /\ carries block snappy c' (Queues.step a s).2.
Proof.
  destruct s as [s1 s2]. intros Hb Ha ([H1b H1s] & [H2b H2s] & Hthere & Hback). cbn [fst snd] in Hthere, Hback.
  destruct a as [[] m|[]]; cbn [conn_step Queues.step fst snd].
  - destruct (send_pending _ _ _ _ _ _ m (c_one c) Hb Ha eq_refl H1b H1s Hthere) as (out & w' & -> & Hp).
    eexists. split; [done|]. split_and!; try done. by destruct w'.
  - destruct (send_pending _ _ _ _ _ _ m (c_two c) Hb Ha eq_refl H2b H2s Hback) as (out & w' & -> & Hp).
    eexists. split; [done|]. split_and!; try done. by destruct w'.
  - pose proof (receive_pending _ _ _ _ _ _ H1b H1s Hback) as Hr. destruct s2 as [|m q].
    + rewrite Hr. eexists. split; [done|]. by split_and!.
    + destruct Hr as (rest & rw' & Hne & Er & Hb' & Hs' & He & Hp). destruct (c_back c) as [|x l] eqn:Ec; [done|].
      rewrite Er. eexists. split; [done|]. split_and!; try done. cbn [c_one c_there fst snd]. by rewrite He.
  - pose proof (receive_pending _ _ _ _ _ _ H2b H2s Hthere) as Hr. destruct s1 as [|m q].
    + rewrite Hr. eexists. split; [done|]. by split_and!.
    + destruct Hr as (rest & rw' & Hne & Er & Hb' & Hs' & He & Hp). destruct (c_there c) as [|x l] eqn:Ec; [done|].
      rewrite Er. eexists. split; [done|]. split_and!; try done. cbn [c_two c_back fst snd]. by rewrite He.
Qed.

Lemma conn_run_refines block snappy acts c s : block_ok block -> Forall (action_ok snappy) acts ->
  carries block snappy c s -> conn_run acts c = Ret (Queues.run acts s).
Proof.
  intros Hb Ha. revert c s. induction Ha as [|a acts Ha _ IH]; intros c s Hc; [done|].
  cbn [conn_run Queues.run]. destruct (conn_step_refines _ _ a c s Hb Ha Hc) as (c' & -> & Hc').
  cbn [mbind outcome_bind]. destruct (Queues.step a s) as [x s']. cbn [fst snd] in *. by rewrite (IH c' s' Hc').
Qed.

(** ** Authenticity *)

Lemma ReadFull_Ret conn n b rest : ReadFull conn n = Ret (b, rest) -> conn = b ++ rest /\ length b = n.
Proof.
  unfold ReadFull. destruct (Nat.leb_spec n (length conn)); [|by destruct (_ =? _)%nat].
  intros [= <- <-]. split; [by rewrite take_drop|]. rewrite length_take. lia.
Qed.

Lemma read_frame_authentic rw conn content rest rw' msg : absorbed msg (rw_ingressMAC rw) ->
  block_ok (rw_macCipher rw) -> read_frame rw conn = Ret (content, rest, rw') ->
  exists h b, let m1 := reseed (rw_macCipher rw) msg h in let m2 := m1 ++ b in
    let m3 := reseed (rw_macCipher rw) m2 (kec m2) in
    conn = h ++ tag_of m1 ++ b ++ tag_of m3 ++ rest /\ length h = 16%nat /\
    absorbed m3 (rw_ingressMAC rw') /\ egress_of rw' = egress_of rw.
Proof.
  intros Hm Hb E. unfold read_frame in E. go_bind E as [hb c1] E1. apply ReadFull_Ret in E1 as [-> Hl1].
  assert (length (take 16 hb) = 16%nat) as Hlh by (rewrite length_take; lia).
  destruct (updateMAC_absorbed _ _ (take 16 hb) _ Hm Hb ltac:(lia)) as (mac1 & Eu1 & Hm1). rewrite Eu1 in E.
  cbn [mbind outcome_bind] in E. case_decide as Ht1; [done|].
  destruct (XORKeyStream (rw_dec rw) (take 16 hb)) as [head dec]. go_bind E as fsize E2.
  go_bind E as [fb c2] E3. apply ReadFull_Ret in E3 as [-> _].
  destruct (Write_represents _ _ _ rate_136 _ _ fb Hm1) as (mac2 & Ew & Hm2). rewrite Ew in E.
  cbn [mbind outcome_bind] in E. rewrite (Sum_represents _ _ _ rate_136 _ _ [] Hm2) in E. cbn [mbind outcome_bind app] in E.
  go_bind E as [mac c3] E4. apply ReadFull_Ret in E4 as [-> _].
  match type of Hm2 with represents _ _ _ (Sponge.Absorbing ?m2) _ =>
    destruct (updateMAC_absorbed _ _ (kec m2) _ Hm2 Hb) as (mac3 & Eu3 & Hm3); [rewrite length_kec; lia|] end.
  rewrite Eu3 in E. cbn [mbind outcome_bind] in E. case_decide as Ht2; [done|].
  destruct (XORKeyStream dec fb) as [frame' dec']. go_bind E as content' E5. injection E as <- <- <-.
  exists (take 16 hb), fb. cbv zeta. split_and!; [|done|done|done].
  rewrite Ht1, Ht2. by rewrite (app_assoc (take 16 hb)), take_drop.
Qed.

(** C19: a frame is only accepted with its two MACs, which depend on the key and on all that was received
    before: whatever arrives, a message is returned only when the input starts with a header, the
    tag of everything up to it, the content and the tag of everything up to there. *)
Theorem frame_authentic (rw rw' : rlpxFrameRW) (conn rest msg : bytes) (m : Msg) :
  absorbed msg (rw_ingressMAC rw) -> block_ok (rw_macCipher rw) -> ReadMsg rw conn = Ret (m, rest, rw') ->
  exists h b, let m1 := reseed (rw_macCipher rw) msg h in let m2 := m1 ++ b in
    let m3 := reseed (rw_macCipher rw) m2 (kec m2) in
    conn = h ++ tag_of m1 ++ b ++ tag_of m3 ++ rest /\ length h = 16%nat /\
    absorbed m3 (rw_ingressMAC rw') /\ egress_of rw' = egress_of rw.
Proof.
  intros Hm Hb E. unfold ReadMsg in E. go_bind E as [[content c1] rw1] E1.
  destruct (read_frame_authentic _ _ _ _ _ _ Hm Hb E1) as (h & b & Hc & Hl & Ha & He).
  go_bind E as [code payload] E2.
  assert (c1 = rest /\ rw1 = rw') as [-> ->].
  { destruct (rw_snappy rw1).
    - go_bind E as size E3. destruct (_ <? _); [done|]. go_bind E as payload' E4. by injection E as _ <- <-.
    - by injection E as _ <- <-. }
  by exists h, b.
Qed.

End Channel.

(** ** A witness *)

#[local] Existing Instance generic_xor.

(** Compression that does nothing. *)
#[local] Instance toy_snappy : Snappy := {|
  snappy_Encode b := b; snappy_DecodedLen b := Ret (Z.of_nat (length b)); snappy_Decode b := Ret b
|}.
#[local] Instance toy_snappy_laws : SnappyLaws.
Proof. split; [done|done|]. intros b. cbn. lia. Defined.

Definition toy_block : Block := fun b => take 16 (b ++ replicate 16 Byte.x00).

Definition toy_rw : rlpxFrameRW :=
  let ctr := mk_ctr toy_block 0 0 in mk_rw ctr ctr toy_block NewKeccak256 NewKeccak256 false.

Definition toy_conn : bytes :=
  match WriteMsg toy_rw (mk_msg 17 2 [Byte.x01; Byte.x02]) with Ret (out, _) => out | _ => [] end.

Lemma frame_authentic_witness : exists rw', ReadMsg toy_rw toy_conn = Ret (mk_msg 17 2 [Byte.x01; Byte.x02], [], rw') /\
  exists h b m1 m3, toy_conn = h ++ tag_of m1 ++ b ++ tag_of m3 ++ [] /\ length h = 16%nat.
Proof.
  assert (exists rw', ReadMsg toy_rw toy_conn = Ret (mk_msg 17 2 [Byte.x01; Byte.x02], [], rw')) as [rw' E].
  { eexists. vm_compute. reflexivity. }
  exists rw'. split; [exact E|].
  destruct (frame_authentic toy_rw rw' toy_conn [] [] (mk_msg 17 2 [Byte.x01; Byte.x02])) as (h & b & H1 & H2 & _).
  - apply new_state_represents, rate_136.
  - intros x. unfold toy_rw, toy_block. cbn [rw_macCipher]. rewrite length_take, length_app, length_replicate. lia.
  - exact E.
  - eexists h, b, _, _. split; [exact H1|exact H2].
Defined.
