(* ===== verification/Handshake.v ===== *)
(** * The encryption handshake

    [src/p2p/rlpx.go]: the messages with which the dialling and the listening side agree on the
    secrets of a connection, and the frame encoder they start it with.

    What a side draws at random is an argument ([randomness]); the incoming bytes of the connection
    are an argument and the bytes written a result. *)

From S2P Require Import Prelude BigInt Keccak Sha3 Rlp RlpStream RlpProofs RlpRoundTrip Curve Secp256k1 StdCrypto Ecies Signature Rlpx.

(** ** Sizes *)

Definition sskLen : nat := 16.
Definition sigLen : nat := 65.
Definition pubLen : nat := 64.
Definition shaLen : nat := 32.
Definition authMsgLen : nat := sigLen + shaLen + pubLen + shaLen + 1.
Definition authRespLen : nat := pubLen + shaLen + 1.
Definition eciesOverhead : nat := 65 + 16 + 32.
Definition encAuthMsgLen : nat := authMsgLen + eciesOverhead.
Definition encAuthRespLen : nat := authRespLen + eciesOverhead.

Definition errBadID : error := "bad remoteID".
Definition errNotOnCurve : error := "id is invalid secp256k1 curve point".
Definition errPubLength : error := "invalid public key length".
Definition errInvalidPub : error := "invalid public key".
Definition errUnderflow : error := "size underflow".

(** The nonce, the ephemeral key, and for the sealed packet its key, its vector and its padding. *)
Record randomness := mk_random {
  rnd_nonce : bytes; rnd_ephemeral : bytes; rnd_key : bytes; rnd_iv : bytes; rnd_pad : nat
}.

(** ** Messages *)

Record authMsgV4 := mk_auth {
  am_gotPlain : bool;
  am_Signature : bytes;
  am_InitiatorPubkey : bytes;
  am_Nonce : bytes;
  am_Version : Z;
  am_Rest : list bytes
}.

Record authRespV4 := mk_resp {
  ar_RandomPubkey : bytes;
  ar_Nonce : bytes;
  ar_Version : Z;
  ar_Rest : list bytes
}.

Definition byte_array (n : nat) : typ := TArray n (TUint 8).

(** The types as the encoder sees them. *)
Definition authMsgV4_typ : typ :=
  TStruct [mk_field false "" TBool; mk_field true "" (byte_array sigLen); mk_field true "" (byte_array pubLen);
           mk_field true "" (byte_array shaLen); mk_field true "" (TUint 64); mk_field true "tail" (TSlice TRaw)].
Definition authRespV4_typ : typ :=
  TStruct [mk_field true "" (byte_array pubLen); mk_field true "" (byte_array shaLen);
           mk_field true "" (TUint 64); mk_field true "tail" (TSlice TRaw)].

Definition authMsgV4_val (m : authMsgV4) : val :=
  VStruct [VBool (am_gotPlain m); VBytes (am_Signature m); VBytes (am_InitiatorPubkey m);
           VBytes (am_Nonce m); VUint (am_Version m); VSeq (map VRaw (am_Rest m))].
Definition authRespV4_val (m : authRespV4) : val :=
  VStruct [VBytes (ar_RandomPubkey m); VBytes (ar_Nonce m); VUint (ar_Version m); VSeq (map VRaw (ar_Rest m))].

Definition raw_of (v : val) : bytes := match v with VRaw b => b | _ => [] end.

(** The message a decoded value is. *)
Definition authMsgV4_of (v : val) : outcome authMsgV4 :=
  match v with
  | VStruct [VBool p; VBytes sig; VBytes pub; VBytes nonce; VUint version; VSeq rest] =>
      Ret (mk_auth p sig pub nonce version (map raw_of rest))
  | _ => Panic
  end.
Definition authRespV4_of (v : val) : outcome authRespV4 :=
  match v with
  | VStruct [VBytes pub; VBytes nonce; VUint version; VSeq rest] =>
      Ret (mk_resp pub nonce version (map raw_of rest))
  | _ => Panic
  end.

(** [copy(a[:], src)] into an array of [n] zero bytes. *)
Definition array_copy (n : nat) (src : bytes) : bytes := copy_at (replicate n Byte.x00) 0 (take n src).

Definition authMsg_decodePlain (input : bytes) : outcome authMsgV4 :=
  let sig := array_copy sigLen input in
  let n := (Nat.min sigLen (length input) + shaLen)%nat in
  rest ← slice input n (length input);
  let pub := array_copy pubLen rest in
  let n := (n + Nat.min pubLen (length rest))%nat in
  rest ← slice input n (length input);
  Ret (mk_auth true sig pub (array_copy shaLen rest) 4 []).

Definition authResp_decodePlain (input : bytes) : outcome authRespV4 :=
  let pub := array_copy pubLen input in
  let n := Nat.min pubLen (length input) in
  rest ← slice input n (length input);
  Ret (mk_resp pub (array_copy shaLen rest) 4 []).

(** ** Keys *)

(** A pointer to a key of the handshake may be nil. *)
Record encHandshake := mk_hs {
  hs_initiator : bool;
  hs_remoteID : bytes;
  hs_remotePub : point;
  hs_initNonce : bytes;
  hs_respNonce : bytes;
  hs_randomPrivKey : option PrivateKey;
  hs_remoteRandomPub : point
}.

Record secrets := mk_secrets {
  sc_RemoteID : bytes;
  sc_AES : bytes;
  sc_MAC : bytes;
  sc_EgressMAC : state;
  sc_IngressMAC : state
}.

Section Handshake.
Context {C : EllipticCurve} {S : SecpC} `{HX : Xor}.

(** [NodeID.Pubkey] *)
Definition Pubkey (id : bytes) : outcome (Z * Z) :=
  let x := SetBytes (take 32 id) in
  let y := SetBytes (drop 32 id) in
  if IsOnCurve x y then Ret (x, y) else Err errNotOnCurve.

(** [crypto.ToECDSAPub] returns a nil pointer for a key that is not valid, and its field is read. *)
Definition importPublicKey (pubKey : bytes) : outcome (Z * Z) :=
  pubKey65 ← (if decide (length pubKey = 64%nat) then Ret (Byte.x04 :: pubKey)
              else if decide (length pubKey = 65%nat) then Ret pubKey
              else Err errPubLength);
  match ToECDSAPub pubKey65 with
  | None => Panic
  | Some None => Err errInvalidPub
  | Some (Some xy) => Ret xy
  end.

Definition exportPubkey (pub : point) : outcome bytes :=
  match pub with
  | None => Panic
  | Some (x, y) => b ← elliptic_Marshal x y; slice b 1 (length b)
  end.

Definition staticSharedSecret (h : encHandshake) (prv : PrivateKey) : outcome bytes :=
  match hs_remotePub h with
  | None => Panic
  | Some xy => GenerateShared prv (Some xy) sskLen sskLen
  end.

Definition random_key (h : encHandshake) : outcome PrivateKey := of_option (hs_randomPrivKey h).

(** ** The secrets *)

Definition handshake_secrets (h : encHandshake) (auth authResp : bytes) : outcome secrets :=
  key ← random_key h;
  pub ← of_option (hs_remoteRandomPub h);
  ecdheSecret ← GenerateShared key (Some pub) sskLen sskLen;
  nonces ← Keccak256 [hs_respNonce h; hs_initNonce h];
  sharedSecret ← Keccak256 [ecdheSecret; nonces];
  aesSecret ← Keccak256 [ecdheSecret; sharedSecret];
  macSecret ← Keccak256 [ecdheSecret; aesSecret];
  x1 ← xor macSecret (hs_respNonce h);
  '(_, mac1) ← Write NewKeccak256 x1;
  '(_, mac1) ← Write mac1 auth;
  x2 ← xor macSecret (hs_initNonce h);
  '(_, mac2) ← Write NewKeccak256 x2;
  '(_, mac2) ← Write mac2 authResp;
  Ret (if hs_initiator h then mk_secrets (hs_remoteID h) aesSecret macSecret mac1 mac2
       else mk_secrets (hs_remoteID h) aesSecret macSecret mac2 mac1).

Definition newRLPXFrameRW (s : secrets) : outcome rlpxFrameRW :=
  match NewCipher (sc_MAC s), NewCipher (sc_AES s) with
  | Ret macc, Ret encc =>
      let iv := replicate 16 Byte.x00 in
      enc ← NewCTR encc iv;
      dec ← NewCTR encc iv;
      Ret (mk_rw enc dec macc (sc_EgressMAC s) (sc_IngressMAC s) false)
  | _, _ => Panic
  end.

(** ** Sealing and opening *)

Definition sealEIP8 (t : typ) (msg : val) (h : encHandshake) (r : randomness) : outcome bytes :=
  ws ← Encode t msg;
  let buf := concat ws ++ replicate (rnd_pad r) Byte.x00 in
  let prefix := be_fix 2 (Z.of_nat (length buf + eciesOverhead)) in
  enc ← Encrypt (rnd_key r) (rnd_iv r) (hs_remotePub h) buf [] prefix;
  Ret (prefix ++ enc).

(** The format before EIP-8. *)
Definition authMsg_sealPlain (msg : authMsgV4) (h : encHandshake) (r : randomness) : outcome bytes :=
  key ← random_key h;
  pub ← exportPubkey (prv_pub key);
  sum ← Keccak256 [pub];
  let buf := replicate authMsgLen Byte.x00 in
  let buf := copy_at buf 0 (am_Signature msg) in
  let buf := copy_at buf sigLen sum in
  let buf := copy_at buf (sigLen + shaLen) (am_InitiatorPubkey msg) in
  let buf := copy_at buf (sigLen + shaLen + pubLen) (am_Nonce msg) in
  Encrypt (rnd_key r) (rnd_iv r) (hs_remotePub h) buf [] [].

Definition authResp_sealPlain (msg : authRespV4) (h : encHandshake) (r : randomness) : outcome bytes :=
  let buf := copy_at (replicate authRespLen Byte.x00) 0 (ar_RandomPubkey msg) in
  let buf := copy_at buf (length (ar_RandomPubkey msg)) (ar_Nonce msg) in
  Encrypt (rnd_key r) (rnd_iv r) (hs_remotePub h) buf [] [].

(** The message, the packet it was in and the rest of the connection. *)
Definition readHandshakeMsg {A} (decodePlain : bytes -> outcome A) (t : typ) (of_val : val -> outcome A)
    (plainSize : nat) (prv : PrivateKey) (conn : bytes) : outcome (A * bytes * bytes) :=
  '(buf, conn) ← ReadFull conn plainSize;
  match Decrypt prv buf [] [] with
  | Panic => Panic
  | Ret dec => msg ← decodePlain dec; Ret (msg, buf, conn)
  | Err _ =>
      let prefix := take 2 buf in
      let size := Z.to_nat (be_val prefix) in
      if (size <? plainSize)%nat then Err errUnderflow else
      '(more, conn) ← ReadFull conn (size - plainSize + 2);
      let buf := buf ++ more in
      dec ← Decrypt prv (drop 2 buf) [] prefix;
      match Stream_Decode t (NewStream dec true 0) with
      | (Ret v, _) => msg ← of_val v; Ret (msg, buf, conn)
      | (Err e, _) => Err e
      | (Panic, _) => Panic
      end
  end.

(** ** The two sides *)

Definition makeAuthMsg (h : encHandshake) (prv : PrivateKey) (r : randomness) :
    outcome (authMsgV4 * encHandshake) :=
  match Pubkey (hs_remoteID h) with
  | Err _ => Err errBadID
  | Panic => Panic
  | Ret rpub =>
      key ← GenerateKey (rnd_ephemeral r);
      let h := mk_hs (hs_initiator h) (hs_remoteID h) (Some rpub) (rnd_nonce r) (hs_respNonce h) (Some key)
                 (hs_remoteRandomPub h) in
      token ← staticSharedSecret h prv;
      signed ← xor token (hs_initNonce h);
      signature ← crypto_Sign signed key;
      pub ← FromECDSAPub (Some (prv_pub prv));
      pub ← slice pub 1 (length pub);
      Ret (mk_auth false (array_copy sigLen signature) (array_copy pubLen pub)
             (array_copy shaLen (hs_initNonce h)) 4 [], h)
  end.

Definition handleAuthResp (h : encHandshake) (msg : authRespV4) : outcome encHandshake :=
  pub ← importPublicKey (ar_RandomPubkey msg);
  Ret (mk_hs (hs_initiator h) (hs_remoteID h) (hs_remotePub h) (hs_initNonce h) (ar_Nonce msg)
         (hs_randomPrivKey h) (Some pub)).

(** What the side that dials writes, the secrets, and the rest of the connection. *)
Definition initiatorEncHandshake (prv : PrivateKey) (remoteID : bytes) (r : randomness) (conn : bytes) :
    outcome (bytes * secrets * bytes) :=
  let h := mk_hs true remoteID None [] [] None None in
  '(authMsg, h) ← makeAuthMsg h prv r;
  authPacket ← sealEIP8 authMsgV4_typ (authMsgV4_val authMsg) h r;
  '(authRespMsg, authRespPacket, conn) ←
    readHandshakeMsg authResp_decodePlain authRespV4_typ authRespV4_of encAuthRespLen prv conn;
  h ← handleAuthResp h authRespMsg;
  s ← handshake_secrets h authPacket authRespPacket;
  Ret (authPacket, s, conn).

(** The error of [importPublicKey] is dropped, its panic is not. *)
Definition handleAuthMsg (msg : authMsgV4) (prv : PrivateKey) (r : randomness) : outcome encHandshake :=
  match Pubkey (am_InitiatorPubkey msg) with
  | Err _ => Err errBadID
  | Panic => Panic
  | Ret rpub =>
      key ← GenerateKey (rnd_ephemeral r);
      let h := mk_hs false (am_InitiatorPubkey msg) (Some rpub) (am_Nonce msg) [] (Some key) None in
      token ← staticSharedSecret h prv;
      signedMsg ← xor token (hs_initNonce h);
      remoteRandomPub ← RecoverPubkey signedMsg (am_Signature msg);
      match importPublicKey remoteRandomPub with
      | Panic => Panic
      | Err _ => Ret h
      | Ret xy => Ret (mk_hs false (hs_remoteID h) (hs_remotePub h) (hs_initNonce h) [] (hs_randomPrivKey h) (Some xy))
      end
  end.

Definition makeAuthResp (h : encHandshake) (r : randomness) : outcome (authRespV4 * encHandshake) :=
  let h := mk_hs (hs_initiator h) (hs_remoteID h) (hs_remotePub h) (hs_initNonce h) (rnd_nonce r)
             (hs_randomPrivKey h) (hs_remoteRandomPub h) in
  key ← random_key h;
  pub ← exportPubkey (prv_pub key);
  Ret (mk_resp (array_copy pubLen pub) (array_copy shaLen (hs_respNonce h)) 4 [], h).

(** What the side that listens writes, the secrets, and the rest of the connection. *)
Definition receiverEncHandshake (prv : PrivateKey) (r : randomness) (conn : bytes) :
    outcome (bytes * secrets * bytes) :=
  '(authMsg, authPacket, conn) ←
    readHandshakeMsg authMsg_decodePlain authMsgV4_typ authMsgV4_of encAuthMsgLen prv conn;
  h ← handleAuthMsg authMsg prv r;
  '(authRespMsg, h) ← makeAuthResp h r;
  authRespPacket ← (if am_gotPlain authMsg then authResp_sealPlain authRespMsg h r
                    else sealEIP8 authRespV4_typ (authRespV4_val authRespMsg) h r);
  s ← handshake_secrets h authPacket authRespPacket;
  Ret (authRespPacket, s, conn).

End Handshake.

(** ** Reading what was sealed *)

Section Agreement.
Context {C : EllipticCurve} {G : CurveGroup C} {S : SecpC} {L : SecpLaws C G S} `{HX : Xor} `{HS : Snappy}.
Hypothesis HB : Params_BitSize = 256.

(** The identifier of the node with private key [k]. *)
Definition id_of (k : Z) : bytes := drop 1 (point_bytes k).

Lemma point_bytes_id k : point_bytes k = Byte.x04 :: id_of k.
Proof. done. Qed.

Lemma length_id_of k : length (id_of k) = 64%nat.
Proof. unfold id_of, point_bytes. cbn [drop]. by rewrite drop_0, length_app, !length_be_fix, (byteLen_32 HB). Qed.

Lemma Pubkey_id_of k : key_ok k -> Pubkey (id_of k) = Ret (mulG k).
Proof.
  intros Hk. destruct (coords_32 HB k (key_ok_mod k Hk)) as [Hx Hy].
  destruct (mulG_coords k (key_ok_mod k Hk)) as (_ & _ & Hon).
  unfold Pubkey, id_of, point_bytes. rewrite (byteLen_32 HB). cbn [drop]. rewrite drop_0.
  rewrite take_app_length', drop_app_length' by (by rewrite length_be_fix). unfold SetBytes.
  rewrite !be_val_fix_small by done. rewrite Hon. by destruct (mulG k).
Qed.

Lemma importPublicKey_ok k b : key_ok k -> b = point_bytes k \/ b = id_of k -> importPublicKey b = Ret (mulG k).
Proof.
  intros Hk Hb. pose proof (ToECDSAPub_point_bytes k HB (key_ok_mod k Hk)) as Et.
  destruct (point_bytes_split HB k (key_ok_mod k Hk)) as (Hl & _). unfold importPublicKey.
  destruct Hb as [-> | ->].
  - rewrite decide_False, decide_True by lia. cbn [mbind outcome_bind]. by rewrite Et.
  - rewrite decide_True by apply length_id_of. cbn [mbind outcome_bind]. by rewrite <- point_bytes_id, Et.
Qed.

Lemma exportPubkey_ok k : key_ok k -> exportPubkey (Some (mulG k)) = Ret (id_of k).
Proof.
  intros Hk. pose proof (FromECDSAPub_mulG k (key_ok_mod k Hk)) as Em.
  destruct (point_bytes_split HB k (key_ok_mod k Hk)) as (Hl & _).
  unfold exportPubkey. destruct (mulG k) as [x y]. cbn [FromECDSAPub] in Em. rewrite Em. cbn [mbind outcome_bind].
  unfold slice. rewrite Hl, decide_True by lia. rewrite take_ge; [done|]. rewrite length_drop, Hl. lia.
Qed.

Lemma array_copy_full n src : length src = n -> array_copy n src = src.
Proof.
  intros Hl. unfold array_copy. rewrite take_ge by lia.
  pose proof (copy_at_mid [] (replicate n Byte.x00) [] src) as E. cbn [app length] in E.
  rewrite !app_nil_r in E. apply E. by rewrite length_replicate.
Qed.

Definition random_ok (r : randomness) : Prop :=
  length (rnd_nonce r) = 32%nat /\ (length (rnd_ephemeral r) <= 32)%nat /\ key_ok (be_val (rnd_ephemeral r)) /\
  (length (rnd_key r) <= 32)%nat /\ key_ok (be_val (rnd_key r)) /\ length (rnd_iv r) = 16%nat /\
  (100 <= rnd_pad r < 300)%nat.

(** The format before EIP-8 does not start with these bytes. *)
Lemma Decrypt_not_point prv c0 cs s1 s2 : c0 <> Byte.x04 -> exists e, Decrypt prv (c0 :: cs) s1 s2 = Err e.
Proof.
  intros Hc. unfold Decrypt. destruct (decide (c0 ∈ _)) as [Hin|]; [|by eexists].
  destruct (_ <? _)%nat; [by eexists|].
  assert (elliptic_Unmarshal (take (Z.to_nat ((Params_BitSize + 7) / 4)) (c0 :: cs)) = None) as ->; [|by eexists].
  unfold elliptic_Unmarshal. case_decide; [done|]. rewrite HB in *.
  change (Z.to_nat ((256 + 7) / 4)) with 65%nat in *. cbn [take]. by rewrite decide_True.
Qed.

(** A sealed message is read back with its packet. *)
Lemma read_sealed {A} (plain : bytes -> outcome A) t of_val plainSize d p h r v b :
  key_ok d -> hs_remotePub h = Some (mulG d) -> random_ok r ->
  encodable t no_tags v -> genTypeInfo t = Ret tt -> rlp_encode v t no_tags = Ret b ->
  (plainSize <= length b + rnd_pad r + eciesOverhead < 1024)%nat -> (2 <= plainSize)%nat ->
  exists packet, sealEIP8 t v h r = Ret packet /\ forall rest,
    readHandshakeMsg plain t of_val plainSize (mk_prv p d) (packet ++ rest) =
      (msg ← of_val v; Ret (msg, packet, rest)).
Proof.
  intros Hd Hpub (_ & _ & _ & Hk1 & Hk2 & Hiv & _) Hv Ht Hb Hsize Hp2.
  assert (Z.of_nat (length b) < 2 ^ 64) as Hb64 by lia.
  destruct (proj1 encodable_encodes _ _ _ Hv) as [Hu _].
  destruct (Encode_writes t v b Hu Ht Hb Hb64) as (ws & Ews & Hws).
  unfold sealEIP8. rewrite Ews, Hpub. cbn [mbind outcome_bind]. rewrite Hws.
  set (buf := b ++ replicate (rnd_pad r) Byte.x00).
  assert (length buf = length b + rnd_pad r)%nat as Hlbuf by (subst buf; by rewrite length_app, length_replicate).
  set (prefix := be_fix 2 (Z.of_nat (length buf + eciesOverhead))).
  assert (buf <> []) as Hne.
  { intros E. rewrite E in Hlbuf. cbn in Hlbuf. assert (length b = 0%nat) as Hb0 by lia.
    apply (encodable_nonempty t no_tags v b Hv eq_refl Hb). by destruct b. }
  destruct (Encrypt_Decrypt HB (rnd_key r) (rnd_iv r) buf [] prefix d p Hd Hk1 Hk2 Hiv Hne)
    as (body & tag & Eenc & Hlenc & Edec & _).
  rewrite Eenc. cbn [mbind outcome_bind]. set (enc := body ++ tag) in *. exists (prefix ++ enc). split; [done|]. intros rest.
  assert (length prefix = 2%nat) as Hlp by apply length_be_fix.
  assert (length enc = length buf + eciesOverhead)%nat as Hle by (unfold eciesOverhead; lia).
  assert (be_val prefix = Z.of_nat (length buf + eciesOverhead)) as Hsz
    by (apply be_val_fix_small; change (256 ^ Z.of_nat 2) with 65536; lia).
  unfold readHandshakeMsg, ReadFull. rewrite !length_app.
  destruct (Nat.leb_spec plainSize (length prefix + length enc + length rest)); [|lia].
  cbn [mbind outcome_bind].
  assert (exists c0 cs, take plainSize ((prefix ++ enc) ++ rest) = c0 :: cs /\ c0 <> Byte.x04) as (c0 & cs & Ec & Hc0).
  { destruct plainSize as [|n]; [lia|]. subst prefix. cbn [be_fix app take]. eexists _, _. split; [done|].
    intros E. apply (f_equal ub) in E. rewrite ub_u8 in E. change (8 * Z.of_nat 1) with 8 in E.
    rewrite Z.shiftr_div_pow2 in E by lia. change (2 ^ 8) with 256 in E. change (ub Byte.x04) with 4 in E.
    assert (0 <= Z.of_nat (length buf + eciesOverhead) / 256 < 4)
      by (split; [apply Z.div_pos|apply Z.div_lt_upper_bound]; lia).
    rewrite Z.mod_small in E by lia. lia. }
  destruct (Decrypt_not_point (mk_prv p d) c0 cs [] [] Hc0) as (e & Ee). rewrite Ec, Ee. rewrite <- Ec.
  assert (take 2 (take plainSize ((prefix ++ enc) ++ rest)) = prefix) as ->.
  { rewrite take_take, Nat.min_l by lia. rewrite <- app_assoc. by rewrite take_app_length' by lia. }
  rewrite Hsz, Nat2Z.id. destruct (Nat.ltb_spec (length buf + eciesOverhead) plainSize); [lia|].
  rewrite length_drop, !length_app.
  destruct (Nat.leb_spec (length buf + eciesOverhead - plainSize + 2)
    (length prefix + length enc + length rest - plainSize)); [|lia].
  cbn [mbind outcome_bind].
  assert (take plainSize ((prefix ++ enc) ++ rest) ++
    take (length buf + eciesOverhead - plainSize + 2) (drop plainSize ((prefix ++ enc) ++ rest)) = prefix ++ enc) as ->.
  { rewrite take_take_drop. apply take_app_length'. rewrite length_app. lia. }
  rewrite drop_drop. replace (plainSize + (length buf + eciesOverhead - plainSize + 2))%nat
    with (length (prefix ++ enc)) by (rewrite length_app; lia).
  rewrite drop_app_length. rewrite (drop_app_length' prefix) by lia. rewrite Edec. cbn [mbind outcome_bind].
  destruct (Stream_Decode_complete t v b (replicate (rnd_pad r) Byte.x00) true 0 Hv Ht Hb ltac:(lia)) as (s' & Es & _); [lia|].
  fold buf in Es. by rewrite Es.
Qed.

(** ** The messages fit *)

Lemma length_rlp_string n b : length b = n -> (2 <= n)%nat ->
  length (rlp_string b) = (length (puthead 0x80 0xB7 (Z.of_nat n)) + n)%nat.
Proof.
  intros Hl Hn. rewrite rlp_string_long, length_app, Hl; [done|]. intros (x & -> & _). cbn in Hl. lia.
Qed.

Lemma not_zero_byte (b : bytes) n : length b = n -> (2 <= n)%nat -> b <> [Byte.x00].
Proof. intros Hl Hn ->. cbn in Hl. lia. Qed.

Lemma byte_array_encodable ts n b : length b = n -> (2 <= n)%nat ->
  encodable (byte_array n) ts (VBytes b).
Proof. intros <- Hn. apply enc_bytearray; [done|]. by eapply not_zero_byte. Qed.

Lemma version_encodable : encodable (TUint 64) no_tags (VUint 4).
Proof. apply enc_uint; [lia|]. done. Qed.

Definition tail_tags : tags := mk_tags false true false.

Lemma no_rest_encodable : encodable (TSlice TRaw) tail_tags (VSeq []).
Proof. apply enc_slice; [done|done|constructor]. Qed.

Lemma authMsg_encodes sig pub nonce : length sig = 65%nat -> length pub = 64%nat -> length nonce = 32%nat ->
  let v := authMsgV4_val (mk_auth false sig pub nonce 4 []) in
  encodable authMsgV4_typ no_tags v /\ exists b, rlp_encode v authMsgV4_typ no_tags = Ret b /\ length b = 169%nat.
Proof.
  intros Hs Hp Hn v. split.
  - apply enc_struct. apply (enc_fields_hidden (mk_field false "" TBool)); [done|].
    apply enc_fields_cons with no_tags; [done..|by apply byte_array_encodable; [|unfold sigLen; lia]|].
    apply enc_fields_cons with no_tags; [done..|by apply byte_array_encodable; [|unfold pubLen; lia]|].
    apply enc_fields_cons with no_tags; [done..|by apply byte_array_encodable; [|unfold shaLen; lia]|].
    apply enc_fields_cons with no_tags; [done..|apply version_encodable|].
    apply enc_fields_cons with tail_tags; [done..|apply no_rest_encodable|constructor].
  - exists (rlp_list (rlp_string sig ++ rlp_string pub ++ rlp_string nonce ++ rlp_string (Bytes 4))).
    split; [reflexivity|]. unfold rlp_list. rewrite !length_app.
    rewrite (length_rlp_string 65 sig), (length_rlp_string 64 pub), (length_rlp_string 32 nonce) by (done || lia).
    done.
Qed.

Lemma authResp_encodes pub nonce : length pub = 64%nat -> length nonce = 32%nat ->
  let v := authRespV4_val (mk_resp pub nonce 4 []) in
  encodable authRespV4_typ no_tags v /\ exists b, rlp_encode v authRespV4_typ no_tags = Ret b /\ length b = 102%nat.
Proof.
  intros Hp Hn v. split.
  - apply enc_struct.
    apply enc_fields_cons with no_tags; [done..|by apply byte_array_encodable; [|unfold pubLen; lia]|].
    apply enc_fields_cons with no_tags; [done..|by apply byte_array_encodable; [|unfold shaLen; lia]|].
    apply enc_fields_cons with no_tags; [done..|apply version_encodable|].
    apply enc_fields_cons with tail_tags; [done..|apply no_rest_encodable|constructor].
  - exists (rlp_list (rlp_string pub ++ rlp_string nonce ++ rlp_string (Bytes 4))).
    split; [reflexivity|]. unfold rlp_list. rewrite !length_app.
    rewrite (length_rlp_string 64 pub), (length_rlp_string 32 nonce) by (done || lia). done.
Qed.

(** ** The secrets agree *)

Definition aes_secret (x : Z) (respNonce initNonce : bytes) : bytes :=
  kec (be_fix 32 x ++ kec (be_fix 32 x ++ kec (respNonce ++ initNonce))).
Definition mac_secret (x : Z) (respNonce initNonce : bytes) : bytes :=
  kec (be_fix 32 x ++ aes_secret x respNonce initNonce).

#[local] Opaque Sponge.output Keccak256 Write keccakF1600.

Lemma Keccak256_pair a b : Keccak256 [a; b] = Ret (kec (a ++ b)).
Proof. destruct (Keccak256_sponge [a; b]) as [-> _]. cbn [concat]. by rewrite app_nil_r. Qed.

Lemma secrets_ok h k k' p auth resp : key_ok k -> key_ok k' ->
  hs_randomPrivKey h = Some (mk_prv p k) -> hs_remoteRandomPub h = Some (mulG k') ->
  length (hs_respNonce h) = 32%nat -> length (hs_initNonce h) = 32%nat ->
  let aes := aes_secret (mulG (k * k')).1 (hs_respNonce h) (hs_initNonce h) in
  let mac := mac_secret (mulG (k * k')).1 (hs_respNonce h) (hs_initNonce h) in
  exists mac1 mac2,
    handshake_secrets h auth resp =
      Ret (if hs_initiator h then mk_secrets (hs_remoteID h) aes mac mac1 mac2
           else mk_secrets (hs_remoteID h) aes mac mac2 mac1) /\
    absorbed (xorb_bytes mac (hs_respNonce h) ++ auth) mac1 /\
    absorbed (xorb_bytes mac (hs_initNonce h) ++ resp) mac2.
Proof.
  intros Hk Hk' Hprv Hpub Hr Hi aes mac.
  assert (length mac = 32%nat) as Hlm by apply length_kec.
  assert (absorbed [] NewKeccak256) as Hnew by (apply new_state_represents, rate_136).
  destruct (Write_represents _ _ _ rate_136 _ _ (xorb_bytes mac (hs_respNonce h)) Hnew) as (d1 & E1 & H1).
  destruct (Write_represents _ _ _ rate_136 _ _ auth H1) as (mac1 & E1' & H1').
  destruct (Write_represents _ _ _ rate_136 _ _ (xorb_bytes mac (hs_initNonce h)) Hnew) as (d2 & E2 & H2).
  destruct (Write_represents _ _ _ rate_136 _ _ resp H2) as (mac2 & E2' & H2').
  exists mac1, mac2. split; [|done]. unfold handshake_secrets, random_key. rewrite Hprv, Hpub. unfold of_option.
  cbn [mbind outcome_bind]. unfold sskLen. rewrite (GenerateShared_mulG HB) by done. cbn [mbind outcome_bind].
  do 4 rewrite Keccak256_pair, Ret_bind.
  fold (aes_secret (mulG (k * k')).1 (hs_respNonce h) (hs_initNonce h)).
  fold (mac_secret (mulG (k * k')).1 (hs_respNonce h) (hs_initNonce h)). fold aes mac.
  unfold xor. rewrite Hlm, Hr, Hi. change (32 <? 32)%nat with false. cbn [mbind outcome_bind].
  rewrite E1. cbn [mbind outcome_bind]. rewrite E1'. cbn [mbind outcome_bind].
  rewrite E2. cbn [mbind outcome_bind]. rewrite E2'. done.
Qed.

(** ** Both sides *)

Definition static_key (k : Z) : PrivateKey := mk_prv (Some (mulG k)) k.
Definition eph (r : randomness) : Z := be_val (rnd_ephemeral r).

(** The signed word: the static secret and the nonce of the initiator. *)
Definition signed_word (a b : Z) (nonce : bytes) : bytes := xorb_bytes (be_fix 32 (mulG (a * b)).1) nonce.

Lemma length_signed_word a b nonce : length nonce = 32%nat -> length (signed_word a b nonce) = 32%nat.
Proof. intros Hn. unfold signed_word. rewrite length_xorb_bytes, length_be_fix, Hn. done. Qed.

Lemma static_token h prv k k' nonce : key_ok k -> key_ok k' -> hs_remotePub h = Some (mulG k') ->
  prv_D prv = k -> length nonce = 32%nat ->
  (token ← staticSharedSecret h prv; xor token nonce) = Ret (signed_word k k' nonce).
Proof.
  intros Hk Hk' Hp <- Hn. unfold staticSharedSecret. rewrite Hp. destruct prv as [p d]. cbn [prv_D] in *.
  unfold sskLen. rewrite (GenerateShared_mulG HB) by done. rewrite Ret_bind.
  unfold xor. rewrite length_be_fix, Hn. done.
Qed.

Lemma bind_assoc_eq {A B D} (m : outcome A) (f : A -> outcome B) (g : B -> outcome D) x :
  (a ← m; f a) = Ret x -> (a ← m; b ← f a; g b) = g x.
Proof. destruct m; cbn; [|done..]. by intros ->. Qed.

(** The state of the initiator after its message. *)
Definition initiator_state (b : Z) (r : randomness) : encHandshake :=
  mk_hs true (id_of b) (Some (mulG b)) (rnd_nonce r) [] (Some (mk_prv (Some (mulG (eph r))) (eph r))) None.

Lemma makeAuthMsg_ok a b r : key_ok a -> key_ok b -> random_ok r ->
  exists sig, length sig = 65%nat /\
    RecoverPubkey (signed_word a b (rnd_nonce r)) sig = Ret (point_bytes (eph r)) /\
    makeAuthMsg (mk_hs true (id_of b) None [] [] None None) (static_key a) r =
      Ret (mk_auth false sig (id_of a) (rnd_nonce r) 4 [], initiator_state b r).
Proof.
  intros Ha Hb (Hn & He1 & He2 & _).
  destruct (Ecrecover_Sign HB (signed_word a b (rnd_nonce r)) (Some (mulG (eph r))) (eph r)) as (sig & Es & Hl & Er & _);
    [by apply length_signed_word|done|].
  exists sig. split; [done|]. split; [done|]. unfold makeAuthMsg. cbn [hs_remoteID hs_initiator hs_respNonce hs_remoteRandomPub].
  rewrite Pubkey_id_of by done. rewrite GenerateKey_mulG by done. rewrite Ret_bind. cbv zeta.
  fold (eph r). fold (initiator_state b r). cbn [hs_initNonce initiator_state].
  rewrite (bind_assoc_eq _ _ _ _ (static_token (initiator_state b r) (static_key a) a b (rnd_nonce r) Ha Hb eq_refl eq_refl Hn)).
  rewrite Es, Ret_bind. cbn [prv_pub static_key].
  rewrite FromECDSAPub_mulG by (by apply key_ok_mod). rewrite Ret_bind.
  destruct (point_bytes_split HB a (key_ok_mod a Ha)) as (Hla & _).
  assert (slice (point_bytes a) 1 (length (point_bytes a)) = Ret (id_of a)) as ->.
  { unfold slice. rewrite Hla, decide_True by lia. rewrite take_ge; [done|]. rewrite length_drop, Hla. lia. }
  rewrite Ret_bind. rewrite !array_copy_full by (done || apply length_id_of). done.
Qed.

(** The state of the receiver after the initiator's message, and after its own. *)
Definition receiver_state (a : Z) (nonce respNonce : bytes) (r : randomness) (ea : Z) : encHandshake :=
  mk_hs false (id_of a) (Some (mulG a)) nonce respNonce (Some (mk_prv (Some (mulG (eph r))) (eph r))) (Some (mulG ea)).

Lemma handleAuthMsg_ok a b ea nonce sig r : key_ok a -> key_ok b -> key_ok ea -> random_ok r ->
  length nonce = 32%nat -> RecoverPubkey (signed_word b a nonce) sig = Ret (point_bytes ea) ->
  handleAuthMsg (mk_auth false sig (id_of a) nonce 4 []) (static_key b) r = Ret (receiver_state a nonce [] r ea).
Proof.
  intros Ha Hb Hea (Hn & He1 & He2 & _) Hnonce Hrec. unfold handleAuthMsg. cbn [am_InitiatorPubkey am_Nonce am_Signature].
  rewrite Pubkey_id_of by done. rewrite GenerateKey_mulG by done. rewrite Ret_bind. cbv zeta. fold (eph r).
  cbn [hs_initNonce].
  rewrite (bind_assoc_eq _ _ _ _ (static_token (mk_hs false (id_of a) (Some (mulG a)) nonce []
    (Some (mk_prv (Some (mulG (eph r))) (eph r))) None) (static_key b) b a nonce Hb Ha eq_refl eq_refl Hnonce)).
  rewrite Hrec, Ret_bind.
  rewrite (importPublicKey_ok ea) by auto. done.
Qed.

Lemma makeAuthResp_ok a ea nonce r : random_ok r ->
  makeAuthResp (receiver_state a nonce [] r ea) r =
    Ret (mk_resp (id_of (eph r)) (rnd_nonce r) 4 [], receiver_state a nonce (rnd_nonce r) r ea).
Proof.
  intros (Hn & He1 & He2 & _). unfold makeAuthResp, random_key. cbn [hs_randomPrivKey receiver_state]. unfold of_option.
  rewrite Ret_bind. cbn [prv_pub]. rewrite exportPubkey_ok by done. rewrite Ret_bind.
  rewrite !array_copy_full by (done || apply length_id_of). done.
Qed.

Definition set_snappy (b : bool) (rw : rlpxFrameRW) : rlpxFrameRW :=
  mk_rw (rw_enc rw) (rw_dec rw) (rw_macCipher rw) (rw_egressMAC rw) (rw_ingressMAC rw) b.

Lemma newRLPXFrameRW_ok s : length (sc_AES s) = 32%nat -> length (sc_MAC s) = 32%nat ->
  let ctr := mk_ctr (Aes.encrypt_block (sc_AES s)) (be_val (replicate 16 Byte.x00)) 0 in
  newRLPXFrameRW s = Ret (mk_rw ctr ctr (Aes.encrypt_block (sc_MAC s)) (sc_EgressMAC s) (sc_IngressMAC s) false).
Proof.
  intros Ha Hm ctr. unfold newRLPXFrameRW, NewCipher. rewrite Ha, Hm.
  repeat (rewrite decide_True by (repeat constructor)). unfold NewCTR. by rewrite decide_True.
Qed.

(** Connections of two sides with mirrored secrets. *)
Lemma mirrored_carries si sr m1 m2 : length (sc_AES si) = 32%nat -> length (sc_MAC si) = 32%nat ->
  sc_AES sr = sc_AES si -> sc_MAC sr = sc_MAC si ->
  absorbed m1 (sc_EgressMAC si) -> absorbed m1 (sc_IngressMAC sr) ->
  absorbed m2 (sc_EgressMAC sr) -> absorbed m2 (sc_IngressMAC si) ->
  exists one two block, newRLPXFrameRW si = Ret one /\ newRLPXFrameRW sr = Ret two /\ block_ok block /\
    set_snappy false one = one /\ set_snappy false two = two /\
    forall snappy, carries block snappy (mk_conn (set_snappy snappy one) (set_snappy snappy two) [] []) ([], []).
Proof.
  intros Ha Hm Ea Em H1 H1' H2 H2'. rewrite !newRLPXFrameRW_ok by (by rewrite ?Ea, ?Em). rewrite Ea, Em.
  eexists _, _, (Aes.encrypt_block (sc_MAC si)). split; [done|]. split; [done|].
  split; [intros x; apply Aes.length_encrypt_block|]. split; [done|]. split; [done|]. intros snappy.
  split; [done|]. split; [done|]. cbn [fst snd c_one c_two c_there c_back pending set_snappy egress_of ingress_of
    rw_enc rw_dec rw_egressMAC rw_ingressMAC]. split.
  - split; [done|]. split; [done|]. by exists m1.
  - split; [done|]. split; [done|]. by exists m2.
Qed.

Lemma handleAuthResp_ok b r eb nonce : key_ok eb ->
  handleAuthResp (initiator_state b r) (mk_resp (id_of eb) nonce 4 []) =
    Ret (mk_hs true (id_of b) (Some (mulG b)) (rnd_nonce r) nonce (Some (mk_prv (Some (mulG (eph r))) (eph r)))
           (Some (mulG eb))).
Proof.
  intros He. unfold handleAuthResp. cbn [ar_RandomPubkey]. by rewrite (importPublicKey_ok eb) by auto.
Qed.

(** Both packets, and the secrets that come out. *)
Lemma handshake_runs a b ra rb : key_ok a -> key_ok b -> random_ok ra -> random_ok rb ->
  exists p1 p2 si sr m1 m2,
    (forall rest, initiatorEncHandshake (static_key a) (id_of b) ra (p2 ++ rest) = Ret (p1, si, rest)) /\
    (forall rest, receiverEncHandshake (static_key b) rb (p1 ++ rest) = Ret (p2, sr, rest)) /\
    sc_RemoteID si = id_of b /\ sc_RemoteID sr = id_of a /\
    length (sc_AES si) = 32%nat /\ length (sc_MAC si) = 32%nat /\ sc_AES sr = sc_AES si /\ sc_MAC sr = sc_MAC si /\
    absorbed m1 (sc_EgressMAC si) /\ absorbed m1 (sc_IngressMAC sr) /\
    absorbed m2 (sc_EgressMAC sr) /\ absorbed m2 (sc_IngressMAC si).
Proof.
  intros Ha Hb Hra Hrb. assert (key_ok (eph ra)) as Hea by apply Hra. assert (key_ok (eph rb)) as Heb by apply Hrb.
  assert (length (rnd_nonce ra) = 32%nat) as Hna by apply Hra. assert (length (rnd_nonce rb) = 32%nat) as Hnb by apply Hrb.
  assert (100 <= rnd_pad ra < 300)%nat as Hpa by apply Hra. assert (100 <= rnd_pad rb < 300)%nat as Hpb by apply Hrb.
  destruct (makeAuthMsg_ok a b ra Ha Hb Hra) as (sig & Hsig & Hrec & Eauth).
  destruct (authMsg_encodes sig (id_of a) (rnd_nonce ra) Hsig (length_id_of a) Hna) as (Hv1 & b1 & Eb1 & Hb1).
  destruct (authResp_encodes (id_of (eph rb)) (rnd_nonce rb) (length_id_of (eph rb)) Hnb) as (Hv2 & b2 & Eb2 & Hb2).
  set (v1 := authMsgV4_val _) in *. set (v2 := authRespV4_val _) in *.
  assert (exists p1, sealEIP8 authMsgV4_typ v1 (initiator_state b ra) ra = Ret p1 /\ forall rest,
    readHandshakeMsg authMsg_decodePlain authMsgV4_typ authMsgV4_of encAuthMsgLen (static_key b) (p1 ++ rest) =
    Ret (mk_auth false sig (id_of a) (rnd_nonce ra) 4 [], p1, rest)) as (p1 & Es1 & Er1).
  { eapply (read_sealed authMsg_decodePlain); [done..|rewrite Hb1|];
      unfold encAuthMsgLen, authMsgLen, eciesOverhead, sigLen, shaLen, pubLen; lia. }
  assert (exists p2, sealEIP8 authRespV4_typ v2 (receiver_state a (rnd_nonce ra) (rnd_nonce rb) rb (eph ra)) rb = Ret p2 /\
    forall rest,
    readHandshakeMsg authResp_decodePlain authRespV4_typ authRespV4_of encAuthRespLen (static_key a) (p2 ++ rest) =
    Ret (mk_resp (id_of (eph rb)) (rnd_nonce rb) 4 [], p2, rest)) as (p2 & Es2 & Er2).
  { eapply (read_sealed authResp_decodePlain); [done..|rewrite Hb2|];
      unfold encAuthRespLen, authRespLen, eciesOverhead, sigLen, shaLen, pubLen; lia. }
  set (hi := mk_hs true (id_of b) (Some (mulG b)) (rnd_nonce ra) (rnd_nonce rb)
    (Some (mk_prv (Some (mulG (eph ra))) (eph ra))) (Some (mulG (eph rb)))).
  set (hr := receiver_state a (rnd_nonce ra) (rnd_nonce rb) rb (eph ra)) in *.
  destruct (secrets_ok hi (eph ra) (eph rb) _ p1 p2 Hea Heb eq_refl eq_refl Hnb Hna) as (i1 & i2 & Ei & Hi1 & Hi2).
  destruct (secrets_ok hr (eph rb) (eph ra) _ p1 p2 Heb Hea eq_refl eq_refl Hnb Hna) as (r1 & r2 & Er & Hr1 & Hr2).
  rewrite (Z.mul_comm (eph rb)) in Er, Hr1, Hr2.
  eexists p1, p2, _, _, _, _. split_and!.
  - intros rest. unfold initiatorEncHandshake. cbv zeta. rewrite Eauth, Ret_bind. fold v1. rewrite Es1, Ret_bind.
    rewrite Er2, Ret_bind. rewrite handleAuthResp_ok by done. rewrite Ret_bind. fold hi. rewrite Ei, Ret_bind. done.
  - intros rest. unfold receiverEncHandshake. rewrite Er1, Ret_bind.
    rewrite (handleAuthMsg_ok a b (eph ra)); [|done..|]; [|by unfold signed_word in *; rewrite (Z.mul_comm b a)].
    rewrite Ret_bind, makeAuthResp_ok, Ret_bind by done. cbn [am_gotPlain]. fold v2. fold hr. rewrite Es2, Ret_bind.
    rewrite Er, Ret_bind. done.
  - done.
  - done.
  - apply length_kec.
  - apply length_kec.
  - done.
  - done.
  - exact Hi1.
  - exact Hr1.
  - exact Hr2.
  - exact Hi2.
Qed.

(** C6: the handshake makes a connection: the packet of each side is accepted by the other, each learns the identifier
    of the other from it, and the frame encoders they then start carry every sequence of messages in both
    directions complete, unchanged and in order, as two queues would, compressed or not. *)
Theorem handshake_connects `{!SnappyLaws} (a b : Z) (ra rb : randomness) :
  key_ok a -> key_ok b -> random_ok ra -> random_ok rb ->
  exists p1 p2 si sr one two,
    (forall rest, initiatorEncHandshake (static_key a) (id_of b) ra (p2 ++ rest) = Ret (p1, si, rest)) /\
    (forall rest, receiverEncHandshake (static_key b) rb (p1 ++ rest) = Ret (p2, sr, rest)) /\
    sc_RemoteID si = id_of b /\ sc_RemoteID sr = id_of a /\
    newRLPXFrameRW si = Ret one /\ newRLPXFrameRW sr = Ret two /\
    forall snappy acts, Forall (action_ok snappy) acts ->
      conn_run acts (mk_conn (set_snappy snappy one) (set_snappy snappy two) [] []) =
      Ret (Queues.run acts ([], [])).
Proof.
  intros Ha Hb Hra Hrb.
  destruct (handshake_runs a b ra rb Ha Hb Hra Hrb)
    as (p1 & p2 & si & sr & m1 & m2 & Hi & Hr & I1 & I2 & L1 & L2 & E1 & E2 & M1 & M2 & M3 & M4).
  destruct (mirrored_carries si sr m1 m2 L1 L2 E1 E2 M1 M2 M3 M4)
    as (one & two & block & N1 & N2 & Hbl & _ & _ & Hc).
  exists p1, p2, si, sr, one, two. split_and!; try done. intros snappy acts Hacts.
  by apply (conn_run_refines block snappy).
Qed.

(** a node that dials crashes on a response whose ephemeral key is not a point of the curve, which whoever
    it dialled can send: [importPublicKey] reads a field of the nil pointer that [ToECDSAPub] returns
    for it. *)
Theorem bad_random_key_panics (a b : Z) (ra rb : randomness) (h : encHandshake) (key nonce rest : bytes) :
  key_ok a -> key_ok b -> random_ok ra -> random_ok rb ->
  hs_remotePub h = Some (mulG a) -> length key = 64%nat -> length nonce = 32%nat ->
  elliptic_Unmarshal (Byte.x04 :: key) = None ->
  exists packet,
    sealEIP8 authRespV4_typ (authRespV4_val (mk_resp key nonce 4 [])) h rb = Ret packet /\
    initiatorEncHandshake (static_key a) (id_of b) ra (packet ++ rest) = Panic.
Proof.
  intros Ha Hb Hra Hrb Hh Hk Hn Hbad.
  assert (length (rnd_nonce ra) = 32%nat) as Hna by apply Hra.
  assert (100 <= rnd_pad ra < 300)%nat as Hpa by apply Hra. assert (100 <= rnd_pad rb < 300)%nat as Hpb by apply Hrb.
  destruct (makeAuthMsg_ok a b ra Ha Hb Hra) as (sig & Hsig & _ & Eauth).
  destruct (authMsg_encodes sig (id_of a) (rnd_nonce ra) Hsig (length_id_of a) Hna) as (Hv1 & b1 & Eb1 & Hb1).
  destruct (authResp_encodes key nonce Hk Hn) as (Hv2 & b2 & Eb2 & Hb2).
  assert (exists p1, sealEIP8 authMsgV4_typ (authMsgV4_val (mk_auth false sig (id_of a) (rnd_nonce ra) 4 []))
    (initiator_state b ra) ra = Ret p1) as (p1 & Es1).
  { edestruct (read_sealed authMsg_decodePlain authMsgV4_typ authMsgV4_of encAuthMsgLen b None (initiator_state b ra) ra)
      as (p1 & E & _); [done..|rewrite Hb1| |by exists p1];
      unfold encAuthMsgLen, authMsgLen, eciesOverhead, sigLen, shaLen, pubLen; lia. }
  edestruct (read_sealed authResp_decodePlain authRespV4_typ authRespV4_of encAuthRespLen a (Some (mulG a)) h rb)
    as (packet & E & Er); [done..|rewrite Hb2| |].
  1, 2: unfold encAuthRespLen, authRespLen, eciesOverhead, sigLen, shaLen, pubLen; lia.
  exists packet. split; [done|]. unfold initiatorEncHandshake. cbv zeta. rewrite Eauth, Ret_bind, Es1, Ret_bind.
  rewrite Er. cbn [authRespV4_of authRespV4_val map ar_RandomPubkey ar_Nonce ar_Version ar_Rest]. rewrite !Ret_bind.
  unfold handleAuthResp, importPublicKey. cbn [ar_RandomPubkey]. rewrite decide_True by done. rewrite Ret_bind.
  unfold ToECDSAPub. rewrite decide_False by (cbn; lia). by rewrite Hbad.
Qed.

End Agreement.

(** ** Witnesses on the small curve *)

#[local] Existing Instance smallC.
#[local] Existing Instance small_group.
#[local] Existing Instance generic_xor.
#[local] Existing Instance toy_snappy.
#[local] Existing Instance toy_snappy_laws.

(** A signature that carries its key. *)
#[local] Instance toy_secp : SecpC := {|
  ec_seckey_verify k := (0 <? be_val k) && (be_val k <? 31);
  ecdsa_sign_recoverable msg k := Some (be_fix 64 (be_val k), 0);
  ecdsa_recover_pubkey sig msg := Some (@point_bytes smallC small_group (be_val (take 64 sig)))
|}.

#[local] Instance toy_secp_laws : SecpLaws smallC small_group toy_secp.
Proof.
  split.
  - intros k _. cbn. split.
    + intros [H1%Z.ltb_lt H2%Z.ltb_lt]%andb_prop. lia.
    + intros [H1 H2]. apply andb_true_intro. split; apply Z.ltb_lt; lia.
  - intros msg k _ _ Hk. cbn in Hk. exists (be_fix 64 (be_val k)), 0. split; [done|].
    split; [apply length_be_fix|]. split; [lia|]. unfold ecdsa_recover_pubkey, toy_secp.
    rewrite take_app_length' by (by rewrite length_be_fix). rewrite be_val_fix_small; [done|].
    change (Z.of_nat 64) with 64. lia.
Qed.

Definition toy_random (n : byte) : randomness :=
  mk_random (replicate 32 n) [n] [Byte.x03] (replicate 16 n) 100.

Lemma toy_random_ok n : 0 < ub n < 31 -> @random_ok smallC (toy_random n).
Proof.
  intros Hn. unfold random_ok, key_ok. change (@Params_N smallC) with 31. cbn [toy_random rnd_nonce rnd_ephemeral rnd_key rnd_iv rnd_pad].
  assert (be_val [n] = ub n) as -> by (unfold be_val; cbn; lia).
  split_and!; try done; try (cbn; lia).
Qed.

Lemma handshake_connects_witness : exists p1 p2 si sr one two,
  initiatorEncHandshake (@static_key smallC small_group 5) (@id_of smallC small_group 6) (toy_random Byte.x07) (p2 ++ []) =
    Ret (p1, si, []) /\
  receiverEncHandshake (@static_key smallC small_group 6) (toy_random Byte.x09) (p1 ++ []) = Ret (p2, sr, []) /\
  newRLPXFrameRW si = Ret one /\ newRLPXFrameRW sr = Ret two /\
  conn_run [SendFrom true (mk_msg 17 2 [Byte.x01; Byte.x02]); ReceiveAt false; ReceiveAt true]
    (mk_conn (set_snappy false one) (set_snappy false two) [] []) =
  Ret [None; Some (mk_msg 17 2 [Byte.x01; Byte.x02]); None].
Proof.
  destruct (@handshake_connects smallC small_group toy_secp toy_secp_laws generic_xor toy_snappy eq_refl toy_snappy_laws 5 6
    (toy_random Byte.x07) (toy_random Byte.x09))
    as (p1 & p2 & si & sr & one & two & H1 & H2 & _ & _ & H3 & H4 & H5);
    [split; reflexivity|split; reflexivity|apply toy_random_ok; split; reflexivity|apply toy_random_ok; split; reflexivity|].
  exists p1, p2, si, sr, one, two. split; [apply H1|]. split; [apply H2|]. split; [exact H3|]. split; [exact H4|].
  apply (H5 false). apply Forall_cons_2; [|apply Forall_cons_2; [exact I|apply Forall_cons_2; [exact I|apply Forall_nil_2]]].
  repeat split; vm_compute; congruence.
Defined.

Lemma bad_random_key_panics_witness : exists packet,
  initiatorEncHandshake (@static_key smallC small_group 5) (@id_of smallC small_group 6) (toy_random Byte.x07)
    (packet ++ []) = Panic.
Proof.
  destruct (@bad_random_key_panics smallC small_group toy_secp toy_secp_laws generic_xor eq_refl 5 6
    (toy_random Byte.x07) (toy_random Byte.x09)
    (mk_hs false [] (Some (small_mulG 5)) [] [] None None) (replicate 64 Byte.x00) (replicate 32 Byte.x00) [])
    as (packet & _ & H); try reflexivity;
    [split; reflexivity|split; reflexivity|apply toy_random_ok; split; reflexivity|apply toy_random_ok; split; reflexivity|].
  exists packet. exact H.
Defined.
