(* ===== verification/Peer.v ===== *)
(** * Protocols on a connection

    [src/p2p/peer.go], [protocol.go] and [peer_error.go]: the protocols two nodes have in common
    get consecutive ranges of message codes above the base protocol, and messages are routed
    by their code. *)

From S2P Require Import Prelude BigInt Rlp RlpStream RlpProofs RlpRoundTrip Rlpx.

(** ** Protocols *)

Record Protocol := mk_proto { pr_Name : string; pr_Version : Z; pr_Length : Z }.
Record Cap := mk_cap { cap_Name : string; cap_Version : Z }.

#[global] Instance Cap_eq_dec : EqDecision Cap.
Proof. solve_decision. Defined.

Definition proto_cap (p : Protocol) : Cap := mk_cap (pr_Name p) (pr_Version p).

Definition string_lt (a b : string) : Prop := String.compare a b = Lt.
#[global] Instance string_lt_dec a b : Decision (string_lt a b).
Proof. unfold string_lt. apply _. Defined.

(** [capsByNameAndVersion.Less] *)
Definition cap_Less (a b : Cap) : Prop :=
  string_lt (cap_Name a) (cap_Name b) \/ (cap_Name a = cap_Name b /\ cap_Version a < cap_Version b).
#[global] Instance cap_Less_dec a b : Decision (cap_Less a b).
Proof. unfold cap_Less. apply _. Defined.

Definition cap_le (a b : Cap) : Prop := a = b \/ cap_Less a b.
#[global] Instance cap_le_dec a b : Decision (cap_le a b).
Proof. unfold cap_le. apply _. Defined.

Definition baseProtocolLength : Z := 16.
Definition handshakeMsg : Z := 0x10.
Definition discMsg : Z := 0x11.
Definition pingMsg : Z := 0x12.
Definition pongMsg : Z := 0x13.

(** A running protocol; its channels are seen in the functions that use them. *)
Record protoRW := mk_protoRW { rw_proto : Protocol; rw_offset : Z }.

Definition matches (p : Protocol) (c : Cap) : bool :=
  bool_decide (pr_Name p = cap_Name c) && bool_decide (pr_Version p = cap_Version c).

Definition countMatchingProtocols (protocols : list Protocol) (caps : list Cap) : nat :=
  foldl (fun n c => foldl (fun n p => if matches p c then S n else n) n protocols) 0%nat caps.

(** An iteration of the outer loop, on [offset] and [result]. *)
Definition match_cap (protocols : list Protocol) (st : Z * gmap string protoRW) (c : Cap) :
    Z * gmap string protoRW :=
  let '(offset, result) := st in
  match List.find (fun p => matches p c) protocols with
  | None => (offset, result)
  | Some proto =>
      let offset := match result !! cap_Name c with
                    | Some old => u64 (offset - pr_Length (rw_proto old))
                    | None => offset
                    end in
      (u64 (offset + pr_Length proto), <[cap_Name c := mk_protoRW proto offset]> result)
  end.

(** The order is total, so that every sort gives this list. *)
Definition matchProtocols (protocols : list Protocol) (caps : list Cap) : gmap string protoRW :=
  (foldl (match_cap protocols) (baseProtocolLength, ∅) (merge_sort cap_le caps)).2.

(** ** Messages *)

Definition errInvalidMsgCode : error := "invalid message code".
Definition errOutOfRange : error := "msg code out of range".

Definition in_range (code : Z) (rw : protoRW) : bool :=
  (rw_offset rw <=? code) && (code <? u64 (rw_offset rw + pr_Length (rw_proto rw))).

(** [getProto] ranges over the map; [order] is the order of the iteration. *)
Definition getProto (order : list (string * protoRW)) (code : Z) : option (string * protoRW) :=
  List.find (fun '(_, rw) => in_range code rw) order.

Definition protoRW_WriteMsg (rw : protoRW) (m : Msg) : outcome Msg :=
  if pr_Length (rw_proto rw) <=? Code m then Err errInvalidMsgCode
  else Ret (mk_msg (u64 (Code m + rw_offset rw)) (MsgSize m) (Payload m)).

Definition protoRW_ReadMsg (rw : protoRW) (m : Msg) : Msg :=
  mk_msg (u64 (Code m - rw_offset rw)) (MsgSize m) (Payload m).

(** What [handle] does with a message. *)
Inductive handled :=
| SendPong
| Disconnect (reason : Z)
| Discard
| Deliver (name : string) (rw : protoRW) (m : Msg).

(** [rlp.Decode(msg.Payload, &reason)] into an array of one; its error is dropped. *)
Definition disc_reason (payload : bytes) : Z :=
  match (_ ← Stream_List; Stream_uint 64) (NewStream payload true 0) with
  | (Ret r, _) => r
  | _ => 0
  end.

Definition handle (order : list (string * protoRW)) (m : Msg) : outcome handled :=
  if Code m =? pingMsg then Ret SendPong
  else if Code m =? discMsg then Ret (Disconnect (disc_reason (Payload m)))
  else if Code m <? baseProtocolLength then Ret Discard
  else match getProto order (Code m) with
       | None => Err errOutOfRange
       | Some (name, rw) => Ret (Deliver name rw m)
       end.

(** ** Reasons to disconnect *)

Definition discReasonToString : list string :=
  ["disconnect requested"; "network error"; "breach of protocol"; "useless peer"; "too many peers";
   "already connected"; "incompatible p2p protocol version"; "invalid node identity"; "client quitting";
   "unexpected identity"; "connected to self"; "read timeout"; ""; ""; ""; ""; "subprotocol error"].

(** [int(d)] of a 64-bit [d]. *)
Definition int_of (d : Z) : Z := if d <? 2 ^ 63 then d else d - 2 ^ 64.

Definition DiscReason_String (d : Z) : outcome string :=
  if Z.of_nat (length discReasonToString) <? int_of d then Ret "unknown disconnect reason"
  else idx discReasonToString (Z.to_nat d).

(** ** The order on capabilities *)

Lemma string_compare_trans a b c o :
  String.compare a b = o -> String.compare b c = o -> String.compare a c = o.
Proof.
  revert b c; induction a as [|x a IH]; intros [|y b] [|z c]; cbn; try congruence.
  unfold Ascii.compare.
  destruct (N.compare_spec (Ascii.N_of_ascii x) (Ascii.N_of_ascii y)) as [E1|L1|L1];
    destruct (N.compare_spec (Ascii.N_of_ascii y) (Ascii.N_of_ascii z)) as [E2|L2|L2];
    destruct (N.compare_spec (Ascii.N_of_ascii x) (Ascii.N_of_ascii z)) as [E3|L3|L3];
    intros; try lia; try congruence; eauto.
Qed.

#[global] Instance string_lt_strict : StrictOrder string_lt.
Proof.
  split.
  - intros a H. unfold string_lt in H. pose proof (String.compare_antisym a a) as E.
    rewrite H in E. discriminate E.
  - intros a b c. apply string_compare_trans.
Qed.

Lemma string_lt_total a b : string_lt a b \/ a = b \/ string_lt b a.
Proof.
  unfold string_lt. rewrite (String.compare_antisym b a).
  destruct (String.compare a b) eqn:E; cbn; auto using String.compare_eq_iff.
Qed.

Lemma string_lt_neq a b : string_lt a b -> a <> b.
Proof. intros H ->. by apply (irreflexivity string_lt b). Qed.

Lemma string_lt_asym a b : string_lt a b -> string_lt b a -> False.
Proof. intros H1 H2. apply (irreflexivity string_lt a). by trans b. Qed.

#[global] Instance cap_le_trans : Transitive cap_le.
Proof.
  intros a b c [->|[H1|[E1 H1]]] [->|[H2|[E2 H2]]]; unfold cap_le, cap_Less; auto.
  - right; left. by trans (cap_Name b).
  - right; left. congruence.
  - right; left. congruence.
  - right; right. split; [congruence|lia].
Qed.

#[global] Instance cap_le_total : Total cap_le.
Proof.
  intros [n v] [m w]. unfold cap_le, cap_Less; cbn.
  destruct (string_lt_total n m) as [H|[->|H]]; auto.
  destruct (Z.lt_trichotomy v w) as [H|[->|H]]; auto.
Qed.

#[global] Instance cap_le_antisymm : AntiSymm eq cap_le.
Proof.
  intros [n v] [m w] [E|[H1|[E1 H1]]] [E'|[H2|[E2 H2]]]; cbn in *; simplify_eq; auto; try lia;
    exfalso; eauto using string_lt_asym.
Qed.

Definition sorted_caps (caps : list Cap) : list Cap := merge_sort cap_le caps.

Lemma sorted_caps_sorted caps : StronglySorted cap_le (sorted_caps caps).
Proof. apply StronglySorted_merge_sort; apply _. Qed.

Lemma elem_of_sorted_caps c caps : c ∈ sorted_caps caps <-> c ∈ caps.
Proof. unfold sorted_caps. by rewrite merge_sort_Permutation. Qed.

(** ** Both sides assign the same ranges *)

Lemma matches_iff p c : matches p c = true <-> proto_cap p = c.
Proof.
  unfold matches, proto_cap. rewrite andb_true_iff, !bool_decide_eq_true.
  destruct c as [n v]; cbn. split; [intros [-> ->]; done|intros [= -> ->]; done].
Qed.

Lemma find_match_Some protocols c p :
  List.find (fun p => matches p c) protocols = Some p -> p ∈ protocols /\ proto_cap p = c.
Proof. intros [Hin Hm]%List.find_some. by rewrite list_elem_of_In, <- matches_iff. Qed.

Lemma find_match_is_Some protocols c :
  c ∈ (proto_cap <$> protocols) -> is_Some (List.find (fun p => matches p c) protocols).
Proof.
  intros (p & -> & Hp)%list_elem_of_fmap.
  destruct (List.find _ _) eqn:E; [eauto|].
  assert (Hm : matches p (proto_cap p) = true) by by apply matches_iff.
  rewrite (List.find_none _ _ E p) in Hm; [done|by apply list_elem_of_In].
Qed.

(** Capabilities that match nothing change nothing. *)
Lemma foldl_match_filter protocols l st :
  foldl (match_cap protocols) st l
  = foldl (match_cap protocols) st (filter (fun c => c ∈ (proto_cap <$> protocols)) l).
Proof.
  revert st; induction l as [|c l IH]; intros st; [done|].
  rewrite filter_cons. case_decide as Hc; [cbn [foldl]; apply IH|].
  rewrite <- IH. cbn [foldl]. f_equal. destruct st as [off res]; cbn.
  destruct (List.find _ _) as [p|] eqn:E; [|done].
  apply find_match_Some in E as [Hp <-]. destruct Hc. by apply list_elem_of_fmap_2.
Qed.

Lemma StronglySorted_filter {A} (R : relation A) (P : A -> Prop) `{!forall x, Decision (P x)} l :
  StronglySorted R l -> StronglySorted R (filter P l).
Proof.
  induction 1 as [|x l Hl IH Hx]; [constructor|].
  rewrite filter_cons. case_decide; [|done].
  constructor; [done|]. apply Forall_forall. intros y Hy%list_elem_of_filter.
  rewrite Forall_forall in Hx. apply Hx, Hy.
Qed.

Lemma common_caps PA PB :
  NoDup PA -> NoDup PB ->
  filter (fun c => c ∈ PA) (sorted_caps PB) = filter (fun c => c ∈ PB) (sorted_caps PA).
Proof.
  intros HA HB.
  apply (StronglySorted_unique cap_le); [apply StronglySorted_filter, sorted_caps_sorted..|].
  unfold sorted_caps. apply NoDup_Permutation.
  - apply NoDup_filter. by rewrite merge_sort_Permutation.
  - apply NoDup_filter. by rewrite merge_sort_Permutation.
  - intros c. rewrite !list_elem_of_filter, !merge_sort_Permutation. tauto.
Qed.

(** Two nodes that run the same version of a protocol give it the same length. *)
Definition lengths_agree (PA PB : list Protocol) : Prop :=
  forall p q, p ∈ PA -> q ∈ PB -> proto_cap p = proto_cap q -> p = q.

Lemma foldl_match_agree PA PB l st :
  lengths_agree PA PB ->
  Forall (fun c => c ∈ (proto_cap <$> PA) /\ c ∈ (proto_cap <$> PB)) l ->
  foldl (match_cap PA) st l = foldl (match_cap PB) st l.
Proof.
  intros Hag H; revert st; induction H as [|c l [HA HB] _ IH]; intros st; [done|].
  cbn. rewrite IH. f_equal. destruct st as [off res]; cbn.
  apply find_match_is_Some in HA as [p Ep], HB as [q Eq].
  rewrite Ep, Eq. apply find_match_Some in Ep as [Hp Cp], Eq as [Hq Cq].
  by rewrite (Hag p q) by congruence.
Qed.

Lemma matchProtocols_agree PA PB :
  NoDup (proto_cap <$> PA) -> NoDup (proto_cap <$> PB) -> lengths_agree PA PB ->
  matchProtocols PA (proto_cap <$> PB) = matchProtocols PB (proto_cap <$> PA).
Proof.
  intros HA HB Hag. unfold matchProtocols. f_equal. fold (sorted_caps (proto_cap <$> PA)).
  fold (sorted_caps (proto_cap <$> PB)).
  rewrite (foldl_match_filter PA), (foldl_match_filter PB), common_caps by done.
  apply foldl_match_agree; [done|]. apply Forall_forall.
  intros c [Hc Hs]%list_elem_of_filter. by rewrite elem_of_sorted_caps in Hs.
Qed.

(** ** The ranges *)

Definition rw_name (rw : protoRW) : string := pr_Name (rw_proto rw).
Definition rw_end (rw : protoRW) : Z := rw_offset rw + pr_Length (rw_proto rw).
Definition rw_entry (rw : protoRW) : string * protoRW := (rw_name rw, rw).

(** Ranges one after the other, the last one first, and where the next one starts. *)
Fixpoint laid (L : list protoRW) (off : Z) : Prop :=
  match L with
  | [] => off = baseProtocolLength
  | rw :: L => off = rw_end rw /\ laid L (rw_offset rw)
  end.

Definition total_length (ps : list Protocol) : Z := foldr (fun p a => pr_Length p + a) 0 ps.

(** The codes of all protocols together fit into 64 bits. *)
Definition lengths_fit (ps : list Protocol) : Prop :=
  Forall (fun p => 0 <= pr_Length p) ps /\ baseProtocolLength + total_length ps < 2 ^ 64.

#[global] Instance total_length_proper : Proper ((≡ₚ) ==> eq) total_length.
Proof. induction 1; unfold total_length in *; cbn [foldr]; lia. Qed.

Lemma total_length_app l k : total_length (l ++ k) = total_length l + total_length k.
Proof. unfold total_length. induction l; cbn [app foldr]; lia. Qed.

Lemma total_length_nonneg l : Forall (fun p => 0 <= pr_Length p) l -> 0 <= total_length l.
Proof. unfold total_length. induction 1; cbn [foldr]; lia. Qed.

Lemma total_length_sub l ps :
  Forall (fun p => 0 <= pr_Length p) ps -> NoDup l -> l ⊆ ps -> total_length l <= total_length ps.
Proof.
  intros H0 Hnd Hsub. pose proof (NoDup_submseteq _ _ Hnd Hsub) as [k Hk]%submseteq_Permutation.
  rewrite Hk, total_length_app. rewrite Hk, Forall_app in H0.
  pose proof (total_length_nonneg k (proj2 H0)). lia.
Qed.

Lemma laid_total L off :
  laid L off -> off = baseProtocolLength + total_length (rw_proto <$> L).
Proof.
  revert off; induction L as [|rw L IH]; intros off; cbn; [intros ->; lia|].
  intros [-> H%IH]. unfold rw_end. fold (total_length (rw_proto <$> L)). lia.
Qed.

Lemma laid_elem L off rw :
  Forall (fun rw => 0 <= pr_Length (rw_proto rw)) L -> laid L off -> rw ∈ L ->
  baseProtocolLength <= rw_offset rw /\ rw_end rw <= off.
Proof.
  revert off; induction L as [|x L IH]; intros off; [by intros ? ? ?%elem_of_nil|].
  intros [Hx H0]%Forall_cons [-> HL] Hin.
  assert (Hb : baseProtocolLength <= rw_offset x).
  { pose proof (laid_total _ _ HL). pose proof (total_length_nonneg (rw_proto <$> L)) as Hn.
    rewrite Forall_fmap in Hn. specialize (Hn H0). lia. }
  apply elem_of_cons in Hin as [->|Hin]; [lia|].
  destruct (IH _ H0 HL Hin). unfold rw_end in *. lia.
Qed.

Definition name_gt (a b : protoRW) : Prop := string_lt (rw_name b) (rw_name a).

Lemma laid_disjoint L off a b :
  Forall (fun rw => 0 <= pr_Length (rw_proto rw)) L -> laid L off -> a ∈ L -> b ∈ L -> a <> b ->
  rw_end a <= rw_offset b \/ rw_end b <= rw_offset a.
Proof.
  revert off; induction L as [|x L IH]; intros off; [by intros ? ? ?%elem_of_nil|].
  intros [Hx H0]%Forall_cons [_ HL] [->|Ha]%elem_of_cons [->|Hb]%elem_of_cons Hne; [done|..|eauto].
  - right. by apply (laid_elem L).
  - left. by apply (laid_elem L).
Qed.

Lemma sorted_names_NoDup L : StronglySorted name_gt L -> NoDup ((rw_entry <$> L).*1).
Proof.
  induction 1 as [|x L _ IH Hx]; [constructor|]. cbn. constructor; [|done].
  rewrite <- list_fmap_compose. intros (y & E & Hy)%list_elem_of_fmap.
  rewrite Forall_forall in Hx. apply Hx in Hy. by apply string_lt_neq in Hy.
Qed.

Lemma protos_nonneg ps L :
  lengths_fit ps -> Forall (fun rw => rw_proto rw ∈ ps) L ->
  Forall (fun rw => 0 <= pr_Length (rw_proto rw)) L.
Proof.
  intros [H0 _] Hps. eapply Forall_impl; [exact Hps|]. intros rw Hrw.
  rewrite Forall_forall in H0. auto.
Qed.

Lemma laid_small ps L off :
  lengths_fit ps -> laid L off -> StronglySorted name_gt L -> Forall (fun rw => rw_proto rw ∈ ps) L ->
  baseProtocolLength <= off < 2 ^ 64.
Proof.
  intros Hfit HL Hs Hps. rewrite (laid_total _ _ HL).
  pose proof (protos_nonneg _ _ Hfit Hps) as Hn. destruct Hfit as [H0 Hfit].
  pose proof (total_length_nonneg (rw_proto <$> L)) as Ht. rewrite Forall_fmap in Ht.
  specialize (Ht Hn). split; [lia|].
  eapply Z.le_lt_trans; [|exact Hfit]. apply Z.add_le_mono_l, total_length_sub; [done|..].
  - apply (NoDup_fmap_1 pr_Name). rewrite <- list_fmap_compose.
    pose proof (sorted_names_NoDup _ Hs) as Hnd. by rewrite <- list_fmap_compose in Hnd.
  - intros q (rw & -> & Hrw)%list_elem_of_fmap. rewrite Forall_forall in Hps. auto.
Qed.

Lemma lookup_entries L n rw :
  StronglySorted name_gt L ->
  (list_to_map (rw_entry <$> L) : gmap string protoRW) !! n = Some rw <-> rw ∈ L /\ rw_name rw = n.
Proof.
  intros HL. rewrite <- elem_of_list_to_map by by apply sorted_names_NoDup.
  rewrite list_elem_of_fmap. unfold rw_entry. split; [intros (y & [= -> ->] & Hy); done|].
  intros [Hin <-]. eauto.
Qed.

(** The state of the outer loop after the capabilities [dn], before [rest]. *)
Record match_inv (ps : list Protocol) (dn rest : list Cap) (st : Z * gmap string protoRW)
    (L : list protoRW) : Prop := {
  mi_laid : laid L st.1;
  mi_map : st.2 = list_to_map (rw_entry <$> L);
  mi_names : StronglySorted name_gt L;
  mi_ps : Forall (fun rw => rw_proto rw ∈ ps) L;
  mi_done : Forall (fun rw => proto_cap (rw_proto rw) ∈ dn) L;
  mi_rest : Forall (fun rw => Forall (cap_le (proto_cap (rw_proto rw))) rest) L;
  mi_best : forall p, p ∈ ps -> proto_cap p ∈ dn ->
    exists rw, rw ∈ L /\ rw_name rw = pr_Name p /\ pr_Version p <= pr_Version (rw_proto rw)
}.

(** A new first range, placed where the ranges below it end. *)
Lemma match_inv_push ps dn c rest L off p :
  lengths_fit ps -> Forall (cap_le c) rest -> p ∈ ps -> proto_cap p = c ->
  laid L off -> StronglySorted name_gt L ->
  Forall (fun rw => string_lt (rw_name rw) (cap_Name c)) L ->
  Forall (fun rw => rw_proto rw ∈ ps) L -> Forall (fun rw => proto_cap (rw_proto rw) ∈ dn) L ->
  Forall (fun rw => Forall (cap_le (proto_cap (rw_proto rw))) rest) L ->
  (forall q, q ∈ ps -> proto_cap q ∈ dn ->
     (pr_Name q = cap_Name c /\ pr_Version q <= cap_Version c) \/
     exists rw, rw ∈ L /\ rw_name rw = pr_Name q /\ pr_Version q <= pr_Version (rw_proto rw)) ->
  match_inv ps (dn ++ [c]) rest
    (u64 (off + pr_Length p), <[cap_Name c := mk_protoRW p off]> (list_to_map (rw_entry <$> L)))
    (mk_protoRW p off :: L).
Proof.
  intros [H0 Hfit] Hrest Hp <- HL Hs Hlt Hps Hdn Hr Hbest.
  assert (Hs' : StronglySorted name_gt (mk_protoRW p off :: L)) by by constructor.
  assert (Hps' : Forall (fun rw => rw_proto rw ∈ ps) (mk_protoRW p off :: L)) by by constructor.
  assert (HL' : laid (mk_protoRW p off :: L) (off + pr_Length p)) by done.
  pose proof (laid_small ps _ _ (conj H0 Hfit) HL' Hs' Hps') as Hsmall.
  constructor; cbn [fst snd].
  - rewrite u64_small; [done|]. unfold baseProtocolLength in Hsmall. lia.
  - done.
  - done.
  - done.
  - constructor; [set_solver|]. eapply Forall_impl; [exact Hdn|]. intros rw; set_solver.
  - by constructor.
  - intros q Hq [Hd|E%list_elem_of_singleton]%elem_of_app.
    + destruct (Hbest q Hq Hd) as [[E Hv]|(rw & Hrw & E & Hv)].
      * exists (mk_protoRW p off). cbn in *. split; [by left|done].
      * exists rw. split; [by right|done].
    + injection E as E1 E2. exists (mk_protoRW p off). cbn. split; [by left|].
      unfold rw_name; cbn. split; [done|lia].
Qed.

(** A range with the name of the next capability is the last one. *)
Lemma same_name_last L x c old :
  StronglySorted name_gt (x :: L) -> cap_le (proto_cap (rw_proto x)) c ->
  old ∈ x :: L -> rw_name old = cap_Name c ->
  old = x /\ pr_Version (rw_proto x) <= cap_Version c.
Proof.
  intros [_ Hx]%StronglySorted_inv Hle Hin En.
  assert (old = x) as ->.
  { apply elem_of_cons in Hin as [->|Hin]; [done|].
    rewrite Forall_forall in Hx. apply Hx in Hin. unfold name_gt in Hin. rewrite En in Hin.
    destruct Hle as [E|[Hlt|[E _]]]; exfalso;
      eauto using string_lt_asym; [rewrite <- E in Hin|cbn in E; rewrite <- E in Hin];
      eapply (irreflexivity string_lt); exact Hin. }
  split; [done|]. destruct Hle as [<-|[Hlt|[_ Hlt]]]; [done|..|cbn in Hlt; lia].
  unfold rw_name in En. cbn in Hlt. rewrite En in Hlt. by apply string_lt_neq in Hlt.
Qed.

Lemma new_name_above L c :
  (list_to_map (rw_entry <$> L) : gmap string protoRW) !! cap_Name c = None ->
  Forall (fun rw => cap_le (proto_cap (rw_proto rw)) c) L ->
  Forall (fun rw => string_lt (rw_name rw) (cap_Name c)) L.
Proof.
  intros El%not_elem_of_list_to_map_2 H. rewrite <- list_fmap_compose in El.
  rewrite Forall_forall in H |- *. intros rw Hrw.
  assert (Hne : rw_name rw <> cap_Name c).
  { intros E. apply El. rewrite <- E. by apply (list_elem_of_fmap_2 (fst ∘ rw_entry)). }
  destruct (H rw Hrw) as [<-|[Hlt|[E _]]]; done.
Qed.

Lemma match_cap_inv ps dn c rest st L :
  lengths_fit ps -> StronglySorted cap_le (c :: rest) -> match_inv ps dn (c :: rest) st L ->
  exists L', match_inv ps (dn ++ [c]) rest (match_cap ps st c) L'.
Proof.
  intros Hfit [Hsr Hcr]%StronglySorted_inv [HL Hmap Hs Hps Hdn Hr Hbest].
  destruct st as [off res]; cbn in HL, Hmap; subst res. unfold match_cap.
  assert (Hr' : Forall (fun rw => Forall (cap_le (proto_cap (rw_proto rw))) rest) L).
  { eapply Forall_impl; [exact Hr|]. cbn. by intros rw [_ ?]%Forall_cons. }
  assert (Hrc : Forall (fun rw => cap_le (proto_cap (rw_proto rw)) c) L).
  { eapply Forall_impl; [exact Hr|]. cbn. by intros rw [? _]%Forall_cons. }
  destruct (List.find _ ps) as [p|] eqn:Ef.
  - apply find_match_Some in Ef as [Hp Hc].
    destruct (list_to_map _ !! cap_Name c) as [old|] eqn:El.
    + apply lookup_entries in El as [Hin En]; [|done].
      destruct L as [|x L]; [by apply elem_of_nil in Hin|].
      apply Forall_cons in Hps as [Hxp Hps], Hdn as [Hxd Hdn], Hr' as [_ Hr'], Hrc as [Hxc Hrc].
      destruct (same_name_last L x c old) as [-> Hv]; [done..|].
      apply StronglySorted_inv in Hs as [Hs Hx]. destruct HL as [-> HL].
      exists (mk_protoRW p (rw_offset x) :: L).
      assert (Hu : u64 (rw_end x - pr_Length (rw_proto x)) = rw_offset x).
      { unfold rw_end. rewrite Z.add_simpl_r. apply u64_small.
        pose proof (laid_small ps L _ Hfit HL Hs Hps). unfold baseProtocolLength in *. lia. }
      rewrite Hu. cbn [fmap list_fmap list_to_map foldr uncurry rw_entry fst snd].
      rewrite En, insert_insert_eq. apply match_inv_push; auto.
      * eapply Forall_impl; [exact Hx|]. intros rw. unfold name_gt. by rewrite En.
      * intros q Hq Hd. destruct (Hbest q Hq Hd) as (rw & [->|Hrw]%elem_of_cons & E & Hv'); eauto.
        left. rewrite <- E, En. split; [done|lia].
    + exists (mk_protoRW p off :: L). apply match_inv_push; auto using new_name_above.
  - exists L. constructor; auto.
    + eapply Forall_impl; [exact Hdn|]. intros rw; set_solver.
    + intros p Hp [Hd|E%list_elem_of_singleton]%elem_of_app; [eauto|].
      assert (Hm : c ∈ (proto_cap <$> ps)) by (rewrite <- E; by apply list_elem_of_fmap_2).
      apply find_match_is_Some in Hm as [? Hm]. congruence.
Qed.

Lemma match_caps_inv ps dn rest st L :
  lengths_fit ps -> StronglySorted cap_le rest -> match_inv ps dn rest st L ->
  exists L', match_inv ps (dn ++ rest) [] (foldl (match_cap ps) st rest) L'.
Proof.
  intros Hfit; revert dn st L; induction rest as [|c rest IH]; intros dn st L Hs Hi; cbn [foldl].
  - exists L. by rewrite app_nil_r.
  - destruct (match_cap_inv _ _ _ _ _ _ Hfit Hs Hi) as [L1 H1].
    apply StronglySorted_inv in Hs as [Hs _].
    destruct (IH _ _ _ Hs H1) as [L2 H2]. exists L2. by rewrite <- app_assoc in H2.
Qed.

Lemma matchProtocols_inv ps caps :
  lengths_fit ps ->
  exists L off, match_inv ps (sorted_caps caps) [] (off, matchProtocols ps caps) L.
Proof.
  intros Hfit.
  destruct (match_caps_inv ps [] (sorted_caps caps) (baseProtocolLength, ∅) []) as [L HL];
    [done|apply sorted_caps_sorted|constructor; cbn; try constructor; try done|].
  - intros p _ []%elem_of_nil.
  - exists L, (foldl (match_cap ps) (baseProtocolLength, ∅) (sorted_caps caps)).1.
    unfold matchProtocols. fold (sorted_caps caps). by rewrite <- surjective_pairing.
Qed.

(** The protocol under a name and its range. *)
Lemma matchProtocols_range ps caps name rw :
  lengths_fit ps -> matchProtocols ps caps !! name = Some rw ->
  rw_name rw = name /\ rw_proto rw ∈ ps /\ proto_cap (rw_proto rw) ∈ caps /\
  (forall p, p ∈ ps -> proto_cap p ∈ caps -> pr_Name p = name -> pr_Version p <= pr_Version (rw_proto rw)) /\
  baseProtocolLength <= rw_offset rw /\ 0 <= pr_Length (rw_proto rw) /\ rw_end rw < 2 ^ 64.
Proof.
  intros Hfit Hl. destruct (matchProtocols_inv ps caps Hfit) as (L & off & [HL Hm Hs Hps Hdn _ Hb]).
  cbn in HL, Hm. rewrite Hm in Hl. apply lookup_entries in Hl as [Hin Hn]; [|done].
  pose proof (protos_nonneg _ _ Hfit Hps) as H0. pose proof (laid_elem _ _ _ H0 HL Hin).
  pose proof (laid_small _ _ _ Hfit HL Hs Hps).
  rewrite Forall_forall in Hps, Hdn, H0. repeat split; auto; try lia.
  - by apply elem_of_sorted_caps, Hdn.
  - intros p Hp Hc Hpn. destruct (Hb p Hp) as (rw' & Hin' & Hn' & Hv); [by apply elem_of_sorted_caps|].
    assert (Hw : rw' = rw); [|by subst].
    assert (Hl1 : (list_to_map (rw_entry <$> L) : gmap string protoRW) !! name = Some rw')
      by (apply lookup_entries; [done|]; split; [done|congruence]).
    assert (Hl2 : (list_to_map (rw_entry <$> L) : gmap string protoRW) !! name = Some rw)
      by (by apply lookup_entries). congruence.
Qed.

Lemma matchProtocols_disjoint ps caps n1 n2 a b :
  lengths_fit ps -> matchProtocols ps caps !! n1 = Some a -> matchProtocols ps caps !! n2 = Some b ->
  n1 <> n2 -> rw_end a <= rw_offset b \/ rw_end b <= rw_offset a.
Proof.
  intros Hfit Ha Hb Hne.
  destruct (matchProtocols_inv ps caps Hfit) as (L & off & [HL Hm Hs Hps _ _ _]).
  cbn in HL, Hm. rewrite Hm in Ha, Hb.
  apply lookup_entries in Ha as [Ha Hna], Hb as [Hb Hnb]; [|done..].
  apply (laid_disjoint L off); eauto using protos_nonneg. intros ->. congruence.
Qed.

Lemma in_range_iff ps caps name rw code :
  lengths_fit ps -> matchProtocols ps caps !! name = Some rw ->
  in_range code rw = true <-> rw_offset rw <= code < rw_end rw.
Proof.
  intros Hfit Hl. destruct (matchProtocols_range _ _ _ _ Hfit Hl) as (_ & _ & _ & _ & Hb & H0 & He).
  unfold in_range, rw_end, baseProtocolLength in *.
  rewrite u64_small by lia. rewrite andb_true_iff, Z.leb_le, Z.ltb_lt. done.
Qed.

Lemma find_unique {A} (f : A -> bool) l x :
  x ∈ l -> f x = true -> (forall y, y ∈ l -> f y = true -> y = x) -> List.find f l = Some x.
Proof.
  intros Hin Hx Hu. destruct (List.find f l) as [y|] eqn:E.
  - apply List.find_some in E as [Hy Hf]. f_equal. apply Hu; [by apply list_elem_of_In|done].
  - rewrite (List.find_none _ _ E x) in Hx; [done|by apply list_elem_of_In].
Qed.

(** Whatever the order of the iteration, a code leads to the protocol it belongs to. *)
Lemma getProto_unique ps caps order name rw code :
  lengths_fit ps -> order ≡ₚ map_to_list (matchProtocols ps caps) ->
  matchProtocols ps caps !! name = Some rw -> rw_offset rw <= code < rw_end rw ->
  getProto order code = Some (name, rw).
Proof.
  intros Hfit Ho Hl Hc. apply find_unique.
  - rewrite Ho. by apply elem_of_map_to_list.
  - by apply (in_range_iff ps caps name).
  - intros [n' rw'] Hin Hr. rewrite Ho in Hin. apply elem_of_map_to_list in Hin.
    apply (in_range_iff ps caps n') in Hr; [|done..].
    destruct (decide (n' = name)) as [->|Hne]; [congruence|].
    destruct (matchProtocols_disjoint _ _ _ _ _ _ Hfit Hin Hl Hne); lia.
Qed.

Lemma WriteMsg_ReadMsg ps caps name rw m :
  lengths_fit ps -> matchProtocols ps caps !! name = Some rw ->
  0 <= Code m < pr_Length (rw_proto rw) ->
  protoRW_WriteMsg rw m = Ret (mk_msg (Code m + rw_offset rw) (MsgSize m) (Payload m)) /\
  protoRW_ReadMsg rw (mk_msg (Code m + rw_offset rw) (MsgSize m) (Payload m)) = m.
Proof.
  intros Hfit Hl Hm. destruct (matchProtocols_range _ _ _ _ Hfit Hl) as (_ & _ & _ & _ & Hb & H0 & He).
  unfold rw_end, baseProtocolLength, protoRW_WriteMsg, protoRW_ReadMsg in *. cbn.
  destruct (Z.leb_spec (pr_Length (rw_proto rw)) (Code m)); [lia|].
  rewrite u64_small by lia. rewrite Z.add_simpl_r, u64_small by lia. by destruct m.
Qed.

(** What [handle] does with a code that is neither a ping nor a disconnect. *)
Lemma handle_delivers ps caps order name rw m :
  lengths_fit ps -> order ≡ₚ map_to_list (matchProtocols ps caps) ->
  matchProtocols ps caps !! name = Some rw -> rw_offset rw <= Code m < rw_end rw ->
  Code m <> pingMsg -> Code m <> discMsg -> handle order m = Ret (Deliver name rw m).
Proof.
  intros Hfit Ho Hl Hc Hp Hd. destruct (matchProtocols_range _ _ _ _ Hfit Hl) as (_ & _ & _ & _ & Hb & _).
  unfold handle.
  destruct (Z.eqb_spec (Code m) pingMsg); [done|]. destruct (Z.eqb_spec (Code m) discMsg); [done|].
  destruct (Z.ltb_spec (Code m) baseProtocolLength); [lia|].
  by rewrite (getProto_unique ps caps order name rw).
Qed.

(** The protocols that run on a connection: under each name the highest version that both sides
    offer, with a range of message codes above the base protocol that overlaps no other range and
    does not overflow. *)
Theorem matchProtocols_correct ps caps name rw :
  lengths_fit ps -> matchProtocols ps caps !! name = Some rw ->
  (pr_Name (rw_proto rw) = name /\ rw_proto rw ∈ ps /\ proto_cap (rw_proto rw) ∈ caps /\
   forall p, p ∈ ps -> proto_cap p ∈ caps -> pr_Name p = name -> pr_Version p <= pr_Version (rw_proto rw)) /\
  baseProtocolLength <= rw_offset rw /\ rw_end rw < 2 ^ 64 /\
  forall name' rw', matchProtocols ps caps !! name' = Some rw' -> name <> name' ->
    rw_end rw <= rw_offset rw' \/ rw_end rw' <= rw_offset rw.
Proof.
  intros Hfit Hl. pose proof (matchProtocols_range _ _ _ _ Hfit Hl) as (? & ? & ? & ? & ? & ? & ?).
  repeat split; auto. intros; eauto using matchProtocols_disjoint.
Qed.

Definition shh5 : Protocol := mk_proto "shh" 5 64.
Definition shh6 : Protocol := mk_proto "shh" 6 128.
Definition strm : Protocol := mk_proto "storeman" 10 22.

Lemma matchProtocols_correct_witness :
  matchProtocols [shh5; shh6; strm] [mk_cap "storeman" 10; mk_cap "shh" 6; mk_cap "shh" 5] !! "storeman"
  = Some (mk_protoRW strm 144) /\
  forall name' rw',
    matchProtocols [shh5; shh6; strm] [mk_cap "storeman" 10; mk_cap "shh" 6; mk_cap "shh" 5] !! name' = Some rw' ->
    "storeman" <> name' -> 166 <= rw_offset rw' \/ rw_end rw' <= 144.
Proof.
  assert (E : matchProtocols [shh5; shh6; strm] [mk_cap "storeman" 10; mk_cap "shh" 6; mk_cap "shh" 5]
              !! "storeman" = Some (mk_protoRW strm 144)) by (vm_compute; reflexivity).
  split; [exact E|].
  apply (matchProtocols_correct [shh5; shh6; strm] _ "storeman" (mk_protoRW strm 144)); [|exact E].
  split; [repeat constructor; cbn; lia|vm_compute; reflexivity].
Defined.

(** Two nodes that offer their protocols to each other run the same ones with the same codes: a
    message that a protocol writes on one side reaches the protocol of that name on the other
    side with the code it was written with, unless its code on the wire is the one
    of a ping or of a disconnect. *)
Theorem message_routing PA PB name rw m order :
  NoDup (proto_cap <$> PA) -> NoDup (proto_cap <$> PB) -> lengths_agree PA PB -> lengths_fit PB ->
  matchProtocols PA (proto_cap <$> PB) !! name = Some rw -> 0 <= Code m < pr_Length (rw_proto rw) ->
  Code m + rw_offset rw <> pingMsg -> Code m + rw_offset rw <> discMsg ->
  order ≡ₚ map_to_list (matchProtocols PB (proto_cap <$> PA)) ->
  exists w, protoRW_WriteMsg rw m = Ret w /\ handle order w = Ret (Deliver name rw w) /\
            protoRW_ReadMsg rw w = m.
Proof.
  intros HA HB Hag Hfit Hl Hm Hp Hd Ho. rewrite matchProtocols_agree in Hl by done.
  destruct (WriteMsg_ReadMsg _ _ _ _ m Hfit Hl Hm) as [Hw Hr].
  eexists; split; [exact Hw|]; split; [|exact Hr].
  apply (handle_delivers PB (proto_cap <$> PA)); auto. unfold rw_end; cbn. lia.
Qed.

Lemma message_routing_witness :
  exists w, protoRW_WriteMsg (mk_protoRW strm 144) (mk_msg 18 2 [Byte.xc1; Byte.x80]) = Ret w /\
    handle [("shh", mk_protoRW shh6 16); ("storeman", mk_protoRW strm 144)] w
    = Ret (Deliver "storeman" (mk_protoRW strm 144) w) /\
    protoRW_ReadMsg (mk_protoRW strm 144) w = mk_msg 18 2 [Byte.xc1; Byte.x80].
Proof.
  apply (message_routing [strm; shh6] [shh5; shh6; strm]); try (vm_compute; reflexivity).
  - apply (bool_decide_unpack _). vm_compute. exact I.
  - apply (bool_decide_unpack _). vm_compute. exact I.
  - intros p q Hp Hq. cbv in Hp, Hq. revert Hp Hq. unfold strm, shh5, shh6. set_solver.
  - split; [repeat constructor; cbn; lia|vm_compute; reflexivity].
  - cbn; lia.
  - discriminate.
  - discriminate.
  - assert (E : map_to_list (matchProtocols [shh5; shh6; strm] (proto_cap <$> [strm; shh6]))
                = [("storeman", mk_protoRW strm 144); ("shh", mk_protoRW shh6 16)])
      by (vm_compute; reflexivity).
    rewrite E. apply perm_swap.
Defined.

(** The codes of the base protocol lie above [baseProtocolLength], in the range of the first
    protocol: its message 1 is taken for a disconnect and its message 2 for a ping, and a pong
    of the base protocol reaches it as its message 3. *)
Theorem base_codes_collide ps caps name rw order size payload :
  lengths_fit ps -> matchProtocols ps caps !! name = Some rw ->
  order ≡ₚ map_to_list (matchProtocols ps caps) ->
  rw_offset rw = baseProtocolLength -> 3 < pr_Length (rw_proto rw) ->
  (exists w, protoRW_WriteMsg rw (mk_msg 1 size payload) = Ret w /\
             handle order w = Ret (Disconnect (disc_reason payload))) /\
  (exists w, protoRW_WriteMsg rw (mk_msg 2 size payload) = Ret w /\ handle order w = Ret SendPong) /\
  (exists w, handle order (mk_msg pongMsg size payload) = Ret (Deliver name rw w) /\
             protoRW_ReadMsg rw w = mk_msg 3 size payload).
Proof.
  intros Hfit Hl Ho Hoff Hlen.
  assert (Hw : forall c, 0 <= c <= 3 ->
    protoRW_WriteMsg rw (mk_msg c size payload) = Ret (mk_msg (c + 16) size payload) /\
    protoRW_ReadMsg rw (mk_msg (c + 16) size payload) = mk_msg c size payload).
  { intros c Hc. pose proof (WriteMsg_ReadMsg _ _ _ _ (mk_msg c size payload) Hfit Hl) as Hwr.
    cbn in Hwr. rewrite Hoff in Hwr. apply Hwr. lia. }
  repeat split.
  - exists (mk_msg (1 + 16) size payload). split; [apply Hw; lia|reflexivity].
  - exists (mk_msg (2 + 16) size payload). split; [apply Hw; lia|reflexivity].
  - exists (mk_msg (3 + 16) size payload). split; [|apply Hw; lia].
    apply (handle_delivers ps caps); auto; unfold rw_end, baseProtocolLength, pongMsg in *; cbn; lia.
Qed.

Lemma base_codes_collide_witness :
  exists w, protoRW_WriteMsg (mk_protoRW shh6 16) (mk_msg 1 2 [Byte.xc1; Byte.x05]) = Ret w /\
    handle [("shh", mk_protoRW shh6 16)] w = Ret (Disconnect 5).
Proof.
  apply (base_codes_collide [shh6] [mk_cap "shh" 6] "shh" (mk_protoRW shh6 16)
           [("shh", mk_protoRW shh6 16)] 2 [Byte.xc1; Byte.x05]); try (vm_compute; reflexivity).
  split; [repeat constructor; cbn; lia|vm_compute; reflexivity].
Defined.

(** The text of a reason to disconnect: the bound of the table is checked with the wrong
    comparison and on a signed conversion, so the reasons 17 and 2^63 or more index outside of
    the table and panic, and the other side chooses the reason it sends. *)
Theorem unknown_reason_panics order d :
  0 <= d < 2 ^ 64 ->
  (DiscReason_String d = Panic <-> d = 17 \/ 2 ^ 63 <= d) /\
  handle order (mk_msg discMsg 2 [Byte.xc1; Byte.x11]) = Ret (Disconnect 17).
Proof.
  intros Hd. split; [|reflexivity]. unfold DiscReason_String, int_of.
  change (Z.of_nat (length discReasonToString)) with 17.
  destruct (Z.ltb_spec d (2 ^ 63)) as [Hs|Hs].
  - destruct (Z.ltb_spec 17 d) as [H17|H17]; [split; [discriminate|lia]|].
    destruct (decide (d = 17)) as [->|Hne]; [split; auto|].
    destruct (lookup_lt_is_Some_2 discReasonToString (Z.to_nat d)) as [s Es]; [cbn; lia|].
    rewrite (idx_Some _ _ _ Es). split; [discriminate|lia].
  - destruct (Z.ltb_spec 17 (d - 2 ^ 64)); [lia|].
    rewrite idx_Panic by (cbn; lia). split; auto.
Qed.

Lemma unknown_reason_panics_witness : DiscReason_String 17 = Panic.
Proof. apply (unknown_reason_panics [] 17); [lia|by left]. Defined.
