(* ===== verification/PeerLoop.v ===== *)
(** * The goroutines of a connection

    [Peer.run] of [src/p2p/peer.go] with the goroutines around it: [readLoop], [pingLoop], one for each
    protocol, and the calls of [protoRW.WriteMsg], which may come from anywhere.  They meet in buffered
    channels; a step of the relation is one channel operation or the end of one blocking call.

    The writers take turns with a token that goes from [writeStart] to a writer, through [writeErr]
    and back.  A goroutine that sends an error when it ends must find room in the channel, because
    [run] stops receiving before it waits for them. *)

From S2P Require Import Prelude Peer.

(** ** Errors *)

Inductive perr :=
| EReason (d : Z)        (* a DiscReason *)
| EReturned              (* errProtocolReturned *)
| EPeer                  (* a *peerError: errInvalidMsgCode or errInvalidMsg *)
| EOther.

Definition DiscNetworkError : Z := 1.
Definition DiscProtocolError : Z := 2.
Definition DiscQuitting : Z := 8.
Definition DiscSubprotocolError : Z := 16.

Definition discReasonForError (e : perr) : Z :=
  match e with
  | EReason r => r
  | EReturned => DiscQuitting
  | EPeer => DiscProtocolError
  | EOther => DiscSubprotocolError
  end.

(** ** State *)

(** A goroutine that runs, that is about to send its error, that has ended. *)
Inductive gstate := GRun | GSend (e : perr) | GDone.

(** A call of [WriteMsg]: at its select, in the write below, about to report the result. *)
Inductive wstate := WSelect | WWrite | WReport (e : option perr).

(** [run]: at its select, about to refill [writeStart], after the loop, in [wg.Wait], returned. *)
Inductive mstate :=
| MLoop
| MRefill
| MClose (remote : bool) (reason : Z) (e : perr)
| MWait (remote : bool) (e : perr)
| MDone (remote : bool) (e : perr).

Record peer := mk_peer {
  p_main : mstate;
  p_reader : gstate;
  p_ping : gstate;
  p_protos : list gstate;
  p_writers : list wstate;
  p_wstart : nat;                 (* capacity 1 *)
  p_werr : list (option perr);    (* capacity 1 *)
  p_readErr : list perr;          (* capacity 1 *)
  p_protoErr : list perr;         (* capacity: protocols + 1 *)
  p_closed : bool
}.

Definition set_main m p := mk_peer m (p_reader p) (p_ping p) (p_protos p) (p_writers p) (p_wstart p) (p_werr p)
  (p_readErr p) (p_protoErr p) (p_closed p).
Definition set_reader g errs p := mk_peer (p_main p) g (p_ping p) (p_protos p) (p_writers p) (p_wstart p) (p_werr p)
  errs (p_protoErr p) (p_closed p).
Definition set_ping g errs p := mk_peer (p_main p) (p_reader p) g (p_protos p) (p_writers p) (p_wstart p) (p_werr p)
  (p_readErr p) errs (p_closed p).
Definition set_protos gs errs p := mk_peer (p_main p) (p_reader p) (p_ping p) gs (p_writers p) (p_wstart p) (p_werr p)
  (p_readErr p) errs (p_closed p).
Definition set_writers ws n errs p := mk_peer (p_main p) (p_reader p) (p_ping p) (p_protos p) ws n errs
  (p_readErr p) (p_protoErr p) (p_closed p).
Definition set_chans n werr rerr perr p := mk_peer (p_main p) (p_reader p) (p_ping p) (p_protos p) (p_writers p) n werr
  rerr perr (p_closed p).
Definition set_closed p := mk_peer (p_main p) (p_reader p) (p_ping p) (p_protos p) (p_writers p) (p_wstart p) (p_werr p)
  (p_readErr p) (p_protoErr p) true.

(** [run] when its select starts, with [n] protocols. *)
Definition peer_start (n : nat) : peer :=
  mk_peer MLoop GRun GRun (replicate n GRun) [] 1 [] [] [] false.

Definition protoErr_cap (p : peer) : nat := S (length (p_protos p)).

(** ** Steps *)

(** Calls of [WriteMsg]. *)
Inductive write_step (p : peer) : peer -> Prop :=
| w_call : write_step p (set_writers (p_writers p ++ [WSelect]) (p_wstart p) (p_werr p) p)
| w_start i n : p_writers p !! i = Some WSelect -> p_wstart p = S n ->
    write_step p (set_writers (<[i := WWrite]> (p_writers p)) n (p_werr p) p)
| w_down i : p_writers p !! i = Some WSelect -> p_closed p = true ->
    write_step p (set_writers (delete i (p_writers p)) (p_wstart p) (p_werr p) p)
| w_done i e : p_writers p !! i = Some WWrite ->
    write_step p (set_writers (<[i := WReport e]> (p_writers p)) (p_wstart p) (p_werr p) p)
| w_report i e : p_writers p !! i = Some (WReport e) -> (length (p_werr p) < 1)%nat ->
    write_step p (set_writers (delete i (p_writers p)) (p_wstart p) (p_werr p ++ [e]) p).

(** [run] and the goroutines it waits for. *)
Inductive core_step (p : peer) : peer -> Prop :=
| r_fail e : p_reader p = GRun -> core_step p (set_reader (GSend e) (p_readErr p) p)
| r_send e : p_reader p = GSend e -> (length (p_readErr p) < 1)%nat ->
    core_step p (set_reader GDone (p_readErr p ++ [e]) p)
| g_fail e : p_ping p = GRun -> core_step p (set_ping (GSend e) (p_protoErr p) p)
| g_send e : p_ping p = GSend e -> (length (p_protoErr p) < protoErr_cap p)%nat ->
    core_step p (set_ping GDone (p_protoErr p ++ [e]) p)
| g_closed : p_ping p = GRun -> p_closed p = true -> core_step p (set_ping GDone (p_protoErr p) p)
| p_return i e : p_protos p !! i = Some GRun ->
    core_step p (set_protos (<[i := GSend e]> (p_protos p)) (p_protoErr p) p)
| p_send i e : p_protos p !! i = Some (GSend e) -> (length (p_protoErr p) < protoErr_cap p)%nat ->
    core_step p (set_protos (<[i := GDone]> (p_protos p)) (p_protoErr p ++ [e]) p)
| m_written l : p_main p = MLoop -> p_werr p = None :: l ->
    core_step p (set_main MRefill (set_chans (p_wstart p) l (p_readErr p) (p_protoErr p) p))
| m_refill : p_main p = MRefill -> (p_wstart p < 1)%nat ->
    core_step p (set_main MLoop (set_chans (S (p_wstart p)) (p_werr p) (p_readErr p) (p_protoErr p) p))
| m_werr e l : p_main p = MLoop -> p_werr p = Some e :: l ->
    core_step p (set_main (MClose false DiscNetworkError e)
                   (set_chans (p_wstart p) l (p_readErr p) (p_protoErr p) p))
| m_readErr e l : p_main p = MLoop -> p_readErr p = e :: l ->
    core_step p (set_main (match e with EReason r => MClose true r e | _ => MClose false DiscNetworkError e end)
                   (set_chans (p_wstart p) (p_werr p) l (p_protoErr p) p))
| m_protoErr e l : p_main p = MLoop -> p_protoErr p = e :: l ->
    core_step p (set_main (MClose false (discReasonForError e) e)
                   (set_chans (p_wstart p) (p_werr p) (p_readErr p) l p))
| m_disc d : p_main p = MLoop -> core_step p (set_main (MClose false d (EReason d)) p)
| m_close r d e : p_main p = MClose r d e -> core_step p (set_main (MWait r e) (set_closed p))
| m_wait r e : p_main p = MWait r e -> p_reader p = GDone -> p_ping p = GDone ->
    Forall (eq GDone) (p_protos p) -> core_step p (set_main (MDone r e) p).

Inductive reachable (n : nat) : peer -> Prop :=
| reach_start : reachable n (peer_start n)
| reach_write p p' : reachable n p -> write_step p p' -> reachable n p'
| reach_core p p' : reachable n p -> core_step p p' -> reachable n p'.

(** ** The invariant *)

(** Goroutines that may still send. *)
Definition running (g : gstate) : nat := match g with GDone => 0 | _ => 1 end.
Definition holds (w : wstate) : nat := match w with WSelect => 0 | _ => 1 end.
Definition refilling (m : mstate) : nat := match m with MRefill => 1 | _ => 0 end.

Definition tokens (p : peer) : nat :=
  p_wstart p + sum_list_with holds (p_writers p) + length (p_werr p) + refilling (p_main p).

Record peer_inv (p : peer) : Prop := {
  pi_tokens : (tokens p <= 1)%nat;
  pi_read : (length (p_readErr p) + running (p_reader p) <= 1)%nat;
  pi_proto : (length (p_protoErr p) + running (p_ping p) + sum_list_with running (p_protos p)
              <= protoErr_cap p)%nat
}.

Lemma sum_list_with_insert {A} (f : A -> nat) l i x y : l !! i = Some x ->
  (sum_list_with f (<[i := y]> l) + f x = sum_list_with f l + f y)%nat.
Proof.
  revert i; induction l as [|a l IH]; intros [|i] H; simplify_eq/=; [lia|].
  specialize (IH i H). lia.
Qed.

Lemma sum_list_with_delete {A} (f : A -> nat) l i x : l !! i = Some x ->
  (sum_list_with f (delete i l) + f x = sum_list_with f l)%nat.
Proof.
  revert i; induction l as [|a l IH]; intros [|i] H; simplify_eq/=; [lia|].
  specialize (IH i H). lia.
Qed.

Lemma peer_start_inv n : peer_inv (peer_start n).
Proof.
  assert (H : sum_list_with running (replicate n GRun) = n) by (induction n; cbn; auto).
  constructor; cbn; [lia|lia|]. rewrite H. unfold protoErr_cap; cbn. rewrite length_replicate. lia.
Qed.

Ltac peer_count :=
  repeat match goal with
  | H : ?l !! ?i = Some ?x |- context [sum_list_with ?f (<[?i := ?y]> ?l)] =>
      pose proof (sum_list_with_insert f l i x y H); revert H
  | H : ?l !! ?i = Some ?x |- context [sum_list_with ?f (delete ?i ?l)] =>
      pose proof (sum_list_with_delete f l i x H); revert H
  end; intros.

Lemma write_step_inv p p' : write_step p p' -> peer_inv p -> peer_inv p'.
Proof.
  intros H [Ht Hr Hp]. unfold tokens, protoErr_cap in *.
  destruct H; constructor; unfold tokens, protoErr_cap; cbn in *; try done; peer_count; cbn in *;
    rewrite ?sum_list_with_app, ?length_app; cbn; try lia.
Qed.

Lemma core_step_inv p p' : core_step p p' -> peer_inv p -> peer_inv p'.
Proof.
  intros H [Ht Hr Hp]. unfold tokens, protoErr_cap in *.
  destruct H; constructor; unfold tokens, protoErr_cap; cbn in *; try done; peer_count; simplify_eq/=;
    repeat match goal with
    | H : p_main p = _ |- _ => rewrite H in *
    | H : p_reader p = _ |- _ => rewrite H in *
    | H : p_ping p = _ |- _ => rewrite H in *
    | H : p_werr p = _ |- _ => rewrite H in *
    | H : p_readErr p = _ |- _ => rewrite H in *
    | H : p_protoErr p = _ |- _ => rewrite H in *
    end;
    rewrite ?length_app, ?length_insert; cbn in *; try lia; try (destruct e; cbn; lia).
Qed.

Lemma peer_reachable_inv n p : reachable n p -> peer_inv p.
Proof. induction 1; eauto using peer_start_inv, write_step_inv, core_step_inv. Qed.

(** [closed] is closed exactly when [run] waits for the goroutines or has returned. *)
Definition leaving (m : mstate) : bool := match m with MWait _ _ | MDone _ _ => true | _ => false end.

(** A waiting [run] returns when all the others are done, so they are after it has returned. *)
Definition all_done (p : peer) : Prop :=
  p_reader p = GDone /\ p_ping p = GDone /\ Forall (eq GDone) (p_protos p).

Record leave_inv (p : peer) : Prop := {
  li_closed : p_closed p = leaving (p_main p);
  li_done : forall r e, p_main p = MDone r e -> all_done p
}.

Lemma insert_done i g l : Forall (eq GDone) l -> l !! i = Some g -> g = GDone.
Proof. intros H Hi. symmetry. eapply (Forall_lookup_1 _ _ _ _ H Hi). Qed.

Lemma reachable_leave n p : reachable n p -> leave_inv p.
Proof.
  induction 1 as [|p p' _ [Hc Hd] Hs|p p' _ [Hc Hd] Hs]; [by constructor|destruct Hs; by constructor|].
  destruct Hs; constructor; cbn in *; simplify_eq/=; try done;
    repeat match goal with H : p_main p = _ |- _ => rewrite H in * end; cbn in *; try done;
    try (by destruct e); try (intros r0 e0 Hm; specialize (Hd _ _ Hm) as (H1 & H2 & H3));
    try congruence; try done; by (eapply insert_done in H3; [|done]).
Qed.

(** C15: On a connection at most one message of the protocols is written at a time, although any goroutine may
    write, and no send of the goroutines ever finds its channel full: not the report of a write, not the
    refill of [writeStart], not the error with which the reader, the pinger or a protocol ends, even
    after [run] has stopped receiving. *)
Theorem sends_never_block n p : reachable n p ->
  (forall i j, p_writers p !! i = Some WWrite -> p_writers p !! j = Some WWrite -> i = j) /\
  (forall i e, p_writers p !! i = Some (WReport e) -> (length (p_werr p) < 1)%nat) /\
  (p_main p = MRefill -> (p_wstart p < 1)%nat) /\
  (forall e, p_reader p = GSend e -> (length (p_readErr p) < 1)%nat) /\
  (forall e, p_ping p = GSend e -> (length (p_protoErr p) < protoErr_cap p)%nat) /\
  (forall i e, p_protos p !! i = Some (GSend e) -> (length (p_protoErr p) < protoErr_cap p)%nat).
Proof.
  intros [Ht Hr Hp]%peer_reachable_inv. unfold tokens in Ht.
  split_and!.
  - intros i j Hi Hj. destruct (decide (i = j)) as [|Hne]; [done|exfalso].
    pose proof (sum_list_with_insert holds _ i WWrite WSelect Hi) as H1.
    pose proof (sum_list_with_insert holds (<[i := WSelect]> (p_writers p)) j WWrite WSelect) as H2.
    rewrite list_lookup_insert_ne in H2 by done. specialize (H2 Hj). cbn in *. lia.
  - intros i e Hi. pose proof (sum_list_with_insert holds _ i _ WSelect Hi). cbn in *. lia.
  - intros Hm. rewrite Hm in Ht. cbn in Ht. lia.
  - intros e He. rewrite He in Hr. cbn in Hr. lia.
  - intros e He. rewrite He in Hp. cbn in Hp. lia.
  - intros i e Hi. pose proof (sum_list_with_insert running _ i _ GDone Hi). cbn in *. lia.
Qed.

(** ** The end of a connection *)

(** Steps left to a goroutine, and to [run] in [wg.Wait] with the goroutines it waits for. *)
Definition work (g : gstate) : nat := match g with GRun => 2 | GSend _ => 1 | GDone => 0 end.
Definition main_work (m : mstate) : nat := match m with MDone _ _ => 0 | _ => 1 end.
Definition shutdown_work (p : peer) : nat :=
  main_work (p_main p) + work (p_reader p) + work (p_ping p) + sum_list_with work (p_protos p).

Lemma work_zero g : work g = 0%nat -> g = GDone.
Proof. by destruct g. Qed.

Lemma sum_work_zero l : sum_list_with work l = 0%nat -> Forall (eq GDone) l.
Proof.
  induction l as [|g l IH]; cbn; [constructor|]. intros H. constructor; [|apply IH; lia].
  symmetry. apply work_zero. lia.
Qed.

Lemma sum_work_pos l : sum_list_with work l <> 0%nat -> exists i g, l !! i = Some g /\ g <> GDone.
Proof.
  induction l as [|g l IH]; cbn; [done|]. intros H. destruct (decide (work g = 0%nat)) as [E|E].
  - destruct IH as (i & g' & Hi & Hg); [lia|]. by exists (S i), g'.
  - exists 0%nat, g. split; [done|]. by intros ->.
Qed.

Lemma core_step_work p p' : leave_inv p -> p_closed p = true -> core_step p p' ->
  (shutdown_work p' < shutdown_work p)%nat /\ p_closed p' = true.
Proof.
  intros [Hc _] Hcl Hs. rewrite Hcl in Hc. unfold shutdown_work.
  destruct Hs; cbn in *; try done; peer_count; simplify_eq/=;
    repeat match goal with
    | H : p_main p = _ |- _ => rewrite H in *
    | H : p_reader p = _ |- _ => rewrite H in *
    | H : p_ping p = _ |- _ => rewrite H in *
    end; cbn in *; try done; split; auto; lia.
Qed.

(** While there is work left, some goroutine can do it. *)
Lemma core_progress p : peer_inv p -> p_closed p = true -> leaving (p_main p) = true ->
  shutdown_work p <> 0%nat -> exists p', core_step p p'.
Proof.
  intros [_ Hr Hp] Hcl Hm Hw. unfold shutdown_work in Hw.
  destruct (p_reader p) as [|e|] eqn:Er; [eexists; by apply (r_fail _ EOther)| |].
  { eexists. apply (r_send _ e); [done|]. cbn in Hr. lia. }
  destruct (p_ping p) as [|e|] eqn:Eg; [eexists; by apply g_closed| |].
  { eexists. apply (g_send _ e); [done|]. cbn in Hp. lia. }
  destruct (decide (sum_list_with work (p_protos p) = 0%nat)) as [E|(i & g & Hi & Hg)%sum_work_pos].
  - apply sum_work_zero in E. destruct (p_main p) eqn:Em; try done; [eexists; by eapply m_wait|].
    exfalso. cbn in Hw. clear -E Hw. induction E as [|g l <- _ IH]; cbn in *; lia.
  - destruct g as [|e|]; [eexists; by apply (p_return _ i EOther)| |done].
    eexists. apply (p_send _ i e); [done|].
    pose proof (sum_list_with_insert running _ i _ GDone Hi). cbn in *. lia.
Qed.

(** C16: A connection that is being closed ends: once [closed] is closed, every step of [run] and of the goroutines
    it waits for reduces the work that is left, writers do not add to it, there is always such a step
    until [run] returns, and it returns when nothing is left.  (Reads fail after the connection is
    closed and a protocol returns when its reads fail, which are the steps [r_fail] and
    [p_return].) *)
Theorem shutdown_terminates n p : reachable n p -> p_closed p = true ->
  (forall p', core_step p p' -> (shutdown_work p' < shutdown_work p)%nat /\ p_closed p' = true) /\
  (forall p', write_step p p' -> shutdown_work p' = shutdown_work p /\ p_closed p' = true) /\
  (shutdown_work p = 0%nat <-> exists r e, p_main p = MDone r e) /\
  (shutdown_work p <> 0%nat -> exists p', core_step p p').
Proof.
  intros Hreach Hcl. pose proof (reachable_leave n p Hreach) as Hl.
  split; [by intros p'; apply core_step_work|].
  split; [by intros p' []|]. destruct Hl as [Hc Hd]. rewrite Hcl in Hc.
  split; [|intros Hw; apply core_progress; eauto using peer_reachable_inv].
  unfold shutdown_work. split.
  - intros H. destruct (p_main p); try done; cbn in H; eauto; lia.
  - intros (r & e & Em). destruct (Hd r e Em) as (-> & -> & HF). rewrite Em. cbn.
    clear -HF. by induction HF as [|g l <- _ IH].
Qed.

(** ** Runs *)

(** A protocol writes a message, the reader fails, [run] closes and everything ends. *)
Definition demo_writing : peer :=
  mk_peer MLoop GRun GRun [GRun] [WWrite] 0 [] [] [] false.
Definition demo_closing : peer :=
  mk_peer (MWait true (EReason 4)) GDone GRun [GRun] [WWrite] 0 [] [] [] true.

Lemma demo_writing_reachable : reachable 1 demo_writing.
Proof.
  apply (reach_write 1 (mk_peer MLoop GRun GRun [GRun] [WSelect] 1 [] [] [] false)).
  - apply (reach_write 1 (peer_start 1)); [constructor|exact (w_call (peer_start 1))].
  - exact (w_start (mk_peer MLoop GRun GRun [GRun] [WSelect] 1 [] [] [] false) 0 0 eq_refl eq_refl).
Defined.

Lemma demo_closing_reachable : reachable 1 demo_closing.
Proof.
  eapply reach_core; [|exact (m_close (mk_peer (MClose true 4 (EReason 4)) GDone GRun [GRun] [WWrite] 0 [] [] [] false)
    true 4 (EReason 4) eq_refl)].
  eapply reach_core; [|exact (m_readErr (mk_peer MLoop GDone GRun [GRun] [WWrite] 0 [] [EReason 4] [] false)
    (EReason 4) [] eq_refl eq_refl)].
  eapply reach_core; [|exact (r_send (mk_peer MLoop (GSend (EReason 4)) GRun [GRun] [WWrite] 0 [] [] [] false)
    (EReason 4) eq_refl (le_n 1))].
  eapply reach_core; [|exact (r_fail demo_writing (EReason 4) eq_refl)].
  exact demo_writing_reachable.
Defined.

Definition demo_failing : peer :=
  mk_peer MLoop (GSend (EReason 4)) GRun [GRun] [WWrite] 0 [] [] [] false.

Lemma sends_never_block_witness : (length (p_readErr demo_failing) < 1)%nat.
Proof.
  apply (sends_never_block 1 demo_failing
    (reach_core 1 _ _ demo_writing_reachable (r_fail demo_writing (EReason 4) eq_refl))) with (EReason 4).
  reflexivity.
Defined.

Lemma shutdown_terminates_witness : exists p', core_step demo_closing p'.
Proof.
  destruct (shutdown_terminates 1 demo_closing demo_closing_reachable eq_refl) as (_ & _ & _ & H).
  apply H. discriminate.
Defined.
