(* ===== verification/Setup.v ===== *)
(** * Setting up a connection

    The protocol handshake of [src/p2p/rlpx.go] and the checks of [Server.setupConn]
    ([src/p2p/server.go]): after the encryption handshake both sides send each other the protocols they
    run, and compare the identifier in this message with the one proved by the encryption handshake. *)

From S2P Require Import Prelude BigInt Keccak Sha3 Rlp RlpStream RlpProofs RlpRoundTrip StdCrypto Curve Secp256k1 Ecies Signature Rlpx Handshake Peer.

(** ** The handshake message *)

Record protoHandshake := mk_phs {
  phs_Version : Z;
  phs_Name : string;
  phs_Caps : list Cap;
  phs_ListenPort : Z;
  phs_ID : bytes;
  phs_Rest : list bytes
}.

Definition baseProtocolVersion : Z := 50.
Definition baseProtocolMaxMsgSize : Z := 2 * 1024.
Definition snappyProtocolVersion : Z := 5.

Definition errTooBig : error := "message too big".
Definition errExpectedHandshake : error := "expected handshake".
Definition DiscInvalidIdentity : Z := 7.
Definition DiscUnexpectedIdentity : Z := 9.

Definition Cap_typ : typ := TStruct [mk_field true "" TString; mk_field true "" (TUint 64)].
Definition protoHandshake_typ : typ :=
  TStruct [mk_field true "" (TUint 64); mk_field true "" TString; mk_field true "" (TSlice Cap_typ);
           mk_field true "" (TUint 64); mk_field true "" (byte_array 64); mk_field true "tail" (TSlice TRaw)].

Definition Cap_val (c : Cap) : val :=
  VStruct [VString (String.list_byte_of_string (cap_Name c)); VUint (cap_Version c)].
Definition protoHandshake_val (h : protoHandshake) : val :=
  VStruct [VUint (phs_Version h); VString (String.list_byte_of_string (phs_Name h)); VSeq (Cap_val <$> phs_Caps h);
           VUint (phs_ListenPort h); VBytes (phs_ID h); VSeq (VRaw <$> phs_Rest h)].

Definition Cap_of (v : val) : option Cap :=
  match v with
  | VStruct [VString n; VUint v] => Some (mk_cap (String.string_of_list_byte n) v)
  | _ => None
  end.
Definition protoHandshake_of (v : val) : option protoHandshake :=
  match v with
  | VStruct [VUint ver; VString name; VSeq caps; VUint port; VBytes id; VSeq rest] =>
      caps ← mapM Cap_of caps;
      Some (mk_phs ver (String.string_of_list_byte name) caps port id (map raw_of rest))
  | _ => None
  end.

(** What [Server.Start] puts into [ourHandshake]. *)
Definition ourHandshake (name : string) (Protocols : list Protocol) (id : bytes) : protoHandshake :=
  mk_phs baseProtocolVersion name (proto_cap <$> Protocols) 0 id [].

(** ** The handshake *)

Section Setup.
Context `{HX : Xor} `{HS : Snappy}.

(** An error that is a [DiscReason] is on the left. *)
Definition readProtocolHandshake (rw : rlpxFrameRW) (conn : bytes) :
    outcome ((Z + protoHandshake) * bytes * rlpxFrameRW) :=
  '(msg, conn, rw) ← ReadMsg rw conn;
  if baseProtocolMaxMsgSize <? MsgSize msg then Err errTooBig
  else if Code msg =? discMsg then Ret (inl (disc_reason (Payload msg)), conn, rw)
  else if negb (Code msg =? handshakeMsg) then Err errExpectedHandshake
  else
    v ← Msg_Decode msg protoHandshake_typ;
    hs ← of_option (protoHandshake_of v);
    if decide (phs_ID hs = replicate 64 Byte.x00) then Ret (inl DiscInvalidIdentity, conn, rw)
    else Ret (inr hs, conn, rw).

(** The two halves of [doProtoHandshake], which run concurrently: the bytes written, and what is read
    from the connection, after which compression is switched on for a new enough peer. *)
Definition doProtoHandshake_send (rw : rlpxFrameRW) (our : protoHandshake) : outcome (bytes * rlpxFrameRW) :=
  Send rw handshakeMsg (TPtr protoHandshake_typ) (VPtr (protoHandshake_val our)).

Definition doProtoHandshake_recv (rw : rlpxFrameRW) (conn : bytes) :
    outcome ((Z + protoHandshake) * bytes * rlpxFrameRW) :=
  '(their, conn, rw) ← readProtocolHandshake rw conn;
  match their with
  | inl r => Ret (inl r, conn, rw)
  | inr hs => Ret (inr hs, conn, set_snappy (snappyProtocolVersion <=? phs_Version hs) rw)
  end.

(** The check of [setupConn] after the protocol handshake: [id] is what the encryption handshake proved. *)
Definition check_identity (id : bytes) (their : Z + protoHandshake) : Z + (list Cap * string) :=
  match their with
  | inl r => inl r
  | inr phs => if decide (phs_ID phs = id) then inr (phs_Caps phs, phs_Name phs) else inl DiscUnexpectedIdentity
  end.

(** Both sides of a connection: each has written before the other one reads. *)
Definition proto_handshakes (ourA ourB : protoHandshake) (c : connection) :
    outcome ((Z + protoHandshake) * (Z + protoHandshake) * connection) :=
  '(out1, one) ← doProtoHandshake_send (c_one c) ourA;
  '(out2, two) ← doProtoHandshake_send (c_two c) ourB;
  '(theirA, back, one) ← doProtoHandshake_recv one (c_back c ++ out2);
  '(theirB, there, two) ← doProtoHandshake_recv two (c_there c ++ out1);
  Ret (theirA, theirB, mk_conn one two there back).

End Setup.

(** ** Values that can be sent *)

(** A handshake of a node: in range, with an identifier, and within the size limit. *)
Definition phs_ok (h : protoHandshake) : Prop :=
  snappyProtocolVersion <= phs_Version h < 2 ^ 64 /\ Forall (fun c => 0 <= cap_Version c < 2 ^ 64) (phs_Caps h) /\
  0 <= phs_ListenPort h < 2 ^ 64 /\ length (phs_ID h) = 64%nat /\ phs_ID h <> replicate 64 Byte.x00 /\ phs_Rest h = [] /\
  exists b, rlp_encode (protoHandshake_val h) protoHandshake_typ no_tags = Ret b /\
    Z.of_nat (length b) <= baseProtocolMaxMsgSize.

Lemma uint64_encodable z : 0 <= z < 2 ^ 64 -> encodable (TUint 64) no_tags (VUint z).
Proof. intros H. apply enc_uint; [lia|]. by change (256 ^ (64 / 8)) with (2 ^ 64). Qed.

Lemma Cap_encodable c : 0 <= cap_Version c < 2 ^ 64 -> encodable Cap_typ no_tags (Cap_val c).
Proof.
  intros H. apply enc_struct. apply enc_fields_cons with no_tags; [done..|constructor|].
  apply enc_fields_cons with no_tags; [done..|by apply uint64_encodable|constructor].
Qed.

Lemma Caps_encodable cs : Forall (fun c => 0 <= cap_Version c < 2 ^ 64) cs ->
  encodable_all Cap_typ (Cap_val <$> cs).
Proof. induction 1; cbn; constructor; auto using Cap_encodable. Qed.

Lemma protoHandshake_encodable h : phs_ok h -> encodable protoHandshake_typ no_tags (protoHandshake_val h).
Proof.
  intros (Hv & Hc & Hp & Hid & _ & Hr & _). unfold snappyProtocolVersion in Hv. apply enc_struct. rewrite Hr.
  apply enc_fields_cons with no_tags; [done..|apply uint64_encodable; lia|].
  apply enc_fields_cons with no_tags; [done..|constructor|].
  apply enc_fields_cons with no_tags; [done..|apply enc_slice; [done..|by apply Caps_encodable]|].
  apply enc_fields_cons with no_tags; [done..|by apply uint64_encodable|].
  apply enc_fields_cons with no_tags; [done..|apply byte_array_encodable; [done|lia]|].
  apply enc_fields_cons with tail_tags; [done..|apply no_rest_encodable|constructor].
Qed.

Lemma Cap_of_val c : Cap_of (Cap_val c) = Some c.
Proof. unfold Cap_of, Cap_val. rewrite String.string_of_list_byte_of_string. by destruct c. Qed.

Lemma protoHandshake_of_val h : phs_Rest h = [] -> protoHandshake_of (protoHandshake_val h) = Some h.
Proof.
  intros Hr. unfold protoHandshake_of, protoHandshake_val.
  rewrite (mapM_fmap_inv Cap_val Cap_of _ Cap_of_val), Hr, String.string_of_list_byte_of_string.
  cbn [mbind option_bind fmap list_fmap map]. rewrite <- Hr. by destruct h.
Qed.

(** ** Both sides *)

Section Connect.
Context `{HX : Xor} `{HS : Snappy}.

(** The message of a handshake on the connection. *)
Definition phs_msg (b : bytes) : Msg := mk_msg handshakeMsg (Z.of_nat (length b)) b.

Lemma phs_send h b rw : phs_ok h -> rlp_encode (protoHandshake_val h) protoHandshake_typ no_tags = Ret b ->
  Z.of_nat (length b) <= baseProtocolMaxMsgSize ->
  doProtoHandshake_send rw h = WriteMsg rw (phs_msg b).
Proof.
  intros Hh Hb Hl. unfold baseProtocolMaxMsgSize in Hl. pose proof (protoHandshake_encodable h Hh) as He.
  destruct (encoded_payload (TPtr protoHandshake_typ) (VPtr (protoHandshake_val h)) b) as (r & E & Hr & Hs); [|done..|lia|].
  { apply (proj1 encodable_encodes _ _ _ He). }
  unfold doProtoHandshake_send, Send. by rewrite E, Ret_bind, Hr, Ret_bind, Hs.
Qed.

Lemma phs_recv h b rw conn rest rw' : phs_ok h ->
  rlp_encode (protoHandshake_val h) protoHandshake_typ no_tags = Ret b ->
  Z.of_nat (length b) <= baseProtocolMaxMsgSize ->
  ReadMsg rw conn = Ret (phs_msg b, rest, rw') ->
  doProtoHandshake_recv rw conn = Ret (inr h, rest, set_snappy true rw').
Proof.
  intros Hh Hb Hl E. pose proof (protoHandshake_encodable h Hh) as He.
  destruct Hh as (Hv & _ & _ & _ & Hid & Hrest & _).
  unfold doProtoHandshake_recv, readProtocolHandshake. rewrite E, Ret_bind. cbn [phs_msg MsgSize Code].
  destruct (Z.ltb_spec baseProtocolMaxMsgSize (Z.of_nat (length b))); [lia|].
  change (handshakeMsg =? discMsg) with false. change (handshakeMsg =? handshakeMsg) with true. cbn [negb].
  unfold Msg_Decode, phs_msg. cbn [Payload MsgSize].
  destruct (Stream_Decode_complete protoHandshake_typ (protoHandshake_val h) b [] true (Z.of_nat (length b)))
    as (s' & Es & _); [done..|unfold baseProtocolMaxMsgSize in Hl; lia|lia|].
  rewrite app_nil_r in Es. rewrite Es, Ret_bind, protoHandshake_of_val by done. cbn [of_option].
  rewrite Ret_bind, decide_False by done. rewrite Ret_bind.
  destruct (Z.leb_spec snappyProtocolVersion (phs_Version h)); [done|lia].
Qed.

Lemma phs_sendable b : Z.of_nat (length b) <= baseProtocolMaxMsgSize -> sendable false (phs_msg b).
Proof.
  intros Hl. unfold baseProtocolMaxMsgSize in Hl. split; [done|]. split; [done|].
  unfold phs_msg, maxUint24, wire_payload, wire_code, handshakeMsg. cbn [MsgSize Code Payload].
  split; [lia|]. rewrite length_app. change (length (rlp_string (Bytes 0x10))) with 1%nat. lia.
Qed.

Lemma set_snappy_carries block s s' c :
  carries block s c ([], []) ->
  carries block s' (mk_conn (set_snappy s' (c_one c)) (set_snappy s' (c_two c)) (c_there c) (c_back c)) ([], []).
Proof. intros ([H1 _] & [H2 _] & H3 & H4). done. Qed.

(** On a fresh connection both handshakes succeed, and the connection is ready for compressed messages. *)
Lemma proto_handshakes_ok `{!SnappyLaws} block hA hB c :
  block_ok block -> carries block false c ([], []) -> phs_ok hA -> phs_ok hB ->
  exists c', proto_handshakes hA hB c = Ret (inr hB, inr hA, c') /\ carries block true c' ([], []).
Proof.
  intros Hb ([H1b H1s] & [H2b H2s] & Hthere & Hback) HA HB. cbn [fst snd] in Hthere, Hback.
  pose proof HA as (_ & _ & _ & _ & _ & _ & bA & EA & LA). pose proof HB as (_ & _ & _ & _ & _ & _ & bB & EB & LB).
  destruct (send_pending _ _ _ _ _ _ (phs_msg bA) (c_one c) Hb (phs_sendable bA LA) eq_refl H1b H1s Hthere)
    as (out1 & w1 & W1 & P1).
  destruct (send_pending _ _ _ _ _ _ (phs_msg bB) (c_two c) Hb (phs_sendable bB LB) eq_refl H2b H2s Hback)
    as (out2 & w2 & W2 & P2).
  pose proof (receive_pending block false (set_egress (c_one c) w1.1 w1.2) _ _ _ H1b H1s P2)
    as (rest2 & rw1 & _ & R1 & B1 & S1 & G1 & Q1).
  pose proof (receive_pending block false (set_egress (c_two c) w2.1 w2.2) _ _ _ H2b H2s P1)
    as (rest1 & rw2 & _ & R2 & B2 & S2 & G2 & Q2).
  exists (mk_conn (set_snappy true rw1) (set_snappy true rw2) rest1 rest2). split.
  - unfold proto_handshakes. rewrite (phs_send hA bA), W1, Ret_bind by done.
    rewrite (phs_send hB bB), W2, Ret_bind by done.
    rewrite (phs_recv hB bB _ _ _ _ HB EB LB R1), Ret_bind. by rewrite (phs_recv hA bA _ _ _ _ HA EA LA R2).
  - apply (set_snappy_carries block false true (mk_conn rw1 rw2 rest1 rest2)).
    split; [done|]. split; [done|]. cbn [fst snd c_one c_two c_there c_back].
    rewrite G1, G2. destruct w1, w2. done.
Qed.

End Connect.
