(* ===== verification/Schnorr.v ===== *)
(** * Secret sharing and Schnorr signatures

    [src/storeman/shcnorrmpc/basicfunc.go]: random polynomials, their
    evaluation, Lagrange interpolation at zero on scalars and on curve points,
    and the signature share. *)

From S2P Require Import Prelude BigInt Curve FieldPoly.
From Stdlib Require Import Field Zmod.

(** ** crypto/rand

    The successive draws of the random source; [None] is a read failure.
    [rand.Int(rand.Reader, max)] returns a value of [[0, max)]. *)

Abbreviation reader := (list (option Z)).

Definition rand_error : error := "crypto/rand: read failed".

Definition RandInt (rd : reader) (max : Z) : outcome Z * reader :=
  if decide (max <= 0) then (Panic, rd) else
  match rd with
  | Some z :: rd' => (Ret (z mod max), rd')
  | None :: rd' => (Err rand_error, rd')
  | [] => (Err rand_error, [])
  end.

Lemma RandInt_range rd max z rd' : RandInt rd max = (Ret z, rd') -> 0 <= z < max.
Proof.
  unfold RandInt. case_decide; [done|]. destruct rd as [|[]]; intros; simplify_eq.
  apply Z.mod_pos_bound. lia.
Qed.

Section Basic.
Context {C : EllipticCurve}.
#[local] Abbreviation N := Params_N.

(** ** Polynomials *)

(** The loop of [RandPoly] for the coefficients [1 .. degree]: the error of
    [Rand.Int] is dropped, and a nil draw is dereferenced. *)
Fixpoint RandPoly_loop (cnt : nat) (rd : reader) : outcome (list Z) * reader :=
  match cnt with
  | O => (Ret [], rd)
  | S cnt' =>
      let '(temp, rd1) := RandInt rd N in
      match temp with
      | Ret t =>
          let '(rest, rd2) := RandPoly_loop cnt' rd1 in
          (match rest with Ret cs => Ret ((t + 1) :: cs) | Err e => Err e | Panic => Panic end, rd2)
      | _ => (Panic, rd1)
      end
  end.

Definition RandPoly (degree constant : Z) (rd : reader) : outcome (list Z) * reader :=
  if decide (degree + 1 <= 0) then (Panic, rd) else
  let '(rest, rd') := RandPoly_loop (Z.to_nat degree) rd in
  (match rest with
   | Ret cs => Ret (Mod constant N :: cs)
   | Err e => Err e
   | Panic => Panic
   end, rd').

Definition EvaluatePoly (f : list Z) (x degree : Z) : outcome Z :=
  for_range (upto (degree + 1))
    (fun i sum =>
       let temp1 := Exp x (Z.of_nat i) N in
       let temp1 := Mod temp1 N in
       fi ← idx f i;
       let temp2 := fi * temp1 in
       let temp2 := Mod temp2 N in
       let sum := sum + temp2 in
       Ret (Mod sum N)) 0.

(** ** Lagrange interpolation at zero *)

Definition evaluateb (x : list Z) (i : nat) (degree : Z) : outcome Z :=
  for_range (upto (degree + 1))
    (fun j sum =>
       if decide (j <> i) then
         xj ← idx x j;
         xi ← idx x i;
         let temp1 := xj - xi in
         let temp1 := ModInverse temp1 N in
         let temp2 := xj * temp1 in
         let sum := sum * temp2 in
         Ret (Mod sum N)
       else Ret sum) 1.

Definition evaluateB (x : list Z) (degree : Z) : outcome (list Z) :=
  if decide (degree + 1 < 0) then Panic else
  mapM_out (fun i => evaluateb x i degree) (upto (degree + 1)).

Definition Lagrange (f x : list Z) (degree : Z) : outcome Z :=
  b ← evaluateB x degree;
  for_range (upto (degree + 1))
    (fun i s =>
       fi ← idx f i;
       bi ← idx b i;
       let temp1 := fi * bi in
       let s := s + temp1 in
       Ret (Mod s N)) 0.

(** The accumulator starts at the first term because the point at infinity has
    no coordinates. *)
Definition LagrangeECC (sig : list point) (x : list Z) (degree : Z) : outcome point :=
  b ← evaluateB x degree;
  sig0 ← idx sig 0;
  b0 ← idx b 0;
  sum ← ScalarMult sig0 (Bytes b0);
  for_range (seq 1 (Z.to_nat degree))
    (fun i sum =>
       sigi ← idx sig i;
       bi ← idx b i;
       temp ← ScalarMult sigi (Bytes bi);
       Add sum temp) sum.

(** ** Signature share *)

Definition SchnorrSign (psk r m : Z) : Z :=
  let sum := psk * m in
  let sum := Mod sum N in
  let sum := sum + r in
  Mod sum N.

Definition ValidatePublicKey (k : option point) : bool :=
  match k with
  | Some (Some (x, y)) => negb (Sign x =? 0) && negb (Sign y =? 0)
  | _ => false
  end.

(** [UintRand]: [Uint64()] keeps the low 64 bits. *)
Definition UintRand (MaxValue : Z) (rd : reader) : outcome Z * reader :=
  let '(num, rd') := RandInt rd MaxValue in
  (match num with
   | Ret n => Ret (n mod 2 ^ 64)
   | Err e => Err e
   | Panic => Panic
   end, rd').

End Basic.

(** ** Refinement to field arithmetic *)

Section Refinement.
Context {C : EllipticCurve} (HN : Z.prime Params_N).
#[local] Abbreviation N := Params_N.
#[local] Abbreviation h := (Zmod.of_Z N).

Add Field FN : (Zmod.field_theory N HN).

Definition hpoly (f : list Z) : list (Zmod N) := map (Zmod.of_Z N) f.

(** Value of the polynomial at [x], modulo [N]. *)
Definition poly_at (f : list Z) (x : Z) : Z := Zmod.to_Z (peval N (hpoly f) (h x)).

Lemma N_ge_2 : 2 <= N.
Proof. by apply Z.prime_ge_2. Qed.

Lemma h_Mod z : h (Mod z N) = h z.
Proof. apply Zmod.of_Z_mod. Qed.

Lemma h_ModInverse g : h (ModInverse g N) = Zmod.inv (h g).
Proof. apply of_Z_ModInverse. Qed.

Lemma h_inj a b : 0 <= a < N -> 0 <= b < N -> h a = h b -> a = b.
Proof. intros Ha Hb E. apply Zmod.of_Z_inj in E. by rewrite !Z.mod_small in E. Qed.

Lemma poly_at_range f x : 0 <= poly_at f x < N.
Proof. pose proof N_ge_2. apply Zmod.unsigned_pos_bound. lia. Qed.

Lemma h_poly_at f x : h (poly_at f x) = peval N (hpoly f) (h x).
Proof. apply Zmod.of_Z_to_Z. Qed.

Definition eval_step (f : list Z) (x : Z) (sum : Z) (i : nat) : Z :=
  Mod (sum + Mod (default 0 (f !! i) * Mod (Exp x (Z.of_nat i) N) N) N) N.

Lemma eval_fold f x : forall i sum,
  (i <= length f)%nat ->
  h (foldl (eval_step f x) sum (seq i (length f - i)))
  = Zmod.add (h sum) (Zmod.mul (h (x ^ Z.of_nat i)) (peval N (hpoly (drop i f)) (h x))).
Proof.
  intros i. remember (length f - i)%nat as c eqn:Hc. revert i Hc.
  induction c as [|c IH]; intros i Hc sum Hi.
  - rewrite drop_ge by lia. cbn. ring.
  - cbn [seq foldl]. rewrite IH by lia.
    destruct (f !! i) as [fi|] eqn:Ei; [|apply lookup_ge_None in Ei; lia].
    rewrite (drop_S f fi i Ei). unfold eval_step at 1. rewrite Ei. cbn [default from_option id hpoly map peval].
    fold (hpoly (drop (S i) f)). pose proof N_ge_2.
    rewrite h_Mod, Zmod.of_Z_add, h_Mod, Zmod.of_Z_mul, h_Mod, Exp_spec by lia.
    rewrite Zmod.of_Z_mod, Nat2Z.inj_succ, Z.pow_succ_r, Zmod.of_Z_mul by lia. ring.
Qed.

Lemma foldl_Mod_range (g : Z -> nat -> Z) l s :
  0 <= s < N -> (forall s i, 0 <= s < N -> 0 <= g s i < N) -> 0 <= foldl g s l < N.
Proof. revert s. induction l as [|i l IH]; intros s Hs H; cbn; [done|]. apply IH; auto. Qed.

(** [EvaluatePoly] computes the polynomial, for any number of coefficients. *)
Lemma EvaluatePoly_spec f x degree :
  Z.of_nat (length f) = degree + 1 -> EvaluatePoly f x degree = Ret (poly_at f x).
Proof.
  intros Hl. pose proof N_ge_2. unfold EvaluatePoly.
  rewrite (for_range_Ret _ _ (eval_step f x)).
  - f_equal. apply h_inj; [|apply poly_at_range|].
    + apply foldl_Mod_range; [lia|]. intros. apply Mod_range. lia.
    + rewrite h_poly_at. unfold upto. rewrite <- Hl, Nat2Z.id.
      pose proof (eval_fold f x 0 0 ltac:(lia)) as E. rewrite Nat.sub_0_r in E. rewrite E.
      rewrite drop_0, Zmod.of_Z_0, Z.pow_0_r, Zmod.of_Z_1. ring.
  - intros i s Hi%elem_of_upto. destruct (f !! i) as [fi|] eqn:Ei.
    + rewrite (idx_Some _ _ _ Ei). unfold eval_step. by rewrite Ei.
    + apply lookup_ge_None in Ei. lia.
Qed.

(** *** Interpolation *)

(** The first [k] abscissas are there and pairwise distinct modulo [N]. *)
Definition distinct_mod (x : list Z) (k : nat) : Prop :=
  (k <= length x)%nat /\
  forall i j xi xj, (i < k)%nat -> (j < k)%nat -> x !! i = Some xi -> x !! j = Some xj ->
    xi mod N = xj mod N -> i = j.

Definition at_ (x : list Z) (j : nat) : Z := default 0 (x !! j).

Lemma at_lookup x j : (j < length x)%nat -> x !! j = Some (at_ x j).
Proof.
  intros H. destruct (lookup_lt_is_Some_2 x j H) as [v E]. unfold at_. by rewrite E.
Qed.

Lemma distinct_mod_inj x k :
  distinct_mod x k -> forall i j, (i < k)%nat -> (j < k)%nat ->
  h (at_ x i) = h (at_ x j) -> i = j.
Proof.
  intros [Hk Hd] i j Hi Hj E. apply Zmod.of_Z_inj in E.
  eapply Hd; eauto using at_lookup with lia.
Qed.

Definition weight_step (x : list Z) (i : nat) (sum : Z) (j : nat) : Z :=
  if decide (j <> i)
  then Mod (sum * (at_ x j * ModInverse (at_ x j - at_ x i) N)) N else sum.

Lemma weight_fold x i l s :
  h (foldl (weight_step x i) s l)
  = Zmod.mul (h s) (fprod N (fun j => Zmod.mul (h (at_ x j))
      (Zmod.mdiv Zmod.one (Zmod.sub (h (at_ x j)) (h (at_ x i))))) (filter (fun j => j <> i) l)).
Proof.
  revert s. induction l as [|j l IH]; intros s; [cbn; ring|]. cbn [foldl].
  rewrite IH. unfold weight_step at 1. destruct (decide (j <> i)) as [Hj|Hj].
  - rewrite filter_cons_True by done. rewrite fprod_cons, h_Mod.
    rewrite !Zmod.of_Z_mul, h_ModInverse, Zmod.of_Z_sub. unfold Zmod.mdiv. ring.
  - by rewrite filter_cons_False.
Qed.

Definition weight (x : list Z) (k i : nat) : Z := foldl (weight_step x i) 1 (seq 0 k).

Lemma weight_range x k i : 0 <= weight x k i < N.
Proof.
  pose proof N_ge_2. apply foldl_Mod_range; [lia|]. intros s j Hs. unfold weight_step.
  case_decide; [|done]. apply Mod_range. lia.
Qed.

Lemma h_weight x k i : h (weight x k i) = lag_weight N k (fun j => h (at_ x j)) i.
Proof. unfold weight. rewrite weight_fold, Zmod.of_Z_1. unfold lag_weight, others. ring. Qed.

Lemma evaluateb_eq x i degree :
  degree + 1 <= Z.of_nat (length x) -> Z.of_nat i < degree + 1 ->
  evaluateb x i degree = Ret (weight x (Z.to_nat (degree + 1)) i).
Proof.
  intros Hk Hi. unfold evaluateb, weight. apply for_range_Ret.
  intros j s Hj%elem_of_upto. unfold weight_step. case_decide; [|done].
  rewrite (idx_Some x j (at_ x j)), (idx_Some x i (at_ x i)) by (apply at_lookup; lia).
  done.
Qed.

Lemma evaluateB_eq x degree :
  0 <= degree + 1 <= Z.of_nat (length x) ->
  evaluateB x degree = Ret (map (weight x (Z.to_nat (degree + 1))) (upto (degree + 1))).
Proof.
  intros H. unfold evaluateB. rewrite decide_False by lia.
  apply mapM_out_map. intros i Hi%elem_of_upto. apply evaluateb_eq; lia.
Qed.

Lemma lookup_weights x k n i :
  (i < n)%nat -> map (weight x k) (seq 0 n) !! i = Some (weight x k i).
Proof. intros H. by rewrite list_lookup_fmap, lookup_seq_lt. Qed.

Definition lag_step (f x : list Z) (k : nat) (s : Z) (i : nat) : Z :=
  Mod (s + at_ f i * weight x k i) N.

Lemma lag_fold f x k l s :
  h (foldl (lag_step f x k) s l)
  = Zmod.add (h s) (fsum N (fun i => Zmod.mul (h (at_ f i)) (h (weight x k i))) l).
Proof.
  revert s. induction l as [|i l IH]; intros s; [cbn; ring|]. cbn [foldl].
  rewrite IH, fsum_cons. unfold lag_step at 1.
  rewrite h_Mod, Zmod.of_Z_add, Zmod.of_Z_mul. ring.
Qed.

(** Weighted sum the interpolation computes. *)
Definition lag_value (f x : list Z) (k : nat) : Z := foldl (lag_step f x k) 0 (seq 0 k).

Lemma Lagrange_eq f x degree :
  0 <= degree + 1 <= Z.of_nat (length x) -> degree + 1 <= Z.of_nat (length f) ->
  Lagrange f x degree = Ret (lag_value f x (Z.to_nat (degree + 1))).
Proof.
  intros Hx Hf. unfold Lagrange. rewrite evaluateB_eq by done. cbn [mbind outcome_bind].
  apply for_range_Ret. intros i s Hi%elem_of_upto. unfold lag_step.
  rewrite (idx_Some f i (at_ f i)) by (apply at_lookup; lia).
  unfold upto.
  by rewrite (idx_Some _ i _ (lookup_weights x (Z.to_nat (degree + 1))
    (Z.to_nat (degree + 1)) i ltac:(lia))).
Qed.

(** If the shares are the values of a polynomial with at most [k] coefficients
    at [k] distinct points, the weighted sum is its value at zero. *)
Lemma lag_value_poly p f x k :
  distinct_mod x k -> (length p <= k)%nat ->
  (forall i, (i < k)%nat -> at_ f i mod N = poly_at p (at_ x i)) ->
  lag_value f x k = poly_at p 0.
Proof.
  intros Hd Hp Hf. pose proof N_ge_2. apply h_inj; [|apply poly_at_range|].
  { apply foldl_Mod_range; [lia|]. intros. apply Mod_range. lia. }
  unfold lag_value. rewrite lag_fold, h_poly_at, Zmod.of_Z_0.
  rewrite <- (interpolate_zero N HN k (fun j => h (at_ x j)) (distinct_mod_inj x k Hd)
               (hpoly p)) by (unfold hpoly; by rewrite length_map).
  rewrite Zmod.add_0_l. apply fsum_ext. intros i Hi%elem_of_seq.
  cbn beta. rewrite h_weight, <- h_poly_at. rewrite <- (Hf i) by lia.
  by rewrite Zmod.of_Z_mod.
Qed.

Lemma poly_at_zero c p : poly_at (c :: p) 0 = c mod N.
Proof.
  pose proof N_ge_2. apply h_inj; [apply poly_at_range|apply Z.mod_pos_bound; lia|].
  rewrite h_poly_at, Zmod.of_Z_mod. cbn [hpoly map peval]. rewrite Zmod.of_Z_0. ring.
Qed.

Lemma fprod_nz f l :
  (forall i, i ∈ l -> f i <> Zmod.zero) -> fprod N f l <> Zmod.zero.
Proof.
  induction l as [|i l IH]; intros H.
  - apply (Field_theory.F_1_neq_0 (Zmod.field_theory N HN)).
  - rewrite fprod_cons. intros [E|E]%(Zmod.mul_0_iff_prime HN).
    + apply (H i); [set_solver|done].
    + apply IH; [|done]. set_solver.
Qed.

Lemma h_nz z : z mod N <> 0 -> h z <> Zmod.zero.
Proof. apply Zmod.of_Z_nz. Qed.

Lemma nz_h z : h z <> Zmod.zero -> z mod N <> 0.
Proof.
  intros H E. apply H. rewrite <- Zmod.of_Z_mod, E. apply Zmod.of_Z_0.
Qed.

Lemma mul_nz a b : a mod N <> 0 -> b mod N <> 0 -> (a * b) mod N <> 0.
Proof.
  intros Ha Hb. apply nz_h. rewrite Zmod.of_Z_mul.
  intros [E|E]%(Zmod.mul_0_iff_prime HN); [by apply (h_nz a)|by apply (h_nz b)].
Qed.

Lemma inv_nz (y : Zmod N) : y <> Zmod.zero -> Zmod.mdiv Zmod.one y <> Zmod.zero.
Proof.
  intros Hy. unfold Zmod.mdiv. rewrite Zmod.mul_1_l. by apply Zmod.inv_nz_prime.
Qed.

(** A weight is invertible when no abscissa is zero. *)
Lemma weight_nz x k i :
  distinct_mod x k -> (forall j, (j < k)%nat -> at_ x j mod N <> 0) -> (i < k)%nat ->
  0 < weight x k i.
Proof.
  intros Hd Hx Hi. enough (weight x k i mod N <> 0) as H.
  { pose proof (weight_range x k i). destruct (decide (weight x k i = 0)) as [E|]; [|lia].
    rewrite E, Z.mod_0_l in H; lia. }
  apply nz_h. rewrite h_weight. apply fprod_nz. intros j [Hji Hj]%elem_of_others.
  intros [E|E]%(Zmod.mul_0_iff_prime HN); [by apply (h_nz _ (Hx j Hj))|].
  revert E. apply inv_nz. intros E. apply Hji.
  apply (distinct_mod_inj x k Hd); [done..|].
  replace (h (at_ x j)) with (Zmod.add (Zmod.sub (h (at_ x j)) (h (at_ x i))) (h (at_ x i))) by ring.
  rewrite E. ring.
Qed.

End Refinement.

(** ** Interpolation in the exponent *)

Section Exponent.
Context {C : EllipticCurve} {G : CurveGroup C}.
#[local] Abbreviation N := Params_N.

(** Discrete logarithm of the accumulator after the terms [0 .. i]. *)
Definition partial (a x : list Z) (k i : nat) : Z :=
  foldl (fun s j => s + at_ a j * weight x k j) 0 (seq 0 (S i)).

(** No addition of the loop doubles a point or meets the point at infinity. *)
Definition ecc_generic (a x : list Z) (k : nat) : bool :=
  forallb (fun i =>
    negb (partial a x k (pred i) mod N =? 0) && negb (partial a x k i mod N =? 0) &&
    negb ((partial a x k (pred i) - at_ a i * weight x k i) mod N =? 0))
    (seq 1 (pred k)).

Lemma partial_S a x k i :
  partial a x k (S i) = partial a x k i + at_ a (S i) * weight x k (S i).
Proof. unfold partial. rewrite (seq_S (S i)), foldl_app. done. Qed.

Lemma partial_0 a x k : partial a x k 0 = at_ a 0 * weight x k 0.
Proof. done. Qed.

Lemma ScalarMult_small k w :
  k mod N <> 0 -> 0 < w < N ->
  ScalarMult (Some (mulG k)) (Bytes w) = Ret (Some (mulG (k * w))).
Proof.
  intros Hk Hw. pose proof N_bound.
  rewrite ScalarMult_mulG; [| |done|].
  - fold (SetBytes (Bytes w)). rewrite SetBytes_Bytes by lia. done.
  - rewrite length_Bytes. apply byte_len_le. lia.
  - fold (SetBytes (Bytes w)). rewrite SetBytes_Bytes; lia.
Qed.

Lemma partial_lag_value a x k :
  (0 < k)%nat -> partial a x k (pred k) mod N = lag_value a x k.
Proof.
  intros Hk. pose proof (N_ge_2 N_prime). unfold partial, lag_value.
  replace (S (pred k)) with k by lia.
  enough (forall l s, foldl (fun s j => s + at_ a j * weight x k j) s l mod N
                      = foldl (lag_step a x k) (s mod N) l) as H1.
  { by rewrite H1, Z.mod_0_l by lia. }
  induction l as [|i l IH]; intros s; [done|]. cbn [foldl]. rewrite IH. f_equal.
  unfold lag_step, Mod. by rewrite Zplus_mod_idemp_l.
Qed.

Lemma ecc_generic_at a x k i :
  ecc_generic a x k = true -> (0 < i < k)%nat ->
  partial a x k (pred i) mod N <> 0 /\ partial a x k i mod N <> 0 /\
  (partial a x k (pred i) - at_ a i * weight x k i) mod N <> 0.
Proof.
  unfold ecc_generic. rewrite forallb_forall. intros H Hi.
  specialize (H i ltac:(apply in_seq; lia)).
  rewrite !andb_true_iff, !negb_true_iff, !Z.eqb_neq in H. tauto.
Qed.

(** The loop keeps [mulG] of the partial sum in the accumulator. *)
Lemma LagrangeECC_mulG (sig : list point) (a x : list Z) degree :
  let k := Z.to_nat (degree + 1) in
  0 <= degree -> distinct_mod x k -> (k <= length a)%nat ->
  (forall j, (j < k)%nat -> at_ x j mod N <> 0) ->
  (forall j, (j < k)%nat -> at_ a j mod N <> 0 /\ sig !! j = Some (Some (mulG (at_ a j)))) ->
  ecc_generic a x k = true ->
  LagrangeECC sig x degree = Ret (Some (mulG (lag_value a x k))).
Proof.
  intros k Hdeg Hd Ha Hx Hsig Hgen. pose proof (N_ge_2 N_prime) as HN2.
  assert (Hlen : (k <= length x)%nat) by apply Hd.
  unfold LagrangeECC. rewrite evaluateB_eq by lia. cbn [mbind outcome_bind].
  fold k. unfold upto. fold k.
  assert (forall i, (i < k)%nat -> idx sig i = Ret (Some (mulG (at_ a i)))) as Hs
    by (intros i Hi; apply idx_Some, Hsig; done).
  assert (forall i, (i < k)%nat -> idx (map (weight x k) (seq 0 k)) i = Ret (weight x k i)) as Hw
    by (intros i Hi; apply idx_Some, lookup_weights; done).
  assert (forall i, (i < k)%nat ->
    ScalarMult (Some (mulG (at_ a i))) (Bytes (weight x k i))
    = Ret (Some (mulG (at_ a i * weight x k i)))) as Hm.
  { intros i Hi. apply ScalarMult_small; [by apply Hsig|].
    split; [by apply (weight_nz N_prime)|by apply (weight_range N_prime)]. }
  rewrite Hs, Hw by lia. cbn [mbind outcome_bind]. rewrite Hm by lia.
  replace (Z.to_nat degree) with (pred k) by lia.
  destruct (for_range_inv
    (fun pre s => s = Some (mulG (partial a x k (length pre))))
    (seq 1 (pred k))
    (fun i sum => sigi ← idx sig i; bi ← idx (map (weight x k) (seq 0 k)) i;
                  temp ← ScalarMult sigi (Bytes bi); Add sum temp)
    (Some (mulG (at_ a 0 * weight x k 0)))) as (s' & E & Es).
  - by rewrite partial_0.
  - intros pre i suf s Hl ->.
    assert (Hi : i = S (length pre) /\ (i < k)%nat).
    { pose proof (f_equal (lookup (length pre)) Hl) as El.
      rewrite list_lookup_middle in El by done.
      apply lookup_seq in El. lia. }
    destruct Hi as [-> Hi]. rewrite Hs, Hw by done. cbn [mbind outcome_bind].
    rewrite Hm by done. cbn [mbind outcome_bind]. eexists.
    destruct (ecc_generic_at a x k (S (length pre)) Hgen ltac:(lia)) as (G1 & G2 & G3).
    rewrite length_app, Nat.add_1_r, partial_S. cbn [pred] in G1, G3. rewrite partial_S in G2.
    rewrite Add_mulG; [done|done| |done|done].
    pose proof (weight_nz N_prime x k _ Hd Hx Hi). pose proof (weight_range N_prime x k (S (length pre))).
    apply (mul_nz N_prime); [by apply Hsig|]. rewrite Z.mod_small; lia.
  - etransitivity; [exact E|]. rewrite Es, length_seq. do 2 f_equal. rewrite <- mulG_mod.
    rewrite partial_lag_value by lia. done.
Qed.

End Exponent.
