(* ===== verification/Protocol.v ===== *)
(** * Protocol data

    [src/storeman/storemanmpc/protocol]: message codes, error sentinels, keys of
    the result store, message and peer records, the order of the storeman
    group; and [src/storeman/storemanmpc/mpc_result.go], the store the steps of
    a context share. *)

From S2P Require Import Prelude BigInt.

(** ** Tunable globals ([protocol.go], package variables set by [storeman.New]) *)

Record ProtocolVars := {
  MpcSchnrThr : Z;
  MPCDegree : Z;
  MpcSchnrNodeNumber : Z
}.

Definition DefaultVars : ProtocolVars :=
  {| MpcSchnrThr := 26; MPCDegree := 26 - 1; MpcSchnrNodeNumber := 50 |}.

(** ** Context types *)

Definition MpcGPKLeader : Z := 0.
Definition MpcGPKPeer : Z := 1.
Definition MpcSignLeader : Z := 2.
Definition MpcSignPeer : Z := 3.

(** ** Message codes *)

Definition StatusCode : Z := 10.
Definition KeepaliveCode : Z := 11.
Definition KeepaliveOkCode : Z := 12.
Definition MPCError : Z := 13.
Definition RequestMPC : Z := 14.
Definition MPCMessage : Z := 15.
Definition RequestMPCNonce : Z := 16.
Definition KeepaliveCycle : Z := 17.
Definition CheckAllPeerConnected : Z := 18.
Definition BuildStoremanGroup : Z := 19.
Definition AllPeersInfo : Z := 20.
Definition GetPeersInfo : Z := 21.
Definition NumberOfMessageCodes : Z := 22.
Definition PName : string := "storeman".
Definition PVer : Z := 10.
Definition PVerStr : string := "1.1".

(** ** Keys of the result store and of the approval database *)

Definition MpcPrivateShare : string := "MpcPrivateShare".
Definition RMpcPrivateShare : string := "RMpcPrivateShare".
Definition MpcPublicShare : string := "MpcPublicShare".
Definition RMpcPublicShare : string := "RMpcPublicShare".
Definition MpcContextResult : string := "MpcContextResult".
Definition PublicKeyResult : string := "PublicKeyResult".
Definition RPublicKeyResult : string := "RPublicKeyResult".
Definition MpcM : string := "MpcM".
Definition MpcS : string := "MpcS".
Definition MpcExt : string := "MpcExtern".
Definition MpcByApprove : string := "MpcByApprove".
Definition MpcTxHash : string := "MpcTxHash".
Definition MpcAddress : string := "MpcAddress".
Definition MPCAction : string := "MPCAction".
Definition MpcApproving : string := "MpcApproving".
Definition MpcApproved : string := "MpcApproved".
Definition MpcApprovingKeys : string := "MpcApprovingKeys".

(** ** Error sentinels ([error.go]) *)

Definition ErrQuit : error := "quit".
Definition ErrMpcResultExist : error := "mpc Result is not exist".
Definition ErrContextType : error := "err Context Type is error".
Definition ErrTimeOut : error := "mpc Request is TimeOut".
Definition ErrPointZero : error := "mpc Point is zero".
Definition ErrMpcSeedOutRange : error := "mpc seeds are out range".
Definition ErrMpcSeedDuplicate : error := "mpc seeds have duplicate".
Definition ErrTooLessStoreman : error := "mpc alive Storeman is not enough".
Definition ErrFailedDataVerify : error := "mpc signing data validate failed".
Definition ErrFailedAddApproving : error := "mpc add approving data failed".
Definition ErrMpcContextExist : error := "mpc Context ID is already exist".
Definition ErrInvalidMPCAddr : error := "invalid mpc account address".
Definition ErrInvalidMPCR : error := "invalid signed data(R)".
Definition ErrInvalidMPCS : error := "invalid signed data(S)".
Definition ErrVerifyFailed : error := "verify failed".
Definition ErrGetDb : error := "get database failed".
Definition ErrWaitApproved : error := "wait for being approved failed".
Definition ErrGetApproved : error := "get being approved failed".
Definition ErrMarshal : error := "marshal data failed".
Definition ErrApprovedNotConsistent : error := "not equal,received  data and approved data in DB".
Definition ErrTooLessDataCollected : error := "not enough data collected".

(** ** Peers and messages *)

(** [discover.NodeID]: 64 bytes. *)
Abbreviation NodeID := bytes.

Record PeerInfo := { PeerID : NodeID; Seed : Z }.

#[global] Instance PeerInfo_eq_dec : EqDecision PeerInfo.
Proof. solve_decision. Defined.

(** [StepMessage]; nil pointers are [None]. *)
Record StepMessage := {
  sm_MsgCode : Z;
  sm_PeerID : option NodeID;
  sm_Peers : option (list PeerInfo);
  sm_Data : list Z;
  sm_BytesData : list bytes;
  sm_StepId : Z
}.

Record MpcMessage := {
  mm_ContextID : Z;
  mm_StepID : Z;
  mm_Peers : bytes;
  mm_Data : list Z;
  mm_BytesData : list bytes
}.

Record SendData := { sd_PKBytes : bytes; sd_Data : bytes; sd_Extern : bytes }.

#[global] Instance SendData_eq_dec : EqDecision SendData.
Proof. solve_decision. Defined.

Record SignedResult := { sr_R : bytes; sr_S : bytes }.

(** ** Order of the storeman group ([SliceStoremanGroup])

    [bytes.Compare] is lexicographic. *)

Fixpoint bytes_Compare (a b : bytes) : Z :=
  match a, b with
  | [], [] => 0
  | [], _ => -1
  | _, [] => 1
  | x :: a', y :: b' => if ub x <? ub y then -1 else if ub y <? ub x then 1 else bytes_Compare a' b'
  end.

Definition SliceStoremanGroup_Len (s : list NodeID) : nat := length s.

(** [s[i], s[j] = s[j], s[i]]. *)
Definition SliceStoremanGroup_Swap (s : list NodeID) (i j : nat) : outcome (list NodeID) :=
  a ← idx s i; b ← idx s j; Ret (<[j := a]> (<[i := b]> s)).

Definition SliceStoremanGroup_Less (s : list NodeID) (i j : nat) : outcome bool :=
  a ← idx s i; b ← idx s j; Ret (bytes_Compare a b <? 0).

Definition NodeID_le (a b : NodeID) : Prop := bytes_Compare a b <= 0.

#[global] Instance NodeID_le_dec : RelDecision NodeID_le.
Proof. intros a b. unfold NodeID_le. apply _. Defined.

Lemma bytes_Compare_refl a : bytes_Compare a a = 0.
Proof. induction a as [|x a IH]; [done|]. cbn. by rewrite Z.ltb_irrefl. Qed.

Lemma bytes_Compare_eq a b : bytes_Compare a b = 0 <-> a = b.
Proof.
  split; [|intros ->; apply bytes_Compare_refl].
  revert b. induction a as [|x a IH]; intros [|y b] H; cbn in H; try done.
  destruct (Z.ltb_spec (ub x) (ub y)); [done|].
  destruct (Z.ltb_spec (ub y) (ub x)); [done|].
  f_equal; [apply ub_inj; lia|by apply IH].
Qed.

Lemma bytes_Compare_antisym a b : bytes_Compare b a = - bytes_Compare a b.
Proof.
  revert b. induction a as [|x a IH]; intros [|y b]; cbn; try done.
  destruct (Z.ltb_spec (ub y) (ub x)), (Z.ltb_spec (ub x) (ub y)); try lia; apply IH.
Qed.

#[global] Instance NodeID_le_total : Total NodeID_le.
Proof.
  intros a b. unfold NodeID_le. rewrite (bytes_Compare_antisym a b). lia.
Qed.

Lemma NodeID_le_trans_aux a : forall b c,
  bytes_Compare a b <= 0 -> bytes_Compare b c <= 0 -> bytes_Compare a c <= 0.
Proof.
  induction a as [|x a IH]; intros [|y b] [|z c]; cbn; try lia.
  destruct (Z.ltb_spec (ub x) (ub y)), (Z.ltb_spec (ub y) (ub x)), (Z.ltb_spec (ub y) (ub z)),
    (Z.ltb_spec (ub z) (ub y)), (Z.ltb_spec (ub x) (ub z)), (Z.ltb_spec (ub z) (ub x));
    try lia; apply IH.
Qed.

#[global] Instance NodeID_le_trans : Transitive NodeID_le.
Proof. intros a b c. apply NodeID_le_trans_aux. Qed.

#[global] Instance NodeID_le_antisym : AntiSymm (=) NodeID_le.
Proof.
  intros a b Hab Hba. unfold NodeID_le in *.
  rewrite (bytes_Compare_antisym a b) in Hba. apply bytes_Compare_eq. lia.
Qed.

(** [sort.Sort(SliceStoremanGroup(g))]: the sorted permutation, unique because
    [Less] is a strict total order on distinct identifiers. *)
Definition sort_group (g : list NodeID) : list NodeID := merge_sort NodeID_le g.

Lemma sort_group_Permutation g : sort_group g ≡ₚ g.
Proof. apply merge_sort_Permutation. Qed.

Lemma sort_group_Sorted g : StronglySorted NodeID_le (sort_group g).
Proof. apply StronglySorted_merge_sort; apply _. Qed.

(** Any sorting routine gives the same group, in particular at every node. *)
Lemma sort_group_unique g g' :
  g' ≡ₚ g -> StronglySorted NodeID_le g' -> g' = sort_group g.
Proof.
  intros Hp Hs. apply (StronglySorted_unique NodeID_le); [done|apply sort_group_Sorted|].
  by rewrite sort_group_Permutation.
Qed.

(** ** The result store ([mpc_result.go]) *)

Record MpcValue := { mv_Key : string; mv_Value : option (list Z); mv_ByteValue : option bytes }.

Record BaseMpcResult := {
  Result : gmap string (list Z);
  byteResult : gmap string bytes
}.

Definition createMpcBaseMpcResult : BaseMpcResult := {| Result := ∅; byteResult := ∅ |}.

Definition SetValue (key : string) (value : list Z) (r : BaseMpcResult) : BaseMpcResult :=
  {| Result := <[key := value]> (Result r); byteResult := byteResult r |}.

Definition GetValue (key : string) (r : BaseMpcResult) : outcome (list Z) :=
  match Result r !! key with
  | Some value => Ret value
  | None => Err ErrMpcResultExist
  end.

Definition SetByteValue (key : string) (value : bytes) (r : BaseMpcResult) : BaseMpcResult :=
  {| Result := Result r; byteResult := <[key := value]> (byteResult r) |}.

(** The error of a missing byte value is [ErrQuit], not [ErrMpcResultExist]. *)
Definition GetByteValue (key : string) (r : BaseMpcResult) : outcome bytes :=
  match byteResult r !! key with
  | Some value => Ret value
  | None => Err ErrQuit
  end.

Definition InitializeValue1 (r : BaseMpcResult) (v : MpcValue) : BaseMpcResult :=
  match mv_Value v with
  | Some value => SetValue (mv_Key v) value r
  | None => match mv_ByteValue v with
            | Some b => SetByteValue (mv_Key v) b r
            | None => r
            end
  end.

Definition InitializeValue (preSetValue : list MpcValue) (r : BaseMpcResult) : BaseMpcResult :=
  foldl InitializeValue1 r preSetValue.

Lemma GetValue_SetValue key v r : GetValue key (SetValue key v r) = Ret v.
Proof. unfold GetValue, SetValue. cbn. by rewrite lookup_insert_eq. Qed.

Lemma GetValue_SetValue_ne key key' v r :
  key <> key' -> GetValue key (SetValue key' v r) = GetValue key r.
Proof. intros H. unfold GetValue, SetValue. cbn. by rewrite lookup_insert_ne. Qed.

Lemma GetByteValue_SetValue key key' v r :
  GetByteValue key (SetValue key' v r) = GetByteValue key r.
Proof. done. Qed.

Lemma GetValue_SetByteValue key key' v r :
  GetValue key (SetByteValue key' v r) = GetValue key r.
Proof. done. Qed.

Lemma GetByteValue_SetByteValue key v r : GetByteValue key (SetByteValue key v r) = Ret v.
Proof. unfold GetByteValue, SetByteValue. cbn. by rewrite lookup_insert_eq. Qed.

Lemma GetByteValue_SetByteValue_ne key key' v r :
  key <> key' -> GetByteValue key (SetByteValue key' v r) = GetByteValue key r.
Proof. intros H. unfold GetByteValue, SetByteValue. cbn. by rewrite lookup_insert_ne. Qed.

#[export] Hint Rewrite GetValue_SetValue GetByteValue_SetValue GetValue_SetByteValue
  GetByteValue_SetByteValue : gomodel.

(** Reading a key of a store after writes to it. *)
Ltac solve_store :=
  repeat first
    [ rewrite GetValue_SetValue | rewrite GetValue_SetValue_ne by discriminate
    | rewrite GetByteValue_SetValue | rewrite GetValue_SetByteValue
    | rewrite GetByteValue_SetByteValue | rewrite GetByteValue_SetByteValue_ne by discriminate ];
  try done.
