(* ===== verification/Generators.v ===== *)
(** * Message generators

    The per-step computations of the protocol
    ([src/storeman/storemanmpc/step/mpc_skpoly_generator.go],
    [mpc_point_generator.go], [mpc_s_generator.go]): polynomial shares, points
    combined by interpolation, signature shares. *)

From S2P Require Import Prelude BigInt Curve Schnorr Protocol.

(** ** Environment

    The hash functions, and the order in which Go iterates over a map. *)

Class Hashes := {
  keccak256 : bytes -> bytes;
  sha256 : bytes -> bytes;
  length_keccak256 b : length (keccak256 b) = 32%nat;
  length_sha256 b : length (sha256 b) = 32%nat
}.

Class MapRange := {
  range_map : forall {V : Type}, gmap Z V -> list (Z * V);
  range_map_perm {V} (m : gmap Z V) : range_map m ≡ₚ map_to_list m
}.

(** ** Polynomial shares ([RandomPolynomialValue]) *)

Record RandomPolynomialValue := {
  rp_randCoefficient : list Z;
  rp_message : gmap Z Z;
  rp_polyValue : list Z;
  rp_result : option Z
}.

(** [make] panics on a negative length. *)
Definition createSkPolyValue (degree : Z) (peerNum : nat) : outcome RandomPolynomialValue :=
  if decide (degree + 1 < 0) then Panic else
  Ret {| rp_randCoefficient := replicate (Z.to_nat (degree + 1)) 0;
         rp_message := ∅;
         rp_polyValue := replicate peerNum 0;
         rp_result := None |}.

(** ** Points ([mpcPointGenerator]) *)

Record mpcPointGenerator := {
  pg_seed : Z * Z;
  pg_message : gmap Z (Z * Z);
  pg_result : Z * Z;
  pg_preValueKey : string
}.

Definition createPointGenerator (preValueKey : string) : mpcPointGenerator :=
  {| pg_seed := (0, 0); pg_message := ∅; pg_result := (0, 0); pg_preValueKey := preValueKey |}.

(** The log line of [initialize] reads the coordinates before the error of
    [GetValue] is checked: a missing value is an index panic. *)
Definition mpcPointGenerator_initialize (res : BaseMpcResult) (g : mpcPointGenerator)
  : outcome mpcPointGenerator :=
  let value := match GetValue (pg_preValueKey g) res with Ret v => v | _ => [] end in
  x ← idx value 0;
  y ← idx value 1;
  match GetValue (pg_preValueKey g) res with
  | Err e => Err e
  | _ => Ret {| pg_seed := (x, y); pg_message := pg_message g; pg_result := pg_result g;
                pg_preValueKey := pg_preValueKey g |}
  end.

(** ** Signature shares ([mpcSGenerator]) *)

Record mpcSGenerator := {
  sg_seed : Z;
  sg_message : gmap Z Z;
  sg_result : Z;
  sg_preValueKey : string
}.

Definition createSGenerator (preValueKey : string) : mpcSGenerator :=
  {| sg_seed := 0; sg_message := ∅; sg_result := 0; sg_preValueKey := preValueKey |}.

Section Generators.
Context {C : EllipticCurve} {H : Hashes} {R : MapRange} (vars : ProtocolVars).

Definition RandomPolynomialValue_initialize (peers : list PeerInfo) (rd : reader)
  (g : RandomPolynomialValue) : outcome RandomPolynomialValue * reader :=
  let degree := Z.of_nat (length (rp_randCoefficient g)) - 1 in
  let '(s, rd) := RandInt rd Params_N in
  match s with
  | Err e => (Err e, rd)
  | Panic => (Panic, rd)
  | Ret s =>
      let '(cof, rd) := RandPoly degree s rd in
      (cof ← cof;
       let coef := take (length (rp_randCoefficient g)) cof
                     ++ drop (length cof) (rp_randCoefficient g) in
       vals ← mapM_out (fun i => p ← idx peers i; EvaluatePoly coef (Seed p) degree)
                (seq 0 (length (rp_polyValue g)));
       Ret {| rp_randCoefficient := coef; rp_message := rp_message g;
              rp_polyValue := vals; rp_result := rp_result g |}, rd)
  end.

Definition RandomPolynomialValue_calculateResult (g : RandomPolynomialValue)
  : RandomPolynomialValue :=
  let result := foldl (fun r v => Mod (r + v) Params_N) 0 (map snd (range_map (rp_message g))) in
  {| rp_randCoefficient := rp_randCoefficient g; rp_message := rp_message g;
     rp_polyValue := rp_polyValue g; rp_result := Some result |}.

Definition mpcPointGenerator_calculateResult (g : mpcPointGenerator) : outcome mpcPointGenerator :=
  let entries := range_map (pg_message g) in
  let seeds := map fst entries in
  let gpkshares := map (fun e => Some (SetBytes (Bytes e.2.1), SetBytes (Bytes e.2.2))) entries in
  if decide (Z.of_nat (length gpkshares) < MpcSchnrThr vars) then Err ErrTooLessDataCollected else
  result ← LagrangeECC gpkshares seeds (MPCDegree vars);
  if negb (ValidatePublicKey (Some result)) then Err ErrPointZero else
  r ← of_option result;
  Ret {| pg_seed := pg_seed g; pg_message := pg_message g; pg_result := r;
         pg_preValueKey := pg_preValueKey g |}.

(** [m = sha256(sha256(M) || R)], as an integer; not reduced modulo [N]. *)
Definition challenge (M : bytes) (rpk : point) : outcome Z :=
  rBytes ← FromECDSAPub (Some rpk);
  Ret (SetBytes (sha256 (sha256 M ++ rBytes))).

Definition mpcSGenerator_initialize (res : BaseMpcResult) (g : mpcSGenerator)
  : outcome mpcSGenerator :=
  rgpkValue ← GetValue RPublicKeyResult res;
  x ← idx rgpkValue 0;
  y ← idx rgpkValue 1;
  MBytes ← GetByteValue MpcM res;
  m ← challenge MBytes (Some (x, y));
  rskShare ← GetValue RMpcPrivateShare res;
  gskShare ← GetValue MpcPrivateShare res;
  gsk ← idx gskShare 0;
  rsk ← idx rskShare 0;
  Ret {| sg_seed := SchnorrSign gsk rsk m; sg_message := sg_message g;
         sg_result := sg_result g; sg_preValueKey := sg_preValueKey g |}.

Definition mpcSGenerator_calculateResult (g : mpcSGenerator) : outcome mpcSGenerator :=
  let entries := range_map (sg_message g) in
  let seeds := map fst entries in
  let sigshares := map snd entries in
  if decide (Z.of_nat (length sigshares) < MpcSchnrThr vars) then Err ErrTooLessDataCollected else
  result ← Lagrange sigshares seeds (MPCDegree vars);
  Ret {| sg_seed := sg_seed g; sg_message := sg_message g; sg_result := result;
         sg_preValueKey := sg_preValueKey g |}.

End Generators.

(** ** Properties *)

Section GeneratorFacts.
Context {C : EllipticCurve} {H : Hashes} {R : MapRange} (vars : ProtocolVars).
#[local] Abbreviation N := Params_N.

Definition sum_Z (l : list Z) : Z := foldr Z.add 0 l.

Lemma sum_Z_perm l l' : l ≡ₚ l' -> sum_Z l = sum_Z l'.
Proof. unfold sum_Z. induction 1; cbn; lia. Qed.

Lemma foldl_Mod_sum l r :
  N <> 0 -> foldl (fun r v => Mod (r + v) N) r l mod N = (r + sum_Z l) mod N.
Proof.
  intros HN. revert r. induction l as [|v l IH]; intros r; cbn [foldl sum_Z foldr].
  - by rewrite Z.add_0_r.
  - rewrite IH. unfold Mod. rewrite Zplus_mod_idemp_l. f_equal. unfold sum_Z. lia.
Qed.

(** The share of a node is the sum of what it received, in any order. *)
Lemma calculateResult_sum g :
  0 < N ->
  rp_result (RandomPolynomialValue_calculateResult g)
  = Some (sum_Z (map snd (map_to_list (rp_message g))) mod N).
Proof.
  intros HN. cbn. f_equal.
  rewrite <- (sum_Z_perm (map snd (range_map (rp_message g))))
    by (apply Permutation_map, range_map_perm).
  rewrite <- (Z.add_0_l (sum_Z _)), <- foldl_Mod_sum by lia.
  symmetry. apply Z.mod_small.
  destruct (map snd (range_map (rp_message g))) as [|v l] using rev_ind; [cbn; lia|].
  rewrite foldl_app. cbn. unfold Mod. apply Z.mod_pos_bound. lia.
Qed.

Lemma range_map_lookup {V} (m : gmap Z V) k v : (k, v) ∈ range_map m <-> m !! k = Some v.
Proof. rewrite range_map_perm. apply elem_of_map_to_list. Qed.

Lemma length_range_map {V} (m : gmap Z V) : length (range_map m) = size m.
Proof.
  rewrite (Permutation_length (range_map_perm m)). apply length_map_to_list.
Qed.

Lemma NoDup_range_keys {V} (m : gmap Z V) : NoDup (map fst (range_map m)).
Proof.
  change (NoDup (fst <$> range_map m)). rewrite range_map_perm. apply NoDup_fst_map_to_list.
Qed.

(** Seeds of the received messages are non-zero field elements. *)
Definition seeds_ok {V} (m : gmap Z V) : Prop := forall x v, m !! x = Some v -> 0 < x < N.

Lemma at_range_seed {V} (m : gmap Z V) j :
  seeds_ok m -> (j < size m)%nat -> 0 < at_ (map fst (range_map m)) j < N.
Proof.
  intros Hok Hj. unfold at_. rewrite list_lookup_fmap.
  destruct (lookup_lt_is_Some_2 (range_map m) j) as [[x v] E]; [by rewrite length_range_map|].
  rewrite E. cbn. apply list_elem_of_lookup_2 in E. apply range_map_lookup in E. by eapply Hok.
Qed.

Lemma distinct_range_seeds {V} (m : gmap Z V) k :
  seeds_ok m -> (k <= size m)%nat -> distinct_mod (map fst (range_map m)) k.
Proof.
  intros Hok Hk. split; [by rewrite length_map, length_range_map|].
  intros i j xi xj Hi Hj Ei Ej E.
  pose proof (at_range_seed m i Hok ltac:(lia)) as Ri. pose proof (at_range_seed m j Hok ltac:(lia)) as Rj.
  unfold at_ in Ri, Rj. rewrite Ei in Ri. rewrite Ej in Rj. cbn in Ri, Rj.
  rewrite !Z.mod_small in E by lia. subst xj.
  eapply NoDup_lookup; eauto using NoDup_range_keys.
Qed.

(** Every entry is a value of the polynomial [p]. *)
Definition on_poly (p : list Z) (m : gmap Z Z) : Prop :=
  forall x y, m !! x = Some y -> y mod N = poly_at p x.

Lemma on_poly_at p m i :
  on_poly p m -> (i < size m)%nat ->
  at_ (map snd (range_map m)) i mod N = poly_at p (at_ (map fst (range_map m)) i).
Proof.
  intros Hp Hi. unfold at_. rewrite !list_lookup_fmap.
  destruct (lookup_lt_is_Some_2 (range_map m) i) as [[x v] E]; [by rewrite length_range_map|].
  rewrite E. cbn. apply Hp, range_map_lookup. by eapply list_elem_of_lookup_2.
Qed.

Definition vars_ok : Prop := 1 <= MpcSchnrThr vars /\ MPCDegree vars = MpcSchnrThr vars - 1.

(** Enough consistent signature shares give the value at zero, whichever
    [thr] of them the iteration order puts first. *)
Lemma mpcSGenerator_calculateResult_poly p g :
  Z.prime N -> vars_ok -> seeds_ok (sg_message g) -> on_poly p (sg_message g) ->
  Z.of_nat (length p) <= MpcSchnrThr vars <= Z.of_nat (size (sg_message g)) ->
  mpcSGenerator_calculateResult vars g
  = Ret {| sg_seed := sg_seed g; sg_message := sg_message g; sg_result := poly_at p 0;
           sg_preValueKey := sg_preValueKey g |}.
Proof.
  intros HN [Hthr Hdeg] Hok Hp Hl. unfold mpcSGenerator_calculateResult.
  rewrite decide_False by (rewrite length_map, length_range_map; lia).
  rewrite Lagrange_eq by (rewrite length_map, length_range_map; lia). cbn [mbind outcome_bind].
  erewrite lag_value_poly; [done|done| | |].
  - apply distinct_range_seeds; [done|lia].
  - lia.
  - intros i Hi. apply on_poly_at; [done|lia].
Qed.

Lemma mpcSGenerator_calculateResult_few g :
  Z.of_nat (size (sg_message g)) < MpcSchnrThr vars ->
  mpcSGenerator_calculateResult vars g = Err ErrTooLessDataCollected.
Proof.
  intros Hl. unfold mpcSGenerator_calculateResult.
  by rewrite decide_True by (rewrite length_map, length_range_map; lia).
Qed.

End GeneratorFacts.

Section PointFacts.
Context {C : EllipticCurve} {G : CurveGroup C} {R : MapRange} (vars : ProtocolVars).
#[local] Abbreviation N := Params_N.

(** Every entry is the point of a value of [p], and none is at infinity. *)
Definition on_poly_pt (p : list Z) (m : gmap Z (Z * Z)) : Prop :=
  forall x P, m !! x = Some P -> P = mulG (poly_at p x) /\ poly_at p x <> 0.

(** The interpolation loop over [m] never adds equal or opposite points. *)
Definition generic_for (p : list Z) (m : gmap Z (Z * Z)) : bool :=
  let seeds := map fst (range_map m) in
  ecc_generic (map (poly_at p) seeds) seeds (Z.to_nat (MPCDegree vars + 1)).

Lemma mulG_SetBytes k :
  k mod N <> 0 ->
  (SetBytes (Bytes (mulG k).1), SetBytes (Bytes (mulG k).2)) = mulG k.
Proof.
  intros Hk. destruct (mulG_coords k Hk) as (Hx & Hy & _).
  rewrite !SetBytes_Bytes by lia. by destruct (mulG k).
Qed.

Lemma poly_at_nz_mod p x : poly_at p x <> 0 -> poly_at p x mod N <> 0.
Proof. intros Hp. pose proof (poly_at_range N_prime p x). by rewrite Z.mod_small. Qed.

Lemma mpcPointGenerator_calculateResult_poly p g :
  vars_ok vars -> seeds_ok (pg_message g) -> on_poly_pt p (pg_message g) ->
  Z.of_nat (length p) <= MpcSchnrThr vars <= Z.of_nat (size (pg_message g)) ->
  generic_for p (pg_message g) = true -> poly_at p 0 <> 0 ->
  (mulG (poly_at p 0)).1 <> 0 -> (mulG (poly_at p 0)).2 <> 0 ->
  mpcPointGenerator_calculateResult vars g
  = Ret {| pg_seed := pg_seed g; pg_message := pg_message g; pg_result := mulG (poly_at p 0);
           pg_preValueKey := pg_preValueKey g |}.
Proof.
  intros [Hthr Hdeg] Hok Hp Hl Hgen H0 Hx Hy. unfold mpcPointGenerator_calculateResult.
  rewrite decide_False by (rewrite length_map, length_range_map; lia).
  set (seeds := map fst (range_map (pg_message g))).
  assert (Hls : length seeds = size (pg_message g))
    by (unfold seeds; by rewrite length_map, length_range_map).
  assert (Ha : forall j, (j < size (pg_message g))%nat ->
    at_ (map (poly_at p) seeds) j = poly_at p (at_ seeds j)).
  { intros j Hj. unfold at_. rewrite list_lookup_fmap.
    destruct (lookup_lt_is_Some_2 seeds j) as [x E]; [lia|]. by rewrite E. }
  erewrite LagrangeECC_mulG with (a := map (poly_at p) seeds); cycle 1.
  - lia.
  - apply distinct_range_seeds; [done|lia].
  - rewrite length_map. lia.
  - intros j Hj. pose proof (at_range_seed (pg_message g) j Hok ltac:(lia)) as Hs.
    rewrite Z.mod_small; unfold seeds; lia.
  - intros j Hj. rewrite Ha by lia. rewrite list_lookup_fmap.
    destruct (lookup_lt_is_Some_2 (range_map (pg_message g)) j) as [[x P] E];
      [rewrite length_range_map; lia|].
    rewrite E. cbn [fmap option_fmap option_map snd].
    pose proof (list_elem_of_lookup_2 _ _ _ E) as Hin. apply range_map_lookup, Hp in Hin as [-> Hnz].
    unfold at_, seeds. rewrite list_lookup_fmap, E. cbn [fmap option_fmap option_map fst default from_option id].
    split; [by apply poly_at_nz_mod|]. by rewrite mulG_SetBytes by by apply poly_at_nz_mod.
  - exact Hgen.
  - rewrite (lag_value_poly N_prime p); cycle 1.
    + apply distinct_range_seeds; [done|lia].
    + lia.
    + intros i Hi. rewrite Ha by lia. apply Z.mod_small, (poly_at_range N_prime).
    + cbn [mbind outcome_bind of_option ValidatePublicKey].
      destruct (mulG (poly_at p 0)) as [x y]. cbn [fst snd] in Hx, Hy. unfold Sign.
      rewrite !(proj2 (Z.eqb_neq _ _)) by (rewrite Z.sgn_null_iff; done). done.
Qed.

End PointFacts.

(** ** Dealing *)

Section Deal.
Context {C : EllipticCurve} (HN : Z.prime Params_N).
#[local] Abbreviation N := Params_N.

Lemma RandInt_draw d rd : RandInt (Some d :: rd) N = (Ret (d mod N), rd).
Proof. unfold RandInt. pose proof (N_ge_2 HN). by rewrite decide_False by lia. Qed.

Lemma RandPoly_loop_draws ds : forall rd,
  RandPoly_loop (length ds) (map Some ds ++ rd) = (Ret (map (fun d => d mod N + 1) ds), rd).
Proof.
  induction ds as [|d ds IH]; intros rd; [done|].
  cbn [length map app RandPoly_loop]. by rewrite RandInt_draw, IH.
Qed.

Lemma RandPoly_draws degree c ds rd :
  degree = Z.of_nat (length ds) ->
  RandPoly degree c (map Some ds ++ rd) = (Ret (c mod N :: map (fun d => d mod N + 1) ds), rd).
Proof.
  intros ->. unfold RandPoly. rewrite decide_False by lia.
  by rewrite Nat2Z.id, RandPoly_loop_draws.
Qed.

(** The polynomial of a dealer: its secret, then the shifted draws. *)
Definition dealt_poly (s : Z) (ds : list Z) : list Z := s mod N :: map (fun d => d mod N + 1) ds.

Lemma initialize_draws peers s ds rd g :
  length (rp_randCoefficient g) = S (length ds) -> length (rp_polyValue g) = length peers ->
  RandomPolynomialValue_initialize peers (Some s :: map Some ds ++ rd) g
  = (Ret {| rp_randCoefficient := dealt_poly s ds; rp_message := rp_message g;
            rp_polyValue := map (fun p => poly_at (dealt_poly s ds) (Seed p)) peers;
            rp_result := rp_result g |}, rd).
Proof.
  intros Hc Hp. unfold RandomPolynomialValue_initialize. rewrite RandInt_draw, Hc, Hp.
  rewrite RandPoly_draws by lia. pose proof (N_ge_2 HN).
  rewrite Z.mod_mod by lia. fold (dealt_poly s ds). cbn [mbind outcome_bind].
  assert (length (dealt_poly s ds) = S (length ds)) as Hl by (cbn; by rewrite length_map).
  rewrite take_ge, drop_ge, app_nil_r by lia.
  rewrite (mapM_out_map _ (fun i => poly_at (dealt_poly s ds) (default 0 (Seed <$> peers !! i)))).
  - cbn [mbind outcome_bind]. do 3 f_equal. apply list_eq. intros i.
    rewrite !list_lookup_fmap. destruct (decide (i < length peers)%nat) as [Hi|Hi].
    + rewrite lookup_seq_lt by done. destruct (lookup_lt_is_Some_2 peers i Hi) as [p E].
      cbn. by rewrite E.
    + by rewrite lookup_seq_ge, (lookup_ge_None_2 peers) by lia.
  - intros i Hi%elem_of_seq. destruct (lookup_lt_is_Some_2 peers i ltac:(lia)) as [p E].
    rewrite (idx_Some _ _ _ E), E. cbn [mbind outcome_bind].
    rewrite (EvaluatePoly_spec HN) by lia. done.
Qed.

End Deal.
