(* ===== verification/Instances.v ===== *)
(** * Concrete parameters

    A map iteration order, a hash whose values fit the small curve of
    [Secp256k1.v], and a three-node group: the inputs on which the properties
    with hypotheses are shown to apply. *)

From S2P Require Import Prelude BigInt Keccak Sha3 Curve Secp256k1 Schnorr Protocol Generators.

Program Definition list_range : MapRange := {| range_map V m := map_to_list m |}.
Next Obligation. done. Qed.

(** Sum of the bytes modulo 29, plus 1, on 32 bytes. *)
Definition toy_hash (b : bytes) : bytes :=
  be_fix 32 (foldr (fun x s => ub x + s) 0 b mod 29 + 1).

Program Definition toy_hashes : Hashes := {| keccak256 := toy_hash; sha256 := toy_hash |}.
Next Obligation. intros b. apply length_be_fix. Qed.
Next Obligation. intros b. apply length_be_fix. Qed.

(** The class of hashes with the [Keccak256] of [Sha3.v]; SHA-256 is that of the Go library. *)
Definition Keccak256_bytes `{Xor} (b : bytes) : bytes :=
  match Keccak256 [b] with Ret h => h | _ => [] end.

Program Definition sha3_hashes `{Xor} (sha : bytes -> bytes)
    (Hsha : forall b, length (sha b) = 32%nat) : Hashes :=
  {| keccak256 := Keccak256_bytes; sha256 := sha |}.
Next Obligation. intros X sha Hsha b. unfold Keccak256_bytes. destruct (Keccak256_sponge [b]) as [-> Hl]. exact Hl. Qed.
Next Obligation. done. Qed.

(** [Keccak256] of several arguments is [keccak256] of their concatenation. *)
Lemma sha3_hashes_concat `{Xor} sha Hsha (data : list bytes) :
  Keccak256 data = Ret (@keccak256 (sha3_hashes sha Hsha) (concat data)).
Proof.
  cbn [keccak256 sha3_hashes]. unfold Keccak256_bytes. destruct (Keccak256_sponge [concat data]) as [-> _].
  destruct (Keccak256_sponge data) as [-> _]. cbn [concat]. by rewrite app_nil_r.
Qed.

Definition toy_vars : ProtocolVars :=
  {| MpcSchnrThr := 2; MPCDegree := 1; MpcSchnrNodeNumber := 3 |}.

Definition peer1 : PeerInfo := {| PeerID := [Byte.x01]; Seed := 3 |}.
Definition peer2 : PeerInfo := {| PeerID := [Byte.x02]; Seed := 5 |}.
Definition peer3 : PeerInfo := {| PeerID := [Byte.x03]; Seed := 8 |}.
Definition toy_peers : list PeerInfo := [peer1; peer2; peer3].

(** Polynomials of the group key and of the three dealers of a nonce. *)
Definition toy_f : list Z := [7; 4].

Definition toy_rho (p : PeerInfo) : list Z :=
  if decide (Seed p = 3) then [3; 9] else if decide (Seed p = 5) then [5; 2] else [6; 1].

Definition toy_M : bytes := [Byte.x09; Byte.x41].
