(* ===== verification/BaseStep.v ===== *)
(** * The step skeleton

    [src/storeman/storemanmpc/step/mpc_base_step.go]: the channels of a step,
    its message loop, and how the main goroutine waits for it.  The operations
    are functions on the state of the step; the interleaving of the network,
    the loop goroutine, the main goroutine and a quit is the relation [bstep]. *)

From S2P Require Import Prelude BigInt Protocol.

(** ** Channels

    A buffered channel is its queue and its capacity; a send on a full channel
    blocks, which is [None]. *)

Definition chan_send {A} (cap : nat) (q : list A) (x : A) : option (list A) :=
  if decide (length q < cap)%nat then Some (q ++ [x]) else None.

(** ** State *)

Record BaseStep := {
  bs_msgCap : nat;
  bs_msgChan : list (option StepMessage);
  bs_finish : list (option error);
  bs_waiting : Z;
  bs_waitAll : bool;
  bs_stepId : Z;
  bs_notRecvPeers : gset NodeID
}.

Definition finishCap : nat := 3.

Definition CreateBaseStep (peers : list PeerInfo) (wait : Z) : BaseStep := {|
  bs_msgCap := length peers + 3;
  bs_msgChan := [];
  bs_finish := [];
  bs_waiting := if decide (0 <= wait) then wait else Z.of_nat (length peers);
  bs_waitAll := true;
  bs_stepId := 0;
  bs_notRecvPeers := list_to_set (map PeerID peers)
|}.

Definition set_msgChan (q : list (option StepMessage)) (s : BaseStep) : BaseStep :=
  {| bs_msgCap := bs_msgCap s; bs_msgChan := q; bs_finish := bs_finish s;
     bs_waiting := bs_waiting s; bs_waitAll := bs_waitAll s; bs_stepId := bs_stepId s;
     bs_notRecvPeers := bs_notRecvPeers s |}.

Definition set_finish (q : list (option error)) (s : BaseStep) : BaseStep :=
  {| bs_msgCap := bs_msgCap s; bs_msgChan := bs_msgChan s; bs_finish := q;
     bs_waiting := bs_waiting s; bs_waitAll := bs_waitAll s; bs_stepId := bs_stepId s;
     bs_notRecvPeers := bs_notRecvPeers s |}.

Definition SetWaitAll (waitAll : bool) (s : BaseStep) : BaseStep :=
  {| bs_msgCap := bs_msgCap s; bs_msgChan := bs_msgChan s; bs_finish := bs_finish s;
     bs_waiting := bs_waiting s; bs_waitAll := waitAll; bs_stepId := bs_stepId s;
     bs_notRecvPeers := bs_notRecvPeers s |}.

Definition SetWaiting (waiting : Z) (s : BaseStep) : BaseStep :=
  {| bs_msgCap := bs_msgCap s; bs_msgChan := bs_msgChan s; bs_finish := bs_finish s;
     bs_waiting := waiting; bs_waitAll := bs_waitAll s; bs_stepId := bs_stepId s;
     bs_notRecvPeers := bs_notRecvPeers s |}.

Definition SetStepId (stepId : Z) (s : BaseStep) : BaseStep :=
  {| bs_msgCap := bs_msgCap s; bs_msgChan := bs_msgChan s; bs_finish := bs_finish s;
     bs_waiting := bs_waiting s; bs_waitAll := bs_waitAll s; bs_stepId := stepId;
     bs_notRecvPeers := bs_notRecvPeers s |}.

Definition GetStepId (s : BaseStep) : Z := bs_stepId s.

(** [getPeerIndex] and [getPeerSeed]: first match, -1 and 0 for a stranger. *)
Fixpoint getPeerIndex_from (i : Z) (peers : list PeerInfo) (id : NodeID) : Z :=
  match peers with
  | [] => -1
  | p :: ps => if decide (PeerID p = id) then i else getPeerIndex_from (i + 1) ps id
  end.

Definition getPeerIndex (peers : list PeerInfo) (id : NodeID) : Z := getPeerIndex_from 0 peers id.

Fixpoint getPeerSeed (peers : list PeerInfo) (id : NodeID) : Z :=
  match peers with
  | [] => 0
  | p :: ps => if decide (PeerID p = id) then Seed p else getPeerSeed ps id
  end.

(** ** Operations *)

(** [InitMessageLoop]: the new state and whether a loop goroutine runs. *)
Definition InitMessageLoop (s : BaseStep) : option (BaseStep * bool) :=
  if decide (bs_waiting s <= 0)
  then q ← chan_send finishCap (bs_finish s) None; Some (set_finish q s, false)
  else Some (s, true).

Definition Quit (err : option error) (s : BaseStep) : option BaseStep :=
  q ← chan_send (bs_msgCap s) (bs_msgChan s) None;
  f ← chan_send finishCap (bs_finish s) err;
  Some (set_finish f (set_msgChan q s)).

(** What the [select] of [FinishStep] receives. *)
Inductive finish_event := FinishReceived | FinishTimeout.

(** [FinishStep] for a given event: the error it returns ([None] is nil) and the
    new state; [None] when it blocks. *)
Definition FinishStep (ev : finish_event) (s : BaseStep) : option (option error * BaseStep) :=
  match ev with
  | FinishReceived =>
      match bs_finish s with
      | [] => None
      | err :: f =>
          q ← chan_send (bs_msgCap s) (bs_msgChan s) None;
          Some (err, set_msgChan q (set_finish f s))
      end
  | FinishTimeout =>
      q ← chan_send (bs_msgCap s) (bs_msgChan s) None;
      Some (if bs_waitAll s then Some ErrTimeOut else None, set_msgChan q s)
  end.

(** ** The message loop *)

Section Loop.
(** State of the concrete step and its [HandleMessage] method. *)
Context {T : Type} (hm : StepMessage -> T -> outcome (bool * T)).

(** Result of one [BaseStep.HandleMessage]. *)
Inductive loop_result :=
| LoopQuit
| LoopNext (s : BaseStep) (t : T)
| LoopBlocked
| LoopPanic.

(** The nil check on [msg.PeerID] is missing: accepting a message without a
    sender dereferences nil. *)
Definition HandleMessage (s : BaseStep) (t : T) : loop_result :=
  match bs_msgChan s with
  | [] => LoopBlocked
  | None :: q => LoopQuit
  | Some msg :: q =>
      let s := set_msgChan q s in
      if decide (sm_StepId msg <> GetStepId s) then LoopNext s t else
      if decide (0 < bs_waiting s) then
        match hm msg t with
        | Ret (true, t') =>
            match sm_PeerID msg with
            | None => LoopPanic
            | Some id =>
                let s := {| bs_msgCap := bs_msgCap s; bs_msgChan := bs_msgChan s;
                            bs_finish := bs_finish s; bs_waiting := bs_waiting s - 1;
                            bs_waitAll := bs_waitAll s; bs_stepId := bs_stepId s;
                            bs_notRecvPeers := bs_notRecvPeers s ∖ {[id]} |} in
                if decide (bs_waiting s <= 0) then
                  match chan_send finishCap (bs_finish s) None with
                  | Some f => LoopNext (set_finish f s) t'
                  | None => LoopBlocked
                  end
                else LoopNext s t'
            end
        | Ret (false, t') => LoopNext s t'
        | _ => LoopPanic
        end
      else LoopNext s t
  end.

(** ** Interleavings *)

(** [ms_accepted], [ms_quit] and [ms_init] are ghosts: messages the handler
    accepted, whether [Quit] ran, and the initial [waiting]. *)
Record MState := {
  ms_base : BaseStep;
  ms_inner : T;
  ms_loop : bool;
  ms_done : option (finish_event * option error);
  ms_quit : bool;
  ms_accepted : list StepMessage;
  ms_init : Z
}.

(** The message the loop hands to the method of the step, if that accepts it. *)
Definition accepted_now (s : BaseStep) (t : T) : list StepMessage :=
  match bs_msgChan s with
  | Some msg :: _ =>
      if decide (sm_StepId msg = bs_stepId s /\ 0 < bs_waiting s) then
        match hm msg t with
        | Ret (true, _) => [msg]
        | _ => []
        end
      else []
  | _ => []
  end.

Inductive bstep : MState -> MState -> Prop :=
| bstep_deliver st msg q :
    chan_send (bs_msgCap (ms_base st)) (bs_msgChan (ms_base st)) (Some msg) = Some q ->
    bstep st {| ms_base := set_msgChan q (ms_base st); ms_inner := ms_inner st;
                ms_loop := ms_loop st; ms_done := ms_done st; ms_quit := ms_quit st;
                ms_accepted := ms_accepted st; ms_init := ms_init st |}
| bstep_loop st s' t' :
    ms_loop st = true ->
    HandleMessage (ms_base st) (ms_inner st) = LoopNext s' t' ->
    bstep st {| ms_base := s'; ms_inner := t'; ms_loop := true; ms_done := ms_done st;
                ms_quit := ms_quit st;
                ms_accepted := ms_accepted st ++ accepted_now (ms_base st) (ms_inner st);
                ms_init := ms_init st |}
| bstep_loop_quit st q :
    ms_loop st = true ->
    bs_msgChan (ms_base st) = None :: q ->
    bstep st {| ms_base := set_msgChan q (ms_base st); ms_inner := ms_inner st;
                ms_loop := false; ms_done := ms_done st; ms_quit := ms_quit st;
                ms_accepted := ms_accepted st; ms_init := ms_init st |}
| bstep_finish st ev err s' :
    ms_done st = None ->
    FinishStep ev (ms_base st) = Some (err, s') ->
    bstep st {| ms_base := s'; ms_inner := ms_inner st; ms_loop := ms_loop st;
                ms_done := Some (ev, err); ms_quit := ms_quit st;
                ms_accepted := ms_accepted st; ms_init := ms_init st |}
| bstep_quit st err s' :
    ms_quit st = false ->
    Quit err (ms_base st) = Some s' ->
    bstep st {| ms_base := s'; ms_inner := ms_inner st; ms_loop := ms_loop st;
                ms_done := ms_done st; ms_quit := true;
                ms_accepted := ms_accepted st; ms_init := ms_init st |}.

(** The state after [InitMessageLoop] on a freshly created step. *)
Definition mstart (s : BaseStep) (t : T) : option MState :=
  '(s', loop) ← InitMessageLoop s;
  Some {| ms_base := s'; ms_inner := t; ms_loop := loop; ms_done := None; ms_quit := false;
          ms_accepted := []; ms_init := bs_waiting s |}.

Inductive reachable (s : BaseStep) (t : T) : MState -> Prop :=
| reach_start st : mstart s t = Some st -> reachable s t st
| reach_step st st' : reachable s t st -> bstep st st' -> reachable s t st'.

(** ** Invariant *)

Definition b2n (b : bool) : nat := if b then 1 else 0.

(** Messages on the finish channel: at most the one of the loop (or of
    [InitMessageLoop]), which is sent exactly when nothing is waited for any
    more, and the one of [Quit]. *)
Definition mc_inv (st : MState) : Prop :=
  let s := ms_base st in
  (length (bs_finish s) + b2n (match ms_done st with Some (FinishReceived, _) => true | _ => false end)
     = b2n (bool_decide (bs_waiting s <= 0)%Z) + b2n (ms_quit st))%nat /\
  (0 < ms_init st -> 0 <= bs_waiting s /\ Z.of_nat (length (ms_accepted st)) + bs_waiting s = ms_init st) /\
  (ms_init st <= 0 -> ms_loop st = false /\ bs_waiting s = ms_init st /\ ms_accepted st = []) /\
  Forall (fun m => sm_StepId m = bs_stepId s) (ms_accepted st) /\
  (ms_quit st = false ->
     Forall (fun e => e = None) (bs_finish s) /\
     (forall e, ms_done st = Some (FinishReceived, e) -> e = None)).

Lemma chan_send_Some {A} cap (q : list A) x q' :
  chan_send cap q x = Some q' -> q' = q ++ [x] /\ (length q < cap)%nat.
Proof. unfold chan_send. case_decide; intros; simplify_eq. done. Qed.

Lemma HandleMessage_next s t s' t' :
  HandleMessage s t = LoopNext s' t' ->
  bs_stepId s' = bs_stepId s /\
  ((bs_finish s' = bs_finish s /\ bs_waiting s' = bs_waiting s /\ accepted_now s t = []) \/
   (0 < bs_waiting s /\ bs_waiting s' = bs_waiting s - 1 /\
    bs_finish s' = bs_finish s ++ (if decide (bs_waiting s' <= 0) then [None] else []) /\
    exists m, accepted_now s t = [m] /\ sm_StepId m = bs_stepId s)).
Proof.
  unfold HandleMessage, accepted_now, GetStepId. intros HH.
  destruct (bs_msgChan s) as [|[msg|] q]; try done. cbn in HH.
  destruct (decide (sm_StepId msg <> bs_stepId s)) as [Hs|Hs].
  { simplify_eq/=. rewrite decide_False by tauto. auto. }
  assert (sm_StepId msg = bs_stepId s) as Hid by (destruct (decide (sm_StepId msg = bs_stepId s)); tauto).
  destruct (decide (0 < bs_waiting s)) as [Hw|Hw]; [|simplify_eq/=; rewrite decide_False by tauto; auto].
  rewrite decide_True by done. destruct (hm msg t) as [[[] t1]|e|]; [|simplify_eq/=; auto|done..].
  destruct (sm_PeerID msg) as [id|]; [|done]. cbn in HH. split.
  - by repeat (case_match; simplify_eq/=).
  - right. split; [done|]. case_decide as Hz.
    + destruct (chan_send _ _ _) as [f|] eqn:Ef; [|done]. apply chan_send_Some in Ef as [-> _]. simplify_eq/=.
      rewrite decide_True by done. eauto.
    + simplify_eq/=. rewrite decide_False by done. rewrite app_nil_r. eauto.
Qed.

Lemma mstart_inv s t st : bs_finish s = [] -> mstart s t = Some st -> mc_inv st.
Proof.
  unfold mstart, InitMessageLoop. intros Hf HH. case_decide.
  - destruct (chan_send _ _ _) as [q|] eqn:E; cbn in HH; simplify_eq.
    apply chan_send_Some in E as [-> _]. unfold mc_inv. cbn. rewrite Hf.
    rewrite bool_decide_true by done. cbn. split_and!; try done; try lia.
    intros _. split; [by constructor|done].
  - cbn in HH. simplify_eq. unfold mc_inv. cbn. rewrite Hf, bool_decide_false by done.
    cbn. split_and!; try done; try lia.
Qed.

Lemma bstep_inv st st' : mc_inv st -> bstep st st' -> mc_inv st'.
Proof.
  intros (I1 & I2 & I3 & I5 & I4) Hst. unfold mc_inv.
  destruct Hst as [st msg q E|st s' t' Hl E|st q Hl E|st ev err s' Hd E|st err s' Hq E]; cbn.
  - done.
  - destruct (decide (ms_init st <= 0)) as [Hi|Hi].
    { destruct (I3 Hi) as [HH _]. congruence. }
    destruct (I2 ltac:(lia)) as [Hw Ha].
    apply HandleMessage_next in E as [Eid [(Ef & Ew & Ea)|(Hp & Ew & Ef & m & Ea & Hm)]].
    + rewrite Ef, Ew, Ea, Eid, app_nil_r. split_and!; try done.
    + rewrite Ef, Ea, Eid, !length_app. cbn [length].
      rewrite (bool_decide_false (bs_waiting (ms_base st) <= 0)) in I1 by lia.
      split_and!; [|lia|lia|by apply Forall_app; split; [|repeat constructor]|].
      * case_decide as Hz.
        -- rewrite bool_decide_true by done. cbn in *. lia.
        -- rewrite bool_decide_false by done. cbn in *. lia.
      * intros Hnq. destruct (I4 Hnq) as [F1 F2]. split; [|done].
        apply Forall_app. split; [done|]. case_decide; by repeat constructor.
  - split_and!; try done. intros Hi. by destruct (I3 Hi) as (HH & _); congruence.
  - destruct ev; cbn in E.
    + destruct (bs_finish (ms_base st)) as [|e f] eqn:Ef; [done|].
      destruct (chan_send _ _ _) eqn:Ec; cbn in E; simplify_eq. cbn.
      rewrite Hd in I1. cbn in *. split_and!; try done; [lia|].
      intros Hnq. destruct (I4 Hnq) as [F1 F2]. apply Forall_cons in F1 as [-> F1].
      split; [done|]. intros e [= <-]. done.
    + destruct (chan_send _ _ _) eqn:Ec; cbn in E; simplify_eq. cbn.
      rewrite Hd in I1. split_and!; try done.
      intros Hnq. destruct (I4 Hnq) as [F1 F2]. split; [done|]. by intros e [=].
  - unfold Quit in E. apply bind_Some in E as (q & Ec & (f & Ef & E)%bind_Some).
    simplify_eq/=. apply chan_send_Some in Ef as [-> _]. rewrite Hq in I1. split_and!; try done.
    rewrite length_app. cbn in *. lia.
Qed.

Lemma reachable_inv s t st : bs_finish s = [] -> reachable s t st -> mc_inv st.
Proof.
  intros Hf. induction 1; eauto using mstart_inv, bstep_inv.
Qed.

End Loop.

Arguments MState : clear implicits.
Arguments loop_result : clear implicits.

(** ** Deadlock of a step without a loop *)

Section Stuck.
Context {T : Type} (hm : StepMessage -> T -> outcome (bool * T)).

Definition stuck (st : MState T) : Prop :=
  ms_loop st = false /\ ms_done st = None /\
  length (bs_msgChan (ms_base st)) = bs_msgCap (ms_base st).

Lemma full_send {A} (q : list A) x cap : length q = cap -> chan_send cap q x = None.
Proof. intros HH. unfold chan_send. by rewrite decide_False by lia. Qed.

Lemma stuck_FinishStep ev st : stuck st -> FinishStep ev (ms_base st) = None.
Proof.
  intros (_ & _ & Hl). destruct ev; cbn.
  - destruct (bs_finish (ms_base st)); [done|]. by rewrite full_send.
  - by rewrite full_send.
Qed.

Lemma stuck_bstep st st' : stuck st -> bstep hm st st' -> False.
Proof.
  intros Hs Hst. pose proof Hs as (Hl & Hd & Hf).
  destruct Hst as [? msg q E|? s' t' Hl' E|? q Hl' E|? ev err s' Hd' E|? err s' Hq E];
    try congruence.
  - by rewrite full_send in E.
  - by rewrite stuck_FinishStep in E.
  - unfold Quit in E. rewrite (full_send (bs_msgChan _)) in E by done. discriminate E.
Qed.

(** Delivering messages to a step whose loop never started. *)
Lemma deliver_all s t (msgs : list StepMessage) st :
  reachable hm s t st ->
  (length (bs_msgChan (ms_base st)) + length msgs <= bs_msgCap (ms_base st))%nat ->
  exists st', reachable hm s t st' /\ ms_loop st' = ms_loop st /\ ms_done st' = ms_done st /\
    bs_msgCap (ms_base st') = bs_msgCap (ms_base st) /\
    length (bs_msgChan (ms_base st')) = (length (bs_msgChan (ms_base st)) + length msgs)%nat.
Proof.
  revert st. induction msgs as [|m msgs IH]; intros st Hr Hl.
  { exists st. split_and!; try done. }
  cbn in Hl. set (q := bs_msgChan (ms_base st) ++ [Some m]).
  assert (chan_send (bs_msgCap (ms_base st)) (bs_msgChan (ms_base st)) (Some m) = Some q) as E.
  { unfold chan_send. by rewrite decide_True by lia. }
  destruct (IH _ (reach_step hm s t _ _ Hr (bstep_deliver hm st m q E))) as (st' & R & L & D & Cp & Le).
  - cbn. unfold q. rewrite length_app. cbn. lia.
  - exists st'. split_and!; try done. rewrite Le. cbn. unfold q. rewrite length_app. cbn. lia.
Qed.

Lemma mstart_zero peers (t : T) :
  mstart (CreateBaseStep peers 0) t
  = Some {| ms_base := set_finish [None] (CreateBaseStep peers 0); ms_inner := t; ms_loop := false;
            ms_done := None; ms_quit := false; ms_accepted := []; ms_init := 0 |}.
Proof. done. Qed.

End Stuck.

(** ** Properties of the manifest *)

(** C13: no interleaving of deliveries, loop iterations, the main goroutine and
    one quit fills the finish channel (capacity 3), so no goroutine blocks on
    it, and what is still waited for plus what was accepted is the number
    the step was created with. *)
Theorem finish_channel_bounded {T} (hm : StepMessage -> T -> outcome (bool * T))
  (peers : list PeerInfo) (wait : Z) (t : T) (st : MState T) :
  reachable hm (CreateBaseStep peers wait) t st ->
  (length (bs_finish (ms_base st)) < finishCap)%nat /\
  (0 < ms_init st ->
   0 <= bs_waiting (ms_base st) /\
   Z.of_nat (length (ms_accepted st)) + bs_waiting (ms_base st) = ms_init st).
Proof.
  intros Hr. apply reachable_inv in Hr as (I1 & I2 & _); [|done]. split; [|done].
  unfold finishCap. revert I1. case_bool_decide; destruct (ms_quit st), (ms_done st) as [[[] ?]|];
    cbn; lia.
Qed.

Definition accept_all (msg : StepMessage) (n : nat) : outcome (bool * nat) := Ret (true, S n).

Definition demo_peer : PeerInfo := {| PeerID := [Byte.x01]; Seed := 5 |}.

Definition demo_msg : StepMessage :=
  {| sm_MsgCode := 0; sm_PeerID := Some [Byte.x01]; sm_Peers := None; sm_Data := [7];
     sm_BytesData := []; sm_StepId := 0 |}.

(** One message delivered, handled, and the step finished. *)
Definition demo_delivered : MState nat :=
  {| ms_base := set_msgChan [Some demo_msg] (CreateBaseStep [demo_peer] 1); ms_inner := 0%nat;
     ms_loop := true; ms_done := None; ms_quit := false; ms_accepted := []; ms_init := 1 |}.

Definition demo_handled_base : BaseStep :=
  {| bs_msgCap := 4; bs_msgChan := []; bs_finish := [None]; bs_waiting := 0; bs_waitAll := true;
     bs_stepId := 0;
     bs_notRecvPeers := bs_notRecvPeers (CreateBaseStep [demo_peer] 1) ∖ {[ [Byte.x01] ]} |}.

Definition demo_handled : MState nat :=
  {| ms_base := demo_handled_base; ms_inner := 1%nat;
     ms_loop := true; ms_done := None; ms_quit := false; ms_accepted := [demo_msg]; ms_init := 1 |}.

Definition demo_finished : MState nat :=
  {| ms_base := set_msgChan [None] (set_finish [] demo_handled_base);
     ms_inner := 1%nat; ms_loop := true; ms_done := Some (FinishReceived, None);
     ms_quit := false; ms_accepted := [demo_msg]; ms_init := 1 |}.

Lemma demo_reachable : reachable accept_all (CreateBaseStep [demo_peer] 1) 0%nat demo_finished.
Proof.
  eapply reach_step; [eapply reach_step; [eapply reach_step; [by apply reach_start|]|]|].
  - by apply (bstep_deliver accept_all _ demo_msg [Some demo_msg]).
  - by apply (bstep_loop accept_all demo_delivered demo_handled_base 1%nat).
  - by apply (bstep_finish accept_all demo_handled FinishReceived None).
Qed.

Lemma finish_channel_bounded_witness :
  (length (bs_finish (ms_base demo_finished)) < finishCap)%nat.
Proof.
  apply (finish_channel_bounded accept_all [demo_peer] 1 0%nat demo_finished).
  apply demo_reachable.
Defined.

(** C14: a step that finishes through its channel without a quit returns no
    error, and its handler has accepted exactly the number of messages it was
    waiting for, all addressed to this step. *)
Theorem finish_means_all_received {T} (hm : StepMessage -> T -> outcome (bool * T))
  (s : BaseStep) (t : T) (st : MState T) (err : option error) :
  bs_finish s = [] -> 0 < bs_waiting s -> reachable hm s t st ->
  ms_quit st = false -> ms_done st = Some (FinishReceived, err) ->
  err = None /\ Z.of_nat (length (ms_accepted st)) = bs_waiting s /\
  Forall (fun m => sm_StepId m = bs_stepId (ms_base st)) (ms_accepted st).
Proof.
  intros Hf Hw Hr Hq Hd.
  assert (ms_init st = bs_waiting s) as Hi.
  { clear Hq Hd. induction Hr as [st HH|st st' Hr IH Hst].
    - unfold mstart, InitMessageLoop in HH. rewrite decide_False in HH by lia.
      cbn in HH. by simplify_eq.
    - by destruct Hst. }
  apply reachable_inv in Hr as (I1 & I2 & _ & I5 & I4); [|done].
  destruct (I4 Hq) as [_ F2]. destruct (I2 ltac:(lia)) as [Hw0 Ha].
  split; [by apply F2|]. split; [|done].
  rewrite Hd, Hq in I1. cbn in I1. case_bool_decide as Hz; cbn in I1; lia.
Qed.

Lemma finish_means_all_received_witness :
  @None error = None /\ Z.of_nat (length (ms_accepted demo_finished)) = 1 /\
  Forall (fun m => sm_StepId m = bs_stepId (ms_base demo_finished)) (ms_accepted demo_finished).
Proof.
  apply (finish_means_all_received accept_all (CreateBaseStep [demo_peer] 1) 0%nat demo_finished None);
    [done|done|apply demo_reachable|done|done].
Defined.

(** A step created to wait for nothing ([AckMpcStep], [MpcReadyStep]) has no
    goroutine draining its message channel: once peers have sent it as many
    messages as the channel holds, the main goroutine can neither finish the
    step, by its channel or by the timeout, nor quit it, and no event of the
    step is possible any more. *)
Theorem zero_wait_step_deadlock {T} (hm : StepMessage -> T -> outcome (bool * T))
  (peers : list PeerInfo) (t : T) (msgs : list StepMessage) :
  length msgs = (length peers + 3)%nat ->
  exists st, reachable hm (CreateBaseStep peers 0) t st /\ ms_done st = None /\
    (forall ev, FinishStep ev (ms_base st) = None) /\ (forall st', ~ bstep hm st st').
Proof.
  intros Hl. pose proof (mstart_zero peers t) as E.
  pose proof (reach_start hm _ _ _ E) as Hr.
  destruct (deliver_all hm _ _ msgs _ Hr) as (st & R & L & D & Cp & Le); [cbn; lia|].
  assert (stuck st) as Hs.
  { unfold stuck. rewrite L, D, Cp, Le. cbn. split_and!; [done..|lia]. }
  exists st. split_and!; [done|by destruct Hs as (_ & ? & _)| |].
  - intros ev. by apply stuck_FinishStep.
  - intros st' HH. by eapply stuck_bstep.
Qed.

Lemma zero_wait_step_deadlock_witness :
  exists st, reachable accept_all (CreateBaseStep [demo_peer] 0) 0%nat st /\ ms_done st = None /\
    (forall ev, FinishStep ev (ms_base st) = None) /\ (forall st', ~ bstep accept_all st st').
Proof.
  apply (zero_wait_step_deadlock accept_all [demo_peer] 0%nat (replicate 4 demo_msg)). done.
Defined.
