(* ===== verification/Steps.v ===== *)
(** * The protocol steps

    [src/storeman/storemanmpc/step/]: every concrete step, with the methods of
    the interface [MpcStepFunc] ([InitStep], [CreateMessage], [HandleMessage],
    [FinishStep]).  The peers are shared by pointer between a context and its
    steps, so they are an argument of the methods, and a result of the one
    that assigns their seeds. *)

From S2P Require Import Prelude BigInt Curve Schnorr Protocol Generators BaseStep.

(** ** The manager a step calls back

    [StoremanManager.CreateKeystore] stores the new account ([W] is the state
    of the account manager) and the encoded group key.  [SelfNodeId] only feeds
    the log. *)
Class StoremanManager (W : Type) := {
  CreateKeystore : BaseMpcResult -> list PeerInfo -> string -> W -> outcome (BaseMpcResult * W)
}.

(** ** Sources of randomness

    The draws of [crypto/rand], and those of [math/rand] for the seeds. *)
Record Entropy := { crypto_rand : reader; math_rand : list Z }.

(** ** Broadcast and point-to-point messages a step creates *)

Definition step_message (code : Z) (to : option NodeID) (data : list Z) (bdata : list bytes)
  : StepMessage :=
  {| sm_MsgCode := code; sm_PeerID := to; sm_Peers := None; sm_Data := data;
     sm_BytesData := bdata; sm_StepId := 0 |}.

(** ** [RequestMpcStep] *)

Record RequestMpcStep := {
  rq_messageType : Z;
  rq_mpcSignByApprove : list Z;
  rq_address : bytes;
  rq_mpcM : bytes;
  rq_mpcExt : bytes;
  rq_message : gset NodeID
}.

Definition CreateRequestMpcStep (peers : list PeerInfo) (messageType : Z)
  : BaseStep * RequestMpcStep :=
  (CreateBaseStep peers (Z.of_nat (length peers) - 1),
   {| rq_messageType := messageType; rq_mpcSignByApprove := []; rq_address := [];
      rq_mpcM := []; rq_mpcExt := []; rq_message := ∅ |}).

(** One round of the inner loop of [InitStep]: draw until the seed is new.
    [None]: the draws are used up and the loop still runs. *)
Fixpoint draw_seed (findMap : gset Z) (draws : list Z) : option (Z * list Z) :=
  match draws with
  | [] => None
  | d :: draws' =>
      let seed := d mod 16777214 + 1 in
      if decide (seed ∈ findMap) then draw_seed findMap draws' else Some (seed, draws')
  end.

Fixpoint assign_seeds (findMap : gset Z) (peers : list PeerInfo) (draws : list Z)
  : option (list PeerInfo * list Z) :=
  match peers with
  | [] => Some ([], draws)
  | p :: ps =>
      '(seed, draws) ← draw_seed findMap draws;
      '(ps, draws) ← assign_seeds ({[seed]} ∪ findMap) ps draws;
      Some ({| PeerID := PeerID p; Seed := seed |} :: ps, draws)
  end.

Definition RequestMpcStep_InitStep (peers : list PeerInfo) (res : BaseMpcResult) (draws : list Z)
  (req : RequestMpcStep) : option (outcome (RequestMpcStep * list PeerInfo * list Z)) :=
  if decide (rq_messageType req = MpcGPKLeader) then
    '(peers, draws) ← assign_seeds ∅ peers draws;
    Some (Ret (req, peers, draws))
  else if decide (rq_messageType req = MpcSignLeader) then
    Some (address ← GetByteValue MpcAddress res;
          mpcM ← GetByteValue MpcM res;
          mpcExt ← GetByteValue MpcExt res;
          byApprove ← GetValue MpcByApprove res;
          Ret ({| rq_messageType := rq_messageType req; rq_mpcSignByApprove := byApprove;
                  rq_address := address; rq_mpcM := mpcM; rq_mpcExt := mpcExt;
                  rq_message := rq_message req |}, peers, draws))
  else Some (Ret (req, peers, draws)).

Definition RequestMpcStep_CreateMessage (peers : list PeerInfo) (req : RequestMpcStep)
  : outcome (list StepMessage) :=
  if decide (rq_messageType req = MpcSignLeader) then
    byApprove ← idx (rq_mpcSignByApprove req) 0;
    Ret [{| sm_MsgCode := RequestMPC; sm_PeerID := None; sm_Peers := Some peers;
            sm_Data := [rq_messageType req; byApprove];
            sm_BytesData := [rq_mpcM req; rq_address req; rq_mpcExt req]; sm_StepId := 0 |}]
  else
    Ret [{| sm_MsgCode := RequestMPC; sm_PeerID := None; sm_Peers := Some peers;
            sm_Data := [rq_messageType req; 0]; sm_BytesData := []; sm_StepId := 0 |}].

Definition RequestMpcStep_HandleMessage (msg : StepMessage) (req : RequestMpcStep)
  : outcome (bool * RequestMpcStep) :=
  id ← of_option (sm_PeerID msg);
  if decide (id ∈ rq_message req) then Ret (false, req)
  else Ret (true, {| rq_messageType := rq_messageType req;
                     rq_mpcSignByApprove := rq_mpcSignByApprove req;
                     rq_address := rq_address req; rq_mpcM := rq_mpcM req;
                     rq_mpcExt := rq_mpcExt req; rq_message := {[id]} ∪ rq_message req |}).

(** Methods named [_finish] are what [FinishStep] does after the embedded
    [BaseStep.FinishStep] returned nil. *)
Definition RequestMpcStep_finish (res : BaseMpcResult) (req : RequestMpcStep) : BaseMpcResult :=
  SetValue MPCAction [rq_messageType req] res.

(** ** [AckMpcStep], [MpcReadyStep], [GetMpcReadyStep] *)

Definition CreateAckMpcStep (peers : list PeerInfo) : BaseStep := CreateBaseStep peers 0.

Definition AckMpcStep_CreateMessage (messageType : Z) : list StepMessage :=
  [step_message MPCMessage None [messageType] []].

Definition AckMpcStep_finish (res : BaseMpcResult) (messageType : Z) : BaseMpcResult :=
  SetValue MPCAction [messageType] res.

Definition CreateMpcReadyStep (peers : list PeerInfo) : BaseStep := CreateBaseStep peers 0.

Definition MpcReadyStep_CreateMessage : list StepMessage := [step_message MPCMessage None [1] []].

Definition CreateGetMpcReadyStep (peers : list PeerInfo) : BaseStep := CreateBaseStep peers 1.

(** ** [AckMpcGPKStep] *)

Record AckMpcGPKStep := {
  ag_message : gset NodeID;
  ag_mpcGPK : bytes;
  ag_remoteMpcGPKs : gmap NodeID bytes
}.

Definition CreateAckMpcGPKStep (peers : list PeerInfo) : BaseStep * AckMpcGPKStep :=
  (CreateBaseStep peers (-1), {| ag_message := ∅; ag_mpcGPK := []; ag_remoteMpcGPKs := ∅ |}).

Definition AckMpcGPKStep_InitStep (res : BaseMpcResult) (ack : AckMpcGPKStep)
  : outcome AckMpcGPKStep :=
  mpcGpk ← GetByteValue MpcContextResult res;
  Ret {| ag_message := ag_message ack; ag_mpcGPK := mpcGpk;
         ag_remoteMpcGPKs := ag_remoteMpcGPKs ack |}.

Definition AckMpcGPKStep_CreateMessage (ack : AckMpcGPKStep) : list StepMessage :=
  [step_message MPCMessage None [] [ag_mpcGPK ack]].

(** Every failing comparison returns the same error, so the order of the
    iteration over the map does not matter.  The keys received are never nil
    slices: a decoded byte string is not nil. *)
Definition AckMpcGPKStep_finish (peers : list PeerInfo) (ack : AckMpcGPKStep) : outcome unit :=
  if decide (size (ag_remoteMpcGPKs ack) <> length peers) then Err ErrInvalidMPCAddr else
  if forallb (fun e => bool_decide (ag_mpcGPK ack = e.2)) (map_to_list (ag_remoteMpcGPKs ack))
  then Ret tt else Err ErrInvalidMPCAddr.

Definition AckMpcGPKStep_HandleMessage (msg : StepMessage) (ack : AckMpcGPKStep)
  : outcome (bool * AckMpcGPKStep) :=
  id ← of_option (sm_PeerID msg);
  if decide (id ∈ ag_message ack) then Ret (false, ack) else
  let remote := match sm_BytesData msg with
                | gpk :: _ => <[id := gpk]> (ag_remoteMpcGPKs ack)
                | [] => ag_remoteMpcGPKs ack
                end in
  Ret (true, {| ag_message := {[id]} ∪ ag_message ack; ag_mpcGPK := ag_mpcGPK ack;
                ag_remoteMpcGPKs := remote |}).

(** ** [MpcPointStep] ([MpcGPKStep] and [MpcRStep] embed it) *)

Record MpcPointStep := {
  ps_messages : list mpcPointGenerator;
  ps_resultKeys : list string;
  ps_signNum : nat
}.

Definition CreateMpcPointStep (peers : list PeerInfo) (preValueKeys resultKeys : list string)
  : BaseStep * MpcPointStep :=
  (CreateBaseStep peers (-1),
   {| ps_messages := map createPointGenerator preValueKeys; ps_resultKeys := resultKeys;
      ps_signNum := length preValueKeys |}).

Definition CreateMpcGPKStep (peers : list PeerInfo) : BaseStep * MpcPointStep :=
  CreateMpcPointStep peers [MpcPublicShare] [PublicKeyResult].

Definition CreateMpcRStep (peers : list PeerInfo) : BaseStep * MpcPointStep :=
  CreateMpcPointStep peers [RMpcPublicShare] [RPublicKeyResult].

Definition MpcPointStep_InitStep (res : BaseMpcResult) (s : MpcPointStep) : outcome MpcPointStep :=
  ms ← mapM_out (mpcPointGenerator_initialize res) (ps_messages s);
  Ret {| ps_messages := ms; ps_resultKeys := ps_resultKeys s; ps_signNum := ps_signNum s |}.

Definition MpcPointStep_CreateMessage (s : MpcPointStep) : outcome (list StepMessage) :=
  data ← for_range (seq 0 (ps_signNum s))
           (fun i data => g ← idx (ps_messages s) i;
                          Ret (data ++ [(pg_seed g).1; (pg_seed g).2])) [];
  Ret [step_message MPCMessage None data []].

(** The loop of [HandleMessage] from index [i], for [cnt] more entries; an early
    return keeps what the previous entries stored. *)
Fixpoint point_loop (seed : Z) (data : list Z) (cnt i : nat) (ms : list mpcPointGenerator)
  : outcome (bool * list mpcPointGenerator) :=
  match cnt with
  | O => Ret (true, ms)
  | S cnt' =>
      g ← idx ms i;
      match pg_message g !! seed with
      | Some _ => Ret (false, ms)
      | None =>
          x ← idx data (2 * i);
          y ← idx data (2 * i + 1);
          point_loop seed data cnt' (S i)
            (<[i := {| pg_seed := pg_seed g; pg_message := <[seed := (x, y)]> (pg_message g);
                       pg_result := pg_result g; pg_preValueKey := pg_preValueKey g |}]> ms)
      end
  end.

(** The log line reads [msg.Data[0]] and [msg.Data[1]] before any check. *)
Definition MpcPointStep_HandleMessage (peers : list PeerInfo) (msg : StepMessage)
  (s : MpcPointStep) : outcome (bool * MpcPointStep) :=
  id ← of_option (sm_PeerID msg);
  let seed := getPeerSeed peers id in
  _ ← idx (sm_Data msg) 0;
  _ ← idx (sm_Data msg) 1;
  if decide (seed = 0) then Ret (false, s) else
  if decide (length (sm_Data msg) <> 2 * ps_signNum s)%nat then Ret (false, s) else
  '(b, ms) ← point_loop seed (sm_Data msg) (ps_signNum s) 0 (ps_messages s);
  Ret (b, {| ps_messages := ms; ps_resultKeys := ps_resultKeys s; ps_signNum := ps_signNum s |}).

(** ** [MpcSStep] *)

Record MpcSStep := {
  ss_messages : list mpcSGenerator;
  ss_resultKeys : list string;
  ss_signNum : nat
}.

Definition CreateMpcSStep (peers : list PeerInfo) (preValueKeys resultKeys : list string)
  : BaseStep * MpcSStep :=
  (CreateBaseStep peers (-1),
   {| ss_messages := map createSGenerator preValueKeys; ss_resultKeys := resultKeys;
      ss_signNum := length preValueKeys |}).

Definition MpcSStep_CreateMessage (s : MpcSStep) : outcome (list StepMessage) :=
  data ← for_range (seq 0 (ss_signNum s))
           (fun i data => g ← idx (ss_messages s) i; Ret (data ++ [sg_seed g])) [];
  Ret [step_message MPCMessage None data []].

(** The index is [2 * i], although the message has one value per signature. *)
Fixpoint s_loop (seed : Z) (data : list Z) (cnt i : nat) (ms : list mpcSGenerator)
  : outcome (bool * list mpcSGenerator) :=
  match cnt with
  | O => Ret (true, ms)
  | S cnt' =>
      g ← idx ms i;
      match sg_message g !! seed with
      | Some _ => Ret (false, ms)
      | None =>
          v ← idx data (2 * i);
          s_loop seed data cnt' (S i)
            (<[i := {| sg_seed := sg_seed g; sg_message := <[seed := v]> (sg_message g);
                       sg_result := sg_result g; sg_preValueKey := sg_preValueKey g |}]> ms)
      end
  end.

Definition MpcSStep_HandleMessage (peers : list PeerInfo) (msg : StepMessage) (s : MpcSStep)
  : outcome (bool * MpcSStep) :=
  id ← of_option (sm_PeerID msg);
  let seed := getPeerSeed peers id in
  if decide (seed = 0) then Ret (false, s) else
  if decide (length (sm_Data msg) <> ss_signNum s) then Ret (false, s) else
  '(b, ms) ← s_loop seed (sm_Data msg) (ss_signNum s) 0 (ss_messages s);
  Ret (b, {| ss_messages := ms; ss_resultKeys := ss_resultKeys s; ss_signNum := ss_signNum s |}).

(** ** [MpcSKShareStep] and [MpcRSKShare_Step] *)

Definition CreateMpcSKShareStep (degree : Z) (peers : list PeerInfo)
  : outcome (BaseStep * RandomPolynomialValue) :=
  g ← createSkPolyValue degree (length peers); Ret (CreateBaseStep peers (-1), g).

Definition MpcSKShareStep_CreateMessage (peers : list PeerInfo) (g : RandomPolynomialValue)
  : outcome (list StepMessage) :=
  mapM_out (fun i => p ← idx peers i; v ← idx (rp_polyValue g) i;
                     Ret (step_message MPCMessage (Some (PeerID p)) [v] []))
    (seq 0 (length peers)).

(** A sender that is not in the group has seed 0: this is only logged. *)
Definition MpcSKShareStep_HandleMessage (peers : list PeerInfo) (msg : StepMessage)
  (g : RandomPolynomialValue) : outcome (bool * RandomPolynomialValue) :=
  id ← of_option (sm_PeerID msg);
  let seed := getPeerSeed peers id in
  match rp_message g !! seed with
  | Some _ => Ret (false, g)
  | None =>
      v ← idx (sm_Data msg) 0;
      Ret (true, {| rp_randCoefficient := rp_randCoefficient g;
                    rp_message := <[seed := v]> (rp_message g);
                    rp_polyValue := rp_polyValue g; rp_result := rp_result g |})
  end.

(** ** [MpcAckRSStep] *)

Record MpcAckRSStep := {
  ar_message : gset NodeID;
  ar_remoteMpcR : gmap NodeID (Z * Z);
  ar_remoteMpcS : gmap NodeID Z;
  ar_mpcR : Z * Z;
  ar_mpcS : Z
}.

Definition CreateAckMpcRSStep (peers : list PeerInfo) : BaseStep * MpcAckRSStep :=
  (CreateBaseStep peers (-1),
   {| ar_message := ∅; ar_remoteMpcR := ∅; ar_remoteMpcS := ∅; ar_mpcR := (0, 0); ar_mpcS := 0 |}).

Definition MpcAckRSStep_InitStep (res : BaseMpcResult) (s : MpcAckRSStep) : outcome MpcAckRSStep :=
  value ← GetValue RPublicKeyResult res;
  x ← idx value 0;
  y ← idx value 1;
  sValue ← GetValue MpcS res;
  sv ← idx sValue 0;
  Ret {| ar_message := ar_message s; ar_remoteMpcR := ar_remoteMpcR s;
         ar_remoteMpcS := ar_remoteMpcS s; ar_mpcR := (x, y); ar_mpcS := sv |}.

Definition MpcAckRSStep_CreateMessage (s : MpcAckRSStep) : list StepMessage :=
  [step_message MPCMessage None [ar_mpcS s; (ar_mpcR s).1; (ar_mpcR s).2] []].

Definition MpcAckRSStep_HandleMessage (msg : StepMessage) (s : MpcAckRSStep)
  : outcome (bool * MpcAckRSStep) :=
  id ← of_option (sm_PeerID msg);
  if decide (id ∈ ar_message s) then Ret (false, s) else
  let '(rr, rs) := match sm_Data msg with
                   | d0 :: d1 :: d2 :: _ => (<[id := (d1, d2)]> (ar_remoteMpcR s),
                                             <[id := d0]> (ar_remoteMpcS s))
                   | _ => (ar_remoteMpcR s, ar_remoteMpcS s)
                   end in
  Ret (true, {| ar_message := {[id]} ∪ ar_message s; ar_remoteMpcR := rr; ar_remoteMpcS := rs;
                ar_mpcR := ar_mpcR s; ar_mpcS := ar_mpcS s |}).

Section Finish.
Context {C : EllipticCurve} {H : Hashes} {R : MapRange} {W : Type} {M : StoremanManager W}
  (vars : ProtocolVars).

(** [BaseMpcStep.FinishStep] is [calculateResult] of every generator. *)

(** The share and its public counterpart; a zero share has no public point. *)
Definition share_finish (privKey pubKey : string) (res : BaseMpcResult)
  (g : RandomPolynomialValue) : outcome (BaseMpcResult * RandomPolynomialValue) :=
  let g := RandomPolynomialValue_calculateResult g in
  result ← of_option (rp_result g);
  let res := SetValue privKey [result] res in
  gpkShare ← ScalarBaseMult (Bytes result);
  '(x, y) ← of_option gpkShare;
  Ret (SetValue pubKey [x; y] res, g).

Definition MpcSKShareStep_finish := share_finish MpcPrivateShare MpcPublicShare.

Definition MpcRSKShare_Step_finish := share_finish RMpcPrivateShare RMpcPublicShare.

Definition MpcPointStep_finish (res : BaseMpcResult) (s : MpcPointStep)
  : outcome (BaseMpcResult * MpcPointStep) :=
  ms ← mapM_out (mpcPointGenerator_calculateResult vars) (ps_messages s);
  res ← for_range (seq 0 (ps_signNum s))
          (fun i res => g ← idx ms i; key ← idx (ps_resultKeys s) i;
                        Ret (SetValue key [(pg_result g).1; (pg_result g).2] res)) res;
  Ret (res, {| ps_messages := ms; ps_resultKeys := ps_resultKeys s; ps_signNum := ps_signNum s |}).

Definition MpcGPKStep_finish (accType : string) (peers : list PeerInfo) (res : BaseMpcResult)
  (w : W) (s : MpcPointStep) : outcome (BaseMpcResult * W * MpcPointStep) :=
  '(res, s) ← MpcPointStep_finish res s;
  '(res, w) ← CreateKeystore res peers accType w;
  Ret (res, w, s).

Definition MpcSStep_InitStep (res : BaseMpcResult) (s : MpcSStep) : outcome MpcSStep :=
  ms ← mapM_out (mpcSGenerator_initialize res) (ss_messages s);
  Ret {| ss_messages := ms; ss_resultKeys := ss_resultKeys s; ss_signNum := ss_signNum s |}.

Definition MpcSStep_finish (res : BaseMpcResult) (s : MpcSStep)
  : outcome (BaseMpcResult * MpcSStep) :=
  ms ← mapM_out (mpcSGenerator_calculateResult vars) (ss_messages s);
  res ← for_range (seq 0 (ss_signNum s))
          (fun i res => g ← idx ms i; key ← idx (ss_resultKeys s) i;
                        Ret (SetValue key [sg_result g] res)) res;
  Ret (res, {| ss_messages := ms; ss_resultKeys := ss_resultKeys s; ss_signNum := ss_signNum s |}).

(** [verifyRS].  Both loops return one error whatever entry differs.  The
    scalars are not range-checked: a zero or too large [s], or a challenge of
    at least [N], gives nil coordinates, which are dereferenced. *)
Definition verifyRS (res : BaseMpcResult) (s : MpcAckRSStep) : outcome unit :=
  if negb (forallb (fun e => bool_decide (ar_mpcR s = e.2)) (map_to_list (ar_remoteMpcR s)))
  then Err ErrInvalidMPCR else
  if negb (forallb (fun e => bool_decide (ar_mpcS s = e.2)) (map_to_list (ar_remoteMpcS s)))
  then Err ErrInvalidMPCS else
  MBytes ← GetByteValue MpcM res;
  gpkItem ← GetValue PublicKeyResult res;
  gx ← idx gpkItem 0;
  gy ← idx gpkItem 1;
  let gpk := Some (gx, gy) in
  let rpk := Some (ar_mpcR s) in
  m ← challenge MBytes rpk;
  ssG ← ScalarBaseMult (Bytes (ar_mpcS s));
  mgpk ← ScalarMult gpk (Bytes m);
  temp ← Add mgpk rpk;
  _ ← FromECDSAPub (Some temp);
  _ ← FromECDSAPub (Some ssG);
  _ ← FromECDSAPub (Some gpk);
  '(sx, sy) ← of_option ssG;
  '(tx, ty) ← of_option temp;
  if (sx =? tx) && (sy =? ty) then Ret tt else Err ErrVerifyFailed.

Definition MpcAckRSStep_finish (res : BaseMpcResult) (s : MpcAckRSStep) : outcome BaseMpcResult :=
  _ ← verifyRS res s;
  rBytes ← FromECDSAPub (Some (Some (ar_mpcR s)));
  Ret (SetByteValue MpcContextResult (rBytes ++ Bytes (ar_mpcS s)) res).

End Finish.

(** ** Dynamic dispatch ([MpcStepFunc]) *)

Inductive StepInner :=
| SRequest (s : RequestMpcStep)
| SAck (messageType : Z)
| SReady
| SGetReady
| SSKShare (g : RandomPolynomialValue)
| SRSKShare (g : RandomPolynomialValue)
| SGPK (s : MpcPointStep) (accType : string)
| SR (s : MpcPointStep) (accType : string)
| SS (s : MpcSStep)
| SAckGPK (s : AckMpcGPKStep)
| SAckRS (s : MpcAckRSStep).

Definition ret_fst {A B} (f : A -> B) (o : outcome (bool * A)) : outcome (bool * B) :=
  '(b, a) ← o; Ret (b, f a).

(** [msger.HandleMessage]. *)
Definition step_HandleMessage (peers : list PeerInfo) (msg : StepMessage) (s : StepInner)
  : outcome (bool * StepInner) :=
  match s with
  | SRequest r => ret_fst SRequest (RequestMpcStep_HandleMessage msg r)
  | SAck _ | SReady | SGetReady => Ret (true, s)
  | SSKShare g => ret_fst SSKShare (MpcSKShareStep_HandleMessage peers msg g)
  | SRSKShare g => ret_fst SRSKShare (MpcSKShareStep_HandleMessage peers msg g)
  | SGPK p a => ret_fst (fun p => SGPK p a) (MpcPointStep_HandleMessage peers msg p)
  | SR p a => ret_fst (fun p => SR p a) (MpcPointStep_HandleMessage peers msg p)
  | SS p => ret_fst SS (MpcSStep_HandleMessage peers msg p)
  | SAckGPK a => ret_fst SAckGPK (AckMpcGPKStep_HandleMessage msg a)
  | SAckRS a => ret_fst SAckRS (MpcAckRSStep_HandleMessage msg a)
  end.

Definition step_CreateMessage (peers : list PeerInfo) (s : StepInner) : outcome (list StepMessage) :=
  match s with
  | SRequest r => RequestMpcStep_CreateMessage peers r
  | SAck t => Ret (AckMpcStep_CreateMessage t)
  | SReady => Ret MpcReadyStep_CreateMessage
  | SGetReady => Ret []
  | SSKShare g | SRSKShare g => MpcSKShareStep_CreateMessage peers g
  | SGPK p _ | SR p _ => MpcPointStep_CreateMessage p
  | SS p => MpcSStep_CreateMessage p
  | SAckGPK a => Ret (AckMpcGPKStep_CreateMessage a)
  | SAckRS a => Ret (MpcAckRSStep_CreateMessage a)
  end.

Section Dispatch.
Context {C : EllipticCurve} {H : Hashes} {R : MapRange} {W : Type} {M : StoremanManager W}
  (vars : ProtocolVars).

(** Result of [InitStep]: the step, the peers (with their seeds) and what is left of
    the random draws; [None] while the seed loop runs. *)
Definition step_InitStep (peers : list PeerInfo) (res : BaseMpcResult) (ent : Entropy)
  (s : StepInner) : option (outcome (StepInner * list PeerInfo * Entropy)) :=
  let keep (o : outcome StepInner) := Some (s ← o; Ret (s, peers, ent)) in
  match s with
  | SRequest r =>
      o ← RequestMpcStep_InitStep peers res (math_rand ent) r;
      Some ('(r, peers, draws) ← o;
            Ret (SRequest r, peers, {| crypto_rand := crypto_rand ent; math_rand := draws |}))
  | SAck _ | SReady | SGetReady => keep (Ret s)
  | SSKShare g =>
      let '(o, rd) := RandomPolynomialValue_initialize peers (crypto_rand ent) g in
      Some (g ← o; Ret (SSKShare g, peers, {| crypto_rand := rd; math_rand := math_rand ent |}))
  | SRSKShare g =>
      let '(o, rd) := RandomPolynomialValue_initialize peers (crypto_rand ent) g in
      Some (g ← o; Ret (SRSKShare g, peers, {| crypto_rand := rd; math_rand := math_rand ent |}))
  | SGPK p a => keep (p ← MpcPointStep_InitStep res p; Ret (SGPK p a))
  | SR p a => keep (p ← MpcPointStep_InitStep res p; Ret (SR p a))
  | SS p => keep (p ← MpcSStep_InitStep res p; Ret (SS p))
  | SAckGPK a => keep (a ← AckMpcGPKStep_InitStep res a; Ret (SAckGPK a))
  | SAckRS a => keep (a ← MpcAckRSStep_InitStep res a; Ret (SAckRS a))
  end.

(** What [FinishStep] does once [BaseStep.FinishStep] returned nil. *)
Definition step_finish (peers : list PeerInfo) (res : BaseMpcResult) (w : W) (s : StepInner)
  : outcome (StepInner * BaseMpcResult * W) :=
  match s with
  | SRequest r => Ret (s, RequestMpcStep_finish res r, w)
  | SAck t => Ret (s, AckMpcStep_finish res t, w)
  | SReady | SGetReady => Ret (s, res, w)
  | SSKShare g => '(res, g) ← MpcSKShareStep_finish res g; Ret (SSKShare g, res, w)
  | SRSKShare g => '(res, g) ← MpcRSKShare_Step_finish res g; Ret (SRSKShare g, res, w)
  | SGPK p a => '(res, w, p) ← MpcGPKStep_finish vars a peers res w p; Ret (SGPK p a, res, w)
  | SR p a => '(res, p) ← MpcPointStep_finish vars res p; Ret (SR p a, res, w)
  | SS p => '(res, p) ← MpcSStep_finish vars res p; Ret (SS p, res, w)
  | SAckGPK a => _ ← AckMpcGPKStep_finish peers a; Ret (s, res, w)
  | SAckRS a => res ← MpcAckRSStep_finish res a; Ret (s, res, w)
  end.

(** [FinishStep]: [None] when it blocks. *)
Definition step_FinishStep (ev : finish_event) (peers : list PeerInfo) (res : BaseMpcResult) (w : W)
  (b : BaseStep) (s : StepInner) : option (outcome (StepInner * BaseMpcResult * W) * BaseStep) :=
  '(err, b) ← FinishStep ev b;
  Some (match err with
        | Some e => Err e
        | None => step_finish peers res w s
        end, b).

End Dispatch.
