(* ===== verification/Context.v ===== *)
(** * Contexts

    [src/storeman/storemanmpc/mpc_context.go], [mpc_create_gpk.go],
    [mpc_sign_data.go], [mpc_ctx_factory.go]: a context runs its steps one after
    the other on a shared result store, sends the messages they create, and
    routes the ones it receives to the channel of their step. *)

From S2P Require Import Prelude BigInt Curve Schnorr Protocol Generators BaseStep Steps.

(** ** Runs

    A call of the context may also block for ever: [None]. *)

Definition run (A : Type) : Type := option (outcome A).

Definition block {A} : run A := None.
Definition lift {A} (o : outcome A) : run A := Some o.
Definition ret {A} (a : A) : run A := Some (Ret a).

#[global] Instance run_bind : MBind run := fun A B f m =>
  match m with
  | Some (Ret a) => f a
  | Some (Err e) => Some (Err e)
  | Some Panic => Some Panic
  | None => None
  end.

Fixpoint run_fold {A S} (f : S -> A -> run S) (l : list A) (s : S) : run S :=
  match l with
  | [] => ret s
  | a :: l' => f s a ≫= run_fold f l'
  end.

(** ** State *)

(** A step object: its base, its own fields, and whether its loop goroutine
    runs. *)
Record Step := { st_base : BaseStep; st_inner : StepInner; st_loop : bool }.

Record MpcContext := {
  mc_ContextID : Z;
  mc_bQuit : bool;
  mc_peers : list PeerInfo;
  mc_mpcResult : BaseMpcResult;
  mc_MpcSteps : list Step
}.

Definition with_steps (ss : list Step) (c : MpcContext) : MpcContext :=
  {| mc_ContextID := mc_ContextID c; mc_bQuit := mc_bQuit c; mc_peers := mc_peers c;
     mc_mpcResult := mc_mpcResult c; mc_MpcSteps := ss |}.

Definition with_peers (ps : list PeerInfo) (c : MpcContext) : MpcContext :=
  {| mc_ContextID := mc_ContextID c; mc_bQuit := mc_bQuit c; mc_peers := ps;
     mc_mpcResult := mc_mpcResult c; mc_MpcSteps := mc_MpcSteps c |}.

Definition with_result (r : BaseMpcResult) (c : MpcContext) : MpcContext :=
  {| mc_ContextID := mc_ContextID c; mc_bQuit := mc_bQuit c; mc_peers := mc_peers c;
     mc_mpcResult := r; mc_MpcSteps := mc_MpcSteps c |}.

Definition createMpcContext (contextID : Z) (peers : list PeerInfo) (mpcResult : BaseMpcResult)
  : MpcContext :=
  {| mc_ContextID := contextID; mc_bQuit := false; mc_peers := peers;
     mc_mpcResult := mpcResult; mc_MpcSteps := [] |}.

Definition new_step (b : BaseStep) (s : StepInner) : Step :=
  {| st_base := b; st_inner := s; st_loop := false |}.

(** [setMpcStep]: [MapStepChan[i]] is the channel of the [i]-th step. *)
Definition setMpcStep (steps : list Step) (c : MpcContext) : MpcContext := with_steps steps c.

Definition upd_base (f : BaseStep -> BaseStep) (s : Step) : Step :=
  {| st_base := f (st_base s); st_inner := st_inner s; st_loop := st_loop s |}.

(** [for stepId, stepItem := range mpc.MpcSteps { stepItem.SetStepId(stepId) }] *)
Definition set_step_ids (steps : list Step) : list Step :=
  imap (fun i s => upd_base (SetStepId (Z.of_nat i)) s) steps.

Definition getMpcResult (c : MpcContext) : bytes :=
  match GetByteValue MpcContextResult (mc_mpcResult c) with
  | Ret value => value
  | _ => []
  end.

(** ** Building contexts *)

Section Build.
Context (vars : ProtocolVars).

Definition genCreateGPKMpc (mpc : MpcContext) (firstStep readyStep : Step) : outcome MpcContext :=
  let peers := mc_peers mpc in
  '(bsk, skShare) ← CreateMpcSKShareStep (MPCDegree vars) peers;
  let '(bg, gpk) := CreateMpcGPKStep peers in
  let '(ba, ackGpk) := CreateAckMpcGPKStep peers in
  let mpc := setMpcStep [firstStep; readyStep; new_step bsk (SSKShare skShare);
                         new_step bg (SGPK gpk EmptyString); new_step ba (SAckGPK ackGpk)] mpc in
  Ret (with_steps (set_step_ids (mc_MpcSteps mpc)) mpc).

Definition reqGPKMpc (mpcID : Z) (peers : list PeerInfo) (preSetValue : list MpcValue)
  : outcome MpcContext :=
  let result := InitializeValue preSetValue createMpcBaseMpcResult in
  let mpc := createMpcContext mpcID peers result in
  let '(br, reqMpc) := CreateRequestMpcStep peers MpcGPKLeader in
  genCreateGPKMpc mpc (new_step br (SRequest reqMpc)) (new_step (CreateMpcReadyStep peers) SReady).

(** The seeds of the request: at most 24 bits, pairwise distinct. *)
Fixpoint check_seeds (findMap : gset Z) (peers : list PeerInfo) : outcome unit :=
  match peers with
  | [] => Ret tt
  | item :: ps =>
      if decide (16777215 < Seed item) then Err ErrMpcSeedOutRange else
      if decide (Seed item ∈ findMap) then Err ErrMpcSeedDuplicate else
      check_seeds ({[Seed item]} ∪ findMap) ps
  end.

Definition ackGPKMpc (mpcID : Z) (peers : list PeerInfo) (preSetValue : list MpcValue)
  : outcome MpcContext :=
  _ ← check_seeds ∅ peers;
  let result := InitializeValue preSetValue createMpcBaseMpcResult in
  let mpc := createMpcContext mpcID peers result in
  genCreateGPKMpc mpc (new_step (CreateAckMpcStep peers) (SAck MpcGPKPeer))
    (new_step (CreateGetMpcReadyStep peers) SGetReady).

Definition generateTxSignMpc (mpc : MpcContext) (firstStep readyStep : Step) : outcome MpcContext :=
  let peers := mc_peers mpc in
  '(bsk, skShare) ← CreateMpcSKShareStep (MPCDegree vars) peers;
  let '(br, RStep) := CreateMpcRStep peers in
  let br := SetWaiting (MpcSchnrThr vars) br in
  let '(bs, SStep) := CreateMpcSStep peers [MpcPrivateShare] [MpcS] in
  let bs := SetWaiting (MpcSchnrThr vars) bs in
  let '(ba, ackRSStep) := CreateAckMpcRSStep peers in
  let ba := SetWaiting (MpcSchnrThr vars) ba in
  let mpc := setMpcStep [firstStep; readyStep; new_step bsk (SRSKShare skShare);
                         new_step br (SR RStep EmptyString); new_step bs (SS SStep);
                         new_step ba (SAckRS ackRSStep)] mpc in
  Ret (with_steps (set_step_ids (map (upd_base (SetWaitAll false)) (mc_MpcSteps mpc))) mpc).

Definition reqSignMpc (mpcID : Z) (peers : list PeerInfo) (preSetValue : list MpcValue)
  : outcome MpcContext :=
  let result := InitializeValue preSetValue createMpcBaseMpcResult in
  let mpc := createMpcContext mpcID peers result in
  let '(br, reqMpc) := CreateRequestMpcStep peers MpcSignLeader in
  let br := SetWaiting (MpcSchnrThr vars) br in
  generateTxSignMpc mpc (new_step br (SRequest reqMpc)) (new_step (CreateMpcReadyStep peers) SReady).

Definition ackSignMpc (mpcID : Z) (peers : list PeerInfo) (preSetValue : list MpcValue)
  : outcome MpcContext :=
  let result := InitializeValue preSetValue createMpcBaseMpcResult in
  let mpc := createMpcContext mpcID peers result in
  generateTxSignMpc mpc (new_step (CreateAckMpcStep peers) (SAck MpcSignPeer))
    (new_step (CreateGetMpcReadyStep peers) SGetReady).

(** The log of [CreateContext] reads [Value[0]] of every pre-set value but the
    private share. *)
Definition log_value (v : MpcValue) : outcome unit :=
  if decide (mv_Key v = MpcPrivateShare) then Ret tt else
  match mv_Value v with
  | Some value => _ ← idx value 0; Ret tt
  | None => Ret tt
  end.

Definition CreateContext (ctxType mpcID : Z) (peers : list PeerInfo) (preSetValue : list MpcValue)
  : outcome MpcContext :=
  _ ← mapM_out log_value preSetValue;
  if decide (ctxType = MpcGPKLeader) then reqGPKMpc mpcID peers preSetValue else
  if decide (ctxType = MpcGPKPeer) then ackGPKMpc mpcID peers preSetValue else
  if decide (ctxType = MpcSignLeader) then reqSignMpc mpcID peers preSetValue else
  if decide (ctxType = MpcSignPeer) then ackSignMpc mpcID peers preSetValue else
  Err ErrContextType.

End Build.

(** ** Messages in and out *)

(** A message handed to the network, or to this node itself. *)
Inductive action :=
| ToSelf (code : Z) (msg : MpcMessage)
| ToPeer (id : NodeID) (code : Z) (msg : MpcMessage).

(** [MpcDistributor.P2pMessage] and [BroadcastMessage]; a failing [SendToPeer]
    is only logged. *)
Definition P2pMessage (self peerID : NodeID) (code : Z) (msg : MpcMessage) : action :=
  if decide (peerID = self) then ToSelf code msg else ToPeer peerID code msg.

Definition BroadcastMessage (self : NodeID) (StoreManGroup : list NodeID)
  (peers : option (list NodeID)) (code : Z) (msg : MpcMessage) : list action :=
  map (fun id => P2pMessage self id code msg) (default StoreManGroup peers).

(** Starts the loop of a step, [InitMessageLoop]. *)
Definition start_step (s : Step) : run Step :=
  match InitMessageLoop (st_base s) with
  | Some (b, loop) => ret {| st_base := b; st_inner := st_inner s; st_loop := loop |}
  | None => block
  end.

(** The loop goroutine of a step handles the message at the head of its channel. *)
Definition loop_once (peers : list PeerInfo) (s : Step) : run Step :=
  if st_loop s then
    match HandleMessage (step_HandleMessage peers) (st_base s) (st_inner s) with
    | LoopQuit => ret ({| st_base := set_msgChan (tail (bs_msgChan (st_base s))) (st_base s);
                               st_inner := st_inner s; st_loop := false |})
    | LoopNext b t => ret ({| st_base := b; st_inner := t; st_loop := true |})
    | LoopBlocked => block
    | LoopPanic => lift Panic
    end
  else ret s.

(** The message as the step sees it. *)
Definition received (from : NodeID) (msg : MpcMessage) : StepMessage :=
  {| sm_MsgCode := 0; sm_PeerID := Some from; sm_Peers := None; sm_Data := mm_Data msg;
     sm_BytesData := mm_BytesData msg; sm_StepId := mm_StepID msg |}.

(** [getMessage]: an unknown step has a nil channel, on which a send blocks for
    ever.  The message is then handled at once if the loop runs; no handler
    reads its [Peers]. *)
Definition getMessage (c : MpcContext) (from : NodeID) (msg : MpcMessage) : run MpcContext :=
  match mc_MpcSteps c !! Z.to_nat (mm_StepID msg) with
  | None => block
  | Some s =>
      match chan_send (bs_msgCap (st_base s)) (bs_msgChan (st_base s))
              (Some (received from msg)) with
      | None => block
      | Some q =>
          s' ← loop_once (mc_peers c) (upd_base (set_msgChan q) s);
          ret (with_steps (<[Z.to_nat (mm_StepID msg) := s']> (mc_MpcSteps c)) c)
      end
  end.

(** [getOwnerP2pMessage] and [getMpcMessage]: only protocol messages of this
    context reach it. *)
Definition getOwnerP2pMessage (self : NodeID) (code : Z) (msg : MpcMessage) (c : MpcContext)
  : run MpcContext :=
  if decide (code = MPCMessage /\ mm_ContextID msg = mc_ContextID c)
  then getMessage c self msg else ret c.

Definition do_action (self : NodeID) (c : MpcContext) (a : action) : run MpcContext :=
  match a with
  | ToSelf code msg => getOwnerP2pMessage self code msg c
  | ToPeer _ _ _ => ret c
  end.

(** [quit]: every step is quit once. *)
Definition quit (err : option error) (c : MpcContext) : option MpcContext :=
  if mc_bQuit c then Some c else
  steps ← mapM (fun s => b ← Quit err (st_base s); Some (upd_base (fun _ => b) s)) (mc_MpcSteps c);
  Some {| mc_ContextID := mc_ContextID c; mc_bQuit := true; mc_peers := mc_peers c;
          mc_mpcResult := mc_mpcResult c; mc_MpcSteps := steps |}.

(** ** [mainMPCProcess]

    The script of a run says, for each step, which messages of other nodes
    arrive before it is initialised and before it is finished (for this step or
    for any other one), and how it finishes. *)
Record Script := {
  sc_before : list (NodeID * MpcMessage);
  sc_after : list (NodeID * MpcMessage);
  sc_event : finish_event
}.

Section Main.
Context {C : EllipticCurve} {H : Hashes} {R : MapRange} {W : Type} {M : StoremanManager W}
  (vars : ProtocolVars) (self : NodeID)
  (SetMessagePeers : MpcMessage -> option (list PeerInfo) -> MpcMessage).

Definition peerIDs (c : MpcContext) : list NodeID := map PeerID (mc_peers c).

(** The send loop: the wire form of a message and its destinations. *)
Definition send_message (ids : list NodeID) (ctxID : Z) (i : nat) (item : StepMessage) : list action :=
  let mpcMsg := SetMessagePeers
    {| mm_ContextID := ctxID; mm_StepID := Z.of_nat i; mm_Peers := [];
       mm_Data := sm_Data item; mm_BytesData := sm_BytesData item |} (sm_Peers item) in
  match sm_PeerID item with
  | Some id => [P2pMessage self id (sm_MsgCode item) mpcMsg]
  | None => BroadcastMessage self [] (Some ids) (sm_MsgCode item) mpcMsg
  end.

(** State of the run: the context, the world, the entropy, what was sent. *)
Definition main_state : Type := MpcContext * W * Entropy * list action.

Definition deliver_all_msgs (msgs : list (NodeID * MpcMessage)) (c : MpcContext) : run MpcContext :=
  run_fold (fun c m => getMessage c m.1 m.2) msgs c.

(** One iteration of the step loop. *)
Definition run_step (ids : list NodeID) (i : nat) (sc : Script) (st : main_state) : run main_state :=
  let '(c, w, ent, sent) := st in
  c ← deliver_all_msgs (sc_before sc) c;
  s ← lift (idx (mc_MpcSteps c) i);
  '(inner, peers, ent) ← (step_InitStep (mc_peers c) (mc_mpcResult c) ent (st_inner s) : run _);
  let c := with_peers peers (with_steps
    (<[i := {| st_base := st_base s; st_inner := inner; st_loop := st_loop s |}]> (mc_MpcSteps c)) c) in
  msgs ← lift (step_CreateMessage (mc_peers c) inner);
  let acts := concat (map (send_message ids (mc_ContextID c) i) msgs) in
  c ← run_fold (do_action self) acts c;
  c ← deliver_all_msgs (sc_after sc) c;
  s ← lift (idx (mc_MpcSteps c) i);
  match step_FinishStep vars (sc_event sc) (mc_peers c) (mc_mpcResult c) w (st_base s) (st_inner s) with
  | None => block
  | Some (o, b) =>
      '(inner, res, w) ← lift o;
      s ← loop_once (mc_peers c) {| st_base := b; st_inner := inner; st_loop := st_loop s |};
      ret (with_result res (with_steps (<[i := s]> (mc_MpcSteps c)) c), w, ent, sent ++ acts)
  end.

Fixpoint run_steps (ids : list NodeID) (i cnt : nat) (scs : list Script) (st : main_state)
  : run main_state :=
  match cnt with
  | O => ret st
  | S cnt' =>
      match scs with
      | [] => block
      | sc :: scs' => st ← run_step ids i sc st; run_steps ids (S i) cnt' scs' st
      end
  end.

Definition start_all (c : MpcContext) : run MpcContext :=
  ss ← run_fold (fun acc s => s ← start_step s; ret (acc ++ [s])) (mc_MpcSteps c) [];
  ret (with_steps ss c).

(** [mainMPCProcess] on success; the failing exits broadcast the error and
    return it, after which the context is dropped. *)
Definition mainMPCProcess (scs : list Script) (c : MpcContext) (w : W) (ent : Entropy)
  : run main_state :=
  let ids := peerIDs c in
  c ← start_all c;
  '(c, w, ent, sent) ← run_steps ids 0 (length (mc_MpcSteps c)) scs (c, w, ent, []);
  match quit None c with
  | None => block
  | Some c => ret (c, w, ent, sent)
  end.

(** The message of a failing exit. *)
Definition error_broadcast (c : MpcContext) (e : error) : list action :=
  BroadcastMessage self [] (Some (peerIDs c)) MPCError
    {| mm_ContextID := mc_ContextID c; mm_StepID := 0;
       mm_Peers := String.list_byte_of_string e; mm_Data := []; mm_BytesData := [] |}.

End Main.

(** ** Seeds *)

Definition seed_bound : Z := 16777214.

Lemma draw_seed_spec used draws seed draws' :
  draw_seed used draws = Some (seed, draws') -> (seed ∉ used) /\ 1 <= seed <= seed_bound.
Proof.
  induction draws as [|d draws IH]; cbn [draw_seed]; [done|].
  case_decide as Hd; [done|]. intros [= <- <-]. split; [done|].
  unfold seed_bound. pose proof (Z.mod_pos_bound d 16777214). lia.
Qed.

Lemma assign_seeds_spec peers : forall used draws peers' draws',
  assign_seeds used peers draws = Some (peers', draws') ->
  map PeerID peers' = map PeerID peers /\ NoDup (map Seed peers') /\
  Forall (fun p => (Seed p ∉ used) /\ 1 <= Seed p <= seed_bound) peers'.
Proof.
  induction peers as [|p peers IH]; intros used draws peers' draws' E; cbn [assign_seeds] in E.
  { simplify_eq/=. split_and!; constructor. }
  apply bind_Some in E as ([seed d1] & E1 & E). apply bind_Some in E as ([ps d2] & E2 & E).
  simplify_eq/=. apply draw_seed_spec in E1 as [Hs Hb]. apply IH in E2 as (Hid & Hn & Hf).
  split_and!.
  - by f_equal.
  - constructor; [|done]. intros (q & Eq & Hq)%list_elem_of_fmap.
    rewrite Forall_forall in Hf. destruct (Hf q Hq) as [Hq1 _]. cbn in Eq. set_solver.
  - constructor; [done|]. eapply Forall_impl; [exact Hf|]. cbn. set_solver.
Qed.

(** The seeds that the numbers drawn can give. *)
Definition drawn_seeds (draws : list Z) : gset Z := list_to_set (map (fun d => d mod 16777214 + 1) draws).

(** Drawing succeeds as soon as one draw gives an unused seed, and skips only used ones. *)
Lemma draw_seed_total used draws : drawn_seeds draws ∖ used <> ∅ ->
  exists seed draws', draw_seed used draws = Some (seed, draws') /\ seed ∈ drawn_seeds draws ∖ used /\
    drawn_seeds draws ∖ ({[seed]} ∪ used) ⊆ drawn_seeds draws' ∖ ({[seed]} ∪ used).
Proof.
  induction draws as [|d draws IH]; cbn [draw_seed]; intros Hne; [set_solver|].
  assert (drawn_seeds (d :: draws) = {[d mod 16777214 + 1]} ∪ drawn_seeds draws) as E by done. rewrite E in *.
  case_decide as Hd.
  - destruct IH as (seed & draws' & -> & Hs & Hsub); [set_solver|]. exists seed, draws'. set_solver.
  - exists (d mod 16777214 + 1), draws. set_solver.
Qed.

(** As many different draws as peers are enough, wherever repeated ones are among them. *)
Lemma assign_seeds_total peers : forall used draws,
  (length peers <= size (drawn_seeds draws ∖ used))%nat -> is_Some (assign_seeds used peers draws).
Proof.
  induction peers as [|p peers IH]; intros used draws Hl; [done|]. cbn [length] in Hl. cbn [assign_seeds].
  destruct (draw_seed_total used draws) as (seed & draws' & -> & Hs & Hsub).
  { intros E. rewrite E, size_empty in Hl. lia. }
  cbn [mbind option_bind]. destruct (IH ({[seed]} ∪ used) draws') as [[ps d2] ->]; [|done].
  apply subseteq_size in Hsub.
  assert (drawn_seeds draws ∖ used = {[seed]} ∪ (drawn_seeds draws ∖ ({[seed]} ∪ used))) as E.
  { apply set_eq. intros x. destruct (decide (x = seed)); set_solver. }
  rewrite E, size_union, size_singleton in Hl by set_solver. lia.
Qed.

Lemma check_seeds_spec peers : forall used,
  check_seeds used peers = Ret tt <->
  NoDup (map Seed peers) /\ Forall (fun p => (Seed p ∉ used) /\ Seed p <= 16777215) peers.
Proof.
  induction peers as [|p peers IH]; intros used; cbn [check_seeds map].
  { split; [|done]. split; constructor. }
  rewrite NoDup_cons, Forall_cons. case_decide as H1.
  { split; [done|]. intros (_ & [_ ?] & _). lia. }
  case_decide as H2; [split; [done|]; tauto|]. rewrite IH. split.
  - intros [Hn Hf]. split_and!; try done; [|lia|].
    + intros (q & Eq & Hq)%list_elem_of_fmap. rewrite Forall_forall in Hf.
      destruct (Hf q Hq) as [Hq1 _]. cbn in Eq. set_solver.
    + eapply Forall_impl; [exact Hf|]. cbn. set_solver.
  - intros ([Hp Hn] & _ & Hf). split; [done|]. apply Forall_forall. intros q Hq.
    rewrite Forall_forall in Hf. destruct (Hf q Hq) as [Hq1 Hq2]. split; [|done].
    intros [Eq%elem_of_singleton|?]%elem_of_union; [|done].
    apply Hp. rewrite <- Eq. by apply list_elem_of_fmap_2.
Qed.

Lemma gen_gpk_total vars c f r :
  0 <= MPCDegree vars + 1 -> exists c', genCreateGPKMpc vars c f r = Ret c' /\ mc_peers c' = mc_peers c.
Proof.
  intros Hd. unfold genCreateGPKMpc, CreateMpcSKShareStep, createSkPolyValue.
  rewrite decide_False by lia. by eexists.
Qed.

Lemma gen_sign_total vars c f r :
  0 <= MPCDegree vars + 1 -> exists c', generateTxSignMpc vars c f r = Ret c' /\ mc_peers c' = mc_peers c.
Proof.
  intros Hd. unfold generateTxSignMpc, CreateMpcSKShareStep, createSkPolyValue.
  rewrite decide_False by lia. by eexists.
Qed.

(** ** Well-formed contexts *)

(** The step at index [i] has identifier [i]. *)
Definition ids_ok (c : MpcContext) : Prop :=
  forall i s, mc_MpcSteps c !! i = Some s -> bs_stepId (st_base s) = Z.of_nat i.

Lemma set_step_ids_ok c steps : ids_ok (with_steps (set_step_ids steps) c).
Proof.
  intros i s E. cbn in E. unfold set_step_ids in E. rewrite list_lookup_imap in E.
  destruct (steps !! i); cbn in E; by simplify_eq.
Qed.

Lemma CreateContext_ids vars t id peers pre c :
  CreateContext vars t id peers pre = Ret c -> ids_ok c.
Proof.
  unfold CreateContext. destruct (mapM_out log_value pre); cbn [mbind outcome_bind]; try done.
  unfold reqGPKMpc, ackGPKMpc, reqSignMpc, ackSignMpc, genCreateGPKMpc, generateTxSignMpc.
  unfold CreateMpcSKShareStep, createSkPolyValue. cbn zeta.
  repeat case_decide; cbn [mbind outcome_bind]; try done.
  all: try (destruct (check_seeds ∅ peers); cbn [mbind outcome_bind]; try done).
  all: intros [= <-]; apply set_step_ids_ok.
Qed.

Lemma gen_gpk_fields vars c f r c' :
  genCreateGPKMpc vars c f r = Ret c' ->
  mc_ContextID c' = mc_ContextID c /\ mc_mpcResult c' = mc_mpcResult c /\ mc_peers c' = mc_peers c.
Proof. unfold genCreateGPKMpc. intros E. go_bind E as [b g] E1. by simplify_eq/=. Qed.

Lemma gen_sign_fields vars c f r c' :
  generateTxSignMpc vars c f r = Ret c' ->
  mc_ContextID c' = mc_ContextID c /\ mc_mpcResult c' = mc_mpcResult c /\ mc_peers c' = mc_peers c.
Proof. unfold generateTxSignMpc. intros E. go_bind E as [b g] E1. by simplify_eq/=. Qed.

Lemma CreateContext_fields vars t id peers pre c :
  CreateContext vars t id peers pre = Ret c ->
  mc_ContextID c = id /\ mc_mpcResult c = InitializeValue pre createMpcBaseMpcResult /\ mc_peers c = peers.
Proof.
  unfold CreateContext. intros E. go_bind E as u E1. repeat case_decide.
  - by apply gen_gpk_fields in E.
  - unfold ackGPKMpc in E. go_bind E as v E2. by apply gen_gpk_fields in E.
  - by apply gen_sign_fields in E.
  - by apply gen_sign_fields in E.
  - done.
Qed.

Lemma HandleMessage_stepId {T} (hm : StepMessage -> T -> outcome (bool * T)) s t s' t' :
  HandleMessage hm s t = LoopNext s' t' -> bs_stepId s' = bs_stepId s.
Proof. unfold HandleMessage. intros E. by repeat (case_match; simplify_eq/=). Qed.

Lemma loop_once_stepId peers s s' :
  loop_once peers s = ret s' -> bs_stepId (st_base s') = bs_stepId (st_base s).
Proof.
  unfold loop_once, ret, lift, block. intros E.
  destruct (st_loop s); [|by simplify_eq].
  destruct (HandleMessage _ _ _) eqn:Eh; simplify_eq/=; [done|].
  by eapply HandleMessage_stepId.
Qed.

Lemma run_bind_ret {A B} (m : run A) (f : A -> run B) b :
  m ≫= f = ret b -> exists a, m = ret a /\ f a = ret b.
Proof. destruct m as [[a|e|]|]; cbn; try done. by exists a. Qed.

Lemma getMessage_ids c from msg c' :
  ids_ok c -> getMessage c from msg = ret c' -> ids_ok c'.
Proof.
  intros Hok. unfold getMessage. destruct (_ !! _) as [s|] eqn:E; [|done].
  case_match; [|done]. intros (s' & Hs & [= <-])%run_bind_ret.
  apply loop_once_stepId in Hs. intros i s0 Ei. cbn in Ei.
  apply list_lookup_insert_Some in Ei as [(<- & <- & _)|[_ Ei]]; [|by apply Hok].
  rewrite Hs. cbn. by apply Hok in E.
Qed.

(** A step whose loop is idle: nothing queued, still waiting. *)
Definition idle (s : Step) : Prop :=
  st_loop s = true /\ bs_msgChan (st_base s) = [] /\ 0 < bs_waiting (st_base s) /\
  (0 < bs_msgCap (st_base s))%nat /\ bs_finish (st_base s) = [].

(** What handling a message does to the step that expects it. *)
Definition handled (from : NodeID) (b : bool) (inner : StepInner) (s : Step) : Step :=
  let w := if b then bs_waiting (st_base s) - 1 else bs_waiting (st_base s) in
  {| st_base := {| bs_msgCap := bs_msgCap (st_base s); bs_msgChan := [];
                   bs_finish := if b && (w <=? 0) then [None] else [];
                   bs_waiting := w; bs_waitAll := bs_waitAll (st_base s);
                   bs_stepId := bs_stepId (st_base s);
                   bs_notRecvPeers := if b then bs_notRecvPeers (st_base s) ∖ {[from]}
                                      else bs_notRecvPeers (st_base s) |};
     st_inner := inner; st_loop := true |}.

Lemma loop_once_handled peers s from msg b inner :
  idle s -> bs_stepId (st_base s) = mm_StepID msg ->
  step_HandleMessage peers (received from msg) (st_inner s) = Ret (b, inner) ->
  loop_once peers (upd_base (set_msgChan [Some (received from msg)]) s) = ret (handled from b inner s).
Proof.
  intros (Hl & Hq & Hw & Hc & Hf) Hid Hm. unfold loop_once. cbn [st_loop upd_base]. rewrite Hl.
  unfold HandleMessage. cbn [bs_msgChan upd_base set_msgChan st_base].
  rewrite decide_False by (cbn; unfold GetStepId; cbn; congruence).
  rewrite decide_True by done. cbn [st_inner upd_base]. rewrite Hm.
  destruct b; cbn [sm_PeerID received bs_waiting set_msgChan bs_finish].
  - unfold handled. rewrite Hf. case_decide as Hz; cbn [chan_send].
    + rewrite (proj2 (Z.leb_le _ _)) by done. done.
    + rewrite (proj2 (Z.leb_gt _ _)) by lia. done.
  - unfold handled, set_msgChan. by rewrite Hf.
Qed.

Lemma getMessage_handled c from msg s b inner :
  ids_ok c -> 0 <= mm_StepID msg ->
  mc_MpcSteps c !! Z.to_nat (mm_StepID msg) = Some s -> idle s ->
  step_HandleMessage (mc_peers c) (received from msg) (st_inner s) = Ret (b, inner) ->
  getMessage c from msg
  = ret (with_steps (<[Z.to_nat (mm_StepID msg) := handled from b inner s]> (mc_MpcSteps c)) c).
Proof.
  intros Hok Hid E Hi Hm. unfold getMessage. rewrite E. pose proof Hi as (_ & Hq & _ & Hc & _).
  unfold chan_send. rewrite Hq. cbn [length app]. rewrite decide_True by done.
  rewrite (loop_once_handled _ _ _ _ b inner); [done|done| |done].
  apply Hok in E. rewrite E. by rewrite Z2Nat.id.
Qed.
