(* ===== verification/Signing.v ===== *)
(** * Correctness of the rounds

    What a node obtains from the messages of the other nodes, round by round
    (private share, group point, signature share, verification), and the
    composition of the rounds of a signature.  Messages arrive in any order, and
    for the threshold rounds from any large enough part of the group. *)

From S2P Require Import Prelude BigInt Curve Secp256k1 Schnorr FieldPoly Protocol Generators BaseStep Steps Context Instances.
From Stdlib Require Import Zmod.

(** ** Polynomials with integer coefficients *)

Fixpoint zadd (p q : list Z) : list Z :=
  match p, q with
  | [], _ => q
  | _, [] => p
  | a :: p', b :: q' => a + b :: zadd p' q'
  end.

Definition zscale (c : Z) (p : list Z) : list Z := map (Z.mul c) p.

(** Sum of the polynomials of all dealers. *)
Definition psum (ps : list (list Z)) : list Z := foldr zadd [] ps.

Lemma length_zadd p : forall q, length (zadd p q) = Nat.max (length p) (length q).
Proof. induction p as [|a p IH]; intros [|b q]; cbn; try lia. rewrite IH. lia. Qed.

Lemma length_psum ps k : Forall (fun p => length p <= k)%nat ps -> (length (psum ps) <= k)%nat.
Proof. unfold psum. induction 1; cbn; [lia|]. rewrite length_zadd. lia. Qed.

(** ** Handling a list of messages *)

(** Every message is handed to the handler of a step; [true] when all were
    accepted. *)
Fixpoint handle_list {T} (hm : StepMessage -> T -> outcome (bool * T)) (msgs : list StepMessage)
  (t : T) : outcome (bool * T) :=
  match msgs with
  | [] => Ret (true, t)
  | m :: ms => '(b, t) ← hm m t; '(b', t) ← handle_list hm ms t; Ret (b && b', t)
  end.

Definition recv (p : PeerInfo) (data : list Z) : StepMessage :=
  step_message 0 (Some (PeerID p)) data [].

(** Identifiers and seeds are distinct, seeds are not zero. *)
Definition group_ok (peers : list PeerInfo) : Prop :=
  NoDup (map PeerID peers) /\ NoDup (map Seed peers) /\ Forall (fun p => Seed p <> 0) peers.

Lemma getPeerSeed_in peers p :
  NoDup (map PeerID peers) -> p ∈ peers -> getPeerSeed peers (PeerID p) = Seed p.
Proof.
  induction peers as [|q peers IH]; cbn; intros Hn Hp; [set_solver|].
  apply NoDup_cons in Hn as [Hq Hn]. apply elem_of_cons in Hp as [->|Hp].
  - by rewrite decide_True.
  - rewrite decide_False; [by apply IH|]. intros E. apply Hq. rewrite E.
    by apply list_elem_of_fmap_2.
Qed.

Lemma getPeerSeed_out peers id : id ∉ map PeerID peers -> getPeerSeed peers id = 0.
Proof.
  induction peers as [|q peers IH]; cbn; intros Hn; [done|].
  apply not_elem_of_cons in Hn as [Hq Hn]. rewrite decide_False by congruence. by apply IH.
Qed.

Lemma group_seed_nz peers p : group_ok peers -> p ∈ peers -> Seed p <> 0.
Proof. intros (_ & _ & Hz) Hp. rewrite Forall_forall in Hz. by apply Hz. Qed.

(** A sub-collection of the group, in some order, has distinct seeds. *)
Lemma sub_seeds peers (l : list PeerInfo) :
  group_ok peers -> l ⊆+ peers -> NoDup (map Seed l).
Proof.
  intros (_ & Hs & _) [k Hk]%submseteq_Permutation.
  apply (Permutation_map Seed) in Hk. rewrite Hk, map_app in Hs. by apply NoDup_app in Hs as [? _].
Qed.

Lemma sub_elem {A} (l k : list A) x : l ⊆+ k -> x ∈ l -> x ∈ k.
Proof. intros Hl Hx. by eapply elem_of_submseteq. Qed.

(** Adding the entries of a list to a map, one by one or at once. *)
Lemma list_to_map_cons_union {V} (k : Z) (v : V) (l : list (Z * V)) (m : gmap Z V) :
  k ∉ map fst l -> list_to_map l ∪ <[k := v]> m = list_to_map ((k, v) :: l) ∪ m.
Proof.
  intros Hk. cbn. rewrite <- insert_union_l. symmetry. apply insert_union_r.
  by apply not_elem_of_list_to_map_1.
Qed.

(** What the senders [l] contributed, indexed by seed. *)
Definition by_seed {V} (v : PeerInfo -> V) (l : list PeerInfo) : list (Z * V) :=
  map (fun p => (Seed p, v p)) l.

Lemma by_seed_fst {V} (v : PeerInfo -> V) l : map fst (by_seed v l) = map Seed l.
Proof. unfold by_seed. by rewrite map_map. Qed.

(** A handler that files the value of a message under the seed of its sender,
    unless there is one: the common shape of the three collecting steps. *)
Class Collects {T V} (peers : list PeerInfo) (hm : StepMessage -> T -> outcome (bool * T))
  (enc : V -> list Z) (get : T -> gmap Z V) (put : gmap Z V -> T -> T) (ok : T -> Prop) := {
  collect_put_put m m' t : put m (put m' t) = put m t;
  collect_put_get t : ok t -> put (get t) t = t;
  collect_get_put m t : ok t -> get (put m t) = m;
  collect_ok m t : ok t -> ok (put m t);
  collect_one p v t : ok t -> p ∈ peers -> get t !! Seed p = None ->
    hm (recv p (enc v)) t = Ret (true, put (<[Seed p := v]> (get t)) t)
}.

Lemma handle_list_collects {T V peers hm enc get put ok} (HC : @Collects T V peers hm enc get put ok)
  (v : PeerInfo -> V) : forall l t,
  ok t -> (forall p, p ∈ l -> p ∈ peers) -> NoDup (map Seed l) ->
  (forall p, p ∈ l -> get t !! Seed p = None) ->
  handle_list hm (map (fun p => recv p (enc (v p))) l) t
  = Ret (true, put (list_to_map (by_seed v l) ∪ get t) t).
Proof.
  induction l as [|p l IH]; intros t Ht Hl Hd Hf.
  - cbn. by rewrite (left_id_L ∅ _), collect_put_get.
  - cbn [map handle_list] in *. apply NoDup_cons in Hd as [Hp Hd].
    rewrite collect_one by (done || apply Hl + apply Hf; set_solver).
    cbn [mbind outcome_bind]. rewrite IH.
    + cbn [andb mbind outcome_bind]. rewrite collect_put_put, collect_get_put by done.
      by rewrite list_to_map_cons_union by (by rewrite by_seed_fst).
    + by apply collect_ok.
    + set_solver.
    + done.
    + intros q Hq. rewrite collect_get_put by done. rewrite lookup_insert_ne; [apply Hf; set_solver|].
      intros E. apply Hp. rewrite E. by apply list_elem_of_fmap_2.
Qed.

(** *** Share messages *)

Definition with_rp_message (m : gmap Z Z) (g : RandomPolynomialValue) : RandomPolynomialValue :=
  {| rp_randCoefficient := rp_randCoefficient g; rp_message := m;
     rp_polyValue := rp_polyValue g; rp_result := rp_result g |}.

Lemma sk_collects peers :
  NoDup (map PeerID peers) ->
  Collects peers (MpcSKShareStep_HandleMessage peers) (fun v => [v]) rp_message with_rp_message
    (fun _ => True).
Proof.
  intros Hn. split; try done; [by intros []|].
  intros p v g _ Hp Hf. unfold MpcSKShareStep_HandleMessage. cbn.
  by rewrite getPeerSeed_in, Hf by done.
Qed.

(** *** Point messages *)

Definition with_pg_message (m : gmap Z (Z * Z)) (g : mpcPointGenerator) : mpcPointGenerator :=
  {| pg_seed := pg_seed g; pg_message := m; pg_result := pg_result g;
     pg_preValueKey := pg_preValueKey g |}.

Definition ps_get (s : MpcPointStep) : gmap Z (Z * Z) :=
  match ps_messages s with g :: _ => pg_message g | [] => ∅ end.

Definition ps_put (m : gmap Z (Z * Z)) (s : MpcPointStep) : MpcPointStep :=
  {| ps_messages := match ps_messages s with g :: gs => with_pg_message m g :: gs | [] => [] end;
     ps_resultKeys := ps_resultKeys s; ps_signNum := ps_signNum s |}.

(** A step for one point: what [CreateMpcGPKStep] and [CreateMpcRStep] make. *)
Definition ps_single (s : MpcPointStep) : Prop := length (ps_messages s) = 1%nat /\ ps_signNum s = 1%nat.

Lemma point_collects peers :
  group_ok peers ->
  Collects peers (MpcPointStep_HandleMessage peers) (fun v => [v.1; v.2]) ps_get ps_put ps_single.
Proof.
  intros Hg. split.
  - intros m m' [[|g gs] ? ?]; done.
  - intros [[|[] gs] ? ?] [? ?]; done.
  - intros m [[|g gs] ? ?] [? ?]; done.
  - intros m [[|g gs] ? ?] [? ?]; split; done.
  - intros p [x y] [[|g [|]] keys num] [Hl Hnum] Hp Hf; try done. cbn in Hnum, Hf. subst num.
    unfold MpcPointStep_HandleMessage. cbn.
    rewrite getPeerSeed_in by (done || apply Hg).
    rewrite decide_False by (by eapply group_seed_nz). by rewrite Hf.
Qed.

(** *** Signature messages *)

Definition with_sg_message (m : gmap Z Z) (g : mpcSGenerator) : mpcSGenerator :=
  {| sg_seed := sg_seed g; sg_message := m; sg_result := sg_result g;
     sg_preValueKey := sg_preValueKey g |}.

Definition ss_get (s : MpcSStep) : gmap Z Z :=
  match ss_messages s with g :: _ => sg_message g | [] => ∅ end.

Definition ss_put (m : gmap Z Z) (s : MpcSStep) : MpcSStep :=
  {| ss_messages := match ss_messages s with g :: gs => with_sg_message m g :: gs | [] => [] end;
     ss_resultKeys := ss_resultKeys s; ss_signNum := ss_signNum s |}.

Definition ss_single (s : MpcSStep) : Prop := length (ss_messages s) = 1%nat /\ ss_signNum s = 1%nat.

Lemma s_collects peers :
  group_ok peers ->
  Collects peers (MpcSStep_HandleMessage peers) (fun v => [v]) ss_get ss_put ss_single.
Proof.
  intros Hg. split.
  - intros m m' [[|g gs] ? ?]; done.
  - intros [[|[] gs] ? ?] [? ?]; done.
  - intros m [[|g gs] ? ?] [? ?]; done.
  - intros m [[|g gs] ? ?] [? ?]; split; done.
  - intros p v [[|g [|]] keys num] [Hl Hnum] Hp Hf; try done. cbn in Hnum, Hf. subst num.
    unfold MpcSStep_HandleMessage. cbn.
    rewrite getPeerSeed_in by (done || apply Hg).
    rewrite decide_False by (by eapply group_seed_nz). by rewrite Hf.
Qed.

(** ** Rounds *)

Lemma exists_conj_l {A} (P : A -> Prop) (Q : Prop) : Q -> (exists x, P x) -> exists x, Q /\ P x.
Proof. intros HQ [x Hx]. by exists x. Qed.

Section Polynomials.
Context {C : EllipticCurve} (HN : Z.prime Params_N).
#[local] Abbreviation N := Params_N.
#[local] Abbreviation h := (Zmod.of_Z N).

Add Field FNs : (Zmod.field_theory N HN).

Lemma peval_hpoly_zadd p : forall q t,
  peval N (hpoly (zadd p q)) t = Zmod.add (peval N (hpoly p) t) (peval N (hpoly q) t).
Proof.
  induction p as [|a p IH]; intros [|b q] t; cbn [zadd hpoly map peval]; try ring.
  fold (hpoly p) (hpoly q) (hpoly (zadd p q)). rewrite IH, Zmod.of_Z_add. ring.
Qed.

Lemma peval_hpoly_zscale c p t :
  peval N (hpoly (zscale c p)) t = Zmod.mul (h c) (peval N (hpoly p) t).
Proof.
  induction p as [|a p IH]; cbn [zscale hpoly map peval]; [ring|].
  fold (zscale c p) (hpoly p) (hpoly (zscale c p)). rewrite IH, Zmod.of_Z_mul. ring.
Qed.

Lemma poly_at_zadd p q x : poly_at (zadd p q) x = (poly_at p x + poly_at q x) mod N.
Proof.
  apply h_inj; [apply (poly_at_range HN)|apply Z.mod_pos_bound; pose proof (N_ge_2 HN); lia|].
  by rewrite Zmod.of_Z_mod, Zmod.of_Z_add, !h_poly_at, peval_hpoly_zadd.
Qed.

Lemma poly_at_zscale c p x : poly_at (zscale c p) x = (c * poly_at p x) mod N.
Proof.
  apply h_inj; [apply (poly_at_range HN)|apply Z.mod_pos_bound; pose proof (N_ge_2 HN); lia|].
  by rewrite Zmod.of_Z_mod, Zmod.of_Z_mul, !h_poly_at, peval_hpoly_zscale.
Qed.

Lemma poly_at_nil x : poly_at [] x = 0.
Proof.
  apply h_inj; [apply (poly_at_range HN)|pose proof (N_ge_2 HN); lia|].
  by rewrite h_poly_at, Zmod.of_Z_0.
Qed.

(** The sum of the dealt values is the value of the sum of the polynomials. *)
Lemma poly_at_psum ps x : poly_at (psum ps) x = sum_Z (map (fun p => poly_at p x) ps) mod N.
Proof.
  induction ps as [|p ps IH]; cbn [psum foldr map sum_Z].
  - rewrite poly_at_nil. symmetry. apply Z.mod_0_l. pose proof (N_ge_2 HN). lia.
  - fold (psum ps) (sum_Z (map (fun p => poly_at p x) ps)).
    by rewrite poly_at_zadd, IH, Zplus_mod_idemp_r.
Qed.

(** [SchnorrSign] of two shares is a share of the signature. *)
Lemma SchnorrSign_share f r m x :
  SchnorrSign (poly_at f x) (poly_at r x) m = poly_at (zadd (zscale m f) r) x.
Proof.
  unfold SchnorrSign, Mod. rewrite poly_at_zadd, poly_at_zscale. do 2 f_equal. by rewrite Z.mul_comm.
Qed.

End Polynomials.

Section Rounds.
Context {C : EllipticCurve} {G : CurveGroup C} {H : Hashes} {R : MapRange} {W : Type}
  (vars : ProtocolVars) (peers : list PeerInfo).
Hypothesis (Hgroup : group_ok peers).
Hypothesis (Hseeds : Forall (fun p => 0 < Seed p < Params_N) peers).
#[local] Abbreviation N := Params_N.

Definition put_point (key : string) (k : Z) (res : BaseMpcResult) : BaseMpcResult :=
  SetValue key [(mulG k).1; (mulG k).2] res.

Lemma poly_at_nz p x : poly_at p x <> 0 -> poly_at p x mod N <> 0.
Proof. intros Hp. pose proof (poly_at_range N_prime p x). by rewrite Z.mod_small. Qed.

Lemma ScalarBaseMult_small k :
  0 < k < N -> ScalarBaseMult (Bytes k) = Ret (Some (mulG k)).
Proof.
  intros Hk. pose proof (N_ge_2 N_prime). rewrite ScalarBaseMult_mulG.
  rewrite ScalarMult_small by (rewrite ?Z.mod_small; lia). by rewrite Z.mul_1_l.
Qed.

Lemma lookup_by_seed {V} (v : PeerInfo -> V) l x w :
  list_to_map (M := gmap Z V) (by_seed v l) !! x = Some w -> exists p, p ∈ l /\ Seed p = x /\ v p = w.
Proof.
  intros E%elem_of_list_to_map_2. apply list_elem_of_In, in_map_iff in E as (p & [= <- <-] & Hp).
  exists p. by rewrite list_elem_of_In.
Qed.

Lemma by_seed_perm {V} (v : PeerInfo -> V) l :
  NoDup (map Seed l) -> map_to_list (M := gmap Z V) (list_to_map (by_seed v l)) ≡ₚ by_seed v l.
Proof.
  intros Hl. apply map_to_list_to_map. change (NoDup (map fst (by_seed v l))).
  by rewrite by_seed_fst.
Qed.

Lemma size_by_seed {V} (v : PeerInfo -> V) l :
  l ⊆+ peers -> size (list_to_map (M := gmap Z V) (by_seed v l)) = length l.
Proof.
  intros Hl. rewrite <- length_map_to_list.
  rewrite (Permutation_length (by_seed_perm v l ltac:(by eapply sub_seeds))).
  unfold by_seed. by rewrite length_map.
Qed.

Lemma seeds_by_seed {V} (v : PeerInfo -> V) l :
  l ⊆+ peers -> seeds_ok (list_to_map (M := gmap Z V) (by_seed v l)).
Proof.
  intros Hl x w (p & Hp & <- & _)%lookup_by_seed. rewrite Forall_forall in Hseeds.
  apply Hseeds. by eapply sub_elem.
Qed.

(** *** Private shares *)

(** A node at [x] that has the shares of all the dealers ends with the value at
    [x] of the sum of their polynomials, and its public point.  The dealers may be a part of the
    group. *)
Lemma share_finish_ok privKey pubKey (poly : PeerInfo -> list Z) dealers l x res g :
  dealers ⊆+ peers -> l ≡ₚ dealers -> rp_message g = list_to_map (by_seed (fun p => poly_at (poly p) x) l) ->
  let F := psum (map poly dealers) in
  poly_at F x <> 0 ->
  exists g2, share_finish privKey pubKey res g
             = Ret (put_point pubKey (poly_at F x) (SetValue privKey [poly_at F x] res), g2).
Proof.
  intros Hd Hl Hg F Hnz. pose proof (N_ge_2 N_prime).
  assert (NoDup (map Seed l)) as Hnd by (rewrite Hl; by eapply sub_seeds).
  eexists. unfold share_finish. rewrite calculateResult_sum by lia. rewrite Hg. cbn [of_option mbind outcome_bind].
  replace (sum_Z _ mod N) with (poly_at F x).
  - rewrite ScalarBaseMult_small by (pose proof (poly_at_range N_prime F x); lia).
    cbn [of_option mbind outcome_bind]. unfold put_point. by destruct (mulG (poly_at F x)).
  - unfold F. rewrite (poly_at_psum N_prime), map_map. f_equal. apply sum_Z_perm.
    rewrite by_seed_perm by done. unfold by_seed. rewrite map_map. cbn [snd]. by rewrite Hl.
Qed.

Lemma share_round_correct privKey pubKey (poly : PeerInfo -> list Z) dealers l x res g :
  dealers ⊆+ peers -> l ≡ₚ dealers -> rp_message g = ∅ ->
  let F := psum (map poly dealers) in
  poly_at F x <> 0 ->
  exists g1 g2,
    handle_list (MpcSKShareStep_HandleMessage peers)
      (map (fun p => recv p [poly_at (poly p) x]) l) g = Ret (true, g1) /\
    share_finish privKey pubKey res g1
    = Ret (put_point pubKey (poly_at F x) (SetValue privKey [poly_at F x] res), g2).
Proof.
  intros Hd Hl Hg F Hnz. pose proof Hgroup as (Hid & _).
  eexists. eapply (exists_conj_l (fun g2 => share_finish _ _ _ _ = Ret (_, g2))).
  - apply (handle_list_collects (sk_collects peers Hid)); try done.
    + intros p Hp. eapply sub_elem; [exact Hd|]. by rewrite <- Hl.
    + rewrite Hl. by eapply sub_seeds.
    + intros p _. by rewrite Hg.
  - apply (share_finish_ok _ _ poly dealers l); [done|done| |done]. cbn [rp_message with_rp_message]. by rewrite Hg, (right_id_L ∅ _).
Qed.

(** *** Group points *)

(** What the round needs of the polynomial [F] and of the senders [l]: enough of
    them, no share at infinity, and additions the curve code supports, for the
    order in which the entries are visited. *)
Record point_round_ok (F : list Z) (l : list PeerInfo) : Prop := {
  pr_sub : l ⊆+ peers;
  pr_enough : Z.of_nat (length F) <= MpcSchnrThr vars <= Z.of_nat (length l);
  pr_shares : forall p, p ∈ l -> poly_at F (Seed p) <> 0;
  pr_secret : poly_at F 0 <> 0 /\ (mulG (poly_at F 0)).1 <> 0 /\ (mulG (poly_at F 0)).2 <> 0;
  pr_generic : generic_for vars F
    (list_to_map (by_seed (fun p => mulG (poly_at F (Seed p))) l)) = true
}.

Definition point_msgs (F : list Z) (l : list PeerInfo) : list StepMessage :=
  map (fun p => recv p [(mulG (poly_at F (Seed p))).1; (mulG (poly_at F (Seed p))).2]) l.

Lemma single_point s : ps_single s -> exists g, ps_messages s = [g].
Proof. intros [Hl _]. destruct (ps_messages s) as [|g [|]]; try done. by exists g. Qed.

Lemma point_finish_ok F l key res s :
  vars_ok vars -> point_round_ok F l ->
  ps_single s -> ps_get s = list_to_map (by_seed (fun p => mulG (poly_at F (Seed p))) l) -> ps_resultKeys s = [key] ->
  exists s2, MpcPointStep_finish vars res s = Ret (put_point key (poly_at F 0) res, s2).
Proof.
  intros Hv [Hsub Hen Hsh (H0 & Hx & Hy) Hgen] Hs He Hk. destruct (single_point s Hs) as [g Hg]. destruct Hs as [_ Hnum].
  unfold ps_get in He. rewrite Hg in He.
  eexists. unfold MpcPointStep_finish. rewrite Hg, Hk, Hnum. cbn [ps_messages ps_signNum ps_resultKeys mapM_out].
  rewrite (mpcPointGenerator_calculateResult_poly vars F); rewrite ?He; try done.
  - by apply seeds_by_seed.
  - intros x P (p & Hp & <- & <-)%lookup_by_seed. split; [done|by apply Hsh].
  - by rewrite size_by_seed.
Qed.

Lemma point_round_correct F l key res s :
  vars_ok vars -> point_round_ok F l ->
  ps_single s -> ps_get s = ∅ -> ps_resultKeys s = [key] ->
  exists s1 s2,
    handle_list (MpcPointStep_HandleMessage peers) (point_msgs F l) s = Ret (true, s1) /\
    MpcPointStep_finish vars res s1 = Ret (put_point key (poly_at F 0) res, s2).
Proof.
  intros Hv HR Hs He Hk. eexists. eapply (exists_conj_l (fun s2 => MpcPointStep_finish _ _ _ = Ret (_, s2))).
  - unfold point_msgs.
    apply (handle_list_collects (point_collects peers Hgroup) (fun p => mulG (poly_at F (Seed p)))); try done.
    + intros p. by apply sub_elem, HR.
    + by eapply sub_seeds, HR.
    + intros p _. by rewrite He.
  - destruct (point_collects peers Hgroup). rewrite He, (right_id_L ∅ _). apply (point_finish_ok F l); auto.
Qed.

(** *** Signature shares *)

Definition s_msgs (f r : list Z) (m : Z) (l : list PeerInfo) : list StepMessage :=
  map (fun p => recv p [SchnorrSign (poly_at f (Seed p)) (poly_at r (Seed p)) m]) l.

Lemma single_s s : ss_single s -> exists g, ss_messages s = [g].
Proof. intros [Hl _]. destruct (ss_messages s) as [|g [|]]; try done. by exists g. Qed.

Lemma s_finish_ok f r m l key res s :
  vars_ok vars -> l ⊆+ peers ->
  Z.of_nat (length f) <= MpcSchnrThr vars -> Z.of_nat (length r) <= MpcSchnrThr vars ->
  MpcSchnrThr vars <= Z.of_nat (length l) ->
  ss_single s -> ss_resultKeys s = [key] ->
  ss_get s = list_to_map (by_seed (fun p => SchnorrSign (poly_at f (Seed p)) (poly_at r (Seed p)) m) l) ->
  exists s2, MpcSStep_finish vars res s = Ret (SetValue key [SchnorrSign (poly_at f 0) (poly_at r 0) m] res, s2).
Proof.
  intros Hv Hsub Hf Hr Hen Hs Hk He. destruct (single_s s Hs) as [g Hg]. destruct Hs as [_ Hnum].
  unfold ss_get in He. rewrite Hg in He.
  eexists. unfold MpcSStep_finish. rewrite Hg, Hk, Hnum. cbn [ss_messages ss_signNum ss_resultKeys mapM_out].
  rewrite (mpcSGenerator_calculateResult_poly vars (zadd (zscale m f) r)); rewrite ?He; try done.
  - cbn. by rewrite (SchnorrSign_share N_prime).
  - apply N_prime.
  - by apply seeds_by_seed.
  - intros x y (p & Hp & <- & <-)%lookup_by_seed.
    rewrite (SchnorrSign_share N_prime). apply Z.mod_small, (poly_at_range N_prime).
  - rewrite size_by_seed by done.
    rewrite length_zadd. unfold zscale. rewrite length_map. lia.
Qed.

Lemma s_round_correct f r m l key res s :
  vars_ok vars -> l ⊆+ peers ->
  Z.of_nat (length f) <= MpcSchnrThr vars -> Z.of_nat (length r) <= MpcSchnrThr vars ->
  MpcSchnrThr vars <= Z.of_nat (length l) ->
  ss_single s -> ss_get s = ∅ -> ss_resultKeys s = [key] ->
  exists s1 s2,
    handle_list (MpcSStep_HandleMessage peers) (s_msgs f r m l) s = Ret (true, s1) /\
    MpcSStep_finish vars res s1
    = Ret (SetValue key [SchnorrSign (poly_at f 0) (poly_at r 0) m] res, s2).
Proof.
  intros Hv Hsub Hf Hr Hen Hs He Hk. eexists. eapply (exists_conj_l (fun s2 => MpcSStep_finish _ _ _ = Ret (_, s2))).
  - unfold s_msgs. apply (handle_list_collects (s_collects peers Hgroup)
      (fun p => SchnorrSign (poly_at f (Seed p)) (poly_at r (Seed p)) m)); try done.
    + intros p. by apply sub_elem.
    + by eapply sub_seeds.
    + intros p _. by rewrite He.
  - destruct (s_collects peers Hgroup). rewrite He, (right_id_L ∅ _). apply (s_finish_ok f r m l); auto.
Qed.

(** *** Verification *)

(** The challenge as a function of the message and of the nonce point. *)
Definition challenge_of (M : bytes) (r : Z) : Z :=
  SetBytes (sha256 (sha256 M ++ point_bytes r)).

Lemma challenge_mulG M r : r mod N <> 0 -> challenge M (Some (mulG r)) = Ret (challenge_of M r).
Proof. intros Hr. unfold challenge. by rewrite FromECDSAPub_mulG. Qed.

Lemma forallb_const {K A} `{Countable K} `{EqDecision A} (a : A) (m : gmap K A) :
  map_Forall (fun _ v => v = a) m ->
  forallb (fun e => bool_decide (a = e.2)) (map_to_list m) = true.
Proof.
  intros Hm. apply forallb_forall. intros [k v] Hin%list_elem_of_In%elem_of_map_to_list.
  apply bool_decide_eq_true. symmetry. by apply (Hm k).
Qed.

Lemma forallb_differs {K A} `{Countable K} `{EqDecision A} (a : A) (m : gmap K A) k v :
  m !! k = Some v -> v <> a ->
  forallb (fun e => bool_decide (a = e.2)) (map_to_list m) = false.
Proof.
  intros E Hne. apply not_true_iff_false. rewrite forallb_forall. intros Hall.
  specialize (Hall (k, v)). rewrite <- list_elem_of_In, elem_of_map_to_list in Hall.
  specialize (Hall E). apply bool_decide_eq_true in Hall. by subst.
Qed.

(** The nonce [r], the key [f], and the challenge [m] give additions and
    multiplications the curve code supports. *)
Record verify_generic (f r m : Z) : Prop := {
  vg_f : f mod N <> 0;
  vg_r : r mod N <> 0;
  vg_m : 0 < m < N;
  vg_sum : (f * m + r) mod N <> 0;
  vg_diff : (f * m - r) mod N <> 0
}.

Lemma mulG_eq_iff j k :
  j mod N <> 0 -> k mod N <> 0 ->
  ((mulG j).1 =? (mulG k).1) && ((mulG j).2 =? (mulG k).2) = bool_decide (j mod N = k mod N).
Proof.
  intros Hj Hk. destruct (bool_decide_reflect (j mod N = k mod N)) as [E|E].
  - rewrite <- (mulG_mod j), E, mulG_mod. by rewrite !Z.eqb_refl.
  - apply andb_false_iff. rewrite !Z.eqb_neq.
    destruct (decide ((mulG j).1 = (mulG k).1)) as [E1|]; [|by left]. right. intros E2.
    apply E, mulG_inj; [done..|]. rewrite (surjective_pairing (mulG j)), E1, E2.
    by destruct (mulG k).
Qed.

(** [verifyRS] accepts exactly [s = f * m + r], given the key and nonce points. *)
Lemma verifyRS_exact res st M f r :
  ar_mpcR st = mulG r ->
  map_Forall (fun _ v => v = ar_mpcR st) (ar_remoteMpcR st) ->
  map_Forall (fun _ v => v = ar_mpcS st) (ar_remoteMpcS st) ->
  GetByteValue MpcM res = Ret M ->
  GetValue PublicKeyResult res = Ret [(mulG f).1; (mulG f).2] ->
  verify_generic f r (challenge_of M r) -> 0 < ar_mpcS st < N ->
  verifyRS res st
  = if decide (ar_mpcS st = (f * challenge_of M r + r) mod N) then Ret tt else Err ErrVerifyFailed.
Proof.
  intros HR HfR HfS HM HK [Hf Hr Hm Hsum Hdiff] Hs. set (m := challenge_of M r) in *.
  pose proof (N_ge_2 N_prime). unfold verifyRS.
  rewrite !forallb_const by done. cbn [negb]. rewrite HM, HK, HR.
  cbn [mbind outcome_bind idx lookup list_lookup].
  rewrite challenge_mulG by done. cbn [mbind outcome_bind]. fold m.
  rewrite ScalarBaseMult_small by done. cbn [mbind outcome_bind].
  rewrite <- surjective_pairing, ScalarMult_small by done. cbn [mbind outcome_bind].
  assert ((f * m) mod N <> 0) as Hfm
    by (apply (mul_nz N_prime); [done|rewrite Z.mod_small; lia]).
  rewrite Add_mulG by done. cbn [mbind outcome_bind].
  rewrite !FromECDSAPub_mulG by (done || rewrite Z.mod_small; lia).
  cbn [mbind outcome_bind of_option].
  pose proof (mulG_eq_iff (ar_mpcS st) (f * m + r)) as Hq.
  destruct (mulG (ar_mpcS st)), (mulG (f * m + r)). cbn [fst snd] in Hq.
  rewrite Hq by (done || rewrite Z.mod_small; lia). rewrite (Z.mod_small (ar_mpcS st)) by lia.
  unfold bool_decide. by repeat case_decide.
Qed.

End Rounds.

(** ** The rounds of a signature *)

Section Sign.
Context {C : EllipticCurve} {G : CurveGroup C} {H : Hashes} {R : MapRange} (vars : ProtocolVars).
#[local] Abbreviation N := Params_N.

(** The steps 2 to 5 of a signing context at one node, for the messages each of
    them receives. *)
Definition sign_round2 (peers : list PeerInfo) (msgs : list StepMessage) (res : BaseMpcResult)
  : outcome BaseMpcResult :=
  '(_, sk) ← CreateMpcSKShareStep (MPCDegree vars) peers;
  '(_, sk) ← handle_list (MpcSKShareStep_HandleMessage peers) msgs sk;
  '(res, _) ← MpcRSKShare_Step_finish res sk;
  Ret res.

Definition sign_round3 (peers : list PeerInfo) (msgs : list StepMessage) (res : BaseMpcResult)
  : outcome (list StepMessage * BaseMpcResult) :=
  RStep ← MpcPointStep_InitStep res (CreateMpcRStep peers).2;
  out ← MpcPointStep_CreateMessage RStep;
  '(_, RStep) ← handle_list (MpcPointStep_HandleMessage peers) msgs RStep;
  '(res, _) ← MpcPointStep_finish vars res RStep;
  Ret (out, res).

Definition sign_round4 (peers : list PeerInfo) (msgs : list StepMessage) (res : BaseMpcResult)
  : outcome (list StepMessage * BaseMpcResult) :=
  SStep ← MpcSStep_InitStep res (CreateMpcSStep peers [MpcPrivateShare] [MpcS]).2;
  out ← MpcSStep_CreateMessage SStep;
  '(_, SStep) ← handle_list (MpcSStep_HandleMessage peers) msgs SStep;
  '(res, _) ← MpcSStep_finish vars res SStep;
  Ret (out, res).

Definition sign_round5 (peers : list PeerInfo) (msgs : list StepMessage) (res : BaseMpcResult)
  : outcome (list StepMessage * BaseMpcResult) :=
  ackRS ← MpcAckRSStep_InitStep res (CreateAckMpcRSStep peers).2;
  let out := MpcAckRSStep_CreateMessage ackRS in
  '(_, ackRS) ← handle_list MpcAckRSStep_HandleMessage msgs ackRS;
  res ← MpcAckRSStep_finish res ackRS;
  Ret (out, res).

(** In the order of [mainMPCProcess]; the messages of the last three rounds are
    returned too. *)
Definition sign_rounds (peers : list PeerInfo) (m2 m3 m4 m5 : list StepMessage)
  (res : BaseMpcResult) : outcome (list StepMessage * BaseMpcResult) :=
  res ← sign_round2 peers m2 res;
  '(out3, res) ← sign_round3 peers m3 res;
  '(out4, res) ← sign_round4 peers m4 res;
  '(out5, res) ← sign_round5 peers m5 res;
  Ret (out3 ++ out4 ++ out5, res).

Definition ack_ok (Rp : Z * Z) (s : Z) (st : MpcAckRSStep) : Prop :=
  ar_mpcR st = Rp /\ ar_mpcS st = s /\
  map_Forall (fun _ v => v = Rp) (ar_remoteMpcR st) /\
  map_Forall (fun _ v => v = s) (ar_remoteMpcS st).

Lemma ack_handle_one Rp s p st :
  ack_ok Rp s st ->
  exists b st', MpcAckRSStep_HandleMessage (recv p [s; Rp.1; Rp.2]) st = Ret (b, st') /\
                ack_ok Rp s st'.
Proof.
  intros Hst. unfold MpcAckRSStep_HandleMessage. cbn. case_decide; [by do 2 eexists|].
  destruct Hst as (H1 & H2 & H3 & H4). do 2 eexists. split; [done|].
  split_and!; try done; cbn; apply map_Forall_insert_2; by destruct Rp.
Qed.

Lemma ack_handle_list Rp s : forall (l : list PeerInfo) st,
  ack_ok Rp s st ->
  exists b st', handle_list MpcAckRSStep_HandleMessage (map (fun p => recv p [s; Rp.1; Rp.2]) l) st
                = Ret (b, st') /\ ack_ok Rp s st'.
Proof.
  induction l as [|p l IH]; intros st Hst; [by do 2 eexists|]. cbn [map handle_list].
  destruct (ack_handle_one Rp s p st Hst) as (b & st1 & -> & H1). cbn [mbind outcome_bind].
  destruct (IH st1 H1) as (b' & st2 & -> & H2). by do 2 eexists.
Qed.

(** A signing session as seen from the node with seed [x]: the group key is the
    polynomial [f], the nonce the sum of the polynomials [rho] of the dealers, the
    nodes all others have heard when the share step ends, by its messages or by its time-out;
    [l2], [l3], [l4] are the senders of the share, point and
    signature messages, in their order of arrival. *)
Record session (peers dealers : list PeerInfo) (f : list Z) (rho : PeerInfo -> list Z) (M : bytes) (x : Z)
  (l2 l3 l4 : list PeerInfo) : Prop := {
  ss_vars : vars_ok vars;
  ss_group : group_ok peers;
  ss_seeds : Forall (fun p => 0 < Seed p < N) peers;
  ss_f : Z.of_nat (length f) <= MpcSchnrThr vars;
  ss_rho : Forall (fun p => Z.of_nat (length (rho p)) <= MpcSchnrThr vars) dealers;
  ss_dealers : dealers ⊆+ peers;
  ss_all : l2 ≡ₚ dealers;
  ss_own : poly_at (psum (map rho dealers)) x <> 0;
  ss_R : point_round_ok vars peers (psum (map rho dealers)) l3;
  ss_sub : l4 ⊆+ peers;
  ss_enough : MpcSchnrThr vars <= Z.of_nat (length l4);
  ss_generic : let r := poly_at (psum (map rho dealers)) 0 in
    verify_generic (poly_at f 0) r (challenge_of M r)
}.

Definition share_msgs (rho : PeerInfo -> list Z) (x : Z) (l : list PeerInfo) : list StepMessage :=
  map (fun p => recv p [poly_at (rho p) x]) l.

Definition ack_msgs (Rp : Z * Z) (s : Z) (l : list PeerInfo) : list StepMessage :=
  map (fun p => recv p [s; Rp.1; Rp.2]) l.

(** The steps as their [InitStep] leaves them. *)
Lemma point_init res k peers key rkey :
  GetValue key res = Ret [(mulG k).1; (mulG k).2] ->
  exists st, MpcPointStep_InitStep res (CreateMpcPointStep peers [key] [rkey]).2 = Ret st /\
    ps_single st /\ ps_get st = ∅ /\ ps_resultKeys st = [rkey] /\
    MpcPointStep_CreateMessage st
    = Ret [step_message MPCMessage None [(mulG k).1; (mulG k).2] []].
Proof.
  intros E. unfold MpcPointStep_InitStep. cbn. unfold mpcPointGenerator_initialize. cbn.
  rewrite E. by eexists.
Qed.

Lemma S_init res peers M r fx rx :
  GetValue RPublicKeyResult res = Ret [(mulG r).1; (mulG r).2] -> r mod N <> 0 ->
  GetByteValue MpcM res = Ret M ->
  GetValue RMpcPrivateShare res = Ret [rx] -> GetValue MpcPrivateShare res = Ret [fx] ->
  exists st, MpcSStep_InitStep res (CreateMpcSStep peers [MpcPrivateShare] [MpcS]).2 = Ret st /\
    ss_single st /\ ss_get st = ∅ /\ ss_resultKeys st = [MpcS] /\
    MpcSStep_CreateMessage st
    = Ret [step_message MPCMessage None [SchnorrSign fx rx (challenge_of M r)] []].
Proof.
  intros E1 Hr E2 E3 E4. unfold MpcSStep_InitStep. cbn. unfold mpcSGenerator_initialize.
  rewrite E1, E2, E3, E4. cbn [mbind outcome_bind idx lookup list_lookup].
  rewrite <- surjective_pairing, challenge_mulG by done. by eexists.
Qed.

Lemma ackRS_init res peers (Rp : Z * Z) s :
  GetValue RPublicKeyResult res = Ret [Rp.1; Rp.2] -> GetValue MpcS res = Ret [s] ->
  exists st, MpcAckRSStep_InitStep res (CreateAckMpcRSStep peers).2 = Ret st /\ ack_ok Rp s st.
Proof.
  intros E1 E2. unfold MpcAckRSStep_InitStep. rewrite E1. cbn. rewrite E2. cbn.
  eexists. split; [done|]. split_and!; try done. by destruct Rp.
Qed.

Definition broadcast (data : list Z) : StepMessage := step_message MPCMessage None data [].

Lemma sign_round2_ok peers dealers rho x l res :
  group_ok peers -> vars_ok vars -> dealers ⊆+ peers -> l ≡ₚ dealers ->
  let F := psum (map rho dealers) in
  poly_at F x <> 0 ->
  sign_round2 peers (share_msgs rho x l) res
  = Ret (put_point RMpcPublicShare (poly_at F x) (SetValue RMpcPrivateShare [poly_at F x] res)).
Proof.
  intros Hg [Hv1 Hv2] Hd Hl F Hnz. unfold sign_round2, CreateMpcSKShareStep, createSkPolyValue.
  rewrite decide_False by lia. cbn [mbind outcome_bind].
  set (g := {| rp_message := ∅ |}).
  destruct (share_round_correct peers Hg RMpcPrivateShare RMpcPublicShare rho dealers l x res g Hd Hl eq_refl Hnz)
    as (g1 & g2 & E1 & E2).
  unfold share_msgs. rewrite E1. cbn [mbind outcome_bind].
  unfold MpcRSKShare_Step_finish. by rewrite E2.
Qed.

Lemma sign_round3_ok peers F x l res :
  group_ok peers -> vars_ok vars -> Forall (fun p => 0 < Seed p < N) peers ->
  point_round_ok vars peers F l ->
  GetValue RMpcPublicShare res = Ret [(mulG (poly_at F x)).1; (mulG (poly_at F x)).2] ->
  sign_round3 peers (point_msgs F l) res
  = Ret ([broadcast [(mulG (poly_at F x)).1; (mulG (poly_at F x)).2]],
         put_point RPublicKeyResult (poly_at F 0) res).
Proof.
  intros Hg Hv Hs HR E. unfold sign_round3, CreateMpcRStep.
  destruct (point_init res (poly_at F x) peers RMpcPublicShare RPublicKeyResult E) as (st & -> & S3 & G3 & K3 & C3).
  cbn [mbind outcome_bind]. rewrite C3. cbn [mbind outcome_bind].
  destruct (point_round_correct vars peers Hg Hs F l RPublicKeyResult res st Hv HR S3 G3 K3)
    as (st1 & st2 & -> & E3). cbn [mbind outcome_bind]. by rewrite E3.
Qed.

Lemma sign_round4_ok peers f F x M l res :
  group_ok peers -> vars_ok vars -> Forall (fun p => 0 < Seed p < N) peers ->
  l ⊆+ peers -> Z.of_nat (length f) <= MpcSchnrThr vars ->
  Z.of_nat (length F) <= MpcSchnrThr vars -> MpcSchnrThr vars <= Z.of_nat (length l) ->
  let r := poly_at F 0 in
  let m := challenge_of M r in
  r mod N <> 0 ->
  GetValue RPublicKeyResult res = Ret [(mulG r).1; (mulG r).2] ->
  GetByteValue MpcM res = Ret M ->
  GetValue RMpcPrivateShare res = Ret [poly_at F x] ->
  GetValue MpcPrivateShare res = Ret [poly_at f x] ->
  sign_round4 peers (s_msgs f F m l) res
  = Ret ([broadcast [SchnorrSign (poly_at f x) (poly_at F x) m]],
         SetValue MpcS [SchnorrSign (poly_at f 0) r m] res).
Proof.
  intros Hg Hv Hs Hl Hf HF Hen r m Hr E1 E2 E3 E4. unfold sign_round4.
  destruct (S_init res peers M r _ _ E1 Hr E2 E3 E4) as (st & -> & S4 & G4 & K4 & C4).
  cbn [mbind outcome_bind]. rewrite C4. cbn [mbind outcome_bind].
  destruct (s_round_correct vars peers Hg Hs f F m l MpcS res st Hv Hl Hf HF Hen S4 G4 K4)
    as (st1 & st2 & -> & E). cbn [mbind outcome_bind]. by rewrite E.
Qed.

Lemma ackRS_finish_ok f r M res st :
  let m := challenge_of M r in
  let s := SchnorrSign f r m in
  verify_generic f r m -> ack_ok (mulG r) s st ->
  GetByteValue MpcM res = Ret M ->
  GetValue PublicKeyResult res = Ret [(mulG f).1; (mulG f).2] ->
  MpcAckRSStep_finish res st = Ret (SetByteValue MpcContextResult (point_bytes r ++ Bytes s) res).
Proof.
  intros m s Hgen (H1 & H2 & H3 & H4) E3 E4. pose proof (N_ge_2 N_prime). unfold MpcAckRSStep_finish.
  assert (s = (f * m + r) mod N) as Hs by (unfold s, SchnorrSign, Mod; by rewrite Zplus_mod_idemp_l).
  rewrite (verifyRS_exact res st M f r); rewrite ?H1, ?H2; try done.
  - fold m. rewrite decide_True by done. cbn [mbind outcome_bind].
    by rewrite FromECDSAPub_mulG by apply Hgen.
  - rewrite Hs. destruct Hgen. pose proof (Z.mod_pos_bound (f * m + r) N). lia.
Qed.

Lemma sign_round5_ok peers f r M l res :
  let m := challenge_of M r in
  let s := SchnorrSign f r m in
  verify_generic f r m ->
  GetValue RPublicKeyResult res = Ret [(mulG r).1; (mulG r).2] ->
  GetValue MpcS res = Ret [s] ->
  GetByteValue MpcM res = Ret M ->
  GetValue PublicKeyResult res = Ret [(mulG f).1; (mulG f).2] ->
  sign_round5 peers (ack_msgs (mulG r) s l) res
  = Ret ([broadcast [s; (mulG r).1; (mulG r).2]],
         SetByteValue MpcContextResult (point_bytes r ++ Bytes s) res).
Proof.
  intros m s Hgen E1 E2 E3 E4. unfold sign_round5.
  destruct (ackRS_init res peers (mulG r) s E1 E2) as (st & -> & A5). cbn [mbind outcome_bind].
  assert (MpcAckRSStep_CreateMessage st = [broadcast [s; (mulG r).1; (mulG r).2]]) as ->.
  { unfold MpcAckRSStep_CreateMessage. by destruct A5 as (-> & -> & _). }
  destruct (ack_handle_list (mulG r) s l st A5) as (b & st1 & E5 & A5').
  unfold ack_msgs. rewrite E5. cbn [mbind outcome_bind]. by rewrite (ackRS_finish_ok f r M).
Qed.

Lemma psum_short (peers : list PeerInfo) (rho : PeerInfo -> list Z) :
  Forall (fun p => Z.of_nat (length (rho p)) <= MpcSchnrThr vars) peers ->
  vars_ok vars -> Z.of_nat (length (psum (map rho peers))) <= MpcSchnrThr vars.
Proof.
  intros Hl [Ht _]. enough (length (psum (map rho peers)) <= Z.to_nat (MpcSchnrThr vars))%nat by lia.
  apply length_psum, Forall_map. eapply Forall_impl; [exact Hl|]. cbn. lia.
Qed.

Lemma sign_rounds_ok (peers dealers : list PeerInfo) (f : list Z) (rho : PeerInfo -> list Z) (M : bytes)
  (x : Z) (l2 l3 l4 l5 : list PeerInfo) (res : BaseMpcResult) :
  session peers dealers f rho M x l2 l3 l4 ->
  GetByteValue MpcM res = Ret M ->
  GetValue MpcPrivateShare res = Ret [poly_at f x] ->
  GetValue PublicKeyResult res = Ret [(mulG (poly_at f 0)).1; (mulG (poly_at f 0)).2] ->
  let F := psum (map rho dealers) in
  let r := poly_at F 0 in
  let m := challenge_of M r in
  let s := SchnorrSign (poly_at f 0) r m in
  exists res',
    sign_rounds peers (share_msgs rho x l2) (point_msgs F l3) (s_msgs f F m l4)
      (ack_msgs (mulG r) s l5) res
    = Ret ([broadcast [(mulG (poly_at F x)).1; (mulG (poly_at F x)).2];
            broadcast [SchnorrSign (poly_at f x) (poly_at F x) m];
            broadcast [s; (mulG r).1; (mulG r).2]], res') /\
    GetByteValue MpcContextResult res' = Ret (point_bytes r ++ Bytes s).
Proof.
  intros [Hv Hg Hsd Hf Hrho Hdl Hall Hown HR Hsub Hen Hgen] EM EP EK F r m s.
  pose proof (psum_short dealers rho Hrho Hv) as HF.
  assert (r mod N <> 0) as Hr by apply Hgen.
  unfold sign_rounds. rewrite (sign_round2_ok peers dealers) by done. cbn [mbind outcome_bind].
  rewrite (sign_round3_ok _ _ x) by (unfold put_point; solve_store). cbn [mbind outcome_bind].
  subst s m. rewrite (sign_round4_ok peers f F x M l4) by (unfold put_point; solve_store).
  cbn [mbind outcome_bind].
  rewrite (sign_round5_ok peers (poly_at f 0) r M l5) by (unfold put_point; solve_store).
  cbn [mbind outcome_bind].
  eexists. split; [done|]. apply GetByteValue_SetByteValue.
Qed.

(** ** Properties of the manifest *)

(** The signing rounds are correct.  Whatever order the messages come in,
    whichever part of the group deals, and whichever large enough parts the point and signature
    messages come from, a node finishes the rounds 2 to 5 with the encoding of
    [R = r G] followed by [s = gsk m + r], where [gsk] is the group secret, [r] the
    sum of the dealers' secrets and [m] the challenge; and its own messages are
    the ones the other nodes expect from its seed. *)
Theorem signature_correct (peers dealers : list PeerInfo) (f : list Z) (rho : PeerInfo -> list Z) (M : bytes)
  (x : Z) (l2 l3 l4 l5 : list PeerInfo) (res : BaseMpcResult) :
  session peers dealers f rho M x l2 l3 l4 ->
  GetByteValue MpcM res = Ret M ->
  GetValue MpcPrivateShare res = Ret [poly_at f x] ->
  GetValue PublicKeyResult res = Ret [(mulG (poly_at f 0)).1; (mulG (poly_at f 0)).2] ->
  let F := psum (map rho dealers) in
  let r := poly_at F 0 in
  let m := challenge_of M r in
  let s := SchnorrSign (poly_at f 0) r m in
  exists res',
    sign_rounds peers (share_msgs rho x l2) (point_msgs F l3) (s_msgs f F m l4)
      (ack_msgs (mulG r) s l5) res
    = Ret ([broadcast [(mulG (poly_at F x)).1; (mulG (poly_at F x)).2];
            broadcast [SchnorrSign (poly_at f x) (poly_at F x) m];
            broadcast [s; (mulG r).1; (mulG r).2]], res') /\
    GetByteValue MpcContextResult res' = Ret (point_bytes r ++ Bytes s).
Proof. apply sign_rounds_ok. Qed.

End Sign.

(** Dealing.  With one draw for the secret and [degree] draws for the other
    coefficients, a node deals to every peer the value of one polynomial of
    [degree + 1] coefficients at the peer's seed, and the value of that
    polynomial at zero is its secret draw. *)
Theorem deal_correct {C : EllipticCurve} {G : CurveGroup C} (peers : list PeerInfo) (degree s : Z)
  (ds : list Z) (rd : reader) :
  0 <= degree -> length ds = Z.to_nat degree ->
  exists g p,
    createSkPolyValue degree (length peers) = Ret g /\
    RandomPolynomialValue_initialize peers (Some s :: map Some ds ++ rd) g
    = (Ret {| rp_randCoefficient := p; rp_message := ∅;
              rp_polyValue := map (fun q => poly_at p (Seed q)) peers; rp_result := None |}, rd) /\
    Z.of_nat (length p) = degree + 1 /\ poly_at p 0 = s mod Params_N.
Proof.
  intros Hd Hl. pose proof (N_ge_2 N_prime). unfold createSkPolyValue.
  rewrite decide_False by lia. do 2 eexists. split; [done|]. split.
  - apply (initialize_draws N_prime); cbn; rewrite length_replicate; [lia|done].
  - split; [cbn; rewrite length_map; lia|].
    unfold dealt_poly. rewrite (poly_at_zero N_prime). by rewrite Z.mod_mod by lia.
Qed.

(** Secrets survive sharing.  A random polynomial with the given constant,
    evaluated at distinct points, is interpolated back to the constant by [Lagrange] from
    the first [degree + 1] of them. *)
Theorem secret_sharing_roundtrip {C : EllipticCurve} {G : CurveGroup C} (degree secret : Z)
  (ds xs : list Z) (rd : reader) :
  degree = Z.of_nat (length ds) -> distinct_mod xs (Z.to_nat (degree + 1)) ->
  exists p fs,
    RandPoly degree secret (map Some ds ++ rd) = (Ret p, rd) /\
    mapM_out (fun x => EvaluatePoly p x degree) xs = Ret fs /\
    Lagrange fs xs degree = Ret (secret mod Params_N).
Proof.
  intros Hd Hx. eexists _, (map (poly_at _) xs). split; [by apply (RandPoly_draws N_prime)|]. split.
  - apply mapM_out_map. intros x _. apply (EvaluatePoly_spec N_prime). cbn. rewrite length_map. lia.
  - destruct Hx as [Hl Hx]. rewrite (Lagrange_eq _ xs) by (rewrite ?length_map; lia). f_equal.
    rewrite (lag_value_poly N_prime (secret mod Params_N :: map (fun d => d mod Params_N + 1) ds)).
    + rewrite (poly_at_zero N_prime). apply Zmod_mod.
    + by split.
    + cbn. rewrite length_map. lia.
    + intros i Hi. unfold at_ at 1. rewrite list_lookup_fmap, (at_lookup xs i) by lia. cbn [fmap option_fmap option_map default id].
      apply Z.mod_small, (poly_at_range N_prime).
Qed.

(** Interpolation of points.  From the points [p(x) G] of [degree + 1] distinct
    non-zero abscissas, [LagrangeECC] computes [p(0) G], when no share is zero and no
    intermediate sum doubles a point or meets the point at infinity. *)
Theorem LagrangeECC_interpolates {C : EllipticCurve} {G : CurveGroup C} (p xs : list Z) (degree : Z) :
  let k := Z.to_nat (degree + 1) in
  let shares := map (poly_at p) xs in
  0 <= degree -> (length p <= k)%nat -> distinct_mod xs k ->
  Forall (fun x => x mod Params_N <> 0 /\ poly_at p x <> 0) xs -> ecc_generic shares xs k = true ->
  LagrangeECC (map (fun x => Some (mulG (poly_at p x))) xs) xs degree = Ret (Some (mulG (poly_at p 0))).
Proof.
  intros k shares Hd Hp Hx Hall Hgen. rewrite Forall_forall in Hall. pose proof Hx as [Hl _].
  assert (forall j, (j < k)%nat -> at_ shares j = poly_at p (at_ xs j)) as Hs.
  { intros j Hj. unfold shares, at_ at 1. rewrite list_lookup_fmap, (at_lookup xs j) by lia. done. }
  assert (forall j, (j < k)%nat -> at_ xs j ∈ xs) as Hin.
  { intros j Hj. apply (list_elem_of_lookup_2 xs j), at_lookup. lia. }
  rewrite (LagrangeECC_mulG _ shares xs degree); fold k; try done.
  - do 3 f_equal. apply (lag_value_poly N_prime); [done|done|]. intros i Hi. rewrite Hs by done.
    apply Z.mod_small, (poly_at_range N_prime).
  - unfold shares. rewrite length_map. lia.
  - intros j Hj. by apply Hall, Hin.
  - intros j Hj. rewrite Hs by done. split.
    + apply poly_at_nz. by apply Hall, Hin.
    + by rewrite list_lookup_fmap, (at_lookup xs j) by lia.
Qed.

(** C7: [verifyRS] accepts exactly the Schnorr equation.  When the echoed values
    agree, and for key, nonce and challenge the curve code supports, it returns
    nil if and only if [s = gsk m + r] for the discrete logarithms of the group
    key and of [R], and fails with [ErrVerifyFailed] otherwise. *)
Theorem verifyRS_accepts_exactly {C : EllipticCurve} {G : CurveGroup C} {H : Hashes}
  (res : BaseMpcResult) (st : MpcAckRSStep) (M : bytes) (f r : Z) :
  ar_mpcR st = mulG r ->
  map_Forall (fun _ v => v = ar_mpcR st) (ar_remoteMpcR st) ->
  map_Forall (fun _ v => v = ar_mpcS st) (ar_remoteMpcS st) ->
  GetByteValue MpcM res = Ret M ->
  GetValue PublicKeyResult res = Ret [(mulG f).1; (mulG f).2] ->
  verify_generic f r (challenge_of M r) -> 0 < ar_mpcS st < Params_N ->
  (verifyRS res st = Ret tt <-> ar_mpcS st = (f * challenge_of M r + r) mod Params_N) /\
  (verifyRS res st <> Ret tt -> verifyRS res st = Err ErrVerifyFailed).
Proof.
  intros HR H1 H2 HM HK Hg Hs. rewrite (verifyRS_exact res st M f r HR H1 H2 HM HK Hg Hs).
  case_decide as E; split; try done; by split.
Qed.

(** A disagreeing echo is refused.  If some node echoed another [R], or all
    echoed the same [R] and some node another [s], [verifyRS] fails with the
    corresponding error before any signature check. *)
Theorem verifyRS_rejects_disagreement {C : EllipticCurve} {H : Hashes}
  (res : BaseMpcResult) (st : MpcAckRSStep) :
  (forall id v, ar_remoteMpcR st !! id = Some v -> v <> ar_mpcR st ->
     verifyRS res st = Err ErrInvalidMPCR) /\
  (forall id v, map_Forall (fun _ v => v = ar_mpcR st) (ar_remoteMpcR st) ->
     ar_remoteMpcS st !! id = Some v -> v <> ar_mpcS st -> verifyRS res st = Err ErrInvalidMPCS).
Proof.
  split; intros id v.
  - intros E Hne. unfold verifyRS. by rewrite (forallb_differs _ _ id v).
  - intros Hall E Hne. unfold verifyRS. rewrite forallb_const by done. cbn [negb].
    by rewrite (forallb_differs _ _ id v).
Qed.

(** The share of a stranger is counted.  A sender outside the group has seed
    zero; its first share is accepted and added to the result, so that the node's share is
    no longer the sum of the dealt values. *)
Theorem stranger_share_accepted {C : EllipticCurve} {R : MapRange} (peers : list PeerInfo) (id : NodeID) (v : Z)
  (g : RandomPolynomialValue) :
  2 <= Params_N -> id ∉ map PeerID peers -> rp_message g !! 0 = None ->
  exists g', MpcSKShareStep_HandleMessage peers (step_message 0 (Some id) [v] []) g = Ret (true, g') /\
    rp_message g' = <[0 := v]> (rp_message g) /\
    rp_result (RandomPolynomialValue_calculateResult g')
    = Some ((v + sum_Z (map snd (map_to_list (rp_message g)))) mod Params_N).
Proof.
  intros HN Hid H0. eexists. split.
  - unfold MpcSKShareStep_HandleMessage. cbn. rewrite getPeerSeed_out, H0 by done. done.
  - split; [done|]. rewrite calculateResult_sum by lia. cbn [rp_result rp_message]. do 2 f_equal.
    etransitivity; [apply sum_Z_perm; by rewrite map_to_list_insert|]. done.
Qed.

(** A short message stops the node.  The handler of the point steps reads two
    values of the message before it looks at its length and at its sender, so that a
    message with fewer values panics, whoever sent it; the loop of the step panics with
    it. *)
Theorem short_point_message_panics (peers : list PeerInfo) (from : NodeID) (msg : MpcMessage) (s : MpcPointStep)
  (accType : string) (b : BaseStep) :
  (length (mm_Data msg) < 2)%nat -> 0 < bs_waiting b -> bs_stepId b = mm_StepID msg ->
  MpcPointStep_HandleMessage peers (received from msg) s = Panic /\
  loop_once peers {| st_base := set_msgChan [Some (received from msg)] b; st_inner := SR s accType; st_loop := true |}
  = lift Panic.
Proof.
  intros Hl Hw Hid.
  assert (MpcPointStep_HandleMessage peers (received from msg) s = Panic) as E.
  { unfold MpcPointStep_HandleMessage. cbn [received sm_PeerID of_option mbind outcome_bind sm_Data].
    destruct (mm_Data msg) as [|a [|c l]]; cbn in Hl; [done|done|lia]. }
  split; [exact E|]. unfold loop_once, HandleMessage. cbn [st_loop st_base bs_msgChan set_msgChan].
  rewrite decide_False by (cbn; unfold GetStepId; cbn; congruence). rewrite decide_True by done.
  cbn [st_inner step_HandleMessage]. by rewrite E.
Qed.

#[local] Existing Instances smallC small_group list_range toy_hashes.

Definition toy_res : BaseMpcResult :=
  SetByteValue MpcM toy_M
    (SetValue PublicKeyResult [(mulG (poly_at toy_f 0)).1; (mulG (poly_at toy_f 0)).2]
      (SetValue MpcPrivateShare [poly_at toy_f 3] createMpcBaseMpcResult)).

Lemma toy_point_ok F :
  forallb (fun p => negb (poly_at F (Seed p) =? 0)) [peer3; peer2] &&
  negb (poly_at F 0 =? 0) && negb ((mulG (poly_at F 0)).1 =? 0) &&
  negb ((mulG (poly_at F 0)).2 =? 0) && (length F <=? 2)%nat &&
  generic_for toy_vars F
    (list_to_map (by_seed (fun p => mulG (poly_at F (Seed p))) [peer3; peer2])) = true ->
  point_round_ok toy_vars toy_peers F [peer3; peer2].
Proof.
  rewrite !andb_true_iff, !negb_true_iff, !Z.eqb_neq, Nat.leb_le, forallb_forall.
  intros (((((Hs & H0) & Hx) & Hy) & Hl) & Hg). split; try done.
  - unfold toy_peers. apply submseteq_cons, Permutation_submseteq. apply perm_swap.
  - cbn. lia.
  - intros p Hp%list_elem_of_In%Hs. by rewrite negb_true_iff, Z.eqb_neq in Hp.
Qed.

Lemma toy_group : group_ok toy_peers /\ Forall (fun p => 0 < Seed p < Params_N) toy_peers.
Proof.
  split; [split_and!|].
  - by apply (bool_decide_unpack _); vm_compute.
  - by apply (bool_decide_unpack _); vm_compute.
  - repeat constructor; done.
  - repeat constructor; done.
Qed.

Lemma toy_session :
  session toy_vars toy_peers toy_peers toy_f toy_rho toy_M 3 [peer2; peer1; peer3] [peer3; peer2] toy_peers.
Proof.
  destruct toy_group as [Hg Hs]. split.
  - split; cbn; lia.
  - exact Hg.
  - exact Hs.
  - cbn. lia.
  - apply Forall_forall. intros p _. unfold toy_rho. by repeat case_decide.
  - done.
  - apply perm_swap.
  - by vm_compute.
  - apply toy_point_ok. by vm_compute.
  - done.
  - cbn. lia.
  - by split; vm_compute.
Qed.

Lemma signature_correct_witness :
  let F := psum (map toy_rho toy_peers) in
  exists res',
    sign_rounds toy_vars toy_peers (share_msgs toy_rho 3 [peer2; peer1; peer3])
      (point_msgs F [peer3; peer2]) (s_msgs toy_f F 9 toy_peers)
      (ack_msgs (mulG 14) 15 [peer2; peer3]) toy_res
    = Ret ([broadcast [(mulG 19).1; (mulG 19).2]; broadcast [4]; broadcast [15; (mulG 14).1; (mulG 14).2]],
           res') /\
    GetByteValue MpcContextResult res' = Ret (point_bytes 14 ++ [Byte.x0f]).
Proof.
  apply (signature_correct toy_vars toy_peers toy_peers toy_f toy_rho toy_M 3 [peer2; peer1; peer3]
    [peer3; peer2] toy_peers [peer2; peer3] toy_res toy_session); vm_compute; reflexivity.
Defined.

Lemma deal_correct_witness :
  exists g p,
    createSkPolyValue 1 3 = Ret g /\
    RandomPolynomialValue_initialize toy_peers [Some 40; Some 8] g
    = (Ret {| rp_randCoefficient := p; rp_message := ∅;
              rp_polyValue := map (fun q => poly_at p (Seed q)) toy_peers; rp_result := None |}, []) /\
    Z.of_nat (length p) = 1 + 1 /\ poly_at p 0 = 40 mod Params_N.
Proof. apply (deal_correct toy_peers 1 40 [8] []); [lia|done]. Defined.

Definition toy_ack (s : Z) : MpcAckRSStep :=
  {| ar_message := ∅; ar_remoteMpcR := {[ [Byte.x02] := mulG 14 ]};
     ar_remoteMpcS := {[ [Byte.x02] := s ]}; ar_mpcR := mulG 14; ar_mpcS := s |}.

Lemma verifyRS_accepts_exactly_witness :
  (verifyRS toy_res (toy_ack 15) = Ret tt <->
     15 = (7 * challenge_of toy_M 14 + 14) mod Params_N) /\
  (verifyRS toy_res (toy_ack 15) <> Ret tt -> verifyRS toy_res (toy_ack 15) = Err ErrVerifyFailed).
Proof.
  apply (verifyRS_accepts_exactly toy_res (toy_ack 15) toy_M 7 14).
  - done.
  - by apply map_Forall_singleton.
  - by apply map_Forall_singleton.
  - vm_compute. reflexivity.
  - vm_compute. reflexivity.
  - by split; vm_compute.
  - split; by vm_compute.
Defined.

Lemma verifyRS_rejects_disagreement_witness :
  verifyRS createMpcBaseMpcResult
    {| ar_message := ∅; ar_remoteMpcR := {[ [Byte.x02] := (1, 2) ]}; ar_remoteMpcS := ∅;
       ar_mpcR := (0, 0); ar_mpcS := 0 |} = Err ErrInvalidMPCR.
Proof.
  apply (proj1 (verifyRS_rejects_disagreement _ _) [Byte.x02] (1, 2)); [|done].
  vm_compute. reflexivity.
Defined.

Lemma toy_distinct : distinct_mod [3; 5; 8] 2.
Proof.
  split; [cbn; lia|]. intros [|[|i]] [|[|j]] xi xj Hi Hj E1 E2 E; cbn in *; simplify_eq; try lia; done.
Qed.

Lemma secret_sharing_roundtrip_witness :
  exists p fs,
    RandPoly 1 40 (map Some [8] ++ []) = (Ret p, []) /\
    mapM_out (fun x => EvaluatePoly p x 1) [3; 5; 8] = Ret fs /\
    Lagrange fs [3; 5; 8] 1 = Ret (40 mod Params_N).
Proof. apply (secret_sharing_roundtrip 1 40 [8] [3; 5; 8] []); [reflexivity|apply toy_distinct]. Defined.

Lemma LagrangeECC_interpolates_witness :
  LagrangeECC (map (fun x => Some (mulG (poly_at [7; 4] x))) [3; 5; 8]) [3; 5; 8] 1
  = Ret (Some (mulG (poly_at [7; 4] 0))).
Proof.
  apply (LagrangeECC_interpolates [7; 4] [3; 5; 8] 1).
  - lia.
  - cbn. lia.
  - apply toy_distinct.
  - repeat constructor; by vm_compute.
  - by vm_compute.
Defined.

Definition toy_share : RandomPolynomialValue :=
  {| rp_randCoefficient := []; rp_message := {[ 3 := 4 ]}; rp_polyValue := []; rp_result := None |}.

Lemma stranger_share_accepted_witness :
  exists g', MpcSKShareStep_HandleMessage toy_peers (step_message 0 (Some [Byte.x09]) [11] []) toy_share = Ret (true, g') /\
    rp_message g' = <[0 := 11]> (rp_message toy_share) /\
    rp_result (RandomPolynomialValue_calculateResult g')
    = Some ((11 + sum_Z (map snd (map_to_list (rp_message toy_share)))) mod Params_N).
Proof.
  apply (stranger_share_accepted toy_peers [Byte.x09] 11 toy_share).
  - by vm_compute.
  - apply (bool_decide_unpack _). by vm_compute.
  - reflexivity.
Defined.

Definition short_msg : MpcMessage :=
  {| mm_ContextID := 7; mm_StepID := 0; mm_Peers := []; mm_Data := [1]; mm_BytesData := [] |}.

Lemma short_point_message_panics_witness :
  MpcPointStep_HandleMessage toy_peers (received [Byte.x02] short_msg) (CreateMpcRStep toy_peers).2 = Panic.
Proof.
  apply (short_point_message_panics toy_peers [Byte.x02] short_msg (CreateMpcRStep toy_peers).2 EmptyString
    (CreateMpcRStep toy_peers).1).
  - cbn. lia.
  - by vm_compute.
  - reflexivity.
Defined.
