(* ===== verification/Keystore.v ===== *)
(** * Addresses and stored keys

    [src/common/types.go] (addresses), [src/crypto/crypto.go] and
    [src/storeman/shcnorrmpc/basicfunc.go] (keys and their addresses),
    [src/accounts/keystore/key.go] and [keystore_passphrase.go] (the file of a
    storeman account), [account_cache.go] (its lookup by address).  JSON text is
    represented by the record it encodes. *)

From S2P Require Import Prelude BigInt CommonMath Curve Secp256k1 Schnorr Protocol Generators Hexutil Instances.

(** ** Addresses *)

Definition AddressLength : nat := 20.
Definition WAddressLength : nat := 66.
Definition PkLength : nat := 65.

Abbreviation Address := bytes.

(** [SetBytes] keeps the last 20 bytes, and pads on the left. *)
Definition Address_SetBytes (a : Address) (b : bytes) : Address :=
  let b := if decide (AddressLength < length b)%nat then drop (length b - AddressLength) b else b in
  copy_at a (AddressLength - length b) b.

Definition BytesToAddress (b : bytes) : Address :=
  Address_SetBytes (replicate AddressLength Byte.x00) b.

(** ** Libraries the key file relies on

    Bitcoin addresses and compressed keys ([btcutil], [btcec]),
    [golang.org/x/crypto/scrypt] and [pbkdf2], the AES counter-mode key stream,
    and the text form of a [uuid.UUID]. *)
Class KeyCrypto := {
  PubkeyToRipemd160 : point -> Address;
  ECDSAPKCompression : point -> bytes;
  scrypt_Key : bytes -> bytes -> Z -> Z -> Z -> Z -> outcome bytes;
  pbkdf2_Key : bytes -> bytes -> Z -> Z -> bytes;
  aes_ctr_stream : bytes -> bytes -> nat -> bytes;
  uuid_String : bytes -> bytes;
  uuid_Parse : bytes -> bytes;
  length_aes_ctr_stream k iv n : length (aes_ctr_stream k iv n) = n
}.

Section Keys.
Context {C : EllipticCurve} {H : Hashes} {K : KeyCrypto}.

(** A letter is upper case when its hash nibble is at most 7 (EIP-55 has the
    opposite rule). *)
Definition Address_Hex (a : Address) : bytes :=
  let unchecksummed := hex_EncodeToString a in
  let hash := keccak256 unchecksummed in
  x0 ++ imap (fun i c =>
    let hashByte := ub (default Byte.x00 (hash !! (i / 2)%nat)) in
    let hashByte := if decide (i mod 2 = 0)%nat then Z.shiftr hashByte 4 else Z.land hashByte 15 in
    if (57 <? ub c) && (hashByte <=? 7) then u8 (ub c - 32) else c) unchecksummed.

(** [pubBytes[1:]] of the encoding of a point without coordinates panics. *)
Definition PubkeyToAddress (p : point) : outcome Address :=
  pubBytes ← FromECDSAPub (Some p);
  if decide (pubBytes = []) then Panic else
  Ret (BytesToAddress (drop 12 (keccak256 (drop 1 pubBytes)))).

(** A 65-byte string that is not the encoding of a point of the curve makes
    [ToECDSAPub] return nil, which is dereferenced. *)
Definition PkToAddress (PkBytes : bytes) : outcome Address :=
  if decide (length PkBytes <> PkLength) then Err "invalid pk address" else
  pk ← of_option (ToECDSAPub PkBytes);
  PubkeyToAddress pk.

Definition PkToHexString (pk : option point) : outcome bytes :=
  pkByte ← FromECDSAPub pk; Ret (Encode pkByte).

Definition StringtoPk (str : bytes) : outcome (option point) :=
  pkBytes ← Decode str; Ret (ToECDSAPub pkBytes).

(** ** Private keys *)

Record PrivateKey := { D : Z; Pub : point }.

Definition toECDSA (d : bytes) (strict : bool) : outcome PrivateKey :=
  if strict && negb (8 * Z.of_nat (length d) =? Params_BitSize) then Err "invalid length" else
  pub ← ScalarBaseMult d;
  Ret {| D := SetBytes d; Pub := pub |}.

Definition FromECDSA (priv : option PrivateKey) : bytes :=
  match priv with
  | None => []
  | Some k => PaddedBigBytes (D k) (Z.to_nat (Params_BitSize / 8))
  end.

(** ** Key objects *)

Record Key := {
  k_Id : bytes;
  k_Address : Address;
  k_PrivateKey : PrivateKey;
  k_PrivateKey2 : PrivateKey;
  k_WAddress : bytes;
  k_Exten : bytes
}.

Definition StoremanBtcAcc : string := "BTC".

(** [copy(WAddress[i*3:], b[5:])]: slicing past the end of the array panics; at
    its end nothing is copied. *)
Fixpoint put_seeds (i : nat) (seeds : list Z) (wa : bytes) : outcome bytes :=
  match seeds with
  | [] => Ret wa
  | seed :: ss =>
      let b := be_fix 8 seed in
      if decide (length wa < i * 3)%nat then Panic else
      put_seeds (S i) ss (copy_at wa (i * 3) (drop 5 b))
  end.

Definition newMpcKey (id : bytes) (pKey : point) (pShare : Z) (seeds : list Z) (accType : string)
  : outcome Key :=
  '(x, y) ← of_option pKey;
  let priv := {| D := pShare; Pub := Some (SetBytes (Bytes x), SetBytes (Bytes y)) |} in
  pubBytes ← FromECDSAPub (Some pKey);
  let exten := hex_EncodeToString pubBytes in
  '(addr, exten) ← (if decide (accType = StoremanBtcAcc)
                    then Ret (PubkeyToRipemd160 pKey, hex_EncodeToString (ECDSAPKCompression pKey))
                    else addr ← PubkeyToAddress pKey; Ret (addr, exten));
  wa ← put_seeds 0 seeds (replicate WAddressLength Byte.x00);
  Ret {| k_Id := id; k_Address := addr; k_PrivateKey := priv; k_PrivateKey2 := priv;
         k_WAddress := wa; k_Exten := exten |}.

(** ** Encryption *)

Record cryptoJSON := {
  cj_Cipher : string;
  cj_CipherText : bytes;
  cj_IV : bytes;
  cj_KDF : string;
  cj_n : Z; cj_r : Z; cj_p : Z; cj_dklen : Z; cj_salt : bytes; cj_c : Z; cj_prf : string;
  cj_MAC : bytes
}.

Record encryptedKeyJSONV3 := {
  ej_Address : bytes;
  ej_Crypto : cryptoJSON;
  ej_Crypto2 : cryptoJSON;
  ej_Id : bytes;
  ej_Version : Z;
  ej_WAddress : bytes;
  ej_Exten : bytes
}.

Definition version : Z := 3.
Definition keyHeaderKDF : string := "scrypt".
Definition scryptR : Z := 8.
Definition scryptDKLen : Z := 32.
Definition ErrDecrypt : error := "could not decrypt key with given passphrase".
Definition ErrInvalidPrivateKey : error := "invalid private key".

Definition xor_bytes (a b : bytes) : bytes := zip_with (fun x y => u8 (Z.lxor (ub x) (ub y))) a b.

(** [aes.NewCipher] wants 16, 24 or 32 bytes, [cipher.NewCTR] a 16-byte iv. *)
Definition aesCTRXOR (key inText iv : bytes) : outcome bytes :=
  if decide (length key ∉ [16; 24; 32])%nat then Err "crypto/aes: invalid key size" else
  if decide (length iv <> 16)%nat then Panic else
  Ret (xor_bytes inText (aes_ctr_stream key iv (length inText))).

(** [salt] and [iv] are the draws of [randentropy]. *)
Definition EncryptOnePrivateKey (privateKey : PrivateKey) (auth salt iv : bytes) (scryptN scryptP : Z)
  : outcome cryptoJSON :=
  derivedKey ← scrypt_Key auth salt scryptN scryptR scryptP scryptDKLen;
  encryptKey ← slice derivedKey 0 16;
  let keyBytes := PaddedBigBytes (D privateKey) 32 in
  cipherText ← aesCTRXOR encryptKey keyBytes iv;
  macKey ← slice derivedKey 16 32;
  let mac := keccak256 (macKey ++ cipherText) in
  Ret {| cj_Cipher := "aes-128-ctr"; cj_CipherText := hex_EncodeToString cipherText;
         cj_IV := hex_EncodeToString iv; cj_KDF := keyHeaderKDF;
         cj_n := scryptN; cj_r := scryptR; cj_p := scryptP; cj_dklen := scryptDKLen;
         cj_salt := hex_EncodeToString salt; cj_c := 0; cj_prf := EmptyString;
         cj_MAC := hex_EncodeToString mac |}.

Definition EncryptKey (key : Key) (auth salt1 iv1 salt2 iv2 : bytes) (scryptN scryptP : Z)
  : outcome encryptedKeyJSONV3 :=
  cryptoStruct ← EncryptOnePrivateKey (k_PrivateKey key) auth salt1 iv1 scryptN scryptP;
  cryptoStruct2 ← EncryptOnePrivateKey (k_PrivateKey2 key) auth salt2 iv2 scryptN scryptP;
  Ret {| ej_Address := drop 2 (Address_Hex (k_Address key)); ej_Crypto := cryptoStruct;
         ej_Crypto2 := cryptoStruct2; ej_Id := uuid_String (k_Id key); ej_Version := version;
         ej_WAddress := hex_EncodeToString (k_WAddress key); ej_Exten := k_Exten key |}.

Definition getKDFKey (cj : cryptoJSON) (auth : bytes) : outcome bytes :=
  salt ← hex_DecodeString (cj_salt cj);
  if decide (cj_KDF cj = keyHeaderKDF)
  then scrypt_Key auth salt (cj_n cj) (cj_r cj) (cj_p cj) (cj_dklen cj)
  else if decide (cj_KDF cj = "pbkdf2"%string) then
    if decide (cj_prf cj <> "hmac-sha256"%string) then Err "Unsupported PBKDF2 PRF"
    else Ret (pbkdf2_Key auth salt (cj_c cj) (cj_dklen cj))
  else Err "Unsupported KDF".

Definition decryptKeyV3Item (cj : cryptoJSON) (auth : bytes) : outcome bytes :=
  if decide (cj_Cipher cj <> "aes-128-ctr"%string) then Err "Cipher not supported" else
  mac ← hex_DecodeString (cj_MAC cj);
  iv ← hex_DecodeString (cj_IV cj);
  cipherText ← hex_DecodeString (cj_CipherText cj);
  derivedKey ← getKDFKey cj auth;
  macKey ← slice derivedKey 16 32;
  if decide (keccak256 (macKey ++ cipherText) <> mac) then Err ErrDecrypt else
  encryptKey ← slice derivedKey 0 16;
  aesCTRXOR encryptKey cipherText iv.

(** A failing second item is tolerated only when it is absent. *)
Definition decryptKeyV3 (kp : encryptedKeyJSONV3) (auth : bytes) : outcome (bytes * bytes * bytes) :=
  if decide (ej_Version kp <> version) then Err "Version not supported" else
  let keyId := uuid_Parse (ej_Id kp) in
  plainText ← decryptKeyV3Item (ej_Crypto kp) auth;
  plainText2 ← match decryptKeyV3Item (ej_Crypto2 kp) auth with
               | Err e => if decide (cj_Cipher (ej_Crypto2 kp) = EmptyString) then Ret [] else Err e
               | o => o
               end;
  Ret (plainText, plainText2, keyId).

(** The version 3 branch; [ToECDSA] fails on a wrong length. *)
Definition DecryptKey (k : encryptedKeyJSONV3) (auth : bytes) : outcome Key :=
  '(keyBytes, keyBytes2, keyId) ← decryptKeyV3 k auth;
  key ← match toECDSA keyBytes true with Err _ => Err ErrInvalidPrivateKey | o => o end;
  key2 ← match toECDSA keyBytes2 true with Err _ => Err ErrInvalidPrivateKey | o => o end;
  waddressRaw ← hex_DecodeString (ej_WAddress k);
  let waddress := copy_at (replicate WAddressLength Byte.x00) 0 waddressRaw in
  addr ← PubkeyToAddress (Pub key);
  Ret {| k_Id := keyId; k_Address := addr; k_PrivateKey := key; k_PrivateKey2 := key2;
         k_WAddress := waddress; k_Exten := ej_Exten k |}.

(** ** The account store *)

(** Accounts of the key directory: address and file. *)
Abbreviation KeyStore := (list (Address * encryptedKeyJSONV3)).

Definition ErrNoMatch : error := "no key for given address or file".
Definition AmbiguousAddrError : error := "multiple keys match address".

(** [find] without a path: the zero address matches every account. *)
Definition KeyStore_Find (ks : KeyStore) (addr : Address) : outcome encryptedKeyJSONV3 :=
  let matches := if decide (addr = replicate AddressLength Byte.x00) then ks
                 else filter (fun a => a.1 = addr) ks in
  match matches with
  | [] => Err ErrNoMatch
  | [a] => Ret a.2
  | _ => Err AmbiguousAddrError
  end.

Record StoreParams := {
  sp_scryptN : Z; sp_scryptP : Z;
  sp_salt1 : bytes; sp_iv1 : bytes; sp_salt2 : bytes; sp_iv2 : bytes; sp_id : bytes
}.

(** [NewStoremanAccount]: [storeStoremanKey] then the cache. *)
Definition NewStoremanAccount (sp : StoreParams) (pKey : point) (pShare : Z) (seeds : list Z)
  (passphrase : bytes) (accType : string) (ks : KeyStore) : outcome (Address * KeyStore) :=
  key ← newMpcKey (sp_id sp) pKey pShare seeds accType;
  _ ← PkToHexString (Some pKey);
  keyjson ← EncryptKey key passphrase (sp_salt1 sp) (sp_iv1 sp) (sp_salt2 sp) (sp_iv2 sp)
              (sp_scryptN sp) (sp_scryptP sp);
  Ret (k_Address key, (k_Address key, keyjson) :: ks).

(** [GetPrivateShare] without key management service. *)
Definition GetPrivateShare (ks : KeyStore) (address : Address) (password : bytes) : outcome Key :=
  keyjson ← KeyStore_Find ks address;
  DecryptKey keyjson password.

End Keys.

(** ** Lemmas *)

Lemma xor_bytes_twice a : forall s, (length a <= length s)%nat -> xor_bytes (xor_bytes a s) s = a.
Proof.
  induction a as [|x a IH]; intros [|y s] Hl; cbn in *; try done; [lia|].
  f_equal; [|apply IH; lia]. rewrite ub_u8.
  pose proof (ub_range x). pose proof (ub_range y).
  assert (0 <= Z.lxor (ub x) (ub y) < 256) as Hx.
  { split; [apply Z.lxor_nonneg; lia|].
    destruct (Z.lt_trichotomy (Z.lxor (ub x) (ub y)) 0) as [?|[->|?]]; [lia|lia|].
    apply (Z.log2_lt_pow2 _ 8); [lia|].
    eapply Z.le_lt_trans; [apply Z.log2_lxor; lia|].
    apply Z.max_lub_lt; (destruct (decide (ub x = 0)) as [->|]; [by cbn|]) ||
      (destruct (decide (ub y = 0)) as [->|]; [by cbn|]); apply Z.log2_lt_pow2; lia. }
  rewrite Z.mod_small by lia. rewrite Z.lxor_assoc, Z.lxor_nilpotent, Z.lxor_0_r. apply u8_ub.
Qed.

Lemma length_xor_bytes a s : (length a <= length s)%nat -> length (xor_bytes a s) = length a.
Proof. intros Hl. unfold xor_bytes. rewrite length_zip_with. lia. Qed.

Lemma slice_Ret {A} (l : list A) a b :
  (a <= b <= length l)%nat -> slice l a b = Ret (take (b - a) (drop a l)).
Proof. intros Hl. unfold slice. by rewrite decide_True by lia. Qed.

(** *** Seeds in the address field *)

Definition seeds_bytes (seeds : list Z) : bytes := concat (map (be_fix 3) seeds).

Lemma length_seeds_bytes seeds : length (seeds_bytes seeds) = (3 * length seeds)%nat.
Proof.
  unfold seeds_bytes. induction seeds as [|x seeds IH]; [done|].
  cbn [map concat length]. rewrite length_app, length_be_fix, IH. lia.
Qed.

Lemma low_bytes seed : drop 5 (be_fix 8 seed) = be_fix 3 seed.
Proof. done. Qed.

Lemma put_seeds_eq seeds : forall i pre suf,
  length pre = (i * 3)%nat -> (3 * length seeds <= length suf)%nat ->
  put_seeds i seeds (pre ++ suf) = Ret (pre ++ seeds_bytes seeds ++ drop (3 * length seeds) suf).
Proof.
  induction seeds as [|x seeds IH]; intros i pre suf Hp Hs; cbn [put_seeds length].
  { by rewrite Nat.mul_0_r, drop_0. }
  cbn [length] in Hs. rewrite low_bytes, decide_False by (rewrite length_app; lia).
  replace (pre ++ suf) with (pre ++ take 3 suf ++ drop 3 suf) by (by rewrite take_drop).
  rewrite <- Hp at 1. rewrite copy_at_mid by (rewrite length_take, length_be_fix; lia).
  rewrite app_assoc, IH by (rewrite ?length_app, ?length_be_fix, ?length_drop; lia).
  f_equal. rewrite <- !app_assoc. f_equal. unfold seeds_bytes. cbn [map concat].
  rewrite <- app_assoc. do 2 f_equal. rewrite drop_drop. f_equal. lia.
Qed.

Lemma put_seeds_fit seeds :
  (length seeds <= 22)%nat ->
  put_seeds 0 seeds (replicate WAddressLength Byte.x00)
  = Ret (seeds_bytes seeds ++ replicate (66 - 3 * length seeds) Byte.x00).
Proof.
  intros Hl. pose proof (put_seeds_eq seeds 0 [] (replicate WAddressLength Byte.x00) eq_refl) as E.
  cbn [app] in E. unfold WAddressLength in *. rewrite E by (rewrite length_replicate; lia).
  by rewrite drop_replicate.
Qed.

Lemma put_seeds_overflow seeds : forall i wa,
  length wa = WAddressLength -> (i <= 23)%nat -> (24 <= i + length seeds)%nat ->
  put_seeds i seeds wa = Panic.
Proof.
  unfold WAddressLength. induction seeds as [|x seeds IH]; intros i wa Hw Hi Hl; cbn [length] in Hl; [lia|].
  cbn [put_seeds]. case_decide as Hd; [done|]. apply IH; [|lia|lia].
  rewrite length_copy_at; lia.
Qed.

Section Store.
Context {C : EllipticCurve} {G : CurveGroup C} {H : Hashes} {K : KeyCrypto}.

(** Documented: [scrypt.Key] returns a key of the requested length for
    parameters it accepts. *)
Definition scrypt_accepts (n p : Z) : Prop :=
  forall auth salt, exists dk, scrypt_Key auth salt n scryptR p scryptDKLen = Ret dk /\ length dk = 32%nat.

Lemma aesCTRXOR_16 key t iv :
  length key = 16%nat -> length iv = 16%nat ->
  aesCTRXOR key t iv = Ret (xor_bytes t (aes_ctr_stream key iv (length t))).
Proof.
  intros Hk Hi. unfold aesCTRXOR. rewrite Hk, Hi, decide_False, decide_False; [done|lia|].
  intros Hn. apply Hn. set_solver.
Qed.

Lemma decrypt_item priv auth salt iv n p :
  scrypt_accepts n p -> length iv = 16%nat -> 0 <= D priv < 256 ^ 32 ->
  exists cj, EncryptOnePrivateKey priv auth salt iv n p = Ret cj /\ decryptKeyV3Item cj auth = Ret (be_fix 32 (D priv)).
Proof.
  intros Hs Hi Hd. destruct (Hs auth salt) as (dk & Ek & Hl).
  unfold EncryptOnePrivateKey. rewrite Ek. cbn [mbind outcome_bind].
  rewrite !slice_Ret by lia. cbn [mbind outcome_bind].
  rewrite aesCTRXOR_16 by (done || rewrite length_take, length_drop; lia).
  cbn [mbind outcome_bind]. eexists. split; [done|].
  unfold decryptKeyV3Item, getKDFKey. cbn [cj_Cipher cj_MAC cj_IV cj_CipherText cj_salt cj_KDF cj_n cj_r cj_p cj_dklen].
  rewrite decide_False by auto. rewrite !hex_DecodeString_Encode. cbn [mbind outcome_bind].
  rewrite decide_True by done. rewrite Ek. cbn [mbind outcome_bind].
  rewrite !slice_Ret by lia. cbn [mbind outcome_bind]. rewrite decide_False by auto.
  rewrite aesCTRXOR_16 by (done || rewrite length_take, length_drop; lia). f_equal.
  rewrite length_xor_bytes by (by rewrite length_aes_ctr_stream).
  rewrite xor_bytes_twice by (by rewrite length_aes_ctr_stream).
  rewrite PaddedBigBytes_eq, Z.abs_eq by (rewrite ?Z.abs_eq; lia). done.
Qed.

Lemma toECDSA_share d :
  Params_BitSize = 256 -> 0 < d < Params_N ->
  toECDSA (be_fix 32 d) true = Ret {| D := d; Pub := Some (mulG d) |}.
Proof.
  intros HB Hd. unfold toECDSA. rewrite length_be_fix, HB. cbn [andb negb].
  pose proof N_bound as Hb. pose proof (N_ge_2 N_prime).
  assert (be_val (be_fix 32 d) = d) as Ev by (apply be_val_fix_small; lia).
  rewrite ScalarBaseMult_mulG, ScalarMult_mulG, Ev.
  - cbn [mbind outcome_bind]. unfold SetBytes. by rewrite Ev, Z.mul_1_l.
  - rewrite length_be_fix. lia.
  - rewrite Z.mod_small; lia.
  - rewrite Ev. lia.
Qed.

Lemma EncryptKey_DecryptKey key auth s1 i1 s2 i2 n p :
  scrypt_accepts n p -> length i1 = 16%nat -> length i2 = 16%nat -> Params_BitSize = 256 ->
  0 < D (k_PrivateKey key) < Params_N -> k_PrivateKey2 key = k_PrivateKey key ->
  length (k_WAddress key) = WAddressLength ->
  exists kj k,
    EncryptKey key auth s1 i1 s2 i2 n p = Ret kj /\
    DecryptKey kj auth = Ret k /\
    k_PrivateKey k = {| D := D (k_PrivateKey key); Pub := Some (mulG (D (k_PrivateKey key))) |} /\
    k_WAddress k = k_WAddress key /\ k_Exten k = k_Exten key /\
    k_Id k = uuid_Parse (uuid_String (k_Id key)).
Proof.
  intros Hs H1 H2 HB Hd E2 Hw. pose proof N_bound as Hb. pose proof (N_ge_2 N_prime).
  destruct (decrypt_item (k_PrivateKey key) auth s1 i1 n p) as (c1 & Ec1 & Ed1); [done|done|lia|].
  destruct (decrypt_item (k_PrivateKey key) auth s2 i2 n p) as (c2 & Ec2 & Ed2); [done|done|lia|].
  unfold EncryptKey. rewrite E2, Ec1. cbn [mbind outcome_bind]. rewrite Ec2. cbn [mbind outcome_bind].
  do 2 eexists. split; [done|]. split; [|cbn [k_PrivateKey]].
  - unfold DecryptKey, decryptKeyV3. cbn [ej_Version ej_Crypto ej_Crypto2 ej_Id ej_WAddress ej_Exten].
    rewrite decide_False by auto. rewrite Ed1. cbn [mbind outcome_bind]. rewrite Ed2.
    cbn [mbind outcome_bind]. rewrite toECDSA_share by done. cbn [mbind outcome_bind].
    rewrite hex_DecodeString_Encode. cbn [mbind outcome_bind Pub]. unfold PubkeyToAddress.
    rewrite FromECDSAPub_mulG by (rewrite Z.mod_small; lia).
    cbn [mbind outcome_bind]. rewrite decide_False by done. done.
  - split_and!; try done. cbn [k_WAddress].
    pose proof (copy_at_mid [] (replicate WAddressLength Byte.x00) [] (k_WAddress key)) as E.
    rewrite !app_nil_r in E. apply E. by rewrite length_replicate.
Qed.

(** A storeman account can be read back.  For at most 22 seeds, storing the
    share of a group key and then looking its address up with the same password
    gives a key with that share, the hexadecimal group key, and an address field
    that starts with the three-byte seeds; other accounts are untouched. *)
Lemma NewStoremanAccount_GetPrivateShare (sp : StoreParams) (g share : Z) (seeds : list Z)
  (passphrase : bytes) (accType : string) (ks : list (Address * encryptedKeyJSONV3)) :
  scrypt_accepts (sp_scryptN sp) (sp_scryptP sp) ->
  length (sp_iv1 sp) = 16%nat -> length (sp_iv2 sp) = 16%nat -> Params_BitSize = 256 ->
  g mod Params_N <> 0 -> 0 < share < Params_N -> (length seeds <= 22)%nat ->
  accType <> StoremanBtcAcc ->
  let addr := BytesToAddress (drop 12 (keccak256 (drop 1 (point_bytes g)))) in
  addr <> replicate AddressLength Byte.x00 -> (forall kj, (addr, kj) ∉ ks) ->
  exists kj k,
    NewStoremanAccount sp (Some (mulG g)) share seeds passphrase accType ks = Ret (addr, (addr, kj) :: ks) /\
    GetPrivateShare ((addr, kj) :: ks) addr passphrase
    = Ret k /\
    D (k_PrivateKey k) = share /\ k_Exten k = hex_EncodeToString (point_bytes g) /\
    k_WAddress k = seeds_bytes seeds ++ replicate (66 - 3 * length seeds) Byte.x00.
Proof.
  intros Hs H1 H2 HB Hg Hsh Hl Ha addr Hz Hks.
  set (key := {| k_Id := sp_id sp; k_Address := addr;
                 k_PrivateKey := {| D := share; Pub := Some (mulG g) |};
                 k_PrivateKey2 := {| D := share; Pub := Some (mulG g) |};
                 k_WAddress := seeds_bytes seeds ++ replicate (66 - 3 * length seeds) Byte.x00;
                 k_Exten := hex_EncodeToString (point_bytes g) |}).
  assert (newMpcKey (sp_id sp) (Some (mulG g)) share seeds accType
          = Ret key) as Ek.
  { unfold newMpcKey, PubkeyToAddress. rewrite FromECDSAPub_mulG by done.
    pose proof (mulG_SetBytes g Hg) as Eg. destruct (mulG g) as [x y] eqn:Em.
    cbn [of_option mbind outcome_bind]. rewrite decide_False by done.
    cbn [mbind outcome_bind]. rewrite decide_False by done. cbn [mbind outcome_bind].
    rewrite put_seeds_fit by done. cbn [mbind outcome_bind fst snd] in *. rewrite Eg. done. }
  destruct (EncryptKey_DecryptKey key passphrase (sp_salt1 sp) (sp_iv1 sp) (sp_salt2 sp) (sp_iv2 sp)
    (sp_scryptN sp) (sp_scryptP sp)) as (kj & k & Ee & Ed & Ep & Ew & Ex & _); try done.
  { cbn. rewrite length_app, length_seeds_bytes, length_replicate. unfold WAddressLength. lia. }
  exists kj, k. split_and!.
  - unfold NewStoremanAccount, PkToHexString. rewrite Ek. cbn [mbind outcome_bind].
    rewrite FromECDSAPub_mulG by done. cbn [mbind outcome_bind]. by rewrite Ee.
  - unfold GetPrivateShare, KeyStore_Find. rewrite decide_False by done.
    rewrite filter_cons_True by done. rewrite filter_none; [done|].
    intros [a j] Hin E. cbn in E. subst a. by apply (Hks j).
  - by rewrite Ep.
  - by rewrite Ex.
  - by rewrite Ew.
Qed.

End Store.

(** ** Properties of the manifest *)

(** The address field holds 22 seeds only.  With 24 peers or more creating
    the account key panics, and with 23 the last seed is not stored; the default
    group has 50 nodes. *)
Theorem seeds_do_not_fit (seeds : list Z) :
  ((24 <= length seeds)%nat ->
   put_seeds 0 seeds (replicate WAddressLength Byte.x00) = Panic) /\
  ((length seeds = 22)%nat -> forall last,
   put_seeds 0 (seeds ++ [last]) (replicate WAddressLength Byte.x00)
   = put_seeds 0 seeds (replicate WAddressLength Byte.x00)) /\
  24 <= MpcSchnrNodeNumber DefaultVars.
Proof.
  split_and!; [| |cbn; lia].
  - intros Hl. apply put_seeds_overflow; [by rewrite length_replicate|lia|lia].
  - intros Hl x. rewrite (put_seeds_fit seeds) by lia.
    assert (forall l i wa, put_seeds i (l ++ [x]) wa = (wa ← put_seeds i l wa; put_seeds (i + length l) [x] wa)) as E.
    { induction l as [|y l IH]; intros i wa; cbn [app put_seeds].
      - by rewrite Nat.add_0_r.
      - case_decide; [done|]. rewrite IH. cbn [length]. by rewrite Nat.add_succ_r. }
    rewrite E, put_seeds_fit by lia. cbn [mbind outcome_bind put_seeds].
    rewrite Hl. cbn [Nat.add Nat.mul Nat.sub replicate]. rewrite app_nil_r.
    assert (length (seeds_bytes seeds) = 66%nat) as Hs by (rewrite length_seeds_bytes; lia).
    rewrite decide_False by lia. f_equal. unfold copy_at. rewrite Hs.
    rewrite Nat.sub_diag. cbn [Nat.min Nat.add take app]. rewrite take_0, (take_ge (seeds_bytes seeds)), drop_ge by lia.
    by rewrite app_nil_r.
Qed.

#[local] Existing Instances smallC small_group toy_hashes.

Definition toy_store : StoreParams :=
  {| sp_scryptN := 4; sp_scryptP := 1; sp_salt1 := [Byte.x01]; sp_iv1 := replicate 16 Byte.x07;
     sp_salt2 := [Byte.x02]; sp_iv2 := replicate 16 Byte.x09; sp_id := [Byte.xaa] |}.

Definition toy_scrypt (auth salt : bytes) (n r p dk : Z) : outcome bytes :=
  Ret (be_fix (Z.to_nat dk) (be_val auth + be_val salt + n)).

Definition toy_stream (k iv : bytes) (n : nat) : bytes := be_fix n (be_val k + be_val iv).

#[local] Instance toy_crypto : KeyCrypto := {|
  PubkeyToRipemd160 _ := []; ECDSAPKCompression _ := []; scrypt_Key := toy_scrypt;
  pbkdf2_Key _ _ _ _ := []; aes_ctr_stream := toy_stream; uuid_String := id; uuid_Parse := id;
  length_aes_ctr_stream k iv n := length_be_fix n _
|}.

Lemma seeds_do_not_fit_witness :
  put_seeds 0 (replicate 50 7) (replicate WAddressLength Byte.x00) = Panic.
Proof. apply (proj1 (seeds_do_not_fit (replicate 50 7))). rewrite length_replicate. lia. Defined.
