(* ===== verification/Validator.v ===== *)
(** * Approval of the data to sign

    [src/storeman/validator]: the database of a node ([database.go],
    [memory_database.go]) and the approval workflow on it ([validator.go]): the
    data of a signing request is first recorded as pending, then approved by the
    operator of the node, and a request is served only for approved data. *)

From S2P Require Import Prelude BigInt Protocol Generators Hexutil Instances.

(** ** Database *)

Abbreviation DB := (gmap bytes bytes).

(** Error of a missing key: [leveldb]'s, or the one of [memDB]. *)
Definition lvdb_ErrNotFound : error := "leveldb: not found".
Definition memDB_ErrNotFound : error := "not found".
Definition ErrNoDB : error := "get storeman database error".

(** The interface [Database], for a store that only fails on missing keys. *)
Definition db_Put (key value : bytes) (db : DB) : DB := <[key := value]> db.
Definition db_Has (key : bytes) (db : DB) : bool := bool_decide (is_Some (db !! key)).
Definition db_Delete (key : bytes) (db : DB) : DB := delete key db.
Definition db_Get (notFound : error) (key : bytes) (db : DB) : outcome bytes :=
  match db !! key with
  | Some v => Ret v
  | None => Err notFound
  end.

(** [GetDB] on the package variable [dbInstance]. *)
Definition GetDB (dbInstance : option DB) : outcome DB :=
  match dbInstance with
  | Some db => Ret db
  | None => Err ErrNoDB
  end.

(** [NewDatabase]: an open database is kept. *)
Definition NewDatabase (opened : outcome DB) (dbInstance : option DB) : outcome (option DB) :=
  match dbInstance with
  | Some _ => Ret dbInstance
  | None => db ← opened; Ret (Some db)
  end.

(** ** JSON

    [encoding/json] on the two types stored.  A Go string that is not valid
    UTF-8 is not preserved. *)
Class JSON := {
  json_SendData : SendData -> bytes;
  parse_SendData : bytes -> option SendData;
  json_keys : list bytes -> bytes;
  parse_keys : bytes -> option (list bytes);
  valid_utf8 : bytes -> bool;
  json_keys_not_empty l : json_keys l <> [];
  parse_json_keys l : parse_keys (json_keys l) = Some l;
  parse_json_SendData d : valid_utf8 (sd_Extern d) = true -> parse_SendData (json_SendData d) = Some d
}.

Definition json_error : error := "json: cannot unmarshal".

Section Validator.
Context {H : Hashes} {J : JSON} (notFound : error).

Definition approvingKeysKey : bytes := String.list_byte_of_string MpcApprovingKeys.

(** ** Keys *)

(** [Extern] is not part of the key. *)
Definition buildKeyFromData (data : SendData) (status : string) : bytes :=
  keccak256 (sd_PKBytes data ++ sd_Data data ++ String.list_byte_of_string status).

Definition inByteArray (data : bytes) (collection : list bytes) : bool :=
  existsb (fun value => bytes_Compare data value =? 0) collection.

Definition deleteInByteArray (data : bytes) (collection : list bytes) : list bytes :=
  if negb (inByteArray data collection) then collection
  else filter (fun value => bytes_Compare data value <> 0) collection.

Definition addKeyValueToDB (key value : bytes) (inst : option DB) : outcome (option DB) :=
  db ← GetDB inst;
  let db := db_Put key value db in
  _ ← db_Get notFound key db;
  Ret (Some db).

(** ** Pending data *)

(** Only the error of [leveldb] counts as an empty list. *)
Definition read_approving_keys (db : DB) : outcome (list bytes) :=
  ret ← match db_Get notFound approvingKeysKey db with
        | Ret v => Ret v
        | Err e => if decide (e = lvdb_ErrNotFound) then Ret [] else Err e
        | Panic => Panic
        end;
  if decide (ret = []) then Ret []
  else match parse_keys ret with Some ks => Ret ks | None => Err json_error end.

Definition addApprovingData (dataItem : SendData) (inst : option DB) : outcome (option DB) :=
  db ← GetDB inst;
  let approvedKey := buildKeyFromData dataItem MpcApproved in
  if db_Has approvedKey db then Ret inst else
  let approvingKey := buildKeyFromData dataItem MpcApproving in
  approvingKeys ← read_approving_keys db;
  let inApprovingKeys := inByteArray approvingKey approvingKeys in
  let existApprovingDb := db_Has approvingKey db in
  if existApprovingDb && inApprovingKeys then Ret inst else
  inst ← (if existApprovingDb then Ret inst
          else addKeyValueToDB approvingKey (json_SendData dataItem) inst);
  if inApprovingKeys then Ret inst
  else addKeyValueToDB approvingKeysKey (json_keys (approvingKeys ++ [approvingKey])) inst.

(** Unreadable entries are skipped; every failure is reported as no data. *)
Definition GetDataForApprove (inst : option DB) : list SendData :=
  match GetDB inst with
  | Ret db =>
      match db_Get notFound approvingKeysKey db with
      | Ret ret =>
          match parse_keys ret with
          | Some ks => omap (fun k => match db_Get notFound k db with
                                      | Ret item => parse_SendData item
                                      | _ => None
                                      end) ks
          | None => []
          end
      | _ => []
      end
  | _ => []
  end.

(** ** Approval *)

(** When the key is not pending, [err] is nil at that point and is returned. *)
Definition approveOneData (approveData : SendData) (inst : option DB) : outcome (option DB) :=
  let approvingKey := buildKeyFromData approveData MpcApproving in
  db ← GetDB inst;
  ret ← db_Get notFound approvingKeysKey db;
  approvingKeys ← match parse_keys ret with Some ks => Ret ks | None => Err json_error end;
  if negb (inByteArray approvingKey approvingKeys) then Ret inst else
  if negb (db_Has approvingKey db) then Err "can not fond in approving db" else
  let val := json_SendData approveData in
  let key := buildKeyFromData approveData MpcApproved in
  inst ← addKeyValueToDB key val inst;
  let newApprovingKeys := deleteInByteArray approvingKey approvingKeys in
  inst ← addKeyValueToDB approvingKeysKey (json_keys newApprovingKeys) inst;
  db ← GetDB inst;
  Ret (Some (db_Delete approvingKey db)).

Definition addOneValidData (approveData : SendData) (inst : option DB) : outcome (option DB) :=
  db ← GetDB inst;
  let key := buildKeyFromData approveData MpcApproved in
  if db_Has key db then Err "has in approved db" else
  addKeyValueToDB key (json_SendData approveData) inst.

(** The database carries over from one item to the next; a failing item leaves
    it as it was, up to its own writes, which do not fail. *)
Fixpoint ApproveData (approveData : list SendData) (inst : option DB)
  : list (outcome unit) * option DB :=
  match approveData with
  | [] => ([], inst)
  | d :: ds =>
      let '(r, inst) := match approveOneData d inst with
                        | Ret inst' => (Ret tt, inst')
                        | Err e => (Err e, inst)
                        | Panic => (Panic, inst)
                        end in
      let '(rs, inst) := ApproveData ds inst in
      (r :: rs, inst)
  end.

(** ** Waiting for an approval *)

(** The loop of [waitKeyFromDB] on the successive states of the database it
    polls until the timeout. *)
Fixpoint waitKeyFromDB (keys : list bytes) (polls : list DB) : outcome bytes :=
  match polls with
  | [] => Err "waitKeyFromDB, time out"
  | db :: polls' =>
      match filter (fun key => db_Has key db) keys with
      | key :: _ => Ret key
      | [] => waitKeyFromDB keys polls'
      end
  end.

(** [Ret tt] is [(true, nil)]; [Err e] is [(false, e)].  [db] is the state read
    after the wait. *)
Definition ValidateData (data : SendData) (inst : option DB) (polls : list DB) (db : DB)
  : outcome unit :=
  match GetDB inst with
  | Ret _ =>
      let approvedKey := buildKeyFromData data MpcApproved in
      match waitKeyFromDB [approvedKey] polls with
      | Ret _ =>
          match db_Get notFound approvedKey db with
          | Ret value =>
              if bool_decide (value = json_SendData data) then Ret tt else Err ErrApprovedNotConsistent
          | _ => Err ErrGetApproved
          end
      | _ => Err ErrWaitApproved
      end
  | _ => Err ErrGetDb
  end.

End Validator.

(** ** Invariant *)

Section ValidatorFacts.
Context {H : Hashes} {J : JSON}.

(** The list of pending keys is readable, without duplicates, and every key of
    it has its data. *)
Definition pending_keys (db : DB) (ks : list bytes) : Prop :=
  (db !! approvingKeysKey = Some (json_keys ks) \/ (db !! approvingKeysKey = None /\ ks = [])) /\
  NoDup ks /\ Forall (fun k => is_Some (db !! k) /\ k <> approvingKeysKey) ks.

Lemma build_key_ne d s : buildKeyFromData d s <> approvingKeysKey.
Proof.
  intros E. apply (f_equal length) in E. unfold buildKeyFromData in E.
  rewrite length_keccak256 in E. discriminate E.
Qed.

Lemma inByteArray_spec k ks : inByteArray k ks = bool_decide (k ∈ ks).
Proof.
  apply eq_true_iff_eq. unfold inByteArray. rewrite existsb_exists, bool_decide_eq_true. split.
  - intros (v & Hv & E). apply Z.eqb_eq, bytes_Compare_eq in E. subst v. by apply list_elem_of_In.
  - intros Hk. exists k. rewrite <- list_elem_of_In. split; [done|].
    by rewrite bytes_Compare_refl.
Qed.

Lemma deleteInByteArray_spec k ks : deleteInByteArray k ks = filter (fun v => v <> k) ks.
Proof.
  unfold deleteInByteArray. rewrite inByteArray_spec. case_bool_decide as Hk; cbn [negb].
  - apply list_filter_iff. intros v. rewrite bytes_Compare_eq. naive_solver.
  - symmetry. apply filter_all. intros v Hv E. by subst.
Qed.

Lemma db_Has_spec k db : db_Has k db = true <-> is_Some (db !! k).
Proof. apply bool_decide_eq_true. Qed.

Lemma addKeyValueToDB_eq nf k v db : addKeyValueToDB nf k v (Some db) = Ret (Some (<[k := v]> db)).
Proof. unfold addKeyValueToDB, db_Get, db_Put. cbn. by rewrite lookup_insert_eq. Qed.

Lemma read_keys db ks :
  pending_keys db ks -> read_approving_keys lvdb_ErrNotFound db = Ret ks.
Proof.
  intros ([E|[E ->]] & _); unfold read_approving_keys, db_Get; rewrite E; cbn [mbind outcome_bind].
  - rewrite decide_False by apply json_keys_not_empty. by rewrite parse_json_keys.
  - done.
Qed.

Lemma pending_insert db ks k v :
  pending_keys db ks -> k <> approvingKeysKey -> pending_keys (<[k := v]> db) ks.
Proof.
  intros (E & Hn & Hf) Hk. split; [by rewrite lookup_insert_ne|]. split; [done|].
  eapply Forall_impl; [exact Hf|]. intros k' [Hs Hne]. split; [|done].
  destruct (decide (k' = k)) as [->|]; [by rewrite lookup_insert_eq|by rewrite lookup_insert_ne].
Qed.

Lemma pending_set_keys db ks ks' :
  pending_keys db ks -> NoDup ks' ->
  Forall (fun k => is_Some (db !! k) /\ k <> approvingKeysKey) ks' ->
  pending_keys (<[approvingKeysKey := json_keys ks']> db) ks'.
Proof.
  intros _ Hn Hf. split; [left; apply lookup_insert_eq|]. split; [done|].
  eapply Forall_impl; [exact Hf|]. intros k [Hs Hne]. by rewrite lookup_insert_ne.
Qed.

Lemma pending_add db ks k :
  pending_keys db ks -> k ∉ ks -> is_Some (db !! k) -> k <> approvingKeysKey ->
  pending_keys (<[approvingKeysKey := json_keys (ks ++ [k])]> db) (ks ++ [k]).
Proof.
  intros Hp Hin Hs Hk. apply (pending_set_keys _ ks); [done| |].
  - apply NoDup_app. split_and!; [apply Hp|set_solver|apply NoDup_singleton].
  - apply Forall_app. split; [apply Hp|by repeat constructor].
Qed.

(** Recording a request: afterwards it is pending, or was approved before. *)
Lemma addApprovingData_spec d db ks :
  pending_keys db ks -> db !! buildKeyFromData d MpcApproved = None ->
  exists db' ks', addApprovingData lvdb_ErrNotFound d (Some db) = Ret (Some db') /\
    pending_keys db' ks' /\ buildKeyFromData d MpcApproving ∈ ks' /\
    (ks' = ks \/ ks' = ks ++ [buildKeyFromData d MpcApproving]) /\
    (forall k, k <> approvingKeysKey -> k <> buildKeyFromData d MpcApproving -> db' !! k = db !! k) /\
    (db !! buildKeyFromData d MpcApproving = None ->
     db' !! buildKeyFromData d MpcApproving = Some (json_SendData d)).
Proof.
  intros Hp Ha. set (k := buildKeyFromData d MpcApproving). pose proof (build_key_ne d MpcApproving) as Hk.
  fold k in Hk. unfold addApprovingData. cbn [GetDB mbind outcome_bind].
  replace (db_Has _ db) with false by (symmetry; apply not_true_iff_false; rewrite db_Has_spec, Ha; by intros []).
  fold k. rewrite (read_keys db ks Hp). cbn [mbind outcome_bind]. rewrite inByteArray_spec.
  destruct (db_Has k db) eqn:Eh; case_bool_decide as Hin; cbn [andb].
  - exists db, ks. apply db_Has_spec in Eh. split_and!; try done; [by left|].
    intros E. rewrite E in Eh. by destruct Eh.
  - apply db_Has_spec in Eh. cbn [mbind outcome_bind]. rewrite addKeyValueToDB_eq.
    do 2 eexists. split_and!; [done|by apply pending_add| | | |].
    + set_solver.
    + by right.
    + intros k' H1 H2. by rewrite lookup_insert_ne.
    + intros E. rewrite E in Eh. by destruct Eh.
  - exfalso. destruct Hp as (_ & _ & Hf). rewrite Forall_forall in Hf. destruct (Hf k Hin) as [Hs _].
    apply db_Has_spec in Hs. congruence.
  - rewrite addKeyValueToDB_eq. cbn [mbind outcome_bind]. rewrite addKeyValueToDB_eq.
    do 2 eexists. split_and!; [done| | | | |].
    + apply pending_add; [by apply pending_insert|done|by rewrite lookup_insert_eq|done].
    + set_solver.
    + by right.
    + intros k' H1 H2. by rewrite !lookup_insert_ne.
    + intros _. by rewrite lookup_insert_ne, lookup_insert_eq.
Qed.

(** Approving pending data: it moves from pending to approved. *)
Lemma approveOneData_spec nf d db ks :
  db !! approvingKeysKey = Some (json_keys ks) -> pending_keys db ks ->
  buildKeyFromData d MpcApproving ∈ ks ->
  let k := buildKeyFromData d MpcApproving in
  let a := buildKeyFromData d MpcApproved in
  approveOneData nf d (Some db)
  = Ret (Some (delete k (<[approvingKeysKey := json_keys (filter (fun v => v <> k) ks)]>
                 (<[a := json_SendData d]> db)))).
Proof.
  intros E Hp Hin k a. unfold approveOneData. cbn [GetDB mbind outcome_bind].
  unfold db_Get at 1. rewrite E. cbn [mbind outcome_bind]. rewrite parse_json_keys.
  cbn [mbind outcome_bind]. rewrite inByteArray_spec, bool_decide_true by done. cbn [negb].
  destruct Hp as (_ & _ & Hf). rewrite Forall_forall in Hf. destruct (Hf k Hin) as [Hs _].
  apply db_Has_spec in Hs. fold k. rewrite Hs. cbn [negb].
  rewrite addKeyValueToDB_eq. cbn [mbind outcome_bind].
  rewrite deleteInByteArray_spec, addKeyValueToDB_eq. done.
Qed.

Lemma approve_pending_inv d db ks :
  pending_keys db ks ->
  let k := buildKeyFromData d MpcApproving in
  pending_keys (delete k (<[approvingKeysKey := json_keys (filter (fun v => v <> k) ks)]>
    (<[buildKeyFromData d MpcApproved := json_SendData d]> db))) (filter (fun v => v <> k) ks).
Proof.
  intros Hp k. pose proof (build_key_ne d MpcApproving) as Hk. fold k in Hk.
  apply (pending_insert _ _ (buildKeyFromData d MpcApproved) (json_SendData d)) in Hp;
    [|apply build_key_ne].
  destruct Hp as (_ & Hn & Hf). split_and!.
  - left. rewrite lookup_delete_ne by done. apply lookup_insert_eq.
  - by apply NoDup_filter.
  - apply Forall_forall. intros v [Hv Hin]%list_elem_of_filter. rewrite Forall_forall in Hf.
    destruct (Hf v Hin) as [Hs Hne]. split; [|done].
    by rewrite lookup_delete_ne, lookup_insert_ne.
Qed.

Lemma waitKeyFromDB_hit k db polls : is_Some (db !! k) -> waitKeyFromDB [k] (db :: polls) = Ret k.
Proof.
  intros Hs. apply db_Has_spec in Hs. cbn [waitKeyFromDB].
  rewrite filter_cons_True by (by rewrite Hs). done.
Qed.

Lemma waitKeyFromDB_miss k polls :
  Forall (fun db : DB => db !! k = None) polls ->
  waitKeyFromDB [k] polls = Err "waitKeyFromDB, time out".
Proof.
  induction 1 as [|db polls Hd _ IH]; [done|]. cbn [waitKeyFromDB].
  rewrite filter_cons_False; [exact IH|]. intros E. apply Is_true_true, db_Has_spec in E.
  rewrite Hd in E. by destruct E.
Qed.

Lemma ValidateData_accepts nf d inst polls db :
  ValidateData nf d inst polls db = Ret tt ->
  db !! buildKeyFromData d MpcApproved = Some (json_SendData d).
Proof.
  unfold ValidateData, db_Get. intros E. go_cases. by rewrite bool_decide_eq_true in *; subst.
Qed.

(** ** Properties of the manifest *)

(** C25: the approval workflow.  A request that is recorded becomes pending, after the others, and when it is then
    approved by the operator it is validated; exactly the other requests, in their order and
    with their data, are still pending, and no other entry of the database changes. *)
Theorem approval_workflow (d : SendData) (db : DB) (ks : list bytes) (polls : list DB) :
  pending_keys db ks -> db !! buildKeyFromData d MpcApproved = None ->
  buildKeyFromData d MpcApproved <> buildKeyFromData d MpcApproving ->
  exists db1 db2 ks1,
    addApprovingData lvdb_ErrNotFound d (Some db) = Ret (Some db1) /\ pending_keys db1 ks1 /\
    buildKeyFromData d MpcApproving ∈ ks1 /\ (ks1 = ks \/ ks1 = ks ++ [buildKeyFromData d MpcApproving]) /\
    approveOneData lvdb_ErrNotFound d (Some db1) = Ret (Some db2) /\
    db2 !! approvingKeysKey = Some (json_keys (filter (fun k => k <> buildKeyFromData d MpcApproving) ks)) /\
    pending_keys db2 (filter (fun k => k <> buildKeyFromData d MpcApproving) ks) /\
    ValidateData lvdb_ErrNotFound d (Some db2) (db2 :: polls) db2 = Ret tt /\
    (forall k, k <> approvingKeysKey -> k <> buildKeyFromData d MpcApproving ->
       k <> buildKeyFromData d MpcApproved -> db2 !! k = db !! k).
Proof.
  intros Hp Ha Hne. destruct (addApprovingData_spec d db ks Hp Ha) as (db1 & ks1 & E1 & Hp1 & Hin & Hks & Hk & _).
  assert (db1 !! approvingKeysKey = Some (json_keys ks1)) as Ek.
  { destruct Hp1 as [[?|[_ ->]] _]; [done|by apply not_elem_of_nil in Hin]. }
  assert (filter (fun k => k <> buildKeyFromData d MpcApproving) ks1 = filter (fun k => k <> buildKeyFromData d MpcApproving) ks) as Ef.
  { destruct Hks as [->| ->]; [done|]. rewrite filter_app, filter_cons_False, filter_nil, app_nil_r by naive_solver. done. }
  pose proof (approveOneData_spec lvdb_ErrNotFound d db1 ks1 Ek Hp1 Hin) as Ea.
  pose proof (approve_pending_inv d db1 ks1 Hp1) as Hp2. cbn zeta in Ea, Hp2. rewrite Ef in Ea, Hp2.
  pose proof (build_key_ne d MpcApproving).
  exists db1. eexists _, ks1. split; [done|]. split; [done|]. split; [done|]. split; [done|].
  split; [exact Ea|]. split; [by rewrite lookup_delete_ne, lookup_insert_eq|]. split; [exact Hp2|].
  pose proof (build_key_ne d MpcApproved).
  split.
  - unfold ValidateData. cbn [GetDB]. rewrite waitKeyFromDB_hit.
    + unfold db_Get. rewrite lookup_delete_ne, lookup_insert_ne, lookup_insert_eq by done.
      by rewrite bool_decide_true.
    + by rewrite lookup_delete_ne, lookup_insert_ne, lookup_insert_eq by done.
  - intros k Hk1 Hk2 Hk3. rewrite lookup_delete_ne, !lookup_insert_ne by done. by apply Hk.
Qed.

(** only approved data is validated.  [ValidateData] accepts only if the
    database holds exactly that data, its extern field included, under its
    approved key; if no poll before the timeout finds the key it fails with
    [ErrWaitApproved]. *)
Theorem validate_only_approved (nf : error) (d : SendData) (inst : option DB) (polls : list DB) (db : DB) :
  (ValidateData nf d inst polls db = Ret tt ->
   db !! buildKeyFromData d MpcApproved = Some (json_SendData d)) /\
  (is_Some inst -> Forall (fun p : DB => p !! buildKeyFromData d MpcApproved = None) polls ->
   ValidateData nf d inst polls db = Err ErrWaitApproved).
Proof.
  split.
  - apply ValidateData_accepts.
  - intros [db0 ->] Hall. unfold ValidateData. cbn [GetDB]. by rewrite waitKeyFromDB_miss.
Qed.

(** Approving data that is not pending returns no error and changes nothing,
    so that the operator is told that the approval succeeded. *)
Theorem approve_unknown_returns_nil (nf : error) (d : SendData) (db : DB) (ks : list bytes) :
  db !! approvingKeysKey = Some (json_keys ks) -> buildKeyFromData d MpcApproving ∉ ks ->
  approveOneData nf d (Some db) = Ret (Some db).
Proof.
  intros E Hk. unfold approveOneData, db_Get. cbn [GetDB mbind outcome_bind].
  rewrite E. cbn [mbind outcome_bind]. rewrite parse_json_keys. cbn [mbind outcome_bind].
  by rewrite inByteArray_spec, bool_decide_false.
Qed.

End ValidatorFacts.

(** *** Witnesses *)

(** An encoding that satisfies the laws: the binary code of [Countable]. *)
Definition toy_marshal {A} `{Countable A} (x : A) : bytes := Byte.x5b :: Bytes (Zpos (encode x)).
Definition toy_unmarshal {A} `{Countable A} (b : bytes) : option A :=
  match b with
  | [] => None
  | _ :: b' => decode (Z.to_pos (SetBytes b'))
  end.

Lemma toy_unmarshal_marshal {A} `{Countable A} (x : A) : toy_unmarshal (toy_marshal x) = Some x.
Proof.
  unfold toy_unmarshal, toy_marshal. rewrite SetBytes_Bytes by lia. cbn [Z.to_pos]. apply decode_encode.
Qed.

Definition SendData_tuple (d : SendData) : bytes * bytes * bytes := (sd_PKBytes d, sd_Data d, sd_Extern d).

#[local] Program Instance SendData_countable : Countable SendData :=
  inj_countable' SendData_tuple
    (fun x => {| sd_PKBytes := x.1.1; sd_Data := x.1.2; sd_Extern := x.2 |}) _.
Next Obligation. by intros []. Qed.

#[local] Program Instance toy_json : JSON := {|
  json_SendData := toy_marshal; parse_SendData := toy_unmarshal;
  json_keys := toy_marshal; parse_keys := toy_unmarshal; valid_utf8 _ := true
|}.
Next Obligation. done. Qed.
Next Obligation. intros l. apply toy_unmarshal_marshal. Qed.
Next Obligation. intros d _. apply toy_unmarshal_marshal. Qed.

#[local] Existing Instance toy_hashes.

Definition toy_data : SendData :=
  {| sd_PKBytes := [Byte.x04; Byte.x01]; sd_Data := [Byte.x61]; sd_Extern := [Byte.x7a] |}.

(** Another request is pending. *)
Definition toy_other : SendData := {| sd_PKBytes := [Byte.x09]; sd_Data := [Byte.x08]; sd_Extern := [] |}.
Definition toy_pending : DB :=
  <[approvingKeysKey := json_keys [buildKeyFromData toy_other MpcApproving]]>
    (<[buildKeyFromData toy_other MpcApproving := json_SendData toy_other]> ∅).

Lemma approval_workflow_witness :
  exists db1 db2 : DB,
    addApprovingData lvdb_ErrNotFound toy_data (Some toy_pending) = Ret (Some db1) /\
    approveOneData lvdb_ErrNotFound toy_data (Some db1) = Ret (Some db2) /\
    db2 !! approvingKeysKey = Some (json_keys [buildKeyFromData toy_other MpcApproving]) /\
    ValidateData lvdb_ErrNotFound toy_data (Some db2) [db2] db2 = Ret tt.
Proof.
  destruct (approval_workflow toy_data toy_pending [buildKeyFromData toy_other MpcApproving] [])
    as (db1 & db2 & ks1 & E1 & _ & _ & _ & E2 & E3 & _ & E4 & _).
  - split; [left; reflexivity|]. split; [apply NoDup_singleton|]. apply Forall_singleton. split; [eexists; reflexivity|].
    by vm_compute.
  - reflexivity.
  - by vm_compute.
  - exists db1, db2. split; [exact E1|]. split; [exact E2|]. split; [|exact E4]. rewrite E3. reflexivity.
Defined.

Definition toy_db : DB := <[approvingKeysKey := json_keys []]> ∅.

Lemma validate_only_approved_witness :
  ValidateData lvdb_ErrNotFound toy_data (Some toy_db) [toy_db] toy_db = Err ErrWaitApproved.
Proof.
  apply (validate_only_approved lvdb_ErrNotFound toy_data (Some toy_db) [toy_db] toy_db).
  - by eexists.
  - repeat constructor.
Defined.

Lemma approve_unknown_returns_nil_witness :
  approveOneData lvdb_ErrNotFound toy_data (Some toy_db) = Ret (Some toy_db).
Proof. apply (approve_unknown_returns_nil lvdb_ErrNotFound toy_data toy_db []); [done|apply not_elem_of_nil]. Defined.
