(* ===== verification/Distributor.v ===== *)
(** * The distributor

    [src/storeman/storemanmpc/mpc_distributor.go]: the object of a node that
    creates the contexts of its own requests and of the requests of other nodes,
    routes messages to them, encodes the list of peers of a request, and keeps
    the storeman accounts. *)

From S2P Require Import Prelude BigInt Curve Secp256k1 Schnorr Protocol Generators Instances Hexutil BaseStep Steps Context Keystore Validator.

(** ** State *)

Record mpcAccount := {
  ma_address : Address;
  ma_privateShare : Z;
  ma_peers : list PeerInfo;
  ma_externString : bytes
}.

(** The account manager is the key store of [Keystore.v]; contexts are shared by
    pointer, one per identifier. *)
Record MpcDistributor := {
  Self : NodeID;
  StoreManGroup : list NodeID;
  storeManIndex : gmap NodeID byte;
  mpcMap : gmap Z MpcContext;
  AccountManager : list (Address * encryptedKeyJSONV3);
  mpcAccountMap : gmap Address mpcAccount;
  enableAwsKms : bool;
  password : bytes
}.

Definition CreateMpcDistributor (self : NodeID) (group : list NodeID)
  (accountManager : list (Address * encryptedKeyJSONV3)) (aKID secretKey region : string)
  (password : bytes) : MpcDistributor :=
  {| Self := self; StoreManGroup := group; storeManIndex := ∅; mpcMap := ∅;
     AccountManager := accountManager; mpcAccountMap := ∅;
     enableAwsKms := negb (bool_decide (aKID = EmptyString)) && negb (bool_decide (secretKey = EmptyString))
                     && negb (bool_decide (region = EmptyString));
     password := password |}.

Definition with_mpcMap (m : gmap Z MpcContext) (d : MpcDistributor) : MpcDistributor :=
  {| Self := Self d; StoreManGroup := StoreManGroup d; storeManIndex := storeManIndex d; mpcMap := m;
     AccountManager := AccountManager d; mpcAccountMap := mpcAccountMap d;
     enableAwsKms := enableAwsKms d; password := password d |}.

Definition with_accounts (am : list (Address * encryptedKeyJSONV3)) (d : MpcDistributor) : MpcDistributor :=
  {| Self := Self d; StoreManGroup := StoreManGroup d; storeManIndex := storeManIndex d; mpcMap := mpcMap d;
     AccountManager := am; mpcAccountMap := mpcAccountMap d;
     enableAwsKms := enableAwsKms d; password := password d |}.

Definition with_accountMap (m : gmap Address mpcAccount) (d : MpcDistributor) : MpcDistributor :=
  {| Self := Self d; StoreManGroup := StoreManGroup d; storeManIndex := storeManIndex d; mpcMap := mpcMap d;
     AccountManager := AccountManager d; mpcAccountMap := m;
     enableAwsKms := enableAwsKms d; password := password d |}.

(** ** The group *)

(** [storeManIndex[StoreManGroup[i]] = byte(i)], in order. *)
Definition index_group (group : list NodeID) : gmap NodeID byte :=
  foldl (fun m e => <[e.2 := u8 (Z.of_nat e.1)]> m) ∅ (imap pair group).

Definition InitStoreManGroup (d : MpcDistributor) : MpcDistributor :=
  let group := sort_group (StoreManGroup d) in
  {| Self := Self d; StoreManGroup := group; storeManIndex := index_group group; mpcMap := mpcMap d;
     AccountManager := AccountManager d; mpcAccountMap := mpcAccountMap d;
     enableAwsKms := enableAwsKms d; password := password d |}.

(** ** The peers of a request on the wire: four bytes each, an index and a seed *)

Fixpoint put_peers (index : gmap NodeID byte) (i : nat) (peers : list PeerInfo) (buf : bytes) : bytes :=
  match peers with
  | [] => buf
  | peer :: ps =>
      let buf := <[(i * 4)%nat := default Byte.x00 (index !! PeerID peer)]> buf in
      let b := be_fix 8 (Seed peer) in
      put_peers index (S i) ps (copy_at buf (i * 4 + 1) (drop 5 b))
  end.

Definition with_Peers (b : bytes) (m : MpcMessage) : MpcMessage :=
  {| mm_ContextID := mm_ContextID m; mm_StepID := mm_StepID m; mm_Peers := b;
     mm_Data := mm_Data m; mm_BytesData := mm_BytesData m |}.

Definition SetMessagePeers (d : MpcDistributor) (mpcMessage : MpcMessage) (peers : option (list PeerInfo))
  : MpcMessage :=
  match peers with
  | None | Some [] => mpcMessage
  | Some ps => with_Peers (put_peers (storeManIndex d) 0 ps (replicate (length ps * 4) Byte.x00)) mpcMessage
  end.

(** The zero value of [discover.NodeID]. *)
Definition zero_NodeID : NodeID := replicate 64 Byte.x00.

(** The loop of [getMessagePeers] with its buffer [b]; an entry with an unknown
    index keeps the zero value. *)
Fixpoint get_peers (group : list NodeID) (b : bytes) (i cnt : nat) (Peers : bytes) : outcome (list PeerInfo) :=
  match cnt with
  | O => Ret []
  | S cnt' =>
      peerIndex ← idx Peers (i * 4);
      '(p, b) ← (match group !! Z.to_nat (ub peerIndex) with
                 | Some id =>
                     let b := copy_at b 5 (drop (i * 4 + 1) Peers) in
                     Ret ({| PeerID := id; Seed := be_val b |}, b)
                 | None => Ret ({| PeerID := zero_NodeID; Seed := 0 |}, b)
                 end : outcome (PeerInfo * bytes));
      ps ← get_peers group b (S i) cnt' Peers;
      Ret (p :: ps)
  end.

(** [None] is the nil pointer. *)
Definition getMessagePeers (d : MpcDistributor) (mpcMessage : MpcMessage) : outcome (option (list PeerInfo)) :=
  let peerLen := length (mm_Peers mpcMessage) in
  if decide (peerLen = 0 \/ peerLen mod 4 <> 0)%nat then Ret None else
  ps ← get_peers (StoreManGroup d) (replicate 8 Byte.x00) 0 (peerLen / 4) (mm_Peers mpcMessage);
  Ret (Some ps).

(** ** Contexts *)

Definition addMpcContext (mpcID : Z) (mpc : MpcContext) (d : MpcDistributor) : MpcDistributor :=
  with_mpcMap (<[mpcID := mpc]> (mpcMap d)) d.

Definition removeMpcContext (mpcID : Z) (d : MpcDistributor) : MpcDistributor :=
  with_mpcMap (delete mpcID (mpcMap d)) d.

Section Ids.
Context {C : EllipticCurve}.

(** [getMpcID] draws until the identifier is new; [None] while it still draws
    after [fuel] rounds. *)
Fixpoint getMpcID (fuel : nat) (rd : reader) (d : MpcDistributor) : option (outcome Z * reader) :=
  match fuel with
  | O => None
  | S fuel' =>
      match UintRand (2 ^ 64 - 1) rd with
      | (Ret mpcID, rd') =>
          match mpcMap d !! mpcID with
          | None => Some (Ret mpcID, rd')
          | Some _ => getMpcID fuel' rd' d
          end
      | (o, rd') => Some (o, rd')
      end
  end.

End Ids.

(** [QuitMpcContext]; [None] when a step blocks. *)
Definition QuitMpcContext (err_text : bytes -> error) (msg : MpcMessage) (d : MpcDistributor)
  : option MpcDistributor :=
  match mpcMap d !! mm_ContextID msg with
  | None => Some d
  | Some mpc => mpc ← quit (Some (err_text (mm_Peers msg))) mpc; Some (addMpcContext (mm_ContextID msg) mpc d)
  end.

(** [getMpcMessage]: messages of an unknown context are dropped. *)
Definition getMpcMessage (from : NodeID) (msg : MpcMessage) (d : MpcDistributor) : run MpcDistributor :=
  match mpcMap d !! mm_ContextID msg with
  | None => ret d
  | Some mpc =>
      _ ← lift (getMessagePeers d msg);
      mpc ← getMessage mpc from msg;
      ret (addMpcContext (mm_ContextID msg) mpc d)
  end.

(** ** Incoming messages *)

(** The goroutine [GetMessage] starts. *)
Inductive task :=
| TaskQuit (msg : MpcMessage)
| TaskCreate (msg : MpcMessage)
| TaskMessage (from : NodeID) (msg : MpcMessage).

(** [payload] is the result of [rlp.Decode]. *)
Definition GetMessage (PeerID : NodeID) (code : Z) (payload : outcome MpcMessage) : outcome (option task) :=
  if decide (code = MPCError) then mpcMessage ← payload; Ret (Some (TaskQuit mpcMessage)) else
  if decide (code = RequestMPC) then mpcMessage ← payload; Ret (Some (TaskCreate mpcMessage)) else
  if decide (code = MPCMessage) then mpcMessage ← payload; Ret (Some (TaskMessage PeerID mpcMessage)) else
  Ret None.

(** ** Accounts *)

(** Bytes [hex.DecodeString] returns, also when it fails: none for an odd length,
    those before the error otherwise. *)
Fixpoint hex_prefix (s : bytes) : bytes :=
  match s with
  | a :: b :: s' =>
      match decodeNibble a, decodeNibble b with
      | Some x, Some y => u8 (16 * x + y) :: hex_prefix s'
      | _, _ => []
      end
  | _ => []
  end.

Definition hex_DecodeString_bytes (s : bytes) : bytes :=
  if decide (length s mod 2 = 1)%nat then [] else hex_prefix s.

(** The seeds of the address field, with the buffer shared by the iterations. *)
Fixpoint read_seeds (WAddress b : bytes) (i : nat) (group : list NodeID) : outcome (list PeerInfo) :=
  match group with
  | [] => Ret []
  | id :: group' =>
      if decide (length WAddress < i * 3)%nat then Panic else
      let b := copy_at b 5 (drop (i * 3) WAddress) in
      ps ← read_seeds WAddress b (S i) group';
      Ret ({| PeerID := id; Seed := be_val b |} :: ps)
  end.

Section Accounts.
Context {C : EllipticCurve} {H : Hashes} {K : KeyCrypto}.

Definition value (key : string) (v : list Z) : MpcValue :=
  {| mv_Key := key; mv_Value := Some v; mv_ByteValue := None |}.

Definition byte_value (key : string) (v : bytes) : MpcValue :=
  {| mv_Key := key; mv_Value := None; mv_ByteValue := Some v |}.

(** Without the key management service.  The error of [hex.DecodeString] is
    ignored, and a nil key is dereferenced. *)
Definition loadStoremanAddress (address : Address) (d : MpcDistributor)
  : outcome (MpcValue * MpcValue * list PeerInfo * MpcDistributor) :=
  '(v, d) ← (match mpcAccountMap d !! address with
             | Some v => Ret (v, d)
             | None =>
                 key ← GetPrivateShare (AccountManager d) address (password d);
                 peers ← read_seeds (k_WAddress key) (replicate 8 Byte.x00) 0 (StoreManGroup d);
                 let v := {| ma_address := address; ma_privateShare := D (k_PrivateKey key);
                             ma_peers := peers; ma_externString := k_Exten key |} in
                 Ret (v, with_accountMap (<[address := v]> (mpcAccountMap d)) d)
             end : outcome (mpcAccount * MpcDistributor));
  gpk ← of_option (ToECDSAPub (hex_DecodeString_bytes (ma_externString v)));
  '(x, y) ← of_option gpk;
  Ret (value MpcPrivateShare [ma_privateShare v], value PublicKeyResult [x; y], ma_peers v, d).

Definition newStoremanKeyStore (sp : StoreParams) (pKey : point) (pShare : Z) (seeds : list Z)
  (passphrase : bytes) (accType : string) (d : MpcDistributor) : outcome MpcDistributor :=
  '(_, am) ← NewStoremanAccount sp pKey pShare seeds passphrase accType (AccountManager d);
  Ret (with_accounts am d).

Definition MpcDistributor_CreateKeystore (sp : StoreParams) (result : BaseMpcResult)
  (peers : list PeerInfo) (accType : string) (d : MpcDistributor)
  : outcome (BaseMpcResult * MpcDistributor) :=
  pt ← GetValue PublicKeyResult result;
  private ← GetValue MpcPrivateShare result;
  x ← idx pt 0;
  y ← idx pt 1;
  let result1 := Some (SetBytes (Bytes x), SetBytes (Bytes y)) in
  share ← idx private 0;
  d ← newStoremanKeyStore sp result1 share (map Seed peers) (password d) accType d;
  gpk ← FromECDSAPub (Some result1);
  _ ← PubkeyToAddress result1;
  Ret (SetByteValue MpcContextResult gpk result, d).

(** The distributor is the manager the steps call back. *)
Definition distributor_manager (sp : StoreParams) : StoremanManager MpcDistributor :=
  {| CreateKeystore := MpcDistributor_CreateKeystore sp |}.

End Accounts.

(** ** Requests of this node *)

Section Requests.
Context {C : EllipticCurve} {H : Hashes} {R : MapRange} {K : KeyCrypto} {J : JSON}
  (vars : ProtocolVars) (sp : StoreParams).

Definition find_address (preSetValue : list MpcValue) : outcome Address :=
  match filter (fun v => mv_Key v = MpcAddress) preSetValue with
  | v :: _ => PkToAddress (default [] (mv_ByteValue v))
  | [] => Ret (replicate AddressLength Byte.x00)
  end.

(** The peers of the request and its pre-set values: for a signature, those of
    the group account; for a new group key, the group with no seeds yet. *)
Definition request_peers (ctxType : Z) (preSetValue : list MpcValue) (d : MpcDistributor)
  : outcome (list PeerInfo * list MpcValue * MpcDistributor) :=
  if decide (ctxType = MpcSignLeader) then
    address ← find_address preSetValue;
    '(v, v1, peers, d) ← loadStoremanAddress address d;
    Ret (peers, preSetValue ++ [v; v1], d)
  else Ret (map (fun id => {| PeerID := id; Seed := 0 |}) (StoreManGroup d), preSetValue, d).

(** Building the context of a request: up to [addMpcContext]. *)
Definition create_request (ctxType mpcID : Z) (preSetValue : list MpcValue) (d : MpcDistributor)
  : outcome (MpcContext * MpcDistributor) :=
  '(peers, pre, d) ← request_peers ctxType preSetValue d;
  mpc ← CreateContext vars ctxType mpcID peers pre;
  Ret (mpc, addMpcContext mpcID mpc d).

(** [createRequestMpcContext] for the script of its run; the context is removed
    when it returns. *)
Definition createRequestMpcContext (ctxType : Z) (preSetValue : list MpcValue) (fuel : nat)
  (scs : list Script) (ent : Entropy) (d : MpcDistributor) : run (bytes * MpcDistributor) :=
  match getMpcID fuel (crypto_rand ent) d with
  | None => block
  | Some (o, rd) =>
      mpcID ← lift o;
      '(mpc, d) ← lift (create_request ctxType mpcID preSetValue d);
      '(mpc, d, _, _) ← mainMPCProcess (M := distributor_manager sp) vars (Self d) (SetMessagePeers d)
                          scs mpc d {| crypto_rand := rd; math_rand := math_rand ent |};
      ret (getMpcResult mpc, removeMpcContext mpcID d)
  end.

Definition CreateRequestGPK := createRequestMpcContext MpcGPKLeader [].

Definition CreateReqMpcSign (data extern pkBytes : bytes) (byApprove : Z) :=
  createRequestMpcContext MpcSignLeader
    [byte_value MpcAddress pkBytes; byte_value MpcM data; byte_value MpcExt extern;
     value MpcByApprove [byApprove]].

(** ** Requests of other nodes *)

(** [big.Int.Int64]: the low 64 bits, signed. *)
Definition Int64 (z : Z) : Z := (z + 2 ^ 63) mod 2 ^ 64 - 2 ^ 63.

(** On a failed approval the error goes to the node itself, where a message of
    code [MPCError] is ignored; the list of peers is dereferenced before. *)
Definition report_failure (d : MpcDistributor) (mpcMessage : MpcMessage) {A} (e : error) : outcome A :=
  peerInfo ← getMessagePeers d mpcMessage;
  _ ← of_option peerInfo;
  Err e.

(** The branch of [createMpcCtx] for a signature: the pre-set values, and the
    approval of the data ([polls], [db']: what the wait reads afterwards). *)
Definition sign_request (mpcMessage : MpcMessage) (nByApprove : Z) (inst : option DB) (polls : list DB)
  (db' : DB) (d : MpcDistributor) : outcome (list MpcValue * option DB * MpcDistributor) :=
  mpcM ← idx (mm_BytesData mpcMessage) 0;
  address ← idx (mm_BytesData mpcMessage) 1;
  mpcExt ← idx (mm_BytesData mpcMessage) 2;
  add ← PkToAddress address;
  '(share, pubKey, _, d) ← loadStoremanAddress add d;
  let preSetValue := [byte_value MpcAddress address; byte_value MpcM mpcM; byte_value MpcExt mpcExt;
                      share; pubKey] in
  let receivedData := {| sd_PKBytes := address; sd_Data := mpcM; sd_Extern := mpcExt |} in
  inst ← (if decide (nByApprove <> 0) then
            match addApprovingData lvdb_ErrNotFound receivedData inst with
            | Err _ => report_failure d mpcMessage ErrFailedAddApproving
            | o => o
            end
          else Ret inst);
  match ValidateData lvdb_ErrNotFound receivedData inst polls db' with
  | Ret _ => Ret (preSetValue, inst, d)
  | Err e => report_failure d mpcMessage e
  | Panic => Panic
  end.

(** The context is then added and run by a new goroutine. *)
Definition createMpcCtx (mpcMessage : MpcMessage) (inst : option DB) (polls : list DB) (db' : DB)
  (d : MpcDistributor) : outcome (MpcContext * option DB * MpcDistributor) :=
  match mpcMap d !! mm_ContextID mpcMessage with
  | Some _ => Err ErrMpcContextExist
  | None =>
      d0 ← idx (mm_Data mpcMessage) 0;
      d1 ← idx (mm_Data mpcMessage) 1;
      let nType := Int64 d0 in
      let nByApprove := Int64 d1 in
      let ctxType := if decide (nType = MpcGPKLeader) then MpcGPKPeer else MpcSignPeer in
      '(pre, inst, d) ← (if decide (ctxType = MpcSignPeer)
                         then sign_request mpcMessage nByApprove inst polls db' d
                         else Ret ([], inst, d));
      peers ← getMessagePeers d mpcMessage;
      peers ← of_option peers;
      mpc ← CreateContext vars ctxType (mm_ContextID mpcMessage) peers pre;
      Ret (mpc, inst, addMpcContext (mm_ContextID mpcMessage) mpc d)
  end.

End Requests.

(** ** Lemmas on the wire form of the peers *)

Definition peers_bytes (index : gmap NodeID byte) (peers : list PeerInfo) : bytes :=
  concat (map (fun p => default Byte.x00 (index !! PeerID p) :: be_fix 3 (Seed p)) peers).

Lemma length_peers_bytes index peers : length (peers_bytes index peers) = (4 * length peers)%nat.
Proof.
  unfold peers_bytes. induction peers as [|p peers IH]; [done|].
  cbn [map concat length app]. rewrite length_app, length_be_fix, IH. lia.
Qed.

Lemma put_peers_eq index peers : forall i pre suf,
  length pre = (i * 4)%nat -> length suf = (4 * length peers)%nat ->
  put_peers index i peers (pre ++ suf) = pre ++ peers_bytes index peers.
Proof.
  induction peers as [|p peers IH]; intros i pre suf Hp Hs; cbn [put_peers length] in *.
  { destruct suf; [done|cbn in Hs; lia]. }
  destruct suf as [|a [|b [|c [|e suf]]]]; cbn [length] in Hs; try lia.
  rewrite <- Hp, insert_app_r_alt, Nat.sub_diag by lia. cbn [list_insert insert].
  set (a' := default _ _).
  replace (pre ++ a' :: b :: c :: e :: suf) with ((pre ++ [a']) ++ [b; c; e] ++ suf)
    by (by rewrite <- app_assoc).
  replace (length pre + 1)%nat with (length (pre ++ [a'])) by (rewrite length_app; cbn; lia).
  rewrite copy_at_mid by done. rewrite low_bytes, app_assoc, IH.
  - unfold peers_bytes. cbn [map concat]. fold a'. rewrite <- !app_assoc. done.
  - rewrite !length_app, length_be_fix. cbn. lia.
  - lia.
Qed.

Lemma SetMessagePeers_eq d msg peers :
  peers <> [] ->
  SetMessagePeers d msg (Some peers) = with_Peers (peers_bytes (storeManIndex d) peers) msg.
Proof.
  intros Hp. unfold SetMessagePeers. destruct peers as [|p ps]; [done|].
  f_equal. refine (put_peers_eq (storeManIndex d) (p :: ps) 0 [] (replicate (length (p :: ps) * 4) Byte.x00) eq_refl _).
  rewrite length_replicate. lia.
Qed.

Lemma index_group_snoc g x :
  index_group (g ++ [x]) = <[x := u8 (Z.of_nat (length g))]> (index_group g).
Proof. unfold index_group. rewrite imap_app, foldl_app. cbn. by rewrite Nat.add_0_r. Qed.

Lemma index_group_lookup g i id :
  NoDup g -> g !! i = Some id -> index_group g !! id = Some (u8 (Z.of_nat i)).
Proof.
  revert i id. induction g as [|x g IH] using rev_ind; intros i id Hn E; [done|].
  rewrite index_group_snoc. apply NoDup_app in Hn as (Hg & Hx & _).
  destruct (decide (i < length g)%nat) as [Hi|Hi].
  - rewrite lookup_app_l in E by done. rewrite lookup_insert_ne; [by apply IH|].
    intros ->. apply (Hx id); [by eapply list_elem_of_lookup_2|set_solver].
  - rewrite lookup_app_r in E by lia. destruct (i - length g)%nat eqn:Ei; cbn in E; simplify_eq/=.
    + rewrite lookup_insert_eq. repeat f_equal. lia.
Qed.

(** The buffer of the decoders: five zeros, then a seed. *)
Definition seed_buf (b : bytes) : Prop := length b = 8%nat /\ take 5 b = replicate 5 Byte.x00.

Lemma seed_buf_init : seed_buf (replicate 8 Byte.x00).
Proof. done. Qed.

Lemma copy_seed b s rest :
  seed_buf b ->
  seed_buf (copy_at b 5 (be_fix 3 s ++ rest)) /\
  be_val (copy_at b 5 (be_fix 3 s ++ rest)) = s mod 2 ^ 24.
Proof.
  intros [Hl Ht]. unfold copy_at. rewrite Hl, length_app, length_be_fix.
  replace (Nat.min (8 - 5) (3 + length rest)) with 3%nat by lia.
  rewrite Ht, take_app_length' by (by rewrite length_be_fix). rewrite drop_ge, app_nil_r by lia.
  split; [done|]. by rewrite be_val_app, be_val_zeros, be_val_fix.
Qed.

(** *** Decoding *)

Definition known (group : list NodeID) (p : PeerInfo) : Prop :=
  PeerID p ∈ group /\ 0 <= Seed p < 2 ^ 24.

Lemma get_peers_eq group peers : forall i pre b,
  NoDup group -> (length group <= 256)%nat -> Forall (known group) peers ->
  length pre = (i * 4)%nat -> seed_buf b ->
  get_peers group b i (length peers) (pre ++ peers_bytes (index_group group) peers) = Ret peers.
Proof.
  induction peers as [|p peers IH]; intros i pre b Hn Hl Hk Hp Hb; [done|].
  apply Forall_cons in Hk as [[Hin Hs] Hk]. cbn [length get_peers].
  apply list_elem_of_lookup in Hin as [j Hj]. pose proof (lookup_lt_Some _ _ _ Hj).
  set (rest := peers_bytes (index_group group) peers) in *.
  replace (peers_bytes (index_group group) (p :: peers)) with ((u8 (Z.of_nat j) :: be_fix 3 (Seed p)) ++ rest)
    by (unfold peers_bytes; cbn [map concat]; by rewrite (index_group_lookup group j)).
  rewrite (idx_Some _ _ (u8 (Z.of_nat j))) by (by rewrite lookup_app_r, Hp, Nat.sub_diag by lia).
  cbn [mbind outcome_bind]. rewrite ub_u8, Z.mod_small, Nat2Z.id, Hj by lia.
  rewrite drop_app_ge by lia. replace (i * 4 + 1 - length pre)%nat with 1%nat by lia.
  change (drop 1 ((?a :: ?l) ++ ?r)) with (l ++ r).
  destruct (copy_seed b (Seed p) rest Hb) as [Hb' Hv].
  cbn [mbind outcome_bind]. rewrite Hv, Z.mod_small by lia.
  rewrite app_assoc. rewrite IH; [by destruct p|done..| |done].
  rewrite length_app. cbn. lia.
Qed.

Lemma getMessagePeers_bytes d msg peers :
  NoDup (StoreManGroup d) -> (length (StoreManGroup d) <= 256)%nat -> peers <> [] ->
  Forall (known (StoreManGroup d)) peers ->
  mm_Peers msg = peers_bytes (index_group (StoreManGroup d)) peers ->
  getMessagePeers d msg = Ret (Some peers).
Proof.
  intros Hn Hl Hp Hk E. unfold getMessagePeers. rewrite E, length_peers_bytes.
  assert (length peers <> 0)%nat as Hlen by (by destruct peers).
  rewrite decide_False by (rewrite Nat.mul_comm, Nat.Div0.mod_mul; lia).
  rewrite Nat.mul_comm, Nat.div_mul by lia.
  by rewrite (get_peers_eq (StoreManGroup d) peers 0 []).
Qed.

(** Nodes configured with the same group, in any order, agree on it. *)
Lemma InitStoreManGroup_agree d1 d2 :
  StoreManGroup d1 ≡ₚ StoreManGroup d2 ->
  StoreManGroup (InitStoreManGroup d1) = StoreManGroup (InitStoreManGroup d2).
Proof.
  intros Hp. cbn. apply sort_group_unique; [|apply sort_group_Sorted].
  by rewrite sort_group_Permutation.
Qed.

Lemma peers_wire d1 d2 msg peers :
  StoreManGroup d1 ≡ₚ StoreManGroup d2 -> NoDup (StoreManGroup d1) ->
  (length (StoreManGroup d1) <= 256)%nat -> peers <> [] -> Forall (known (StoreManGroup d1)) peers ->
  getMessagePeers (InitStoreManGroup d2) (SetMessagePeers (InitStoreManGroup d1) msg (Some peers))
  = Ret (Some peers).
Proof.
  intros Hg Hn Hl Hp Hk. rewrite SetMessagePeers_eq by done.
  pose proof (InitStoreManGroup_agree d1 d2 Hg) as E.
  pose proof (sort_group_Permutation (StoreManGroup d1)) as Hs.
  apply getMessagePeers_bytes; rewrite <- ?E; cbn; rewrite ?Hs; try done.
  eapply Forall_impl; [exact Hk|]. intros p [Hin ?]. split; [by rewrite Hs|done].
Qed.

(** ** Lemmas on accounts *)

Lemma hex_prefix_Encode b : hex_prefix (hex_EncodeToString b) = b.
Proof.
  induction b as [|c b IH]; [done|]. cbn [hex_EncodeToString hex_prefix].
  pose proof (ub_range c).
  rewrite !decodeNibble_hexdigit, IH.
  - f_equal. rewrite <- (u8_ub c) at 3. f_equal. rewrite <- Z.div_mod; lia.
  - apply Z.mod_pos_bound. lia.
  - split; [apply Z.div_pos; lia|]. apply Z.div_lt_upper_bound; lia.
Qed.

Lemma hex_DecodeString_bytes_Encode b : hex_DecodeString_bytes (hex_EncodeToString b) = b.
Proof.
  unfold hex_DecodeString_bytes. rewrite length_hex_Encode, Nat.mul_comm, Nat.Div0.mod_mul.
  apply hex_prefix_Encode.
Qed.

Lemma read_seeds_eq peers : forall i pre suf b,
  Forall (fun p => 0 <= Seed p < 2 ^ 24) peers -> length pre = (i * 3)%nat -> seed_buf b ->
  read_seeds (pre ++ seeds_bytes (map Seed peers) ++ suf) b i (map PeerID peers) = Ret peers.
Proof.
  induction peers as [|p peers IH]; intros i pre suf b Hs Hp Hb; [done|].
  apply Forall_cons in Hs as [Hsp Hs]. cbn [map read_seeds].
  rewrite decide_False by (rewrite length_app; lia).
  rewrite drop_app_length' by done.
  change (seeds_bytes (Seed p :: map Seed peers)) with (be_fix 3 (Seed p) ++ seeds_bytes (map Seed peers)).
  rewrite <- (app_assoc (be_fix 3 (Seed p))).
  destruct (copy_seed b (Seed p) (seeds_bytes (map Seed peers) ++ suf) Hb) as [Hb' Hv].
  rewrite (app_assoc pre), IH; [|done| |done].
  - cbn [mbind outcome_bind]. rewrite Hv, Z.mod_small by lia. by destruct p.
  - rewrite length_app, length_be_fix. lia.
Qed.

Section AccountFacts.
Context {C : EllipticCurve} {G : CurveGroup C} {H : Hashes} {K : KeyCrypto}.

(** Address of the group key [g * G]. *)
Definition group_address (g : Z) : Address :=
  BytesToAddress (drop 12 (keccak256 (drop 1 (point_bytes g)))).

Lemma PubkeyToAddress_mulG g :
  g mod Params_N <> 0 -> PubkeyToAddress (Some (mulG g)) = Ret (group_address g).
Proof. intros Hg. unfold PubkeyToAddress. by rewrite FromECDSAPub_mulG. Qed.

Lemma PkToAddress_point_bytes g :
  Params_BitSize = 256 -> g mod Params_N <> 0 -> PkToAddress (point_bytes g) = Ret (group_address g).
Proof.
  intros HB Hg. unfold PkToAddress. rewrite decide_False.
  - rewrite ToECDSAPub_point_bytes by done. cbn [mbind outcome_bind of_option].
    by apply PubkeyToAddress_mulG.
  - pose proof (byteLen_eq BitSize_nonneg) as Hl. rewrite HB in Hl. change ((256 + 7) / 8) with 32 in Hl.
    unfold point_bytes, PkLength. cbn. rewrite length_app, !length_be_fix. lia.
Qed.

(** Conditions under which an account of the group key [g] can be stored by [d]. *)
Record storable (sp : StoreParams) (g share : Z) (peers : list PeerInfo) (accType : string)
  (d : MpcDistributor) : Prop := {
  st_scrypt : scrypt_accepts (sp_scryptN sp) (sp_scryptP sp);
  st_iv1 : length (sp_iv1 sp) = 16%nat;
  st_iv2 : length (sp_iv2 sp) = 16%nat;
  st_bits : Params_BitSize = 256;
  st_key : g mod Params_N <> 0;
  st_share : 0 < share < Params_N;
  st_peers : (length peers <= 22)%nat;
  st_seeds : Forall (fun p => 0 <= Seed p < 2 ^ 24) peers;
  st_ids : map PeerID peers = StoreManGroup d;
  st_type : accType <> StoremanBtcAcc;
  st_address : group_address g <> replicate AddressLength Byte.x00;
  st_new : forall kj, (group_address g, kj) ∉ AccountManager d;
  st_cache : mpcAccountMap d !! group_address g = None
}.

Lemma CreateKeystore_load sp g share peers accType d :
  storable sp g share peers accType d ->
  exists d1 d2,
    (forall result,
       GetValue PublicKeyResult result = Ret [(mulG g).1; (mulG g).2] ->
       GetValue MpcPrivateShare result = Ret [share] ->
       MpcDistributor_CreateKeystore sp result peers accType d
       = Ret (SetByteValue MpcContextResult (point_bytes g) result, d1)) /\
    loadStoremanAddress (group_address g) d1
    = Ret (value MpcPrivateShare [share], value PublicKeyResult [(mulG g).1; (mulG g).2], peers, d2).
Proof.
  intros [Hs H1 H2 HB Hg Hsh Hl Hse Hp Ha Hz Hks Hm].
  destruct (NewStoremanAccount_GetPrivateShare sp g share (map Seed peers) (password d) accType (AccountManager d))
    as (kj & k & En & Ek & Ed & Ex & Ew); try done; [by rewrite length_map|].
  fold (group_address g) in En, Ek. do 2 eexists. split.
  - intros result E1 E2. unfold MpcDistributor_CreateKeystore, newStoremanKeyStore. rewrite E1, E2.
    cbn [mbind outcome_bind idx lookup list_lookup]. rewrite (mulG_SetBytes g Hg), En.
    cbn [mbind outcome_bind]. rewrite FromECDSAPub_mulG by done. cbn [mbind outcome_bind].
    by rewrite PubkeyToAddress_mulG.
  - unfold loadStoremanAddress. cbn [mpcAccountMap AccountManager with_accounts password StoreManGroup].
    rewrite Hm, Ek. cbn [mbind outcome_bind]. rewrite Ew, <- Hp.
    pose proof (fun suf => read_seeds_eq peers 0 [] suf _ Hse eq_refl seed_buf_init) as Er.
    cbn [app] in Er. rewrite Er. cbn [mbind outcome_bind ma_externString].
    rewrite Ex, hex_DecodeString_bytes_Encode, ToECDSAPub_point_bytes by done.
    cbn [mbind outcome_bind of_option ma_privateShare ma_peers]. rewrite Ed. by destruct (mulG g).
Qed.

(** ** Properties of the manifest *)

(** C18: a group account survives.  A group of at most 22 nodes that stores its new
    key with [CreateKeystore] gets as result the encoded group key; the address
    [PkToAddress] computes from that encoding finds the account again, and
    [loadStoremanAddress] gives back the share, the coordinates of the group key,
    and every peer with its seed. *)
Theorem account_roundtrip (sp : StoreParams) (g share : Z) (peers : list PeerInfo) (accType : string)
  (result : BaseMpcResult) (d : MpcDistributor) :
  storable sp g share peers accType d ->
  GetValue PublicKeyResult result = Ret [(mulG g).1; (mulG g).2] ->
  GetValue MpcPrivateShare result = Ret [share] ->
  exists result' d1 d2,
    CreateKeystore (StoremanManager := distributor_manager sp) result peers accType d = Ret (result', d1) /\
    GetByteValue MpcContextResult result' = Ret (point_bytes g) /\
    PkToAddress (point_bytes g) = Ret (group_address g) /\
    loadStoremanAddress (group_address g) d1
    = Ret (value MpcPrivateShare [share], value PublicKeyResult [(mulG g).1; (mulG g).2], peers, d2).
Proof.
  intros Hst E1 E2. destruct (CreateKeystore_load sp g share peers accType d Hst) as (d1 & d2 & Ec & El).
  do 3 eexists. split; [by apply Ec|]. split; [solve_store|].
  split; [apply PkToAddress_point_bytes; apply Hst|exact El].
Qed.

End AccountFacts.

(** The peers of a request arrive.  Two nodes configured with the same group of
    at most 256 nodes, listed in any order, agree on its order, and one decodes
    exactly the peers and 24-bit seeds that the other encodes. *)
Theorem peers_roundtrip (d1 d2 : MpcDistributor) (msg : MpcMessage) (peers : list PeerInfo) :
  StoreManGroup d1 ≡ₚ StoreManGroup d2 -> NoDup (StoreManGroup d1) ->
  (length (StoreManGroup d1) <= 256)%nat -> peers <> [] -> Forall (known (StoreManGroup d1)) peers ->
  StoreManGroup (InitStoreManGroup d1) = StoreManGroup (InitStoreManGroup d2) /\
  getMessagePeers (InitStoreManGroup d2) (SetMessagePeers (InitStoreManGroup d1) msg (Some peers))
  = Ret (Some peers).
Proof. intros. split; [by apply InitStoreManGroup_agree|by apply peers_wire]. Qed.

(** The index of a peer is one byte.  In a group of more than 256 nodes the
    peer at index 256 is decoded as the peer at index 0. *)
Theorem peer_index_wraps (d : MpcDistributor) (msg : MpcMessage) (id0 id256 : NodeID) (seed : Z) :
  let group := StoreManGroup (InitStoreManGroup d) in
  NoDup (StoreManGroup d) -> group !! 0%nat = Some id0 -> group !! 256%nat = Some id256 ->
  0 <= seed < 2 ^ 24 ->
  getMessagePeers (InitStoreManGroup d)
    (SetMessagePeers (InitStoreManGroup d) msg (Some [{| PeerID := id256; Seed := seed |}]))
  = Ret (Some [{| PeerID := id0; Seed := seed |}]).
Proof.
  intros group Hn E0 E256 Hs. rewrite SetMessagePeers_eq by done.
  assert (NoDup group) as Hg by (unfold group; cbn; by rewrite sort_group_Permutation).
  unfold getMessagePeers, peers_bytes. cbn [mm_Peers with_Peers map concat PeerID Seed storeManIndex InitStoreManGroup].
  change (sort_group (StoreManGroup d)) with group.
  rewrite (index_group_lookup group 256 id256) by done.
  cbn [default app length be_fix]. rewrite decide_False by (intros [?|?]; done).
  change (4 / 4)%nat with 1%nat. cbn [get_peers Nat.mul idx lookup list_lookup].
  cbn [mbind outcome_bind]. change (Z.to_nat (ub (id (u8 (Z.of_nat 256))))) with 0%nat.
  change (StoreManGroup (InitStoreManGroup d)) with group. rewrite E0.
  destruct (copy_seed (replicate 8 Byte.x00) seed [] seed_buf_init) as [_ Hv].
  rewrite app_nil_r in Hv. cbn [be_fix] in Hv. cbn [mbind outcome_bind Nat.add drop].
  rewrite Hv, Z.mod_small by lia. done.
Qed.

(** ** Contexts of the distributor *)

Lemma getMpcID_fresh {C : EllipticCurve} fuel : forall rd d id rd',
  getMpcID fuel rd d = Some (Ret id, rd') -> mpcMap d !! id = None /\ 0 <= id < 2 ^ 64 - 1.
Proof.
  induction fuel as [|fuel IH]; intros rd d id rd' E; cbn [getMpcID] in E; [done|].
  destruct (UintRand _ rd) as [[n|e|] rd1] eqn:Eu; [|done..].
  destruct (mpcMap d !! n) as [c|] eqn:En; [by eapply IH|]. simplify_eq. split; [done|].
  unfold UintRand in Eu. destruct (RandInt rd _) as [[z|e|] rd2] eqn:Er; simplify_eq/=.
  apply RandInt_range in Er. rewrite Z.mod_small; lia.
Qed.

(** With more distinct draws than running contexts, one of them is new. *)
Lemma getMpcID_total {C : EllipticCurve} d (m : gmap Z MpcContext) : forall ds rd,
  NoDup (map (fun z => z mod (2 ^ 64 - 1)) ds) -> m ⊆ mpcMap d ->
  (forall id, is_Some (mpcMap d !! id) -> is_Some (m !! id) \/ id ∉ map (fun z => z mod (2 ^ 64 - 1)) ds) ->
  (size m < length ds)%nat ->
  exists id rd', getMpcID (length ds) (map Some ds ++ rd) d = Some (Ret id, rd').
Proof.
  intros ds. revert m. induction ds as [|z ds IH]; intros m rd Hn Hm Hin Hs; [cbn in Hs; lia|].
  cbn [map app length getMpcID]. unfold UintRand.
  change (map Some (z :: ds) ++ rd) with (Some z :: (map Some ds ++ rd)).
  assert (RandInt (Some z :: (map Some ds ++ rd)) (2 ^ 64 - 1) = (Ret (z mod (2 ^ 64 - 1)), map Some ds ++ rd)) as -> by done.
  set (k := z mod (2 ^ 64 - 1)) in *.
  assert (k mod 2 ^ 64 = k) as ->.
  { apply Z.mod_small. pose proof (Z.mod_pos_bound z (2 ^ 64 - 1)). lia. }
  destruct (mpcMap d !! k) as [c|] eqn:Ek; [|by do 2 eexists].
  cbn [map] in Hn. fold k in Hn. apply NoDup_cons in Hn as [Hk Hn].
  destruct (Hin k) as [[c' Hc]|Hk']; [by eexists| |].
  - apply (IH (delete k m)); [done|etrans; [apply delete_subseteq|done]| |].
    + intros id Hid. destruct (decide (id = k)) as [->|Hne]; [by right|].
      destruct (Hin id Hid) as [?|Hni]; [left; by rewrite lookup_delete_ne|right].
      intros ?. apply Hni. cbn [map]. by right.
    + rewrite map_size_delete_Some by (by eexists). cbn [length] in Hs.
      assert (size m <> 0)%nat; [|lia]. intros E0%map_size_empty_inv. by subst m.
  - exfalso. apply Hk'. cbn [map]. left.
Qed.

Lemma getMessage_steps c from msg c' :
  getMessage c from msg = ret c' ->
  mc_mpcResult c' = mc_mpcResult c /\
  forall i, i <> Z.to_nat (mm_StepID msg) -> mc_MpcSteps c' !! i = mc_MpcSteps c !! i.
Proof.
  unfold getMessage. intros E. destruct (_ !! _) as [s|]; [|done]. case_match; [|done].
  apply run_bind_ret in E as (s' & _ & [= <-]). cbn. split; [done|].
  intros i Hi. by rewrite list_lookup_insert_ne.
Qed.

Section RequestFacts.
Context {C : EllipticCurve} {H : Hashes} {K : KeyCrypto} {J : JSON} (vars : ProtocolVars).

Lemma loadStoremanAddress_shape a d v v1 ps d' :
  loadStoremanAddress a d = Ret (v, v1, ps, d') ->
  (exists s x y, v = value MpcPrivateShare [s] /\ v1 = value PublicKeyResult [x; y]) /\
  mpcMap d' = mpcMap d /\ StoreManGroup d' = StoreManGroup d.
Proof.
  unfold loadStoremanAddress. intros E. go_bind E as [acc d1] E1. go_bind E as gpk E2.
  go_bind E as [x y] E3. simplify_eq. split; [by eauto|].
  destruct (mpcAccountMap d !! a); [by simplify_eq|].
  go_bind E1 as key E4. go_bind E1 as peers E5. by simplify_eq.
Qed.

Lemma report_failure_no_value d msg A e (a : A) : report_failure d msg e <> Ret a.
Proof. unfold report_failure. intros E. go_bind E as u E1. by go_bind E as v E2. Qed.

Lemma sign_request_spec msg nb inst polls db d pre inst' d' :
  sign_request msg nb inst polls db d = Ret (pre, inst', d') ->
  mpcMap d' = mpcMap d /\
  exists M pk ext,
    mm_BytesData msg !! 0%nat = Some M /\ mm_BytesData msg !! 1%nat = Some pk /\
    mm_BytesData msg !! 2%nat = Some ext /\
    (let data := {| sd_PKBytes := pk; sd_Data := M; sd_Extern := ext |} in
     db !! buildKeyFromData data MpcApproved = Some (json_SendData data)) /\
    GetByteValue MpcM (InitializeValue pre createMpcBaseMpcResult) = Ret M /\
    GetByteValue MpcAddress (InitializeValue pre createMpcBaseMpcResult) = Ret pk.
Proof.
  unfold sign_request. intros E. go_bind E as M E0. go_bind E as pk E1. go_bind E as ext E2.
  go_bind E as add E3. go_bind E as [[[v v1] ps] d1] E4. go_bind E as i1 E5.
  apply loadStoremanAddress_shape in E4 as ((s & x & y & -> & ->) & Hm & _).
  apply idx_Ret in E0, E1, E2.
  destruct (ValidateData _ _ _ _ _) as [[]|e|] eqn:Ev; [|by apply report_failure_no_value in E|done].
  simplify_eq. split; [done|]. exists M, pk, ext.
  split_and!; try done; [|unfold InitializeValue, InitializeValue1; cbn; solve_store..].
  by eapply ValidateData_accepts.
Qed.

Lemma createMpcCtx_spec msg inst polls db d mpc inst' d' :
  createMpcCtx vars msg inst polls db d = Ret (mpc, inst', d') ->
  mpcMap d !! mm_ContextID msg = None /\ mpcMap d' = <[mm_ContextID msg := mpc]> (mpcMap d) /\
  exists t pre peers,
    mm_Data msg !! 0%nat = Some t /\ mc_ContextID mpc = mm_ContextID msg /\
    mc_mpcResult mpc = InitializeValue pre createMpcBaseMpcResult /\ mc_peers mpc = peers /\
    (Int64 t <> MpcGPKLeader -> exists nb inst0 d0,
       sign_request msg nb inst polls db d = Ret (pre, inst0, d0)).
Proof.
  unfold createMpcCtx. destruct (mpcMap d !! _) eqn:Em; [done|]. intros E.
  go_bind E as t E0. go_bind E as nb E1. go_bind E as [[pre i1] d1] E2. go_bind E as po E3.
  go_bind E as peers E4. go_bind E as c E5. simplify_eq.
  apply CreateContext_fields in E5 as (Hid & Hr & Hp). apply idx_Ret in E0.
  split; [done|]. split.
  - cbn [mpcMap addMpcContext with_mpcMap].
    destruct (decide (_ = MpcSignPeer)); [apply sign_request_spec in E2 as [-> _]|simplify_eq]; done.
  - exists t, pre, peers. split_and!; try done. intros Ht. rewrite decide_True in E2.
    + by do 3 eexists.
    + by rewrite decide_False.
Qed.

End RequestFacts.

(** C8: a node signs approved data only.  When a request of another node is turned
    into a signing context, its identifier was free, the database holds exactly the
    requested data as approved, and the context signs that data under that key. *)
Theorem peer_signs_only_approved {C : EllipticCurve} {H : Hashes} {K : KeyCrypto} {J : JSON}
  (vars : ProtocolVars) (msg : MpcMessage) (inst : option DB) (polls : list DB) (db : DB)
  (d : MpcDistributor) (mpc : MpcContext) (inst' : option DB) (d' : MpcDistributor) (t : Z) :
  createMpcCtx vars msg inst polls db d = Ret (mpc, inst', d') ->
  mm_Data msg !! 0%nat = Some t -> Int64 t <> MpcGPKLeader ->
  mpcMap d !! mm_ContextID msg = None /\ mpcMap d' = <[mm_ContextID msg := mpc]> (mpcMap d) /\
  exists M pk ext,
    mm_BytesData msg !! 0%nat = Some M /\ mm_BytesData msg !! 1%nat = Some pk /\
    mm_BytesData msg !! 2%nat = Some ext /\
    (let data := {| sd_PKBytes := pk; sd_Data := M; sd_Extern := ext |} in
     db !! buildKeyFromData data MpcApproved = Some (json_SendData data)) /\
    GetByteValue MpcM (mc_mpcResult mpc) = Ret M /\ GetByteValue MpcAddress (mc_mpcResult mpc) = Ret pk.
Proof.
  intros E Ht Hs. apply createMpcCtx_spec in E as (Hf & Hm & t' & pre & peers & Ht' & _ & Hr & _ & Hreq).
  split; [done|]. split; [done|]. destruct Hreq as (nb & i0 & d0 & Hreq); [congruence|].
  apply sign_request_spec in Hreq as [_ Hreq]. by rewrite Hr.
Qed.

(** identifiers of contexts are fresh: [getMpcID] returns a 64-bit identifier of
    no running context, and it returns one as soon as it draws more distinct values
    than there are contexts. *)
Theorem getMpcID_correct {C : EllipticCurve} (d : MpcDistributor) (ds : list Z) (rd : reader) :
  (forall fuel id rd', getMpcID fuel rd d = Some (Ret id, rd') ->
     mpcMap d !! id = None /\ 0 <= id < 2 ^ 64 - 1) /\
  (NoDup (map (fun z => z mod (2 ^ 64 - 1)) ds) -> (size (mpcMap d) < length ds)%nat ->
   exists id rd', getMpcID (length ds) (map Some ds ++ rd) d = Some (Ret id, rd')).
Proof.
  split; [intros fuel id rd'; apply getMpcID_fresh|].
  intros Hn Hs. apply (getMpcID_total d (mpcMap d)); try done. by left.
Qed.

(** C27: messages are isolated.  A message changes no account, no other context, and
    in its own context only the step it names; a message of an unknown context is
    dropped. *)
Theorem message_isolation (from : NodeID) (msg : MpcMessage) (d d' : MpcDistributor) :
  getMpcMessage from msg d = ret d' ->
  (mpcMap d !! mm_ContextID msg = None -> d' = d) /\
  AccountManager d' = AccountManager d /\ mpcAccountMap d' = mpcAccountMap d /\
  (forall id, id <> mm_ContextID msg -> mpcMap d' !! id = mpcMap d !! id) /\
  (forall c, mpcMap d !! mm_ContextID msg = Some c -> exists c',
     mpcMap d' !! mm_ContextID msg = Some c' /\ mc_mpcResult c' = mc_mpcResult c /\
     forall i, i <> Z.to_nat (mm_StepID msg) -> mc_MpcSteps c' !! i = mc_MpcSteps c !! i).
Proof.
  unfold getMpcMessage. destruct (mpcMap d !! _) as [c|] eqn:Em.
  - intros (po & _ & E)%run_bind_ret. apply run_bind_ret in E as (c' & Ec & [= <-]).
    split_and!; try done.
    + intros id Hid. cbn. by rewrite lookup_insert_ne.
    + intros c0 [= <-]. exists c'. cbn. rewrite lookup_insert_eq. split; [done|].
      by eapply getMessage_steps.
  - intros [= <-]. by split_and!.
Qed.

(** C17: the request for a new group key is accepted.  Whatever numbers a leader draws, repeated ones among them,
    once there are as many different ones as nodes its loop ends, and it broadcasts a request that every node
    configured with the same group accepts, with the peers in the same order and the same seeds:
    distinct, between 1 and [2^24 - 2]. *)
Theorem gpk_request_accepted {C : EllipticCurve} {H : Hashes} {K : KeyCrypto} {J : JSON}
  (vars : ProtocolVars) (dl dp : MpcDistributor) (req : RequestMpcStep) (res : BaseMpcResult)
  (draws : list Z) (ctx : Z) (inst : option DB) (polls : list DB) (db : DB) :
  let group := StoreManGroup (InitStoreManGroup dl) in
  StoreManGroup dl ≡ₚ StoreManGroup dp -> NoDup (StoreManGroup dl) ->
  (0 < length (StoreManGroup dl) <= 256)%nat -> 0 <= MPCDegree vars + 1 ->
  (length (StoreManGroup dl) <= size (drawn_seeds draws))%nat ->
  rq_messageType req = MpcGPKLeader -> mpcMap dp !! ctx = None ->
  exists peers draws' m mpc dp',
    RequestMpcStep_InitStep (map (fun id => {| PeerID := id; Seed := 0 |}) group) res draws req
    = Some (Ret (req, peers, draws')) /\
    RequestMpcStep_CreateMessage peers req = Ret [m] /\
    createMpcCtx vars
      (SetMessagePeers (InitStoreManGroup dl)
         {| mm_ContextID := ctx; mm_StepID := 0; mm_Peers := []; mm_Data := sm_Data m;
            mm_BytesData := sm_BytesData m |} (sm_Peers m)) inst polls db (InitStoreManGroup dp)
    = Ret (mpc, inst, dp') /\
    mc_peers mpc = peers /\ map PeerID peers = group /\ NoDup (map Seed peers) /\
    Forall (fun p => 1 <= Seed p <= 16777214) peers.
Proof.
  intros group Hperm Hn Hlen Hdeg Hd Ht Hctx.
  pose proof (sort_group_Permutation (StoreManGroup dl)) as Hsp.
  assert (length group = length (StoreManGroup dl)) as Hgl by (unfold group; cbn; by rewrite Hsp).
  set (peers0 := map _ group). destruct (assign_seeds_total peers0 ∅ draws) as [[peers draws'] Ea].
  { unfold peers0. rewrite length_map, difference_empty_L. lia. }
  pose proof (assign_seeds_spec _ _ _ _ _ Ea) as (Hid & Hns & Hf).
  assert (map PeerID peers = group) as Hg.
  { rewrite Hid. unfold peers0. rewrite map_map. cbn. apply map_id. }
  assert (peers <> []) as Hne by (intros ->; rewrite <- Hg in Hgl; cbn in Hgl; lia).
  destruct (gen_gpk_total vars (createMpcContext ctx peers (InitializeValue [] createMpcBaseMpcResult))
    (new_step (CreateAckMpcStep peers) (SAck MpcGPKPeer)) (new_step (CreateGetMpcReadyStep peers) SGetReady) Hdeg)
    as (mpc & Eg & Hp).
  exists peers, draws'. do 2 eexists. eexists. split_and!; [| | |exact Hp|done|done|].
  - unfold RequestMpcStep_InitStep. rewrite decide_True by done. by rewrite Ea.
  - unfold RequestMpcStep_CreateMessage. rewrite decide_False by (rewrite Ht; done). done.
  - cbn [sm_Peers sm_Data sm_BytesData]. rewrite Ht.
    pose proof (peers_wire dl dp {| mm_ContextID := ctx; mm_StepID := 0; mm_Peers := [];
      mm_Data := [MpcGPKLeader; 0]; mm_BytesData := [] |} peers Hperm Hn) as Ew.
    rewrite SetMessagePeers_eq in * by done. unfold createMpcCtx.
    change (mpcMap (InitStoreManGroup dp)) with (mpcMap dp). unfold with_Peers in *.
    cbn [mm_ContextID mm_StepID mm_Data mm_BytesData] in *. rewrite Hctx.
    cbn [idx lookup list_lookup mbind outcome_bind].
    assert (Int64 MpcGPKLeader = MpcGPKLeader) as Hi by done.
    rewrite (decide_True _ _ Hi), decide_False by done. cbn [mbind outcome_bind].
    rewrite Ew; [|lia|done|].
    + cbn [mbind outcome_bind of_option]. unfold CreateContext. cbn [mapM_out mbind outcome_bind].
      rewrite decide_False, decide_True by done. unfold ackGPKMpc.
      rewrite (proj2 (check_seeds_spec peers ∅)).
      * cbn [mbind outcome_bind]. rewrite Eg. done.
      * split; [done|]. eapply Forall_impl; [exact Hf|]. unfold seed_bound. intros p [? ?]. split; [done|lia].
    + apply Forall_forall. intros p Hpin. split.
      * rewrite <- Hsp. change (PeerID p ∈ group). rewrite <- Hg. by apply list_elem_of_fmap_2.
      * rewrite Forall_forall in Hf. destruct (Hf p Hpin) as [_ ?]. unfold seed_bound in *. lia.
  - eapply Forall_impl; [exact Hf|]. by intros p [_ ?].
Qed.

(** *** Witnesses *)

#[local] Existing Instances smallC small_group toy_hashes toy_crypto toy_json.

Definition toy_ids : list NodeID := [[Byte.x01]; [Byte.x02]; [Byte.x03]].

Definition toy_dist (group : list NodeID) : MpcDistributor :=
  CreateMpcDistributor [Byte.x01] group [] EmptyString EmptyString EmptyString [Byte.x70].

Definition toy_gpk_result : BaseMpcResult :=
  SetValue PublicKeyResult [(mulG 14).1; (mulG 14).2] (SetValue MpcPrivateShare [19] createMpcBaseMpcResult).

Lemma toy_ids_NoDup : NoDup toy_ids.
Proof. by apply (bool_decide_unpack _). Qed.

Lemma toy_ids_perm : toy_ids ≡ₚ [[Byte.x03]; [Byte.x01]; [Byte.x02]].
Proof. by apply (bool_decide_unpack _). Qed.

Lemma toy_storable : storable toy_store 14 19 toy_peers EmptyString (toy_dist toy_ids).
Proof.
  split.
  - intros auth salt. eexists. split; [reflexivity|]. apply length_be_fix.
  - reflexivity.
  - reflexivity.
  - reflexivity.
  - by vm_compute.
  - by vm_compute.
  - cbn. lia.
  - repeat constructor; cbn; lia.
  - reflexivity.
  - done.
  - by vm_compute.
  - intros kj Hin. by apply not_elem_of_nil in Hin.
  - reflexivity.
Qed.

Lemma account_roundtrip_witness :
  exists result' d1 d2,
    CreateKeystore (StoremanManager := distributor_manager toy_store) toy_gpk_result toy_peers EmptyString
      (toy_dist toy_ids) = Ret (result', d1) /\
    GetByteValue MpcContextResult result' = Ret (point_bytes 14) /\
    PkToAddress (point_bytes 14) = Ret (group_address 14) /\
    loadStoremanAddress (group_address 14) d1
    = Ret (value MpcPrivateShare [19], value PublicKeyResult [(mulG 14).1; (mulG 14).2], toy_peers, d2).
Proof.
  apply account_roundtrip; [apply toy_storable|reflexivity|reflexivity].
Defined.

Definition toy_msg : MpcMessage :=
  {| mm_ContextID := 7; mm_StepID := 0; mm_Peers := []; mm_Data := [1]; mm_BytesData := [] |}.

Lemma peers_roundtrip_witness :
  getMessagePeers (InitStoreManGroup (toy_dist [[Byte.x03]; [Byte.x01]; [Byte.x02]]))
    (SetMessagePeers (InitStoreManGroup (toy_dist toy_ids)) toy_msg (Some toy_peers)) = Ret (Some toy_peers).
Proof.
  apply (peers_roundtrip (toy_dist toy_ids) (toy_dist [[Byte.x03]; [Byte.x01]; [Byte.x02]])).
  - apply toy_ids_perm.
  - apply toy_ids_NoDup.
  - cbn. lia.
  - done.
  - apply (bool_decide_unpack _). by vm_compute.
Defined.

Definition big_group : list NodeID := map (fun i => be_fix 2 (Z.of_nat i)) (seq 0 257).

Lemma peer_index_wraps_witness :
  getMessagePeers (InitStoreManGroup (toy_dist big_group))
    (SetMessagePeers (InitStoreManGroup (toy_dist big_group)) toy_msg
       (Some [{| PeerID := be_fix 2 256; Seed := 5 |}]))
  = Ret (Some [{| PeerID := be_fix 2 0; Seed := 5 |}]).
Proof.
  apply peer_index_wraps.
  - apply (bool_decide_unpack _). by vm_compute.
  - by vm_compute.
  - by vm_compute.
  - lia.
Defined.

Lemma getMpcID_correct_witness :
  exists id rd', getMpcID 2 [Some 5; Some 9] (toy_dist toy_ids) = Some (Ret id, rd').
Proof.
  apply (proj2 (getMpcID_correct (toy_dist toy_ids) [5; 9] [])).
  - apply (bool_decide_unpack _). by vm_compute.
  - vm_compute. lia.
Defined.

(** The context of a peer in the creation of a group key. *)
Definition toy_ctx : MpcContext :=
  match ackGPKMpc toy_vars 7 toy_peers [] with
  | Ret c => c
  | _ => createMpcContext 7 [] createMpcBaseMpcResult
  end.

Lemma message_isolation_witness :
  let d := addMpcContext 7 toy_ctx (addMpcContext 8 toy_ctx (toy_dist toy_ids)) in
  match getMpcMessage [Byte.x02] toy_msg d with
  | Some (Ret d') =>
      mpcMap d' !! 8 = Some toy_ctx /\
      exists c', mpcMap d' !! 7 = Some c' /\ mc_MpcSteps c' !! 1%nat = mc_MpcSteps toy_ctx !! 1%nat
  | _ => False
  end.
Proof.
  intros d.
  assert (match getMpcMessage [Byte.x02] toy_msg d with Some (Ret _) => true | _ => false end = true) as Hr
    by (vm_compute; reflexivity).
  destruct (getMpcMessage _ _ d) as [[d'|e|]|] eqn:E; try discriminate Hr.
  destruct (message_isolation [Byte.x02] toy_msg d d' E) as (_ & _ & _ & Hid & Hc). split.
  - rewrite Hid by done. reflexivity.
  - destruct (Hc toy_ctx) as (c' & E1 & _ & E2); [reflexivity|]. exists c'. split; [exact E1|].
    apply E2. done.
Defined.

(** A node with the account of the group, and a database in which the data of the
    request is approved. *)
Definition toy_node : MpcDistributor :=
  match MpcDistributor_CreateKeystore toy_store toy_gpk_result toy_peers EmptyString (toy_dist toy_ids) with
  | Ret (_, d) => InitStoreManGroup d
  | _ => toy_dist []
  end.

Definition toy_request : MpcMessage :=
  SetMessagePeers toy_node
    {| mm_ContextID := 7; mm_StepID := 0; mm_Peers := []; mm_Data := [MpcSignLeader; 0];
       mm_BytesData := [[Byte.x09]; point_bytes 14; [Byte.x41]] |} (Some toy_peers).

Definition toy_approved : SendData :=
  {| sd_PKBytes := point_bytes 14; sd_Data := [Byte.x09]; sd_Extern := [Byte.x41] |}.

Definition approved_db : DB := {[buildKeyFromData toy_approved MpcApproved := json_SendData toy_approved]}.

Lemma peer_signs_only_approved_witness :
  match createMpcCtx toy_vars toy_request (Some approved_db) [approved_db] approved_db toy_node with
  | Ret (mpc, _, d') => mpcMap d' !! 7 = Some mpc
  | _ => False
  end.
Proof.
  assert (match createMpcCtx toy_vars toy_request (Some approved_db) [approved_db] approved_db toy_node with
          | Ret _ => true | _ => false end = true) as Hr by (vm_compute; reflexivity).
  destruct (createMpcCtx _ _ _ _ _ _) as [[[mpc i] d']|e|] eqn:E; try discriminate Hr.
  destruct (peer_signs_only_approved toy_vars toy_request (Some approved_db) [approved_db] approved_db
    toy_node mpc i d' MpcSignLeader E) as (_ & -> & _); [reflexivity|done|].
  apply lookup_insert_eq.
Defined.

Definition toy_req : RequestMpcStep := (CreateRequestMpcStep [] MpcGPKLeader).2.

Lemma gpk_request_accepted_witness :
  let dl := toy_dist toy_ids in
  let dp := toy_dist [[Byte.x03]; [Byte.x01]; [Byte.x02]] in
  exists peers draws' m mpc dp',
    RequestMpcStep_InitStep (map (fun id => {| PeerID := id; Seed := 0 |}) (StoreManGroup (InitStoreManGroup dl)))
      createMpcBaseMpcResult [10; 10; 20; 16777224; 30] toy_req = Some (Ret (toy_req, peers, draws')) /\
    RequestMpcStep_CreateMessage peers toy_req = Ret [m] /\
    createMpcCtx toy_vars
      (SetMessagePeers (InitStoreManGroup dl)
         {| mm_ContextID := 7; mm_StepID := 0; mm_Peers := []; mm_Data := sm_Data m;
            mm_BytesData := sm_BytesData m |} (sm_Peers m)) None [] ∅ (InitStoreManGroup dp)
    = Ret (mpc, None, dp') /\
    mc_peers mpc = peers /\ map PeerID peers = StoreManGroup (InitStoreManGroup dl) /\
    NoDup (map Seed peers) /\ Forall (fun p => 1 <= Seed p <= 16777214) peers.
Proof.
  intros dl dp. apply gpk_request_accepted.
  - apply toy_ids_perm.
  - apply toy_ids_NoDup.
  - cbn. lia.
  - cbn. lia.
  - apply (bool_decide_unpack _). by vm_compute.
  - reflexivity.
  - reflexivity.
Defined.
