(* ===== verification/Storeman.v ===== *)
(** * The storeman service

    [src/storeman/storeman.go] and [src/storeman/peer.go]: the configuration of
    the protocol, the connections with the other nodes of the group, the messages
    of the service itself, and the remote interface. *)

From S2P Require Import Prelude BigInt Curve Secp256k1 Schnorr Protocol Generators Instances Hexutil BaseStep Steps Context Keystore Validator Distributor.

(** ** State *)

Record Config := {
  cfg_StoremanNodes : list NodeID;
  cfg_Password : bytes;
  SchnorrThreshold : Z;
  SchnorrTotalNodes : Z
}.

Definition DefaultConfig : Config :=
  {| cfg_StoremanNodes := []; cfg_Password := []; SchnorrThreshold := 26; SchnorrTotalNodes := 50 |}.

(** What the service uses of [p2p.Server]. *)
Record Server := { srv_Self : NodeID; srv_StoremanNodes : list NodeID }.

(** A [Peer] is the connection it was created for. *)
Record Storeman := {
  peers : gmap NodeID nat;
  storemanPeers : gset NodeID;
  peerMu : bool;
  mpcDistributor : MpcDistributor;
  cfg : Config;
  server : option Server;
  peersPort : gmap NodeID bytes
}.

Definition with_peers_map (m : gmap NodeID nat) (sm : Storeman) : Storeman :=
  {| peers := m; storemanPeers := storemanPeers sm; peerMu := peerMu sm; mpcDistributor := mpcDistributor sm;
     cfg := cfg sm; server := server sm; peersPort := peersPort sm |}.

Definition with_lock (b : bool) (sm : Storeman) : Storeman :=
  {| peers := peers sm; storemanPeers := storemanPeers sm; peerMu := b; mpcDistributor := mpcDistributor sm;
     cfg := cfg sm; server := server sm; peersPort := peersPort sm |}.

Definition with_port (m : gmap NodeID bytes) (sm : Storeman) : Storeman :=
  {| peers := peers sm; storemanPeers := storemanPeers sm; peerMu := peerMu sm; mpcDistributor := mpcDistributor sm;
     cfg := cfg sm; server := server sm; peersPort := m |}.

(** [New]: sets the protocol variables; [None] is [os.Exit]. *)
Definition New (c : Config) (accountManager : list (Address * encryptedKeyJSONV3))
  (aKID secretKey region : string) : option (ProtocolVars * Storeman) :=
  let vars := {| MpcSchnrThr := SchnorrThreshold c; MPCDegree := SchnorrThreshold c - 1;
                 MpcSchnrNodeNumber := SchnorrTotalNodes c |} in
  if decide (MpcSchnrNodeNumber vars < MpcSchnrThr vars) then None else
  Some (vars, {| peers := ∅; storemanPeers := ∅; peerMu := false;
                 mpcDistributor := CreateMpcDistributor [] [] accountManager aKID secretKey region (cfg_Password c);
                 cfg := c; server := None; peersPort := ∅ |}).

Definition with_group (self : NodeID) (group : list NodeID) (d : MpcDistributor) : MpcDistributor :=
  {| Self := self; StoreManGroup := group; storeManIndex := storeManIndex d; mpcMap := mpcMap d;
     AccountManager := AccountManager d; mpcAccountMap := mpcAccountMap d;
     enableAwsKms := enableAwsKms d; password := password d |}.

Definition Start (srv : Server) (sm : Storeman) : Storeman :=
  {| peers := peers sm; storemanPeers := list_to_set (srv_StoremanNodes srv); peerMu := peerMu sm;
     mpcDistributor := InitStoreManGroup (with_group (srv_Self srv) (srv_StoremanNodes srv) (mpcDistributor sm));
     cfg := cfg sm; server := Some srv; peersPort := peersPort sm |}.

(** ** Sending

    A blocked lock is [block].  Sending to an unknown peer is only logged. *)

Definition SendToPeer (peerID : NodeID) (sm : Storeman) : run (option nat) :=
  if peerMu sm then block else ret (peers sm !! peerID).

Definition IsActivePeer (peerID : NodeID) (sm : Storeman) : run bool :=
  if peerMu sm then block else ret (bool_decide (is_Some (peers sm !! peerID))).

(** ** Handshake *)

(** What comes first on the connection, and how the own status is sent. *)
Inductive status_read :=
| ReadTimeout
| ReadError (e : error)
| ReadPacket (code : Z) (version : outcome Z).

Inductive status_send := SendTimeout | SendError (e : error) | SendOk.

Definition ErrHandshake : error := "storeman peer handshake failed".

Definition read_status (r : status_read) : outcome unit :=
  match r with
  | ReadTimeout => Err ErrHandshake
  | ReadError e => Err e
  | ReadPacket code version =>
      if decide (code <> StatusCode) then Err ErrHandshake else
      match version with
      | Ret v => if decide (v <> PVer) then Err ErrHandshake else Ret tt
      | _ => Err ErrHandshake
      end
  end.

Definition handshake (r : status_read) (s : status_send) : outcome unit :=
  _ ← read_status r;
  match s with
  | SendOk => Ret tt
  | _ => Err ErrHandshake
  end.

(** ** Connections *)

(** [HandlePeer] up to the handshake: [None] when the peer is refused. *)
Definition HandlePeer_accept (peer : NodeID) (conn : nat) (sm : Storeman) : option Storeman :=
  if decide (peer ∈ storemanPeers sm) then Some (with_peers_map (<[peer := conn]> (peers sm)) sm) else None.

(** Its deferred part, when the message loop has ended. *)
Definition HandlePeer_leave (peer : NodeID) (sm : Storeman) : Storeman :=
  with_peers_map (delete peer (peers sm)) sm.

Inductive conn_state := Handshaking | Running.

(** The service and its open connections. *)
Record Net := { net_sm : Storeman; net_conns : gmap nat (NodeID * conn_state) }.

(** Steps of the goroutines that run [HandlePeer]. *)
Inductive net_step : Net -> Net -> Prop :=
| NetAccept sm sm' conns conn peer :
    conns !! conn = None -> peerMu sm = false -> HandlePeer_accept peer conn sm = Some sm' ->
    net_step {| net_sm := sm; net_conns := conns |}
             {| net_sm := sm'; net_conns := <[conn := (peer, Handshaking)]> conns |}
| NetHandshake sm conns conn peer r s :
    conns !! conn = Some (peer, Handshaking) -> handshake r s = Ret tt ->
    net_step {| net_sm := sm; net_conns := conns |}
             {| net_sm := sm; net_conns := <[conn := (peer, Running)]> conns |}
| NetRefuse sm conns conn peer r s e :
    conns !! conn = Some (peer, Handshaking) -> handshake r s = Err e ->
    net_step {| net_sm := sm; net_conns := conns |}
             {| net_sm := sm; net_conns := delete conn conns |}
| NetLeave sm conns conn peer :
    conns !! conn = Some (peer, Running) -> peerMu sm = false ->
    net_step {| net_sm := sm; net_conns := conns |}
             {| net_sm := HandlePeer_leave peer sm; net_conns := delete conn conns |}.

(** ** Messages of the service *)

Record StrmanAllPeers := { ap_Ip : list bytes; ap_Port : list bytes; ap_Nodeid : list bytes }.

Definition NodeID_String (id : NodeID) : bytes := hex_EncodeToString id.

Definition add_peer (ip port id : bytes) (a : StrmanAllPeers) : StrmanAllPeers :=
  {| ap_Ip := ap_Ip a ++ [ip]; ap_Port := ap_Port a ++ [port]; ap_Nodeid := ap_Nodeid a ++ [id] |}.

(** The loop over [sm.peers], whose iteration visits [visited]; [resolve] is
    the address of a peer, from [net.ResolveTCPAddr]. *)
Fixpoint collect_peers (resolve : NodeID -> outcome bytes) (nodes : list NodeID) (ports : gmap NodeID bytes)
  (visited : list NodeID) (a : StrmanAllPeers) : outcome StrmanAllPeers :=
  match visited with
  | [] => Ret a
  | id :: ids =>
      let port := default [] (ports !! id) in
      if decide (port = []) then collect_peers resolve nodes ports ids a else
      leader ← idx nodes 0;
      if decide (NodeID_String id = NodeID_String leader) then collect_peers resolve nodes ports ids a else
      ip ← resolve id;
      collect_peers resolve nodes ports ids (add_peer ip port (NodeID_String id) a)
  end.

(** The case [GetPeersInfo]: the answer, if any, and the service; a failing
    [ResolveTCPAddr] returns without unlocking. *)
Definition handle_GetPeersInfo (resolve : NodeID -> outcome bytes) (visited : list NodeID)
  (from : NodeID) (LocalPort : bytes) (sm : Storeman) : run (outcome (option StrmanAllPeers) * Storeman) :=
  if peerMu sm then block else
  let sm := with_port (<[from := LocalPort]> (peersPort sm)) (with_lock true sm) in
  match collect_peers resolve (cfg_StoremanNodes (cfg sm)) (peersPort sm) visited {| ap_Ip := []; ap_Port := []; ap_Nodeid := [] |} with
  | Ret allp => ret (Ret (if decide (ap_Port allp = []) then None else Some allp), with_lock false sm)
  | Err e => ret (Err e, sm)
  | Panic => lift Panic
  end.

(** The case [AllPeersInfo]: the nodes passed to [AddPeer] before the loop ends or
    fails.  Both other lists are indexed up to the length of the list of ports. *)
Definition peer_url (sm : Storeman) (allp : StrmanAllPeers) (i : nat) : outcome (option bytes) :=
  id ← idx (ap_Nodeid allp) i;
  srv ← of_option (server sm);
  if decide (id = NodeID_String (srv_Self srv)) then Ret None else
  leader ← idx (cfg_StoremanNodes (cfg sm)) 0;
  if decide (id = NodeID_String leader) then Ret None else
  ip ← idx (ap_Ip allp) i;
  port ← idx (ap_Port allp) i;
  Ret (Some (String.list_byte_of_string "enode://" ++ id ++ String.list_byte_of_string "@" ++ ip
             ++ String.list_byte_of_string ":" ++ port)).

Fixpoint add_all (ParseNode : bytes -> outcome NodeID) (sm : Storeman) (i cnt : nat)
  (allp : StrmanAllPeers) : outcome unit * list NodeID :=
  match cnt with
  | O => (Ret tt, [])
  | S cnt' =>
      match peer_url sm allp i with
      | Ret None => add_all ParseNode sm (S i) cnt' allp
      | Ret (Some url) =>
          match ParseNode url with
          | Ret nd => let '(o, nds) := add_all ParseNode sm (S i) cnt' allp in (o, nd :: nds)
          | Err e => (Err e, [])
          | Panic => (Panic, [])
          end
      | Err e => (Err e, [])
      | Panic => (Panic, [])
      end
  end.

Definition handle_AllPeersInfo (ParseNode : bytes -> outcome NodeID) (allp : StrmanAllPeers) (sm : Storeman)
  : outcome unit * list NodeID :=
  add_all ParseNode sm 0 (length (ap_Port allp)) allp.

Definition MaxMessageSize : Z := 1024 * 1024.

(** Every other message goes to the distributor unless it is too large; its
    errors are only logged. *)
Definition handle_default (from : NodeID) (size code : Z) (payload : outcome MpcMessage) : option task :=
  if decide (MaxMessageSize < size) then None else
  match GetMessage from code payload with
  | Ret t => t
  | _ => None
  end.

(** ** The remote interface *)

Section API.
Context {C : EllipticCurve} {H : Hashes} {R : MapRange} {K : KeyCrypto} (vars : ProtocolVars) (sp : StoreParams).

(** [storemanPeers] contains this node too; the check adds one more. *)
Definition too_few (sm : Storeman) : bool :=
  Z.of_nat (size (storemanPeers sm)) + 1 <? MpcSchnrThr vars.

Definition with_dist (d : MpcDistributor) (sm : Storeman) : Storeman :=
  {| peers := peers sm; storemanPeers := storemanPeers sm; peerMu := peerMu sm; mpcDistributor := d;
     cfg := cfg sm; server := server sm; peersPort := peersPort sm |}.

Definition CreateGPK (fuel : nat) (scs : list Script) (ent : Entropy) (sm : Storeman) : run (bytes * Storeman) :=
  if too_few sm then lift (Err ErrTooLessStoreman) else
  '(gpk, d) ← CreateRequestGPK vars sp fuel scs ent (mpcDistributor sm);
  ret (gpk, with_dist d sm).

(** [SignedResult{R: signed[0:65], S: signed[65:]}]. *)
Definition split_signed (signed : bytes) : outcome SignedResult :=
  r ← slice signed 0 65;
  s ← slice signed 65 (length signed);
  Ret {| sr_R := r; sr_S := s |}.

Definition sign_api (byApprove : Z) (data : SendData) (fuel : nat) (scs : list Script) (ent : Entropy)
  (sm : Storeman) : run (SignedResult * Storeman) :=
  if too_few sm then lift (Err ErrTooLessStoreman) else
  '(signed, d) ← CreateReqMpcSign vars sp (sd_Data data) (sd_Extern data) (sd_PKBytes data) byApprove
                   fuel scs ent (mpcDistributor sm);
  result ← lift (split_signed signed);
  ret (result, with_dist d sm).

Definition SignDataByApprove := sign_api 1.
Definition SignData := sign_api 0.

End API.

(** ** Lemmas *)

(** Peers and connections belong to the group. *)
Definition net_inv (group : gset NodeID) (n : Net) : Prop :=
  storemanPeers (net_sm n) = group /\
  (forall id, is_Some (peers (net_sm n) !! id) -> id ∈ group) /\
  map_Forall (fun _ c => c.1 ∈ group) (net_conns n).

Lemma net_step_inv group n n' : net_inv group n -> net_step n n' -> net_inv group n'.
Proof.
  intros (Hs & Hp & Hc) Hstep. destruct Hstep as
    [sm sm' conns conn peer Hf Hl Ha|sm conns conn peer r s Hcn Hh
    |sm conns conn peer r s e Hcn Hh|sm conns conn peer Hcn Hl]; cbn in Hs, Hp, Hc; unfold net_inv; cbn.
  - unfold HandlePeer_accept in Ha. case_decide as Hin; [|done]. simplify_eq. cbn. split_and!; [done| |].
    + intros id [c [[<- <-]|[_ E]]%lookup_insert_Some]; [done|by apply Hp].
    + by apply map_Forall_insert_2.
  - split_and!; try done. apply map_Forall_insert_2; [|done]. by apply (Hc conn (peer, Handshaking)).
  - split_and!; try done. by apply map_Forall_delete.
  - split_and!; [done| |by apply map_Forall_delete].
    intros id [c [_ E]%lookup_delete_Some]. by apply Hp.
Qed.

Lemma idx_cases {A} (l : list A) i : idx l i = Panic \/ exists x, l !! i = Some x /\ idx l i = Ret x.
Proof. unfold idx. destruct (l !! i); eauto. Qed.

Lemma peer_url_no_error sm allp i e : peer_url sm allp i <> Err e.
Proof.
  unfold peer_url. intros E.
  destruct (idx_cases (ap_Nodeid allp) i) as [H1|(id & _ & H1)]; rewrite H1 in E; [done|].
  cbn [mbind outcome_bind] in E. destruct (server sm) as [srv|]; [|done]. cbn [of_option mbind outcome_bind] in E.
  case_decide; [done|].
  destruct (idx_cases (cfg_StoremanNodes (cfg sm)) 0) as [H2|(l & _ & H2)]; rewrite H2 in E; [done|].
  cbn [mbind outcome_bind] in E. case_decide; [done|].
  destruct (idx_cases (ap_Ip allp) i) as [H3|(ip & _ & H3)]; rewrite H3 in E; [done|]. cbn [mbind outcome_bind] in E.
  destruct (idx_cases (ap_Port allp) i) as [H4|(po & _ & H4)]; by rewrite H4 in E.
Qed.

Lemma add_all_short ParseNode sm allp : forall cnt i,
  (i <= length (ap_Nodeid allp) < i + cnt)%nat -> (forall b, exists nd, ParseNode b = Ret nd) ->
  (add_all ParseNode sm i cnt allp).1 = Panic.
Proof.
  induction cnt as [|cnt IH]; intros i Hi Hpn; cbn [add_all]; [lia|].
  destruct (decide (i = length (ap_Nodeid allp))) as [->|Hne].
  - unfold peer_url. rewrite (idx_Panic (ap_Nodeid allp)) by lia. done.
  - pose proof (IH (S i) ltac:(lia) Hpn) as Hrec.
    destruct (peer_url sm allp i) as [[url|]|e|] eqn:E; [|exact Hrec| |done].
    + destruct (Hpn url) as [nd ->]. destruct (add_all ParseNode sm (S i) cnt allp). exact Hrec.
    + by apply peer_url_no_error in E.
Qed.

(** The loop over the peers fails only where an address does not resolve. *)
Lemma collect_peers_cases resolve nodes ports visited a : nodes <> [] -> (forall id, resolve id <> Panic) ->
  collect_peers resolve nodes ports visited a <> Panic /\
  forall e, collect_peers resolve nodes ports visited a = Err e -> exists id, id ∈ visited /\ resolve id = Err e.
Proof.
  intros Hn Hr. revert a. induction visited as [|id ids IH]; intros a; cbn [collect_peers]; [done|].
  assert (forall a', collect_peers resolve nodes ports ids a' <> Panic /\
    forall e, collect_peers resolve nodes ports ids a' = Err e -> exists id', id' ∈ id :: ids /\ resolve id' = Err e) as IH'.
  { intros a'. destruct (IH a') as [H1 H2]. split; [done|]. intros e (id' & Hin & E)%H2. exists id'. split; [by right|done]. }
  case_decide; [done|]. destruct nodes as [|leader nodes]; [done|]. cbn [idx lookup list_lookup mbind outcome_bind].
  case_decide; [done|]. specialize (Hr id). destruct (resolve id) as [ip|e|] eqn:E; [apply IH'| |done].
  split; [done|]. intros e' [= <-]. exists id. split; [by left|done].
Qed.

(** The loop over the ports panics only where one of the other lists is shorter. *)
Lemma add_all_panics ParseNode sm allp cnt i : is_Some (server sm) -> cfg_StoremanNodes (cfg sm) <> [] ->
  (forall b, ParseNode b <> Panic) -> (i + cnt <= length (ap_Port allp))%nat -> (add_all ParseNode sm i cnt allp).1 = Panic ->
  (length (ap_Nodeid allp) < i + cnt)%nat \/ (length (ap_Ip allp) < i + cnt)%nat.
Proof.
  intros [srv Hs] Hn Hp. revert i. induction cnt as [|cnt IH]; intros i Hi; cbn [add_all]; [done|]. intros E.
  destruct (decide (length (ap_Nodeid allp) <= i)%nat); [lia|]. destruct (decide (length (ap_Ip allp) <= i)%nat); [lia|].
  assert (exists o, peer_url sm allp i = Ret o) as [o Eo].
  { unfold peer_url. destruct (lookup_lt_is_Some_2 (ap_Nodeid allp) i ltac:(lia)) as [id Hid].
    destruct (lookup_lt_is_Some_2 (ap_Ip allp) i ltac:(lia)) as [ip Hip].
    destruct (lookup_lt_is_Some_2 (ap_Port allp) i ltac:(lia)) as [po Hpo].
    destruct (cfg_StoremanNodes (cfg sm)) as [|leader nodes]; [done|].
    rewrite (idx_Some _ _ _ Hid), Hs. cbn [mbind outcome_bind of_option]. case_decide; [by eexists|].
    cbn [idx lookup list_lookup mbind outcome_bind]. case_decide; [by eexists|].
    rewrite (idx_Some _ _ _ Hip), (idx_Some _ _ _ Hpo). by eexists. }
  rewrite Eo in E. destruct o as [url|]; [|apply IH in E; lia].
  specialize (Hp url). destruct (ParseNode url) as [nd|e|]; [|done..].
  specialize (IH (S i) ltac:(lia)). destruct (add_all ParseNode sm (S i) cnt allp) as [o nds]. apply IH in E. lia.
Qed.

Lemma length_point_bytes {C : EllipticCurve} {G : CurveGroup C} r :
  Params_BitSize = 256 -> length (point_bytes r) = 65%nat.
Proof.
  intros HB. pose proof (byteLen_eq BitSize_nonneg) as Hl. rewrite HB in Hl. change ((256 + 7) / 8) with 32 in Hl.
  unfold point_bytes. cbn. rewrite length_app, !length_be_fix. lia.
Qed.

(** ** Properties of the manifest *)

(** C26: only nodes of the group are connected.  In every state the service can
    reach from its start, a peer it would send to and a peer it reads messages from
    are nodes of the configured group; a peer outside it is refused. *)
Theorem only_group_connects (sm : Storeman) (srv : Server) (n : Net) :
  let sm0 := Start srv (with_peers_map ∅ sm) in
  rtc net_step {| net_sm := sm0; net_conns := ∅ |} n ->
  (forall id, is_Some (peers (net_sm n) !! id) -> id ∈ srv_StoremanNodes srv) /\
  (forall conn id st, net_conns n !! conn = Some (id, st) -> id ∈ srv_StoremanNodes srv) /\
  (forall id conn, id ∉ srv_StoremanNodes srv -> HandlePeer_accept id conn (net_sm n) = None).
Proof.
  intros sm0 Hr. assert (net_inv (list_to_set (srv_StoremanNodes srv)) n) as (Hs & Hp & Hc).
  { remember {| net_sm := sm0; net_conns := ∅ |} as n0 eqn:E0.
    assert (net_inv (list_to_set (srv_StoremanNodes srv)) n0) as H0.
    { subst n0. split_and!; [done| |apply map_Forall_empty]. by intros id [c Hc]. }
    clear E0. induction Hr as [|n1 n2 n3 Hstep _ IH]; [done|]. apply IH. by eapply net_step_inv. }
  split_and!.
  - intros id Hid. apply Hp in Hid. set_solver.
  - intros conn id st E. apply Hc in E. cbn in E. set_solver.
  - intros id conn Hid. unfold HandlePeer_accept. rewrite decide_False; [done|]. rewrite Hs. set_solver.
Qed.

(** A failed handshake leaves the peer active.  After a peer of the group connects
    and fails its handshake the connection is gone, but the service still counts the
    peer as active and would send to the dead connection. *)
Theorem failed_handshake_stays_active (sm : Storeman) (conns : gmap nat (NodeID * conn_state))
  (conn : nat) (peer : NodeID) (r : status_read) (s : status_send) (e : error) :
  conns !! conn = None -> peerMu sm = false -> peer ∈ storemanPeers sm -> handshake r s = Err e ->
  exists n, rtc net_step {| net_sm := sm; net_conns := conns |} n /\ net_conns n = conns /\
    IsActivePeer peer (net_sm n) = ret true /\ SendToPeer peer (net_sm n) = ret (Some conn).
Proof.
  intros Hc Hl Hp Hh. set (sm' := with_peers_map (<[peer := conn]> (peers sm)) sm).
  exists {| net_sm := sm'; net_conns := delete conn (<[conn := (peer, Handshaking)]> conns) |}. split_and!.
  - eapply rtc_l; [|eapply rtc_once].
    + eapply (NetAccept sm sm'); [done|done|]. unfold HandlePeer_accept. by rewrite decide_True.
    + eapply NetRefuse; [apply lookup_insert_eq|exact Hh].
  - cbn. by rewrite delete_insert_id.
  - unfold IsActivePeer. cbn. rewrite Hl, lookup_insert_eq. done.
  - unfold SendToPeer. cbn. by rewrite Hl, lookup_insert_eq.
Qed.

(** An unresolvable peer blocks the service.  When the address of a visited peer
    does not resolve, the handler of [GetPeersInfo] returns with the mutex held, and
    from then on sending, testing a peer and the handler itself block for ever. *)
Theorem unresolved_peer_locks (resolve : NodeID -> outcome bytes) (visited ids : list NodeID)
  (from id leader : NodeID) (port e : bytes) (err : error) (sm : Storeman) :
  peerMu sm = false -> visited = id :: ids -> id <> from ->
  peersPort sm !! id = Some port -> port <> [] ->
  cfg_StoremanNodes (cfg sm) !! 0%nat = Some leader -> NodeID_String id <> NodeID_String leader ->
  resolve id = Err err ->
  exists sm', handle_GetPeersInfo resolve visited from e sm = ret (Err err, sm') /\
    (forall p, SendToPeer p sm' = block) /\ (forall p, IsActivePeer p sm' = block) /\
    (forall resolve' visited' from' e', handle_GetPeersInfo resolve' visited' from' e' sm' = block).
Proof.
  intros Hl -> Hne Hp Hport Hlead Hnl Hr. unfold handle_GetPeersInfo. rewrite Hl.
  cbn [collect_peers peersPort with_port cfg]. rewrite lookup_insert_ne, Hp by done. cbn [default].
  rewrite decide_False by done. change (cfg (with_lock true sm)) with (cfg sm).
  rewrite (idx_Some _ _ _ Hlead). cbn [mbind outcome_bind].
  rewrite decide_False, Hr by done. by eexists.
Qed.

(** A list of peers with fewer identifiers than ports stops the node: the handler
    of [AllPeersInfo] panics, whoever sends it. *)
Theorem short_peer_list_panics (ParseNode : bytes -> outcome NodeID) (allp : StrmanAllPeers) (sm : Storeman) :
  (length (ap_Nodeid allp) < length (ap_Port allp))%nat -> (forall b, exists nd, ParseNode b = Ret nd) ->
  (handle_AllPeersInfo ParseNode allp sm).1 = Panic.
Proof. intros Hl Hp. apply add_all_short; [lia|done]. Qed.

(** The configuration is consistent.  A service is created exactly when the
    threshold is at most the number of nodes, and then the degree of the polynomials is
    the threshold minus one, as the rounds assume for a positive threshold. *)
Theorem New_vars_ok (c : Config) (am : list (Address * encryptedKeyJSONV3)) (a s r : string) :
  (SchnorrThreshold c <= SchnorrTotalNodes c <-> is_Some (New c am a s r)) /\
  (1 <= SchnorrThreshold c -> forall vars sm, New c am a s r = Some (vars, sm) -> vars_ok vars).
Proof.
  unfold New. split.
  - case_decide as Hd; cbn in Hd; (split; [intros Hle|intros Hso]); try done; try lia.
  - intros H1 vars sm E. case_decide; simplify_eq. by split.
Qed.

(** The parts of a signature.  For the result [R ++ s] of a signing context the
    remote interface returns the 65 bytes of [R], which decode to its point, and the
    bytes of [s], which are read back as [s]; a result shorter than 65 bytes panics. *)
Theorem split_signed_correct {C : EllipticCurve} {G : CurveGroup C} (r s : Z) :
  Params_BitSize = 256 -> r mod Params_N <> 0 -> 0 <= s ->
  split_signed (point_bytes r ++ Bytes s) = Ret {| sr_R := point_bytes r; sr_S := Bytes s |} /\
  ToECDSAPub (point_bytes r) = Some (Some (mulG r)) /\ SetBytes (Bytes s) = s /\
  (forall signed, (length signed < 65)%nat -> split_signed signed = Panic).
Proof.
  intros HB Hr Hs. pose proof (length_point_bytes r HB) as Hl. split_and!.
  - unfold split_signed. rewrite !slice_Ret by (rewrite length_app; lia). cbn [mbind outcome_bind].
    rewrite drop_0, Nat.sub_0_r, take_app_length', drop_app_length' by (by rewrite Hl).
    rewrite take_ge; [done|]. rewrite length_app, Hl. lia.
  - by apply ToECDSAPub_point_bytes.
  - by apply SetBytes_Bytes.
  - intros signed Hsh. unfold split_signed.
    replace (slice signed 0 65) with (Panic : outcome bytes); [done|].
    unfold slice. rewrite decide_False; [done|lia].
Qed.

(** *** Witnesses *)

#[local] Existing Instances smallC small_group.

Definition toy_cfg : Config :=
  {| cfg_StoremanNodes := toy_ids; cfg_Password := []; SchnorrThreshold := 2; SchnorrTotalNodes := 3 |}.

Definition toy_server : Server := {| srv_Self := [Byte.x01]; srv_StoremanNodes := toy_ids |}.

Definition toy_sm : Storeman :=
  {| peers := ∅; storemanPeers := list_to_set toy_ids; peerMu := false; mpcDistributor := toy_dist toy_ids;
     cfg := toy_cfg; server := Some toy_server; peersPort := {[ [Byte.x03] := [Byte.x39] ]} |}.

(** Node 2 is connected; node 9 is not in the group. *)
Lemma only_group_connects_witness :
  exists n, peers (net_sm n) !! [Byte.x02] = Some 5%nat /\ HandlePeer_accept [Byte.x09] 6 (net_sm n) = None.
Proof.
  set (sm0 := Start toy_server (with_peers_map ∅ toy_sm)).
  set (sm1 := with_peers_map {[ [Byte.x02] := 5%nat ]} sm0).
  exists {| net_sm := sm1; net_conns := {[ 5%nat := ([Byte.x02], Handshaking) ]} |}. split; [reflexivity|].
  apply (only_group_connects toy_sm toy_server).
  - apply rtc_once. apply NetAccept; [reflexivity|reflexivity|]. vm_compute. reflexivity.
  - set_solver.
Defined.

Lemma failed_handshake_stays_active_witness :
  exists n, rtc net_step {| net_sm := toy_sm; net_conns := ∅ |} n /\ net_conns n = ∅ /\
    IsActivePeer [Byte.x02] (net_sm n) = ret true /\ SendToPeer [Byte.x02] (net_sm n) = ret (Some 5%nat).
Proof.
  apply (failed_handshake_stays_active toy_sm ∅ 5 [Byte.x02] (ReadPacket StatusCode (Ret 9)) SendOk ErrHandshake).
  - reflexivity.
  - reflexivity.
  - apply (bool_decide_unpack _). reflexivity.
  - reflexivity.
Defined.

Lemma unresolved_peer_locks_witness :
  exists sm', handle_GetPeersInfo (fun _ => Err "lookup") [[Byte.x03]; [Byte.x02]] [Byte.x02] [Byte.x38] toy_sm
              = ret (Err "lookup"%string, sm') /\
    (forall p, SendToPeer p sm' = block) /\ (forall p, IsActivePeer p sm' = block) /\
    (forall resolve' visited' from' e', handle_GetPeersInfo resolve' visited' from' e' sm' = block).
Proof.
  apply (unresolved_peer_locks (fun _ => Err "lookup"%string) [[Byte.x03]; [Byte.x02]] [[Byte.x02]] [Byte.x02] [Byte.x03]
    [Byte.x01] [Byte.x39]); done.
Defined.

Lemma short_peer_list_panics_witness :
  (handle_AllPeersInfo (fun b => Ret b)
     {| ap_Ip := []; ap_Port := [[Byte.x39]]; ap_Nodeid := [] |} toy_sm).1 = Panic.
Proof. apply short_peer_list_panics; [cbn; lia|by eexists]. Defined.

Lemma New_vars_ok_witness :
  exists vars sm, New toy_cfg [] EmptyString EmptyString EmptyString = Some (vars, sm) /\ vars_ok vars.
Proof.
  do 2 eexists. split; [reflexivity|].
  eapply (proj2 (New_vars_ok toy_cfg [] EmptyString EmptyString EmptyString)); [cbn; lia|reflexivity].
Defined.

Lemma split_signed_correct_witness :
  split_signed (point_bytes 14 ++ Bytes 23) = Ret {| sr_R := point_bytes 14; sr_S := Bytes 23 |}.
Proof. apply split_signed_correct; [reflexivity|by vm_compute|lia]. Defined.
