(* ===== verification/Wire.v ===== *)
(** * Storeman messages on the wire

    How [src/storeman] uses the transport: [p2p.Send] on a protocol of a connection, the RLP form of the
    messages, and an iteration of [Storeman.runMessageLoop] on a received packet.  The theorems compose the
    handshake, the frames, the routing of codes, the RLP codec and the distributor. *)

From S2P Require Import Prelude BigInt Keccak Sha3 Rlp RlpStream RlpProofs RlpRoundTrip RlpEnds RlpTyping StdCrypto Curve Secp256k1 Ecies Signature Rlpx Handshake Peer Setup Protocol Instances Context Distributor Storeman.

(** ** The RLP form of the messages *)

Definition public_field (t : typ) : field typ := mk_field true "" t.

Definition MpcMessage_typ : typ :=
  TStruct (public_field <$> [TUint 64; TUint 64; TSlice (TUint 8); TSlice TBig; TSlice (TSlice (TUint 8))]).

Definition MpcMessage_val (m : MpcMessage) : val :=
  VStruct [VUint (mm_ContextID m); VUint (mm_StepID m); VBytes (mm_Peers m);
           VSeq (VBig <$> mm_Data m); VSeq (VBytes <$> mm_BytesData m)].

Definition big_of (v : val) : option Z := match v with VBig z => Some z | _ => None end.
Definition bytes_of (v : val) : option bytes := match v with VBytes b => Some b | _ => None end.
Definition string_of (v : val) : option bytes := match v with VString b => Some b | _ => None end.

Definition MpcMessage_of (v : val) : option MpcMessage :=
  match v with
  | VStruct [VUint c; VUint s; VBytes p; VSeq d; VSeq b] =>
      d ← mapM big_of d; b ← mapM bytes_of b; Some (Build_MpcMessage c s p d b)
  | _ => None
  end.

Definition StrmanGetPeers_typ : typ := TStruct [public_field TString].
Definition StrmanGetPeers_val (LocalPort : bytes) : val := VStruct [VString LocalPort].
Definition StrmanGetPeers_of (v : val) : option bytes :=
  match v with VStruct [VString p] => Some p | _ => None end.

Definition StrmanAllPeers_typ : typ :=
  TStruct (public_field <$> [TSlice TString; TSlice TString; TSlice TString]).
Definition StrmanAllPeers_val (a : StrmanAllPeers) : val :=
  VStruct [VSeq (VString <$> ap_Ip a); VSeq (VString <$> ap_Port a); VSeq (VString <$> ap_Nodeid a)].
Definition StrmanAllPeers_of (v : val) : option StrmanAllPeers :=
  match v with
  | VStruct [VSeq i; VSeq p; VSeq n] =>
      i ← mapM string_of i; p ← mapM string_of p; n ← mapM string_of n; Some (Build_StrmanAllPeers i p n)
  | _ => None
  end.

(** The fields of the keepalive messages are not exported. *)
Definition private_field (t : typ) : field typ := mk_field false "" t.
Definition StrmanKeepAlive_typ : typ :=
  TStruct (private_field <$> [TOther; TOther; TArray 64 (TUint 8)]).
Definition StrmanKeepAliveOk_typ : typ := TStruct (private_field <$> [TOther; TOther; TOther]).

(** ** Sending and receiving *)

(** [p2p.Send] on a protocol: the message that goes to the connection. *)
Definition proto_Send (rw : protoRW) (msgcode : Z) (t : typ) (data : val) : outcome Msg :=
  '(size, r) ← EncodeToReader t data;
  payload ← reads r [size];
  protoRW_WriteMsg rw (mk_msg msgcode (u32 (Z.of_nat size)) payload).

(** What the storeman sends: pointers to messages of a computation, and its own structures. *)
Inductive sent :=
| SentMpc (code : Z) (m : MpcMessage)
| SentGetPeers (LocalPort : bytes)
| SentAllPeers (a : StrmanAllPeers).

Definition strm_Send (rw : protoRW) (x : sent) : outcome Msg :=
  match x with
  | SentMpc code m => proto_Send rw code (TPtr MpcMessage_typ) (VPtr (MpcMessage_val m))
  | SentGetPeers p => proto_Send rw GetPeersInfo StrmanGetPeers_typ (StrmanGetPeers_val p)
  | SentAllPeers a => proto_Send rw AllPeersInfo StrmanAllPeers_typ (StrmanAllPeers_val a)
  end.

(** [rlp.Decode(packet.Payload, &v)]; the payload is a slice reader. *)
Definition payload_Decode {A} (t : typ) (conv : val -> option A) (m : Msg) : outcome A :=
  match Stream_Decode t (NewStream (Payload m) true 0) with
  | (Ret v, _) => of_option (conv v)
  | (Err e, _) => Err e
  | (Panic, _) => Panic
  end.

(** What an iteration of [runMessageLoop] reads from a packet, up to the handler of its code. *)
Inductive dispatched :=
| GotGetPeers (LocalPort : bytes)
| GotAllPeers (a : StrmanAllPeers)
| GotTask (t : option task).

Definition read_packet (from : NodeID) (packet : Msg) : outcome dispatched :=
  if decide (Code packet = GetPeersInfo) then
    p ← payload_Decode StrmanGetPeers_typ StrmanGetPeers_of packet; Ret (GotGetPeers p)
  else if decide (Code packet = AllPeersInfo) then
    a ← payload_Decode StrmanAllPeers_typ StrmanAllPeers_of packet; Ret (GotAllPeers a)
  else Ret (GotTask (handle_default from (MsgSize packet) (Code packet)
                       (payload_Decode MpcMessage_typ MpcMessage_of packet))).

(** A message from the connection goes through [Peer.handle] to the loop of the protocol. *)
Definition receive (order : list (string * protoRW)) (from : NodeID) (w : Msg) : outcome (option dispatched) :=
  h ← handle order w;
  match h with
  | Deliver name rw m => if decide (name = PName) then d ← read_packet from (protoRW_ReadMsg rw m); Ret (Some d)
                         else Ret None
  | _ => Ret None
  end.

(** ** An iteration of the loop *)

(** What the code finds outside: the addresses of peers ([net.ResolveTCPAddr]), the order in which the iteration over
    [sm.peers] visits them, and the parser of node addresses. *)
Record environment := mk_env { ev_resolve : NodeID -> outcome bytes; ev_visited : list NodeID; ev_ParseNode : bytes -> outcome NodeID }.

(** What an iteration does besides: the list of peers it sends, the nodes it adds to the server, the task of the distributor. *)
Record iteration := mk_iteration { it_answer : option StrmanAllPeers; it_added : list NodeID; it_task : option task }.

(** The whole iteration; with an error the loop returns and the connection ends. *)
Definition runMessage (ev : environment) (from : NodeID) (packet : Msg) (sm : Storeman) : run (outcome unit * iteration * Storeman) :=
  d ← lift (match read_packet from packet with Ret d => Ret (Ret d) | Err e => Ret (Err e) | Panic => Panic end);
  match d with
  | Ret (GotGetPeers LocalPort) =>
      '(o, sm) ← handle_GetPeersInfo (ev_resolve ev) (ev_visited ev) from LocalPort sm;
      match o with
      | Ret answer => ret (Ret tt, mk_iteration answer [] None, sm)
      | Err e => ret (Err e, mk_iteration None [] None, sm)
      | Panic => lift Panic
      end
  | Ret (GotAllPeers allp) =>
      let '(o, added) := handle_AllPeersInfo (ev_ParseNode ev) allp sm in
      match o with
      | Panic => lift Panic
      | o => ret (o, mk_iteration None added None, sm)
      end
  | Ret (GotTask t) => ret (Ret tt, mk_iteration None [] t, sm)
  | Err e => ret (Err e, mk_iteration None [] None, sm)
  | Panic => lift Panic
  end.

(** A message from the connection, through [Peer.handle]. *)
Definition process (order : list (string * protoRW)) (ev : environment) (from : NodeID) (w : Msg) (sm : Storeman) :
    run (outcome unit * iteration * Storeman) :=
  h ← lift (handle order w);
  match h with
  | Deliver name rw m =>
      if decide (name = PName) then runMessage ev from (protoRW_ReadMsg rw m) sm
      else ret (Ret tt, mk_iteration None [] None, sm)
  | _ => ret (Ret tt, mk_iteration None [] None, sm)
  end.

(** ** What the receiver should see *)

Definition sent_code (x : sent) : Z :=
  match x with SentMpc code _ => code | SentGetPeers _ => GetPeersInfo | SentAllPeers _ => AllPeersInfo end.

Definition sent_typ (x : sent) : typ :=
  match x with
  | SentMpc _ _ => TPtr MpcMessage_typ
  | SentGetPeers _ => StrmanGetPeers_typ
  | SentAllPeers _ => StrmanAllPeers_typ
  end.

Definition sent_val (x : sent) : val :=
  match x with
  | SentMpc _ m => VPtr (MpcMessage_val m)
  | SentGetPeers p => StrmanGetPeers_val p
  | SentAllPeers a => StrmanAllPeers_val a
  end.

Definition expected (from : NodeID) (x : sent) : dispatched :=
  match x with
  | SentMpc code m =>
      GotTask (Some (if decide (code = MPCError) then TaskQuit m
                     else if decide (code = RequestMPC) then TaskCreate m else TaskMessage from m))
  | SentGetPeers p => GotGetPeers p
  | SentAllPeers a => GotAllPeers a
  end.

Definition mpc_message_ok (m : MpcMessage) : Prop :=
  0 <= mm_ContextID m < 2 ^ 64 /\ 0 <= mm_StepID m < 2 ^ 64 /\ Forall (fun z => 0 <= z) (mm_Data m).

(** The numbers are in range and the encoding respects [MaxMessageSize]. *)
Definition sent_ok (x : sent) : Prop :=
  match x with
  | SentMpc code m => (code = MPCError \/ code = RequestMPC \/ code = MPCMessage) /\ mpc_message_ok m
  | _ => True
  end /\
  exists b, rlp_encode (sent_val x) (sent_typ x) no_tags = Ret b /\ Z.of_nat (length b) <= MaxMessageSize.

(** ** The messages are encodable *)

Lemma encodable_all_fmap {A} (e : typ) (f : A -> val) l :
  Forall (fun a => encodable e no_tags (f a)) l -> encodable_all e (f <$> l).
Proof. induction 1; cbn; constructor; auto. Qed.

Lemma encodable_public fs vs :
  Forall2 (fun t v => encodable t no_tags v) fs vs -> encodable_fields (public_field <$> fs) vs.
Proof.
  induction 1 as [|t v fs vs Hv _ IH]; cbn [fmap list_fmap]; [constructor|].
  eapply (enc_fields_cons _ _ no_tags); [done| |done|exact Hv|exact IH].
  by destruct (public_field <$> fs).
Qed.

Lemma strings_encodable l : encodable (TSlice TString) no_tags (VSeq (VString <$> l)).
Proof.
  apply enc_slice; [done|done|]. apply encodable_all_fmap, Forall_true. intros. constructor.
Qed.

Lemma MpcMessage_encodable m : mpc_message_ok m -> encodable MpcMessage_typ no_tags (MpcMessage_val m).
Proof.
  intros (Hc & Hs & Hd). apply enc_struct, encodable_public.
  assert (Hu : forall z, 0 <= z < 2 ^ 64 -> encodable (TUint 64) no_tags (VUint z)).
  { intros z Hz. apply enc_uint; [lia|]. by change (256 ^ (64 / 8)) with (2 ^ 64). }
  repeat apply Forall2_cons_2; [by auto|by auto|by constructor|apply enc_slice..|constructor]; try done.
  - apply encodable_all_fmap. eapply Forall_impl; [exact Hd|]. intros z Hz. by constructor.
  - apply encodable_all_fmap, Forall_true. intros. by constructor.
Qed.

Lemma sent_encodable x : sent_ok x -> encodable (sent_typ x) no_tags (sent_val x).
Proof.
  intros [Hx _]. destruct x as [code m|p|a]; cbn [sent_typ sent_val].
  - apply enc_ptr; [done|]. apply MpcMessage_encodable, Hx.
  - apply enc_struct, (encodable_public [TString]). repeat constructor.
  - apply enc_struct, encodable_public. repeat apply Forall2_cons_2; auto using strings_encodable, Forall2_nil_2.
Qed.

Lemma MpcMessage_of_val m : MpcMessage_of (MpcMessage_val m) = Some m.
Proof. unfold MpcMessage_of, MpcMessage_val. rewrite !mapM_fmap_inv by done. by destruct m. Qed.

Lemma StrmanAllPeers_of_val a : StrmanAllPeers_of (StrmanAllPeers_val a) = Some a.
Proof. unfold StrmanAllPeers_of, StrmanAllPeers_val. rewrite !mapM_fmap_inv by done. by destruct a. Qed.

(** A payload that is the encoding of a value is decoded to it. *)
Lemma payload_Decode_encoded {A} t (conv : val -> option A) v a b code size :
  encodable t no_tags v -> genTypeInfo t = Ret tt -> rlp_encode v t no_tags = Ret b ->
  Z.of_nat (length b) <= maxAlloc -> conv v = Some a ->
  payload_Decode t conv (mk_msg code size b) = Ret a.
Proof.
  intros Hv Ht He Hl Ha. unfold payload_Decode. cbn [Payload].
  destruct (Stream_Decode_complete t v b [] true 0 Hv Ht He Hl) as (s' & E & _); [lia|].
  rewrite app_nil_r in E. by rewrite E, Ha.
Qed.

Lemma proto_Send_encodes rw code t v b :
  uints_ok v = true -> genTypeInfo t = Ret tt -> rlp_encode v t no_tags = Ret b ->
  Z.of_nat (length b) < 2 ^ 32 ->
  proto_Send rw code t v = protoRW_WriteMsg rw (mk_msg code (Z.of_nat (length b)) b).
Proof.
  intros Hu Ht Hv Hl. destruct (encoded_payload t v b) as (r & E & Hr & Hs); try done.
  unfold proto_Send. by rewrite E, Ret_bind, Hr, Ret_bind, Hs.
Qed.

Lemma strm_Send_eq rw x : strm_Send rw x = proto_Send rw (sent_code x) (sent_typ x) (sent_val x).
Proof. by destruct x. Qed.

(** The packet of a message is dispatched as expected. *)
Lemma read_packet_sent from x b :
  sent_ok x -> rlp_encode (sent_val x) (sent_typ x) no_tags = Ret b ->
  read_packet from (mk_msg (sent_code x) (Z.of_nat (length b)) b) = Ret (expected from x).
Proof.
  intros Hok Hb. pose proof (sent_encodable x Hok) as Hv.
  destruct Hok as [Hx (b' & Hb' & Hl)]. rewrite Hb in Hb'. injection Hb' as <-.
  unfold MaxMessageSize in Hl. unfold read_packet. cbn [Code MsgSize].
  destruct x as [code m|p|a]; cbn [sent_code sent_typ sent_val expected] in *.
  - assert (Hd : payload_Decode MpcMessage_typ MpcMessage_of (mk_msg code (Z.of_nat (length b)) b) = Ret m).
    { apply (payload_Decode_encoded _ _ (MpcMessage_val m)); auto using MpcMessage_of_val; [|lia].
      by inversion Hv. }
    rewrite Hd. unfold handle_default, MaxMessageSize. cbn [MsgSize Code].
    rewrite (decide_False (P := 1024 * 1024 < Z.of_nat (length b))) by lia.
    by destruct Hx as [[-> | [-> | ->]] _].
  - rewrite decide_True, (payload_Decode_encoded _ _ (StrmanGetPeers_val p) p); auto; lia.
  - rewrite decide_False, decide_True, (payload_Decode_encoded _ _ (StrmanAllPeers_val a) a);
      auto using StrmanAllPeers_of_val; lia.
Qed.

(** ** Any packet *)

Lemma mapM_shape {A} (g : val -> option A) e vs :
  (forall v, has_type v e = true -> is_Some (g v)) -> forallb (fun v => has_type v e) vs = true ->
  is_Some (mapM g vs).
Proof.
  intros Hg H. apply mapM_is_Some, Forall_forall. intros v Hv. apply Hg.
  rewrite forallb_forall in H. by apply H, list_elem_of_In.
Qed.

(** A decoded value has the shape of its type, so that the conversions succeed. *)
Lemma payload_Decode_safe {A} t (conv : val -> option A) m :
  canonical_typ t = true -> genTypeInfo t = Ret tt -> widths_ok t = true ->
  (forall v, has_type v t = true -> is_Some (conv v)) -> Z.of_nat (length (Payload m)) <= maxAlloc ->
  payload_Decode t conv m <> Panic /\ payload_Decode t conv m <> Err no_fuel.
Proof.
  intros Hc Ht Hw Hconv Hl. unfold payload_Decode.
  destruct (slice_Decode_ends t (Payload m) 0 Hc Ht) as [He1 He2]; [by left|done|].
  destruct (Stream_Decode t _) as [[v|e|] s'] eqn:E; cbn in *; [|split; congruence|done].
  unfold Stream_Decode in E. rewrite Ht in E.
  destruct (Hconv v) as [a ->]; [|done]. by eapply decode_typed.
Qed.

Lemma typed_struct v ts : has_type v (TStruct (public_field <$> ts)) = true ->
  exists vs, v = VStruct vs /\ Forall2 (fun v t => has_type v t = true) vs ts.
Proof.
  destruct v as [| | | | | | |vs| | |]; try done. cbn. intros H. exists vs. split; [done|].
  revert ts H. induction vs as [|v vs IH]; intros [|t ts]; try done.
  cbn. intros [H1 H2]%andb_prop. constructor; auto.
Qed.

Lemma typed_slice v e : isByte e = false -> has_type v (TSlice e) = true ->
  exists vs, v = VSeq vs /\ forallb (fun v => has_type v e) vs = true.
Proof. intros He. destruct v; try done; cbn; rewrite He; cbn; [done|eauto]. Qed.

Lemma typed_bytes v : has_type v (TSlice (TUint 8)) = true -> exists b, v = VBytes b.
Proof. destruct v; try done. eauto. Qed.

Lemma typed_uint64 v : has_type v (TUint 64) = true -> exists z, v = VUint z /\ 0 <= z < 2 ^ 64.
Proof. destruct v; try done. intros H. cbn in H. apply andb_prop in H as [H1%Z.leb_le H2%Z.ltb_lt]. eauto. Qed.

Lemma MpcMessage_shape v : has_type v MpcMessage_typ = true ->
  exists m, MpcMessage_of v = Some m /\ 0 <= mm_ContextID m < 2 ^ 64 /\ 0 <= mm_StepID m < 2 ^ 64.
Proof.
  intros (vs & -> & H)%typed_struct.
  repeat (apply Forall2_cons_inv_r in H as (? & ? & ? & H & ->)). apply Forall2_nil_inv_r in H as ->.
  repeat match goal with
  | H : has_type _ (TUint 64) = true |- _ => apply typed_uint64 in H as (? & -> & ?)
  | H : has_type _ (TSlice (TUint 8)) = true |- _ => apply typed_bytes in H as (? & ->)
  | H : has_type _ (TSlice _) = true |- _ => apply typed_slice in H as (? & -> & ?); [|done]
  end.
  unfold MpcMessage_of.
  match goal with
  | |- context [mapM big_of ?d ≫= fun _ => mapM bytes_of ?b ≫= _] =>
      destruct (mapM_shape big_of TBig d) as [d' ->]; [by intros []|done|];
      cbn [mbind option_bind];
      destruct (mapM_shape bytes_of (TSlice (TUint 8)) b) as [b' ->]; [by intros v (? & ->)%typed_bytes|done|]
  end.
  eexists. split; [done|]. done.
Qed.

Lemma StrmanGetPeers_shape v : has_type v StrmanGetPeers_typ = true -> is_Some (StrmanGetPeers_of v).
Proof.
  intros (vs & -> & H)%(typed_struct _ [TString]).
  apply Forall2_cons_inv_r in H as (x & vs' & Hx & H & ->). apply Forall2_nil_inv_r in H as ->.
  destruct x; try done.
Qed.

Lemma StrmanAllPeers_shape v : has_type v StrmanAllPeers_typ = true -> is_Some (StrmanAllPeers_of v).
Proof.
  intros (vs & -> & H)%typed_struct.
  repeat (apply Forall2_cons_inv_r in H as (? & ? & ? & H & ->)). apply Forall2_nil_inv_r in H as ->.
  repeat match goal with
  | H : has_type _ (TSlice _) = true |- _ => apply typed_slice in H as (? & -> & ?); [|done]
  end.
  unfold StrmanAllPeers_of.
  repeat match goal with
  | |- context [mapM string_of ?l] =>
      destruct (mapM_shape string_of TString l) as [? ->]; [by intros []|done|]; cbn [mbind option_bind]
  end. done.
Qed.

Lemma read_packet_safe from m : Z.of_nat (length (Payload m)) <= maxAlloc -> read_packet from m <> Panic /\ read_packet from m <> Err no_fuel.
Proof.
  intros Hl. unfold read_packet.
  destruct (payload_Decode_safe StrmanGetPeers_typ StrmanGetPeers_of m) as [G1 G2]; [done..|apply StrmanGetPeers_shape|done|].
  destruct (payload_Decode_safe StrmanAllPeers_typ StrmanAllPeers_of m) as [A1 A2]; [done..|apply StrmanAllPeers_shape|done|].
  case_decide; [by destruct (payload_Decode StrmanGetPeers_typ _ m); cbn; split; congruence|].
  case_decide; [by destruct (payload_Decode StrmanAllPeers_typ _ m); cbn; split; congruence|done].
Qed.

Definition task_message (t : task) : MpcMessage :=
  match t with TaskQuit m | TaskCreate m | TaskMessage _ m => m end.

(** A task comes from a decoded message, in its numeric ranges. *)
Lemma read_packet_task from m t : read_packet from m = Ret (GotTask (Some t)) ->
  MsgSize m <= MaxMessageSize /\ 0 <= mm_ContextID (task_message t) < 2 ^ 64 /\
  0 <= mm_StepID (task_message t) < 2 ^ 64.
Proof.
  unfold read_packet. case_decide; [by destruct (payload_Decode StrmanGetPeers_typ _ m)|].
  case_decide; [by destruct (payload_Decode StrmanAllPeers_typ _ m)|]. intros [= E].
  unfold handle_default in E. case_decide as Hsz; [done|]. split; [lia|].
  assert (Hm : payload_Decode MpcMessage_typ MpcMessage_of m = Ret (task_message t)).
  { unfold GetMessage in E. revert E.
    destruct (payload_Decode MpcMessage_typ _ m); repeat case_decide; cbn; try done; by intros [= <-]. }
  unfold payload_Decode, Stream_Decode in Hm. cbn [genTypeInfo] in Hm.
  change (genTypeInfo MpcMessage_typ) with (Ret tt : outcome unit) in Hm.
  destruct (decode _ MpcMessage_typ no_tags _) as [[v|e|] s'] eqn:Ed; [|done..].
  apply decode_typed in Ed; [|done]. destruct (MpcMessage_shape v Ed) as (m' & Em & Hr).
  rewrite Em in Hm. by injection Hm as <-.
Qed.

(** The service outside a handler: started, configured and with its mutex free; the parsers of the library do not panic. *)
Record serving (ev : environment) (sm : Storeman) : Prop := {
  sv_lock : peerMu sm = false;
  sv_server : is_Some (server sm);
  sv_nodes : cfg_StoremanNodes (cfg sm) <> [];
  sv_resolve : forall id, ev_resolve ev id <> Panic;
  sv_parse : forall b, ev_ParseNode ev b <> Panic
}.

(** The lists of a packet that stops the node. *)
Definition short_lists (a : StrmanAllPeers) : Prop :=
  (length (ap_Nodeid a) < length (ap_Port a))%nat \/ (length (ap_Ip a) < length (ap_Port a))%nat.

Lemma runMessage_cases ev from m sm : serving ev sm -> Z.of_nat (length (Payload m)) <= maxAlloc ->
  match runMessage ev from m sm with
  | None | Some (Err _) => False
  | Some Panic => exists a, read_packet from m = Ret (GotAllPeers a) /\ short_lists a
  | Some (Ret (_, it, sm')) =>
      (peerMu sm' = true -> exists id e, id ∈ ev_visited ev /\ ev_resolve ev id = Err e) /\
      peers sm' = peers sm /\ storemanPeers sm' = storemanPeers sm /\
      forall t, it_task it = Some t -> read_packet from m = Ret (GotTask (Some t))
  end.
Proof.
  intros Hs Hl. destruct (read_packet_safe from m Hl) as [Hp _]. unfold runMessage.
  destruct (read_packet from m) as [[port|a|t]|e|] eqn:E; cbn [lift mbind run_bind]; [| | | |done].
  - unfold handle_GetPeersInfo. rewrite (sv_lock _ _ Hs).
    change (cfg (with_port _ _)) with (cfg sm). cbn [peersPort with_port].
    match goal with |- context [collect_peers ?f ?n ?ps ?v ?a] =>
      destruct (collect_peers_cases f n ps v a (sv_nodes _ _ Hs) (sv_resolve _ _ Hs)) as [Hc1 Hc2];
      destruct (collect_peers f n ps v a) as [allp|e|] end; cbn [ret mbind run_bind]; [| |done].
    + done.
    + split; [|done]. intros _. destruct (Hc2 e eq_refl) as (id & Hin & Hr). eauto.
  - unfold handle_AllPeersInfo.
    pose proof (add_all_panics (ev_ParseNode ev) sm a (length (ap_Port a)) 0 (sv_server _ _ Hs) (sv_nodes _ _ Hs) (sv_parse _ _ Hs) ltac:(lia)) as Ha.
    destruct (add_all _ sm 0 _ a) as [[[]|e|] added]; cbn [ret lift fst] in *.
    + split; [by rewrite (sv_lock _ _ Hs)|done].
    + split; [by rewrite (sv_lock _ _ Hs)|done].
    + exists a. split; [done|]. by apply Ha.
  - cbn [ret]. split; [by rewrite (sv_lock _ _ Hs)|]. split; [done|]. split; [done|]. cbn. by intros t' ->.
  - cbn [ret]. split; [by rewrite (sv_lock _ _ Hs)|done].
Qed.


(** A list of one port without an identifier. *)
Definition toy_env : environment := mk_env (fun _ => Ret []) [] (fun _ => Ret []).
Definition toy_order : list (string * protoRW) := [("storeman", mk_protoRW (mk_proto PName PVer NumberOfMessageCodes) 144)].
Definition toy_list : Msg := mk_msg (144 + AllPeersInfo) 5 (u8 <$> [0xC4; 0xC0; 0xC1; 0x31; 0xC0]).


(** ** Delivery *)

Definition storeman_protocol : Peer.Protocol := mk_proto PName PVer NumberOfMessageCodes.

(** The protocols two nodes offer to each other. *)
Definition offers_agree (PA PB : list Peer.Protocol) : Prop :=
  NoDup (proto_cap <$> PA) /\ NoDup (proto_cap <$> PB) /\ lengths_agree PA PB /\ lengths_fit PB.

Lemma sent_code_range x : sent_ok x -> 13 <= sent_code x < NumberOfMessageCodes.
Proof. intros [Hx _]. destruct x as [code m|p|a]; cbn; [|done..]. destruct Hx as [[-> | [-> | ->]] _]; done. Qed.

(** One message: what is written to the connection, and what the other side makes of it. *)
Lemma strm_Send_receive PA PB rw order from x :
  offers_agree PA PB -> matchProtocols PA (proto_cap <$> PB) !! PName = Some rw ->
  rw_proto rw = storeman_protocol -> order ≡ₚ map_to_list (matchProtocols PB (proto_cap <$> PA)) ->
  sent_ok x ->
  exists w, strm_Send rw x = Ret w /\ receive order from w = Ret (Some (expected from x)) /\
    0 <= Code w < 2 ^ 64 /\ MsgSize w = Z.of_nat (length (Payload w)) /\ MsgSize w <= MaxMessageSize.
Proof.
  intros (HA & HB & Hag & Hfit) Hl Hproto Ho Hx. rewrite matchProtocols_agree in Hl by done.
  pose proof (sent_encodable x Hx) as Hv. pose proof (sent_code_range x Hx) as Hc.
  pose proof Hx as [_ (b & Hb & Hsz)].
  pose proof (proj1 (proj1 encodable_encodes _ _ _ Hv)) as Hu.
  assert (Ht : genTypeInfo (sent_typ x) = Ret tt) by (by destruct x).
  rewrite strm_Send_eq, (proto_Send_encodes _ _ _ _ b) by (done || (unfold MaxMessageSize in Hsz; lia)).
  destruct (matchProtocols_range _ _ _ _ Hfit Hl) as (_ & _ & _ & _ & Hoff & _ & Hend).
  set (m := mk_msg (sent_code x) (Z.of_nat (length b)) b).
  destruct (WriteMsg_ReadMsg _ _ _ _ m Hfit Hl) as [Hw Hr].
  { rewrite Hproto. cbn. lia. }
  unfold rw_end, baseProtocolLength in *. rewrite Hproto in Hend. cbn [pr_Length storeman_protocol] in Hend.
  eexists. split; [exact Hw|]. split; [|cbn; unfold NumberOfMessageCodes in *; repeat split; lia].
  unfold receive. erewrite handle_delivers; [|exact Hfit|exact Ho|exact Hl|..].
  - rewrite Ret_bind, decide_True by done. rewrite Hr. unfold m. by rewrite (read_packet_sent from x b).
  - unfold rw_end. rewrite Hproto. cbn. unfold NumberOfMessageCodes in *. lia.
  - unfold pingMsg. cbn. lia.
  - unfold discMsg. cbn. lia.
Qed.

Lemma mapM_out_strm PA PB rw order from msgs :
  offers_agree PA PB -> matchProtocols PA (proto_cap <$> PB) !! PName = Some rw ->
  rw_proto rw = storeman_protocol -> order ≡ₚ map_to_list (matchProtocols PB (proto_cap <$> PA)) ->
  Forall sent_ok msgs ->
  exists ws, mapM_out (strm_Send rw) msgs = Ret ws /\ length ws = length msgs /\
    mapM_out (receive order from) ws = Ret ((fun x => Some (expected from x)) <$> msgs) /\
    Forall (fun w => 0 <= Code w < 2 ^ 64 /\ MsgSize w = Z.of_nat (length (Payload w)) /\
                     MsgSize w <= MaxMessageSize) ws.
Proof.
  intros Hag Hl Hp Ho. induction 1 as [|x msgs Hx _ IH].
  - exists []. by repeat split.
  - destruct IH as (ws & E1 & E2 & E3 & HF).
    destruct (strm_Send_receive PA PB rw order from x Hag Hl Hp Ho Hx) as (w & Hs & Hr & Hw).
    exists (w :: ws). cbn [mapM_out length fmap list_fmap]. rewrite Hs, E1, Hr, E3.
    repeat split; [by rewrite E2|]. by constructor.
Qed.

Lemma Queues_sends ws acts q r :
  Queues.run ((SendFrom true <$> ws) ++ acts) (q, r) = replicate (length ws) None ++ Queues.run acts (q ++ ws, r).
Proof.
  revert q; induction ws as [|w ws IH]; intros q; cbn; [by rewrite app_nil_r|].
  rewrite IH. by rewrite <- app_assoc.
Qed.

Lemma Queues_receives q r : Queues.run (replicate (length q) (ReceiveAt false)) (q, r) = Some <$> q.
Proof. induction q as [|w q IH]; cbn; [done|]. by rewrite IH. Qed.

Lemma length_short_string b : (length b < 56)%nat -> (length (rlp_string b) <= S (length b))%nat.
Proof.
  intros Hb. assert (Hp : (length (puthead 0x80 0xB7 (Z.of_nat (length b)) ++ b) <= S (length b))%nat).
  { rewrite length_app, length_puthead by lia. unfold headsize. destruct (Z.ltb_spec (Z.of_nat (length b)) 56); lia. }
  unfold rlp_string. destruct b as [|x [|y b]]; [exact Hp| |exact Hp].
  destruct (ub x <=? 0x7F); [cbn; lia|exact Hp].
Qed.

Lemma length_wire_code w : 0 <= Code w < 2 ^ 64 -> (length (wire_code w) <= 9)%nat.
Proof.
  intros Hc. assert (Hl : (length (Bytes (Code w)) <= 8)%nat).
  { rewrite length_Bytes. apply byte_len_le. change (256 ^ Z.of_nat 8) with (2 ^ 64). lia. }
  unfold wire_code. pose proof (length_short_string (Bytes (Code w))). lia.
Qed.

Lemma storeman_sendable `{Snappy} `{!SnappyLaws} snappy w :
  0 <= Code w < 2 ^ 64 -> MsgSize w = Z.of_nat (length (Payload w)) -> MsgSize w <= MaxMessageSize ->
  sendable snappy w.
Proof.
  intros Hc Hs Hm. unfold MaxMessageSize in Hm. split; [done|]. split; [done|].
  split; [unfold maxUint24; lia|]. rewrite length_app. pose proof (length_wire_code w Hc) as Hcode.
  set (n := length (Payload w)) in *.
  assert (Hp : (length (wire_payload snappy w) <= 32 + n + n / 6)%nat).
  { unfold wire_payload. destruct snappy; [apply snappy_max|]. fold n. lia. }
  assert (Hd : (n / 6 <= n)%nat) by (apply Nat.Div0.div_le_upper_bound; lia). unfold maxUint24. lia.
Qed.

Section Delivery.
Context {C : EllipticCurve} {G : CurveGroup C} {S : SecpC} {L : SecpLaws C G S} `{HX : Xor} `{HS : Snappy}.
Hypothesis HB : Params_BitSize = 256.

(** C5: Messages between two storemen arrive: after the encryption handshake and the protocol handshake, which
    tell each side the identity and the protocols of the other, whatever the dialling side sends on the
    storeman protocol (requests, protocol messages and errors of a computation, the exchange of peers)
    goes over the encrypted connection and through the routing of codes, is decoded, and starts on the other
    side the task it stands for, in the order of sending, with the sender known by the key
    it proved in the handshake, whatever other protocols run. *)
Theorem storeman_delivery `{!SnappyLaws} (a b : Z) (ra rb : randomness) nameA nameB PA PB rw order msgs :
  key_ok a -> key_ok b -> random_ok ra -> random_ok rb ->
  phs_ok (ourHandshake nameA PA (id_of a)) -> phs_ok (ourHandshake nameB PB (id_of b)) ->
  offers_agree PA PB -> matchProtocols PA (proto_cap <$> PB) !! PName = Some rw ->
  rw_proto rw = storeman_protocol -> order ≡ₚ map_to_list (matchProtocols PB (proto_cap <$> PA)) ->
  Forall sent_ok msgs ->
  exists p1 p2 si sr one two hA hB c ws,
    initiatorEncHandshake (static_key a) (id_of b) ra p2 = Ret (p1, si, []) /\
    receiverEncHandshake (static_key b) rb p1 = Ret (p2, sr, []) /\
    newRLPXFrameRW si = Ret one /\ newRLPXFrameRW sr = Ret two /\
    proto_handshakes (ourHandshake nameA PA (id_of a)) (ourHandshake nameB PB (id_of b)) (mk_conn one two [] [])
      = Ret (hB, hA, c) /\
    check_identity (sc_RemoteID si) hB = inr (proto_cap <$> PB, nameB) /\
    check_identity (sc_RemoteID sr) hA = inr (proto_cap <$> PA, nameA) /\
    mapM_out (strm_Send rw) msgs = Ret ws /\
    conn_run ((SendFrom true <$> ws) ++ replicate (length ws) (ReceiveAt false)) c
      = Ret (replicate (length ws) None ++ (Some <$> ws)) /\
    sc_RemoteID sr = id_of a /\
    mapM_out (receive order (sc_RemoteID sr)) ws = Ret ((fun x => Some (expected (id_of a) x)) <$> msgs).
Proof.
  intros Ha Hb Hra Hrb HhA HhB Hag Hl Hp Ho Hms.
  destruct (handshake_runs HB a b ra rb Ha Hb Hra Hrb)
    as (p1 & p2 & si & sr & m1 & m2 & Hi & Hr & I1 & I2 & L1 & L2 & E1 & E2 & M1 & M2 & M3 & M4).
  destruct (mirrored_carries si sr m1 m2 L1 L2 E1 E2 M1 M2 M3 M4)
    as (one & two & block & N1 & N2 & Hbl & S1 & S2 & Hc).
  specialize (Hc false). rewrite S1, S2 in Hc.
  destruct (proto_handshakes_ok block _ _ _ Hbl Hc HhA HhB) as (c & Hps & Hc').
  destruct (mapM_out_strm PA PB rw order (id_of a) msgs Hag Hl Hp Ho Hms) as (ws & Hs & _ & Hrec & Hok).
  specialize (Hi []). specialize (Hr []). rewrite app_nil_r in Hi, Hr.
  exists p1, p2, si, sr, one, two, (inr (ourHandshake nameA PA (id_of a))), (inr (ourHandshake nameB PB (id_of b))), c, ws.
  split_and!; try done; [|..|by rewrite I2].
  - rewrite I1. unfold check_identity. by rewrite decide_True.
  - rewrite I2. unfold check_identity. by rewrite decide_True.
  - rewrite (conn_run_refines block true _ _ ([], []) Hbl); [by rewrite Queues_sends, Queues_receives| |done].
    apply Forall_app. split; [|by apply Forall_replicate].
    apply Forall_fmap. eapply Forall_impl; [exact Hok|]. intros w (Hcw & Hsz & Hm). by apply storeman_sendable.
Qed.

End Delivery.

(** The keepalive messages are empty lists: what the other side sees does not depend on their fields. *)
Lemma keepalive_is_empty vs :
  length vs = 3%nat ->
  rlp_encode (VStruct vs) StrmanKeepAlive_typ no_tags = Ret [Byte.xc0] /\
  rlp_encode (VStruct vs) StrmanKeepAliveOk_typ no_tags = Ret [Byte.xc0].
Proof. intros H. destruct vs as [|a [|b [|c []]]]; done. Qed.

(** ** A delivery on the small curve *)

Definition toy_message : MpcMessage := Build_MpcMessage 77 2 [] [5; 2 ^ 255] [[Byte.x01]; []].
Definition toy_sent : list sent :=
  [SentGetPeers (String.list_byte_of_string "30303"); SentMpc RequestMPC toy_message].

Lemma toy_sent_ok : Forall sent_ok toy_sent.
Proof.
  unfold toy_sent. repeat apply Forall_cons_2; [..|apply Forall_nil_2].
  - split; [done|]. eexists. split; [vm_compute; reflexivity|]. vm_compute. discriminate.
  - split; [|eexists; split; [vm_compute; reflexivity|]; vm_compute; discriminate].
    split; [auto|]. split; [cbn; lia|]. split; [cbn; lia|]. repeat apply Forall_cons_2; [lia|lia|apply Forall_nil_2].
Defined.

Lemma toy_offers_agree : offers_agree [storeman_protocol; shh6] [shh5; shh6; storeman_protocol].
Proof.
  split; [apply (bool_decide_unpack _); vm_compute; exact I|].
  split; [apply (bool_decide_unpack _); vm_compute; exact I|].
  split; [intros p q Hp Hq; unfold storeman_protocol, shh5, shh6 in *; set_solver|].
  split; [|vm_compute; reflexivity]. apply (Forall_forall _ [shh5; shh6; storeman_protocol]).
  intros p Hp. apply Z.leb_le. revert p Hp.
  apply Forall_forall, (bool_decide_unpack _). vm_compute. exact I.
Defined.

(** The conditions on a handshake as a computation. *)
Definition phs_okb (h : protoHandshake) : bool :=
  (snappyProtocolVersion <=? phs_Version h) && (phs_Version h <? 2 ^ 64) &&
  forallb (fun c => (0 <=? cap_Version c) && (cap_Version c <? 2 ^ 64)) (phs_Caps h) &&
  (0 <=? phs_ListenPort h) && (phs_ListenPort h <? 2 ^ 64) && (length (phs_ID h) =? 64)%nat &&
  bool_decide (phs_ID h <> replicate 64 Byte.x00) && bool_decide (phs_Rest h = []) &&
  match rlp_encode (protoHandshake_val h) protoHandshake_typ no_tags with
  | Ret b => Z.of_nat (length b) <=? baseProtocolMaxMsgSize
  | _ => false
  end.

Lemma toy_phs_ok name ps k : phs_okb (ourHandshake name ps (@id_of smallC small_group k)) = true ->
  phs_ok (ourHandshake name ps (@id_of smallC small_group k)).
Proof.
  set (h := ourHandshake _ _ _). unfold phs_okb, phs_ok. rewrite !andb_true_iff, !bool_decide_eq_true.
  intros [[[[[[[[H1 H2] H3] H4] H5] H6] H7] H8] H9].
  split; [lia|]. split.
  { apply Forall_forall. intros x Hx. rewrite forallb_forall in H3.
    specialize (H3 x (proj1 (list_elem_of_In _ _) Hx)). lia. }
  split; [lia|]. split; [by apply Nat.eqb_eq|]. split; [done|]. split; [done|].
  destruct (rlp_encode _ _ _) as [bs| |]; [|done..]. exists bs. split; [done|]. by apply Z.leb_le.
Defined.

Lemma storeman_delivery_witness : exists ws,
  mapM_out (strm_Send (mk_protoRW storeman_protocol 144)) toy_sent = Ret ws /\
  mapM_out (receive [("storeman", mk_protoRW storeman_protocol 144); ("shh", mk_protoRW shh6 16)]
              (@id_of smallC small_group 5)) ws
  = Ret [Some (GotGetPeers (String.list_byte_of_string "30303")); Some (GotTask (Some (TaskCreate toy_message)))].
Proof.
  destruct (@storeman_delivery smallC small_group toy_secp toy_secp_laws generic_xor toy_snappy eq_refl toy_snappy_laws
    5 6 (toy_random Byte.x07) (toy_random Byte.x09) "one" "two" [storeman_protocol; shh6] [shh5; shh6; storeman_protocol]
    (mk_protoRW storeman_protocol 144)
    [("storeman", mk_protoRW storeman_protocol 144); ("shh", mk_protoRW shh6 16)] toy_sent)
    as (p1 & p2 & si & sr & one & two & hA & hB & c & ws & _ & _ & _ & _ & _ & _ & _ & H1 & _ & Hid & H2).
  - split; reflexivity.
  - split; reflexivity.
  - apply toy_random_ok; split; reflexivity.
  - apply toy_random_ok; split; reflexivity.
  - exact (toy_phs_ok "one" [storeman_protocol; shh6] 5 eq_refl).
  - exact (toy_phs_ok "two" [shh5; shh6; storeman_protocol] 6 eq_refl).
  - exact toy_offers_agree.
  - vm_compute. reflexivity.
  - reflexivity.
  - vm_compute. reflexivity.
  - exact toy_sent_ok.
  - exists ws. split; [exact H1|]. rewrite <- Hid. exact H2.
Defined.
