(* ===== verification/KeyGen.v ===== *)
(** * Creation of a group key

    The steps 2 to 4 of a context that creates a group key
    ([src/storeman/storemanmpc/mpc_create_gpk.go]): dealing shares, interpolating
    the public key and storing the account, and comparing the keys of all nodes.
    The rounds are proved against the interface [StoremanManager] of the steps,
    and then for the distributor that implements it. *)

From S2P Require Import Prelude BigInt Curve Secp256k1 Schnorr Protocol Generators Instances Hexutil BaseStep Steps Context Signing Keystore Validator Distributor.

Section KeyGen.
Context {C : EllipticCurve} {G : CurveGroup C} {H : Hashes} {R : MapRange} {W : Type} {M : StoremanManager W}
  (vars : ProtocolVars).
#[local] Abbreviation N := Params_N.

(** The steps at one node, for the messages each of them receives. *)
Definition gpk_round2 (peers : list PeerInfo) (msgs : list StepMessage) (res : BaseMpcResult)
  : outcome BaseMpcResult :=
  '(_, sk) ← CreateMpcSKShareStep (MPCDegree vars) peers;
  '(_, sk) ← handle_list (MpcSKShareStep_HandleMessage peers) msgs sk;
  '(res, _) ← MpcSKShareStep_finish res sk;
  Ret res.

Definition gpk_round3 (peers : list PeerInfo) (msgs : list StepMessage) (res : BaseMpcResult) (w : W)
  : outcome (list StepMessage * BaseMpcResult * W) :=
  gpk ← MpcPointStep_InitStep res (CreateMpcGPKStep peers).2;
  out ← MpcPointStep_CreateMessage gpk;
  '(_, gpk) ← handle_list (MpcPointStep_HandleMessage peers) msgs gpk;
  '(res, w, _) ← MpcGPKStep_finish vars EmptyString peers res w gpk;
  Ret (out, res, w).

Definition gpk_round4 (peers : list PeerInfo) (msgs : list StepMessage) (res : BaseMpcResult)
  : outcome (list StepMessage) :=
  ack ← AckMpcGPKStep_InitStep res (CreateAckMpcGPKStep peers).2;
  let out := AckMpcGPKStep_CreateMessage ack in
  '(_, ack) ← handle_list AckMpcGPKStep_HandleMessage msgs ack;
  _ ← AckMpcGPKStep_finish peers ack;
  Ret out.

Definition gpk_rounds (peers : list PeerInfo) (m2 m3 m4 : list StepMessage) (res : BaseMpcResult) (w : W)
  : outcome (list StepMessage * BaseMpcResult * W) :=
  res ← gpk_round2 peers m2 res;
  '(out3, res, w) ← gpk_round3 peers m3 res w;
  out4 ← gpk_round4 peers m4 res;
  Ret (out3 ++ out4, res, w).

(** What the manager promises for the group key [g]. *)
Definition stores (g share : Z) (peers : list PeerInfo) (w w' : W) : Prop :=
  forall result,
    GetValue PublicKeyResult result = Ret [(mulG g).1; (mulG g).2] ->
    GetValue MpcPrivateShare result = Ret [share] ->
    CreateKeystore result peers EmptyString w
    = Ret (SetByteValue MpcContextResult (point_bytes g) result, w').

(** ** Comparing the keys *)

Definition ack_recv (id : NodeID) (gpk : bytes) : StepMessage :=
  step_message 0 (Some id) [] [gpk].

Lemma ackgpk_handle_list (keys : list (NodeID * bytes)) : forall st,
  NoDup (map fst keys) -> (forall id, id ∈ map fst keys -> id ∉ ag_message st) ->
  exists st', handle_list AckMpcGPKStep_HandleMessage (map (fun k => ack_recv k.1 k.2) keys) st
              = Ret (true, st') /\
    ag_mpcGPK st' = ag_mpcGPK st /\
    ag_remoteMpcGPKs st' = list_to_map keys ∪ ag_remoteMpcGPKs st.
Proof.
  induction keys as [|[id k] keys IH]; intros st Hn Hd; cbn [map handle_list fst snd].
  { exists st. by rewrite list_to_map_nil, (left_id_L ∅ _). }
  cbn [map fst] in Hn, Hd. apply NoDup_cons in Hn as [Hid Hn].
  set (st1 := {| ag_message := {[id]} ∪ ag_message st; ag_mpcGPK := ag_mpcGPK st;
                 ag_remoteMpcGPKs := <[id := k]> (ag_remoteMpcGPKs st) |}).
  assert (AckMpcGPKStep_HandleMessage (ack_recv id k) st = Ret (true, st1)) as ->.
  { unfold AckMpcGPKStep_HandleMessage. cbn. rewrite decide_False; [done|]. apply Hd. left. }
  destruct (IH st1 Hn) as (st2 & E & Hk & Hr).
  { intros id' Hid'. cbn. apply not_elem_of_union. split; [|apply Hd; by right].
    rewrite elem_of_singleton. congruence. }
  exists st2. cbn [mbind outcome_bind]. rewrite E. split; [done|]. split; [done|]. rewrite Hr. cbn.
  rewrite <- insert_union_r by (apply not_elem_of_list_to_map_1; exact Hid).
  by rewrite insert_union_l.
Qed.

(** The step ends without error exactly when it has as many keys as there are peers,
    all equal to the key of this node. *)
Lemma AckMpcGPKStep_exact peers keys gpk :
  NoDup (map fst keys) ->
  exists st, handle_list AckMpcGPKStep_HandleMessage (map (fun k => ack_recv k.1 k.2) keys)
               {| ag_message := ∅; ag_mpcGPK := gpk; ag_remoteMpcGPKs := ∅ |} = Ret (true, st) /\
    AckMpcGPKStep_finish peers st
    = if decide (length keys = length peers /\ Forall (fun k => k.2 = gpk) keys)
      then Ret tt else Err ErrInvalidMPCAddr.
Proof.
  intros Hn. set (st0 := {| ag_message := ∅; ag_mpcGPK := gpk; ag_remoteMpcGPKs := ∅ |}).
  destruct (ackgpk_handle_list keys st0 Hn) as (st & E & Hk & Hr); [intros id _; apply not_elem_of_empty|].
  exists st. split; [exact E|]. cbn in Hk, Hr. rewrite (right_id_L ∅ _) in Hr.
  assert (map_to_list (ag_remoteMpcGPKs st) ≡ₚ keys) as Hl by (rewrite Hr; by apply map_to_list_to_map).
  unfold AckMpcGPKStep_finish. rewrite <- length_map_to_list, (Permutation_length Hl).
  case_decide as Hlen; [by rewrite decide_False by tauto|]. rewrite Hk. case_decide as Hall.
  - rewrite (proj2 (forallb_forall _ _)); [done|]. intros e He%list_elem_of_In. destruct Hall as [_ Hall].
    rewrite Hl in He. rewrite Forall_forall in Hall. apply bool_decide_eq_true. symmetry. by apply Hall.
  - destruct (forallb _ _) eqn:Ef; [|done]. rewrite forallb_forall in Ef. exfalso. apply Hall.
    split; [tauto|]. apply Forall_forall. intros e He. rewrite <- Hl in He. apply list_elem_of_In, Ef in He.
    by apply bool_decide_eq_true in He.
Qed.

(** ** The rounds *)

(** A session at the node with seed [x]: [poly p] is the polynomial dealt by [p], and
    [l2], [l3], [l4] are the orders in which the messages arrive. *)
Record keygen (peers : list PeerInfo) (poly : PeerInfo -> list Z) (x : Z) (l2 l3 l4 : list PeerInfo) : Prop := {
  kg_vars : vars_ok vars;
  kg_group : group_ok peers;
  kg_seeds : Forall (fun p => 0 < Seed p < N) peers;
  kg_all2 : l2 ≡ₚ peers;
  kg_own : poly_at (psum (map poly peers)) x <> 0;
  kg_points : point_round_ok vars peers (psum (map poly peers)) l3;
  kg_all4 : l4 ≡ₚ peers
}.

Definition ack_gpk_msgs (gpk : bytes) (l : list PeerInfo) : list StepMessage :=
  map (fun p => ack_recv (PeerID p) gpk) l.

Lemma gpk_round2_ok peers poly x l res :
  group_ok peers -> vars_ok vars -> l ≡ₚ peers ->
  let F := psum (map poly peers) in
  poly_at F x <> 0 ->
  gpk_round2 peers (share_msgs poly x l) res
  = Ret (put_point MpcPublicShare (poly_at F x) (SetValue MpcPrivateShare [poly_at F x] res)).
Proof.
  intros Hg [Hv1 Hv2] Hl F Hnz. unfold gpk_round2, CreateMpcSKShareStep, createSkPolyValue.
  rewrite decide_False by lia. cbn [mbind outcome_bind].
  set (g := {| rp_message := ∅ |}).
  destruct (share_round_correct peers Hg MpcPrivateShare MpcPublicShare poly peers l x res g (reflexivity _) Hl eq_refl Hnz)
    as (g1 & g2 & E1 & E2).
  unfold share_msgs. rewrite E1. cbn [mbind outcome_bind].
  unfold MpcSKShareStep_finish. by rewrite E2.
Qed.

Lemma gpk_round3_ok peers F x l res w w' :
  group_ok peers -> vars_ok vars -> Forall (fun p => 0 < Seed p < N) peers ->
  point_round_ok vars peers F l -> stores (poly_at F 0) (poly_at F x) peers w w' ->
  GetValue MpcPublicShare res = Ret [(mulG (poly_at F x)).1; (mulG (poly_at F x)).2] ->
  GetValue MpcPrivateShare res = Ret [poly_at F x] ->
  gpk_round3 peers (point_msgs F l) res w
  = Ret ([broadcast [(mulG (poly_at F x)).1; (mulG (poly_at F x)).2]],
         SetByteValue MpcContextResult (point_bytes (poly_at F 0)) (put_point PublicKeyResult (poly_at F 0) res),
         w').
Proof.
  intros Hg Hv Hs HR Hst E Ep. unfold gpk_round3, CreateMpcGPKStep.
  destruct (point_init res (poly_at F x) peers MpcPublicShare PublicKeyResult E) as (st & -> & S3 & G3 & K3 & C3).
  cbn [mbind outcome_bind]. rewrite C3. cbn [mbind outcome_bind].
  destruct (point_round_correct vars peers Hg Hs F l PublicKeyResult res st Hv HR S3 G3 K3)
    as (st1 & st2 & -> & E3). cbn [mbind outcome_bind]. unfold MpcGPKStep_finish. rewrite E3.
  cbn [mbind outcome_bind]. rewrite Hst; [done| |]; unfold put_point; solve_store.
Qed.

Lemma gpk_round4_ok peers gpk l res :
  group_ok peers -> l ≡ₚ peers -> GetByteValue MpcContextResult res = Ret gpk ->
  gpk_round4 peers (ack_gpk_msgs gpk l) res = Ret [step_message MPCMessage None [] [gpk]].
Proof.
  intros [Hid _] Hl E. unfold gpk_round4, AckMpcGPKStep_InitStep. rewrite E. cbn [mbind outcome_bind].
  destruct (AckMpcGPKStep_exact peers (map (fun p => (PeerID p, gpk)) l) gpk) as (st & Eh & Ef).
  - rewrite map_map. cbn. by rewrite Hl.
  - rewrite map_map in Eh. unfold ack_gpk_msgs. cbn in Eh |- *. rewrite Eh. cbn [mbind outcome_bind].
    rewrite Ef, decide_True; [done|]. split; [by rewrite length_map, Hl|]. by apply Forall_map, Forall_forall.
Qed.

Lemma gpk_rounds_ok peers poly x l2 l3 l4 res w w' :
  keygen peers poly x l2 l3 l4 ->
  let F := psum (map poly peers) in
  stores (poly_at F 0) (poly_at F x) peers w w' ->
  exists res',
    gpk_rounds peers (share_msgs poly x l2) (point_msgs F l3) (ack_gpk_msgs (point_bytes (poly_at F 0)) l4) res w
    = Ret ([broadcast [(mulG (poly_at F x)).1; (mulG (poly_at F x)).2];
            step_message MPCMessage None [] [point_bytes (poly_at F 0)]], res', w') /\
    GetByteValue MpcContextResult res' = Ret (point_bytes (poly_at F 0)).
Proof.
  intros [Hv Hg Hs H2 Hown H3 H4] F Hst. unfold gpk_rounds.
  rewrite gpk_round2_ok by done. cbn [mbind outcome_bind].
  rewrite (gpk_round3_ok _ _ x _ _ w w') by (done || unfold put_point; solve_store). cbn [mbind outcome_bind].
  rewrite gpk_round4_ok by (done || solve_store). cbn [mbind outcome_bind].
  eexists. split; [done|]. solve_store.
Qed.

End KeyGen.

(** ** Properties of the manifest *)

Section Group.
Context {C : EllipticCurve} {G : CurveGroup C} {H : Hashes} {R : MapRange} {K : KeyCrypto} (vars : ProtocolVars)
  (sp : StoreParams).

(** A group creates a key and signs with it.  The node with seed [x] that runs the
    creation rounds ends with the encoded group key [F(0) G], where [F] is the sum of
    the dealt polynomials, and stores its account.  When the node is later asked to sign
    [M] under that encoded key it finds its share [F(x)], the group key and the peers
    again, and the signing rounds give [R = r G] and [s = F(0) m + r], where [r] comes from the part of
    the group that deals then. *)
Theorem keygen_then_sign (peers dealers : list PeerInfo) (poly rho : PeerInfo -> list Z) (M ext : bytes) (x : Z)
  (l2 l3 l4 k2 k3 k4 k5 : list PeerInfo) (res : BaseMpcResult) (d : MpcDistributor) :
  let F := psum (map poly peers) in
  let gpk := point_bytes (poly_at F 0) in
  let r := poly_at (psum (map rho dealers)) 0 in
  let m := challenge_of M r in
  let s := SchnorrSign (poly_at F 0) r m in
  keygen vars peers poly x l2 l3 l4 -> storable sp (poly_at F 0) (poly_at F x) peers EmptyString d ->
  session vars peers dealers F rho M x k2 k3 k4 ->
  exists out1 res1 d1 d2 addr share pub out2 res2,
    gpk_rounds (M := distributor_manager sp) vars peers (share_msgs poly x l2) (point_msgs F l3)
      (ack_gpk_msgs gpk l4) res d = Ret (out1, res1, d1) /\
    GetByteValue MpcContextResult res1 = Ret gpk /\
    PkToAddress gpk = Ret addr /\
    loadStoremanAddress addr d1 = Ret (share, pub, peers, d2) /\
    sign_rounds vars peers (share_msgs rho x k2) (point_msgs (psum (map rho dealers)) k3)
      (s_msgs F (psum (map rho dealers)) m k4) (ack_msgs (mulG r) s k5)
      (InitializeValue [byte_value MpcAddress gpk; byte_value MpcM M; byte_value MpcExt ext; share; pub]
         createMpcBaseMpcResult) = Ret (out2, res2) /\
    GetByteValue MpcContextResult res2 = Ret (point_bytes r ++ Bytes s).
Proof.
  intros F gpk r m s Hk Hst Hs.
  destruct (CreateKeystore_load sp _ _ _ _ _ Hst) as (d1 & d2 & Ec & El).
  destruct (gpk_rounds_ok (M := distributor_manager sp) vars peers poly x l2 l3 l4 res d d1 Hk Ec)
    as (res1 & E1 & Er1).
  destruct (sign_rounds_ok vars peers dealers F rho M x k2 k3 k4 k5
    (InitializeValue [byte_value MpcAddress gpk; byte_value MpcM M; byte_value MpcExt ext;
       value MpcPrivateShare [poly_at F x]; value PublicKeyResult [(mulG (poly_at F 0)).1; (mulG (poly_at F 0)).2]]
       createMpcBaseMpcResult) Hs) as (res2 & E2 & Er2).
  1-3: unfold InitializeValue, InitializeValue1; cbn; solve_store.
  do 9 eexists. split_and!; [exact E1|exact Er1| |exact El|exact E2|exact Er2].
  apply PkToAddress_point_bytes; apply Hst.
Qed.

(** C24: nodes agree on the group key.  After the keys of distinct senders arrived,
    in any order, the comparison step succeeds exactly when there are as many as peers
    and all equal the key this node computed; otherwise it fails with
    [ErrInvalidMPCAddr]. *)
Theorem gpk_agreement (peers : list PeerInfo) (keys : list (NodeID * bytes)) (gpk : bytes) :
  NoDup (map fst keys) ->
  exists st, handle_list AckMpcGPKStep_HandleMessage (map (fun k => ack_recv k.1 k.2) keys)
               {| ag_message := ∅; ag_mpcGPK := gpk; ag_remoteMpcGPKs := ∅ |} = Ret (true, st) /\
    (AckMpcGPKStep_finish peers st = Ret tt <->
       length keys = length peers /\ Forall (fun k => k.2 = gpk) keys) /\
    (AckMpcGPKStep_finish peers st <> Ret tt -> AckMpcGPKStep_finish peers st = Err ErrInvalidMPCAddr).
Proof.
  intros Hn. destruct (AckMpcGPKStep_exact peers keys gpk Hn) as (st & E & Ef). exists st.
  split; [exact E|]. rewrite Ef. by case_decide.
Qed.

End Group.

(** ** A peer with seed zero *)

Section SeedZero.
Context {C : EllipticCurve} {G : CurveGroup C} (vars : ProtocolVars).
#[local] Abbreviation N := Params_N.

(** The group secret from a signature whose nonce is known. *)
Definition recover (s r m : Z) : Z := Mod ((s - r) * ModInverse m N) N.

Lemma recover_SchnorrSign gsk r m : m mod N <> 0 -> recover (SchnorrSign gsk r m) r m = gsk mod N.
Proof.
  intros Hm. unfold recover, Mod. pose proof (ModInverse_prime m N N_prime Hm) as Hi.
  assert (SchnorrSign gsk r m mod N = (gsk * m + r) mod N) as Hs.
  { unfold SchnorrSign, Mod. pose proof (N_ge_2 N_prime).
    by rewrite ?Zmod_mod, ?Zplus_mod_idemp_l, ?Zplus_mod_idemp_r. }
  rewrite <- Zmult_mod_idemp_l, <- Zminus_mod_idemp_l, Hs, Zminus_mod_idemp_l, Zmult_mod_idemp_l.
  replace ((gsk * m + r - r) * ModInverse m N) with (gsk * (ModInverse m N * m)) by ring.
  by rewrite <- Zmult_mod_idemp_r, Hi, Z.mul_1_r.
Qed.

(** What a dealer with secret [s] and draws [ds] sends to the peer at index [i]. *)
Definition dealt_to (peers : list PeerInfo) (i : nat) (s : Z) (ds : list Z) : outcome Z :=
  g ← createSkPolyValue (MPCDegree vars) (length peers);
  g ← (RandomPolynomialValue_initialize peers (Some s :: map Some ds) g).1;
  idx (rp_polyValue g) i.

Lemma dealt_to_zero peers i q s ds :
  peers !! i = Some q -> Seed q = 0 -> Z.of_nat (length ds) = MPCDegree vars ->
  dealt_to peers i s ds = Ret (s mod N).
Proof.
  intros Hq H0 Hl. unfold dealt_to, createSkPolyValue. rewrite decide_False by lia. cbn [mbind outcome_bind].
  rewrite <- (app_nil_r (map Some ds)), (initialize_draws N_prime) by (cbn; rewrite length_replicate; lia).
  cbn [fst mbind outcome_bind rp_polyValue]. apply idx_Some. rewrite list_lookup_fmap, Hq. change (Some (poly_at (dealt_poly s ds) (Seed q)) = Some (s mod N)).
  f_equal. rewrite H0. unfold dealt_poly. rewrite (poly_at_zero N_prime). apply Zmod_mod.
Qed.

(** A leader that gives a peer the seed zero learns the group secret.  A node
    accepts such a list of peers for a signature without any check, and for a new key
    too; every dealer then sends that peer its secret itself, so that the sum of what
    the peer receives is the nonce [r], and the signature [s] that the group
    publishes gives the group secret. *)
Theorem seed_zero_leaks_key (peers : list PeerInfo) (i : nat) (q : PeerInfo) (dealers : list (Z * list Z))
  (mpcID gsk m : Z) (pre : list MpcValue) :
  peers !! i = Some q -> Seed q = 0 -> 0 <= MPCDegree vars + 1 ->
  Forall (fun d => Z.of_nat (length d.2) = MPCDegree vars) dealers -> m mod N <> 0 ->
  (exists c, ackSignMpc vars mpcID peers pre = Ret c /\ mc_peers c = peers) /\
  (NoDup (map Seed peers) -> Forall (fun p => Seed p <= 16777215) peers ->
   exists c, ackGPKMpc vars mpcID peers pre = Ret c /\ mc_peers c = peers) /\
  exists received,
    mapM_out (fun d => dealt_to peers i d.1 d.2) dealers = Ret received /\
    let r := sum_Z (map fst dealers) in
    sum_Z received mod N = r mod N /\
    recover (SchnorrSign gsk r m) (sum_Z received) m = gsk mod N.
Proof.
  intros Hq H0 Hdeg Hd Hm. split_and!.
  - apply gen_sign_total, Hdeg.
  - intros Hn Hf. unfold ackGPKMpc. rewrite (proj2 (check_seeds_spec peers ∅)).
    + cbn [mbind outcome_bind]. apply gen_gpk_total, Hdeg.
    + split; [done|]. eapply Forall_impl; [exact Hf|]. intros p Hp. split; [apply not_elem_of_empty|done].
  - exists (map (fun d => d.1 mod N) dealers). split.
    + apply mapM_out_map. intros d Hin. rewrite Forall_forall in Hd. eapply dealt_to_zero; eauto.
    + cbv zeta. assert (sum_Z (map (fun d : Z * list Z => d.1 mod N) dealers) mod N
        = sum_Z (map fst dealers) mod N) as Es.
      { clear. induction dealers as [|d ds IH]; [done|]. cbn [map sum_Z foldr].
        fold (sum_Z (map (fun d : Z * list Z => d.1 mod N) ds)) (sum_Z (map fst ds)).
        by rewrite Zplus_mod_idemp_l, <- Zplus_mod_idemp_r, IH, Zplus_mod_idemp_r. }
      split; [exact Es|]. rewrite <- (recover_SchnorrSign gsk (sum_Z (map fst dealers)) m Hm).
      unfold recover, Mod. rewrite <- Zmult_mod_idemp_l, <- (Zmult_mod_idemp_l (_ - sum_Z (map fst _))).
      do 2 f_equal. by rewrite <- Zminus_mod_idemp_r, Es, Zminus_mod_idemp_r.
Qed.

End SeedZero.

(** *** Witnesses *)

#[local] Existing Instances smallC small_group list_range toy_hashes toy_crypto.

(** The nonce polynomials of the later signature. *)
Definition toy_rho2 (p : PeerInfo) : list Z := [Seed p; 2].

Lemma toy_keygen : keygen toy_vars toy_peers toy_rho 3 [peer2; peer1; peer3] [peer3; peer2] toy_peers.
Proof.
  destruct toy_group as [Hg Hs]. split.
  - split; cbn; lia.
  - exact Hg.
  - exact Hs.
  - apply perm_swap.
  - by vm_compute.
  - apply toy_point_ok. by vm_compute.
  - done.
Qed.

Lemma toy_session2 :
  session toy_vars toy_peers toy_peers (psum (map toy_rho toy_peers)) toy_rho2 toy_M 3 toy_peers [peer3; peer2] [peer1; peer2].
Proof.
  destruct toy_group as [Hg Hs]. split.
  - split; cbn; lia.
  - exact Hg.
  - exact Hs.
  - by vm_compute.
  - apply Forall_forall. intros p _. by vm_compute.
  - done.
  - done.
  - by vm_compute.
  - apply toy_point_ok. by vm_compute.
  - apply submseteq_skip, submseteq_skip, submseteq_nil_l.
  - cbn. lia.
  - by split; vm_compute.
Qed.

Lemma keygen_then_sign_witness :
  let F := psum (map toy_rho toy_peers) in
  let r := poly_at (psum (map toy_rho2 toy_peers)) 0 in
  let m := challenge_of toy_M r in
  exists out1 res1 d1 d2 addr share pub out2 res2,
    gpk_rounds (M := distributor_manager toy_store) toy_vars toy_peers (share_msgs toy_rho 3 [peer2; peer1; peer3])
      (point_msgs F [peer3; peer2]) (ack_gpk_msgs (point_bytes 14) toy_peers) createMpcBaseMpcResult
      (toy_dist toy_ids) = Ret (out1, res1, d1) /\
    GetByteValue MpcContextResult res1 = Ret (point_bytes 14) /\
    PkToAddress (point_bytes 14) = Ret addr /\
    loadStoremanAddress addr d1 = Ret (share, pub, toy_peers, d2) /\
    sign_rounds toy_vars toy_peers (share_msgs toy_rho2 3 toy_peers) (point_msgs (psum (map toy_rho2 toy_peers)) [peer3; peer2])
      (s_msgs F (psum (map toy_rho2 toy_peers)) m [peer1; peer2]) (ack_msgs (mulG r) (SchnorrSign 14 r m) [peer2])
      (InitializeValue [byte_value MpcAddress (point_bytes 14); byte_value MpcM toy_M; byte_value MpcExt [];
         share; pub] createMpcBaseMpcResult) = Ret (out2, res2) /\
    GetByteValue MpcContextResult res2 = Ret (point_bytes r ++ Bytes (SchnorrSign 14 r m)).
Proof.
  assert (poly_at (psum (map toy_rho toy_peers)) 0 = 14) as E0 by (vm_compute; reflexivity).
  assert (poly_at (psum (map toy_rho toy_peers)) 3 = 19) as E3 by (vm_compute; reflexivity).
  pose proof (keygen_then_sign toy_vars toy_store toy_peers toy_peers toy_rho toy_rho2 toy_M [] 3
    [peer2; peer1; peer3] [peer3; peer2] toy_peers toy_peers [peer3; peer2] [peer1; peer2] [peer2]
    createMpcBaseMpcResult (toy_dist toy_ids)) as Hw.
  cbv zeta in Hw |- *. rewrite E0, E3 in Hw. apply Hw; [apply toy_keygen|apply toy_storable|apply toy_session2].
Defined.

Lemma gpk_agreement_witness :
  exists st, handle_list AckMpcGPKStep_HandleMessage
               [ack_recv [Byte.x02] (point_bytes 14); ack_recv [Byte.x01] (point_bytes 14);
                ack_recv [Byte.x03] (point_bytes 13)]
               {| ag_message := ∅; ag_mpcGPK := point_bytes 14; ag_remoteMpcGPKs := ∅ |} = Ret (true, st) /\
    AckMpcGPKStep_finish toy_peers st = Err ErrInvalidMPCAddr.
Proof.
  destruct (gpk_agreement toy_peers [([Byte.x02], point_bytes 14); ([Byte.x01], point_bytes 14);
    ([Byte.x03], point_bytes 13)] (point_bytes 14)) as (st & E & Hiff & Herr).
  - apply (bool_decide_unpack _). by vm_compute.
  - exists st. split; [exact E|]. apply Herr. rewrite Hiff. intros [_ Hall].
    apply Forall_cons in Hall as [_ Hall]. apply Forall_cons in Hall as [_ Hall].
    apply Forall_cons in Hall as [Hall _]. vm_compute in Hall. discriminate Hall.
Defined.

(** Peer 2 has seed zero; the secrets of the dealers are 3, 5 and 6, the group secret is 7. *)
Lemma seed_zero_leaks_key_witness :
  exists received,
    mapM_out (fun d => dealt_to toy_vars [peer1; {| PeerID := [Byte.x02]; Seed := 0 |}] 1 d.1 d.2)
      [(3, [9]); (5, [2]); (6, [1])] = Ret received /\
    sum_Z received mod Params_N = 14 mod Params_N /\
    recover (SchnorrSign 7 14 9) (sum_Z received) 9 = 7 mod Params_N.
Proof.
  apply (seed_zero_leaks_key toy_vars [peer1; {| PeerID := [Byte.x02]; Seed := 0 |}] 1
    {| PeerID := [Byte.x02]; Seed := 0 |} [(3, [9]); (5, [2]); (6, [1])] 7 7 9 []).
  - reflexivity.
  - reflexivity.
  - cbn. lia.
  - repeat constructor.
  - by vm_compute.
Defined.
