(* ===== verification/Netutil.v ===== *)
(** * IP addresses and networks

    [src/p2p/netutil/net.go] with the operations of Go's [net.IP] and [net.IPNet] it uses: lists of
    networks, the rules for addresses relayed by another node, and [DistinctNetSet], the counter that
    keeps the number of addresses of one subnet small. *)

From S2P Require Import Prelude BigInt.

(** ** [net.IP]

    A slice of 4 or 16 bytes; the nil slice is the empty list. *)

Abbreviation IP := bytes.

Definition IPv4len : nat := 4.
Definition IPv6len : nat := 16.

Definition v4InV6Prefix : bytes := replicate 10 Byte.x00 ++ [Byte.xff; Byte.xff].

Definition To4 (ip : IP) : option IP :=
  if decide (length ip = IPv4len) then Some ip
  else if decide (length ip = IPv6len /\ take 12 ip = v4InV6Prefix) then Some (drop 12 ip)
  else None.

Definition To16 (ip : IP) : option IP :=
  if decide (length ip = IPv4len) then Some (v4InV6Prefix ++ ip)
  else if decide (length ip = IPv6len) then Some ip
  else None.

Definition IP_Equal (ip x : IP) : bool :=
  if decide (length ip = length x) then bool_decide (ip = x)
  else if decide (length ip = IPv4len /\ length x = IPv6len) then bool_decide (x = v4InV6Prefix ++ ip)
  else if decide (length ip = IPv6len /\ length x = IPv4len) then bool_decide (ip = v4InV6Prefix ++ x)
  else false.

Definition IPv4zero : IP := v4InV6Prefix ++ replicate 4 Byte.x00.
Definition IPv6unspecified : IP := replicate 16 Byte.x00.
Definition IPv6loopback : IP := replicate 15 Byte.x00 ++ [Byte.x01].

Definition byte0 (ip : IP) : Z := ub (nth 0 ip Byte.x00).

Definition IsUnspecified (ip : IP) : bool := IP_Equal ip IPv4zero || IP_Equal ip IPv6unspecified.
Definition IsLoopback (ip : IP) : bool :=
  match To4 ip with
  | Some ip4 => byte0 ip4 =? 127
  | None => IP_Equal ip IPv6loopback
  end.
Definition IsMulticast (ip : IP) : bool :=
  match To4 ip with
  | Some ip4 => Z.land (byte0 ip4) 0xf0 =? 0xe0
  | None => bool_decide (length ip = IPv6len) && (byte0 ip =? 0xff)
  end.

(** ** [net.IPNet] *)

Record IPNet := mk_net { net_IP : IP; net_Mask : bytes }.

(** The network and mask [Contains] compares with, [None] for an IPNet that is not valid. *)
Definition networkNumberAndMask (n : IPNet) : option (IP * bytes) :=
  let ip := default (net_IP n) (To4 (net_IP n)) in
  if decide (length ip = IPv4len \/ length ip = IPv6len) then
    if decide (length (net_Mask n) = length ip) then Some (ip, net_Mask n)
    else if decide (length (net_Mask n) = IPv6len /\ length ip = IPv4len) then Some (ip, drop 12 (net_Mask n))
    else None
  else None.

Definition masked (m x : byte) : Z := Z.land (ub x) (ub m).

Definition IPNet_Contains (n : IPNet) (ip : IP) : bool :=
  match networkNumberAndMask n with
  | None => bool_decide (default ip (To4 ip) = [])
  | Some (nn, m) =>
      let ip := default ip (To4 ip) in
      bool_decide (length ip = length nn /\ zip_with masked m nn = zip_with masked m ip)
  end.

(** [net.CIDRMask] and the network that [net.ParseCIDR] reads from an address and a prefix length. *)
Fixpoint CIDRMask (n : nat) (len : nat) : bytes :=
  match len with
  | O => []
  | S len' => u8 (Z.lnot (Z.shiftr 0xff (Z.of_nat (Nat.min n 8)))) :: CIDRMask (n - 8) len'
  end.

Definition network (ip : list Z) (n : nat) : IPNet :=
  let m := CIDRMask n (length ip) in
  mk_net (zip_with (fun x k => u8 (masked k x)) (u8 <$> ip) m) m.
Definition network6 (groups : list Z) (n : nat) : IPNet :=
  let bs := mjoin ((fun g => [g / 256; g mod 256]) <$> groups) in
  network (take 16 (bs ++ replicate 16 0)) n.

(** ** Lists of networks *)

Abbreviation Netlist := (list IPNet).

(** A nil list contains nothing. *)
Definition Contains (l : Netlist) (ip : IP) : bool := existsb (fun n => IPNet_Contains n ip) l.

Definition lan4 : Netlist :=
  [network [0; 0; 0; 0] 8; network [10; 0; 0; 0] 8; network [172; 16; 0; 0] 12; network [192; 168; 0; 0] 16].
Definition lan6 : Netlist := [network6 [0xfe80] 10; network6 [0xfc00] 7].
Definition special4 : Netlist :=
  [network [192; 0; 0; 0] 29; network [192; 0; 0; 9] 32; network [192; 0; 0; 170] 32;
   network [192; 0; 0; 171] 32; network [192; 0; 2; 0] 24; network [192; 31; 196; 0] 24;
   network [192; 52; 193; 0] 24; network [192; 88; 99; 0] 24; network [192; 175; 48; 0] 24;
   network [198; 18; 0; 0] 15; network [198; 51; 100; 0] 24; network [203; 0; 113; 0] 24;
   network [255; 255; 255; 255] 32].
Definition special6 : Netlist :=
  [network6 [0x100] 64; network6 [0x2001] 32; network6 [0x2001; 1; 0; 0; 0; 0; 0; 1] 128;
   network6 [0x2001; 2] 48; network6 [0x2001; 3] 32; network6 [0x2001; 4; 0x112] 48;
   network6 [0x2001; 5] 32; network6 [0x2001; 0x10] 28; network6 [0x2001; 0x20] 28;
   network6 [0x2001; 0xdb8] 32; network6 [0x2002] 16].

Definition IsLAN (ip : IP) : bool :=
  if IsLoopback ip then true else
  match To4 ip with
  | Some v4 => Contains lan4 v4
  | None => Contains lan6 ip
  end.

Definition IsSpecialNetwork (ip : IP) : bool :=
  if IsMulticast ip then true else
  match To4 ip with
  | Some v4 => Contains special4 v4
  | None => Contains special6 ip
  end.

(** ** Relayed addresses *)

Inductive relay_error := errInvalidIP | errUnspecified | errSpecial | errLoopback | errLAN.

Definition CheckRelayIP (sender addr : IP) : option relay_error :=
  if negb (bool_decide (length addr = IPv4len)) && negb (bool_decide (length addr = IPv6len)) then Some errInvalidIP
  else if IsUnspecified addr then Some errUnspecified
  else if IsSpecialNetwork addr then Some errSpecial
  else if IsLoopback addr && negb (IsLoopback sender) then Some errLoopback
  else if IsLAN addr && negb (IsLAN sender) then Some errLAN
  else None.

(** ** Common prefixes *)

(** [^byte(0xFF >> (bits % 8))] *)
Definition prefix_mask (bits : nat) : byte := u8 (Z.lnot (Z.shiftr 0xff (Z.of_nat (bits mod 8)))).

(** Both addresses have the same length. *)
Definition sameNet (bits : nat) (ip other : IP) : bool :=
  let nb := (bits / 8)%nat in
  let mask := prefix_mask bits in
  if negb (ub mask =? 0) && bool_decide (nb < length ip)%nat
     && negb (masked mask (nth nb ip Byte.x00) =? masked mask (nth nb other Byte.x00)) then false
  else bool_decide (nb <= length ip)%nat && bool_decide (take nb ip = take nb other).

Definition SameNet (bits : nat) (ip other : IP) : bool :=
  match To4 ip, To4 other with
  | Some ip4, Some other4 => sameNet bits ip4 other4
  | None, None => sameNet bits (default [] (To16 ip)) (default [] (To16 other))
  | _, _ => false
  end.

(** ** [DistinctNetSet] *)

Record DistinctNetSet := mk_nets { Subnet : nat; Limit : Z; members : gmap bytes Z }.

(** The key is a fresh list here; the code writes it into a buffer it reuses and converts it to a string
    before the next call. *)
Definition net_key (subnet : nat) (ip : IP) : bytes :=
  let '(typ, ip) := match To4 ip with Some ip4 => (Byte.x34, ip4) | None => (Byte.x36, ip) end in
  let bits := Nat.min subnet (length ip * 8) in
  let nb := (bits / 8)%nat in
  let mask := prefix_mask bits in
  typ :: take nb ip
    ++ (if bool_decide (nb < length ip)%nat && negb (ub mask =? 0) then [u8 (masked mask (nth nb ip Byte.x00))] else []).

Definition with_members (m : gmap bytes Z) (s : DistinctNetSet) : DistinctNetSet := mk_nets (Subnet s) (Limit s) m.

Definition nets_count (s : DistinctNetSet) (ip : IP) : Z := default 0 (members s !! net_key (Subnet s) ip).

Definition nets_Add (ip : IP) (s : DistinctNetSet) : bool * DistinctNetSet :=
  let key := net_key (Subnet s) ip in
  let n := default 0 (members s !! key) in
  if n <? Limit s then (true, with_members (<[key := n + 1]> (members s)) s) else (false, s).

Definition nets_Remove (ip : IP) (s : DistinctNetSet) : DistinctNetSet :=
  let key := net_key (Subnet s) ip in
  match members s !! key with
  | Some n => if n =? 1 then with_members (delete key (members s)) s
              else with_members (<[key := (n - 1) mod 2 ^ 64]> (members s)) s
  | None => s
  end.

Definition nets_Contains (ip : IP) (s : DistinctNetSet) : bool :=
  bool_decide (is_Some (members s !! net_key (Subnet s) ip)).

Definition nets_Len (s : DistinctNetSet) : Z := map_fold (fun _ i n => i + n) 0 (members s).

Example lan_examples :
  IsLAN (u8 <$> [192; 168; 1; 7]) = true /\ IsLAN (u8 <$> [172; 31; 0; 1]) = true /\
  IsLAN (u8 <$> [172; 32; 0; 1]) = false /\ IsLAN (u8 <$> [127; 0; 0; 1]) = true /\
  IsSpecialNetwork (u8 <$> [198; 19; 3; 4]) = true /\ IsSpecialNetwork (u8 <$> [8; 8; 8; 8]) = false /\
  CheckRelayIP (u8 <$> [8; 8; 8; 8]) (u8 <$> [10; 0; 0; 1]) = Some errLAN /\
  CheckRelayIP (u8 <$> [192; 168; 0; 1]) (u8 <$> [10; 0; 0; 1]) = None /\
  Contains lan6 (u8 <$> [0xfd; 0; 0; 0; 0; 0; 0; 0; 0; 0; 0; 0; 0; 0; 0; 1]) = true.
Proof. by vm_compute. Qed.

(** ** Lemmas *)

Lemma To4_length ip ip4 : To4 ip = Some ip4 -> length ip4 = 4%nat.
Proof. unfold To4, IPv4len, IPv6len. intros E. go_cases. rewrite length_drop. lia. Qed.

Lemma To4_None_length ip : (length ip = 4 \/ length ip = 16)%nat -> To4 ip = None -> length ip = 16%nat.
Proof. unfold To4, IPv4len. intros [H|H] E; [|done]. by rewrite decide_True in E. Qed.

Lemma masked_range m x : 0 <= masked m x < 256.
Proof.
  unfold masked. pose proof (ub_range x). pose proof (ub_range m). split; [apply Z.land_nonneg; lia|].
  apply (Z.le_lt_trans _ (ub x)); [|lia].
  apply Z.ldiff_le; [lia|]. apply Z.bits_inj'. intros n Hn.
  rewrite Z.ldiff_spec, Z.land_spec, Z.bits_0. by destruct (Z.testbit (ub x) n), (Z.testbit (ub m) n).
Qed.

Lemma u8_masked_inj m x y : u8 (masked m x) = u8 (masked m y) <-> masked m x = masked m y.
Proof.
  split; [|by intros ->]. intros H. apply (f_equal ub) in H. rewrite !ub_u8 in H.
  pose proof (masked_range m x). pose proof (masked_range m y). by rewrite !Z.mod_small in H by lia.
Qed.

(** The part of the key after the type byte, for an address of [n] bytes. *)
Lemma key_sameNet bits ip other n :
  length ip = n -> length other = n -> (bits <= 8 * n)%nat ->
  let part x := take (bits / 8) x
    ++ (if bool_decide (bits / 8 < length x)%nat && negb (ub (prefix_mask bits) =? 0)
        then [u8 (masked (prefix_mask bits) (nth (bits / 8) x Byte.x00))] else []) in
  part ip = part other <-> sameNet bits ip other = true.
Proof.
  intros H1 H2 Hb. cbn zeta. unfold sameNet. rewrite H1, H2.
  assert (bits / 8 <= n)%nat as Hle by (apply Nat.Div0.div_le_upper_bound; lia).
  rewrite (bool_decide_eq_true_2 (_ <= _)%nat) by done. cbn [andb].
  rewrite (andb_comm (negb _)).
  destruct (bool_decide (bits / 8 < n)%nat && negb (ub (prefix_mask bits) =? 0)) eqn:E; cbn [andb].
  - rewrite app_inj_tail_iff, u8_masked_inj.
    destruct (Z.eqb_spec (masked (prefix_mask bits) (nth (bits / 8) ip Byte.x00))
                (masked (prefix_mask bits) (nth (bits / 8) other Byte.x00))) as [->|Hn]; cbn [negb].
    + rewrite bool_decide_eq_true. naive_solver.
    + naive_solver.
  - rewrite !app_nil_r, bool_decide_eq_true. done.
Qed.

(** Two addresses have the same key exactly when they lie in the same subnet. *)
Lemma net_key_SameNet subnet ip other :
  (length ip = 4 \/ length ip = 16)%nat -> (length other = 4 \/ length other = 16)%nat -> (subnet <= 32)%nat ->
  net_key subnet ip = net_key subnet other <-> SameNet subnet ip other = true.
Proof.
  intros H1 H2 Hs. unfold net_key, SameNet.
  destruct (To4 ip) as [a|] eqn:Ea, (To4 other) as [b|] eqn:Eb; [| naive_solver | naive_solver |].
  - apply To4_length in Ea as La, Eb as Lb.
    rewrite La, Lb, (Nat.min_l subnet) by lia. rewrite (inj_iff (cons Byte.x34)).
    rewrite <- (key_sameNet subnet a b 4), La, Lb by lia. done.
  - apply To4_None_length in Ea as La, Eb as Lb; [|done..].
    unfold To16, IPv4len, IPv6len. rewrite La, Lb. cbn [decide default].
    rewrite (Nat.min_l subnet) by lia. rewrite (inj_iff (cons Byte.x36)).
    rewrite <- (key_sameNet subnet ip other 16), La, Lb by lia. done.
Qed.

(** Stored counts are positive and at most the limit. *)
Definition nets_wf (s : DistinctNetSet) : Prop :=
  Limit s < 2 ^ 64 /\ map_Forall (fun _ n => 1 <= n <= Limit s) (members s).

Lemma nets_empty_wf subnet limit : limit < 2 ^ 64 -> nets_wf (mk_nets subnet limit ∅).
Proof. by intros H; split. Qed.

Lemma nets_count_bound s ip : nets_wf s -> 0 <= nets_count s ip <= Z.max 0 (Limit s).
Proof.
  intros [_ Hw]. unfold nets_count. destruct (members s !! _) eqn:E; cbn; [|lia].
  apply Hw in E. lia.
Qed.

Lemma nets_Add_wf ip s : nets_wf s -> nets_wf (nets_Add ip s).2.
Proof.
  intros [Hl Hw]. unfold nets_Add. destruct (Z.ltb_spec (default 0 (members s !! net_key (Subnet s) ip)) (Limit s)) as [H|]; [|done].
  split; [done|]. cbn. apply map_Forall_insert_2; [|done].
  destruct (members s !! _) eqn:E; cbn in *; [|lia]. apply Hw in E. lia.
Qed.

Lemma nets_Add_result ip s : (nets_Add ip s).1 = bool_decide (nets_count s ip < Limit s).
Proof.
  unfold nets_Add, nets_count. destruct (Z.ltb_spec (default 0 (members s !! net_key (Subnet s) ip)) (Limit s)).
  - by rewrite bool_decide_eq_true_2. - by rewrite bool_decide_eq_false_2 by lia.
Qed.

Lemma nets_Add_frame ip s : Subnet (nets_Add ip s).2 = Subnet s /\ Limit (nets_Add ip s).2 = Limit s.
Proof. unfold nets_Add. by case_match. Qed.

Lemma nets_Add_count ip other s :
  (nets_Add ip s).1 = true ->
  nets_count (nets_Add ip s).2 other
  = nets_count s other + (if decide (net_key (Subnet s) ip = net_key (Subnet s) other) then 1 else 0).
Proof.
  unfold nets_Add, nets_count. case_match; [|done]. cbn. intros _. case_decide as Hk.
  - rewrite Hk, lookup_insert_eq. done.
  - rewrite lookup_insert_ne by done. lia.
Qed.

Lemma nets_Remove_frame ip s : Subnet (nets_Remove ip s) = Subnet s /\ Limit (nets_Remove ip s) = Limit s.
Proof. unfold nets_Remove. by repeat case_match. Qed.

Lemma nets_Remove_wf ip s : nets_wf s -> nets_wf (nets_Remove ip s).
Proof.
  intros [Hl Hw]. unfold nets_Remove. destruct (members s !! _) as [n|] eqn:E; [|done].
  apply Hw in E as Hn. destruct (Z.eqb_spec n 1) as [->|Hne]; (split; [done|]); cbn.
  - by apply map_Forall_delete.
  - apply map_Forall_insert_2; [|done]. rewrite Z.mod_small by lia. lia.
Qed.

Lemma nets_Remove_count ip other s :
  nets_wf s ->
  nets_count (nets_Remove ip s) other
  = (if decide (net_key (Subnet s) ip = net_key (Subnet s) other)
     then Z.max 0 (nets_count s other - 1) else nets_count s other).
Proof.
  intros [Hl Hw]. unfold nets_Remove, nets_count. case_decide as Hk.
  - destruct (members s !! net_key (Subnet s) ip) as [n|] eqn:E; rewrite Hk in E; [|by rewrite E].
    apply Hw in E as Hn. rewrite E. destruct (Z.eqb_spec n 1) as [->|Hne]; cbn; rewrite Hk.
    + by rewrite lookup_delete_eq.
    + rewrite lookup_insert_eq. cbn. rewrite Z.mod_small by lia. lia.
  - destruct (members s !! net_key (Subnet s) ip) as [n|] eqn:E; [|done].
    destruct (n =? 1); cbn; [by rewrite lookup_delete_ne|by rewrite lookup_insert_ne].
Qed.

(** A successful [Add] followed by [Remove] of the same address changes no count. *)
Lemma nets_Add_Remove ip other s :
  nets_wf s -> (nets_Add ip s).1 = true ->
  nets_count (nets_Remove ip (nets_Add ip s).2) other = nets_count s other.
Proof.
  intros Hw Ha. rewrite nets_Remove_count by by apply nets_Add_wf.
  destruct (nets_Add_frame ip s) as [-> _]. rewrite nets_Add_count by done.
  pose proof (nets_count_bound s other Hw). case_decide; lia.
Qed.
