(* ===== verification/Node.v ===== *)
(** * Nodes of the network

    [src/p2p/discover/node.go]: the description of a node with its address and identifier, its text
    form, and the distance between hashes of identifiers that orders the node table. *)

From stdpp Require Import pretty.
From S2P Require Import Prelude BigInt Hexutil Keccak Sha3 Protocol Netutil.

(** ** Distances

    [common.Hash] is 32 bytes. *)

Abbreviation Hash := bytes.

(** -1 when [a] is closer to [target], 1 when [b] is. *)
Fixpoint distcmp (target a b : Hash) : Z :=
  match target, a, b with
  | t :: target', x :: a', y :: b' =>
      let da := Z.lxor (ub x) (ub t) in
      let db := Z.lxor (ub y) (ub t) in
      if db <? da then 1 else if da <? db then -1 else distcmp target' a' b'
  | _, _, _ => 0
  end.

(** Leading zeros of the bytes 0..255. *)
Definition lzcount : list Z :=
  [8; 7] ++ replicate 2 6 ++ replicate 4 5 ++ replicate 8 4 ++ replicate 16 3 ++ replicate 32 2
  ++ replicate 64 1 ++ replicate 128 0.

Fixpoint leading_zeros (a b : Hash) : Z :=
  match a, b with
  | x :: a', y :: b' =>
      let d := Z.lxor (ub x) (ub y) in
      if d =? 0 then 8 + leading_zeros a' b' else nth (Z.to_nat d) lzcount 0
  | _, _ => 0
  end.

Definition logdist (a b : Hash) : Z := Z.of_nat (length a) * 8 - leading_zeros a b.

(** [rnd] are the bytes drawn from [math/rand] for the positions after the flipped bit. *)
Definition hashAtDistance (a : Hash) (n : Z) (rnd : bytes) : Hash :=
  if n =? 0 then a else
  let pos := Z.of_nat (length a) - n / 8 - 1 in
  let bit := if n mod 8 =? 0 then 0 else Z.shiftl 1 (n mod 8 - 1) in
  let '(pos, bit) := if bit =? 0 then (pos + 1, 0x80) else (pos, bit) in
  let p := Z.to_nat pos in
  let x := ub (nth p a Byte.x00) in
  let flipped := u8 (Z.lor (Z.ldiff x bit) (Z.land (Z.lnot x) bit)) in
  take p a ++ flipped :: take (length a - (p + 1)) rnd.

(** ** Lemmas *)

Definition bitlen (x : Z) : Z := if x =? 0 then 0 else Z.log2 x + 1.

Lemma testbit_high a k n : 0 <= a < 2 ^ k -> 0 <= k <= n -> Z.testbit a n = false.
Proof. intros Ha Hn. rewrite <- (Z.mod_small a (2 ^ k)) by done. apply Z.mod_pow2_bits_high. lia. Qed.

Lemma testbit_split x a k n :
  0 <= k -> 0 <= a < 2 ^ k -> 0 <= n ->
  Z.testbit (x * 2 ^ k + a) n = if n <? k then Z.testbit a n else Z.testbit x (n - k).
Proof.
  intros Hk Ha Hn. destruct (Z.ltb_spec n k) as [H|H].
  - rewrite <- (Z.mod_pow2_bits_low _ k n) by lia. rewrite Z.add_comm, Z.mod_add by lia.
    by rewrite Z.mod_small.
  - replace n with ((n - k) + k) at 1 by lia. rewrite <- Z.div_pow2_bits by lia.
    rewrite Z.div_add_l, Z.div_small, Z.add_0_r by lia. done.
Qed.

Lemma lxor_range a b k : 0 <= k -> 0 <= a < 2 ^ k -> 0 <= b < 2 ^ k -> 0 <= Z.lxor a b < 2 ^ k.
Proof.
  intros Hk Ha Hb. replace (Z.lxor a b) with (Z.lxor a b mod 2 ^ k); [apply Z.mod_pos_bound; lia|].
  apply Z.bits_inj'. intros n Hn. destruct (Z.lt_ge_cases n k) as [H|H].
  - by rewrite Z.mod_pow2_bits_low.
  - rewrite Z.mod_pow2_bits_high by lia. by rewrite Z.lxor_spec, !(testbit_high _ k).
Qed.

Lemma lxor_split x y a b k :
  0 <= k -> 0 <= a < 2 ^ k -> 0 <= b < 2 ^ k ->
  Z.lxor (x * 2 ^ k + a) (y * 2 ^ k + b) = Z.lxor x y * 2 ^ k + Z.lxor a b.
Proof.
  intros Hk Ha Hb. pose proof (lxor_range a b k Hk Ha Hb).
  apply Z.bits_inj'. intros n Hn. rewrite Z.lxor_spec, !testbit_split by done.
  case_match; by rewrite Z.lxor_spec.
Qed.

(** The distance of two hashes of the same length as a number. *)
Definition distance (a b : Hash) : Z := Z.lxor (be_val a) (be_val b).

Lemma distance_cons x y a b :
  length a = length b ->
  distance (x :: a) (y :: b) = Z.lxor (ub x) (ub y) * 2 ^ (8 * Z.of_nat (length a)) + distance a b.
Proof.
  intros H. unfold distance. rewrite !be_val_cons, <- H, pow256_pow2. apply lxor_split; [lia| |].
  - rewrite <- pow256_pow2. apply be_val_bound.
  - rewrite <- pow256_pow2, H. apply be_val_bound.
Qed.

Lemma distance_range a b : length a = length b -> 0 <= distance a b < 2 ^ (8 * Z.of_nat (length a)).
Proof.
  intros H. apply lxor_range; [lia| |].
  - rewrite <- pow256_pow2. apply be_val_bound.
  - rewrite <- pow256_pow2, H. apply be_val_bound.
Qed.

Lemma byte_lxor_range x y : 0 <= Z.lxor (ub x) (ub y) < 256.
Proof. apply (lxor_range _ _ 8); [done|apply ub_range..]. Qed.

Lemma lzcount_correct d : 0 < d < 256 -> nth (Z.to_nat d) lzcount 0 = 8 - bitlen d.
Proof.
  intros H. assert (Forall (fun n => nth n lzcount 0 = 8 - bitlen (Z.of_nat n)) (seq 1 255)) as Hall.
  { by apply (bool_decide_unpack _); vm_compute. }
  rewrite Forall_forall in Hall. rewrite (Hall (Z.to_nat d)) by (apply elem_of_seq; lia).
  by rewrite Z2Nat.id by lia.
Qed.

Lemma bitlen_shift d r k : 0 < d -> 0 <= k -> 0 <= r < 2 ^ k -> bitlen (d * 2 ^ k + r) = bitlen d + k.
Proof.
  intros Hd Hk Hr. unfold bitlen. rewrite !(proj2 (Z.eqb_neq _ _)) by nia.
  rewrite (Z.log2_unique (d * 2 ^ k + r) (Z.log2 d + k)); [lia| |].
  - pose proof (Z.log2_nonneg d). lia.
  - pose proof (Z.log2_spec d Hd). pose proof (Z.log2_nonneg d).
    rewrite Z.pow_succ_r, !Z.pow_add_r by lia. rewrite Z.pow_succ_r in * by lia. nia.
Qed.

(** [logdist] is the number of bits of the distance. *)
Lemma logdist_correct a b : length a = length b -> logdist a b = bitlen (distance a b).
Proof.
  unfold logdist. revert b. induction a as [|x a IH]; intros [|y b] H; try done. injection H as H.
  rewrite distance_cons by done. cbn [leading_zeros length].
  pose proof (byte_lxor_range x y). pose proof (distance_range a b H).
  destruct (Z.eqb_spec (Z.lxor (ub x) (ub y)) 0) as [E|E].
  - rewrite E, Z.mul_0_l, Z.add_0_l, <- IH by done. lia.
  - rewrite lzcount_correct by lia. rewrite bitlen_shift by lia. lia.
Qed.

Definition cmp (x y : Z) : Z := if y <? x then 1 else if x <? y then -1 else 0.

(** [distcmp] compares the distances to the target. *)
Lemma distcmp_correct target a b :
  length a = length target -> length b = length target ->
  distcmp target a b = cmp (distance a target) (distance b target).
Proof.
  revert a b. induction target as [|t target IH]; intros [|x a] [|y b] Ha Hb; try done.
  injection Ha as Ha. injection Hb as Hb. cbn [distcmp]. rewrite !distance_cons, Ha, Hb by done.
  rewrite IH by done. pose proof (distance_range a target Ha). pose proof (distance_range b target Hb).
  rewrite Ha in *. rewrite Hb in *. unfold cmp.
  set (P := 2 ^ (8 * Z.of_nat (length target))) in *.
  set (da := Z.lxor (ub x) (ub t)). set (db := Z.lxor (ub y) (ub t)).
  destruct (Z.ltb_spec db da), (Z.ltb_spec da db); try lia.
  - by rewrite (proj2 (Z.ltb_lt _ _)) by nia.
  - rewrite (proj2 (Z.ltb_ge _ _)) by nia. by rewrite (proj2 (Z.ltb_lt _ _)) by nia.
  - replace db with da by lia.
    destruct (Z.ltb_spec (distance b target) (distance a target)), (Z.ltb_spec (distance a target) (distance b target));
      destruct (Z.ltb_spec (da * P + distance b target) (da * P + distance a target)); try lia;
      by destruct (Z.ltb_spec (da * P + distance a target) (da * P + distance b target)); try lia.
Qed.

Lemma distance_same_prefix pre a b : length a = length b -> distance (pre ++ a) (pre ++ b) = distance a b.
Proof.
  intros H. induction pre as [|x pre IH]; [done|]. cbn [app].
  rewrite distance_cons by (by rewrite !length_app, H). by rewrite Z.lxor_nilpotent, IH.
Qed.

Lemma flip_bit x j :
  (j < 8)%nat ->
  let bit := 2 ^ Z.of_nat j in
  Z.lxor (ub x) (ub (u8 (Z.lor (Z.ldiff (ub x) bit) (Z.land (Z.lnot (ub x)) bit)))) = bit.
Proof.
  intros Hj. cbn zeta.
  assert (Forall (fun p => let bit := 2 ^ Z.of_nat p.2 in
    Z.lxor p.1 (Z.lor (Z.ldiff p.1 bit) (Z.land (Z.lnot p.1) bit) mod 256) = bit)
    (list_prod (Z.of_nat <$> seq 0 256) (seq 0 8))) as Hall by (by apply (bool_decide_unpack _); vm_compute).
  rewrite Forall_forall in Hall. rewrite ub_u8. apply (Hall (ub x, j)).
  apply list_elem_of_In, in_prod; apply list_elem_of_In.
  - apply list_elem_of_fmap. exists (Z.to_nat (ub x)). pose proof (ub_range x).
    split; [lia|]. apply elem_of_seq. lia.
  - apply elem_of_seq. lia.
Qed.

(** The bit [hashAtDistance] flips, and where it lies. *)
Lemma hashAtDistance_shape a n rnd :
  0 < n <= 8 * Z.of_nat (length a) ->
  exists p j, (p < length a)%nat /\ (j < 8)%nat /\ n = 8 * Z.of_nat (length a - (p + 1)) + Z.of_nat j + 1 /\
  hashAtDistance a n rnd
  = let x := ub (nth p a Byte.x00) in let bit := 2 ^ Z.of_nat j in
    take p a ++ u8 (Z.lor (Z.ldiff x bit) (Z.land (Z.lnot x) bit)) :: take (length a - (p + 1)) rnd.
Proof.
  intros Hn. unfold hashAtDistance. rewrite (proj2 (Z.eqb_neq n 0)) by lia.
  pose proof (Z.div_mod n 8 ltac:(lia)) as Hd. pose proof (Z.mod_pos_bound n 8 ltac:(lia)).
  destruct (Z.eqb_spec (n mod 8) 0) as [E|E].
  - rewrite (proj2 (Z.eqb_eq 0 0)) by done.
    exists (Z.to_nat (Z.of_nat (length a) - n / 8 - 1 + 1)), 7%nat. repeat split; try lia.
  - assert (0 < Z.shiftl 1 (n mod 8 - 1)) as Hp.
    { rewrite Z.shiftl_1_l. apply Z.pow_pos_nonneg; lia. }
    rewrite (proj2 (Z.eqb_neq (Z.shiftl 1 _) 0)) by lia.
    exists (Z.to_nat (Z.of_nat (length a) - n / 8 - 1)), (Z.to_nat (n mod 8 - 1)).
    repeat split; try lia. rewrite Z2Nat.id, Z.shiftl_1_l by lia. done.
Qed.

(** The hash it returns is at the distance asked for. *)
Lemma hashAtDistance_correct a n rnd :
  0 <= n <= 8 * Z.of_nat (length a) -> (length a <= length rnd)%nat -> logdist a (hashAtDistance a n rnd) = n.
Proof.
  intros Hn Hr. destruct (Z.eq_dec n 0) as [->|Hne].
  { unfold hashAtDistance. cbn. rewrite logdist_correct by done. unfold distance. by rewrite Z.lxor_nilpotent. }
  destruct (hashAtDistance_shape a n rnd ltac:(lia)) as (p & j & Hp & Hj & En & ->). cbn zeta.
  destruct (lookup_lt_is_Some_2 a p Hp) as [x Ex].
  rewrite (nth_lookup_Some _ _ _ _ Ex).
  rewrite <- (take_drop_middle a p x Ex) at 1.
  assert (length (drop (S p) a) = length (take (length a - (p + 1)) rnd)) as Hl.
  { rewrite length_drop, length_take. lia. }
  rewrite logdist_correct by (rewrite !length_app; cbn; lia).
  rewrite distance_same_prefix, distance_cons, flip_bit by (cbn; lia).
  pose proof (distance_range _ _ Hl) as Hd. rewrite length_drop in Hd |- *.
  assert (0 < 2 ^ Z.of_nat j) by (apply Z.pow_pos_nonneg; lia).
  rewrite bitlen_shift by lia. unfold bitlen. rewrite (proj2 (Z.eqb_neq _ _)) by lia.
  rewrite Z.log2_pow2 by lia. lia.
Qed.

(** ** Nodes *)

Record Node := mk_node {
  n_IP : IP;
  n_UDP : Z;
  n_TCP : Z;
  n_ID : NodeID;
  n_sha : Hash;
  n_addedAt : Z
}.

#[global] Instance Node_eq_dec : EqDecision Node.
Proof. solve_decision. Defined.

Definition Incomplete (n : Node) : bool := bool_decide (n_IP n = []).

Definition str (s : string) : bytes := String.list_byte_of_string s.
Definition Itoa (z : Z) : bytes := str (pretty z).

(** [net.IP.String]; the sixteen bit groups of an IPv6 address are printed without leading zeros, the
    first longest run of at least two zero groups as two colons. *)
Definition groups (ip : IP) : list Z :=
  (fun i => ub (nth (2 * i) ip Byte.x00) * 256 + ub (nth (2 * i + 1) ip Byte.x00)) <$> seq 0 8.

Definition drop_zeros (s : bytes) : bytes :=
  match s with
  | a :: b :: c :: d :: _ =>
      if negb (bool_decide (a = Byte.x30)) then s
      else if negb (bool_decide (b = Byte.x30)) then drop 1 s
      else if negb (bool_decide (c = Byte.x30)) then drop 2 s
      else drop 3 s
  | _ => s
  end.
Definition hex_group (g : Z) : bytes := drop_zeros (hex_EncodeToString [u8 (g / 256); u8 g]).

Fixpoint zero_run (gs : list Z) : nat :=
  match gs with
  | 0 :: gs' => S (zero_run gs')
  | _ => O
  end.

(** The start and length of the run; [fuel] bounds the groups left. *)
Fixpoint longest_run (fuel i : nat) (gs : list Z) (best : nat * nat) : nat * nat :=
  match fuel with
  | O => best
  | S fuel' =>
      let r := zero_run (drop i gs) in
      if decide (snd best < r)%nat then longest_run fuel' (i + r + 1) gs (i, r)
      else longest_run fuel' (i + 1) gs best
  end.

Fixpoint print_groups (first : bool) (gs : list Z) : bytes :=
  match gs with
  | [] => []
  | g :: gs' => (if first then [] else str ":") ++ hex_group g ++ print_groups false gs'
  end.

Definition IP_String (ip : IP) : bytes :=
  if decide (ip = []) then str "<nil>" else
  match To4 ip with
  | Some ip4 =>
      let d i := Itoa (ub (nth i ip4 Byte.x00)) in
      d 0%nat ++ str "." ++ d 1%nat ++ str "." ++ d 2%nat ++ str "." ++ d 3%nat
  | None =>
      if negb (bool_decide (length ip = IPv6len)) then str "?" ++ hex_EncodeToString ip else
      let gs := groups ip in
      let '(s, r) := longest_run 8 0 gs (0, 0)%nat in
      if decide (r <= 1)%nat then print_groups true gs
      else print_groups true (take s gs) ++ str "::" ++ print_groups true (drop (s + r) gs)
  end.

(** [net.TCPAddr.String] *)
Definition TCPAddr_String (ip : IP) (port : Z) : bytes :=
  match ip, To4 ip with
  | [], _ => str ":" ++ Itoa port
  | _, Some _ => IP_String ip ++ str ":" ++ Itoa port
  | _, None => if decide (Byte.x3a ∈ IP_String ip) then str "[" ++ IP_String ip ++ str "]:" ++ Itoa port
               else IP_String ip ++ str ":" ++ Itoa port
  end.

(** The characters of a host and of a hexadecimal user name need no escaping. *)
Definition Node_String (n : Node) : bytes :=
  str "enode://" ++
  (if Incomplete n then hex_EncodeToString (n_ID n)
   else hex_EncodeToString (n_ID n) ++ str "@" ++ TCPAddr_String (n_IP n) (n_TCP n)
        ++ (if negb (n_UDP n =? n_TCP n) then str "?discport=" ++ Itoa (n_UDP n) else [])).

Section NewNode.
Context `{HX : Xor}.

Definition NewNode (id : NodeID) (ip : IP) (udpPort tcpPort : Z) : outcome Node :=
  sha ← Keccak256Hash [id];
  Ret (mk_node (default ip (To4 ip)) udpPort tcpPort id sha 0).

End NewNode.

Example IP_String_examples :
  IP_String (u8 <$> [10; 3; 58; 6]) = str "10.3.58.6" /\
  IP_String (u8 <$> [0x20; 1; 0xd; 0xb8; 0; 0; 0; 0; 0; 0; 0; 0; 0; 0; 0; 1]) = str "2001:db8::1" /\
  IP_String IPv6unspecified = str "::" /\ IP_String IPv6loopback = str "::1" /\
  IP_String (u8 <$> [0; 1; 0; 0; 0; 2; 0; 0; 0; 0; 0; 3; 0; 0; 0; 0]) = str "1:0:2::3:0:0" /\
  TCPAddr_String IPv6loopback 30303 = str "[::1]:30303".
Proof. by vm_compute. Qed.
