(* ===== verification/Table.v ===== *)
(** * The node table

    [src/p2p/discover/table.go]: nodes in buckets by the distance of the hash of their identifier to
    ours, at most sixteen in each with at most ten replacements, and limits on addresses of one subnet.
    Every operation holds the mutex of the table for its whole body, so an interleaving of goroutines
    is a sequence of these operations.  Randomness and the clock are arguments. *)

From S2P Require Import Prelude BigInt Keccak Sha3 Protocol Netutil Node.

(** ** State *)

Definition alpha : nat := 3.
Definition bucketSize : nat := 16.
Definition maxReplacements : nat := 10.
Definition hashBits : Z := 256.
Definition nBuckets : nat := 17.
Definition bucketMinDistance : Z := 239.
Definition bucketIPLimit : Z := 2.
Definition bucketSubnet : nat := 24.
Definition tableIPLimit : Z := 10.
Definition tableSubnet : nat := 24.

Record bucket := mk_bucket { entries : list Node; replacements : list Node; b_ips : DistinctNetSet }.
Record Table := mk_table { t_buckets : list bucket; t_ips : DistinctNetSet; t_self : Node }.

Definition newTable (self : Node) : Table :=
  mk_table (replicate nBuckets (mk_bucket [] [] (mk_nets bucketSubnet bucketIPLimit ∅)))
    (mk_nets tableSubnet tableIPLimit ∅) self.

(** ** Lists of nodes *)

(** The index of the first node with the identifier. *)
Definition node_index (l : list Node) (id : NodeID) : option nat :=
  fst <$> list_find (fun e => n_ID e = id) l.

(** [max] is positive, so that a full list has a last element. *)
Definition pushNode (l : list Node) (n : Node) (max : nat) : list Node * option Node :=
  if decide (length l < max)%nat then (n :: l, None) else (n :: take (length l - 1) l, last l).

Definition deleteNode (l : list Node) (n : Node) : list Node :=
  match node_index l (n_ID n) with
  | Some i => take i l ++ drop (S i) l
  | None => l
  end.

(** ** Buckets

    An operation on a bucket also changes the counters of the whole table. *)

Definition bucket_index (self sha : Hash) : nat :=
  let d := logdist self sha in
  if d <=? bucketMinDistance then 0 else Z.to_nat (d - bucketMinDistance - 1).

Definition addIP (tips : DistinctNetSet) (b : bucket) (ip : IP) : bool * DistinctNetSet * bucket :=
  if IsLAN ip then (true, tips, b) else
  let '(ok, tips1) := nets_Add ip tips in
  if negb ok then (false, tips1, b) else
  let '(ok, bips) := nets_Add ip (b_ips b) in
  if negb ok then (false, nets_Remove ip tips1, mk_bucket (entries b) (replacements b) bips)
  else (true, tips1, mk_bucket (entries b) (replacements b) bips).

Definition removeIP (tips : DistinctNetSet) (b : bucket) (ip : IP) : DistinctNetSet * bucket :=
  if IsLAN ip then (tips, b)
  else (nets_Remove ip tips, mk_bucket (entries b) (replacements b) (nets_Remove ip (b_ips b))).

Definition with_entries (es : list Node) (b : bucket) : bucket := mk_bucket es (replacements b) (b_ips b).
Definition with_replacements (rs : list Node) (b : bucket) : bucket := mk_bucket (entries b) rs (b_ips b).

Definition addReplacement (tips : DistinctNetSet) (b : bucket) (n : Node) : DistinctNetSet * bucket :=
  if decide (is_Some (node_index (replacements b) (n_ID n))) then (tips, b) else
  let '(ok, tips, b) := addIP tips b (n_IP n) in
  if negb ok then (tips, b) else
  let '(rs, removed) := pushNode (replacements b) n maxReplacements in
  let b := with_replacements rs b in
  match removed with
  | Some r => removeIP tips b (n_IP r)
  | None => (tips, b)
  end.

(** [copy(b.entries[1:], b.entries[:i])] *)
Definition bump (b : bucket) (n : Node) : bool * bucket :=
  match node_index (entries b) (n_ID n) with
  | Some i => (true, with_entries (n :: take i (entries b) ++ drop (S i) (entries b)) b)
  | None => (false, b)
  end.

Definition set_addedAt (now : Z) (n : Node) : Node :=
  mk_node (n_IP n) (n_UDP n) (n_TCP n) (n_ID n) (n_sha n) now.

Definition bumpOrAdd (now : Z) (tips : DistinctNetSet) (b : bucket) (n : Node) : bool * DistinctNetSet * bucket :=
  let '(bumped, b) := bump b n in
  if bumped then (true, tips, b) else
  if decide (bucketSize <= length (entries b))%nat then (false, tips, b) else
  let '(ok, tips, b) := addIP tips b (n_IP n) in
  if negb ok then (false, tips, b) else
  let n := set_addedAt now n in
  let b := with_entries (pushNode (entries b) n bucketSize).1 b in
  (true, tips, with_replacements (deleteNode (replacements b) n) b).

Definition deleteInBucket (tips : DistinctNetSet) (b : bucket) (n : Node) : DistinctNetSet * bucket :=
  removeIP tips (with_entries (deleteNode (entries b) n) b) (n_IP n).

(** [rnd] is the number drawn in [tab.rand.Intn], before its reduction. *)
Definition replace (rnd : nat) (tips : DistinctNetSet) (b : bucket) (last' : Node) : option Node * DistinctNetSet * bucket :=
  match last (entries b) with
  | None => (None, tips, b)
  | Some e =>
      if negb (bool_decide (n_ID e = n_ID last')) then (None, tips, b) else
      match replacements b !! (rnd mod length (replacements b))%nat with
      | None => let '(tips, b) := deleteInBucket tips b last' in (None, tips, b)
      | Some r =>
          let b := with_replacements (deleteNode (replacements b) r) b in
          let b := with_entries (<[(length (entries b) - 1)%nat := r]> (entries b)) b in
          let '(tips, b) := removeIP tips b (n_IP last') in (Some r, tips, b)
      end
  end.

(** ** The table *)

(** Runs an operation on the bucket with index [i]. *)
Definition on_bucket (t : Table) (i : nat) (f : DistinctNetSet -> bucket -> DistinctNetSet * bucket) : Table :=
  match t_buckets t !! i with
  | Some b => let '(tips, b) := f (t_ips t) b in mk_table (<[i := b]> (t_buckets t)) tips (t_self t)
  | None => t
  end.

Definition table_bucket (t : Table) (sha : Hash) : nat := bucket_index (n_sha (t_self t)) sha.

Definition Table_add (now : Z) (n : Node) (t : Table) : Table :=
  on_bucket t (table_bucket t (n_sha n)) (fun tips b =>
    let '(ok, tips, b) := bumpOrAdd now tips b n in
    if ok then (tips, b) else addReplacement tips b n).

Definition Table_delete (n : Node) (t : Table) : Table :=
  on_bucket t (table_bucket t (n_sha n)) (fun tips b => deleteInBucket tips b n).

Fixpoint stuff (now : Z) (nodes : list Node) (t : Table) : Table :=
  match nodes with
  | [] => t
  | n :: nodes =>
      if decide (n_ID n = n_ID (t_self t)) then stuff now nodes t else
      stuff now nodes
        (on_bucket t (table_bucket t (n_sha n)) (fun tips b =>
           if decide (length (entries b) < bucketSize)%nat then let '(_, tips, b) := bumpOrAdd now tips b n in (tips, b)
           else (tips, b)))
  end.

(** The last node of the first bucket that is not empty, in the order of a random permutation. *)
Fixpoint nodeToRevalidate (perm : list nat) (t : Table) : option (Node * nat) :=
  match perm with
  | [] => None
  | bi :: perm =>
      match (t_buckets t !! bi) ≫= (fun b => last (entries b)) with
      | Some n => Some (n, bi)
      | None => nodeToRevalidate perm t
      end
  end.

(** The second half of [doRevalidate], after the ping. *)
Definition revalidated (ok : bool) (rnd : nat) (n : Node) (bi : nat) (t : Table) : Table :=
  on_bucket t bi (fun tips b =>
    if ok then (tips, (bump b n).2)
    else let '(_, tips, b) := replace rnd tips b n in (tips, b)).

Definition table_len (t : Table) : nat := sum_list_with (fun b => length (entries b)) (t_buckets t).

(** ** Invariant *)

Definition ids (l : list Node) : list NodeID := n_ID <$> l.
Definition bucket_nodes (b : bucket) : list Node := entries b ++ replacements b.

Lemma node_index_Some l id i :
  node_index l id = Some i ->
  exists e, l = take i l ++ e :: drop (S i) l /\ n_ID e = id /\ id ∉ ids (take i l).
Proof.
  unfold node_index. intros E. apply fmap_Some in E as ([j e] & E & ->). cbn [fst].
  apply list_find_Some in E as (El & He & Hmin). exists e. split_and!; [by rewrite take_drop_middle|done|].
  unfold ids. rewrite list_elem_of_fmap. intros (e' & -> & He').
  apply list_elem_of_lookup in He' as (k & Hk). pose proof (lookup_lt_Some _ _ _ Hk) as Hlt.
  rewrite length_take in Hlt. rewrite lookup_take_lt in Hk by lia. exact (Hmin k e' Hk ltac:(lia) eq_refl).
Qed.

Lemma node_index_None l id : node_index l id = None <-> id ∉ ids l.
Proof.
  unfold node_index. rewrite fmap_None, list_find_None, Forall_forall. unfold ids. rewrite list_elem_of_fmap.
  split; [intros H (e & -> & He); by eapply H|]. intros H x Hx Hid. apply H. by exists x.
Qed.

Lemma deleteNode_split l n :
  ((n_ID n ∉ ids l) /\ deleteNode l n = l) \/
  (exists l1 e l2, l = l1 ++ e :: l2 /\ n_ID e = n_ID n /\ deleteNode l n = l1 ++ l2).
Proof.
  unfold deleteNode. destruct (node_index l (n_ID n)) as [i|] eqn:E.
  - right. apply node_index_Some in E as (e & El & He & _). by exists (take i l), e, (drop (S i) l).
  - left. by apply node_index_None in E.
Qed.

Lemma deleteNode_sublist l n : deleteNode l n `sublist_of` l.
Proof.
  destruct (deleteNode_split l n) as [[_ ->]|(l1 & e & l2 & -> & _ & ->)]; [done|].
  apply sublist_app; [done|]. by apply sublist_cons.
Qed.

Lemma sublist_ids l k : l `sublist_of` k -> ids l ⊆+ ids k.
Proof. intros H. apply sublist_submseteq. unfold ids. induction H; cbn; by constructor. Qed.

Lemma sublist_Forall_2 {A} (P : A -> Prop) l k : l `sublist_of` k -> Forall P k -> Forall P l.
Proof. intros Hs. rewrite !Forall_forall. intros H x Hx. apply H. by eapply elem_of_sublist. Qed.

Lemma deleteNode_gone l n : NoDup (ids l) -> n_ID n ∉ ids (deleteNode l n).
Proof.
  destruct (deleteNode_split l n) as [[Hn ->]|(l1 & e & l2 & -> & He & ->)]; [done|].
  unfold ids. rewrite !fmap_app, fmap_cons, NoDup_app, NoDup_cons, He. set_solver.
Qed.

Lemma pushNode_spec l n max :
  (0 < max)%nat -> (length l <= max)%nat ->
  exists l', (pushNode l n max).1 = n :: l' /\ l' `sublist_of` l /\ (length (n :: l') <= max)%nat.
Proof.
  intros Hm Hl. unfold pushNode. case_decide as H; [exists l; by split_and!|].
  exists (take (length l - 1) l). split_and!; [done|apply sublist_take|]. cbn. rewrite length_take. lia.
Qed.

Lemma addIP_nodes tips b ip ok tips' b' :
  addIP tips b ip = (ok, tips', b') -> entries b' = entries b /\ replacements b' = replacements b.
Proof. unfold addIP. intros E. go_cases. Qed.

Lemma removeIP_nodes tips b ip tips' b' :
  removeIP tips b ip = (tips', b') -> entries b' = entries b /\ replacements b' = replacements b.
Proof. unfold removeIP. intros E. go_cases. Qed.

Lemma submseteq_NoDup {A} (l k : list A) : l ⊆+ k -> NoDup k -> NoDup l.
Proof. intros (l' & ->)%submseteq_Permutation. rewrite NoDup_app. tauto. Qed.

Section invariant.
Context `{HX : Xor}.

(** A node that belongs into bucket [i] of the table of [self]. *)
Record node_in (self : Node) (i : nat) (n : Node) : Prop := {
  ni_sha : Keccak256Hash [n_ID n] = Ret (n_sha n);
  ni_bucket : bucket_index (n_sha self) (n_sha n) = i;
  ni_other : n_ID n <> n_ID self
}.

Record bucket_inv (self : Node) (i : nat) (b : bucket) : Prop := {
  bi_entries : (length (entries b) <= bucketSize)%nat;
  bi_replacements : (length (replacements b) <= maxReplacements)%nat;
  bi_ids : NoDup (ids (bucket_nodes b));
  bi_nodes : Forall (node_in self i) (bucket_nodes b)
}.

Record table_inv (t : Table) : Prop := {
  ti_buckets : length (t_buckets t) = nBuckets;
  ti_bucket : forall i b, t_buckets t !! i = Some b -> bucket_inv (t_self t) i b
}.

Lemma node_in_addedAt self i n now : node_in self i n -> node_in self i (set_addedAt now n).
Proof. by intros []; split. Qed.

(** The general form of every change: nodes are dropped, or moved, or the new node is put in. *)
Lemma bucket_inv_nodes self i b es rs nets :
  bucket_inv self i b -> (length es <= bucketSize)%nat -> (length rs <= maxReplacements)%nat ->
  ids (es ++ rs) ⊆+ ids (bucket_nodes b) -> Forall (node_in self i) (es ++ rs) ->
  bucket_inv self i (mk_bucket es rs nets).
Proof. intros [] ? ? Hs ?. split; try done. cbn. by eapply submseteq_NoDup. Qed.

Lemma bucket_inv_same self i b b' :
  entries b' = entries b -> replacements b' = replacements b -> bucket_inv self i b -> bucket_inv self i b'.
Proof. intros E1 E2 []. split; unfold bucket_nodes in *; by rewrite ?E1, ?E2. Qed.

Ltac nodes_tac := unfold bucket_nodes, with_entries, with_replacements, ids in *; cbn [entries replacements b_ips] in *.

Lemma bump_inv self i b n :
  bucket_inv self i b -> node_in self i n -> bucket_inv self i (bump b n).2.
Proof.
  intros Hb Hn. unfold bump. destruct (node_index _ _) as [k|] eqn:E; [|done].
  apply node_index_Some in E as (e & El & He & _).
  destruct b as [es rs nets]. nodes_tac. set (l1 := take k es) in *. set (l2 := drop (S k) es) in *. clearbody l1 l2.
  subst es. pose proof Hb as [H1 H2 _ H4]. nodes_tac.
  eapply bucket_inv_nodes; [done|..|].
  - rewrite length_app in H1. cbn in *. rewrite length_app. lia.
  - done.
  - nodes_tac. rewrite <- app_comm_cons, !fmap_cons, !fmap_app, fmap_cons, He. by rewrite <- Permutation_middle.
  - rewrite ?Forall_app, ?Forall_cons, ?Forall_app in *. tauto.
Qed.

Lemma bumpOrAdd_inv self i now tips b n ok tips' b' :
  bucket_inv self i b -> node_in self i n -> bumpOrAdd now tips b n = (ok, tips', b') ->
  bucket_inv self i b' /\ (ok = false -> n_ID n ∉ ids (entries b')).
Proof.
  intros Hb Hn. unfold bumpOrAdd. pose proof (bump_inv self i b n Hb Hn) as Hbump. unfold bump in *.
  destruct (node_index _ _) as [k|] eqn:E; [naive_solver|]. apply node_index_None in E.
  case_decide as Hfull; [naive_solver|].
  destruct (addIP tips b (n_IP n)) as [[okIP tips1] b1] eqn:EIP. apply addIP_nodes in EIP as [E1 E2].
  destruct okIP; cbn [negb]; intros [= <- <- <-]; [|split; [by apply (bucket_inv_same self i b)|by rewrite E1]].
  split; [|done]. nodes_tac. rewrite E1, E2. destruct Hb as [H1 H2 H3 H4].
  unfold pushNode. rewrite decide_True by lia. cbn [fst].
  set (n' := set_addedAt now n). assert (n_ID n' = n_ID n) as En by done.
  split; nodes_tac.
  - cbn. lia.
  - etrans; [by apply sublist_length, deleteNode_sublist|done].
  - rewrite <- app_comm_cons, fmap_cons, En. apply NoDup_cons. rewrite fmap_app in H3 |- *.
    apply NoDup_app in H3 as (Hd1 & Hd2 & Hd3). pose proof (deleteNode_sublist (replacements b) n') as Hs.
    apply sublist_ids in Hs. split.
    + rewrite elem_of_app. pose proof (deleteNode_gone (replacements b) n' Hd3) as Hg. by intros [?|?].
    + apply NoDup_app. split_and!; [done| |by eapply submseteq_NoDup].
      intros x Hx Hr. apply (Hd2 x Hx). by eapply elem_of_submseteq.
  - rewrite <- app_comm_cons. rewrite Forall_app in H4. apply Forall_cons. split; [by apply node_in_addedAt|].
    apply Forall_app. split; [tauto|]. eapply sublist_Forall_2; [apply deleteNode_sublist|tauto].
Qed.

Lemma removeIP_inv self i tips b ip tips' b' :
  bucket_inv self i b -> removeIP tips b ip = (tips', b') -> bucket_inv self i b'.
Proof. intros Hb E. apply removeIP_nodes in E as [E1 E2]. by apply (bucket_inv_same self i b). Qed.

Lemma addReplacement_inv self i tips b n tips' b' :
  bucket_inv self i b -> node_in self i n -> n_ID n ∉ ids (entries b) ->
  addReplacement tips b n = (tips', b') -> bucket_inv self i b'.
Proof.
  intros Hb Hn Hne. unfold addReplacement. case_decide as Hin; [naive_solver|].
  apply eq_None_not_Some, node_index_None in Hin.
  destruct (addIP tips b (n_IP n)) as [[ok tips1] b1] eqn:EIP. apply addIP_nodes in EIP as [E1 E2].
  destruct ok; cbn [negb]; [|intros [= <- <-]; by apply (bucket_inv_same self i b)].
  destruct (pushNode_spec (replacements b1) n maxReplacements) as (l' & Ep & Hs & Hl); [unfold maxReplacements; lia| |].
  { rewrite E2. apply Hb. }
  destruct (pushNode _ _ _) as [rs removed]. cbn in Ep. subst rs. rewrite E2 in Hs.
  assert (bucket_inv self i (with_replacements (n :: l') b1)) as Hb1.
  { destruct Hb as [H1 H2 H3 H4]. split; nodes_tac; rewrite ?E1; try done.
    - rewrite fmap_app, fmap_cons, <- Permutation_middle. apply NoDup_cons. rewrite <- fmap_app.
      assert (ids (entries b ++ l') ⊆+ ids (entries b ++ replacements b)) as Hsub by by apply sublist_ids, sublist_app.
      split; [|by eapply submseteq_NoDup].
      apply sublist_ids in Hs. rewrite fmap_app, elem_of_app. intros [?|Hx]; [done|].
      apply Hin. by eapply elem_of_submseteq.
    - rewrite Forall_app in *. rewrite Forall_cons. split; [tauto|split; [done|]]. by eapply sublist_Forall_2; [|apply H4]. }
  destruct removed as [r|]; intros E; [by eapply removeIP_inv|by injection E as <- <-].
Qed.

Lemma deleteInBucket_inv self i tips b n tips' b' :
  bucket_inv self i b -> deleteInBucket tips b n = (tips', b') -> bucket_inv self i b'.
Proof.
  intros Hb. apply removeIP_inv. pose proof (deleteNode_sublist (entries b) n) as Hs.
  assert ((deleteNode (entries b) n ++ replacements b) `sublist_of` bucket_nodes b) as Hs2 by by apply sublist_app.
  eapply bucket_inv_nodes; [done|..].
  - etrans; [by apply sublist_length|apply Hb].
  - apply Hb.
  - by apply sublist_ids.
  - eapply sublist_Forall_2; [done|apply Hb].
Qed.

Lemma replace_inv self i rnd tips b n r tips' b' :
  bucket_inv self i b -> replace rnd tips b n = (r, tips', b') -> bucket_inv self i b'.
Proof.
  intros Hb. unfold replace. destruct (last (entries b)) as [e|] eqn:El; [|naive_solver].
  case_bool_decide as He; cbn [negb]; [|naive_solver].
  destruct (replacements b !! _) as [r'|] eqn:Er.
  2:{ destruct (deleteInBucket tips b n) as [tips1 b1] eqn:E. intros [= <- <- <-]. by eapply deleteInBucket_inv. }
  destruct (removeIP _ _ _) as [tips1 b1] eqn:E. intros [= <- <- <-]. eapply removeIP_inv, E.
  apply last_Some in El as (es & El). apply list_elem_of_lookup_2 in Er.
  destruct b as [es' rs nets]. nodes_tac. subst es'. rewrite length_app, Nat.add_sub.
  rewrite insert_app_r_alt, Nat.sub_diag by lia. cbn [insert list_insert].
  destruct (deleteNode_split rs r') as [[Hn _]|(l1 & e' & l2 & Ers & He' & Edel)].
  { destruct Hn. unfold ids. by apply list_elem_of_fmap_2. }
  rewrite Edel. subst rs. pose proof Hb as [H1 H2 H3 H4]. nodes_tac.
  eapply bucket_inv_nodes; [done|..].
  - by rewrite length_app in *.
  - rewrite length_app in *. cbn in *. lia.
  - nodes_tac. rewrite !fmap_app, !fmap_cons, He', <- !app_assoc. cbn [fmap list_fmap app].
    apply submseteq_app; [done|]. rewrite <- (Permutation_middle (n_ID <$> l1)). by constructor.
  - rewrite Forall_forall in H4. rewrite ?Forall_app, ?Forall_cons.
    split_and!; try (apply Forall_forall; intros x Hx); apply H4; set_solver.
Qed.

Lemma on_bucket_inv t i f :
  table_inv t ->
  (forall tips b tips' b', bucket_inv (t_self t) i b -> f tips b = (tips', b') -> bucket_inv (t_self t) i b') ->
  table_inv (on_bucket t i f) /\ t_self (on_bucket t i f) = t_self t.
Proof.
  intros [Hl Hb] Hf. unfold on_bucket. destruct (t_buckets t !! i) as [b|] eqn:E; [|done].
  destruct (f (t_ips t) b) as [tips b'] eqn:Ef. split; [|done]. split; cbn; [by rewrite length_insert|].
  intros j bj. rewrite list_lookup_insert_Some. intros [(<- & <- & _)|[_ Hj]]; [|by apply Hb].
  eapply Hf; [by apply Hb|done].
Qed.

Lemma newTable_inv self : table_inv (newTable self).
Proof.
  split; [done|]. cbn [t_buckets newTable]. intros i b. rewrite lookup_replicate. intros [-> Hi].
  split; try apply NoDup_nil; try apply Forall_nil; done || (unfold bucketSize, maxReplacements; cbn; lia).
Qed.

(** A node of the network other than this one. *)
Definition remote (t : Table) (n : Node) : Prop :=
  Keccak256Hash [n_ID n] = Ret (n_sha n) /\ n_ID n <> n_ID (t_self t).

Lemma remote_in t n : remote t n -> node_in (t_self t) (table_bucket t (n_sha n)) n.
Proof. by intros []. Qed.

Lemma Table_add_inv now n t :
  table_inv t -> remote t n -> table_inv (Table_add now n t) /\ t_self (Table_add now n t) = t_self t.
Proof.
  intros Ht Hn. apply on_bucket_inv; [done|]. intros tips b tips' b' Hb.
  destruct (bumpOrAdd now tips b n) as [[ok tips1] b1] eqn:E.
  apply remote_in in Hn. eapply bumpOrAdd_inv in E as [Hb1 Hout]; [|done..].
  destruct ok; [by intros [= <- <-]|]. by apply addReplacement_inv; auto.
Qed.

Lemma Table_delete_inv n t : table_inv t -> table_inv (Table_delete n t) /\ t_self (Table_delete n t) = t_self t.
Proof. intros Ht. apply on_bucket_inv; [done|]. intros. by eapply deleteInBucket_inv. Qed.

Lemma revalidated_inv ok rnd n bi t :
  table_inv t -> node_in (t_self t) bi n ->
  table_inv (revalidated ok rnd n bi t) /\ t_self (revalidated ok rnd n bi t) = t_self t.
Proof.
  intros Ht Hn. apply on_bucket_inv; [done|]. intros tips b tips' b' Hb.
  destruct ok; [intros [= <- <-]; by apply bump_inv|].
  destruct (replace rnd tips b n) as [[r tips1] b1] eqn:E. intros [= <- <-]. by eapply replace_inv.
Qed.

Lemma stuff_inv now nodes t :
  table_inv t -> Forall (fun n => Keccak256Hash [n_ID n] = Ret (n_sha n)) nodes ->
  table_inv (stuff now nodes t) /\ t_self (stuff now nodes t) = t_self t.
Proof.
  revert t. induction nodes as [|n nodes IH]; intros t Ht; cbn [stuff]; [done|].
  intros [Hn Hns]%Forall_cons. case_decide as Hid; [by apply IH|].
  match goal with |- table_inv (stuff _ _ ?t') /\ _ => assert (table_inv t' /\ t_self t' = t_self t) as [Ht' Es] end.
  { apply on_bucket_inv; [done|]. intros tips b tips' b' Hb. case_decide; [|by intros [= <- <-]].
    destruct (bumpOrAdd now tips b n) as [[ok tips1] b1] eqn:E. intros [= <- <-].
    eapply bumpOrAdd_inv in E as [Hb1 _]; [done..|]. by apply remote_in. }
  rewrite <- Es. by apply IH.
Qed.

Lemma nodeToRevalidate_in perm t n bi :
  table_inv t -> nodeToRevalidate perm t = Some (n, bi) -> node_in (t_self t) bi n.
Proof.
  intros Ht. induction perm as [|k perm IH]; cbn [nodeToRevalidate]; [done|].
  destruct (t_buckets t !! k) as [b|] eqn:E; cbn [mbind option_bind]; [|done].
  destruct (last (entries b)) as [e|] eqn:El; [|done]. intros [= <- <-].
  apply (ti_bucket t Ht), bi_nodes in E. rewrite Forall_forall in E. apply E.
  apply elem_of_app. left. apply last_Some in El as [es ->]. set_solver.
Qed.

(** ** The goroutines

    A revalidation picks a node, sends a ping without holding the mutex, and updates the table
    afterwards; other operations may come in between. *)

Record discovery := mk_disc { d_table : Table; d_pending : list (Node * nat) }.

Inductive disc_step : discovery -> discovery -> Prop :=
| Disc_add now n t ps :
    remote t n -> disc_step (mk_disc t ps) (mk_disc (Table_add now n t) ps)
| Disc_stuff now nodes t ps :
    Forall (fun n => Keccak256Hash [n_ID n] = Ret (n_sha n)) nodes ->
    disc_step (mk_disc t ps) (mk_disc (stuff now nodes t) ps)
| Disc_delete n t ps : disc_step (mk_disc t ps) (mk_disc (Table_delete n t) ps)
| Disc_pick perm n bi t ps :
    nodeToRevalidate perm t = Some (n, bi) -> disc_step (mk_disc t ps) (mk_disc t ((n, bi) :: ps))
| Disc_revalidated ok rnd n bi t ps ps' :
    ps ≡ₚ (n, bi) :: ps' -> disc_step (mk_disc t ps) (mk_disc (revalidated ok rnd n bi t) ps').

Definition disc_inv (d : discovery) : Prop :=
  table_inv (d_table d) /\ Forall (fun p => node_in (t_self (d_table d)) p.2 p.1) (d_pending d).

Lemma disc_step_inv d d' :
  disc_step d d' -> disc_inv d -> disc_inv d' /\ t_self (d_table d') = t_self (d_table d).
Proof.
  unfold disc_inv. intros H [Ht Hp]. destruct H; cbn in *.
  - edestruct Table_add_inv as [? ->]; [done..|]. naive_solver.
  - edestruct stuff_inv as [? ->]; [done..|]. naive_solver.
  - edestruct Table_delete_inv as [? ->]; [done..|]. naive_solver.
  - split; [|done]. split; [done|]. apply Forall_cons. split; [|done]. by eapply nodeToRevalidate_in.
  - rewrite H in Hp. apply Forall_cons in Hp as [Hn Hp].
    edestruct revalidated_inv as [? ->]; [done..|]. naive_solver.
Qed.

Lemma disc_reachable_inv self d :
  rtc disc_step (mk_disc (newTable self) []) d -> disc_inv d /\ t_self (d_table d) = self.
Proof.
  intros H. remember (mk_disc (newTable self) []) as d0 eqn:E.
  assert (disc_inv d0 /\ t_self (d_table d0) = self) as H0.
  { subst d0. split; [|done]. split; [apply newTable_inv|done]. }
  clear E. induction H as [d|d d1 d2 Hs _ IH]; [done|]. apply IH.
  destruct H0 as [Hi Hself]. apply disc_step_inv in Hs as [? ->]; [by split|done].
Qed.

Lemma NoDup_mjoin {A} (L : list (list A)) :
  (forall i l, L !! i = Some l -> NoDup l) ->
  (forall i j l k x, L !! i = Some l -> L !! j = Some k -> x ∈ l -> x ∈ k -> i = j) -> NoDup (mjoin L).
Proof.
  induction L as [|l L IH]; intros Hn Hd; cbn [mjoin list_join]; [constructor|].
  apply NoDup_app. split_and!.
  - by apply (Hn 0%nat).
  - intros x Hx Hx'. apply list_elem_of_join in Hx' as (k & Hk & Hin).
    apply list_elem_of_lookup in Hin as [j Hj]. by specialize (Hd 0%nat (S j) l k x eq_refl Hj Hx Hk).
  - apply IH; [intros i; apply (Hn (S i))|]. intros i j l1 l2 x H1 H2 H3 H4.
    specialize (Hd (S i) (S j) l1 l2 x H1 H2 H3 H4). lia.
Qed.

Lemma ids_mjoin L : ids (mjoin L) = mjoin (ids <$> L).
Proof.
  unfold ids. induction L as [|l L IH]; [done|]. rewrite fmap_cons. cbn [mjoin list_join]. rewrite fmap_app. by f_equal.
Qed.

(** The hash of an identifier fixes the bucket. *)
Lemma node_in_unique self i j n m :
  node_in self i n -> node_in self j m -> n_ID n = n_ID m -> i = j.
Proof. intros [H1 <- _] [H2 <- _] E. rewrite E, H2 in H1. by injection H1 as ->. Qed.

Lemma table_ids t : table_inv t -> NoDup (ids (mjoin (bucket_nodes <$> t_buckets t))).
Proof.
  intros Ht. rewrite ids_mjoin, <- list_fmap_compose. apply NoDup_mjoin.
  - intros i l. rewrite list_lookup_fmap_Some. intros (b & -> & Hb). by apply (ti_bucket t Ht) in Hb as [].
  - intros i j l k x. rewrite !list_lookup_fmap_Some. intros (b & -> & Hb) (c & -> & Hc). cbn [compose].
    unfold ids. rewrite !list_elem_of_fmap. intros (n & -> & Hn) (m & E & Hm).
    apply (ti_bucket t Ht), bi_nodes in Hb, Hc. rewrite Forall_forall in Hb, Hc.
    eapply node_in_unique; [by apply Hb|by apply Hc|done].
Qed.

Lemma bucket_index_spec self sha i :
  bucket_index self sha = i -> (i = 0%nat /\ logdist self sha <= 240) \/ logdist self sha = 240 + Z.of_nat i.
Proof.
  unfold bucket_index, bucketMinDistance. destruct (Z.leb_spec (logdist self sha) 239); lia.
Qed.

(** *** The sets of networks *)

Definition nets_ok (subnet : nat) (limit : Z) (s : DistinctNetSet) : Prop := nets_wf s /\ Subnet s = subnet /\ Limit s = limit.

(** The set of the table and that of a bucket. *)
Definition counted (tips : DistinctNetSet) (b : bucket) : Prop :=
  nets_ok tableSubnet tableIPLimit tips /\ nets_ok bucketSubnet bucketIPLimit (b_ips b).

Definition table_counted (t : Table) : Prop :=
  nets_ok tableSubnet tableIPLimit (t_ips t) /\ Forall (fun b => nets_ok bucketSubnet bucketIPLimit (b_ips b)) (t_buckets t).

Lemma nets_Add_ok subnet limit ip s : nets_ok subnet limit s -> nets_ok subnet limit (nets_Add ip s).2.
Proof. intros (H1 & H2 & H3). destruct (nets_Add_frame ip s) as [E1 E2]. split; [by apply nets_Add_wf|]. by rewrite E1, E2. Qed.

Lemma nets_Remove_ok subnet limit ip s : nets_ok subnet limit s -> nets_ok subnet limit (nets_Remove ip s).
Proof. intros (H1 & H2 & H3). destruct (nets_Remove_frame ip s) as [E1 E2]. split; [by apply nets_Remove_wf|]. by rewrite E1, E2. Qed.

Lemma addIP_counted tips b ip ok tips' b' : counted tips b -> addIP tips b ip = (ok, tips', b') -> counted tips' b'.
Proof.
  intros [H1 H2]. unfold addIP. pose proof (nets_Add_ok _ _ ip tips H1) as A1. pose proof (nets_Add_ok _ _ ip (b_ips b) H2) as A2.
  destruct (IsLAN ip); [by intros [= <- <- <-]|]. destruct (nets_Add ip tips) as [ok1 t1]. destruct (nets_Add ip (b_ips b)) as [ok2 b2].
  cbn in A1, A2. destruct ok1; [|by intros [= <- <- <-]]. destruct ok2; intros [= <- <- <-]; (split; [|done]); [done|by apply nets_Remove_ok].
Qed.

Lemma removeIP_counted tips b ip tips' b' : counted tips b -> removeIP tips b ip = (tips', b') -> counted tips' b'.
Proof.
  intros [H1 H2]. unfold removeIP. destruct (IsLAN ip); intros [= <- <-]; [done|]. split; by apply nets_Remove_ok.
Qed.

Lemma bumpOrAdd_counted now tips b n ok tips' b' : counted tips b -> bumpOrAdd now tips b n = (ok, tips', b') -> counted tips' b'.
Proof.
  intros Hc. unfold bumpOrAdd, bump. destruct (node_index _ _); [by intros [= <- <- <-]|]. case_decide; [by intros [= <- <- <-]|].
  destruct (addIP tips b (n_IP n)) as [[ok1 t1] b1] eqn:E. apply (addIP_counted _ _ _ _ _ _ Hc) in E.
  destruct ok1; by intros [= <- <- <-].
Qed.

Lemma addReplacement_counted tips b n tips' b' : counted tips b -> addReplacement tips b n = (tips', b') -> counted tips' b'.
Proof.
  intros Hc. unfold addReplacement. case_decide; [by intros [= <- <-]|].
  destruct (addIP tips b (n_IP n)) as [[ok1 t1] b1] eqn:E. apply (addIP_counted _ _ _ _ _ _ Hc) in E.
  destruct ok1; [|by intros [= <- <-]]. cbn [negb]. destruct (pushNode _ _ _) as [rs [x|]]; [|by intros [= <- <-]]. by apply removeIP_counted.
Qed.

Lemma replace_counted rnd tips b n o tips' b' : counted tips b -> replace rnd tips b n = (o, tips', b') -> counted tips' b'.
Proof.
  intros Hc. unfold replace. destruct (last _); [|by intros [= <- <- <-]]. destruct (negb _); [by intros [= <- <- <-]|].
  destruct (_ !! _) as [x|]; cbn zeta.
  - destruct (removeIP _ _ _) as [t1 b1] eqn:E. apply removeIP_counted in E; [|done]. by intros [= <- <- <-].
  - destruct (deleteInBucket _ _ _) as [t1 b1] eqn:E. apply removeIP_counted in E; [|done]. by intros [= <- <- <-].
Qed.

Lemma on_bucket_counted t i f : table_counted t ->
  (forall tips b tips' b', counted tips b -> f tips b = (tips', b') -> counted tips' b') -> table_counted (on_bucket t i f).
Proof.
  intros [H1 H2] Hf. unfold on_bucket. destruct (t_buckets t !! i) as [b|] eqn:Eb; [|done].
  destruct (f (t_ips t) b) as [t1 b1] eqn:E. rewrite Forall_forall in H2. apply list_elem_of_lookup_2 in Eb as Hin.
  destruct (Hf _ _ _ _ (conj H1 (H2 b Hin)) E) as [H3 H4]. split; [done|]. cbn. apply Forall_insert; [by apply Forall_forall|done].
Qed.

Lemma stuff_counted now nodes t : table_counted t -> table_counted (stuff now nodes t).
Proof.
  revert t. induction nodes as [|n nodes IH]; intros t Ht; cbn [stuff]; [done|]. case_decide; [by apply IH|].
  apply IH, on_bucket_counted; [done|]. intros tips b tips' b' Hc. case_decide; [|by intros [= <- <-]].
  destruct (bumpOrAdd now tips b n) as [[ok t1] b1] eqn:E. apply (bumpOrAdd_counted _ _ _ _ _ _ _ Hc) in E. by intros [= <- <-].
Qed.

Lemma disc_step_counted d d' : disc_step d d' -> table_counted (d_table d) -> table_counted (d_table d').
Proof.
  intros H Ht. destruct H; cbn in *; [| |apply on_bucket_counted; [done|]; intros tips b tips' b' Hc; by apply removeIP_counted|done|].
  - apply on_bucket_counted; [done|]. intros tips b tips' b' Hc.
    destruct (bumpOrAdd now tips b n) as [[ok t1] b1] eqn:E. apply (bumpOrAdd_counted _ _ _ _ _ _ _ Hc) in E.
    destruct ok; [by intros [= <- <-]|]. by apply addReplacement_counted.
  - by apply stuff_counted.
  - apply on_bucket_counted; [done|]. intros tips b tips' b' Hc. destruct ok.
    + unfold bump. destruct (node_index _ _); by intros [= <- <-].
    + destruct (replace rnd tips b n) as [[o t1] b1] eqn:E. apply (replace_counted _ _ _ _ _ _ _ Hc) in E. by intros [= <- <-].
Qed.

Lemma disc_reachable_counted self d : rtc disc_step (mk_disc (newTable self) []) d -> table_counted (d_table d).
Proof.
  intros H. apply (rtc_ind_r (fun d => table_counted (d_table d)) (mk_disc (newTable self) [])) with (3 := H);
    [|intros ? ? _ Hs Ht; by eapply disc_step_counted].
  split; [by split; [apply nets_empty_wf|]|]. apply Forall_replicate. by split; [apply nets_empty_wf|].
Qed.

(** A new entry is counted, and its network is below the limits; a node that moves from the replacements to the entries
    is counted a second time, and the first count is never taken back. *)
Lemma promoted_counted_twice now tips b n tips' b' :
  bumpOrAdd now tips b n = (true, tips', b') -> n_ID n ∉ ids (entries b) -> IsLAN (n_IP n) = false ->
  (nets_count tips (n_IP n) < Limit tips /\ nets_count (b_ips b) (n_IP n) < Limit (b_ips b)) /\
  nets_count tips' (n_IP n) = nets_count tips (n_IP n) + 1 /\
  nets_count (b_ips b') (n_IP n) = nets_count (b_ips b) (n_IP n) + 1.
Proof.
  intros E Hn Hlan. apply node_index_None in Hn. unfold bumpOrAdd, bump in E. rewrite Hn in E.
  case_decide; [done|]. unfold addIP in E. rewrite Hlan in E.
  destruct (nets_Add (n_IP n) tips) as [ok1 tips1] eqn:E1. destruct ok1; [|done].
  destruct (nets_Add (n_IP n) (b_ips b)) as [ok2 bips] eqn:E2. destruct ok2; [|done]. injection E as <- <-.
  pose proof (nets_Add_count (n_IP n) (n_IP n) tips) as H1. pose proof (nets_Add_count (n_IP n) (n_IP n) (b_ips b)) as H2.
  pose proof (nets_Add_result (n_IP n) tips) as R1. pose proof (nets_Add_result (n_IP n) (b_ips b)) as R2.
  rewrite E1 in H1, R1. rewrite E2 in H2, R2. cbn in *. symmetry in R1, R2. apply bool_decide_eq_true in R1, R2. split; [done|]. rewrite H1, H2 by done. by rewrite !decide_True.
Qed.

(** C39: The node table keeps its shape under every interleaving of added, offered, deleted and
    revalidated nodes, where a revalidation pings without holding the mutex and may report on a node that
    has moved in between: there are seventeen buckets with at most sixteen entries and ten replacements,
    no identifier occurs twice anywhere in the table, the own identifier never occurs, and every node is
    in the bucket of its distance.  The counters of networks never exceed ten in the table and two in a bucket, and an
    entry that is new to its bucket, unless its address is local, is taken only below these limits and is counted.
    (The counters are not the numbers of nodes: [promoted_counted_twice], [subnet_limit_bypassed].) *)
Theorem node_table_invariant self d :
  rtc disc_step (mk_disc (newTable self) []) d ->
  let bs := t_buckets (d_table d) in
  let tips := t_ips (d_table d) in
  length bs = nBuckets /\ NoDup (ids (mjoin (bucket_nodes <$> bs))) /\ (forall ip, nets_count tips ip <= tableIPLimit) /\
  forall i b, bs !! i = Some b ->
    (length (entries b) <= bucketSize)%nat /\ (length (replacements b) <= maxReplacements)%nat /\
    (forall ip, nets_count (b_ips b) ip <= bucketIPLimit) /\
    (forall n, n ∈ bucket_nodes b ->
      n_ID n <> n_ID self /\
      ((i = 0%nat /\ logdist (n_sha self) (n_sha n) <= 240) \/ logdist (n_sha self) (n_sha n) = 240 + Z.of_nat i)) /\
    forall now n tips' b', bumpOrAdd now tips b n = (true, tips', b') -> n_ID n ∉ ids (entries b) -> IsLAN (n_IP n) = false ->
      nets_count tips (n_IP n) < tableIPLimit /\ nets_count (b_ips b) (n_IP n) < bucketIPLimit /\
      nets_count tips' (n_IP n) = nets_count tips (n_IP n) + 1 /\
      nets_count (b_ips b') (n_IP n) = nets_count (b_ips b) (n_IP n) + 1.
Proof.
  intros H bs tips. pose proof (disc_reachable_counted self d H) as [(Hw & _ & Hlim) Hbs].
  apply disc_reachable_inv in H as [[Ht _] Es]. split_and!; [apply Ht|by apply table_ids| |].
  - intros ip. pose proof (nets_count_bound tips ip Hw). unfold tableIPLimit in *. fold tips in Hlim. lia.
  - intros i b Hb. rewrite Forall_forall in Hbs. destruct (Hbs b (list_elem_of_lookup_2 _ _ _ Hb)) as (Hw' & _ & Hlim').
    apply (ti_bucket _ Ht) in Hb as [H1 H2 _ H4]. split_and!; [done..| | |].
    + intros ip. pose proof (nets_count_bound (b_ips b) ip Hw'). unfold bucketIPLimit in *. lia.
    + intros n Hn. rewrite Forall_forall in H4. apply H4 in Hn as [_ Hi Ho]. rewrite Es in *.
      split; [done|]. by apply bucket_index_spec.
    + intros now n tips' b' E Hn Hlan. destruct (promoted_counted_twice now tips b n tips' b' E Hn Hlan) as [[L1 L2] [C1 C2]].
      fold tips in Hlim. rewrite Hlim in L1. by rewrite Hlim' in L2.
Qed.

End invariant.

(** ** Closest nodes *)

(** [sort.Search]: the loop keeps [i <= j] with the answer between them. *)
Fixpoint sort_Search_loop (fuel i j : nat) (f : nat -> bool) : nat :=
  match fuel with
  | O => i
  | S fuel' =>
      if decide (i < j)%nat then
        let h := ((i + j) / 2)%nat in
        if negb (f h) then sort_Search_loop fuel' (h + 1) j f else sort_Search_loop fuel' i h f
      else i
  end.

(** Half of the interval goes in each round, so that [n] rounds are enough. *)
Definition sort_Search (n : nat) (f : nat -> bool) : nat := sort_Search_loop n 0 n f.

Record nodesByDistance := mk_near { near_entries : list Node; near_target : Hash }.

Definition near_push (n : Node) (maxElems : nat) (h : nodesByDistance) : nodesByDistance :=
  let es := near_entries h in
  let ix := sort_Search (length es) (fun i =>
    match es !! i with Some e => 0 <? distcmp (near_target h) (n_sha e) (n_sha n) | None => false end) in
  let es' := if decide (length es < maxElems)%nat then es ++ [n] else es in
  if decide (ix = length es') then mk_near es' (near_target h)
  else
    (* copy(entries[ix+1:], entries[ix:]) and the assignment *)
    mk_near (take ix es' ++ n :: take (length es' - ix - 1) (drop ix es')) (near_target h).

Definition closest (t : Table) (target : Hash) (nresults : nat) : nodesByDistance :=
  foldl (fun h n => near_push n nresults h) (mk_near [] target) (mjoin (entries <$> t_buckets t)).

(** The predicate of a sorted list is false up to the answer and true from there. *)
Lemma sort_Search_loop_spec fuel i j f :
  (i <= j)%nat -> (j - i <= fuel)%nat ->
  (forall a b, (i <= a <= b)%nat -> (b < j)%nat -> f a = true -> f b = true) ->
  let r := sort_Search_loop fuel i j f in
  (i <= r <= j)%nat /\ (forall a, (i <= a < r)%nat -> f a = false) /\ (forall a, (r <= a < j)%nat -> f a = true).
Proof.
  revert i j. induction fuel as [|fuel IH]; intros i j Hij Hf Hm; cbn [sort_Search_loop]; cbn zeta.
  { split_and!; intros; lia. }
  case_decide as Hlt; [|split_and!; intros; lia].
  assert (i <= (i + j) / 2 < j)%nat as Hh.
  { split; [apply Nat.div_le_lower_bound; lia|apply Nat.Div0.div_lt_upper_bound; lia]. }
  set (h := ((i + j) / 2)%nat) in *. destruct (f h) eqn:E; cbn [negb].
  - destruct (IH i h) as (H1 & H2 & H3); [lia..| |]; [intros a b ? ?; apply Hm; lia|].
    split_and!; [lia|lia|done|]. intros a Ha. destruct (Nat.lt_ge_cases a h); [by apply H3; lia|].
    apply (Hm h); [lia|lia|done].
  - destruct (IH (h + 1)%nat j) as (H1 & H2 & H3); [lia..| |]; [intros a b ? ?; apply Hm; lia|].
    split_and!; [lia|lia| |done]. intros a Ha. destruct (Nat.lt_ge_cases h a); [apply H2; lia|].
    destruct (f a) eqn:Ea; [|done]. rewrite (Hm a h) in E by (lia || done). done.
Qed.

Lemma sort_Search_spec n f :
  (forall a b, (a <= b < n)%nat -> f a = true -> f b = true) ->
  (sort_Search n f <= n)%nat /\ (forall a, (a < sort_Search n f)%nat -> f a = false) /\
  (forall a, (sort_Search n f <= a < n)%nat -> f a = true).
Proof.
  intros Hm. destruct (sort_Search_loop_spec n 0 n f) as (H1 & H2 & H3); [lia..| |].
  - intros a b ? ?. apply Hm. lia.
  - split_and!; [apply H1| |done]. intros a Ha. apply H2. unfold sort_Search in Ha. lia.
Qed.

Definition nearer (target : Hash) (a b : Node) : Prop :=
  distance (n_sha a) target <= distance (n_sha b) target.

Definition hash_ok (target : Hash) (n : Node) : Prop := length (n_sha n) = length target.
#[global] Instance hash_ok_dec target n : Decision (hash_ok target n).
Proof. unfold hash_ok. apply _. Defined.

Lemma distcmp_pos target a b :
  hash_ok target a -> hash_ok target b ->
  (0 <? distcmp target (n_sha a) (n_sha b)) = bool_decide (distance (n_sha b) target < distance (n_sha a) target).
Proof.
  intros Ha Hb. rewrite distcmp_correct by done. unfold cmp.
  destruct (Z.ltb_spec (distance (n_sha b) target) (distance (n_sha a) target)).
  - by rewrite bool_decide_eq_true_2.
  - rewrite bool_decide_eq_false_2 by lia. by case_match.
Qed.

(** Where [push] puts a node into a sorted list. *)
Lemma push_position target es n :
  StronglySorted (nearer target) es -> Forall (hash_ok target) es -> hash_ok target n ->
  let ix := sort_Search (length es) (fun i =>
    match es !! i with Some e => 0 <? distcmp target (n_sha e) (n_sha n) | None => false end) in
  (ix <= length es)%nat /\ (forall x, x ∈ take ix es -> nearer target x n) /\
  (forall x, x ∈ drop ix es -> distance (n_sha n) target < distance (n_sha x) target).
Proof.
  intros Hs Hok Hn. cbn zeta. set (f := fun i : nat => _).
  assert (forall i e, es !! i = Some e -> f i = bool_decide (distance (n_sha n) target < distance (n_sha e) target)) as Hf.
  { intros i e E. unfold f. rewrite E. apply distcmp_pos; [|done].
    rewrite Forall_forall in Hok. by apply Hok, list_elem_of_lookup_2 in E || eapply Hok, list_elem_of_lookup_2. }
  destruct (sort_Search_spec (length es) f) as (H1 & H2 & H3).
  { intros a b Hab Ha.
    destruct (lookup_lt_is_Some_2 es a ltac:(lia)) as [x Ex]. destruct (lookup_lt_is_Some_2 es b ltac:(lia)) as [y Ey].
    rewrite (Hf _ _ Ex), bool_decide_eq_true in Ha. rewrite (Hf _ _ Ey), bool_decide_eq_true.
    destruct (Nat.eq_dec a b) as [<-|Hne]; [naive_solver|].
    apply (Z.lt_le_trans _ _ _ Ha). rewrite <- (take_drop (S a) es) in Hs.
    eapply (StronglySorted_app_1_elem_of (nearer target)); [done| |].
    - apply (list_elem_of_lookup_2 _ a). by rewrite lookup_take_lt by lia.
    - apply (list_elem_of_lookup_2 _ (b - S a)). rewrite lookup_drop. by replace (S a + (b - S a))%nat with b by lia. }
  split_and!; [done| |].
  - intros x [a Ha]%list_elem_of_lookup. pose proof (lookup_lt_Some _ _ _ Ha) as Hl. rewrite length_take in Hl.
    rewrite lookup_take_lt in Ha by lia. specialize (H2 a ltac:(lia)).
    rewrite (Hf _ _ Ha), bool_decide_eq_false in H2. unfold nearer. lia.
  - intros x [a Ha]%list_elem_of_lookup. pose proof (lookup_lt_Some _ _ _ Ha) as Hl. rewrite length_drop in Hl.
    rewrite lookup_drop in Ha. specialize (H3 (sort_Search (length es) f + a)%nat ltac:(lia)).
    by rewrite (Hf _ _ Ha), bool_decide_eq_true in H3.
Qed.

(** [push] inserts, and drops the last node when there is no room. *)
Lemma near_push_eq n maxElems h :
  let es := near_entries h in
  let ix := sort_Search (length es) (fun i =>
    match es !! i with Some e => 0 <? distcmp (near_target h) (n_sha e) (n_sha n) | None => false end) in
  (ix <= length es)%nat -> (length es <= maxElems)%nat ->
  near_push n maxElems h = mk_near (take maxElems (take ix es ++ n :: drop ix es)) (near_target h).
Proof.
  cbn zeta. unfold near_push. set (ix := sort_Search _ _). intros Hix Hl. set (es := near_entries h) in *.
  destruct (decide (length es < maxElems)%nat) as [Hlt|Hlt].
  - rewrite length_app. cbn [length]. rewrite decide_False by lia. f_equal.
    rewrite take_app_le, drop_app_le by lia. rewrite (take_ge (take ix es ++ n :: drop ix es) maxElems).
    + f_equal. f_equal. rewrite take_app_le by (rewrite length_drop; lia).
      apply take_ge. rewrite length_drop. lia.
    + rewrite length_app, length_take. cbn [length]. rewrite length_drop. lia.
  - assert (maxElems = length es) as -> by lia. case_decide as Hx; f_equal.
    + rewrite Hx, take_app_le, take_take, Nat.min_id by (rewrite length_take; lia). by rewrite take_ge.
    + rewrite take_app_ge by (rewrite length_take; lia). rewrite length_take, Nat.min_l by lia. f_equal.
      destruct (length es - ix)%nat as [|k] eqn:Ek; [lia|]. cbn [take]. by replace (S k - 1)%nat with k by lia.
Qed.

(** [es] are the [k] nodes of [seen] nearest to the target, in order. *)
Record nearest (target : Hash) (k : nat) (seen es : list Node) : Prop := {
  nr_sorted : StronglySorted (nearer target) es;
  nr_length : length es = Nat.min k (length seen);
  nr_rest : exists rest, seen ≡ₚ es ++ rest /\ forall x y, x ∈ es -> y ∈ rest -> nearer target x y
}.

Lemma insert_sorted target es n ix :
  StronglySorted (nearer target) es -> (forall x, x ∈ take ix es -> nearer target x n) ->
  (forall x, x ∈ drop ix es -> nearer target n x) ->
  StronglySorted (nearer target) (take ix es ++ n :: drop ix es).
Proof.
  intros Hs H1 H2. rewrite <- (take_drop ix es) in Hs. apply StronglySorted_app in Hs as (Hx & Hs1 & Hs2).
  apply StronglySorted_app_2; [|done|].
  - intros x y Hx1 [->|Hy]%elem_of_cons; [by apply H1|by apply Hx].
  - apply StronglySorted_cons. split; [|done]. by apply Forall_forall.
Qed.

Lemma near_push_nearest target k seen es n :
  (0 < k)%nat -> Forall (hash_ok target) seen -> hash_ok target n -> nearest target k seen es ->
  exists es', near_push n k (mk_near es target) = mk_near es' target /\ nearest target k (seen ++ [n]) es'.
Proof.
  intros Hk Hok Hn [Hs Hl (rest & Hp & Hr)].
  assert (Forall (hash_ok target) es) as Hes by (rewrite Hp, Forall_app in Hok; tauto).
  destruct (push_position target es n Hs Hes Hn) as (Hix & Hlo & Hhi).
  rewrite near_push_eq; cbn [near_entries near_target]; [|exact Hix|lia].
  set (ix := sort_Search _ _) in *. set (L := take ix es ++ n :: drop ix es).
  assert (StronglySorted (nearer target) L) as HL.
  { apply insert_sorted; [done..|]. intros x Hx. apply Hhi in Hx. unfold nearer. lia. }
  assert (L ≡ₚ n :: es) as HLp. { unfold L. by rewrite <- Permutation_middle, take_drop. }
  assert (length L = S (length es)) as HLl by (by rewrite HLp).
  eexists. split; [done|]. pose proof (Permutation_length Hp) as Hpl. rewrite length_app in Hpl.
  pose proof HL as HL2. rewrite <- (take_drop k L) in HL2. apply StronglySorted_app in HL2 as (Hx & HLs & _).
  split; [done|rewrite length_take, length_app; cbn; lia|].
  exists (drop k L ++ rest). split.
  - rewrite Hp, app_assoc, (take_drop k L), HLp. rewrite <- app_assoc, (Permutation_app_comm rest). cbn.
    by rewrite <- Permutation_middle.
  - intros x y Hxin [Hy|Hy]%elem_of_app; [by apply Hx|].
    assert (length es = k) as Hfull. { destruct rest; [set_solver|]. cbn in Hpl. lia. }
    assert (x ∈ L) as HxL by (apply (elem_of_take _ _ _ ) in Hxin as (i & Hi & _); by eapply list_elem_of_lookup_2).
    rewrite HLp in HxL. apply elem_of_cons in HxL as [->|HxL]; [|by apply Hr].
    destruct (decide (ix = length es)) as [Heq|Hne].
    + apply Hr; [|done]. unfold L in Hxin. by rewrite Heq, firstn_all, <- Hfull, take_app_length in Hxin.
    + destruct (drop ix es) as [|z tl] eqn:Ed; [apply (f_equal length) in Ed; rewrite length_drop in Ed; cbn in Ed; lia|].
      assert (z ∈ es) as Hz by (rewrite <- (take_drop ix es), Ed; set_solver).
      specialize (Hr z y Hz Hy). specialize (Hhi z ltac:(set_solver)). unfold nearer in *. lia.
Qed.

Lemma foldl_push_nearest target k seen es nodes :
  (0 < k)%nat -> Forall (hash_ok target) (seen ++ nodes) -> nearest target k seen es ->
  exists es', foldl (fun h n => near_push n k h) (mk_near es target) nodes = mk_near es' target /\
    nearest target k (seen ++ nodes) es'.
Proof.
  intros Hk. revert seen es. induction nodes as [|n nodes IH]; intros seen es Hok Hn.
  { exists es. by rewrite app_nil_r. }
  cbn [foldl]. pose proof Hok as (Hok1 & [Hok2 _]%Forall_cons)%Forall_app.
  destruct (near_push_nearest target k seen es n) as (es1 & -> & Hn1); [done..|].
  replace (seen ++ n :: nodes) with ((seen ++ [n]) ++ nodes) in * by by rewrite <- app_assoc.
  by apply IH.
Qed.

Lemma closest_nearest t target nresults :
  (0 < nresults)%nat -> Forall (hash_ok target) (mjoin (entries <$> t_buckets t)) ->
  exists es, closest t target nresults = mk_near es target /\ nearest target nresults (mjoin (entries <$> t_buckets t)) es.
Proof.
  intros Hk Hok. apply (foldl_push_nearest target nresults [] []); [done..|].
  split; [constructor|by cbn; rewrite Nat.min_0_r|]. exists []. by split; [|set_solver].
Qed.

(** C40: [closest] returns the nodes of the table nearest to the target: the list is sorted by the exclusive-or
    distance, has as many nodes as asked for (all of them in a smaller table), and no entry left out
    is nearer than one in the list.  The binary search for the position in [push] and the shifting of the
    slice are those of the code. *)
Theorem closest_correct t target nresults :
  (0 < nresults)%nat -> Forall (fun n => length (n_sha n) = length target) (mjoin (entries <$> t_buckets t)) ->
  nearest target nresults (mjoin (entries <$> t_buckets t)) (near_entries (closest t target nresults)).
Proof. intros Hk Hok. by destruct (closest_nearest t target nresults Hk Hok) as (es & -> & H). Qed.

(** ** Random nodes *)

(** [rnd] are the numbers drawn in [tab.rand.Intn]; the index counts down to 1. *)
Fixpoint shuffle {A} (i : nat) (rnd : list nat) (l : list A) : list A :=
  match i with
  | O | S O => l
  | S ((S _) as i') =>
      let j := (default 0%nat (head rnd) mod length l)%nat in
      shuffle i' (tail rnd) (swap l i' j)
  end.

(** Takes the heads of the buckets in turn, up to [room] nodes, the first into position [i]: the nodes,
    and the result of the call. *)
Fixpoint take_heads (room i j : nat) (bs : list (list Node)) : outcome (list Node * nat) :=
  match room with
  | O => Ret ([], i + 1)%nat
  | S room' =>
      b ← idx bs j;
      n ← idx b 0;
      let bs := <[j := tail b]> bs in
      let bs := if decide (length b = 1%nat) then take j bs ++ drop (S j) bs else bs in
      if decide (length bs = 0%nat) then Ret ([n], i + 1)%nat
      else '(ns, r) ← take_heads room' (i + 1) ((j + 1) mod length bs) bs; Ret (n :: ns, r)
  end.

Definition ReadRandomNodes (initDone : bool) (rnd : list nat) (buf : list (option Node)) (t : Table) :
    outcome (list (option Node) * nat) :=
  if negb initDone then Ret (buf, 0%nat) else
  let bs := filter (fun es => es <> []) (entries <$> t_buckets t) in
  if decide (length bs = 0%nat) then Ret (buf, 0%nat) else
  '(ns, r) ← take_heads (length buf) 0 0 (shuffle (length bs) rnd bs);
  Ret ((Some <$> ns) ++ drop (length ns) buf, r).

Lemma shuffle_perm {A} i rnd (l : list A) : shuffle i rnd l ≡ₚ l.
Proof.
  revert rnd l. induction i as [|[|i] IH]; intros rnd l; [done..|].
  change (shuffle (S (S i)) rnd l) with (shuffle (S i) (tail rnd) (swap l (S i) (default 0%nat (head rnd) mod length l))).
  by rewrite IH, swap_perm.
Qed.

Lemma mjoin_perm {A} (L K : list (list A)) : L ≡ₚ K -> mjoin L ≡ₚ mjoin K.
Proof.
  induction 1 as [|l L K _ IH|l k L|]; cbn [mjoin list_join]; [done|by rewrite IH| |by etrans].
  by rewrite !app_assoc, (Permutation_app_comm l).
Qed.

Lemma mjoin_filter_nonempty {A} (L : list (list A)) : mjoin (filter (fun l => l <> []) L) = mjoin L.
Proof.
  induction L as [|l L IH]; [done|]. rewrite filter_cons. case_decide as H; cbn [mjoin list_join].
  - f_equal. exact IH.
  - by subst l.
Qed.

Lemma mjoin_middle {A} (L K : list (list A)) l : mjoin (L ++ l :: K) ≡ₚ l ++ mjoin (L ++ K).
Proof. etrans; [apply mjoin_perm; symmetry; apply Permutation_middle|done]. Qed.

(** One round: the head of a bucket goes, and the bucket with its last node. *)
Lemma take_head bs j :
  (j < length bs)%nat -> Forall (fun b : list Node => b <> []) bs ->
  exists n b', bs !! j = Some (n :: b') /\
    let bs' := if decide (length (n :: b') = 1%nat) then take j (<[j := b']> bs) ++ drop (S j) (<[j := b']> bs)
               else <[j := b']> bs in
    Forall (fun b : list Node => b <> []) bs' /\ mjoin bs ≡ₚ n :: mjoin bs'.
Proof.
  intros Hj Hne. destruct (lookup_lt_is_Some_2 bs j Hj) as [b Hb].
  pose proof Hb as Hb0. apply list_elem_of_lookup_2 in Hb0. rewrite Forall_forall in Hne.
  destruct b as [|n b']; [by apply Hne in Hb0|]. exists n, b'. split; [done|].
  pose proof (take_drop_middle _ _ _ Hb) as E. set (L := take j bs) in *. set (K := drop (S j) bs) in *.
  assert (length L = j) as HL by (unfold L; rewrite length_take; lia).
  assert (<[j := b']> bs = L ++ b' :: K) as ->.
  { rewrite <- E. rewrite insert_app_r_alt, HL, Nat.sub_diag by lia. done. }
  assert (Forall (fun b : list Node => b <> []) (L ++ K)) as Hn.
  { apply Forall_forall. intros x Hx. apply Hne. rewrite <- E. set_solver. }
  case_decide as H1; cbn zeta.
  - rewrite take_app_le, take_ge by lia. rewrite drop_app_ge, HL by lia.
    replace (S j - j)%nat with 1%nat by lia. cbn [drop]. split; [done|].
    rewrite <- E, mjoin_middle. destruct b'; [done|]. cbn in H1. lia.
  - split.
    + rewrite Forall_app, Forall_cons in *. split_and!; try tauto. destruct b'; done.
    + rewrite <- E, !mjoin_middle. done.
Qed.

Lemma take_heads_spec room i j bs :
  (j < length bs)%nat -> Forall (fun b : list Node => b <> []) bs ->
  exists ns rest, take_heads room i j bs
    = Ret (ns, if decide (length (mjoin bs) <= room)%nat then (i + length (mjoin bs))%nat else (i + room + 1)%nat) /\
  mjoin bs ≡ₚ ns ++ rest /\ length ns = Nat.min room (length (mjoin bs)).
Proof.
  revert i j bs. induction room as [|room IH]; intros i j bs Hj Hne.
  { destruct (take_head bs j Hj Hne) as (n & b' & _ & _ & Hp). exists [], (mjoin bs). cbn [take_heads].
    rewrite decide_False by (rewrite Hp; cbn; lia). by rewrite Nat.add_0_r. }
  destruct (take_head bs j Hj Hne) as (n & b' & Eb & Hne' & Hp). cbn [take_heads].
  rewrite (idx_Some _ _ _ Eb), Ret_bind. cbn [idx lookup list_lookup]. rewrite Ret_bind. cbn [tail].
  cbn zeta in Hne', Hp. set (bs' := if decide _ then _ else _) in *. clearbody bs'.
  pose proof (Permutation_length Hp) as Hlen0. cbn [length] in Hlen0.
  destruct (decide (length bs' = 0%nat)) as [H0|H0].
  - apply nil_length_inv in H0. subst bs'. exists [n], []. cbn [mjoin list_join length] in *.
    rewrite Hlen0, decide_True by lia. split_and!; [done|by rewrite Hp|lia].
  - destruct (IH (i + 1)%nat ((j + 1) mod length bs')%nat bs') as (ns & rest & -> & Hq & Hlen); [|done|].
    { by apply Nat.mod_upper_bound. }
    rewrite Ret_bind. exists (n :: ns), rest. split_and!.
    + f_equal. f_equal. rewrite Hlen0. repeat case_decide; lia.
    + rewrite Hp, Hq. done.
    + rewrite Hlen0. cbn [length]. lia.
Qed.

(** A call reports one node more than it wrote when the table holds more nodes than fit; the nodes it
    writes are different nodes of the table. *)
Lemma ReadRandomNodes_spec rnd buf t :
  mjoin (entries <$> t_buckets t) <> [] ->
  let all := mjoin (entries <$> t_buckets t) in
  exists ns rest, ReadRandomNodes true rnd buf t
    = Ret ((Some <$> ns) ++ drop (length ns) buf, if decide (length all <= length buf)%nat then length all else length buf + 1)%nat /\
  all ≡ₚ ns ++ rest /\ length ns = Nat.min (length buf) (length all).
Proof.
  intros Hall. cbn zeta. unfold ReadRandomNodes. cbn [negb].
  set (bs := filter _ _). assert (mjoin bs = mjoin (entries <$> t_buckets t)) as Ej by apply mjoin_filter_nonempty.
  assert (length bs <> 0%nat) as Hbs.
  { intros H. apply nil_length_inv in H. rewrite H in Ej. by rewrite <- Ej in Hall. }
  rewrite decide_False by done. pose proof (shuffle_perm (length bs) rnd bs) as Hs.
  destruct (take_heads_spec (length buf) 0 0 (shuffle (length bs) rnd bs)) as (ns & rest & -> & Hp & Hl).
  - rewrite Hs. lia.
  - rewrite Hs. apply Forall_forall. intros x. unfold bs. rewrite list_elem_of_filter. tauto.
  - rewrite Ret_bind. apply mjoin_perm in Hs. rewrite Ej in Hs. exists ns, rest.
    pose proof (Permutation_length Hs) as Hlen. rewrite Hlen in *. rewrite Hs in Hp. by split_and!.
Qed.

(** ** The limits on subnets *)

(** Nodes of a small network; the first has the own identifier. *)
Definition demo_node (k : Z) (ip : list Z) : Node :=
  match NewNode (HX := generic_xor) (be_fix 64 k) (u8 <$> ip) 30303 30303 with
  | Ret n => n
  | _ => mk_node [] 0 0 [] [] 0
  end.

Definition demo_adds : list Node :=
  [demo_node 3 [8; 8; 1; 1]; demo_node 4 [8; 8; 2; 1]; demo_node 5 [8; 8; 3; 1];
   demo_node 3 [9; 9; 9; 1]; demo_node 4 [9; 9; 9; 2]; demo_node 5 [9; 9; 9; 3]].

Definition demo_table : Table :=
  foldl (fun t n => Table_add 0 n t) (newTable (demo_node 1 [127; 0; 0; 1])) demo_adds.

Definition demo_disc : discovery := mk_disc demo_table [].
Definition demo_bucket : bucket := nth 16 (t_buckets (d_table demo_disc)) (mk_bucket [] [] (mk_nets 0 0 ∅)).

Lemma add_all_reachable `{HX : Xor} now ns t :
  Forall (remote t) ns ->
  rtc disc_step (mk_disc t []) (mk_disc (foldl (fun t n => Table_add now n t) t ns) []).
Proof.
  revert t. induction ns as [|n ns IH]; intros t Hr; [done|]. apply Forall_cons in Hr as [Hn Hr].
  eapply rtc_l; [by apply Disc_add|]. apply IH.
  assert (t_self (Table_add now n t) = t_self t) as Es.
  { unfold Table_add, on_bucket. repeat case_match; done. }
  unfold remote in *. by rewrite Es.
Qed.

Lemma demo_disc_reachable :
  rtc (disc_step (HX := generic_xor)) (mk_disc (newTable (demo_node 1 [127; 0; 0; 1])) []) demo_disc.
Proof.
  apply add_all_reachable. unfold demo_adds.
  repeat apply Forall_cons_2; [..|apply Forall_nil_2]; (split; [by vm_compute|by vm_compute]).
Qed.

(** The limit of two addresses of one /24 network in a bucket does not hold: a known node that is seen
    again replaces its entry together with the address, and the new address is not counted.  Three
    nodes admitted with addresses of three networks can all move into a fourth network; the table
    reached holds three entries of that network in one bucket. *)
Theorem subnet_limit_bypassed :
  exists d b ip, rtc (disc_step (HX := generic_xor)) (mk_disc (newTable (demo_node 1 [127; 0; 0; 1])) []) d /\
  b ∈ t_buckets (d_table d) /\ IsLAN ip = false /\
  bucketIPLimit < Z.of_nat (length (filter (fun n => SameNet bucketSubnet (n_IP n) ip = true) (entries b))).
Proof.
  exists demo_disc, demo_bucket, (u8 <$> [9; 9; 9; 9]).
  split; [apply demo_disc_reachable|]. split; [|by vm_compute].
  apply (list_elem_of_lookup_2 _ 16). by vm_compute.
Qed.

Lemma node_table_invariant_witness :
  length (t_buckets (d_table demo_disc)) = nBuckets /\ demo_node 4 [9; 9; 9; 2] ∈ bucket_nodes demo_bucket.
Proof.
  split; [|by apply (list_elem_of_lookup_2 _ 1); vm_compute].
  pose proof (node_table_invariant (demo_node 1 [127; 0; 0; 1]) demo_disc demo_disc_reachable) as (H & _). exact H.
Defined.

Lemma closest_correct_witness :
  nearest (be_fix 32 7) 2 (mjoin (entries <$> t_buckets demo_table)) (near_entries (closest demo_table (be_fix 32 7) 2)) /\
  ids (near_entries (closest demo_table (be_fix 32 7) 2)) = [be_fix 64 5; be_fix 64 4].
Proof.
  split; [|by vm_compute]. apply (closest_correct demo_table (be_fix 32 7) 2); [lia|].
  apply (bool_decide_unpack _). by vm_compute.
Defined.
