(* ===== verification/Lookup.v ===== *)
(** * Network lookups

    [lookup], [Lookup] and [Resolve] of [src/p2p/discover/table.go]: the nodes nearest to a target
    are asked for nodes nearer to it, three at a time, until the nearest ones found have all been asked.
    The answers of other nodes arrive in an arbitrary order and are an argument; the changes the queries
    make to the table are those of [Table]. *)

From S2P Require Import Prelude BigInt Keccak Sha3 Protocol Netutil Node Table.

(** ** The search *)

Record lookup_state := mk_lookup {
  lk_near : nodesByDistance;
  lk_asked : gset NodeID;
  lk_seen : gset NodeID;
  lk_pending : nat;
  lk_queries : list Node   (* the queries started so far, latest last *)
}.

(** Asks the first nodes not asked yet while fewer than [alpha] queries are open. *)
Fixpoint ask_nodes (es : list Node) (st : lookup_state) : lookup_state :=
  match es with
  | [] => st
  | n :: es =>
      if decide (lk_pending st < alpha)%nat then
        if decide (n_ID n ∈ lk_asked st) then ask_nodes es st
        else ask_nodes es (mk_lookup (lk_near st) ({[n_ID n]} ∪ lk_asked st) (lk_seen st)
                             (S (lk_pending st)) (lk_queries st ++ [n]))
      else st
  end.

Fixpoint push_unseen (ns : list Node) (st : lookup_state) : lookup_state :=
  match ns with
  | [] => st
  | n :: ns =>
      if decide (n_ID n ∈ lk_seen st) then push_unseen ns st
      else push_unseen ns (mk_lookup (near_push n bucketSize (lk_near st)) (lk_asked st) ({[n_ID n]} ∪ lk_seen st)
                             (lk_pending st) (lk_queries st))
  end.

Definition finish_query (st : lookup_state) : lookup_state :=
  mk_lookup (lk_near st) (lk_asked st) (lk_seen st) (lk_pending st - 1) (lk_queries st).

(** [None]: the search waits for an answer that does not come. *)
Fixpoint lookup_loop (replies : list (list Node)) (st : lookup_state) : option lookup_state :=
  let st := ask_nodes (near_entries (lk_near st)) st in
  if decide (lk_pending st = 0%nat) then Some st else
  match replies with
  | [] => None
  | r :: replies => lookup_loop replies (finish_query (push_unseen r st))
  end.

Definition lookup_start (t : Table) (target : Hash) : lookup_state :=
  mk_lookup (closest t target bucketSize) {[n_ID (t_self t)]} ∅ 0 [].

(** [lookup]: when nothing is known a refresh is waited for once, after which the table is [t']. *)
Definition lookup (t t' : Table) (target : Hash) (refreshIfEmpty : bool) (replies : list (list Node)) : option lookup_state :=
  let st := lookup_start t target in
  let st := if decide (near_entries (lk_near st) = []) then if refreshIfEmpty then lookup_start t' target else st else st in
  lookup_loop replies st.

Definition Lookup (t t' : Table) (target : Hash) (replies : list (list Node)) : option (list Node) :=
  (fun st => near_entries (lk_near st)) <$> lookup t t' target true replies.

(** [Resolve]: the node with this identifier, known or found. *)
Definition Resolve (t t' : Table) (targetID : NodeID) (hash : Hash) (replies : list (list Node)) : option (option Node) :=
  match near_entries (closest t hash 1) with
  | n :: _ => if decide (n_ID n = targetID) then Some (Some n)
              else (fun ns => snd <$> list_find (fun m => n_ID m = targetID) ns) <$> Lookup t t' hash replies
  | [] => (fun ns => snd <$> list_find (fun m => n_ID m = targetID) ns) <$> Lookup t t' hash replies
  end.

(** ** Invariant *)

(** What holds between two answers: [done] answers have come, [U] are the identifiers that may occur, and
    [offered] are the nodes that have been pushed. *)
Record lookup_inv (self : NodeID) (target : Hash) (U : gset NodeID) (done_ : nat) (offered : list Node) (st : lookup_state) : Prop := {
  li_count : size (lk_asked st) = (1 + done_ + lk_pending st)%nat;
  li_asked : lk_asked st ⊆ {[self]} ∪ U;
  li_pending : (lk_pending st <= alpha)%nat;
  li_queries : lk_asked st = {[self]} ∪ list_to_set (ids (lk_queries st));
  li_distinct : NoDup (self :: ids (lk_queries st));
  li_target : near_target (lk_near st) = target;
  li_near : nearest target bucketSize offered (near_entries (lk_near st));
  li_hash : Forall (hash_ok target) offered;
  li_ids : forall n, n ∈ offered -> n_ID n ∈ U
}.

Lemma ask_nodes_inv self target U k offered es st :
  lookup_inv self target U k offered st -> (forall n, n ∈ es -> n_ID n ∈ U) ->
  let st' := ask_nodes es st in
  lookup_inv self target U k offered st' /\ lk_near st' = lk_near st /\ lk_asked st ⊆ lk_asked st' /\
  (lk_pending st <= lk_pending st')%nat /\
  (lk_pending st' = 0%nat -> forall n, n ∈ es -> n_ID n ∈ lk_asked st').
Proof.
  cbn zeta. revert st. induction es as [|n es IH]; intros st Hi Hu; cbn [ask_nodes].
  { split_and!; try done; set_solver. }
  case_decide as Hp; [|unfold alpha in Hp; split_and!; [done..|lia]].
  case_decide as Ha.
  - destruct (IH st Hi ltac:(set_solver)) as (H1 & H2 & H3 & H4 & H5). split_and!; try done.
    intros H0 m [->|Hm]%elem_of_cons; [by apply H3|by apply H5].
  - match goal with |- context [ask_nodes es ?s] => set (s1 := s) end.
    destruct (IH s1) as (H1 & H2 & H3 & H4 & H5); [|set_solver|].
    + destruct Hi as [Hc Has Hpd Hq Hd Ht Hn Hh Hids]. split; subst s1; cbn in *; try done.
      * rewrite size_union, size_singleton by set_solver. lia.
      * set_solver.
      * unfold ids in *. rewrite fmap_app, list_to_set_app_L. cbn. rewrite Hq. set_solver.
      * unfold ids in *. rewrite fmap_app. cbn [fmap list_fmap]. rewrite app_comm_cons. apply NoDup_app. split_and!; [done| |apply NoDup_singleton].
        intros x Hx ->%list_elem_of_singleton. apply Ha. rewrite Hq. set_solver.
    + subst s1. cbn in *. split_and!; try done; [set_solver|lia|]. intros H0. lia.
Qed.

Lemma push_unseen_inv self target U k offered ns st :
  lookup_inv self target U k offered st -> (forall n, n ∈ ns -> n_ID n ∈ U) -> Forall (hash_ok target) ns ->
  exists new, lookup_inv self target U k (offered ++ new) (push_unseen ns st) /\
    lk_pending (push_unseen ns st) = lk_pending st.
Proof.
  revert offered st. induction ns as [|n ns IH]; intros offered st Hi Hu Hh; cbn [push_unseen].
  { exists []. by rewrite app_nil_r. }
  apply Forall_cons in Hh as [Hn Hh]. case_decide; [apply IH; [done|set_solver|done]|].
  pose proof Hi as [Hc Has Hpd Hq Hd Ht Hnr Hho Hids].
  destruct (lk_near st) as [es tg] eqn:En. cbn in Ht, Hnr. subst tg.
  destruct (near_push_nearest target bucketSize offered es n) as (es' & Ep & Hn'); [unfold bucketSize; lia|done..|].
  rewrite Ep. match goal with |- context [push_unseen ns ?s] => set (s1 := s) end.
  destruct (IH (offered ++ [n]) s1) as (new & H1 & H2); [|set_solver|done|].
  - split; subst s1; cbn in *; try done.
    + apply Forall_app. by split; [|apply Forall_singleton].
    + intros m. rewrite elem_of_app, list_elem_of_singleton. intros [Hm| ->]; [by apply Hids|set_solver].
  - exists (n :: new). rewrite <- app_assoc in H1. by split.
Qed.

Lemma finish_query_inv self target U k offered st :
  lookup_inv self target U k offered st -> lk_pending st <> 0%nat ->
  lookup_inv self target U (S k) offered (finish_query st).
Proof. intros [] Hp. split; cbn; try done; lia. Qed.

(** Every answer is for a query to a node not asked before, so that more answers than nodes are impossible. *)
Lemma lookup_loop_ends self target U k offered st replies :
  lookup_inv self target U k offered st ->
  Forall (Forall (fun n => n_ID n ∈ U /\ hash_ok target n)) replies -> (size U <= k + length replies)%nat ->
  exists st' k' offered', lookup_loop replies st = Some st' /\ lookup_inv self target U k' offered' st' /\
    offered `prefix_of` offered' /\ lk_pending st' = 0%nat /\
    (forall n, n ∈ near_entries (lk_near st') -> n_ID n ∈ lk_asked st').
Proof.
  revert k offered st. induction replies as [|r replies IH]; intros k offered st Hi Hr Hs; cbn [lookup_loop].
  all: assert (forall n, n ∈ near_entries (lk_near st) -> n_ID n ∈ U) as Hin
    by (destruct (nr_rest _ _ _ _ (li_near _ _ _ _ _ _ Hi)) as (rest & Hp & _); intros n Hn;
        apply (li_ids _ _ _ _ _ _ Hi); rewrite Hp; set_solver).
  all: destruct (ask_nodes_inv _ _ _ _ _ _ st Hi Hin) as (Ha & En & _ & _ & Hall).
  all: set (s1 := ask_nodes _ st) in *; destruct (decide (lk_pending s1 = 0%nat)) as [H0|H0];
    [exists s1, k, offered; split_and!; [done..|]; rewrite En in *; by apply Hall|].
  - exfalso. pose proof (subseteq_size _ _ (li_asked _ _ _ _ _ _ Ha)) as Hle.
    rewrite (li_count _ _ _ _ _ _ Ha) in Hle. rewrite size_union_alt, size_singleton in Hle.
    pose proof (subseteq_size (U ∖ {[self]}) U ltac:(set_solver)). cbn in Hs. lia.
  - apply Forall_cons in Hr as [Hr1 Hr2].
    destruct (push_unseen_inv self target U k offered r s1) as (new & Hi1 & Ep); [done|..].
    + intros n Hn. rewrite Forall_forall in Hr1. by apply Hr1.
    + eapply Forall_impl; [done|]. by intros n [].
    + apply finish_query_inv in Hi1; [|by rewrite Ep].
      destruct (IH _ _ _ Hi1 Hr2 ltac:(cbn in Hs; lia)) as (st' & k' & off & ? & ? & Hpre & ? & ?).
      exists st', k', off. split_and!; try done. etrans; [by eexists|done].
Qed.

Lemma nearest_refl target k es :
  StronglySorted (nearer target) es -> (length es <= k)%nat -> nearest target k es es.
Proof. intros Hs Hl. split; [done|lia|]. exists []. rewrite app_nil_r. split; [done|set_solver]. Qed.

Definition known (t : Table) : list Node := mjoin (entries <$> t_buckets t).

Lemma lookup_start_inv t target U :
  Forall (hash_ok target) (known t) -> (forall n, n ∈ known t -> n_ID n ∈ U) ->
  let offered := near_entries (closest t target bucketSize) in
  lookup_inv (n_ID (t_self t)) target U 0 offered (lookup_start t target) /\ (forall n, n ∈ offered -> n ∈ known t).
Proof.
  intros Hok Hu. cbn zeta.
  destruct (closest_nearest t target bucketSize) as (es & E & [Hs Hl (rest & Hp & _)]); [unfold bucketSize; lia|done|].
  unfold lookup_start, known in *. rewrite E. cbn [near_entries]. rewrite Hp, Forall_app in Hok. destruct Hok as [Hok _].
  assert (forall n, n ∈ es -> n ∈ mjoin (entries <$> t_buckets t)) as Hin by (intros n Hn; rewrite Hp; set_solver).
  split; [|done].
  split; cbn [lk_asked lk_pending lk_queries lk_near near_target near_entries ids fmap list_fmap list_to_set]; try done.
  - by rewrite size_singleton.
  - set_solver.
  - lia.
  - set_solver.
  - apply NoDup_singleton.
  - apply nearest_refl; [done|]. rewrite Hl. lia.
  - auto.
Qed.

(** The table the search starts from. *)
Definition lookup_table (t t' : Table) (target : Hash) (refreshIfEmpty : bool) : Table :=
  if decide (near_entries (closest t target bucketSize) = []) then if refreshIfEmpty then t' else t else t.

(** A lookup ends.  When the identifiers of the known nodes and of all nodes in the answers are among a
    finite set, as many answers as the set has members are enough for it to return, whatever they
    contain and in whatever order they come: no node is asked twice, and the own node never.  At most
    three queries are open at any time; at the end none is, every node in the result has been asked
    (or is the own node), and the result are the sixteen nearest to the target of all nodes offered, sorted
    by distance. *)
Theorem lookup_terminates (t t' : Table) (target : Hash) (refreshIfEmpty : bool) (replies : list (list Node)) (U : gset NodeID) :
  let t0 := lookup_table t t' target refreshIfEmpty in
  Forall (fun n => n_ID n ∈ U /\ hash_ok target n) (known t0) ->
  Forall (Forall (fun n => n_ID n ∈ U /\ hash_ok target n)) replies -> (size U <= length replies)%nat ->
  exists st offered, lookup t t' target refreshIfEmpty replies = Some st /\
    near_entries (closest t0 target bucketSize) `prefix_of` offered /\
    nearest target bucketSize offered (near_entries (lk_near st)) /\
    NoDup (n_ID (t_self t0) :: ids (lk_queries st)) /\ lk_pending st = 0%nat /\
    (forall n, n ∈ near_entries (lk_near st) -> n_ID n = n_ID (t_self t0) \/ n_ID n ∈ ids (lk_queries st)).
Proof.
  cbn zeta. intros Ht Hr Hs.
  assert (lookup t t' target refreshIfEmpty replies
    = lookup_loop replies (lookup_start (lookup_table t t' target refreshIfEmpty) target)) as ->.
  { unfold lookup, lookup_table. cbn [lookup_start lk_near]. repeat case_decide; by destruct refreshIfEmpty. }
  set (t0 := lookup_table _ _ _ _) in *.
  destruct (lookup_start_inv t0 target U) as [Hi _].
  - eapply Forall_impl; [done|]. by intros n [].
  - intros n Hn. rewrite Forall_forall in Ht. by apply Ht.
  - destruct (lookup_loop_ends _ _ _ _ _ _ replies Hi Hr Hs) as (st & k & off & E & Hi' & Hpre & H0 & Hall).
    exists st, off. destruct Hi'. split_and!; try done.
    intros n Hn. apply Hall in Hn. set_solver.
Qed.

Lemma Resolve_id t t' targetID hash replies n : Resolve t t' targetID hash replies = Some (Some n) -> n_ID n = targetID.
Proof.
  unfold Resolve. intros E.
  destruct (near_entries (closest t hash 1)) as [|m ms]; [|case_decide; [naive_solver|]].
  all: apply fmap_Some in E as (ns & _ & E); symmetry in E; apply fmap_Some in E as ([i x] & E & ->);
    by apply list_find_Some in E as (_ & ? & _).
Qed.

(** The nodes a search starts from are not marked as seen: a neighbour that names one of them makes it
    occupy two of the sixteen places. *)
Theorem lookup_duplicates :
  exists t replies st, lookup t t (be_fix 32 7) false replies = Some st /\
    NoDup (ids (known t)) /\ ids (near_entries (lk_near st)) = [be_fix 64 5; be_fix 64 4; be_fix 64 4; be_fix 64 3].
Proof.
  exists demo_table, [[demo_node 4 [9; 9; 9; 2]]; []; []; []].
  eexists. split; [by vm_compute|]. split; [apply (bool_decide_unpack _)|]; by vm_compute.
Qed.

Lemma lookup_terminates_witness :
  let U := {[be_fix 64 3; be_fix 64 4; be_fix 64 5]} : gset NodeID in
  let replies := [[demo_node 4 [9; 9; 9; 2]]; []; []] in
  size U = 3%nat /\ is_Some (lookup demo_table demo_table (be_fix 32 7) true replies).
Proof.
  cbn zeta. split; [by vm_compute|].
  destruct (lookup_terminates demo_table demo_table (be_fix 32 7) true [[demo_node 4 [9; 9; 9; 2]]; []; []]
    {[be_fix 64 3; be_fix 64 4; be_fix 64 5]}) as (st & off & E & _).
  - apply (bool_decide_unpack _). by vm_compute.
  - apply (bool_decide_unpack _). by vm_compute.
  - apply (bool_decide_unpack _). by vm_compute.
  - exists st. exact E.
Defined.
