(* ===== verification/DialHistory.v ===== *)
(** * The dial history

    The [dialHistory] of [src/p2p/dial.go]: the recent dials, in a binary heap ordered by the time they
    expire.  The operations of Go's [container/heap] are included; they index a slice, and the
    lengths are those of the slice. *)

From S2P Require Import Prelude BigInt Protocol.

(** ** Entries *)

(** Times are in nanoseconds. *)
Record pastDial := mk_past { pd_id : NodeID; pd_exp : Z }.

#[global] Instance pastDial_eq_dec : EqDecision pastDial.
Proof. solve_decision. Defined.

Abbreviation dialHistory := (list pastDial).

(** The expiration at an index; the indices used are below the length. *)
Definition exp_at (h : dialHistory) (i : nat) : Z := match h !! i with Some x => pd_exp x | None => 0 end.

Definition hist_Less (h : dialHistory) (i j : nat) : bool := exp_at h i <? exp_at h j.

(** ** [container/heap] *)

Definition parent (j : nat) : nat := ((j - 1) / 2)%nat.

(** An index above 0 has a smaller parent: as many rounds as the index are enough. *)
Fixpoint heap_up (fuel : nat) (h : dialHistory) (j : nat) : dialHistory :=
  match fuel with
  | O => h
  | S fuel' =>
      let i := parent j in
      if decide (i = j) then h
      else if negb (hist_Less h j i) then h
      else heap_up fuel' (swap h i j) i
  end.

Definition up (h : dialHistory) (j : nat) : dialHistory := heap_up (S j) h j.

(** The index grows in every round and stays below [n]. *)
Fixpoint heap_down (fuel : nat) (h : dialHistory) (i n : nat) : dialHistory * nat :=
  match fuel with
  | O => (h, i)
  | S fuel' =>
      let j1 := (2 * i + 1)%nat in
      if decide (n <= j1)%nat then (h, i) else
      let j2 := (j1 + 1)%nat in
      let j := if decide (j2 < n)%nat then if hist_Less h j2 j1 then j2 else j1 else j1 in
      if negb (hist_Less h j i) then (h, i) else heap_down fuel' (swap h i j) j n
  end.

Definition down (h : dialHistory) (i0 n : nat) : dialHistory * bool :=
  let '(h, i) := heap_down n h i0 n in (h, bool_decide (i0 < i)%nat).

(** [dialHistory.Pop] drops the last entry. *)
Definition heap_Push (h : dialHistory) (x : pastDial) : dialHistory := up (h ++ [x]) (length h).
Definition heap_Pop (h : dialHistory) : dialHistory :=
  let n := (length h - 1)%nat in take n (down (swap h 0 n) 0 n).1.
Definition heap_Remove (h : dialHistory) (i : nat) : dialHistory :=
  let n := (length h - 1)%nat in
  take n (if decide (n = i) then h else let '(h, moved) := down (swap h i n) i n in if moved then h else up h i).

(** ** The history *)

Definition hist_min (h : dialHistory) : option pastDial := head h.

Definition hist_add (h : dialHistory) (id : NodeID) (exp : Z) : dialHistory := heap_Push h (mk_past id exp).

Definition hist_contains (h : dialHistory) (id : NodeID) : bool := existsb (fun v => bool_decide (pd_id v = id)) h.

Definition hist_remove (h : dialHistory) (id : NodeID) : dialHistory :=
  match list_find (fun v => pd_id v = id) h with
  | Some (i, _) => heap_Remove h i
  | None => h
  end.

(** Every round shortens the history. *)
Fixpoint expire_loop (fuel : nat) (now : Z) (h : dialHistory) : dialHistory :=
  match fuel with
  | O => h
  | S fuel' =>
      match hist_min h with
      | Some v => if pd_exp v <? now then expire_loop fuel' now (heap_Pop h) else h
      | None => h
      end
  end.

Definition hist_expire (now : Z) (h : dialHistory) : dialHistory := expire_loop (length h) now h.

(** ** The heap order *)

(** The first [n] entries are in heap order, except perhaps between an index [j] and its parent or
    children. *)
Definition heap_ok (n : nat) (h : dialHistory) : Prop :=
  forall k, (0 < k < n)%nat -> exp_at h (parent k) <= exp_at h k.

Record up_ok (n j : nat) (h : dialHistory) : Prop := {
  uo_order : forall k, (0 < k < n)%nat -> k <> j -> exp_at h (parent k) <= exp_at h k;
  uo_skip : forall k, (0 < k < n)%nat -> parent k = j -> (0 < j)%nat -> exp_at h (parent j) <= exp_at h k
}.

Record down_ok (n i : nat) (h : dialHistory) : Prop := {
  do_order : forall k, (0 < k < n)%nat -> k <> i -> parent k <> i -> exp_at h (parent k) <= exp_at h k;
  do_skip : forall k, (0 < k < n)%nat -> parent k = i -> (0 < i)%nat -> exp_at h (parent i) <= exp_at h k
}.

Lemma parent_lt k : (0 < k)%nat -> (parent k < k)%nat.
Proof. intros H. unfold parent. apply Nat.Div0.div_lt_upper_bound. lia. Qed.

Lemma parent_children k i : (0 < k)%nat -> parent k = i <-> (k = 2 * i + 1 \/ k = 2 * i + 2)%nat.
Proof.
  intros H. unfold parent. pose proof (Nat.div_mod_eq (k - 1) 2). pose proof (Nat.mod_upper_bound (k - 1) 2 ltac:(lia)). lia.
Qed.

Lemma exp_at_swap h i j k :
  (i < length h)%nat -> (j < length h)%nat ->
  exp_at (swap h i j) k = if decide (k = i) then exp_at h j else if decide (k = j) then exp_at h i else exp_at h k.
Proof.
  intros Hi Hj. unfold swap, exp_at.
  destruct (lookup_lt_is_Some_2 h i Hi) as [x Ex], (lookup_lt_is_Some_2 h j Hj) as [y Ey]. rewrite Ex, Ey.
  case_decide as Hki; [subst k; by rewrite list_lookup_insert_eq by by rewrite length_insert|].
  rewrite list_lookup_insert_ne by done. case_decide as Hkj.
  - subst k. by rewrite list_lookup_insert_eq.
  - by rewrite list_lookup_insert_ne.
Qed.

Lemma length_swap {A} (l : list A) i j : length (swap l i j) = length l.
Proof. apply Permutation_length, swap_perm. Qed.

Lemma swap_up n h j :
  (0 < j < n)%nat -> (n <= length h)%nat -> exp_at h j < exp_at h (parent j) -> up_ok n j h ->
  up_ok n (parent j) (swap h (parent j) j).
Proof.
  intros Hj Hn Hl [Ho Hs]. pose proof (parent_lt j ltac:(lia)) as Hp.
  assert (forall k, exp_at (swap h (parent j) j) k
    = if decide (k = parent j) then exp_at h j else if decide (k = j) then exp_at h (parent j) else exp_at h k) as E
    by (intros k; apply exp_at_swap; lia).
  split.
  - intros k Hk Hkp. rewrite !E. pose proof (parent_lt k ltac:(lia)).
    destruct (decide (k = j)) as [->|Hkj]; [rewrite decide_True, decide_False by lia; lia|].
    rewrite (decide_False (P := k = parent j)) by done. specialize (Ho k Hk Hkj).
    destruct (decide (parent k = parent j)) as [Ek|]; [rewrite Ek in Ho; lia|].
    destruct (decide (parent k = j)) as [Ek|]; [|done]. apply Hs; [done..|lia].
  - intros k Hk Ek Hpp. rewrite !E. pose proof (parent_lt (parent j) Hpp). pose proof (parent_lt k ltac:(lia)).
    rewrite (decide_False (P := parent (parent j) = parent j)), (decide_False (P := parent (parent j) = j)) by lia.
    rewrite (decide_False (P := k = parent j)) by lia.
    pose proof (Ho (parent j) ltac:(lia) ltac:(lia)). case_decide as Hkj; [done|].
    specialize (Ho k Hk Hkj). rewrite Ek in Ho. lia.
Qed.

Lemma heap_up_spec fuel n h j :
  (j < fuel)%nat -> (j < n)%nat -> (n <= length h)%nat -> up_ok n j h -> heap_ok n (heap_up fuel h j).
Proof.
  revert h j. induction fuel as [|fuel IH]; intros h j Hf Hj Hn Hok; [lia|]. cbn [heap_up]. cbn zeta.
  case_decide as Hp.
  { intros k Hk. apply Hok; [done|]. intros ->. pose proof (parent_lt j). lia. }
  assert (0 < j)%nat as H0 by (destruct j; [done|lia]). pose proof (parent_lt j H0).
  unfold hist_Less. destruct (Z.ltb_spec (exp_at h j) (exp_at h (parent j))) as [Hl|Hl]; cbn [negb].
  - apply IH; [lia|lia|by rewrite length_swap|by apply swap_up].
  - intros k Hk. destruct (decide (k = j)) as [->|]; [done|by apply Hok].
Qed.

Lemma heap_up_perm fuel h j : heap_up fuel h j ≡ₚ h.
Proof. revert h j. induction fuel as [|fuel IH]; intros h j; cbn; [done|]. repeat case_match; try done. by rewrite IH, swap_perm. Qed.

Lemma heap_up_drop fuel n h j : (j < n)%nat -> drop n (heap_up fuel h j) = drop n h.
Proof.
  revert h j. induction fuel as [|fuel IH]; intros h j Hj; cbn [heap_up]; cbn zeta; [done|].
  assert (parent j <= j)%nat as Hp by (destruct j; [done|apply Nat.lt_le_incl, parent_lt; lia]).
  repeat case_match; try done. rewrite IH by lia. unfold swap. repeat case_match; try done.
  by rewrite !drop_insert_lt by lia.
Qed.

Lemma swap_down n h i j :
  (0 < j < n)%nat -> parent j = i -> (n <= length h)%nat -> exp_at h j < exp_at h i ->
  (forall k, (0 < k < n)%nat -> parent k = i -> exp_at h j <= exp_at h k) -> down_ok n i h ->
  down_ok n j (swap h i j) /\ exp_at (swap h i j) (parent j) <= exp_at (swap h i j) j.
Proof.
  intros Hj Ej Hn Hl Hmin [Ho Hs]. pose proof (parent_lt j ltac:(lia)) as Hp. rewrite Ej in Hp.
  assert (forall k, exp_at (swap h i j) k
    = if decide (k = i) then exp_at h j else if decide (k = j) then exp_at h i else exp_at h k) as E
    by (intros k; apply exp_at_swap; lia).
  split; [split|].
  - intros k Hk Hkj Hpk. rewrite !E. pose proof (parent_lt k ltac:(lia)).
    rewrite (decide_False (P := k = j)), (decide_False (P := parent k = j)) by done.
    destruct (decide (k = i)) as [->|Hki].
    + rewrite decide_False by lia. apply Hs; [lia..|]. lia.
    + case_decide as Ek; [by apply Hmin|]. by apply Ho.
  - intros k Hk Ek _. rewrite Ej, !E. pose proof (parent_lt k ltac:(lia)).
    rewrite (decide_True (P := i = i)), (decide_False (P := k = i)), (decide_False (P := k = j)) by lia.
    rewrite <- Ek. apply Ho; lia.
  - rewrite !E, Ej, (decide_True (P := i = i)), (decide_False (P := j = i)), (decide_True (P := j = j)) by lia. lia.
Qed.

(** The child a round of [down] compares with. *)
Lemma smaller_child n h i :
  (2 * i + 1 < n)%nat ->
  let j1 := (2 * i + 1)%nat in let j2 := (j1 + 1)%nat in
  let j := if decide (j2 < n)%nat then if hist_Less h j2 j1 then j2 else j1 else j1 in
  (i < j < n)%nat /\ parent j = i /\ (forall k, (0 < k < n)%nat -> parent k = i -> exp_at h j <= exp_at h k).
Proof.
  intros Hn. cbn zeta. unfold hist_Less.
  destruct (Z.ltb_spec (exp_at h (2 * i + 1 + 1)) (exp_at h (2 * i + 1))); case_decide;
    (split_and!; [lia|lia|apply parent_children; lia|]); intros k Hk [->| ->]%parent_children; try lia;
    replace (2 * i + 2)%nat with (2 * i + 1 + 1)%nat by lia; lia.
Qed.

Lemma heap_down_spec fuel n h i :
  (n <= i + fuel)%nat -> (n <= length h)%nat -> down_ok n i h ->
  ((0 < i < n)%nat -> exp_at h (parent i) <= exp_at h i) -> heap_ok n (heap_down fuel h i n).1.
Proof.
  revert h i. induction fuel as [|fuel IH]; intros h i Hf Hn Hok Hi; cbn [heap_down].
  { intros k Hk. pose proof (parent_lt k ltac:(lia)). apply Hok; lia. }
  cbn zeta. destruct (decide (n <= 2 * i + 1)%nat) as [Hle|Hle].
  { intros k Hk. destruct (decide (k = i)) as [->|]; [by apply Hi|]. apply Hok; [done..|].
    intros [->| ->]%parent_children; lia. }
  destruct (smaller_child n h i ltac:(lia)) as (Hj & Hp & Hmin). cbn zeta in *.
  set (j := if decide (2 * i + 1 + 1 < n)%nat then _ else _) in *.
  unfold hist_Less. destruct (Z.ltb_spec (exp_at h j) (exp_at h i)); cbn [negb].
  - destruct (swap_down n h i j) as [Hd Hu]; [lia|done..|]. apply IH; [lia|by rewrite length_swap|done..].
  - intros k Hk. cbn [fst]. destruct (decide (k = i)) as [->|]; [by apply Hi|].
    destruct (decide (parent k = i)) as [Ek|]; [|by apply Hok]. rewrite Ek. specialize (Hmin k Hk Ek). lia.
Qed.

Lemma heap_down_index fuel h i n : (i <= (heap_down fuel h i n).2)%nat.
Proof.
  revert h i. induction fuel as [|fuel IH]; intros h i; cbn [heap_down]; [done|]. cbn zeta.
  destruct (decide (n <= 2 * i + 1)%nat) as [Hle|Hle]; [done|].
  destruct (smaller_child n h i ltac:(lia)) as (Hj & _ & _). cbn zeta in Hj.
  set (j := if decide (2 * i + 1 + 1 < n)%nat then _ else _) in *.
  destruct (negb (hist_Less h j i)); [done|]. etrans; [|apply IH]. lia.
Qed.

(** [down] restores the order below an entry; when it does not move, only the order above may be wrong. *)
Lemma down_spec n h i :
  (n <= length h)%nat -> (i < n)%nat -> down_ok n i h ->
  if (down h i n).2 then heap_ok n (down h i n).1 else (down h i n).1 = h /\ up_ok n i h.
Proof.
  intros Hn Hi Hok. unfold down. destruct n as [|n]; [lia|]. cbn [heap_down]. cbn zeta.
  set (N := S n) in *. destruct (decide (N <= 2 * i + 1)%nat) as [Hle|Hle].
  { rewrite bool_decide_eq_false_2 by lia. split; [done|]. split; [|intros k Hk [->| ->]%parent_children; lia].
    intros k Hk Hki. apply Hok; [done..|]. intros [->| ->]%parent_children; lia. }
  destruct (smaller_child N h i ltac:(lia)) as (Hj & Hp & Hmin). cbn zeta in *.
  set (j := if decide (2 * i + 1 + 1 < N)%nat then _ else _) in *.
  destruct (hist_Less h j i) eqn:El; unfold hist_Less in El; [apply Z.ltb_lt in El|apply Z.ltb_ge in El]; cbn [negb].
  - destruct (swap_down N h i j) as [Hd Hu]; [lia|done..|].
    pose proof (heap_down_index n (swap h i j) j N) as Hx.
    pose proof (heap_down_spec n N (swap h i j) j ltac:(lia) ltac:(by rewrite length_swap) Hd ltac:(done)) as Hh.
    destruct (heap_down n (swap h i j) j N) as [h' x]. cbn in *. by rewrite bool_decide_eq_true_2 by lia.
  - rewrite bool_decide_eq_false_2 by lia. split; [done|]. split; [|intros k Hk Ek H0; by apply (do_skip _ _ _ Hok)].
    intros k Hk Hki. destruct (decide (parent k = i)) as [Ek|]; [|by apply Hok].
    rewrite Ek. specialize (Hmin k Hk Ek). lia.
Qed.

Lemma heap_down_perm fuel h i n : (heap_down fuel h i n).1 ≡ₚ h.
Proof. revert h i. induction fuel as [|fuel IH]; intros h i; cbn; [done|]. repeat case_match; try done; by rewrite IH, swap_perm. Qed.

Lemma heap_down_drop fuel h i n : (i < n)%nat -> drop n (heap_down fuel h i n).1 = drop n h.
Proof.
  revert h i. induction fuel as [|fuel IH]; intros h i Hi; cbn [heap_down]; cbn zeta; [done|].
  destruct (decide (n <= 2 * i + 1)%nat) as [Hle|Hle]; [done|].
  destruct (smaller_child n h i ltac:(lia)) as (Hj & _ & _). cbn zeta in Hj.
  set (j := if decide (2 * i + 1 + 1 < n)%nat then _ else _) in *.
  destruct (negb (hist_Less h j i)); [done|]. rewrite IH by lia. unfold swap. repeat case_match; try done. by rewrite !drop_insert_lt by lia.
Qed.

(** ** The operations of the heap *)

Abbreviation heap h := (heap_ok (length h) h).

Lemma exp_at_app_l h x k : (k < length h)%nat -> exp_at (h ++ [x]) k = exp_at h k.
Proof. intros H. unfold exp_at. by rewrite lookup_app_l. Qed.

Lemma exp_at_take n h k : (k < n)%nat -> exp_at (take n h) k = exp_at h k.
Proof. intros H. unfold exp_at. by rewrite lookup_take_lt. Qed.

Lemma heap_ok_take n h : (n <= length h)%nat -> heap_ok n h -> heap (take n h).
Proof.
  intros Hn Hok k Hk. rewrite length_take in Hk. pose proof (parent_lt k ltac:(lia)).
  rewrite !exp_at_take by lia. apply Hok. lia.
Qed.

Lemma heap_Push_heap h x : heap h -> heap (heap_Push h x).
Proof.
  intros Hh. unfold heap_Push, up.
  assert (length (heap_up (S (length h)) (h ++ [x]) (length h)) = S (length h)) as ->.
  { rewrite (Permutation_length (heap_up_perm _ _ _)), length_app. cbn. lia. }
  apply heap_up_spec; [lia|lia|rewrite length_app; cbn; lia|]. split.
  - intros k Hk Hne. pose proof (parent_lt k ltac:(lia)). rewrite !exp_at_app_l by lia. apply Hh. lia.
  - intros k Hk Ek Hl. pose proof (parent_lt k ltac:(lia)). lia.
Qed.

Lemma heap_Push_perm h x : heap_Push h x ≡ₚ x :: h.
Proof. unfold heap_Push, up. rewrite heap_up_perm. symmetry. apply Permutation_cons_append. Qed.

(** What is left of the order when the last entry takes the place of entry [i]. *)
Lemma swap_last_down_ok h i :
  let n := (length h - 1)%nat in
  heap h -> (i < n)%nat -> down_ok n i (swap h i n).
Proof.
  cbn zeta. intros Hh Hi. set (n := (length h - 1)%nat) in *.
  assert (forall k, (k < n)%nat -> k <> i -> exp_at (swap h i n) k = exp_at h k) as E.
  { intros k Hk Hki. rewrite exp_at_swap, !decide_False by lia. done. }
  split.
  - intros k Hk Hki Hp. pose proof (parent_lt k ltac:(lia)). rewrite !E by lia. apply Hh. lia.
  - intros k Hk Ek H0. pose proof (parent_lt k ltac:(lia)). pose proof (parent_lt i H0). rewrite !E by lia.
    etrans; [apply (Hh i); lia|]. rewrite <- Ek. apply Hh. lia.
Qed.

(** A permutation that keeps the part from [n] on permutes the part before it. *)
Lemma take_perm {A} n (l k : list A) : l ≡ₚ k -> drop n l = drop n k -> take n l ≡ₚ take n k.
Proof.
  intros Hp Hd. rewrite <- (take_drop n l), <- (take_drop n k), Hd in Hp. by apply Permutation_app_inv_r in Hp.
Qed.

Lemma swap_last {A} (l : list A) i x :
  l !! i = Some x -> take (length l - 1) (swap l i (length l - 1)) ++ [x] ≡ₚ l.
Proof.
  intros Hi. pose proof (lookup_lt_Some _ _ _ Hi) as Hl.
  destruct (lookup_lt_is_Some_2 l (length l - 1)%nat ltac:(lia)) as [y Hy].
  assert (swap l i (length l - 1) !! (length l - 1)%nat = Some x) as Hx.
  { unfold swap. rewrite Hi, Hy. destruct (decide (i = (length l - 1)%nat)) as [->|Hne].
    - rewrite list_lookup_insert_eq by (rewrite length_insert; lia). congruence.
    - by rewrite list_lookup_insert_ne, list_lookup_insert_eq by lia. }
  etrans; [|apply (swap_perm l i (length l - 1))].
  rewrite <- (take_drop_middle _ _ _ Hx) at 2. rewrite drop_ge; [done|]. rewrite length_swap. lia.
Qed.

Lemma heap_Remove_spec h i x :
  heap h -> h !! i = Some x -> heap (heap_Remove h i) /\ x :: heap_Remove h i ≡ₚ h.
Proof.
  intros Hh Hi. pose proof (lookup_lt_Some _ _ _ Hi) as Hl. unfold heap_Remove.
  set (n := (length h - 1)%nat) in *. destruct (decide (n = i)) as [<-|Hne].
  { split; [apply heap_ok_take; [lia|intros k Hk; apply Hh; lia]|].
    rewrite <- (take_drop_middle _ _ _ Hi) at 2. rewrite (drop_ge h) by lia.
    apply Permutation_cons_append. }
  assert (i < n)%nat as Hin by lia.
  pose proof (down_spec n (swap h i n) i ltac:(rewrite length_swap; lia) Hin (swap_last_down_ok h i Hh Hin)) as Hd.
  unfold down in *. pose proof (heap_down_perm n (swap h i n) i n) as Hp. pose proof (heap_down_drop n (swap h i n) i n Hin) as Hdr.
  destruct (heap_down n (swap h i n) i n) as [h' ix]. cbn [fst snd] in *.
  assert (length h' = length h) as Hlen by (by rewrite Hp, length_swap).
  pose proof (swap_last h i x Hi) as Hsw. fold n in Hsw. case_bool_decide as Hmv.
  - split; [apply heap_ok_take; [lia|done]|]. etrans; [|exact Hsw]. rewrite Permutation_cons_append.
    apply Permutation_app_tail. by apply take_perm.
  - destruct Hd as [-> Hu]. split.
    + apply heap_ok_take; [unfold up; rewrite (Permutation_length (heap_up_perm _ _ _)), length_swap; lia|].
      apply heap_up_spec; [lia|done|rewrite length_swap; lia|done].
    + etrans; [|exact Hsw]. rewrite Permutation_cons_append. apply Permutation_app_tail.
      apply take_perm; [apply heap_up_perm|]. by apply heap_up_drop.
Qed.

Lemma heap_Pop_Remove h : heap_Pop h = heap_Remove h 0.
Proof.
  unfold heap_Pop, heap_Remove. destruct (decide ((length h - 1)%nat = 0%nat)) as [->|Hne]; [done|].
  destruct (down _ _ _) as [h' [|]]; done.
Qed.

Lemma heap_min h x y : heap h -> h !! 0%nat = Some x -> y ∈ h -> pd_exp x <= pd_exp y.
Proof.
  intros Hh Hx [k Hk]%list_elem_of_lookup. revert y Hk. induction (lt_wf k) as [k _ IH]. intros y Hk.
  destruct k as [|k]; [rewrite Hx in Hk; by injection Hk as <-|].
  pose proof (lookup_lt_Some _ _ _ Hk) as Hl. pose proof (parent_lt (S k) ltac:(lia)) as Hp.
  destruct (lookup_lt_is_Some_2 h (parent (S k)) ltac:(lia)) as [z Hz].
  specialize (IH _ Hp z Hz). specialize (Hh (S k) ltac:(lia)). unfold exp_at in Hh. rewrite Hz, Hk in Hh. lia.
Qed.

(** ** The history *)

(** What the operations do to the entries, seen as a bag. *)
Lemma hist_add_spec h id exp : heap h -> heap (hist_add h id exp) /\ hist_add h id exp ≡ₚ mk_past id exp :: h.
Proof. intros Hh. split; [by apply heap_Push_heap|apply heap_Push_perm]. Qed.

Lemma hist_remove_spec h id :
  heap h -> heap (hist_remove h id) /\
  ((~ id ∈ (pd_id <$> h) /\ hist_remove h id = h) \/ exists x, pd_id x = id /\ x :: hist_remove h id ≡ₚ h).
Proof.
  intros Hh. unfold hist_remove. destruct (list_find _ h) as [[i x]|] eqn:E.
  - apply list_find_Some in E as (Hi & Hid & _). destruct (heap_Remove_spec h i x Hh Hi). split; [done|right]. by exists x.
  - split; [done|left]. split; [|done]. apply list_find_None in E. rewrite Forall_forall in E.
    rewrite list_elem_of_fmap. intros (y & -> & Hy). by eapply E.
Qed.

Lemma expire_loop_spec fuel now h :
  (length h <= fuel)%nat -> heap h ->
  heap (expire_loop fuel now h) /\ expire_loop fuel now h ≡ₚ filter (fun v => now <= pd_exp v) h.
Proof.
  revert h. induction fuel as [|fuel IH]; intros h Hf Hh; cbn [expire_loop].
  { destruct h; [done|cbn in Hf; lia]. }
  unfold hist_min. destruct h as [|v h0] eqn:Eh; [done|]. cbn [head].
  destruct (Z.ltb_spec (pd_exp v) now) as [Hl|Hl].
  - rewrite <- Eh in *. assert (h !! 0%nat = Some v) as H0 by by rewrite Eh.
    destruct (heap_Remove_spec h 0 v Hh H0) as [Hh' Hp]. rewrite <- heap_Pop_Remove in Hh', Hp.
    destruct (IH (heap_Pop h)) as [H1 H2]; [|done|].
    { pose proof (Permutation_length Hp). cbn in *. lia. }
    split; [done|]. rewrite H2. apply (filter_Permutation (fun v => now <= pd_exp v)) in Hp.
    by rewrite filter_cons_False in Hp by lia.
  - rewrite <- Eh in *. split; [done|]. rewrite filter_all; [done|]. intros y Hy.
    assert (h !! 0%nat = Some v) as H0 by by rewrite Eh. pose proof (heap_min h v y Hh H0 Hy). lia.
Qed.

(** The history forgets exactly the dials that have expired. *)
Lemma hist_expire_spec now h :
  heap h -> heap (hist_expire now h) /\ hist_expire now h ≡ₚ filter (fun v => now <= pd_exp v) h.
Proof. intros Hh. by apply expire_loop_spec. Qed.

Lemma hist_contains_spec h id : hist_contains h id = true <-> id ∈ pd_id <$> h.
Proof.
  unfold hist_contains. rewrite existsb_exists, list_elem_of_fmap. setoid_rewrite bool_decide_eq_true.
  setoid_rewrite <- list_elem_of_In. naive_solver.
Qed.
