(* ===== verification/Dial.v ===== *)
(** * Dialling

    [src/p2p/dial.go]: which nodes to connect to, and when.  A dial task is shared between the dialer, which
    keeps the tasks of static and storeman nodes for the next attempt, and the goroutine that runs it and may
    change its destination: tasks live in a store [ds_tasks] and are named by pointers.  Go iterates
    over its maps in any order; the order is an argument. *)

From S2P Require Import Prelude BigInt Protocol Netutil Node DialHistory.

(** ** Constants *)

Definition second : Z := 1000000000.
Definition dialHistoryExpiration : Z := 30 * second.
Definition lookupInterval : Z := 4 * second.
Definition fallbackInterval : Z := 20 * second.
Definition initialResolveDelay : Z := 60 * second.
Definition maxResolveDelay : Z := 3600 * second.

(** [connFlag] *)
Definition dynDialedConn : Z := 1.
Definition staticDialedConn : Z := 2.
Definition storemanDialedConn : Z := 4.
Definition inboundConn : Z := 8.
Definition trustedConn : Z := 16.

Definition has_flag (flags f : Z) : bool := negb (Z.land flags f =? 0).

(** ** State *)

Record dialTask := mk_task {
  dt_flags : Z;
  dt_dest : Node;
  dt_lastResolved : option Z;   (* None: the zero time *)
  dt_resolveDelay : Z
}.

(** A task is a pointer; two tasks are the same when the pointers are. *)
Inductive task := TDial (p : nat) | TDiscover (p : nat) | TWait (p : nat) (d : Z).

#[global] Instance task_eq_dec : EqDecision task.
Proof. solve_decision. Defined.

Record dial_config := mk_dcfg {
  dc_maxDynDials : Z;
  dc_self : option NodeID;              (* [ntab.Self().ID], None without a node table *)
  dc_netrestrict : option Netlist
}.

Record dialstate := mk_dials {
  ds_cfg : dial_config;
  ds_lookupRunning : bool;
  ds_dialing : gmap NodeID Z;
  ds_lookupBuf : list Node;
  ds_randomNodes : list (option Node);
  ds_static : gmap NodeID nat;
  ds_storeman : gmap NodeID nat;
  ds_hist : dialHistory;
  ds_start : option Z;
  ds_bootnodes : list Node;
  ds_tasks : gmap nat dialTask;
  ds_next : nat                         (* the next pointer *)
}.

Definition with_dialing (m : gmap NodeID Z) (s : dialstate) : dialstate :=
  mk_dials (ds_cfg s) (ds_lookupRunning s) m (ds_lookupBuf s) (ds_randomNodes s) (ds_static s) (ds_storeman s)
    (ds_hist s) (ds_start s) (ds_bootnodes s) (ds_tasks s) (ds_next s).
Definition with_static (m : gmap NodeID nat) (s : dialstate) : dialstate :=
  mk_dials (ds_cfg s) (ds_lookupRunning s) (ds_dialing s) (ds_lookupBuf s) (ds_randomNodes s) m (ds_storeman s)
    (ds_hist s) (ds_start s) (ds_bootnodes s) (ds_tasks s) (ds_next s).
Definition with_storeman (m : gmap NodeID nat) (s : dialstate) : dialstate :=
  mk_dials (ds_cfg s) (ds_lookupRunning s) (ds_dialing s) (ds_lookupBuf s) (ds_randomNodes s) (ds_static s) m
    (ds_hist s) (ds_start s) (ds_bootnodes s) (ds_tasks s) (ds_next s).
Definition with_hist (h : dialHistory) (s : dialstate) : dialstate :=
  mk_dials (ds_cfg s) (ds_lookupRunning s) (ds_dialing s) (ds_lookupBuf s) (ds_randomNodes s) (ds_static s) (ds_storeman s)
    h (ds_start s) (ds_bootnodes s) (ds_tasks s) (ds_next s).
Definition with_lookup (running : bool) (buf : list Node) (s : dialstate) : dialstate :=
  mk_dials (ds_cfg s) running (ds_dialing s) buf (ds_randomNodes s) (ds_static s) (ds_storeman s)
    (ds_hist s) (ds_start s) (ds_bootnodes s) (ds_tasks s) (ds_next s).
Definition with_random (buf : list (option Node)) (s : dialstate) : dialstate :=
  mk_dials (ds_cfg s) (ds_lookupRunning s) (ds_dialing s) (ds_lookupBuf s) buf (ds_static s) (ds_storeman s)
    (ds_hist s) (ds_start s) (ds_bootnodes s) (ds_tasks s) (ds_next s).
Definition with_start (t : Z) (s : dialstate) : dialstate :=
  mk_dials (ds_cfg s) (ds_lookupRunning s) (ds_dialing s) (ds_lookupBuf s) (ds_randomNodes s) (ds_static s) (ds_storeman s)
    (ds_hist s) (Some t) (ds_bootnodes s) (ds_tasks s) (ds_next s).
Definition with_bootnodes (ns : list Node) (s : dialstate) : dialstate :=
  mk_dials (ds_cfg s) (ds_lookupRunning s) (ds_dialing s) (ds_lookupBuf s) (ds_randomNodes s) (ds_static s) (ds_storeman s)
    (ds_hist s) (ds_start s) ns (ds_tasks s) (ds_next s).
Definition with_tasks (m : gmap nat dialTask) (s : dialstate) : dialstate :=
  mk_dials (ds_cfg s) (ds_lookupRunning s) (ds_dialing s) (ds_lookupBuf s) (ds_randomNodes s) (ds_static s) (ds_storeman s)
    (ds_hist s) (ds_start s) (ds_bootnodes s) m (ds_next s).

(** [&x] for a dial task, and for a task without fields the dialer reads. *)
Definition new_dial (flags : Z) (n : Node) (s : dialstate) : nat * dialstate :=
  (ds_next s, mk_dials (ds_cfg s) (ds_lookupRunning s) (ds_dialing s) (ds_lookupBuf s) (ds_randomNodes s) (ds_static s)
     (ds_storeman s) (ds_hist s) (ds_start s) (ds_bootnodes s)
     (<[ds_next s := mk_task flags n None 0]> (ds_tasks s)) (S (ds_next s))).
Definition new_pointer (s : dialstate) : nat * dialstate :=
  (ds_next s, mk_dials (ds_cfg s) (ds_lookupRunning s) (ds_dialing s) (ds_lookupBuf s) (ds_randomNodes s) (ds_static s)
     (ds_storeman s) (ds_hist s) (ds_start s) (ds_bootnodes s) (ds_tasks s) (S (ds_next s))).

(** ** Nodes to keep connected *)

Definition addStatic (n : Node) (s : dialstate) : dialstate :=
  let '(p, s) := new_dial staticDialedConn n s in with_static (<[n_ID n := p]> (ds_static s)) s.

Definition removeStatic (n : Node) (s : dialstate) : dialstate :=
  with_hist (hist_remove (ds_hist s) (n_ID n)) (with_static (delete (n_ID n) (ds_static s)) s).

Definition addStoreman (n : Node) (s : dialstate) : dialstate :=
  let add := let '(p, s) := new_dial storemanDialedConn n s in with_storeman (<[n_ID n := p]> (ds_storeman s)) s in
  match ds_storeman s !! n_ID n ≫= (fun p => ds_tasks s !! p) with
  | Some t => if decide (Node_String (dt_dest t) = Node_String n) then add
              else with_hist (hist_remove (ds_hist s) (n_ID n)) (with_storeman (delete (n_ID n) (ds_storeman s)) s)
  | None => add
  end.

Definition removeStoreman (n : Node) (s : dialstate) : dialstate :=
  with_hist (hist_remove (ds_hist s) (n_ID n)) (with_storeman (delete (n_ID n) (ds_storeman s)) s).

(** [make] panics for a negative length. *)
Definition newDialState (static storeman bootnodes : list Node) (cfg : dial_config) : outcome dialstate :=
  if Z.quot (dc_maxDynDials cfg) 2 <? 0 then Panic else
  let s := mk_dials cfg false ∅ [] (replicate (Z.to_nat (Z.quot (dc_maxDynDials cfg) 2)) None) ∅ ∅ [] None bootnodes ∅ 0 in
  let s := foldl (fun s n => addStatic n s) s static in
  Ret (foldl (fun s m => if negb (n_TCP m =? 0) && negb (bool_decide (IP_String (n_IP m) = str "0.0.0.0"))
                         then addStoreman m s else s) s storeman).

(** ** New tasks *)

Inductive dial_error := errSelf | errAlreadyDialing | errAlreadyConnected | errRecentlyDialed | errNotWhitelisted.

(** The flags of the connections of the connected peers. *)
Abbreviation peerset := (gmap NodeID Z).

Definition checkDial (n : Node) (peers : peerset) (s : dialstate) : option dial_error :=
  if decide (is_Some (ds_dialing s !! n_ID n)) then Some errAlreadyDialing
  else if decide (is_Some (peers !! n_ID n)) then Some errAlreadyConnected
  else if decide (dc_self (ds_cfg s) = Some (n_ID n)) then Some errSelf
  else if match dc_netrestrict (ds_cfg s) with Some l => negb (Contains l (n_IP n)) | None => false end then Some errNotWhitelisted
  else if hist_contains (ds_hist s) (n_ID n) then Some errRecentlyDialed
  else None.

(** The state and the tasks made so far. *)
Abbreviation dialing := (dialstate * list task)%type.

Definition addDial (peers : peerset) (flag : Z) (n : Node) (d : dialing) : bool * dialing :=
  let '(s, ts) := d in
  match checkDial n peers s with
  | Some _ => (false, d)
  | None =>
      let '(p, s) := new_dial flag n (with_dialing (<[n_ID n := flag]> (ds_dialing s)) s) in
      (true, (s, ts ++ [TDial p]))
  end.

(** The loops over [s.static] and [s.storeman]; [get] and [set] select the map. *)
Fixpoint keep_connected (get : dialstate -> gmap NodeID nat) (set : gmap NodeID nat -> dialstate -> dialstate)
  (peers : peerset) (order : list NodeID) (d : dialing) : dialing :=
  match order with
  | [] => d
  | id :: order =>
      let '(s, ts) := d in
      keep_connected get set peers order
        match get s !! id with
        | None => (s, ts)
        | Some p =>
            match ds_tasks s !! p with
            | None => (s, ts)
            | Some t =>
                match checkDial (dt_dest t) peers s with
                | Some errNotWhitelisted | Some errSelf => (set (delete (n_ID (dt_dest t)) (get s)) s, ts)
                | None => (with_dialing (<[id := dt_flags t]> (ds_dialing s)) s, ts ++ [TDial p])
                | _ => (s, ts)
                end
            end
        end
  end.

(** Dials the nodes of a list while more are needed: the nodes left, and how many are still needed. *)
Fixpoint dial_needed (peers : peerset) (ns : list Node) (need : Z) (d : dialing) : list Node * Z * dialing :=
  match ns with
  | [] => ([], need, d)
  | n :: ns' =>
      if need <=? 0 then (ns, need, d)
      else let '(ok, d) := addDial peers dynDialedConn n d in dial_needed peers ns' (if ok then need - 1 else need) d
  end.

(** The loop over [s.randomNodes], whose bound does not change while it runs. *)
Fixpoint dial_random (peers : peerset) (idxs : list nat) (need : Z) (d : dialing) : outcome (Z * dialing) :=
  match idxs with
  | [] => Ret (need, d)
  | i :: idxs =>
      slot ← idx (ds_randomNodes (fst d)) i;
      n ← of_option slot;
      let '(ok, d) := addDial peers dynDialedConn n d in dial_random peers idxs (if ok then need - 1 else need) d
  end.

Definition count_flag (m : gmap NodeID Z) (f : Z) : Z := Z.of_nat (size (filter (fun kv => has_flag kv.2 f = true) m)).

(** [ReadRandomNodes] of the node table fills a buffer and returns a number. *)
Abbreviation reader := (list (option Node) -> list (option Node) * nat).

Definition newTasks (read : reader) (static_order storeman_order : list NodeID) (nRunning : nat) (peers : peerset) (now : Z)
  (s : dialstate) : outcome (list task * dialstate) :=
  let s := match ds_start s with None => with_start now s | Some _ => s end in
  let need := dc_maxDynDials (ds_cfg s) - count_flag peers dynDialedConn - count_flag (ds_dialing s) dynDialedConn in
  let s := with_hist (hist_expire now (ds_hist s)) s in
  let d := keep_connected ds_static with_static peers static_order (s, []) in
  let d := keep_connected ds_storeman with_storeman peers storeman_order d in
  (* a bootnode when there are no peers at all *)
  let '(need, d) :=
    match ds_bootnodes (fst d) with
    | bootnode :: rest =>
        if bool_decide (size peers = 0%nat) && (0 <? need) && (fallbackInterval <? now - default now (ds_start (fst d))) then
          let '(s, ts) := d in
          let '(ok, d) := addDial peers dynDialedConn bootnode (with_bootnodes (rest ++ [bootnode]) s, ts) in
          (if ok then need - 1 else need, d)
        else (need, d)
    | [] => (need, d)
    end in
  (* random nodes for half of the dials needed *)
  '(need, d) ←
    (let randomCandidates := Z.quot need 2 in
     if 0 <? randomCandidates then
       match dc_self (ds_cfg (fst d)) with
       | None => Panic
       | Some _ =>
           let '(s, ts) := d in
           let '(buf, n) := read (ds_randomNodes s) in
           dial_random peers (seq 0 (Nat.min (Z.to_nat randomCandidates) n)) need (with_random buf s, ts)
       end
     else Ret (need, d));
  (* the results of the last lookup *)
  let '(rest, need, d) := dial_needed peers (ds_lookupBuf (fst d)) need d in
  let '(s, ts) := d in
  let s := with_lookup (ds_lookupRunning s) rest s in
  let '(s, ts) :=
    if (Z.of_nat (length rest) <? need) && negb (ds_lookupRunning s) then
      let '(p, s) := new_pointer (with_lookup true rest s) in (s, ts ++ [TDiscover p])
    else (s, ts) in
  (* keep the loop of the server ticking *)
  match hist_min (ds_hist s) with
  | Some v =>
      if bool_decide (nRunning = 0%nat) && bool_decide (ts = []) then
        let '(p, s) := new_pointer s in Ret ([TWait p (pd_exp v - now)], s)
      else Ret (ts, s)
  | None => Ret (ts, s)
  end.

(** ** Tasks that have run *)

(** [results] is the field of a [discoverTask], written before the task is reported. *)
Definition taskDone (t : task) (results : list Node) (now : Z) (s : dialstate) : dialstate :=
  match t with
  | TDial p =>
      match ds_tasks s !! p with
      | Some t => with_dialing (delete (n_ID (dt_dest t)) (ds_dialing s))
                    (with_hist (hist_add (ds_hist s) (n_ID (dt_dest t)) (now + dialHistoryExpiration)) s)
      | None => s
      end
  | TDiscover _ => with_lookup false (ds_lookupBuf s ++ results) s
  | TWait _ _ => s
  end.

(** [resolve], at time [now]; [found] is what the node table answers, at time [later]. *)
Definition resolve (ntab : bool) (now later : Z) (found : option Node) (t : dialTask) : bool * dialTask :=
  if negb ntab then (false, t) else
  let delay := if dt_resolveDelay t =? 0 then initialResolveDelay else dt_resolveDelay t in
  if match dt_lastResolved t with Some l => now - l <? delay | None => false end
  then (false, mk_task (dt_flags t) (dt_dest t) (dt_lastResolved t) delay)
  else match found with
       | None => (false, mk_task (dt_flags t) (dt_dest t) (Some later) (Z.min (delay * 2) maxResolveDelay))
       | Some n => (true, mk_task (dt_flags t) n (Some later) initialResolveDelay)
       end.

(** ** Invariant *)

(** The node a task dials. *)
Definition dest_of (s : dialstate) (t : task) : option NodeID :=
  match t with
  | TDial p => (fun t => n_ID (dt_dest t)) <$> ds_tasks s !! p
  | _ => None
  end.

Definition dial_ids (s : dialstate) (active : list task) : list NodeID := omap (dest_of s) active.

Definition is_discover (t : task) : Prop := match t with TDiscover _ => True | _ => False end.
#[global] Instance is_discover_dec t : Decision (is_discover t).
Proof. destruct t; apply _. Defined.

Definition task_pointer (t : task) : nat := match t with TDial p | TDiscover p | TWait p _ => p end.

(** The maps of nodes to keep connected hold tasks for these nodes. *)
Definition kept (flag : Z) (m : gmap NodeID nat) (s : dialstate) : Prop :=
  forall id p, m !! id = Some p -> exists t, ds_tasks s !! p = Some t /\ n_ID (dt_dest t) = id /\ dt_flags t = flag.

(** [active] are the tasks given out and not yet reported done: each dials another node, and
    [ds_dialing] records exactly these. *)
Record dial_inv (s : dialstate) (active : list task) : Prop := {
  di_heap : heap_ok (length (ds_hist s)) (ds_hist s);
  di_fresh : forall p, is_Some (ds_tasks s !! p) -> (p < ds_next s)%nat;
  di_pointers : Forall (fun t => (task_pointer t < ds_next s)%nat) active;
  di_static : kept staticDialedConn (ds_static s) s;
  di_storeman : kept storemanDialedConn (ds_storeman s) s;
  di_active : forall p, TDial p ∈ active -> exists t, ds_tasks s !! p = Some t /\ ds_dialing s !! n_ID (dt_dest t) = Some (dt_flags t);
  di_distinct : NoDup (dial_ids s active);
  di_dialing : forall id, is_Some (ds_dialing s !! id) -> id ∈ dial_ids s active;
  di_lookup : length (filter is_discover active) = if ds_lookupRunning s then 1%nat else 0%nat;
  di_self : forall id, dc_self (ds_cfg s) = Some id -> ds_dialing s !! id = None;
  di_nodup : NoDup active;
  di_random : length (ds_randomNodes s) = Z.to_nat (Z.quot (dc_maxDynDials (ds_cfg s)) 2)
}.

Lemma elem_of_dial_ids s active id :
  id ∈ dial_ids s active <-> exists p t, TDial p ∈ active /\ ds_tasks s !! p = Some t /\ n_ID (dt_dest t) = id.
Proof.
  unfold dial_ids. rewrite list_elem_of_omap. split.
  - intros ([p|p|p d] & Hin & E); try done. cbn in E. apply fmap_Some in E as (t & Et & ->). by exists p, t.
  - intros (p & t & Hin & Et & <-). exists (TDial p). split; [done|]. cbn. by rewrite Et.
Qed.

Lemma dial_inv_perm s active active' : active ≡ₚ active' -> dial_inv s active -> dial_inv s active'.
Proof.
  intros Hp []. split; try done; try (by rewrite <- Hp); unfold dial_ids in *; try setoid_rewrite <- Hp; try done.
Qed.

(** Only these parts of the state matter. *)
Lemma dial_ids_tasks s s' active : ds_tasks s' = ds_tasks s -> dial_ids s' active = dial_ids s active.
Proof. intros E. unfold dial_ids. apply list_omap_ext, Forall_Forall2_diag, Forall_true. intros t. unfold dest_of. by rewrite E. Qed.

Lemma kept_tasks flag m s s' : ds_tasks s' = ds_tasks s -> kept flag m s -> kept flag m s'.
Proof. unfold kept. by intros ->. Qed.

Lemma checkDial_None n peers s :
  checkDial n peers s = None ->
  ds_dialing s !! n_ID n = None /\ peers !! n_ID n = None /\ dc_self (ds_cfg s) <> Some (n_ID n) /\
  (forall l, dc_netrestrict (ds_cfg s) = Some l -> Contains l (n_IP n) = true) /\
  ~ n_ID n ∈ (pd_id <$> ds_hist s).
Proof.
  unfold checkDial. intros E. repeat (case_decide; [done|]).
  destruct (match dc_netrestrict (ds_cfg s) with Some l => _ | None => _ end) eqn:En; [done|].
  destruct (hist_contains _ _) eqn:Eh; [done|]. split_and!; [by apply eq_None_not_Some..|done| |].
  - intros l El. rewrite El in En. by apply negb_false_iff.
  - rewrite <- hist_contains_spec, Eh. done.
Qed.

(** Giving out the task with pointer [p]. *)
Lemma start_dial_inv s active p t peers :
  dial_inv s active -> ds_tasks s !! p = Some t -> checkDial (dt_dest t) peers s = None ->
  dial_inv (with_dialing (<[n_ID (dt_dest t) := dt_flags t]> (ds_dialing s)) s) (active ++ [TDial p]).
Proof.
  intros Hi Ht Hc. apply checkDial_None in Hc as (Hd & _ & Hs & _).
  assert (TDial p ∉ active) as Hp.
  { intros Hin. destruct (di_active _ _ Hi p Hin) as (t' & Ht' & Hd'). rewrite Ht in Ht'. injection Ht' as <-. congruence. }
  assert (n_ID (dt_dest t) ∉ dial_ids s active) as Hid.
  { rewrite elem_of_dial_ids. intros (q & t' & Hin & Ht' & E).
    destruct (di_active _ _ Hi q Hin) as (t2 & Ht2 & Hd'). rewrite Ht' in Ht2. injection Ht2 as <-. rewrite E in Hd'. congruence. }
  set (s' := with_dialing _ s). destruct Hi.
  assert (dial_ids s' (active ++ [TDial p]) = dial_ids s active ++ [n_ID (dt_dest t)]) as E.
  { rewrite (dial_ids_tasks s) by done. unfold dial_ids. rewrite omap_app. cbn. by rewrite Ht. }
  split; try done.
  - apply Forall_app. split; [done|]. apply Forall_singleton. by apply di_fresh0; exists t.
  - intros q [Hq|Hq]%elem_of_app.
    + destruct (di_active0 q Hq) as (t' & Ht' & Hd'). exists t'. split; [done|]. cbn.
      rewrite lookup_insert_ne; [done|]. congruence.
    + apply list_elem_of_singleton in Hq. injection Hq as ->. exists t. split; [done|]. cbn. apply lookup_insert_eq.
  - rewrite E. apply NoDup_app. split_and!; [done| |apply NoDup_singleton]. intros x Hx ->%list_elem_of_singleton. done.
  - intros id. rewrite E. cbn. rewrite lookup_insert_is_Some. rewrite elem_of_app, list_elem_of_singleton. naive_solver.
  - rewrite filter_app, length_app, di_lookup0. cbn. by case_match.
  - intros id Hself. cbn in *. rewrite lookup_insert_ne; [by apply di_self0|]. congruence.
  - apply NoDup_app. split_and!; [done| |apply NoDup_singleton]. intros x Hx ->%list_elem_of_singleton. done.
Qed.

Lemma kept_insert flag m s s' p t :
  ds_tasks s' = <[p := t]> (ds_tasks s) -> ds_tasks s !! p = None -> kept flag m s -> kept flag m s'.
Proof.
  intros E Hp Hk id q Hq. destruct (Hk id q Hq) as (t' & Ht' & H). exists t'. split; [|done].
  rewrite E, lookup_insert_ne; [done|]. congruence.
Qed.

Lemma new_dial_inv flag n s active :
  dial_inv s active ->
  dial_inv (new_dial flag n s).2 active /\
  ds_tasks (new_dial flag n s).2 !! (new_dial flag n s).1 = Some (mk_task flag n None 0).
Proof.
  intros Hi. split; [|apply lookup_insert_eq]. set (s' := (new_dial flag n s).2).
  assert (ds_tasks s !! ds_next s = None) as Hf.
  { apply eq_None_not_Some. intros H%(di_fresh _ _ Hi). lia. }
  assert (ds_tasks s' = <[ds_next s := mk_task flag n None 0]> (ds_tasks s)) as Et by done.
  assert (forall q t, ds_tasks s !! q = Some t -> ds_tasks s' !! q = Some t) as Hmono.
  { intros q t Hq. rewrite Et, lookup_insert_ne; [done|]. congruence. }
  assert (dial_ids s' active = dial_ids s active) as E.
  { apply list_omap_ext, Forall_Forall2_diag. eapply Forall_impl; [apply (di_pointers _ _ Hi)|].
    intros [q|q|q d] Hq; try done. cbn [dest_of task_pointer] in *. rewrite Et, lookup_insert_ne by lia. done. }
  destruct Hi. split; try done; try (by rewrite E).
  - intros q. rewrite Et, lookup_insert_is_Some. intros [<-|[_ Hq]]; [cbn; lia|]. apply di_fresh0 in Hq. cbn. lia.
  - eapply Forall_impl; [done|]. cbn. intros t Ht. lia.
  - by eapply kept_insert.
  - by eapply kept_insert.
  - intros q Hq. destruct (di_active0 q Hq) as (t & Ht & Hd). exists t. split; [by apply Hmono|done].
Qed.

Lemma new_pointer_inv s active : dial_inv s active -> dial_inv (new_pointer s).2 active.
Proof.
  intros []. split; try done; cbn [new_pointer snd ds_next ds_tasks].
  - intros q Hq%di_fresh0. cbn. lia.
  - eapply Forall_impl; [done|]. cbn. intros t Ht. lia.
Qed.

Lemma addDial_spec peers flag n s ts active ok s' ts' :
  dial_inv s (active ++ ts) -> addDial peers flag n (s, ts) = (ok, (s', ts')) ->
  dial_inv s' (active ++ ts') /\
  (if ok then checkDial n peers s = None /\ ds_dialing s' = <[n_ID n := flag]> (ds_dialing s) /\
              exists p, ts' = ts ++ [TDial p] /\ ds_tasks s' !! p = Some (mk_task flag n None 0)
   else s' = s /\ ts' = ts) /\
  ds_cfg s' = ds_cfg s /\ ds_hist s' = ds_hist s /\ ds_lookupBuf s' = ds_lookupBuf s /\
  ds_lookupRunning s' = ds_lookupRunning s /\ ds_randomNodes s' = ds_randomNodes s.
Proof.
  intros Hi. unfold addDial. destruct (checkDial n peers s) eqn:Hc; [by intros [= <- <- <-]|].
  intros [= <- <- <-]. split; [|split_and!; try done; eexists; split; [done|]; apply lookup_insert_eq].
  destruct (new_dial_inv flag n s _ Hi) as [Hi1 Ht].
  rewrite app_assoc. exact (start_dial_inv _ _ _ _ peers Hi1 Ht Hc).
Qed.

(** ** Stages of [newTasks] *)

(** What a new dial task is allowed to dial. *)
Record dialable (peers : peerset) (s : dialstate) (n : Node) : Prop := {
  da_peer : peers !! n_ID n = None;
  da_self : dc_self (ds_cfg s) <> Some (n_ID n);
  da_net : forall l, dc_netrestrict (ds_cfg s) = Some l -> Contains l (n_IP n) = true;
  da_hist : ~ n_ID n ∈ (pd_id <$> ds_hist s)
}.

(** [s0] is the state at the beginning, [need] the number of dynamic dials still needed. *)
Record stage (active : list task) (peers : peerset) (s0 : dialstate) (need0 : Z) (need : Z) (d : dialing) : Prop := {
  st_inv : dial_inv d.1 (active ++ d.2);
  st_cfg : ds_cfg d.1 = ds_cfg s0;
  st_hist : ds_hist d.1 = ds_hist s0;
  st_new : forall p, TDial p ∈ d.2 -> exists t, ds_tasks d.1 !! p = Some t /\ dialable peers s0 (dt_dest t) /\
             ds_dialing s0 !! n_ID (dt_dest t) = None;
  st_grow : forall id f, ds_dialing s0 !! id = Some f -> ds_dialing d.1 !! id = Some f;
  st_only : Forall (fun t => exists p, t = TDial p) d.2;
  st_count : count_flag (ds_dialing d.1) dynDialedConn + need = count_flag (ds_dialing s0) dynDialedConn + need0;
  st_running : ds_lookupRunning d.1 = ds_lookupRunning s0;
  st_tasks : forall p t, ds_tasks s0 !! p = Some t -> ds_tasks d.1 !! p = Some t
}.

Lemma count_flag_insert m f id flag :
  m !! id = None -> count_flag (<[id := flag]> m) f = count_flag m f + (if has_flag flag f then 1 else 0).
Proof.
  intros Hm. unfold count_flag. destruct (has_flag flag f) eqn:E.
  - rewrite map_filter_insert_True by done. rewrite map_size_insert_None; [lia|].
    apply map_lookup_filter_None. by left.
  - rewrite map_filter_insert_False by (cbn; congruence). rewrite delete_id by done. lia.
Qed.

Lemma count_flag_nonneg m f : 0 <= count_flag m f.
Proof. unfold count_flag. lia. Qed.

Lemma checkDial_dialable n peers s s0 :
  checkDial n peers s = None -> ds_cfg s = ds_cfg s0 -> ds_hist s = ds_hist s0 -> dialable peers s0 n.
Proof. intros (_ & H2 & H3 & H4 & H5)%checkDial_None Ec Eh. rewrite Ec in *. rewrite Eh in *. done. Qed.

Lemma addDial_stage active peers s0 need0 need n d ok d' :
  stage active peers s0 need0 need d -> addDial peers dynDialedConn n d = (ok, d') ->
  stage active peers s0 need0 (if ok then need - 1 else need) d' /\
  ds_lookupBuf d'.1 = ds_lookupBuf d.1 /\ ds_randomNodes d'.1 = ds_randomNodes d.1.
Proof.
  destruct d as [s ts], d' as [s' ts']. intros [H1 H2 H3 H4 H5 H6 H7 H8 H9] E. cbn [fst snd] in *.
  destruct (addDial_spec _ _ _ _ _ _ _ _ _ H1 E) as (Hi & Hok & Ec & Eh & Eb & El & Er).
  destruct ok; [|by destruct Hok as [-> ->]]. destruct Hok as (Hc & Ed & p & -> & Hp).
  pose proof (checkDial_None _ _ _ Hc) as (Hn & _).
  assert (forall q t, ds_tasks s !! q = Some t -> ds_tasks s' !! q = Some t) as Hmono.
  { intros q t Ht. unfold addDial in E. rewrite Hc in E. injection E as <- _. cbn. rewrite lookup_insert_ne; [done|].
    intros <-. pose proof (di_fresh _ _ H1 (ds_next s) ltac:(by exists t)). lia. } split; [|done]. split; cbn [fst snd]; try congruence; try done.
  - intros q [Hq|Hq]%elem_of_app.
    + destruct (H4 q Hq) as (t & Ht & Hd). exists t. split; [by apply Hmono|done].
    + apply list_elem_of_singleton in Hq. injection Hq as ->. exists (mk_task dynDialedConn n None 0).
      split_and!; [done|by eapply checkDial_dialable|]. cbn.
      destruct (ds_dialing s0 !! n_ID n) eqn:E0; [|done]. apply H5 in E0. congruence.
  - intros id f Hf. rewrite Ed, lookup_insert_ne; [by apply H5|]. intros <-. apply H5 in Hf. congruence.
  - apply Forall_app. split; [done|]. apply Forall_singleton. by exists p.
  - rewrite Ed, count_flag_insert by done. change (if has_flag dynDialedConn dynDialedConn then 1 else 0) with 1. lia.
  - intros q t Ht. by apply Hmono, H9.
Qed.

(** The two maps of nodes to keep connected. *)
Record keeper (get : dialstate -> gmap NodeID nat) (set : gmap NodeID nat -> dialstate -> dialstate) (flag : Z) : Prop := {
  kp_kept : forall s active, dial_inv s active -> kept flag (get s) s;
  kp_delete : forall s active id, dial_inv s active -> dial_inv (set (delete id (get s)) s) active;
  kp_frame : forall m s, ds_cfg (set m s) = ds_cfg s /\ ds_hist (set m s) = ds_hist s /\ ds_tasks (set m s) = ds_tasks s /\
    ds_dialing (set m s) = ds_dialing s /\ ds_lookupRunning (set m s) = ds_lookupRunning s;
  kp_flag : has_flag flag dynDialedConn = false
}.

Lemma kept_delete flag m s s' id : ds_tasks s' = ds_tasks s -> kept flag m s -> kept flag (delete id m) s'.
Proof. intros E Hk id' p [_ Hp]%lookup_delete_Some. rewrite E. by apply Hk. Qed.

Lemma static_keeper : keeper ds_static with_static staticDialedConn.
Proof.
  split; [by intros s a []| |by intros|done].
  intros s a id []. split; try done. by eapply kept_delete.
Qed.

Lemma storeman_keeper : keeper ds_storeman with_storeman storemanDialedConn.
Proof.
  split; [by intros s a []| |by intros|done].
  intros s a id []. split; try done. by eapply kept_delete.
Qed.

Lemma keep_connected_stage get set flag active peers s0 need0 need order d :
  keeper get set flag -> stage active peers s0 need0 need d ->
  stage active peers s0 need0 need (keep_connected get set peers order d).
Proof.
  intros Hk. revert d. induction order as [|id order IH]; intros [s ts] Hs; [done|]. cbn [keep_connected].
  apply IH. destruct (get s !! id) as [p|] eqn:Ep; [|done].
  pose proof Hs as [H1 H2 H3 H4 H5 H6 H7 H8 H9]. cbn [fst snd] in *.
  destruct (kp_kept _ _ _ Hk s _ H1 id p Ep) as (t & Et & Eid & Ef). rewrite Et.
  assert (stage active peers s0 need0 need (set (delete (n_ID (dt_dest t)) (get s)) s, ts)) as Hdel.
  { destruct (kp_frame _ _ _ Hk (delete (n_ID (dt_dest t)) (get s)) s) as (E1 & E2 & E3 & E4 & E5).
    split; cbn [fst snd]; rewrite ?E1, ?E2, ?E3, ?E4, ?E5; try done. by apply (kp_delete _ _ _ Hk). }
  destruct (checkDial (dt_dest t) peers s) as [[| | | |]|] eqn:Hc; try done.
  pose proof (checkDial_None _ _ _ Hc) as (Hn & _). rewrite <- Eid.
  split; cbn [fst snd with_dialing ds_cfg ds_hist ds_tasks ds_dialing ds_lookupRunning]; try done.
  - rewrite app_assoc. by apply start_dial_inv with peers.
  - intros q [Hq|Hq]%elem_of_app; [by apply H4|]. apply list_elem_of_singleton in Hq. injection Hq as ->.
    exists t. split_and!; [done|by eapply checkDial_dialable|].
    destruct (ds_dialing s0 !! n_ID (dt_dest t)) eqn:E0; [|done]. apply H5 in E0. congruence.
  - intros i f Hf. rewrite lookup_insert_ne; [by apply H5|]. intros <-. apply H5 in Hf. congruence.
  - apply Forall_app. split; [done|]. apply Forall_singleton. by exists p.
  - rewrite count_flag_insert, Ef, (kp_flag _ _ _ Hk) by done. lia.
Qed.

Lemma dial_needed_stage active peers s0 need0 need ns d rest need' d' :
  stage active peers s0 need0 need d -> dial_needed peers ns need d = (rest, need', d') ->
  stage active peers s0 need0 need' d' /\ Z.min 0 need <= need' <= need.
Proof.
  revert need d. induction ns as [|n ns IH]; intros need d Hs; cbn [dial_needed].
  { intros [= <- <- <-]. split_and!; try done; lia. }
  destruct (Z.leb_spec need 0); [intros [= <- <- <-]; split_and!; try done; lia|].
  destruct (addDial peers dynDialedConn n d) as [ok d1] eqn:E. intros Ed.
  destruct (addDial_stage _ _ _ _ _ _ _ _ _ Hs E) as (Hs1 & _ & Er).
  apply IH in Ed as (H1 & H2); [|done]. split_and!; try done; destruct ok; lia.
Qed.

Lemma dial_random_stage active peers s0 need0 need idxs d :
  stage active peers s0 need0 need d ->
  (forall i, i ∈ idxs -> exists n, ds_randomNodes d.1 !! i = Some (Some n)) ->
  exists need' d', dial_random peers idxs need d = Ret (need', d') /\ stage active peers s0 need0 need' d' /\
    need - Z.of_nat (length idxs) <= need' <= need.
Proof.
  revert need d. induction idxs as [|i idxs IH]; intros need d Hs Hr; cbn [dial_random].
  { exists need, d. split_and!; try done; cbn; lia. }
  destruct (Hr i ltac:(set_solver)) as [n En]. rewrite (idx_Some _ _ _ En), Ret_bind. cbn [of_option]. rewrite Ret_bind.
  destruct (addDial peers dynDialedConn n d) as [ok d1] eqn:E.
  destruct (addDial_stage _ _ _ _ _ _ _ _ _ Hs E) as (Hs1 & _ & Er).
  destruct (IH _ _ Hs1) as (need' & d' & -> & H1 & H2); [intros j Hj; rewrite Er; set_solver|].
  exists need', d'. split_and!; try done; cbn [length]; destruct ok; lia.
Qed.

Lemma add_discover_inv s active :
  dial_inv s active -> ds_lookupRunning s = false ->
  dial_inv (new_pointer (with_lookup true (ds_lookupBuf s) s)).2 (active ++ [TDiscover (ds_next s)]).
Proof.
  intros Hi Hr. pose proof (new_pointer_inv _ _ Hi) as Hi'. destruct Hi' as [? ? Hp ? ? ? ? ? Hl ? Hnd ?].
  assert (dial_ids s (active ++ [TDiscover (ds_next s)]) = dial_ids s active) as E.
  { unfold dial_ids. rewrite omap_app. cbn. by rewrite app_nil_r. }
  split; try done.
  - apply Forall_app. split; [done|]. apply Forall_singleton. cbn. lia.
  - intros p [Hq|Hq]%elem_of_app; [auto|]. by apply list_elem_of_singleton in Hq.
  - rewrite (dial_ids_tasks s) by done. by rewrite E.
  - intros id. rewrite (dial_ids_tasks s) by done. rewrite E. auto.
  - cbn in Hl |- *. rewrite filter_app, length_app. rewrite Hr in Hl. by rewrite Hl.
  - apply NoDup_app. split_and!; [done| |apply NoDup_singleton]. intros t Ht ->%list_elem_of_singleton.
    pose proof (di_pointers _ _ Hi) as Hlt. rewrite Forall_forall in Hlt. apply Hlt in Ht. cbn in Ht. lia.
Qed.

Lemma add_wait_inv s active d :
  dial_inv s active -> dial_inv (new_pointer s).2 (active ++ [TWait (ds_next s) d]).
Proof.
  intros Hi. pose proof (new_pointer_inv _ _ Hi) as Hi'. destruct Hi' as [? ? Hp ? ? ? ? ? Hl ? Hnd ?].
  assert (dial_ids s (active ++ [TWait (ds_next s) d]) = dial_ids s active) as E.
  { unfold dial_ids. rewrite omap_app. cbn. by rewrite app_nil_r. }
  split; try done.
  - apply Forall_app. split; [done|]. apply Forall_singleton. cbn. lia.
  - intros p [Hq|Hq]%elem_of_app; [auto|]. by apply list_elem_of_singleton in Hq.
  - rewrite (dial_ids_tasks s) by done. by rewrite E.
  - intros id. rewrite (dial_ids_tasks s) by done. rewrite E. auto.
  - rewrite filter_app, length_app, Hl. cbn. by case_match.
  - apply NoDup_app. split_and!; [done| |apply NoDup_singleton]. intros t Ht ->%list_elem_of_singleton.
    pose proof (di_pointers _ _ Hi) as Hlt. rewrite Forall_forall in Hlt. apply Hlt in Ht. cbn in Ht. lia.
Qed.

(** [ReadRandomNodes] may report more nodes than fit, but what fits is written. *)
Definition reader_ok (read : reader) : Prop :=
  forall buf, length (read buf).1 = length buf /\
    forall i, (i < (read buf).2)%nat -> (i < length buf)%nat -> exists n, (read buf).1 !! i = Some (Some n).

Lemma stage_start s active peers now :
  dial_inv s active ->
  let s0 := with_hist (hist_expire now (ds_hist s)) (match ds_start s with None => with_start now s | Some _ => s end) in
  let need := dc_maxDynDials (ds_cfg s) - count_flag peers dynDialedConn - count_flag (ds_dialing s) dynDialedConn in
  stage active peers s0 need need (s0, []).
Proof.
  intros Hi. cbn zeta. destruct (hist_expire_spec now (ds_hist s) (di_heap _ _ Hi)) as [Hh _].
  split; cbn [fst snd]; try done; [|set_solver]. rewrite app_nil_r. destruct Hi.
  destruct (ds_start s); split; done.
Qed.

Lemma stage_update active peers s0 need0 need s s' ts :
  stage active peers s0 need0 need (s, ts) -> dial_inv s' (active ++ ts) -> ds_cfg s' = ds_cfg s -> ds_hist s' = ds_hist s ->
  ds_tasks s' = ds_tasks s -> ds_dialing s' = ds_dialing s -> ds_lookupRunning s' = ds_lookupRunning s ->
  stage active peers s0 need0 need (s', ts).
Proof.
  intros [] Hi E1 E2 E3 E4 E5. cbn [fst snd] in *. by split; cbn [fst snd]; rewrite ?E1, ?E2, ?E3, ?E4, ?E5.
Qed.

(** What a call of [newTasks] guarantees: it does not panic, the tasks it gives out dial different nodes that
    are not being dialled, not connected, not this node, allowed, and not dialled recently, and no more
    dynamic dials than configured are started. *)
Record new_tasks_ok (active : list task) (peers : peerset) (now : Z) (s : dialstate) (ts : list task) (s' : dialstate) : Prop := {
  nt_inv : dial_inv s' (active ++ ts);
  nt_cfg : ds_cfg s' = ds_cfg s;
  nt_hist : ds_hist s' = hist_expire now (ds_hist s);
  nt_new : forall p, TDial p ∈ ts -> exists t, ds_tasks s' !! p = Some t /\
    dialable peers (with_hist (hist_expire now (ds_hist s)) s) (dt_dest t) /\ ds_dialing s !! n_ID (dt_dest t) = None;
  nt_grow : forall id f, ds_dialing s !! id = Some f -> ds_dialing s' !! id = Some f;
  nt_tasks : forall p t, ds_tasks s !! p = Some t -> ds_tasks s' !! p = Some t;
  nt_count : count_flag (ds_dialing s') dynDialedConn
    <= Z.max (count_flag (ds_dialing s) dynDialedConn) (dc_maxDynDials (ds_cfg s) - count_flag peers dynDialedConn)
}.

Lemma stage_new_tasks active peers now s need0 need s0 sf ts :
  need0 = dc_maxDynDials (ds_cfg s) - count_flag peers dynDialedConn - count_flag (ds_dialing s) dynDialedConn ->
  ds_cfg s0 = ds_cfg s -> ds_hist s0 = hist_expire now (ds_hist s) -> ds_dialing s0 = ds_dialing s ->
  ds_tasks s0 = ds_tasks s -> Z.min 0 need0 <= need -> stage active peers s0 need0 need (sf, ts) ->
  new_tasks_ok active peers now s ts sf.
Proof.
  intros Hn Ec Eh Ed Etk Hneed [H1 H2 H3 H4 H5 H6 H7 H8 H9]. cbn [fst snd] in *. split; try congruence.
  - intros p Hp. destruct (H4 p Hp) as (t & Ht & [D1 D2 D3 D4] & Hd). exists t. split_and!; [done| |congruence].
    rewrite Ec in *. rewrite Eh in *. by split.
  - rewrite <- Ed. done.
  - rewrite <- Etk. done.
  - rewrite Ed in H7. lia.
Qed.

Lemma new_tasks_ok_snoc active peers now s ts s' t s2 :
  new_tasks_ok active peers now s ts s' -> dial_inv s2 (active ++ ts ++ [t]) -> (forall p, t <> TDial p) ->
  ds_cfg s2 = ds_cfg s' -> ds_hist s2 = ds_hist s' -> ds_tasks s2 = ds_tasks s' -> ds_dialing s2 = ds_dialing s' ->
  new_tasks_ok active peers now s (ts ++ [t]) s2.
Proof.
  intros [H1 H2 H3 H4 H5 H6 H7] Hi Ht E1 E2 E3 E4. split; try congruence; try done.
  - intros p [Hp|Hp]%elem_of_app; [rewrite E3; by apply H4|]. apply list_elem_of_singleton in Hp. by destruct (Ht p).
  - intros id f Hf. rewrite E4. by apply H5.
  - intros p u Hu. rewrite E3. by apply H6.
Qed.

Lemma newTasks_spec read static_order storeman_order nRunning peers now s active :
  dial_inv s active -> reader_ok read -> (dc_self (ds_cfg s) = None -> dc_maxDynDials (ds_cfg s) < 2) ->
  exists ts s', newTasks read static_order storeman_order nRunning peers now s = Ret (ts, s') /\
    new_tasks_ok active peers now s ts s' /\
    (nRunning = 0%nat -> hist_expire now (ds_hist s) <> [] -> ts <> []).
Proof.
  intros Hi Hr Hself. unfold newTasks. pose proof (stage_start s active peers now Hi) as H0. cbn zeta in H0 |- *.
  set (sa := match ds_start s with None => with_start now s | Some _ => s end) in *.
  assert (ds_cfg sa = ds_cfg s /\ ds_dialing sa = ds_dialing s /\ ds_hist sa = ds_hist s /\ ds_tasks sa = ds_tasks s)
    as (Ea1 & Ea2 & Ea3 & Ea4)
    by (unfold sa; by destruct (ds_start s)).
  rewrite Ea1, Ea2, Ea3.
  set (need0 := dc_maxDynDials (ds_cfg s) - _ - _) in *. set (s0 := with_hist _ sa) in *.
  apply (keep_connected_stage _ _ _ _ _ _ _ _ static_order _ static_keeper) in H0.
  apply (keep_connected_stage _ _ _ _ _ _ _ _ storeman_order _ storeman_keeper) in H0.
  set (d1 := keep_connected ds_storeman _ _ _ _) in *. clearbody d1.
  (* the bootnode *)
  match goal with |- context [let '(need, d) := ?e in _] => destruct e as [need2 d2] eqn:E2 end.
  assert (stage active peers s0 need0 need2 d2 /\ Z.min 0 need0 <= need2 <= need0) as [H2 Hn2].
  { destruct (ds_bootnodes d1.1) as [|b rest]; [injection E2 as <- <-; split; [done|lia]|].
    destruct (_ && _ && _) eqn:Eb; [|injection E2 as <- <-; split; [done|lia]].
    apply andb_true_iff in Eb as [[_ Hpos%Z.ltb_lt]%andb_true_iff _]. destruct d1 as [sd td].
    destruct (addDial _ _ _ _) as [ok d'] eqn:E. injection E2 as <- <-.
    eapply addDial_stage in E as (Hs & _); [split; [done|destruct ok; lia]|].
    eapply stage_update; [exact H0|..]; try done. destruct (st_inv _ _ _ _ _ _ H0). by split. }
  (* random nodes *)
  match goal with |- context [mbind _ ?e] => assert (exists need3 d3, e = Ret (need3, d3) /\
    stage active peers s0 need0 need3 d3 /\ Z.min 0 need0 <= need3 <= need0) as (need3 & d3 & -> & H3 & Hn3) end.
  { pose proof (st_inv _ _ _ _ _ _ H2) as Hi2. pose proof (st_cfg _ _ _ _ _ _ H2) as Ec.
    assert (ds_cfg s0 = ds_cfg s) as Ec0 by (unfold s0; done). rewrite Ec0 in Ec.
    destruct (Z.ltb_spec 0 (Z.quot need2 2)) as [Hq|Hq]; [|by exists need2, d2].
    assert (2 <= need2) as H22.
    { destruct (Z.le_gt_cases 2 need2); [done|]. pose proof (Z.quot_le_mono need2 1 2 ltac:(lia) ltac:(lia)) as Hm.
      change (Z.quot 1 2) with 0 in Hm. lia. }
    rewrite Z.quot_div_nonneg in * by lia.
    assert (need2 <= dc_maxDynDials (ds_cfg s)) as Hmax.
    { pose proof (count_flag_nonneg peers dynDialedConn). pose proof (count_flag_nonneg (ds_dialing s) dynDialedConn). lia. }
    destruct d2 as [sd td]. cbn [fst snd] in *. rewrite Ec.
    destruct (dc_self (ds_cfg s)) as [self|] eqn:Es; [|specialize (Hself eq_refl); lia].
    pose proof (di_random _ _ Hi2) as Hlen. rewrite Ec in Hlen.
    destruct (read (ds_randomNodes sd)) as [buf n] eqn:Er. pose proof (Hr (ds_randomNodes sd)) as [Hl Hw].
    rewrite Er in Hl, Hw. cbn [fst snd] in Hl, Hw.
    assert (Z.to_nat (need2 / 2) <= length (ds_randomNodes sd))%nat as Hle.
    { rewrite Hlen, Z.quot_div_nonneg by lia. apply Z2Nat.inj_le; [lia|apply Z.div_pos; lia|]. apply Z.div_le_mono; lia. }
    destruct (dial_random_stage active peers s0 need0 need2 (seq 0 (Nat.min (Z.to_nat (need2 / 2)) n)) (with_random buf sd, td))
      as (need3 & d3 & E3 & H3 & Hb3).
    - eapply stage_update; [exact H2|..]; try done. destruct Hi2. split; try done. cbn. by rewrite Hl.
    - cbn. intros i [_ Hlt]%elem_of_seq. apply Hw; lia.
    - assert (need2 / 2 <= need2) by (apply Z.div_le_upper_bound; lia).
      exists need3, d3. split_and!; [done|done|..]; rewrite length_seq in Hb3; lia. }
  rewrite Ret_bind. destruct (dial_needed _ _ _ _) as [[rest need4] [s4 ts4]] eqn:E4.
  eapply dial_needed_stage in E4 as [H4 Hn4]; [|done].
  (* the last lookup *)
  set (s5 := with_lookup _ rest s4).
  assert (new_tasks_ok active peers now s ts4 s5) as H5.
  { eapply (stage_new_tasks _ _ _ _ need0 need4 s0); try done; [lia|].
    eapply stage_update; [exact H4|..]; try done. destruct (st_inv _ _ _ _ _ _ H4). by split. }
  match goal with |- context [let '(s, ts) := ?e in _] => destruct e as [s6 ts6] eqn:E6 end.
  assert (new_tasks_ok active peers now s ts6 s6 /\ ds_hist s6 = ds_hist s5) as [H6 Eh6].
  { destruct (_ <? need4) eqn:El; [|by injection E6 as <- <-].
    destruct (ds_lookupRunning s5) eqn:Erun; [by injection E6 as <- <-|]. injection E6 as <- <-. split; [|done].
    eapply new_tasks_ok_snoc; [done|..]; try done. rewrite app_assoc.
    apply (add_discover_inv s5); [apply H5|done]. }
  rewrite <- (nt_hist _ _ _ _ _ _ H5), <- Eh6.
  unfold hist_min. destruct (ds_hist s6) as [|v h] eqn:Eh; cbn [head]; [by exists ts6, s6|].
  destruct (bool_decide _ && bool_decide _) eqn:Ew.
  - apply andb_true_iff in Ew as [_ ->%bool_decide_eq_true].
    eexists _, _. split; [done|]. split; [|done].
    eapply (new_tasks_ok_snoc _ _ _ _ []); [done|..]; try done.
    apply (add_wait_inv s6 active). pose proof (nt_inv _ _ _ _ _ _ H6) as Hi6. by rewrite app_nil_r in Hi6.
  - exists ts6, s6. split_and!; [done|done|]. intros -> _ ->. done.
Qed.

(** ** The other operations *)

Lemma addStatic_inv n s active : dial_inv s active -> dial_inv (addStatic n s) active.
Proof.
  intros Hi. destruct (new_dial_inv staticDialedConn n s _ Hi) as [[] Ht]. unfold addStatic.
  destruct (new_dial staticDialedConn n s) as [p s1]. cbn [fst snd] in *. split; try done.
  intros id q. cbn. rewrite lookup_insert_Some. intros [[<- <-]|[_ Hq]]; [by eexists|by apply di_static0].
Qed.

Lemma with_hist_inv h s active :
  dial_inv s active -> heap_ok (length h) h -> dial_inv (with_hist h s) active.
Proof. intros [] Hh. by split. Qed.

Lemma hist_remove_heap h id : heap_ok (length h) h -> heap_ok (length (hist_remove h id)) (hist_remove h id).
Proof. intros Hh. by apply hist_remove_spec. Qed.

Lemma removeStatic_inv n s active : dial_inv s active -> dial_inv (removeStatic n s) active.
Proof.
  intros Hi. apply with_hist_inv; [by apply (kp_delete _ _ _ static_keeper)|]. apply hist_remove_heap, Hi.
Qed.

Lemma removeStoreman_inv n s active : dial_inv s active -> dial_inv (removeStoreman n s) active.
Proof.
  intros Hi. apply with_hist_inv; [by apply (kp_delete _ _ _ storeman_keeper)|]. apply hist_remove_heap, Hi.
Qed.

Lemma addStoreman_inv n s active : dial_inv s active -> dial_inv (addStoreman n s) active.
Proof.
  intros Hi. unfold addStoreman.
  assert (dial_inv (let '(p, s) := new_dial storemanDialedConn n s in with_storeman (<[n_ID n := p]> (ds_storeman s)) s) active) as Ha.
  { destruct (new_dial_inv storemanDialedConn n s _ Hi) as [[] Ht].
    destruct (new_dial storemanDialedConn n s) as [p s1]. cbn [fst snd] in *. split; try done.
    intros id q. cbn. rewrite lookup_insert_Some. intros [[<- <-]|[_ Hq]]; [by eexists|by apply di_storeman0]. }
  destruct (_ ≫= _) as [t|]; [|done]. case_decide; [done|]. by apply removeStoreman_inv.
Qed.

Lemma dial_inv_frame_cfg n s : ds_cfg (addStatic n s) = ds_cfg s /\ ds_cfg (addStoreman n s) = ds_cfg s /\
  ds_cfg (removeStatic n s) = ds_cfg s /\ ds_cfg (removeStoreman n s) = ds_cfg s.
Proof. split_and!; try done. unfold addStoreman. destruct (_ ≫= _); [case_decide|]; done. Qed.

Lemma newDialState_inv static storeman bootnodes cfg s : newDialState static storeman bootnodes cfg = Ret s ->
  dial_inv s [] /\ ds_cfg s = cfg.
Proof.
  unfold newDialState. case_match; [done|]. intros [= <-]. set (s0 := mk_dials _ _ _ _ _ _ _ _ _ _ _ _).
  assert (dial_inv s0 [] /\ ds_cfg s0 = cfg) as H0.
  { split; [|done]. split; cbn; try done; try (by intros ? []); try apply NoDup_nil_2; try (intros; set_solver); try (by apply Forall_nil).
    - by rewrite length_replicate. }
  clearbody s0. revert s0 H0. induction static as [|n static IH]; intros s [Hi Hc]; cbn [foldl].
  - revert s Hi Hc. induction storeman as [|m storeman IH]; intros s Hi Hc; cbn [foldl]; [done|].
    destruct (dial_inv_frame_cfg m s) as (_ & E & _). apply IH; destruct (_ && _); try done; [by apply addStoreman_inv|].
    by rewrite E.
  - apply IH. split; [by apply addStatic_inv|done].
Qed.

(** A dial task may change its destination to another address of the same node. *)
Lemma retarget_inv s active p t t' :
  dial_inv s active -> ds_tasks s !! p = Some t -> n_ID (dt_dest t') = n_ID (dt_dest t) -> dt_flags t' = dt_flags t ->
  dial_inv (with_tasks (<[p := t']> (ds_tasks s)) s) active.
Proof.
  intros Hi Ht Hid Hf. set (s' := with_tasks _ s).
  assert (forall q u, ds_tasks s !! q = Some u -> exists u', ds_tasks s' !! q = Some u' /\
    n_ID (dt_dest u') = n_ID (dt_dest u) /\ dt_flags u' = dt_flags u) as Hsame.
  { intros q u Hq. cbn. destruct (decide (p = q)) as [<-|Hne].
    - exists t'. rewrite lookup_insert_eq. rewrite Ht in Hq. by injection Hq as <-.
    - exists u. by rewrite lookup_insert_ne. }
  assert (forall m flag, kept flag m s -> kept flag m s') as Hk.
  { intros m flag Hk id q Hq. destruct (Hk id q Hq) as (u & Hu & <- & <-).
    destruct (Hsame q u Hu) as (u' & ? & ? & ?). by exists u'. }
  assert (dial_ids s' active = dial_ids s active) as E.
  { apply list_omap_ext, Forall_Forall2_diag, Forall_true. intros [q|q|q d]; try done. cbn [dest_of].
    cbn. destruct (decide (p = q)) as [<-|Hne]; [|by rewrite lookup_insert_ne].
    rewrite lookup_insert_eq, Ht. cbn. by rewrite Hid. }
  destruct Hi. split; try done; try (by rewrite E); try by apply Hk.
  - intros q. cbn. rewrite lookup_insert_is_Some. intros [<-|[_ Hq]]; [apply di_fresh0; by exists t|by apply di_fresh0].
  - intros q Hq. destruct (di_active0 q Hq) as (u & Hu & Hd). destruct (Hsame q u Hu) as (u' & Hu' & E1 & E2).
    exists u'. split; [done|]. cbn. by rewrite E1, E2.
Qed.

Lemma resolve_same ntab now later found t b t' :
  resolve ntab now later found t = (b, t') -> (forall n, found = Some n -> n_ID n = n_ID (dt_dest t)) ->
  n_ID (dt_dest t') = n_ID (dt_dest t) /\ dt_flags t' = dt_flags t.
Proof.
  unfold resolve. intros E Hf. repeat case_match; injection E as <- <-; try done; (split; [|done]); by apply Hf.
Qed.

(** The throttle of [resolve] is between one minute and one hour. *)
Lemma resolve_delay ntab now later found t b t' :
  resolve ntab now later found t = (b, t') ->
  dt_resolveDelay t = 0 \/ initialResolveDelay <= dt_resolveDelay t <= maxResolveDelay ->
  dt_resolveDelay t' = 0 \/ initialResolveDelay <= dt_resolveDelay t' <= maxResolveDelay.
Proof.
  unfold resolve, initialResolveDelay, maxResolveDelay, second. intros E Hd.
  destruct ntab; cbn [negb] in E; [|by injection E as <- <-].
  destruct (Z.eqb_spec (dt_resolveDelay t) 0); repeat case_match; injection E as <- <-; cbn; lia.
Qed.

Lemma taskDone_inv t results now s active :
  dial_inv s (t :: active) -> dial_inv (taskDone t results now s) active.
Proof.
  intros Hi. destruct t as [p|p|p d]; cbn [taskDone].
  - destruct (di_active _ _ Hi p ltac:(set_solver)) as (t & Ht & Hd). rewrite Ht.
    assert (dial_ids s (TDial p :: active) = n_ID (dt_dest t) :: dial_ids s active) as E.
    { unfold dial_ids. cbn. by rewrite Ht. }
    destruct (hist_add_spec (ds_hist s) (n_ID (dt_dest t)) (now + dialHistoryExpiration) (di_heap _ _ Hi)) as [Hh _].
    set (s' := with_dialing _ _). destruct Hi as [H1 H2 H3 H4 H5 H6 H7 H8 H9 H10 H11 H12].
    rewrite E in *. apply NoDup_cons in H7 as [Hn H7]. apply NoDup_cons in H11 as [Hn2 H11].
    apply Forall_cons in H3 as [_ H3]. split; try done.
    + intros q Hq. destruct (H6 q ltac:(set_solver)) as (u & Hu & Hd'). exists u. split; [done|]. cbn.
      rewrite lookup_delete_ne; [done|]. intros Heq. apply Hn. rewrite elem_of_dial_ids. by exists q, u.
    + intros id. cbn. intros [f [Hne Hf]%lookup_delete_Some]. rewrite (dial_ids_tasks s) by done.
      pose proof (H8 id ltac:(by exists f)) as [->|Hin]%elem_of_cons; done.
    + intros id Hs. cbn in *. apply lookup_delete_None. right. by apply H10.
  - destruct Hi as [H1 H2 H3 H4 H5 H6 H7 H8 H9 H10 H11 H12]. apply NoDup_cons in H11 as [Hn2 H11].
    apply Forall_cons in H3 as [_ H3]. split; try done.
    + intros q Hq. apply H6. set_solver.
    + rewrite filter_cons_True in H9 by done. cbn in H9 |- *. destruct (ds_lookupRunning s); lia.
  - destruct Hi as [H1 H2 H3 H4 H5 H6 H7 H8 H9 H10 H11 H12]. apply NoDup_cons in H11 as [Hn2 H11].
    apply Forall_cons in H3 as [_ H3]. split; try done.
    intros q Hq. apply H6. set_solver.
Qed.

(** ** Runs of the dialer *)

(** What can be seen of an operation: the nodes dialled at a time, a node whose last dial is forgotten. *)
Inductive dial_event := EvDialled (now : Z) (ids : list NodeID) | EvForget (id : NodeID) | EvOther.

(** [addStoreman] with another address than the one known. *)
Definition moved (n : Node) (s : dialstate) : Prop :=
  exists t, (ds_storeman s !! n_ID n ≫= (fun p => ds_tasks s !! p)) = Some t /\ Node_String (dt_dest t) <> Node_String n.

(** The dialer with the tasks it has given out. *)
Inductive dial_step : dialstate * list task -> dial_event -> dialstate * list task -> Prop :=
| Ds_addStatic n s a : dial_step (s, a) EvOther (addStatic n s, a)
| Ds_removeStatic n s a : dial_step (s, a) (EvForget (n_ID n)) (removeStatic n s, a)
| Ds_addStoreman n s a : ~ moved n s -> dial_step (s, a) EvOther (addStoreman n s, a)
| Ds_moveStoreman n s a : moved n s -> dial_step (s, a) (EvForget (n_ID n)) (addStoreman n s, a)
| Ds_removeStoreman n s a : dial_step (s, a) (EvForget (n_ID n)) (removeStoreman n s, a)
| Ds_newTasks read so sto k peers now ts s s' a :
    reader_ok read -> (dc_self (ds_cfg s) = None -> dc_maxDynDials (ds_cfg s) < 2) ->
    newTasks read so sto k peers now s = Ret (ts, s') -> dial_step (s, a) (EvDialled now (dial_ids s' ts)) (s', a ++ ts)
| Ds_taskDone t results now s a a' :
    a ≡ₚ t :: a' -> dial_step (s, a) EvOther (taskDone t results now s, a')
| Ds_retarget p t t' s a :
    ds_tasks s !! p = Some t -> n_ID (dt_dest t') = n_ID (dt_dest t) -> dt_flags t' = dt_flags t ->
    dial_step (s, a) EvOther (with_tasks (<[p := t']> (ds_tasks s)) s, a).

Inductive dial_run : dialstate * list task -> list dial_event -> dialstate * list task -> Prop :=
| Dr_nil x : dial_run x [] x
| Dr_cons x ev y evs z : dial_step x ev y -> dial_run y evs z -> dial_run x (ev :: evs) z.

Lemma dial_step_inv x ev y : dial_step x ev y -> dial_inv x.1 x.2 -> dial_inv y.1 y.2.
Proof.
  intros H Hi. destruct H; cbn [fst snd] in *.
  - by apply addStatic_inv.
  - by apply removeStatic_inv.
  - by apply addStoreman_inv.
  - by apply addStoreman_inv.
  - by apply removeStoreman_inv.
  - edestruct newTasks_spec as (ts' & s2 & E & Hok & _); [done..|].
    rewrite E in H1. injection H1 as <- <-. apply Hok.
  - apply taskDone_inv. by eapply dial_inv_perm.
  - by eapply retarget_inv.
Qed.

Lemma hist_add_perm h id exp : hist_add h id exp ≡ₚ mk_past id exp :: h.
Proof. apply heap_Push_perm. Qed.

Lemma hist_remove_keeps h id v : heap_ok (length h) h -> v ∈ h -> pd_id v <> id -> v ∈ hist_remove h id.
Proof.
  intros Hh Hv Hne. destruct (hist_remove_spec h id Hh) as [_ [[_ ->]|(x & Hx & Hp)]]; [done|].
  rewrite <- Hp in Hv. apply elem_of_cons in Hv as [->|Hv]; [done|exact Hv].
Qed.

Lemma addStoreman_hist n s : ~ moved n s -> ds_hist (addStoreman n s) = ds_hist s.
Proof.
  intros Hm. unfold addStoreman. destruct (_ ≫= _) as [t|] eqn:E; [|done]. case_decide as Hs; [done|].
  destruct Hm. by exists t.
Qed.

(** A record of the history stays until it expires or is removed, and keeps the node from being dialled. *)
Lemma dial_step_hist x ev y v :
  dial_step x ev y -> dial_inv x.1 x.2 -> v ∈ ds_hist x.1 -> ev <> EvForget (pd_id v) ->
  (forall now ids, ev = EvDialled now ids -> now <= pd_exp v) ->
  v ∈ ds_hist y.1 /\ (forall now ids, ev = EvDialled now ids -> pd_id v ∉ ids).
Proof.
  intros H Hi Hv Hf Ht. pose proof (di_heap _ _ Hi) as Hh. destruct H; cbn [fst snd] in *.
  - done.
  - split; [|done]. apply hist_remove_keeps; [done..|]. congruence.
  - split; [|done]. by rewrite addStoreman_hist.
  - split; [|done]. unfold addStoreman. destruct H as (t & -> & Hs). rewrite decide_False by done.
    apply hist_remove_keeps; [done..|]. congruence.
  - split; [|done]. apply hist_remove_keeps; [done..|]. congruence.
  - edestruct newTasks_spec as (ts' & s2 & E & Hok & _); [done..|].
    rewrite E in H1. injection H1 as <- <-. specialize (Ht _ _ eq_refl).
    destruct (hist_expire_spec now (ds_hist s) Hh) as [_ Hp].
    assert (v ∈ hist_expire now (ds_hist s)) as Hin by (rewrite Hp; by apply list_elem_of_filter).
    split; [by rewrite (nt_hist _ _ _ _ _ _ Hok)|]. intros now' ids [= <- <-].
    rewrite elem_of_dial_ids. intros (p & t & Hin' & Hp' & Hid).
    destruct (nt_new _ _ _ _ _ _ Hok p Hin') as (t' & Ht' & [_ _ _ Hd] & _). rewrite Hp' in Ht'. injection Ht' as <-.
    apply Hd. cbn. rewrite Hid. by apply list_elem_of_fmap_2.
  - split; [|done]. destruct t as [p|p|p d]; cbn [taskDone]; [|done..]. destruct (ds_tasks s !! p) as [t|]; [|done].
    cbn [ds_hist with_dialing with_hist]. rewrite hist_add_perm. by apply elem_of_cons; right.
  - done.
Qed.

(** A node whose dial has just ended is not dialled again for thirty seconds, by whatever
    operations are performed on the dialer in between, in any order: [static] or
    discovered nodes and storeman nodes alike, unless its record is dropped on request (the peer is removed, or a
    storeman node is announced with another address).  The history is the heap of the code, and the
    destination of the running tasks may change to other addresses of the same nodes. *)
Theorem redial_window s a p t results t0 evs y :
  dial_inv s (TDial p :: a) -> ds_tasks s !! p = Some t ->
  dial_run (taskDone (TDial p) results t0 s, a) evs y ->
  EvForget (n_ID (dt_dest t)) ∉ evs ->
  (forall now ids, EvDialled now ids ∈ evs -> now <= t0 + dialHistoryExpiration) ->
  forall now ids, EvDialled now ids ∈ evs -> n_ID (dt_dest t) ∉ ids.
Proof.
  intros Hi Ht Hrun Hf Hnow. pose proof (taskDone_inv (TDial p) results t0 s a Hi) as Hi1.
  set (v := mk_past (n_ID (dt_dest t)) (t0 + dialHistoryExpiration)).
  assert (v ∈ ds_hist (taskDone (TDial p) results t0 s)) as Hv.
  { cbn [taskDone]. rewrite Ht. cbn [ds_hist with_dialing with_hist]. rewrite hist_add_perm. apply elem_of_cons. by left. }
  remember (taskDone (TDial p) results t0 s, a) as x eqn:Ex.
  assert (dial_inv x.1 x.2 /\ v ∈ ds_hist x.1) as [Hx Hvx] by by subst x. clear Ex Hi1 Hv.
  induction Hrun as [x|x ev y evs z Hs Hr IH]; [by intros now ids ?%elem_of_nil|].
  destruct (dial_step_hist x ev y v Hs Hx Hvx) as [Hv' Hd].
  - intros ->. apply Hf. set_solver.
  - intros now ids ->. apply (Hnow now ids). set_solver.
  - intros now ids [<-|Hin]%elem_of_cons; [by eapply Hd|].
    eapply IH; [set_solver| |by eapply dial_step_inv|done|done]. intros now' ids' H'. apply (Hnow now' ids'). set_solver.
Qed.

(** ** Nodes to keep connected are dialled *)

(** [d'] dials everything [d] does. *)
Definition grows (d d' : dialing) : Prop := forall id, is_Some (ds_dialing d.1 !! id) -> is_Some (ds_dialing d'.1 !! id).

#[global] Instance grows_preorder : PreOrder grows.
Proof. split; [by intros d id|]. intros d1 d2 d3 H1 H2 id Hid. auto. Qed.

Lemma addDial_grows peers flag n d : grows d (addDial peers flag n d).2.
Proof.
  destruct d as [s ts]. unfold addDial. destruct (checkDial n peers s); [done|]. intros id Hid. cbn.
  apply lookup_insert_is_Some'. by right.
Qed.

Lemma keep_connected_grows get set flag peers order d :
  keeper get set flag -> grows d (keep_connected get set peers order d).
Proof.
  intros Hk. revert d. induction order as [|id order IH]; intros [s ts]; [done|]. cbn [keep_connected]. etrans; [|apply IH].
  destruct (get s !! id) as [p|]; [|done]. destruct (ds_tasks s !! p) as [t|]; [|done].
  intros i Hi. cbn [fst] in *.
  destruct (kp_frame _ _ _ Hk (delete (n_ID (dt_dest t)) (get s)) s) as (_ & _ & _ & E & _).
  destruct (checkDial (dt_dest t) peers s) as [[| | | |]|]; cbn; rewrite ?E; try done.
  apply lookup_insert_is_Some'. by right.
Qed.

Lemma dial_needed_grows peers ns need d : grows d (dial_needed peers ns need d).2.
Proof.
  revert need d. induction ns as [|n ns IH]; intros need d; cbn [dial_needed]; [done|]. case_match; [done|].
  pose proof (addDial_grows peers dynDialedConn n d) as Hg. destruct (addDial _ _ _ _) as [ok d1]. etrans; [exact Hg|apply IH].
Qed.

Lemma dial_random_grows peers idxs need d need' d' : dial_random peers idxs need d = Ret (need', d') -> grows d d'.
Proof.
  revert need d. induction idxs as [|i idxs IH]; intros need d; cbn [dial_random]; [by intros [= <- <-]|].
  intros E. go_bind E as slot E1. go_bind E as n E2.
  pose proof (addDial_grows peers dynDialedConn n d) as Hg. destruct (addDial _ _ _ _) as [ok d1].
  etrans; [exact Hg|]. by eapply IH.
Qed.

(** An entry of one of the maps whose node may be dialled is dialled. *)
Lemma keep_connected_dials get set flag active peers s0 need0 need order s ts id p t :
  keeper get set flag -> (forall s0 m, get (set m s0) = m) -> (forall m s0, get (with_dialing m s0) = get s0) ->
  stage active peers s0 need0 need (s, ts) -> get s !! id = Some p -> ds_tasks s !! p = Some t ->
  dialable peers s0 (dt_dest t) -> id ∈ order ->
  is_Some (ds_dialing (keep_connected get set peers order (s, ts)).1 !! id).
Proof.
  intros Hk Hg1 Hg2 Hs Hget Ht Hd. revert s ts Hs Hget Ht.
  induction order as [|i order IH]; intros s ts Hs Hget Ht Hin; [by apply elem_of_nil in Hin|].
  pose proof (st_inv _ _ _ _ _ _ Hs) as Hi. cbn [fst snd] in Hi.
  destruct (decide (i = id)) as [->|Hne].
  - cbn [keep_connected]. rewrite Hget, Ht.
    destruct (kp_kept _ _ _ Hk _ _ Hi id p Hget) as (t' & Ht' & Eid & _). rewrite Ht in Ht'. injection Ht' as <-.
    destruct (checkDial (dt_dest t) peers s) eqn:Ec.
    + apply keep_connected_grows with flag; [done|].
      pose proof (st_cfg _ _ _ _ _ _ Hs) as Ecfg. pose proof (st_hist _ _ _ _ _ _ Hs) as Ehist. cbn [fst] in Ecfg, Ehist.
      destruct Hd as [D1 D2 D3 D4]. unfold checkDial in Ec. rewrite Ecfg, Ehist, D1 in Ec.
      case_decide as Hdl; [injection Ec as <-; by rewrite Eid in Hdl|].
      exfalso. rewrite decide_False in Ec by by intros []. rewrite decide_False in Ec by done.
      destruct (dc_netrestrict (ds_cfg s0)) as [l|]; [rewrite D3 in Ec by done; cbn in Ec|].
      all: destruct (hist_contains (ds_hist s0) (n_ID (dt_dest t))) eqn:Eh; [|done]; by apply hist_contains_spec in Eh.
    + apply keep_connected_grows with flag; [done|]. cbn. rewrite lookup_insert_eq. by eexists.
  - assert (id ∈ order) as Hin' by (by apply elem_of_cons in Hin as [->|]).
    change (keep_connected get set peers (i :: order) (s, ts)) with
      (keep_connected get set peers order (keep_connected get set peers [i] (s, ts))).
    pose proof (keep_connected_stage get set flag active peers s0 need0 need [i] (s, ts) Hk Hs) as Hs1.
    cbn [keep_connected] in Hs1 |- *.
    destruct (get s !! i) as [q|] eqn:Eq; [|by apply IH].
    destruct (ds_tasks s !! q) as [u|] eqn:Eu; [|by apply IH].
    destruct (kp_kept _ _ _ Hk _ _ Hi i q Eq) as (u' & Hu' & Eid & _). rewrite Eu in Hu'. injection Hu' as <-.
    destruct (kp_frame _ _ _ Hk (delete (n_ID (dt_dest u)) (get s)) s) as (_ & _ & Etk & _).
    destruct (checkDial (dt_dest u) peers s) as [[| | | |]|]; apply IH; try done.
    + rewrite Hg1. rewrite Eid. by rewrite lookup_delete_ne.
    + by rewrite Etk.
    + rewrite Hg1. rewrite Eid. by rewrite lookup_delete_ne.
    + by rewrite Etk.
    + by rewrite Hg2.
Qed.

Lemma keep_connected_frame {A} (f : dialstate -> A) get set peers order d :
  (forall m s, f (set m s) = f s) -> (forall m s, f (with_dialing m s) = f s) ->
  f (keep_connected get set peers order d).1 = f d.1.
Proof.
  intros H1 H2. revert d. induction order as [|id order IH]; intros [s ts]; [done|]. cbn [keep_connected]. rewrite IH.
  destruct (get s !! id) as [p|]; [|done]. destruct (ds_tasks s !! p) as [t|]; [|done].
  by destruct (checkDial (dt_dest t) peers s) as [[| | | |]|]; cbn [fst]; rewrite ?H1, ?H2.
Qed.

(** The state after the loops over the two maps. *)
Definition kept_dialled (so sto : list NodeID) (peers : peerset) (now : Z) (s : dialstate) : dialing :=
  let s := match ds_start s with None => with_start now s | Some _ => s end in
  let s := with_hist (hist_expire now (ds_hist s)) s in
  keep_connected ds_storeman with_storeman peers sto (keep_connected ds_static with_static peers so (s, [])).

Lemma newTasks_grows read so sto k peers now s ts s' :
  newTasks read so sto k peers now s = Ret (ts, s') -> grows (kept_dialled so sto peers now s) (s', ts).
Proof.
  unfold newTasks. cbn zeta. change (keep_connected ds_storeman with_storeman peers sto _) with (kept_dialled so sto peers now s).
  set (d1 := kept_dialled so sto peers now s). clearbody d1.
  match goal with |- context [let '(need, d) := ?e in _] => destruct e as [need2 d2] eqn:E2 end.
  assert (grows d1 d2) as H2.
  { destruct (ds_bootnodes d1.1) as [|b rest]; [by injection E2 as <- <-|].
    destruct (_ && _ && _); [|by injection E2 as <- <-]. destruct d1 as [sd td].
    pose proof (addDial_grows peers dynDialedConn b (with_bootnodes (rest ++ [b]) sd, td)) as Hg.
    destruct (addDial _ _ _ _) as [ok d']. injection E2 as <- <-. exact Hg. }
  clear E2. intros E. etrans; [exact H2|]. clear H2 d1. go_bind E as [need3 d3] E3.
  assert (grows d2 d3) as H3.
  { destruct (0 <? _); [|by injection E3 as <- <-]. destruct (dc_self _); [|done]. destruct d2 as [sd td].
    destruct (read (ds_randomNodes sd)) as [buf n]. apply dial_random_grows in E3. exact E3. }
  etrans; [exact H3|]. clear H3 E3 d2. pose proof (dial_needed_grows peers (ds_lookupBuf d3.1) need3 d3) as H4.
  destruct (dial_needed _ _ _ _) as [[rest need4] [s4 ts4]]. etrans; [exact H4|]. clear H4.
  intros id Hid. cbn [fst snd] in *.
  match type of E with context [let '(s, ts) := ?e in _] => destruct e as [s6 ts6] eqn:E6 end.
  assert (ds_dialing s6 = ds_dialing s4) as E7 by (destruct ((_ <? need4) && _); injection E6 as <- <-; done).
  rewrite <- E7 in Hid. destruct (hist_min (ds_hist s6)) as [v|]; [destruct (bool_decide (k = 0%nat) && _)|]; injection E as <- <-; exact Hid.
Qed.

(** ** Nodes to keep connected are not forgotten *)

(** A node that is never dialled: this node, or one outside the allowed networks. *)
Definition useless (cfg : dial_config) (n : Node) : Prop :=
  dc_self cfg = Some (n_ID n) \/ exists l, dc_netrestrict cfg = Some l /\ Contains l (n_IP n) = false.

(** Of the entries of [m], [m'] lacks only those of useless nodes. *)
Definition remembered (s : dialstate) (m m' : gmap NodeID nat) : Prop :=
  forall id p t, m !! id = Some p -> ds_tasks s !! p = Some t -> m' !! id = Some p \/ useless (ds_cfg s) (dt_dest t).

Lemma checkDial_useless n peers s :
  checkDial n peers s = Some errSelf \/ checkDial n peers s = Some errNotWhitelisted -> useless (ds_cfg s) n.
Proof.
  unfold checkDial, useless. do 2 (case_decide; [naive_solver|]). case_decide; [by left|].
  destruct (dc_netrestrict (ds_cfg s)) as [l|].
  - destruct (Contains l (n_IP n)) eqn:El; cbn [negb]; [case_match; naive_solver|]. intros _. right. by exists l.
  - case_match; naive_solver.
Qed.

Lemma keep_connected_remembers get set flag peers order d :
  keeper get set flag -> (forall s m, get (set m s) = m) -> (forall m s, get (with_dialing m s) = get s) ->
  kept flag (get d.1) d.1 -> remembered d.1 (get d.1) (get (keep_connected get set peers order d).1).
Proof.
  intros Hk Hg1 Hg2. revert d. induction order as [|i order IH]; intros [s ts] Hkept; [by left|]. cbn [keep_connected fst] in *.
  destruct (get s !! i) as [q|] eqn:Eq; [|by apply (IH (s, ts))]. destruct (Hkept i q Eq) as (u & Eu & Ei & _). rewrite Eu.
  destruct (kp_frame _ _ _ Hk (delete (n_ID (dt_dest u)) (get s)) s) as (Ec & _ & Etk & _).
  assert (useless (ds_cfg s) (dt_dest u) -> remembered s (get s)
    (get (keep_connected get set peers order (set (delete (n_ID (dt_dest u)) (get s)) s, ts)).1)) as Hdel.
  { intros Hu id p t Hp Ht. destruct (decide (id = i)) as [->|Hne].
    - rewrite Eq in Hp. injection Hp as ->. rewrite Eu in Ht. injection Ht as ->. by right.
    - rewrite <- Ec. apply (IH (set (delete (n_ID (dt_dest u)) (get s)) s, ts)); cbn [fst].
      + rewrite Hg1. by eapply kept_delete.
      + rewrite Hg1, Ei. by rewrite lookup_delete_ne.
      + by rewrite Etk. }
  pose proof (checkDial_useless (dt_dest u) peers s) as Hu.
  destruct (checkDial (dt_dest u) peers s) as [[| | | |]|]; try (by apply (IH (s, ts))); try (by apply Hdel, Hu; auto).
  intros id p t Hp Ht. apply (IH (with_dialing _ s, _)); cbn [fst]; [|by rewrite Hg2|done].
  rewrite Hg2. by apply kept_tasks with s.
Qed.

(** The dials after the two loops do not touch the maps. *)
Abbreviation maps s := (ds_static s, ds_storeman s).

Lemma addDial_maps peers flag n d : maps (addDial peers flag n d).2.1 = maps d.1.
Proof. destruct d as [s ts]. unfold addDial. by destruct (checkDial n peers s). Qed.

Lemma dial_needed_maps peers ns need d : maps (dial_needed peers ns need d).2.1 = maps d.1.
Proof.
  revert need d. induction ns as [|n ns IH]; intros need d; cbn [dial_needed]; [done|]. case_match; [done|].
  rewrite <- (addDial_maps peers dynDialedConn n d). destruct (addDial _ _ _ _) as [ok d1]. apply IH.
Qed.

Lemma dial_random_maps peers idxs need d need' d' : dial_random peers idxs need d = Ret (need', d') -> maps d'.1 = maps d.1.
Proof.
  revert need d. induction idxs as [|i idxs IH]; intros need d; cbn [dial_random]; [by intros [= <- <-]|].
  intros E. go_bind E as slot E1. go_bind E as n E2.
  rewrite <- (addDial_maps peers dynDialedConn n d). destruct (addDial _ _ _ _) as [ok d1]. by eapply IH.
Qed.

Lemma newTasks_maps read so sto k peers now s ts s' :
  newTasks read so sto k peers now s = Ret (ts, s') -> maps s' = maps (kept_dialled so sto peers now s).1.
Proof.
  unfold newTasks. cbn zeta. change (keep_connected ds_storeman with_storeman peers sto _) with (kept_dialled so sto peers now s).
  set (d1 := kept_dialled so sto peers now s). clearbody d1.
  match goal with |- context [let '(need, d) := ?e in _] => destruct e as [need2 d2] eqn:E2 end.
  assert (maps d2.1 = maps d1.1) as <-.
  { destruct (ds_bootnodes d1.1) as [|b rest]; [by injection E2 as <- <-|].
    destruct (_ && _ && _); [|by injection E2 as <- <-]. destruct d1 as [sd td].
    pose proof (addDial_maps peers dynDialedConn b (with_bootnodes (rest ++ [b]) sd, td)) as Hg.
    destruct (addDial _ _ _ _) as [ok d']. injection E2 as <- <-. exact Hg. }
  clear E2. intros E. go_bind E as [need3 d3] E3.
  assert (maps d3.1 = maps d2.1) as <-.
  { destruct (0 <? _); [|by injection E3 as <- <-]. destruct (dc_self _); [|done]. destruct d2 as [sd td].
    destruct (read (ds_randomNodes sd)) as [buf n]. apply dial_random_maps in E3. exact E3. }
  rewrite <- (dial_needed_maps peers (ds_lookupBuf d3.1) need3 d3).
  destruct (dial_needed _ _ _ _) as [[rest need4] [s4 ts4]]. cbn [fst snd].
  match type of E with context [let '(s, ts) := ?e in _] => destruct e as [s6 ts6] eqn:E6 end.
  assert (maps s6 = maps s4) as <- by (destruct ((_ <? need4) && _); injection E6 as <- <-; done).
  destruct (hist_min (ds_hist s6)) as [v|]; [destruct (bool_decide (k = 0%nat) && _)|]; by injection E as <- <-.
Qed.

Lemma newTasks_remembers read so sto k peers now s active ts s' : dial_inv s active ->
  newTasks read so sto k peers now s = Ret (ts, s') ->
  remembered s (ds_static s) (ds_static s') /\ remembered s (ds_storeman s) (ds_storeman s').
Proof.
  intros Hi E. apply newTasks_maps in E. injection E as -> ->. unfold kept_dialled. cbn zeta.
  set (sa := match ds_start s with None => with_start now s | Some _ => s end). set (s0 := with_hist _ sa).
  assert (ds_static s0 = ds_static s /\ ds_storeman s0 = ds_storeman s /\ ds_tasks s0 = ds_tasks s /\ ds_cfg s0 = ds_cfg s)
    as (Es1 & Es2 & Es3 & Es4) by (unfold s0, sa; by destruct (ds_start s)).
  set (d1 := keep_connected ds_static with_static peers so (s0, [])).
  assert (ds_storeman d1.1 = ds_storeman s0 /\ ds_tasks d1.1 = ds_tasks s0 /\ ds_cfg d1.1 = ds_cfg s0) as (F1 & F2 & F3)
    by (by unfold d1; split_and!; apply (keep_connected_frame _ ds_static with_static)).
  split; intros id q t Hq Ht.
  - pose proof (keep_connected_frame ds_static ds_storeman with_storeman peers sto d1) as ->; [|done..]. rewrite <- Es4.
    apply (keep_connected_remembers ds_static with_static staticDialedConn peers so (s0, []) static_keeper); try done; cbn [fst].
    + rewrite Es1. apply kept_tasks with s; [done|apply Hi].
    + by rewrite Es1.
    + by rewrite Es3.
  - rewrite <- Es4, <- F3. apply (keep_connected_remembers ds_storeman with_storeman storemanDialedConn peers sto d1 storeman_keeper); try done.
    + rewrite F1, Es2. apply kept_tasks with s; [by rewrite F2|apply Hi].
    + by rewrite F1, Es2.
    + by rewrite F2, Es3.
Qed.

(** C38: The dialer keeps its static and storeman nodes connected: a call of [newTasks] starts a dial of
    every node in the two maps that is not connected, not being dialled, not this node, inside the allowed
    networks and not dialled in the last thirty seconds, in whatever order Go iterates over the maps.
    The call does not panic, the task is among those given out, and of both maps the call removes only useless
    entries, of this node itself or of nodes outside the allowed networks: whatever is connected, being dialled or dialled recently
    stays to be kept connected. *)
Theorem kept_nodes_dialled read so sto k peers now s active id p t :
  dial_inv s active -> reader_ok read -> (dc_self (ds_cfg s) = None -> dc_maxDynDials (ds_cfg s) < 2) ->
  (ds_static s !! id = Some p /\ id ∈ so) \/ (ds_storeman s !! id = Some p /\ id ∈ sto) ->
  ds_tasks s !! p = Some t -> ds_dialing s !! id = None ->
  dialable peers (with_hist (hist_expire now (ds_hist s)) s) (dt_dest t) ->
  exists ts s', newTasks read so sto k peers now s = Ret (ts, s') /\ id ∈ dial_ids s' ts /\
    remembered s (ds_static s) (ds_static s') /\ remembered s (ds_storeman s) (ds_storeman s').
Proof.
  intros Hi Hr Hself Hin Ht Hnd Hd. destruct (newTasks_spec read so sto k peers now s active Hi Hr Hself) as (ts & s' & E & Hok & _).
  exists ts, s'. split; [done|]. split; [|by eapply newTasks_remembers]. pose proof (newTasks_grows _ _ _ _ _ _ _ _ _ E) as Hg.
  enough (is_Some (ds_dialing (kept_dialled so sto peers now s).1 !! id)) as Hs.
  { apply Hg in Hs. cbn in Hs. apply (di_dialing _ _ (nt_inv _ _ _ _ _ _ Hok)) in Hs.
    rewrite elem_of_dial_ids in Hs |- *. destruct Hs as (q & u & Hq & Hu & Eu).
    apply elem_of_app in Hq as [Hq|Hq]; [|by exists q, u]. exfalso.
    destruct (di_active _ _ Hi q Hq) as (u0 & Hu0 & Hd0).
    apply (nt_tasks _ _ _ _ _ _ Hok) in Hu0. rewrite Hu in Hu0. injection Hu0 as <-. rewrite Eu in Hd0. congruence. }
  pose proof (stage_start s active peers now Hi) as H0. unfold kept_dialled. cbn zeta in H0 |- *.
  set (sa := match ds_start s with None => with_start now s | Some _ => s end) in *.
  assert (ds_hist sa = ds_hist s) as Ea by (unfold sa; by destruct (ds_start s)). rewrite Ea.
  set (s0 := with_hist _ sa) in *.
  assert (ds_static s0 = ds_static s /\ ds_storeman s0 = ds_storeman s /\ ds_tasks s0 = ds_tasks s /\ ds_cfg s0 = ds_cfg s)
    as (Es1 & Es2 & Es3 & Es4) by (unfold s0, sa; by destruct (ds_start s)).
  assert (dialable peers s0 (dt_dest t)) as Hd0 by (destruct Hd; by split; rewrite ?Es4).
  destruct Hin as [[Hp Hso]|[Hp Hsto]].
  - apply (keep_connected_grows _ _ _ _ _ _ storeman_keeper).
    eapply (keep_connected_dials _ _ _ _ _ _ _ _ _ _ _ _ _ _ static_keeper); try done; by rewrite ?Es1, ?Es3.
  - destruct (keep_connected ds_static with_static peers so (s0, [])) as [s1 ts1] eqn:E1.
    pose proof (keep_connected_frame ds_storeman ds_static with_static peers so (s0, [])) as F1.
    pose proof (keep_connected_frame ds_tasks ds_static with_static peers so (s0, [])) as F2.
    rewrite E1 in F1, F2. cbn [fst] in F1, F2.
    eapply (keep_connected_dials _ _ _ _ _ _ _ _ _ _ _ _ _ _ storeman_keeper); try done.
    + rewrite <- E1. eapply keep_connected_stage; [apply static_keeper|exact H0].
    + by rewrite F1, Es2.
    + by rewrite F2, Es3.
Qed.

(** ** A small dialer *)

Definition demo_static : Node := mk_node (u8 <$> [8; 8; 8; 8]) 30303 30303 (be_fix 64 7) (be_fix 32 7) 0.
Definition demo_dcfg : dial_config := mk_dcfg 0 None None.
Definition demo_dials : dialstate := addStatic demo_static (mk_dials demo_dcfg false ∅ [] [] ∅ ∅ [] None [] ∅ 0).

Lemma demo_dials_new : newDialState [demo_static] [] [] demo_dcfg = Ret demo_dials.
Proof. reflexivity. Qed.

Definition demo_reader : reader := fun buf => (buf, 0%nat).

Lemma demo_reader_ok : reader_ok demo_reader.
Proof. intros buf. split; [done|]. cbn. intros i Hi. lia. Qed.

Lemma demo_dials_inv : dial_inv demo_dials [].
Proof. exact (proj1 (newDialState_inv _ _ _ _ _ demo_dials_new)). Qed.

Lemma demo_dials_cfg : ds_cfg demo_dials = demo_dcfg.
Proof. exact (proj2 (newDialState_inv _ _ _ _ _ demo_dials_new)). Qed.

Definition demo_newTasks (now : Z) (s : dialstate) : list task * dialstate :=
  match newTasks demo_reader [be_fix 64 7] [] 0 ∅ now s with Ret x => x | _ => ([], s) end.

Lemma kept_nodes_dialled_witness :
  exists ts s', newTasks demo_reader [be_fix 64 7] [] 0 ∅ 5 demo_dials = Ret (ts, s') /\ be_fix 64 7 ∈ dial_ids s' ts /\
    remembered demo_dials (ds_static demo_dials) (ds_static s') /\ remembered demo_dials (ds_storeman demo_dials) (ds_storeman s').
Proof.
  apply (kept_nodes_dialled demo_reader [be_fix 64 7] [] 0 ∅ 5 demo_dials [] (be_fix 64 7) 0
    (mk_task staticDialedConn demo_static None 0)).
  - exact demo_dials_inv.
  - exact demo_reader_ok.
  - intros _. by vm_compute.
  - left. split; [by vm_compute|]. apply list_elem_of_singleton. reflexivity.
  - by vm_compute.
  - by vm_compute.
  - split; cbn [with_hist ds_cfg ds_hist]; rewrite ?demo_dials_cfg; [apply lookup_empty|done|done|].
    vm_compute. intros H. inversion H.
Defined.

(** The static node has been dialled at time 5. *)
Definition demo_dialled : dialstate := (demo_newTasks 5 demo_dials).2.

Lemma demo_dialled_inv : dial_inv demo_dialled [TDial 0].
Proof.
  destruct (newTasks_spec demo_reader [be_fix 64 7] [] 0 ∅ 5 demo_dials [] demo_dials_inv demo_reader_ok)
    as (ts & s & E & Hok & _); [intros _; by vm_compute|].
  assert (demo_newTasks 5 demo_dials = (ts, s)) as Ed by (unfold demo_newTasks; by rewrite E).
  assert ((demo_newTasks 5 demo_dials).1 = [TDial 0]) as E1 by (vm_compute; reflexivity).
  rewrite Ed in E1. cbn [fst] in E1. subst ts.
  unfold demo_dialled. rewrite Ed. apply Hok.
Qed.

Lemma only_event t ids0 id :
  (EvForget id ∉ [EvDialled t ids0]) /\ (forall now ids, EvDialled now ids ∈ [EvDialled t ids0] -> now = t) /\
  (EvDialled t ids0 ∈ [EvDialled t ids0]).
Proof.
  split_and!; [by intros ?%list_elem_of_singleton| |by apply list_elem_of_singleton].
  intros now ids H%list_elem_of_singleton. by injection H as -> _.
Qed.

(** Ten seconds after the dial has ended the node is not dialled, although it is not connected. *)
Lemma redial_window_witness :
  let s := taskDone (TDial 0) [] (10 * second) demo_dialled in
  let now := 20 * second in
  n_ID demo_static ∉ dial_ids (demo_newTasks now s).2 (demo_newTasks now s).1.
Proof.
  cbn zeta.
  eapply (redial_window demo_dialled [] 0 (mk_task staticDialedConn demo_static None 0) [] (10 * second)
    [EvDialled (20 * second) (dial_ids (demo_newTasks (20 * second) (taskDone (TDial 0) [] (10 * second) demo_dialled)).2
       (demo_newTasks (20 * second) (taskDone (TDial 0) [] (10 * second) demo_dialled)).1)]).
  - exact demo_dialled_inv.
  - by vm_compute.
  - eapply Dr_cons; [|apply Dr_nil]. eapply (Ds_newTasks demo_reader [be_fix 64 7] [] 0 ∅); [exact demo_reader_ok|intros _; by vm_compute|by vm_compute].
  - apply only_event.
  - intros now ids H. apply (only_event _ _ []) in H. subst now. by vm_compute.
  - apply (only_event _ _ []).
Defined.

(** A storeman node announced with another address is dropped, not replaced: the dialer forgets it until
    it is announced once more. *)
Theorem moved_storeman_dropped n s : moved n s -> ds_storeman (addStoreman n s) !! n_ID n = None.
Proof.
  intros (t & E & Hs). unfold addStoreman. rewrite E, decide_False by done. cbn. apply lookup_delete_eq.
Qed.

(** The leader moves to another port. *)
Example moved_storeman :
  let at_port p := mk_node (u8 <$> [8; 8; 8; 8]) p p (be_fix 64 7) (be_fix 32 7) 0 in
  moved (at_port 17718) (addStoreman (at_port 17717) demo_dials) /\
  ds_storeman (addStoreman (at_port 17718) (addStoreman (at_port 17717) demo_dials)) = ∅.
Proof. cbn zeta. split; [|by vm_compute]. eexists. split; [by vm_compute|by vm_compute]. Qed.
