(* ===== verification/Server.v ===== *)
(** * The server

    [src/p2p/server.go]: the goroutine [run], which owns the set of peers and the dialer, and the goroutines
    around it: one for every running dial task ([dialTask.Do] of [dial.go]), the listener, one for
    every connection being set up ([SetupConn]) and one for every peer ([runPeer]).  They
    meet in channels; a step of the relation is one communication or the end of one blocking call.

    [Stop] takes the mutex of the server, closes [quit] and waits for [run] and the listener
    while it still holds the mutex; [Self] needs this mutex. *)

From S2P Require Import Prelude BigInt Rlp Protocol Netutil Node DialHistory Dial Peer.

(** ** Configuration *)

Definition maxActiveDialTasks : nat := 37.
Definition defaultMaxPendingPeers : nat := 50.
Definition defaultDialRatio : Z := 3.

Record Config := mk_config {
  cf_MaxPeers : Z;
  cf_MaxPendingPeers : Z;
  cf_DialRatio : Z;
  cf_NoDiscovery : bool;
  cf_NoDial : bool;
  cf_StoremanNodes : list Node;
  cf_StaticNodes : list Node;
  cf_TrustedNodes : gset NodeID;
  cf_Protocols : list Protocol;
  cf_NetRestrict : option Netlist;
  cf_ID : NodeID                      (* the identifier of the private key *)
}.

Definition maxDialedConns (cfg : Config) : Z :=
  if cf_NoDiscovery cfg || cf_NoDial cfg then 0
  else let r := if cf_DialRatio cfg =? 0 then defaultDialRatio else cf_DialRatio cfg in Z.quot (cf_MaxPeers cfg) r.

Definition maxInboundConns (cfg : Config) : Z := cf_MaxPeers cfg - maxDialedConns cfg.

Definition pendingTokens (cfg : Config) : nat :=
  if 0 <? cf_MaxPendingPeers cfg then Z.to_nat (cf_MaxPendingPeers cfg) else defaultMaxPendingPeers.

(** ** Connections *)

Record conn := mk_conn { c_flags : Z; c_id : NodeID; c_caps : list Cap; c_name : string }.

Definition conn_is (c : conn) (f : Z) : bool := has_flag (c_flags c) f.

Definition DiscRequested : Z := 0.
Definition DiscUselessPeer : Z := 3.
Definition DiscTooManyPeers : Z := 4.
Definition DiscAlreadyConnected : Z := 5.
Definition DiscSelf : Z := 10.

Abbreviation peermap := (gmap NodeID conn).

(** The cases of [encHandshakeChecks] before the one that calls [Self]. *)
Definition checks_before_Self (cfg : Config) (peers : peermap) (inboundCount : Z) (c : conn) : option Z :=
  if negb (conn_is c (Z.lor trustedConn (Z.lor staticDialedConn storemanDialedConn)))
     && (cf_MaxPeers cfg <=? Z.of_nat (size peers)) then Some DiscTooManyPeers
  else if negb (conn_is c trustedConn) && conn_is c inboundConn && (maxInboundConns cfg <=? inboundCount) then Some DiscTooManyPeers
  else if decide (is_Some (peers !! c_id c)) then Some DiscAlreadyConnected
  else None.

Definition encHandshakeChecks (cfg : Config) (peers : peermap) (inboundCount : Z) (c : conn) : option Z :=
  match checks_before_Self cfg peers inboundCount c with
  | Some r => Some r
  | None => if decide (c_id c = cf_ID cfg) then Some DiscSelf else None
  end.

(** [protoHandshakeChecks] up to the call of [Self]. *)
Definition proto_before_Self (cfg : Config) (peers : peermap) (inboundCount : Z) (c : conn) : option Z :=
  if negb (bool_decide (cf_Protocols cfg = [])) && bool_decide (countMatchingProtocols (cf_Protocols cfg) (c_caps c) = 0%nat)
  then Some DiscUselessPeer
  else checks_before_Self cfg peers inboundCount c.

Definition protoHandshakeChecks (cfg : Config) (peers : peermap) (inboundCount : Z) (c : conn) : option Z :=
  if negb (bool_decide (cf_Protocols cfg = [])) && bool_decide (countMatchingProtocols (cf_Protocols cfg) (c_caps c) = 0%nat)
  then Some DiscUselessPeer
  else encHandshakeChecks cfg peers inboundCount c.

(** Marks a connection to a trusted node. *)
Definition mark_trusted (cfg : Config) (c : conn) : conn :=
  if decide (c_id c ∈ cf_TrustedNodes cfg) then mk_conn (Z.lor (c_flags c) trustedConn) (c_id c) (c_caps c) (c_name c) else c.

(** ** Goroutines *)

(** [setupConn]: before the mutex, in the encryption handshake, at the channel [posthandshake], in the protocol
    handshake, at the channel [addpeer]. *)
Inductive setup_stage := SuStart | SuEnc | SuPost | SuProto | SuAdd.
Record setup := mk_setup { su_conn : conn; su_dest : option NodeID; su_stage : setup_stage }.

Definition new_setup (flags : Z) (dest : option NodeID) : setup :=
  mk_setup (mk_conn flags (replicate 64 Byte.x00) [] EmptyString) dest SuStart.
Definition with_stage (st : setup_stage) (su : setup) : setup := mk_setup (su_conn su) (su_dest su) st.
Definition with_conn (c : conn) (su : setup) : setup := mk_setup c (su_dest su) (su_stage su).

(** A task: not begun, about to dial (for the second time), in [SetupConn], about to resolve the
    destination after a failed dial, about to report. *)
Inductive gpc :=
| GStart
| GDial (again : bool)
| GSetup (su : setup)
| GResolve
| GReport (results : list Node).

(** [listenLoop]: waits for a slot, in [Accept], returned. *)
Inductive listen_state := LWait | LAccept | LDone.

(** [run]: at the top of the loop, at the select, waiting for the peers to leave, returned, waiting for the
    mutex that [Stop] holds. *)
Inductive phase := MSched | MSelect | MSpin | MDone | MBlocked.

Record server := mk_server {
  sv_phase : phase;
  sv_quit : bool;                         (* [Stop] has closed the channel; it holds the mutex until [run] returns *)
  sv_peers : peermap;
  sv_inbound : Z;
  sv_dial : dialstate;
  sv_running : list task;
  sv_queued : list task;
  sv_done : list (task * list Node);      (* the channel taskdone *)
  sv_gos : list (task * gpc);
  sv_pending : list (option setup);       (* inbound connections; None: about to return the slot *)
  sv_slots : nat;
  sv_listen : listen_state;
  sv_runners : list (conn * bool)         (* runPeer; true: about to send on delpeer *)
}.

Definition with_phase (p : phase) (s : server) : server :=
  mk_server p (sv_quit s) (sv_peers s) (sv_inbound s) (sv_dial s) (sv_running s) (sv_queued s) (sv_done s) (sv_gos s)
    (sv_pending s) (sv_slots s) (sv_listen s) (sv_runners s).
Definition with_dial (d : dialstate) (s : server) : server :=
  mk_server (sv_phase s) (sv_quit s) (sv_peers s) (sv_inbound s) d (sv_running s) (sv_queued s) (sv_done s) (sv_gos s)
    (sv_pending s) (sv_slots s) (sv_listen s) (sv_runners s).
Definition with_gos (g : list (task * gpc)) (s : server) : server :=
  mk_server (sv_phase s) (sv_quit s) (sv_peers s) (sv_inbound s) (sv_dial s) (sv_running s) (sv_queued s) (sv_done s) g
    (sv_pending s) (sv_slots s) (sv_listen s) (sv_runners s).
Definition with_listen (p : list (option setup)) (n : nat) (l : listen_state) (s : server) : server :=
  mk_server (sv_phase s) (sv_quit s) (sv_peers s) (sv_inbound s) (sv_dial s) (sv_running s) (sv_queued s) (sv_done s) (sv_gos s)
    p n l (sv_runners s).
Definition with_peers (m : peermap) (n : Z) (r : list (conn * bool)) (s : server) : server :=
  mk_server (sv_phase s) (sv_quit s) m n (sv_dial s) (sv_running s) (sv_queued s) (sv_done s) (sv_gos s)
    (sv_pending s) (sv_slots s) (sv_listen s) r.
Definition with_tasklists (running queued : list task) (done_ : list (task * list Node)) (g : list (task * gpc)) (s : server) : server :=
  mk_server (sv_phase s) (sv_quit s) (sv_peers s) (sv_inbound s) (sv_dial s) running queued done_ g
    (sv_pending s) (sv_slots s) (sv_listen s) (sv_runners s).

(** [Stop], which closes [quit]. *)
Definition closing (s : server) : server :=
  mk_server (sv_phase s) true (sv_peers s) (sv_inbound s) (sv_dial s) (sv_running s) (sv_queued s)
    (sv_done s) (sv_gos s) (sv_pending s) (sv_slots s) (sv_listen s) (sv_runners s).

(** [Start]; only the first storeman node is handed to the dialer, and no bootstrap node. *)
Definition Start (cfg : Config) : outcome server :=
  first ← slice (cf_StoremanNodes cfg) 0 1;
  let dcfg := mk_dcfg (maxDialedConns cfg) (if cf_NoDiscovery cfg then None else Some (cf_ID cfg)) (cf_NetRestrict cfg) in
  dials ← newDialState (cf_StaticNodes cfg) first [] dcfg;
  Ret (mk_server MSched false ∅ 0 dials [] [] [] [] []
         (pendingTokens cfg) LWait []).

(** ** The loop [run] *)

(** Starts tasks while fewer than the maximum are running; the tasks that have to wait. *)
Definition startTasks (ts : list task) (s : server) : list task * server :=
  let n := (maxActiveDialTasks - length (sv_running s))%nat in
  let start := take n ts in
  (drop n ts, with_tasklists (sv_running s ++ start) (sv_queued s) (sv_done s) (sv_gos s ++ ((fun t => (t, GStart)) <$> start)) s).

Definition set_queued (q : list task) (s : server) : server := with_tasklists (sv_running s) q (sv_done s) (sv_gos s) s.

(** The flags the dialer sees of the peers. *)
Definition peer_flags (peers : peermap) : peerset := c_flags <$> peers.

Definition scheduleTasks (read : reader) (so sto : list NodeID) (now : Z) (s : server) : outcome server :=
  let '(rest, s) := startTasks (sv_queued s) s in
  let s := set_queued rest s in
  if decide (length (sv_running s) < maxActiveDialTasks)%nat then
    '(nt, d) ← newTasks read so sto (length (sv_running s) + length (sv_queued s)) (peer_flags (sv_peers s)) now (sv_dial s);
    let '(rest, s) := startTasks nt (with_dial d s) in
    Ret (set_queued (sv_queued s ++ rest) s)
  else Ret s.

(** Every storeman node with this identifier is added once for each time it occurs. *)
Definition on_addstatic (cfg : Config) (n : Node) (d : dialstate) : dialstate :=
  let k := length (filter (fun m => n_ID m = n_ID n) (cf_StoremanNodes cfg)) in
  match k with
  | O => addStatic n d
  | _ => Nat.iter k (addStoreman n) d
  end.

(** The first storeman node is never removed from the dialer. *)
Definition on_removestatic (cfg : Config) (n : Node) (d : dialstate) : dialstate :=
  match filter (fun m => n_ID m = n_ID n) (cf_StoremanNodes cfg) with
  | [] => removeStatic n d
  | _ => Nat.iter (length (filter (fun m => n_ID m = n_ID n) (drop 1 (cf_StoremanNodes cfg)))) (removeStoreman n) d
  end.

(** [delTask]: removes the first occurrence. *)
Fixpoint delTask (t : task) (l : list task) : list task :=
  match l with
  | [] => []
  | x :: l => if decide (x = t) then l else x :: delTask t l
  end.

Definition on_taskdone (t : task) (results : list Node) (now : Z) (rest : list (task * list Node)) (s : server) : server :=
  with_tasklists (delTask t (sv_running s)) (sv_queued s) rest (sv_gos s) (with_dial (taskDone t results now (sv_dial s)) s).

(** [addpeer] for a connection that has passed the checks. *)
Definition add_peer (c : conn) (s : server) : server :=
  with_peers (<[c_id c := c]> (sv_peers s)) (if conn_is c inboundConn then sv_inbound s + 1 else sv_inbound s)
    (sv_runners s ++ [(c, false)]) s.

(** [delpeer] while running, and in the spin-down, which does not count any more. *)
Definition del_peer (c : conn) (rest : list (conn * bool)) (s : server) : server :=
  with_peers (delete (c_id c) (sv_peers s)) (if conn_is c inboundConn then sv_inbound s - 1 else sv_inbound s) rest s.
Definition del_peer_spindown (c : conn) (rest : list (conn * bool)) (s : server) : server :=
  with_peers (delete (c_id c) (sv_peers s)) (sv_inbound s) rest s.

(** ** Steps *)

(** A connection being set up belongs to a dial task or to the listener. *)
Inductive place := WDial (i : nat) | WInbound (i : nat).

Definition get_setup (s : server) (w : place) : option setup :=
  match w with
  | WDial i => match sv_gos s !! i with Some (_, GSetup su) => Some su | _ => None end
  | WInbound i => match sv_pending s !! i with Some (Some su) => Some su | _ => None end
  end.

(** [SetupConn] goes on with [su], or returns. *)
Definition put_setup (w : place) (o : option setup) (s : server) : server :=
  match w with
  | WDial i =>
      match sv_gos s !! i with
      | Some (t, _) => with_gos (<[i := (t, match o with Some su => GSetup su | None => GReport [] end)]> (sv_gos s)) s
      | None => s
      end
  | WInbound i => with_listen (<[i := o]> (sv_pending s)) (sv_slots s) (sv_listen s) s
  end.

(** The goroutine [run].  When [quit] is closed, [Stop] holds the mutex. *)
Inductive run_step (cfg : Config) : server -> server -> Prop :=
| R_schedule read so sto now s s' :
    sv_phase s = MSched -> reader_ok read -> scheduleTasks read so sto now s = Ret s' ->
    run_step cfg s (with_phase MSelect s')
| R_quit s : sv_phase s = MSelect -> sv_quit s = true -> run_step cfg s (with_phase MSpin s)
| R_addstatic n s :
    sv_phase s = MSelect -> run_step cfg s (with_phase MSched (with_dial (on_addstatic cfg n (sv_dial s)) s))
| R_removestatic n s :
    sv_phase s = MSelect -> run_step cfg s (with_phase MSched (with_dial (on_removestatic cfg n (sv_dial s)) s))
| R_taskdone t results now rest s :
    sv_phase s = MSelect -> sv_done s = (t, results) :: rest ->
    run_step cfg s (with_phase MSched (on_taskdone t results now rest s))
| R_posthandshake w su s :
    sv_phase s = MSelect -> get_setup s w = Some su -> su_stage su = SuPost ->
    let c := mark_trusted cfg (su_conn su) in
    (sv_quit s = true -> is_Some (checks_before_Self cfg (sv_peers s) (sv_inbound s) c)) ->
    run_step cfg s
      (with_phase MSched
        (put_setup w (match encHandshakeChecks cfg (sv_peers s) (sv_inbound s) c with
                      | None => Some (with_stage SuProto (with_conn c su))
                      | Some _ => None
                      end) s))
| R_posthandshake_blocked w su s :
    sv_phase s = MSelect -> get_setup s w = Some su -> su_stage su = SuPost -> sv_quit s = true ->
    let c := mark_trusted cfg (su_conn su) in
    checks_before_Self cfg (sv_peers s) (sv_inbound s) c = None ->
    run_step cfg s (with_phase MBlocked (put_setup w (Some (with_conn c su)) s))
| R_addpeer w su s :
    sv_phase s = MSelect -> get_setup s w = Some su -> su_stage su = SuAdd ->
    (sv_quit s = true -> is_Some (proto_before_Self cfg (sv_peers s) (sv_inbound s) (su_conn su))) ->
    run_step cfg s
      (with_phase MSched
        (put_setup w None
          (match protoHandshakeChecks cfg (sv_peers s) (sv_inbound s) (su_conn su) with
           | None => add_peer (su_conn su) s
           | Some _ => s
           end)))
| R_addpeer_blocked w su s :
    sv_phase s = MSelect -> get_setup s w = Some su -> su_stage su = SuAdd -> sv_quit s = true ->
    proto_before_Self cfg (sv_peers s) (sv_inbound s) (su_conn su) = None ->
    run_step cfg s (with_phase MBlocked s)
| R_unwanted w su s :
    (* the checks have failed, and run takes the quit case of the inner select *)
    sv_phase s = MSelect -> get_setup s w = Some su -> sv_quit s = true ->
    match su_stage su with
    | SuPost => is_Some (checks_before_Self cfg (sv_peers s) (sv_inbound s) (mark_trusted cfg (su_conn su)))
    | SuAdd => is_Some (proto_before_Self cfg (sv_peers s) (sv_inbound s) (su_conn su))
    | _ => False
    end ->
    run_step cfg s (with_phase MSpin (put_setup w None s))
| R_interrupted w su s :
    (* Stop closes quit after the checks, and run leaves without giving the answer *)
    sv_phase s = MSelect -> get_setup s w = Some su -> sv_quit s = false -> su_stage su = SuPost \/ su_stage su = SuAdd ->
    run_step cfg s
      (with_phase MSpin
        (put_setup w None
          (closing
            (match su_stage su, protoHandshakeChecks cfg (sv_peers s) (sv_inbound s) (su_conn su) with
             | SuAdd, None => add_peer (su_conn su) s
             | _, _ => s
             end))))
| R_delpeer c l1 l2 s :
    sv_phase s = MSelect -> sv_runners s = l1 ++ (c, true) :: l2 ->
    run_step cfg s (with_phase MSched (del_peer c (l1 ++ l2) s))
| R_spindown c l1 l2 s :
    sv_phase s = MSpin -> sv_peers s <> ∅ -> sv_runners s = l1 ++ (c, true) :: l2 ->
    run_step cfg s (del_peer_spindown c (l1 ++ l2) s)
| R_return s : sv_phase s = MSpin -> sv_peers s = ∅ -> run_step cfg s (with_phase MDone s).

(** [SetupConn], between the communications with [run]. *)
Inductive setup_step (cfg : Config) : server -> server -> Prop :=
| U_begin w su s :
    get_setup s w = Some su -> su_stage su = SuStart -> sv_quit s = false ->
    setup_step cfg s (put_setup w (Some (with_stage SuEnc su)) s)
| U_stopped w su s :
    (* the mutex is free again *)
    get_setup s w = Some su -> su_stage su = SuStart -> sv_phase s = MDone -> setup_step cfg s (put_setup w None s)
| U_fail w su s :
    get_setup s w = Some su -> su_stage su = SuEnc \/ su_stage su = SuProto -> setup_step cfg s (put_setup w None s)
| U_encrypted w su id s :
    get_setup s w = Some su -> su_stage su = SuEnc ->
    let c := mk_conn (c_flags (su_conn su)) id (c_caps (su_conn su)) (c_name (su_conn su)) in
    setup_step cfg s
      (put_setup w (if decide (default id (su_dest su) = id)
                    then Some (with_stage SuPost (with_conn c su)) else None) s)
| U_handshaken w su id caps name s :
    get_setup s w = Some su -> su_stage su = SuProto ->
    let c := mk_conn (c_flags (su_conn su)) (c_id (su_conn su)) caps name in
    setup_step cfg s
      (put_setup w (if decide (id = c_id (su_conn su)) then Some (with_stage SuAdd (with_conn c su)) else None) s)
| U_quit w su s :
    get_setup s w = Some su -> su_stage su = SuPost \/ su_stage su = SuAdd -> sv_quit s = true ->
    setup_step cfg s (put_setup w None s).

Definition set_go (i : nat) (t : task) (pc : gpc) (s : server) : server := with_gos (<[i := (t, pc)]> (sv_gos s)) s.
Definition set_task (p : nat) (t : dialTask) (s : server) : server :=
  with_dial (with_tasks (<[p := t]> (ds_tasks (sv_dial s))) (sv_dial s)) s.

(** The node table knows nodes by their identifiers. *)
Definition found_ok (found : option Node) (t : dialTask) : Prop := forall n, found = Some n -> n_ID n = n_ID (dt_dest t).

(** The goroutine of a task. *)
Inductive task_step (cfg : Config) : server -> server -> Prop :=
| T_resolve i p t now later found b t' s :
    sv_gos s !! i = Some (TDial p, GStart) -> ds_tasks (sv_dial s) !! p = Some t -> Incomplete (dt_dest t) = true ->
    found_ok found t -> resolve (negb (cf_NoDiscovery cfg)) now later found t = (b, t') ->
    task_step cfg s (set_go i (TDial p) (if b then GDial false else GReport []) (set_task p t' s))
| T_start i p t s :
    sv_gos s !! i = Some (TDial p, GStart) -> ds_tasks (sv_dial s) !! p = Some t -> Incomplete (dt_dest t) = false ->
    task_step cfg s (set_go i (TDial p) (GDial false) s)
| T_dialled i p again t s :
    sv_gos s !! i = Some (TDial p, GDial again) -> ds_tasks (sv_dial s) !! p = Some t ->
    task_step cfg s (set_go i (TDial p) (GSetup (new_setup (dt_flags t) (Some (n_ID (dt_dest t))))) s)
| T_dialError i p again t s :
    sv_gos s !! i = Some (TDial p, GDial again) -> ds_tasks (sv_dial s) !! p = Some t ->
    task_step cfg s (set_go i (TDial p)
      (if negb again && (has_flag (dt_flags t) staticDialedConn || has_flag (dt_flags t) storemanDialedConn) then GResolve else GReport []) s)
| T_again i p t now later found b t' s :
    sv_gos s !! i = Some (TDial p, GResolve) -> ds_tasks (sv_dial s) !! p = Some t ->
    found_ok found t -> resolve (negb (cf_NoDiscovery cfg)) now later found t = (b, t') ->
    task_step cfg s (set_go i (TDial p) (if b then GDial true else GReport []) (set_task p t' s))
| T_discover i p results s :
    sv_gos s !! i = Some (TDiscover p, GStart) -> task_step cfg s (set_go i (TDiscover p) (GReport results) s)
| T_wait i p d s :
    sv_gos s !! i = Some (TWait p d, GStart) -> task_step cfg s (set_go i (TWait p d) (GReport []) s)
| T_report t results l1 l2 s :
    sv_gos s = l1 ++ (t, GReport results) :: l2 -> (length (sv_done s) < maxActiveDialTasks)%nat ->
    task_step cfg s (with_tasklists (sv_running s) (sv_queued s) (sv_done s ++ [(t, results)]) (l1 ++ l2) s).

(** The listener, the goroutines of the peers, and [Stop]. *)
Inductive env_step (cfg : Config) : server -> server -> Prop :=
| L_slot n s : sv_listen s = LWait -> sv_slots s = S n -> env_step cfg s (with_listen (sv_pending s) n LAccept s)
| L_accept s :
    sv_listen s = LAccept -> env_step cfg s (with_listen (sv_pending s ++ [Some (new_setup inboundConn None)]) (sv_slots s) LWait s)
| L_reject s :
    sv_listen s = LAccept -> cf_NetRestrict cfg <> None -> env_step cfg s (with_listen (sv_pending s) (S (sv_slots s)) LWait s)
| L_error s : sv_listen s = LAccept -> env_step cfg s (with_listen (sv_pending s) (sv_slots s) LDone s)
| L_free l1 l2 s :
    sv_pending s = l1 ++ None :: l2 -> env_step cfg s (with_listen (l1 ++ l2) (S (sv_slots s)) (sv_listen s) s)
| P_returned c l1 l2 s :
    sv_runners s = l1 ++ (c, false) :: l2 ->
    env_step cfg s (with_peers (sv_peers s) (sv_inbound s) (l1 ++ (c, true) :: l2) s)
| V_stop s :
    sv_quit s = false ->
    env_step cfg s (closing s).

Inductive srv_step (cfg : Config) (s s' : server) : Prop :=
| Srv_run : run_step cfg s s' -> srv_step cfg s s'
| Srv_setup : setup_step cfg s s' -> srv_step cfg s s'
| Srv_task : task_step cfg s s' -> srv_step cfg s s'
| Srv_env : env_step cfg s s' -> srv_step cfg s s'.

(** ** Invariant *)

Definition dial_cfg (cfg : Config) : dial_config :=
  mk_dcfg (maxDialedConns cfg) (if cf_NoDiscovery cfg then None else Some (cf_ID cfg)) (cf_NetRestrict cfg).

(** The flags of a connection are those it started with, and perhaps the one for trusted nodes. *)
Definition flags_from (f : Z) (c : conn) : Prop := c_flags c = f \/ c_flags c = Z.lor f trustedConn.

(** A connection made by a dial task, after the encryption handshake to the node dialled. *)
Definition dial_setup (d : dialstate) (t : task) (su : setup) : Prop :=
  exists p tk, t = TDial p /\ ds_tasks d !! p = Some tk /\ su_dest su = Some (n_ID (dt_dest tk)) /\
    flags_from (dt_flags tk) (su_conn su) /\
    (su_stage su <> SuStart -> su_stage su <> SuEnc -> c_id (su_conn su) = n_ID (dt_dest tk)).

Definition inbound_setup (su : setup) : Prop := flags_from inboundConn (su_conn su) /\ su_dest su = None.

Definition pcount (P : conn -> bool) (m : peermap) : Z := Z.of_nat (size (filter (fun kv => P kv.2 = true) m)).

Definition ordinary (c : conn) : bool := negb (conn_is c (Z.lor trustedConn (Z.lor staticDialedConn storemanDialedConn))).
Definition untrusted_inbound (c : conn) : bool := negb (conn_is c trustedConn) && conn_is c inboundConn.

Definition flagged (m : gmap NodeID Z) (f : Z) : gset NodeID := dom (filter (fun kv => has_flag kv.2 f = true) m).

(** The nodes with a dynamic connection, made or being made. *)
Definition dyn_ids (s : server) : gset NodeID :=
  flagged (peer_flags (sv_peers s)) dynDialedConn ∪ flagged (ds_dialing (sv_dial s)) dynDialedConn.

Definition spinning (p : phase) : bool := match p with MSpin | MDone => true | _ => false end.

Record tasks_inv (cfg : Config) (s : server) : Prop := {
  ti_dial : dial_inv (sv_dial s) (sv_running s ++ sv_queued s);
  ti_cfg : ds_cfg (sv_dial s) = dial_cfg cfg;
  ti_running : sv_running s ≡ₚ (sv_gos s).*1 ++ (sv_done s).*1;
  ti_active : (length (sv_running s) <= maxActiveDialTasks)%nat;
  ti_gos : forall t su, (t, GSetup su) ∈ sv_gos s -> dial_setup (sv_dial s) t su;
  ti_pending : forall su, Some su ∈ sv_pending s -> inbound_setup su;
  ti_slots : (sv_slots s + length (sv_pending s) + match sv_listen s with LWait => 0 | _ => 1 end = pendingTokens cfg)%nat
}.

Record peers_inv (cfg : Config) (s : server) : Prop := {
  pi_keys : forall id c, sv_peers s !! id = Some c -> c_id c = id /\ id <> cf_ID cfg;
  pi_runners : (sv_runners s).*1 ≡ₚ (map_to_list (sv_peers s)).*2;
  pi_inbound : spinning (sv_phase s) = false -> sv_inbound s = pcount (fun c => conn_is c inboundConn) (sv_peers s);
  pi_ordinary : pcount ordinary (sv_peers s) <= Z.max 0 (cf_MaxPeers cfg);
  pi_untrusted : pcount untrusted_inbound (sv_peers s) <= Z.max 0 (maxInboundConns cfg);
  pi_dyn : Z.of_nat (size (dyn_ids s)) <= Z.max 0 (maxDialedConns cfg)
}.

(** ** Counting *)

Lemma elem_of_flagged m f id : id ∈ flagged m f <-> exists x, m !! id = Some x /\ has_flag x f = true.
Proof. unfold flagged. rewrite elem_of_dom. unfold is_Some. setoid_rewrite map_lookup_filter_Some. done. Qed.

Lemma size_flagged m f : Z.of_nat (size (flagged m f)) = count_flag m f.
Proof. unfold flagged, count_flag. by rewrite size_dom. Qed.

Lemma pcount_insert P m id c : m !! id = None -> pcount P (<[id := c]> m) = pcount P m + (if P c then 1 else 0).
Proof.
  intros Hm. unfold pcount. destruct (P c) eqn:E.
  - rewrite map_filter_insert_True by done. rewrite map_size_insert_None; [lia|]. apply map_lookup_filter_None. by left.
  - rewrite map_filter_insert_False by (cbn; congruence). rewrite delete_id by done. lia.
Qed.

Lemma pcount_delete P m id c : m !! id = Some c -> pcount P (delete id m) = pcount P m - (if P c then 1 else 0).
Proof.
  intros Hm. rewrite <- (insert_id m id c Hm) at 2. rewrite <- insert_delete_eq.
  rewrite pcount_insert by apply lookup_delete_eq. lia.
Qed.

Lemma pcount_delete_le P m id : pcount P (delete id m) <= pcount P m.
Proof.
  destruct (m !! id) as [c|] eqn:E; [|by rewrite delete_id]. rewrite (pcount_delete P m id c E). case_match; lia.
Qed.

Lemma pcount_le P m : 0 <= pcount P m <= Z.of_nat (size m).
Proof. unfold pcount. split; [lia|]. apply Nat2Z.inj_le, map_subseteq_size, map_filter_subseteq. Qed.

Lemma pcount_mono (P Q : conn -> bool) m : (forall c, P c = true -> Q c = true) -> pcount P m <= pcount Q m.
Proof.
  intros H. unfold pcount. apply Nat2Z.inj_le, map_subseteq_size. apply map_filter_strong_subseteq_ext.
  intros id c [Hp Hm]. split; [|done]. by apply H.
Qed.

Lemma size_le_mono (X Y : gset NodeID) : X ⊆ Y -> Z.of_nat (size X) <= Z.of_nat (size Y).
Proof. intros H. by apply Nat2Z.inj_le, subseteq_size. Qed.

Lemma has_flag_trusted f g : Z.land trustedConn g = 0 -> has_flag (Z.lor f trustedConn) g = has_flag f g.
Proof. intros H. unfold has_flag. rewrite Z.land_lor_distr_l, H, Z.lor_0_r. done. Qed.

Lemma flags_from_flag f g c : flags_from f c -> Z.land trustedConn g = 0 -> has_flag (c_flags c) g = has_flag f g.
Proof. intros [->| ->] Hg; [done|by apply has_flag_trusted]. Qed.

Lemma flags_from_trusted cfg f c : flags_from f c -> flags_from f (mark_trusted cfg c).
Proof.
  unfold mark_trusted. case_decide; [|done]. intros [E|E]; right; cbn; rewrite E; [done|].
  by rewrite <- Z.lor_assoc, Z.lor_diag.
Qed.

Lemma mark_trusted_id cfg c : c_id (mark_trusted cfg c) = c_id c.
Proof. unfold mark_trusted. by case_decide. Qed.

(** ** Scheduling *)

Lemma startTasks_spec ts s rest s' :
  startTasks ts s = (rest, s') -> (length (sv_running s) <= maxActiveDialTasks)%nat ->
  sv_running s ≡ₚ (sv_gos s).*1 ++ (sv_done s).*1 ->
  sv_running s' ++ rest = sv_running s ++ ts /\ sv_running s' ≡ₚ (sv_gos s').*1 ++ (sv_done s').*1 /\
  (length (sv_running s') <= maxActiveDialTasks)%nat /\
  (forall t su, (t, GSetup su) ∈ sv_gos s' -> (t, GSetup su) ∈ sv_gos s) /\
  ((length (sv_running s') < maxActiveDialTasks)%nat -> rest = []) /\
  s' = with_tasklists (sv_running s') (sv_queued s) (sv_done s) (sv_gos s') s.
Proof.
  intros E Hl Hp. unfold startTasks in E. injection E as <- <-. cbn [sv_running sv_gos sv_done with_tasklists].
  split_and!.
  - by rewrite <- app_assoc, take_drop.
  - rewrite fmap_app, <- list_fmap_compose. change (fst ∘ (fun t => (t, GStart))) with (@id task).
    rewrite list_fmap_id. set (k := take _ ts). clearbody k. rewrite Hp, <- !app_assoc. f_equiv. apply Permutation_app_comm.
  - rewrite length_app, length_take. lia.
  - intros t su [H|H]%elem_of_app; [done|]. by apply list_elem_of_fmap in H as (? & ? & _).
  - rewrite length_app, length_take. intros H. apply drop_ge. lia.
  - done.
Qed.

(** The store of tasks only grows, and a task keeps its node and its flags. *)
Definition tasks_le (d d' : dialstate) : Prop :=
  forall p tk, ds_tasks d !! p = Some tk -> exists tk', ds_tasks d' !! p = Some tk' /\
    n_ID (dt_dest tk') = n_ID (dt_dest tk) /\ dt_flags tk' = dt_flags tk.

#[global] Instance tasks_le_preorder : PreOrder tasks_le.
Proof.
  split; [intros d p tk H; by exists tk|]. intros d1 d2 d3 H1 H2 p tk H.
  destruct (H1 _ _ H) as (t2 & Ht2 & E1 & E2). destruct (H2 _ _ Ht2) as (t3 & Ht3 & E3 & E4).
  exists t3. split_and!; congruence.
Qed.

Lemma tasks_le_same d d' : (forall p tk, ds_tasks d !! p = Some tk -> ds_tasks d' !! p = Some tk) -> tasks_le d d'.
Proof. intros H p tk Ht. exists tk. by split; [apply H|]. Qed.

Lemma dial_setup_le d d' t su : tasks_le d d' -> dial_setup d t su -> dial_setup d' t su.
Proof.
  intros Hle (p & tk & -> & Ht & Hd & Hf & Hid). destruct (Hle _ _ Ht) as (tk' & Ht' & E1 & E2).
  exists p, tk'. rewrite E1, E2. by split_and!.
Qed.

Lemma maxDialed_NoDiscovery cfg : dc_self (dial_cfg cfg) = None -> dc_maxDynDials (dial_cfg cfg) < 2.
Proof. unfold dial_cfg, maxDialedConns. cbn. destruct (cf_NoDiscovery cfg); [|done]. cbn. lia. Qed.

(** Everything but the tasks. *)
Definition same_rest (s s' : server) : Prop :=
  sv_phase s' = sv_phase s /\ sv_quit s' = sv_quit s /\ sv_peers s' = sv_peers s /\ sv_inbound s' = sv_inbound s /\
  sv_pending s' = sv_pending s /\ sv_slots s' = sv_slots s /\ sv_listen s' = sv_listen s /\ sv_runners s' = sv_runners s.

Lemma scheduleTasks_spec cfg read so sto now s :
  tasks_inv cfg s -> reader_ok read ->
  exists s', scheduleTasks read so sto now s = Ret s' /\ tasks_inv cfg s' /\ same_rest s s' /\
    (sv_dial s' = sv_dial s \/
     exists nt, new_tasks_ok (sv_running s ++ sv_queued s) (peer_flags (sv_peers s)) now (sv_dial s) nt (sv_dial s')).
Proof.
  intros Hi Hr. unfold scheduleTasks. destruct (startTasks (sv_queued s) s) as [rest s1] eqn:E1.
  destruct (startTasks_spec _ _ _ _ E1 (ti_active _ _ Hi) (ti_running _ _ Hi)) as (A1 & A2 & A3 & A4 & A5 & A6).
  set (r1 := sv_running s1) in *. set (g1 := sv_gos s1) in *. clearbody r1 g1. subst s1. cbn [sv_done with_tasklists] in A2.
  destruct Hi as [H1 H2 _ _ H5 H6 H7].
  cbn [set_queued sv_running sv_queued sv_done sv_gos sv_dial sv_peers with_tasklists].
  assert (tasks_inv cfg (with_tasklists r1 rest (sv_done s) g1 s)) as Hi1.
  { split; cbn; try done; [by rewrite A1|]. intros t su Hsu. by apply H5, A4. }
  case_decide as Hlt; [|eexists; split_and!; [done|exact Hi1|done|by left]].
  rewrite (A5 Hlt) in *. cbn [length]. rewrite app_nil_r in A1.
  destruct (newTasks_spec read so sto (length r1 + 0) (peer_flags (sv_peers s)) now (sv_dial s) _ H1 Hr) as (nt & d & E & Hok & _).
  { rewrite H2. apply maxDialed_NoDiscovery. }
  rewrite E, Ret_bind. match goal with |- context [startTasks nt ?x] => destruct (startTasks nt x) as [rest2 s2] eqn:E2; set (sx := x) in * end.
  destruct (startTasks_spec _ _ _ _ E2) as (B1 & B2 & B3 & B4 & _ & B6); [apply Hi1|apply Hi1|].
  set (r2 := sv_running s2) in *. set (g2 := sv_gos s2) in *. clearbody r2 g2. subst s2 sx.
  cbn [set_queued sv_running sv_queued sv_done sv_gos sv_dial sv_peers with_tasklists with_dial app] in *.
  eexists. split; [done|]. split; [|split; [done|right; by exists nt]].
  split; cbn [set_queued sv_running sv_queued sv_done sv_gos sv_dial sv_peers sv_pending sv_slots sv_listen with_tasklists with_dial]; try done.
  - rewrite B1, A1. apply Hok.
  - by rewrite (nt_cfg _ _ _ _ _ _ Hok).
  - intros t su Hsu. eapply dial_setup_le; [|by apply H5, A4, B4]. apply tasks_le_same, Hok.
Qed.

(** ** Preservation: tasks *)

(** Changes of the nodes to keep connected. *)
Definition dial_op (d d' : dialstate) : Prop :=
  (forall a, dial_inv d a -> dial_inv d' a /\ tasks_le d d') /\ ds_cfg d' = ds_cfg d /\ ds_dialing d' = ds_dialing d.

#[global] Instance dial_op_preorder : PreOrder dial_op.
Proof.
  split; [done|]. intros d1 d2 d3 (H1 & H2 & H3) (K1 & K2 & K3). split; [|by rewrite K2, K3].
  intros a Ha. destruct (H1 a Ha) as [Hb L1]. destruct (K1 a Hb) as [Hc L2]. split; [done|by etrans].
Qed.

Lemma new_dial_le flag n d a : dial_inv d a -> tasks_le d (new_dial flag n d).2.
Proof.
  intros Hi. apply tasks_le_same. intros p tk Hp. cbn. rewrite lookup_insert_ne; [done|].
  intros <-. pose proof (di_fresh _ _ Hi (ds_next d) ltac:(by exists tk)). lia.
Qed.

Lemma addStatic_op n d : dial_op d (addStatic n d).
Proof. split; [|done]. intros a Ha. split; [by apply addStatic_inv|]. exact (new_dial_le staticDialedConn n d a Ha). Qed.

Lemma removeStatic_op n d : dial_op d (removeStatic n d).
Proof. split; [|done]. intros a Ha. split; [by apply removeStatic_inv|by apply tasks_le_same]. Qed.

Lemma removeStoreman_op n d : dial_op d (removeStoreman n d).
Proof. split; [|done]. intros a Ha. split; [by apply removeStoreman_inv|by apply tasks_le_same]. Qed.

Lemma addStoreman_op n d : dial_op d (addStoreman n d).
Proof.
  split.
  - intros a Ha. split; [by apply addStoreman_inv|]. unfold addStoreman.
    destruct (_ ≫= _); [case_decide; [|by apply tasks_le_same]|]; exact (new_dial_le storemanDialedConn n d a Ha).
  - unfold addStoreman. destruct (_ ≫= _); [case_decide|]; done.
Qed.

Lemma iter_op (f : dialstate -> dialstate) k d : (forall d, dial_op d (f d)) -> dial_op d (Nat.iter k f d).
Proof. intros Hf. induction k as [|k IH]; [done|]. cbn. etrans; [exact IH|apply Hf]. Qed.

Lemma on_addstatic_op cfg n d : dial_op d (on_addstatic cfg n d).
Proof. unfold on_addstatic. case_match; [apply addStatic_op|]. apply iter_op. intros. apply addStoreman_op. Qed.

Lemma on_removestatic_op cfg n d : dial_op d (on_removestatic cfg n d).
Proof. unfold on_removestatic. case_match; [apply removeStatic_op|]. apply iter_op. intros. apply removeStoreman_op. Qed.

Lemma with_dial_tasks_inv cfg d s :
  tasks_inv cfg s -> dial_inv d (sv_running s ++ sv_queued s) -> ds_cfg d = ds_cfg (sv_dial s) -> tasks_le (sv_dial s) d ->
  tasks_inv cfg (with_dial d s).
Proof.
  intros [H1 H2 H3 H4 H5 H6 H7] Hd Hc Hle. split; cbn; try done; [congruence|].
  intros t su Hsu. eapply dial_setup_le; [done|by apply H5].
Qed.

Lemma dial_op_tasks_inv cfg d s : tasks_inv cfg s -> dial_op (sv_dial s) d -> tasks_inv cfg (with_dial d s).
Proof.
  intros Hi (H1 & H2 & H3). destruct (H1 _ (ti_dial _ _ Hi)). by apply with_dial_tasks_inv.
Qed.

Lemma with_phase_tasks_inv cfg p s : tasks_inv cfg s -> tasks_inv cfg (with_phase p s).
Proof. by intros []. Qed.

Lemma with_peers_tasks_inv cfg m n r s : tasks_inv cfg s -> tasks_inv cfg (with_peers m n r s).
Proof. by intros []. Qed.

Lemma closing_tasks_inv cfg s : tasks_inv cfg s -> tasks_inv cfg (closing s).
Proof. by intros []. Qed.

(** The properties of a connection a step of its set-up has to keep. *)
Definition setup_keeps (d : dialstate) (su : setup) (o : option setup) : Prop :=
  forall su', o = Some su' -> (forall t, dial_setup d t su -> dial_setup d t su') /\ (inbound_setup su -> inbound_setup su').

Lemma put_setup_tasks_inv cfg w su o s :
  tasks_inv cfg s -> get_setup s w = Some su -> setup_keeps (sv_dial s) su o -> tasks_inv cfg (put_setup w o s).
Proof.
  intros [H1 H2 H3 H4 H5 H6 H7] Hg Hk. destruct w as [i|i]; cbn [get_setup put_setup] in *.
  - destruct (sv_gos s !! i) as [[t [| |su0| |]]|] eqn:E; try done. injection Hg as ->.
    split; cbn; try done.
    + rewrite list_fmap_insert. cbn. rewrite list_insert_id; [done|]. by rewrite list_lookup_fmap, E.
    + intros t' su' [j Hj]%list_elem_of_lookup. apply list_lookup_insert_Some in Hj as [(<- & Heq & _)|[_ Hj]].
      * injection Heq as <- Hsu. destruct o as [su2|]; [|done]. injection Hsu as ->.
        apply (Hk su' eq_refl), H5. by eapply list_elem_of_lookup_2.
      * apply H5. by eapply list_elem_of_lookup_2.
  - destruct (sv_pending s !! i) as [[su0|]|] eqn:E; try done. injection Hg as ->.
    split; cbn; try done; [|by rewrite length_insert].
    intros su' [j Hj]%list_elem_of_lookup. apply list_lookup_insert_Some in Hj as [(<- & Heq & _)|[_ Hj]].
    + apply (Hk su'); [done|]. apply H6. by eapply list_elem_of_lookup_2.
    + apply H6. by eapply list_elem_of_lookup_2.
Qed.

Lemma setup_keeps_None d su : setup_keeps d su None.
Proof. by intros su'. Qed.

(** A change of the stage and of the connection. *)
Lemma setup_keeps_conn d su st c :
  (forall f, flags_from f (su_conn su) -> flags_from f c) ->
  (forall id, su_dest su = Some id -> st <> SuStart -> st <> SuEnc ->
     (su_stage su <> SuStart -> su_stage su <> SuEnc -> c_id (su_conn su) = id) -> c_id c = id) ->
  setup_keeps d su (Some (mk_setup c (su_dest su) st)).
Proof.
  intros Hf Hid su' [= <-]. split.
  - intros t (p & tk & -> & Ht & Hd & Hfl & Hc). exists p, tk. cbn. split_and!; try done; [by apply Hf|].
    intros Hs1 Hs2. by apply Hid.
  - intros [H1 H2]. split; [by apply Hf|done].
Qed.

Lemma delTask_perm t l : t ∈ l -> l ≡ₚ t :: delTask t l.
Proof.
  induction l as [|x l IH]; [by intros ?%elem_of_nil|]. cbn. case_decide as Hx; [by subst|].
  intros [->|Hin]%elem_of_cons; [done|]. rewrite (IH Hin) at 1. apply perm_swap.
Qed.

Lemma taskDone_frame t results now d :
  ds_cfg (taskDone t results now d) = ds_cfg d /\ ds_tasks (taskDone t results now d) = ds_tasks d /\
  ds_dialing (taskDone t results now d) ⊆ ds_dialing d.
Proof.
  destruct t as [p|p|p w]; cbn [taskDone]; try done. destruct (ds_tasks d !! p); [|done].
  split_and!; try done. cbn. apply delete_subseteq.
Qed.

Lemma on_taskdone_inv cfg t results now rest s :
  tasks_inv cfg s -> sv_done s = (t, results) :: rest -> tasks_inv cfg (on_taskdone t results now rest s).
Proof.
  intros [H1 H2 H3 H4 H5 H6 H7] Hd.
  assert (t ∈ sv_running s) as Hin by (rewrite H3, Hd; cbn; set_solver).
  pose proof (delTask_perm _ _ Hin) as Hp. destruct (taskDone_frame t results now (sv_dial s)) as (E1 & E2 & _).
  unfold on_taskdone. set (r := delTask t (sv_running s)) in *. clearbody r. split; cbn; try done.
  - apply taskDone_inv. eapply dial_inv_perm; [|done]. by rewrite Hp.
  - by rewrite E1.
  - apply (Permutation_cons_inv (a := t)). rewrite <- Hp, H3, Hd. cbn. by rewrite Permutation_middle.
  - apply Permutation_length in Hp. cbn in Hp. lia.
  - intros t' su Hsu. eapply dial_setup_le; [|by apply H5]. apply tasks_le_same. by rewrite E2.
Qed.

Lemma run_step_tasks cfg s s' : run_step cfg s s' -> tasks_inv cfg s -> tasks_inv cfg s'.
Proof.
  intros H Hi. destruct H; try apply with_phase_tasks_inv.
  - destruct (scheduleTasks_spec cfg read so sto now s Hi) as (s2 & E & Hi2 & _); [done|].
    rewrite E in H1. by injection H1 as <-.
  - done.
  - apply dial_op_tasks_inv; [done|apply on_addstatic_op].
  - apply dial_op_tasks_inv; [done|apply on_removestatic_op].
  - by apply on_taskdone_inv.
  - eapply put_setup_tasks_inv; [done..|]. destruct (encHandshakeChecks _ _ _ _); [apply setup_keeps_None|].
    apply (setup_keeps_conn _ su SuProto c); [intros f; apply flags_from_trusted|]. intros id Hid _ _ Hc.
    unfold c. rewrite mark_trusted_id. apply Hc; by rewrite H1.
  - eapply put_setup_tasks_inv; [done..|]. apply (setup_keeps_conn _ su (su_stage su) c); [intros f; apply flags_from_trusted|].
    intros id Hid Hs1 Hs2 Hc. unfold c. rewrite mark_trusted_id. by apply Hc.
  - eapply put_setup_tasks_inv; [|destruct w; by case_match|apply setup_keeps_None]. case_match; [done|].
    by apply with_peers_tasks_inv.
  - done.
  - eapply put_setup_tasks_inv; [done..|apply setup_keeps_None].
  - eapply put_setup_tasks_inv; [|by destruct w; repeat case_match|apply setup_keeps_None].
    apply closing_tasks_inv. destruct (su_stage su); try done. case_match; [done|]. by apply with_peers_tasks_inv.
  - by apply with_peers_tasks_inv.
  - by apply with_peers_tasks_inv.
  - done.
Qed.

Lemma setup_step_tasks cfg s s' : setup_step cfg s s' -> tasks_inv cfg s -> tasks_inv cfg s'.
Proof.
  intros H Hi. destruct H; (eapply put_setup_tasks_inv; [done..|]); try apply setup_keeps_None.
  - by apply (setup_keeps_conn _ su SuEnc (su_conn su)).
  - case_decide as Hd; [|apply setup_keeps_None]. apply (setup_keeps_conn _ su SuPost c); [done|].
    intros i Hi' _ _ _. rewrite Hi' in Hd. by cbn in Hd.
  - case_decide as Hd; [|apply setup_keeps_None]. apply (setup_keeps_conn _ su SuAdd c); [done|].
    intros i Hi' _ _ Hc. cbn. apply Hc; by rewrite H0.
Qed.

Lemma set_go_tasks_inv cfg i t pc0 pc s :
  tasks_inv cfg s -> sv_gos s !! i = Some (t, pc0) -> (forall su, pc = GSetup su -> dial_setup (sv_dial s) t su) ->
  tasks_inv cfg (set_go i t pc s).
Proof.
  intros [H1 H2 H3 H4 H5 H6 H7] E Hpc. split; cbn; try done.
  - rewrite list_fmap_insert. cbn. rewrite list_insert_id; [done|]. by rewrite list_lookup_fmap, E.
  - intros t' su' [j Hj]%list_elem_of_lookup. apply list_lookup_insert_Some in Hj as [(<- & Heq & _)|[_ Hj]].
    + injection Heq as <- Hsu. by apply Hpc.
    + apply H5. by eapply list_elem_of_lookup_2.
Qed.

Lemma set_task_tasks_inv cfg p t t' s :
  tasks_inv cfg s -> ds_tasks (sv_dial s) !! p = Some t -> n_ID (dt_dest t') = n_ID (dt_dest t) -> dt_flags t' = dt_flags t ->
  tasks_inv cfg (set_task p t' s).
Proof.
  intros Hi Ht E1 E2. apply with_dial_tasks_inv; [done|by eapply retarget_inv; [apply Hi|..]|done|].
  intros q tk Hq. cbn. destruct (decide (p = q)) as [<-|Hne].
  - exists t'. rewrite lookup_insert_eq. rewrite Ht in Hq. by injection Hq as <-.
  - exists tk. by rewrite lookup_insert_ne.
Qed.

Lemma task_step_tasks cfg s s' : task_step cfg s s' -> tasks_inv cfg s -> tasks_inv cfg s'.
Proof.
  intros H Hi. destruct H.
  - apply resolve_same in H3 as [E1 E2]; [|done].
    eapply set_go_tasks_inv; [by eapply set_task_tasks_inv|done|by destruct b].
  - by eapply set_go_tasks_inv.
  - eapply set_go_tasks_inv; [done..|]. intros su [= <-]. exists p, t. by repeat split; try left.
  - eapply set_go_tasks_inv; [done..|]. by case_match.
  - apply resolve_same in H2 as [E1 E2]; [|done].
    eapply set_go_tasks_inv; [by eapply set_task_tasks_inv|done|by destruct b].
  - by eapply set_go_tasks_inv.
  - by eapply set_go_tasks_inv.
  - destruct Hi as [H1 H2 H3 H4 H5 H6 H7]. split; cbn; try done.
    + rewrite H3, H, !fmap_app. cbn. rewrite <- !app_assoc. f_equiv.
      rewrite (Permutation_app_comm _ [t]). cbn. rewrite Permutation_middle. done.
    + intros t' su Hsu. apply H5. rewrite H. set_solver.
Qed.

Lemma env_step_tasks cfg s s' : env_step cfg s s' -> tasks_inv cfg s -> tasks_inv cfg s'.
Proof.
  intros H [H1 H2 H3 H4 H5 H6 H7]. destruct H; split; cbn; try done; rewrite ?length_app in *; cbn [length] in *.
  - rewrite H, H0 in H7. lia.
  - intros su. rewrite elem_of_app, list_elem_of_singleton. intros [Hs|[= ->]]; [by apply H6|].
    split; [by left|done].
  - rewrite H in H7. lia.
  - rewrite H in H7. lia.
  - by rewrite H in H7.
  - intros su Hsu. apply H6. rewrite H. set_solver.
  - rewrite H, length_app in H7. cbn in H7. lia.
Qed.

(** ** Preservation: peers *)

Lemma peers_inv_frame cfg s s' :
  peers_inv cfg s -> sv_peers s' = sv_peers s -> (sv_runners s').*1 = (sv_runners s).*1 -> sv_inbound s' = sv_inbound s ->
  (spinning (sv_phase s') = false -> spinning (sv_phase s) = false) ->
  flagged (ds_dialing (sv_dial s')) dynDialedConn ⊆ flagged (ds_dialing (sv_dial s)) dynDialedConn ->
  peers_inv cfg s'.
Proof.
  intros [H1 H2 H3 H4 H5 H6] E1 E2 E3 E4 E5. split; rewrite ?E1, ?E2, ?E3; try done; [by intros ?%E4; apply H3|].
  etrans; [|exact H6]. apply size_le_mono. unfold dyn_ids. rewrite E1. set_solver.
Qed.

Lemma put_setup_frame w o s :
  let s' := put_setup w o s in
  sv_peers s' = sv_peers s /\ sv_runners s' = sv_runners s /\ sv_inbound s' = sv_inbound s /\ sv_phase s' = sv_phase s /\
  sv_dial s' = sv_dial s /\ sv_quit s' = sv_quit s.
Proof. destruct w; cbn; [|done]. destruct (sv_gos s !! i) as [[]|]; done. Qed.

Lemma flagged_mono m m' f : m ⊆ m' -> flagged m f ⊆ flagged m' f.
Proof. intros H id. rewrite !elem_of_flagged. intros (x & Hx & Hf). exists x. split; [by eapply lookup_weaken|done]. Qed.

(** New tasks do not make more dynamic connections than configured. *)
Lemma new_tasks_dyn cfg active peers now d nt d' :
  new_tasks_ok active peers now d nt d' -> ds_cfg d = dial_cfg cfg ->
  Z.of_nat (size (flagged peers dynDialedConn ∪ flagged (ds_dialing d) dynDialedConn)) <= Z.max 0 (maxDialedConns cfg) ->
  Z.of_nat (size (flagged peers dynDialedConn ∪ flagged (ds_dialing d') dynDialedConn)) <= Z.max 0 (maxDialedConns cfg).
Proof.
  intros Hok Hc Hle. pose proof (nt_count _ _ _ _ _ _ Hok) as Hn. rewrite Hc in Hn. cbn [dial_cfg dc_maxDynDials] in Hn.
  assert (flagged (ds_dialing d) dynDialedConn ⊆ flagged (ds_dialing d') dynDialedConn) as Hsub.
  { intros id. rewrite !elem_of_flagged. intros (x & Hx & Hf). exists x. split; [by apply (nt_grow _ _ _ _ _ _ Hok)|done]. }
  destruct (Z.le_gt_cases (count_flag (ds_dialing d') dynDialedConn) (count_flag (ds_dialing d) dynDialedConn)) as [H|H].
  - rewrite <- !size_flagged in H. rewrite <- (set_subseteq_size_eq _ _ Hsub) by lia. done.
  - assert (count_flag peers dynDialedConn + count_flag (ds_dialing d') dynDialedConn <= maxDialedConns cfg) as Hs by lia.
    rewrite <- !size_flagged in Hs. rewrite size_union_alt.
    pose proof (subseteq_size (flagged (ds_dialing d') dynDialedConn ∖ flagged peers dynDialedConn) (flagged (ds_dialing d') dynDialedConn)
      ltac:(set_solver)). lia.
Qed.

Lemma proto_checks_None cfg peers n c :
  protoHandshakeChecks cfg peers n c = None ->
  peers !! c_id c = None /\ c_id c <> cf_ID cfg /\ (ordinary c = true -> Z.of_nat (size peers) < cf_MaxPeers cfg) /\
  (untrusted_inbound c = true -> n < maxInboundConns cfg).
Proof.
  unfold protoHandshakeChecks, encHandshakeChecks, checks_before_Self, ordinary, untrusted_inbound. intros E.
  destruct (negb (bool_decide _) && _); [done|]. destruct (negb (conn_is c (Z.lor _ _))) eqn:Eo; cbn [andb] in E.
  all: destruct (negb (conn_is c trustedConn) && conn_is c inboundConn) eqn:Eu; cbn [andb] in E.
  all: destruct (Z.leb_spec (cf_MaxPeers cfg) (Z.of_nat (size peers))); try done.
  all: destruct (Z.leb_spec (maxInboundConns cfg) n); try done.
  all: case_decide as Hp; [done|]; apply eq_None_not_Some in Hp; case_decide; [done|]; split_and!; try done; lia.
Qed.

(** The nodes whose connections are made by dial tasks are being dialled. *)
Lemma dialled_setup cfg s w su :
  tasks_inv cfg s -> get_setup s w = Some su -> su_stage su = SuAdd -> has_flag (c_flags (su_conn su)) dynDialedConn = true ->
  c_id (su_conn su) ∈ flagged (ds_dialing (sv_dial s)) dynDialedConn.
Proof.
  intros Hi Hg Hst Hf. destruct w as [i|i]; cbn [get_setup] in Hg.
  - destruct (sv_gos s !! i) as [[t [| |su0| |]]|] eqn:E; try done. injection Hg as ->.
    apply list_elem_of_lookup_2 in E. destruct (ti_gos _ _ Hi t su E) as (p & tk & -> & Ht & _ & Hfl & Hid).
    assert (TDial p ∈ sv_running s ++ sv_queued s) as Hin.
    { apply elem_of_app. left. rewrite (ti_running _ _ Hi). apply elem_of_app. left.
      by apply (list_elem_of_fmap_2 fst) in E. }
    destruct (di_active _ _ (ti_dial _ _ Hi) p Hin) as (tk' & Ht' & Hd). rewrite Ht in Ht'. injection Ht' as <-.
    rewrite Hid by (by rewrite Hst). apply elem_of_flagged. exists (dt_flags tk). split; [done|].
    by rewrite <- (flags_from_flag _ _ _ Hfl).
  - destruct (sv_pending s !! i) as [[su0|]|] eqn:E; try done. injection Hg as ->.
    apply list_elem_of_lookup_2 in E. apply (ti_pending _ _ Hi) in E as [Hfl _].
    rewrite (flags_from_flag _ _ _ Hfl) in Hf by done. done.
Qed.

Lemma flagged_insert_peer m id c f :
  flagged (peer_flags (<[id := c]> m)) f ⊆ flagged (peer_flags m) f ∪ (if has_flag (c_flags c) f then {[id]} else ∅).
Proof.
  intros i. rewrite elem_of_union, !elem_of_flagged. unfold peer_flags. rewrite fmap_insert. intros (x & Hx & Hf).
  apply lookup_insert_Some in Hx as [[<- <-]|[_ Hx]]; [right; rewrite Hf; set_solver|left; by exists x].
Qed.

Lemma add_peer_inv cfg s w su :
  tasks_inv cfg s -> peers_inv cfg s -> spinning (sv_phase s) = false ->
  get_setup s w = Some su -> su_stage su = SuAdd ->
  protoHandshakeChecks cfg (sv_peers s) (sv_inbound s) (su_conn su) = None -> peers_inv cfg (add_peer (su_conn su) s).
Proof.
  intros Ht [H1 H2 H3 H4 H5 H6] Hph Hg Hst Hc. apply proto_checks_None in Hc as (Hn & Hself & Ho & Hu).
  set (c := su_conn su) in *. split; cbn [add_peer with_peers sv_peers sv_runners sv_inbound sv_phase].
  - intros id c' [[<- <-]|[_ Hc']]%lookup_insert_Some; [done|by apply H1].
  - rewrite fmap_app, H2, map_to_list_insert by done. cbn. symmetry. apply Permutation_cons_append.
  - intros _. rewrite pcount_insert, H3 by done. by destruct (conn_is c inboundConn); lia.
  - rewrite pcount_insert by done. destruct (ordinary c); [|lia]. specialize (Ho eq_refl).
    pose proof (pcount_le ordinary (sv_peers s)). lia.
  - rewrite pcount_insert by done. destruct (untrusted_inbound c) eqn:Eu; [|lia]. specialize (Hu eq_refl).
    rewrite H3 in Hu by done.
    pose proof (pcount_mono untrusted_inbound (fun c => conn_is c inboundConn) (sv_peers s)) as Hm.
    assert (pcount untrusted_inbound (sv_peers s) <= pcount (fun c => conn_is c inboundConn) (sv_peers s)).
    { apply Hm. intros c'. unfold untrusted_inbound. by intros [_ ?]%andb_true_iff. }
    lia.
  - etrans; [|exact H6]. apply size_le_mono. unfold dyn_ids. cbn [sv_peers sv_dial add_peer with_peers].
    pose proof (flagged_insert_peer (sv_peers s) (c_id c) c dynDialedConn) as Hf.
    destruct (has_flag (c_flags c) dynDialedConn) eqn:Ef; [|set_solver].
    pose proof (dialled_setup cfg s w su Ht Hg Hst Ef). set_solver.
Qed.

Lemma runner_peer cfg s c b l1 l2 :
  peers_inv cfg s -> sv_runners s = l1 ++ (c, b) :: l2 ->
  sv_peers s !! c_id c = Some c /\ (l1 ++ l2).*1 ≡ₚ (map_to_list (delete (c_id c) (sv_peers s))).*2.
Proof.
  intros [H1 H2 _ _ _ _] E. rewrite E, fmap_app, fmap_cons in H2. cbn [fst] in H2.
  assert (c ∈ (map_to_list (sv_peers s)).*2) as Hin by (rewrite <- H2; set_solver).
  apply list_elem_of_fmap in Hin as ([id c'] & -> & Hin). apply elem_of_map_to_list in Hin. cbn [snd] in *.
  destruct (H1 id c' Hin) as [-> _]. split; [done|].
  rewrite <- (map_to_list_delete _ _ _ Hin) in H2. cbn in H2. rewrite <- Permutation_middle in H2.
  apply Permutation_cons_inv in H2. by rewrite fmap_app.
Qed.

Lemma flagged_delete_peer m id f : flagged (peer_flags (delete id m)) f ⊆ flagged (peer_flags m) f.
Proof. apply flagged_mono. unfold peer_flags. rewrite fmap_delete. apply delete_subseteq. Qed.

Lemma with_peers_delete_inv cfg s c b l1 l2 n :
  peers_inv cfg s -> sv_runners s = l1 ++ (c, b) :: l2 ->
  (spinning (sv_phase s) = false -> n = pcount (fun c => conn_is c inboundConn) (delete (c_id c) (sv_peers s))) ->
  peers_inv cfg (with_peers (delete (c_id c) (sv_peers s)) n (l1 ++ l2) s).
Proof.
  intros Hi E Hn. destruct (runner_peer _ _ _ _ _ _ Hi E) as [Hc Hp]. destruct Hi as [H1 H2 H3 H4 H5 H6].
  split; cbn [with_peers sv_peers sv_runners sv_inbound sv_phase]; try done.
  - intros id c' [_ Hc']%lookup_delete_Some. by apply H1.
  - etrans; [apply pcount_delete_le|done].
  - etrans; [apply pcount_delete_le|done].
  - etrans; [|exact H6]. apply size_le_mono. unfold dyn_ids. cbn [sv_peers sv_dial with_peers].
    pose proof (flagged_delete_peer (sv_peers s) (c_id c) dynDialedConn). set_solver.
Qed.

Lemma put_setup_peers_inv cfg w o ph s :
  peers_inv cfg s -> (spinning ph = false -> spinning (sv_phase s) = false) -> peers_inv cfg (with_phase ph (put_setup w o s)).
Proof.
  intros Hi Hp. destruct (put_setup_frame w o s) as (E1 & E2 & E3 & E4 & E5 & _).
  eapply peers_inv_frame; [exact Hi|..]; cbn [with_phase sv_peers sv_runners sv_inbound sv_phase sv_dial]; rewrite ?E1, ?E2, ?E3, ?E5; done.
Qed.

Lemma run_step_peers cfg s s' : run_step cfg s s' -> tasks_inv cfg s -> peers_inv cfg s -> peers_inv cfg s'.
Proof.
  intros H Ht Hi. destruct H.
  - destruct (scheduleTasks_spec cfg read so sto now s Ht) as (s2 & E & _ & (Ep & Eq & E1 & E2 & _ & _ & _ & E3) & Hd); [done|].
    rewrite E in H1. injection H1 as <-. destruct Hi as [K1 K2 K3 K4 K5 K6].
    split; cbn [with_phase sv_peers sv_runners sv_inbound sv_phase sv_dial]; rewrite ?E1, ?E2, ?E3; try done.
    + intros _. apply K3. by rewrite H.
    + unfold dyn_ids in *. cbn [with_phase sv_peers sv_dial]. rewrite E1.
      destruct Hd as [->|(nt & Hok)]; [done|]. eapply new_tasks_dyn; [done|apply Ht|done].
  - eapply peers_inv_frame; [done..|]. done.
  - eapply peers_inv_frame; [done..| |]; cbn; [by rewrite H|]. by rewrite (proj2 (proj2 (on_addstatic_op cfg n (sv_dial s)))).
  - eapply peers_inv_frame; [done..| |]; cbn; [by rewrite H|]. by rewrite (proj2 (proj2 (on_removestatic_op cfg n (sv_dial s)))).
  - eapply peers_inv_frame; [done..| |]; cbn; [by rewrite H|]. apply flagged_mono, taskDone_frame.
  - apply put_setup_peers_inv; [done|by rewrite H].
  - apply put_setup_peers_inv; [done|by rewrite H].
  - apply put_setup_peers_inv; [|case_match; cbn; by rewrite H]. case_match; [done|].
    eapply add_peer_inv; [done|done|by rewrite H|done..].
  - eapply peers_inv_frame; [done..| |done]. by rewrite H.
  - by apply put_setup_peers_inv.
  - apply put_setup_peers_inv; [|done]. destruct (su_stage su) eqn:Est; try by eapply peers_inv_frame.
    case_match; [by eapply peers_inv_frame|]. apply (peers_inv_frame cfg (add_peer (su_conn su) s)); [|done..].
    eapply add_peer_inv; [done|done|by rewrite H|done..].
  - destruct (runner_peer _ _ _ _ _ _ Hi H0) as [Hc _].
    eapply (peers_inv_frame _ (del_peer c (l1 ++ l2) s)); [|done..| |done]; [|cbn; by rewrite H].
    eapply with_peers_delete_inv; [done..|]. intros Hs. rewrite (pcount_delete _ _ _ _ Hc), <- (pi_inbound _ _ Hi Hs).
    destruct (conn_is c inboundConn); lia.
  - eapply with_peers_delete_inv; [done..|]. by rewrite H.
  - by eapply peers_inv_frame.
Qed.

Lemma setup_step_peers cfg s s' : setup_step cfg s s' -> peers_inv cfg s -> peers_inv cfg s'.
Proof.
  intros H Hi.
  assert (exists w o, s' = put_setup w o s) as (w & o & ->) by (destruct H; by eexists _, _).
  destruct (put_setup_frame w o s) as (E1 & E2 & E3 & E4 & E5 & _).
  eapply peers_inv_frame; [done|..]; by rewrite ?E1, ?E2, ?E3, ?E4, ?E5.
Qed.

Lemma task_step_peers cfg s s' : task_step cfg s s' -> peers_inv cfg s -> peers_inv cfg s'.
Proof. intros H Hi. destruct H; by eapply peers_inv_frame. Qed.

Lemma env_step_peers cfg s s' : env_step cfg s s' -> peers_inv cfg s -> peers_inv cfg s'.
Proof.
  intros H Hi. destruct H; eapply peers_inv_frame; try done.
  cbn. rewrite H, !fmap_app. done.
Qed.

Definition srv_inv (cfg : Config) (s : server) : Prop := tasks_inv cfg s /\ peers_inv cfg s.

Lemma srv_step_inv cfg s s' : srv_step cfg s s' -> srv_inv cfg s -> srv_inv cfg s'.
Proof.
  intros [H|H|H|H] [Ht Hp].
  - split; [by eapply run_step_tasks|by eapply run_step_peers].
  - split; [by eapply setup_step_tasks|by eapply setup_step_peers].
  - split; [by eapply task_step_tasks|by eapply task_step_peers].
  - split; [by eapply env_step_tasks|by eapply env_step_peers].
Qed.

Lemma Start_inv cfg s : Start cfg = Ret s -> srv_inv cfg s.
Proof.
  unfold Start. intros E. go_bind E as first E1. go_bind E as dials E2. injection E as <-.
  destruct (newDialState_inv _ _ _ _ _ E2) as [Hi Hc]. assert (ds_dialing dials = ∅) as Hd.
  { apply map_eq. intros id. rewrite lookup_empty. apply eq_None_not_Some. intros H%(di_dialing _ _ Hi). set_solver. }
  split; split; cbn [sv_dial sv_running sv_queued sv_gos sv_done sv_pending sv_slots sv_listen sv_peers sv_runners sv_inbound sv_phase]; try done.
  - unfold maxActiveDialTasks. cbn. lia.
  - intros t su. set_solver.
  - intros su. set_solver.
  - cbn. lia.
  - unfold pcount. rewrite map_filter_empty, map_size_empty. lia.
  - unfold pcount. rewrite map_filter_empty, map_size_empty. lia.
  - unfold dyn_ids. cbn [sv_dial sv_peers]. rewrite Hd. unfold flagged, peer_flags.
    rewrite fmap_empty, map_filter_empty, dom_empty_L, union_empty_l_L, size_empty. lia.
Qed.

Lemma server_reachable_inv cfg s0 s : Start cfg = Ret s0 -> rtc (srv_step cfg) s0 s -> srv_inv cfg s.
Proof. intros H0 H. apply Start_inv in H0. induction H as [|s1 s2 s3 Hs _ IH]; [done|]. apply IH. by eapply srv_step_inv. Qed.

(** ** The peer set *)

(** C28: The limits on connections hold in every state the server can reach, whatever connections come in,
    are dialled, fail their handshakes or end, in any interleaving of the goroutines: a peer is
    filed under its own identifier, which is never that of this node; every peer has exactly one goroutine,
    so no node is connected twice; [inboundCount] counts the inbound peers; the peers that are neither trusted,
    static nor storeman are at most [MaxPeers], the inbound peers that are not trusted at most
    [maxInboundConns], and the nodes with a dynamic connection, made or in the making, at most
    [maxDialedConns]. *)
Theorem peer_limits cfg s0 s :
  Start cfg = Ret s0 -> rtc (srv_step cfg) s0 s ->
  (forall id c, sv_peers s !! id = Some c -> c_id c = id /\ id <> cf_ID cfg) /\
  (sv_runners s).*1 ≡ₚ (map_to_list (sv_peers s)).*2 /\
  (spinning (sv_phase s) = false -> sv_inbound s = pcount (fun c => conn_is c inboundConn) (sv_peers s)) /\
  pcount ordinary (sv_peers s) <= Z.max 0 (cf_MaxPeers cfg) /\
  pcount untrusted_inbound (sv_peers s) <= Z.max 0 (maxInboundConns cfg) /\
  Z.of_nat (size (dyn_ids s)) <= Z.max 0 (maxDialedConns cfg).
Proof. intros H0 H. destruct (server_reachable_inv cfg s0 s H0 H) as [_ []]. done. Qed.

(** ** Dial tasks *)

Lemma done_room cfg s t results :
  tasks_inv cfg s -> (t, GReport results) ∈ sv_gos s -> (length (sv_done s) < maxActiveDialTasks)%nat.
Proof.
  intros [_ _ Hp Hl _ _ _] Hin. apply Permutation_length in Hp. rewrite length_app, !length_fmap in Hp.
  apply list_elem_of_lookup in Hin as [i Hi]. apply lookup_lt_Some in Hi. lia.
Qed.

(** C29: The server dials with discipline in every state it can reach: at most thirty-seven tasks run, no
    node is the destination of two tasks that run or wait, the map [dialing] has exactly the
    destinations of these tasks, this node is not among them when discovery is on, and at most one lookup
    runs.  A finished task always finds room in the channel [taskdone], so that its goroutine ends even after [run] has
    stopped receiving; scheduling never panics; and no more inbound connections than configured are in
    their handshakes. *)
Theorem dial_discipline cfg s0 s :
  Start cfg = Ret s0 -> rtc (srv_step cfg) s0 s ->
  let active := sv_running s ++ sv_queued s in
  (length (sv_running s) <= maxActiveDialTasks)%nat /\ NoDup (dial_ids (sv_dial s) active) /\
  (forall id, is_Some (ds_dialing (sv_dial s) !! id) <-> id ∈ dial_ids (sv_dial s) active) /\
  (cf_NoDiscovery cfg = false -> cf_ID cfg ∉ dial_ids (sv_dial s) active) /\
  (length (filter is_discover active) <= 1)%nat /\
  (forall t results, (t, GReport results) ∈ sv_gos s -> (length (sv_done s) < maxActiveDialTasks)%nat) /\
  (forall read so sto now, reader_ok read -> exists s', scheduleTasks read so sto now s = Ret s') /\
  (length (sv_pending s) <= pendingTokens cfg)%nat.
Proof.
  intros H0 H. destruct (server_reachable_inv cfg s0 s H0 H) as [Ht _]. cbn zeta. pose proof (ti_dial _ _ Ht) as Hd.
  assert (forall id, is_Some (ds_dialing (sv_dial s) !! id) <-> id ∈ dial_ids (sv_dial s) (sv_running s ++ sv_queued s)) as Hiff.
  { intros id. split; [apply Hd|]. rewrite elem_of_dial_ids. intros (p & t & Hin & Hp & <-).
    destruct (di_active _ _ Hd p Hin) as (t' & Hp' & Hdl). rewrite Hp in Hp'. injection Hp' as <-. by eexists. }
  split_and!.
  - apply Ht.
  - apply Hd.
  - done.
  - intros Hnd. rewrite <- Hiff. intros [f Hf]. pose proof (di_self _ _ Hd (cf_ID cfg)) as Hs.
    rewrite (ti_cfg _ _ Ht) in Hs. cbn in Hs. rewrite Hnd in Hs. rewrite Hs in Hf; done.
  - rewrite (di_lookup _ _ Hd). destruct (ds_lookupRunning (sv_dial s)); lia.
  - intros t results. by apply (done_room cfg).
  - intros read so sto now Hr. destruct (scheduleTasks_spec cfg read so sto now s Ht Hr) as (s' & E & _). by exists s'.
  - pose proof (ti_slots _ _ Ht). lia.
Qed.

(** ** Shutting down *)

(** Waiting for the mutex that [Stop] holds never ends. *)
Lemma blocked_forever cfg s s' : rtc (srv_step cfg) s s' -> sv_phase s = MBlocked -> sv_phase s' = MBlocked.
Proof.
  induction 1 as [|s1 s2 s3 Hs _ IH]; [done|]. intros Hb. apply IH. destruct Hs as [H|H|H|H].
  - destruct H; congruence.
  - destruct H; cbn; by rewrite (proj1 (proj2 (proj2 (proj2 (put_setup_frame _ _ _))))).
  - by destruct H.
  - by destruct H.
Qed.

(** When the peers are being waited for, they only leave. *)
Lemma spin_step cfg s s' :
  srv_step cfg s s' -> sv_phase s = MSpin ->
  (sv_phase s' = MSpin \/ (sv_phase s' = MDone /\ sv_peers s = ∅)) /\ sv_peers s' ⊆ sv_peers s.
Proof.
  intros Hs Hp. destruct Hs as [H|H|H|H].
  - destruct H; try congruence; cbn; [split; [by left|apply delete_subseteq]|]. split; [by right|done].
  - destruct H.
    all: match goal with |- context [put_setup ?w ?o ?x] => destruct (put_setup_frame w o x) as (-> & _ & _ & -> & _) end.
    all: split; [by left|done].
  - destruct H; cbn; (split; [by left|done]).
  - destruct H; cbn; (split; [by left|done]).
Qed.

Lemma spin_reaches_done cfg s :
  peers_inv cfg s -> sv_phase s = MSpin -> exists s', rtc (srv_step cfg) s s' /\ sv_phase s' = MDone.
Proof.
  remember (size (sv_peers s)) as n eqn:En. revert s En. induction (lt_wf n) as [n _ IH]. intros s -> Hi Hp.
  destruct (decide (sv_peers s = ∅)) as [He|Hne].
  { exists (with_phase MDone s). split; [|done]. apply rtc_once, Srv_run. by apply R_return. }
  destruct (sv_runners s) as [|[c b] l] eqn:Er.
  { pose proof (pi_runners _ _ Hi) as Hr. rewrite Er in Hr. cbn in Hr. symmetry in Hr. apply Permutation_nil_r, fmap_nil_inv in Hr.
    by apply map_to_list_empty_iff in Hr. }
  assert (exists s1, rtc (srv_step cfg) s s1 /\ peers_inv cfg s1 /\ sv_phase s1 = MSpin /\ sv_peers s1 = sv_peers s /\ sv_runners s1 = (c, true) :: l)
    as (s1 & R1 & Hi1 & Hp1 & Ep1 & Er1).
  { destruct b; [by exists s|]. pose proof (P_returned cfg c [] l s Er) as Hst.
    eexists. split; [apply rtc_once, Srv_env, Hst|]. split; [by eapply env_step_peers|done]. }
  pose proof (R_spindown cfg c [] l s1 Hp1 ltac:(by rewrite Ep1) Er1) as Hst.
  destruct (runner_peer _ _ _ _ [] _ Hi1 Er1) as [Hc _].
  destruct (IH (size (delete (c_id c) (sv_peers s1)))) with (s := del_peer_spindown c ([] ++ l) s1) as (s2 & R2 & Hd); try done.
  - rewrite Ep1 in Hc |- *. rewrite map_size_delete_Some by (by eexists).
    assert (size (sv_peers s) <> 0%nat) by (by intros ?%map_size_empty_iff). lia.
  - by eapply with_peers_delete_inv; [|exact Er1|rewrite Hp1].
  - exists s2. split; [|done]. etrans; [exact R1|]. eapply rtc_l; [apply Srv_run, Hst|exact R2].
Qed.

(** C30: The spin-down of [run] completes once it has begun: every peer in the map still has its
    goroutine, no step adds a peer or leaves the spin-down before the map is empty, and from every such state
    [run] can go on until it returns, each peer being taken out when its goroutine reports. *)
Theorem spindown_completes cfg s0 s :
  Start cfg = Ret s0 -> rtc (srv_step cfg) s0 s -> sv_phase s = MSpin ->
  length (sv_runners s) = size (sv_peers s) /\
  (forall s', srv_step cfg s s' ->
     (sv_phase s' = MSpin \/ (sv_phase s' = MDone /\ sv_peers s = ∅)) /\ sv_peers s' ⊆ sv_peers s) /\
  exists s', rtc (srv_step cfg) s s' /\ sv_phase s' = MDone.
Proof.
  intros H0 H Hp. destruct (server_reachable_inv cfg s0 s H0 H) as [_ Hi]. split_and!.
  - pose proof (Permutation_length (pi_runners _ _ Hi)) as Hl. rewrite !length_fmap in Hl. rewrite Hl. apply length_map_to_list.
  - intros s' Hs. by eapply spin_step.
  - by eapply spin_reaches_done.
Qed.

(** [Start] panics when no storeman node is configured. *)
Lemma Start_without_storeman cfg : cf_StoremanNodes cfg = [] -> Start cfg = Panic.
Proof. intros E. unfold Start. by rewrite E. Qed.

(** ** A small server *)

Definition demo_id (k : Z) : NodeID := be_fix 64 k.
Definition demo_leader : Node := mk_node [] 0 0 (demo_id 9) [] 0.
Definition demo_cfg : Config := mk_config 2 0 0 true false [demo_leader] [] ∅ [] None (demo_id 1).
Definition no_random : reader := fun buf => (buf, 0%nat).

Lemma no_random_ok : reader_ok no_random.
Proof. intros buf. split; [done|]. cbn. intros i Hi. lia. Qed.

(** The leader has no port, so that it is not dialled. *)
Definition demo_dialer : dialstate := mk_dials (dial_cfg demo_cfg) false ∅ [] [] ∅ ∅ [] None [] ∅ 0.
Definition demo_start : server := mk_server MSched false ∅ 0 demo_dialer [] [] [] [] [] 50 LWait [].

Lemma demo_Start : Start demo_cfg = Ret demo_start.
Proof. done. Qed.

(** After the first round of [run]. *)
Definition demo_idle (q : bool) (ph : phase) (peers : peermap) (n : Z) (pend : list (option setup)) (slots : nat) (l : listen_state)
  (r : list (conn * bool)) : server :=
  mk_server ph q peers n
    (with_lookup false [] (with_hist [] (with_start 0 demo_dialer)))
    [] [] [] [] pend slots l r.

Definition demo_conn : conn := mk_conn inboundConn (demo_id 5) [] EmptyString.
Definition demo_setup (st : setup_stage) : setup := mk_setup demo_conn None st.

Lemma demo_handshake q :
  rtc (srv_step demo_cfg) demo_start (demo_idle q MSelect ∅ 0 [Some (demo_setup SuPost)] 49 LWait []).
Proof.
  eapply rtc_l. { apply Srv_run, (R_schedule demo_cfg no_random [] [] 0); [done|apply no_random_ok|by vm_compute]. }
  eapply rtc_l. { apply Srv_env. by apply (L_slot demo_cfg 49). }
  eapply rtc_l. { apply Srv_env. by apply L_accept. }
  eapply rtc_l. { apply Srv_setup. by apply (U_begin demo_cfg (WInbound 0)). }
  eapply rtc_l. { apply Srv_setup. by apply (U_encrypted demo_cfg (WInbound 0) (mk_setup (mk_conn inboundConn (replicate 64 Byte.x00) [] EmptyString) None SuEnc) (demo_id 5)). }
  destruct q; [|apply rtc_refl]. apply rtc_once, Srv_env. by apply V_stop.
Qed.

(** [Stop] can wait forever.  It holds the mutex of the server while it waits for [run]; when [run], at its
    select, takes a connection that has finished a handshake instead of noticing that [quit] is closed,
    the checks call [Self], which waits for the same mutex.  Such a state is reached with a
    single inbound connection, and no step of any goroutine leads out of it. *)
Theorem stop_deadlock :
  exists cfg s0 s, Start cfg = Ret s0 /\ rtc (srv_step cfg) s0 s /\ sv_quit s = true /\
  forall s', rtc (srv_step cfg) s s' -> sv_phase s' = MBlocked.
Proof.
  exists demo_cfg, demo_start, (demo_idle true MBlocked ∅ 0 [Some (demo_setup SuPost)] 49 LWait []).
  split_and!; [apply demo_Start| |done|].
  - eapply rtc_r; [apply (demo_handshake true)|]. apply Srv_run.
    by apply (R_posthandshake_blocked demo_cfg (WInbound 0) (demo_setup SuPost)).
  - intros s' H. by eapply blocked_forever.
Qed.

Lemma demo_connected q :
  rtc (srv_step demo_cfg) demo_start
    (demo_idle q MSelect {[demo_id 5 := demo_conn]} 1 [None] 49 LWait [(demo_conn, false)]).
Proof.
  etrans; [apply (demo_handshake false)|].
  eapply rtc_l. { apply Srv_run. by apply (R_posthandshake demo_cfg (WInbound 0) (demo_setup SuPost)). }
  eapply rtc_l. { apply Srv_run, (R_schedule demo_cfg no_random [] [] 1); [done|apply no_random_ok|by vm_compute]. }
  eapply rtc_l. { apply Srv_setup. by apply (U_handshaken demo_cfg (WInbound 0) (demo_setup SuProto) (demo_id 5) [] EmptyString). }
  eapply rtc_l. { apply Srv_run. by apply (R_addpeer demo_cfg (WInbound 0) (demo_setup SuAdd)). }
  eapply rtc_l. { apply Srv_run, (R_schedule demo_cfg no_random [] [] 2); [done|apply no_random_ok|by vm_compute]. }
  destruct q; [|apply rtc_refl]. apply rtc_once, Srv_env. by apply V_stop.
Qed.

Lemma peer_limits_witness :
  let s := demo_idle false MSelect {[demo_id 5 := demo_conn]} 1 [None] 49 LWait [(demo_conn, false)] in
  sv_inbound s = pcount (fun c => conn_is c inboundConn) (sv_peers s) /\ pcount untrusted_inbound (sv_peers s) = 1 /\
  maxInboundConns demo_cfg = 2.
Proof.
  cbn zeta. split; [|by vm_compute].
  exact (proj1 (proj2 (proj2 (peer_limits demo_cfg demo_start _ demo_Start (demo_connected false)))) eq_refl).
Defined.

Lemma dial_discipline_witness :
  let s := demo_idle false MSelect {[demo_id 5 := demo_conn]} 1 [None] 49 LWait [(demo_conn, false)] in
  (length (sv_running s) <= maxActiveDialTasks)%nat.
Proof. exact (proj1 (dial_discipline demo_cfg demo_start _ demo_Start (demo_connected false))). Defined.

Lemma spindown_completes_witness :
  let s := demo_idle true MSpin {[demo_id 5 := demo_conn]} 1 [None] 49 LWait [(demo_conn, false)] in
  exists s', rtc (srv_step demo_cfg) s s' /\ sv_phase s' = MDone.
Proof.
  assert (rtc (srv_step demo_cfg) demo_start
    (demo_idle true MSpin {[demo_id 5 := demo_conn]} 1 [None] 49 LWait [(demo_conn, false)])) as H.
  { eapply rtc_r; [apply (demo_connected true)|]. apply Srv_run. by apply R_quit. }
  exact (proj2 (proj2 (spindown_completes demo_cfg demo_start _ demo_Start H eq_refl))).
Defined.
