(* ===== verification/Group.v ===== *)
(** * A group of nodes

    All nodes of a group run the main goroutine of their context
    ([src/storeman/storemanmpc/mpc_context.go], [mainMPCProcess]) and one goroutine for every
    step that waits for messages ([step/mpc_base_step.go]), and the network delivers their messages in any
    order.  The first part models this system with the operations of [Context.v] and [BaseStep.v]: nodes may be down
    from the start, and a [FinishStep] whose messages do not come ends by its time-out.  [InitStep], [CreateMessage] and the
    sends that follow are one step of the model: they write other fields than the loops.  The
    second part is an abstract machine that only remembers who has sent what to whom; it never gets stuck and
    ends within a known number of steps.  [Session.v] proves that the system refines the machine. *)

From stdpp Require Import functions.
From S2P Require Import Prelude BigInt Curve Schnorr Protocol Generators BaseStep Steps Context.

(** ** The system *)

(** Where [mainMPCProcess] is: before [InitStep] of a step, in [FinishStep], before the call of [quit], returned.
    A failing exit or a panic ends a node. *)
Inductive stage := AtInit (i : nat) | AtFinish (i : nat) | AtQuit | Finished | Failed (e : option error).

(** A protocol message on its way. *)
Record packet := mk_packet { pk_from : NodeID; pk_to : NodeID; pk_msg : MpcMessage }.

Section System.
Context {C : EllipticCurve} {H : Hashes} {R : MapRange} {W : Type} {M : StoremanManager W}
  (vars : ProtocolVars) (SetMessagePeers : MpcMessage -> option (list PeerInfo) -> MpcMessage).

Record gnode := mk_gnode { g_self : NodeID; g_ctx : MpcContext; g_stage : stage; g_ent : Entropy; g_world : W }.

Definition at_stage (st : stage) (nd : gnode) : gnode := mk_gnode (g_self nd) (g_ctx nd) st (g_ent nd) (g_world nd).
Definition with_ctx (c : MpcContext) (nd : gnode) : gnode := mk_gnode (g_self nd) c (g_stage nd) (g_ent nd) (g_world nd).

(** A context that has been created and whose loops have been started. *)
Definition spawn (self : NodeID) (ctxType mpcID : Z) (peers : list PeerInfo) (pre : list MpcValue) (ent : Entropy) (w : W)
  : run gnode :=
  c ← lift (CreateContext vars ctxType mpcID peers pre);
  c ← start_all c;
  ret (mk_gnode self c (AtInit 0) ent w).

(** What an action of the send loop puts on the network; requests create contexts and are not messages
    of a step.  The message a node sends to itself goes directly to its own channel in the code; here it
    may also be delivered later. *)
Definition action_packet (self : NodeID) (a : action) : option packet :=
  match a with
  | ToSelf code msg => if decide (code = MPCMessage) then Some (mk_packet self self msg) else None
  | ToPeer id code msg => if decide (code = MPCMessage) then Some (mk_packet self id msg) else None
  end.

(** [InitStep], [CreateMessage] and the send loop; [None]: still drawing seeds. *)
Definition node_init (nd : gnode) : option (gnode * list packet) :=
  match g_stage nd with
  | AtInit i =>
      let c := g_ctx nd in
      match mc_MpcSteps c !! i with
      | None => None
      | Some s =>
          match step_InitStep (mc_peers c) (mc_mpcResult c) (g_ent nd) (st_inner s) with
          | None => None
          | Some (Err e) => Some (at_stage (Failed (Some e)) nd, [])
          | Some Panic => Some (at_stage (Failed None) nd, [])
          | Some (Ret (inner, peers, ent)) =>
              let c := with_peers peers (with_steps
                (<[i := {| st_base := st_base s; st_inner := inner; st_loop := st_loop s |}]> (mc_MpcSteps c)) c) in
              match step_CreateMessage peers inner with
              | Ret msgs =>
                  let acts := concat (map (send_message (g_self nd) SetMessagePeers (peerIDs c) (mc_ContextID c) i) msgs) in
                  Some (mk_gnode (g_self nd) c (AtFinish i) ent (g_world nd), omap (action_packet (g_self nd)) acts)
              | Err e => Some (at_stage (Failed (Some e)) nd, [])
              | Panic => Some (at_stage (Failed None) nd, [])
              end
          end
      end
  | _ => None
  end.

(** [FinishStep]; [None]: it waits. *)
Definition node_finish (ev : finish_event) (nd : gnode) : option gnode :=
  match g_stage nd with
  | AtFinish i =>
      let c := g_ctx nd in
      match mc_MpcSteps c !! i with
      | None => None
      | Some s =>
          match step_FinishStep vars ev (mc_peers c) (mc_mpcResult c) (g_world nd) (st_base s) (st_inner s) with
          | None => None
          | Some (Err e, _) => Some (at_stage (Failed (Some e)) nd)
          | Some (Panic, _) => Some (at_stage (Failed None) nd)
          | Some (Ret (inner, res, w), b) =>
              let c := with_result res (with_steps
                (<[i := {| st_base := b; st_inner := inner; st_loop := st_loop s |}]> (mc_MpcSteps c)) c) in
              Some (mk_gnode (g_self nd) c (if decide (S i = length (mc_MpcSteps c)) then AtQuit else AtInit (S i)) (g_ent nd) w)
          end
      end
  | _ => None
  end.

(** The call of [quit] at the end; [None]: a channel is full. *)
Definition node_quit (nd : gnode) : option gnode :=
  match g_stage nd with
  | AtQuit => c ← quit None (g_ctx nd); Some (at_stage Finished (with_ctx c nd))
  | _ => None
  end.

(** One round of the loop of step [j]; [None]: it does not run, or waits. *)
Definition node_loop (j : nat) (nd : gnode) : option gnode :=
  match mc_MpcSteps (g_ctx nd) !! j with
  | Some s =>
      if st_loop s then
        match loop_once (mc_peers (g_ctx nd)) s with
        | None => None
        | Some (Ret s) => Some (with_ctx (with_steps (<[j := s]> (mc_MpcSteps (g_ctx nd))) (g_ctx nd)) nd)
        | Some (Err e) => Some (at_stage (Failed (Some e)) nd)
        | Some Panic => Some (at_stage (Failed None) nd)
        end
      else None
  | None => None
  end.

(** [getMessage]: the send on the channel of the step; [None]: it is full, or there is no such step. *)
Definition node_receive (from : NodeID) (msg : MpcMessage) (nd : gnode) : option gnode :=
  let j := Z.to_nat (mm_StepID msg) in
  s ← mc_MpcSteps (g_ctx nd) !! j;
  q ← chan_send (bs_msgCap (st_base s)) (bs_msgChan (st_base s)) (Some (received from msg));
  Some (with_ctx (with_steps (<[j := upd_base (set_msgChan q) s]> (mc_MpcSteps (g_ctx nd))) (g_ctx nd)) nd).

Record group := mk_group { gr_nodes : gmap NodeID gnode; gr_net : list packet }.

(** A node has sent its messages of step [i]. *)
Definition past_init (i : nat) (nd : gnode) : bool :=
  match g_stage nd with
  | AtInit j => (i <? j)%nat
  | AtFinish j => (i <=? j)%nat
  | _ => true
  end.

(** [MPCTimeOut] is longer than the nodes take to send, and the network and the loops to hand over, the messages of a
    step: it runs out in a [FinishStep] that still waits when every message of the step that any node
    of the group sends has been handled. *)
Definition nothing_to_come (nodes : gmap NodeID gnode) (net : list packet) (id : NodeID) (i : nat) (s : Step) : Prop :=
  bs_msgChan (st_base s) = [] /\ bs_finish (st_base s) = [] /\
  map_Forall (fun _ nd => past_init i nd = true) nodes /\
  Forall (fun pk => ~ (pk_to pk = id /\ mm_StepID (pk_msg pk) = Z.of_nat i)) net.

(** A step of any goroutine of any node, or of the network.  The nodes of the map run; the others of the group are
    down, and what is sent to them is lost ([SendToPeer] fails, which is logged). *)
Inductive group_step : group -> group -> Prop :=
| G_init id nd nd' ps nodes net :
    nodes !! id = Some nd -> node_init nd = Some (nd', ps) ->
    group_step (mk_group nodes net)
      (mk_group (<[id := nd']> nodes) (net ++ filter (fun pk => is_Some (nodes !! pk_to pk)) ps))
| G_finish id nd nd' nodes net :
    nodes !! id = Some nd -> node_finish FinishReceived nd = Some nd' ->
    group_step (mk_group nodes net) (mk_group (<[id := nd']> nodes) net)
| G_timeout id nd i s nd' nodes net :
    nodes !! id = Some nd -> g_stage nd = AtFinish i -> mc_MpcSteps (g_ctx nd) !! i = Some s ->
    nothing_to_come nodes net id i s -> node_finish FinishTimeout nd = Some nd' ->
    group_step (mk_group nodes net) (mk_group (<[id := nd']> nodes) net)
| G_quit id nd nd' nodes net :
    nodes !! id = Some nd -> node_quit nd = Some nd' ->
    group_step (mk_group nodes net) (mk_group (<[id := nd']> nodes) net)
| G_loop id j nd nd' nodes net :
    nodes !! id = Some nd -> node_loop j nd = Some nd' ->
    group_step (mk_group nodes net) (mk_group (<[id := nd']> nodes) net)
| G_deliver pk nd nd' nodes l1 l2 :
    nodes !! pk_to pk = Some nd -> node_receive (pk_from pk) (pk_msg pk) nd = Some nd' ->
    group_step (mk_group nodes (l1 ++ pk :: l2)) (mk_group (<[pk_to pk := nd']> nodes) (l1 ++ l2)).

End System.

Arguments gnode : clear implicits.
Arguments group : clear implicits.

(** ** The abstract machine

    [a_pos q] counts the calls [q] has completed: [2 j] before [InitStep] of step [j], [2 j + 1] in its
    [FinishStep].  For every node and step there are the senders whose messages have been handled and
    those in the channel ([None] tells the loop to stop), and whether the loop runs. *)

Record machine := mk_machine {
  a_pos : PeerInfo -> nat;
  a_hist : PeerInfo * nat -> list PeerInfo;
  a_chan : PeerInfo * nat -> list (option PeerInfo);
  a_loop : PeerInfo * nat -> bool;
  a_net : list (PeerInfo * PeerInfo * nat)
}.

Lemma filter_agree {A} (P Q : A -> Prop) `{!forall x, Decision (P x), !forall x, Decision (Q x)} (l : list A) :
  (forall x, x ∈ l -> P x <-> Q x) -> filter P l = filter Q l.
Proof.
  induction l as [|x l IH]; intros Hl; [done|]. rewrite !filter_cons, IH by set_solver.
  destruct (Hl x ltac:(set_solver)). by repeat case_decide; try tauto.
Qed.

Lemma filter_more {A} (P Q : A -> Prop) `{!forall x, Decision (P x), !forall x, Decision (Q x)} (l : list A) y :
  NoDup l -> y ∈ l -> ~ P y -> Q y -> (forall x, x <> y -> P x <-> Q x) -> filter Q l ≡ₚ filter P l ++ [y].
Proof.
  intros Hn Hy HP HQ Hx. induction Hn as [|x l Hxl Hn IH]; [set_solver|].
  apply elem_of_cons in Hy as [<-|Hy].
  - rewrite filter_cons_True, filter_cons_False by done. rewrite (filter_agree P Q l).
    + apply Permutation_cons_append.
    + intros z Hz. apply Hx. by intros ->.
  - assert (x <> y) by (intros ->; done). destruct (decide (Q x)) as [Hq|Hq].
    + rewrite !filter_cons_True by (done || by apply Hx). cbn. by rewrite IH.
    + rewrite !filter_cons_False by (done || by rewrite Hx). by apply IH.
Qed.

Section Machine.
(** The nodes that run, the number of steps, who sends a message in a step (to everybody), and how many a node waits for. *)
Context (peers : list PeerInfo) (k : nat) (senders : nat -> list PeerInfo) (wait : PeerInfo -> nat -> nat).

Definition sends (q : PeerInfo) (j : nat) : list (PeerInfo * PeerInfo * nat) :=
  if decide (q ∈ senders j) then map (fun p => (q, p, j)) peers else [].

(** A node goes on when it has what it waits for, or all that comes. *)
Definition need (q : PeerInfo) (j : nat) : nat := Nat.min (wait q j) (length (senders j)).

Inductive machine_step : machine -> machine -> Prop :=
| M_init q j pos hist chan loop net :
    q ∈ peers -> (j < k)%nat -> pos q = (2 * j)%nat ->
    machine_step (mk_machine pos hist chan loop net)
      (mk_machine (<[q := S (2 * j)]> pos) hist chan loop (net ++ sends q j))
| M_finish q j pos hist chan loop net :
    q ∈ peers -> (j < k)%nat -> pos q = S (2 * j) -> (need q j <= length (hist (q, j)))%nat ->
    machine_step (mk_machine pos hist chan loop net)
      (mk_machine (<[q := (2 * S j)%nat]> pos) hist (<[(q, j) := chan (q, j) ++ [None]]> chan) loop net)
| M_quit q pos hist chan loop net :
    q ∈ peers -> pos q = (2 * k)%nat ->
    machine_step (mk_machine pos hist chan loop net)
      (mk_machine (<[q := S (2 * k)]> pos) hist (fun x => if decide (x.1 = q) then chan x ++ [None] else chan x) loop net)
| M_take q j p c pos hist chan loop net :
    q ∈ peers -> (j < k)%nat -> loop (q, j) = true -> chan (q, j) = Some p :: c ->
    machine_step (mk_machine pos hist chan loop net)
      (mk_machine pos (<[(q, j) := hist (q, j) ++ [p]]> hist) (<[(q, j) := c]> chan) loop net)
| M_stop q j c pos hist chan loop net :
    q ∈ peers -> (j < k)%nat -> loop (q, j) = true -> chan (q, j) = None :: c ->
    machine_step (mk_machine pos hist chan loop net)
      (mk_machine pos hist (<[(q, j) := c]> chan) (<[(q, j) := false]> loop) net)
| M_deliver p q j l1 l2 pos hist chan loop :
    machine_step (mk_machine pos hist chan loop (l1 ++ (p, q, j) :: l2))
      (mk_machine pos hist (<[(q, j) := chan (q, j) ++ [Some p]]> chan) loop (l1 ++ l2)).

(** The nodes in [ahead] have already sent the request that created the contexts of the others. *)
Definition machine_start (ahead : PeerInfo -> bool) : machine :=
  mk_machine (fun q => b2n (ahead q)) (fun _ => []) (fun _ => []) (fun x => (0 <? wait x.1 x.2)%nat) [].

(** *** Invariant *)

Definition net_to (q : PeerInfo) (j : nat) (net : list (PeerInfo * PeerInfo * nat)) : list PeerInfo :=
  omap (fun x => if decide (x.1.2 = q /\ x.2 = j) then Some x.1.1 else None) net.

Definition has_sent (a : machine) (j : nat) : list PeerInfo := filter (fun p => (2 * j < a_pos a p)%nat) (senders j).

Definition nones (c : list (option PeerInfo)) : nat := length (filter (fun o => o = None) c).

Definition fin (a : machine) (q : PeerInfo) (j : nat) : bool := bool_decide (2 * S j <= a_pos a q)%nat.
Definition gone (a : machine) (q : PeerInfo) : bool := bool_decide (2 * k < a_pos a q)%nat.
Definition stopped (a : machine) (x : PeerInfo * nat) : bool := (0 <? wait x.1 x.2)%nat && negb (a_loop a x).

Record machine_inv (a : machine) : Prop := {
  mi_pos q : q ∈ peers -> (a_pos a q <= S (2 * k))%nat;
  mi_net x : x ∈ a_net a -> x.1.2 ∈ peers /\ (x.2 < k)%nat;
  (* every message is in exactly one place *)
  mi_once q j : q ∈ peers -> (j < k)%nat ->
    a_hist a (q, j) ++ omap id (a_chan a (q, j)) ++ net_to q j (a_net a) ≡ₚ has_sent a j;
  mi_none q j : q ∈ peers -> (j < k)%nat ->
    (nones (a_chan a (q, j)) + b2n (stopped a (q, j)) = b2n (fin a q j) + b2n (gone a q))%nat;
  mi_loop q j : q ∈ peers -> (j < k)%nat -> a_loop a (q, j) = true -> (0 < wait q j)%nat;
  mi_fin q j : q ∈ peers -> (j < k)%nat -> fin a q j = true -> (need q j <= length (a_hist a (q, j)))%nat
}.

Hypothesis (Hpeers : NoDup peers).
Hypothesis (Hsenders : forall j, NoDup (senders j) /\ senders j ⊆ peers).

Lemma net_to_app q j n1 n2 : net_to q j (n1 ++ n2) = net_to q j n1 ++ net_to q j n2.
Proof. apply omap_app. Qed.

Lemma net_to_sends p q j i :
  q ∈ peers -> net_to q j (sends p i) = if decide (i = j /\ p ∈ senders i) then [p] else [].
Proof.
  intros Hq. unfold sends. destruct (decide (p ∈ senders i)) as [Hp|Hp]; [|by rewrite decide_False by tauto].
  assert (forall l, NoDup l -> net_to q j (map (fun p' => (p, p', i)) l) = if decide (i = j /\ q ∈ l) then [p] else []) as Hl.
  { induction 1 as [|x l Hx Hn IH]; [by rewrite decide_False by set_solver|]. unfold net_to in *. cbn.
    destruct (decide (x = q /\ i = j)) as [[-> ->]|Hne].
    - rewrite IH, decide_False, decide_True by set_solver. done.
    - rewrite IH. destruct (decide (i = j /\ q ∈ l)) as [[]|]; [by rewrite decide_True by set_solver|].
      rewrite decide_False; [done|]. intros [-> [<-|Hq']%elem_of_cons]; tauto. }
  rewrite Hl by done. destruct (decide (i = j)) as [->|]; [by rewrite !decide_True by done|by rewrite !decide_False by tauto].
Qed.

Lemma has_sent_pos a a' j :
  (forall p, p ∈ senders j -> (2 * j < a_pos a p)%nat <-> (2 * j < a_pos a' p)%nat) -> has_sent a j = has_sent a' j.
Proof. intros Hp. by apply filter_agree. Qed.

Lemma nones_app c1 c2 : nones (c1 ++ c2) = (nones c1 + nones c2)%nat.
Proof. unfold nones. by rewrite filter_app, length_app. Qed.

Lemma nones_None c : nones (None :: c) = S (nones c).
Proof. done. Qed.

Lemma nones_Some p c : nones (Some p :: c) = nones c.
Proof. done. Qed.

Lemma omap_id_app {A} (c1 c2 : list (option A)) : omap id (c1 ++ c2) = omap id c1 ++ omap id c2.
Proof. apply omap_app. Qed.

Lemma nones_omap c : (length c = nones c + length (omap id c))%nat.
Proof.
  unfold nones. induction c as [|o c IH]; [done|]. rewrite filter_cons. destruct o; cbn [omap list_omap id];
    [rewrite decide_False by done|rewrite decide_True by done]; cbn; fold (omap id c); lia.
Qed.

Lemma machine_start_inv ahead :
  (forall p, p ∈ senders 0 -> ahead p = false) -> machine_inv (machine_start ahead).
Proof.
  intros Ha. split; cbn -[Nat.ltb Nat.mul]; try done.
  - intros q _. destruct (ahead q); cbn; lia.
  - set_solver.
  - intros q j _ Hj. unfold has_sent. rewrite filter_none; [done|]. intros p Hp. cbn -[Nat.mul].
    destruct j; [rewrite Ha by done; cbn; lia|]. destruct (ahead p); cbn -[Nat.mul]; lia.
  - intros q j _ Hj. unfold stopped, fin, gone. cbn -[Nat.ltb Nat.mul]. rewrite andb_negb_r.
    rewrite !bool_decide_false; [done|..]; destruct (ahead q); cbn -[Nat.mul]; lia.
  - intros q j _ _. by intros ?%Nat.ltb_lt.
  - intros q j _ Hj. unfold fin. cbn. intros ?%bool_decide_eq_true. destruct (ahead q); cbn in *; lia.
Qed.

(** The parts of the invariant of one node and step that an update elsewhere keeps. *)
Lemma machine_inv_init q j pos hist chan loop net :
  machine_inv (mk_machine pos hist chan loop net) -> q ∈ peers -> (j < k)%nat -> pos q = (2 * j)%nat ->
  machine_inv (mk_machine (<[q := S (2 * j)]> pos) hist chan loop (net ++ sends q j)).
Proof.
  intros [H1 H2 H3 H4 H5 H6] Hq Hj E.
  assert (forall p, p <> q -> <[q := S (2 * j)]> pos p = pos p) as Hne by (intros p Hp; by rewrite fn_lookup_insert_ne).
  assert (<[q := S (2 * j)]> pos q = S (2 * j)) as Heq by apply fn_lookup_insert.
  assert (forall p i, fin (mk_machine (<[q := S (2 * j)]> pos) hist chan loop (net ++ sends q j)) p i
                      = fin (mk_machine pos hist chan loop net) p i) as Hfin.
  { intros p i. unfold fin. cbn [a_pos]. apply bool_decide_ext. destruct (decide (p = q)) as [->|Hp]; [rewrite Heq; lia|by rewrite Hne]. }
  assert (forall p, gone (mk_machine (<[q := S (2 * j)]> pos) hist chan loop (net ++ sends q j)) p
                      = gone (mk_machine pos hist chan loop net) p) as Hgone.
  { intros p. unfold gone. cbn [a_pos]. apply bool_decide_ext. destruct (decide (p = q)) as [->|Hp]; [rewrite Heq; lia|by rewrite Hne]. }
  split; cbn [a_pos a_hist a_chan a_loop a_net].
  - intros p Hp. destruct (decide (p = q)) as [->|Hpq]; [rewrite Heq; lia|rewrite Hne by done; by apply H1].
  - intros x [Hx|Hx]%elem_of_app; [by apply H2|]. unfold sends in Hx. case_decide; [|set_solver].
    apply list_elem_of_fmap in Hx as (p & -> & Hp). done.
  - intros p i Hp Hi. rewrite net_to_app, net_to_sends by done. specialize (H3 p i Hp Hi).
    cbn [a_hist a_chan a_net] in H3. rewrite !app_assoc, <- (app_assoc (hist _)), H3. unfold has_sent. cbn [a_pos].
    destruct (decide (j = i /\ q ∈ senders j)) as [[<- Hs]|Hn].
    + symmetry. apply filter_more; [apply Hsenders|done|lia|rewrite Heq; lia|]. intros x Hx. by rewrite Hne.
    + rewrite app_nil_r. apply reflexive_eq, filter_agree. intros x Hx. destruct (decide (x = q)) as [->|]; [|by rewrite Hne].
      rewrite Heq, E. destruct (decide (j = i)) as [->|]; [tauto|lia].
  - intros p i Hp Hi. rewrite Hfin, Hgone. by apply H4.
  - apply H5.
  - intros p i Hp Hi. rewrite Hfin. by apply H6.
Qed.

Lemma machine_inv_finish q j pos hist chan loop net :
  machine_inv (mk_machine pos hist chan loop net) -> q ∈ peers -> (j < k)%nat -> pos q = S (2 * j) ->
  (need q j <= length (hist (q, j)))%nat ->
  machine_inv (mk_machine (<[q := (2 * S j)%nat]> pos) hist (<[(q, j) := chan (q, j) ++ [None]]> chan) loop net).
Proof.
  intros [H1 H2 H3 H4 H5 H6] Hq Hj E Hw.
  set (a := mk_machine pos hist chan loop net) in *.
  set (a' := mk_machine (<[q := (2 * S j)%nat]> pos) hist (<[(q, j) := chan (q, j) ++ [None]]> chan) loop net).
  assert (forall p, p <> q -> a_pos a' p = a_pos a p) as Hne by (intros p Hp; cbn; by rewrite fn_lookup_insert_ne).
  assert (a_pos a' q = (2 * S j)%nat) as Heq by (cbn [a' a_pos]; apply fn_lookup_insert).
  assert (a_pos a q = S (2 * j)) as Hold by done.
  assert (forall x, x <> (q, j) -> a_chan a' x = a_chan a x) as Hcn by (intros x Hx; cbn; by rewrite fn_lookup_insert_ne).
  assert (a_chan a' (q, j) = a_chan a (q, j) ++ [None]) as Hce by (cbn [a' a_chan]; apply fn_lookup_insert).
  assert (gone a' q = false /\ gone a q = false) as [Hg' Hg].
  { unfold gone. rewrite Heq, Hold. split; apply bool_decide_false; lia. }
  assert (forall i, i <> j -> fin a' q i = fin a q i) as Hfn.
  { intros i Hi. unfold fin. rewrite Heq, Hold. apply bool_decide_ext. lia. }
  split.
  - intros p Hp. destruct (decide (p = q)) as [->|Hpq]; [rewrite Heq; lia|rewrite Hne by done; by apply H1].
  - apply H2.
  - intros p i Hp Hi. rewrite <- (has_sent_pos a a').
    + rewrite <- (H3 p i Hp Hi). cbn [a_hist a_net a a']. do 2 f_equiv.
      destruct (decide ((p, i) = (q, j))) as [[= -> ->]|Hx]; [|by rewrite Hcn].
      rewrite Hce, omap_id_app. cbn. by rewrite app_nil_r.
    + intros x Hx. destruct (decide (x = q)) as [->|]; [rewrite Heq, Hold; lia|by rewrite Hne].
  - intros p i Hp Hi. specialize (H4 p i Hp Hi). destruct (decide (p = q)) as [->|Hpq].
    + rewrite Hg in H4. rewrite Hg'. destruct (decide (i = j)) as [->|Hij].
      * rewrite Hce, nones_app. unfold fin in *. rewrite Heq, Hold in *.
        rewrite bool_decide_false in H4 by lia. rewrite bool_decide_true by lia.
        change (stopped a' (q, j)) with (stopped a (q, j)). rewrite nones_None. change (nones []) with 0%nat. cbn [b2n] in *. lia.
      * rewrite Hcn by congruence. rewrite Hfn by done. done.
    + rewrite Hcn by congruence. unfold fin, gone in *. by rewrite Hne.
  - apply H5.
  - intros p i Hp Hi Hf. cbn [a_hist a']. destruct (decide ((p, i) = (q, j))) as [[= -> ->]|Hx]; [done|].
    apply H6; [done..|]. destruct (decide (p = q)) as [->|Hpq]; [by rewrite <- Hfn by congruence|].
    unfold fin in *. by rewrite Hne in Hf.
Qed.

Lemma machine_inv_quit q pos hist chan loop net :
  machine_inv (mk_machine pos hist chan loop net) -> q ∈ peers -> pos q = (2 * k)%nat ->
  machine_inv (mk_machine (<[q := S (2 * k)]> pos) hist
                 (fun x => if decide (x.1 = q) then chan x ++ [None] else chan x) loop net).
Proof.
  intros [H1 H2 H3 H4 H5 H6] Hq E.
  set (a := mk_machine pos hist chan loop net) in *.
  set (a' := mk_machine (<[q := S (2 * k)]> pos) hist _ loop net).
  assert (forall p, p <> q -> a_pos a' p = a_pos a p) as Hne by (intros p Hp; cbn; by rewrite fn_lookup_insert_ne).
  assert (a_pos a' q = S (2 * k)) as Heq by (cbn [a' a_pos]; apply fn_lookup_insert).
  assert (a_pos a q = (2 * k)%nat) as Hold by done.
  assert (forall p i, (i < k)%nat -> fin a' p i = fin a p i) as Hfin.
  { intros p i Hi. unfold fin. apply bool_decide_ext. destruct (decide (p = q)) as [->|]; [rewrite Heq, Hold; lia|by rewrite Hne]. }
  split.
  - intros p Hp. destruct (decide (p = q)) as [->|Hpq]; [rewrite Heq; lia|rewrite Hne by done; by apply H1].
  - apply H2.
  - intros p i Hp Hi. rewrite <- (has_sent_pos a a').
    + rewrite <- (H3 p i Hp Hi). cbn [a_hist a_net a_chan a a' fst]. do 2 f_equiv.
      case_decide; [|done]. rewrite omap_id_app. cbn. by rewrite app_nil_r.
    + intros x Hx. destruct (decide (x = q)) as [->|]; [rewrite Heq, Hold; lia|by rewrite Hne].
  - intros p i Hp Hi. specialize (H4 p i Hp Hi). rewrite Hfin by done.
    change (stopped a' (p, i)) with (stopped a (p, i)). cbn [a_chan a' a fst] in *.
    case_decide as Hd; [|unfold gone in *; by rewrite Hne]. subst p. unfold gone in *. rewrite Heq, Hold in *.
    rewrite bool_decide_false in H4 by lia. rewrite bool_decide_true by lia.
    rewrite nones_app, nones_None. change (nones []) with 0%nat. cbn [b2n] in *. lia.
  - apply H5.
  - intros p i Hp Hi. rewrite Hfin by done. by apply H6.
Qed.

Lemma machine_inv_take q j p c pos hist chan loop net :
  machine_inv (mk_machine pos hist chan loop net) -> loop (q, j) = true -> chan (q, j) = Some p :: c ->
  machine_inv (mk_machine pos (<[(q, j) := hist (q, j) ++ [p]]> hist) (<[(q, j) := c]> chan) loop net).
Proof.
  intros [H1 H2 H3 H4 H5 H6] Hl E. split; cbn [a_pos a_hist a_chan a_loop a_net] in *; try done.
  - intros p' i Hp Hi. rewrite <- (H3 p' i Hp Hi). destruct (decide ((q, j) = (p', i))) as [[= <- <-]|Hx].
    + rewrite !fn_lookup_insert, E. cbn. fold (omap id c). by rewrite <- app_assoc.
    + by rewrite !fn_lookup_insert_ne.
  - intros p' i Hp Hi. specialize (H4 p' i Hp Hi). destruct (decide ((q, j) = (p', i))) as [[= <- <-]|Hx].
    + rewrite fn_lookup_insert. rewrite E, nones_Some in H4. done.
    + by rewrite !fn_lookup_insert_ne.
  - intros p' i Hp Hi Hf. specialize (H6 p' i Hp Hi Hf). destruct (decide ((q, j) = (p', i))) as [[= <- <-]|Hx].
    + rewrite fn_lookup_insert, length_app. lia.
    + by rewrite !fn_lookup_insert_ne.
Qed.

Lemma machine_inv_stop q j c pos hist chan loop net :
  machine_inv (mk_machine pos hist chan loop net) -> loop (q, j) = true -> chan (q, j) = None :: c ->
  machine_inv (mk_machine pos hist (<[(q, j) := c]> chan) (<[(q, j) := false]> loop) net).
Proof.
  intros [H1 H2 H3 H4 H5 H6] Hl E. split; cbn [a_pos a_hist a_chan a_loop a_net] in *; try done.
  - intros p' i Hp Hi. rewrite <- (H3 p' i Hp Hi). destruct (decide ((q, j) = (p', i))) as [[= <- <-]|Hx].
    + rewrite !fn_lookup_insert, E. done.
    + by rewrite !fn_lookup_insert_ne.
  - intros p' i Hp Hi. specialize (H4 p' i Hp Hi). specialize (H5 p' i Hp Hi).
    unfold stopped in *. cbn [a_loop fst snd] in *. destruct (decide ((q, j) = (p', i))) as [[= <- <-]|Hx].
    + rewrite !fn_lookup_insert. rewrite E, nones_None, Hl in H4. apply H5, Nat.ltb_lt in Hl. rewrite Hl in *.
      unfold fin, gone in *. cbn in *. lia.
    + rewrite !fn_lookup_insert_ne by done. done.
  - intros p' i Hp Hi. destruct (decide ((q, j) = (p', i))) as [[= <- <-]|Hx]; [by rewrite fn_lookup_insert|].
    rewrite fn_lookup_insert_ne by done. by apply H5.
Qed.

Lemma machine_inv_deliver p q j l1 l2 pos hist chan loop :
  machine_inv (mk_machine pos hist chan loop (l1 ++ (p, q, j) :: l2)) ->
  machine_inv (mk_machine pos hist (<[(q, j) := chan (q, j) ++ [Some p]]> chan) loop (l1 ++ l2)).
Proof.
  intros [H1 H2 H3 H4 H5 H6]. split; cbn [a_pos a_hist a_chan a_loop a_net] in *; try done.
  - intros x Hx. apply H2. set_solver.
  - intros p' i Hp Hi. rewrite <- (H3 p' i Hp Hi). rewrite !net_to_app. destruct (decide ((q, j) = (p', i))) as [[= <- <-]|Hx].
    + rewrite fn_lookup_insert, omap_id_app. unfold net_to at 4. cbn. rewrite decide_True by done. fold (net_to q j l2).
      rewrite <- !app_assoc. do 2 f_equiv. cbn. apply Permutation_middle.
    + rewrite fn_lookup_insert_ne by done. unfold net_to at 4. cbn. rewrite decide_False by (intros [<- <-]; done).
      fold (net_to p' i l2). done.
  - intros p' i Hp Hi. specialize (H4 p' i Hp Hi). destruct (decide ((q, j) = (p', i))) as [[= <- <-]|Hx].
    + rewrite fn_lookup_insert, nones_app, nones_Some. change (nones []) with 0%nat. unfold stopped, fin, gone in *. cbn in *. lia.
    + by rewrite !fn_lookup_insert_ne.
Qed.

Lemma machine_step_inv a a' : machine_step a a' -> machine_inv a -> machine_inv a'.
Proof.
  destruct 1; eauto using machine_inv_init, machine_inv_finish, machine_inv_quit, machine_inv_take, machine_inv_stop,
    machine_inv_deliver.
Qed.

(** *** What the invariant gives *)

Lemma has_sent_senders a j p : p ∈ has_sent a j -> p ∈ senders j.
Proof. unfold has_sent. intros Hp. by apply list_elem_of_filter in Hp as [_ Hp]. Qed.

Lemma has_sent_bound a j : (length (has_sent a j) <= length peers)%nat.
Proof.
  etrans; [apply length_filter|]. apply submseteq_length, NoDup_submseteq; [apply Hsenders|]. intros x. apply Hsenders.
Qed.

Lemma NoDup_has_sent a j : NoDup (has_sent a j).
Proof. apply NoDup_filter, Hsenders. Qed.

(** The channel never holds as much as it can: one message of each sender, and two requests to stop. *)
Lemma chan_room a q j :
  machine_inv a -> q ∈ peers -> (j < k)%nat ->
  (length (a_chan a (q, j)) + length (net_to q j (a_net a)) <= length peers + b2n (fin a q j) + b2n (gone a q))%nat.
Proof.
  intros Hi Hq Hj. pose proof (Permutation_length (mi_once _ Hi q j Hq Hj)) as Hl. rewrite !length_app in Hl.
  pose proof (mi_none _ Hi q j Hq Hj). pose proof (has_sent_bound a j). rewrite nones_omap. lia.
Qed.

(** The messages handled and the one at the head of the channel come from different senders. *)
Lemma head_new a q j p c :
  machine_inv a -> q ∈ peers -> (j < k)%nat -> a_chan a (q, j) = Some p :: c ->
  p ∈ senders j /\ NoDup (a_hist a (q, j) ++ [p]) /\ Forall (fun x => x ∈ senders j) (a_hist a (q, j)).
Proof.
  intros Hi Hq Hj E. pose proof (mi_once _ Hi q j Hq Hj) as Ho. rewrite E in Ho. cbn in Ho. fold (omap id c) in Ho.
  pose proof (NoDup_has_sent a j) as Hn. rewrite <- Ho in Hn. split_and!.
  - apply (has_sent_senders a). rewrite <- Ho. set_solver.
  - change (p :: omap id c ++ net_to q j (a_net a)) with ([p] ++ (omap id c ++ net_to q j (a_net a))) in Hn.
    rewrite app_assoc in Hn. by apply NoDup_app in Hn as [? _].
  - apply Forall_forall. intros x Hx. apply (has_sent_senders a). rewrite <- Ho. set_solver.
Qed.

(** A node that finished without all it waits for has heard all that comes. *)
Lemma fin_enough a q j p c :
  machine_inv a -> q ∈ peers -> (j < k)%nat -> a_chan a (q, j) = Some p :: c -> fin a q j = true ->
  (wait q j <= length (a_hist a (q, j)))%nat.
Proof.
  intros Hi Hq Hj E Hf. pose proof (mi_fin _ Hi q j Hq Hj Hf) as Hn. unfold need in Hn.
  pose proof (Permutation_length (mi_once _ Hi q j Hq Hj)) as Hl. rewrite E, !length_app in Hl. cbn in Hl.
  pose proof (length_filter (fun p => (2 * j < a_pos a p)%nat) (senders j)) as Hs. fold (has_sent a j) in Hs. lia.
Qed.

Lemma hist_bound a q j : machine_inv a -> q ∈ peers -> (j < k)%nat -> (length (a_hist a (q, j)) <= length (senders j))%nat.
Proof.
  intros Hi Hq Hj. pose proof (Permutation_length (mi_once _ Hi q j Hq Hj)) as Hl. rewrite !length_app in Hl.
  pose proof (length_filter (fun p => (2 * j < a_pos a p)%nat) (senders j)) as Hs. fold (has_sent a j) in Hs. lia.
Qed.

(** While a node waits for a step, the loop of the step runs and has no request to stop. *)
Lemma waiting_loop a q j :
  machine_inv a -> q ∈ peers -> (j < k)%nat -> fin a q j = false -> (0 < wait q j)%nat ->
  a_loop a (q, j) = true /\ nones (a_chan a (q, j)) = 0%nat.
Proof.
  intros Hi Hq Hj Hf Hw. pose proof (mi_none _ Hi q j Hq Hj) as Hn. rewrite Hf in Hn.
  assert (gone a q = false) as Hg.
  { unfold fin, gone in *. rewrite bool_decide_eq_false in *. lia. }
  rewrite Hg in Hn. unfold stopped in Hn. cbn [fst snd] in Hn. apply Nat.ltb_lt in Hw. rewrite Hw in Hn.
  destruct (a_loop a (q, j)); cbn in Hn; [split; [done|lia]|lia].
Qed.

(** *** Progress *)

Lemma slowest (pos : PeerInfo -> nat) l : l <> [] -> exists q, q ∈ l /\ forall p, p ∈ l -> (pos q <= pos p)%nat.
Proof.
  induction l as [|x l IH]; [done|]. intros _. destruct (decide (l = [])) as [->|Hl].
  { exists x. set_solver. }
  destruct (IH Hl) as (q & Hq & Hm). destruct (decide (pos x <= pos q)%nat).
  - exists x. split; [set_solver|]. intros p [->|Hp]%elem_of_cons; [lia|]. specialize (Hm p Hp). lia.
  - exists q. split; [set_solver|]. intros p [->|Hp]%elem_of_cons; [lia|]. by apply Hm.
Qed.

(** As long as some node has not returned, some goroutine or the network can make a step: the slowest
    node can, or a message it waits for can be delivered or handled. *)
Lemma machine_progress a :
  machine_inv a -> (exists q, q ∈ peers /\ a_pos a q <> S (2 * k)) -> exists a', machine_step a a'.
Proof.
  intros Hi (q0 & Hq0 & Hlt). destruct (slowest (a_pos a) peers) as (q & Hq & Hm); [by intros ->; apply elem_of_nil in Hq0|].
  pose proof (mi_pos _ Hi q0 Hq0). specialize (Hm q0 Hq0) as Hq0m. pose proof Hi as Hi'. destruct a as [pos hist chan loop net].
  cbn [a_pos] in *. assert (pos q <= 2 * k)%nat as Hk by lia. clear Hq0m Hlt.
  pose proof (Nat.div_mod (pos q) 2 ltac:(lia)) as Hd. pose proof (Nat.mod_upper_bound (pos q) 2 ltac:(lia)).
  set (j := (pos q / 2)%nat) in *. clearbody j. destruct (decide (pos q mod 2 = 0)%nat) as [E|E].
  { destruct (decide (j = k)) as [Ej|]; [|eexists; apply (M_init q j); [done|lia..]].
    eexists. apply (M_quit q); [done|]. lia. }
  assert (j < k)%nat as Hj by lia. assert (pos q = S (2 * j)) as Ep by lia.
  destruct (decide (need q j <= length (hist (q, j)))%nat) as [Hw|Hw]; [by eexists; apply (M_finish q j)|]. unfold need in Hw.
  assert (fin (mk_machine pos hist chan loop net) q j = false) as Hf.
  { unfold fin. cbn [a_pos]. apply bool_decide_false. lia. }
  destruct (waiting_loop _ q j Hi' Hq Hj Hf ltac:(lia)) as [Hl Hn]. cbn [a_loop a_chan] in *.
  pose proof (mi_once _ Hi' q j Hq Hj) as Ho. cbn [a_hist a_chan a_net] in Ho.
  assert (has_sent (mk_machine pos hist chan loop net) j = senders j) as Hs.
  { unfold has_sent. apply filter_all. intros p Hp. cbn [a_pos]. assert (p ∈ peers) as Hpp by (by apply (proj2 (Hsenders j))).
    specialize (Hm p Hpp). lia. }
  rewrite Hs in Ho. apply Permutation_length in Ho. rewrite !length_app in Ho.
  destruct (chan (q, j)) as [|o c] eqn:Ec.
  - destruct (net_to q j net) as [|p l] eqn:En; [cbn in Ho; lia|].
    assert (p ∈ net_to q j net) as Hp by (rewrite En; set_solver). unfold net_to in Hp.
    apply list_elem_of_omap in Hp as ([[p' q'] j'] & Hx & E'). case_decide as Hd'; [|done]. cbn in Hd', E'.
    destruct Hd' as [-> ->]. injection E' as ->. apply list_elem_of_split in Hx as (l1 & l2 & ->). eexists. apply M_deliver.
  - destruct o as [p|]; [by eexists; eapply (M_take q j)|]. by rewrite nones_None in Hn.
Qed.

(** *** Termination *)

Definition unit_work : nat := (2 * length peers + k + 1)%nat.

Definition chan_work (chan : PeerInfo * nat -> list (option PeerInfo)) : nat :=
  sum_list_with (fun q => sum_list_with (fun j => length (chan (q, j))) (seq 0 k)) peers.

Definition machine_work (a : machine) : nat :=
  (sum_list_with (fun q => (S (2 * k) - a_pos a q) * unit_work) peers + 2 * length (a_net a) + chan_work (a_chan a))%nat.

Lemma sum_list_with_agree {A} (f g : A -> nat) l :
  (forall x, x ∈ l -> f x = g x) -> sum_list_with f l = sum_list_with g l.
Proof. induction l as [|x l IH]; intros Hl; [done|]. cbn. rewrite Hl, IH by set_solver. done. Qed.

Lemma sum_list_with_update {A} (f g : A -> nat) l x :
  NoDup l -> x ∈ l -> (forall y, y ∈ l -> y <> x -> f y = g y) ->
  (sum_list_with g l + f x = sum_list_with f l + g x)%nat.
Proof.
  induction 1 as [|y l Hy Hn IH]; [set_solver|]. intros [<-|Hx]%elem_of_cons Hf; cbn.
  - rewrite (sum_list_with_agree f g l); [lia|]. intros z Hz. apply Hf; [set_solver|]. by intros ->.
  - specialize (IH Hx ltac:(intros z Hz; apply Hf; set_solver)).
    rewrite (Hf y); [lia|set_solver|]. by intros ->.
Qed.

Lemma chan_work_insert q j c chan :
  q ∈ peers -> (j < k)%nat ->
  (chan_work (<[(q, j) := c]> chan) + length (chan (q, j)) = chan_work chan + length c)%nat.
Proof.
  intros Hq Hj. unfold chan_work.
  set (f := fun q => sum_list_with (fun j => length (chan (q, j))) (seq 0 k)).
  set (g := fun p => sum_list_with (fun i => length (<[(q, j) := c]> chan (p, i))) (seq 0 k)).
  assert (g q + length (chan (q, j)) = f q + length c)%nat as Hone.
  { unfold f, g. rewrite (sum_list_with_update (fun i => length (chan (q, i)))
      (fun i => length (<[(q, j) := c]> chan (q, i))) (seq 0 k) j).
    - by rewrite fn_lookup_insert.
    - apply NoDup_seq.
    - apply elem_of_seq. lia.
    - intros i _ Hi. by rewrite fn_lookup_insert_ne by congruence. }
  assert (sum_list_with g peers + f q = sum_list_with f peers + g q)%nat as Hs.
  { apply sum_list_with_update; [done..|]. intros p _ Hp. unfold f, g. apply sum_list_with_agree. intros i _.
    by rewrite fn_lookup_insert_ne by congruence. }
  lia.
Qed.

Lemma chan_work_quit q chan :
  q ∈ peers ->
  (chan_work (fun x => if decide (x.1 = q) then chan x ++ [None] else chan x) = chan_work chan + k)%nat.
Proof.
  intros Hq. set (chan' := fun x => if decide (x.1 = q) then chan x ++ [None] else chan x). unfold chan_work.
  set (f := fun q => sum_list_with (fun j => length (chan (q, j))) (seq 0 k)).
  set (g := fun q => sum_list_with (fun j => length (chan' (q, j))) (seq 0 k)).
  assert (sum_list_with g peers + f q = sum_list_with f peers + g q)%nat as Hs.
  { apply sum_list_with_update; [done..|]. intros p _ Hp. apply sum_list_with_agree. intros i _.
    unfold chan'. cbn [fst]. by rewrite decide_False. }
  assert (g q = f q + k)%nat; [|lia]. unfold f, g. rewrite (sum_list_with_agree _ (fun j => length (chan (q, j) ++ [None]))).
  2: { intros i _. unfold chan'. cbn [fst]. by rewrite decide_True. }
  enough (forall l, sum_list_with (fun j => length (chan (q, j) ++ [None])) l
                    = (sum_list_with (fun j => length (chan (q, j))) l + length l)%nat) as -> by (by rewrite length_seq).
  induction l as [|i l IH]; cbn; [done|]. rewrite IH, length_app. cbn. lia.
Qed.

Lemma pos_work_insert q n pos :
  q ∈ peers -> (pos q < n <= S (2 * k))%nat ->
  (sum_list_with (fun p => (S (2 * k) - <[q := n]> pos p) * unit_work) peers + unit_work
   <= sum_list_with (fun p => (S (2 * k) - pos p) * unit_work) peers)%nat.
Proof.
  intros Hq Hn.
  pose proof (sum_list_with_update (fun p => (S (2 * k) - pos p) * unit_work)%nat
    (fun p => (S (2 * k) - <[q := n]> pos p) * unit_work)%nat peers q Hpeers Hq) as Hs.
  cbv beta in Hs. rewrite fn_lookup_insert in Hs.
  specialize (Hs ltac:(intros p _ Hp; by rewrite fn_lookup_insert_ne by congruence)).
  assert ((S (2 * k) - n) * unit_work + unit_work <= (S (2 * k) - pos q) * unit_work)%nat; [|lia].
  rewrite <- Nat.mul_succ_l. apply Nat.mul_le_mono_r. lia.
Qed.

Lemma length_sends q j : (length (sends q j) <= length peers)%nat.
Proof. unfold sends. case_decide; cbn; [by rewrite length_map|lia]. Qed.

(** Every step reduces the work left. *)
Lemma machine_step_work a a' : machine_inv a -> machine_step a a' -> (machine_work a' < machine_work a)%nat.
Proof.
  intros Hi Hst. unfold machine_work. destruct Hst; cbn [a_pos a_net a_chan].
  - pose proof (pos_work_insert q (S (2 * j)) pos H ltac:(lia)). pose proof (length_sends q j).
    rewrite length_app. unfold unit_work in *. lia.
  - pose proof (pos_work_insert q (2 * S j) pos H ltac:(lia)). pose proof (chan_work_insert q j (chan (q, j) ++ [None]) chan H H0) as Hc.
    rewrite length_app in Hc. cbn [length] in Hc. unfold unit_work in *. destruct peers; [set_solver|]. cbn [length] in *. lia.
  - pose proof (pos_work_insert q (S (2 * k)) pos H ltac:(lia)). rewrite chan_work_quit by done. unfold unit_work in *. lia.
  - pose proof (chan_work_insert q j c chan H H0) as Hc. rewrite H2 in Hc. cbn in Hc. lia.
  - pose proof (chan_work_insert q j c chan H H0) as Hc. rewrite H2 in Hc. cbn in Hc. lia.
  - destruct (mi_net _ Hi (p, q, j)) as [Hq Hj]; [cbn; set_solver|]. cbn in Hq, Hj.
    pose proof (chan_work_insert q j (chan (q, j) ++ [Some p]) chan Hq Hj) as Hc. rewrite !length_app in *. cbn [length] in *. lia.
Qed.

Definition session_bound : nat := (length peers * S (2 * k) * unit_work)%nat.

Lemma machine_start_work ahead : (machine_work (machine_start ahead) <= session_bound)%nat.
Proof.
  unfold machine_work, machine_start, session_bound, chan_work. cbn [a_pos a_net a_chan length].
  assert (forall l, sum_list_with (fun _ : PeerInfo => sum_list_with (fun _ : nat => 0%nat) (seq 0 k)) l = 0%nat) as ->.
  { assert (forall l, sum_list_with (fun _ : nat => 0%nat) l = 0%nat) as E by (induction l; done).
    induction l as [|x l IH]; cbn; [done|]. by rewrite IH, E. }
  assert (forall l, (sum_list_with (fun q => (S (2 * k) - b2n (ahead q)) * unit_work) l <= length l * S (2 * k) * unit_work)%nat) as Hl.
  { induction l as [|q l IH]; [done|]. cbn [sum_list_with length]. rewrite <- Nat.mul_assoc in *. rewrite (Nat.mul_succ_l (length l)).
    pose proof (Nat.mul_le_mono_r (S (2 * k) - b2n (ahead q)) (S (2 * k)) unit_work ltac:(lia)) as Hm.
    rewrite (Nat.add_comm (length l * _)). by apply Nat.add_le_mono. }
  specialize (Hl peers). lia.
Qed.

End Machine.
