(* ===== verification/Session.v ===== *)
(** * Sessions

    A protocol whose steps follow a [Plan] (who sends what to whom in a step, how many messages a node waits for,
    what the steps and the result store hold meanwhile) is run correctly by the nodes of a group that are up: the
    system of [Group.v] refines its abstract machine.  Therefore no node fails, no channel is ever full when
    something is sent on it, the group never gets stuck before all nodes have returned, and it ends within
    a known number of steps.  The plans of the signature and of the creation of a key are in [SignSession.v] and
    [KeySession.v]. *)

From stdpp Require Import functions.
From S2P Require Import Prelude BigInt Curve Schnorr Protocol Generators BaseStep Steps Context Group.

Lemma inj_on_NoDup {A B} (f : A -> B) (l : list A) x y : NoDup (map f l) -> x ∈ l -> y ∈ l -> f x = f y -> x = y.
Proof.
  intros Hn [i Hi]%list_elem_of_lookup [j Hj]%list_elem_of_lookup E. enough (i = j) as -> by congruence.
  eapply (NoDup_lookup (map f l)); [done|..]; rewrite list_lookup_fmap; [by rewrite Hi|by rewrite Hj, E].
Qed.


Section Session.
Context {C : EllipticCurve} {H : Hashes} {R : MapRange} {W : Type} {M : StoremanManager W}
  (vars : ProtocolVars) (SetMessagePeers : MpcMessage -> option (list PeerInfo) -> MpcMessage)
  (peers alive : list PeerInfo) (mpcID : Z).

Record Plan := {
  pl_steps : nat;
  pl_senders : nat -> list PeerInfo;
  pl_body : nat -> PeerInfo -> PeerInfo -> list Z * list bytes;
  pl_wait : PeerInfo -> nat -> nat;
  (* whether a step that does not get all it waits for is an error *)
  pl_waitAll : bool;
  (* has sent the request when the session starts *)
  pl_ahead : PeerInfo -> bool;
  (* the step object after the messages of some senders, before or after [InitStep] *)
  pl_inner : PeerInfo -> nat -> bool -> list PeerInfo -> StepInner -> Prop;
  (* the data of the node before [InitStep] of a step, and in its [FinishStep] *)
  pl_before : PeerInfo -> nat -> BaseMpcResult -> Entropy -> W -> Prop;
  pl_during : PeerInfo -> nat -> BaseMpcResult -> Entropy -> W -> Prop
}.

Context (pl : Plan).
#[local] Abbreviation k := (pl_steps pl).
#[local] Abbreviation senders := (pl_senders pl).
#[local] Abbreviation wait := (pl_wait pl).
#[local] Abbreviation need := (need senders wait).

(** The message of [p] to [q] in step [j]. *)
Definition wire (j : nat) (p q : PeerInfo) : MpcMessage :=
  {| mm_ContextID := mpcID; mm_StepID := Z.of_nat j; mm_Peers := []; mm_Data := (pl_body pl j p q).1;
     mm_BytesData := (pl_body pl j p q).2 |}.

Definition packet_of (x : PeerInfo * PeerInfo * nat) : packet :=
  mk_packet (PeerID x.1.1) (PeerID x.1.2) (wire x.2 x.1.1 x.1.2).

Definition entry (q : PeerInfo) (j : nat) (o : option PeerInfo) : option StepMessage :=
  (fun p => received (PeerID p) (wire j p q)) <$> o.

(** What the protocol has to satisfy, one node and one step at a time. *)
Record plan_ok : Prop := {
  po_ids : NoDup (map PeerID peers);
  po_steps : (0 < k)%nat;
  po_alive : NoDup alive /\ alive ⊆ peers;
  po_senders j : NoDup (senders j) /\ senders j ⊆ alive;
  (* who waits for more than comes waits for all others, and goes on without *)
  po_wait q j : q ∈ alive -> (j < k)%nat -> (length (senders j) < wait q j)%nat ->
    pl_waitAll pl = false /\ forall p, p ∈ alive -> p <> q -> p ∈ senders j;
  po_ahead p : p ∈ senders 0 -> pl_ahead pl p = false;
  po_handle q j b acc p s :
    q ∈ alive -> (j < k)%nat -> p ∈ senders j -> NoDup (acc ++ [p]) -> Forall (fun x => x ∈ senders j) acc ->
    pl_inner pl q j b acc s ->
    exists s', step_HandleMessage peers (received (PeerID p) (wire j p q)) s = Ret (true, s') /\ pl_inner pl q j b (acc ++ [p]) s';
  po_init q j acc res ent w s :
    q ∈ alive -> (j < k)%nat -> (b2n (pl_ahead pl q) <= 2 * j)%nat ->
    pl_before pl q j res ent w -> pl_inner pl q j false acc s ->
    exists s' ent' msgs,
      step_InitStep peers res ent s = Some (Ret (s', peers, ent')) /\
      pl_inner pl q j true acc s' /\ pl_during pl q j res ent' w /\
      step_CreateMessage peers s' = Ret msgs /\
      filter (fun pk => pk_to pk ∈ map PeerID alive)
        (omap (action_packet (PeerID q)) (concat (map (send_message (PeerID q) SetMessagePeers (map PeerID peers) mpcID j) msgs)))
      = map packet_of (sends alive senders q j);
  po_finish q j acc res ent w s :
    q ∈ alive -> (j < k)%nat -> pl_during pl q j res ent w -> pl_inner pl q j true acc s ->
    NoDup acc -> Forall (fun x => x ∈ senders j) acc -> length acc = need q j ->
    exists s' res' w', step_finish vars peers res w s = Ret (s', res', w') /\ pl_before pl q (S j) res' ent w'
}.

(** ** Representation *)

Record step_ok (q : PeerInfo) (j : nat) (initd fin gone : bool) (hist : list PeerInfo) (chan : list (option PeerInfo)) (loop : bool)
  (s : Step) : Prop := {
  so_cap : bs_msgCap (st_base s) = (length peers + 3)%nat;
  so_id : bs_stepId (st_base s) = Z.of_nat j;
  so_chan : bs_msgChan (st_base s) = map (entry q j) chan;
  so_wait : bs_waiting (st_base s) = Z.of_nat (wait q j - length hist);
  so_fin : bs_finish (st_base s) = (if fin then if gone then [None] else []
                                    else if decide (wait q j <= length hist)%nat then [None] else []);
  so_waitAll : bs_waitAll (st_base s) = pl_waitAll pl;
  so_loop : st_loop s = loop;
  so_inner : fin = false -> pl_inner pl q j initd (take (wait q j) hist) (st_inner s)
}.

Definition stage_at (n : nat) : stage :=
  if decide (n = S (2 * k)) then Finished else if decide (n = 2 * k)%nat then AtQuit
  else if Nat.even n then AtInit (n / 2) else AtFinish (n / 2).

Definition data_at (q : PeerInfo) (n : nat) : BaseMpcResult -> Entropy -> W -> Prop :=
  if decide (n = S (2 * k)) then pl_before pl q k
  else if Nat.even n then pl_before pl q (n / 2) else pl_during pl q (n / 2).

Record node_ok (a : machine) (q : PeerInfo) (nd : gnode W) : Prop := {
  no_self : g_self nd = PeerID q;
  no_id : mc_ContextID (g_ctx nd) = mpcID;
  no_peers : mc_peers (g_ctx nd) = peers;
  no_quit : mc_bQuit (g_ctx nd) = gone k a q;
  no_len : length (mc_MpcSteps (g_ctx nd)) = k;
  no_steps j s : mc_MpcSteps (g_ctx nd) !! j = Some s ->
    step_ok q j (bool_decide (2 * j < a_pos a q)%nat) (fin a q j) (gone k a q) (a_hist a (q, j)) (a_chan a (q, j)) (a_loop a (q, j)) s;
  no_stage : g_stage nd = stage_at (a_pos a q);
  no_data : data_at q (a_pos a q) (mc_mpcResult (g_ctx nd)) (g_ent nd) (g_world nd);
  no_ahead : (b2n (pl_ahead pl q) <= a_pos a q)%nat
}.

Record represents (a : machine) (g : group W) : Prop := {
  re_net : gr_net g = map packet_of (a_net a);
  re_node q : q ∈ alive -> exists nd, gr_nodes g !! PeerID q = Some nd /\ node_ok a q nd;
  re_dom id : is_Some (gr_nodes g !! id) -> exists q, q ∈ alive /\ id = PeerID q
}.

Lemma stage_init j : (j < k)%nat -> stage_at (2 * j) = AtInit j.
Proof.
  intros Hj. unfold stage_at. rewrite !decide_False by lia.
  rewrite Nat.even_mul, orb_true_l, (Nat.mul_comm 2), Nat.div_mul by done. done.
Qed.

Lemma even_odd j : Nat.even (S (2 * j)) = false.
Proof. rewrite Nat.even_succ, Nat.odd_mul. done. Qed.

Lemma div_odd j : (S (2 * j) / 2)%nat = j.
Proof. rewrite <- Nat.add_1_r, (Nat.mul_comm 2), Nat.div_add_l by done. cbn. lia. Qed.

Lemma stage_finish j : (j < k)%nat -> stage_at (S (2 * j)) = AtFinish j.
Proof. intros Hj. unfold stage_at. rewrite !decide_False by lia. by rewrite even_odd, div_odd. Qed.

Lemma stage_quit : stage_at (2 * k) = AtQuit.
Proof. unfold stage_at. rewrite decide_False by lia. by rewrite decide_True. Qed.

Lemma stage_end : stage_at (S (2 * k)) = Finished.
Proof. unfold stage_at. by rewrite decide_True. Qed.

Lemma stage_cases n :
  (n <= S (2 * k))%nat ->
  (exists j, (j < k)%nat /\ n = (2 * j)%nat) \/ (exists j, (j < k)%nat /\ n = S (2 * j)) \/ n = (2 * k)%nat \/ n = S (2 * k).
Proof.
  intros Hn. pose proof (Nat.div_mod n 2 ltac:(lia)). pose proof (Nat.mod_upper_bound n 2 ltac:(lia)).
  destruct (decide (n mod 2 = 0)%nat).
  - destruct (decide (n / 2 < k)%nat); [left; exists (n / 2)%nat; lia|lia].
  - destruct (decide (n / 2 < k)%nat); [right; left; exists (n / 2)%nat; lia|lia].
Qed.

Lemma data_before q j : (j <= k)%nat -> data_at q (2 * j) = pl_before pl q j.
Proof.
  intros Hj. unfold data_at. rewrite decide_False by lia.
  rewrite Nat.even_mul, orb_true_l, (Nat.mul_comm 2), Nat.div_mul by done. done.
Qed.

Lemma data_during q j : (j < k)%nat -> data_at q (S (2 * j)) = pl_during pl q j.
Proof. intros Hj. unfold data_at. rewrite decide_False by lia. by rewrite even_odd, div_odd. Qed.

Lemma data_end q : data_at q (S (2 * k)) = pl_before pl q k.
Proof. unfold data_at. by rewrite decide_True. Qed.

(** A step of another node does not matter. *)
Lemma node_ok_frame a a' q nd :
  a_pos a' q = a_pos a q -> (forall j, a_hist a' (q, j) = a_hist a (q, j)) -> (forall j, a_chan a' (q, j) = a_chan a (q, j)) ->
  (forall j, a_loop a' (q, j) = a_loop a (q, j)) -> node_ok a q nd -> node_ok a' q nd.
Proof.
  intros E1 E2 E3 E4 [H1 H2 H3 H4 H5 H6 H7 H8 H9]. split; try done.
  - rewrite H4. unfold gone. by rewrite E1.
  - intros j s Hs. specialize (H6 j s Hs). unfold fin, gone in *. by rewrite E1, E2, E3, E4.
  - by rewrite E1.
  - by rewrite E1.
  - by rewrite E1.
Qed.

(** ** The operations of a node follow the machine *)

Hypothesis (Hpl : plan_ok).
#[local] Abbreviation inv := (machine_inv alive k senders wait).

Lemma peers_NoDup : NoDup alive.
Proof. apply Hpl. Qed.

Lemma alive_length : (length alive <= length peers)%nat.
Proof. apply submseteq_length, NoDup_submseteq; apply Hpl. Qed.

Lemma PeerID_eq p q : p ∈ alive -> q ∈ alive -> PeerID p = PeerID q -> p = q.
Proof. intros Hp%(po_alive Hpl) Hq%(po_alive Hpl). apply (inj_on_NoDup PeerID peers); [apply Hpl|done..]. Qed.

Lemma step_exists a q nd j : node_ok a q nd -> (j < k)%nat -> exists s, mc_MpcSteps (g_ctx nd) !! j = Some s.
Proof. intros Hn Hj. apply lookup_lt_is_Some_2. by rewrite (no_len _ _ _ Hn). Qed.

(** The steps after an update at index [j]. *)
Lemma steps_insert (P : nat -> Step -> Prop) (steps : list Step) j s' :
  P j s' -> (forall i s, i <> j -> steps !! i = Some s -> P i s) -> forall i s, <[j := s']> steps !! i = Some s -> P i s.
Proof. intros Hj Hi i s [(<- & <- & _)|[Hne Hs]]%list_lookup_insert_Some; [done|]. by apply Hi. Qed.

Lemma init_ok a q nd j :
  inv a -> node_ok a q nd -> q ∈ alive -> (j < k)%nat -> a_pos a q = (2 * j)%nat ->
  exists nd' ps, node_init SetMessagePeers nd = Some (nd', ps) /\ filter (fun pk => pk_to pk ∈ map PeerID alive) ps = map packet_of (sends alive senders q j) /\
    node_ok (mk_machine (<[q := S (2 * j)]> (a_pos a)) (a_hist a) (a_chan a) (a_loop a) (a_net a ++ sends alive senders q j)) q nd'.
Proof.
  intros Hi Hn Hq Hj Ep. pose proof Hn as [H1 H2 H3 H4 H5 H6 H7 H8 H9]. destruct (step_exists _ _ _ _ Hn Hj) as [s Hs].
  pose proof (H6 j s Hs) as Hso.
  assert (fin a q j = false /\ gone k a q = false) as [Hf Hg].
  { unfold fin, gone. rewrite Ep. split; apply bool_decide_false; lia. }
  rewrite Ep, data_before in H8 by lia. rewrite Ep in H9.
  pose proof (so_inner _ _ _ _ _ _ _ _ _ Hso Hf) as Hin. rewrite bool_decide_false in Hin by lia.
  destruct (po_init Hpl q j _ _ _ _ _ Hq Hj H9 H8 Hin) as (s' & ent' & msgs & E1 & Hin' & Hdu & E2 & E3).
  unfold node_init. rewrite H7, Ep, stage_init, Hs, H3, E1, E2 by done. do 2 eexists. split; [reflexivity|]. split.
  { rewrite <- E3, H1. cbn [with_peers with_steps mc_ContextID]. rewrite H2. unfold peerIDs. cbn [mc_peers with_peers]. done. }
  split; cbn [g_self g_ctx g_stage g_ent g_world with_peers with_steps mc_ContextID mc_peers mc_bQuit mc_MpcSteps mc_mpcResult a_pos a_hist a_chan a_loop a_net];
    unfold gone, fin in *; cbn [a_pos]; rewrite ?fn_lookup_insert; try done.
  - rewrite H4, Ep. apply bool_decide_ext. lia.
  - by rewrite length_insert.
  - apply steps_insert.
    + destruct Hso as [S1 S2 S3 S4 S5 S8 S6 S7]. split; cbn [st_base st_loop st_inner]; try done.
      * rewrite S5, Ep. rewrite !bool_decide_false by lia. done.
      * intros _. by rewrite bool_decide_true by lia.
    + intros i si Hne Hsi. specialize (H6 i si Hsi). rewrite Ep in H6.
      rewrite (bool_decide_ext (2 * i < S (2 * j))%nat (2 * i < 2 * j)%nat) by lia.
      rewrite (bool_decide_ext (2 * S i <= S (2 * j))%nat (2 * S i <= 2 * j)%nat) by lia.
      rewrite (bool_decide_ext (2 * k < S (2 * j))%nat (2 * k < 2 * j)%nat) by lia. done.
  - by rewrite stage_finish.
  - by rewrite data_during.
  - destruct (pl_ahead pl q); cbn; lia.
Qed.

(** [FinishStep] once the embedded one has returned nil. *)
Lemma finish_core ev a q nd j s b' :
  inv a -> node_ok a q nd -> q ∈ alive -> (j < k)%nat -> a_pos a q = S (2 * j) -> mc_MpcSteps (g_ctx nd) !! j = Some s ->
  (length (take (wait q j) (a_hist a (q, j))) = need q j)%nat ->
  FinishStep ev (st_base s) = Some (None, b') ->
  bs_msgCap b' = bs_msgCap (st_base s) -> bs_stepId b' = bs_stepId (st_base s) -> bs_msgChan b' = bs_msgChan (st_base s) ++ [None] ->
  bs_waiting b' = bs_waiting (st_base s) -> bs_finish b' = [] -> bs_waitAll b' = bs_waitAll (st_base s) ->
  exists nd', node_finish vars ev nd = Some nd' /\
    node_ok (mk_machine (<[q := (2 * S j)%nat]> (a_pos a)) (a_hist a) (<[(q, j) := a_chan a (q, j) ++ [None]]> (a_chan a))
               (a_loop a) (a_net a)) q nd'.
Proof.
  intros Hi Hn Hq Hj Ep Hs Hlen Ef B1 B2 B3 B4 B5 B6. pose proof Hn as [H1 H2 H3 H4 H5 H6 H7 H8 H9].
  pose proof (H6 j s Hs) as Hso. pose proof Hso as [S1 S2 S3 S4 S5 S8 S6 S7].
  assert (fin a q j = false /\ gone k a q = false) as [Hf Hg].
  { unfold fin, gone. rewrite Ep. split; apply bool_decide_false; lia. }
  rewrite Hf in S5, S7. specialize (S7 eq_refl). rewrite Ep, bool_decide_true in S7 by lia.
  unfold node_finish. rewrite H7, Ep, stage_finish, Hs by done. unfold step_FinishStep. rewrite Ef. cbn [mbind option_bind].
  rewrite Ep, data_during in H8 by lia. rewrite H3.
  assert (exists s' res' w', step_finish vars peers (mc_mpcResult (g_ctx nd)) (g_world nd) (st_inner s) = Ret (s', res', w') /\
    pl_before pl q (S j) res' (g_ent nd) w') as (s' & res' & w' & E1 & Hb).
  { eapply po_finish; [done|done|done|exact H8|exact S7|..].
    - eapply sublist_NoDup; [|apply sublist_take]. pose proof (NoDup_has_sent _ _ (po_senders Hpl) a j) as Hnd.
      rewrite <- (mi_once _ _ _ _ _ Hi q j Hq Hj) in Hnd. by apply NoDup_app in Hnd as [? _].
    - apply Forall_take, Forall_forall. intros x Hx. apply (has_sent_senders senders a). rewrite <- (mi_once _ _ _ _ _ Hi q j Hq Hj). set_solver.
    - exact Hlen. }
  rewrite E1. eexists. split; [reflexivity|].
  split; cbn [g_self g_ctx g_stage g_ent g_world with_result with_steps mc_ContextID mc_peers mc_bQuit mc_MpcSteps mc_mpcResult a_pos a_hist a_chan a_loop a_net];
    unfold gone, fin in *; cbn [a_pos]; rewrite ?fn_lookup_insert; try done.
  - rewrite H4, Ep. apply bool_decide_ext. lia.
  - by rewrite length_insert.
  - apply steps_insert.
    + rewrite fn_lookup_insert. split; cbn [st_base st_loop st_inner]; rewrite ?B1, ?B2, ?B3, ?B4, ?B5, ?B6; try done.
      * by rewrite map_app, S3.
      * rewrite bool_decide_true, bool_decide_false by lia. done.
      * rewrite bool_decide_true by lia. done.
    + intros i si Hne Hsi. specialize (H6 i si Hsi). rewrite Ep in H6. rewrite fn_lookup_insert_ne by congruence.
      rewrite (bool_decide_ext (2 * i < 2 * S j)%nat (2 * i < S (2 * j))%nat) by lia.
      rewrite (bool_decide_ext (2 * S i <= 2 * S j)%nat (2 * S i <= S (2 * j))%nat) by lia.
      rewrite (bool_decide_ext (2 * k < 2 * S j)%nat (2 * k < S (2 * j))%nat) by lia. done.
  - rewrite length_insert, H5. destruct (decide (S j = k)) as [Hk|Hk]; [replace (2 * S j)%nat with (2 * k)%nat by lia; by rewrite stage_quit|]. by rewrite stage_init by lia.
  - rewrite data_before by lia. done.
  - destruct (pl_ahead pl q); cbn; lia.
Qed.

(** The step a node is in the [FinishStep] of, and the room in its channel. *)
Lemma finish_base a q nd j s :
  inv a -> node_ok a q nd -> q ∈ alive -> (j < k)%nat -> a_pos a q = S (2 * j) -> mc_MpcSteps (g_ctx nd) !! j = Some s ->
  bs_finish (st_base s) = (if decide (wait q j <= length (a_hist a (q, j)))%nat then [None] else []) /\
  chan_send (bs_msgCap (st_base s)) (bs_msgChan (st_base s)) None = Some (bs_msgChan (st_base s) ++ [None]).
Proof.
  intros Hi Hn Hq Hj Ep Hs. pose proof (no_steps _ _ _ Hn j s Hs) as [S1 S2 S3 S4 S5 S8 S6 S7].
  assert (fin a q j = false /\ gone k a q = false) as [Hf Hg].
  { unfold fin, gone. rewrite Ep. split; apply bool_decide_false; lia. }
  rewrite Hf in S5. split; [done|]. pose proof (chan_room _ _ _ _ (po_senders Hpl) a q j Hi Hq Hj) as Hr. rewrite Hf, Hg in Hr.
  pose proof alive_length. unfold chan_send. rewrite S1, S3, length_map, decide_True by (cbn in Hr; lia). done.
Qed.

Lemma finish_ok a q nd j :
  inv a -> node_ok a q nd -> q ∈ alive -> (j < k)%nat -> a_pos a q = S (2 * j) ->
  if decide (wait q j <= length (a_hist a (q, j)))%nat then
    exists nd', node_finish vars FinishReceived nd = Some nd' /\
      node_ok (mk_machine (<[q := (2 * S j)%nat]> (a_pos a)) (a_hist a) (<[(q, j) := a_chan a (q, j) ++ [None]]> (a_chan a))
                 (a_loop a) (a_net a)) q nd'
  else node_finish vars FinishReceived nd = None.
Proof.
  intros Hi Hn Hq Hj Ep. destruct (step_exists _ _ _ _ Hn Hj) as [s Hs].
  destruct (finish_base a q nd j s Hi Hn Hq Hj Ep Hs) as [Ef Ec]. case_decide as Hw.
  - eapply (finish_core _ a q nd j s _ Hi Hn Hq Hj Ep Hs); [|unfold FinishStep; by rewrite Ef, Ec|done..].
    pose proof (hist_bound _ _ _ _ a q j Hi Hq Hj). rewrite length_take. unfold Group.need. lia.
  - unfold node_finish. rewrite (no_stage _ _ _ Hn), Ep, stage_finish, Hs by done. unfold step_FinishStep, FinishStep. by rewrite Ef.
Qed.

(** The time-out, when all that comes has been heard and it is less than what is waited for. *)
Lemma timeout_ok a q nd j :
  inv a -> node_ok a q nd -> q ∈ alive -> (j < k)%nat -> a_pos a q = S (2 * j) ->
  (length (a_hist a (q, j)) < wait q j)%nat -> length (a_hist a (q, j)) = length (senders j) ->
  exists nd', node_finish vars FinishTimeout nd = Some nd' /\
    node_ok (mk_machine (<[q := (2 * S j)%nat]> (a_pos a)) (a_hist a) (<[(q, j) := a_chan a (q, j) ++ [None]]> (a_chan a))
               (a_loop a) (a_net a)) q nd'.
Proof.
  intros Hi Hn Hq Hj Ep Hlt Hall. destruct (step_exists _ _ _ _ Hn Hj) as [s Hs].
  destruct (finish_base a q nd j s Hi Hn Hq Hj Ep Hs) as [Ef Ec]. rewrite decide_False in Ef by lia.
  destruct (po_wait Hpl q j Hq Hj ltac:(lia)) as [Hwa _]. pose proof (so_waitAll _ _ _ _ _ _ _ _ _ (no_steps _ _ _ Hn j s Hs)) as Hw.
  eapply (finish_core _ a q nd j s _ Hi Hn Hq Hj Ep Hs); [|unfold FinishStep; by rewrite Ec, Hw, Hwa|done..].
  rewrite length_take. unfold Group.need. lia.
Qed.

Lemma mapM_total {A B} (f : A -> option B) (g : A -> B) l :
  (forall i x, l !! i = Some x -> f x = Some (g x)) -> mapM f l = Some (g <$> l).
Proof.
  induction l as [|x l IH]; intros Hl; [done|]. cbn. rewrite (Hl 0%nat x) by done. cbn.
  rewrite IH; [done|]. intros i. apply (Hl (S i)).
Qed.

Lemma quit_ok a q nd :
  inv a -> node_ok a q nd -> q ∈ alive -> a_pos a q = (2 * k)%nat ->
  exists nd', node_quit nd = Some nd' /\
    node_ok (mk_machine (<[q := S (2 * k)]> (a_pos a)) (a_hist a) (fun x => if decide (x.1 = q) then a_chan a x ++ [None] else a_chan a x)
               (a_loop a) (a_net a)) q nd'.
Proof.
  intros Hi Hn Hq Ep. pose proof Hn as [H1 H2 H3 H4 H5 H6 H7 H8 H9].
  assert (gone k a q = false) as Hg by (unfold gone; rewrite Ep; apply bool_decide_false; lia).
  set (f := fun s : Step => upd_base (fun b => set_finish [None] (set_msgChan (bs_msgChan b ++ [None]) b)) s).
  assert (mapM (fun s => b ← Quit None (st_base s); Some (upd_base (fun _ => b) s)) (mc_MpcSteps (g_ctx nd))
          = Some (f <$> mc_MpcSteps (g_ctx nd))) as E.
  { apply mapM_total. intros j s Hs.
    assert (j < k)%nat as Hj by (rewrite <- H5; by eapply lookup_lt_Some).
    pose proof (H6 j s Hs) as [S1 S2 S3 S4 S5 S8 S6 S7].
    pose proof (chan_room _ _ _ _ (po_senders Hpl) a q j Hi Hq Hj) as Hr. rewrite Hg in Hr.
    assert (fin a q j = true) as Hf by (unfold fin; rewrite Ep; apply bool_decide_true; lia). rewrite Hf, Hg in S5. rewrite Hf in Hr.
    unfold Quit, chan_send. rewrite S1, S3, length_map, S5. rewrite !decide_True by (pose proof alive_length; cbn in *; unfold finishCap; lia). cbn. unfold f, upd_base. by rewrite S3. }
  unfold node_quit, quit. rewrite H7, Ep, stage_quit, H4, Hg, E. cbn [mbind option_bind]. eexists. split; [reflexivity|].
  split; cbn [g_self g_ctx g_stage g_ent g_world at_stage with_ctx mc_ContextID mc_peers mc_bQuit mc_MpcSteps mc_mpcResult a_pos a_hist a_chan a_loop a_net];
    unfold gone, fin in *; cbn [a_pos]; rewrite ?fn_lookup_insert; try done.
  - symmetry. apply bool_decide_true. lia.
  - by rewrite length_fmap.
  - intros j s' Hs'. rewrite list_lookup_fmap in Hs'. apply fmap_Some in Hs' as (s & Hs & ->).
    assert (j < k)%nat as Hj by (rewrite <- H5; by eapply lookup_lt_Some).
    pose proof (H6 j s Hs) as [S1 S2 S3 S4 S5 S8 S6 S7]. cbn [fst]. rewrite decide_True by done.
    rewrite (bool_decide_true (2 * S j <= _)%nat) by lia. rewrite (bool_decide_true (2 * k < _)%nat) by lia.
    split; cbn; try done. by rewrite S3, map_app.
  - by rewrite stage_end.
  - rewrite data_end. by rewrite Ep, data_before in H8 by lia.
  - destruct (pl_ahead pl q); cbn; lia.
Qed.

Lemma set_steps_ok a a' q nd j s s' :
  node_ok a q nd -> mc_MpcSteps (g_ctx nd) !! j = Some s -> a_pos a' q = a_pos a q ->
  (forall i, i <> j -> a_hist a' (q, i) = a_hist a (q, i) /\ a_chan a' (q, i) = a_chan a (q, i) /\ a_loop a' (q, i) = a_loop a (q, i)) ->
  step_ok q j (bool_decide (2 * j < a_pos a q)%nat) (fin a q j) (gone k a q) (a_hist a' (q, j)) (a_chan a' (q, j)) (a_loop a' (q, j)) s' ->
  node_ok a' q (with_ctx (with_steps (<[j := s']> (mc_MpcSteps (g_ctx nd))) (g_ctx nd)) nd).
Proof.
  intros [H1 H2 H3 H4 H5 H6 H7 H8 H9] Hs Ep Hi Hj. split; cbn; try done; unfold gone, fin in *; rewrite ?Ep; try done.
  - by rewrite length_insert.
  - apply steps_insert; [done|]. intros i si Hne Hsi. destruct (Hi i Hne) as (-> & -> & ->). by apply H6.
Qed.

Lemma loop_ok a q nd j :
  inv a -> node_ok a q nd -> q ∈ alive -> (j < k)%nat -> a_loop a (q, j) = true ->
  match a_chan a (q, j) with
  | [] => node_loop j nd = None
  | Some p :: c =>
      exists nd', node_loop j nd = Some nd' /\
        node_ok (mk_machine (a_pos a) (<[(q, j) := a_hist a (q, j) ++ [p]]> (a_hist a)) (<[(q, j) := c]> (a_chan a)) (a_loop a) (a_net a)) q nd'
  | None :: c =>
      exists nd', node_loop j nd = Some nd' /\
        node_ok (mk_machine (a_pos a) (a_hist a) (<[(q, j) := c]> (a_chan a)) (<[(q, j) := false]> (a_loop a)) (a_net a)) q nd'
  end.
Proof.
  intros Hi Hn Hq Hj Hl. destruct (step_exists _ _ _ _ Hn Hj) as [s Hs].
  pose proof (no_steps _ _ _ Hn j s Hs) as [S1 S2 S3 S4 S5 S8 S6 S7]. rewrite Hl in S6.
  unfold node_loop. rewrite Hs, S6. unfold loop_once. rewrite S6. unfold HandleMessage. rewrite S3.
  destruct (a_chan a (q, j)) as [|[p|] c] eqn:Ec; cbn [map entry fmap option_fmap option_map]; [done|..].
  - rewrite decide_False by (cbn; unfold GetStepId; cbn; rewrite S2; tauto).
    destruct (head_new _ _ _ _ peers_NoDup (po_senders Hpl) a q j p c Hi Hq Hj Ec) as (Hp & Hnd & Hall).
    cbn [bs_waiting set_msgChan]. rewrite S4. destruct (decide (0 < Z.of_nat (wait q j - length (a_hist a (q, j))))) as [Hw|Hw].
    + assert (fin a q j = false) as Hf.
      { destruct (fin a q j) eqn:Hf; [|done]. pose proof (fin_enough _ _ _ _ a q j p c Hi Hq Hj Ec Hf). lia. }
      rewrite Hf in S5, S7. specialize (S7 eq_refl). rewrite decide_False in S5 by lia. rewrite take_ge in S7 by lia.
      rewrite (no_peers _ _ _ Hn).
      destruct (po_handle Hpl q j _ _ p _ Hq Hj Hp Hnd Hall S7) as (s' & E & Hin). rewrite E. cbn [sm_PeerID received bs_finish set_msgChan]. rewrite S5.
      set (ln := length (a_hist a (q, j))) in *.
      destruct (decide (Z.of_nat (wait q j - ln) - 1 <= 0)) as [Hz|Hz].
      * unfold chan_send. rewrite decide_True by (unfold finishCap; cbn; lia). eexists. split; [reflexivity|].
        eapply set_steps_ok; [exact Hn|exact Hs|done|..].
        -- intros i Hij. cbn. by rewrite !fn_lookup_insert_ne by congruence.
        -- cbn [a_hist a_chan a_loop]. rewrite !fn_lookup_insert, Hl, Hf. split; cbn; try done; rewrite ?length_app; fold ln; cbn [length]; try lia.
           ++ by rewrite decide_True by lia.
           ++ intros _. rewrite take_ge by (rewrite length_app; fold ln; cbn; lia). done.
      * eexists. split; [reflexivity|].
        eapply set_steps_ok; [exact Hn|exact Hs|done|..].
        -- intros i Hij. cbn. by rewrite !fn_lookup_insert_ne by congruence.
        -- cbn [a_hist a_chan a_loop]. rewrite !fn_lookup_insert, Hl, Hf. split; cbn; try done; rewrite ?length_app; fold ln; cbn [length]; try lia.
           ++ by rewrite decide_False by lia.
           ++ intros _. rewrite take_ge by (rewrite length_app; fold ln; cbn; lia). done.
    + eexists. split; [reflexivity|]. eapply set_steps_ok; [exact Hn|exact Hs|done|..].
      * intros i Hij. cbn. by rewrite !fn_lookup_insert_ne by congruence.
      * cbn [a_hist a_chan a_loop]. rewrite !fn_lookup_insert, Hl. split; cbn; try done; rewrite ?length_app; cbn [length]; try lia.
        -- rewrite S5. case_match; [done|]. rewrite !decide_True by lia. done.
        -- intros Hf. specialize (S7 Hf). rewrite take_app_le by lia. done.
  - eexists. split; [reflexivity|]. eapply set_steps_ok; [exact Hn|exact Hs|done|..].
    + intros i Hij. cbn. by rewrite !fn_lookup_insert_ne by congruence.
    + cbn [a_hist a_chan a_loop]. rewrite !fn_lookup_insert. by split.
Qed.

Lemma receive_ok a p q nd j :
  inv a -> node_ok a q nd -> (p, q, j) ∈ a_net a ->
  exists nd', node_receive (PeerID p) (wire j p q) nd = Some nd' /\
    forall net, node_ok (mk_machine (a_pos a) (a_hist a) (<[(q, j) := a_chan a (q, j) ++ [Some p]]> (a_chan a)) (a_loop a) net) q nd'.
Proof.
  intros Hi Hn Hin. destruct (mi_net _ _ _ _ _ Hi _ Hin) as [Hq Hj]. cbn in Hq, Hj. destruct (step_exists _ _ _ _ Hn Hj) as [s Hs].
  pose proof (no_steps _ _ _ Hn j s Hs) as [S1 S2 S3 S4 S5 S8 S6 S7].
  pose proof (chan_room _ _ _ _ (po_senders Hpl) a q j Hi Hq Hj) as Hr.
  assert (b2n (fin a q j) + b2n (gone k a q) <= 2)%nat by (destruct (fin a q j), (gone k a q); cbn; lia). pose proof alive_length.
  unfold node_receive. cbn [mm_StepID wire]. rewrite Nat2Z.id, Hs. cbn [mbind option_bind].
  unfold chan_send. rewrite S1, S3, length_map, decide_True by lia. cbn [mbind option_bind]. eexists. split; [reflexivity|]. intros net.
  eapply set_steps_ok; [exact Hn|exact Hs|done|..].
  - intros i Hij. cbn. by rewrite !fn_lookup_insert_ne by congruence.
  - cbn [a_hist a_chan a_loop]. rewrite !fn_lookup_insert. split; cbn; try done. by rewrite map_app.
Qed.

(** ** Refinement *)

#[local] Abbreviation gstep := (group_step vars SetMessagePeers).
#[local] Abbreviation mstep := (machine_step alive k senders wait).

Lemma represents_update a a' nodes net net' q nd' :
  represents a (mk_group nodes net) -> q ∈ alive -> node_ok a' q nd' -> net' = map packet_of (a_net a') ->
  (forall p, p <> q -> a_pos a' p = a_pos a p /\
     forall j, a_hist a' (p, j) = a_hist a (p, j) /\ a_chan a' (p, j) = a_chan a (p, j) /\ a_loop a' (p, j) = a_loop a (p, j)) ->
  represents a' (mk_group (<[PeerID q := nd']> nodes) net').
Proof.
  intros [R1 R2 R3] Hq Hn Hnet Hother. split; cbn [gr_nodes gr_net] in *; [done|..].
  - intros p Hp. destruct (decide (p = q)) as [->|Hne]; [exists nd'; by rewrite lookup_insert_eq|].
    destruct (R2 p Hp) as (nd & E & Hok). exists nd. rewrite lookup_insert_ne.
    + split; [done|]. destruct (Hother p Hne) as [E1 E2]. eapply node_ok_frame; [exact E1|apply E2..|done].
    + intros Heq. apply Hne. symmetry. by apply PeerID_eq.
  - intros id [nd Hid]. apply lookup_insert_Some in Hid as [[<- _]|[_ Hid]]; [by exists q|]. apply R3. by exists nd.
Qed.

Lemma node_of a nodes net id nd :
  represents a (mk_group nodes net) -> nodes !! id = Some nd -> exists q, q ∈ alive /\ id = PeerID q /\ node_ok a q nd.
Proof.
  intros [_ R2 R3] E. destruct (R3 id) as (q & Hq & ->); [by exists nd|]. destruct (R2 q Hq) as (nd' & E' & Hok).
  cbn [gr_nodes] in *. rewrite E in E'. injection E' as ->. by exists q.
Qed.

Lemma dom_alive a g id : represents a g -> is_Some (gr_nodes g !! id) <-> id ∈ map PeerID alive.
Proof.
  intros [_ R2 R3]. split.
  - intros (q & Hq & ->)%R3. by apply list_elem_of_fmap_2.
  - intros (q & -> & Hq)%list_elem_of_fmap. destruct (R2 q Hq) as (nd & E & _). by exists nd.
Qed.

Lemma past_init_pos n j nd :
  (j < k)%nat -> (n <= S (2 * k))%nat -> g_stage (W := W) nd = stage_at n -> past_init j nd = true <-> (2 * j < n)%nat.
Proof.
  intros Hj Hn E. unfold past_init. rewrite E.
  destruct (stage_cases n Hn) as [(i & Hi & ->)|[(i & Hi & ->)|[->| ->]]]; rewrite ?stage_init, ?stage_finish, ?stage_quit, ?stage_end by done.
  - rewrite Nat.ltb_lt. lia.
  - rewrite Nat.leb_le. lia.
  - split; [lia|done].
  - split; [lia|done].
Qed.

(** All messages of the step have been handled exactly when there is none left in the channel, on the way, or to be sent. *)
Lemma all_heard a q j :
  inv a -> q ∈ alive -> (j < k)%nat ->
  length (a_hist a (q, j)) = length (senders j) <->
  omap id (a_chan a (q, j)) = [] /\ net_to q j (a_net a) = [] /\ forall p, p ∈ senders j -> (2 * j < a_pos a p)%nat.
Proof.
  intros Hi Hq Hj. pose proof (Permutation_length (mi_once _ _ _ _ _ Hi q j Hq Hj)) as Ho. rewrite !length_app in Ho.
  pose proof (length_filter (fun p => (2 * j < a_pos a p)%nat) (senders j)) as Hs. fold (has_sent senders a j) in Hs. split.
  - intros E. split_and!; [apply nil_length_inv; lia|apply nil_length_inv; lia|].
    intros p Hp. assert (has_sent senders a j ≡ₚ senders j) as Hall.
    { apply submseteq_length_Permutation; [apply sublist_submseteq, sublist_filter|lia]. }
    rewrite <- Hall in Hp. by apply list_elem_of_filter in Hp as [? _].
  - intros (E1 & E2 & Hp). rewrite E1, E2 in Ho. unfold has_sent in Ho. rewrite filter_all in Ho by done. cbn in Ho. lia.
Qed.

Lemma net_to_nil q j net :
  net_to q j net = [] <-> Forall (fun x => ~ (x.1.2 = q /\ x.2 = j)) net.
Proof.
  unfold net_to. induction net as [|x net IH]; [done|]. rewrite Forall_cons. cbn. case_decide; [naive_solver|]. rewrite IH. naive_solver.
Qed.

Lemma heard_nothing a nodes net q nd j s :
  represents a (mk_group nodes net) -> inv a -> node_ok a q nd -> q ∈ alive -> (j < k)%nat -> a_pos a q = S (2 * j) ->
  mc_MpcSteps (g_ctx nd) !! j = Some s -> nothing_to_come nodes net (PeerID q) j s ->
  (length (a_hist a (q, j)) < wait q j)%nat /\ length (a_hist a (q, j)) = length (senders j).
Proof.
  intros Hr Hi Hok Hq Hj Ep Hs (Hc & Hf & Hpast & Hnet). split.
  - destruct (finish_base a q nd j s Hi Hok Hq Hj Ep Hs) as [Ef _]. rewrite Hf in Ef. case_decide; [done|lia].
  - apply all_heard; [done..|]. split_and!.
    + rewrite (so_chan _ _ _ _ _ _ _ _ _ (no_steps _ _ _ Hok j s Hs)) in Hc. apply map_eq_nil in Hc. by rewrite Hc.
    + apply net_to_nil. rewrite (re_net _ _ Hr : net = _) in Hnet. rewrite Forall_map in Hnet. eapply Forall_impl; [exact Hnet|].
      intros x Hx [E1 E2]. apply Hx. cbn. by rewrite E1, E2.
    + intros p Hp%(po_senders Hpl). destruct (re_node _ _ Hr p Hp) as (ndp & E & Hokp). cbn in E.
      apply (past_init_pos _ j ndp Hj (mi_pos _ _ _ _ _ Hi p Hp) (no_stage _ _ _ Hokp)). by apply (Hpast (PeerID p)).
Qed.

Lemma nothing_heard a nodes net q nd j s :
  represents a (mk_group nodes net) -> inv a -> node_ok a q nd -> q ∈ alive -> (j < k)%nat -> a_pos a q = S (2 * j) ->
  mc_MpcSteps (g_ctx nd) !! j = Some s -> (length (a_hist a (q, j)) < wait q j)%nat ->
  length (a_hist a (q, j)) = length (senders j) -> nothing_to_come nodes net (PeerID q) j s.
Proof.
  intros Hr Hi Hok Hq Hj Ep Hs Hlt Hall. pose proof (proj1 (all_heard a q j Hi Hq Hj) Hall) as (Hc & Hnet & Hp).
  destruct (finish_base a q nd j s Hi Hok Hq Hj Ep Hs) as [Ef _]. rewrite decide_False in Ef by lia. split_and!; [|done|..].
  - assert (fin a q j = false) as Hf by (unfold fin; rewrite Ep; apply bool_decide_false; lia).
    destruct (waiting_loop _ _ _ _ a q j Hi Hq Hj Hf ltac:(lia)) as [_ Hno].
    rewrite (so_chan _ _ _ _ _ _ _ _ _ (no_steps _ _ _ Hok j s Hs)). pose proof (nones_omap (a_chan a (q, j))) as Hl.
    rewrite Hno, Hc in Hl. by rewrite (nil_length_inv _ Hl).
  - intros id nd' E. destruct (node_of _ _ _ _ _ Hr E) as (p & Hpa & -> & Hokp).
    apply (past_init_pos _ j nd' Hj (mi_pos _ _ _ _ _ Hi p Hpa) (no_stage _ _ _ Hokp)).
    destruct (decide (p = q)) as [->|Hne]; [lia|]. apply Hp. by apply (po_wait Hpl q j Hq Hj ltac:(lia)).
  - apply net_to_nil in Hnet. rewrite (re_net _ _ Hr : net = _). rewrite Forall_map. apply Forall_forall. intros x Hx [E1 E2]. cbn in E1, E2.
    eapply Forall_forall in Hnet; [|exact Hx]. apply Hnet. split; [|lia]. apply PeerID_eq; [|done|done]. by apply (mi_net _ _ _ _ _ Hi).
Qed.

(** Solves the side condition of [represents_update]. *)
Ltac frame_others :=
  intros ? ?; cbn [a_pos a_hist a_chan a_loop]; rewrite ?fn_lookup_insert_ne by congruence; split; [done|];
  intros ?; rewrite ?fn_lookup_insert_ne by congruence; done.

Lemma simulation a g g' :
  represents a g -> inv a -> gstep g g' -> exists a', mstep a a' /\ represents a' g'.
Proof.
  intros Hr Hi Hst. destruct Hst as [id nd nd' ps nodes net E1 E2|id nd nd' nodes net E1 E2|id nd j0 s nd' nodes net E1 Est Es Hto E2
    |id nd nd' nodes net E1 E2|id j nd nd' nodes net E1 E2|pk nd nd' nodes l1 l2 E1 E2].
  all: destruct (node_of _ _ _ _ _ Hr E1) as (q & Hq & Hid & Hok); pose proof (mi_pos _ _ _ _ _ Hi q Hq) as Hpos;
    pose proof (no_stage _ _ _ Hok) as Hstage; pose proof (re_net _ _ Hr) as Hnet; cbn [gr_net] in Hnet; destruct a as [pos hist chan loop anet];
    cbn [a_pos a_hist a_chan a_loop a_net] in *.
  1-4: destruct (stage_cases _ Hpos) as [(j & Hj & Ep)|[(j & Hj & Ep)|[Ep|Ep]]]; rewrite Ep in Hstage;
    rewrite ?stage_init, ?stage_finish, ?stage_quit, ?stage_end in Hstage by done.
  - destruct (init_ok _ q nd j Hi Hok Hq Hj Ep) as (nd1 & ps1 & E & Eps & Hok'). rewrite E in E2. injection E2 as <- <-. subst id.
    eexists. split; [by apply M_init|]. eapply represents_update; [done|done|exact Hok'| |frame_others].
    cbn. rewrite map_app, Hnet, <- Eps. f_equal. apply list_filter_iff. intros pk. apply (dom_alive _ _ (pk_to pk) Hr).
  - unfold node_init in E2. by rewrite Hstage in E2.
  - unfold node_init in E2. by rewrite Hstage in E2.
  - unfold node_init in E2. by rewrite Hstage in E2.
  - unfold node_finish in E2. by rewrite Hstage in E2.
  - pose proof (finish_ok _ q nd j Hi Hok Hq Hj Ep) as Hf. case_decide as Hw; [|by rewrite Hf in E2].
    destruct Hf as (nd1 & E & Hok'). rewrite E in E2. injection E2 as <-. subst id.
    eexists. split; [apply M_finish; try done; unfold Group.need; cbn in Hw; lia|]. eapply represents_update; [done|done|exact Hok'|done|frame_others].
  - unfold node_finish in E2. by rewrite Hstage in E2.
  - unfold node_finish in E2. by rewrite Hstage in E2.
  - congruence.
  - rewrite Est in Hstage. injection Hstage as <-. subst id.
    destruct (heard_nothing _ _ _ _ _ _ _ Hr Hi Hok Hq Hj Ep Es Hto) as [Hlt Hall].
    destruct (timeout_ok _ q nd j0 Hi Hok Hq Hj Ep Hlt Hall) as (nd1 & E & Hok'). rewrite E in E2. injection E2 as <-.
    eexists. split; [apply M_finish; try done; unfold Group.need; cbn in Hall; lia|]. eapply represents_update; [done|done|exact Hok'|done|frame_others].
  - congruence.
  - congruence.
  - unfold node_quit in E2. by rewrite Hstage in E2.
  - unfold node_quit in E2. by rewrite Hstage in E2.
  - destruct (quit_ok _ q nd Hi Hok Hq Ep) as (nd1 & E & Hok'). rewrite E in E2. injection E2 as <-. subst id.
    eexists. split; [by apply M_quit|]. eapply represents_update; [done|done|exact Hok'|done|].
    intros p Hp. cbn [a_pos a_hist a_chan a_loop fst]. rewrite fn_lookup_insert_ne by congruence. split; [done|]. intros j. by rewrite decide_False.
  - unfold node_quit in E2. by rewrite Hstage in E2.
  - assert (j < k)%nat as Hj.
    { rewrite <- (no_len _ _ _ Hok). unfold node_loop in E2. destruct (mc_MpcSteps (g_ctx nd) !! j) eqn:Es; [|done]. by eapply lookup_lt_Some. }
    assert (loop (q, j) = true) as Hl.
    { unfold node_loop in E2. destruct (mc_MpcSteps (g_ctx nd) !! j) as [s|] eqn:Es; [|done].
      pose proof (so_loop _ _ _ _ _ _ _ _ _ (no_steps _ _ _ Hok j s Es)) as Hs. cbn in Hs. rewrite <- Hs. by destruct (st_loop s). }
    pose proof (loop_ok _ q nd j Hi Hok Hq Hj Hl) as Hlo. cbn [a_chan] in Hlo. subst id.
    destruct (chan (q, j)) as [|[p|] c] eqn:Ec; [by rewrite Hlo in E2|..].
    + destruct Hlo as (nd1 & E & Hok'). rewrite E in E2. injection E2 as <-.
      eexists. split; [by apply (M_take _ _ _ _ q j p c)|]. eapply represents_update; [done|done|exact Hok'|done|frame_others].
    + destruct Hlo as (nd1 & E & Hok'). rewrite E in E2. injection E2 as <-.
      eexists. split; [by apply (M_stop _ _ _ _ q j c)|]. eapply represents_update; [done|done|exact Hok'|done|frame_others].
  - symmetry in Hnet. apply map_eq_app in Hnet as (n1 & n2' & -> & <- & Hn2). apply map_eq_cons in Hn2 as ([[p q'] j] & n2 & -> & <- & <-).
    cbn [packet_of pk_to pk_from pk_msg fst snd] in *.
    assert (q' = q) as ->. { apply PeerID_eq; [|done|done]. eapply (mi_net _ _ _ _ _ Hi (p, q', j)). cbn. set_solver. }
    destruct (receive_ok _ p q nd j Hi Hok ltac:(cbn; set_solver)) as (nd1 & E & Hok'). rewrite E in E2. injection E2 as <-.
    eexists. split; [apply M_deliver|]. eapply represents_update; [done|done|apply Hok'|by cbn; rewrite map_app|frame_others].
Qed.

Lemma simulation_back a g a' :
  represents a g -> inv a -> mstep a a' -> exists g', gstep g g'.
Proof.
  intros Hr Hi Hst. pose proof Hr as [R1 R2 R3]. destruct g as [nodes net]. cbn [gr_nodes gr_net] in *.
  destruct Hst as [q j pos hist chan loop anet Hq Hj Ep|q j pos hist chan loop anet Hq Hj Ep Hw|q pos hist chan loop anet Hq Ep
    |q j p c pos hist chan loop anet Hq Hj Hl Ec|q j c pos hist chan loop anet Hq Hj Hl Ec|p q j l1 l2 pos hist chan loop].
  1-5: destruct (R2 q Hq) as (nd & E & Hok).
  - destruct (init_ok _ q nd j Hi Hok Hq Hj Ep) as (nd1 & ps & E1 & _). eexists. by eapply G_init.
  - pose proof (finish_ok _ q nd j Hi Hok Hq Hj Ep) as Hf. case_decide as Hd; [destruct Hf as (nd1 & E1 & _); eexists; by eapply G_finish|].
    pose proof (hist_bound _ _ _ _ _ q j Hi Hq Hj) as Hb. unfold Group.need in Hw. cbn [a_hist] in Hd, Hb.
    destruct (step_exists _ _ _ _ Hok Hj) as [s Hs]. pose proof (no_stage _ _ _ Hok) as Hst. cbn [a_pos] in Hst. rewrite Ep, stage_finish in Hst by done.
    destruct (timeout_ok _ q nd j Hi Hok Hq Hj Ep) as (nd1 & E1 & _); [cbn; lia|cbn; lia|].
    eexists. eapply G_timeout; [done|done|exact Hs| |exact E1]. eapply nothing_heard; [exact Hr|exact Hi|exact Hok|done..| |]; cbn; lia.
  - destruct (quit_ok _ q nd Hi Hok Hq Ep) as (nd1 & E1 & _). eexists. by eapply G_quit.
  - pose proof (loop_ok _ q nd j Hi Hok Hq Hj Hl) as Hlo. cbn [a_chan] in Hlo. rewrite Ec in Hlo. destruct Hlo as (nd1 & E1 & _).
    eexists. by eapply G_loop.
  - pose proof (loop_ok _ q nd j Hi Hok Hq Hj Hl) as Hlo. cbn [a_chan] in Hlo. rewrite Ec in Hlo. destruct Hlo as (nd1 & E1 & _).
    eexists. by eapply G_loop.
  - destruct (mi_net _ _ _ _ _ Hi (p, q, j) ltac:(cbn; set_solver)) as [Hq Hj]. cbn in Hq, Hj. destruct (R2 q Hq) as (nd & E & Hok).
    destruct (receive_ok _ p q nd j Hi Hok ltac:(cbn; set_solver)) as (nd1 & E1 & _). cbn [a_net] in R1. rewrite map_app in R1. cbn [map] in R1.
    subst net. eexists. by eapply (G_deliver _ _ (packet_of (p, q, j))).
Qed.

(** ** Sessions run correctly *)

Definition session_starts (g0 : group W) : Prop := represents (machine_start wait (pl_ahead pl)) g0.

Definition bound : nat := session_bound alive k.

Lemma start_inv : inv (machine_start wait (pl_ahead pl)).
Proof. eapply machine_start_inv; [apply peers_NoDup|apply Hpl|apply Hpl]. Qed.

Lemma reached a g n g' :
  represents a g -> inv a -> nsteps gstep n g g' ->
  exists a', represents a' g' /\ inv a' /\ (n + machine_work alive k a' <= machine_work alive k a)%nat.
Proof.
  intros Hr Hi Hn. revert a Hr Hi. induction Hn as [g|n g g1 g2 Hs _ IH]; intros a Hr Hi; [by exists a|].
  destruct (simulation _ _ _ Hr Hi Hs) as (a1 & Ha & Hr1).
  pose proof (machine_step_work _ _ _ _ peers_NoDup (po_senders Hpl) _ _ Hi Ha).
  assert (inv a1) as Hi1 by (eapply machine_step_inv; [apply peers_NoDup|apply Hpl|exact Ha|done]).
  destruct (IH _ Hr1 Hi1) as (a' & ? & ? & ?). exists a'. split_and!; try done. lia.
Qed.

Definition is_finished (st : stage) : bool := match st with Finished => true | _ => false end.

Lemma session_runs g0 n g :
  session_starts g0 -> nsteps gstep n g0 g ->
  (n <= bound)%nat /\
  (forall id nd e, gr_nodes g !! id = Some nd -> g_stage nd <> Failed e) /\
  (forall id nd, gr_nodes g !! id = Some nd -> g_stage nd = Finished ->
     exists q, q ∈ alive /\ id = PeerID q /\ pl_before pl q k (mc_mpcResult (g_ctx nd)) (g_ent nd) (g_world nd)) /\
  ((exists id nd, gr_nodes g !! id = Some nd /\ g_stage nd <> Finished) -> exists g', gstep g g').
Proof.
  intros Hs Hn. destruct (reached _ _ _ _ Hs start_inv Hn) as (a & Hr & Hi & Hw).
  pose proof (machine_start_work alive k wait (pl_ahead pl)). unfold bound. destruct g as [nodes net]. cbn [gr_nodes]. split_and!; [lia|..].
  - intros id nd e E He. destruct (node_of _ _ _ _ _ Hr E) as (q & Hq & -> & Hok). rewrite (no_stage _ _ _ Hok) in He.
    unfold stage_at in He. by repeat case_match.
  - intros id nd E Hf. destruct (node_of _ _ _ _ _ Hr E) as (q & Hq & -> & Hok). exists q. split_and!; [done|done|].
    pose proof (no_stage _ _ _ Hok) as Hst. rewrite Hf in Hst. pose proof (no_data _ _ _ Hok) as Hd.
    destruct (stage_cases _ (mi_pos _ _ _ _ _ Hi q Hq)) as [(j & Hj & Ep)|[(j & Hj & Ep)|[Ep|Ep]]]; rewrite Ep in *.
    + by rewrite stage_init in Hst.
    + by rewrite stage_finish in Hst.
    + by rewrite stage_quit in Hst.
    + by rewrite data_end in Hd.
  - intros (id & nd & E & Hf). destruct (node_of _ _ _ _ _ Hr E) as (q & Hq & -> & Hok).
    destruct (machine_progress _ _ _ _ peers_NoDup (po_senders Hpl) a Hi) as [a' Ha].
    + exists q. split; [done|]. intros Ep. apply Hf. rewrite (no_stage _ _ _ Hok), Ep. apply stage_end.
    + by eapply simulation_back.
Qed.

(** Some execution ends with all nodes returned; by the bound, every one that goes on as long as it can does. *)
Lemma session_ends g0 :
  session_starts g0 ->
  exists n g, nsteps gstep n g0 g /\ forall id nd, gr_nodes g !! id = Some nd -> g_stage nd = Finished.
Proof.
  intros Hs. enough (forall m n g, nsteps gstep n g0 g -> (bound - n <= m)%nat ->
    exists n g, nsteps gstep n g0 g /\ forall id nd, gr_nodes g !! id = Some nd -> g_stage nd = Finished) as Hm.
  { eapply (Hm bound 0%nat g0); [constructor|lia]. }
  intros m. induction m as [|m IH]; intros n g Hn Hb; destruct (session_runs _ _ _ Hs Hn) as (B1 & _ & _ & B4);
    destruct (decide (map_Forall (fun _ nd => is_finished (g_stage nd) = true) (gr_nodes g))) as [Ha|Hne].
  1,3: exists n, g; (split; [done|]); intros id nd E; specialize (Ha id nd E); cbn in Ha; by destruct (g_stage nd).
  all: destruct B4 as [g' Hg]; [apply map_not_Forall in Hne as (id & nd & E & Hf); [|apply _]; exists id, nd; split; [done|]; intros Es; apply Hf; cbn; by rewrite Es|].
  all: pose proof (nsteps_r _ _ _ _ Hn Hg) as Hn'; destruct (session_runs _ _ _ Hs Hn') as (B1' & _); first [lia|apply (IH _ _ Hn'); lia].
Qed.

(** ** Starting *)

(** A step as its context makes it. *)
Record fresh_step (q : PeerInfo) (j : nat) (s : Step) : Prop := {
  fs_cap : bs_msgCap (st_base s) = (length peers + 3)%nat;
  fs_id : bs_stepId (st_base s) = Z.of_nat j;
  fs_chan : bs_msgChan (st_base s) = [];
  fs_finish : bs_finish (st_base s) = [];
  fs_wait : bs_waiting (st_base s) = Z.of_nat (wait q j);
  fs_waitAll : bs_waitAll (st_base s) = pl_waitAll pl;
  fs_inner : pl_inner pl q j false [] (st_inner s)
}.

(** The context of a leader that has not drawn the seeds yet has the peers [ps0]. *)
Record fresh_ctx (ps0 : list PeerInfo) (q : PeerInfo) (c : MpcContext) : Prop := {
  fc_id : mc_ContextID c = mpcID;
  fc_peers : mc_peers c = ps0;
  fc_quit : mc_bQuit c = false;
  fc_len : length (mc_MpcSteps c) = k;
  fc_steps j s : mc_MpcSteps c !! j = Some s -> fresh_step q j s
}.

(** A node whose loops run, before the first [InitStep]. *)
Record started (ps0 : list PeerInfo) (q : PeerInfo) (nd : gnode W) : Prop := {
  sd_self : g_self nd = PeerID q;
  sd_id : mc_ContextID (g_ctx nd) = mpcID;
  sd_peers : mc_peers (g_ctx nd) = ps0;
  sd_quit : mc_bQuit (g_ctx nd) = false;
  sd_len : length (mc_MpcSteps (g_ctx nd)) = k;
  sd_steps j s : mc_MpcSteps (g_ctx nd) !! j = Some s -> step_ok q j false false false [] [] (0 <? wait q j)%nat s;
  sd_stage : g_stage nd = AtInit 0
}.

Definition start_of (s : Step) : Step :=
  {| st_base := if decide (bs_waiting (st_base s) <= 0) then set_finish [None] (st_base s) else st_base s;
     st_inner := st_inner s; st_loop := bool_decide (0 < bs_waiting (st_base s)) |}.

Lemma start_step_fresh s : bs_finish (st_base s) = [] -> start_step s = ret (start_of s).
Proof.
  intros E. unfold start_step, InitMessageLoop, start_of. rewrite E.
  destruct (decide (bs_waiting (st_base s) <= 0)); [by rewrite bool_decide_false by lia|by rewrite bool_decide_true by lia].
Qed.

Lemma start_all_fresh c :
  Forall (fun s => bs_finish (st_base s) = []) (mc_MpcSteps c) ->
  start_all c = ret (with_steps (map start_of (mc_MpcSteps c)) c).
Proof.
  unfold start_all. intros Hs.
  enough (forall acc, run_fold (fun acc s => s ← start_step s; ret (acc ++ [s])) (mc_MpcSteps c) acc
                      = ret (acc ++ map start_of (mc_MpcSteps c))) as -> by done.
  induction Hs as [|s l E Hs IH]; intros acc; cbn [run_fold map]; [by rewrite app_nil_r|].
  rewrite start_step_fresh by done. cbn [mbind run_bind ret]. etransitivity; [apply IH|]. by rewrite <- app_assoc.
Qed.

Lemma start_of_ok q j s : fresh_step q j s -> step_ok q j false false false [] [] (0 <? wait q j)%nat (start_of s).
Proof.
  intros [H1 H2 H3 H4 H5 H7 H6]. unfold start_of. rewrite H5.
  destruct (Nat.ltb_spec 0 (wait q j)); [rewrite decide_False, bool_decide_true by lia|rewrite decide_True, bool_decide_false by lia];
    split; cbn; rewrite ?take_nil, ?Nat.sub_0_r; try done.
  - by rewrite decide_False by lia.
  - by rewrite decide_True by lia.
Qed.

Lemma spawn_started ps0 q ctxType pre ent w nd :
  spawn vars (PeerID q) ctxType mpcID ps0 pre ent w = ret nd ->
  (forall c, CreateContext vars ctxType mpcID ps0 pre = Ret c ->
     fresh_ctx ps0 q c /\ mc_mpcResult c = InitializeValue pre createMpcBaseMpcResult) ->
  started ps0 q nd /\ mc_mpcResult (g_ctx nd) = InitializeValue pre createMpcBaseMpcResult /\ g_ent nd = ent /\ g_world nd = w.
Proof.
  unfold spawn. destruct (CreateContext _ _ _ _ _) as [c|e|]; try done. intros E Hc. destruct (Hc c eq_refl) as [[H1 H2 H3 H4 H5] Hr].
  cbn [mbind run_bind lift] in E. rewrite start_all_fresh in E.
  - cbn [mbind run_bind ret] in E. injection E as <-. split; [|done]. split; cbn; try done.
    + by rewrite length_map.
    + intros j s. rewrite list_lookup_fmap. intros (s0 & Hs0 & ->)%fmap_Some. by apply start_of_ok, H5.
  - apply Forall_lookup. intros j s Hs. by apply (fs_finish _ _ _ (H5 j s Hs)).
Qed.

#[local] Abbreviation start := (machine_start wait (pl_ahead pl)).

Lemma start_behind q nd :
  started peers q nd -> pl_ahead pl q = false -> pl_before pl q 0 (mc_mpcResult (g_ctx nd)) (g_ent nd) (g_world nd) -> node_ok start q nd.
Proof.
  intros [H1 H2 H3 H4 H5 H6 H7] Ha Hd. pose proof (po_steps Hpl).
  split; unfold gone, fin; cbn -[Nat.mul Nat.ltb]; rewrite ?Ha; cbn -[Nat.mul Nat.ltb]; try done.
  by rewrite H7, <- (stage_init 0) by lia.
Qed.

Lemma start_ahead ps0 q nd0 nd ps :
  started ps0 q nd0 -> pl_ahead pl q = true -> node_init SetMessagePeers nd0 = Some (nd, ps) -> g_stage nd = AtFinish 0 ->
  (forall s s' ps ent', pl_inner pl q 0 false [] s ->
     step_InitStep ps0 (mc_mpcResult (g_ctx nd0)) (g_ent nd0) s = Some (Ret (s', ps, ent')) -> mc_peers (g_ctx nd) = ps ->
     ps = peers /\ pl_inner pl q 0 true [] s' /\ pl_during pl q 0 (mc_mpcResult (g_ctx nd0)) ent' (g_world nd0)) ->
  node_ok start q nd.
Proof.
  intros [H1 H2 H3 H4 H5 H6 H7] Ha E Hst Hin. pose proof (po_steps Hpl) as Hk. unfold node_init in E. rewrite H7 in E.
  destruct (mc_MpcSteps (g_ctx nd0) !! 0%nat) as [s|] eqn:Es; [|done]. rewrite H3 in E.
  destruct (step_InitStep _ _ _ _) as [[[[s' ps'] ent']|e|]|] eqn:Ei; [|by injection E as <- <-|by injection E as <- <-|done].
  destruct (H6 0%nat s Es) as [S1 S2 S3 S4 S5 S8 S6 S7]. specialize (S7 eq_refl). rewrite take_nil in S7.
  destruct (step_CreateMessage ps' s') as [msgs|e|]; [|by injection E as <- <-..]. injection E as <- <-.
  destruct (Hin _ _ _ _ S7 Ei eq_refl) as (-> & Hin' & Hd).
  split; unfold gone, fin; cbn -[Nat.mul Nat.ltb Nat.sub]; rewrite ?Ha; cbn -[Nat.mul Nat.ltb Nat.sub]; try done.
  - rewrite H4, bool_decide_false by lia. done.
  - by rewrite length_insert.
  - apply steps_insert.
    + rewrite bool_decide_true, !bool_decide_false by lia. split; try done. by rewrite take_nil.
    + intros i si Hne Hsi. rewrite !bool_decide_false by lia. by apply H6.
  - by rewrite <- (stage_finish 0) by lia.
  - change 1%nat with (S (2 * 0)). by rewrite data_during.
Qed.

Lemma session_start (g0 : group W) :
  gr_net g0 = [] ->
  (forall id, is_Some (gr_nodes g0 !! id) -> exists q, q ∈ alive /\ id = PeerID q) ->
  (forall q, q ∈ alive -> exists nd, gr_nodes g0 !! PeerID q = Some nd /\ node_ok start q nd) ->
  session_starts g0.
Proof. intros Hn Hd Hq. by split. Qed.

End Session.

(** ** The packets of a message *)

Section Packets.
Context (SetMessagePeers : MpcMessage -> option (list PeerInfo) -> MpcMessage)
  (HSP : forall m, SetMessagePeers m None = m) (peers : list PeerInfo) (mpcID : Z).

Definition packet_with (j : nat) (q p : PeerInfo) (data : list Z) (bdata : list bytes) : packet :=
  mk_packet (PeerID q) (PeerID p)
    {| mm_ContextID := mpcID; mm_StepID := Z.of_nat j; mm_Peers := []; mm_Data := data; mm_BytesData := bdata |}.

#[local] Abbreviation packets q j msgs :=
  (omap (action_packet (PeerID q)) (concat (map (send_message (PeerID q) SetMessagePeers (map PeerID peers) mpcID j) msgs))).

Lemma p2p_packet (self id : NodeID) (msg : MpcMessage) :
  action_packet self (P2pMessage self id MPCMessage msg) = Some (mk_packet self id msg).
Proof. unfold P2pMessage. case_decide as E; cbn; [by subst|done]. Qed.

Lemma broadcast_packets q j d b : packets q j [step_message MPCMessage None d b] = map (fun p => packet_with j q p d b) peers.
Proof.
  cbn. rewrite app_nil_r. unfold send_message. cbn. rewrite HSP. unfold BroadcastMessage. cbn.
  induction peers as [|p l IH]; [done|]. cbn. rewrite p2p_packet. by rewrite IH.
Qed.

(** Point-to-point messages, one for each peer. *)
Lemma p2p_packets q j (d : PeerInfo -> list Z) :
  packets q j (map (fun p => step_message MPCMessage (Some (PeerID p)) (d p) []) peers) = map (fun p => packet_with j q p (d p) []) peers.
Proof.
  generalize (map PeerID peers) as ids. intros ids. induction peers as [|p l IH]; [done|].
  cbn. unfold send_message at 1. cbn. rewrite HSP, p2p_packet. f_equal. apply IH.
Qed.

(** The packets of a step of a plan to the nodes that run. *)
Context (alive : list PeerInfo) (Hids : NoDup (map PeerID peers)) (Halive : filter (fun p => p ∈ alive) peers = alive).

Lemma alive_packets j q (d : PeerInfo -> list Z) (b : PeerInfo -> list bytes) :
  filter (fun pk => pk_to pk ∈ map PeerID alive) (map (fun p => packet_with j q p (d p) (b p)) peers)
  = map (fun p => packet_with j q p (d p) (b p)) alive.
Proof.
  transitivity (map (fun p => packet_with j q p (d p) (b p)) (filter (fun p => p ∈ alive) peers)); [|by rewrite Halive]. assert (forall p, p ∈ alive -> p ∈ peers) as Hsub.
  { intros p Hp. rewrite <- Halive in Hp. by apply list_elem_of_filter in Hp as [_ ?]. }
  assert (forall p, p ∈ peers -> PeerID p ∈ map PeerID alive <-> p ∈ alive) as Hin.
  { intros p Hp. split; [|intros Hpa; by apply list_elem_of_fmap_2].
    intros (p' & E & Hp')%list_elem_of_fmap. enough (p = p') as -> by done.
    apply (inj_on_NoDup PeerID peers); auto. }
  clear -Hin. induction peers as [|p l IH]; [done|]. cbn [map]. rewrite !filter_cons. cbn [pk_to packet_with].
  rewrite IH by (intros x Hx; apply Hin; by right). specialize (Hin p ltac:(left)).
  destruct (decide (p ∈ alive)), (decide (PeerID p ∈ map PeerID alive)); try tauto; done.
Qed.

Lemma plan_packets {W} (pl : Plan (W := W)) q j :
  q ∈ pl_senders pl j ->
  map (packet_of mpcID pl) (sends alive (pl_senders pl) q j) = map (fun p => packet_with j q p (pl_body pl j q p).1 (pl_body pl j q p).2) alive.
Proof. intros Hq. unfold sends. by rewrite decide_True, map_map by done. Qed.

Lemma plan_broadcast {W} (pl : Plan (W := W)) q j d b :
  q ∈ pl_senders pl j -> (forall p, pl_body pl j q p = (d, b)) ->
  filter (fun pk => pk_to pk ∈ map PeerID alive) (packets q j [step_message MPCMessage None d b])
  = map (packet_of mpcID pl) (sends alive (pl_senders pl) q j).
Proof.
  intros Hq Hd. rewrite plan_packets, broadcast_packets, (alive_packets j q (fun _ => d) (fun _ => b)) by done.
  apply map_ext. intros p. by rewrite Hd.
Qed.

Lemma plan_p2p {W} (pl : Plan (W := W)) q j d :
  q ∈ pl_senders pl j -> (forall p, pl_body pl j q p = (d p, [])) ->
  filter (fun pk => pk_to pk ∈ map PeerID alive)
    (packets q j (map (fun p => step_message MPCMessage (Some (PeerID p)) (d p) []) peers))
  = map (packet_of mpcID pl) (sends alive (pl_senders pl) q j).
Proof.
  intros Hq Hd. rewrite plan_packets, p2p_packets, (alive_packets j q d (fun _ => [])) by done.
  apply map_ext. intros p. by rewrite Hd.
Qed.

Lemma share_messages (g : RandomPolynomialValue) (v : PeerInfo -> Z) :
  rp_polyValue g = map v peers ->
  MpcSKShareStep_CreateMessage peers g = Ret (map (fun p => step_message MPCMessage (Some (PeerID p)) [v p] []) peers).
Proof.
  intros E. unfold MpcSKShareStep_CreateMessage.
  set (msg := fun p => step_message MPCMessage (Some (PeerID p)) [v p] []).
  rewrite (mapM_out_map _ (fun i => default (step_message 0 None [] []) (msg <$> peers !! i))).
  - f_equal. apply list_eq. intros i. rewrite !list_lookup_fmap. destruct (decide (i < length peers)%nat) as [Hi|Hi].
    + rewrite lookup_seq_lt by done. destruct (lookup_lt_is_Some_2 peers i Hi) as [p Ep]. cbn. by rewrite Ep.
    + by rewrite lookup_seq_ge, (lookup_ge_None_2 peers) by lia.
  - intros i Hi%elem_of_seq. destruct (lookup_lt_is_Some_2 peers i ltac:(lia)) as [p Ep].
    rewrite (idx_Some _ _ _ Ep), E, (idx_Some _ _ (v p)), Ep by (by rewrite list_lookup_fmap, Ep). done.
Qed.

End Packets.
