(* ===== verification/SignSession.v ===== *)
(** * Signing sessions

    The plan of a signature: the six steps of the contexts of [mpc_sign_data.go], the messages the nodes exchange in
    them, and what every step and every result store hold in between.  By [Session.v] the nodes of a group that
    share a key therefore sign when a threshold of them are up: whatever order the network and the goroutines choose, no node
    fails, nothing blocks for ever, and all of them return the same signature within a known number of steps. *)

From stdpp Require Import functions.
From S2P Require Import Prelude BigInt Curve Secp256k1 Schnorr FieldPoly Protocol Generators BaseStep Steps Context Instances Signing Group Session.

(** ** Values collected by seed *)

Lemma ids_snoc acc p :
  list_to_set (map PeerID (acc ++ [p])) = {[PeerID p]} ∪ (list_to_set (map PeerID acc) : gset NodeID).
Proof. rewrite map_app, list_to_set_app_L. cbn. set_solver. Qed.

Lemma filter_notin (x : PeerInfo) (l : list PeerInfo) : x ∉ l -> filter (fun p => p <> x) l = l.
Proof. induction l as [|p l IH]; intros Hx; [done|]. rewrite filter_cons_True by set_solver. rewrite IH by set_solver. done. Qed.

Lemma others_length (leader : PeerInfo) (l : list PeerInfo) : NoDup l -> (length l <= S (length (filter (fun p => p <> leader) l)))%nat.
Proof.
  induction 1 as [|p l Hp Hn IH]; [cbn; lia|]. rewrite filter_cons. destruct (decide (p <> leader)) as [Hne|He]; cbn; [lia|].
  apply dec_stable in He. subst p. by rewrite filter_notin.
Qed.

Section Collected.
Context (peers : list PeerInfo) (Hgroup : group_ok peers).

Lemma by_seed_snoc {V} (v : PeerInfo -> V) acc p :
  NoDup (acc ++ [p]) -> Forall (fun x => x ∈ peers) (acc ++ [p]) ->
  list_to_map (M := gmap Z V) (by_seed v (acc ++ [p])) = <[Seed p := v p]> (list_to_map (by_seed v acc)) /\
  list_to_map (M := gmap Z V) (by_seed v acc) !! Seed p = None.
Proof.
  intros Hn Hp. assert (NoDup (map Seed (acc ++ [p]))) as Hs.
  { eapply (sub_seeds peers); [done|]. apply NoDup_submseteq; [done|]. by apply Forall_forall. }
  rewrite map_app in Hs. apply NoDup_app in Hs as (_ & Hs & _).
  assert (Seed p ∉ (by_seed v acc).*1) as Hno.
  { change (Seed p ∉ map fst (by_seed v acc)). rewrite by_seed_fst. intros Hin. apply (Hs _ Hin). cbn. set_solver. }
  unfold by_seed in *. rewrite map_app. cbn [map]. by rewrite list_to_map_snoc, not_elem_of_list_to_map_1.
Qed.

Lemma acc_sub acc : NoDup acc -> Forall (fun x => x ∈ peers) acc -> acc ⊆+ peers.
Proof. intros Hn Hp. apply NoDup_submseteq; [done|]. by apply Forall_forall. Qed.

Lemma acc_all acc : NoDup acc -> Forall (fun x => x ∈ peers) acc -> length acc = length peers -> acc ≡ₚ peers.
Proof. intros Hn Hp Hl. apply submseteq_length_Permutation; [by apply acc_sub|lia]. Qed.

(** A sender that has not been heard yet. *)
Lemma id_new acc p :
  NoDup (acc ++ [p]) -> Forall (fun x => x ∈ peers) (acc ++ [p]) -> PeerID p ∉ (list_to_set (map PeerID acc) : gset NodeID).
Proof.
  intros Hn Hp Hin. apply elem_of_list_to_set, list_elem_of_fmap in Hin as (x & E & Hx).
  assert (NoDup (map PeerID (acc ++ [p]))) as Hi.
  { destruct (submseteq_Permutation _ _ (acc_sub _ Hn Hp)) as [l Hl]. destruct Hgroup as (Hg & _).
    apply (Permutation_map PeerID) in Hl. rewrite Hl, map_app in Hg. by apply NoDup_app in Hg as [? _]. }
  rewrite map_app in Hi. apply NoDup_app in Hi as (_ & Hi & _). apply (Hi (PeerID p)); [rewrite E; by apply list_elem_of_fmap_2|cbn; set_solver].
Qed.

(** *** The collecting steps *)

Lemma share_handle (v : PeerInfo -> Z) acc p g m :
  NoDup (acc ++ [p]) -> Forall (fun x => x ∈ peers) (acc ++ [p]) -> mm_Data m = [v p] ->
  rp_message g = list_to_map (by_seed v acc) ->
  exists g', MpcSKShareStep_HandleMessage peers (received (PeerID p) m) g = Ret (true, g') /\
    rp_message g' = list_to_map (by_seed v (acc ++ [p])) /\ rp_polyValue g' = rp_polyValue g /\
    rp_randCoefficient g' = rp_randCoefficient g.
Proof.
  intros Hn Ha Hd Hm. destruct (by_seed_snoc v acc p Hn Ha) as [E1 E2]. pose proof (proj1 (Forall_forall _ _) Ha p ltac:(set_solver)) as Hp. cbn in Hp.
  unfold MpcSKShareStep_HandleMessage. cbn [sm_PeerID received of_option mbind outcome_bind sm_Data].
  rewrite getPeerSeed_in, Hm, E2, Hd by (done || apply Hgroup). eexists. split; [reflexivity|]. cbn. by rewrite E1.
Qed.

Lemma point_handle (v : PeerInfo -> Z * Z) acc p g keys m :
  NoDup (acc ++ [p]) -> Forall (fun x => x ∈ peers) (acc ++ [p]) -> mm_Data m = [(v p).1; (v p).2] ->
  pg_message g = list_to_map (by_seed v acc) ->
  exists g', MpcPointStep_HandleMessage peers (received (PeerID p) m) {| ps_messages := [g]; ps_resultKeys := keys; ps_signNum := 1 |}
      = Ret (true, {| ps_messages := [g']; ps_resultKeys := keys; ps_signNum := 1 |}) /\
    pg_message g' = list_to_map (by_seed v (acc ++ [p])) /\ pg_seed g' = pg_seed g /\ pg_preValueKey g' = pg_preValueKey g.
Proof.
  intros Hn Ha Hd Hm. destruct (by_seed_snoc v acc p Hn Ha) as [E1 E2]. pose proof (proj1 (Forall_forall _ _) Ha p ltac:(set_solver)) as Hp. cbn in Hp.
  unfold MpcPointStep_HandleMessage. cbn [sm_PeerID received of_option mbind outcome_bind sm_Data]. rewrite Hd. cbn.
  rewrite getPeerSeed_in by (done || apply Hgroup). rewrite decide_False by (by eapply group_seed_nz). rewrite Hm, E2.
  eexists. split; [reflexivity|]. cbn. rewrite E1. by destruct (v p).
Qed.

End Collected.

Lemma request_handle acc p rq m :
  rq_message rq = list_to_set (map PeerID acc) -> PeerID p ∉ (list_to_set (map PeerID acc) : gset NodeID) ->
  exists rq', RequestMpcStep_HandleMessage (received (PeerID p) m) rq = Ret (true, rq') /\
    rq_messageType rq' = rq_messageType rq /\ rq_message rq' = list_to_set (map PeerID (acc ++ [p])).
Proof.
  intros Hm Hid. unfold RequestMpcStep_HandleMessage. cbn [sm_PeerID received of_option mbind outcome_bind].
  rewrite Hm, decide_False by done. eexists. split; [reflexivity|]. cbn. by rewrite ids_snoc.
Qed.

Lemma point_init_single (res : BaseMpcResult) (g : mpcPointGenerator) (key : string) (keys : list string) (P : Z * Z) :
  pg_preValueKey g = key -> GetValue key res = Ret [P.1; P.2] ->
  exists g', MpcPointStep_InitStep res {| ps_messages := [g]; ps_resultKeys := keys; ps_signNum := 1 |}
      = Ret {| ps_messages := [g']; ps_resultKeys := keys; ps_signNum := 1 |} /\
    pg_message g' = pg_message g /\ pg_preValueKey g' = key /\ pg_seed g' = P.
Proof.
  intros Hk E. unfold MpcPointStep_InitStep. cbn [ps_messages mapM_out]. unfold mpcPointGenerator_initialize. rewrite Hk, E.
  eexists. split; [reflexivity|]. cbn. by destruct P.
Qed.

(** ** The plan *)

Section SignSession.
Context {C : EllipticCurve} {G : CurveGroup C} {H : Hashes} {R : MapRange} {W : Type} {M : StoremanManager W}
  (vars : ProtocolVars) (SetMessagePeers : MpcMessage -> option (list PeerInfo) -> MpcMessage)
  (peers : list PeerInfo) (mpcID : Z) (leader : PeerInfo).
(** The nodes that run, the polynomial of the group key, those of the nonce, and the message. *)
Context (up : PeerInfo -> bool) (f : list Z) (rho : PeerInfo -> list Z) (msg : bytes).
#[local] Abbreviation N := Params_N.

Definition alive : list PeerInfo := filter (fun p => up p = true) peers.

Definition nonce_poly : list Z := psum (map rho alive).
#[local] Abbreviation F := nonce_poly.
Definition nonce : Z := poly_at F 0.
Definition sign_challenge : Z := challenge_of msg nonce.
Definition sign_value : Z := SchnorrSign (poly_at f 0) nonce sign_challenge.
Definition threshold : nat := Z.to_nat (MpcSchnrThr vars).
Definition share_point (p : PeerInfo) : Z * Z := mulG (poly_at F (Seed p)).
Definition share_sign (p : PeerInfo) : Z := SchnorrSign (poly_at f (Seed p)) (poly_at F (Seed p)) sign_challenge.

(** What the group agreed on before: threshold, seeds, key; at least a threshold of nodes run, the leader among them; and the nonce they
    deal is one for which the curve code adds points correctly, whichever large enough part of them is heard first. *)
Record sign_group : Prop := {
  sg_vars : vars_ok vars;
  sg_peers : group_ok peers;
  sg_seeds : Forall (fun p => 0 < Seed p < N) peers;
  sg_leader : leader ∈ alive;
  sg_thr : MpcSchnrThr vars <= Z.of_nat (length alive);
  sg_f : Z.of_nat (length f) <= MpcSchnrThr vars;
  sg_rho : Forall (fun p => Z.of_nat (length (rho p)) = MpcSchnrThr vars) alive;
  sg_own : Forall (fun p => poly_at F (Seed p) <> 0) alive;
  sg_points l : l ⊆+ alive -> length l = threshold -> point_round_ok vars peers F l;
  sg_generic : verify_generic (poly_at f 0) nonce sign_challenge
}.

Definition others : list PeerInfo := filter (fun p => p <> leader) alive.

Definition sign_senders (j : nat) : list PeerInfo :=
  match j with 0%nat => others | 1%nat => [leader] | _ => alive end.

Definition sign_body (j : nat) (p q : PeerInfo) : list Z * list bytes :=
  match j with
  | 0%nat => ([MpcSignPeer], [])
  | 1%nat => ([1], [])
  | 2%nat => ([poly_at (rho p) (Seed q)], [])
  | 3%nat => ([(share_point p).1; (share_point p).2], [])
  | 4%nat => ([share_sign p], [])
  | _ => ([sign_value; (mulG nonce).1; (mulG nonce).2], [])
  end.

Definition sign_wait (q : PeerInfo) (j : nat) : nat :=
  match j with
  | 0%nat => if decide (q = leader) then threshold else 0%nat
  | 1%nat => if decide (q = leader) then 0%nat else 1%nat
  | 2%nat => length peers
  | _ => threshold
  end.

Definition sign_inner (q : PeerInfo) (j : nat) (initd : bool) (acc : list PeerInfo) (s : StepInner) : Prop :=
  match j with
  | 0%nat => if decide (q = leader)
         then exists rq, s = SRequest rq /\ rq_messageType rq = MpcSignLeader /\ rq_message rq = list_to_set (map PeerID acc)
         else s = SAck MpcSignPeer
  | 1%nat => if decide (q = leader) then s = SReady else s = SGetReady
  | 2%nat => exists g, s = SRSKShare g /\ rp_message g = list_to_map (by_seed (fun p => poly_at (rho p) (Seed q)) acc) /\
           if initd then rp_polyValue g = map (fun p => poly_at (rho q) (Seed p)) peers
           else length (rp_randCoefficient g) = threshold /\ length (rp_polyValue g) = length peers
  | 3%nat => exists g, s = SR {| ps_messages := [g]; ps_resultKeys := [RPublicKeyResult]; ps_signNum := 1 |} EmptyString /\
           pg_preValueKey g = RMpcPublicShare /\ pg_message g = list_to_map (by_seed share_point acc) /\
           (initd = true -> pg_seed g = share_point q)
  | 4%nat => exists g, s = SS {| ss_messages := [g]; ss_resultKeys := [MpcS]; ss_signNum := 1 |} /\
           sg_message g = list_to_map (by_seed share_sign acc) /\ (initd = true -> sg_seed g = share_sign q)
  | _ => exists st, s = SAckRS st /\ ar_message st = list_to_set (map PeerID acc) /\
           map_Forall (fun _ v => v = mulG nonce) (ar_remoteMpcR st) /\ map_Forall (fun _ v => v = sign_value) (ar_remoteMpcS st) /\
           (initd = true -> ar_mpcR st = mulG nonce /\ ar_mpcS st = sign_value)
  end.

(** The share of the key, the group key and the message. *)
Definition knows_key (q : PeerInfo) (res : BaseMpcResult) : Prop :=
  GetByteValue MpcM res = Ret msg /\
  GetValue MpcPrivateShare res = Ret [poly_at f (Seed q)] /\
  GetValue PublicKeyResult res = Ret [(mulG (poly_at f 0)).1; (mulG (poly_at f 0)).2].

(** The next draws of a node are the coefficients of its nonce polynomial. *)
Definition will_draw (q : PeerInfo) (ent : Entropy) : Prop :=
  exists s ds rd, crypto_rand ent = Some s :: map Some ds ++ rd /\ dealt_poly s ds = rho q.

Definition sign_result : bytes := point_bytes nonce ++ Bytes sign_value.

Record sign_data (q : PeerInfo) (drawn : bool) (j : nat) (res : BaseMpcResult) (ent : Entropy) : Prop := {
  da_key : knows_key q res;
  da_draw : drawn = false -> will_draw q ent;
  da_share : (2 < j)%nat -> GetValue RMpcPrivateShare res = Ret [poly_at F (Seed q)] /\
                            GetValue RMpcPublicShare res = Ret [(share_point q).1; (share_point q).2];
  da_point : (3 < j)%nat -> GetValue RPublicKeyResult res = Ret [(mulG nonce).1; (mulG nonce).2];
  da_sign : (4 < j)%nat -> GetValue MpcS res = Ret [sign_value];
  da_result : (5 < j)%nat -> GetByteValue MpcContextResult res = Ret sign_result
}.

Definition sign_plan : Plan (W := W) := {|
  pl_steps := 6;
  pl_senders := sign_senders;
  pl_body := sign_body;
  pl_wait := sign_wait;
  pl_waitAll := false;
  pl_ahead q := bool_decide (q = leader);
  pl_inner := sign_inner;
  pl_before q j res ent _ := sign_data q (2 <? j)%nat j res ent;
  pl_during q j res ent _ := sign_data q (1 <? j)%nat j res ent
|}.

(** ** The plan is sound *)

Hypothesis (HS : sign_group).
Hypothesis (HSP : forall m, SetMessagePeers m None = m).

Lemma thr_nat : Z.of_nat threshold = MpcSchnrThr vars /\ (1 <= threshold <= length alive)%nat /\
  threshold = S (Z.to_nat (MPCDegree vars)).
Proof. pose proof (sg_thr HS). destruct (sg_vars HS) as [H1 H2]. unfold threshold. lia. Qed.

Lemma ids_NoDup : NoDup peers.
Proof. eapply (NoDup_fmap_1 PeerID). apply (sg_peers HS). Qed.

Lemma alive_NoDup : NoDup alive.
Proof. apply NoDup_filter, ids_NoDup. Qed.

Lemma alive_in p : p ∈ alive <-> up p = true /\ p ∈ peers.
Proof. unfold alive. by rewrite list_elem_of_filter. Qed.

Lemma alive_sub : alive ⊆+ peers.
Proof. apply sublist_submseteq, sublist_filter. Qed.

Lemma alive_filter : filter (fun p => p ∈ alive) peers = alive.
Proof. apply filter_agree. intros p Hp. rewrite alive_in. tauto. Qed.

Lemma sign_senders_ok j : NoDup (sign_senders j) /\ sign_senders j ⊆ alive.
Proof.
  pose proof alive_NoDup. pose proof (sg_leader HS). destruct j as [|[|j]]; cbn; unfold others; [|split; [apply NoDup_singleton|set_solver]|done].
  split; [by apply NoDup_filter|]. intros p Hp. by apply list_elem_of_filter in Hp as [_ ?].
Qed.

Lemma in_peers j p : p ∈ sign_senders j -> p ∈ peers.
Proof. intros Hp%sign_senders_ok. by apply alive_in in Hp as [_ ?]. Qed.

Lemma all_in_peers j acc : Forall (fun x => x ∈ sign_senders j) acc -> Forall (fun x => x ∈ peers) acc.
Proof. intros Ha. eapply Forall_impl; [exact Ha|]. apply in_peers. Qed.

Lemma all_in_alive j acc : Forall (fun x => x ∈ sign_senders j) acc -> Forall (fun x => x ∈ alive) acc.
Proof. intros Ha. eapply Forall_impl; [exact Ha|]. apply sign_senders_ok. Qed.

(** Only the share step, and the leader when exactly a threshold of nodes run, wait for messages that never come. *)
Lemma sign_wait_ok q j :
  q ∈ alive -> (length (sign_senders j) < sign_wait q j)%nat -> forall p, p ∈ alive -> p <> q -> p ∈ sign_senders j.
Proof.
  pose proof thr_nat. intros Hq Hlt p Hp Hne. destruct j as [|[|[|j]]]; cbn in *; [|case_decide; lia|done|done].
  case_decide as He; [|lia]. subst q. unfold others. by apply list_elem_of_filter.
Qed.

Lemma need_share q : need sign_senders sign_wait q 2 = length alive.
Proof. pose proof (submseteq_length _ _ alive_sub). unfold need. cbn. lia. Qed.

Lemma need_thr q j : (3 <= j)%nat -> need sign_senders sign_wait q j = threshold.
Proof. pose proof thr_nat. intros Hj. unfold need. destruct j as [|[|[|j]]]; cbn; lia. Qed.

(** *** Messages *)

#[local] Abbreviation in_msg j p q := (received (PeerID p) (wire mpcID sign_plan j p q)).

Lemma sign_handle q j b acc p s :
  q ∈ alive -> (j < 6)%nat -> p ∈ sign_senders j -> NoDup (acc ++ [p]) -> Forall (fun x => x ∈ sign_senders j) acc ->
  sign_inner q j b acc s ->
  exists s', step_HandleMessage peers (in_msg j p q) s = Ret (true, s') /\ sign_inner q j b (acc ++ [p]) s'.
Proof.
  intros Hq Hj Hp%in_peers Hn Ha%all_in_peers Hs. pose proof (sg_peers HS) as Hg.
  assert (Forall (fun x => x ∈ peers) (acc ++ [p])) as Hall by (apply Forall_app; by repeat constructor).
  pose proof (id_new peers Hg acc p Hn Hall) as Hid.
  destruct j as [|[|[|[|[|j]]]]]; cbn [sign_inner] in *.
  - case_decide; [|subst s; by eexists]. destruct Hs as (rq & -> & Ht & Hm). cbn [step_HandleMessage].
    destruct (request_handle acc p rq (wire mpcID sign_plan 0 p q) Hm Hid) as (rq' & -> & E1 & E2). eexists. split; [reflexivity|]. eexists. by rewrite E1.
  - case_decide; subst s; by eexists.
  - destruct Hs as (g & -> & Hm & Hb).
    destruct (share_handle peers Hg (fun p => poly_at (rho p) (Seed q)) acc p g (wire mpcID sign_plan 2 p q) Hn Hall eq_refl Hm)
      as (g' & E & E1 & E2 & E3).
    eexists. split; [exact (f_equal (ret_fst SRSKShare) E)|]. eexists. split_and!; [done|done|]. by rewrite E2, E3.
  - destruct Hs as (g & -> & Hk & Hm & Hb).
    destruct (point_handle peers Hg share_point acc p g [RPublicKeyResult] (wire mpcID sign_plan 3 p q) Hn Hall eq_refl Hm) as (g' & E & E1 & E2 & E3).
    eexists. split; [exact (f_equal (ret_fst (fun p => SR p EmptyString)) E)|]. eexists. by rewrite E2, E3.
  - destruct Hs as (g & -> & Hm & Hb). destruct (by_seed_snoc peers Hg share_sign acc p Hn Hall) as [E1 E2].
    set (st := {| ss_messages := [g] |}).
    pose proof (collect_one (Collects := s_collects peers Hg) p (share_sign p) st (conj eq_refl eq_refl) Hp ltac:(cbn; by rewrite Hm)) as E.
    eexists. split; [exact (f_equal (ret_fst SS) E)|]. eexists. split_and!; [done|cbn; by rewrite Hm, E1|done].
  - destruct Hs as (st & -> & Hm & H1 & H2 & Hb). cbn [step_HandleMessage]. unfold MpcAckRSStep_HandleMessage.
    cbn [sm_PeerID received of_option mbind outcome_bind sm_Data mm_Data wire pl_body sign_plan sign_body fst].
    rewrite Hm, decide_False by done. eexists. split; [reflexivity|]. eexists. split_and!; [done|..].
    + cbn. by rewrite ids_snoc.
    + cbn. by apply map_Forall_insert_2; [destruct (mulG nonce)|].
    + cbn. by apply map_Forall_insert_2.
    + done.
Qed.

(** *** [InitStep] *)

#[local] Abbreviation packets q j msgs :=
  (filter (fun pk => pk_to pk ∈ map PeerID alive)
    (omap (action_packet (PeerID q)) (concat (map (send_message (PeerID q) SetMessagePeers (map PeerID peers) mpcID j) msgs)))).
#[local] Abbreviation sent q j := (map (packet_of mpcID sign_plan) (sends alive sign_senders q j)).

Lemma sign_init q j acc res ent (w : W) s :
  q ∈ alive -> (j < 6)%nat -> (b2n (bool_decide (q = leader)) <= 2 * j)%nat ->
  sign_data q (2 <? j)%nat j res ent -> sign_inner q j false acc s ->
  exists s' ent' msgs,
    step_InitStep peers res ent s = Some (Ret (s', peers, ent')) /\
    sign_inner q j true acc s' /\ sign_data q (1 <? j)%nat j res ent' /\
    step_CreateMessage peers s' = Ret msgs /\ packets q j msgs = sent q j.
Proof.
  intros Hq Hj Hl Hd Hs. pose proof Hd as [(DM & DP & DK) D0 D2 D3 D4 D5].
  destruct j as [|[|[|[|[|j]]]]]; cbn [sign_inner] in *.
  - destruct (decide (q = leader)) as [He|He]; [rewrite bool_decide_true in Hl by done; cbn in Hl; lia|]. subst s.
    do 3 eexists. split_and!; [reflexivity|done|done|reflexivity|]. apply (plan_broadcast _ HSP peers mpcID alive (proj1 (sg_peers HS)) alive_filter sign_plan); [|done].
    cbn. unfold others. by apply list_elem_of_filter.
  - destruct (decide (q = leader)) as [->|He]; subst s; do 3 eexists; (split_and!; [reflexivity|done|done|reflexivity|]).
    + apply (plan_broadcast _ HSP peers mpcID alive (proj1 (sg_peers HS)) alive_filter sign_plan); [cbn; set_solver|done].
    + unfold sends. cbn [sign_senders]. by rewrite decide_False by set_solver.
  - destruct Hs as (g & -> & Hm & Hc & Hv). destruct (D0 eq_refl) as (sc & ds & rd & E & Ed).
    assert (length (rho q) = threshold) as Hlen.
    { pose proof (proj1 (Forall_forall _ _) (sg_rho HS) q Hq) as Hr. cbn in Hr. unfold threshold. lia. }
    cbn [step_InitStep]. rewrite E, (initialize_draws N_prime), Ed; [|rewrite Hc, <- Hlen, <- Ed; cbn; by rewrite length_map|done].
    do 3 eexists. split_and!; [reflexivity|by eexists|by split|by apply (share_messages peers _ (fun p => poly_at (rho q) (Seed p)))|].
    by apply (plan_p2p _ HSP peers mpcID alive (proj1 (sg_peers HS)) alive_filter sign_plan q 2 (fun p => [poly_at (rho q) (Seed p)])).
  - destruct Hs as (g & -> & Hk & Hm & _). destruct (D2 ltac:(lia)) as [DR DS].
    destruct (point_init_single res g _ [RPublicKeyResult] _ Hk DS) as (g' & E & E1 & E2 & E3).
    cbn [step_InitStep]. rewrite E. do 3 eexists. split_and!; [reflexivity| |by split|reflexivity|].
    + eexists. split_and!; [done|done|by rewrite E1|done].
    + rewrite E3. by apply (plan_broadcast _ HSP peers mpcID alive (proj1 (sg_peers HS)) alive_filter sign_plan q 3).
  - destruct Hs as (g & -> & Hm & _). destruct (D2 ltac:(lia)) as [DR DS]. specialize (D3 ltac:(lia)).
    cbn [step_InitStep]. unfold MpcSStep_InitStep. cbn [ss_messages mapM_out]. unfold mpcSGenerator_initialize.
    rewrite D3, DM, DR, DP. cbn [mbind outcome_bind idx lookup list_lookup].
    rewrite <- surjective_pairing, challenge_mulG by apply (sg_generic HS).
    do 3 eexists. split_and!; [reflexivity|by eexists|by split|reflexivity|]. by apply (plan_broadcast _ HSP peers mpcID alive (proj1 (sg_peers HS)) alive_filter sign_plan q 4).
  - destruct Hs as (st & -> & Hm & H1 & H2 & _). assert (j = 0)%nat as -> by lia. specialize (D3 ltac:(lia)). specialize (D4 ltac:(lia)).
    cbn [step_InitStep]. unfold MpcAckRSStep_InitStep. rewrite D3. cbn [mbind outcome_bind idx lookup list_lookup]. rewrite D4.
    do 3 eexists. split_and!; [reflexivity| |by split|reflexivity|].
    + eexists. split_and!; [done..|]. intros _. cbn. by destruct (mulG nonce).
    + by apply (plan_broadcast _ HSP peers mpcID alive (proj1 (sg_peers HS)) alive_filter sign_plan q 5).
Qed.

(** *** [FinishStep] *)

Lemma sign_finish q j acc res ent (w : W) s :
  q ∈ alive -> (j < 6)%nat -> sign_data q (1 <? j)%nat j res ent -> sign_inner q j true acc s ->
  NoDup acc -> Forall (fun x => x ∈ sign_senders j) acc -> length acc = need sign_senders sign_wait q j ->
  exists s' res' w', step_finish vars peers res w s = Ret (s', res', w') /\ sign_data q (2 <? S j)%nat (S j) res' ent.
Proof.
  intros Hq Hj Hd Hs Hn Ha%all_in_alive Hlen. pose proof Hd as [(DM & DP & DK) D0 D2 D3 D4 D5]. pose proof thr_nat as (T1 & T2 & T3).
  pose proof (psum_short vars alive rho) as HF. fold nonce_poly in HF.
  assert (Z.of_nat (length F) <= MpcSchnrThr vars) as HF'.
  { apply HF; [|apply (sg_vars HS)]. eapply Forall_impl; [apply (sg_rho HS)|]. cbn. lia. }
  destruct j as [|[|[|[|[|j]]]]]; cbn [sign_inner] in *; rewrite ?need_thr in Hlen by lia.
  - assert (forall v, sign_data q false 1 (SetValue MPCAction v res) ent) as Hv.
    { intros v. split; [|done|lia..]. unfold knows_key. solve_store. }
    case_decide; [destruct Hs as (rq & -> & _)|subst s]; do 3 eexists; (split; [reflexivity|apply Hv]).
  - assert (sign_data q false 2 res ent) by (split; [done|done|lia..]). case_decide; subst s; by do 3 eexists.
  - destruct Hs as (g & -> & Hm & _).
    rewrite need_share in Hlen.
    destruct (share_finish_ok peers (sg_peers HS) RMpcPrivateShare RMpcPublicShare rho alive acc (Seed q) res g) as [g2 E];
      [apply alive_sub|by apply acc_all|done|by apply (proj1 (Forall_forall _ _) (sg_own HS))|].
    cbn [step_finish]. unfold MpcRSKShare_Step_finish. rewrite E. do 3 eexists. split; [reflexivity|].
    unfold put_point. split; [unfold knows_key; solve_store|done|intros _; solve_store|lia..].
  - destruct Hs as (g & -> & Hk & Hm & _).
    destruct (point_finish_ok vars peers (sg_peers HS) (sg_seeds HS) F acc RPublicKeyResult res
      {| ps_messages := [g]; ps_resultKeys := [RPublicKeyResult]; ps_signNum := 1 |}) as [s2 E];
      [apply (sg_vars HS)|by apply (sg_points HS); [apply acc_sub|]|done|done|done|].
    cbn [step_finish]. rewrite E. do 3 eexists. split; [reflexivity|]. specialize (D2 ltac:(lia)) as [].
    unfold put_point. split; [unfold knows_key; solve_store|done|intros _; solve_store..|lia|lia].
  - destruct Hs as (g & -> & Hm & _).
    destruct (s_finish_ok vars peers (sg_peers HS) (sg_seeds HS) f F sign_challenge acc MpcS res
      {| ss_messages := [g]; ss_resultKeys := [MpcS]; ss_signNum := 1 |}) as [s2 E];
      [apply (sg_vars HS)|etrans; [by apply acc_sub|apply alive_sub]|apply (sg_f HS)|done|lia|done|done|done|].
    cbn [step_finish]. rewrite E. do 3 eexists. split; [reflexivity|]. specialize (D2 ltac:(lia)) as []. specialize (D3 ltac:(lia)).
    split; [unfold knows_key; solve_store|done|intros _; solve_store..|lia].
  - destruct Hs as (st & -> & Hm & H1 & H2 & Hb). destruct (Hb eq_refl) as [E1 E2]. assert (j = 0)%nat as -> by lia.
    cbn [step_finish]. rewrite (ackRS_finish_ok (poly_at f 0) nonce msg); [|apply (sg_generic HS)|done..].
    do 3 eexists. split; [reflexivity|]. specialize (D2 ltac:(lia)) as []. specialize (D3 ltac:(lia)). specialize (D4 ltac:(lia)).
    split; [unfold knows_key; solve_store|done|intros _; solve_store..].
Qed.

Lemma sign_plan_ok : plan_ok vars SetMessagePeers peers alive mpcID sign_plan.
Proof.
  split; cbn [pl_steps pl_senders pl_wait pl_waitAll pl_ahead pl_inner pl_before pl_during sign_plan].
  - apply (sg_peers HS).
  - lia.
  - split; [apply alive_NoDup|]. intros p. rewrite alive_in. tauto.
  - apply sign_senders_ok.
  - intros q j Hq _ Hlt. split; [done|]. by apply sign_wait_ok.
  - intros p Hp. apply bool_decide_false. cbn in Hp. unfold others in Hp. by apply list_elem_of_filter in Hp as [? _].
  - apply sign_handle.
  - apply sign_init.
  - apply sign_finish.
Qed.

(** ** Starting a session *)

Definition sign_type (q : PeerInfo) : Z := if decide (q = leader) then MpcSignLeader else MpcSignPeer.

(** Checks the fields of a step that has just been created. *)
Ltac fresh_base := split; cbn; try done; try (case_decide; lia); try lia.

Lemma sign_context_fresh q pre c :
  CreateContext vars (sign_type q) mpcID peers pre = Ret c ->
  fresh_ctx peers mpcID sign_plan peers q c /\ mc_mpcResult c = InitializeValue pre createMpcBaseMpcResult.
Proof.
  pose proof thr_nat as (T1 & T2 & T3). pose proof (sg_vars HS) as [V1 V2].
  unfold CreateContext. destruct (mapM_out log_value pre) as [u|e|]; try done. cbn [mbind outcome_bind]. unfold sign_type.
  destruct (decide (q = leader)) as [He|He]; repeat (rewrite decide_False by done); rewrite decide_True by done;
    unfold reqSignMpc, ackSignMpc, CreateRequestMpcStep, generateTxSignMpc, CreateMpcSKShareStep, createSkPolyValue;
    cbn [mc_peers createMpcContext]; rewrite decide_False by lia; cbn [mbind outcome_bind]; intros [= <-].
  all: split; [|done]; split; try done.
  all: intros j s Hs; destruct j as [|[|[|[|[|[|j]]]]]]; cbn in Hs; [injection Hs as <-..|done].
  all: fresh_base; rewrite ?decide_True, ?decide_False by done; try done; try lia.
  all: eexists; (split; [reflexivity|]); cbn; rewrite ?length_replicate; split_and!; first [done|lia].
Qed.

(** Every node that runs has made its context from its pre-set values, which hold its share of the key, the group key and the
    message; the leader has sent its request. *)
Record sign_start (g0 : group W) : Prop := {
  st_net : gr_net g0 = [];
  st_dom id : is_Some (gr_nodes g0 !! id) -> exists q, q ∈ alive /\ id = PeerID q;
  st_peer q : q ∈ alive -> q <> leader -> exists pre ent w nd,
    spawn vars (PeerID q) MpcSignPeer mpcID peers pre ent w = ret nd /\ gr_nodes g0 !! PeerID q = Some nd /\
    knows_key q (InitializeValue pre createMpcBaseMpcResult) /\ will_draw q ent;
  st_leader : exists pre ent w nd0 nd ps,
    spawn vars (PeerID leader) MpcSignLeader mpcID peers pre ent w = ret nd0 /\
    node_init SetMessagePeers nd0 = Some (nd, ps) /\ g_stage nd = AtFinish 0 /\ gr_nodes g0 !! PeerID leader = Some nd /\
    knows_key leader (InitializeValue pre createMpcBaseMpcResult) /\ will_draw leader ent
}.

Lemma request_init acc rq res ent s' ps ent' :
  rq_messageType rq = MpcSignLeader -> rq_message rq = list_to_set (map PeerID acc) ->
  step_InitStep peers res ent (SRequest rq) = Some (Ret (s', ps, ent')) ->
  ps = peers /\ crypto_rand ent' = crypto_rand ent /\
  exists rq', s' = SRequest rq' /\ rq_messageType rq' = MpcSignLeader /\ rq_message rq' = list_to_set (map PeerID acc).
Proof.
  intros Ht Hm. cbn [step_InitStep]. unfold RequestMpcStep_InitStep. rewrite Ht, decide_False, decide_True by done.
  destruct (GetByteValue MpcAddress res); try done. cbn. destruct (GetByteValue MpcM res); try done. cbn.
  destruct (GetByteValue MpcExt res); try done. cbn. destruct (GetValue MpcByApprove res); try done. cbn.
  intros [= <- <- <-]. split_and!; [done|done|]. by eexists.
Qed.

Lemma sign_starts g0 : sign_start g0 -> session_starts peers alive mpcID sign_plan g0.
Proof.
  intros [S1 S2 S3 S4]. pose proof sign_plan_ok as Hpl. apply session_start; [done|done|]. intros q Hq.
  destruct (decide (q = leader)) as [->|Hne].
  - destruct S4 as (pre & ent & w & nd0 & nd & ps & E1 & E2 & E3 & E4 & Hk & Hd). exists nd. split; [done|].
    destruct (spawn_started _ peers _ sign_plan peers leader _ _ _ _ _ E1) as (Hst & Er & Ee & Ew).
    { intros c Hc. apply (sign_context_fresh _ pre). unfold sign_type. by rewrite decide_True. }
    eapply start_ahead; [exact Hpl|exact Hst|by apply bool_decide_true|exact E2|exact E3|].
    intros s s' ps' ent' Hin Ei _. cbn [pl_inner sign_plan sign_inner] in *. rewrite decide_True in * by done.
    destruct Hin as (rq & -> & Ht & Hm). destruct (request_init [] _ _ _ _ _ _ Ht Hm Ei) as (-> & Ec & Hrq).
    split_and!; [done|done|]. cbn [pl_during sign_plan]. rewrite Er. split; try (cbn; lia); [done|].
    intros _. unfold will_draw. rewrite Ec, Ee. exact Hd.
  - destruct (S3 q Hq Hne) as (pre & ent & w & nd & E1 & E2 & Hk & Hd). exists nd. split; [done|].
    destruct (spawn_started _ peers _ sign_plan peers q _ _ _ _ _ E1) as (Hst & Er & Ee & Ew).
    { intros c Hc. apply (sign_context_fresh _ pre). unfold sign_type. by rewrite decide_False. }
    eapply start_behind; [exact Hpl|exact Hst|by apply bool_decide_false|]. cbn [pl_before sign_plan]. rewrite Er, Ee.
    split; [done|done|lia..].
Qed.

Lemma finished_result g0 g n :
  session_starts peers alive mpcID sign_plan g0 -> nsteps (group_step vars SetMessagePeers) n g0 g ->
  forall id nd, gr_nodes g !! id = Some nd -> g_stage nd = Finished -> getMpcResult (g_ctx nd) = sign_result.
Proof.
  intros Hs Hn id nd E Hf. destruct (session_runs _ _ _ _ _ _ sign_plan_ok _ _ _ Hs Hn) as (_ & _ & B3 & _).
  destruct (B3 id nd E Hf) as (q & _ & _ & Hd). unfold getMpcResult.
  cbn [pl_before pl_steps sign_plan] in Hd. by rewrite (da_result _ _ _ _ _ Hd) by lia.
Qed.

(** *** The theorems *)

(** C1: a threshold of nodes signs.  Any number of nodes may be down as long as [MpcSchnrThr] run, the leader among them.  From the moment the
    contexts of a signature exist, in every execution of the group (any order of the deliveries, of the loops and of the main
    goroutines, and time-outs for the messages that never come): no node fails or panics; a node that returns has the result [R || s], the
    same at all nodes; as long as some node has not returned some step is possible; and there are at most [n * 13 * (2 n + 7)] steps, where [n]
    is the number of nodes that run. *)
Theorem group_signs (g0 g : group W) (n : nat) :
  sign_start g0 -> nsteps (group_step vars SetMessagePeers) n g0 g ->
  (n <= length alive * 13 * (2 * length alive + 7))%nat /\
  (forall id nd e, gr_nodes g !! id = Some nd -> g_stage nd <> Failed e) /\
  (forall id nd, gr_nodes g !! id = Some nd -> g_stage nd = Finished -> getMpcResult (g_ctx nd) = sign_result) /\
  ((exists id nd, gr_nodes g !! id = Some nd /\ g_stage nd <> Finished) -> exists g', group_step vars SetMessagePeers g g').
Proof.
  intros Hs Hn. destruct (session_runs _ _ _ _ _ _ sign_plan_ok _ _ _ (sign_starts _ Hs) Hn) as (B1 & B2 & _ & B4).
  split_and!; [|done| |done].
  - etransitivity; [exact B1|]. unfold bound, session_bound. cbn [pl_steps sign_plan]. apply Nat.eq_le_incl. f_equal. unfold unit_work. lia.
  - eapply finished_result; [by apply sign_starts|exact Hn].
Qed.

(** C3: a group ends.  A signing session can be carried to its end, and then every node has returned the signature. *)
Theorem group_signs_ends (g0 : group W) :
  sign_start g0 ->
  exists n g, nsteps (group_step vars SetMessagePeers) n g0 g /\
    forall id nd, gr_nodes g !! id = Some nd -> g_stage nd = Finished /\ getMpcResult (g_ctx nd) = sign_result.
Proof.
  intros Hs%sign_starts. destruct (session_ends _ _ _ _ _ _ sign_plan_ok _ Hs) as (n & g & Hn & Hf). exists n, g. split; [done|].
  intros id nd E. split; [by eapply Hf|]. eapply finished_result; eauto.
Qed.

End SignSession.

(** ** A group of three nodes *)

#[local] Existing Instances smallC small_group list_range toy_hashes.

Definition idle_manager : StoremanManager unit := {| CreateKeystore res _ _ w := Ret (res, w) |}.
#[local] Existing Instance idle_manager.

Definition toy_pre (q : PeerInfo) : list MpcValue :=
  [ {| mv_Key := MpcM; mv_Value := None; mv_ByteValue := Some toy_M |};
    {| mv_Key := MpcAddress; mv_Value := None; mv_ByteValue := Some [] |};
    {| mv_Key := MpcExt; mv_Value := None; mv_ByteValue := Some [] |};
    {| mv_Key := MpcByApprove; mv_Value := Some [0]; mv_ByteValue := None |};
    {| mv_Key := MpcPrivateShare; mv_Value := Some [poly_at toy_f (Seed q)]; mv_ByteValue := None |};
    {| mv_Key := PublicKeyResult; mv_Value := Some [(mulG (poly_at toy_f 0)).1; (mulG (poly_at toy_f 0)).2]; mv_ByteValue := None |} ].

Definition toy_entropy (q : PeerInfo) : Entropy :=
  {| crypto_rand := map Some (if decide (Seed q = 3) then [3; 8] else if decide (Seed q = 5) then [5; 1] else [6; 0]); math_rand := [] |}.

Definition toy_set_peers (m : MpcMessage) (ps : option (list PeerInfo)) : MpcMessage :=
  match ps with
  | None => m
  | Some _ => {| mm_ContextID := mm_ContextID m; mm_StepID := mm_StepID m; mm_Peers := [Byte.x01]; mm_Data := mm_Data m; mm_BytesData := mm_BytesData m |}
  end.

(** Calls that return, and reach the [FinishStep] of the first step. *)
Definition returns {A} (r : run A) : bool := match r with Some (Ret _) => true | _ => false end.

Lemma returns_ret {A} (r : run A) : returns r = true -> exists a, r = ret a.
Proof. destruct r as [[a|e|]|]; try done. by exists a. Qed.

Section ToyGroup.
Context {W : Type} {M : StoremanManager W} (live : list PeerInfo) (spawned : PeerInfo -> run (gnode W)).
Hypothesis (Hlive : forall p, p ∈ live -> p ∈ toy_peers).

Definition toy_node (q : PeerInfo) : option (gnode W) :=
  match spawned q with
  | Some (Ret nd) => if decide (q = peer1) then fst <$> node_init toy_set_peers nd else Some nd
  | _ => None
  end.

Definition toy_started : group W :=
  mk_group (list_to_map (omap (fun q => pair (PeerID q) <$> toy_node q) live)) [].

Lemma toy_dom id : is_Some (gr_nodes toy_started !! id) -> exists q, q ∈ live /\ id = PeerID q.
Proof.
  intros [nd E]. unfold toy_started in E. cbn [gr_nodes] in E. apply elem_of_list_to_map_2, list_elem_of_omap in E as (q & Hq & E).
  exists q. split; [done|]. apply fmap_Some in E as (x & _ & E). by injection E as -> _.
Qed.

Lemma toy_lookup q nd : q ∈ live -> toy_node q = Some nd -> gr_nodes toy_started !! PeerID q = Some nd.
Proof.
  intros Hq E. apply elem_of_list_to_map_1'.
  - intros nd' (p & Hp & (x & Ep & [= Eid ->])%fmap_Some)%list_elem_of_omap. enough (p = q) by congruence.
    apply Hlive in Hq, Hp. unfold toy_peers in *. set_unfold. naive_solver.
  - apply list_elem_of_omap. exists q. split; [done|]. by rewrite E.
Qed.

Definition first_init (nd : gnode W) : bool :=
  match node_init toy_set_peers nd with
  | Some (nd', _) => match g_stage nd' with AtFinish 0 => bool_decide (mc_peers (g_ctx nd') = toy_peers) | _ => false end
  | None => false
  end.

Lemma toy_peer q :
  Forall (fun q => returns (spawned q) = true) live -> q ∈ live -> q <> peer1 ->
  exists nd, spawned q = ret nd /\ gr_nodes toy_started !! PeerID q = Some nd.
Proof.
  intros Hall Hq Hne. destruct (returns_ret _ (proj1 (Forall_forall _ _) Hall q Hq)) as [nd E].
  exists nd. split; [done|]. apply toy_lookup; [done|]. unfold toy_node. rewrite E. cbn [ret]. by rewrite decide_False.
Qed.

Lemma toy_leader :
  peer1 ∈ live -> match spawned peer1 with Some (Ret nd) => first_init nd | _ => false end = true ->
  exists nd0 nd ps, spawned peer1 = ret nd0 /\ node_init toy_set_peers nd0 = Some (nd, ps) /\ g_stage nd = AtFinish 0 /\
    mc_peers (g_ctx nd) = toy_peers /\ gr_nodes toy_started !! PeerID peer1 = Some nd.
Proof.
  intros Hl Hf. destruct (spawned peer1) as [[nd0|e|]|] eqn:E; try done. unfold first_init in Hf.
  destruct (node_init toy_set_peers nd0) as [[nd ps]|] eqn:E2; [|done]. exists nd0, nd, ps.
  destruct (g_stage nd) as [|[]| | |] eqn:E3; try done. apply bool_decide_eq_true in Hf. split_and!; try done.
  apply toy_lookup; [done|]. unfold toy_node. by rewrite E, decide_True, E2.
Qed.

(** A node that has not started its first step can. *)
Lemma toy_first_step q nd :
  gr_nodes toy_started !! PeerID q = Some nd -> first_init nd = true ->
  exists g, group_step toy_vars toy_set_peers toy_started g.
Proof.
  intros E Hf. unfold first_init in Hf. destruct (node_init toy_set_peers nd) as [[nd' ps]|] eqn:Ei; [|done].
  eexists. by eapply (G_init _ _ (PeerID q)).
Qed.

End ToyGroup.

Definition toy_spawn (q : PeerInfo) : run (gnode unit) :=
  spawn toy_vars (PeerID q) (sign_type peer1 q) 7 toy_peers (toy_pre q) (toy_entropy q) tt.

(** Node 3 is down: exactly a threshold of nodes run. *)
Definition toy_up (p : PeerInfo) : bool := bool_decide (p <> peer3).

#[local] Abbreviation toy_live := (alive toy_peers toy_up).

Definition toy_start : group unit := toy_started toy_live toy_spawn.

Lemma toy_live_eq : toy_live = [peer1; peer2].
Proof. by vm_compute. Qed.

Lemma toy_live_in p : p ∈ toy_live -> p ∈ toy_peers.
Proof. unfold alive. intros Hp. by apply list_elem_of_filter in Hp as [_ ?]. Qed.

Lemma toy_pairs (l : list PeerInfo) : l ⊆+ toy_live -> length l = 2%nat -> l = [peer1; peer2] \/ l = [peer2; peer1].
Proof.
  rewrite toy_live_eq. intros Hl Hlen. apply submseteq_length_Permutation in Hl; [|by rewrite Hlen].
  destruct l as [|a [|b [|]]]; try done. apply Permutation_length_2 in Hl. destruct Hl as [[-> ->]|[-> ->]]; tauto.
Qed.

Lemma toy_sign_group : sign_group toy_vars toy_peers peer1 toy_up toy_f toy_rho toy_M.
Proof.
  destruct toy_group as [Hg Hs]. split.
  - split; cbn; lia.
  - exact Hg.
  - exact Hs.
  - rewrite toy_live_eq. apply list_elem_of_here.
  - by vm_compute.
  - cbn. lia.
  - rewrite toy_live_eq. repeat constructor.
  - rewrite toy_live_eq. repeat constructor; by vm_compute.
  - intros l Hl Hlen. split; [etrans; [exact Hl|apply sublist_submseteq, sublist_filter]|rewrite Hlen; split; by vm_compute|..].
    + intros p Hp. apply (sub_elem _ _ _ Hl) in Hp. revert p Hp. rewrite toy_live_eq. apply Forall_forall. repeat constructor; by vm_compute.
    + by vm_compute.
    + destruct (toy_pairs l Hl Hlen) as [->| ->]; by vm_compute.
  - by split; vm_compute.
Qed.

Lemma toy_knows q : q ∈ toy_peers -> knows_key toy_f toy_M q (InitializeValue (toy_pre q) createMpcBaseMpcResult).
Proof. revert q. apply Forall_forall. repeat constructor; vm_compute; reflexivity. Qed.

Lemma toy_draws q : q ∈ toy_peers -> will_draw toy_rho q (toy_entropy q).
Proof.
  revert q. apply Forall_forall. repeat constructor; [by exists 3, [8], []|by exists 5, [1], []|by exists 6, [0], []].
Qed.

Lemma toy_spawns : Forall (fun q => returns (toy_spawn q) = true) toy_live.
Proof. rewrite toy_live_eq. repeat constructor; by vm_compute. Qed.

Lemma toy_sign_start : sign_start toy_vars toy_set_peers toy_peers 7 peer1 toy_up toy_f toy_rho toy_M toy_start.
Proof.
  split; [done|apply toy_dom|..].
  - intros q Hq Hne. destruct (toy_peer _ toy_spawn toy_live_in q toy_spawns Hq Hne) as (nd & E1 & E2). apply toy_live_in in Hq.
    unfold toy_spawn, sign_type in E1. rewrite decide_False in E1 by done.
    eexists _, _, _, nd. split_and!; [exact E1|exact E2|by apply toy_knows|by apply toy_draws].
  - assert (peer1 ∈ toy_peers) by apply list_elem_of_here.
    destruct (toy_leader toy_live toy_spawn toy_live_in) as (nd0 & nd & ps & E1 & E2 & E3 & _ & E4);
      [rewrite toy_live_eq; apply list_elem_of_here|by vm_compute|].
    eexists _, _, _, nd0, nd, ps. split_and!; [exact E1|exact E2|exact E3|exact E4|by apply toy_knows|by apply toy_draws].
Qed.

(** The execution that has made one step. *)
Lemma group_signs_witness :
  exists g, nsteps (group_step toy_vars toy_set_peers) 1 toy_start g /\
    (1 <= 2 * 13 * (2 * 2 + 7))%nat /\
    (forall id nd e, gr_nodes g !! id = Some nd -> g_stage nd <> Failed e) /\
    (forall id nd, gr_nodes g !! id = Some nd -> g_stage nd = Finished ->
       getMpcResult (g_ctx nd) = sign_result toy_peers toy_up toy_f toy_rho toy_M) /\
    ((exists id nd, gr_nodes g !! id = Some nd /\ g_stage nd <> Finished) -> exists g', group_step toy_vars toy_set_peers g g').
Proof.
  destruct (toy_peer _ toy_spawn toy_live_in peer2 toy_spawns) as (nd & _ & E); [rewrite toy_live_eq; apply list_elem_of_further, list_elem_of_here|done|].
  destruct (toy_first_step toy_live toy_spawn peer2 nd E) as [g Hg].
  { assert (match gr_nodes toy_start !! PeerID peer2 with Some nd => first_init nd | None => false end = true) as Hf by by vm_compute.
    unfold toy_start in Hf. by rewrite E in Hf. }
  pose proof (nsteps_once _ _ Hg) as Hn. exists g. split; [exact Hn|].
  apply (group_signs toy_vars toy_set_peers toy_peers 7 peer1 toy_up toy_f toy_rho toy_M toy_sign_group (fun m => eq_refl) toy_start g 1 toy_sign_start Hn).
Defined.

Lemma group_signs_ends_witness :
  exists n g, nsteps (group_step toy_vars toy_set_peers) n toy_start g /\
    forall id nd, gr_nodes g !! id = Some nd ->
      g_stage nd = Finished /\ getMpcResult (g_ctx nd) = point_bytes 8 ++ [Byte.x1a].
Proof.
  apply (group_signs_ends toy_vars toy_set_peers toy_peers 7 peer1 toy_up toy_f toy_rho toy_M toy_sign_group (fun m => eq_refl) toy_start toy_sign_start).
Defined.
