(* ===== verification/KeySession.v ===== *)
(** * Sessions that create a key

    The plan of the creation of a group key: the five steps of the contexts of [mpc_create_gpk.go].  As in
    [SignSession.v], a group of nodes therefore creates its key whatever the order of events, and every node stores
    its share of it; in contrast to a signature all messages of all nodes are waited for. *)

From stdpp Require Import functions.
From S2P Require Import Prelude BigInt Curve Secp256k1 Schnorr FieldPoly Protocol Generators BaseStep Steps Context Instances Signing Keystore Validator Distributor KeyGen Group Session SignSession.

Section KeySession.
Context {C : EllipticCurve} {G : CurveGroup C} {H : Hashes} {R : MapRange} {W : Type} {M : StoremanManager W}
  (vars : ProtocolVars) (SetMessagePeers : MpcMessage -> option (list PeerInfo) -> MpcMessage)
  (peers : list PeerInfo) (mpcID : Z) (leader : PeerInfo).
(** The polynomials the nodes deal, and what the node managers hold before and after the account is stored. *)
Context (poly : PeerInfo -> list Z) (w0 w1 : PeerInfo -> W).
#[local] Abbreviation N := Params_N.

Definition key_poly : list Z := psum (map poly peers).
#[local] Abbreviation F := key_poly.
Definition group_secret : Z := poly_at F 0.
Definition group_key : bytes := point_bytes group_secret.
Definition key_point (p : PeerInfo) : Z * Z := mulG (poly_at F (Seed p)).

Record key_group : Prop := {
  ky_vars : vars_ok vars;
  ky_peers : group_ok peers;
  ky_seeds : Forall (fun p => 0 < Seed p < N) peers;
  ky_leader : leader ∈ peers;
  ky_thr : MpcSchnrThr vars <= Z.of_nat (length peers);
  ky_poly : Forall (fun p => Z.of_nat (length (poly p)) = MpcSchnrThr vars) peers;
  ky_own : Forall (fun p => poly_at F (Seed p) <> 0) peers;
  ky_points l : l ≡ₚ peers -> point_round_ok vars peers F l;
  ky_stores q : q ∈ peers -> stores group_secret (poly_at F (Seed q)) peers (w0 q) (w1 q)
}.

Definition key_others : list PeerInfo := filter (fun p => p <> leader) peers.

Definition key_senders (j : nat) : list PeerInfo :=
  match j with 0%nat => key_others | 1%nat => [leader] | _ => peers end.

Definition key_body (j : nat) (p q : PeerInfo) : list Z * list bytes :=
  match j with
  | 0%nat => ([MpcGPKPeer], [])
  | 1%nat => ([1], [])
  | 2%nat => ([poly_at (poly p) (Seed q)], [])
  | 3%nat => ([(key_point p).1; (key_point p).2], [])
  | _ => ([], [group_key])
  end.

Definition key_wait (q : PeerInfo) (j : nat) : nat :=
  match j with
  | 0%nat => if decide (q = leader) then (length peers - 1)%nat else 0%nat
  | 1%nat => if decide (q = leader) then 0%nat else 1%nat
  | _ => length peers
  end.

Definition key_inner (q : PeerInfo) (j : nat) (initd : bool) (acc : list PeerInfo) (s : StepInner) : Prop :=
  match j with
  | 0%nat => if decide (q = leader)
         then exists rq, s = SRequest rq /\ rq_messageType rq = MpcGPKLeader /\ rq_message rq = list_to_set (map PeerID acc)
         else s = SAck MpcGPKPeer
  | 1%nat => if decide (q = leader) then s = SReady else s = SGetReady
  | 2%nat => exists g, s = SSKShare g /\ rp_message g = list_to_map (by_seed (fun p => poly_at (poly p) (Seed q)) acc) /\
           if initd then rp_polyValue g = map (fun p => poly_at (poly q) (Seed p)) peers
           else length (rp_randCoefficient g) = threshold vars /\ length (rp_polyValue g) = length peers
  | 3%nat => exists g, s = SGPK {| ps_messages := [g]; ps_resultKeys := [PublicKeyResult]; ps_signNum := 1 |} EmptyString /\
           pg_preValueKey g = MpcPublicShare /\ pg_message g = list_to_map (by_seed key_point acc) /\
           (initd = true -> pg_seed g = key_point q)
  | _ => exists st, s = SAckGPK st /\ ag_message st = list_to_set (map PeerID acc) /\
           ag_remoteMpcGPKs st = list_to_map (map (fun p => (PeerID p, group_key)) acc) /\
           (initd = true -> ag_mpcGPK st = group_key)
  end.

Record key_data (q : PeerInfo) (drawn : bool) (j : nat) (res : BaseMpcResult) (ent : Entropy) (w : W) : Prop := {
  kd_draw : drawn = false -> will_draw poly q ent;
  kd_share : (2 < j)%nat -> GetValue MpcPrivateShare res = Ret [poly_at F (Seed q)] /\
                            GetValue MpcPublicShare res = Ret [(key_point q).1; (key_point q).2];
  kd_world : w = if decide (3 < j)%nat then w1 q else w0 q;
  kd_key : (3 < j)%nat -> GetByteValue MpcContextResult res = Ret group_key
}.

Definition key_plan : Plan (W := W) := {|
  pl_steps := 5;
  pl_senders := key_senders;
  pl_body := key_body;
  pl_wait := key_wait;
  pl_waitAll := true;
  pl_ahead q := bool_decide (q = leader);
  pl_inner := key_inner;
  pl_before q j res ent w := key_data q (2 <? j)%nat j res ent w;
  pl_during q j res ent w := key_data q (1 <? j)%nat j res ent w
|}.

(** ** The plan is sound *)

Hypothesis (HK : key_group).
Hypothesis (HSP : forall m, SetMessagePeers m None = m).

Lemma key_NoDup : NoDup peers.
Proof. eapply (NoDup_fmap_1 PeerID). apply (ky_peers HK). Qed.

Lemma key_senders_ok j : NoDup (key_senders j) /\ key_senders j ⊆ peers.
Proof.
  pose proof key_NoDup. pose proof (ky_leader HK). destruct j as [|[|j]]; cbn; unfold key_others; [|split; [apply NoDup_singleton|set_solver]|done].
  split; [by apply NoDup_filter|]. intros p Hp. by apply list_elem_of_filter in Hp as [_ ?].
Qed.

Lemma key_in_peers j p : p ∈ key_senders j -> p ∈ peers.
Proof. apply key_senders_ok. Qed.

Lemma key_all_in j acc : Forall (fun x => x ∈ key_senders j) acc -> Forall (fun x => x ∈ peers) acc.
Proof. intros Ha. eapply Forall_impl; [exact Ha|]. apply key_in_peers. Qed.

Lemma key_wait_ok q j : (key_wait q j <= length (key_senders j))%nat.
Proof.
  assert (length peers <= S (length key_others))%nat by apply others_length, key_NoDup. destruct j as [|[|j]]; cbn; try case_decide; cbn; lia.
Qed.

(** *** Messages *)

#[local] Abbreviation in_msg j p q := (received (PeerID p) (wire mpcID key_plan j p q)).

Lemma key_handle q j b acc p s :
  q ∈ peers -> (j < 5)%nat -> p ∈ key_senders j -> NoDup (acc ++ [p]) -> Forall (fun x => x ∈ key_senders j) acc ->
  key_inner q j b acc s ->
  exists s', step_HandleMessage peers (in_msg j p q) s = Ret (true, s') /\ key_inner q j b (acc ++ [p]) s'.
Proof.
  intros Hq Hj Hp%key_in_peers Hn Ha%key_all_in Hs. pose proof (ky_peers HK) as Hg.
  assert (Forall (fun x => x ∈ peers) (acc ++ [p])) as Hall by (apply Forall_app; by repeat constructor).
  pose proof (id_new peers Hg acc p Hn Hall) as Hid.
  destruct j as [|[|[|[|j]]]]; cbn [key_inner] in *.
  - case_decide; [|subst s; by eexists]. destruct Hs as (rq & -> & Ht & Hm). cbn [step_HandleMessage].
    destruct (request_handle acc p rq (wire mpcID key_plan 0 p q) Hm Hid) as (rq' & -> & E1 & E2). eexists. split; [reflexivity|]. eexists. by rewrite E1.
  - case_decide; subst s; by eexists.
  - destruct Hs as (g & -> & Hm & Hb).
    destruct (share_handle peers Hg (fun p => poly_at (poly p) (Seed q)) acc p g (wire mpcID key_plan 2 p q) Hn Hall eq_refl Hm)
      as (g' & E & E1 & E2 & E3).
    eexists. split; [exact (f_equal (ret_fst SSKShare) E)|]. eexists. split_and!; [done|done|]. by rewrite E2, E3.
  - destruct Hs as (g & -> & Hk & Hm & Hb).
    destruct (point_handle peers Hg key_point acc p g [PublicKeyResult] (wire mpcID key_plan 3 p q) Hn Hall eq_refl Hm) as (g' & E & E1 & E2 & E3).
    eexists. split; [exact (f_equal (ret_fst (fun p => SGPK p EmptyString)) E)|]. eexists. by rewrite E2, E3.
  - destruct Hs as (st & -> & Hm & Hr & Hb). cbn [step_HandleMessage]. unfold AckMpcGPKStep_HandleMessage.
    cbn [sm_PeerID received of_option mbind outcome_bind sm_BytesData mm_BytesData wire pl_body key_plan key_body snd].
    rewrite Hm, decide_False by done. eexists. split; [reflexivity|]. eexists. split_and!; [done|..].
    + cbn. by rewrite ids_snoc.
    + cbn. rewrite Hr, map_app. cbn [map]. rewrite list_to_map_snoc; [done|].
      intros Hin. apply Hid, elem_of_list_to_set. apply list_elem_of_fmap in Hin as (x & E & (y & -> & Hy)%list_elem_of_fmap).
      cbn in E. rewrite E. by apply list_elem_of_fmap_2.
    + done.
Qed.

(** *** [InitStep] *)

#[local] Abbreviation packets q j msgs :=
  (filter (fun pk => pk_to pk ∈ map PeerID peers)
    (omap (action_packet (PeerID q)) (concat (map (send_message (PeerID q) SetMessagePeers (map PeerID peers) mpcID j) msgs)))).
#[local] Abbreviation sent q j := (map (packet_of mpcID key_plan) (sends peers key_senders q j)).

Lemma all_run : filter (fun p => p ∈ peers) peers = peers.
Proof. by apply filter_all. Qed.

Lemma key_init q j acc res ent w s :
  q ∈ peers -> (j < 5)%nat -> (b2n (bool_decide (q = leader)) <= 2 * j)%nat ->
  key_data q (2 <? j)%nat j res ent w -> key_inner q j false acc s ->
  exists s' ent' msgs,
    step_InitStep peers res ent s = Some (Ret (s', peers, ent')) /\
    key_inner q j true acc s' /\ key_data q (1 <? j)%nat j res ent' w /\
    step_CreateMessage peers s' = Ret msgs /\ packets q j msgs = sent q j.
Proof.
  intros Hq Hj Hl Hd Hs. pose proof Hd as [D0 D2 DW D3].
  destruct j as [|[|[|[|j]]]]; cbn [key_inner] in *.
  - destruct (decide (q = leader)) as [He|He]; [rewrite bool_decide_true in Hl by done; cbn in Hl; lia|]. subst s.
    do 3 eexists. split_and!; [reflexivity|done|done|reflexivity|]. apply (plan_broadcast _ HSP peers mpcID peers (proj1 (ky_peers HK)) all_run key_plan); [|done].
    cbn. unfold key_others. by apply list_elem_of_filter.
  - destruct (decide (q = leader)) as [->|He]; subst s; do 3 eexists; (split_and!; [reflexivity|done|done|reflexivity|]).
    + apply (plan_broadcast _ HSP peers mpcID peers (proj1 (ky_peers HK)) all_run key_plan); [cbn; set_solver|done].
    + unfold sends. cbn [key_senders]. by rewrite decide_False by set_solver.
  - destruct Hs as (g & -> & Hm & Hc & Hv). destruct (D0 eq_refl) as (sc & ds & rd & E & Ed).
    assert (length (poly q) = threshold vars) as Hlen.
    { pose proof (proj1 (Forall_forall _ _) (ky_poly HK) q Hq) as Hr. cbn in Hr. unfold threshold. lia. }
    cbn [step_InitStep]. rewrite E, (initialize_draws N_prime), Ed; [|rewrite Hc, <- Hlen, <- Ed; cbn; by rewrite length_map|done].
    do 3 eexists. split_and!; [reflexivity|by eexists|by split|by apply (share_messages peers _ (fun p => poly_at (poly q) (Seed p)))|].
    by apply (plan_p2p _ HSP peers mpcID peers (proj1 (ky_peers HK)) all_run key_plan q 2 (fun p => [poly_at (poly q) (Seed p)])).
  - destruct Hs as (g & -> & Hk & Hm & _). destruct (D2 ltac:(lia)) as [DR DS].
    destruct (point_init_single res g _ [PublicKeyResult] _ Hk DS) as (g' & E & E1 & E2 & E3).
    cbn [step_InitStep]. rewrite E. do 3 eexists. split_and!; [reflexivity| |by split|reflexivity|].
    + eexists. split_and!; [done|done|by rewrite E1|done].
    + rewrite E3. by apply (plan_broadcast _ HSP peers mpcID peers (proj1 (ky_peers HK)) all_run key_plan q 3).
  - destruct Hs as (st & -> & Hm & H1 & _). assert (j = 0)%nat as -> by lia. specialize (D3 ltac:(lia)).
    cbn [step_InitStep]. unfold AckMpcGPKStep_InitStep. rewrite D3.
    do 3 eexists. split_and!; [reflexivity|by eexists|by split|reflexivity|]. by apply (plan_broadcast _ HSP peers mpcID peers (proj1 (ky_peers HK)) all_run key_plan q 4).
Qed.

(** *** [FinishStep] *)

Lemma all_keys_agree acc st :
  acc ≡ₚ peers -> ag_remoteMpcGPKs st = list_to_map (map (fun p => (PeerID p, group_key)) acc) -> ag_mpcGPK st = group_key ->
  AckMpcGPKStep_finish peers st = Ret tt.
Proof.
  intros Hacc Hr Hk. assert (map_to_list (ag_remoteMpcGPKs st) ≡ₚ map (fun p => (PeerID p, group_key)) acc) as Hl.
  { rewrite Hr. apply map_to_list_to_map. change (NoDup (map fst (map (fun p => (PeerID p, group_key)) acc))). rewrite map_map. cbn.
    rewrite Hacc. apply (ky_peers HK). }
  unfold AckMpcGPKStep_finish. rewrite <- length_map_to_list, (Permutation_length Hl), length_map, (Permutation_length Hacc), decide_False by lia.
  rewrite Hk, (proj2 (forallb_forall _ _)); [done|]. intros e He%list_elem_of_In. rewrite Hl in He.
  apply list_elem_of_fmap in He as (p & -> & _). by apply bool_decide_true.
Qed.

Lemma key_finish q j acc res ent w s :
  q ∈ peers -> (j < 5)%nat -> key_data q (1 <? j)%nat j res ent w -> key_inner q j true acc s ->
  NoDup acc -> Forall (fun x => x ∈ key_senders j) acc -> length acc = need key_senders key_wait q j ->
  exists s' res' w', step_finish vars peers res w s = Ret (s', res', w') /\ key_data q (2 <? S j)%nat (S j) res' ent w'.
Proof.
  intros Hq Hj Hd Hs Hn Ha%key_all_in Hlen. pose proof Hd as [D0 D2 DW D3].
  assert (need key_senders key_wait q j = key_wait q j) as En by (pose proof (key_wait_ok q j); unfold need; lia).
  rewrite En in Hlen. clear En. destruct j as [|[|[|[|j]]]]; cbn [key_inner key_wait] in *.
  - assert (forall v, key_data q false 1 (SetValue MPCAction v res) ent w) as Hv by (intros v; split; try done; lia).
    destruct (decide (q = leader)); [destruct Hs as (rq & -> & _)|subst s]; do 3 eexists; (split; [reflexivity|apply Hv]).
  - assert (key_data q false 2 res ent w) by (split; try done; lia). destruct (decide (q = leader)); subst s; by do 3 eexists.
  - destruct Hs as (g & -> & Hm & _).
    destruct (share_finish_ok peers (ky_peers HK) MpcPrivateShare MpcPublicShare poly peers acc (Seed q) res g) as [g2 E];
      [done|by apply acc_all|done|by apply (proj1 (Forall_forall _ _) (ky_own HK))|].
    cbn [step_finish]. unfold MpcSKShareStep_finish. rewrite E. do 3 eexists. split; [reflexivity|].
    unfold put_point. split; [done|intros _; solve_store|done|lia].
  - destruct Hs as (g & -> & Hk & Hm & _).
    destruct (point_finish_ok vars peers (ky_peers HK) (ky_seeds HK) F acc PublicKeyResult res
      {| ps_messages := [g]; ps_resultKeys := [PublicKeyResult]; ps_signNum := 1 |}) as [s2 E];
      [apply (ky_vars HK)|by apply (ky_points HK), acc_all|done|done|done|].
    specialize (D2 ltac:(lia)) as [DP DQ].
    cbn [step_finish]. unfold MpcGPKStep_finish. rewrite E. cbn [mbind outcome_bind]. rewrite DW, decide_False by lia.
    rewrite (ky_stores HK q Hq); [|unfold put_point; solve_store..].
    do 3 eexists. split; [reflexivity|]. unfold put_point. split; [done|intros _; solve_store|done|intros _; solve_store].
  - destruct Hs as (st & -> & Hm & H1 & Hb). assert (j = 0)%nat as -> by lia.
    cbn [step_finish]. rewrite (all_keys_agree acc) by (auto; by apply acc_all). do 3 eexists. split; [reflexivity|].
    split; [done|intros _; apply D2; lia|done|intros _; apply D3; lia].
Qed.

Lemma key_plan_ok : plan_ok vars SetMessagePeers peers peers mpcID key_plan.
Proof.
  split; cbn [pl_steps pl_senders pl_wait pl_waitAll pl_ahead pl_inner pl_before pl_during key_plan].
  - apply (ky_peers HK).
  - lia.
  - split; [apply key_NoDup|done].
  - apply key_senders_ok.
  - intros q j _ _ Hlt. pose proof (key_wait_ok q j). lia.
  - intros p Hp. apply bool_decide_false. cbn in Hp. unfold key_others in Hp. by apply list_elem_of_filter in Hp as [? _].
  - apply key_handle.
  - apply key_init.
  - apply key_finish.
Qed.

(** ** Starting a session *)

(** The group before the leader has drawn the seeds. *)
Definition unseeded (p : PeerInfo) : PeerInfo := {| PeerID := PeerID p; Seed := 0 |}.

Definition key_type (q : PeerInfo) : Z := if decide (q = leader) then MpcGPKLeader else MpcGPKPeer.
Definition key_peers (q : PeerInfo) : list PeerInfo := if decide (q = leader) then map unseeded peers else peers.

Lemma key_context_fresh q pre c :
  q ∈ peers -> CreateContext vars (key_type q) mpcID (key_peers q) pre = Ret c ->
  fresh_ctx peers mpcID key_plan (key_peers q) q c /\ mc_mpcResult c = InitializeValue pre createMpcBaseMpcResult.
Proof.
  intros Hq. pose proof (ky_vars HK) as [V1 V2]. assert (0 < length peers)%nat as Hpos by (destruct peers; [set_solver|cbn; lia]).
  assert (length (key_peers q) = length peers) as Hl by (unfold key_peers; case_decide; by rewrite ?length_map).
  unfold CreateContext. destruct (mapM_out log_value pre) as [u|e|]; try done. cbn [mbind outcome_bind]. unfold key_type.
  destruct (decide (q = leader)) as [He|He]; repeat (rewrite decide_False by done); rewrite decide_True by done;
    unfold reqGPKMpc, ackGPKMpc; [|destruct (check_seeds ∅ (key_peers q)); try done; cbn [mbind outcome_bind]];
    unfold CreateRequestMpcStep, genCreateGPKMpc, CreateMpcSKShareStep, createSkPolyValue;
    cbn [mc_peers createMpcContext]; rewrite decide_False by lia; cbn [mbind outcome_bind]; intros [= <-].
  all: split; [|done]; split; try done.
  all: intros j s Hs; destruct j as [|[|[|[|[|j]]]]]; cbn in Hs; [injection Hs as <-..|done].
  all: split; cbn; rewrite ?Hl; try done; try (case_decide; lia); rewrite ?decide_True, ?decide_False by (done || lia); try done; try lia.
  all: eexists; (split; [reflexivity|]); cbn; rewrite ?length_replicate; split_and!; first [done|unfold threshold; lia].
Qed.

(** Every node has made its context; the leader has drawn the seeds and sent its request. *)
Record key_start (g0 : group W) : Prop := {
  kt_net : gr_net g0 = [];
  kt_dom id : is_Some (gr_nodes g0 !! id) -> exists q, q ∈ peers /\ id = PeerID q;
  kt_peer q : q ∈ peers -> q <> leader -> exists pre ent nd,
    spawn vars (PeerID q) MpcGPKPeer mpcID peers pre ent (w0 q) = ret nd /\ gr_nodes g0 !! PeerID q = Some nd /\
    will_draw poly q ent;
  kt_leader : exists pre ent nd0 nd ps,
    spawn vars (PeerID leader) MpcGPKLeader mpcID (map unseeded peers) pre ent (w0 leader) = ret nd0 /\
    node_init SetMessagePeers nd0 = Some (nd, ps) /\ g_stage nd = AtFinish 0 /\ mc_peers (g_ctx nd) = peers /\
    gr_nodes g0 !! PeerID leader = Some nd /\ will_draw poly leader ent
}.

Lemma gpk_request_init ps0 rq res ent s' ps ent' :
  rq_messageType rq = MpcGPKLeader -> step_InitStep ps0 res ent (SRequest rq) = Some (Ret (s', ps, ent')) ->
  s' = SRequest rq /\ crypto_rand ent' = crypto_rand ent.
Proof.
  intros Ht. cbn [step_InitStep]. unfold RequestMpcStep_InitStep. rewrite Ht, decide_True by done.
  destruct (assign_seeds ∅ ps0 (math_rand ent)) as [[ps1 dr]|]; [|done]. cbn. by intros [= <- <- <-].
Qed.

Lemma key_starts g0 : key_start g0 -> session_starts peers peers mpcID key_plan g0.
Proof.
  intros [S1 S2 S3 S4]. pose proof key_plan_ok as Hpl. apply session_start; [done|done|]. intros q Hq.
  destruct (decide (q = leader)) as [->|Hne].
  - destruct S4 as (pre & ent & nd0 & nd & ps & E1 & E2 & E3 & E4 & E5 & Hd). exists nd. split; [done|].
    destruct (spawn_started _ peers _ key_plan _ leader _ _ _ _ _ E1) as (Hst & Er & Ee & Ew).
    { intros c Hc. pose proof (key_context_fresh leader pre c Hq) as Hf. unfold key_type, key_peers in Hf. rewrite !decide_True in Hf by done. auto. }
    eapply start_ahead; [exact Hpl|exact Hst|by apply bool_decide_true|exact E2|exact E3|].
    intros s s' ps' ent' Hin Ei Hps. cbn [pl_inner key_plan key_inner] in *. rewrite decide_True in * by done.
    destruct Hin as (rq & -> & Ht & Hm). destruct (gpk_request_init _ _ _ _ _ _ _ Ht Ei) as (-> & Ec).
    split_and!; [by rewrite <- Hps|by eexists|]. cbn [pl_during key_plan]. rewrite Ew. split; try (cbn; lia); [|done].
    intros _. unfold will_draw. rewrite Ec, Ee. exact Hd.
  - destruct (S3 q Hq Hne) as (pre & ent & nd & E1 & E2 & Hd). exists nd. split; [done|].
    destruct (spawn_started _ peers _ key_plan _ q _ _ _ _ _ E1) as (Hst & Er & Ee & Ew).
    { intros c Hc. pose proof (key_context_fresh q pre c Hq) as Hf. unfold key_type, key_peers in Hf. rewrite !decide_False in Hf by done. auto. }
    eapply start_behind; [exact Hpl|exact Hst|by apply bool_decide_false|]. cbn [pl_before key_plan]. rewrite Ee, Ew.
    split; [done|lia|done|lia].
Qed.

(** C2: a group creates its key.  From the moment the contexts exist, in every execution of the group: no node fails or panics; a node that
    returns has the encoded group key [F(0) G] as its result, the same at all nodes, and its manager has stored the account with its share
    [F(x)]; as long as some node has not returned some step is possible; and there are at most [n * 11 * (2 n + 6)] steps. *)
Theorem group_creates_key (g0 g : group W) (n : nat) :
  key_start g0 -> nsteps (group_step vars SetMessagePeers) n g0 g ->
  (n <= length peers * 11 * (2 * length peers + 6))%nat /\
  (forall id nd e, gr_nodes g !! id = Some nd -> g_stage nd <> Failed e) /\
  (forall id nd, gr_nodes g !! id = Some nd -> g_stage nd = Finished ->
     getMpcResult (g_ctx nd) = group_key /\ exists q, q ∈ peers /\ id = PeerID q /\ g_world nd = w1 q) /\
  ((exists id nd, gr_nodes g !! id = Some nd /\ g_stage nd <> Finished) -> exists g', group_step vars SetMessagePeers g g').
Proof.
  intros Hs%key_starts Hn. destruct (session_runs _ _ _ _ _ _ key_plan_ok _ _ _ Hs Hn) as (B1 & B2 & B3 & B4).
  split_and!; [|done| |done].
  - etransitivity; [exact B1|]. unfold bound, session_bound. cbn [pl_steps key_plan]. apply Nat.eq_le_incl. f_equal. unfold unit_work. lia.
  - intros id nd E Hf. destruct (B3 id nd E Hf) as (q & Hq & -> & Hd). cbn [pl_before pl_steps key_plan] in Hd. split.
    + unfold getMpcResult. by rewrite (kd_key _ _ _ _ _ _ Hd) by lia.
    + exists q. split_and!; [done|done|]. rewrite (kd_world _ _ _ _ _ _ Hd). by rewrite decide_True by lia.
Qed.

End KeySession.

(** ** Keys that are stored *)

Section Stored.
Context {C : EllipticCurve} {G : CurveGroup C} {H : Hashes} {R : MapRange} {K : KeyCrypto} (vars : ProtocolVars) (sp : StoreParams)
  (SetMessagePeers : MpcMessage -> option (list PeerInfo) -> MpcMessage) (peers : list PeerInfo) (mpcID : Z) (leader : PeerInfo)
  (poly : PeerInfo -> list Z) (d0 : PeerInfo -> MpcDistributor).
#[local] Instance manager : StoremanManager MpcDistributor := distributor_manager sp.
#[local] Abbreviation F := (key_poly peers poly).
#[local] Abbreviation secret := (group_secret peers poly).

(** The distributor of a node after it has stored its account. *)
Definition stored (q : PeerInfo) : MpcDistributor :=
  let result := SetValue PublicKeyResult [(mulG secret).1; (mulG secret).2] (SetValue MpcPrivateShare [poly_at F (Seed q)] createMpcBaseMpcResult) in
  match MpcDistributor_CreateKeystore sp result peers EmptyString (d0 q) with Ret (_, d) => d | _ => d0 q end.

Lemma stored_ok q :
  storable sp secret (poly_at F (Seed q)) peers EmptyString (d0 q) ->
  stores secret (poly_at F (Seed q)) peers (d0 q) (stored q) /\
  exists d2, loadStoremanAddress (group_address secret) (stored q)
    = Ret (value MpcPrivateShare [poly_at F (Seed q)], value PublicKeyResult [(mulG secret).1; (mulG secret).2], peers, d2).
Proof.
  intros (d1 & d2 & E1 & E2)%CreateKeystore_load. enough (stored q = d1) as -> by (split; [exact E1|by exists d2]).
  unfold stored. rewrite E1 by solve_store. done.
Qed.

(** What a node puts into the context of a signature of [msg] under the key [gpk]. *)
Definition sign_preset (gpk msg ext : bytes) (share pub : MpcValue) : list MpcValue :=
  [byte_value MpcAddress gpk; byte_value MpcM msg; byte_value MpcExt ext; share; pub].

(** C4: the key that a group created can be signed with.  When a node has returned from the creation of the key, the address of the
    encoded key it returned is known to its distributor, which finds the account again: the share [F(x)], the group key and the peers with
    their seeds.  A context made from these values holds what a signing session with the polynomial [F] needs. *)
Theorem created_key_signs (g0 g : group MpcDistributor) (n : nat) (q : PeerInfo) (nd : gnode MpcDistributor) (msg ext : bytes) :
  key_group vars peers leader poly d0 stored -> (forall m, SetMessagePeers m None = m) ->
  (forall p, p ∈ peers -> storable sp secret (poly_at F (Seed p)) peers EmptyString (d0 p)) ->
  key_start vars SetMessagePeers peers mpcID leader poly d0 g0 ->
  nsteps (group_step vars SetMessagePeers) n g0 g ->
  q ∈ peers -> gr_nodes g !! PeerID q = Some nd -> g_stage nd = Finished ->
  exists addr share pub d2,
    PkToAddress (getMpcResult (g_ctx nd)) = Ret addr /\
    loadStoremanAddress addr (g_world nd) = Ret (share, pub, peers, d2) /\
    knows_key F msg q (InitializeValue (sign_preset (getMpcResult (g_ctx nd)) msg ext share pub) createMpcBaseMpcResult).
Proof.
  intros HK HSP Hst Hs%(key_starts _ _ _ _ _ _ _ _ HK HSP) Hn Hq E Hf.
  destruct (session_runs _ _ _ _ _ _ (key_plan_ok _ _ _ _ _ _ _ _ HK HSP) _ _ _ Hs Hn) as (_ & _ & B3 & _).
  destruct (B3 _ _ E Hf) as (p & Hp & Hid & Hd). assert (p = q) as ->.
  { symmetry. eapply PeerID_eq; [apply (key_plan_ok _ _ _ mpcID _ _ _ _ HK HSP)|done..]. }
  cbn [pl_before pl_steps key_plan] in Hd. unfold getMpcResult. rewrite (kd_key _ _ _ _ _ _ _ _ _ _ Hd) by lia.
  rewrite (kd_world _ _ _ _ _ _ _ _ _ _ Hd), decide_True by lia. destruct (stored_ok q (Hst q Hq)) as [_ [d2 El]].
  exists (group_address secret), (value MpcPrivateShare [poly_at F (Seed q)]), (value PublicKeyResult [(mulG secret).1; (mulG secret).2]), d2.
  split_and!; [apply PkToAddress_point_bytes; by eapply Hst|exact El|..]; unfold InitializeValue, InitializeValue1; cbn; solve_store.
Qed.

End Stored.

(** ** A group of three nodes *)

#[local] Existing Instances smallC small_group list_range toy_hashes toy_crypto.
#[local] Instance toy_manager : StoremanManager MpcDistributor := distributor_manager toy_store.

Definition toy_d0 (_ : PeerInfo) : MpcDistributor := toy_dist toy_ids.
#[local] Abbreviation toy_d1 := (stored toy_store toy_peers toy_rho toy_d0).

(** The draws of the leader for the seeds 3, 5 and 8. *)
Definition toy_key_entropy (q : PeerInfo) : Entropy := {| crypto_rand := crypto_rand (toy_entropy q); math_rand := [2; 4; 7] |}.

Definition toy_key_spawn (q : PeerInfo) : run (gnode MpcDistributor) :=
  spawn toy_vars (PeerID q) (key_type peer1 q) 7 (key_peers toy_peers peer1 q) [] (toy_key_entropy q) (toy_d0 q).

Definition toy_key_start : group MpcDistributor := toy_started toy_peers toy_key_spawn.

Lemma toy_all_storable q :
  q ∈ toy_peers ->
  storable toy_store (group_secret toy_peers toy_rho) (poly_at (key_poly toy_peers toy_rho) (Seed q)) toy_peers EmptyString (toy_d0 q).
Proof.
  intros Hq. destruct toy_storable as [T1 T2 T3 T4 T5 _ T7 T8 T9 T10 T11 T12 T13].
  split; [exact T1|exact T2|exact T3|exact T4|by vm_compute| |exact T7|exact T8|exact T9|exact T10|exact T11|exact T12|exact T13].
  revert q Hq. apply Forall_forall. repeat constructor; by vm_compute.
Qed.

Lemma toy_key_group : key_group toy_vars toy_peers peer1 toy_rho toy_d0 toy_d1.
Proof.
  destruct toy_group as [Hg Hs]. split.
  - split; cbn; lia.
  - exact Hg.
  - exact Hs.
  - apply list_elem_of_here.
  - cbn. lia.
  - repeat constructor.
  - repeat constructor; by vm_compute.
  - intros l Hl. split.
    + by apply Permutation_submseteq.
    + rewrite Hl. split; by vm_compute.
    + intros p Hp. rewrite Hl in Hp. revert p Hp. apply Forall_forall. repeat constructor; by vm_compute.
    + by vm_compute.
    + rewrite (list_to_map_proper (by_seed _ l) (by_seed (fun p => mulG (poly_at (key_poly toy_peers toy_rho) (Seed p))) toy_peers)).
      * by vm_compute.
      * change (NoDup (map fst (by_seed (fun p => mulG (poly_at (key_poly toy_peers toy_rho) (Seed p))) l))).
        rewrite by_seed_fst, Hl. apply Hg.
      * unfold by_seed. by rewrite Hl.
  - intros q Hq. apply stored_ok. by apply toy_all_storable.
Qed.

Lemma toy_key_draws q : q ∈ toy_peers -> will_draw toy_rho q (toy_key_entropy q).
Proof. apply toy_draws. Qed.

Lemma toy_key_spawns : Forall (fun q => returns (toy_key_spawn q) = true) toy_peers.
Proof. repeat constructor; by vm_compute. Qed.

Lemma toy_keys_start : key_start toy_vars toy_set_peers toy_peers 7 peer1 toy_rho toy_d0 toy_key_start.
Proof.
  split; [done|apply toy_dom|..].
  - intros q Hq Hne. destruct (toy_peer _ toy_key_spawn (fun p Hp => Hp) q toy_key_spawns Hq Hne) as (nd & E1 & E2).
    unfold toy_key_spawn, key_type, key_peers in E1. rewrite !decide_False in E1 by done.
    eexists _, _, nd. split_and!; [exact E1|exact E2|by apply toy_key_draws].
  - destruct (toy_leader toy_peers toy_key_spawn (fun p Hp => Hp)) as (nd0 & nd & ps & E1 & E2 & E3 & E4 & E5); [apply list_elem_of_here|by vm_compute|].
    eexists _, _, nd0, nd, ps. split_and!; [exact E1|exact E2|exact E3|exact E4|exact E5|apply toy_key_draws, list_elem_of_here].
Qed.

(** The execution that has made one step. *)
Lemma group_creates_key_witness :
  exists g, nsteps (group_step toy_vars toy_set_peers) 1 toy_key_start g /\
    (forall id nd e, gr_nodes g !! id = Some nd -> g_stage nd <> Failed e) /\
    ((exists id nd, gr_nodes g !! id = Some nd /\ g_stage nd <> Finished) -> exists g', group_step toy_vars toy_set_peers g g').
Proof.
  destruct (toy_peer _ toy_key_spawn (fun p Hp => Hp) peer2 toy_key_spawns) as (nd & _ & E); [apply list_elem_of_further, list_elem_of_here|done|].
  destruct (toy_first_step toy_peers toy_key_spawn peer2 nd E) as [g Hg].
  { assert (match gr_nodes toy_key_start !! PeerID peer2 with Some nd => first_init nd | None => false end = true) as Hf by by vm_compute.
    unfold toy_key_start in Hf. by rewrite E in Hf. }
  pose proof (nsteps_once _ _ Hg) as Hn. exists g. split; [exact Hn|].
  destruct (group_creates_key toy_vars toy_set_peers toy_peers 7 peer1 toy_rho toy_d0 toy_d1 toy_key_group (fun m => eq_refl)
    toy_key_start g 1 toy_keys_start Hn) as (_ & B2 & _ & B4). by split.
Defined.

(** A whole execution, and the account node 2 then has. *)
Lemma created_key_signs_witness :
  exists n g nd addr share pub d2,
    nsteps (group_step toy_vars toy_set_peers) n toy_key_start g /\ gr_nodes g !! PeerID peer2 = Some nd /\
    PkToAddress (getMpcResult (g_ctx nd)) = Ret addr /\ loadStoremanAddress addr (g_world nd) = Ret (share, pub, toy_peers, d2) /\
    knows_key (key_poly toy_peers toy_rho) toy_M peer2
      (InitializeValue (sign_preset (getMpcResult (g_ctx nd)) toy_M [] share pub) createMpcBaseMpcResult).
Proof.
  assert (peer2 ∈ toy_peers) as Hp by apply list_elem_of_further, list_elem_of_here.
  pose proof (key_plan_ok toy_vars toy_set_peers toy_peers 7 peer1 toy_rho toy_d0 toy_d1 toy_key_group (fun m => eq_refl)) as Hpl.
  pose proof (key_starts toy_vars toy_set_peers toy_peers 7 peer1 toy_rho toy_d0 toy_d1 toy_key_group (fun m => eq_refl) _ toy_keys_start) as Hs.
  destruct (session_ends _ _ _ _ _ _ Hpl _ Hs) as (n & g & Hn & Hf).
  destruct (reached _ _ _ _ _ _ Hpl _ _ _ _ Hs (start_inv _ _ _ _ _ _ Hpl) Hn) as (a & Hr & _).
  destruct (re_node _ _ _ _ _ _ Hr peer2 Hp) as (nd & E & _).
  destruct (created_key_signs toy_vars toy_store toy_set_peers toy_peers 7 peer1 toy_rho toy_d0 toy_key_start g n peer2 nd toy_M []
    toy_key_group (fun m => eq_refl) toy_all_storable toy_keys_start Hn Hp E (Hf _ _ E)) as (addr & share & pub & d2 & E1 & E2 & E3).
  by exists n, g, nd, addr, share, pub, d2.
Defined.
