(* ===== verification/Packets.v ===== *)
(** * The packets of node discovery

    [src/p2p/discover/udp.go]: the four packets, their RLP form, the envelope with hash and signature
    ([encodePacket], [decodePacket]), and the number of nodes that fit into a packet ([init]). *)

From S2P Require Import Prelude BigInt Keccak Sha3 Rlp RlpStream RlpProofs RlpRoundTrip RlpEnds RlpTyping Curve Secp256k1 Ecies Signature Handshake Protocol Wire Netutil Node.

(** ** Packets *)

Definition Version : Z := 5.

Definition errPacketTooSmall : error := "too small".
Definition errBadHash : error := "bad hash".
Definition errUnknownType : error := "unknown type".
Definition errRecoveredLength : error := "recovered pubkey has the wrong length".

Definition pingPacket : Z := 10.
Definition pongPacket : Z := 11.
Definition findnodePacket : Z := 12.
Definition neighborsPacket : Z := 13.

Record rpcEndpoint := mk_endpoint { re_IP : IP; re_UDP : Z; re_TCP : Z }.
Record rpcNode := mk_rpcNode { rn_IP : IP; rn_UDP : Z; rn_TCP : Z; rn_ID : NodeID }.

Record ping := mk_ping { ping_Version : Z; ping_From : rpcEndpoint; ping_To : rpcEndpoint; ping_Expiration : Z; ping_Rest : list bytes }.
Record pong := mk_pong { pong_To : rpcEndpoint; pong_ReplyTok : bytes; pong_Expiration : Z; pong_Rest : list bytes }.
Record findnode := mk_findnode { fn_Target : NodeID; fn_Expiration : Z; fn_Rest : list bytes }.
Record neighbors := mk_neighbors { nb_Nodes : list rpcNode; nb_Expiration : Z; nb_Rest : list bytes }.

(** The values of the interface [packet]. *)
Inductive packet :=
| Ping (p : ping)
| Pong (p : pong)
| Findnode (p : findnode)
| Neighbors (p : neighbors).

#[global] Instance rpcEndpoint_eq_dec : EqDecision rpcEndpoint.
Proof. solve_decision. Defined.
#[global] Instance rpcNode_eq_dec : EqDecision rpcNode.
Proof. solve_decision. Defined.
#[global] Instance ping_eq_dec : EqDecision ping.
Proof. solve_decision. Defined.
#[global] Instance pong_eq_dec : EqDecision pong.
Proof. solve_decision. Defined.
#[global] Instance findnode_eq_dec : EqDecision findnode.
Proof. solve_decision. Defined.
#[global] Instance neighbors_eq_dec : EqDecision neighbors.
Proof. solve_decision. Defined.
#[global] Instance packet_eq_dec : EqDecision packet.
Proof. solve_decision. Defined.

(** [net.UDPAddr]; a port is an [int]. *)
Record UDPAddr := mk_addr { ua_IP : IP; ua_Port : Z }.

#[global] Instance UDPAddr_eq_dec : EqDecision UDPAddr.
Proof. solve_decision. Defined.

Definition uint16 (z : Z) : Z := z mod 2 ^ 16.

Definition makeEndpoint (addr : UDPAddr) (tcpPort : Z) : rpcEndpoint :=
  mk_endpoint (default (default [] (To16 (ua_IP addr))) (To4 (ua_IP addr))) (uint16 (ua_Port addr)) tcpPort.

Definition nodeToRPC (n : Node) : rpcNode := mk_rpcNode (n_IP n) (n_UDP n) (n_TCP n) (n_ID n).

Definition Node_addr (n : Node) : UDPAddr := mk_addr (n_IP n) (n_UDP n).

(** ** Their RLP form *)

Definition bytes_typ : typ := TSlice (TUint 8).
Definition rest_field : field typ := mk_field true "tail" (TSlice TRaw).

Definition rpcEndpoint_typ : typ := TStruct (public_field <$> [bytes_typ; TUint 16; TUint 16]).
Definition rpcNode_typ : typ := TStruct (public_field <$> [bytes_typ; TUint 16; TUint 16; byte_array 64]).

Definition ping_fields : list typ := [TUint 64; rpcEndpoint_typ; rpcEndpoint_typ; TUint 64].
Definition pong_fields : list typ := [rpcEndpoint_typ; bytes_typ; TUint 64].
Definition findnode_fields : list typ := [byte_array 64; TUint 64].
Definition neighbors_fields : list typ := [TSlice rpcNode_typ; TUint 64].

Definition with_rest (ts : list typ) : typ := TStruct ((public_field <$> ts) ++ [rest_field]).

Definition rpcEndpoint_val (e : rpcEndpoint) : val := VStruct [VBytes (re_IP e); VUint (re_UDP e); VUint (re_TCP e)].
Definition rpcNode_val (n : rpcNode) : val :=
  VStruct [VBytes (rn_IP n); VUint (rn_UDP n); VUint (rn_TCP n); VBytes (rn_ID n)].

Definition packet_fields (p : packet) : list typ :=
  match p with
  | Ping _ => ping_fields
  | Pong _ => pong_fields
  | Findnode _ => findnode_fields
  | Neighbors _ => neighbors_fields
  end.

Definition packet_vals (p : packet) : list val :=
  match p with
  | Ping p => [VUint (ping_Version p); rpcEndpoint_val (ping_From p); rpcEndpoint_val (ping_To p); VUint (ping_Expiration p)]
  | Pong p => [rpcEndpoint_val (pong_To p); VBytes (pong_ReplyTok p); VUint (pong_Expiration p)]
  | Findnode p => [VBytes (fn_Target p); VUint (fn_Expiration p)]
  | Neighbors p => [VSeq (rpcNode_val <$> nb_Nodes p); VUint (nb_Expiration p)]
  end.

Definition packet_rest (p : packet) : list bytes :=
  match p with
  | Ping p => ping_Rest p
  | Pong p => pong_Rest p
  | Findnode p => fn_Rest p
  | Neighbors p => nb_Rest p
  end.

Definition packet_typ (p : packet) : typ := with_rest (packet_fields p).
Definition packet_val (p : packet) : val := VStruct (packet_vals p ++ [VSeq (VRaw <$> packet_rest p)]).

Definition packet_type (p : packet) : Z :=
  match p with
  | Ping _ => pingPacket
  | Pong _ => pongPacket
  | Findnode _ => findnodePacket
  | Neighbors _ => neighborsPacket
  end.

(** The packet a decoded value is. *)
Definition rpcEndpoint_of (v : val) : option rpcEndpoint :=
  match v with VStruct [VBytes ip; VUint udp; VUint tcp] => Some (mk_endpoint ip udp tcp) | _ => None end.
Definition rpcNode_of (v : val) : option rpcNode :=
  match v with VStruct [VBytes ip; VUint udp; VUint tcp; VBytes id] => Some (mk_rpcNode ip udp tcp id) | _ => None end.
Definition raws_of (v : val) : option (list bytes) :=
  match v with VSeq vs => mapM (fun v => match v with VRaw b => Some b | _ => None end) vs | _ => None end.

Definition ping_of (v : val) : option packet :=
  match v with
  | VStruct [VUint version; from; to; VUint e; rest] =>
      from ← rpcEndpoint_of from; to ← rpcEndpoint_of to; rest ← raws_of rest;
      Some (Ping (mk_ping version from to e rest))
  | _ => None
  end.
Definition pong_of (v : val) : option packet :=
  match v with
  | VStruct [to; VBytes tok; VUint e; rest] =>
      to ← rpcEndpoint_of to; rest ← raws_of rest; Some (Pong (mk_pong to tok e rest))
  | _ => None
  end.
Definition findnode_of (v : val) : option packet :=
  match v with
  | VStruct [VBytes target; VUint e; rest] => rest ← raws_of rest; Some (Findnode (mk_findnode target e rest))
  | _ => None
  end.
Definition neighbors_of (v : val) : option packet :=
  match v with
  | VStruct [VSeq ns; VUint e; rest] =>
      ns ← mapM rpcNode_of ns; rest ← raws_of rest; Some (Neighbors (mk_neighbors ns e rest))
  | _ => None
  end.

(** The switch of [decodePacket]: the type to decode, and its conversion. *)
Definition packet_decoder (ptype : Z) : option (list typ * (val -> option packet)) :=
  if ptype =? pingPacket then Some (ping_fields, ping_of)
  else if ptype =? pongPacket then Some (pong_fields, pong_of)
  else if ptype =? findnodePacket then Some (findnode_fields, findnode_of)
  else if ptype =? neighborsPacket then Some (neighbors_fields, neighbors_of)
  else None.

(** ** The envelope *)

Definition macSize : nat := 32.
Definition sigSize : nat := 65.
Definition headSize : nat := macSize + sigSize.
Definition headSpace : bytes := replicate headSize Byte.x00.

Section Envelope.
Context {C : EllipticCurve} {S : SecpC} `{HX : Xor}.

(** The packet and its hash. *)
Definition encodePacket (priv : PrivateKey) (ptype : Z) (req : packet) : outcome (bytes * bytes) :=
  data ← Encode (TPtr (packet_typ req)) (VPtr (packet_val req));
  let packet := headSpace ++ [u8 ptype] ++ concat data in
  sum ← Keccak256 [drop headSize packet];
  sig ← crypto_Sign sum priv;
  let packet := copy_at packet macSize sig in
  hash ← Keccak256 [drop macSize packet];
  Ret (copy_at packet 0 hash, hash).

Definition recoverNodeID (hash sig : bytes) : outcome NodeID :=
  pubkey ← RecoverPubkey hash sig;
  if decide (length pubkey <> 65%nat) then Err errRecoveredLength else Ret (drop 1 pubkey).

(** The packet, the identifier of its sender and its hash. *)
Definition decodePacket (buf : bytes) : outcome (packet * NodeID * bytes) :=
  if decide (length buf < headSize + 1)%nat then Err errPacketTooSmall else
  hash ← slice buf 0 macSize;
  sig ← slice buf macSize headSize;
  sigdata ← slice buf headSize (length buf);
  shouldhash ← Keccak256 [drop macSize buf];
  if negb (bool_decide (hash = shouldhash)) then Err errBadHash else
  sum ← Keccak256 [drop headSize buf];
  fromID ← recoverNodeID sum sig;
  ptype ← idx sigdata 0;
  match packet_decoder (ub ptype) with
  | None => Err errUnknownType
  | Some (fields, conv) =>
      match Stream_Decode (with_rest fields) (NewStream (drop 1 sigdata) true 0) with
      | (Ret v, _) => req ← of_option (conv v); Ret (req, fromID, hash)
      | (Err e, _) => Err e
      | (Panic, _) => Panic
      end
  end.

End Envelope.

(** ** How many nodes fit into a packet *)

Definition maxPacketSize : nat := 1280.

Definition maxSizeNode : rpcNode := mk_rpcNode (replicate 16 Byte.x00) (2 ^ 16 - 1) (2 ^ 16 - 1) (replicate 64 Byte.x00).

(** The loop of [init]; [None] when the fuel is used up. *)
Fixpoint init_loop (fuel n : nat) (nodes : list rpcNode) : outcome (option nat) :=
  match fuel with
  | O => Ret None
  | Datatypes.S fuel' =>
      let nodes := nodes ++ [maxSizeNode] in
      let p := Neighbors (mk_neighbors nodes (2 ^ 64 - 1) []) in
      match EncodeToReader (packet_typ p) (packet_val p) with
      | Ret (size, _) =>
          if decide (maxPacketSize <= headSize + size + 1)%nat then Ret (Some n) else init_loop fuel' (n + 1) nodes
      | _ => Panic
      end
  end.

(** Stuffing ends long before a hundred nodes. *)
Definition maxNeighbors : nat :=
  Eval vm_compute in match init_loop 100 0 [] with Ret (Some n) => n | _ => 0%nat end.

Lemma init_sets_maxNeighbors : init_loop 100 0 [] = Ret (Some maxNeighbors).
Proof. by vm_compute. Qed.

(** ** Packets in range *)

Definition endpoint_ok (e : rpcEndpoint) : Prop := 0 <= re_UDP e < 2 ^ 16 /\ 0 <= re_TCP e < 2 ^ 16.
Definition rpcNode_ok (n : rpcNode) : Prop :=
  0 <= rn_UDP n < 2 ^ 16 /\ 0 <= rn_TCP n < 2 ^ 16 /\ length (rn_ID n) = 64%nat.

(** The fields are in the range of their Go types. *)
Definition in_range (p : packet) : Prop :=
  match p with
  | Ping p => 0 <= ping_Version p < 2 ^ 64 /\ endpoint_ok (ping_From p) /\ endpoint_ok (ping_To p) /\
      0 <= ping_Expiration p < 2 ^ 64
  | Pong p => endpoint_ok (pong_To p) /\ 0 <= pong_Expiration p < 2 ^ 64
  | Findnode p => length (fn_Target p) = 64%nat /\ 0 <= fn_Expiration p < 2 ^ 64
  | Neighbors p => Forall rpcNode_ok (nb_Nodes p) /\ 0 <= nb_Expiration p < 2 ^ 64
  end.

(** The additional fields are RLP values. *)
Definition packet_ok (p : packet) : Prop := in_range p /\ Forall encoded_value (packet_rest p).

Lemma encodable_uint bits z : bits ∈ [16; 64] -> 0 <= z < 2 ^ bits -> encodable (TUint bits) no_tags (VUint z).
Proof. intros [-> | [-> | []%not_elem_of_nil]%elem_of_cons]%elem_of_cons Hz; apply enc_uint; first [done|lia]. Qed.

Lemma encodable_id b : length b = 64%nat -> encodable (byte_array 64) no_tags (VBytes b).
Proof. intros H. unfold byte_array. rewrite <- H. apply enc_bytearray; [done|]. by intros ->. Qed.

Lemma encodable_ip b : encodable bytes_typ no_tags (VBytes b).
Proof. by constructor. Qed.

Create HintDb packets.
#[local] Hint Resolve encodable_uint encodable_id encodable_ip Forall2_nil_2 Forall2_cons_2 : packets.
#[local] Hint Extern 1 (_ ∈ [16; 64]) => set_solver : packets.

Lemma endpoint_encodable e : endpoint_ok e -> encodable rpcEndpoint_typ no_tags (rpcEndpoint_val e).
Proof. intros [H1 H2]. apply enc_struct, encodable_public. auto 9 with packets. Qed.

Lemma rpcNode_encodable n : rpcNode_ok n -> encodable rpcNode_typ no_tags (rpcNode_val n).
Proof. intros (H1 & H2 & H3). apply enc_struct, encodable_public. auto 9 with packets. Qed.

Lemma encodable_with_rest ts vs rest :
  Forall2 (fun t v => encodable t no_tags v) ts vs -> Forall encoded_value rest ->
  encodable (with_rest ts) no_tags (VStruct (vs ++ [VSeq (VRaw <$> rest)])).
Proof.
  intros H Hr. apply enc_struct. induction H as [|t v ts vs Hv _ IH]; cbn [fmap list_fmap app].
  - eapply (enc_fields_cons _ _ (mk_tags false true false)); [done..| |constructor].
    apply enc_slice; [done..|]. apply encodable_all_fmap. eapply Forall_impl; [exact Hr|]. by constructor.
  - eapply (enc_fields_cons _ _ no_tags); [done| |done|exact Hv|exact IH]. by destruct (public_field <$> ts).
Qed.

#[local] Hint Resolve endpoint_encodable rpcNode_encodable : packets.

Lemma packet_encodable p : packet_ok p -> encodable (packet_typ p) no_tags (packet_val p).
Proof.
  intros [Hp Hr]. apply encodable_with_rest; [|exact Hr].
  destruct p as [p|p|p|p]; cbn [in_range packet_fields packet_vals] in *; unfold ping_fields, pong_fields, findnode_fields, neighbors_fields.
  - destruct Hp as (H1 & H2 & H3 & H4). repeat apply Forall2_cons_2; auto with packets.
  - destruct Hp as (H1 & H2). repeat apply Forall2_cons_2; auto with packets.
  - destruct Hp as (H1 & H2). repeat apply Forall2_cons_2; auto with packets.
  - destruct Hp as (H1 & H2). apply Forall2_cons_2; [|auto with packets]. apply enc_slice; [done..|].
    apply encodable_all_fmap. eapply Forall_impl; [exact H1|]. auto with packets.
Qed.

Lemma packet_typ_ok p : genTypeInfo (packet_typ p) = Ret tt /\ genTypeInfo (TPtr (packet_typ p)) = Ret tt.
Proof. by destruct p. Qed.

Lemma raws_of_val rest : raws_of (VSeq (VRaw <$> rest)) = Some rest.
Proof. cbn [raws_of]. by rewrite mapM_fmap_inv. Qed.

Lemma packet_decoder_val p : exists conv,
  packet_decoder (packet_type p) = Some (packet_fields p, conv) /\ conv (packet_val p) = Some p.
Proof.
  destruct p as [p|p|p|p]; eexists; (split; [done|]); unfold packet_val;
    cbn [packet_vals packet_rest app ping_of pong_of findnode_of neighbors_of].
  all: rewrite ?raws_of_val, ?mapM_fmap_inv by (by intros []); cbn [mbind option_bind rpcEndpoint_of rpcEndpoint_val].
  1: destruct p as [? [] [] ? ?]. 2: destruct p as [[] ? ? ?]. 3, 4: destruct p. all: done.
Qed.

(** A packet in range has an encoding, which both sides agree on. *)
Lemma packet_encodes p : packet_ok p -> exists b, rlp_encode (packet_val p) (packet_typ p) no_tags = Ret b /\
  (Z.of_nat (length b) <= maxAlloc ->
   (exists ws, Encode (TPtr (packet_typ p)) (VPtr (packet_val p)) = Ret ws /\ concat ws = b) /\
   exists s, Stream_Decode (packet_typ p) (NewStream b true 0) = (Ret (packet_val p), s)).
Proof.
  intros Hp. pose proof (packet_encodable p Hp) as He. destruct (packet_typ_ok p) as [Ht Htp].
  destruct (proj1 encodable_encodes _ _ _ He) as [Hu [b Hb]]. exists b. split; [done|]. intros Hl. split.
  - apply Encode_writes; try done. lia.
  - destruct (Stream_Decode_complete _ _ b [] true 0 He Ht Hb Hl) as (s & E & _); [lia|].
    rewrite app_nil_r in E. by exists s.
Qed.

Section EnvelopeFacts.
Context {C : EllipticCurve} {G : CurveGroup C} {S : SecpC} {L : SecpLaws C G S} `{HX : Xor}.

Definition keccak (b : bytes) : bytes := Sponge.output 136 Byte.x01 b 0 32.

Lemma Keccak256_eq b : Keccak256 [b] = Ret (keccak b) /\ length (keccak b) = 32%nat.
Proof. destruct (Keccak256_sponge [b]) as [E H]. cbn [concat] in E, H. by rewrite app_nil_r in E, H. Qed.

(** The bytes of a datagram: hash, signature, type and data. *)
Definition datagram (sig data : bytes) : bytes := keccak (sig ++ data) ++ sig ++ data.

Lemma datagram_parts sig data : length sig = sigSize ->
  take macSize (datagram sig data) = keccak (sig ++ data) /\ drop macSize (datagram sig data) = sig ++ data /\
  take sigSize (drop macSize (datagram sig data)) = sig /\ drop headSize (datagram sig data) = data /\
  length (datagram sig data) = (headSize + length data)%nat.
Proof.
  intros Hs. unfold datagram. pose proof (proj2 (Keccak256_eq (sig ++ data))) as Hk.
  assert (drop macSize (keccak (sig ++ data) ++ sig ++ data) = sig ++ data) as Hd by (by rewrite drop_app_length').
  rewrite Hd. split_and!; [by rewrite take_app_length'|done|by rewrite take_app_length'| |].
  - change headSize with (macSize + sigSize)%nat. rewrite <- drop_drop, Hd. by rewrite drop_app_length'.
  - rewrite !length_app, Hk, Hs. unfold headSize, macSize. lia.
Qed.

(** Sealing puts the signature and then the hash into the head space. *)
Lemma seal_datagram (sig data hash : bytes) : length sig = sigSize -> hash = keccak (sig ++ data) ->
  copy_at (copy_at (headSpace ++ data) macSize sig) 0 hash = datagram sig data /\
  drop macSize (copy_at (headSpace ++ data) macSize sig) = sig ++ data.
Proof.
  intros Hs ->. pose proof (proj2 (Keccak256_eq (sig ++ data))) as Hk.
  assert (copy_at (headSpace ++ data) macSize sig = replicate macSize Byte.x00 ++ sig ++ data) as ->.
  { unfold headSpace, headSize. rewrite replicate_add, <- app_assoc.
    rewrite <- (copy_at_mid (replicate macSize Byte.x00) (replicate sigSize Byte.x00) data sig) by (by rewrite length_replicate).
    by rewrite length_replicate. }
  split; [|by rewrite drop_app_length' by (by rewrite length_replicate)].
  pose proof (copy_at_mid [] (replicate macSize Byte.x00) (sig ++ data) (keccak (sig ++ data))) as E.
  cbn [app length] in E. rewrite E; [done|]. by rewrite Hk, length_replicate.
Qed.

Lemma decodePacket_datagram sig data : length sig = sigSize -> data <> [] ->
  decodePacket (datagram sig data) =
  (fromID ← recoverNodeID (keccak data) sig;
   ptype ← idx data 0;
   match packet_decoder (ub ptype) with
   | None => Err errUnknownType
   | Some (fields, conv) =>
       match Stream_Decode (with_rest fields) (NewStream (drop 1 data) true 0) with
       | (Ret v, _) => req ← of_option (conv v); Ret (req, fromID, keccak (sig ++ data))
       | (Err e, _) => Err e
       | (Panic, _) => Panic
       end
   end).
Proof.
  intros Hs Hd. destruct (datagram_parts sig data Hs) as (E1 & E2 & E3 & E4 & El).
  unfold decodePacket. rewrite decide_False by (rewrite El; destruct data; [done|cbn; lia]).
  unfold slice. rewrite !decide_True by (rewrite ?El; unfold headSize, macSize, sigSize; lia).
  rewrite !Ret_bind, drop_0, Nat.sub_0_r, E1. change (headSize - macSize)%nat with sigSize. rewrite E3, E4.
  rewrite E2, (proj1 (Keccak256_eq (sig ++ data))), Ret_bind, bool_decide_true by done. cbn [negb].
  rewrite (proj1 (Keccak256_eq data)), Ret_bind. by rewrite El, (firstn_all2 data) by lia.
Qed.

Hypothesis HB : Params_BitSize = 256.

(** The size of the datagram of a packet. *)
Definition packet_size (p : packet) : nat :=
  match rlp_encode (packet_val p) (packet_typ p) no_tags with
  | Ret b => headSize + 1 + length b
  | _ => 0
  end.

Lemma packet_type_byte p : ub (u8 (packet_type p)) = packet_type p.
Proof. by destruct p. Qed.

Lemma recoverNodeID_signed d hash : key_ok d -> length hash = 32%nat ->
  exists sig, crypto_Sign hash (static_key d) = Ret sig /\ length sig = sigSize /\ recoverNodeID hash sig = Ret (id_of d).
Proof.
  intros Hd Hh. destruct (Ecrecover_Sign HB hash (Some (mulG d)) d Hh Hd) as (sig & E1 & E2 & E3 & _).
  exists sig. split; [exact E1|]. split; [exact E2|]. unfold recoverNodeID. change (RecoverPubkey hash sig) with (Ecrecover hash sig).
  rewrite E3, Ret_bind, decide_False; [done|]. rewrite point_bytes_id. cbn [length]. rewrite (length_id_of HB). lia.
Qed.

(** What is sealed with the key [d] opens as a packet of the node of [d]. *)
Lemma encodePacket_decodes d p : key_ok d -> packet_ok p -> Z.of_nat (packet_size p) <= maxAlloc ->
  exists buf hash, encodePacket (static_key d) (packet_type p) p = Ret (buf, hash) /\
    length hash = 32%nat /\ length buf = packet_size p /\ decodePacket buf = Ret (p, id_of d, hash).
Proof.
  intros Hd Hp Hl. destruct (packet_encodes p Hp) as (b & Hb & Hc). unfold packet_size in *. rewrite Hb in *.
  destruct Hc as [(ws & Ew & <-) (s & Es)]; [lia|]. set (data := u8 (packet_type p) :: concat ws) in *.
  destruct (recoverNodeID_signed d (keccak data) Hd (proj2 (Keccak256_eq _))) as (sig & E1 & Hs & E3).
  destruct (seal_datagram sig data _ Hs eq_refl) as [F1 F2].
  destruct (datagram_parts sig data Hs) as (_ & _ & _ & _ & Fl).
  exists (datagram sig data), (keccak (sig ++ data)). split_and!.
  - unfold encodePacket. rewrite Ew, Ret_bind. change ([u8 (packet_type p)] ++ concat ws) with data.
    rewrite (drop_app_length' headSpace) by done. rewrite (proj1 (Keccak256_eq data)), Ret_bind, E1, Ret_bind.
    by rewrite F2, (proj1 (Keccak256_eq (sig ++ data))), Ret_bind, F1.
  - apply (proj2 (Keccak256_eq _)).
  - rewrite Fl. cbn [length data]. lia.
  - rewrite decodePacket_datagram by done. rewrite E3, Ret_bind. change (idx data 0) with (Ret (u8 (packet_type p))). rewrite Ret_bind.
    rewrite packet_type_byte. destruct (packet_decoder_val p) as (conv & -> & Ev).
    cbn [drop data]. rewrite drop_0. change (with_rest (packet_fields p)) with (packet_typ p). by rewrite Es, Ev.
Qed.

(** ** Any datagram *)

Lemma typed_uint v bits : has_type v (TUint bits) = true -> exists z, v = VUint z /\ 0 <= z < 2 ^ bits.
Proof.
  destruct v; try done. cbn. intros [[_ H1%Z.leb_le]%andb_prop H2%Z.ltb_lt]%andb_prop. eauto.
Qed.

Lemma typed_id v : has_type v (byte_array 64) = true -> exists b, v = VBytes b /\ length b = 64%nat.
Proof. destruct v; try done. cbn. intros H%Nat.eqb_eq. eauto. Qed.

Lemma typed_with_rest v ts : has_type v (with_rest ts) = true ->
  exists vs rest, v = VStruct (vs ++ [VSeq (VRaw <$> rest)]) /\ Forall2 (fun v t => has_type v t = true) vs ts.
Proof.
  destruct v as [| | | | | | |vs| | |]; try done. unfold with_rest. cbn [has_type]. revert ts.
  induction vs as [|v vs IH]; intros [|t ts]; cbn [fmap list_fmap app fields_have_type]; try done.
  - intros [H1 H2]%andb_prop. destruct vs; [|done].
    apply typed_slice in H1 as (vs & -> & Hv); [|done].
    assert (exists rest, vs = VRaw <$> rest) as (rest & ->).
    { induction vs as [|v vs IHvs]; [by exists []|]. cbn [forallb] in Hv. apply andb_prop in Hv as [Hr Hv].
      destruct (IHvs Hv) as (rest & ->). destruct v as [b| | | | | | | | | |]; try done. by exists (b :: rest). }
    exists [], rest. by split.
  - intros [H1 H2]%andb_prop. destruct (IH ts H2) as (vs' & rest & [= ->] & HF).
    exists (v :: vs'), rest. split; [done|]. by constructor.
Qed.

Ltac typed_fields H :=
  repeat (apply Forall2_cons_inv_r in H as (? & ? & ? & H & ->)); apply Forall2_nil_inv_r in H as ->;
  repeat match goal with
  | H : has_type _ (TUint _) = true |- _ => apply typed_uint in H as (? & -> & ?)
  | H : has_type _ (byte_array 64) = true |- _ => apply typed_id in H as (? & -> & ?)
  | H : has_type _ bytes_typ = true |- _ => apply typed_bytes in H as (? & ->)
  end.

Lemma typed_endpoint v : has_type v rpcEndpoint_typ = true -> exists e, v = rpcEndpoint_val e /\ endpoint_ok e.
Proof.
  intros (vs & -> & H)%typed_struct. typed_fields H. eexists (mk_endpoint _ _ _). by split.
Qed.

Lemma typed_rpcNode v : has_type v rpcNode_typ = true -> exists n, v = rpcNode_val n /\ rpcNode_ok n.
Proof.
  intros (vs & -> & H)%typed_struct. typed_fields H. eexists (mk_rpcNode _ _ _ _). split; [done|]. by unfold rpcNode_ok.
Qed.

Lemma typed_rpcNodes v : has_type v (TSlice rpcNode_typ) = true ->
  exists ns, v = VSeq (rpcNode_val <$> ns) /\ Forall rpcNode_ok ns.
Proof.
  intros (vs & -> & H)%typed_slice; [|done]. induction vs as [|v vs IH]; [by exists []|].
  cbn [forallb] in H. apply andb_prop in H as [H1 H2]. destruct (IH H2) as (ns & [= ->] & Hns).
  apply typed_rpcNode in H1 as (n & -> & Hn). exists (n :: ns). split; [done|]. by constructor.
Qed.

(** A decoded value converts to a packet in range, of the type that was announced. *)
Lemma typed_packet ptype fields conv v : packet_decoder ptype = Some (fields, conv) ->
  has_type v (with_rest fields) = true -> exists p, conv v = Some p /\ in_range p /\ packet_type p = ptype.
Proof.
  unfold packet_decoder. intros Hd (vs & rest & -> & H)%typed_with_rest. revert Hd.
  assert (forall p, (vs = packet_vals p -> packet_rest p = rest -> packet_type p = ptype ->
    packet_decoder ptype = Some (fields, conv) -> in_range p ->
    exists p, conv (VStruct (vs ++ [VSeq (VRaw <$> rest)])) = Some p /\ in_range p /\ packet_type p = ptype)) as Hp.
  { intros p -> <- <- Hdec Hr. destruct (packet_decoder_val p) as (conv' & E & Ev). rewrite E in Hdec. injection Hdec as <- <-.
    exists p. split; [exact Ev|]. by split. }
  unfold packet_decoder in Hp.
  destruct (Z.eqb_spec ptype pingPacket) as [->|_]; [|destruct (Z.eqb_spec ptype pongPacket) as [->|_];
    [|destruct (Z.eqb_spec ptype findnodePacket) as [->|_]; [|destruct (Z.eqb_spec ptype neighborsPacket) as [->|_]; [|done]]]];
    intros [= <- <-].
  - typed_fields H. repeat match goal with H : has_type _ rpcEndpoint_typ = true |- _ => apply typed_endpoint in H as (? & -> & ?) end.
    eapply (Hp (Ping (mk_ping _ _ _ _ rest))); [done..|]. by cbn [in_range].
  - typed_fields H. repeat match goal with H : has_type _ rpcEndpoint_typ = true |- _ => apply typed_endpoint in H as (? & -> & ?) end.
    eapply (Hp (Pong (mk_pong _ _ _ rest))); [done..|]. by cbn [in_range].
  - typed_fields H. eapply (Hp (Findnode (mk_findnode _ _ rest))); [done..|]. by cbn [in_range].
  - typed_fields H. match goal with H : has_type _ (TSlice rpcNode_typ) = true |- _ => apply typed_rpcNodes in H as (? & -> & ?) end.
    eapply (Hp (Neighbors (mk_neighbors _ _ rest))); [done..|]. by cbn [in_range].
Qed.

Lemma packet_decoder_types ptype fields conv : packet_decoder ptype = Some (fields, conv) ->
  canonical_typ (with_rest fields) = true /\ genTypeInfo (with_rest fields) = Ret tt /\ widths_ok (with_rest fields) = true.
Proof. unfold packet_decoder. repeat case_match; intros [= <- <-]; by vm_compute. Qed.

(** The decoder either refuses a datagram, or it is a hash of a signed packet in range. *)
Lemma decodePacket_cases buf : Z.of_nat (length buf) <= maxAlloc ->
  (exists e, decodePacket buf = Err e /\ e <> no_fuel) \/
  exists p id sig data pub, decodePacket buf = Ret (p, id, keccak (sig ++ data)) /\ buf = datagram sig data /\
    length sig = sigSize /\ in_range p /\ head data = Some (u8 (packet_type p)) /\
    ecdsa_recover_pubkey sig (keccak data) = Some pub /\ length pub = 65%nat /\ id = drop 1 pub.
Proof.
  intros Hbuf. destruct (decide (length buf < headSize + 1)%nat) as [Hl|Hl].
  { left. exists errPacketTooSmall. unfold decodePacket. by rewrite decide_True. }
  destruct (decide (take macSize buf = keccak (drop macSize buf))) as [Hk|Hk]; last first.
  { left. exists errBadHash. unfold decodePacket. rewrite decide_False by done. unfold slice.
    rewrite !decide_True by (unfold headSize, macSize, sigSize in *; lia). rewrite !Ret_bind.
    rewrite (proj1 (Keccak256_eq (drop macSize buf))), Ret_bind, bool_decide_false; [done|].
    by rewrite drop_0, Nat.sub_0_r. }
  set (sig := take sigSize (drop macSize buf)). set (data := drop sigSize (drop macSize buf)).
  assert (length sig = sigSize) as Hs by (unfold sig; rewrite length_take, length_drop; unfold headSize, macSize, sigSize in *; lia).
  assert (buf = datagram sig data) as Eb.
  { unfold datagram, sig, data. rewrite take_drop, <- Hk. by rewrite take_drop. }
  assert (data <> []) as Hd.
  { intros E. apply (f_equal length) in E. unfold data in E. rewrite !length_drop in E. unfold headSize in Hl. cbn in E. lia. }
  assert (Z.of_nat (length data) <= maxAlloc) as Hm.
  { unfold data. rewrite !length_drop. lia. }
  clearbody sig data. rewrite Eb, (decodePacket_datagram sig data Hs Hd). clear Hk Hl.
  destruct data as [|b data]; [done|]. change (idx (b :: data) 0) with (Ret b). cbn [drop]. rewrite drop_0.
  unfold recoverNodeID, RecoverPubkey. rewrite decide_False by (rewrite (proj2 (Keccak256_eq _)); auto).
  unfold checkSignature. rewrite decide_False by (rewrite Hs; auto).
  destruct (lookup_lt_is_Some_2 sig 64) as [v Hv]; [rewrite Hs; unfold sigSize; lia|].
  rewrite (idx_Some _ _ _ Hv), Ret_bind. destruct (4 <=? ub v); [left; by eexists|]. rewrite Ret_bind.
  destruct (ecdsa_recover_pubkey sig (keccak (b :: data))) as [pub|] eqn:Ep; [|left; by eexists].
  rewrite Ret_bind. case_decide as Hpub; [left; by eexists|]. rewrite !Ret_bind.
  destruct (packet_decoder (ub b)) as [[fields conv]|] eqn:Ed; [|left; by eexists].
  destruct (packet_decoder_types _ _ _ Ed) as (Hc & Ht & Hw).
  destruct (slice_Decode_ends (with_rest fields) data 0 Hc Ht) as [N1 N2]; [by left|cbn [length] in Hm; lia|].
  destruct (Stream_Decode (with_rest fields) (NewStream data true 0)) as [[v'|e|] s'] eqn:Es; cbn in N1, N2; [|left; exists e; split; congruence|done].
  unfold Stream_Decode in Es. rewrite Ht in Es. apply decode_typed in Es; [|done].
  destruct (typed_packet _ _ _ _ Ed Es) as (p & -> & Hr & Hty). right.
  exists p, (drop 1 pub), sig, (b :: data), pub. cbn [of_option head]. rewrite Ret_bind, Hty, u8_ub. by split_and!; auto.
Qed.

End EnvelopeFacts.

(** ** Sizes *)

Definition head_bound (n : nat) : nat := if decide (n < 56)%nat then 1 else if decide (n < 256)%nat then 2 else 3.

Lemma puthead_bound small large (n : nat) : Z.of_nat n < 65536 ->
  (length (puthead small large (Z.of_nat n)) <= head_bound n)%nat.
Proof.
  intros Hn. unfold puthead, head_bound. destruct (Z.ltb_spec (Z.of_nat n) 56); [by rewrite decide_True by lia|].
  rewrite decide_False by lia. unfold putint.
  destruct (Z.ltb_spec (Z.of_nat n) (2 ^ 8)); [rewrite decide_True by lia; done|]. rewrite decide_False by lia.
  destruct (Z.ltb_spec (Z.of_nat n) (2 ^ 16)); [done|lia].
Qed.

Lemma head_bound_mono m n : (m <= n)%nat -> (head_bound m <= head_bound n)%nat.
Proof. unfold head_bound. repeat case_decide; lia. Qed.

(** [v] of type [t] takes at most [n] bytes. *)
Definition takes (v : val) (t : typ) (n : nat) : Prop :=
  exists b, rlp_encode v t no_tags = Ret b /\ (length b <= n)%nat.

Lemma rlp_string_bound b n : (length b <= n)%nat -> Z.of_nat n < 65536 -> (length (rlp_string b) <= head_bound n + n)%nat.
Proof.
  intros Hb Hn. pose proof (head_bound_mono _ _ Hb).
  assert (length (puthead 0x80 0xB7 (Z.of_nat (length b)) ++ b) <= head_bound n + n)%nat as Hp.
  { rewrite length_app. pose proof (puthead_bound 0x80 0xB7 (length b)). lia. }
  unfold rlp_string. destruct b as [|x [|y b]]; [exact Hp| |exact Hp].
  destruct (ub x <=? 127); [cbn; unfold head_bound; case_decide; lia|exact Hp].
Qed.

Lemma takes_uint bits z : bits ∈ [16; 64] -> 0 <= z < 2 ^ bits -> takes (VUint z) (TUint bits) (1 + Z.to_nat (bits / 8)).
Proof.
  intros Hb Hz. eexists. split; [done|].
  assert (exists k, (bits / 8 = Z.of_nat k) /\ (k < 56)%nat /\ 2 ^ bits = 256 ^ Z.of_nat k) as (k & Ek & Hk & Ep).
  { apply elem_of_cons in Hb as [-> | [-> | []%not_elem_of_nil]%elem_of_cons]; [exists 2%nat|exists 8%nat]; split_and!; done || lia. }
  rewrite Ek, Nat2Z.id. pose proof (byte_len_le z k ltac:(lia)) as Hl.
  pose proof (rlp_string_bound (Bytes z) k) as H. rewrite length_Bytes in H.
  unfold head_bound in H. rewrite decide_True in H by lia. lia.
Qed.

Lemma takes_bytes b n : (length b <= n)%nat -> Z.of_nat n < 65536 -> takes (VBytes b) bytes_typ (head_bound n + n).
Proof. intros. eexists. split; [done|]. by apply rlp_string_bound. Qed.

Lemma takes_id b : length b = 64%nat -> takes (VBytes b) (byte_array 64) 66.
Proof. intros H. eexists. split; [done|]. apply (rlp_string_bound b 64); lia. Qed.

Lemma rlp_list_bound p n : (length p <= n)%nat -> Z.of_nat n < 65536 -> (length (rlp_list p) <= head_bound n + n)%nat.
Proof.
  intros Hp Hn. unfold rlp_list. rewrite length_app. pose proof (puthead_bound 0xC0 0xF7 (length p)).
  pose proof (head_bound_mono _ _ Hp). lia.
Qed.

Lemma takes_fields vs ts ns fs more : Forall3 takes vs ts ns ->
  rlp_fields rlp_encode more fs = Ret [] ->
  exists p, rlp_fields rlp_encode (vs ++ more) ((public_field <$> ts) ++ fs) = Ret p /\ (length p <= sum_list ns)%nat.
Proof.
  intros H Hm. induction H as [|v t n vs ts ns (b & Eb & Hb) _ (p & Ep & Hp)]; [by exists []|].
  exists (b ++ p). cbn [app fmap list_fmap]. rewrite rlp_fields_cons. cbn [f_exported public_field].
  assert (parseStructTag (public_field t) (match (public_field <$> ts) ++ fs with [] => true | _ => false end) = Ret no_tags) as E
    by (by destruct ((public_field <$> ts) ++ fs)).
  rewrite E, Ret_bind. cbn [ignored no_tags f_typ public_field]. rewrite Eb, Ret_bind, Ep, Ret_bind.
  split; [done|]. rewrite length_app. cbn. lia.
Qed.

Lemma takes_struct vs ts ns n : Forall3 takes vs ts ns -> (sum_list ns <= n)%nat -> Z.of_nat n < 65536 ->
  takes (VStruct vs) (TStruct (public_field <$> ts)) (head_bound n + n).
Proof.
  intros H Hn Hm. destruct (takes_fields vs ts ns [] [] H eq_refl) as (p & Ep & Hp). rewrite !app_nil_r in Ep.
  exists (rlp_list p). cbn [rlp_encode]. rewrite Ep. split; [done|]. apply rlp_list_bound; lia.
Qed.

(** A packet without additional fields. *)
Lemma takes_packet p ns n : packet_rest p = [] -> Forall3 takes (packet_vals p) (packet_fields p) ns ->
  (sum_list ns <= n)%nat -> Z.of_nat n < 65536 -> (packet_size p <= headSize + 1 + (head_bound n + n))%nat.
Proof.
  intros Hr H Hn Hm. destruct (takes_fields _ _ _ [rest_field] [VSeq []] H eq_refl) as (b & Eb & Hb).
  unfold packet_size, packet_val, packet_typ, with_rest. rewrite Hr. cbn [fmap list_fmap rlp_encode]. rewrite Eb.
  cbn [mbind outcome_bind]. pose proof (rlp_list_bound b n). lia.
Qed.

Lemma takes_endpoint e : endpoint_ok e -> (length (re_IP e) <= 16)%nat -> takes (rpcEndpoint_val e) rpcEndpoint_typ 24.
Proof.
  intros [H1 H2] Hip. apply (takes_struct _ _ [17; 3; 3]%nat 23); [|cbn; lia..].
  repeat apply Forall3_cons; [apply (takes_bytes _ 16); lia|apply (takes_uint 16); [set_solver|done]..|constructor].
Qed.

Lemma takes_rpcNode n : rpcNode_ok n -> (length (rn_IP n) <= 16)%nat -> takes (rpcNode_val n) rpcNode_typ 91.
Proof.
  intros (H1 & H2 & H3) Hip. apply (takes_struct _ _ [17; 3; 3; 66]%nat 89); [|cbn; lia..].
  repeat apply Forall3_cons; [apply (takes_bytes _ 16); lia|apply (takes_uint 16); [set_solver|done]..|by apply takes_id|constructor].
Qed.

Lemma takes_rpcNodes ns : Forall rpcNode_ok ns -> Forall (fun n => length (rn_IP n) <= 16)%nat ns -> (length ns <= maxNeighbors)%nat ->
  takes (VSeq (rpcNode_val <$> ns)) (TSlice rpcNode_typ) 1095.
Proof.
  intros Hok Hip Hl.
  assert (exists p, rlp_elems rlp_encode rpcNode_typ (rpcNode_val <$> ns) = Ret p /\ (length p <= 91 * length ns)%nat) as (p & Ep & Hp).
  { clear Hl. induction Hok as [|n ns Hn _ IH]; [by exists []|]. apply Forall_cons in Hip as [H1 H2].
    destruct (IH H2) as (p & Ep & Hp). destruct (takes_rpcNode n Hn H1) as (b & Eb & Hb). exists (b ++ p).
    cbn [fmap list_fmap]. rewrite rlp_elems_cons, Eb. cbn [mbind outcome_bind]. rewrite Ep. split; [done|].
    rewrite length_app. cbn [length]. lia. }
  exists (rlp_list p). cbn [rlp_encode isByte rpcNode_typ tail no_tags]. rewrite Ep. split; [done|].
  unfold maxNeighbors in Hl. apply (rlp_list_bound p 1092); lia.
Qed.

#[local] Hint Resolve takes_endpoint takes_rpcNodes takes_id : packets.
#[local] Hint Extern 1 (takes (VUint _) (TUint 64) _) => apply (takes_uint 64) : packets.

(** Whatever the nodes, a packet with at most [maxNeighbors] of them is below the limit. *)
Lemma neighbors_size ns e : Forall rpcNode_ok ns -> Forall (fun n => length (rn_IP n) <= 16)%nat ns ->
  (length ns <= maxNeighbors)%nat -> 0 <= e < 2 ^ 64 ->
  (packet_size (Neighbors (mk_neighbors ns e [])) < maxPacketSize)%nat.
Proof.
  intros Hok Hip Hl He. apply (Nat.le_lt_trans _ 1205); [|unfold maxPacketSize; lia].
  apply (takes_packet _ [1095; 9]%nat 1104); [done| |cbn; lia..]. cbn. repeat apply Forall3_cons; auto with packets; constructor.
Qed.

Lemma pong_size to tok e : endpoint_ok to -> (length (re_IP to) <= 16)%nat -> length tok = 32%nat -> 0 <= e < 2 ^ 64 ->
  (packet_size (Pong (mk_pong to tok e [])) <= 166)%nat.
Proof.
  intros H1 H2 H3 He. apply (takes_packet _ [24; 33; 9]%nat 66); [done| |cbn; lia..]. cbn.
  repeat apply Forall3_cons; auto with packets; [|constructor]. apply (takes_bytes _ 32); lia.
Qed.

Lemma ping_size v from to e : 0 <= v < 2 ^ 64 -> endpoint_ok from -> endpoint_ok to ->
  (length (re_IP from) <= 16)%nat -> (length (re_IP to) <= 16)%nat -> 0 <= e < 2 ^ 64 ->
  (packet_size (Ping (mk_ping v from to e [])) <= 166)%nat.
Proof.
  intros Hv H1 H2 H3 H4 He. apply (takes_packet _ [9; 24; 24; 9]%nat 66); [done| |cbn; lia..]. cbn.
  repeat apply Forall3_cons; auto with packets; constructor.
Qed.

Lemma findnode_size target e : length target = 64%nat -> 0 <= e < 2 ^ 64 ->
  (packet_size (Findnode (mk_findnode target e [])) <= 175)%nat.
Proof.
  intros H1 He. apply (takes_packet _ [66; 9]%nat 75); [done| |cbn; lia..]. cbn.
  repeat apply Forall3_cons; auto with packets; constructor.
Qed.

(** ** The theorems *)

Section Theorems.
Context {C : EllipticCurve} {G : CurveGroup C} {S : SecpC} {L : SecpLaws C G S} `{HX : Xor}.

(** C37: A packet that a node seals with its key is opened by every other node as the same packet, from the node
    of that key and with the hash the sender keeps for the answer, whatever its type, its nodes and its additional fields. *)
Theorem packet_roundtrip (d : Z) (p : packet) : Params_BitSize = 256 -> key_ok d -> packet_ok p ->
  Z.of_nat (packet_size p) <= maxAlloc ->
  exists buf hash, encodePacket (static_key d) (packet_type p) p = Ret (buf, hash) /\
    length hash = 32%nat /\ length buf = packet_size p /\ decodePacket buf = Ret (p, id_of d, hash).
Proof. intros HB. by apply encodePacket_decodes. Qed.

(** Nothing that arrives as a datagram panics or keeps the decoder busy for ever; and what is
    accepted carries the hash of its bytes and a signature from which the key of its sender was
    recovered, and its fields are in the range of their types. *)
Theorem datagram_authentic (buf : bytes) : Z.of_nat (length buf) <= maxAlloc ->
  decodePacket buf <> Panic /\ decodePacket buf <> Err no_fuel /\
  forall p id hash, decodePacket buf = Ret (p, id, hash) ->
    in_range p /\ length id = 64%nat /\ hash = take macSize buf /\ hash = keccak (drop macSize buf) /\
    buf !! headSize = Some (u8 (packet_type p)) /\
    exists pub, ecdsa_recover_pubkey (take sigSize (drop macSize buf)) (keccak (drop headSize buf)) = Some pub /\
      id = drop 1 pub.
Proof.
  intros Hb. destruct (decodePacket_cases buf Hb) as [(e & E & He)|(p & id & sig & data & pub & E & Eb & Hs & Hr & Hty & Hp & Hl & Hid)];
    rewrite E; (split; [done|]); (split; [congruence|]); intros p' id' hash' Heq; [done|]. injection Heq as <- <- <-.
  destruct (datagram_parts sig data Hs) as (E1 & E2 & E3 & E4 & _). rewrite Eb, E1, E2, E4.
  split; [done|]. split; [by rewrite Hid, length_drop, Hl|]. split; [done|]. split; [done|]. split.
  - rewrite <- (Nat.add_0_r headSize), <- lookup_drop, E4. by destruct data.
  - exists pub. split; [|done]. by rewrite <- Hp, <- E2, E3.
Qed.

End Theorems.

(** ** Witnesses *)

#[local] Existing Instance smallC.
#[local] Existing Instance small_group.
#[local] Existing Instance generic_xor.
#[local] Existing Instance toy_secp.
#[local] Existing Instance toy_secp_laws.

Definition demo_rpc : rpcNode := mk_rpcNode (u8 <$> [10; 3; 58; 6]) 30301 17717 (replicate 64 Byte.x07).
Definition demo_packet : packet := Neighbors (mk_neighbors [demo_rpc; demo_rpc] 1700000000 [[Byte.x05]]).

Lemma demo_packet_ok : packet_ok demo_packet.
Proof.
  assert (rpcNode_ok demo_rpc) by (unfold rpcNode_ok; cbn; lia).
  split; [split; [|cbn; lia]|]; repeat (apply Forall_cons_2; [try done|]); try apply Forall_nil_2.
  left. exists Byte.x05. split; [done|]. cbn. lia.
Qed.

Lemma packet_roundtrip_witness : exists buf hash,
  encodePacket (@static_key smallC small_group 5) neighborsPacket demo_packet = Ret (buf, hash) /\
  length hash = 32%nat /\ length buf = packet_size demo_packet /\
  decodePacket buf = Ret (demo_packet, @id_of smallC small_group 5, hash).
Proof.
  apply (@packet_roundtrip smallC small_group toy_secp toy_secp_laws generic_xor 5 demo_packet);
    [reflexivity|split; reflexivity|exact demo_packet_ok|vm_compute; congruence].
Defined.
