(* ===== verification/Replies.v ===== *)
(** * Waiting for replies

    [src/p2p/discover/udp.go]: the goroutine [loop], which keeps the queue of requests that wait for a reply, with
    the callbacks of [ping], [waitping] and [findnode], and [nodeFromRPC], which they use.  Each iteration of the
    loop is a step of a relation; requests, replies, the timer and the clock are the other steps.

    Every scan of the queue in [loop] calls [plist.Remove(el)] and then [el.Next()]; the element has left
    its list, so that [Next] returns nil and the scan ends with the first removal. *)

From S2P Require Import Prelude BigInt Keccak Sha3 Curve Secp256k1 Ecies Signature Handshake Protocol Netutil Node Table Packets.

(** Times are nanoseconds. *)
Definition Millisecond : Z := 10 ^ 6.
Definition Second : Z := 10 ^ 9.
Definition respTimeout : Z := 500 * Millisecond.
Definition expiration : Z := 20 * Second.
Definition ntpFailureThreshold : Z := 32.
Definition ntpWarningCooldown : Z := 10 * 60 * Second.

Definition errTimeout : error := "RPC timeout".
Definition errClockWarp : error := "reply deadline too far in the future".
Definition errClosed : error := "socket closed".
Definition errLowPort : error := "low port".
Definition errNotRelayed : error := "invalid relayed address".
Definition errNotWhitelisted : error := "not contained in netrestrict whitelist".
Definition errIncomplete : error := "incomplete node".
Definition errMissingUDP : error := "missing UDP port".
Definition errMissingTCP : error := "missing TCP port".
Definition errBadIP : error := "invalid IP (multicast/unspecified)".

Section Replies.
Context {C : EllipticCurve} `{HX : Xor}.

(** ** Nodes from other nodes *)

Definition validateComplete (n : Node) : outcome unit :=
  if Incomplete n then Err errIncomplete else
  if n_UDP n =? 0 then Err errMissingUDP else
  if n_TCP n =? 0 then Err errMissingTCP else
  if IsMulticast (n_IP n) || IsUnspecified (n_IP n) then Err errBadIP else
  _ ← Pubkey (n_ID n); Ret tt.

Definition nodeFromRPC (netrestrict : option Netlist) (sender : UDPAddr) (rn : rpcNode) : outcome Node :=
  if rn_UDP rn <=? 1024 then Err errLowPort else
  match CheckRelayIP (ua_IP sender) (rn_IP rn) with
  | Some _ => Err errNotRelayed
  | None =>
      if match netrestrict with Some l => negb (Contains l (rn_IP rn)) | None => false end then Err errNotWhitelisted else
      n ← NewNode (rn_ID rn) (rn_IP rn) (rn_UDP rn) (rn_TCP rn);
      _ ← validateComplete n;
      Ret n
  end.

(** ** Requests *)

(** The callbacks, with the variables they capture: the hash [ping] waits for, nothing for [waitping], and for [findnode]
    the address of the node asked, the nodes collected and the count of the nodes received. *)
Inductive callback :=
| CbPong (hash : bytes)
| CbPing
| CbNeighbors (toaddr : UDPAddr) (nodes : list Node) (nreceived : nat).

(** [pd_ptr] is the identity of the pointer, and of the channel [errc] with room for one error. *)
Record pending := mk_pending {
  pd_ptr : nat;
  pd_from : NodeID;
  pd_ptype : Z;
  pd_deadline : Z;
  pd_callback : callback
}.

Record reply := mk_reply { rp_from : NodeID; rp_ptype : Z; rp_data : packet }.

(** The loop over the nodes of a reply. *)
Fixpoint collect (netrestrict : option Netlist) (toaddr : UDPAddr) (rns : list rpcNode) (nodes : list Node) (nreceived : nat) :
    outcome (list Node * nat) :=
  match rns with
  | [] => Ret (nodes, nreceived)
  | rn :: rns =>
      match nodeFromRPC netrestrict toaddr rn with
      | Ret n => collect netrestrict toaddr rns (nodes ++ [n]) (nreceived + 1)
      | Err _ => collect netrestrict toaddr rns nodes (nreceived + 1)
      | Panic => Panic
      end
  end.

(** A type assertion that fails panics. *)
Definition call (netrestrict : option Netlist) (cb : callback) (resp : packet) : outcome (bool * callback) :=
  match cb, resp with
  | CbPong hash, Pong p => Ret (bool_decide (pong_ReplyTok p = hash), cb)
  | CbPing, _ => Ret (true, cb)
  | CbNeighbors toaddr nodes nreceived, Neighbors p =>
      '(nodes, nreceived) ← collect netrestrict toaddr (nb_Nodes p) nodes nreceived;
      Ret (bool_decide (bucketSize <= nreceived)%nat, CbNeighbors toaddr nodes nreceived)
  | _, _ => Panic
  end.

(** ** The loop *)

(** What was sent on [errc]: nil or an error, with the final state of the callback. *)
Record answer := mk_answer { an_ptr : nat; an_error : option error; an_callback : callback }.

Definition answered (e : option error) (p : pending) : answer := mk_answer (pd_ptr p) e (pd_callback p).

(** [l_timer] is the time at which the timer fires, [l_tick] what is in its channel. *)
Record loop := mk_loop {
  l_now : Z;
  l_plist : list pending;
  l_timer : option Z;
  l_tick : option Z;
  l_nextTimeout : option nat;
  l_contTimeouts : Z;
  l_ntpWarnTime : Z;
  l_driftChecks : nat;
  l_answers : list answer;
  l_nextPtr : nat;
  l_closing : bool;
  l_ended : bool
}.

Definition new_loop (now : Z) : loop := mk_loop now [] None None None 0 0 0 [] 0 false false.

Definition set_queue (l : list pending) (as_ : list answer) (s : loop) : loop :=
  mk_loop (l_now s) l (l_timer s) (l_tick s) (l_nextTimeout s) (l_contTimeouts s) (l_ntpWarnTime s) (l_driftChecks s)
    (l_answers s ++ as_) (l_nextPtr s) (l_closing s) (l_ended s).
Definition set_timer (t : option Z) (next : option nat) (s : loop) : loop :=
  mk_loop (l_now s) (l_plist s) t (l_tick s) next (l_contTimeouts s) (l_ntpWarnTime s) (l_driftChecks s)
    (l_answers s) (l_nextPtr s) (l_closing s) (l_ended s).
Definition set_counters (cont warn : Z) (checks : nat) (s : loop) : loop :=
  mk_loop (l_now s) (l_plist s) (l_timer s) (l_tick s) (l_nextTimeout s) cont warn checks
    (l_answers s) (l_nextPtr s) (l_closing s) (l_ended s).
Definition set_now (t : Z) (s : loop) : loop :=
  mk_loop t (l_plist s) (l_timer s) (l_tick s) (l_nextTimeout s) (l_contTimeouts s) (l_ntpWarnTime s) (l_driftChecks s)
    (l_answers s) (l_nextPtr s) (l_closing s) (l_ended s).
Definition set_tick (timer tick : option Z) (s : loop) : loop :=
  mk_loop (l_now s) (l_plist s) timer tick (l_nextTimeout s) (l_contTimeouts s) (l_ntpWarnTime s) (l_driftChecks s)
    (l_answers s) (l_nextPtr s) (l_closing s) (l_ended s).
Definition set_closing (ended : bool) (s : loop) : loop :=
  mk_loop (l_now s) (l_plist s) (l_timer s) (l_tick s) (l_nextTimeout s) (l_contTimeouts s) (l_ntpWarnTime s) (l_driftChecks s)
    (l_answers s) (l_nextPtr s) true ended.
Definition new_ptr (s : loop) : loop :=
  mk_loop (l_now s) (l_plist s) (l_timer s) (l_tick s) (l_nextTimeout s) (l_contTimeouts s) (l_ntpWarnTime s) (l_driftChecks s)
    (l_answers s) (l_nextPtr s + 1) (l_closing s) (l_ended s).

Definition resetTimeout (s : loop) : loop :=
  match l_plist s with
  | [] => s
  | p :: rest =>
      if bool_decide (l_nextTimeout s = Some (pd_ptr p)) then s
      else if pd_deadline p - l_now s <? 2 * respTimeout then set_timer (Some (pd_deadline p)) (Some (pd_ptr p)) s
      else set_timer None None (set_queue rest [answered (Some errClockWarp) p] s)
  end.

(** [case p := <-t.addpending] *)
Definition loop_add (from : NodeID) (ptype : Z) (cb : callback) (s : loop) : loop :=
  let p := mk_pending (l_nextPtr s) from ptype (l_now s + respTimeout) cb in
  resetTimeout (new_ptr (set_queue (l_plist s ++ [p]) [] s)).

Definition matches (r : reply) (p : pending) : bool :=
  bool_decide (pd_from p = rp_from r) && (pd_ptype p =? rp_ptype r).

Definition set_callback (cb : callback) (p : pending) : pending :=
  mk_pending (pd_ptr p) (pd_from p) (pd_ptype p) (pd_deadline p) cb.

(** The scan for a reply: whether an entry matched, the answers sent and the queue afterwards. *)
Fixpoint reply_scan (netrestrict : option Netlist) (r : reply) (l : list pending) : outcome (bool * list answer * list pending) :=
  match l with
  | [] => Ret (false, [], [])
  | p :: l' =>
      if matches r p then
        '(done, cb) ← call netrestrict (pd_callback p) (rp_data r);
        let p := set_callback cb p in
        if done : bool then Ret (true, [answered None p], l')
        else '(_, as_, l') ← reply_scan netrestrict r l'; Ret (true, as_, p :: l')
      else '(m, as_, l') ← reply_scan netrestrict r l'; Ret (m, as_, p :: l')
  end.

(** [case r := <-t.gotreply], with what is sent on [r.matched]. *)
Definition loop_reply (netrestrict : option Netlist) (r : reply) (s : loop) : outcome (bool * loop) :=
  '(matched, as_, l) ← reply_scan netrestrict r (l_plist s);
  let s := set_queue l as_ s in
  let s := if matched : bool then set_counters 0 (l_ntpWarnTime s) (l_driftChecks s) s else s in
  Ret (matched, resetTimeout s).

(** The scan for requests whose time is over. *)
Fixpoint expire_scan (now : Z) (l : list pending) : list answer * list pending :=
  match l with
  | [] => ([], [])
  | p :: l' =>
      if pd_deadline p <=? now then ([answered (Some errTimeout) p], l')
      else let '(as_, l') := expire_scan now l' in (as_, p :: l')
  end.

(** [case now := <-timeout.C]; the check of the clock runs in a goroutine of its own. *)
Definition loop_timeout (now : Z) (s : loop) : loop :=
  let s := set_tick (l_timer s) None s in
  let '(as_, l) := expire_scan now (l_plist s) in
  let s := set_timer (l_timer s) None (set_queue l as_ s) in
  let cont := l_contTimeouts s + Z.of_nat (length as_) in
  let s := if ntpFailureThreshold <? cont then
             if ntpWarningCooldown <=? l_now s - l_ntpWarnTime s then set_counters 0 (l_now s) (l_driftChecks s + 1) s
             else set_counters 0 (l_ntpWarnTime s) (l_driftChecks s) s
           else set_counters cont (l_ntpWarnTime s) (l_driftChecks s) s in
  resetTimeout s.

(** [case <-t.closing] *)
Definition loop_close (s : loop) : loop :=
  set_closing true (set_queue (l_plist s) (answered (Some errClosed) <$> l_plist s) s).

(** The timer of the library: it fires at its time, and drops what does not fit into its channel. *)
Definition timer_fires (s : loop) : loop := set_tick None (Some (default (l_now s) (l_tick s))) s.

(** A request when the transport is closing: [pending] answers itself. *)
Definition request_refused (cb : callback) (s : loop) : loop :=
  new_ptr (set_queue (l_plist s) [mk_answer (l_nextPtr s) (Some errClosed) cb] s).

(** The callbacks [ping], [waitping] and [findnode] register wait for these packets. *)
Definition callback_type (cb : callback) : Z :=
  match cb with CbPong _ => pongPacket | CbPing => pingPacket | CbNeighbors _ _ _ => neighborsPacket end.
Definition callback_fresh (cb : callback) : Prop :=
  match cb with CbNeighbors _ nodes n => nodes = [] /\ n = 0%nat | _ => True end.

(** The steps; with [mono] the clock is not set back, otherwise the timer, which does not depend on it, may fire at any time. *)
Inductive loop_step (mono : bool) (netrestrict : option Netlist) : loop -> loop -> Prop :=
| L_time t s : (mono = true -> l_now s <= t) -> loop_step mono netrestrict s (set_now t s)
| L_fire t s : l_timer s = Some t -> (mono = true -> t <= l_now s) -> loop_step mono netrestrict s (timer_fires s)
| L_add from cb s : l_ended s = false -> callback_fresh cb ->
    loop_step mono netrestrict s (loop_add from (callback_type cb) cb s)
| L_refused cb s : l_closing s = true -> loop_step mono netrestrict s (request_refused cb s)
| L_reply r m s s' : l_ended s = false -> rp_ptype r = packet_type (rp_data r) ->
    loop_reply netrestrict r s = Ret (m, s') -> loop_step mono netrestrict s s'
| L_timeout now s : l_ended s = false -> l_tick s = Some now -> loop_step mono netrestrict s (loop_timeout now s)
| L_close s : loop_step mono netrestrict s (set_closing (l_ended s) s)
| L_closed s : l_closing s = true -> l_ended s = false -> loop_step mono netrestrict s (loop_close s).

(** The steps the loop takes by itself. *)
Inductive internal_step : loop -> loop -> Prop :=
| I_fire t s : l_timer s = Some t -> t <= l_now s -> internal_step s (timer_fires s)
| I_timeout now s : l_ended s = false -> l_tick s = Some now -> internal_step s (loop_timeout now s).

(** ** What a scan does to the queue *)

Definition key (p : pending) : nat * Z := (pd_ptr p, pd_deadline p).

(** The callback is the one of its packet. *)
Definition callback_ok (p : pending) : Prop := pd_ptype p = callback_type (pd_callback p).

(** [l'] is what a scan left of [l], and [as_] the answers it sent. *)
Record scanned (l : list pending) (as_ : list answer) (l' : list pending) : Prop := {
  scanned_keys : sublist (key <$> l') (key <$> l);
  scanned_ptrs : pd_ptr <$> l ≡ₚ (pd_ptr <$> l') ++ (an_ptr <$> as_);
  scanned_callbacks : Forall callback_ok l -> Forall callback_ok l'
}.

Lemma scanned_refl l : scanned l [] l.
Proof. split; [done|cbn; by rewrite app_nil_r|done]. Qed.

Lemma scanned_skip p p' l as_ l' : key p' = key p -> (callback_ok p -> callback_ok p') -> scanned l as_ l' ->
  scanned (p :: l) as_ (p' :: l').
Proof.
  intros Hk Hc [H1 H2 H3]. split.
  - cbn [fmap list_fmap]. rewrite Hk. by constructor.
  - injection Hk as Hp _. cbn [fmap list_fmap app]. by rewrite Hp, H2.
  - intros [Ha Hb]%Forall_cons. constructor; auto.
Qed.

Lemma scanned_removed p l a : an_ptr a = pd_ptr p -> scanned (p :: l) [a] l.
Proof.
  intros Ha. split.
  - cbn [fmap list_fmap]. by apply sublist_cons.
  - cbn. rewrite Ha. apply Permutation_cons_append.
  - by intros [_ Hb]%Forall_cons.
Qed.

Lemma expire_scan_scanned now l : scanned l (expire_scan now l).1 (expire_scan now l).2.
Proof.
  induction l as [|p l IH]; [apply scanned_refl|]. cbn [expire_scan].
  destruct (pd_deadline p <=? now); [by apply scanned_removed|].
  destruct (expire_scan now l) as [as_ l']. by apply scanned_skip.
Qed.

Lemma collect_no_panic nr to rns nodes n : collect nr to rns nodes n <> Panic.
Proof.
  revert nodes n. induction rns as [|rn rns IH]; intros nodes n; [done|]. cbn [collect].
  assert (nodeFromRPC nr to rn <> Panic) as Hn.
  { unfold nodeFromRPC. case_match; [done|]. case_match; [done|]. case_match; [done|].
    unfold NewNode. destruct (Keccak256_sponge [rn_ID rn]) as [E _].
    change (Keccak256Hash [rn_ID rn]) with (Keccak256 [rn_ID rn]). rewrite E, !Ret_bind.
    unfold validateComplete, Pubkey. by repeat case_match. }
  destruct (nodeFromRPC nr to rn); auto.
Qed.

Lemma call_spec nr cb resp : callback_type cb = packet_type resp ->
  exists done cb', call nr cb resp = Ret (done, cb') /\ callback_type cb' = callback_type cb.
Proof.
  destruct cb as [hash| |to nodes n], resp as [p|p|p|p]; try done; intros _; cbn [call]; eauto.
  pose proof (collect_no_panic nr to (nb_Nodes p) nodes n) as Hc.
  destruct (collect nr to (nb_Nodes p) nodes n) as [[nodes' n']|e|] eqn:E; [cbn; eauto| |done].
  exfalso. revert E. clear Hc. revert nodes n. induction (nb_Nodes p) as [|rn rns IH]; intros nodes n; [done|].
  cbn [collect]. destruct (nodeFromRPC nr to rn); [apply IH..|done].
Qed.

(** A reply that comes with its type is handled: it matches if an entry of the queue waits for it. *)
Lemma reply_scan_spec nr r l : rp_ptype r = packet_type (rp_data r) -> Forall callback_ok l ->
  exists as_ l', reply_scan nr r l = Ret (existsb (matches r) l, as_, l') /\ scanned l as_ l' /\ (length as_ <= 1)%nat.
Proof.
  intros Hr. induction 1 as [|p l Hp _ (as_ & l' & E & Hs & Hl)]; [exists [], []; split; [done|]; split; [apply scanned_refl|cbn; lia]|].
  cbn [reply_scan existsb]. destruct (matches r p) eqn:Em; cbn [orb].
  - apply andb_prop in Em as [_ Ety%Z.eqb_eq].
    destruct (call_spec nr (pd_callback p) (rp_data r)) as (done & cb & -> & Hcb); [congruence|]. rewrite Ret_bind.
    destruct done.
    + eexists [_], l. split; [done|]. split; [by apply scanned_removed|]. done.
    + rewrite E, Ret_bind. eexists as_, _. split; [done|]. split; [|done].
      apply scanned_skip; [done| |done]. intros _. unfold callback_ok. cbn. congruence.
  - rewrite E, Ret_bind. eexists as_, _. split; [done|]. split; [|done]. by apply scanned_skip.
Qed.

(** ** Every request has one answer *)

(** The requests that wait; the loop that has ended has answered all. *)
Definition waiting (s : loop) : list pending := if l_ended s then [] else l_plist s.

Record loop_inv (s : loop) : Prop := {
  li_ptrs : (pd_ptr <$> waiting s) ++ (an_ptr <$> l_answers s) ≡ₚ seq 0 (l_nextPtr s);
  li_callbacks : Forall callback_ok (l_plist s);
  li_next q : l_nextTimeout s = Some q -> (q < l_nextPtr s)%nat
}.

Lemma waiting_alive s : l_ended s = false -> waiting s = l_plist s.
Proof. unfold waiting. by intros ->. Qed.

Lemma plist_ptr_lt s p : loop_inv s -> l_ended s = false -> p ∈ l_plist s -> (pd_ptr p < l_nextPtr s)%nat.
Proof.
  intros [H _ _] He Hp. rewrite waiting_alive in H by done.
  assert (pd_ptr p ∈ seq 0 (l_nextPtr s)) as Hs by (rewrite <- H; apply elem_of_app; left; by apply list_elem_of_fmap_2).
  apply elem_of_seq in Hs. lia.
Qed.

Lemma plist_NoDup s : loop_inv s -> l_ended s = false -> NoDup (pd_ptr <$> l_plist s).
Proof.
  intros [H _ _] He. rewrite waiting_alive in H by done.
  assert (NoDup ((pd_ptr <$> l_plist s) ++ (an_ptr <$> l_answers s))) as Hn by (rewrite H; apply NoDup_seq).
  by apply NoDup_app in Hn as (Hn & _).
Qed.

Lemma set_queue_inv s as_ l : l_ended s = false -> scanned (l_plist s) as_ l -> loop_inv s -> loop_inv (set_queue l as_ s).
Proof.
  intros He [H1 H2 H3] [P1 P2 P3]. rewrite waiting_alive in P1 by done.
  split; [|by apply H3|done]. rewrite waiting_alive by done. cbn [set_queue l_plist l_answers l_nextPtr].
  rewrite fmap_app, <- P1, H2. rewrite <- !app_assoc. by rewrite (Permutation_app_comm (an_ptr <$> l_answers s)).
Qed.

Lemma set_timer_inv t next s : loop_inv s -> (forall q, next = Some q -> (q < l_nextPtr s)%nat) -> loop_inv (set_timer t next s).
Proof. intros [P1 P2 P3] H. by split. Qed.

Lemma resetTimeout_inv s : l_ended s = false -> loop_inv s -> loop_inv (resetTimeout s).
Proof.
  intros He Hi. unfold resetTimeout. destruct (l_plist s) as [|p rest] eqn:E; [done|].
  case_bool_decide; [done|]. destruct (pd_deadline p - l_now s <? 2 * respTimeout).
  - apply set_timer_inv; [done|]. intros q [= <-]. apply plist_ptr_lt; [done..|]. rewrite E. apply list_elem_of_here.
  - apply set_timer_inv; [|done]. apply set_queue_inv; [done| |done]. rewrite E. by apply scanned_removed.
Qed.

Lemma resetTimeout_ended s : l_ended (resetTimeout s) = l_ended s.
Proof. unfold resetTimeout. by repeat case_match. Qed.

Lemma loop_add_inv from cb s : l_ended s = false -> loop_inv s -> loop_inv (loop_add from (callback_type cb) cb s).
Proof.
  intros He Hi. unfold loop_add. apply resetTimeout_inv; [done|]. destruct Hi as [P1 P2 P3].
  rewrite waiting_alive in P1 by done. split; [rewrite waiting_alive by done| |]; cbn.
  - rewrite app_nil_r, fmap_app. cbn. rewrite Nat.add_1_r, seq_S. cbn [Nat.add]. rewrite <- P1.
    rewrite <- app_assoc. cbn. rewrite <- Permutation_middle. by rewrite <- Permutation_cons_append.
  - apply Forall_app. split; [done|]. by apply Forall_singleton.
  - intros q Hq. specialize (P3 q Hq). lia.
Qed.

Lemma loop_reply_inv nr r m s s' : l_ended s = false -> rp_ptype r = packet_type (rp_data r) -> loop_inv s ->
  loop_reply nr r s = Ret (m, s') -> loop_inv s' /\ l_ended s' = false.
Proof.
  intros He Hr Hi. destruct (reply_scan_spec nr r (l_plist s) Hr (li_callbacks s Hi)) as (as_ & l' & E & Hs & _).
  unfold loop_reply. rewrite E, Ret_bind. intros [= <- <-].
  pose proof (set_queue_inv s as_ l' He Hs Hi) as Hi'. split; [|rewrite resetTimeout_ended; by case_match].
  apply resetTimeout_inv; [by case_match|]. case_match; [|done]. by destruct Hi'; split.
Qed.

Lemma loop_timeout_inv now s : l_ended s = false -> loop_inv s -> loop_inv (loop_timeout now s).
Proof.
  intros He Hi. unfold loop_timeout. cbn [l_plist set_tick]. pose proof (expire_scan_scanned now (l_plist s)) as Hs.
  destruct (expire_scan now (l_plist s)) as [as_ l]. cbn [fst snd] in Hs.
  assert (loop_inv (set_timer (l_timer s) None (set_queue l as_ (set_tick (l_timer s) None s)))) as Hi'.
  { apply set_timer_inv; [|done]. apply set_queue_inv; [done..|]. by destruct Hi; split. }
  apply resetTimeout_inv; [by repeat case_match|]. by repeat case_match; destruct Hi'; split.
Qed.

Lemma loop_close_inv s : l_ended s = false -> loop_inv s -> loop_inv (loop_close s).
Proof.
  intros He [P1 P2 P3]. rewrite waiting_alive in P1 by done. split; [|done|done]. cbn.
  rewrite fmap_app, <- list_fmap_compose. rewrite <- P1. apply Permutation_app_comm.
Qed.

Lemma loop_step_inv mono nr s s' : loop_step mono nr s s' -> loop_inv s -> loop_inv s'.
Proof.
  destruct 1 as [t s Ht|t s Ht Hn|from cb s He Hc|cb s Hc|r m s s' He Hr E|now s He Ht|s|s Hc He]; intros Hi.
  - by destruct Hi; split.
  - by destruct Hi; split.
  - by apply loop_add_inv.
  - destruct Hi as [P1 P2 P3]. split; [|done|]; cbn.
    + rewrite fmap_app, Nat.add_1_r, seq_S, <- P1. cbn. by rewrite app_assoc.
    + intros q Hq. specialize (P3 q Hq). lia.
  - by eapply loop_reply_inv.
  - by apply loop_timeout_inv.
  - by destruct Hi; split.
  - by apply loop_close_inv.
Qed.

Lemma new_loop_inv now : loop_inv (new_loop now).
Proof. split; [done|constructor|done]. Qed.

Lemma loop_reachable_inv mono nr now s : rtc (loop_step mono nr) (new_loop now) s -> loop_inv s.
Proof. intros H. apply (rtc_ind_r (fun s => loop_inv s) _ (new_loop_inv now)) with (1 := fun _ _ _ Hs Hi => loop_step_inv _ _ _ _ Hs Hi) (2 := H). Qed.

(** ** The timer *)

Definition by_deadline (a b : nat * Z) : Prop := a.2 <= b.2.

(** The timer is set to the deadline of the first request, or it has fired for it. *)
Definition timer_for (p : pending) (s : loop) : Prop :=
  l_timer s = Some (pd_deadline p) \/ l_timer s = None /\ is_Some (l_tick s).

(** The deadlines are in order and near. *)
Record timed (s : loop) : Prop := {
  ti_sorted : StronglySorted by_deadline (key <$> l_plist s);
  ti_near : Forall (fun a => a.2 <= l_now s + respTimeout) (key <$> l_plist s);
  ti_tick t : l_tick s = Some t -> t <= l_now s
}.

Definition armed (s : loop) : Prop := forall p rest, l_plist s = p :: rest ->
  l_nextTimeout s = Some (pd_ptr p) /\ timer_for p s.

Lemma sublist_Forall {A} (P : A -> Prop) l k : sublist l k -> Forall P k -> Forall P l.
Proof. induction 1; [done|intros [? ?]%Forall_cons; constructor; auto|intros [? ?]%Forall_cons; auto]. Qed.

Lemma sublist_elem {A} (x : A) l k : sublist l k -> x ∈ l -> x ∈ k.
Proof. intros H. assert (Forall (fun y => y ∈ k) l) as HF by (eapply sublist_Forall, Forall_forall; [exact H|done]). revert x. by apply Forall_forall. Qed.

Lemma sublist_sorted {A} (R : A -> A -> Prop) l k : sublist l k -> StronglySorted R k -> StronglySorted R l.
Proof.
  induction 1 as [|x l k Hs IH|x l k Hs IH]; [done| |].
  - intros [H1 H2]%StronglySorted_inv. constructor; [auto|]. by eapply sublist_Forall.
  - intros [H1 _]%StronglySorted_inv. auto.
Qed.

Lemma set_queue_timed s as_ l : scanned (l_plist s) as_ l -> timed s -> timed (set_queue l as_ s).
Proof. intros [H _ _] [T1 T2 T3]. split; cbn; [by eapply sublist_sorted|by eapply sublist_Forall|done]. Qed.

(** [resetTimeout] does not remove anything while the clock runs forwards, and sets the timer. *)
Lemma resetTimeout_timed s : timed s ->
  (forall p rest, l_plist s = p :: rest -> l_nextTimeout s = Some (pd_ptr p) -> timer_for p s) ->
  (exists t next, resetTimeout s = set_timer t next s) /\ timed (resetTimeout s) /\ armed (resetTimeout s).
Proof.
  intros [T1 T2 T3] Hf. unfold resetTimeout, armed. destruct (l_plist s) as [|p rest] eqn:E.
  - split; [exists (l_timer s), (l_nextTimeout s); by destruct s|]. rewrite E. split; [split; by rewrite ?E|done].
  - case_bool_decide as Hn.
    + split; [exists (l_timer s), (l_nextTimeout s); by destruct s|]. split; [split; by rewrite ?E|].
      rewrite E. intros ? ? [= <- <-]. split; [done|]. by apply (Hf p rest).
    + assert (pd_deadline p <= l_now s + respTimeout) as Hd by (apply Forall_cons in T2 as [Hd _]; exact Hd).
      destruct (Z.ltb_spec (pd_deadline p - l_now s) (2 * respTimeout)); [|unfold respTimeout, Millisecond in *; lia].
      split; [by do 2 eexists|]. split; [split; cbn; by rewrite ?E|]. cbn. rewrite E. intros ? ? [= <- <-].
      split; [done|]. by left.
Qed.

(** The first entry after a scan is the same as before, or one that no timer is set for. *)
Lemma front_kept s as_ l p rest q : loop_inv s -> l_ended s = false -> scanned (l_plist s) as_ l ->
  l_plist s = p :: rest -> head l = Some q -> pd_ptr q = pd_ptr p -> pd_deadline q = pd_deadline p.
Proof.
  intros Hi He [Hk _ _] E Hq Hp. pose proof (plist_NoDup s Hi He) as Hn. rewrite E in Hk, Hn.
  destruct l as [|q' l]; [done|]. injection Hq as ->. cbn [fmap list_fmap] in Hk, Hn.
  assert (key q ∈ key p :: (key <$> rest)) as Hin by (eapply sublist_elem; [exact Hk|apply list_elem_of_here]).
  apply elem_of_cons in Hin as [[= _ Hd]|Hin]; [done|].
  apply NoDup_cons in Hn as [Hn _]. exfalso. apply Hn. rewrite <- Hp.
  apply list_elem_of_fmap in Hin as (x & Ex & Hx). injection Ex as -> _. by apply list_elem_of_fmap_2.
Qed.

Lemma scan_timer s as_ l (s' : loop) : loop_inv s -> l_ended s = false -> armed s -> scanned (l_plist s) as_ l ->
  l_plist s' = l -> l_nextTimeout s' = l_nextTimeout s -> l_timer s' = l_timer s -> l_tick s' = l_tick s ->
  forall p rest, l_plist s' = p :: rest -> l_nextTimeout s' = Some (pd_ptr p) -> timer_for p s'.
Proof.
  intros Hi He Ha Hs El En Et Ek q rest' Eq Hq. rewrite El in Eq. unfold timer_for. rewrite Et, Ek.
  destruct (l_plist s) as [|p rest] eqn:E.
  - destruct Hs as [Hk _ _]. rewrite Eq in Hk. by apply sublist_nil_r in Hk.
  - destruct (Ha p rest E) as [Hnext Hf]. rewrite En, Hnext in Hq. injection Hq as Hq.
    rewrite (front_kept s as_ l p rest q Hi He); [exact Hf|by rewrite E|done|by rewrite Eq|done].
Qed.

Record timed_inv (s : loop) : Prop := {
  tv_inv : loop_inv s;
  tv_timed : timed s;
  tv_armed : l_ended s = false -> armed s
}.

(** The queue with the new request, before [resetTimeout]. *)
Definition pushed (from : NodeID) (cb : callback) (s : loop) : loop :=
  new_ptr (set_queue (l_plist s ++ [mk_pending (l_nextPtr s) from (callback_type cb) (l_now s + respTimeout) cb]) [] s).

Lemma pushed_timed from cb s : timed_inv s -> l_ended s = false ->
  timed (pushed from cb s) /\
  forall p rest, l_plist (pushed from cb s) = p :: rest -> l_nextTimeout (pushed from cb s) = Some (pd_ptr p) -> timer_for p (pushed from cb s).
Proof.
  intros [Hi [T1 T2 T3] Ha] He. specialize (Ha He). split.
  - split; cbn; rewrite ?fmap_app; cbn; [| |done].
    + revert T1 T2. generalize (key <$> l_plist s) as ks. induction ks as [|k ks IH]; intros T1 T2.
      * repeat constructor.
      * apply StronglySorted_inv in T1 as [T1 T1']. apply Forall_cons in T2 as [T2 T2']. cbn [app].
        constructor; [auto|]. apply Forall_app. split; [done|]. by apply Forall_singleton.
    + apply Forall_app. split; [done|]. apply Forall_singleton. cbn. lia.
  - cbn. destruct (l_plist s) as [|p rest] eqn:E; cbn; intros p' rest' [= <- <-] Hn.
    + exfalso. pose proof (li_next s Hi _ Hn) as Hlt. cbn in Hlt. lia.
    + destruct (Ha p _ E) as [_ Hf]. exact Hf.
Qed.

Lemma loop_add_timed from cb s : l_ended s = false -> timed_inv s -> timed_inv (loop_add from (callback_type cb) cb s).
Proof.
  intros He Hv. destruct (pushed_timed from cb s Hv He) as [Ht Hf].
  destruct (resetTimeout_timed (pushed from cb s) Ht Hf) as (_ & H1 & H2). destruct Hv as [Hi _ _].
  split; [by apply loop_add_inv|done|done].
Qed.

(** A request is put at the end of the queue. *)
Lemma loop_add_effect from cb s : timed_inv s -> l_ended s = false ->
  let l := loop_add from (callback_type cb) cb s in
  timed_inv l /\ l_ended l = false /\ l_now l = l_now s /\ l_answers l = l_answers s /\
  l_plist l = l_plist s ++ [mk_pending (l_nextPtr s) from (callback_type cb) (l_now s + respTimeout) cb].
Proof.
  intros Hv He l. split; [by apply loop_add_timed|]. destruct (pushed_timed from cb s Hv He) as [Ht Hf].
  destruct (resetTimeout_timed (pushed from cb s) Ht Hf) as ((tm & next & E) & _).
  unfold l, loop_add. fold (pushed from cb s). rewrite E. cbn. by rewrite app_nil_r.
Qed.

Lemma loop_reply_timed nr r m s s' : l_ended s = false -> rp_ptype r = packet_type (rp_data r) -> timed_inv s ->
  loop_reply nr r s = Ret (m, s') -> timed_inv s'.
Proof.
  intros He Hr [Hi Ht Ha] Hrun. destruct (loop_reply_inv nr r m s s' He Hr Hi Hrun) as [Hi' _]. specialize (Ha He).
  destruct (reply_scan_spec nr r (l_plist s) Hr (li_callbacks s Hi)) as (as_ & l' & E & Hs & _).
  unfold loop_reply in Hrun. rewrite E, Ret_bind in Hrun. injection Hrun as <- <-.
  match goal with |- timed_inv (resetTimeout ?x) => set (s1 := x) in * end.
  assert (timed s1) as Ht1.
  { pose proof (set_queue_timed s as_ l' Hs Ht) as []. unfold s1. by case_match; split. }
  destruct (resetTimeout_timed s1 Ht1) as (_ & H1 & H2); [|by split].
  apply (scan_timer s as_ l'); [done|done|done|done|unfold s1; by case_match..].
Qed.

Lemma loop_timeout_timed now s : l_ended s = false -> timed_inv s -> timed_inv (loop_timeout now s).
Proof.
  intros He [Hi Ht Ha]. pose proof (loop_timeout_inv now s He Hi) as Hi'. unfold loop_timeout in *. cbn [l_plist set_tick] in *.
  pose proof (expire_scan_scanned now (l_plist s)) as Hs. destruct (expire_scan now (l_plist s)) as [as_ l]. cbn [fst snd] in Hs.
  match goal with |- timed_inv (resetTimeout ?x) => set (s1 := x) in * end.
  assert (timed s1) as Ht1.
  { pose proof (set_queue_timed s as_ l Hs Ht) as []. unfold s1. repeat case_match; split; try done; by intros t [=]. }
  destruct (resetTimeout_timed s1 Ht1) as (_ & H1 & H2); [|by split].
  assert (l_nextTimeout s1 = None) as En by (unfold s1; by repeat case_match). by intros p rest _; rewrite En.
Qed.

Lemma loop_step_timed nr s s' : loop_step true nr s s' -> timed_inv s -> timed_inv s'.
Proof.
  intros Hstep Hv. pose proof (loop_step_inv _ _ _ _ Hstep (tv_inv s Hv)) as Hi'. revert Hv Hi'.
  destruct Hstep as [t s Ht|t s Ht Hn|from cb s He Hc|cb s Hc|r m s s' He Hr E|now s He Ht|s|s Hc He]; intros Hv Hi'.
  - destruct Hv as [Hi [T1 T2 T3] Ha]. specialize (Ht eq_refl). split; [done| |done]. split; [done|cbn|].
    + eapply Forall_impl; [exact T2|]. cbn. lia.
    + intros k Hk. specialize (T3 k Hk). cbn. lia.
  - destruct Hv as [Hi [T1 T2 T3] Ha]. specialize (Hn eq_refl). split; [done| |].
    { split; [done..|]. cbn. intros k [= <-]. destruct (l_tick s) as [k|]; [by apply T3|cbn; lia]. } intros He p rest E. destruct (Ha He p rest E) as [H1 _].
    split; [exact H1|]. right. by split.
  - by apply loop_add_timed.
  - by destruct Hv as [Hi [T1 T2 T3] Ha].
  - by eapply loop_reply_timed.
  - by apply loop_timeout_timed.
  - by destruct Hv as [Hi [T1 T2 T3] Ha].
  - by destruct Hv as [Hi [T1 T2 T3] Ha].
Qed.

Lemma loop_reachable_timed nr now s : rtc (loop_step true nr) (new_loop now) s -> timed_inv s.
Proof.
  intros H. apply (rtc_ind_r (fun s => timed_inv s) (new_loop now)) with (3 := H).
  - split; [apply new_loop_inv|by split; try constructor|done].
  - intros ? ? _ Hs Hi. by eapply loop_step_timed.
Qed.

(** ** Catching up *)

Definition expired_at (now : Z) (p : pending) : bool := pd_deadline p <=? now.

(** An iteration after the timer removes the first request if its time is over, and nothing else. *)
Lemma loop_timeout_effect now s : timed_inv s -> l_ended s = false -> l_tick s = Some now ->
  l_now (loop_timeout now s) = l_now s /\ l_ended (loop_timeout now s) = false /\ l_tick (loop_timeout now s) = None /\
  match l_plist s with
  | p :: rest =>
      if expired_at now p
      then l_plist (loop_timeout now s) = rest /\ l_answers (loop_timeout now s) = l_answers s ++ [answered (Some errTimeout) p]
      else l_plist (loop_timeout now s) = l_plist s /\ l_answers (loop_timeout now s) = l_answers s
  | [] => l_plist (loop_timeout now s) = [] /\ l_answers (loop_timeout now s) = l_answers s /\
          l_timer (loop_timeout now s) = l_timer s
  end.
Proof.
  intros [Hi Ht Ha] He Hk. unfold loop_timeout. cbn [l_plist set_tick].
  pose proof (expire_scan_scanned now (l_plist s)) as Hs.
  assert (match l_plist s with
    | p :: rest => expire_scan now (l_plist s) = if expired_at now p then ([answered (Some errTimeout) p], rest) else ([], l_plist s)
    | [] => expire_scan now (l_plist s) = ([], []) end) as Escan.
  { pose proof (ti_sorted s Ht) as Hsort. clear Hs. destruct (l_plist s) as [|p rest]; [done|]. cbn [expire_scan]. unfold expired_at.
    destruct (Z.leb_spec (pd_deadline p) now) as [|Hlt]; [done|].
    apply StronglySorted_inv in Hsort as [_ Hall]. fold (fmap (M := list) key) in Hall.
    assert (expire_scan now rest = ([], rest)) as ->; [|done].
    induction rest as [|q rest IH]; [done|]. cbn [fmap list_fmap] in Hall. apply Forall_cons in Hall as [Hq Hall]. cbn [expire_scan].
    unfold by_deadline in Hq. cbn in Hq. destruct (Z.leb_spec (pd_deadline q) now); [lia|]. by rewrite (IH Hall). }
  destruct (expire_scan now (l_plist s)) as [as_ l]. cbn [fst snd] in Hs.
  match goal with |- context [resetTimeout ?x] => set (s1 := x) in * end.
  assert (timed s1) as Ht1.
  { pose proof (set_queue_timed s as_ l Hs Ht) as []. unfold s1. repeat case_match; split; try done; by intros t [=]. }
  destruct (resetTimeout_timed s1 Ht1) as ((t & next & E) & _).
  { assert (l_nextTimeout s1 = None) as En by (unfold s1; by repeat case_match). by intros p rest _; rewrite En. }
  assert (l_now s1 = l_now s /\ l_ended s1 = false /\ l_tick s1 = None /\ l_plist s1 = l /\ l_answers s1 = l_answers s ++ as_ /\
    l_timer s1 = l_timer s) as (F1 & F2 & F3 & F4 & F5 & F6) by (unfold s1; by repeat case_match).
  destruct (l_plist s) as [|p rest] eqn:Ep.
  - injection Escan as -> ->. rewrite app_nil_r in F5. rewrite E. cbn. rewrite F1, F2, F3, F4, F5. split_and!; [done..|].
    unfold resetTimeout in E. rewrite F4 in E. rewrite E in F6. exact F6.
  - rewrite E. cbn. rewrite F1, F2, F3, F4, F5.
    destruct (expired_at now p); injection Escan as -> ->; rewrite ?app_nil_r; by split_and!.
Qed.

(** What is left to do at a fixed time. *)
Definition backlog (s : loop) : nat :=
  4 * length (filter (fun p => expired_at (l_now s) p) (l_plist s)) +
  match l_tick s, l_plist s with
  | Some t, p :: _ => if expired_at t p then 2 else 5
  | Some _, [] => 2
  | None, _ => 0
  end +
  match l_timer s with Some t => if t <=? l_now s then 3 else 0 | None => 0 end.

Lemma internal_step_steps nr s s' : l_ended s = false -> internal_step s s' -> loop_step true nr s s'.
Proof. intros He H. destruct H as [t s Ht Hn|now s _ Ht]; [by eapply L_fire|by apply L_timeout]. Qed.

Lemma internal_step_alive s s' : timed_inv s -> l_ended s = false -> internal_step s s' -> l_ended s' = false.
Proof. intros Hv He H. destruct H as [t s Ht Hn|now s _ Ht]; [done|]. apply (loop_timeout_effect now s Hv He Ht). Qed.

Lemma backlog_bound s : (backlog s <= 4 * length (l_plist s) + 8)%nat.
Proof.
  unfold backlog. pose proof (length_filter (fun p => expired_at (l_now s) p) (l_plist s)). repeat case_match; lia.
Qed.

Lemma internal_step_backlog s s' : timed_inv s -> l_ended s = false -> internal_step s s' -> (backlog s' < backlog s)%nat.
Proof.
  intros Hv He H. destruct H as [t s Ht Hn|now s _ Hk].
  - unfold backlog. cbn [timer_fires set_tick l_now l_plist l_tick l_timer]. rewrite Ht, (proj2 (Z.leb_le t (l_now s))) by done.
    destruct (l_tick s) as [k|] eqn:Ek; cbn [default id]; [lia|].
    destruct (l_plist s) as [|p rest] eqn:E; [lia|]. destruct (tv_armed s Hv He p rest E) as [_ [Hp|[Hp _]]]; [|congruence].
    rewrite Ht in Hp. injection Hp as ->. assert (expired_at (l_now s) p = true) as -> by (by apply Z.leb_le). lia.
  - destruct (loop_timeout_effect now s Hv He Hk) as (E1 & E2 & E3 & E4).
    pose proof (ti_tick s (tv_timed s Hv) now Hk) as Hnow.
    unfold backlog. rewrite E1, E3, Hk. destruct (l_plist s) as [|p rest] eqn:E.
    + destruct E4 as (-> & _ & ->). cbn. lia.
    + assert (match l_timer (loop_timeout now s) with Some t => if (t <=? l_now s)%Z then 3 else 0 | None => 0 end <= 3)%nat as Hd
        by (repeat case_match; lia).
      destruct (expired_at now p) eqn:Ex; destruct E4 as [-> _].
      * assert (expired_at (l_now s) p = true) as Ex'. { unfold expired_at in *. apply Z.leb_le in Ex. apply Z.leb_le. lia. }
        rewrite (filter_cons_True _ p) by (by rewrite Ex'). cbn [length]. lia.
      * lia.
Qed.

Lemma internal_steps_bounded n s s' : timed_inv s -> l_ended s = false -> nsteps internal_step n s s' -> (n + backlog s' <= backlog s)%nat.
Proof.
  intros Hv He H. induction H as [s|n s s1 s' Hs _ IH]; [lia|].
  pose proof (internal_step_backlog s s1 Hv He Hs). pose proof (internal_step_alive s s1 Hv He Hs) as He1.
  specialize (IH (loop_step_timed None s s1 (internal_step_steps None s s1 He Hs) Hv) He1). lia.
Qed.

(** The steps answer requests whose time is over, in order, and no others. *)
Definition late (s : loop) : list pending := filter (fun p => expired_at (l_now s) p) (l_plist s).
Definition in_time (s : loop) : list pending := filter (fun p => ~ expired_at (l_now s) p) (l_plist s).

Lemma internal_step_effect s s' : timed_inv s -> l_ended s = false -> internal_step s s' ->
  l_now s' = l_now s /\ in_time s' = in_time s /\
  l_answers s' ++ (answered (Some errTimeout) <$> late s') = l_answers s ++ (answered (Some errTimeout) <$> late s).
Proof.
  intros Hv He H. destruct H as [t s Ht Hn|now s _ Hk]; [done|].
  destruct (loop_timeout_effect now s Hv He Hk) as (E1 & E2 & E3 & E4).
  pose proof (ti_tick s (tv_timed s Hv) now Hk) as Hnow. split; [done|]. unfold in_time, late. rewrite E1.
  destruct (l_plist s) as [|p rest] eqn:E.
  - by destruct E4 as (-> & -> & _).
  - destruct (expired_at now p) eqn:Ex; destruct E4 as [-> ->]; [|done].
    assert (expired_at (l_now s) p = true) as Ex'. { unfold expired_at in *. apply Z.leb_le in Ex. apply Z.leb_le. lia. }
    rewrite (filter_cons_False _ p) by (rewrite Ex'; by intros []). rewrite (filter_cons_True _ p) by (by rewrite Ex').
    split; [done|]. cbn [fmap list_fmap]. by rewrite <- app_assoc.
Qed.

Lemma internal_steps_effect s s' : timed_inv s -> l_ended s = false -> rtc internal_step s s' ->
  timed_inv s' /\ l_ended s' = false /\ l_now s' = l_now s /\ in_time s' = in_time s /\
  l_answers s' ++ (answered (Some errTimeout) <$> late s') = l_answers s ++ (answered (Some errTimeout) <$> late s).
Proof.
  intros Hv He H. induction H as [s|s s1 s' Hs _ IH]; [done|].
  destruct (internal_step_effect s s1 Hv He Hs) as (F1 & F2 & F3).
  destruct IH as (G0 & G1 & G2 & G3 & G4); [exact (loop_step_timed None s s1 (internal_step_steps None s s1 He Hs) Hv)|by eapply internal_step_alive|].
  split_and!; [done|done|congruence..].
Qed.

Lemma nothing_late s : timed_inv s -> l_ended s = false -> (forall s', ~ internal_step s s') -> late s = [] /\ in_time s = l_plist s.
Proof.
  intros Hv He Hno.
  assert (Forall (fun p => ~ expired_at (l_now s) p) (l_plist s)) as Hall.
  { destruct (l_plist s) as [|p rest] eqn:E; [constructor|]. destruct (tv_armed s Hv He p rest E) as [_ Hp].
    assert (l_now s < pd_deadline p) as Hlt.
    { destruct Hp as [Hp|[_ [t Ht]]]; [|by destruct (Hno _ (I_timeout t s He Ht))].
      destruct (Z.lt_ge_cases (l_now s) (pd_deadline p)); [done|]. by destruct (Hno _ (I_fire _ s Hp ltac:(lia))). }
    pose proof (ti_sorted s (tv_timed s Hv)) as Hs. rewrite E, fmap_cons in Hs. apply StronglySorted_inv in Hs as [_ Hs].
    constructor; [unfold expired_at; rewrite (proj2 (Z.leb_gt _ _)) by done; by intros []|].
    rewrite Forall_fmap in Hs. eapply Forall_impl; [exact Hs|]. intros q Hq. cbn in Hq.
    unfold by_deadline in Hq. cbn in Hq. unfold expired_at. rewrite (proj2 (Z.leb_gt _ _)) by lia. by intros []. }
  rewrite Forall_forall in Hall. split; [by apply filter_none|by apply filter_all].
Qed.

Lemma internal_step_dec s : l_ended s = false -> (exists s', internal_step s s') \/ forall s', ~ internal_step s s'.
Proof.
  intros He. destruct (l_tick s) as [k|] eqn:Ek; [left; eexists; by apply (I_timeout k)|].
  destruct (l_timer s) as [t|] eqn:Et.
  - destruct (Z.le_gt_cases t (l_now s)); [left; eexists; by eapply I_fire|].
    right. intros s' Hstep. destruct Hstep; simplify_eq; lia.
  - right. intros s' Hstep. destruct Hstep; simplify_eq.
Qed.

Lemma catch_up s : timed_inv s -> l_ended s = false -> exists s', rtc internal_step s s' /\ forall s'', ~ internal_step s' s''.
Proof.
  remember (backlog s) as n eqn:En. revert s En. induction (lt_wf n) as [n _ IH]. intros s -> Hv He.
  destruct (internal_step_dec s He) as [[s1 H1]|Hno]; [|by exists s].
  destruct (IH (backlog s1) (internal_step_backlog s s1 Hv He H1) s1 eq_refl) as (s' & Hs & Hn).
  - exact (loop_step_timed None s s1 (internal_step_steps None s s1 He H1) Hv).
  - by eapply internal_step_alive.
  - exists s'. split; [|done]. by eapply rtc_l.
Qed.

(** C34: Every request is answered exactly once, whatever the packets, the timer and the clock do: the requests made so far are
    those that wait, each once, and those that have an answer, each once; so the send on [errc], which has room for
    one error, never blocks the loop, and a reply never panics it. *)
Theorem requests_answered_once mono nr now s : rtc (loop_step mono nr) (new_loop now) s ->
  (pd_ptr <$> waiting s) ++ (an_ptr <$> l_answers s) ≡ₚ seq 0 (l_nextPtr s) /\
  forall r, rp_ptype r = packet_type (rp_data r) -> exists s', loop_reply nr r s = Ret (existsb (matches r) (l_plist s), s').
Proof.
  intros H%loop_reachable_inv. split; [by destruct H|]. intros r Hr.
  destruct (reply_scan_spec nr r (l_plist s) Hr (li_callbacks s H)) as (as_ & l' & E & _).
  unfold loop_reply. rewrite E, Ret_bind. by eexists.
Qed.

(** C35: While the clock runs forwards no request waits longer than its time: the timer is set for the first request whenever
    there is one, and whenever the loop is left to itself it needs a bounded number of iterations until every request made
    500 milliseconds ago or earlier has been answered with the time-out, in the order of the requests, and
    no other one. *)
Theorem requests_time_out nr now s : rtc (loop_step true nr) (new_loop now) s -> l_ended s = false ->
  (forall n s', nsteps internal_step n s s' -> (n <= 4 * length (l_plist s) + 8)%nat) /\
  (exists s', rtc internal_step s s' /\ forall s'', ~ internal_step s' s'') /\
  forall s', rtc internal_step s s' -> (forall s'', ~ internal_step s' s'') ->
    l_plist s' = in_time s /\ l_answers s' = l_answers s ++ (answered (Some errTimeout) <$> late s).
Proof.
  intros Hv%loop_reachable_timed He. split; [|split; [by apply catch_up|]].
  - intros n s' Hn. pose proof (internal_steps_bounded n s s' Hv He Hn). pose proof (backlog_bound s). lia.
  - intros s' Hs Hno. destruct (internal_steps_effect s s' Hv He Hs) as (Hv' & He' & _ & E1 & E2).
    destruct (nothing_late s' Hv' He' Hno) as [E3 E4]. rewrite E3, app_nil_r in E2. by rewrite <- E4.
Qed.

End Replies.

(** ** Limits of the loop *)

#[local] Existing Instance smallC.
#[local] Existing Instance generic_xor.

Definition two_waits : loop := loop_add [Byte.x01] pingPacket CbPing (loop_add [Byte.x01] pingPacket CbPing (new_loop 0)).

Lemma two_waits_reachable mono : rtc (loop_step mono None) (new_loop 0) two_waits.
Proof. eapply rtc_l; [by apply (L_add mono None [Byte.x01] CbPing)|]. eapply rtc_once. by apply (L_add mono None [Byte.x01] CbPing). Qed.

(** A reply serves only the first request that it completes, although the comment on [pending] has it dispatched to all the
    callback functions of the node: of two calls that wait for a ping of the same node, the second still waits. *)
Theorem reply_serves_one : exists s,
  rtc (loop_step true None) (new_loop 0) two_waits /\
  loop_reply None (mk_reply [Byte.x01] pingPacket (Ping (mk_ping 5 (mk_endpoint [] 0 0) (mk_endpoint [] 0 0) 0 []))) two_waits = Ret (true, s) /\
  pd_ptr <$> l_plist s = [1%nat] /\ l_answers s = [mk_answer 0 None CbPing].
Proof. eexists. split; [apply two_waits_reachable|]. by split_and!. Qed.

(** When the clock is set back, [resetTimeout] drops one request and then stops the timer with the others still in the
    queue: they wait, whatever their deadline, until another request or reply arrives. *)
Theorem clock_set_back_stalls : exists s,
  rtc (loop_step false None) (new_loop 0) s /\ l_ended s = false /\
  l_answers s = [mk_answer 0 (Some errClockWarp) CbPing] /\ pd_ptr <$> l_plist s = [1%nat] /\
  l_timer s = None /\ l_tick s = None.
Proof.
  set (s1 := set_now (-2 * Second) two_waits). set (s2 := timer_fires s1). exists (loop_timeout (-2 * Second) s2).
  split; [|by vm_compute]. etransitivity; [apply two_waits_reachable|].
  eapply rtc_l; [by apply (L_time false None (-2 * Second))|]. eapply rtc_l; [by eapply (L_fire false None)|].
  eapply rtc_once. by apply L_timeout.
Qed.

Lemma requests_answered_once_witness :
  (pd_ptr <$> waiting two_waits) ++ (an_ptr <$> l_answers two_waits) ≡ₚ seq 0 2 /\
  exists s', loop_reply None (mk_reply [Byte.x01] pingPacket (Ping (mk_ping 5 (mk_endpoint [] 0 0) (mk_endpoint [] 0 0) 0 []))) two_waits =
    Ret (true, s').
Proof.
  destruct (requests_answered_once true None 0 two_waits (two_waits_reachable true)) as [H1 H2].
  split; [exact H1|]. exact (H2 (mk_reply [Byte.x01] pingPacket (Ping (mk_ping 5 (mk_endpoint [] 0 0) (mk_endpoint [] 0 0) 0 []))) eq_refl).
Defined.

(** Two seconds later both requests have timed out. *)
Lemma requests_time_out_witness : exists s', rtc internal_step (set_now (2 * Second) two_waits) s' /\
  l_plist s' = [] /\ l_answers s' = [mk_answer 0 (Some errTimeout) CbPing; mk_answer 1 (Some errTimeout) CbPing].
Proof.
  destruct (requests_time_out None 0 (set_now (2 * Second) two_waits)) as (_ & (s' & Hs & Hno) & H).
  - eapply rtc_r; [apply (two_waits_reachable true)|]. by apply (L_time true None (2 * Second)).
  - reflexivity.
  - exists s'. split; [exact Hs|]. destruct (H s' Hs Hno) as [E1 E2]. split; [exact E1|exact E2].
Defined.
