(* ===== verification/NodeDB.v ===== *)
(** * The database of nodes

    [src/p2p/discover/database.go]: what a node remembers of the others, as keys and values of LevelDB: the
    record of a node, the times of the last ping and pong, and the failed queries.  LevelDB is a parameter with what it
    documents; its disk errors are not modelled. *)

From S2P Require Import Prelude BigInt Keccak Sha3 Rlp RlpStream RlpProofs RlpRoundTrip RlpEnds RlpTyping Handshake Protocol Wire Netutil Node Packets Replies.

(** An iterator goes over the items the database has when it is made. *)
Class LevelDB (D : Type) := {
  lvl_Get : D -> bytes -> option bytes;
  lvl_Put : D -> bytes -> bytes -> D;
  lvl_Delete : D -> bytes -> D;
  lvl_items : D -> list (bytes * bytes)
}.

Class LevelDBLaws (D : Type) `{LevelDB D} := {
  Get_Put d k v k' : lvl_Get (lvl_Put d k v) k' = if decide (k' = k) then Some v else lvl_Get d k';
  Get_Delete d k k' : lvl_Get (lvl_Delete d k) k' = if decide (k' = k) then None else lvl_Get d k';
  items_Get d k v : (k, v) ∈ lvl_items d <-> lvl_Get d k = Some v
}.

#[global] Instance gmap_leveldb : LevelDB (gmap bytes bytes) := {|
  lvl_Get d k := d !! k;
  lvl_Put d k v := <[k := v]> d;
  lvl_Delete d k := delete k d;
  lvl_items d := map_to_list d
|}.

#[global] Instance gmap_leveldb_laws : LevelDBLaws (gmap bytes bytes).
Proof.
  split; cbn.
  - intros d k v k'. rewrite lookup_insert. by repeat case_decide; simplify_eq.
  - intros d k k'. rewrite lookup_delete. by repeat case_decide; simplify_eq.
  - intros d k v. apply elem_of_map_to_list.
Qed.

(** ** Variable-length integers ([encoding/binary]) *)

Definition int64 (z : Z) : Z := (z + 2 ^ 63) mod 2 ^ 64 - 2 ^ 63.

(** A [uint64] takes at most ten bytes. *)
Fixpoint PutUvarint (fuel : nat) (x : Z) : bytes :=
  match fuel with
  | O => []
  | S fuel => if x <? 128 then [u8 x] else u8 (Z.lor (x mod 256) 128) :: PutUvarint fuel (Z.shiftr x 7)
  end.

Definition PutVarint (x : Z) : bytes :=
  let ux := u64 (Z.shiftl x 1) in
  PutUvarint 10 (if x <? 0 then 2 ^ 64 - 1 - ux else ux).

(** The value and the bytes read, which are none for a short input and negative for an overflow. *)
Fixpoint Uvarint_loop (buf : bytes) (i : Z) (x s : Z) : Z * Z :=
  match buf with
  | [] => (0, 0)
  | b :: buf =>
      if ub b <? 128 then
        if (9 <? i) || ((i =? 9) && (1 <? ub b)) then (0, - (i + 1))
        else (Z.lor x (u64 (Z.shiftl (ub b) s)), i + 1)
      else Uvarint_loop buf (i + 1) (Z.lor x (u64 (Z.shiftl (Z.land (ub b) 127) s))) (s + 7)
  end.

Definition Varint (buf : bytes) : Z * Z :=
  let '(ux, n) := Uvarint_loop buf 0 0 0 in
  let x := Z.shiftr ux 1 in
  (if Z.testbit ux 0 then - x - 1 else x, n).

(** ** Keys *)

Definition nodeDBVersionKey : bytes := str "version".
Definition nodeDBItemPrefix : bytes := str "n:".
Definition nodeDBDiscoverRoot : bytes := str ":discover".
Definition nodeDBDiscoverPing : bytes := nodeDBDiscoverRoot ++ str ":lastping".
Definition nodeDBDiscoverPong : bytes := nodeDBDiscoverRoot ++ str ":lastpong".
Definition nodeDBDiscoverFindFails : bytes := nodeDBDiscoverRoot ++ str ":findfail".

Definition nodeDBNilNodeID : NodeID := replicate 64 Byte.x00.
Definition nodeDBNodeExpiration : Z := 24 * 60 * 60 * Second.

Definition makeKey (id : NodeID) (field : bytes) : bytes :=
  if bool_decide (id = nodeDBNilNodeID) then field else nodeDBItemPrefix ++ id ++ field.

Definition HasPrefix (s pre : bytes) : bool := bool_decide (take (length pre) s = pre).

Definition splitKey (key : bytes) : outcome (NodeID * bytes) :=
  if negb (HasPrefix key nodeDBItemPrefix) then Ret (nodeDBNilNodeID, key) else
  let item := drop (length nodeDBItemPrefix) key in
  id ← slice item 0 64;
  field ← slice item 64 (length item);
  Ret (id, field).

(** ** Operations *)

Section NodeDB.
Context {D : Type} `{HD : LevelDB D} `{HX : Xor}.

Definition fetchInt64 (db : D) (key : bytes) : Z :=
  match lvl_Get db key with
  | None => 0
  | Some blob => let '(val, read) := Varint blob in if read <=? 0 then 0 else val
  end.

Definition storeInt64 (db : D) (key : bytes) (n : Z) : D := lvl_Put db key (PutVarint n).

(** The fields of [Node] as the encoder sees them; the hash and the time are not exported. *)
Definition Node_typ : typ :=
  TStruct ((public_field <$> [bytes_typ; TUint 16; TUint 16; byte_array 64]) ++ [private_field (byte_array 32); private_field TOther]).
Definition Node_val (n : Node) : val :=
  VStruct [VBytes (n_IP n); VUint (n_UDP n); VUint (n_TCP n); VBytes (n_ID n); VBytes (n_sha n); VNil].
Definition Node_of (v : val) : option Node :=
  match v with
  | VStruct [VBytes ip; VUint udp; VUint tcp; VBytes id; VBytes sha; _] => Some (mk_node ip udp tcp id sha 0)
  | _ => None
  end.

(** [nodeDB.node]; nil is [None]. *)
Definition db_node (db : D) (id : NodeID) : outcome (option Node) :=
  match lvl_Get db (makeKey id nodeDBDiscoverRoot) with
  | None => Ret None
  | Some blob =>
      match DecodeBytes Node_typ blob with
      | Panic => Panic
      | Err _ => Ret None
      | Ret v =>
          node ← of_option (Node_of v);
          sha ← Keccak256Hash [n_ID node];
          Ret (Some (mk_node (n_IP node) (n_UDP node) (n_TCP node) (n_ID node) sha 0))
      end
  end.

Definition db_updateNode (db : D) (node : Node) : outcome D :=
  blob ← EncodeToBytes (TPtr Node_typ) (VPtr (Node_val node));
  Ret (lvl_Put db (makeKey (n_ID node) nodeDBDiscoverRoot) blob).

(** The keys an iterator over [util.BytesPrefix(p)] visits. *)
Definition prefix_keys (db : D) (p : bytes) : list bytes := filter (fun k => HasPrefix k p = true) (fst <$> lvl_items db).

Definition db_deleteNode (db : D) (id : NodeID) : D := foldl lvl_Delete db (prefix_keys db (makeKey id [])).

(** Seconds since 1970; a [time.Time] is compared in nanoseconds. *)
Definition bondTime (db : D) (id : NodeID) : Z := fetchInt64 db (makeKey id nodeDBDiscoverPong) * Second.
Definition lastPing (db : D) (id : NodeID) : Z := fetchInt64 db (makeKey id nodeDBDiscoverPing) * Second.
Definition findFails (db : D) (id : NodeID) : Z := fetchInt64 db (makeKey id nodeDBDiscoverFindFails).

Definition Unix (t : Z) : Z := t / Second.

Definition updateBondTime (db : D) (id : NodeID) (instance : Z) : D :=
  storeInt64 db (makeKey id nodeDBDiscoverPong) (Unix instance).
Definition updateLastPing (db : D) (id : NodeID) (instance : Z) : D :=
  storeInt64 db (makeKey id nodeDBDiscoverPing) (Unix instance).
Definition updateFindFails (db : D) (id : NodeID) (fails : Z) : D :=
  storeInt64 db (makeKey id nodeDBDiscoverFindFails) fails.

Definition hasBond (now : Z) (db : D) (id : NodeID) : bool := now - bondTime db id <? nodeDBNodeExpiration.

(** The loop of [expireNodes] over the keys of its iterator. *)
Fixpoint expire_loop (now : Z) (self : NodeID) (keys : list bytes) (db : D) : outcome D :=
  match keys with
  | [] => Ret db
  | key :: keys =>
      '(id, field) ← splitKey key;
      if negb (bool_decide (field = nodeDBDiscoverRoot)) then expire_loop now self keys db
      else if negb (bool_decide (id = self)) && (now - nodeDBNodeExpiration <? bondTime db id) then expire_loop now self keys db
      else expire_loop now self keys (db_deleteNode db id)
  end.

Definition expireNodes (now : Z) (self : NodeID) (db : D) : outcome D :=
  expire_loop now self (fst <$> lvl_items db) db.

End NodeDB.

Example varints : PutVarint 0 = [Byte.x00] /\ PutVarint (-1) = [Byte.x01] /\ PutVarint 64 = [Byte.x80; Byte.x01] /\
  Varint (PutVarint 1700000000) = (1700000000, 5) /\ Varint (PutVarint (- 2 ^ 63)) = (- 2 ^ 63, 10).
Proof. by vm_compute. Qed.

(** ** Integers are read back *)

Lemma lor_disjoint a b k : 0 <= k -> 0 <= a < 2 ^ k -> Z.lor a (b * 2 ^ k) = a + b * 2 ^ k.
Proof.
  intros Hk Ha. rewrite <- (Z.add_lor_land a (b * 2 ^ k)).
  assert (Z.land a (b * 2 ^ k) = 0) as ->; [|lia].
  apply Z.bits_inj'. intros n Hn. rewrite Z.land_spec, Z.bits_0.
  destruct (Z.lt_ge_cases n k) as [H|H].
  - by rewrite Z.mul_pow2_bits_low, andb_false_r.
  - by rewrite (testbit_high a k n) by lia.
Qed.

Lemma continuation_byte x : 0 <= x -> let b := ub (u8 (Z.lor (x mod 256) 128)) in
  128 <= b /\ Z.land b 127 = x mod 128.
Proof.
  intros Hx b. assert (forallb (fun m => let m := Z.of_nat m in let b := ub (u8 (Z.lor m 128)) in
    (128 <=? b) && (Z.land b 127 =? m mod 128)) (seq 0 256) = true) as H by (by vm_compute).
  rewrite forallb_forall in H. specialize (H (Z.to_nat (x mod 256))).
  pose proof (Z.mod_pos_bound x 256 ltac:(lia)) as Hm. rewrite Z2Nat.id in H by lia.
  apply andb_prop in H as [H1%Z.leb_le H2%Z.eqb_eq]; [|apply in_seq; lia].
  split; [exact H1|]. unfold b. rewrite H2. symmetry. change 256 with (128 * 2). rewrite Z.rem_mul_r by lia.
  rewrite Z.mul_comm, Z.mod_add, Z.mod_mod by lia. done.
Qed.

Lemma Uvarint_loop_Put fuel x i acc rest : 0 <= i -> i + Z.of_nat fuel = 10 ->
  0 <= x < 2 ^ (64 - 7 * i) -> 0 <= acc < 2 ^ (7 * i) ->
  exists n, Uvarint_loop (PutUvarint fuel x ++ rest) i acc (7 * i) = (acc + x * 2 ^ (7 * i), n) /\ i < n.
Proof.
  revert x i acc. induction fuel as [|fuel IH]; intros x i acc Hi Hf Hx Ha.
  { replace (64 - 7 * i) with (-6) in Hx by lia. cbn in Hx. lia. }
  assert (7 * i <= 63) as Hi9 by lia.
  assert (2 ^ 64 = 2 ^ (64 - 7 * i) * 2 ^ (7 * i)) as E64 by (rewrite <- Z.pow_add_r by lia; f_equal; lia).
  pose proof (Z.pow_pos_nonneg 2 (7 * i) ltac:(lia) ltac:(lia)) as Hp.
  cbn [PutUvarint]. destruct (Z.ltb_spec x 128) as [Hlt|Hge].
  - cbn [app Uvarint_loop]. rewrite ub_u8, Z.mod_small by lia. rewrite (proj2 (Z.ltb_lt x 128)) by done.
    assert ((9 <? i) || ((i =? 9) && (1 <? x)) = false) as ->.
    { apply orb_false_intro; [apply Z.ltb_ge; lia|]. destruct (Z.eqb_spec i 9) as [->|]; [|done]. cbn in Hx |- *. apply Z.ltb_ge. lia. }
    exists (i + 1). split; [|lia]. f_equal. rewrite Z.shiftl_mul_pow2 by lia. rewrite u64_small by nia. by apply lor_disjoint; lia.
  - cbn [app Uvarint_loop]. destruct (continuation_byte x ltac:(lia)) as [Hb Hl].
    rewrite (proj2 (Z.ltb_ge _ 128)) by done. rewrite Hl, Z.shiftl_mul_pow2 by lia.
    pose proof (Z.mod_pos_bound x 128 ltac:(lia)) as Hm. pose proof (Z.div_mod x 128 ltac:(lia)) as Hd.
    assert (i < 9) as Hi8.
    { destruct (Z.lt_ge_cases i 9); [done|]. replace i with 9 in Hx by lia. cbn in Hx. lia. }
    assert (2 ^ (7 * (i + 1)) = 128 * 2 ^ (7 * i)) as E7 by (rewrite Z.mul_add_distr_l, Z.pow_add_r by lia; lia).
    assert (2 ^ (64 - 7 * i) = 128 * 2 ^ (64 - 7 * (i + 1))) as E8.
    { replace (64 - 7 * i) with (64 - 7 * (i + 1) + 7) by lia. rewrite Z.pow_add_r by lia. lia. }
    rewrite u64_small by nia. rewrite lor_disjoint by lia. rewrite (Z.shiftr_div_pow2 x 7) by lia. change (2 ^ 7) with 128.
    replace (7 * i + 7) with (7 * (i + 1)) by lia.
    destruct (IH (x / 128) (i + 1) (acc + x mod 128 * 2 ^ (7 * i))) as (n & -> & Hn); [lia|lia| |rewrite E7; nia|].
    + split; [apply Z.div_pos; lia|]. apply Z.div_lt_upper_bound; lia.
    + exists n. split; [|lia]. f_equal. rewrite E7. nia.
Qed.

Lemma Varint_PutVarint x : - 2 ^ 63 <= x < 2 ^ 63 -> exists n, Varint (PutVarint x) = (x, n) /\ 0 < n.
Proof.
  intros Hx. unfold Varint, PutVarint. rewrite Z.shiftl_mul_pow2 by lia. change (2 ^ 1) with 2.
  set (ux := if x <? 0 then _ else _).
  assert (ux = (if x <? 0 then - 2 * x - 1 else 2 * x)) as E.
  { unfold ux. destruct (Z.ltb_spec x 0); unfold u64.
    - rewrite <- (Z.mod_add _ 1) by lia. rewrite Z.mod_small by lia. lia.
    - rewrite Z.mod_small by lia. lia. }
  destruct (Uvarint_loop_Put 10 ux 0 0 []) as (n & Eu & Hn); [lia|lia| |lia|].
  { rewrite E. change (64 - 7 * 0) with 64. destruct (Z.ltb_spec x 0); lia. }
  change (7 * 0) with 0 in Eu. rewrite app_nil_r in Eu. rewrite Eu. exists n. split; [|lia]. f_equal.
  replace (0 + ux * 2 ^ 0) with ux by lia. rewrite E, Z.shiftr_div_pow2 by lia. change (2 ^ 1) with 2.
  rewrite Z.bit0_odd. destruct (Z.ltb_spec x 0).
  - replace (- 2 * x - 1) with (1 + 2 * (- x - 1)) by lia. rewrite Z.odd_add_mul_2. cbn [Z.odd].
    replace ((1 + 2 * (- x - 1)) / 2) with (- x - 1) by (apply (Z.div_unique _ _ _ 1); lia). lia.
  - rewrite Z.odd_mul. cbn [Z.odd andb]. rewrite Z.mul_comm, Z.div_mul by lia. done.
Qed.

(** ** Keys are distinct *)

Definition is_field (f : bytes) : Prop := head f = Some Byte.x3a.
Definition valid_id (id : NodeID) : Prop := length id = 64%nat /\ id <> nodeDBNilNodeID.

Lemma fields_are_fields : is_field nodeDBDiscoverRoot /\ is_field nodeDBDiscoverPing /\ is_field nodeDBDiscoverPong /\
  is_field nodeDBDiscoverFindFails.
Proof. done. Qed.

Lemma makeKey_valid id f : valid_id id -> makeKey id f = nodeDBItemPrefix ++ id ++ f.
Proof. intros [_ H]. unfold makeKey. by rewrite bool_decide_false. Qed.

Lemma makeKey_inj id id' f f' : valid_id id -> valid_id id' -> makeKey id f = makeKey id' f' -> id = id' /\ f = f'.
Proof.
  intros Hi Hi'. rewrite !makeKey_valid by done. intros E%app_inv_head. destruct Hi, Hi'. by apply app_inj_1; [congruence|].
Qed.

Lemma makeKey_field id f g : valid_id id -> f <> g -> makeKey id f <> makeKey id g.
Proof. intros Hi Hn E. by apply (makeKey_inj id id f g Hi Hi) in E as [_ ?]. Qed.

Lemma makeKey_id id id' f g : valid_id id -> valid_id id' -> id <> id' -> makeKey id f <> makeKey id' g.
Proof. intros Hi Hi' Hn E. by apply (makeKey_inj id id' f g Hi Hi') in E as [? _]. Qed.

Lemma splitKey_makeKey id f : valid_id id -> splitKey (makeKey id f) = Ret (id, f).
Proof.
  intros Hi. rewrite makeKey_valid by done. destruct Hi as [Hl _]. unfold splitKey, HasPrefix.
  rewrite take_app_length, bool_decide_true by done. cbn [negb]. rewrite drop_app_length. unfold slice.
  rewrite !decide_True by (rewrite length_app; lia). rewrite !Ret_bind, drop_0, Nat.sub_0_r.
  rewrite take_app_length', drop_app_length' by done. rewrite (firstn_all2 f); [done|]. rewrite length_app. lia.
Qed.

Section Facts.
Context {D : Type} `{HD : LevelDB D} {HL : LevelDBLaws D} `{HX : Xor}.
Implicit Types db : D.

Lemma fetch_store db k n k' : - 2 ^ 63 <= n < 2 ^ 63 ->
  fetchInt64 (storeInt64 db k n) k' = if decide (k' = k) then n else fetchInt64 db k'.
Proof.
  intros Hn. unfold fetchInt64, storeInt64. rewrite Get_Put. case_decide; [|done].
  destruct (Varint_PutVarint n Hn) as (r & -> & Hr). by rewrite (proj2 (Z.leb_gt _ _)).
Qed.

(** Times between the years 1970 and 2262. *)
Definition time_ok (t : Z) : Prop := 0 <= t < 2 ^ 63.

Lemma Unix_range t : time_ok t -> - 2 ^ 63 <= Unix t < 2 ^ 63.
Proof. unfold time_ok, Unix, Second. intros Ht. split; [|apply Z.div_lt_upper_bound; lia]. transitivity 0; [lia|]. apply Z.div_pos; lia. Qed.

(** After a pong at [t] the node is bonded for a day (to the second), and no other node is affected. *)
Lemma hasBond_update db id t now : time_ok t -> valid_id id ->
  hasBond now (updateBondTime db id t) id = (now - Unix t * Second <? nodeDBNodeExpiration).
Proof.
  intros Ht Hi. unfold hasBond, bondTime, updateBondTime. rewrite fetch_store by (by apply Unix_range). by rewrite decide_True.
Qed.

Lemma bondTime_frame db id id' t : time_ok t -> valid_id id -> valid_id id' -> id <> id' ->
  bondTime (updateBondTime db id t) id' = bondTime db id' /\ findFails (updateBondTime db id t) id' = findFails db id'.
Proof.
  intros Ht Hi Hi' Hn. unfold bondTime, findFails, updateBondTime. rewrite !fetch_store by (by apply Unix_range).
  by rewrite !decide_False by (apply makeKey_id; auto).
Qed.

(** ** Records of nodes *)

Definition node_ok (n : Node) : Prop :=
  0 <= n_UDP n < 2 ^ 16 /\ 0 <= n_TCP n < 2 ^ 16 /\ length (n_ID n) = 64%nat /\ (length (n_IP n) <= 16)%nat.

Definition unexported (n : Node) : Node := mk_node (n_IP n) (n_UDP n) (n_TCP n) (n_ID n) (replicate 32 Byte.x00) 0.

Lemma Node_encodable n : node_ok n -> encodable Node_typ no_tags (Node_val (unexported n)).
Proof.
  intros (H1 & H2 & H3 & _). apply enc_struct. unfold Node_val, unexported. cbn [n_IP n_UDP n_TCP n_ID n_sha fmap list_fmap app].
  eapply (enc_fields_cons _ _ no_tags); [done..|apply encodable_ip|].
  do 2 (eapply (enc_fields_cons _ _ no_tags); [done..|apply encodable_uint; [set_solver|done]|]).
  eapply (enc_fields_cons _ _ no_tags); [done..|by apply encodable_id|].
  change (VBytes (replicate 32 Byte.x00)) with (zero (byte_array 32)). apply enc_fields_hidden; [done|].
  change VNil with (zero TOther). apply enc_fields_hidden; [done|]. constructor.
Qed.

Lemma Node_encoding n : node_ok n -> exists b, Z.of_nat (length b) < 2 ^ 64 /\
  EncodeToBytes (TPtr Node_typ) (VPtr (Node_val n)) = Ret b /\ DecodeBytes Node_typ b = Ret (Node_val (unexported n)).
Proof.
  intros Hn. pose proof (Node_encodable n Hn) as He. destruct Hn as (H1 & H2 & H3 & H4).
  destruct (proj1 encodable_encodes _ _ _ He) as [Hu [b Hb]].
  assert (takes (Node_val (unexported n)) Node_typ 91) as (b' & Hb' & Hl).
  { destruct (takes_rpcNode (nodeToRPC n)) as (b1 & E1 & Hl1); [done|done|]. exists b1. split; [|exact Hl1]. rewrite <- E1. done. }
  rewrite Hb in Hb'. injection Hb' as <-. exists b. split; [lia|]. split.
  - apply EncodeToBytes_encodes; [done|done| |lia]. rewrite <- Hb. done.
  - destruct (Stream_Decode_complete _ _ b [] true (Z.of_nat (length b)) He eq_refl Hb) as (s & E & Hr); [lia|lia|].
    rewrite app_nil_r in E. unfold DecodeBytes. by rewrite E, Hr.
Qed.

(** What LevelDB returns is a slice, no longer than what can be allocated. *)
Definition slices db : Prop := forall k v, lvl_Get db k = Some v -> Z.of_nat (length v) <= maxAlloc.

(** Whatever is stored, reading a record returns. *)
Lemma db_node_returns db id : slices db -> exists o, db_node db id = Ret o.
Proof.
  intros Hs. unfold db_node. destruct (lvl_Get db (makeKey id nodeDBDiscoverRoot)) as [blob|] eqn:Eg; [|by eexists]. apply Hs in Eg.
  assert (canonical_typ Node_typ = true) as Hc by done.
  destruct (slice_Decode_ends Node_typ blob (Z.of_nat (length blob)) Hc eq_refl (or_intror eq_refl) Eg) as [_ Hp]. unfold DecodeBytes.
  destruct (Stream_Decode Node_typ (NewStream blob true (Z.of_nat (length blob)))) as [[v|e|] s] eqn:E; [|by eexists|done].
  destruct (0 <? length (s_r s))%nat; [by eexists|]. unfold Stream_Decode in E. cbn [genTypeInfo] in E.
  change (genTypeInfo Node_typ) with (Ret tt : outcome unit) in E. apply decode_typed in E; [|done].
  assert (exists n, Node_of v = Some n) as (n & ->).
  { destruct v as [| | | | | | |vs| | |]; try done. unfold Node_typ in E. cbn [has_type fmap list_fmap app] in E.
    do 6 (destruct vs as [|? vs]; [by repeat (cbn in E; rewrite ?andb_false_r in E)|]).
    cbn [fields_have_type] in E. repeat (apply andb_prop in E as [? E]).
    repeat match goal with
    | H : has_type _ (f_typ (public_field (TUint _))) = true |- _ => apply typed_uint in H as (? & -> & ?)
    | H : has_type _ (f_typ (public_field (byte_array 64))) = true |- _ => apply typed_id in H as (? & -> & ?)
    | H : has_type _ (f_typ (public_field bytes_typ)) = true |- _ => apply typed_bytes in H as (? & ->)
    end.
    destruct vs; [|done]. match goal with H : has_type ?x (f_typ (private_field (byte_array 32))) = true |- _ => destruct x; try done end. by eexists. }
  cbn [of_option]. rewrite Ret_bind. change (Keccak256Hash [n_ID n]) with (Keccak256 [n_ID n]).
  rewrite (proj1 (Keccak256_eq (n_ID n))), Ret_bind. by eexists.
Qed.

Lemma updateNode_node db n id : node_ok n -> valid_id (n_ID n) -> valid_id id ->
  exists db', db_updateNode db n = Ret db' /\
    db_node db' id = (if decide (id = n_ID n) then Ret (Some (mk_node (n_IP n) (n_UDP n) (n_TCP n) (n_ID n) (keccak (n_ID n)) 0))
                      else db_node db id) /\
    bondTime db' id = bondTime db id /\ findFails db' id = findFails db id.
Proof.
  intros Hn Hv Hi. destruct (Node_encoding n Hn) as (b & _ & Ee & Ed). unfold db_updateNode. rewrite Ee, Ret_bind.
  eexists. split; [done|]. unfold bondTime, findFails, fetchInt64, db_node. rewrite !Get_Put.
  assert (forall f, f <> nodeDBDiscoverRoot -> makeKey id f <> makeKey (n_ID n) nodeDBDiscoverRoot) as Hf.
  { intros f Hf E. apply makeKey_inj in E as [_ E]; [|done..]. done. }
  rewrite !(decide_False (P := makeKey id _ = makeKey (n_ID n) nodeDBDiscoverRoot) _ _ (Hf nodeDBDiscoverPong ltac:(done))).
  rewrite !(decide_False (P := makeKey id _ = makeKey (n_ID n) nodeDBDiscoverRoot) _ _ (Hf nodeDBDiscoverFindFails ltac:(done))).
  split; [|done]. destruct (decide (id = n_ID n)) as [Hid|Hid].
  - rewrite decide_True by (by rewrite Hid). rewrite Ed. cbn [Node_of Node_val unexported of_option n_IP n_UDP n_TCP n_ID n_sha].
    rewrite Ret_bind. cbn [n_ID n_IP n_UDP n_TCP]. change (Keccak256Hash [n_ID n]) with (Keccak256 [n_ID n]).
    by rewrite (proj1 (Keccak256_eq (n_ID n))).
  - rewrite decide_False; [done|]. by apply makeKey_id.
Qed.

(** ** Expiration *)

(** The keys the operations above create, and the key of the version. *)
Definition known_key (k : bytes) : Prop :=
  k = nodeDBVersionKey \/ exists id f, valid_id id /\ is_field f /\ k = makeKey id f.

Definition db_wf db : Prop := forall k, is_Some (lvl_Get db k) -> known_key k.

Lemma store_wf db id f n : db_wf db -> valid_id id -> is_field f -> db_wf (storeInt64 db (makeKey id f) n).
Proof.
  intros Hw Hi Hf k. unfold storeInt64. rewrite Get_Put. case_decide as Hk; [|apply Hw]. intros _. right. by exists id, f.
Qed.

Lemma updateNode_wf db n db' : db_wf db -> valid_id (n_ID n) -> db_updateNode db n = Ret db' -> db_wf db'.
Proof.
  intros Hw Hi. unfold db_updateNode. destruct (EncodeToBytes _ _) as [b|e|]; [|done..]. rewrite Ret_bind. intros [= <-] k.
  rewrite Get_Put. case_decide as Hk; [|apply Hw]. intros _. right. by exists (n_ID n), nodeDBDiscoverRoot.
Qed.

Lemma Get_deletes ks db k : lvl_Get (foldl lvl_Delete db ks) k = if decide (k ∈ ks) then None else lvl_Get db k.
Proof.
  revert db. induction ks as [|k0 ks IH]; intros db; cbn [foldl].
  - by rewrite decide_False by apply not_elem_of_nil.
  - rewrite IH, Get_Delete. destruct (decide (k = k0)) as [->|Hk].
    + rewrite (decide_True (P := k0 ∈ k0 :: ks)) by apply list_elem_of_here. by case_decide.
    + destruct (decide (k ∈ ks)) as [Hi|Hi].
      * by rewrite decide_True by (by apply list_elem_of_further).
      * rewrite decide_False; [done|]. by intros [?|?]%elem_of_cons.
Qed.

Lemma HasPrefix_makeKey id id' f : valid_id id -> valid_id id' ->
  HasPrefix (makeKey id' f) (makeKey id []) = bool_decide (id' = id).
Proof.
  intros Hi Hi'. rewrite !makeKey_valid by done. destruct Hi as [Hl _], Hi' as [Hl' _]. unfold HasPrefix.
  apply bool_decide_ext. rewrite app_nil_r, length_app, (app_assoc nodeDBItemPrefix id').
  rewrite take_app_length' by (rewrite length_app; lia). split; [by intros ?%app_inv_head|by intros ->].
Qed.

(** [deleteNode] removes what is known of the node, and nothing else. *)
Lemma Get_deleteNode db id id' f : valid_id id -> valid_id id' ->
  lvl_Get (db_deleteNode db id) (makeKey id' f) = if decide (id' = id) then None else lvl_Get db (makeKey id' f).
Proof.
  intros Hi Hi'. unfold db_deleteNode, prefix_keys. rewrite Get_deletes. pose proof (HasPrefix_makeKey id id' f Hi Hi') as Hp.
  destruct (lvl_Get db (makeKey id' f)) as [v|] eqn:E; [|by repeat case_decide].
  assert (makeKey id' f ∈ (lvl_items db).*1) as Hin by (apply list_elem_of_fmap; exists (makeKey id' f, v); split; [done|by apply items_Get]).
  destruct (decide (id' = id)) as [He|He].
  - rewrite decide_True; [done|]. apply list_elem_of_filter. split; [|done]. rewrite Hp. by apply bool_decide_true.
  - rewrite decide_False; [done|]. intros [Hc _]%list_elem_of_filter. rewrite Hp in Hc. by apply bool_decide_eq_true in Hc.
Qed.

Definition stale (now : Z) (self : NodeID) db (id : NodeID) : bool :=
  bool_decide (id = self) || (bondTime db id <=? now - nodeDBNodeExpiration).

Lemma stale_frame now self db db' id :
  lvl_Get db' (makeKey id nodeDBDiscoverPong) = lvl_Get db (makeKey id nodeDBDiscoverPong) -> stale now self db' id = stale now self db id.
Proof. intros E. unfold stale, bondTime, fetchInt64. by rewrite E. Qed.

Lemma record_expire_loop_spec now self ks db : Forall known_key ks ->
  exists db', expire_loop now self ks db = Ret db' /\
    (forall k, is_Some (lvl_Get db' k) -> is_Some (lvl_Get db k)) /\
    forall id f, valid_id id ->
      lvl_Get db' (makeKey id f) =
      if decide (makeKey id nodeDBDiscoverRoot ∈ ks /\ stale now self db id = true) then None else lvl_Get db (makeKey id f).
Proof.
  intros Hk. revert db. induction Hk as [|k ks Hk _ IH]; intros db; cbn [expire_loop].
  { exists db. split; [done|]. split; [done|]. intros id f _. rewrite decide_False; [done|]. by intros [?%not_elem_of_nil _]. }
  assert (forall id, valid_id id -> k <> makeKey id nodeDBDiscoverRoot ->
    (makeKey id nodeDBDiscoverRoot ∈ k :: ks <-> makeKey id nodeDBDiscoverRoot ∈ ks)) as Hcons.
  { intros id Hi Hn. rewrite elem_of_cons. split; [|by auto]. intros [E|E]; [by rewrite E in Hn|done]. }
  assert ((exists id field, splitKey k = Ret (id, field) /\ ~ (field = nodeDBDiscoverRoot) /\
             forall id, valid_id id -> k <> makeKey id nodeDBDiscoverRoot) \/
          exists id, valid_id id /\ k = makeKey id nodeDBDiscoverRoot) as [(id0 & field & E & Hf & Hne)|(id0 & Hi0 & ->)].
  { destruct Hk as [->|(id & f & Hi & Hf & ->)].
    - left. exists nodeDBNilNodeID, nodeDBVersionKey. split; [done|]. split; [done|]. intros id Hi. rewrite makeKey_valid by done. done.
    - destruct (decide (f = nodeDBDiscoverRoot)) as [->|Hn]; [right; by exists id|]. left. exists id, f.
      rewrite splitKey_makeKey by done. split; [done|]. split; [done|].
      intros id' Hi' E. by apply makeKey_inj in E as [_ ?]. }
  - rewrite E, Ret_bind, bool_decide_false by done. cbn [negb]. destruct (IH db) as (db' & -> & Hv & H). exists db'.
    split; [done|]. split; [done|]. intros id f Hi. rewrite H by done. apply decide_ext. by rewrite Hcons by auto.
  - rewrite splitKey_makeKey, Ret_bind, bool_decide_true by done. cbn [negb].
    assert (negb (bool_decide (id0 = self)) && (now - nodeDBNodeExpiration <? bondTime db id0) = negb (stale now self db id0)) as ->.
    { unfold stale. rewrite negb_orb. f_equal. by rewrite Z.ltb_antisym. }
    destruct (stale now self db id0) eqn:Es; cbn [negb].
    + destruct (IH (db_deleteNode db id0)) as (db' & -> & Hv & H). exists db'. split; [done|].
      split; [intros k Hs%Hv; revert Hs; unfold db_deleteNode; rewrite Get_deletes; by case_decide; [intros [? ?]|]|]. intros id f Hi. rewrite H, Get_deleteNode by done.
      destruct (decide (id = id0)) as [->|Hn].
      * rewrite (decide_True (P := _ ∈ _ :: ks /\ _)); [by case_decide|]. split; [apply list_elem_of_here|done].
      * rewrite (stale_frame now self db) by (rewrite Get_deleteNode by done; by rewrite decide_False).
        apply decide_ext. rewrite Hcons; [done|done|]. by apply makeKey_id; auto.
    + destruct (IH db) as (db' & -> & Hv & H). exists db'. split; [done|]. split; [done|]. intros id f Hi. rewrite H by done.
      apply decide_ext. destruct (decide (id = id0)) as [->|Hn]; [rewrite Es; naive_solver|].
      rewrite Hcons; [done|done|]. by apply makeKey_id; auto.
Qed.

Lemma expireNodes_effect (now : Z) (self : NodeID) db : db_wf db ->
  exists db', expireNodes now self db = Ret db' /\ db_wf db' /\
    forall id f, valid_id id ->
      lvl_Get db' (makeKey id f) =
      if decide (is_Some (lvl_Get db (makeKey id nodeDBDiscoverRoot)) /\ stale now self db id = true)
      then None else lvl_Get db (makeKey id f).
Proof.
  intros Hw. assert (forall k, k ∈ (lvl_items db).*1 <-> is_Some (lvl_Get db k)) as Hk.
  { intros k. split.
    - intros ([k' v] & -> & Hin)%list_elem_of_fmap. exists v. by apply items_Get.
    - intros [v Hv]. apply list_elem_of_fmap. exists (k, v). split; [done|]. by apply items_Get. }
  destruct (record_expire_loop_spec now self (lvl_items db).*1 db) as (db' & E & Hv & H).
  { apply Forall_forall. intros k Hin. by apply Hw, Hk. }
  exists db'. split; [exact E|]. split; [intros k Hs; by apply Hw, Hv|].
  intros id f Hi. rewrite H by done. apply decide_ext. by rewrite Hk.
Qed.

(** What is known of a node without a record is never deleted: [bond] stores the times of pings and pongs of every node that
    is tried, and only nodes that stay in the table get a record. *)
Theorem pings_without_record_stay (now : Z) (self : NodeID) db (id : NodeID) f : db_wf db -> valid_id id ->
  lvl_Get db (makeKey id nodeDBDiscoverRoot) = None ->
  exists db', expireNodes now self db = Ret db' /\ lvl_Get db' (makeKey id f) = lvl_Get db (makeKey id f).
Proof.
  intros Hw Hi Hn. destruct (expireNodes_effect now self db Hw) as (db' & E & _ & H). exists db'. split; [done|].
  rewrite H by done. rewrite decide_False; [done|]. rewrite Hn. by intros [[? ?] _].
Qed.

End Facts.

(** C36: The clean-up forgets a node that has a record, with everything that is known of it, exactly when its last pong came a day ago or
    earlier, by the same test that [hasBond] makes before a query of the node is answered, or when it is the node itself.  A node
    that is bonded keeps its record, the times and the failures; a node without a record keeps what is
    known of it, however old that is ([pings_without_record_stay]); and the clean-up does not panic on any
    database that the operations can build. *)
Theorem expireNodes_exact {D : Type} `{HD : LevelDB D} {HL : LevelDBLaws D} (now : Z) (self : NodeID) (db : D) : db_wf db ->
  exists db', expireNodes now self db = Ret db' /\ db_wf db' /\
    forall id f, valid_id id ->
      lvl_Get db' (makeKey id f) =
      if decide (is_Some (lvl_Get db (makeKey id nodeDBDiscoverRoot)) /\ (id = self \/ hasBond now db id = false))
      then None else lvl_Get db (makeKey id f).
Proof.
  intros Hw. destruct (expireNodes_effect now self db Hw) as (db' & E & Hw' & H). exists db'. split; [done|]. split; [done|].
  intros id f Hi. rewrite H by done. apply decide_ext. unfold stale, hasBond. rewrite orb_true_iff, bool_decide_eq_true, Z.leb_le, Z.ltb_ge.
  split; intros [? [?|?]]; (split; [done|]); (by left) || right; lia.
Qed.

(** ** Witnesses *)

Definition demo_id (b : byte) : NodeID := replicate 64 b.
Definition day : Z := nodeDBNodeExpiration.

(** Two nodes with records, one of which has not been seen for a day. *)
Definition demo_records : list Node :=
  (fun b => mk_node (u8 <$> [10; 3; 58; 6]) 30301 17717 (demo_id b) [] 0) <$> [Byte.x01; Byte.x02].
Definition demo_db : gmap bytes bytes :=
  let put d n := match db_updateNode d n with Ret d => d | _ => d end in
  updateBondTime (updateBondTime (foldl put ∅ demo_records) (demo_id Byte.x01) day) (demo_id Byte.x02) (2 * day).

Lemma demo_id_valid b : b <> Byte.x00 -> valid_id (demo_id b).
Proof. intros Hb. split; [done|]. intros E. by injection E as E. Qed.

Lemma demo_db_wf : db_wf demo_db.
Proof.
  do 2 (apply (store_wf _ (demo_id _) nodeDBDiscoverPong); [|by apply demo_id_valid|done]).
  assert (forall ns d, Forall (fun n => valid_id (n_ID n)) ns -> db_wf d ->
    db_wf (foldl (fun d n => match db_updateNode d n with Ret d => d | _ => d end) d ns)) as Hput.
  { induction ns as [|n ns IH]; intros d HF Hd; [done|]. apply Forall_cons in HF as [Hn HF]. cbn [foldl]. apply IH; [done|].
    destruct (db_updateNode d n) as [d'|e|] eqn:E; [|done..]. by eapply updateNode_wf. }
  apply Hput; [|intros k [v Hv]; cbn in Hv; by rewrite lookup_empty in Hv].
  repeat (apply Forall_cons_2; [by apply demo_id_valid|]). apply Forall_nil_2.
Qed.

Lemma expireNodes_exact_witness : exists db' : gmap bytes bytes,
  expireNodes (2 * day) (demo_id Byte.x09) demo_db = Ret db' /\
  lvl_Get db' (makeKey (demo_id Byte.x01) nodeDBDiscoverPong) = None /\
  lvl_Get db' (makeKey (demo_id Byte.x02) nodeDBDiscoverPong) = Some (PutVarint (2 * 24 * 60 * 60)).
Proof.
  destruct (expireNodes_exact (2 * day) (demo_id Byte.x09) demo_db demo_db_wf) as (db' & E & _ & H).
  exists db'. split; [exact E|]. split.
  - rewrite (H (demo_id Byte.x01)); [vm_compute; reflexivity|by apply demo_id_valid].
  - rewrite (H (demo_id Byte.x02)); [vm_compute; reflexivity|by apply demo_id_valid].
Defined.
