(* ===== verification/Discovery.v ===== *)
(** * Node discovery

    [src/p2p/discover/udp.go]: the requests [ping] and [findnode], the reading of datagrams and the handlers of the four
    packets, over the queue of [Replies.v], the table and the database; [ping] and [bond] of [table.go], which
    admit nodes to the table.  A call that waits for a reply is split at the wait. *)

From S2P Require Import Prelude BigInt Keccak Sha3 Rlp RlpStream RlpProofs RlpRoundTrip RlpEnds RlpTyping Curve Secp256k1 Ecies Signature Handshake Protocol Wire Netutil Node Table Packets Replies NodeDB.

Definition errExpired : error := "expired".
Definition errUnsolicitedReply : error := "unsolicited reply".
Definition errUnknownNode : error := "unknown node".
Definition errIsSelf : error := "is self".
Definition errInitializing : error := "still initializing".

(** ** The clock in packets *)

(** Seconds from the year 1 to 1970, the zero of [time.Time]. *)
Definition unixToInternal : Z := 62135596800.

(** [time.Unix(int64(ts), 0).Before(time.Now())] *)
Definition expired (now ts : Z) : bool :=
  let sec := int64 (int64 ts + unixToInternal) in
  let now_sec := now / Second + unixToInternal in
  (sec <? now_sec) || ((sec =? now_sec) && (0 <? now mod Second)).

(** [uint64(time.Now().Add(expiration).Unix())] *)
Definition expires (now : Z) : Z := u64 (Unix (now + expiration)).

(** ** The transport *)

Record udp_conf := mk_conf { c_priv : PrivateKey; c_netrestrict : option Netlist; c_ourEndpoint : rpcEndpoint }.

Record udp (D : Type) := mk_udp { u_loop : loop; u_db : D; u_table : Table }.
Arguments mk_udp {D}.
Arguments u_loop {D}.
Arguments u_db {D}.
Arguments u_table {D}.

Definition with_loop {D} (l : loop) (t : udp D) : udp D := mk_udp l (u_db t) (u_table t).

(** What a handler does besides: the datagrams written, and the calls of [bond] started. *)
Record effects := mk_effects { e_sent : list (UDPAddr * bytes); e_bonds : list (NodeID * UDPAddr * Z) }.

Definition nothing : effects := mk_effects [] [].

Record ReadPacket := mk_readpacket { rdp_Data : bytes; rdp_Addr : UDPAddr }.

(** What [ReadFromUDP] returns: an error, temporary or not, or a datagram with its sender. *)
Inductive read_result :=
| ReadFailed (temporary : bool)
| ReadOk (from : UDPAddr) (datagram : bytes).

Section Discovery.
Context {C : EllipticCurve} {S : SecpC} `{HX : Xor} {D : Type} `{HD : LevelDB D}.
Implicit Types t : udp D.

(** [udp.send]; its errors are ignored by every caller. *)
Definition udp_send (conf : udp_conf) (toaddr : UDPAddr) (ptype : Z) (req : packet) : outcome (list (UDPAddr * bytes)) :=
  match encodePacket (c_priv conf) ptype req with
  | Ret (packet, _) => Ret [(toaddr, packet)]
  | Err _ => Ret []
  | Panic => Panic
  end.

(** The request of [udp.ping], up to the wait. *)
Definition udp_ping (conf : udp_conf) (toid : NodeID) (toaddr : UDPAddr) t : outcome (udp D * list (UDPAddr * bytes)) :=
  let req := Ping (mk_ping Version (c_ourEndpoint conf) (makeEndpoint toaddr 0) (expires (l_now (u_loop t))) []) in
  '(packet, hash) ← encodePacket (c_priv conf) pingPacket req;
  Ret (with_loop (loop_add toid pongPacket (CbPong hash) (u_loop t)) t, [(toaddr, packet)]).

(** The request of [udp.findnode], up to the wait. *)
Definition udp_findnode (conf : udp_conf) (toid : NodeID) (toaddr : UDPAddr) (target : NodeID) t :
    outcome (udp D * list (UDPAddr * bytes)) :=
  let l := loop_add toid neighborsPacket (CbNeighbors toaddr [] 0) (u_loop t) in
  out ← udp_send conf toaddr findnodePacket (Findnode (mk_findnode target (expires (l_now (u_loop t))) []));
  Ret (with_loop l t, out).

(** [udp.handleReply]; when the loop has ended, the transport is closed. *)
Definition handleReply (conf : udp_conf) (from : NodeID) (ptype : Z) (req : packet) t : outcome (bool * udp D) :=
  if l_ended (u_loop t) then Ret (false, t)
  else '(matched, l) ← loop_reply (c_netrestrict conf) (mk_reply from ptype req) (u_loop t); Ret (matched, with_loop l t).

Definition ping_handle (conf : udp_conf) (from : UDPAddr) (fromID : NodeID) (mac : bytes) (req : ping) t :
    outcome (option error * udp D * effects) :=
  let now := l_now (u_loop t) in
  if expired now (ping_Expiration req) then Ret (Some errExpired, t, nothing) else
  out ← udp_send conf from pongPacket (Pong (mk_pong (makeEndpoint from (re_TCP (ping_From req))) mac (expires now) []));
  '(matched, t) ← handleReply conf fromID pingPacket (Ping req) t;
  Ret (None, t, mk_effects out (if matched : bool then [] else [(fromID, from, re_TCP (ping_From req))])).

Definition pong_handle (conf : udp_conf) (fromID : NodeID) (req : pong) t : outcome (option error * udp D * effects) :=
  if expired (l_now (u_loop t)) (pong_Expiration req) then Ret (Some errExpired, t, nothing) else
  '(matched, t) ← handleReply conf fromID pongPacket (Pong req) t;
  Ret (if matched : bool then None else Some errUnsolicitedReply, t, nothing).

(** The loop over the nearest nodes: what was sent, the nodes left and whether anything was sent. *)
Fixpoint neighbors_loop (conf : udp_conf) (from : UDPAddr) (exp : Z) (closest : list Node) (nodes : list rpcNode) (sent : bool) :
    outcome (list (UDPAddr * bytes) * list rpcNode * bool) :=
  match closest with
  | [] => Ret ([], nodes, sent)
  | n :: closest =>
      let nodes := match CheckRelayIP (ua_IP from) (n_IP n) with None => nodes ++ [nodeToRPC n] | Some _ => nodes end in
      if decide (length nodes = maxNeighbors) then
        out ← udp_send conf from neighborsPacket (Neighbors (mk_neighbors nodes exp []));
        '(out', nodes, sent) ← neighbors_loop conf from exp closest [] true;
        Ret (out ++ out', nodes, sent)
      else neighbors_loop conf from exp closest nodes sent
  end.

Definition findnode_handle (conf : udp_conf) (from : UDPAddr) (fromID : NodeID) (req : findnode) t :
    outcome (option error * udp D * effects) :=
  let now := l_now (u_loop t) in
  if expired now (fn_Expiration req) then Ret (Some errExpired, t, nothing) else
  if negb (hasBond now (u_db t) fromID) then Ret (Some errUnknownNode, t, nothing) else
  target ← Keccak256Hash [fn_Target req];
  let exp := expires now in
  '(out, nodes, sent) ← neighbors_loop conf from exp (near_entries (closest (u_table t) target bucketSize)) [] false;
  out' ← (if (0 <? length nodes)%nat || negb sent then udp_send conf from neighborsPacket (Neighbors (mk_neighbors nodes exp []))
          else Ret []);
  Ret (None, t, mk_effects (out ++ out') []).

Definition neighbors_handle (conf : udp_conf) (fromID : NodeID) (req : neighbors) t : outcome (option error * udp D * effects) :=
  if expired (l_now (u_loop t)) (nb_Expiration req) then Ret (Some errExpired, t, nothing) else
  '(matched, t) ← handleReply conf fromID neighborsPacket (Neighbors req) t;
  Ret (if matched : bool then None else Some errUnsolicitedReply, t, nothing).

Definition handlePacket (conf : udp_conf) (from : UDPAddr) (buf : bytes) t : outcome (option error * udp D * effects) :=
  match decodePacket buf with
  | Panic => Panic
  | Err e => Ret (Some e, t, nothing)
  | Ret (req, fromID, hash) =>
      match req with
      | Ping p => ping_handle conf from fromID hash p t
      | Pong p => pong_handle conf fromID p t
      | Findnode p => findnode_handle conf from fromID p t
      | Neighbors p => neighbors_handle conf fromID p t
      end
  end.

(** A datagram that was read: the buffer has 1280 bytes, the rest is cut off. *)
Definition read_datagram (conf : udp_conf) (from : UDPAddr) (datagram : bytes) t : outcome (option error * udp D * effects) :=
  handlePacket conf from (take maxPacketSize datagram) t.

(** [readLoop] over the results of [ReadFromUDP]: what the handlers did and which packets were offered to the channel
    [unhandled], and whether the loop has returned. *)
Fixpoint readLoop (conf : udp_conf) (unhandled : bool) (rs : list read_result) t : outcome (udp D * list (effects * list ReadPacket) * bool) :=
  match rs with
  | [] => Ret (t, [], false)
  | ReadFailed true :: rs => readLoop conf unhandled rs t
  | ReadFailed false :: _ => Ret (t, [], true)
  | ReadOk from datagram :: rs =>
      '(err, t, eff) ← read_datagram conf from datagram t;
      let offered := match err with
                     | Some _ => if unhandled then [mk_readpacket (take maxPacketSize datagram) from] else []
                     | None => []
                     end in
      '(t, outs, ended) ← readLoop conf unhandled rs t;
      Ret (t, (eff, offered) :: outs, ended)
  end.

(** ** Bonding ([table.go]) *)

(** [Table.ping], with the result of the transport's [ping] and the time when it arrives. *)
Definition Table_ping (id : NodeID) (now now' : Z) (res : option error) (db : D) : option error * D :=
  let db := updateLastPing db id now in
  match res with
  | Some e => (Some e, db)
  | None => (None, updateBondTime db id now')
  end.

(** [Table.pingpong]; that [waitping] returns does not change anything. *)
Definition pingpong (id : NodeID) (addr : UDPAddr) (tcpPort now now' : Z) (res : option error) (db : D) :
    outcome (option error * option Node * D) :=
  match Table_ping id now now' res db with
  | (Some e, db) => Ret (Some e, None, db)
  | (None, db) => n ← NewNode id (ua_IP addr) (uint16 (ua_Port addr)) tcpPort; Ret (None, Some n, db)
  end.

(** [Table.bond]; [other] is the result of another process that bonds with the node already. *)
Definition bond (initDone pinged : bool) (id : NodeID) (addr : UDPAddr) (tcpPort now now' : Z) (res : option error)
    (other : option (option error * option Node)) (db : D) (tab : Table) : outcome (option Node * option error * D * Table) :=
  if bool_decide (id = n_ID (t_self tab)) then Ret (None, Some errIsSelf, db, tab) else
  if pinged && negb initDone then Ret (None, Some errInitializing, db, tab) else
  node ← db_node db id;
  let age := now - bondTime db id in
  '(result, node, db) ←
    (if (0 <? findFails db id) || (nodeDBNodeExpiration <? age) then
       '(err, n, db) ← match other with
                       | Some (err, n) => Ret (err, n, db)
                       | None => pingpong id addr tcpPort now now' res db
                       end;
       Ret (err, match err with None => n | Some _ => node end, db)
     else Ret (None, node, db));
  match node with
  | Some n => Ret (Some n, result, updateFindFails db id 0, Table_add now' n tab)
  | None => Ret (None, result, db, tab)
  end.

(** [Table.bond] up to the wait, for a node that has pinged: what the process that [ping.handle] starts does at once.  [busy] says
    that another process bonds with the node, which this one then waits for; that one of the sixteen slots is
    free is left to [TableLoop.v]. *)
Definition bond_begin (conf : udp_conf) (initDone busy : bool) (id : NodeID) (addr : UDPAddr) t : outcome (udp D * list (UDPAddr * bytes)) :=
  let now := l_now (u_loop t) in
  let db := u_db t in
  if bool_decide (id = n_ID (t_self (u_table t))) then Ret (t, []) else
  if negb initDone then Ret (t, []) else
  node ← db_node db id;
  if (0 <? findFails db id) || (nodeDBNodeExpiration <? now - bondTime db id) then
    if busy then Ret (t, []) else udp_ping conf id addr (mk_udp (u_loop t) (updateLastPing db id now) (u_table t))
  else
    match node with
    | Some n => Ret (mk_udp (u_loop t) (updateFindFails db id 0) (Table_add now n (u_table t)), [])
    | None => Ret (t, [])
    end.

(** The processes that the handler of a datagram starts. *)
Fixpoint begin_bonds (conf : udp_conf) (initDone busy : bool) (bonds : list (NodeID * UDPAddr * Z)) t : outcome (udp D * list (UDPAddr * bytes)) :=
  match bonds with
  | [] => Ret (t, [])
  | (id, addr, _) :: bonds =>
      '(t, out) ← bond_begin conf initDone busy id addr t;
      '(t, out') ← begin_bonds conf initDone busy bonds t;
      Ret (t, out ++ out')
  end.

End Discovery.

(** ** The clock in packets *)

Lemma expired_spec now ts : time_ok now -> 0 <= ts < 2 ^ 63 - unixToInternal -> expired now ts = (ts * Second <? now).
Proof.
  intros Hn Ht. unfold expired, int64, unixToInternal in *. rewrite (Z.mod_small (ts + 2 ^ 63)) by lia.
  rewrite Z.mod_small by lia. pose proof (Z.div_mod now Second ltac:(done)) as Hd.
  pose proof (Z.mod_pos_bound now Second ltac:(done)) as Hm. unfold Second in *.
  destruct (Z.ltb_spec (ts + 2 ^ 63 - 2 ^ 63 + 62135596800 + 2 ^ 63 - 2 ^ 63) (now / 10 ^ 9 + 62135596800)); cbn [orb];
    destruct (Z.ltb_spec (ts * 10 ^ 9) now); try lia.
  all: destruct (Z.eqb_spec (ts + 2 ^ 63 - 2 ^ 63 + 62135596800 + 2 ^ 63 - 2 ^ 63) (now / 10 ^ 9 + 62135596800)); cbn [andb];
    destruct (Z.ltb_spec 0 (now mod 10 ^ 9)); lia.
Qed.

(** A time that does not fit into [time.Time] has passed. *)
Lemma expired_overflow now ts : time_ok now -> 2 ^ 63 - unixToInternal <= ts < 2 ^ 64 -> expired now ts = true.
Proof.
  intros Hn Ht. unfold expired, int64, unixToInternal, time_ok in *.
  assert (0 <= now / Second) by (apply Z.div_pos; [lia|done]).
  apply orb_true_intro. left. apply Z.ltb_lt.
  destruct (Z.lt_ge_cases ts (2 ^ 63)).
  - rewrite (Z.mod_small (ts + 2 ^ 63)) by lia.
    rewrite <- (Z.mod_add _ (-1)) by lia. rewrite Z.mod_small by lia. lia.
  - rewrite <- (Z.mod_add (ts + 2 ^ 63) (-1)) by lia. rewrite (Z.mod_small (ts + 2 ^ 63 + -1 * 2 ^ 64)) by lia.
    rewrite Z.mod_small by lia. lia.
Qed.

Lemma expires_range now : 0 <= expires now < 2 ^ 64.
Proof. unfold expires, u64. apply Z.mod_pos_bound. lia. Qed.

(** A packet is good for at least nineteen seconds. *)
Lemma expired_expires now now' : time_ok now -> time_ok now' -> now' <= now + 19 * Second -> expired now' (expires now) = false.
Proof.
  intros Hn Hn' Hle. unfold expires, Unix. unfold time_ok in *.
  pose proof (Z.div_mod (now + expiration) Second ltac:(done)) as Hd.
  pose proof (Z.mod_pos_bound (now + expiration) Second ltac:(done)) as Hm. unfold expiration, Second in *.
  assert (0 <= (now + 20 * 10 ^ 9) / 10 ^ 9 < 2 ^ 34) by lia.
  rewrite u64_small by lia. rewrite expired_spec; [|done|unfold unixToInternal; lia]. apply Z.ltb_ge. unfold Second. lia.
Qed.

Section DiscoveryFacts.
Context {C : EllipticCurve} {G : CurveGroup C} {S : SecpC} {L : SecpLaws C G S} `{HX : Xor} {D : Type} `{HD : LevelDB D}.
Hypothesis HB : Params_BitSize = 256.
Implicit Types t : udp D.

(** [dg] is a datagram of the node with key [d] that carries [p]. *)
Definition carries (d : Z) (p : packet) (dg : bytes) : Prop :=
  (length dg < maxPacketSize)%nat /\ exists hash, length hash = 32%nat /\ decodePacket dg = Ret (p, id_of d, hash).

Lemma udp_send_carries conf d to p : c_priv conf = static_key d -> key_ok d -> packet_ok p -> (packet_size p < maxPacketSize)%nat ->
  exists dg, udp_send conf to (packet_type p) p = Ret [(to, dg)] /\ length dg = packet_size p /\ carries d p dg.
Proof.
  intros Hc Hd Hp Hs. unfold maxPacketSize in *.
  destruct (encodePacket_decodes HB d p Hd Hp) as (buf & hash & E & Hh & Hl & Hdec); [lia|].
  exists buf. unfold udp_send. rewrite Hc, E. split; [done|]. split; [done|]. split; [unfold maxPacketSize; lia|by exists hash].
Qed.

Lemma makeEndpoint_ok addr tcp : 0 <= tcp < 2 ^ 16 -> endpoint_ok (makeEndpoint addr tcp) /\ (length (re_IP (makeEndpoint addr tcp)) <= 16)%nat.
Proof.
  intros Ht. unfold makeEndpoint, endpoint_ok. cbn [re_IP re_UDP re_TCP]. split.
  - split; [|done]. unfold uint16. apply Z.mod_pos_bound. lia.
  - destruct (To4 (ua_IP addr)) as [ip4|] eqn:E4; cbn [default].
    + change (length ip4 <= 16)%nat. rewrite (To4_length _ _ E4). lia.
    + destruct (To16 (ua_IP addr)) as [ip|] eqn:E16; cbn [default id]; [change (length ip <= 16)%nat|cbn; lia].
      revert E16. unfold To16. repeat case_match; intros [= <-]; rewrite ?length_app; unfold IPv4len, IPv6len in *; cbn; lia.
Qed.

(** ** Answering a query *)

(** The nodes the sender may be told of. *)
Definition relayed (from : UDPAddr) (ns : list Node) : list rpcNode :=
  nodeToRPC <$> filter (fun n => CheckRelayIP (ua_IP from) (n_IP n) = None) ns.

Definition neighbors_packet (exp : Z) (g : list rpcNode) : packet := Neighbors (mk_neighbors g exp []).

Definition group_ok (g : list rpcNode) : Prop :=
  Forall rpcNode_ok g /\ Forall (fun n => length (rn_IP n) <= 16)%nat g /\ (length g <= maxNeighbors)%nat.

Lemma send_group conf d from exp g : c_priv conf = static_key d -> key_ok d -> 0 <= exp < 2 ^ 64 -> group_ok g ->
  exists dg, udp_send conf from neighborsPacket (neighbors_packet exp g) = Ret [(from, dg)] /\ carries d (neighbors_packet exp g) dg.
Proof.
  intros Hc Hd He (H1 & H2 & H3). destruct (udp_send_carries conf d from (neighbors_packet exp g) Hc Hd) as (dg & E & _ & Hdg).
  - by split; [split|constructor].
  - by apply neighbors_size.
  - by exists dg.
Qed.

Lemma relayed_cons from n ns : relayed from (n :: ns) =
  match CheckRelayIP (ua_IP from) (n_IP n) with None => nodeToRPC n :: relayed from ns | Some _ => relayed from ns end.
Proof. unfold relayed. rewrite filter_cons. by repeat case_match; simplify_eq. Qed.

Lemma neighbors_loop_spec conf d from exp ns nodes sent : c_priv conf = static_key d -> key_ok d -> 0 <= exp < 2 ^ 64 ->
  Forall node_ok ns -> group_ok nodes -> (length nodes < maxNeighbors)%nat ->
  exists groups dgs rest sent', neighbors_loop conf from exp ns nodes sent = Ret (pair from <$> dgs, rest, sent') /\
    nodes ++ relayed from ns = mjoin groups ++ rest /\ group_ok rest /\ Forall (fun g => g <> []) groups /\
    Forall2 (fun g dg => carries d (neighbors_packet exp g) dg) groups dgs /\ (length groups = 0%nat -> sent' = sent) /\
    (length groups <> 0%nat -> sent' = true).
Proof.
  intros Hc Hd He HF. revert nodes sent. induction HF as [|n ns Hn _ IH]; intros nodes sent Hg Hl; cbn [neighbors_loop].
  { exists [], [], nodes, sent. split_and!; try done. by rewrite app_nil_r. }
  rewrite relayed_cons. set (nodes' := match CheckRelayIP (ua_IP from) (n_IP n) with None => _ | Some _ => _ end).
  assert (group_ok nodes' /\ (length nodes' <= maxNeighbors)%nat /\
    nodes ++ (match CheckRelayIP (ua_IP from) (n_IP n) with None => nodeToRPC n :: relayed from ns | Some _ => relayed from ns end) =
    nodes' ++ relayed from ns) as (Hg' & Hl' & ->).
  { unfold nodes'. destruct Hg as (G1 & G2 & G3). destruct Hn as (N1 & N2 & N3 & N4). case_match; [by split_and!; try lia|].
    rewrite <- app_assoc. split_and!; try done; rewrite ?length_app; cbn; try lia. split_and!.
    - apply Forall_app. split; [done|]. by apply Forall_singleton.
    - apply Forall_app. split; [done|]. by apply Forall_singleton.
    - rewrite length_app. cbn. lia. }
  clearbody nodes'. clear Hg Hl nodes. case_decide as Hfull.
  - destruct (send_group conf d from exp nodes' Hc Hd He Hg') as (dg & Es & Hdg). unfold neighbors_packet in Es. rewrite Es, Ret_bind.
    destruct (IH [] true) as (groups & dgs & rest & sent' & E & H1 & H2 & H3 & H4 & H5 & H6).
    { by split_and!; try constructor; cbn; unfold maxNeighbors; lia. } { cbn. unfold maxNeighbors. lia. }
    rewrite E, Ret_bind. exists (nodes' :: groups), (dg :: dgs), rest, sent'. split_and!; try done.
    + cbn [app] in H1. rewrite H1. cbn. by rewrite app_assoc.
    + constructor; [|done]. intros ->. cbn in Hfull. unfold maxNeighbors in Hfull. lia.
    + by constructor.
    + intros _. destruct (decide (length groups = 0%nat)); auto.
  - apply IH; [done|]. lia.
Qed.

(** The nodes of the table. *)
Definition table_ok (tab : Table) : Prop :=
  Forall (fun n => node_ok n /\ length (n_sha n) = 32%nat) (mjoin (entries <$> t_buckets tab)).

Definition nearest_nodes (tab : Table) (target : NodeID) : list Node := near_entries (closest tab (keccak target) bucketSize).

Lemma nearest_nodes_ok tab target : table_ok tab -> Forall node_ok (nearest_nodes tab target) /\ (length (nearest_nodes tab target) <= bucketSize)%nat.
Proof.
  intros Ht. unfold nearest_nodes. destruct (closest_nearest tab (keccak target) bucketSize) as (es & -> & [_ Hl (rest & Hp & _)]).
  - unfold bucketSize. lia.
  - eapply Forall_impl; [exact Ht|]. intros n [_ Hn]. unfold hash_ok. rewrite Hn. symmetry. apply (Keccak256_eq target).
  - cbn [near_entries]. split; [|lia]. apply Forall_forall. intros n Hn. unfold table_ok in Ht.
    rewrite Forall_forall in Ht. apply Ht. rewrite Hp. apply elem_of_app. by left.
Qed.

(** The answer to a query of a bonded node: the nodes, in packets below the limit, at least one. *)
Lemma findnode_answer conf d from fromID req t : c_priv conf = static_key d -> key_ok d -> table_ok (u_table t) ->
  expired (l_now (u_loop t)) (fn_Expiration req) = false -> hasBond (l_now (u_loop t)) (u_db t) fromID = true ->
  let exp := expires (l_now (u_loop t)) in
  exists groups dgs, findnode_handle conf from fromID req t = Ret (None, t, mk_effects (pair from <$> dgs) []) /\
    mjoin groups = relayed from (nearest_nodes (u_table t) (fn_Target req)) /\
    (groups = [[]] \/ groups <> [] /\ Forall (fun g => g <> []) groups) /\
    Forall2 (fun g dg => carries d (neighbors_packet exp g) dg) groups dgs.
Proof.
  intros Hc Hd Ht Hexp Hbond exp. destruct (nearest_nodes_ok (u_table t) (fn_Target req) Ht) as [Hns _].
  unfold findnode_handle. rewrite Hexp, Hbond. cbn [negb].
  change (Keccak256Hash [fn_Target req]) with (Keccak256 [fn_Target req]). rewrite (proj1 (Keccak256_eq (fn_Target req))), Ret_bind.
  fold (nearest_nodes (u_table t) (fn_Target req)).
  destruct (neighbors_loop_spec conf d from exp (nearest_nodes (u_table t) (fn_Target req)) [] false) as
    (groups & dgs & rest & sent & E & H1 & H2 & H3 & H4 & H5 & H6); [done|done|apply expires_range|done| | |].
  { by split_and!; try constructor; cbn; unfold maxNeighbors; lia. } { cbn. unfold maxNeighbors. lia. }
  fold exp. rewrite E, Ret_bind. cbn [app] in H1.
  destruct ((0 <? length rest)%nat || negb sent) eqn:Eo.
  - destruct (send_group conf d from exp rest Hc Hd (expires_range _) H2) as (dg & Es & Hdg). unfold neighbors_packet in Es.
    rewrite Es, Ret_bind. exists (groups ++ [rest]), (dgs ++ [dg]). split_and!.
    + by rewrite fmap_app.
    + rewrite H1. rewrite join_app. cbn. by rewrite app_nil_r.
    + destruct rest as [|r rest]; cbn in Eo.
      * left. destruct groups as [|g groups]; [done|]. rewrite H6 in Eo by done. done.
      * right. split; [by destruct groups|]. apply Forall_app. split; [done|]. by apply Forall_singleton.
    + apply Forall2_app; [done|]. by constructor.
  - rewrite Ret_bind, app_nil_r. apply orb_false_elim in Eo as [Er%Nat.ltb_ge Esent]. destruct rest; [|cbn in Er; lia].
    rewrite app_nil_r in H1. exists groups, dgs. split_and!; try done. right. split; [|done].
    intros ->. rewrite H5 in Esent by done. done.
Qed.

(** ** Receiving an answer *)

Lemma reply_scan_skip nr r l1 l : Forall (fun p => matches r p = false) l1 ->
  reply_scan nr r (l1 ++ l) = ('(m, as_, l') ← reply_scan nr r l; Ret (m, as_, l1 ++ l')).
Proof.
  induction 1 as [|p l1 Hp _ IH]; cbn [app reply_scan]; [by destruct (reply_scan nr r l) as [[[? ?] ?]|e|]|].
  rewrite Hp, IH. by destruct (reply_scan nr r l) as [[[? ?] ?]|e|].
Qed.

Lemma reply_scan_nomatch nr r l : Forall (fun p => matches r p = false) l -> reply_scan nr r l = Ret (false, [], l).
Proof.
  intros H. rewrite <- (app_nil_r l) at 1. rewrite reply_scan_skip by done. cbn [reply_scan]. by rewrite Ret_bind, app_nil_r.
Qed.

(** The entry that waits, between others that do not match. *)
Lemma reply_scan_one nr r l1 p l2 done cb : Forall (fun p => matches r p = false) (l1 ++ l2) -> matches r p = true ->
  call nr (pd_callback p) (rp_data r) = Ret (done, cb) ->
  reply_scan nr r (l1 ++ p :: l2) =
  Ret (true, if done : bool then [mk_answer (pd_ptr p) None cb] else [], if done then l1 ++ l2 else l1 ++ set_callback cb p :: l2).
Proof.
  intros [H1 H2]%Forall_app Hm Hc. rewrite reply_scan_skip by done. cbn [reply_scan]. rewrite Hm, Hc, Ret_bind.
  destruct done; [done|]. by rewrite reply_scan_nomatch, Ret_bind by done.
Qed.

(** A reply to a loop whose clock runs forwards changes the queue as its scan says. *)
Lemma loop_reply_effect nr r s m as_ l : timed_inv s -> l_ended s = false -> rp_ptype r = packet_type (rp_data r) ->
  reply_scan nr r (l_plist s) = Ret (m, as_, l) ->
  exists s', loop_reply nr r s = Ret (m, s') /\ timed_inv s' /\ l_ended s' = false /\ l_now s' = l_now s /\
    l_plist s' = l /\ l_answers s' = l_answers s ++ as_.
Proof.
  intros Hv He Hr E. pose proof Hv as [Hi Ht Ha]. specialize (Ha He).
  destruct (reply_scan_spec nr r (l_plist s) Hr (li_callbacks s Hi)) as (as' & l' & E' & Hs & _).
  rewrite E in E'. injection E' as -> -> ->.
  assert (loop_reply nr r s = Ret (existsb (matches r) (l_plist s), resetTimeout
    (if existsb (matches r) (l_plist s) then set_counters 0 (l_ntpWarnTime s) (l_driftChecks s) (set_queue l' as' s) else set_queue l' as' s))) as El
    by (unfold loop_reply; by rewrite E, Ret_bind).
  eexists. split; [exact El|]. split; [by eapply (loop_reply_timed nr r)|].
  match goal with |- context [resetTimeout ?x] => set (s1 := x) in * end.
  assert (timed s1) as Ht1. { pose proof (set_queue_timed s as' l' Hs Ht) as []. unfold s1. by case_match; split. }
  destruct (resetTimeout_timed s1 Ht1) as ((tm & next & Er) & _).
  { apply (scan_timer s as' l'); [done|done|done|done|unfold s1; by case_match..]. }
  rewrite Er. unfold s1. by case_match.
Qed.

(** The nodes of an answer that the node asked may tell of. *)
Definition accepted (nr : option Netlist) (from : UDPAddr) (rns : list rpcNode) : list Node :=
  omap (fun rn => match nodeFromRPC nr from rn with Ret n => Some n | _ => None end) rns.

Lemma collect_accepted nr to rns nodes n : collect nr to rns nodes n = Ret (nodes ++ accepted nr to rns, (n + length rns)%nat).
Proof.
  revert nodes n. induction rns as [|rn rns IH]; intros nodes n; cbn [collect length]; [by rewrite app_nil_r, Nat.add_0_r|].
  pose proof (collect_no_panic nr to [rn] nodes n) as Hp. cbn [collect] in Hp. unfold accepted. cbn [omap list_omap].
  destruct (nodeFromRPC nr to rn) as [nd|e|]; [..|done]; rewrite IH; unfold accepted; f_equal; f_equal; try lia.
  by rewrite <- app_assoc.
Qed.

Lemma accepted_app nr from l k : accepted nr from (l ++ k) = accepted nr from l ++ accepted nr from k.
Proof. unfold accepted. apply omap_app. Qed.

(** Datagrams of one sender, one after the other. *)
Fixpoint deliver_all (conf : udp_conf) (from : UDPAddr) (dgs : list bytes) t : outcome (udp D) :=
  match dgs with
  | [] => Ret t
  | dg :: dgs => '(_, t, _) ← read_datagram conf from dg t; deliver_all conf from dgs t
  end.

(** [p] is the request [findnode] made of the node with key [d], with [nodes] so far; no other query of that node waits. *)
Definition query (ptr : nat) (d : Z) (deadline : Z) (addr : UDPAddr) (nodes : list Node) (n : nat) : pending :=
  mk_pending ptr (id_of d) neighborsPacket deadline (CbNeighbors addr nodes n).

Definition waits_for (id : NodeID) (ptype : Z) (p : pending) : bool := bool_decide (pd_from p = id) && (pd_ptype p =? ptype).

Lemma receive_neighbors conf d from addr exp g dg t ptr dl nodes n l1 l2 :
  carries d (neighbors_packet exp g) dg -> timed_inv (u_loop t) -> l_ended (u_loop t) = false ->
  expired (l_now (u_loop t)) exp = false -> l_plist (u_loop t) = l1 ++ query ptr d dl addr nodes n :: l2 ->
  Forall (fun p => waits_for (id_of d) neighborsPacket p = false) (l1 ++ l2) ->
  let nodes' := nodes ++ accepted (c_netrestrict conf) addr g in
  let n' := (n + length g)%nat in
  exists l, read_datagram conf from dg t = Ret (None, with_loop l t, nothing) /\ timed_inv l /\ l_ended l = false /\ l_now l = l_now (u_loop t) /\
    if decide (bucketSize <= n')%nat
    then l_plist l = l1 ++ l2 /\ l_answers l = l_answers (u_loop t) ++ [mk_answer ptr None (CbNeighbors addr nodes' n')]
    else l_plist l = l1 ++ query ptr d dl addr nodes' n' :: l2 /\ l_answers l = l_answers (u_loop t).
Proof.
  intros [Hl (hash & _ & Edec)] Hv He Hexp Hq Hno nodes' n'.
  unfold read_datagram. rewrite take_ge by lia. unfold handlePacket. rewrite Edec. unfold neighbors_packet, neighbors_handle.
  cbn [nb_Expiration]. rewrite Hexp. unfold handleReply. rewrite He.
  set (r := mk_reply (id_of d) neighborsPacket (Neighbors (mk_neighbors g exp []))).
  pose proof (reply_scan_one (c_netrestrict conf) r l1 (query ptr d dl addr nodes n) l2
    (bool_decide (bucketSize <= n')%nat) (CbNeighbors addr nodes' n') Hno) as Hs. rewrite <- Hq in Hs.
  destruct (loop_reply_effect (c_netrestrict conf) r (u_loop t) _ _ _ Hv He eq_refl (Hs
    ltac:(unfold matches; cbn; by rewrite bool_decide_true)
    ltac:(unfold r; cbn [rp_data query pd_callback call nb_Nodes]; by rewrite collect_accepted, Ret_bind)))
    as (l & El & Hv' & He' & Hn & Hp & Ha).
  rewrite El, Ret_bind, Ret_bind. exists l. split_and!; [done..|]. rewrite Hp, Ha.
  destruct (decide (bucketSize <= n')%nat) as [Hd|Hd].
  - by rewrite bool_decide_true.
  - rewrite bool_decide_false by done. by rewrite app_nil_r.
Qed.

(** The whole answer: the request ends when all nodes a bucket holds have come, and otherwise keeps what has come. *)
Lemma deliver_groups conf d from addr exp groups dgs t ptr dl nodes n l1 l2 :
  Forall2 (fun g dg => carries d (neighbors_packet exp g) dg) groups dgs -> Forall (fun g => g <> []) groups ->
  (n < bucketSize)%nat -> (n + length (mjoin groups) <= bucketSize)%nat ->
  timed_inv (u_loop t) -> l_ended (u_loop t) = false -> expired (l_now (u_loop t)) exp = false ->
  l_plist (u_loop t) = l1 ++ query ptr d dl addr nodes n :: l2 ->
  Forall (fun p => waits_for (id_of d) neighborsPacket p = false) (l1 ++ l2) ->
  let nodes' := nodes ++ accepted (c_netrestrict conf) addr (mjoin groups) in
  let n' := (n + length (mjoin groups))%nat in
  exists l, deliver_all conf from dgs t = Ret (with_loop l t) /\ timed_inv l /\
    if decide (n' = bucketSize)
    then l_plist l = l1 ++ l2 /\ l_answers l = l_answers (u_loop t) ++ [mk_answer ptr None (CbNeighbors addr nodes' n')]
    else l_plist l = l1 ++ query ptr d dl addr nodes' n' :: l2 /\ l_answers l = l_answers (u_loop t).
Proof.
  intros HF. revert t nodes n. induction HF as [|g dg groups dgs Hg HF IH]; intros t nodes n Hne Hn Hle Hv He Hexp Hq Hno.
  { cbn. exists (u_loop t). split; [by destruct t|]. split; [done|]. rewrite app_nil_r, Nat.add_0_r. by rewrite decide_False by lia. }
  apply Forall_cons in Hne as [Hg0 Hne]. change (mjoin (g :: groups)) with (g ++ mjoin groups) in *. rewrite length_app in Hle.
  destruct (receive_neighbors conf d from addr exp g dg t ptr dl nodes n l1 l2 Hg Hv He Hexp Hq Hno) as (l & E & Hv' & He' & Hnow & Hcase).
  cbn [deliver_all]. rewrite E, Ret_bind. cbn [length app]. rewrite accepted_app, app_assoc, length_app, Nat.add_assoc.
  destruct (decide (bucketSize <= n + length g)%nat) as [Hfull|Hmore].
  - assert (length (mjoin groups) = 0)%nat as H0 by lia.
    destruct groups as [|g' groups]; last first.
    { apply Forall_cons in Hne as [Hg' _]. change (mjoin (g' :: groups)) with (g' ++ mjoin groups) in H0. rewrite length_app in H0. destruct g'; [done|cbn in H0; lia]. }
    apply Forall2_nil_inv_l in HF as ->. exists l. split; [done|]. split; [done|]. cbn. rewrite app_nil_r, Nat.add_0_r. rewrite decide_True by lia. done.
  - destruct Hcase as [Hp Ha]. destruct (IH (with_loop l t) (nodes ++ accepted (c_netrestrict conf) addr g) (n + length g)%nat)
      as (l' & E' & Hv'' & Hc'); [done|lia|lia|done|done|cbn; by rewrite Hnow|done|done|].
    cbn [u_loop with_loop] in *. rewrite Ha in Hc'. exists l'. split; [exact E'|]. split; [done|]. exact Hc'.
Qed.

(** An answer, of any number of nodes up to a bucket. *)
Lemma deliver_answer conf d from addr exp groups dgs t ptr dl l1 :
  Forall2 (fun g dg => carries d (neighbors_packet exp g) dg) groups dgs -> groups = [[]] \/ groups <> [] /\ Forall (fun g => g <> []) groups ->
  (length (mjoin groups) <= bucketSize)%nat ->
  timed_inv (u_loop t) -> l_ended (u_loop t) = false -> expired (l_now (u_loop t)) exp = false ->
  l_plist (u_loop t) = l1 ++ [query ptr d dl addr [] 0] ->
  Forall (fun p => waits_for (id_of d) neighborsPacket p = false) l1 ->
  let found := accepted (c_netrestrict conf) addr (mjoin groups) in
  let n := length (mjoin groups) in
  exists l, deliver_all conf from dgs t = Ret (with_loop l t) /\ timed_inv l /\
    if decide (n = bucketSize)
    then l_plist l = l1 /\ l_answers l = l_answers (u_loop t) ++ [mk_answer ptr None (CbNeighbors addr found n)]
    else l_plist l = l1 ++ [query ptr d dl addr found n] /\ l_answers l = l_answers (u_loop t).
Proof.
  intros HF Hg Hle Hv He Hexp Hq Hno. rewrite <- (app_nil_r l1) in Hno.
  destruct Hg as [->|[_ Hg]].
  - apply Forall2_cons_inv_l in HF as (dg & dgs' & Hdg & HF & ->). apply Forall2_nil_inv_l in HF as ->.
    destruct (receive_neighbors conf d from addr exp [] dg t ptr dl [] 0 l1 [] Hdg Hv He Hexp Hq Hno) as (l & E & Hv' & _ & _ & Hc).
    cbn [deliver_all]. rewrite E, Ret_bind. exists l. by split_and!.
  - destruct (deliver_groups conf d from addr exp groups dgs t ptr dl [] 0 l1 [] HF Hg) as (l & E & Hv' & Hc); try done; [unfold bucketSize; lia|].
    exists l. split; [exact E|]. split; [done|]. cbn [Nat.add app] in Hc. by rewrite app_nil_r in Hc.
Qed.

(** ** Requests *)

Lemma packet_ok_plain p : in_range p -> packet_rest p = [] -> packet_ok p.
Proof. intros H1 H2. split; [done|]. rewrite H2. constructor. Qed.

Lemma udp_findnode_sends conf d toid toaddr target t : c_priv conf = static_key d -> key_ok d -> length target = 64%nat ->
  exists dg, udp_findnode conf toid toaddr target t =
      Ret (with_loop (loop_add toid neighborsPacket (CbNeighbors toaddr [] 0) (u_loop t)) t, [(toaddr, dg)]) /\
    carries d (Findnode (mk_findnode target (expires (l_now (u_loop t))) [])) dg.
Proof.
  intros Hc Hd Ht. pose proof (expires_range (l_now (u_loop t))) as He.
  destruct (udp_send_carries conf d toaddr (Findnode (mk_findnode target (expires (l_now (u_loop t))) []))) as (dg & E & _ & Hdg);
    [done|done|by apply packet_ok_plain|pose proof (findnode_size target _ Ht He); unfold maxPacketSize; lia|].
  exists dg. unfold udp_findnode. cbn [packet_type] in E. by rewrite E, Ret_bind.
Qed.

(** A ping, and the hash that its pong must carry. *)
Lemma udp_ping_sends conf d toid toaddr t : c_priv conf = static_key d -> key_ok d ->
  endpoint_ok (c_ourEndpoint conf) -> (length (re_IP (c_ourEndpoint conf)) <= 16)%nat ->
  exists dg hash, udp_ping conf toid toaddr t =
      Ret (with_loop (loop_add toid pongPacket (CbPong hash) (u_loop t)) t, [(toaddr, dg)]) /\
    (length dg <= 166)%nat /\ length hash = 32%nat /\
    decodePacket dg = Ret (Ping (mk_ping Version (c_ourEndpoint conf) (makeEndpoint toaddr 0) (expires (l_now (u_loop t))) []), id_of d, hash).
Proof.
  intros Hc Hd Ho Hip. destruct (makeEndpoint_ok toaddr 0) as [Hto Hto']; [lia|]. pose proof (expires_range (l_now (u_loop t))) as He.
  set (p := Ping (mk_ping Version (c_ourEndpoint conf) (makeEndpoint toaddr 0) (expires (l_now (u_loop t))) [])).
  assert (packet_size p <= 166)%nat as Hs by (by apply ping_size).
  destruct (encodePacket_decodes HB d p Hd) as (buf & hash & E & Hh & Hl & Hdec); [apply packet_ok_plain; [split; [unfold Version; cbn; lia|done]|done]|lia|].
  exists buf, hash. unfold udp_ping. cbv zeta. fold p. rewrite Hc. change (packet_type p) with pingPacket in E. rewrite E, Ret_bind.
  split_and!; try done. lia.
Qed.

Lemma send_pong conf d from tcp mac exp : c_priv conf = static_key d -> key_ok d -> 0 <= tcp < 2 ^ 16 -> length mac = 32%nat -> 0 <= exp < 2 ^ 64 ->
  exists dg, udp_send conf from pongPacket (Pong (mk_pong (makeEndpoint from tcp) mac exp [])) = Ret [(from, dg)] /\
    (length dg <= 166)%nat /\ carries d (Pong (mk_pong (makeEndpoint from tcp) mac exp [])) dg.
Proof.
  intros Hc Hd Ht Hm He. destruct (makeEndpoint_ok from tcp Ht) as [H1 H2].
  pose proof (pong_size (makeEndpoint from tcp) mac exp H1 H2 Hm He) as Hs.
  destruct (udp_send_carries conf d from (Pong (mk_pong (makeEndpoint from tcp) mac exp []))) as (dg & E & Hl & Hdg);
    [done|done|by apply packet_ok_plain|unfold maxPacketSize; lia|].
  exists dg. split; [exact E|]. split; [lia|done].
Qed.

Lemma loop_reply_returns nr r s : loop_inv s -> l_ended s = false -> rp_ptype r = packet_type (rp_data r) ->
  exists m s', loop_reply nr r s = Ret (m, s') /\ loop_inv s'.
Proof.
  intros Hi He Hr. destruct (reply_scan_spec nr r (l_plist s) Hr (li_callbacks s Hi)) as (as_ & l' & E & _).
  destruct (loop_reply nr r s) as [[m s']|e|] eqn:El; unfold loop_reply in El; rewrite E, Ret_bind in El; [|done..].
  exists m, s'. split; [done|]. eapply (loop_reply_inv nr r m s); [done..|]. unfold loop_reply. by rewrite E, Ret_bind.
Qed.

Lemma handleReply_returns conf from req t : loop_inv (u_loop t) ->
  exists m l, handleReply conf from (packet_type req) req t = Ret (m, with_loop l t) /\ loop_inv l.
Proof.
  intros Hi. unfold handleReply. destruct (l_ended (u_loop t)) eqn:He; [exists false, (u_loop t); by destruct t|].
  destruct (loop_reply_returns (c_netrestrict conf) (mk_reply from (packet_type req) req) (u_loop t) Hi He eq_refl) as (m & l & -> & Hl).
  rewrite Ret_bind. by exists m, l.
Qed.

(** What one datagram of [sender] makes a node do. *)
Record handled (t : udp D) (sender : NodeID) (from : UDPAddr) (bonded : bool) (r : option error * udp D * effects) : Prop := {
  hd_db : u_db r.1.2 = u_db t;
  hd_table : u_table r.1.2 = u_table t;
  hd_loop : loop_inv (u_loop r.1.2);
  hd_sent : Forall (fun out => out.1 = from /\ (length out.2 < maxPacketSize)%nat) (e_sent r.2);
  hd_small : bonded = false -> (length (e_sent r.2) <= 1)%nat /\ Forall (fun out => length out.2 <= 166)%nat (e_sent r.2);
  hd_bonds : e_bonds r.2 = [] \/ exists tcp, e_bonds r.2 = [(sender, from, tcp)]
}.

Lemma handled_nothing t sender from bonded e l : loop_inv l -> handled t sender from bonded (e, with_loop l t, nothing).
Proof. intros Hl. split; try done; [|by left]. intros _. split; [cbn; lia|constructor]. Qed.

Lemma handled_nothing' t sender from bonded e : loop_inv (u_loop t) -> handled t sender from bonded (e, t, nothing).
Proof. intros Hl. pose proof (handled_nothing t sender from bonded e (u_loop t) Hl) as H. by destruct t. Qed.

(** The node that has signed a datagram, and whether there is a bond with it. *)
Definition sender (buf : bytes) : NodeID := match decodePacket buf with Ret (_, id, _) => id | _ => [] end.
Definition sender_bonded (buf : bytes) t : bool :=
  match decodePacket buf with Ret (_, id, _) => hasBond (l_now (u_loop t)) (u_db t) id | _ => false end.

Lemma handlePacket_handled conf d from buf t : c_priv conf = static_key d -> key_ok d -> loop_inv (u_loop t) -> table_ok (u_table t) ->
  Z.of_nat (length buf) <= maxAlloc ->
  exists r, handlePacket conf from buf t = Ret r /\ handled t (sender buf) from (sender_bonded buf t) r.
Proof.
  intros Hc Hd Hi Ht Hbuf. unfold handlePacket, sender, sender_bonded.
  destruct (decodePacket_cases buf Hbuf) as [(e & E & _)|(p & id & sig & data & pub & E & Eb & Hs & Hr & _)]; rewrite E.
  { eexists. split; [done|]. by apply handled_nothing'. }
  pose proof (expires_range (l_now (u_loop t))) as Hexp.
  destruct p as [p|p|p|p]; cbn [in_range] in Hr.
  - unfold ping_handle. case_match; [eexists; split; [done|]; by apply handled_nothing'|].
    destruct (send_pong conf d from (re_TCP (ping_From p)) (keccak (sig ++ data)) (expires (l_now (u_loop t))) Hc Hd) as (dg & -> & Hl & Hdg);
      [apply Hr|apply Keccak256_eq|done|]. rewrite Ret_bind.
    destruct (handleReply_returns conf id (Ping p) t Hi) as (m & l & El & Hl'). cbn [packet_type] in El. rewrite El, Ret_bind.
    eexists. split; [done|]. split; try done; cbn.
    + apply Forall_singleton. split; [done|]. cbn. unfold maxPacketSize. lia.
    + intros _. split; [lia|]. by apply Forall_singleton.
    + destruct m; [by left|right; by eexists].
  - unfold pong_handle. case_match; [eexists; split; [done|]; by apply handled_nothing'|].
    destruct (handleReply_returns conf id (Pong p) t Hi) as (m & l & El & Hl'). cbn [packet_type] in El. rewrite El, Ret_bind.
    eexists. split; [done|]. by apply handled_nothing.
  - destruct (expired (l_now (u_loop t)) (fn_Expiration p)) eqn:Ex.
    { unfold findnode_handle. rewrite Ex. eexists. split; [done|]. by apply handled_nothing'. }
    destruct (hasBond (l_now (u_loop t)) (u_db t) id) eqn:Eb'.
    + destruct (findnode_answer conf d from id p t Hc Hd Ht Ex Eb') as (groups & dgs & -> & _ & _ & HF).
      eexists. split; [done|]. split; try done; cbn; [|by left].
      apply Forall_fmap. clear -HF. induction HF as [|g dg groups dgs [Hg _] _ IH]; constructor; auto.
    + unfold findnode_handle. rewrite Ex, Eb'. cbn [negb]. eexists. split; [done|]. by apply handled_nothing'.
  - unfold neighbors_handle. case_match; [eexists; split; [done|]; by apply handled_nothing'|].
    destruct (handleReply_returns conf id (Neighbors p) t Hi) as (m & l & El & Hl'). cbn [packet_type] in El. rewrite El, Ret_bind.
    eexists. split; [done|]. by apply handled_nothing.
Qed.

(** The reader returns only when a read fails for good. *)
Definition read_ends (rs : list read_result) : bool :=
  existsb (fun r => match r with ReadFailed false => true | _ => false end) rs.

Lemma read_length (dg : bytes) : Z.of_nat (length (take maxPacketSize dg)) <= maxAlloc.
Proof. rewrite length_take. unfold maxPacketSize. lia. Qed.

Lemma readLoop_returns conf d unhandled rs t : c_priv conf = static_key d -> key_ok d -> loop_inv (u_loop t) -> table_ok (u_table t) ->
  exists t' outs, readLoop conf unhandled rs t = Ret (t', outs, read_ends rs).
Proof.
  intros Hc Hd. revert t. induction rs as [|[[]|from dg] rs IH]; intros t Hi Ht; cbn [readLoop read_ends existsb orb]; [by do 2 eexists|by apply IH|by do 2 eexists|].
  destruct (handlePacket_handled conf d from (take maxPacketSize dg) t Hc Hd Hi Ht (read_length dg)) as ([[err t1] eff] & E & [_ H2 H3 _ _ _]).
  unfold read_datagram. rewrite E, Ret_bind. cbn in H2, H3.
  destruct (IH t1) as (t' & outs & ->); [done|by rewrite H2|]. rewrite Ret_bind. by do 2 eexists.
Qed.

End DiscoveryFacts.

(** ** The theorems *)

Section Theorems.
Context {C : EllipticCurve} {G : CurveGroup C} {S : SecpC} {L : SecpLaws C G S} `{HX : Xor} {D : Type} `{HD : LevelDB D} {HL : LevelDBLaws D}.
Implicit Types t : udp D.

(** A node that is running: its key, its endpoint, its queue as the loop can have made it, and its table. *)
Record node_running (conf : udp_conf) (d : Z) t : Prop := {
  nr_bits : Params_BitSize = 256;
  nr_priv : c_priv conf = static_key d;
  nr_key : key_ok d;
  nr_endpoint : endpoint_ok (c_ourEndpoint conf) /\ (length (re_IP (c_ourEndpoint conf)) <= 16)%nat;
  nr_loop : exists start, rtc (loop_step true (c_netrestrict conf)) (new_loop start) (u_loop t);
  nr_alive : l_ended (u_loop t) = false;
  nr_clock : time_ok (l_now (u_loop t));
  nr_table : table_ok (u_table t)
}.

Lemma running_timed conf d t : node_running conf d t -> timed_inv (u_loop t).
Proof. intros H. destruct (nr_loop _ _ _ H) as [start Hs]. by eapply loop_reachable_timed. Qed.

(** The database [db'] differs from [db] only in what is known of [id]. *)
Definition only_about (id : NodeID) (db db' : D) : Prop := forall k, (forall f, k <> makeKey id f) -> lvl_Get db' k = lvl_Get db k.

Lemma only_about_refl id db : only_about id db db.
Proof. by intros k _. Qed.

Lemma only_about_store id db0 db f n : only_about id db0 db -> only_about id db0 (storeInt64 db (makeKey id f) n).
Proof. intros H k Hk. unfold storeInt64. rewrite Get_Put, decide_False by apply Hk. by apply H. Qed.

(** Whatever comes of a bonding process, it returns and touches nothing but what is known of its node; without a record and
    without a pong the node does not get into the table. *)
Lemma bond_frame initDone pinged id addr tcp now now' res other db tab : slices db ->
  exists n e db' tab', bond initDone pinged id addr tcp now now' res other db tab = Ret (n, e, db', tab') /\ only_about id db db' /\
    (lvl_Get db (makeKey id nodeDBDiscoverRoot) = None -> res <> None -> other = None -> n = None /\ tab' = tab).
Proof.
  intros Hs. unfold bond. case_bool_decide; [do 4 eexists; split; [done|]; by split; [apply only_about_refl|]|].
  destruct (pinged && negb initDone); [do 4 eexists; split; [done|]; by split; [apply only_about_refl|]|].
  destruct (db_node_returns db id Hs) as [node En]. rewrite En, Ret_bind.
  assert (lvl_Get db (makeKey id nodeDBDiscoverRoot) = None -> node = None) as Hnode.
  { intros Eg. unfold db_node in En. rewrite Eg in En. by injection En as <-. }
  set (need := (0 <? findFails db id) || _). clearbody need. destruct need; [destruct other as [[err n]|]|].
  - rewrite !Ret_bind. destruct err as [err|]; [destruct node|destruct n]; do 4 eexists; (split; [done|]); (split; [|by intros]);
      by repeat apply only_about_store; apply only_about_refl.
  - unfold pingpong, Table_ping. destruct res as [err|].
    + rewrite !Ret_bind. destruct node as [n|]; do 4 eexists; (split; [done|]); split.
      1, 3: by repeat apply only_about_store; apply only_about_refl.
      * intros Hg. by specialize (Hnode Hg).
      * done.
    + unfold NewNode. change (Keccak256Hash [id]) with (Keccak256 [id]). rewrite (proj1 (Keccak256_eq id)), !Ret_bind.
      do 4 eexists. split; [done|]. split; [by repeat apply only_about_store; apply only_about_refl|by intros].
  - rewrite Ret_bind. destruct node as [n|]; do 4 eexists; (split; [done|]); split.
    + by apply only_about_store, only_about_refl.
    + intros Hg. by specialize (Hnode Hg).
    + apply only_about_refl.
    + done.
Qed.

(** The bonding process that a ping starts writes at most a ping, to the same address. *)
Lemma bond_begin_small conf d initDone busy id addr t : Params_BitSize = 256 -> c_priv conf = static_key d -> key_ok d ->
  endpoint_ok (c_ourEndpoint conf) -> (length (re_IP (c_ourEndpoint conf)) <= 16)%nat -> slices (u_db t) ->
  exists t' out, bond_begin conf initDone busy id addr t = Ret (t', out) /\ only_about id (u_db t) (u_db t') /\
    (lvl_Get (u_db t) (makeKey id nodeDBDiscoverRoot) = None -> u_table t' = u_table t) /\
    (length out <= 1)%nat /\ Forall (fun out => out.1 = addr /\ (length out.2 <= 166)%nat) out.
Proof.
  intros HB Hc Hd Ho Hip Hs.
  assert (exists t' out, Ret (t, []) = Ret (t', out) :> outcome (udp D * list (UDPAddr * bytes)) /\ only_about id (u_db t) (u_db t') /\
    (lvl_Get (u_db t) (makeKey id nodeDBDiscoverRoot) = None -> u_table t' = u_table t) /\
    (length out <= 1)%nat /\ Forall (fun out => out.1 = addr /\ (length out.2 <= 166)%nat) out) as Hstay.
  { do 2 eexists. split; [done|]. split_and!; [apply only_about_refl|done|cbn; lia|constructor]. }
  unfold bond_begin. case_bool_decide; [done|]. destruct initDone; cbn [negb]; [|done].
  destruct (db_node_returns (u_db t) id Hs) as [node En]. rewrite En, Ret_bind. case_match; [destruct busy; [done|]|].
  - destruct (udp_ping_sends HB conf d id addr (mk_udp (u_loop t) (updateLastPing (u_db t) id (l_now (u_loop t))) (u_table t)) Hc Hd Ho Hip)
      as (dg & hash & -> & Hl & _).
    do 2 eexists. split; [done|]. split_and!; [apply only_about_store, only_about_refl|done|cbn; lia|by apply Forall_singleton].
  - destruct node as [n|]; [|done]. do 2 eexists. split; [done|].
    split_and!; [apply only_about_store, only_about_refl| |cbn; lia|constructor].
    intros Eg. unfold db_node in En. by rewrite Eg in En.
Qed.

(** C33: No datagram stops or misuses a node: whatever arrives, reading it returns, without a panic and without an endless loop, and so does
    what the bonding process that a ping starts does at once, its own ping included.  All that is written by the
    two goes to the address the datagram came from and stays below the limit of 1280 bytes; a sender without a bond gets
    at most two packets, the pong and the ping, of at most 166 bytes each, so that a forged address cannot be used to send much to a victim.
    Reading changes neither the table nor the database; the bonding process, to its end and whatever comes of it, changes
    in the database only what is known of the sender, and a sender that has no record and does not answer the ping does not get into the table. *)
Theorem datagrams_safe conf d from dg t (initDone busy : bool) : node_running conf d t -> slices (u_db t) ->
  let buf := take maxPacketSize dg in
  exists err t1 eff t2 pings, read_datagram conf from dg t = Ret (err, t1, eff) /\
    begin_bonds conf initDone busy (e_bonds eff) t1 = Ret (t2, pings) /\
    Forall (fun out => out.1 = from /\ (length out.2 < maxPacketSize)%nat) (e_sent eff ++ pings) /\
    (sender_bonded buf t = false ->
     (length (e_sent eff ++ pings) <= 2)%nat /\ Forall (fun out => length out.2 <= 166)%nat (e_sent eff ++ pings)) /\
    u_db t1 = u_db t /\ u_table t1 = u_table t /\ only_about (sender buf) (u_db t) (u_db t2) /\
    (lvl_Get (u_db t) (makeKey (sender buf) nodeDBDiscoverRoot) = None -> u_table t2 = u_table t) /\
    (forall id addr tcp, (id, addr, tcp) ∈ e_bonds eff -> id = sender buf /\
     forall now now' res other, exists n e db' tab',
       bond initDone true id addr tcp now now' res other (u_db t) (u_table t) = Ret (n, e, db', tab') /\ only_about id (u_db t) db' /\
       (lvl_Get (u_db t) (makeKey id nodeDBDiscoverRoot) = None -> res <> None -> other = None -> n = None /\ tab' = u_table t)) /\
    forall unhandled rs, exists t3 outs, readLoop conf unhandled rs t = Ret (t3, outs, read_ends rs).
Proof.
  intros Hr Hs buf. pose proof (tv_inv _ (running_timed _ _ _ Hr)) as Hi. pose proof (nr_bits _ _ _ Hr) as HB.
  destruct (handlePacket_handled HB conf d from buf t) as ([[err t1] eff] & E & [H1 H2 H3 H4 H5 H6]); [apply Hr..|done|apply Hr|apply read_length|].
  change (handlePacket conf from buf t) with (read_datagram conf from dg t) in E. clearbody buf. cbn in H1, H2, H3, H4, H5, H6.
  assert (exists t2 pings, begin_bonds conf initDone busy (e_bonds eff) t1 = Ret (t2, pings) /\ only_about (sender buf) (u_db t) (u_db t2) /\
    (lvl_Get (u_db t) (makeKey (sender buf) nodeDBDiscoverRoot) = None -> u_table t2 = u_table t) /\
    (length pings <= 1)%nat /\ Forall (fun out => out.1 = from /\ (length out.2 <= 166)%nat) pings) as (t2 & pings & Eb & Hdb & Htab & Hl & Hp).
  { rewrite <- H1, <- H2. destruct H6 as [-> |[tcp ->]]; cbn [begin_bonds].
    - do 2 eexists. split; [done|]. split_and!; [apply only_about_refl|done|cbn; lia|constructor].
    - destruct (bond_begin_small conf d initDone busy (sender buf) from t1 HB) as (t2 & out & -> & H); [apply Hr..|by rewrite H1|].
      rewrite !Ret_bind, app_nil_r. by exists t2, out. }
  exists err, t1, eff, t2, pings. split; [exact E|]. split; [exact Eb|]. split; [|split].
  - apply Forall_app. split; [done|]. eapply Forall_impl; [exact Hp|]. cbn. intros out [? ?]. split; [done|]. unfold maxPacketSize. lia.
  - intros Hb. destruct (H5 Hb) as [H5a H5b]. rewrite length_app. split; [lia|]. apply Forall_app. split; [done|].
    eapply Forall_impl; [exact Hp|]. by intros out [_ ?].
  - split_and!; [done..| |].
    + intros id addr tcp Hin. assert (id = sender buf) as -> by (destruct H6 as [H6|[? H6]]; rewrite H6 in Hin; set_solver).
      split; [done|]. intros. by apply bond_frame.
    + intros unhandled rs. apply (readLoop_returns HB conf d); [apply Hr..|done|apply Hr].
Qed.

(** What [bond] does when the pong has come. *)
Lemma bond_answered initDone pinged id addr tcpPort now now' db tab : id <> n_ID (t_self tab) -> pinged && negb initDone = false ->
  valid_id id -> time_ok now -> time_ok now' -> slices db ->
  (0 < findFails db id \/ nodeDBNodeExpiration < now - bondTime db id) ->
  exists n db', bond initDone pinged id addr tcpPort now now' None None db tab = Ret (Some n, None, db', Table_add now' n tab) /\
    n_ID n = id /\ n_IP n = default (ua_IP addr) (To4 (ua_IP addr)) /\ n_UDP n = uint16 (ua_Port addr) /\ n_TCP n = tcpPort /\
    findFails db' id = 0 /\ (forall later, hasBond later db' id = (later - Unix now' * Second <? nodeDBNodeExpiration)) /\
    forall other, valid_id other -> other <> id -> bondTime db' other = bondTime db other /\ findFails db' other = findFails db other.
Proof.
  intros Hself Hinit Hi Hn Hn' Hs Hneed. unfold bond. rewrite bool_decide_false, Hinit by done.
  destruct (db_node_returns db id Hs) as [node ->]. rewrite Ret_bind.
  assert ((0 <? findFails db id) || (nodeDBNodeExpiration <? now - bondTime db id) = true) as ->.
  { apply orb_true_intro. destruct Hneed; [left|right]; by apply Z.ltb_lt. }
  unfold pingpong, Table_ping, NewNode. change (Keccak256Hash [id]) with (Keccak256 [id]). rewrite (proj1 (Keccak256_eq id)), !Ret_bind.
  do 2 eexists. split; [done|]. split_and!; try done.
  - unfold findFails, updateFindFails. rewrite fetch_store by lia. by rewrite decide_True.
  - intros later. unfold hasBond, bondTime, updateFindFails, updateBondTime, updateLastPing.
    rewrite fetch_store, decide_False by (lia || by apply makeKey_field).
    rewrite fetch_store, decide_True by (by apply Unix_range || done). done.
  - intros other Ho Hne. unfold bondTime, findFails, updateFindFails, updateBondTime, updateLastPing.
    rewrite !fetch_store by (lia || by apply Unix_range). by rewrite !decide_False by (by apply makeKey_id).
Qed.

(** C32: Bonding works end to end: the ping that a node writes is answered by the node it names with one packet to the address the ping came
    from; that packet, back at the first node, answers exactly the request that waits for it, with no error; and the process that bonds then
    puts the node into the table and the database, so that queries of the node are answered for a day.  The
    packets pass through the signatures, the hashes and the encoding, and the clocks of the nodes may differ by nineteen seconds. *)
Theorem nodes_bond confA a tA addrA confB b tB addrB tcpPort later :
  node_running confA a tA -> node_running confB b tB ->
  Forall (fun p => waits_for (id_of b) pongPacket p = false) (l_plist (u_loop tA)) ->
  Z.abs (l_now (u_loop tA) - l_now (u_loop tB)) <= 19 * Second ->
  valid_id (id_of b) -> id_of b <> n_ID (t_self (u_table tA)) -> slices (u_db tA) ->
  nodeDBNodeExpiration < l_now (u_loop tA) - bondTime (u_db tA) (id_of b) -> time_ok later -> later <= l_now (u_loop tA) + nodeDBNodeExpiration - Second ->
  exists tA' q tB' reply bonds l hash, udp_ping confA (id_of b) addrB tA = Ret (tA', [(addrB, q)]) /\
    read_datagram confB addrA q tB = Ret (None, tB', mk_effects [(addrA, reply)] bonds) /\
    read_datagram confA addrB reply tA' = Ret (None, with_loop l tA', nothing) /\
    l_plist l = l_plist (u_loop tA) /\
    l_answers l = l_answers (u_loop tA) ++ [mk_answer (l_nextPtr (u_loop tA)) None (CbPong hash)] /\
    exists n db', bond true false (id_of b) addrB tcpPort (l_now (u_loop tA)) (l_now l) None None (u_db tA) (u_table tA) =
        Ret (Some n, None, db', Table_add (l_now l) n (u_table tA)) /\
      n_ID n = id_of b /\ n_UDP n = uint16 (ua_Port addrB) /\ hasBond later db' (id_of b) = true.
Proof.
  intros HA HB Hno Hclock Hid Hself Hsl Hage Hlater Hday. pose proof (nr_bits _ _ _ HA) as Hbits.
  pose proof (running_timed _ _ _ HA) as HvA. pose proof (nr_clock _ _ _ HA) as HcA. pose proof (nr_clock _ _ _ HB) as HcB.
  destruct (udp_ping_sends Hbits confA a (id_of b) addrB tA) as (q & hash & Eq & Hq166 & Hh & Edec); [apply HA..|].
  assert (length q < maxPacketSize)%nat as Hq by (unfold maxPacketSize; lia).
  destruct (loop_add_effect (id_of b) (CbPong hash) (u_loop tA) HvA (nr_alive _ _ _ HA)) as (Hv1 & He1 & Hn1 & Ha1 & Hp1).
  cbn [callback_type] in Hv1, He1, Hn1, Ha1, Hp1. set (l1 := loop_add (id_of b) pongPacket (CbPong hash) (u_loop tA)) in *.
  destruct (handleReply_returns confB (id_of a) (Ping (mk_ping Version (c_ourEndpoint confA) (makeEndpoint addrB 0) (expires (l_now (u_loop tA))) [])) tB)
    as (m & lB & ElB & _); [apply (running_timed _ _ _ HB)|].
  destruct (send_pong Hbits confB b addrA (re_TCP (c_ourEndpoint confA)) hash (expires (l_now (u_loop tB)))) as (dg & Es & Hl & Hdg & hash' & _ & Edec');
    [apply HB..|apply (nr_endpoint _ _ _ HA)|done|apply expires_range|].
  set (r := mk_reply (id_of b) pongPacket (Pong (mk_pong (makeEndpoint addrA (re_TCP (c_ourEndpoint confA))) hash (expires (l_now (u_loop tB))) []))).
  assert (Forall (fun p => matches r p = false) (l_plist (u_loop tA) ++ [])) as Hno' by (by rewrite app_nil_r).
  pose proof (reply_scan_one (c_netrestrict confA) r (l_plist (u_loop tA))
    (mk_pending (l_nextPtr (u_loop tA)) (id_of b) pongPacket (l_now (u_loop tA) + respTimeout) (CbPong hash)) [] true (CbPong hash) Hno') as Hs.
  destruct (loop_reply_effect (c_netrestrict confA) r l1 true [mk_answer (l_nextPtr (u_loop tA)) None (CbPong hash)] (l_plist (u_loop tA)) Hv1 He1 eq_refl)
    as (l & El & _ & _ & Hn & Hp & Ha).
  { rewrite Hp1, Hs; [by rewrite app_nil_r|unfold matches; cbn; by rewrite bool_decide_true|].
    cbn. by rewrite bool_decide_true. }
  destruct (bond_answered true false (id_of b) addrB tcpPort (l_now (u_loop tA)) (l_now l) (u_db tA) (u_table tA)) as
    (n & db' & Eb & Hnid & _ & Hnudp & _ & _ & Hbond & _); [done|done|done|done|by rewrite Hn, Hn1|done|by right|].
  exists (with_loop l1 tA), q, (with_loop lB tB), dg, (if m then [] else [(id_of a, addrA, re_TCP (c_ourEndpoint confA))]), l, hash.
  split; [exact Eq|]. split.
  { unfold read_datagram. rewrite take_ge by lia. unfold handlePacket. rewrite Edec. unfold ping_handle. cbn [ping_Expiration ping_From].
    rewrite expired_expires by (done || lia). rewrite Es, Ret_bind. cbn [packet_type] in ElB. by rewrite ElB, Ret_bind. }
  split.
  { unfold read_datagram. rewrite take_ge by lia. unfold handlePacket. rewrite Edec'. unfold pong_handle. cbn [pong_Expiration u_loop with_loop].
    rewrite Hn1, expired_expires by (done || lia). unfold handleReply. cbn [u_loop with_loop]. rewrite He1.
    fold r. by rewrite El, !Ret_bind. }
  split; [done|]. split; [by rewrite Ha, Ha1|]. exists n, db'. split; [exact Eb|]. split; [done|]. split; [done|].
  rewrite Hbond. apply Z.ltb_lt. rewrite Hn, Hn1. unfold Unix.
  pose proof (Z.mod_pos_bound (l_now (u_loop tA)) Second ltac:(done)). pose proof (Z.div_mod (l_now (u_loop tA)) Second ltac:(done)). lia.
Qed.

(** C31: A query works end to end: the query that a node writes makes the node it names, if it has a bond, write packets below 1280 bytes
    that carry, in order, exactly those of the sixteen nearest nodes to the target in its table whose address may be relayed to the asking
    one; back at the asking node they answer exactly the request that waits: with all sixteen it is completed, with
    fewer it keeps them until it times out, and of the nodes told the asking node takes, in order, exactly
    those that pass its own checks. *)
Theorem query_answered confA a tA addrA confB b tB addrB target :
  node_running confA a tA -> node_running confB b tB -> length target = 64%nat ->
  Forall (fun p => waits_for (id_of b) neighborsPacket p = false) (l_plist (u_loop tA)) ->
  Z.abs (l_now (u_loop tA) - l_now (u_loop tB)) <= 19 * Second ->
  hasBond (l_now (u_loop tB)) (u_db tB) (id_of a) = true ->
  let told := relayed addrA (nearest_nodes (u_table tB) target) in
  let found := accepted (c_netrestrict confA) addrB told in
  exists tA' q dgs l, udp_findnode confA (id_of b) addrB target tA = Ret (tA', [(addrB, q)]) /\
    read_datagram confB addrA q tB = Ret (None, tB, mk_effects (pair addrA <$> dgs) []) /\
    Forall (fun dg => length dg < maxPacketSize)%nat dgs /\
    deliver_all confA addrB dgs tA' = Ret (with_loop l tA') /\
    if decide (length told = bucketSize)
    then l_plist l = l_plist (u_loop tA) /\
      l_answers l = l_answers (u_loop tA) ++ [mk_answer (l_nextPtr (u_loop tA)) None (CbNeighbors addrB found bucketSize)]
    else l_answers l = l_answers (u_loop tA) /\
      l_plist l = l_plist (u_loop tA) ++
        [query (l_nextPtr (u_loop tA)) b (l_now (u_loop tA) + respTimeout) addrB found (length told)].
Proof.
  intros HA HB Ht Hno Hclock Hbond told found. pose proof (nr_bits _ _ _ HA) as Hbits.
  pose proof (running_timed _ _ _ HA) as HvA. pose proof (nr_clock _ _ _ HA) as HcA. pose proof (nr_clock _ _ _ HB) as HcB.
  destruct (udp_findnode_sends Hbits confA a (id_of b) addrB target tA) as (q & Eq & Hq & hash & _ & Edec); [apply HA..|done|].
  destruct (loop_add_effect (id_of b) (CbNeighbors addrB [] 0) (u_loop tA) HvA (nr_alive _ _ _ HA)) as (Hv1 & He1 & Hn1 & Ha1 & Hp1).
  cbn [callback_type] in Hv1, He1, Hn1, Ha1, Hp1. set (l1 := loop_add (id_of b) neighborsPacket (CbNeighbors addrB [] 0) (u_loop tA)) in *.
  destruct (findnode_answer Hbits confB b addrA (id_of a) (mk_findnode target (expires (l_now (u_loop tA))) []) tB)
    as (groups & dgs & Ef & Hj & Hg & HF); [apply HB..|cbn; by apply expired_expires; try lia|done|]. cbn [fn_Target] in Hj. fold told in Hj.
  assert (length told <= bucketSize)%nat as Hle.
  { unfold told, relayed. rewrite length_fmap. etransitivity; [apply length_filter|]. by apply nearest_nodes_ok, HB. }
  destruct (deliver_answer confA b addrB addrB (expires (l_now (u_loop tB))) groups dgs (with_loop l1 tA) (l_nextPtr (u_loop tA))
    (l_now (u_loop tA) + respTimeout) (l_plist (u_loop tA)) HF Hg) as (l & Ed & _ & Hc); [by rewrite Hj|done|done| |done|done|].
  { cbn [u_loop with_loop]. rewrite Hn1. apply expired_expires; [done|done|lia]. }
  exists (with_loop l1 tA), q, dgs, l. split; [exact Eq|]. split.
  { unfold read_datagram. rewrite take_ge by lia. unfold handlePacket. by rewrite Edec. }
  split; [clear -HF; induction HF as [|g dg groups dgs [H _] _ IH]; by constructor|]. split; [exact Ed|].
  rewrite Hj in Hc. cbn [u_loop with_loop] in Hc. rewrite Ha1 in Hc. fold found in Hc.
  destruct (decide (length told = bucketSize)) as [E|_]; [by rewrite E in Hc|]. by destruct Hc.
Qed.

End Theorems.

(** ** Witnesses *)

#[local] Existing Instance smallC.
#[local] Existing Instance small_group.
#[local] Existing Instance generic_xor.
#[local] Existing Instance toy_secp.
#[local] Existing Instance toy_secp_laws.

Abbreviation db_type := (gmap bytes bytes).

Definition demo_now : Z := 1700000000 * Second.
Definition demo_addr (k : Z) : UDPAddr := mk_addr (u8 <$> [52; 1; 2; k]) 30303.
Definition demo_conf (d : Z) : udp_conf := mk_conf (@static_key smallC small_group d) None (makeEndpoint (demo_addr d) 30303).
Definition demo_peer (d : Z) : Node :=
  mk_node (ua_IP (demo_addr d)) 30303 30303 (@id_of smallC small_group d) (keccak (@id_of smallC small_group d)) 0.
Definition demo_table_of (d : Z) (ns : list Node) : Table :=
  mk_table [mk_bucket ns [] (mk_nets 24 2 ∅)] (mk_nets 24 10 ∅) (demo_peer d).
Definition demo_udp (d : Z) (ns : list Node) (db : db_type) : udp db_type :=
  mk_udp (new_loop demo_now) db (demo_table_of d ns).

Lemma demo_peer_ok d : node_ok (demo_peer d) /\ length (n_sha (demo_peer d)) = 32%nat.
Proof.
  split; [|apply Keccak256_eq]. unfold node_ok, demo_peer. cbn [n_UDP n_TCP n_ID n_IP]. split_and!; try lia.
  - by apply length_id_of.
  - cbn. lia.
Qed.

Lemma demo_running d ns db : 0 < d < 31 -> (forall n, n ∈ ns -> exists k, n = demo_peer k) -> node_running (demo_conf d) d (demo_udp d ns db).
Proof.
  intros Hd Hns. split.
  - reflexivity.
  - reflexivity.
  - unfold key_ok. change (@Params_N smallC) with 31. lia.
  - apply makeEndpoint_ok. lia.
  - exists demo_now. apply rtc_refl.
  - reflexivity.
  - unfold time_ok. vm_compute. split; congruence.
  - unfold table_ok. cbn. rewrite app_nil_r. apply Forall_forall. intros n Hn. destruct (Hns n Hn) as [k ->]. apply demo_peer_ok.
Qed.

Lemma demo_running_alone d db : 0 < d < 31 -> node_running (demo_conf d) d (demo_udp d [] db).
Proof. intros Hd. apply demo_running; [done|]. by intros n Hn%not_elem_of_nil. Qed.

Lemma empty_slices : slices (∅ : db_type).
Proof. intros k v E. cbn in E. by rewrite lookup_empty in E. Qed.

(** The ping of the node with key 6, which has no bond: it gets a pong and a ping. *)
Definition demo_ping : bytes :=
  match udp_ping (demo_conf 6) (@id_of smallC small_group 5) (demo_addr 5) (demo_udp 6 [] ∅) with
  | Ret (_, [(_, dg)]) => dg
  | _ => []
  end.

Lemma datagrams_safe_witness : exists err t1 eff t2 pings,
  read_datagram (demo_conf 5) (demo_addr 6) demo_ping (demo_udp 5 [] ∅) = Ret (err, t1, eff) /\
  begin_bonds (demo_conf 5) true false (e_bonds eff) t1 = Ret (t2, pings) /\
  Forall (fun out => out.1 = demo_addr 6 /\ (length out.2 < maxPacketSize)%nat) (e_sent eff ++ pings) /\
  (length (e_sent eff ++ pings) <= 2)%nat.
Proof.
  destruct (datagrams_safe (demo_conf 5) 5 (demo_addr 6) demo_ping (demo_udp 5 [] ∅) true false)
    as (err & t1 & eff & t2 & pings & E1 & E2 & H1 & H2 & _).
  - apply demo_running_alone. lia.
  - exact empty_slices.
  - exists err, t1, eff, t2, pings. split; [exact E1|]. split; [exact E2|]. split; [exact H1|]. apply H2. vm_compute. reflexivity.
Defined.

(** Both packets are really sent. *)
Example demo_ping_answered :
  match read_datagram (demo_conf 5) (demo_addr 6) demo_ping (demo_udp 5 [] ∅) with
  | Ret (None, t1, eff) =>
      match begin_bonds (demo_conf 5) true false (e_bonds eff) t1 with
      | Ret (t2, pings) => (length (e_sent eff), length pings, length (l_plist (u_loop t2)))
      | _ => (0, 0, 0)%nat
      end
  | _ => (0, 0, 0)%nat
  end = (1, 1, 1)%nat.
Proof. vm_compute. reflexivity. Qed.

Lemma demo_id_of_valid d : bool_decide (@id_of smallC small_group d = nodeDBNilNodeID) = false -> valid_id (@id_of smallC small_group d).
Proof. intros H. split; [by apply length_id_of|]. by apply bool_decide_eq_false in H. Qed.

Lemma nodes_bond_witness : exists tA' q tB' reply bonds l hash,
  udp_ping (demo_conf 5) (@id_of smallC small_group 6) (demo_addr 6) (demo_udp 5 [] ∅) = Ret (tA', [(demo_addr 6, q)]) /\
  read_datagram (demo_conf 6) (demo_addr 5) q (demo_udp 6 [] ∅) = Ret (None, tB', mk_effects [(demo_addr 5, reply)] bonds) /\
  read_datagram (demo_conf 5) (demo_addr 6) reply tA' = Ret (None, with_loop l tA', nothing) /\
  l_answers l = [mk_answer 0 None (CbPong hash)].
Proof.
  destruct (nodes_bond (demo_conf 5) 5 (demo_udp 5 [] ∅) (demo_addr 5) (demo_conf 6) 6 (demo_udp 6 [] ∅) (demo_addr 6) 30303 demo_now)
    as (tA' & q & tB' & reply & bonds & l & hash & E1 & E2 & E3 & _ & E4 & _).
  - apply demo_running_alone. lia.
  - apply demo_running_alone. lia.
  - apply Forall_nil_2.
  - vm_compute. congruence.
  - apply demo_id_of_valid. vm_compute. reflexivity.
  - intros E. apply (bool_decide_eq_false_1 (@id_of smallC small_group 6 = @id_of smallC small_group 5)); [vm_compute; reflexivity|exact E].
  - exact empty_slices.
  - vm_compute. reflexivity.
  - unfold time_ok. vm_compute. split; congruence.
  - vm_compute. congruence.
  - exists tA', q, tB', reply, bonds, l, hash. split; [exact E1|]. split; [exact E2|]. split; [exact E3|exact E4].
Defined.

(** The node with key 6 knows two others, and has a bond with the one that asks. *)
Definition demo_bonded : db_type := updateBondTime ∅ (@id_of smallC small_group 5) demo_now.

Lemma query_answered_witness : exists tA' q dgs l,
  udp_findnode (demo_conf 5) (@id_of smallC small_group 6) (demo_addr 6) (@id_of smallC small_group 9) (demo_udp 5 [] ∅) = Ret (tA', [(demo_addr 6, q)]) /\
  read_datagram (demo_conf 6) (demo_addr 5) q (demo_udp 6 [demo_peer 7; demo_peer 8] demo_bonded) =
    Ret (None, demo_udp 6 [demo_peer 7; demo_peer 8] demo_bonded, mk_effects (pair (demo_addr 5) <$> dgs) []) /\
  deliver_all (demo_conf 5) (demo_addr 6) dgs tA' = Ret (with_loop l tA') /\
  l_answers l = [] /\ length (l_plist l) = 1%nat.
Proof.
  destruct (query_answered (demo_conf 5) 5 (demo_udp 5 [] ∅) (demo_addr 5) (demo_conf 6) 6 (demo_udp 6 [demo_peer 7; demo_peer 8] demo_bonded)
    (demo_addr 6) (@id_of smallC small_group 9)) as (tA' & q & dgs & l & E1 & E2 & _ & E3 & E4).
  - apply demo_running_alone. lia.
  - apply demo_running; [lia|]. intros n [->|[->|[]%not_elem_of_nil]%elem_of_cons]%elem_of_cons; eexists; reflexivity.
  - by apply length_id_of.
  - apply Forall_nil_2.
  - vm_compute. congruence.
  - vm_compute. reflexivity.
  - exists tA', q, dgs, l. split; [exact E1|]. split; [exact E2|]. split; [exact E3|].
    rewrite decide_False in E4; [destruct E4 as [E4 E5]; rewrite E4, E5; split; reflexivity|]. vm_compute. congruence.
Defined.
