(* ===== verification/TableLoop.v ===== *)
(** * The goroutines of the node table

    [src/p2p/discover/table.go]: [Table.loop], which schedules refreshes and revalidations and ends the table, the callers of
    [refresh] and [Close], and the processes of [bond], which share results and a limited number of slots.  Channels that
    callers wait on are numbered in the order in which they are made; closing a channel twice panics. *)

From S2P Require Import Prelude Protocol Node Replies NodeDB Discovery.

(** ** Refreshing and closing *)

Module RefreshLoop.

(** Where [loop] is: in its [select], waiting for the refresh after it has left it, or returned. *)
Inductive phase := Looping | Leaving | Ended.

(** What happens to the revalidation: the timer is set, a goroutine checks a node, or it wants to send on
    [revalidateDone], where nobody may receive any more. *)
Inductive revalidation := TimerSet | Checking | Reporting.

Record loop_state := mk_state {
  rl_phase : phase;
  rl_refreshDone : option nat;         (* the refresh the loop waits for *)
  rl_running : list nat;               (* the goroutines [doRefresh] that have not closed their channel *)
  rl_waiting : list nat;
  rl_closed : list nat;                (* the channels that were closed, in order *)
  rl_next : nat;                       (* the next channel of a caller *)
  rl_refreshes : nat;
  rl_revalidation : revalidation;
  rl_copies : nat;
  rl_tableClosed : bool
}.

(** Channel 0 is [initDone]; the first refresh is started at once. *)
Definition loop_start : loop_state := mk_state Looping (Some 0%nat) [0%nat] [0%nat] [] 1 1 TimerSet 0 false.

Definition start_refresh (s : loop_state) : loop_state :=
  match rl_refreshDone s with
  | None => mk_state (rl_phase s) (Some (rl_refreshes s)) (rl_refreshes s :: rl_running s) (rl_waiting s) (rl_closed s) (rl_next s)
              (S (rl_refreshes s)) (rl_revalidation s) (rl_copies s) (rl_tableClosed s)
  | Some _ => s
  end.

Definition add_waiting (s : loop_state) : loop_state :=
  mk_state (rl_phase s) (rl_refreshDone s) (rl_running s) (rl_waiting s ++ [rl_next s]) (rl_closed s) (S (rl_next s))
    (rl_refreshes s) (rl_revalidation s) (rl_copies s) (rl_tableClosed s).

Definition close_waiting (s : loop_state) : loop_state :=
  mk_state (rl_phase s) None (rl_running s) [] (rl_closed s ++ rl_waiting s) (rl_next s)
    (rl_refreshes s) (rl_revalidation s) (rl_copies s) (rl_tableClosed s).

Definition set_phase (p : phase) (ended : bool) (s : loop_state) : loop_state :=
  mk_state p (rl_refreshDone s) (rl_running s) (rl_waiting s) (rl_closed s) (rl_next s)
    (rl_refreshes s) (rl_revalidation s) (rl_copies s) ended.

Definition set_revalidation (r : revalidation) (s : loop_state) : loop_state :=
  mk_state (rl_phase s) (rl_refreshDone s) (rl_running s) (rl_waiting s) (rl_closed s) (rl_next s)
    (rl_refreshes s) r (rl_copies s) (rl_tableClosed s).

Definition refresh_ends (r : nat) (s : loop_state) : loop_state :=
  mk_state (rl_phase s) (rl_refreshDone s) (filter (fun x => x <> r) (rl_running s)) (rl_waiting s) (rl_closed s) (rl_next s)
    (rl_refreshes s) (rl_revalidation s) (rl_copies s) (rl_tableClosed s).

Definition start_copy (s : loop_state) : loop_state :=
  mk_state (rl_phase s) (rl_refreshDone s) (rl_running s) (rl_waiting s) (rl_closed s) (rl_next s)
    (rl_refreshes s) (rl_revalidation s) (S (rl_copies s)) (rl_tableClosed s).

(** [refresh] on a table that is closed closes its own channel. *)
Definition close_own (s : loop_state) : loop_state :=
  mk_state (rl_phase s) (rl_refreshDone s) (rl_running s) (rl_waiting s) (rl_closed s ++ [rl_next s]) (S (rl_next s))
    (rl_refreshes s) (rl_revalidation s) (rl_copies s) (rl_tableClosed s).

(** The channel of refresh [r] is closed. *)
Definition refresh_done (s : loop_state) : Prop := match rl_refreshDone s with Some r => r ∉ rl_running s | None => True end.

Inductive refresh_step : loop_state -> loop_state -> Prop :=
| S_tick s : rl_phase s = Looping -> refresh_step s (start_refresh s)
| S_request s : rl_phase s = Looping -> refresh_step s (start_refresh (add_waiting s))
| S_refused s : rl_tableClosed s = true -> refresh_step s (close_own s)
| S_done r s : rl_phase s = Looping -> rl_refreshDone s = Some r -> r ∉ rl_running s -> refresh_step s (close_waiting s)
| S_revalidate s : rl_phase s = Looping -> rl_revalidation s = TimerSet -> refresh_step s (set_revalidation Checking s)
| S_checked s : rl_revalidation s = Checking -> refresh_step s (set_revalidation Reporting s)
| S_revalidated s : rl_phase s = Looping -> rl_revalidation s = Reporting -> refresh_step s (set_revalidation TimerSet s)
| S_copy s : rl_phase s = Looping -> refresh_step s (start_copy s)
| S_close s : rl_phase s = Looping -> refresh_step s (set_phase Leaving false s)
| S_left s : rl_phase s = Leaving -> refresh_done s -> refresh_step s (set_phase Ended true (close_waiting s))
| S_refresh_ends r s : r ∈ rl_running s -> refresh_step s (refresh_ends r s).

Record inv (s : loop_state) : Prop := {
  iv_channels : rl_closed s ++ rl_waiting s ≡ₚ seq 0 (rl_next s);
  iv_running : forall r, r ∈ rl_running s -> rl_refreshDone s = Some r;
  iv_one : NoDup (rl_running s);
  iv_refreshed : rl_refreshDone s = None -> rl_waiting s = [];
  iv_closed : rl_tableClosed s = true <-> rl_phase s = Ended;
  iv_ended : rl_phase s = Ended -> rl_waiting s = []
}.

Lemma loop_start_inv : inv loop_start.
Proof. split; try done. - intros r Hr. apply list_elem_of_singleton in Hr. by subst. - apply NoDup_singleton. Qed.

Lemma start_refresh_inv s : rl_phase s = Looping ->
  rl_closed s ++ rl_waiting s ≡ₚ seq 0 (rl_next s) -> (forall r, r ∈ rl_running s -> rl_refreshDone s = Some r) -> NoDup (rl_running s) ->
  (rl_tableClosed s = true <-> rl_phase s = Ended) -> inv (start_refresh s).
Proof.
  intros Hp H1 H2 H3 H5. unfold start_refresh. destruct (rl_refreshDone s) as [r|] eqn:E.
  - split; try done; [by rewrite E|by rewrite E|by rewrite Hp].
  - assert (rl_running s = []) as Hr. { destruct (rl_running s) as [|r rs]; [done|]. by specialize (H2 r ltac:(set_solver)). }
    split; cbn; try done.
    + intros r. rewrite Hr. intros Hi%list_elem_of_singleton. by subst.
    + rewrite Hr. apply NoDup_singleton.
    + by rewrite Hp.
Qed.

Lemma refresh_step_inv s s' : refresh_step s s' -> inv s -> inv s'.
Proof.
  intros Hs [H1 H2 H3 H4 H5 H6]. destruct Hs as [s Hp|s Hp|s Hc|r s Hp Hr Hn|s Hp Hr|s Hr|s Hp Hr|s Hp|s Hp|s Hp Hd|r s Hr].
  - by apply start_refresh_inv.
  - apply start_refresh_inv; try done. cbn [add_waiting rl_closed rl_waiting rl_next]. by rewrite app_assoc, H1, seq_S.
  - split; try done. cbn [close_own rl_closed rl_waiting rl_next]. apply H5 in Hc. rewrite (H6 Hc), app_nil_r in H1.
    by rewrite (H6 Hc), app_nil_r, H1, seq_S.
  - split; cbn; try done.
    + by rewrite app_nil_r.
    + intros r' Hr'. specialize (H2 r' Hr'). rewrite Hr in H2. by injection H2 as ->.
  - by split.
  - by split.
  - by split.
  - by split.
  - by split.
  - split; cbn; try done.
    + by rewrite app_nil_r.
    + intros r Hr. unfold refresh_done in Hd. rewrite (H2 r Hr) in Hd. done.
  - split; cbn; try done.
    + intros r' [_ Hi]%list_elem_of_filter. auto.
    + by apply NoDup_filter.
Qed.

Lemma refresh_reachable_inv s : rtc refresh_step loop_start s -> inv s.
Proof.
  intros H. apply (rtc_ind_r (fun s => inv s) loop_start) with (3 := H); [apply loop_start_inv|].
  intros ? ? _ Hs Hi. by eapply refresh_step_inv.
Qed.

(** The steps that end a refresh and answer its callers. *)
Lemma served s : inv s -> rl_phase s = Looping -> exists s', rtc refresh_step s s' /\ rl_phase s' = Looping /\ rl_waiting s' = [] /\
  rl_closed s' = rl_closed s ++ rl_waiting s.
Proof.
  intros Hi Hp. destruct (rl_refreshDone s) as [r|] eqn:Er; last first.
  { exists s. split; [done|]. by rewrite (iv_refreshed s Hi Er), app_nil_r. }
  set (s1 := refresh_ends r s).
  assert (rtc refresh_step s s1) as H1.
  { destruct (decide (r ∈ rl_running s)) as [Hr|Hr]; [by apply rtc_once, S_refresh_ends|].
    assert (s1 = s) as ->; [|done]. unfold s1, refresh_ends. rewrite filter_all; [by destruct s|]. intros x Hx ->. done. }
  exists (close_waiting s1). split; [|done]. eapply rtc_r; [exact H1|]. apply (S_done r); [done|done|].
  cbn. by intros [? _]%list_elem_of_filter.
Qed.

(** Once the loop has left its [select], it returns after at most the end of the refresh. *)
Lemma leaves s : inv s -> rl_phase s = Leaving -> exists s', rtc refresh_step s s' /\ rl_phase s' = Ended /\
  rl_closed s' = rl_closed s ++ rl_waiting s.
Proof.
  intros Hi Hp. set (s1 := match rl_refreshDone s with Some r => refresh_ends r s | None => s end).
  assert (rtc refresh_step s s1 /\ refresh_done s1 /\ rl_phase s1 = Leaving /\ rl_closed s1 = rl_closed s /\ rl_waiting s1 = rl_waiting s)
    as (H1 & H2 & H3 & H4 & H5).
  { unfold s1, refresh_done. destruct (rl_refreshDone s) as [r|] eqn:Er; [|by rewrite Er].
    split; [|cbn; rewrite Er; split; [by intros [? _]%list_elem_of_filter|done]].
    destruct (decide (r ∈ rl_running s)) as [Hr|Hr]; [by apply rtc_once, S_refresh_ends|].
    assert (refresh_ends r s = s) as ->; [|done]. unfold refresh_ends. rewrite filter_all; [by destruct s|]. intros x Hx ->. done. }
  exists (set_phase Ended true (close_waiting s1)). split; [|cbn; by rewrite H4, H5]. eapply rtc_r; [exact H1|]. by apply S_left.
Qed.

(** The callers of [refresh] and [Close] are served: over all interleavings of the goroutines of the table at most one refresh runs, no
    channel is closed twice (which would panic), a caller never waits without a refresh that will answer it, and
    from every state all callers can be answered; a table that is being closed returns as soon as the refresh that runs has
    ended, and nobody is left waiting. *)
Theorem refresh_served s : rtc refresh_step loop_start s ->
  (length (rl_running s) <= 1)%nat /\ NoDup (rl_closed s ++ rl_waiting s) /\
  (forall c, (c < rl_next s)%nat -> c ∈ rl_closed s \/ c ∈ rl_waiting s /\ is_Some (rl_refreshDone s)) /\
  (rl_phase s <> Ended -> exists s', rtc refresh_step s s' /\ rl_phase s' = Ended /\ rl_waiting s' = [] /\ forall c, (c < rl_next s)%nat -> c ∈ rl_closed s') /\
  (rl_phase s = Looping -> exists s', rtc refresh_step s s' /\ rl_phase s' = Looping /\ forall c, (c < rl_next s)%nat -> c ∈ rl_closed s').
Proof.
  intros Hreach. pose proof (refresh_reachable_inv s Hreach) as Hi.
  assert (forall c, (c < rl_next s)%nat -> c ∈ rl_closed s ++ rl_waiting s) as Hc.
  { intros c Hc. rewrite (iv_channels s Hi). apply elem_of_seq. lia. }
  split_and!.
  - destruct (rl_running s) as [|r [|r' rs]] eqn:E; cbn; try lia. exfalso. pose proof (iv_one s Hi) as Hn. rewrite E in Hn.
    pose proof (iv_running s Hi r ltac:(rewrite E; set_solver)) as H1. pose proof (iv_running s Hi r' ltac:(rewrite E; set_solver)) as H2.
    rewrite H1 in H2. injection H2 as ->. apply NoDup_cons in Hn as [Hn _]. set_solver.
  - rewrite (iv_channels s Hi). apply NoDup_seq.
  - intros c [H|H]%Hc%elem_of_app; [by left|right]. split; [done|].
    destruct (rl_refreshDone s) as [r|] eqn:E; [done|]. rewrite (iv_refreshed s Hi E) in H. by apply not_elem_of_nil in H.
  - intros Hp. assert (exists s1, rtc refresh_step s s1 /\ inv s1 /\ rl_phase s1 = Leaving /\ rl_closed s1 = rl_closed s /\ rl_waiting s1 = rl_waiting s)
      as (s1 & H1 & Hi1 & Hp1 & Hc1 & Hw1).
    { destruct (rl_phase s) eqn:E; [|by exists s|done]. exists (set_phase Leaving false s).
      split; [by apply rtc_once, S_close|]. split; [by eapply refresh_step_inv; [apply S_close|]|done]. }
    destruct (leaves s1 Hi1 Hp1) as (s2 & H2 & Hp2 & Hc2). exists s2.
    assert (rtc refresh_step s s2) as H12 by (by etransitivity). split; [done|]. split; [done|].
    split; [apply iv_ended; [|done]; apply refresh_reachable_inv; by etransitivity|].
    intros c Hlt. rewrite Hc2, Hc1, Hw1. by apply Hc.
  - intros Hp. destruct (served s Hi Hp) as (s' & H1 & H2 & _ & H4). exists s'. split; [done|]. split; [done|]. rewrite H4. exact Hc.
Qed.

(** A revalidation that runs when the table is closed never ends: nobody receives from [revalidateDone] any more. *)
Theorem revalidation_leaks : exists s, rtc refresh_step loop_start s /\ rl_phase s = Ended /\ rl_revalidation s = Reporting /\
  forall s', rtc refresh_step s s' -> rl_revalidation s' = Reporting.
Proof.
  set (s1 := set_revalidation Checking loop_start). set (s2 := set_phase Leaving false s1). set (s3 := refresh_ends 0 s2).
  set (s4 := set_phase Ended true (close_waiting s3)). exists (set_revalidation Reporting s4). split_and!; try done.
  - eapply rtc_l; [by apply S_revalidate|]. eapply rtc_l; [by apply S_close|]. eapply rtc_l; [apply (S_refresh_ends 0); cbn; set_solver|].
    eapply rtc_l; [apply S_left; [done|]; cbn; by apply not_elem_of_nil|]. eapply rtc_once. by apply S_checked.
  - intros s' H. assert (rl_phase s' = Ended /\ rl_revalidation s' = Reporting) as [_ ?]; [|done].
    apply (rtc_ind_r (fun s => rl_phase s = Ended /\ rl_revalidation s = Reporting) (set_revalidation Reporting s4)) with (3 := H); [done|].
    clear. intros s s' _ Hs [Hp Hr]. destruct Hs; try done; congruence.
Qed.

Definition demo_state : loop_state := start_refresh (add_waiting loop_start).

Lemma refresh_served_witness : (length (rl_running demo_state) <= 1)%nat /\
  exists s', rtc refresh_step demo_state s' /\ rl_phase s' = Looping /\ 0%nat ∈ rl_closed s' /\ 1%nat ∈ rl_closed s'.
Proof.
  destruct (refresh_served demo_state) as (H1 & _ & _ & _ & H2).
  - apply rtc_once. apply S_request. reflexivity.
  - split; [exact H1|]. destruct (H2 eq_refl) as (s' & Hs & Hp & Hc). exists s'. split; [exact Hs|]. split; [exact Hp|].
    split; apply Hc; cbn; lia.
Defined.

End RefreshLoop.

(** ** Bonding processes

    [bond] registers a process for a node in the map [bonding], or waits for the one that is registered; a process takes
    one of the sixteen slots for its ping, reports its result by closing [done], gives the slot back and leaves the map. *)

Module Bonding.

Definition maxBondingPingPongs : nat := 16.

Inductive stage := WaitsForSlot | Pinging | Reported | Released | Gone.

#[global] Instance stage_eq_dec : EqDecision stage.
Proof. solve_decision. Defined.

(** [bd_procs] holds all processes, numbered from the first; [bd_waiters] the callers that wait for one. *)
Record bond_state := mk_state {
  bd_bonding : gmap NodeID nat;
  bd_procs : list (NodeID * stage);
  bd_slots : nat;
  bd_waiters : list nat
}.

Definition bond_start : bond_state := mk_state ∅ [] maxBondingPingPongs [].

Definition set_stage (p : nat) (id : NodeID) (st : stage) (s : bond_state) : list (NodeID * stage) := <[p := (id, st)]> (bd_procs s).

Inductive bond_step : bond_state -> bond_state -> Prop :=
| B_register id s : bd_bonding s !! id = None ->
    bond_step s (mk_state (<[id := length (bd_procs s)]> (bd_bonding s)) (bd_procs s ++ [(id, WaitsForSlot)]) (bd_slots s) (bd_waiters s))
| B_join id p s : bd_bonding s !! id = Some p ->
    bond_step s (mk_state (bd_bonding s) (bd_procs s) (bd_slots s) (p :: bd_waiters s))
| B_slot p id n s : bd_procs s !! p = Some (id, WaitsForSlot) -> bd_slots s = S n ->
    bond_step s (mk_state (bd_bonding s) (set_stage p id Pinging s) n (bd_waiters s))
| B_report p id s : bd_procs s !! p = Some (id, Pinging) ->
    bond_step s (mk_state (bd_bonding s) (set_stage p id Reported s) (bd_slots s) (bd_waiters s))
| B_release p id s : bd_procs s !! p = Some (id, Reported) ->
    bond_step s (mk_state (bd_bonding s) (set_stage p id Released s) (S (bd_slots s)) (bd_waiters s))
| B_unregister p id s : bd_procs s !! p = Some (id, Released) ->
    bond_step s (mk_state (delete id (bd_bonding s)) (set_stage p id Gone s) (bd_slots s) (bd_waiters s))
| B_woken p id st ws s : bd_waiters s ≡ₚ p :: ws -> bd_procs s !! p = Some (id, st) -> st ∈ [Reported; Released; Gone] ->
    bond_step s (mk_state (bd_bonding s) (bd_procs s) (bd_slots s) ws).

Definition holds_slot (x : NodeID * stage) : bool := match x.2 with Pinging | Reported => true | _ => false end.
Definition slots_held (l : list (NodeID * stage)) : nat := length (filter (fun x => holds_slot x = true) l).

Record inv (s : bond_state) : Prop := {
  bi_map id p : bd_bonding s !! id = Some p <-> exists st, bd_procs s !! p = Some (id, st) /\ st <> Gone;
  bi_slots : (bd_slots s + slots_held (bd_procs s) = maxBondingPingPongs)%nat;
  bi_waiters p : p ∈ bd_waiters s -> is_Some (bd_procs s !! p)
}.

Lemma slots_held_insert l p id st st' : l !! p = Some (id, st) ->
  (slots_held (<[p := (id, st')]> l) + (if holds_slot (id, st) then 1 else 0) = slots_held l + (if holds_slot (id, st') then 1 else 0))%nat.
Proof.
  intros Hp. unfold slots_held. rewrite insert_take_drop by (by eapply lookup_lt_Some).
  rewrite <- (take_drop_middle l p (id, st) Hp) at 3. rewrite !filter_app, !length_app, !filter_cons.
  repeat (case_decide || case_match); simplify_eq/=; cbn; try lia; congruence.
Qed.

Lemma slots_held_waiting l id : slots_held (l ++ [(id, WaitsForSlot)]) = slots_held l.
Proof. unfold slots_held. rewrite filter_app, filter_cons_False by done. by rewrite filter_nil, app_nil_r. Qed.

(** Moving a process to another stage, when that neither registers nor unregisters it. *)
Lemma set_stage_map s p id st st' : inv s -> bd_procs s !! p = Some (id, st) -> st <> Gone -> st' <> Gone ->
  forall i q, bd_bonding s !! i = Some q <-> exists st0, set_stage p id st' s !! q = Some (i, st0) /\ st0 <> Gone.
Proof.
  intros Hi Hp Hst Hst' i q. rewrite (bi_map s Hi). unfold set_stage. pose proof (lookup_lt_Some _ _ _ Hp) as Hlt.
  destruct (decide (p = q)) as [<-|Hne].
  - rewrite list_lookup_insert_eq by done. rewrite Hp. split; intros (st0 & [= -> ->] & H0); by eexists.
  - by rewrite list_lookup_insert_ne.
Qed.

Lemma set_stage_waiters s p id st' q : is_Some (bd_procs s !! q) -> is_Some (set_stage p id st' s !! q).
Proof. intros H. apply lookup_lt_is_Some. unfold set_stage. rewrite length_insert. by apply lookup_lt_is_Some. Qed.

Lemma bond_step_inv s s' : bond_step s s' -> inv s -> inv s'.
Proof.
  intros Hs Hi. pose proof Hi as [H1 H2 H3].
  destruct Hs as [id s Hn|id p s Hm|p id n s Hp Hn|p id s Hp|p id s Hp|p id s Hp|p id st ws s Hw Hp Hst].
  - split; cbn [bd_bonding bd_procs bd_slots bd_waiters].
    + intros i q. destruct (decide (i = id)) as [->|Hne].
      * rewrite lookup_insert_eq. split; [intros [= <-]; exists WaitsForSlot; by rewrite lookup_app_r, Nat.sub_diag|].
        intros (st & Hq & Hg). destruct (decide (q < length (bd_procs s))%nat) as [Hlt|Hge].
        -- rewrite lookup_app_l in Hq by done. assert (bd_bonding s !! id = Some q) as E by (apply H1; by exists st). congruence.
        -- rewrite lookup_app_r in Hq by lia. destruct (q - length (bd_procs s))%nat eqn:Eq; [|done]. f_equal. lia.
      * rewrite lookup_insert_ne by done. rewrite H1. split.
        -- intros (st & Hq & Hg). exists st. split; [|done]. by apply lookup_app_l_Some.
        -- intros (st & Hq & Hg). exists st. split; [|done]. apply lookup_app_Some in Hq as [Hq|[Hge Hq]]; [done|].
           destruct (q - length (bd_procs s))%nat; [|done]. cbn in Hq. congruence.
    + by rewrite slots_held_waiting.
    + intros q [v Hv]%H3. exists v. by apply lookup_app_l_Some.
  - split; cbn [bd_bonding bd_procs bd_slots bd_waiters]; [done|done|]. intros q [->|Hq]%elem_of_cons; [|auto]. apply H1 in Hm as (st & -> & _). done.
  - split; cbn [bd_bonding bd_procs bd_slots bd_waiters]; [by apply (set_stage_map s p id WaitsForSlot)| |intros q Hq; by apply set_stage_waiters, H3].
    unfold set_stage. pose proof (slots_held_insert _ p id WaitsForSlot Pinging Hp). cbn [holds_slot snd] in *. lia.
  - split; cbn [bd_bonding bd_procs bd_slots bd_waiters]; [by apply (set_stage_map s p id Pinging)| |intros q Hq; by apply set_stage_waiters, H3].
    unfold set_stage. pose proof (slots_held_insert _ p id Pinging Reported Hp). cbn [holds_slot snd] in *. lia.
  - split; cbn [bd_bonding bd_procs bd_slots bd_waiters]; [by apply (set_stage_map s p id Reported)| |intros q Hq; by apply set_stage_waiters, H3].
    unfold set_stage. pose proof (slots_held_insert _ p id Reported Released Hp). cbn [holds_slot snd] in *. lia.
  - assert (bd_bonding s !! id = Some p) as Hm by (apply H1; by exists Released). split; cbn [bd_bonding bd_procs bd_slots bd_waiters].
    + intros i q. unfold set_stage. pose proof (lookup_lt_Some _ _ _ Hp) as Hlt. destruct (decide (i = id)) as [->|Hne].
      * rewrite lookup_delete_eq. split; [done|]. intros (st & Hq & Hg). destruct (decide (p = q)) as [<-|Hpq].
        -- rewrite list_lookup_insert_eq in Hq by done. congruence.
        -- rewrite list_lookup_insert_ne in Hq by done. assert (bd_bonding s !! id = Some q) as E by (apply H1; by exists st). congruence.
      * rewrite lookup_delete_ne, H1 by done. destruct (decide (p = q)) as [<-|Hpq].
        -- rewrite list_lookup_insert_eq by done. rewrite Hp. split; intros (st & [= ? ?] & Hg); congruence.
        -- by rewrite list_lookup_insert_ne.
    + unfold set_stage. pose proof (slots_held_insert _ p id Released Gone Hp). cbn [holds_slot snd] in *. lia.
    + intros q Hq. by apply set_stage_waiters, H3.
  - split; cbn [bd_bonding bd_procs bd_slots bd_waiters]; [done|done|]. intros q Hq. apply H3. rewrite Hw. by apply list_elem_of_further.
Qed.

Lemma bond_reachable_inv s : rtc bond_step bond_start s -> inv s.
Proof.
  intros H. apply (rtc_ind_r (fun s => inv s) bond_start) with (3 := H); [|intros ? ? _ Hs Hi; by eapply bond_step_inv].
  split; cbn; [|done|by intros p ?%not_elem_of_nil]. intros id p. rewrite lookup_empty. split; [done|]. by intros (st & ? & _).
Qed.

(** The work left: the stages before every process, and the callers that wait. *)
Definition stage_left (st : stage) : nat :=
  match st with WaitsForSlot => 4 | Pinging => 3 | Reported => 2 | Released => 1 | Gone => 0 end.
Definition work (s : bond_state) : nat := sum_list_with (fun x => stage_left x.2) (bd_procs s) + length (bd_waiters s).

(** The steps that are not new calls of [bond]. *)
Definition new_call (s s' : bond_state) : Prop := (length (bd_procs s) < length (bd_procs s'))%nat \/ (length (bd_waiters s) < length (bd_waiters s'))%nat.

Lemma work_insert l p id st st' : l !! p = Some (id, st) -> (stage_left st' < stage_left st)%nat ->
  (sum_list_with (fun x => stage_left x.2) (<[p := (id, st')]> l) < sum_list_with (fun x : NodeID * stage => stage_left x.2) l)%nat.
Proof.
  intros Hp Hlt. rewrite insert_take_drop by (by eapply lookup_lt_Some).
  rewrite <- (take_drop_middle l p (id, st) Hp) at 3. rewrite !sum_list_with_app. cbn [sum_list_with snd]. lia.
Qed.

(** Every step but a new call of [bond] makes progress. *)
Lemma step_work s s' : bond_step s s' -> new_call s s' \/ (work s' < work s)%nat.
Proof.
  unfold new_call, work, set_stage. destruct 1 as [id s Hn|id p s Hm|p id n s Hp Hn|p id s Hp|p id s Hp|p id s Hp|p id st ws s Hw Hp Hst];
    cbn [bd_procs bd_waiters].
  - left. left. rewrite length_app. cbn. lia.
  - left. right. cbn. lia.
  - right. apply Nat.add_lt_mono_r, (work_insert _ p id WaitsForSlot Pinging Hp). cbn. lia.
  - right. apply Nat.add_lt_mono_r, (work_insert _ p id Pinging Reported Hp). cbn. lia.
  - right. apply Nat.add_lt_mono_r, (work_insert _ p id Reported Released Hp). cbn. lia.
  - right. apply Nat.add_lt_mono_r, (work_insert _ p id Released Gone Hp). cbn. lia.
  - right. apply Permutation_length in Hw. cbn in Hw. lia.
Qed.

Lemma slots_held_pos l : (0 < slots_held l)%nat -> exists p id st, l !! p = Some (id, st) /\ (st = Pinging \/ st = Reported).
Proof.
  unfold slots_held. intros H. destruct (filter _ l) as [|[id st] rest] eqn:E; [cbn in H; lia|].
  assert ((id, st) ∈ filter (fun x => holds_slot x = true) l) as [Hh Hin]%list_elem_of_filter by (rewrite E; apply list_elem_of_here).
  apply list_elem_of_lookup in Hin as [p Hp]. exists p, id, st. split; [done|]. destruct st; auto; done.
Qed.

(** While anything is left to do a process or a caller can go on. *)
Lemma progress s : inv s -> (0 < work s)%nat -> exists s', bond_step s s' /\ ~ new_call s s'.
Proof.
  intros [H1 H2 H3] Hw.
  assert (forall p id st m n, ~ new_call s (mk_state m (<[p := (id, st)]> (bd_procs s)) n (bd_waiters s))) as Hold.
  { intros p id st m n [H|H]; cbn in H; rewrite ?length_insert in H; lia. }
  assert (forall p id st, bd_procs s !! p = Some (id, st) -> st <> Gone -> exists s', bond_step s s' /\ ~ new_call s s') as Hgo.
  { intros p id st Hp Hg. destruct st; [|by eexists; split; [by apply (B_report p)|apply Hold]|by eexists; split; [by apply (B_release p)|apply Hold]
      |by eexists; split; [by apply (B_unregister p)|apply Hold]|done].
    destruct (bd_slots s) as [|n] eqn:En; [|by eexists; split; [by apply (B_slot p id n)|apply Hold]].
    destruct (slots_held_pos (bd_procs s)) as (q & id' & st & Hq & [-> | ->]); [unfold maxBondingPingPongs in H2; lia|..].
    - by eexists; split; [by apply (B_report q)|apply Hold].
    - by eexists; split; [by apply (B_release q)|apply Hold]. }
  destruct (decide (Exists (fun x => x.2 <> Gone) (bd_procs s))) as [Hex|Hno].
  - apply Exists_exists in Hex as ([id st] & Hin & Hg). apply list_elem_of_lookup in Hin as [p Hp]. by apply (Hgo p id st).
  - assert (sum_list_with (fun x => stage_left x.2) (bd_procs s) = 0%nat) as H0.
    { apply not_Exists_Forall in Hno; [|apply _]. clear -Hno. induction Hno as [|[id st] l Hx _ IH]; [done|]. cbn [sum_list_with snd].
      rewrite IH. destruct st; cbn in *; [exfalso; by apply Hx..|done]. }
    unfold work in Hw. destruct (bd_waiters s) as [|p ws] eqn:Ew; [cbn in Hw; lia|].
    destruct (H3 p) as [[id st] Hp]; [apply list_elem_of_here|].
    assert (st = Gone) as ->.
    { destruct (decide (st = Gone)) as [|Hg]; [done|]. exfalso. apply Hno, Exists_exists. exists (id, st). split; [by eapply list_elem_of_lookup_2|done]. }
    eexists. split; [apply (B_woken p id Gone ws); [by rewrite Ew|done|set_solver]|]. intros [H|H]; cbn in H; [lia|]. rewrite Ew in H. cbn in H. lia.
Qed.

(** Calls of [bond] do not disturb each other: over all interleavings at most sixteen nodes are pinged at the same time, no
    node by two processes, and as long as a process or a caller is left one of them can go on, which without new calls
    happens only as often as there is work left. *)
Theorem bonding_sound s : rtc bond_step bond_start s ->
  (slots_held (bd_procs s) <= maxBondingPingPongs)%nat /\
  (forall p q id st st', bd_procs s !! p = Some (id, st) -> bd_procs s !! q = Some (id, st') -> st <> Gone -> st' <> Gone -> p = q) /\
  ((0 < work s)%nat -> exists s', bond_step s s' /\ ~ new_call s s') /\
  (forall s', bond_step s s' -> new_call s s' \/ (work s' < work s)%nat).
Proof.
  intros Hi%bond_reachable_inv. split_and!.
  - pose proof (bi_slots s Hi). lia.
  - intros p q id st st' Hp Hq Hg Hg'. assert (bd_bonding s !! id = Some p) as E1 by (apply (bi_map s Hi); by exists st).
    assert (bd_bonding s !! id = Some q) as E2 by (apply (bi_map s Hi); by exists st'). congruence.
  - by apply progress.
  - apply step_work.
Qed.

End Bonding.
